(* ===== verification/_CoqProject ===== *)
-Q . S2P
Prelude.v
Errors.v
Bytes.v
Float64.v
Model.v
Utf8.v
Transaction.v
Graph.v
Catalog.v
Aggregate.v
Rollup.v
Query.v
Wire.v
Codec.v
Protocol.v
ProtocolInv.v
Canonical.v
Columns.v
Effects.v
Segment.v
SegmentInv.v
SegmentWrite.v
RollupSegment.v
Directory.v
Manifest.v
ManifestInv.v
Planner.v
PlannerInv.v
Locality.v
Scan.v
LogInv.v
Database.v
Store.v
StoreInv.v
Shards.v
StoreSweep.v
Refine.v
Durable.v
Recovery.v
Retry.v
ReclaimInv.v
Salvage.v
Commits.v
StoreExact.v
StoreMaintain.v
Snapshot.v
SnapshotInv.v
SnapshotCheck.v
Reconcile.v
ReconcileInv.v
Instances.v
Demo.v
StoreDemo.v
Runtime.v
RuntimeInv.v
RuntimeDb.v
StoreWriter.v
StoreLog.v
Server.v
ServerInv.v
LogProps.v
DataProps.v
StoreProps.v
GaugeProps.v
ShadowProps.v
ReconcileProps.v
ServerProps.v
SnapshotProps.v
LimitProps.v
SdProfile.v
SdCard.v
SdCardInv.v
SdCardRun.v
SdCardKeep.v
SdCardHost.v
SdProps.v
Nbd.v
NbdProps.v
Workload.v
WorkloadProps.v
