(* ===== verification/Prelude.v ===== *)
(** * FTWDB: a verification of the embedded time-series database

    FTWDB keeps points (measurements, forecasts, plans) of energy-system series
    in a write-ahead log, seals them into immutable column segments, summarises
    them in rollup files, and publishes both through manifest generations.  A
    sidecar process offers the database to one producer over a framed protocol
    and a bounded single-writer queue.  This development models that code, from
    the bytes on disk to the interleavings of the queue, and proves what its
    clients rely on.  Paths below are under [src/src/].

    ** Parts and files

    - Foundations.  [Prelude] (lists, machine integers, tactics), [Errors]
      ([error.rs], the [Result] monad), [Bytes] (little-endian integers),
      [Float64] ([f64] as its bit pattern, with the comparisons and the
      arithmetic the source uses), [Utf8] (strings and their order), [Effects]
      (the state-and-error monad, a file with injected failures and power
      loss), [Directory] (a directory with the same).
    - Domain.  [Model] ([model.rs]), [Transaction] ([transaction.rs]), [Graph]
      and [Catalog] ([catalog.rs]), [Aggregate] ([aggregate.rs]), [Rollup]
      ([rollup.rs]).
    - Log ([storage.rs]).  [Codec] (frames, points, transactions, identity
      index), [Scan] ([scan_log] and what it replays), [Database] (every method
      of the handle, [reclaim_live_log] included), [Query] (the index and the
      point queries over any segments), [Salvage].  [LogInv], [Refine],
      [Durable], [Recovery], [Retry], [Commits] and [ReclaimInv] hold their
      lemmas.
    - Immutable files.  [Columns] and [Segment] ([segment.rs]) with
      [SegmentInv] and [SegmentWrite]; [RollupSegment] ([rollup_segment.rs]);
      [Manifest] ([manifest.rs]) with [ManifestInv].
    - Store ([store.rs]).  [Planner] (which shards are complete, needed, expired and
      which files answer a range), [Store] (every method over the log and
      three directories: opening and reconciling, commits and invalidation,
      maintenance, sealing, gauge queries, retention gates, reclamation,
      integrity).  [PlannerInv], [Locality], [StoreInv], [Shards],
      [StoreSweep], [StoreExact] and [StoreMaintain] hold their lemmas.
    - Copies ([snapshot.rs] and the copies of [store.rs]).  [Snapshot] (the
      checksum, staging, publication and rollback; backup, restore and salvage
      over a directory of directories), with [SnapshotInv] (the protocol, what
      a copy holds) and [SnapshotCheck] (what the checksum proves).
    - Sidecar.  [Wire] and [Protocol] ([shadow_protocol.rs]) with [ProtocolInv]
      and [Canonical]; [Runtime] ([shadow_runtime.rs]) with [RuntimeInv]
      and [RuntimeDb] (the interface of a backend that keeps a log, and the
      database behind it), [StoreWriter] (the store behind it, with its limits)
      and [StoreLog] (the store without background sealing keeps its log);
      [Server] ([shadow_server.rs]) with [ServerInv]; [Reconcile]
      ([shadow_reconcile.rs]) with [ReconcileInv].
    - The emulated SD card of the test bench ([config.rs], [model.rs] and
      [nbd.rs] of [src/bench/sd-card-emulator/src/]).  [SdProfile] (profiles),
      [SdCard] (cache, wear, faults and power loss), with [SdCardInv],
      [SdCardRun], [SdCardKeep] and [SdCardHost] (failing calls of its backing
      file); [Nbd] (a session of its NBD server).
    - Benchmark workloads ([workload.rs]).  [Workload] (the contract and the
      transactions of a workload).
    - Properties.  [LogProps], [DataProps], [StoreProps], [ShadowProps],
      [GaugeProps], [ServerProps], [ReconcileProps], [SnapshotProps],
      [LimitProps], [SdProps], [NbdProps], [WorkloadProps]
      state the guarantees, each with an example that satisfies its
      hypotheses; [Instances], [Demo] and [StoreDemo] hold the concrete parameters and
      states of these examples.

    ** How the code is modelled

    A method that takes [&mut self] is a function of the state that returns the
    new state with a [Result]; a pure function is a function; a Rust enum is an
    inductive type with the same constructors.  Machine integers are [Z] with
    the wrap-around, saturation or check the source asks for written out; an
    [f64] is a 64-bit pattern.  An arithmetic overflow or a library call that
    panics is the error [Panic].  Error texts that are built with [format!]
    keep their template.

    Every call of the file system takes the next entry of a list of faults:
    none, an error before anything happened, or an error after part of the
    effect.  A power loss keeps any prefix of the log that contains the synced
    bytes ([Effects.crash]); in a directory it keeps, name by name, any binding
    the name had since the last sync of the directory, and of a file that was
    not synced any contents ([Directory.crash_image]).  A handle whose log was
    renamed away under it ([reclaim_live_log] when the directory cannot be
    synced) keeps its old file; [log_at_path] is what the path then names.

    The sidecar queue is a transition system ([Runtime.step]): a step is one
    critical section of a producer, or one receive, release, processing or
    reply of the worker.  The worker owns the backend and touches nothing else
    while it processes a command, apart from the health record, which producers
    read only for the state and the last error; processing is therefore one
    step.  [Server.server_step] interleaves these with the actions of the server
    thread: one accept, one frame read, one call, one reply awaited, one
    response written.  What the system answers to an action is an input of it.

    Third-party code enters as classes: [Crc] (crc32fast), [RecordCodec],
    [IndexCodec] and [ManifestCodec] (postcard), [Lz4] (lz4_flex), [TimeZones]
    (the calls on jiff's zoned times; [calendar_bucket_bounds] is the code over
    them, and [CalendarZone] says of a zone that no clock change skips or
    repeats midnight, without which buckets of days overlap), [ReadDir] (the order of a directory
    listing).  Their laws are round trips, bounds and permutations.
    [Instances] satisfies all of them at once.

    Loops that are not structural run on fuel.  [visit_stack] has one step per
    edge and node and [follow_parents] and [drain] one per record, which their
    termination lemmas show to be enough; [read_chunks] has one per byte;
    varints have the ten or nineteen bytes the source allows; [cover_from]
    has two steps per candidate, each passing an end, which its lemma shows;
    the shard loops of [needed_completed_shards] have one step per shard
    between the first and the last point; an
    NBD session has one step per byte it can read; [scan_frames]
    has one step per byte of the file.  A scan that returns is proved for every
    file, not assumed.

    ** What the theorems show

    - The log ([LogProps]): what was reported durable survives power loss; what
      is left of a log opens to a prefix that holds everything synced; opening
      rebuilds exactly the state of the writer; failed calls change nothing;
      retries are exact; the scan of any bytes returns; damage is reported and
      never mistaken for a torn tail; salvage reports a valid prefix; reclaiming
      the log keeps everything it stood for, also when it fails half-way.
    - The data ([DataProps]): the catalog stays sound, reference checks are
      exact, histories are kept, snapshots rebuild; queries return exactly the
      latest visible revisions; rollups and aggregates account for every sample
      and every covered microsecond.
    - The files ([StoreProps]): sealed points are served back, both read paths
      agree, sealing succeeds away from the ends of time, rollup files round
      trip, publishing a manifest is atomic and pruning harmless.
    - The store ([GaugeProps]): coverage plans split a range exactly; a gauge
      query answers from files and raw points what the whole series would give;
      appends keep the rollups exact, away from the tail of one, and maintenance
      does; reclamation never touches a file a retained manifest names.  Runs
      show what the code gets wrong: rollups left stale after the next sample
      within the maximum gap and after a series was redefined with another gap,
      days that overlap where a clock change skips midnight, and a store that
      does not open again after an interrupted seal was repeated.
    - Copies ([SnapshotProps]): a backup, restore or salvage appears whole and
      checked or not at all, whichever calls fail; what passed the checksum
      holds the bytes of its source, unless its bytes and theirs collide.
    - The sidecar ([ShadowProps]): frames round trip and are canonical; the
      queue keeps its limits in every interleaving, serves commands in order and
      answers all of them unless a maintenance call panics; acknowledged writes
      survive; storage limits hold ([LimitProps]).
    - Sessions ([ServerProps]): each request gets its one response, for the
      source of the session only, and what was acknowledged to a client
      survives, over a database and over a store without background sealing,
      as the sidecar runs it.
    - Reconciliation ([ReconcileProps]): a report says exactly whether the
      window of a source is stored, and a source copy it releases survives.
    - The emulated SD card of the test bench ([SdProps], [NbdProps]): a disk with
      a volatile cache, which loses no byte it flushed and invents none when
      its backing file fails; an NBD session answers its requests one for one
      in order and ends.
    - Workloads ([WorkloadProps]): one that keeps its contract loads, up to
      cycles, which the contract does not look for.

    ** Not modelled

    - Of [store.rs] and [snapshot.rs]: the creation of the directories of a
      store; permissions and syncs of a copy only succeed or fail; a power loss
      in the middle of a copy; the checkpoints tests inject failures with.
    - Power loss that leaves a log with holes or reordered writes: the bytes of
      a log that were not synced survive as a prefix.
    - Of [storage.rs]: file locks and the checks of file identity.
    - Of [shadow_runtime.rs]: the waits on a receipt and the texts of errors.
    - Of [shadow_server.rs]: the socket file, peer credentials and clocks.
    - Of [workload.rs]: the generator and the files of a bundle.
    - [tsbs.rs], [real_fixture.rs] and the binaries: converters of data sets and
      command lines.
    - Of the SD-card emulator: listening for connections, the control socket,
      the reports and the command line. *)
From Stdlib Require Export ZArith Lia.
From stdpp Require Export sorting.
From stdpp Require Export base numbers countable strings list gmap.

#[global] Open Scope Z_scope.

(** ** Notation scope, tactics and hint databases of the development *)

Declare Scope ftw_scope.
Delimit Scope ftw_scope with ftw.

Create HintDb ftw.
Create Rewrite HintDb ftw_rw.

(** Length of a list as the machine integer the source works with. *)
Definition zlen {A} (l : list A) : Z := Z.of_nat (length l).

Notation "'len' l" := (zlen l) (at level 10, l at next level) : ftw_scope.
#[global] Open Scope ftw_scope.

(** Case analysis on the discriminees of the goal or of a hypothesis, then
    cleaning of the equations this leaves. *)
Ltac destruct_match_in H :=
  match type of H with
  | context [match ?x with _ => _ end] => destruct x eqn:?; simplify_eq/=
  end.
Ltac split_match_in H := repeat (destruct_match_in H; try discriminate H).
Ltac split_match_goal :=
  repeat match goal with
         | |- context [match ?x with _ => _ end] => destruct x eqn:?; simplify_eq/=
         end.

(** Turns the boolean comparisons of the source into propositions for [lia]. *)
Ltac zbool :=
  repeat match goal with
         | H : (_ <? _) = true |- _ => apply Z.ltb_lt in H
         | H : (_ <? _) = false |- _ => apply Z.ltb_ge in H
         | H : (_ <=? _) = true |- _ => apply Z.leb_le in H
         | H : (_ <=? _) = false |- _ => apply Z.leb_gt in H
         | H : (_ =? _) = true |- _ => apply Z.eqb_eq in H
         | H : (_ =? _) = false |- _ => apply Z.eqb_neq in H
         | H : (_ && _) = true |- _ => apply andb_true_iff in H as [? ?]
         | H : (_ || _) = false |- _ => apply orb_false_iff in H as [? ?]
         | H : negb _ = true |- _ => apply negb_true_iff in H
         | H : negb _ = false |- _ => apply negb_false_iff in H
         end.

Ltac zlia := unfold zlen in *; zbool; lia.

(** ** Machine integers

    Unsigned and signed [w]-bit integers are [Z] values kept in range. *)

Definition u32_max : Z := 2 ^ 32 - 1.
Definition u64_max : Z := 2 ^ 64 - 1.
Definition u128_max : Z := 2 ^ 128 - 1.
Definition i64_min : Z := - 2 ^ 63.
Definition i64_max : Z := 2 ^ 63 - 1.
(** The supported targets are 64-bit: [usize] is as wide as [u64]. *)
Definition usize_max : Z := u64_max.

Definition is_u8 (z : Z) : Prop := 0 <= z < 256.
Definition is_u16 (z : Z) : Prop := 0 <= z < 2 ^ 16.
Definition is_u32 (z : Z) : Prop := 0 <= z < 2 ^ 32.
Definition is_u64 (z : Z) : Prop := 0 <= z < 2 ^ 64.
Definition is_u128 (z : Z) : Prop := 0 <= z < 2 ^ 128.
Definition is_i64 (z : Z) : Prop := - 2 ^ 63 <= z < 2 ^ 63.

(** [checked_add], [checked_sub] and [checked_mul] on [i64] and [u64]. *)
Definition in_i64 (z : Z) : bool := (i64_min <=? z) && (z <=? i64_max).
Definition in_u64 (z : Z) : bool := (0 <=? z) && (z <=? u64_max).
Definition in_u32 (z : Z) : bool := (0 <=? z) && (z <=? u32_max).

Definition i64_checked (z : Z) : option Z := if in_i64 z then Some z else None.
Definition u64_checked (z : Z) : option Z := if in_u64 z then Some z else None.
Definition i64_checked_add (a b : Z) : option Z := i64_checked (a + b).
Definition i64_checked_sub (a b : Z) : option Z := i64_checked (a - b).
Definition u64_checked_add (a b : Z) : option Z := u64_checked (a + b).
Definition u64_checked_mul (a b : Z) : option Z := u64_checked (a * b).
(** [u32::try_from]. *)
Definition u32_try_from (z : Z) : option Z := if in_u32 z then Some z else None.
(** [u64] saturating arithmetic. *)
Definition u64_saturating_add (a b : Z) : Z := Z.min u64_max (a + b).
Definition u64_saturating_mul (a b : Z) : Z := Z.min u64_max (a * b).
Definition u64_saturating_sub (a b : Z) : Z := Z.max 0 (a - b).
(** [i64] saturating arithmetic. *)
Definition i64_saturating_add (a b : Z) : Z := Z.max i64_min (Z.min i64_max (a + b)).
Definition i64_saturating_sub (a b : Z) : Z := Z.max i64_min (Z.min i64_max (a - b)).

(** The two's complement reading of an unsigned [w]-bit pattern. *)
Definition to_signed (w : Z) (z : Z) : Z :=
  if z <? 2 ^ (w - 1) then z else z - 2 ^ w.

Lemma to_signed_mod (w z : Z) :
  0 < w -> - 2 ^ (w - 1) <= z < 2 ^ (w - 1) -> to_signed w (z mod 2 ^ w) = z.
Proof.
  intros Hw Hz. unfold to_signed.
  assert (Hp : 2 ^ w = 2 * 2 ^ (w - 1)).
  { rewrite <- Z.pow_succ_r by lia. f_equal. lia. }
  destruct (decide (0 <= z)).
  - rewrite Z.mod_small by lia.
    destruct (Z.ltb_spec z (2 ^ (w - 1))); lia.
  - assert (Hm : z mod 2 ^ w = z + 2 ^ w).
    { rewrite <- (Z.mod_small (z + 2 ^ w) (2 ^ w)) by lia.
      rewrite <- (Z_mod_plus_full z 1 (2 ^ w)). f_equal. lia. }
    rewrite Hm. destruct (Z.ltb_spec (z + 2 ^ w) (2 ^ (w - 1))); lia.
Qed.

Lemma in_i64_spec z : in_i64 z = true <-> is_i64 z.
Proof. unfold in_i64, is_i64, i64_min, i64_max. rewrite andb_true_iff, !Z.leb_le. lia. Qed.

Lemma i64_checked_Some z y : i64_checked z = Some y <-> y = z /\ is_i64 z.
Proof.
  unfold i64_checked. destruct (in_i64 z) eqn:E.
  - apply in_i64_spec in E. naive_solver.
  - split; [done|]. intros [-> H]. apply in_i64_spec in H. congruence.
Qed.

Lemma i64_checked_ok z : is_i64 z -> i64_checked z = Some z.
Proof. intros. by apply i64_checked_Some. Qed.

Lemma u32_try_from_Some z y : u32_try_from z = Some y <-> y = z /\ is_u32 z.
Proof.
  unfold u32_try_from, in_u32, is_u32, u32_max.
  destruct (_ && _) eqn:E; zbool; (split; [|intros [-> ?]]); try naive_solver lia.
Qed.

Lemma u64_checked_ok z : is_u64 z -> u64_checked z = Some z.
Proof.
  unfold is_u64, u64_checked, in_u64, u64_max. intros Hz.
  destruct (_ && _) eqn:E; [done|]. apply andb_false_iff in E as [E|E]; zbool; lia.
Qed.

Lemma zlen_app {A} (l k : list A) : zlen (l ++ k) = zlen l + zlen k.
Proof. unfold zlen. rewrite length_app. lia. Qed.

Lemma zlen_nonneg {A} (l : list A) : 0 <= zlen l.
Proof. unfold zlen. lia. Qed.

Lemma zlen_nat {A} (l : list A) : Z.to_nat (zlen l) = length l.
Proof. unfold zlen. lia. Qed.

#[export] Hint Resolve zlen_nonneg : ftw.
#[export] Hint Rewrite @zlen_app @zlen_nat : ftw_rw.

(** ** Lists: slices, prefixes and partition points *)

(** [&l[a..b]] for bounds inside the slice. *)
Definition slice {A} (a b : nat) (l : list A) : list A := take (b - a) (drop a l).

Lemma length_slice {A} a b (l : list A) :
  (a <= b)%nat -> (b <= length l)%nat -> length (slice a b l) = (b - a)%nat.
Proof. intros. unfold slice. rewrite length_take, length_drop. lia. Qed.

Lemma slice_app_l {A} n (l k : list A) :
  length l = n -> slice 0 n (l ++ k) = l.
Proof.
  intros <-. unfold slice. rewrite drop_0, Nat.sub_0_r. apply take_app_length.
Qed.

Lemma slice_app_r {A} a b (l k : list A) :
  (length l <= a)%nat ->
  slice a b (l ++ k) = slice (a - length l) (b - length l) k.
Proof.
  intros. unfold slice. rewrite drop_app_ge by lia.
  destruct (decide (a <= b)%nat).
  - f_equal. lia.
  - replace (b - a)%nat with 0%nat by lia.
    by replace (b - length l - (a - length l))%nat with 0%nat by lia.
Qed.

Lemma slice_app_shift {A} a b (l k : list A) :
  slice (length l + a) (length l + b) (l ++ k) = slice a b k.
Proof.
  rewrite slice_app_r by lia. f_equal; lia.
Qed.

Lemma slice_app_at {A} n (l k m : list A) :
  n = (length l + length k)%nat -> slice (length l) n (l ++ k ++ m) = k.
Proof. intros ->. rewrite <- (Nat.add_0_r (length l)) at 1. rewrite slice_app_shift. by apply slice_app_l. Qed.

Lemma nth_app_shift {A} n (l k : list A) d : nth (length l + n) (l ++ k) d = nth n k d.
Proof. rewrite app_nth2 by lia. f_equal. lia. Qed.

Lemma slice_all {A} (l : list A) n : length l = n -> slice 0 n l = l.
Proof. intros <-. unfold slice. rewrite drop_0, Nat.sub_0_r. by apply take_ge. Qed.

(** [slice::partition_point] on a partitioned slice: the length of the
    longest prefix whose elements satisfy the predicate. *)
Fixpoint partition_point {A} (p : A -> bool) (l : list A) : nat :=
  match l with
  | [] => 0%nat
  | x :: t => if p x then S (partition_point p t) else 0%nat
  end.

(** [slice::chunks_exact n] applied to a list whose length is a multiple of
    [n]; [fuel] is the number of chunks. *)
Fixpoint chunks_exact {A} (fuel : nat) (n : nat) (l : list A) : list (list A) :=
  match fuel with
  | O => []
  | S f => take n l :: chunks_exact f n (drop n l)
  end.

Lemma chunks_exact_concat {A} n (ls : list (list A)) :
  Forall (fun c => length c = n) ls ->
  chunks_exact (length ls) n (concat ls) = ls.
Proof.
  induction 1 as [|c ls Hc _ IH]; simpl; [done|].
  rewrite take_app_length' by done. rewrite drop_app_length' by done. by rewrite IH.
Qed.

(** ** Stable sorting

    [slice::sort_by_key] is a stable sort.  The model inserts the elements
    in order, each after every element whose key is not larger. *)

Section StableSort.
Context {A : Type} (leb : A -> A -> bool).

Fixpoint sorted_insert (x : A) (l : list A) : list A :=
  match l with
  | [] => [x]
  | y :: t => if leb y x then y :: sorted_insert x t else x :: l
  end.

Definition sort_into (acc l : list A) : list A :=
  foldl (fun acc x => sorted_insert x acc) acc l.

Definition stable_sort (l : list A) : list A := sort_into [] l.

Abbreviation sorted := (StronglySorted (fun a b => leb a b = true)).

Lemma sorted_insert_perm x l : sorted_insert x l ≡ₚ x :: l.
Proof.
  induction l as [|y t IH]; simpl; [done|].
  destruct (leb y x); [|done]. rewrite IH. apply perm_swap.
Qed.

Lemma sort_into_perm acc l : sort_into acc l ≡ₚ acc ++ l.
Proof.
  revert acc. induction l as [|x l IH]; intros acc; simpl; [by rewrite app_nil_r|].
  rewrite IH, sorted_insert_perm. by rewrite <- Permutation_middle.
Qed.

Lemma stable_sort_perm l : stable_sort l ≡ₚ l.
Proof. apply sort_into_perm. Qed.

Lemma sort_into_app acc l k : sort_into acc (l ++ k) = sort_into (sort_into acc l) k.
Proof. unfold sort_into. apply foldl_app. Qed.

Lemma stable_sort_snoc l x : stable_sort (l ++ [x]) = sorted_insert x (stable_sort l).
Proof. unfold stable_sort. by rewrite sort_into_app. Qed.

Lemma sorted_insert_last x l :
  Forall (fun y => leb y x = true) l -> sorted_insert x l = l ++ [x].
Proof. induction 1 as [|y t Hy _ IH]; simpl; [done|]. by rewrite Hy, IH. Qed.

Lemma sort_into_sorted acc l : sorted (acc ++ l) -> sort_into acc l = acc ++ l.
Proof.
  revert acc. induction l as [|x l IH]; intros acc Hs; simpl; [by rewrite app_nil_r|].
  assert (Hacc : Forall (fun y => leb y x = true) acc).
  { clear IH. induction acc as [|y acc IHa]; [constructor|].
    simpl in Hs. apply StronglySorted_inv in Hs as [Hs Hy]. constructor; [|by apply IHa].
    apply Forall_app in Hy as [_ Hy]. by inversion Hy. }
  rewrite sorted_insert_last by done. rewrite IH; rewrite <- app_assoc; done.
Qed.

Lemma stable_sort_sorted_id l : sorted l -> stable_sort l = l.
Proof. apply (sort_into_sorted []). Qed.

Section Total.
Hypothesis leb_total : forall a b, leb a b = true \/ leb b a = true.
Hypothesis leb_trans : forall a b c, leb a b = true -> leb b c = true -> leb a c = true.

Lemma sorted_insert_sorted x l : sorted l -> sorted (sorted_insert x l).
Proof using leb_total leb_trans.
  induction 1 as [|y t Ht IH Hy]; simpl; [repeat constructor|].
  destruct (leb y x) eqn:E.
  - constructor; [done|].
    eapply Permutation_Forall; [symmetry; apply sorted_insert_perm|]. by constructor.
  - assert (Hxy : leb x y = true) by (destruct (leb_total x y); congruence).
    constructor; [by constructor|]. constructor; [done|].
    eapply Forall_impl; [exact Hy|]. intros z Hz. by eapply leb_trans.
Qed.

Lemma sort_into_is_sorted acc l : sorted acc -> sorted (sort_into acc l).
Proof using leb_total leb_trans.
  revert acc. induction l as [|x l IH]; intros acc Hs; simpl; [done|].
  apply IH. by apply sorted_insert_sorted.
Qed.

Lemma stable_sort_sorted l : sorted (stable_sort l).
Proof using leb_total leb_trans. apply sort_into_is_sorted. constructor. Qed.

Lemma stable_sort_app_idemp l k :
  stable_sort (stable_sort l ++ k) = stable_sort (l ++ k).
Proof using leb_total leb_trans.
  unfold stable_sort at 1 3. rewrite !sort_into_app. f_equal.
  apply stable_sort_sorted_id, stable_sort_sorted.
Qed.

(** Sorting commutes with dropping elements: the relative order of what
    remains does not depend on the rest. *)
Lemma filter_sorted_insert (p : A -> bool) x l :
  sorted l ->
  List.filter p (sorted_insert x l)
  = if p x then sorted_insert x (List.filter p l) else List.filter p l.
Proof using leb_total leb_trans.
  induction 1 as [|y t Ht IH Hy]; simpl; [by destruct (p x)|].
  destruct (leb y x) eqn:E; simpl.
  - rewrite IH. destruct (p x), (p y); simpl; rewrite ?E; done.
  - destruct (p x); [|done]. destruct (p y); simpl; rewrite ?E; [done|].
    assert (Hlt : Forall (fun z => leb z x = false) t).
    { eapply Forall_impl; [exact Hy|]. intros z Hz. destruct (leb z x) eqn:Ez; [|done].
      rewrite (leb_trans _ _ _ Hz Ez) in E. done. }
    clear - Hlt. induction Hlt as [|z t Hz _ IH]; simpl; [done|].
    destruct (p z); simpl; by rewrite ?Hz.
Qed.

Lemma filter_sort_into (p : A -> bool) acc l :
  sorted acc ->
  List.filter p (sort_into acc l) = sort_into (List.filter p acc) (List.filter p l).
Proof using leb_total leb_trans.
  revert acc. induction l as [|x l IH]; intros acc Hs; simpl; [done|].
  rewrite IH by (by apply sorted_insert_sorted).
  rewrite filter_sorted_insert by done. by destruct (p x).
Qed.

Lemma filter_stable_sort (p : A -> bool) l :
  List.filter p (stable_sort l) = stable_sort (List.filter p l).
Proof using leb_total leb_trans. apply (filter_sort_into p []). constructor. Qed.
End Total.
End StableSort.

#[export] Hint Resolve stable_sort_perm : ftw.

(** ** Ordered iteration of maps

    [BTreeMap] and [BTreeSet] iterate in increasing key order. *)

Definition btree_to_list {V} (m : gmap Z V) : list (Z * V) :=
  stable_sort (fun a b => fst a <=? fst b) (map_to_list m).
Definition btree_keys {V} (m : gmap Z V) : list Z := (btree_to_list m).*1.
Definition btree_values {V} (m : gmap Z V) : list V := (btree_to_list m).*2.
Definition btree_set_to_list (s : gset Z) : list Z :=
  stable_sort Z.leb (elements s).

Lemma elem_of_btree_to_list {V} (m : gmap Z V) k v :
  (k, v) ∈ btree_to_list m <-> m !! k = Some v.
Proof. unfold btree_to_list. rewrite stable_sort_perm. apply elem_of_map_to_list. Qed.

(** The keys come out in increasing order, each once. *)
Lemma btree_to_list_sorted {V} (m : gmap Z V) :
  StronglySorted (fun a b => a.1 < b.1) (btree_to_list m).
Proof.
  assert (Hs : StronglySorted (fun a b => (a.1 <=? b.1) = true) (btree_to_list m)).
  { apply stable_sort_sorted; intros; rewrite ?Z.leb_le in *; lia. }
  assert (Hn : NoDup (btree_to_list m).*1).
  { unfold btree_to_list. rewrite stable_sort_perm. apply NoDup_fst_map_to_list. }
  induction Hs as [|x l _ IH Hall]; constructor.
  - apply IH. by inversion Hn.
  - apply Forall_forall. intros y Hy. rewrite Forall_forall in Hall. specialize (Hall y Hy).
    inversion Hn as [|? ? Hx _]; subst. apply Z.leb_le in Hall.
    assert (x.1 <> y.1) by (intros Heq; apply Hx; rewrite Heq; by apply list_elem_of_fmap_2). lia.
Qed.

Lemma elem_of_btree_keys {V} (m : gmap Z V) k : k ∈ btree_keys m <-> is_Some (m !! k).
Proof.
  unfold btree_keys. rewrite list_elem_of_fmap. split.
  - intros ([k' v] & -> & H). apply elem_of_btree_to_list in H. by exists v.
  - intros [v H]. exists (k, v). by rewrite elem_of_btree_to_list.
Qed.

Lemma elem_of_btree_values {V} (m : gmap Z V) v :
  v ∈ btree_values m <-> exists k, m !! k = Some v.
Proof.
  unfold btree_values. rewrite list_elem_of_fmap. split.
  - intros ([k v'] & -> & H). apply elem_of_btree_to_list in H. by exists k.
  - intros [k H]. exists (k, v). by rewrite elem_of_btree_to_list.
Qed.

Lemma NoDup_btree_keys {V} (m : gmap Z V) : NoDup (btree_keys m).
Proof.
  unfold btree_keys, btree_to_list. rewrite stable_sort_perm. apply NoDup_fst_map_to_list.
Qed.

Lemma elem_of_btree_set s k : k ∈ btree_set_to_list s <-> k ∈ s.
Proof. unfold btree_set_to_list. rewrite stable_sort_perm. apply elem_of_elements. Qed.

#[export] Hint Rewrite @elem_of_btree_keys @elem_of_btree_values elem_of_btree_set : ftw_rw.
