(* ===== verification/Errors.v ===== *)
(** * Errors: [src/src/error.rs] and the [Result] monad

    The error enumeration of the crate, the [Result] type every fallible
    operation returns, and the sequencing the [?] operator performs. *)
From S2P Require Import Prelude.

(** A [String] or [&'static str] payload of an error.  [format!] messages
    keep their template and the integers interpolated into it. *)
Record Message := Msg { msg_template : string; msg_args : list Z }.

Definition text (s : string) : Message := Msg s [].

(** The crate's [Error].  [Panic] has no counterpart in the enumeration: it
    stands for a Rust panic (an index that is out of range, a missing map key)
    and for a loop that would exceed the bound the model gives it.  The
    theorems of the development show where it cannot occur. *)
Inductive Error :=
  | Io (kind : string)
  | InvalidHeader
  | UnsupportedVersion (version : Z)
  | Corruption (offset : Z) (reason : Message)
  | BatchTooLarge (points maximum : Z)
  | InvalidConfig (reason : string)
  | ResourceLimit (reason : string)
  | InvalidArgument (reason : string)
  | InvalidModel (reason : Message)
  | Serialization (reason : string)
  | Poisoned
  | Locked
  | ReadOnly
  | SnapshotPublication (reason : string)
  | SourceChanged
  | IngressSourceSequenceConflict (source_id sequence : Z)
  | IngressCommitIdConflict (commit_id : Z)
  | IngressSequenceNotIncreasing (source_id previous actual : Z)
  | Panic (place : string).

Inductive Result (A : Type) :=
  | Ok (a : A)
  | Err (e : Error).
Arguments Ok {A} a.
Arguments Err {A} e.

(** The [?] operator. *)
Definition bind {A B} (m : Result A) (k : A -> Result B) : Result B :=
  match m with Ok a => k a | Err e => Err e end.

Notation "'let?' x := m 'in' k" := (bind m (fun x => k))
  (at level 10, x pattern, m at level 100, k at level 200) : ftw_scope.
Notation "m ;? k" := (bind m (fun _ : unit => k))
  (at level 199, right associativity) : ftw_scope.

(** [if cond { return Err(e) }]. *)
Definition reject (cond : bool) (e : Error) : Result unit :=
  if cond then Err e else Ok tt.

(** [Option::ok_or]. *)
Definition ok_or {A} (o : option A) (e : Error) : Result A :=
  match o with Some a => Ok a | None => Err e end.

(** A [for] loop whose body may return early with an error. *)
Fixpoint for_each {A} (f : A -> Result unit) (l : list A) : Result unit :=
  match l with
  | [] => Ok tt
  | x :: t => f x ;? for_each f t
  end.

(** A [for] loop that also updates a local state. *)
Fixpoint try_fold {S A} (f : S -> A -> Result S) (s : S) (l : list A) : Result S :=
  match l with
  | [] => Ok s
  | x :: t => let? s' := f s x in try_fold f s' t
  end.

(** [iter().map(f).collect::<Result<Vec<_>>>()]. *)
Fixpoint try_map {A B} (f : A -> Result B) (l : list A) : Result (list B) :=
  match l with
  | [] => Ok []
  | x :: t => let? y := f x in let? ys := try_map f t in Ok (y :: ys)
  end.

Definition is_ok {A} (r : Result A) : bool :=
  match r with Ok _ => true | Err _ => false end.

Lemma Ok_inj {A} (a b : A) : Ok a = Ok b -> a = b.
Proof. congruence. Qed.

Lemma bind_Ok {A B} (m : Result A) (k : A -> Result B) b :
  bind m k = Ok b <-> exists a, m = Ok a /\ k a = Ok b.
Proof. destruct m; simpl; naive_solver. Qed.

Lemma bind_Err {A B} (m : Result A) (k : A -> Result B) e :
  bind m k = Err e <-> m = Err e \/ exists a, m = Ok a /\ k a = Err e.
Proof. destruct m; simpl; naive_solver. Qed.

Lemma reject_Ok c e u : reject c e = Ok u <-> c = false.
Proof. destruct c, u; simpl; naive_solver. Qed.

Lemma ok_or_Ok {A} (o : option A) e a : ok_or o e = Ok a <-> o = Some a.
Proof. destruct o; simpl; naive_solver. Qed.

Lemma for_each_Ok {A} (f : A -> Result unit) l u :
  for_each f l = Ok u <-> forall x, x ∈ l -> f x = Ok tt.
Proof.
  destruct u. induction l as [|x t IH]; simpl.
  - split; [intros _ x Hx; inversion Hx|done].
  - rewrite bind_Ok. split.
    + intros ([] & Hx & Ht) y [-> | Hy]%elem_of_cons; [done|]. by apply IH.
    + intros H. exists tt. split; [apply H; left|]. apply IH. intros y Hy. apply H. by right.
Qed.

Lemma for_each_Err {A} (f : A -> Result unit) l e :
  for_each f l = Err e -> exists x, x ∈ l /\ f x = Err e.
Proof.
  induction l as [|x t IH]; simpl; [done|].
  intros [H | (? & _ & H)]%bind_Err; [|destruct (IH H) as (y & ? & ?)].
  - exists x. split; [left|done].
  - exists y. split; [by right|done].
Qed.

Lemma try_fold_app {S A} (f : S -> A -> Result S) s l k :
  try_fold f s (l ++ k) = (let? s' := try_fold f s l in try_fold f s' k).
Proof.
  revert s. induction l as [|x l IH]; intros s; simpl; [done|].
  destruct (f s x); simpl; [apply IH|done].
Qed.

(** An invariant of the loop body is an invariant of the loop. *)
Lemma try_fold_inv {S A} (P : S -> Prop) (f : S -> A -> Result S) s l s' :
  (forall s x s', P s -> f s x = Ok s' -> P s') ->
  P s -> try_fold f s l = Ok s' -> P s'.
Proof.
  intros Hf. revert s. induction l as [|x l IH]; intros s Hs; simpl.
  - by intros [= <-].
  - intros (s1 & H1 & H2)%bind_Ok. eapply IH; [|exact H2]. eauto.
Qed.

Lemma try_fold_pure {S A} (g : S -> A -> S) (f : S -> A -> Result S) s l :
  (forall s x, x ∈ l -> f s x = Ok (g s x)) -> try_fold f s l = Ok (foldl g s l).
Proof.
  revert s. induction l as [|x l IH]; intros s H; simpl; [done|].
  rewrite H by left. simpl. apply IH. intros s' y Hy. apply H. by right.
Qed.

(** Decomposes the hypotheses that say a monadic computation succeeded. *)
Ltac ok_inv :=
  repeat match goal with
         | H : bind _ _ = Ok _ |- _ =>
             let a := fresh "v" in let H1 := fresh "H" in let H2 := fresh "H" in
             apply bind_Ok in H as (a & H1 & H2)
         | H : reject _ _ = Ok _ |- _ => apply reject_Ok in H
         | H : ok_or _ _ = Ok _ |- _ => apply ok_or_Ok in H
         | H : Ok _ = Ok _ |- _ => injection H as H; subst
         | H : Err _ = Ok _ |- _ => discriminate H
         | H : Ok _ = Err _ |- _ => discriminate H
         | u : unit |- _ => destruct u
         end.

(** Passes the early returns [if c { return Err(..) }] of a call that
    succeeded, keeping what each of them establishes. *)
Ltac guards_in H :=
  repeat match type of H with
         | (if ?c then _ else _) = Ok _ => let G := fresh "G" in destruct c eqn:G; [done|]
         end.
