(* ===== verification/Bytes.v ===== *)
(** * Bytes: little-endian integers and byte strings

    What the source uses of the integer byte conversions of the standard
    library ([to_le_bytes], [from_le_bytes]) and of byte-string literals. *)
From S2P Require Import Prelude.

Abbreviation bytes := (list Z).

Definition is_bytes (l : bytes) : Prop := Forall is_u8 l.

(** A byte-string literal such as [b"WBAT"]. *)
Fixpoint bstr (s : string) : bytes :=
  match s with
  | EmptyString => []
  | String c t => Z.of_nat (Ascii.nat_of_ascii c) :: bstr t
  end.

(** [z.to_le_bytes()] for an [n]-byte integer; a negative [z] gives its two's
    complement pattern. *)
Fixpoint to_le (n : nat) (z : Z) : bytes :=
  match n with
  | O => []
  | S m => z mod 256 :: to_le m (z / 256)
  end.

(** [uN::from_le_bytes]. *)
Fixpoint from_le (l : bytes) : Z :=
  match l with
  | [] => 0
  | b :: t => b + 256 * from_le t
  end.

(** [i64::from_le_bytes]. *)
Definition from_le_i64 (l : bytes) : Z := to_signed 64 (from_le l).

Lemma length_to_le n z : length (to_le n z) = n.
Proof. revert z. induction n; intros; simpl; [done|]. by rewrite IHn. Qed.

Lemma zlen_to_le n z : len (to_le n z) = Z.of_nat n.
Proof. unfold zlen. by rewrite length_to_le. Qed.

Lemma to_le_bytes n z : is_bytes (to_le n z).
Proof.
  revert z. induction n; intros z; simpl; constructor; [|apply IHn].
  unfold is_u8. apply Z.mod_pos_bound. lia.
Qed.

Lemma from_to_le_mod n z : from_le (to_le n z) = z mod 256 ^ Z.of_nat n.
Proof.
  revert z. induction n as [|n IH]; intros z; cbn [to_le from_le].
  - by rewrite Z.mod_1_r.
  - rewrite IH, Nat2Z.inj_succ, Z.pow_succ_r by lia.
    symmetry. apply Z.rem_mul_r; [lia|]. apply Z.pow_pos_nonneg; lia.
Qed.

Lemma from_to_le n z : 0 <= z < 256 ^ Z.of_nat n -> from_le (to_le n z) = z.
Proof. intros. rewrite from_to_le_mod. by apply Z.mod_small. Qed.

Lemma from_to_le_u16 z : is_u16 z -> from_le (to_le 2 z) = z.
Proof. intros. by apply from_to_le. Qed.
Lemma from_to_le_u32 z : is_u32 z -> from_le (to_le 4 z) = z.
Proof. intros. by apply from_to_le. Qed.
Lemma from_to_le_u64 z : is_u64 z -> from_le (to_le 8 z) = z.
Proof. intros. by apply from_to_le. Qed.
Lemma from_to_le_u128 z : is_u128 z -> from_le (to_le 16 z) = z.
Proof. intros. by apply from_to_le. Qed.

Lemma from_to_le_i64 z : is_i64 z -> from_le_i64 (to_le 8 z) = z.
Proof.
  intros H. unfold from_le_i64. rewrite from_to_le_mod.
  change (256 ^ Z.of_nat 8) with (2 ^ 64). by apply to_signed_mod.
Qed.

Lemma from_le_bound l : is_bytes l -> 0 <= from_le l < 256 ^ Z.of_nat (length l).
Proof.
  induction 1 as [|b l Hb _ IH]; cbn [from_le length]; [lia|].
  rewrite Nat2Z.inj_succ, Z.pow_succ_r by lia. unfold is_u8 in Hb. lia.
Qed.

Lemma to_from_le l : is_bytes l -> to_le (length l) (from_le l) = l.
Proof.
  induction 1 as [|b l Hb _ IH]; cbn [from_le to_le length]; [done|].
  unfold is_u8 in Hb. f_equal.
  - rewrite Z.mul_comm, Z_mod_plus_full. by apply Z.mod_small.
  - rewrite Z.mul_comm, Z.div_add by lia. by rewrite Z.div_small, Z.add_0_l by lia.
Qed.

(** The bytes of an integer depend only on its residue. *)
Lemma to_le_congr n a b : a mod 256 ^ Z.of_nat n = b mod 256 ^ Z.of_nat n -> to_le n a = to_le n b.
Proof.
  intros E. rewrite <- (to_from_le (to_le n a)), <- (to_from_le (to_le n b)) by apply to_le_bytes.
  rewrite !length_to_le, !from_to_le_mod. by rewrite E.
Qed.

Lemma is_bytes_app l k : is_bytes (l ++ k) <-> is_bytes l /\ is_bytes k.
Proof. apply Forall_app. Qed.

#[global] Opaque to_le from_le.

#[export] Hint Resolve to_le_bytes : ftw.

(** Evaluates the slices of a concatenation of fixed-width fields. *)
Ltac slices :=
  repeat first
    [ rewrite slice_app_l by (rewrite ?length_to_le; reflexivity)
    | rewrite slice_all by (rewrite ?length_to_le; reflexivity)
    | rewrite slice_app_r by (rewrite ?length_to_le; simpl; lia);
      rewrite ?length_to_le; simpl Nat.sub ].
