(* ===== verification/Float64.v ===== *)
(** * Float64: the [f64] operations the source uses

    An [f64] is its IEEE-754 binary64 bit pattern, as [f64::to_bits] gives it,
    so that storage round trips are exact on every pattern.  Arithmetic goes
    through the executable specification of floating-point arithmetic of the
    Standard Library at precision 53 and exponent bound 1024. *)
From Stdlib Require Import Floats.SpecFloat.
From S2P Require Import Prelude.

Definition f64 := Z.

Definition f64_prec : Z := 53.
Definition f64_emax : Z := 1024.

Definition f64_exponent (x : f64) : Z := Z.land (Z.shiftr x 52) 2047.
Definition f64_fraction (x : f64) : Z := Z.land x (2 ^ 52 - 1).
Definition f64_sign (x : f64) : bool := Z.testbit x 63.

(** [f64::is_finite] and [f64::is_nan]: the exponent field decides. *)
Definition f64_is_finite (x : f64) : bool := negb (f64_exponent x =? 2047).
Definition f64_is_nan (x : f64) : bool :=
  (f64_exponent x =? 2047) && negb (f64_fraction x =? 0).

Definition f64_to_spec (x : f64) : spec_float :=
  let s := f64_sign x in
  let e := f64_exponent x in
  let m := f64_fraction x in
  if e =? 2047 then if m =? 0 then S754_infinity s else S754_nan
  else if e =? 0 then
    match m with Zpos p => S754_finite s p (-1074) | _ => S754_zero s end
  else match m + 2 ^ 52 with
       | Zpos p => S754_finite s p (e - 1075)
       | _ => S754_zero s
       end.

Definition f64_pack (s : bool) (e m : Z) : f64 :=
  (if s then 2 ^ 63 else 0) + e * 2 ^ 52 + m.

(** A NaN result is the canonical quiet NaN: the payload of a computed NaN is
    unspecified. *)
Definition f64_of_spec (f : spec_float) : f64 :=
  match f with
  | S754_zero s => f64_pack s 0 0
  | S754_infinity s => f64_pack s 2047 0
  | S754_nan => f64_pack false 2047 (2 ^ 51)
  | S754_finite s m e =>
      if Zpos m <? 2 ^ 52 then f64_pack s 0 (Zpos m)
      else f64_pack s (e + 1075) (Zpos m - 2 ^ 52)
  end.

Definition f64_zero : f64 := 0.

Definition f64_add (a b : f64) : f64 :=
  f64_of_spec (SFadd f64_prec f64_emax (f64_to_spec a) (f64_to_spec b)).
Definition f64_sub (a b : f64) : f64 :=
  f64_of_spec (SFsub f64_prec f64_emax (f64_to_spec a) (f64_to_spec b)).
Definition f64_mul (a b : f64) : f64 :=
  f64_of_spec (SFmul f64_prec f64_emax (f64_to_spec a) (f64_to_spec b)).
Definition f64_div (a b : f64) : f64 :=
  f64_of_spec (SFdiv f64_prec f64_emax (f64_to_spec a) (f64_to_spec b)).

(** [z as f64]: round to nearest, ties to even. *)
Definition f64_of_Z (z : Z) : f64 :=
  f64_of_spec (binary_normalize f64_prec f64_emax z 0 false).

Definition f64_ltb (a b : f64) : bool := SFltb (f64_to_spec a) (f64_to_spec b).
Definition f64_leb (a b : f64) : bool := SFleb (f64_to_spec a) (f64_to_spec b).
(** [==] on [f64]: false on NaN, true on zeros of either sign. *)
Definition f64_eqb (a b : f64) : bool := SFeqb (f64_to_spec a) (f64_to_spec b).

(** [f64::min] and [f64::max]: a NaN operand yields the other one.  Between
    zeros of opposite sign either may be returned; the model keeps the
    receiver. *)
Definition f64_min (a b : f64) : f64 :=
  if f64_is_nan a then b else if f64_is_nan b then a
  else if f64_ltb b a then b else a.
Definition f64_max (a b : f64) : f64 :=
  if f64_is_nan a then b else if f64_is_nan b then a
  else if f64_ltb a b then b else a.

Definition is_f64 (x : f64) : Prop := is_u64 x.

Example f64_one_plus_two :
  f64_add (f64_of_Z 1) (f64_of_Z 2) = f64_of_Z 3
  /\ f64_of_Z 1 = 4607182418800017408
  /\ f64_mul (f64_of_Z (-3)) (f64_of_Z 7) = f64_of_Z (-21)
  /\ f64_div (f64_of_Z 22) (f64_of_Z 6) = f64_div (f64_of_Z 11) (f64_of_Z 3)
  /\ f64_is_finite (f64_div (f64_of_Z 1) f64_zero) = false.
Proof. by vm_compute. Qed.

(** ** The order on non-NaN values *)

(** A lexicographic key that orders non-NaN values as [SFcompare] does. *)
Definition sf_key (f : spec_float) : Z * Z * Z :=
  match f with
  | S754_infinity true => (-2, 0, 0)
  | S754_finite true m e => (-1, - e, - Zpos m)
  | S754_zero _ | S754_nan => (0, 0, 0)
  | S754_finite false m e => (1, e, Zpos m)
  | S754_infinity false => (2, 0, 0)
  end.

Definition key_lt (a b : Z * Z * Z) : Prop :=
  a.1.1 < b.1.1 \/ (a.1.1 = b.1.1 /\ (a.1.2 < b.1.2 \/ (a.1.2 = b.1.2 /\ a.2 < b.2))).

Lemma SFltb_key a b :
  a <> S754_nan -> b <> S754_nan ->
  SFltb a b = true <-> key_lt (sf_key a) (sf_key b).
Proof.
  intros Ha Hb. unfold SFltb, key_lt.
  destruct a as [[]|[]| |[] m e], b as [[]|[]| |[] n g]; try done; simpl;
    try (split; [intros; first [discriminate|lia]|intros; first [reflexivity|exfalso; lia]]).
  - change (Pos.compare_cont Eq m n) with (Pos.compare m n).
    destruct (Z.compare_spec e g), (Pos.compare_spec m n); simpl;
      split; intros; first [discriminate|reflexivity|lia|exfalso; lia].
  - change (Pos.compare_cont Eq m n) with (Pos.compare m n).
    destruct (Z.compare_spec e g), (Pos.compare_spec m n); simpl;
      split; intros; first [discriminate|reflexivity|lia|exfalso; lia].
Qed.

Lemma f64_is_nan_spec x : f64_is_nan x = false -> f64_to_spec x <> S754_nan.
Proof.
  unfold f64_is_nan, f64_to_spec.
  generalize (f64_exponent x) (f64_fraction x) (f64_sign x). intros e m s.
  generalize (m + 2 ^ 52). intros k. destruct (e =? 2047); cbn [andb].
  - destruct (m =? 0); discriminate.
  - intros _. destruct (e =? 0); [destruct m|destruct k]; discriminate.
Qed.

Lemma f64_is_finite_not_nan x : f64_is_finite x = true -> f64_is_nan x = false.
Proof.
  unfold f64_is_finite, f64_is_nan. generalize (f64_exponent x). intros e.
  destruct (e =? 2047); simpl; [discriminate|reflexivity].
Qed.

Lemma f64_ltb_key a b :
  f64_is_nan a = false -> f64_is_nan b = false ->
  f64_ltb a b = true <-> key_lt (sf_key (f64_to_spec a)) (sf_key (f64_to_spec b)).
Proof. intros. apply SFltb_key; by apply f64_is_nan_spec. Qed.

Ltac f64_order :=
  repeat match goal with
         | H : f64_ltb ?a ?b = true |- _ => apply f64_ltb_key in H; [|assumption..]
         | H : f64_ltb ?a ?b = false |- _ =>
             assert (~ key_lt (sf_key (f64_to_spec a)) (sf_key (f64_to_spec b)))
               by (rewrite <- f64_ltb_key by assumption; congruence); clear H
         end; unfold key_lt in *; lia.

Lemma f64_min_assoc a b c :
  f64_is_nan a = false -> f64_is_nan b = false -> f64_is_nan c = false ->
  f64_min (f64_min a b) c = f64_min a (f64_min b c).
Proof.
  intros Ha Hb Hc. unfold f64_min. rewrite Ha, Hb, Hc.
  destruct (f64_ltb b a) eqn:E1, (f64_ltb c b) eqn:E2;
    rewrite ?Ha, ?Hb, ?Hc, ?E1, ?E2; try done;
    destruct (f64_ltb c a) eqn:E3; rewrite ?E1; try done; exfalso; f64_order.
Qed.

Lemma f64_max_assoc a b c :
  f64_is_nan a = false -> f64_is_nan b = false -> f64_is_nan c = false ->
  f64_max (f64_max a b) c = f64_max a (f64_max b c).
Proof.
  intros Ha Hb Hc. unfold f64_max. rewrite Ha, Hb, Hc.
  destruct (f64_ltb a b) eqn:E1, (f64_ltb b c) eqn:E2;
    rewrite ?Ha, ?Hb, ?Hc, ?E1, ?E2; try done;
    destruct (f64_ltb a c) eqn:E3; rewrite ?E1; try done; exfalso; f64_order.
Qed.

Lemma f64_min_not_nan a b :
  f64_is_nan a = false -> f64_is_nan b = false -> f64_is_nan (f64_min a b) = false.
Proof. intros Ha Hb. unfold f64_min. rewrite Ha, Hb. by destruct (f64_ltb b a). Qed.

Lemma f64_max_not_nan a b :
  f64_is_nan a = false -> f64_is_nan b = false -> f64_is_nan (f64_max a b) = false.
Proof. intros Ha Hb. unfold f64_max. rewrite Ha, Hb. by destruct (f64_ltb a b). Qed.

(** ** Results are 64-bit patterns *)

(** A finite value whose mantissa and exponent fit the format. *)
Definition fits (f : spec_float) : Prop :=
  match f with S754_finite _ m e => Zpos m < 2 ^ 53 /\ -1074 <= e <= 971 | _ => True end.

Lemma f64_of_spec_typed f : fits f -> is_f64 (f64_of_spec f).
Proof.
  unfold is_f64, is_u64, f64_of_spec, f64_pack. destruct f as [[]|[]| |[] m e]; cbn [fits]; try lia.
  all: intros [Hm He]; destruct (Z.ltb_spec (Z.pos m) (2 ^ 52)); lia.
Qed.

Lemma f64_to_spec_fits x : fits (f64_to_spec x).
Proof.
  unfold f64_to_spec, f64_exponent, f64_fraction.
  change 2047 with (Z.ones 11). change (2 ^ 52 - 1) with (Z.ones 52). rewrite !Z.land_ones by lia.
  pose proof (Z.mod_pos_bound (Z.shiftr x 52) (2 ^ 11) ltac:(lia)). pose proof (Z.mod_pos_bound x (2 ^ 52) ltac:(lia)).
  change (Z.ones 11) with 2047. set (e := Z.shiftr x 52 mod 2 ^ 11) in *. set (m := x mod 2 ^ 52) in *. clearbody e m.
  destruct (Z.eqb_spec e 2047); [by destruct (m =? 0)|]. destruct (Z.eqb_spec e 0).
  - destruct m eqn:E; cbn [fits]; [done|lia|done].
  - destruct (m + 2 ^ 52) eqn:E; cbn [fits]; [done|lia|done].
Qed.

Lemma shr_1_below x k : 0 <= k -> shr_m x < 2 ^ (k + 1) -> shr_m (shr_1 x) < 2 ^ k.
Proof.
  intros Hk Hx. rewrite Z.pow_add_r in Hx by lia. pose proof (Z.pow_pos_nonneg 2 k).
  destruct x as [[|[p|p|]|[p|p|]] r s]; cbn in *; lia.
Qed.

Lemma shr_below p : forall x k, 0 <= k -> shr_m x < 2 ^ (k + Zpos p) -> shr_m (SpecFloat.iter_pos shr_1 p x) < 2 ^ k.
Proof.
  induction p as [p IH|p IH|]; intros x k Hk Hx; cbn [SpecFloat.iter_pos].
  - apply IH; [done|]. apply IH; [lia|]. apply shr_1_below; [lia|].
    replace (k + Z.pos p + Z.pos p + 1) with (k + Z.pos p~1) by lia. done.
  - apply IH; [done|]. apply IH; [lia|]. replace (k + Z.pos p + Z.pos p) with (k + Z.pos p~0) by lia. done.
  - by apply shr_1_below.
Qed.

Lemma digits2_below m : m < 2 ^ Zdigits2 m.
Proof.
  destruct m as [|p|p]; cbn [Zdigits2]; [lia| |pose proof (Z.pow_pos_nonneg 2 (Z.pos (digits2_pos p))); lia].
  induction p as [p IH|p IH|]; cbn [digits2_pos]; [rewrite Pos2Z.inj_succ, Z.pow_succ_r by lia; lia..|done].
Qed.

Lemma shr_fexp_fits m e :
  let r := shr_fexp f64_prec f64_emax m e loc_Exact in shr_m r.1 < 2 ^ 53 /\ -1074 <= r.2.
Proof.
  unfold shr_fexp, fexp, emin, f64_prec, f64_emax. set (n := Z.max _ _ - e).
  pose proof (digits2_below m) as Hd.
  assert (Hd0 : 0 <= Zdigits2 m) by (destruct m; cbn; lia).
  assert (Hn : Zdigits2 m <= 53 + n /\ -1074 <= e + n) by lia. clearbody n.
  destruct n as [|p|p]; cbn [shr fst snd shr_m shr_record_of_loc].
  1,3: split; [|lia]; eapply Z.lt_le_trans; [exact Hd|apply Z.pow_le_mono_r; lia].
  split; [|lia]. apply shr_below; [lia|]. eapply Z.lt_le_trans; [exact Hd|]. apply Z.pow_le_mono_r; lia.
Qed.

Lemma round_fits sx m e l : fits (binary_round_aux f64_prec f64_emax sx m e l).
Proof.
  unfold binary_round_aux. destruct (shr_fexp _ _ m e l) as [r1 e1].
  pose proof (shr_fexp_fits (round_nearest_even (shr_m r1) (loc_of_shr_record r1)) e1) as Hf.
  destruct (shr_fexp _ _ _ e1 loc_Exact) as [r2 e2]. cbn in Hf. destruct (shr_m r2) as [|p|p]; [done| |done].
  unfold f64_emax, f64_prec. destruct (Z.leb_spec e2 (1024 - 53)); [|done]. cbn [fits]. lia.
Qed.

Lemma normalize_fits m e z : fits (binary_normalize f64_prec f64_emax m e z).
Proof.
  destruct m as [|p|p]; cbn [binary_normalize]; [done| |]; unfold binary_round; destruct (shl_align _ _ _); apply round_fits.
Qed.

Lemma f64_of_Z_typed z : is_f64 (f64_of_Z z).
Proof. unfold f64_of_Z. apply f64_of_spec_typed, normalize_fits. Qed.

Lemma f64_add_typed a b : is_f64 (f64_add a b).
Proof.
  unfold f64_add. apply f64_of_spec_typed. pose proof (f64_to_spec_fits a). pose proof (f64_to_spec_fits b).
  destruct (f64_to_spec a) as [[]|[]| |], (f64_to_spec b) as [[]|[]| |]; try done; apply normalize_fits.
Qed.

Lemma f64_mul_typed a b : is_f64 (f64_mul a b).
Proof.
  unfold f64_mul. apply f64_of_spec_typed. destruct (f64_to_spec a) as [[]|[]| |], (f64_to_spec b) as [[]|[]| |]; try done; apply round_fits.
Qed.

Lemma f64_min_typed a b : is_f64 a -> is_f64 b -> is_f64 (f64_min a b).
Proof. intros. unfold f64_min. by repeat case_match. Qed.
Lemma f64_max_typed a b : is_f64 a -> is_f64 b -> is_f64 (f64_max a b).
Proof. intros. unfold f64_max. by repeat case_match. Qed.

#[export] Hint Resolve f64_of_Z_typed f64_add_typed f64_mul_typed f64_min_typed f64_max_typed : ftw.

(** Float operations are treated as black boxes by conversion; evaluation by
    the virtual machine is not affected. *)
#[global] Opaque f64_add f64_sub f64_mul f64_div f64_of_Z f64_ltb f64_leb f64_eqb
  f64_min f64_max f64_is_finite f64_is_nan.
