(* ===== verification/Model.v ===== *)
(** * Model: the domain model of [src/src/model.rs]

    Catalog records (entities, relations, series, runs, plans) and their
    stand-alone validation.  Identifiers are [u128] or [u64] values, times are
    UTC microseconds as [i64].  The IANA time-zone database ([jiff]) is a
    parameter. *)
From S2P Require Import Prelude Errors Float64.

(** A Rust [String] as its Unicode scalar values. *)
Abbreviation rstring := (list Z).

(** A literal. *)
Fixpoint str (s : string) : rstring :=
  match s with
  | EmptyString => []
  | String c t => Z.of_nat (Ascii.nat_of_ascii c) :: str t
  end.

(** [char::is_whitespace]: the Unicode [White_Space] property. *)
Definition is_whitespace (c : Z) : bool :=
  ((9 <=? c) && (c <=? 13)) || (c =? 32) || (c =? 133) || (c =? 160)
  || (c =? 5760) || ((8192 <=? c) && (c <=? 8202)) || (c =? 8232) || (c =? 8233)
  || (c =? 8239) || (c =? 8287) || (c =? 12288).

(** [s.trim().is_empty()]: every character is white space. *)
Definition trim_is_empty (s : rstring) : bool := forallb is_whitespace s.

Inductive PropertyValue :=
  | PvNull
  | PvBool (b : bool)
  | PvInteger (z : Z)
  | PvFloat (x : f64)
  | PvText (s : rstring).

Abbreviation Properties := (gmap (list Z) PropertyValue).

(** [Option::is_some_and]. *)
Definition is_some_and {A} (o : option A) (p : A -> bool) : bool :=
  match o with Some a => p a | None => false end.
Definition is_none_or {A} (o : option A) (p : A -> bool) : bool :=
  match o with Some a => p a | None => true end.
Definition is_some {A} (o : option A) : bool :=
  match o with Some _ => true | None => false end.

Record Entity := mkEntity {
  entity_id : Z;
  entity_kind : rstring;
  entity_name : rstring;
  entity_parent : option Z;
  entity_valid_from : Z;
  entity_valid_to : option Z;
  entity_properties : Properties;
}.

Record Relation := mkRelation {
  relation_id : Z;
  relation_kind : rstring;
  relation_source : Z;
  relation_target : Z;
  relation_valid_from : Z;
  relation_valid_to : option Z;
  relation_properties : Properties;
}.

Inductive SeriesSemantics := Gauge | IntervalTotal | Counter | State | Event.

Inductive CalendarUnit := Day | Month | Year.

Inductive RollupResolution :=
  | FixedMicros (micros : Z)
  | Calendar (unit : CalendarUnit) (iana_timezone : rstring).

Record RollupTier := mkTier {
  tier_resolution : RollupResolution;
  tier_retain_for_micros : option Z;
}.

Record RollupPolicy := mkPolicy {
  policy_raw_retain_for_micros : option Z;
  policy_tiers : list RollupTier;
}.

Record SeriesDefinition := mkSeries {
  series_id : Z;
  series_owner_entity : option Z;
  series_owner_relation : option Z;
  series_name : rstring;
  series_physical_quantity : rstring;
  series_canonical_unit : rstring;
  series_semantics : SeriesSemantics;
  series_maximum_gap_micros : option Z;
  series_rollup_policy : RollupPolicy;
}.

Inductive RunKind := Forecast | Optimization | Import | Control | Reconciliation.
Inductive RunStatus := Pending | Running | Succeeded | Failed | RunCancelled.

Record Run := mkRun {
  run_id : Z;
  run_kind : RunKind;
  run_status : RunStatus;
  run_created_at : Z;
  run_knowledge_time : Z;
  run_workflow : rstring;
  run_model : rstring;
  run_model_version : rstring;
  run_parent_run : option Z;
  run_input_snapshot : option Z;
  run_attributes : Properties;
}.

Inductive PlanStatus := Candidate | Approved | Deployed | Superseded | PlanCancelled.

Record Plan := mkPlan {
  plan_id : Z;
  plan_run_id : Z;
  plan_status : PlanStatus;
  plan_horizon_start : Z;
  plan_horizon_end : Z;
  plan_resolution_micros : Z;
  plan_scenario : rstring;
  plan_objective_terms : gmap (list Z) f64;
  plan_objective_value : option f64;
  plan_supersedes : option Z;
  plan_attributes : Properties;
}.

#[export] Instance SeriesSemantics_eq_dec : EqDecision SeriesSemantics.
Proof. solve_decision. Defined.
#[export] Instance CalendarUnit_eq_dec : EqDecision CalendarUnit.
Proof. solve_decision. Defined.
#[export] Instance RunKind_eq_dec : EqDecision RunKind.
Proof. solve_decision. Defined.
#[export] Instance RunStatus_eq_dec : EqDecision RunStatus.
Proof. solve_decision. Defined.
#[export] Instance PlanStatus_eq_dec : EqDecision PlanStatus.
Proof. solve_decision. Defined.
#[export] Instance PropertyValue_eq_dec : EqDecision PropertyValue.
Proof. solve_decision. Defined.
#[export] Instance RollupResolution_eq_dec : EqDecision RollupResolution.
Proof. solve_decision. Defined.
#[export] Instance RollupTier_eq_dec : EqDecision RollupTier.
Proof. solve_decision. Defined.
#[export] Instance RollupPolicy_eq_dec : EqDecision RollupPolicy.
Proof. solve_decision. Defined.
#[export] Instance SeriesDefinition_eq_dec : EqDecision SeriesDefinition.
Proof. solve_decision. Defined.

(** The derived [PartialEq] of property values compares floats as IEEE
    numbers, so a NaN differs from itself. *)
Definition property_eqb (a b : PropertyValue) : bool :=
  match a, b with
  | PvFloat x, PvFloat y => f64_eqb x y
  | _, _ => bool_decide (a = b)
  end.

Definition properties_eqb (a b : Properties) : bool :=
  bool_decide (dom a = dom b)
  && forallb (fun '(k, v) => is_some_and (b !! k) (property_eqb v)) (map_to_list a).

(** The derived [PartialEq] of [Run]. *)
Definition run_eqb (a b : Run) : bool :=
  (run_id a =? run_id b)
  && bool_decide (run_kind a = run_kind b)
  && bool_decide (run_status a = run_status b)
  && (run_created_at a =? run_created_at b)
  && (run_knowledge_time a =? run_knowledge_time b)
  && bool_decide (run_workflow a = run_workflow b)
  && bool_decide (run_model a = run_model b)
  && bool_decide (run_model_version a = run_model_version b)
  && bool_decide (run_parent_run a = run_parent_run b)
  && bool_decide (run_input_snapshot a = run_input_snapshot b)
  && properties_eqb (run_attributes a) (run_attributes b).

(** The derived [PartialEq] of the other catalog objects. *)
Definition entity_eqb (a b : Entity) : bool :=
  (entity_id a =? entity_id b)
  && bool_decide (entity_kind a = entity_kind b)
  && bool_decide (entity_name a = entity_name b)
  && bool_decide (entity_parent a = entity_parent b)
  && (entity_valid_from a =? entity_valid_from b)
  && bool_decide (entity_valid_to a = entity_valid_to b)
  && properties_eqb (entity_properties a) (entity_properties b).

Definition relation_eqb (a b : Relation) : bool :=
  (relation_id a =? relation_id b)
  && bool_decide (relation_kind a = relation_kind b)
  && (relation_source a =? relation_source b)
  && (relation_target a =? relation_target b)
  && (relation_valid_from a =? relation_valid_from b)
  && bool_decide (relation_valid_to a = relation_valid_to b)
  && properties_eqb (relation_properties a) (relation_properties b).

Definition series_eqb (a b : SeriesDefinition) : bool := bool_decide (a = b).

Definition terms_eqb (a b : gmap (list Z) f64) : bool :=
  bool_decide (dom a = dom b)
  && forallb (fun '(k, v) => is_some_and (b !! k) (f64_eqb v)) (map_to_list a).

Definition plan_eqb (a b : Plan) : bool :=
  (plan_id a =? plan_id b)
  && (plan_run_id a =? plan_run_id b)
  && bool_decide (plan_status a = plan_status b)
  && (plan_horizon_start a =? plan_horizon_start b)
  && (plan_horizon_end a =? plan_horizon_end b)
  && (plan_resolution_micros a =? plan_resolution_micros b)
  && bool_decide (plan_scenario a = plan_scenario b)
  && terms_eqb (plan_objective_terms a) (plan_objective_terms b)
  && match plan_objective_value a, plan_objective_value b with
     | Some x, Some y => f64_eqb x y
     | None, None => true
     | _, _ => false
     end
  && bool_decide (plan_supersedes a = plan_supersedes b)
  && properties_eqb (plan_attributes a) (plan_attributes b).

(** The calendar library: which IANA names resolve to a time zone, instants in a
    zone ([jiff::Zoned]) and what the program calls on them; [None] is an error. *)
Class TimeZones := {
  tz_exists : rstring -> bool;
  Zoned : Type;
  (** [Timestamp::from_microsecond(t)?.in_tz(name)]. *)
  in_tz : Z -> rstring -> option Zoned;
  start_of_day : Zoned -> option Zoned;
  first_of_month : Zoned -> option Zoned;
  first_of_year : Zoned -> option Zoned;
  (** [checked_add] of one day, one month or one year. *)
  checked_add_one : CalendarUnit -> Zoned -> option Zoned;
  (** [timestamp().as_microsecond()]. *)
  zoned_micros : Zoned -> Z;
}.

(** [SeriesDefinition::validate]: one tier of the rollup policy. *)
Definition validate_tier `{TimeZones} (tier : RollupTier) : option string :=
  match tier_resolution tier with
  | FixedMicros v =>
      if v <=? 0 then Some "fixed rollup resolution must be positive"%string
      else if is_some_and (tier_retain_for_micros tier) (fun r => r <=? 0)
      then Some "rollup retention must be positive or forever"%string else None
  | Calendar _ tz =>
      if trim_is_empty tz then Some "calendar rollups require an IANA timezone"%string
      else if negb (tz_exists tz) then
        Some "calendar rollups require a valid IANA timezone"%string
      else if is_some_and (tier_retain_for_micros tier) (fun r => r <=? 0)
      then Some "rollup retention must be positive or forever"%string else None
  end.

Fixpoint validate_tiers `{TimeZones} (tiers : list RollupTier) : option string :=
  match tiers with
  | [] => None
  | t :: rest =>
      match validate_tier t with Some e => Some e | None => validate_tiers rest end
  end.

(** [SeriesDefinition::validate]; [None] is [Ok(())]. *)
Definition SeriesDefinition_validate `{TimeZones} (s : SeriesDefinition) : option string :=
  if series_id s =? 0 then Some "series id zero is reserved"%string
  else if trim_is_empty (series_name s) then Some "series name must not be empty"%string
  else if trim_is_empty (series_physical_quantity s)
          || trim_is_empty (series_canonical_unit s)
  then Some "physical quantity and canonical unit are required"%string
  else if eqb (is_some (series_owner_entity s)) (is_some (series_owner_relation s))
  then Some "series must belong to exactly one entity or relation"%string
  else if is_some_and (series_maximum_gap_micros s) (fun gap => gap <? 0)
  then Some "maximum gap must not be negative"%string
  else if is_some_and (policy_raw_retain_for_micros (series_rollup_policy s))
            (fun r => r <=? 0)
  then Some "raw retention must be positive or forever"%string
  else validate_tiers (policy_tiers (series_rollup_policy s)).

(** [Plan::validate]. *)
Definition Plan_validate (p : Plan) : option string :=
  if (plan_id p =? 0) || (plan_run_id p =? 0)
  then Some "plan and run ids must be non-zero"%string
  else if plan_horizon_end p <=? plan_horizon_start p
  then Some "plan horizon must have positive duration"%string
  else if plan_resolution_micros p <=? 0
  then Some "plan resolution must be positive"%string
  else if trim_is_empty (plan_scenario p)
  then Some "plan scenario must not be empty"%string
  else if is_some_and (plan_supersedes p) (fun q => q =? plan_id p)
  then Some "plan cannot supersede itself"%string
  else if existsb (fun '(name, v) => trim_is_empty name || negb (f64_is_finite v))
            (map_to_list (plan_objective_terms p))
          || is_some_and (plan_objective_value p) (fun v => negb (f64_is_finite v))
  then Some "plan objectives require names and finite values"%string
  else None.

(** ** Well-typed values

    The Rust types bound every integer field; [typed] collects these bounds so
    that codecs can be stated for the values the program can build. *)

(** A [char] is a Unicode scalar value: no surrogate. *)
Definition is_char (c : Z) : Prop := 0 <= c < 1114112 /\ (c < 55296 \/ 57344 <= c).
Definition typed_string (s : rstring) : Prop := Forall is_char s.
Definition typed_property (v : PropertyValue) : Prop :=
  match v with
  | PvNull | PvBool _ => True
  | PvInteger z => is_i64 z
  | PvFloat x => is_f64 x
  | PvText s => typed_string s
  end.
Definition typed_properties (m : Properties) : Prop :=
  map_Forall (fun k v => typed_string k /\ typed_property v) m.
Definition typed_opt (P : Z -> Prop) (o : option Z) : Prop :=
  match o with Some z => P z | None => True end.

Definition typed_entity (e : Entity) : Prop :=
  is_u128 (entity_id e) /\ typed_string (entity_kind e) /\ typed_string (entity_name e)
  /\ typed_opt is_u128 (entity_parent e) /\ is_i64 (entity_valid_from e)
  /\ typed_opt is_i64 (entity_valid_to e) /\ typed_properties (entity_properties e).

Definition typed_relation (r : Relation) : Prop :=
  is_u128 (relation_id r) /\ typed_string (relation_kind r)
  /\ is_u128 (relation_source r) /\ is_u128 (relation_target r)
  /\ is_i64 (relation_valid_from r) /\ typed_opt is_i64 (relation_valid_to r)
  /\ typed_properties (relation_properties r).

Definition typed_resolution (r : RollupResolution) : Prop :=
  match r with FixedMicros z => is_i64 z | Calendar _ tz => typed_string tz end.
Definition typed_tier (t : RollupTier) : Prop :=
  typed_resolution (tier_resolution t) /\ typed_opt is_i64 (tier_retain_for_micros t).

Definition typed_series (s : SeriesDefinition) : Prop :=
  is_u64 (series_id s) /\ typed_opt is_u128 (series_owner_entity s)
  /\ typed_opt is_u128 (series_owner_relation s) /\ typed_string (series_name s)
  /\ typed_string (series_physical_quantity s) /\ typed_string (series_canonical_unit s)
  /\ typed_opt is_i64 (series_maximum_gap_micros s)
  /\ typed_opt is_i64 (policy_raw_retain_for_micros (series_rollup_policy s))
  /\ Forall typed_tier (policy_tiers (series_rollup_policy s)).

Definition typed_run (r : Run) : Prop :=
  is_u128 (run_id r) /\ is_i64 (run_created_at r) /\ is_i64 (run_knowledge_time r)
  /\ typed_string (run_workflow r) /\ typed_string (run_model r)
  /\ typed_string (run_model_version r) /\ typed_opt is_u128 (run_parent_run r)
  /\ typed_opt is_u128 (run_input_snapshot r) /\ typed_properties (run_attributes r).

Definition typed_plan (p : Plan) : Prop :=
  is_u128 (plan_id p) /\ is_u128 (plan_run_id p) /\ is_i64 (plan_horizon_start p)
  /\ is_i64 (plan_horizon_end p) /\ is_i64 (plan_resolution_micros p)
  /\ typed_string (plan_scenario p)
  /\ map_Forall (fun k v => typed_string k /\ is_f64 v) (plan_objective_terms p)
  /\ typed_opt is_f64 (plan_objective_value p) /\ typed_opt is_u128 (plan_supersedes p)
  /\ typed_properties (plan_attributes p).
