(* ===== verification/Utf8.v ===== *)
(** * Utf8: the bytes of a Rust [String]

    [str::as_bytes], [std::str::from_utf8] and the order of strings, which is
    the order of their bytes. *)
From S2P Require Import Prelude Bytes Model.

(** ** Encoding *)

Definition utf8_char (c : Z) : bytes :=
  if c <? 128 then [c]
  else if c <? 2048 then [192 + c / 64; 128 + c mod 64]
  else if c <? 65536 then [224 + c / 4096; 128 + (c / 64) mod 64; 128 + c mod 64]
  else [240 + c / 262144; 128 + (c / 4096) mod 64; 128 + (c / 64) mod 64; 128 + c mod 64].

(** [str::as_bytes]. *)
Definition as_bytes (s : rstring) : bytes := concat (map utf8_char s).

(** ** Decoding *)

Definition cont (b : Z) : bool := (128 <=? b) && (b <=? 191).

(** The range of the second byte after the leading byte [b0] of a sequence of
    three or four bytes: no overlong form, no surrogate, nothing above
    U+10FFFF. *)
Definition second_byte (b0 b1 : Z) : bool :=
  if b0 =? 224 then (160 <=? b1) && (b1 <=? 191)
  else if b0 =? 237 then (128 <=? b1) && (b1 <=? 159)
  else if b0 =? 240 then (144 <=? b1) && (b1 <=? 191)
  else if b0 =? 244 then (128 <=? b1) && (b1 <=? 143)
  else cont b1.

Definition push (c : Z) (o : option rstring) : option rstring :=
  match o with Some s => Some (c :: s) | None => None end.

(** [std::str::from_utf8]. *)
Fixpoint from_utf8 (l : bytes) : option rstring :=
  match l with
  | [] => Some []
  | b0 :: t0 =>
      if b0 <? 128 then push b0 (from_utf8 t0)
      else if (194 <=? b0) && (b0 <=? 223) then
        match t0 with
        | b1 :: t1 => if cont b1 then push ((b0 - 192) * 64 + (b1 - 128)) (from_utf8 t1) else None
        | _ => None
        end
      else if (224 <=? b0) && (b0 <=? 239) then
        match t0 with
        | b1 :: b2 :: t2 =>
            if second_byte b0 b1 && cont b2
            then push ((b0 - 224) * 4096 + (b1 - 128) * 64 + (b2 - 128)) (from_utf8 t2) else None
        | _ => None
        end
      else if (240 <=? b0) && (b0 <=? 244) then
        match t0 with
        | b1 :: b2 :: b3 :: t3 =>
            if second_byte b0 b1 && cont b2 && cont b3
            then push ((b0 - 240) * 262144 + (b1 - 128) * 4096 + (b2 - 128) * 64 + (b3 - 128)) (from_utf8 t3) else None
        | _ => None
        end
      else None
  end.

(** ** Order *)

(** Lexicographic order of byte strings. *)
Fixpoint lex_ltb (a b : bytes) : bool :=
  match a, b with
  | _, [] => false
  | [], _ :: _ => true
  | x :: s, y :: t => (x <? y) || ((x =? y) && lex_ltb s t)
  end.

Definition str_ltb (a b : rstring) : bool := lex_ltb (as_bytes a) (as_bytes b).
Definition str_leb (a b : rstring) : bool := negb (str_ltb b a).

(** [BTreeMap<String, V>] in iteration order. *)
Definition btree_entries {V} (m : gmap rstring V) : list (rstring * V) :=
  stable_sort (fun a b => str_leb a.1 b.1) (map_to_list m).

(** ** Round trips *)

(** Reduces comparisons of the goal with [lia]. *)
Ltac decide_cmp :=
  repeat match goal with
         | |- context [?a <? ?b] => first [rewrite (proj2 (Z.ltb_lt a b)) by lia | rewrite (proj2 (Z.ltb_ge a b)) by lia]
         | |- context [?a <=? ?b] => first [rewrite (proj2 (Z.leb_le a b)) by lia | rewrite (proj2 (Z.leb_gt a b)) by lia]
         | |- context [?a =? ?b] => first [rewrite (proj2 (Z.eqb_eq a b)) by lia | rewrite (proj2 (Z.eqb_neq a b)) by lia]
         end; cbn [andb].

Ltac digit z :=
  pose proof (Z.div_mod z 64 ltac:(lia)); pose proof (Z.mod_pos_bound z 64 ltac:(lia)).

Lemma cont_digit z : cont (128 + z mod 64) = true.
Proof. digit z. unfold cont. by decide_cmp. Qed.

Lemma from_utf8_char c rest : is_char c -> from_utf8 (utf8_char c ++ rest) = push c (from_utf8 rest).
Proof.
  intros [Hc Hs]. unfold utf8_char.
  destruct (Z.ltb_spec c 128) as [H1|H1]; [cbn [app from_utf8]; by decide_cmp|].
  destruct (Z.ltb_spec c 2048) as [H2|H2].
  { cbn [app from_utf8]. rewrite cont_digit.
    digit c. decide_cmp. f_equal. lia. }
  destruct (Z.ltb_spec c 65536) as [H3|H3].
  { cbn [app from_utf8]. rewrite cont_digit, andb_true_r.
    digit c.
    digit (c / 64).
    assert (E : c / 4096 = c / 64 / 64) by (rewrite Z.div_div by lia; done). rewrite E in *.
    assert (Es : second_byte (224 + c / 64 / 64) (128 + (c / 64) mod 64) = true).
    { unfold second_byte, cont.
      destruct (Z.eqb_spec (224 + c / 64 / 64) 224); [by decide_cmp|].
      destruct (Z.eqb_spec (224 + c / 64 / 64) 237); by decide_cmp. }
    rewrite Es. decide_cmp. f_equal. lia. }
  cbn [app from_utf8]. rewrite !cont_digit, !andb_true_r.
  digit c.
  digit (c / 64).
  digit (c / 64 / 64).
  assert (E : c / 4096 = c / 64 / 64) by (rewrite Z.div_div by lia; done).
  assert (E' : c / 262144 = c / 64 / 64 / 64) by (rewrite !Z.div_div by lia; done). rewrite E, E' in *.
  assert (Es : second_byte (240 + c / 64 / 64 / 64) (128 + (c / 64 / 64) mod 64) = true).
  { unfold second_byte, cont. decide_cmp.
    destruct (Z.eqb_spec (240 + c / 64 / 64 / 64) 240); [by decide_cmp|].
    destruct (Z.eqb_spec (240 + c / 64 / 64 / 64) 244); by decide_cmp. }
  rewrite Es. decide_cmp. f_equal. lia.
Qed.

Lemma from_as_bytes s : typed_string s -> from_utf8 (as_bytes s) = Some s.
Proof.
  induction 1 as [|c s Hc _ IH]; [done|]. unfold as_bytes. cbn [map concat].
  rewrite from_utf8_char by done. fold (as_bytes s). by rewrite IH.
Qed.

Lemma push_Some c o s : push c o = Some s -> exists t, o = Some t /\ s = c :: t.
Proof. destruct o as [t|]; [|done]. intros [= <-]. eauto. Qed.

Lemma utf8_char_2 b0 b1 :
  194 <= b0 <= 223 -> 128 <= b1 <= 191 ->
  let c := (b0 - 192) * 64 + (b1 - 128) in utf8_char c = [b0; b1] /\ is_char c.
Proof.
  intros H0 H1 c. unfold is_char, utf8_char. split; [|unfold c; lia].
  rewrite (proj2 (Z.ltb_ge c 128)), (proj2 (Z.ltb_lt c 2048)) by (unfold c; lia).
  assert (E1 : c / 64 = b0 - 192) by (symmetry; apply (Z.div_unique c 64 _ (b1 - 128)); unfold c; lia).
  assert (E2 : c mod 64 = b1 - 128) by (symmetry; apply (Z.mod_unique c 64 (b0 - 192)); unfold c; lia).
  rewrite E1, E2. repeat (f_equal; try lia).
Qed.

Lemma utf8_char_3 b0 b1 b2 :
  224 <= b0 <= 239 -> second_byte b0 b1 = true -> 128 <= b2 <= 191 ->
  let c := (b0 - 224) * 4096 + (b1 - 128) * 64 + (b2 - 128) in utf8_char c = [b0; b1; b2] /\ is_char c.
Proof.
  intros H0 H1 H2 c.
  assert (Hb : 128 <= b1 <= 191 /\ (b0 = 224 -> 160 <= b1) /\ (b0 = 237 -> b1 <= 159)).
  { unfold second_byte, cont in H1.
    destruct (Z.eqb_spec b0 224); [zbool; lia|]. destruct (Z.eqb_spec b0 237); [zbool; lia|].
    rewrite (proj2 (Z.eqb_neq b0 240)), (proj2 (Z.eqb_neq b0 244)) in H1 by lia. zbool. lia. }
  unfold is_char, utf8_char. split; [|unfold c; lia].
  rewrite (proj2 (Z.ltb_ge c 128)), (proj2 (Z.ltb_ge c 2048)), (proj2 (Z.ltb_lt c 65536)) by (unfold c; lia).
  assert (E1 : c / 64 = (b0 - 224) * 64 + (b1 - 128)) by (symmetry; apply (Z.div_unique c 64 _ (b2 - 128)); unfold c; lia).
  assert (E2 : c mod 64 = b2 - 128) by (symmetry; apply (Z.mod_unique c 64 ((b0 - 224) * 64 + (b1 - 128))); unfold c; lia).
  assert (E3 : c / 4096 = b0 - 224)
    by (symmetry; apply (Z.div_unique c 4096 _ ((b1 - 128) * 64 + (b2 - 128))); unfold c; lia).
  assert (E4 : (c / 64) mod 64 = b1 - 128) by (rewrite E1; symmetry; apply (Z.mod_unique _ 64 (b0 - 224)); lia).
  rewrite E2, E3, E4. repeat (f_equal; try lia).
Qed.

Lemma utf8_char_4 b0 b1 b2 b3 :
  240 <= b0 <= 244 -> second_byte b0 b1 = true -> 128 <= b2 <= 191 -> 128 <= b3 <= 191 ->
  let c := (b0 - 240) * 262144 + (b1 - 128) * 4096 + (b2 - 128) * 64 + (b3 - 128) in
  utf8_char c = [b0; b1; b2; b3] /\ is_char c.
Proof.
  intros H0 H1 H2 H3 c.
  assert (Hb : 128 <= b1 <= 191 /\ (b0 = 240 -> 144 <= b1) /\ (b0 = 244 -> b1 <= 143)).
  { unfold second_byte, cont in H1.
    rewrite (proj2 (Z.eqb_neq b0 224)), (proj2 (Z.eqb_neq b0 237)) in H1 by lia.
    destruct (Z.eqb_spec b0 240); [zbool; lia|]. destruct (Z.eqb_spec b0 244); zbool; lia. }
  unfold is_char, utf8_char. split; [|unfold c; lia].
  rewrite (proj2 (Z.ltb_ge c 128)), (proj2 (Z.ltb_ge c 2048)), (proj2 (Z.ltb_ge c 65536)) by (unfold c; lia).
  assert (E1 : c / 64 = (b0 - 240) * 4096 + (b1 - 128) * 64 + (b2 - 128))
    by (symmetry; apply (Z.div_unique c 64 _ (b3 - 128)); unfold c; lia).
  assert (E2 : c mod 64 = b3 - 128)
    by (symmetry; apply (Z.mod_unique c 64 ((b0 - 240) * 4096 + (b1 - 128) * 64 + (b2 - 128))); unfold c; lia).
  assert (E3 : c / 4096 = (b0 - 240) * 64 + (b1 - 128))
    by (symmetry; apply (Z.div_unique c 4096 _ ((b2 - 128) * 64 + (b3 - 128))); unfold c; lia).
  assert (E4 : c / 262144 = b0 - 240)
    by (symmetry; apply (Z.div_unique c 262144 _ ((b1 - 128) * 4096 + (b2 - 128) * 64 + (b3 - 128))); unfold c; lia).
  assert (E5 : (c / 64) mod 64 = b2 - 128)
    by (rewrite E1; symmetry; apply (Z.mod_unique _ 64 ((b0 - 240) * 64 + (b1 - 128))); lia).
  assert (E6 : (c / 4096) mod 64 = b1 - 128) by (rewrite E3; symmetry; apply (Z.mod_unique _ 64 (b0 - 240)); lia).
  rewrite E2, E4, E5, E6. repeat (f_equal; try lia).
Qed.

(** Only the encoding of a string is accepted. *)
Lemma as_from_utf8 l s : is_bytes l -> from_utf8 l = Some s -> as_bytes s = l /\ typed_string s.
Proof.
  revert s. induction l as [l IH] using (induction_ltof1 _ length). intros s Hl Hs.
  destruct l as [|b0 t0]; [injection Hs as <-; split; [done|constructor]|].
  apply Forall_cons in Hl as [Hb0 Ht0]. unfold is_u8 in Hb0.
  assert (Step : forall c pre t s', utf8_char c = pre -> is_char c -> b0 :: t0 = pre ++ t -> is_bytes t ->
    pre <> [] -> from_utf8 t = Some s' -> s = c :: s' -> as_bytes s = b0 :: t0 /\ typed_string s).
  { intros c pre t s' Ec Hc E Ht Hne Hf ->. destruct (IH t) with (s := s') as [E1 E2]; [|done|done|].
    - unfold ltof. rewrite E, length_app. destruct pre; [done|]. cbn [length]. lia.
    - unfold as_bytes in *. cbn [map concat]. rewrite Ec, E1, E. split; [done|by constructor]. }
  cbn [from_utf8] in Hs. destruct (Z.ltb_spec b0 128).
  { apply push_Some in Hs as (t & Hf & ->). apply (Step b0 [b0] t0 t); try done.
    - unfold utf8_char. by rewrite (proj2 (Z.ltb_lt _ _)).
    - unfold is_char. lia. }
  destruct ((194 <=? b0) && (b0 <=? 223)) eqn:E2.
  { destruct t0 as [|b1 t1]; [done|]. destruct (cont b1) eqn:C1; [|done].
    apply push_Some in Hs as (t & Hf & ->). unfold cont in C1. zbool.
    destruct (utf8_char_2 b0 b1) as [Ec Hc]; [lia|lia|].
    eapply Step; [exact Ec|exact Hc|done|by apply Forall_cons in Ht0 as [_ ?]|done|exact Hf|done]. }
  destruct ((224 <=? b0) && (b0 <=? 239)) eqn:E3.
  { destruct t0 as [|b1 [|b2 t2]]; [done|done|]. destruct (second_byte b0 b1) eqn:C1; [|done].
    cbn [andb] in Hs. destruct (cont b2) eqn:C2; [|done].
    apply push_Some in Hs as (t & Hf & ->). unfold cont in C2. zbool.
    destruct (utf8_char_3 b0 b1 b2) as [Ec Hc]; [lia|done|lia|].
    eapply Step; [exact Ec|exact Hc|done|by rewrite !Forall_cons in Ht0; apply Ht0|done|exact Hf|done]. }
  destruct ((240 <=? b0) && (b0 <=? 244)) eqn:E4; [|done].
  destruct t0 as [|b1 [|b2 [|b3 t3]]]; [done|done|done|]. destruct (second_byte b0 b1) eqn:C1; [|done].
  cbn [andb] in Hs. destruct (cont b2) eqn:C2; [|done]. destruct (cont b3) eqn:C3; [|done]. cbn [andb] in Hs.
  apply push_Some in Hs as (t & Hf & ->). unfold cont in C2, C3. zbool.
  destruct (utf8_char_4 b0 b1 b2 b3) as [Ec Hc]; [lia|done|lia|lia|].
  eapply Step; [exact Ec|exact Hc|done|by rewrite !Forall_cons in Ht0; apply Ht0|done|exact Hf|done].
Qed.

(** ** The order of keys *)

Lemma lex_ltb_irrefl a : lex_ltb a a = false.
Proof. induction a as [|x a IH]; [done|]. cbn. by rewrite Z.ltb_irrefl, Z.eqb_refl, IH. Qed.

Lemma lex_ltb_trans a : forall b c, lex_ltb a b = true -> lex_ltb b c = true -> lex_ltb a c = true.
Proof.
  induction a as [|x a IH]; intros [|y b] [|z c]; cbn; try done.
  rewrite !orb_true_iff, !andb_true_iff, !Z.ltb_lt, !Z.eqb_eq.
  intros [?|[-> ?]] [?|[-> ?]]; [left; lia..|]. right. split; [done|]. by apply (IH b).
Qed.

Lemma lex_trichotomy a : forall b, lex_ltb a b = true \/ a = b \/ lex_ltb b a = true.
Proof.
  induction a as [|x a IH]; intros [|y b]; cbn; auto.
  rewrite !orb_true_iff, !andb_true_iff, !Z.ltb_lt, !Z.eqb_eq.
  destruct (Z.lt_trichotomy x y) as [?|[->|?]]; auto.
  destruct (IH b) as [?|[->|?]]; auto.
Qed.

Lemma str_leb_total a b : str_leb a b = true \/ str_leb b a = true.
Proof.
  unfold str_leb, str_ltb. rewrite !negb_true_iff.
  destruct (lex_ltb (as_bytes b) (as_bytes a)) eqn:E; [right|by left].
  destruct (lex_ltb (as_bytes a) (as_bytes b)) eqn:E'; [|done].
  pose proof (lex_ltb_trans _ _ _ E E') as Ht. by rewrite lex_ltb_irrefl in Ht.
Qed.

Lemma str_leb_trans a b c : str_leb a b = true -> str_leb b c = true -> str_leb a c = true.
Proof.
  unfold str_leb, str_ltb. rewrite !negb_true_iff. intros H1 H2.
  destruct (lex_ltb (as_bytes c) (as_bytes a)) eqn:E; [|done].
  destruct (lex_trichotomy (as_bytes a) (as_bytes b)) as [Hab|[Hab|Hab]]; [|congruence|congruence].
  rewrite (lex_ltb_trans _ _ _ E Hab) in H2. done.
Qed.

Lemma as_bytes_inj a b : typed_string a -> typed_string b -> as_bytes a = as_bytes b -> a = b.
Proof. intros Ha Hb E. apply from_as_bytes in Ha. rewrite E, from_as_bytes in Ha by done. by injection Ha. Qed.

Lemma str_ltb_strict a b : typed_string a -> typed_string b -> a <> b -> str_leb a b = true -> str_ltb a b = true.
Proof.
  unfold str_leb, str_ltb. rewrite negb_true_iff. intros Ha Hb Hne Hle.
  destruct (lex_trichotomy (as_bytes a) (as_bytes b)) as [?|[E|E]]; [done| |congruence].
  by apply as_bytes_inj in E.
Qed.

Lemma btree_entries_perm {V} (m : gmap rstring V) : btree_entries m ≡ₚ map_to_list m.
Proof. apply stable_sort_perm. Qed.

Lemma NoDup_btree_entries {V} (m : gmap rstring V) : NoDup (btree_entries m).*1.
Proof. rewrite btree_entries_perm. apply NoDup_fst_map_to_list. Qed.

(** The entries are strictly increasing. *)
Lemma btree_entries_sorted {V} (m : gmap rstring V) :
  map_Forall (fun k _ => typed_string k) m ->
  StronglySorted (fun a b => str_ltb a.1 b.1 = true) (btree_entries m).
Proof.
  intros Hm. pose proof (NoDup_btree_entries m) as Hn.
  assert (Ht : Forall (fun e => typed_string e.1) (btree_entries m)).
  { rewrite btree_entries_perm. apply Forall_forall. intros [k v] Hk. apply elem_of_map_to_list in Hk. by apply (Hm k v). }
  assert (Hs : StronglySorted (fun a b => str_leb a.1 b.1 = true) (btree_entries m)).
  { apply (stable_sort_sorted (fun a b => str_leb a.1 b.1)); [intros; apply str_leb_total|intros ???; apply str_leb_trans]. }
  induction Hs as [|e l Hs IH He]; [constructor|].
  cbn in Hn. apply NoDup_cons in Hn as [Hnin Hn]. apply Forall_cons in Ht as [Hte Htl].
  constructor; [by apply IH|]. rewrite Forall_forall in *. intros x Hx.
  apply str_ltb_strict; [done|by apply Htl| |by apply He].
  intros E. apply Hnin. rewrite E. by apply (list_elem_of_fmap_2' fst l x).
Qed.

Lemma list_to_map_btree {V} (m : gmap rstring V) : list_to_map (btree_entries m) = m.
Proof.
  rewrite <- (list_to_map_to_list m) at 2. apply list_to_map_proper; [apply NoDup_btree_entries|apply btree_entries_perm].
Qed.

Lemma length_btree_entries {V} (m : gmap rstring V) : length (btree_entries m) = size m.
Proof. rewrite (Permutation_length (btree_entries_perm m)). by apply length_map_to_list. Qed.
