(* ===== verification/Transaction.v ===== *)
(** * Transaction: [src/src/transaction.rs] and the [Point] of [storage.rs]

    A transaction is a list of catalog records and point batches with an
    optional idempotency identifier or ordered ingress identity. *)
From S2P Require Import Prelude Errors Float64 Model.

Record Point := mkPoint {
  series : Z;
  valid_time : Z;
  valid_time_end : Z;
  knowledge_time : Z;
  change_time : Z;
  point_run_id : Z;
  value : f64;
  quality : Z;
  flags : Z;
}.

#[export] Instance Point_eq_dec : EqDecision Point.
Proof. solve_decision. Defined.

(** [Point::actual]. *)
Definition Point_actual (s t : Z) (v : f64) : Point := mkPoint s t t t t 0 v 0 0.

Definition typed_point (p : Point) : Prop :=
  is_u64 (series p) /\ is_i64 (valid_time p) /\ is_i64 (valid_time_end p)
  /\ is_i64 (knowledge_time p) /\ is_i64 (change_time p) /\ is_u128 (point_run_id p)
  /\ is_f64 (value p) /\ is_u32 (quality p) /\ is_u32 (flags p).

Record IngressIdentity := mkIdentity {
  source_id : Z;
  sequence : Z;
  commit_id : Z;
}.

#[export] Instance IngressIdentity_eq_dec : EqDecision IngressIdentity.
Proof. solve_decision. Defined.

Definition typed_identity (i : IngressIdentity) : Prop :=
  is_u128 (source_id i) /\ is_u64 (sequence i) /\ is_u128 (commit_id i).

(** [Record] of the source (a keyword of Rocq). *)
Inductive TxRecord :=
  | REntity (e : Entity)
  | RRelation (r : Relation)
  | RSeries (s : SeriesDefinition)
  | RRun (r : Run)
  | RPlan (p : Plan)
  | RPoints (ps : list Point).

Definition typed_record (r : TxRecord) : Prop :=
  match r with
  | REntity e => typed_entity e
  | RRelation r => typed_relation r
  | RSeries s => typed_series s
  | RRun r => typed_run r
  | RPlan p => typed_plan p
  | RPoints ps => Forall typed_point ps
  end.

Record Transaction := mkTransaction {
  records : list TxRecord;
  tx_commit_id : option Z;
  tx_ingress_identity : option IngressIdentity;
}.

(** [Transaction::new]. *)
Definition Transaction_new : Transaction := mkTransaction [] None None.

(** [Transaction::with_commit_id]. *)
Definition with_commit_id (id : Z) (t : Transaction) : Transaction :=
  mkTransaction (records t) (Some id) None.

(** [Transaction::with_ingress_identity]. *)
Definition with_ingress_identity (i : IngressIdentity) (t : Transaction) : Transaction :=
  mkTransaction (records t) (Some (commit_id i)) (Some i).

Definition push_record (r : TxRecord) (t : Transaction) : Transaction :=
  mkTransaction (records t ++ [r]) (tx_commit_id t) (tx_ingress_identity t).

(** The builders [upsert_entity] ... [append_points]. *)
Definition upsert_entity (e : Entity) := push_record (REntity e).
Definition upsert_relation (r : Relation) := push_record (RRelation r).
Definition define_series (s : SeriesDefinition) := push_record (RSeries s).
Definition upsert_run (r : Run) := push_record (RRun r).
Definition upsert_plan (p : Plan) := push_record (RPlan p).
Definition append_points (ps : list Point) := push_record (RPoints ps).

Definition is_empty (t : Transaction) : bool :=
  match records t with [] => true | _ => false end.

Definition record_count (t : Transaction) : Z := len (records t).

Definition record_points (r : TxRecord) : list Point :=
  match r with RPoints ps => ps | _ => [] end.

Definition is_points (r : TxRecord) : bool :=
  match r with RPoints _ => true | _ => false end.

(** The points of a record list, in order. *)
Definition records_points (rs : list TxRecord) : list Point := concat (map record_points rs).

(** [Transaction::point_count]. *)
Definition records_point_count (rs : list TxRecord) : Z :=
  foldr (fun r n => len (record_points r) + n) 0 rs.
Definition point_count (t : Transaction) : Z := records_point_count (records t).

Lemma records_point_count_len rs : records_point_count rs = len (records_points rs).
Proof.
  unfold records_points, zlen. induction rs as [|r rs IH]; simpl; [done|].
  rewrite IH, length_app. unfold zlen. lia.
Qed.

Lemma records_points_app a b : records_points (a ++ b) = records_points a ++ records_points b.
Proof. unfold records_points. by rewrite map_app, concat_app. Qed.

(** Metadata records of a list: everything but point batches. *)
Definition metadata_count (rs : list TxRecord) : Z :=
  len rs - len (List.filter is_points rs).
