(* ===== verification/Graph.v ===== *)
(** * Graph: dependency graphs of the catalog

    The catalog of [src/src/catalog.rs] keeps three reference graphs: entity
    parents, run provenance and plan supersession.  This file models the
    cycle checks and the dependency-ordered enumeration that the catalog runs
    on them, over an abstract edge function, and proves them correct. *)
From S2P Require Import Prelude Errors.

Definition invalid {A} (m : Message) : Result A := Err (InvalidModel m).

(** A node is well founded when no infinite chain of references starts at it;
    on a finite graph this says that it reaches no cycle. *)
Definition grounded (edge : Z -> Z -> Prop) (x : Z) : Prop := Acc (fun b a => edge a b) x.

Lemma grounded_no_cycle edge x : grounded edge x -> ~ tc edge x x.
Proof.
  induction 1 as [x _ IH]. intros Hc.
  inversion Hc as [? ? Hxx|? y ? Hxy Hyx]; subst; [by eapply IH|].
  apply (IH y Hxy). eapply tc_r; [exact Hyx|exact Hxy].
Qed.

Inductive VisitState := Active | Complete.

#[export] Instance VisitState_eq_dec : EqDecision VisitState.
Proof. solve_decision. Defined.

Section DepthFirst.
(** [edges id] are the identifiers pushed when [id] is expanded, in order;
    [None] is a missing map key, on which the source would panic. *)
Context (edges : Z -> option (list Z)) (label : string).

Definition edge (a b : Z) : Prop := exists es, edges a = Some es /\ b ∈ es.

(** The inner loop of [validate_no_run_cycles] and
    [validate_no_plan_cycles]: an explicit stack of (identifier, finish)
    pairs, the head of the list being the top. *)
Fixpoint visit_stack (fuel : nat) (states : gmap Z VisitState)
    (stack : list (Z * bool)) : Result (gmap Z VisitState) :=
  match stack with
  | [] => Ok states
  | (id, finish) :: rest =>
      match fuel with
      | O => Err (Panic "cycle check bound")
      | S f =>
          if finish then visit_stack f (<[id:=Complete]> states) rest
          else match states !! id with
               | Some Complete => visit_stack f states rest
               | Some Active => invalid (Msg label [id])
               | None =>
                   match edges id with
                   | None => Err (Panic "missing map key")
                   | Some es =>
                       visit_stack f (<[id:=Active]> states)
                         (foldl (fun st e => (e, false) :: st) ((id, true) :: rest) es)
                   end
               end
      end
  end.

(** The outer loop over the keys. *)
Definition check_root (fuel : nat) (states : gmap Z VisitState) (root : Z)
    : Result (gmap Z VisitState) :=
  if bool_decide (states !! root = Some Complete) then Ok states
  else visit_stack fuel states [(root, false)].

Definition validate_no_cycles (fuel : nat) (keys : list Z) : Result unit :=
  let? _ := try_fold (check_root fuel) ∅ keys in Ok tt.

(** ** Soundness: what is marked complete is grounded *)

Definition complete_grounded (states : gmap Z VisitState) : Prop :=
  forall id, states !! id = Some Complete -> grounded edge id.

Fixpoint children_above (states : gmap Z VisitState) (above : list Z)
    (stack : list (Z * bool)) : Prop :=
  match stack with
  | [] => True
  | (id, f) :: rest =>
      (f = true -> forall s, edge id s -> states !! s = Some Complete \/ s ∈ above)
      /\ children_above states (id :: above) rest
  end.

Lemma children_above_mono st st' ab ab' stack :
  (forall s, st !! s = Some Complete \/ s ∈ ab ->
             st' !! s = Some Complete \/ s ∈ ab') ->
  (forall s, st !! s = Some Complete -> st' !! s = Some Complete) ->
  children_above st ab stack -> children_above st' ab' stack.
Proof.
  revert ab ab'. induction stack as [|[id f] rest IH]; intros ab ab' Hab Hst; simpl; [done|].
  intros [H1 H2]. split; [eauto|]. eapply IH; [|done|exact H2].
  intros s [Hs|Hs]; [left; auto|]. apply elem_of_cons in Hs as [->|Hs]; [right; left|].
  destruct (Hab s); [by right|by left|right; by right].
Qed.

Lemma pushed_stack es (st : list (Z * bool)) :
  foldl (fun st e => (e, false) :: st) st es = map (fun e => (e, false)) (rev es) ++ st.
Proof.
  revert st. induction es as [|e es IH]; intros st; simpl; [done|].
  rewrite IH, map_app, <- app_assoc. done.
Qed.

Lemma children_above_pushed st ab l rest :
  children_above st (rev l ++ ab) rest ->
  children_above st ab (map (fun e => (e, false)) l ++ rest).
Proof.
  revert ab. induction l as [|e l IH]; intros ab; simpl; [done|].
  rewrite <- app_assoc. intros H. split; [done|]. by apply IH.
Qed.

Lemma lookup_complete_insert (st : gmap Z VisitState) id v s :
  (st !! id = None \/ v = Complete) ->
  st !! s = Some Complete -> <[id:=v]> st !! s = Some Complete.
Proof.
  intros Hv Hs. destruct (decide (s = id)) as [->|];
    [rewrite lookup_insert_eq; destruct Hv; congruence|by rewrite lookup_insert_ne].
Qed.

Lemma children_above_finish st id rest :
  children_above st [] ((id, true) :: rest) ->
  children_above (<[id:=Complete]> st) [] rest.
Proof.
  intros [_ Hrest]. eapply children_above_mono; [| |exact Hrest].
  - intros s [Hs|Hs]; left; [by apply lookup_complete_insert; [right|]|].
    apply list_elem_of_singleton in Hs as ->. by rewrite lookup_insert_eq.
  - intros s. apply lookup_complete_insert. by right.
Qed.

Lemma children_above_skip st id rest :
  st !! id = Some Complete ->
  children_above st [] ((id, false) :: rest) -> children_above st [] rest.
Proof.
  intros Hid [_ Hrest]. eapply children_above_mono; [|done|exact Hrest].
  intros s [Hs|Hs]; left; [done|]. by apply list_elem_of_singleton in Hs as ->.
Qed.

Lemma children_above_expand st id es rest :
  st !! id = None -> edges id = Some es ->
  children_above st [] ((id, false) :: rest) ->
  children_above (<[id:=Active]> st) []
    (map (fun e => (e, false)) (rev es) ++ (id, true) :: rest).
Proof.
  intros Hid Hes [_ Hrest]. apply children_above_pushed.
  rewrite rev_involutive, app_nil_r. simpl. split.
  - intros _ s (es' & Hes' & Hs). right. congruence.
  - eapply children_above_mono; [| |exact Hrest].
    + intros s [Hs|Hs]; [left; by apply lookup_complete_insert; [left|]|].
      apply list_elem_of_singleton in Hs as ->. right. left.
    + intros s. apply lookup_complete_insert. by left.
Qed.

Lemma complete_grounded_finish st id rest :
  complete_grounded st -> children_above st [] ((id, true) :: rest) ->
  complete_grounded (<[id:=Complete]> st).
Proof.
  intros Hcg [Htop _] x. destruct (decide (x = id)) as [->|Hne].
  - intros _. constructor. intros b Hb.
    destruct (Htop eq_refl b Hb) as [?|Hin]; [by apply Hcg|inversion Hin].
  - rewrite lookup_insert_ne by done. apply Hcg.
Qed.

Lemma visit_stack_sound fuel states stack states' :
  visit_stack fuel states stack = Ok states' ->
  complete_grounded states -> children_above states [] stack ->
  complete_grounded states'
  /\ (forall id, states !! id = Some Complete -> states' !! id = Some Complete)
  /\ (forall id f, (id, f) ∈ stack -> states' !! id = Some Complete).
Proof.
  revert states stack. induction fuel as [|fuel IH]; intros states [|[id fin] rest]; simpl.
  1,3: intros [= <-] ? _; split; [done|split; [done|intros ? ? Hin; inversion Hin]].
  1: done.
  intros Hrun Hcg Hab.
  destruct fin; [|destruct (states !! id) as [[]|] eqn:Hid; [done| |]].
  - edestruct IH as (H1 & H2 & H3);
      [exact Hrun|by eapply complete_grounded_finish|by apply children_above_finish|].
    split; [done|]. split.
    + intros x Hx. apply H2, lookup_complete_insert; [by right|done].
    + intros x f [[= -> ->]|Hx]%elem_of_cons; [|eauto]. apply H2. by rewrite lookup_insert_eq.
  - edestruct IH as (H1 & H2 & H3);
      [exact Hrun|done|by eapply children_above_skip|].
    split; [done|]. split; [done|].
    intros x f [[= -> ->]|Hx]%elem_of_cons; [auto|eauto].
  - destruct (edges id) as [es|] eqn:Hes; [|done]. rewrite pushed_stack in Hrun.
    edestruct IH as (H1 & H2 & H3); [exact Hrun| |by apply children_above_expand|].
    + intros x. destruct (decide (x = id)) as [->|];
        [by rewrite lookup_insert_eq|rewrite lookup_insert_ne by done; apply Hcg].
    + split; [done|]. split.
      * intros x Hx. apply H2, lookup_complete_insert; [by left|done].
      * intros x f [[= -> ->]|Hx]%elem_of_cons;
          [apply (H3 id true)|apply (H3 x f)]; apply elem_of_app; right; [left|by right].
Qed.

Lemma validate_no_cycles_sound fuel keys :
  validate_no_cycles fuel keys = Ok tt -> forall id, id ∈ keys -> grounded edge id.
Proof.
  unfold validate_no_cycles. intros (states' & Hrun & _)%bind_Ok.
  assert (Hgen : forall st, complete_grounded st -> try_fold (check_root fuel) st keys = Ok states' ->
            forall id, id ∈ keys \/ st !! id = Some Complete -> grounded edge id).
  { clear Hrun. induction keys as [|k keys IH]; simpl; intros st Hcg Hrun id.
    - intros [Hin|Hid]; [inversion Hin|auto].
    - apply bind_Ok in Hrun as (st1 & Hk & Hrest).
      assert (Hst1 : complete_grounded st1
                /\ (forall x, st !! x = Some Complete -> st1 !! x = Some Complete)
                /\ st1 !! k = Some Complete).
      { unfold check_root in Hk. case_bool_decide.
        - simplify_eq. done.
        - apply visit_stack_sound in Hk as (? & ? & H3); [|done|simpl; done].
          split; [done|]. split; [done|]. apply (H3 k false). left. }
      destruct Hst1 as (Hcg1 & Hmono & Hk1).
      intros [[->|Hin]%elem_of_cons|Hid]; eapply IH; eauto. }
  intros id Hid. eapply Hgen; [|exact Hrun|by left]. intros x Hx. done.
Qed.

(** ** Completeness: a grounded graph passes, and the bound is enough *)

Section Complete.
Context (D : gset Z) (deg : nat).
Definition unvisited (states : gmap Z VisitState) : gset Z := D ∖ dom states.

Lemma unvisited_expand st id v :
  st !! id = None -> id ∈ D ->
  size (unvisited st) = S (size (unvisited (<[id:=v]> st))).
Proof.
  intros Hid HD. unfold unvisited. rewrite dom_insert_L.
  replace (D ∖ dom st) with ({[id]} ∪ (D ∖ ({[id]} ∪ dom st))).
  - rewrite size_union by set_solver. by rewrite size_singleton.
  - apply set_eq. intros x. apply not_elem_of_dom in Hid.
    destruct (decide (x = id)) as [->|]; set_solver.
Qed.

Lemma unvisited_finish st id v :
  (size (unvisited (<[id:=v]> st)) <= size (unvisited st))%nat.
Proof.
  apply subseteq_size. unfold unvisited. rewrite dom_insert_L. set_solver.
Qed.

Hypothesis edges_dom : forall a, is_Some (edges a) <-> a ∈ D.
Hypothesis edges_closed : forall a b, edge a b -> b ∈ D.
Hypothesis edges_deg : forall a es, edges a = Some es -> (length es <= deg)%nat.

Definition stack_measure (states : gmap Z VisitState) (stack : list (Z * bool)) : nat :=
  (length stack + S deg * size (unvisited states))%nat.

Fixpoint reach_stack (stack : list (Z * bool)) : Prop :=
  match stack with
  | [] => True
  | (x, _) :: rest =>
      (forall id, (id, true) ∈ rest -> tc edge id x) /\ reach_stack rest
  end.

Record stack_inv (states : gmap Z VisitState) (stack : list (Z * bool)) : Prop := {
  si_dom : forall x f, (x, f) ∈ stack -> x ∈ D;
  si_active : forall x, states !! x = Some Active -> (x, true) ∈ stack;
  si_visited : forall x, (x, true) ∈ stack -> is_Some (states !! x);
  si_reach : reach_stack stack;
}.

Lemma reach_stack_pushed id es rest :
  (forall e, e ∈ es -> edge id e) ->
  reach_stack ((id, true) :: rest) ->
  reach_stack (map (fun e => (e, false)) es ++ (id, true) :: rest).
Proof.
  intros Hes Hr. induction es as [|e es IH]; simpl; [done|]. split.
  - intros x [Hx|Hx]%elem_of_app.
    + apply list_elem_of_fmap in Hx as (? & [= ] & _).
    + apply elem_of_cons in Hx as [[= ->]|Hx]; [apply tc_once; apply Hes; left|].
      eapply tc_r; [by apply Hr|]. apply Hes; left.
  - apply IH. intros x Hx. apply Hes. by right.
Qed.

Lemma stack_inv_finish st id rest :
  stack_inv st ((id, true) :: rest) -> stack_inv (<[id:=Complete]> st) rest.
Proof using Type.
  intros [Hdom Hact Hvis [_ Hrr]]. split; [|intros x|intros x Hx|done].
  - intros x f Hx. eapply Hdom. by right.
  - destruct (decide (x = id)) as [->|Hne]; [by rewrite lookup_insert_eq|].
    rewrite lookup_insert_ne by done. intros Hx%Hact.
    by apply elem_of_cons in Hx as [[= ->]|Hx].
  - destruct (decide (x = id)) as [->|Hne]; [by rewrite lookup_insert_eq|].
    rewrite lookup_insert_ne by done. apply Hvis. by right.
Qed.

Lemma stack_inv_skip st id rest :
  stack_inv st ((id, false) :: rest) -> stack_inv st rest.
Proof using Type.
  intros [Hdom Hact Hvis [_ Hrr]]. split; [|intros x Hx|intros x Hx|done].
  - intros x f Hx. eapply Hdom. by right.
  - apply Hact in Hx. by apply elem_of_cons in Hx as [[= ]|Hx].
  - apply Hvis. by right.
Qed.

Lemma stack_inv_expand st id es rest :
  edges id = Some es -> stack_inv st ((id, false) :: rest) ->
  stack_inv (<[id:=Active]> st)
    (map (fun e => (e, false)) (rev es) ++ (id, true) :: rest).
Proof using edges_closed.
  intros Hes [Hdom Hact Hvis [Hreach Hrr]].
  assert (Hin_es : forall e, e ∈ rev es -> edge id e).
  { intros e He. exists es. split; [done|].
    by apply list_elem_of_In, in_rev, list_elem_of_In in He. }
  split.
  - intros x f [Hx|Hx]%elem_of_app.
    + apply list_elem_of_fmap in Hx as (e & [= -> ->] & He). eapply edges_closed; eauto.
    + apply elem_of_cons in Hx as [[= -> ->]|Hx]; eapply Hdom; [left|by right].
  - intros x. destruct (decide (x = id)) as [->|Hne];
      [intros _; apply elem_of_app; right; left|].
    rewrite lookup_insert_ne by done. intros Hx%Hact.
    apply elem_of_cons in Hx as [[= ]|Hx]. apply elem_of_app. right. by right.
  - intros x [Hx|Hx]%elem_of_app; [by apply list_elem_of_fmap in Hx as (e & [= ] & He)|].
    destruct (decide (x = id)) as [->|]; [by rewrite lookup_insert_eq|].
    apply elem_of_cons in Hx as [[= ->]|Hx]; [done|].
    rewrite lookup_insert_ne by done. apply Hvis. by right.
  - by apply reach_stack_pushed.
Qed.

Lemma visit_stack_complete fuel states stack :
  (forall x, x ∈ D -> grounded edge x) ->
  stack_inv states stack -> (stack_measure states stack <= fuel)%nat ->
  exists states', visit_stack fuel states stack = Ok states'
    /\ (forall x, states' !! x = Some Active -> False).
Proof using edges_dom edges_closed edges_deg.
  intros Hg. revert states stack.
  induction fuel as [|fuel IH]; intros states [|[id fin] rest] Hinv Hm; simpl.
  1,3: eexists; split; [done|]; intros x Hx; apply (si_active _ _ Hinv) in Hx; inversion Hx.
  1: unfold stack_measure in Hm; simpl in Hm; lia.
  unfold stack_measure in *; simpl in Hm.
  destruct fin; [|destruct (states !! id) as [[]|] eqn:Hid].
  - apply IH; [by apply stack_inv_finish|].
    pose proof (Nat.mul_le_mono_l _ _ (S deg) (unvisited_finish states id Complete)). lia.
  - exfalso. pose proof (si_active _ _ Hinv id Hid) as Hact.
    apply elem_of_cons in Hact as [[= ]|Hin].
    apply (grounded_no_cycle edge id); [|by apply Hinv].
    apply Hg. apply (si_dom _ _ Hinv id false). left.
  - apply IH; [by eapply stack_inv_skip|lia].
  - assert (HidD : id ∈ D) by (apply (si_dom _ _ Hinv id false); left).
    destruct (proj2 (edges_dom id) HidD) as [es Hes]. rewrite Hes, pushed_stack.
    apply IH; [by apply stack_inv_expand|].
    rewrite length_app, length_map, length_rev. simpl length.
    rewrite (unvisited_expand _ _ Active Hid HidD), Nat.mul_succ_r in Hm.
    specialize (edges_deg _ _ Hes). lia.
Qed.

Lemma validate_no_cycles_complete fuel keys :
  (S (S deg * size D) <= fuel)%nat ->
  (forall x, x ∈ keys -> x ∈ D) ->
  (forall x, x ∈ D -> grounded edge x) ->
  validate_no_cycles fuel keys = Ok tt.
Proof using edges_dom edges_closed edges_deg.
  intros Hfuel Hkeys Hg. unfold validate_no_cycles.
  assert (Hgen : forall st, (forall x, st !! x = Some Active -> False) ->
            exists st', try_fold (check_root fuel) st keys = Ok st').
  { induction keys as [|k keys IH]; simpl; intros st Hst; [eauto|].
    unfold check_root at 1. case_bool_decide; simpl.
    - apply IH; [|done]. intros x Hx. apply Hkeys. by right.
    - edestruct (visit_stack_complete fuel st [(k, false)]) as (st1 & -> & Hst1); [done| | |].
      + split; simpl.
        * intros x f [[= -> ->]|Hx]%elem_of_cons; [apply Hkeys; left|inversion Hx].
        * intros x Hx. by apply Hst in Hx.
        * intros x [[= ]|Hx]%elem_of_cons. inversion Hx.
        * split; [|done]. intros x Hx. inversion Hx.
      + unfold stack_measure. simpl.
        assert (size (unvisited st) <= size D)%nat
          by (apply subseteq_size; unfold unvisited; set_solver).
        nia.
      + simpl. apply IH; [|done]. intros x Hx. apply Hkeys. by right. }
  destruct (Hgen ∅) as [st' ->]; [|done]. intros x Hx. done.
Qed.
End Complete.
End DepthFirst.

(** ** Parent chains

    [validate_no_parent_cycle]: follow the single parent reference and fail
    when an identifier is seen twice. *)

Section ParentChain.
(** [parent id] is the parent of [id]; [None] when [id] is unknown or has no
    parent. *)
Context (parent : Z -> option Z).

Fixpoint follow_parents (fuel : nat) (seen : gset Z) (current : option Z) : Result unit :=
  match current with
  | None => Ok tt
  | Some id =>
      match fuel with
      | O => Err (Panic "parent chain bound")
      | S f =>
          if bool_decide (id ∈ seen) then
            invalid (Msg "entity parent cycle contains {}" [id])
          else follow_parents f ({[id]} ∪ seen) (parent id)
      end
  end.

Definition parent_edge (a b : Z) : Prop := parent a = Some b.

Lemma follow_parents_sound fuel seen id :
  follow_parents fuel seen (Some id) = Ok tt -> grounded parent_edge id.
Proof.
  revert seen id. induction fuel as [|fuel IH]; intros seen id; simpl; [done|].
  case_bool_decide; [done|]. intros Hrun. constructor. intros b Hb.
  unfold parent_edge in Hb. rewrite Hb in Hrun. by eapply IH.
Qed.

Lemma follow_parents_complete (D : gset Z) fuel seen id :
  (forall a, is_Some (parent a) -> a ∈ D) ->
  grounded parent_edge id ->
  (forall x, x ∈ seen -> tc parent_edge x id) ->
  (S (size (D ∖ seen)) <= fuel)%nat ->
  follow_parents fuel seen (Some id) = Ok tt.
Proof.
  intros HD Hg. revert fuel seen. induction Hg as [id Hacc IH]; intros fuel seen Hseen Hf.
  destruct fuel as [|fuel]; simpl; [lia|]. case_bool_decide as Hin.
  - exfalso. apply (grounded_no_cycle parent_edge id); [by constructor|auto].
  - destruct (parent id) as [p|] eqn:Hp; [|by destruct fuel].
    apply (IH p Hp).
    + intros x [->%elem_of_singleton|Hx]%elem_of_union; [by apply tc_once|].
      eapply tc_r; [by apply Hseen|done].
    + assert (size (D ∖ seen) = S (size (D ∖ ({[id]} ∪ seen)))) as Hsz; [|lia].
      replace (D ∖ seen) with ({[id]} ∪ (D ∖ ({[id]} ∪ seen))).
      * rewrite size_union by set_solver. by rewrite size_singleton.
      * apply set_eq. intros x. assert (id ∈ D) by (apply HD; by rewrite Hp).
        destruct (decide (x = id)) as [->|]; set_solver.
Qed.
End ParentChain.

(** ** Dependency-ordered enumeration

    The loops of [Catalog::snapshot_records]: repeatedly emit, in key order,
    every remaining identifier none of whose dependencies remains. *)

Section Drain.
Context (deps : Z -> list Z) (label : string).

Definition ready (remaining : gset Z) : list Z :=
  List.filter (fun id => forallb (fun d => negb (bool_decide (d ∈ remaining))) (deps id))
    (btree_set_to_list remaining).

Fixpoint drain (fuel : nat) (remaining : gset Z) : Result (list Z) :=
  if bool_decide (remaining = ∅) then Ok []
  else match fuel with
       | O => Err (Panic "snapshot bound")
       | S f =>
           if bool_decide (ready remaining = []) then invalid (text label)
           else let? rest := drain f (remaining ∖ list_to_set (ready remaining)) in
                Ok (ready remaining ++ rest)
       end.

Definition dep_edge (a b : Z) : Prop := b ∈ deps a.

Lemma elem_of_ready remaining id :
  id ∈ ready remaining <-> id ∈ remaining /\ forall d, d ∈ deps id -> d ∉ remaining.
Proof.
  unfold ready. rewrite list_elem_of_In, filter_In, <- list_elem_of_In, elem_of_btree_set.
  rewrite forallb_forall. setoid_rewrite <- list_elem_of_In.
  setoid_rewrite negb_true_iff. by setoid_rewrite bool_decide_eq_false.
Qed.

Lemma ready_nonempty remaining id :
  id ∈ remaining -> grounded dep_edge id -> ready remaining <> [].
Proof.
  intros Hin Hg. induction Hg as [id _ IH].
  destruct (decide (Exists (fun d => d ∈ remaining) (deps id))) as [Hex|Hno].
  - apply Exists_exists in Hex as (d & Hd & Hdr). by apply (IH d).
  - intros Hnil. assert (id ∈ ready remaining) as Hid; [|rewrite Hnil in Hid; inversion Hid].
    apply elem_of_ready. split; [done|]. intros d Hd Hdr. apply Hno.
    apply Exists_exists. eauto.
Qed.

Lemma NoDup_ready remaining : NoDup (ready remaining).
Proof.
  unfold ready. apply NoDup_ListNoDup, List.NoDup_filter, NoDup_ListNoDup.
  unfold btree_set_to_list. rewrite stable_sort_perm. apply NoDup_elements.
Qed.

(** The enumeration succeeds on a grounded set and lists it exactly once. *)
Lemma drain_complete fuel remaining :
  (size remaining <= fuel)%nat ->
  (forall x, x ∈ remaining -> grounded dep_edge x) ->
  exists ids, drain fuel remaining = Ok ids /\ NoDup ids
    /\ (forall x, x ∈ ids <-> x ∈ remaining).
Proof.
  revert remaining. induction fuel as [|fuel IH]; intros remaining Hsz Hg; simpl;
    case_bool_decide as Hemp.
  1,3: exists []; split; [done|]; split; [constructor|]; subst; set_solver.
  - exfalso. apply Hemp, leibniz_equiv, size_empty_inv. lia.
  - destruct (set_choose_L remaining Hemp) as [x0 Hx0].
    pose proof (ready_nonempty _ _ Hx0 (Hg _ Hx0)) as Hne. rewrite bool_decide_eq_false_2 by done.
    destruct (ready remaining) as [|r0 rs] eqn:Hr; [done|]. rewrite <- Hr in *. clear Hne.
    assert (Hsub : forall x, x ∈ ready remaining -> x ∈ remaining)
      by (intros x Hx; by apply elem_of_ready in Hx as [? _]).
    destruct (IH (remaining ∖ list_to_set (ready remaining))) as (ids & -> & Hnd & Hids).
    + assert (size (remaining ∖ list_to_set (ready remaining)) < size remaining)%nat; [|lia].
      apply subset_size. split; [set_solver|]. intros Hs.
      assert (r0 ∈ remaining) by (apply Hsub; rewrite Hr; left).
      specialize (Hs r0). rewrite Hr in Hs. set_solver.
    + intros x Hx. apply Hg. set_solver.
    + exists (ready remaining ++ ids). split; [done|]. split.
      * apply NoDup_app. split; [apply NoDup_ready|]. split; [|done].
        intros x Hx. rewrite Hids. set_solver.
      * intros x. rewrite elem_of_app, Hids. 
        destruct (decide (x ∈ ready remaining)); set_solver.
Qed.
End Drain.
