(* ===== verification/Catalog.v ===== *)
(** * Catalog: [src/src/catalog.rs]

    The persistent catalog of entities, relations, series, runs and plans:
    per-record validation, status transitions, reference checks, atomic
    application of a record list, and the dependency-ordered snapshot that log
    reclamation writes. *)
From S2P Require Import Prelude Errors Float64 Model Transaction Graph.

Record Catalog := mkCatalog {
  entities : gmap Z Entity;
  relations : gmap Z Relation;
  series_map : gmap Z SeriesDefinition;
  runs : gmap Z Run;
  plans : gmap Z Plan;
}.

Definition Catalog_default : Catalog := mkCatalog ∅ ∅ ∅ ∅ ∅.

Record CatalogStats := mkCatalogStats {
  stat_entities : Z; stat_relations : Z; stat_series : Z; stat_runs : Z; stat_plans : Z;
}.

(** [Catalog::stats]. *)
Definition Catalog_stats (c : Catalog) : CatalogStats :=
  mkCatalogStats (Z.of_nat (size (entities c))) (Z.of_nat (size (relations c)))
    (Z.of_nat (size (series_map c))) (Z.of_nat (size (runs c))) (Z.of_nat (size (plans c))).

(** ** Record validation *)

Definition validate_properties (label : string) (properties : Properties) : Result unit :=
  reject (existsb (fun '(name, v) =>
            trim_is_empty name
            || match v with PvFloat x => negb (f64_is_finite x) | _ => false end)
            (map_to_list properties))
    (InvalidModel (text (label +:+ " properties require names and finite float values"))).

Definition validate_entity (e : Entity) : Result unit :=
  reject (entity_id e =? 0) (InvalidModel (text "entity id zero is reserved")) ;?
  reject (trim_is_empty (entity_kind e) || trim_is_empty (entity_name e))
    (InvalidModel (text "entity kind and name are required")) ;?
  reject (is_some_and (entity_parent e) (fun p => p =? entity_id e))
    (InvalidModel (text "entity cannot be its own parent")) ;?
  reject (is_some_and (entity_valid_to e) (fun t => t <=? entity_valid_from e))
    (InvalidModel (text "entity validity interval must be positive")) ;?
  validate_properties "entity" (entity_properties e).

Definition validate_relation (r : Relation) : Result unit :=
  reject ((relation_id r =? 0) || trim_is_empty (relation_kind r))
    (InvalidModel (text "relation id and kind are required")) ;?
  reject (is_some_and (relation_valid_to r) (fun t => t <=? relation_valid_from r))
    (InvalidModel (text "relation validity interval must be positive")) ;?
  validate_properties "relation" (relation_properties r).

Definition validate_run (r : Run) : Result unit :=
  reject ((run_id r =? 0) || trim_is_empty (run_workflow r))
    (InvalidModel (text "run id and workflow are required")) ;?
  reject (is_some_and (run_parent_run r) (fun p => p =? run_id r)
          || is_some_and (run_input_snapshot r) (fun p => p =? run_id r))
    (InvalidModel (text "run cannot refer to itself")) ;?
  validate_properties "run" (run_attributes r).

(** [matches!(status, Succeeded | Failed | Cancelled)]. *)
Definition run_terminal (s : RunStatus) : bool :=
  match s with Succeeded | Failed | RunCancelled => true | _ => false end.

Definition validate_run_transition (previous next : Run) : Result unit :=
  reject (run_terminal (run_status previous) && negb (run_eqb previous next))
    (InvalidModel (Msg "completed run {} is immutable" [run_id previous])) ;?
  reject (negb (bool_decide (run_kind previous = run_kind next))
          || negb (run_created_at previous =? run_created_at next))
    (InvalidModel (Msg "run {} identity fields are immutable" [run_id previous])).

Definition plan_transition_allowed (a b : PlanStatus) : bool :=
  bool_decide (a = b)
  || match a, b with
     | Candidate, Approved | Candidate, PlanCancelled | Candidate, Superseded
     | Approved, Deployed | Approved, PlanCancelled | Approved, Superseded
     | Deployed, Superseded => true
     | _, _ => false
     end.

Definition validate_plan_transition (previous next : Plan) : Result unit :=
  reject (negb (plan_run_id previous =? plan_run_id next)
          || negb (plan_horizon_start previous =? plan_horizon_start next)
          || negb (plan_horizon_end previous =? plan_horizon_end next)
          || negb (plan_resolution_micros previous =? plan_resolution_micros next))
    (InvalidModel (Msg "plan {} schedule identity fields are immutable" [plan_id previous])) ;?
  reject (negb (plan_transition_allowed (plan_status previous) (plan_status next)))
    (InvalidModel (Msg "invalid plan {} status transition" [plan_id previous])).

(** The catalog-independent point invariants. *)
Definition validate_point_interval (p : Point) : Result unit :=
  reject (valid_time_end p <? valid_time p)
    (InvalidModel (text "point interval ends before it starts")) ;?
  reject (negb (f64_is_finite (value p)))
    (InvalidModel (text "point value must be finite")).

Definition validate_point_intervals (points : list Point) : Result unit :=
  for_each validate_point_interval points.

(** ** Reference graphs *)

Definition contains {V} (m : gmap Z V) (k : Z) : bool := is_some (m !! k).

Definition entity_parent_of (m : gmap Z Entity) (id : Z) : option Z :=
  m !! id ≫= entity_parent.

(** [validate_no_parent_cycle]. *)
Definition validate_no_parent_cycle (id : Z) (m : gmap Z Entity) : Result unit :=
  follow_parents (entity_parent_of m) (S (size m)) ∅ (Some id).

(** Edges in the order the stack receives them: the input snapshot, then the
    parent run. *)
Definition run_edges (m : gmap Z Run) (id : Z) : option (list Z) :=
  match m !! id with
  | None => None
  | Some r => Some (option_list (run_input_snapshot r) ++ option_list (run_parent_run r))
  end.

Definition validate_no_run_cycles (m : gmap Z Run) : Result unit :=
  validate_no_cycles (run_edges m) "run provenance cycle contains {}"
    (S (3 * size m)) (btree_keys m).

Definition plan_edges (m : gmap Z Plan) (id : Z) : option (list Z) :=
  match m !! id with
  | None => None
  | Some p => Some (option_list (plan_supersedes p))
  end.

Definition validate_no_plan_cycles (m : gmap Z Plan) : Result unit :=
  validate_no_cycles (plan_edges m) "plan supersession cycle contains {}"
    (S (2 * size m)) (btree_keys m).

(** ** [Catalog::validate_references] *)

Definition check_entity (c : Catalog) (e : Entity) : Result unit :=
  match entity_parent e with
  | Some parent =>
      reject (negb (contains (entities c) parent))
        (InvalidModel (Msg "entity {} refers to missing parent {}" [entity_id e; parent]))
  | None => Ok tt
  end ;?
  validate_no_parent_cycle (entity_id e) (entities c).

Definition check_relation (c : Catalog) (r : Relation) : Result unit :=
  reject (negb (contains (entities c) (relation_source r))
          || negb (contains (entities c) (relation_target r)))
    (InvalidModel (Msg "relation {} has a missing endpoint" [relation_id r])).

Definition check_series (c : Catalog) (s : SeriesDefinition) : Result unit :=
  reject (is_some_and (series_owner_entity s) (fun o => negb (contains (entities c) o))
          || is_some_and (series_owner_relation s) (fun o => negb (contains (relations c) o)))
    (InvalidModel (Msg "series {} has a missing owner" [series_id s])).

Definition check_run (c : Catalog) (r : Run) : Result unit :=
  reject (is_some_and (run_parent_run r) (fun p => negb (contains (runs c) p))
          || is_some_and (run_input_snapshot r) (fun p => negb (contains (runs c) p)))
    (InvalidModel (Msg "run {} has missing provenance" [run_id r])).

Definition check_plan (c : Catalog) (p : Plan) : Result unit :=
  match runs c !! plan_run_id p with
  | None => invalid (Msg "plan {} refers to a missing run" [plan_id p])
  | Some r =>
      reject (negb (bool_decide (run_kind r = Optimization)))
        (InvalidModel (Msg "plan {} must refer to an optimization run" [plan_id p])) ;?
      reject (is_some_and (plan_supersedes p) (fun q => negb (contains (plans c) q)))
        (InvalidModel (Msg "plan {} supersedes a missing plan" [plan_id p]))
  end.

Definition validate_references (c : Catalog) : Result unit :=
  for_each (check_entity c) (btree_values (entities c)) ;?
  for_each (check_relation c) (btree_values (relations c)) ;?
  for_each (check_series c) (btree_values (series_map c)) ;?
  for_each (check_run c) (btree_values (runs c)) ;?
  validate_no_run_cycles (runs c) ;?
  for_each (check_plan c) (btree_values (plans c)) ;?
  validate_no_plan_cycles (plans c).

Definition check_point (c : Catalog) (p : Point) : Result unit :=
  reject (negb (contains (series_map c) (series p)))
    (InvalidModel (Msg "point refers to undefined series {}" [series p])) ;?
  reject (negb (point_run_id p =? 0) && negb (contains (runs c) (point_run_id p)))
    (InvalidModel (Msg "point refers to missing run {}" [point_run_id p])).

Definition validate_points (c : Catalog) (points : list Point) : Result unit :=
  validate_point_intervals points ;? for_each (check_point c) points.

(** ** Applying records *)

Section Apply.
Context `{TimeZones}.

(** [Catalog::apply]. *)
Definition apply (c : Catalog) (r : TxRecord) : Result Catalog :=
  match r with
  | REntity e =>
      validate_entity e ;?
      Ok (mkCatalog (<[entity_id e := e]> (entities c)) (relations c) (series_map c)
            (runs c) (plans c))
  | RRelation r =>
      validate_relation r ;?
      Ok (mkCatalog (entities c) (<[relation_id r := r]> (relations c)) (series_map c)
            (runs c) (plans c))
  | RSeries s =>
      match SeriesDefinition_validate s with
      | Some reason => invalid (text reason)
      | None =>
          Ok (mkCatalog (entities c) (relations c) (<[series_id s := s]> (series_map c))
                (runs c) (plans c))
      end
  | RRun r =>
      validate_run r ;?
      match runs c !! run_id r with
      | Some previous => validate_run_transition previous r
      | None => Ok tt
      end ;?
      Ok (mkCatalog (entities c) (relations c) (series_map c)
            (<[run_id r := r]> (runs c)) (plans c))
  | RPlan p =>
      match Plan_validate p with
      | Some reason => invalid (text reason)
      | None =>
          validate_properties "plan" (plan_attributes p) ;?
          match plans c !! plan_id p with
          | Some previous => validate_plan_transition previous p
          | None => Ok tt
          end ;?
          Ok (mkCatalog (entities c) (relations c) (series_map c) (runs c)
                (<[plan_id p := p]> (plans c)))
      end
  | RPoints _ => Ok c
  end.

Definition validate_record_points (c : Catalog) (r : TxRecord) : Result unit :=
  match r with RPoints ps => validate_points c ps | _ => Ok tt end.

(** [Catalog::validate_and_apply]. *)
Definition validate_and_apply (c : Catalog) (rs : list TxRecord) : Result Catalog :=
  let? candidate := try_fold apply c rs in
  validate_references candidate ;?
  for_each (validate_record_points candidate) rs ;?
  Ok candidate.

(** [Catalog::apply_records]: point-only lists leave the catalog alone. *)
Definition apply_records (c : Catalog) (rs : list TxRecord) : Result (option Catalog) :=
  if forallb is_points rs then
    for_each (validate_record_points c) rs ;? Ok None
  else
    let? c' := validate_and_apply c rs in Ok (Some c').

(** [Catalog::apply_recovered]. *)
Definition apply_recovered (c : Catalog) (rs : list TxRecord) (offset : Z)
    : Result Catalog :=
  match apply_records c rs with
  | Ok None => Ok c
  | Ok (Some candidate) => Ok candidate
  | Err _ => Err (Corruption offset (text "invalid recovered transaction: {error}"))
  end.
End Apply.

(** ** [Catalog::snapshot_records] *)

Definition lookup_all {V} (m : gmap Z V) (ids : list Z) : list V := omap (fun k => m !! k) ids.

Definition entity_deps (c : Catalog) (id : Z) : list Z :=
  option_list (entity_parent_of (entities c) id).
Definition run_deps (c : Catalog) (id : Z) : list Z :=
  match runs c !! id with
  | Some r => option_list (run_parent_run r) ++ option_list (run_input_snapshot r)
  | None => []
  end.
Definition plan_deps (c : Catalog) (id : Z) : list Z :=
  option_list (plans c !! id ≫= plan_supersedes).

Definition snapshot_records (c : Catalog) : Result (list TxRecord) :=
  validate_references c ;?
  let? es := drain (entity_deps c) "entity dependency graph cannot be snapshotted"
               (size (entities c)) (dom (entities c)) in
  let? rs := drain (run_deps c) "run dependency graph cannot be snapshotted"
               (size (runs c)) (dom (runs c)) in
  let? ps := drain (plan_deps c) "plan dependency graph cannot be snapshotted"
               (size (plans c)) (dom (plans c)) in
  Ok (map REntity (lookup_all (entities c) es)
      ++ map RRelation (btree_values (relations c))
      ++ map RSeries (btree_values (series_map c))
      ++ map RRun (lookup_all (runs c) rs)
      ++ map RPlan (lookup_all (plans c) ps)).

(** ** Meaning of the reference checks *)

Lemma contains_spec {V} (m : gmap Z V) k : contains m k = true <-> is_Some (m !! k).
Proof. unfold contains. destruct (m !! k); simpl; naive_solver. Qed.

Lemma contains_false {V} (m : gmap Z V) k : negb (contains m k) = false <-> is_Some (m !! k).
Proof. rewrite negb_false_iff. apply contains_spec. Qed.

Lemma is_some_and_false {A} (o : option A) p :
  is_some_and o p = false <-> forall a, o = Some a -> p a = false.
Proof. destruct o; simpl; naive_solver. Qed.

(** The edge relations the catalog keeps acyclic. *)
Definition parent_ref (c : Catalog) : Z -> Z -> Prop := parent_edge (entity_parent_of (entities c)).
Definition run_ref (c : Catalog) : Z -> Z -> Prop := edge (run_edges (runs c)).
Definition plan_ref (c : Catalog) : Z -> Z -> Prop := edge (plan_edges (plans c)).

(** Abstract specification of a referentially sound catalog: no dangling
    reference, no reference cycle, plans attached to optimization runs. *)
Record refs_valid (c : Catalog) : Prop := {
  rv_parent : forall id e p, entities c !! id = Some e -> entity_parent e = Some p ->
    is_Some (entities c !! p);
  rv_parent_grounded : forall id, is_Some (entities c !! id) -> grounded (parent_ref c) id;
  rv_relation : forall id r, relations c !! id = Some r ->
    is_Some (entities c !! relation_source r) /\ is_Some (entities c !! relation_target r);
  rv_series_entity : forall id s o, series_map c !! id = Some s ->
    series_owner_entity s = Some o -> is_Some (entities c !! o);
  rv_series_relation : forall id s o, series_map c !! id = Some s ->
    series_owner_relation s = Some o -> is_Some (relations c !! o);
  rv_run : forall id r p, runs c !! id = Some r ->
    run_parent_run r = Some p \/ run_input_snapshot r = Some p -> is_Some (runs c !! p);
  rv_run_grounded : forall id, is_Some (runs c !! id) -> grounded (run_ref c) id;
  rv_plan_run : forall id p, plans c !! id = Some p ->
    exists r, runs c !! plan_run_id p = Some r /\ run_kind r = Optimization;
  rv_plan_supersedes : forall id p q, plans c !! id = Some p ->
    plan_supersedes p = Some q -> is_Some (plans c !! q);
  rv_plan_grounded : forall id, is_Some (plans c !! id) -> grounded (plan_ref c) id;
}.

(** Every stored record sits under its own identifier and is valid. *)
Record wf_records `{TimeZones} (c : Catalog) : Prop := {
  wr_entities : map_Forall (fun k e => entity_id e = k /\ validate_entity e = Ok tt) (entities c);
  wr_relations :
    map_Forall (fun k r => relation_id r = k /\ validate_relation r = Ok tt) (relations c);
  wr_series :
    map_Forall (fun k s => series_id s = k /\ SeriesDefinition_validate s = None) (series_map c);
  wr_runs : map_Forall (fun k r => run_id r = k /\ validate_run r = Ok tt) (runs c);
  wr_plans :
    map_Forall (fun k p => plan_id p = k /\ Plan_validate p = None
                           /\ validate_properties "plan" (plan_attributes p) = Ok tt) (plans c);
}.

(** The catalog invariant. *)
Definition wf_catalog `{TimeZones} (c : Catalog) : Prop := wf_records c /\ refs_valid c.

Lemma for_values_Ok {V} (f : V -> Result unit) (m : gmap Z V) u :
  for_each f (btree_values m) = Ok u <-> forall k v, m !! k = Some v -> f v = Ok tt.
Proof.
  rewrite for_each_Ok. setoid_rewrite elem_of_btree_values. naive_solver.
Qed.

Lemma bind_unit_Ok (a b : Result unit) u : (a ;? b) = Ok u <-> a = Ok tt /\ b = Ok tt.
Proof. destruct a as [[]|], u; simpl; naive_solver. Qed.

Lemma validate_no_parent_cycle_spec c id :
  validate_no_parent_cycle id (entities c) = Ok tt <-> grounded (parent_ref c) id.
Proof.
  unfold validate_no_parent_cycle. split; [apply follow_parents_sound|]. intros Hg.
  apply (follow_parents_complete _ (dom (entities c))); [|done|set_solver|].
  - intros a [p Hp]. unfold entity_parent_of in Hp. apply elem_of_dom.
    destruct (entities c !! a); [eauto|done].
  - rewrite difference_empty_L. by rewrite size_dom.
Qed.

Lemma check_entity_Ok c e :
  check_entity c e = Ok tt <->
  (forall p, entity_parent e = Some p -> is_Some (entities c !! p))
  /\ grounded (parent_ref c) (entity_id e).
Proof.
  unfold check_entity. rewrite bind_unit_Ok, validate_no_parent_cycle_spec.
  destruct (entity_parent e); [rewrite reject_Ok, contains_false|]; naive_solver.
Qed.

Lemma check_relation_Ok c r :
  check_relation c r = Ok tt <->
  is_Some (entities c !! relation_source r) /\ is_Some (entities c !! relation_target r).
Proof.
  unfold check_relation. by rewrite reject_Ok, orb_false_iff, !contains_false.
Qed.

Lemma check_series_Ok c s :
  check_series c s = Ok tt <->
  (forall o, series_owner_entity s = Some o -> is_Some (entities c !! o))
  /\ (forall o, series_owner_relation s = Some o -> is_Some (relations c !! o)).
Proof.
  unfold check_series. rewrite reject_Ok, orb_false_iff, !is_some_and_false.
  by setoid_rewrite contains_false.
Qed.

Lemma check_run_Ok c r :
  check_run c r = Ok tt <->
  forall p, run_parent_run r = Some p \/ run_input_snapshot r = Some p -> is_Some (runs c !! p).
Proof.
  unfold check_run. rewrite reject_Ok, orb_false_iff, !is_some_and_false.
  setoid_rewrite contains_false. naive_solver.
Qed.

Lemma check_plan_Ok c p :
  check_plan c p = Ok tt <->
  (exists r, runs c !! plan_run_id p = Some r /\ run_kind r = Optimization)
  /\ (forall q, plan_supersedes p = Some q -> is_Some (plans c !! q)).
Proof.
  unfold check_plan. destruct (runs c !! plan_run_id p) as [r|]; [|naive_solver].
  rewrite bind_unit_Ok, !reject_Ok, negb_false_iff, bool_decide_eq_true, is_some_and_false.
  setoid_rewrite contains_false. naive_solver.
Qed.

Lemma run_edges_dom c a : is_Some (run_edges (runs c) a) <-> a ∈ dom (runs c).
Proof. unfold run_edges. rewrite elem_of_dom. destruct (runs c !! a); naive_solver. Qed.

Lemma run_edges_closed c :
  (forall id r, runs c !! id = Some r -> check_run c r = Ok tt) ->
  forall a b, edge (run_edges (runs c)) a b -> b ∈ dom (runs c).
Proof.
  intros Hc a b (es & Hes & Hb). unfold run_edges in Hes.
  destruct (runs c !! a) as [r|] eqn:Hr; [|done]. injection Hes as <-.
  apply elem_of_dom. specialize (proj1 (check_run_Ok c r) (Hc a r Hr) b) as Hs. apply Hs.
  apply elem_of_app in Hb as [Hb|Hb]; [right|left];
    (destruct (run_input_snapshot r), (run_parent_run r)); simpl in Hb; set_solver.
Qed.

(** [validate_no_run_cycles] accepts exactly the acyclic provenance graphs,
    once every referenced run exists. *)
Lemma validate_no_run_cycles_spec c :
  (forall id r, runs c !! id = Some r -> check_run c r = Ok tt) ->
  validate_no_run_cycles (runs c) = Ok tt <->
  forall id, is_Some (runs c !! id) -> grounded (run_ref c) id.
Proof.
  intros Hc. unfold validate_no_run_cycles. split.
  - intros Hrun id Hid. eapply validate_no_cycles_sound; [exact Hrun|].
    by apply elem_of_btree_keys.
  - intros Hg. eapply (validate_no_cycles_complete _ _ (dom (runs c)) 2).
    + apply run_edges_dom.
    + by apply run_edges_closed.
    + intros a es. unfold run_edges. destruct (runs c !! a) as [r|]; [|done]. intros [= <-].
      destruct (run_input_snapshot r), (run_parent_run r); simpl; lia.
    + rewrite size_dom. lia.
    + intros x. by rewrite elem_of_btree_keys, elem_of_dom.
    + intros x Hx. apply Hg. by apply elem_of_dom.
Qed.

Lemma plan_edges_closed c :
  (forall id p, plans c !! id = Some p -> check_plan c p = Ok tt) ->
  forall a b, edge (plan_edges (plans c)) a b -> b ∈ dom (plans c).
Proof.
  intros Hc a b (es & Hes & Hb). unfold plan_edges in Hes.
  destruct (plans c !! a) as [p|] eqn:Hp; [|done]. injection Hes as <-.
  apply elem_of_dom. apply (proj1 (check_plan_Ok c p) (Hc a p Hp)).
  destruct (plan_supersedes p); simpl in Hb; set_solver.
Qed.

Lemma validate_no_plan_cycles_spec c :
  (forall id p, plans c !! id = Some p -> check_plan c p = Ok tt) ->
  validate_no_plan_cycles (plans c) = Ok tt <->
  forall id, is_Some (plans c !! id) -> grounded (plan_ref c) id.
Proof.
  intros Hc. unfold validate_no_plan_cycles. split.
  - intros Hrun id Hid. eapply validate_no_cycles_sound; [exact Hrun|].
    by apply elem_of_btree_keys.
  - intros Hg. eapply (validate_no_cycles_complete _ _ (dom (plans c)) 1).
    + intros a. unfold plan_edges. rewrite elem_of_dom. destruct (plans c !! a); naive_solver.
    + by apply plan_edges_closed.
    + intros a es. unfold plan_edges. destruct (plans c !! a) as [p|]; [|done]. intros [= <-].
      destruct (plan_supersedes p); simpl; lia.
    + rewrite size_dom. lia.
    + intros x. by rewrite elem_of_btree_keys, elem_of_dom.
    + intros x Hx. apply Hg. by apply elem_of_dom.
Qed.

Lemma validate_references_checks c :
  validate_references c = Ok tt <->
  (forall k v, entities c !! k = Some v -> check_entity c v = Ok tt)
  /\ (forall k v, relations c !! k = Some v -> check_relation c v = Ok tt)
  /\ (forall k v, series_map c !! k = Some v -> check_series c v = Ok tt)
  /\ (forall k v, runs c !! k = Some v -> check_run c v = Ok tt)
  /\ (forall k v, plans c !! k = Some v -> check_plan c v = Ok tt)
  /\ validate_no_run_cycles (runs c) = Ok tt
  /\ validate_no_plan_cycles (plans c) = Ok tt.
Proof.
  unfold validate_references. rewrite !bind_unit_Ok, !for_values_Ok. tauto.
Qed.

(** [Catalog::validate_references] accepts a catalog of well-formed records
    exactly when no reference dangles, the three reference graphs are free of
    cycles and every plan is attached to an optimization run; in particular
    the cycle checks neither loop nor panic on such a catalog. *)
Lemma validate_references_iff `{TimeZones} (c : Catalog) :
  wf_records c -> (validate_references c = Ok tt <-> refs_valid c).
Proof.
  intros Hw. rewrite validate_references_checks.
  split.
  - intros (He & Hr & Hs & Hru & Hp & Hrc & Hpc).
    rewrite validate_no_run_cycles_spec in Hrc by done.
    rewrite validate_no_plan_cycles_spec in Hpc by done.
    assert (He' : forall k v, entities c !! k = Some v -> entity_id v = k)
      by (intros k v Hk; apply (wr_entities c Hw k v Hk)).
    setoid_rewrite check_entity_Ok in He. setoid_rewrite check_relation_Ok in Hr.
    setoid_rewrite check_series_Ok in Hs. setoid_rewrite check_run_Ok in Hru.
    setoid_rewrite check_plan_Ok in Hp.
    split; [| |exact Hr| | | |exact Hrc| | |exact Hpc].
    + intros id e p Hid. apply (He id e Hid).
    + intros id [e Hid]. rewrite <- (He' id e Hid). apply (He id e Hid).
    + intros id s o Hid. apply (Hs id s Hid).
    + intros id s o Hid. apply (Hs id s Hid).
    + intros id r p Hid. apply (Hru id r Hid).
    + intros id p Hid. apply (Hp id p Hid).
    + intros id p q Hid. apply (Hp id p Hid).
  - intros [].
    assert (Hru : forall k v, runs c !! k = Some v -> check_run c v = Ok tt)
      by (intros; apply check_run_Ok; eauto).
    assert (Hp : forall k v, plans c !! k = Some v -> check_plan c v = Ok tt)
      by (intros; apply check_plan_Ok; eauto).
    rewrite validate_no_run_cycles_spec, validate_no_plan_cycles_spec by done.
    split_and!; [| | |exact Hru|exact Hp|exact rv_run_grounded0|exact rv_plan_grounded0];
      intros k v Hk.
    + apply check_entity_Ok. split; [eauto|].
      destruct (wr_entities c Hw k v Hk) as [-> _]. eauto.
    + apply check_relation_Ok. eauto.
    + apply check_series_Ok. eauto.
Qed.

(** ** Application preserves the invariant *)

Section Facts.
Context `{TimeZones}.

Lemma validate_references_wf c : wf_records c -> validate_references c = Ok tt -> wf_catalog c.
Proof. intros Hw Hr. split; [done|]. by apply validate_references_iff. Qed.

Lemma wf_catalog_default : wf_catalog Catalog_default.
Proof.
  assert (He : forall V (k : Z) (v : V), (∅ : gmap Z V) !! k = Some v -> False)
    by (intros V k v Hk; rewrite lookup_empty in Hk; discriminate Hk).
  split; split; simpl.
  1-5: intros k v Hk; destruct (He _ _ _ Hk).
  all: intros *; try (intros Hk; destruct (He _ _ _ Hk)); intros [? Hk]; destruct (He _ _ _ Hk).
Qed.

Lemma apply_wf_records c r c' : wf_records c -> apply c r = Ok c' -> wf_records c'.
Proof.
  intros [] Ha. destruct r; simpl in Ha.
  - ok_inv. split; simpl; try done. by apply map_Forall_insert_2.
  - ok_inv. split; simpl; try done. by apply map_Forall_insert_2.
  - destruct (SeriesDefinition_validate s) eqn:?; ok_inv; [done|].
    split; simpl; try done. by apply map_Forall_insert_2.
  - ok_inv. split; simpl; try done. by apply map_Forall_insert_2.
  - destruct (Plan_validate p) eqn:?; ok_inv; [done|].
    split; simpl; try done. by apply map_Forall_insert_2.
  - by simplify_eq.
Qed.

Lemma validate_and_apply_Ok c rs c' :
  validate_and_apply c rs = Ok c' <->
  try_fold apply c rs = Ok c' /\ validate_references c' = Ok tt
  /\ for_each (validate_record_points c') rs = Ok tt.
Proof.
  unfold validate_and_apply. split.
  - intros Hv. ok_inv. auto.
  - intros (-> & Hr & Hp). simpl. rewrite Hr. simpl. by rewrite Hp.
Qed.

Lemma apply_records_Some c rs c' :
  apply_records c rs = Ok (Some c') -> validate_and_apply c rs = Ok c'.
Proof. unfold apply_records. destruct (forallb _ _); intros; ok_inv; congruence. Qed.

(** Catalog invariant: every transaction the catalog accepts leaves it
    with valid records under their own identifiers, no dangling reference
    and no reference cycle. *)
Lemma apply_records_wf c rs c' :
  wf_catalog c -> apply_records c rs = Ok (Some c') -> wf_catalog c'.
Proof.
  intros [Hw _] Ha. apply apply_records_Some, validate_and_apply_Ok in Ha as (Hf & Hr & _).
  apply validate_references_wf; [|done].
  eapply try_fold_inv; [|exact Hw|exact Hf]. apply apply_wf_records.
Qed.

(** Every point of an accepted transaction is a finite value over a forward
    interval, of a series and a run the catalog knows afterwards. *)
Lemma apply_records_points c rs o ps p :
  apply_records c rs = Ok o -> RPoints ps ∈ rs -> p ∈ ps ->
  let c' := default c o in
  is_Some (series_map c' !! series p)
  /\ (point_run_id p = 0 \/ is_Some (runs c' !! point_run_id p))
  /\ valid_time p <= valid_time_end p /\ f64_is_finite (value p) = true.
Proof.
  intros Ha Hr Hp c'.
  assert (Hv : validate_points c' ps = Ok tt).
  { unfold apply_records in Ha. destruct (forallb is_points rs).
    - apply bind_Ok in Ha as ([] & Hf & [= <-]). exact (proj1 (for_each_Ok _ _ tt) Hf _ Hr).
    - apply bind_Ok in Ha as (c1 & Hf & [= <-]). apply validate_and_apply_Ok in Hf as (_ & _ & Hf).
      exact (proj1 (for_each_Ok _ _ tt) Hf _ Hr). }
  unfold validate_points in Hv. apply bind_unit_Ok in Hv as [Hi Hc].
  apply for_each_Ok with (x := p) in Hi; [|done]. apply for_each_Ok with (x := p) in Hc; [|done].
  unfold validate_point_interval in Hi. unfold check_point in Hc. rewrite bind_unit_Ok, !reject_Ok in Hi, Hc.
  destruct Hi as [Hi1 Hi2], Hc as [Hc1 Hc2]. apply negb_false_iff, contains_spec in Hc1.
  apply andb_false_iff in Hc2. rewrite !negb_false_iff, contains_spec in Hc2. split_and!; [done| |zlia|].
  - destruct Hc2 as [Hz|Hz]; [left; zlia|by right].
  - by apply negb_false_iff in Hi2.
Qed.

(** ** Monotonicity of history *)

Definition run_identity (r : Run) := (run_id r, run_kind r, run_created_at r).
(** Everything but the attribute map, which [PartialEq] compares with IEEE
    float equality. *)
Definition run_fields (r : Run) :=
  (run_identity r, run_status r, run_knowledge_time r, run_workflow r, run_model r,
   run_model_version r, run_parent_run r, run_input_snapshot r).

Lemma run_eqb_fields a b : run_eqb a b = true -> run_fields a = run_fields b.
Proof.
  unfold run_eqb, run_fields, run_identity. intros Hb. zbool.
  repeat match goal with Hd : bool_decide _ = true |- _ => apply bool_decide_eq_true in Hd end.
  congruence.
Qed.

(** What a later version of a run may change. *)
Definition run_evolves (a b : Run) : Prop :=
  run_identity a = run_identity b
  /\ (run_terminal (run_status a) = true -> run_fields a = run_fields b).

Lemma run_evolves_refl a : run_evolves a a.
Proof. done. Qed.

Lemma run_evolves_trans a b c : run_evolves a b -> run_evolves b c -> run_evolves a c.
Proof.
  intros [H1 H2] [H3 H4]. split; [congruence|]. intros Ht. specialize (H2 Ht).
  rewrite H2. apply H4. unfold run_fields in H2. simplify_eq. congruence.
Qed.

Lemma apply_run_evolves c r c' id old :
  wf_records c -> apply c r = Ok c' -> runs c !! id = Some old ->
  exists new, runs c' !! id = Some new /\ run_evolves old new.
Proof.
  intros Hw Ha Hold.
  assert (Hsame : runs c' = runs c -> exists new, runs c' !! id = Some new /\ run_evolves old new).
  { intros ->. eexists. split; [done|apply run_evolves_refl]. }
  destruct r as [| |s|r|p|]; simpl in Ha.
  1,2: ok_inv; by apply Hsame.
  1: destruct (SeriesDefinition_validate s); ok_inv; [discriminate|by apply Hsame].
  2: destruct (Plan_validate p); ok_inv; [discriminate|by apply Hsame].
  2: ok_inv; by apply Hsame.
  apply bind_Ok in Ha as ([] & _ & Ha). apply bind_Ok in Ha as ([] & Htr & Ha).
  injection Ha as <-. simpl. destruct (decide (id = run_id r)) as [->|Hne].
  - rewrite lookup_insert_eq. exists r. split; [done|]. rewrite Hold in Htr.
    unfold validate_run_transition in Htr. rewrite bind_unit_Ok, !reject_Ok in Htr.
    destruct Htr as [Ht Hi]. apply orb_false_iff in Hi as [Hk Hc].
    rewrite negb_false_iff in Hk, Hc. apply bool_decide_eq_true in Hk. apply Z.eqb_eq in Hc.
    assert (run_id old = run_id r) by (apply (wr_runs c Hw _ _ Hold)).
    split; [unfold run_identity; congruence|]. intros Hterm. rewrite Hterm in Ht. simpl in Ht.
    apply negb_false_iff in Ht. by apply run_eqb_fields.
  - rewrite lookup_insert_ne by done. exists old. split; [done|apply run_evolves_refl].
Qed.

(** Run history: no accepted transaction removes a run or changes its
    identity fields, and a completed run (succeeded, failed or cancelled)
    keeps its status, times, workflow, model and provenance. *)
Lemma apply_records_run_evolves c rs c' id old :
  wf_catalog c -> apply_records c rs = Ok (Some c') -> runs c !! id = Some old ->
  exists new, runs c' !! id = Some new /\ run_evolves old new.
Proof.
  intros [Hw _] Ha Hold. apply apply_records_Some, validate_and_apply_Ok in Ha as (Hf & _).
  enough (wf_records c' /\ exists new, runs c' !! id = Some new /\ run_evolves old new) by tauto.
  eapply (try_fold_inv (fun x => wf_records x /\ exists new, runs x !! id = Some new
            /\ run_evolves old new)); [|split; [done|]; eauto using run_evolves_refl|exact Hf].
  intros s x s' (Hws & n1 & Hn1 & He1) Hs. split; [by eapply apply_wf_records|].
  destruct (apply_run_evolves s x s' id n1 Hws Hs Hn1) as (n2 & Hn2 & He2).
  exists n2. split; [done|]. by eapply run_evolves_trans.
Qed.

(** The status order of the plan life cycle. *)
Inductive plan_step : PlanStatus -> PlanStatus -> Prop :=
  | step_approve : plan_step Candidate Approved
  | step_deploy : plan_step Approved Deployed
  | step_cancel s : s = Candidate \/ s = Approved -> plan_step s PlanCancelled
  | step_supersede s : s = Candidate \/ s = Approved \/ s = Deployed -> plan_step s Superseded.

Definition plan_schedule (p : Plan) :=
  (plan_id p, plan_run_id p, plan_horizon_start p, plan_horizon_end p, plan_resolution_micros p).

Definition plan_evolves (a b : Plan) : Prop :=
  plan_schedule a = plan_schedule b /\ rtc plan_step (plan_status a) (plan_status b).

Lemma plan_transition_allowed_spec a b :
  plan_transition_allowed a b = true <-> a = b \/ plan_step a b.
Proof.
  split.
  - destruct a, b; vm_compute; intros E; try discriminate E; auto using plan_step.
  - intros [->|[| |s [->| ->]|s [->|[->| ->]]]]; try done. by destruct b.
Qed.

Lemma apply_plan_evolves c r c' id old :
  wf_records c -> apply c r = Ok c' -> plans c !! id = Some old ->
  exists new, plans c' !! id = Some new /\ plan_evolves old new.
Proof.
  intros Hw Ha Hold.
  assert (Hsame : plans c' = plans c -> exists new, plans c' !! id = Some new /\ plan_evolves old new).
  { intros ->. eexists. split; [done|]. split; [done|apply rtc_refl]. }
  destruct r as [| |s| |p|]; simpl in Ha.
  1,2,4: ok_inv; by apply Hsame.
  1: destruct (SeriesDefinition_validate s); ok_inv; [discriminate|by apply Hsame].
  2: ok_inv; by apply Hsame.
  destruct (Plan_validate p); [discriminate|].
  apply bind_Ok in Ha as ([] & _ & Ha). apply bind_Ok in Ha as ([] & Htr & Ha).
  injection Ha as <-. simpl. destruct (decide (id = plan_id p)) as [->|Hne].
  - rewrite lookup_insert_eq. exists p. split; [done|]. rewrite Hold in Htr.
    unfold validate_plan_transition in Htr. rewrite bind_unit_Ok, !reject_Ok in Htr.
    destruct Htr as [Hi Ht]. zbool. apply plan_transition_allowed_spec in Ht.
    assert (plan_id old = plan_id p) by (apply (wr_plans c Hw _ _ Hold)).
    split; [unfold plan_schedule; congruence|].
    destruct Ht as [->|Ht]; [apply rtc_refl|by apply rtc_once].
  - rewrite lookup_insert_ne by done. exists old. split; [done|]. split; [done|apply rtc_refl].
Qed.

(** Plan life cycle: no accepted transaction removes a plan or changes its
    schedule identity, and its status only moves along the documented order
    (candidate, approved, deployed, with cancellation and supersession). *)
Lemma apply_records_plan_evolves c rs c' id old :
  wf_catalog c -> apply_records c rs = Ok (Some c') -> plans c !! id = Some old ->
  exists new, plans c' !! id = Some new /\ plan_evolves old new.
Proof.
  intros [Hw _] Ha Hold. apply apply_records_Some, validate_and_apply_Ok in Ha as (Hf & _).
  enough (wf_records c' /\ exists new, plans c' !! id = Some new /\ plan_evolves old new) by tauto.
  eapply (try_fold_inv (fun x => wf_records x /\ exists new, plans x !! id = Some new
            /\ plan_evolves old new)); [|split; [done|]; eexists; split; [done|]; split;
            [done|apply rtc_refl]|exact Hf].
  intros s x s' (Hws & n1 & Hn1 & He1 & Ht1) Hs. split; [by eapply apply_wf_records|].
  destruct (apply_plan_evolves s x s' id n1 Hws Hs Hn1) as (n2 & Hn2 & He2 & Ht2).
  exists n2. split; [done|]. split; [congruence|]. by etrans.
Qed.
End Facts.

(** ** The snapshot rebuilds the catalog *)

Section InsertAll.
Context {V : Type} (key : V -> Z).

Definition insert_all (m : gmap Z V) (l : list V) : gmap Z V :=
  foldl (fun m x => <[key x := x]> m) m l.

Lemma insert_all_other m l k : k ∉ map key l -> insert_all m l !! k = m !! k.
Proof.
  revert m. induction l as [|x l IH]; intros m Hk; simpl; [done|].
  simpl in Hk. apply not_elem_of_cons in Hk as [Hne Hk]. unfold insert_all in *. rewrite IH by done.
  by rewrite lookup_insert_ne.
Qed.

Lemma insert_all_from m (M : gmap Z V) l :
  (forall x, x ∈ l -> M !! key x = Some x) ->
  forall k, k ∈ map key l -> insert_all m l !! k = M !! k.
Proof.
  revert m. induction l as [|x l IH]; intros m Hl k Hk; simpl in *; [inversion Hk|].
  destruct (decide (k ∈ map key l)) as [Hin|Hout].
  - apply IH; [|done]. intros y Hy. apply Hl. by right.
  - apply elem_of_cons in Hk as [->|]; [|done].
    change (insert_all (<[key x := x]> m) l !! key x = M !! key x).
    rewrite insert_all_other by done. rewrite lookup_insert_eq. symmetry. apply Hl. left.
Qed.

(** Inserting every value of a map, in any order, rebuilds the map. *)
Lemma insert_all_rebuild (M : gmap Z V) l :
  (forall k v, M !! k = Some v -> key v = k) ->
  (forall v, v ∈ l <-> exists k, M !! k = Some v) ->
  insert_all ∅ l = M.
Proof.
  intros HM Hl.
  assert (Hl' : forall x, x ∈ l -> M !! key x = Some x).
  { intros x (k & Hk)%Hl. by rewrite (HM _ _ Hk). }
  apply map_eq. intros k. destruct (decide (k ∈ map key l)) as [Hin|Hout];
    [by apply insert_all_from|].
  rewrite insert_all_other, lookup_empty by done. destruct (M !! k) as [v|] eqn:Hk; [|done].
  exfalso. apply Hout. apply list_elem_of_fmap. exists v. split; [by rewrite (HM _ _ Hk)|].
  apply Hl. eauto.
Qed.
End InsertAll.

Lemma elem_of_lookup_all {V} (m : gmap Z V) ids v :
  v ∈ lookup_all m ids <-> exists k, k ∈ ids /\ m !! k = Some v.
Proof. unfold lookup_all. apply list_elem_of_omap. Qed.

Lemma lookup_all_dom {V} (m : gmap Z V) ids :
  (forall x, x ∈ ids <-> x ∈ dom m) ->
  forall v, v ∈ lookup_all m ids <-> exists k, m !! k = Some v.
Proof.
  intros Hids v. rewrite elem_of_lookup_all. split; [naive_solver|].
  intros [k Hk]. exists k. split; [|done]. apply Hids, elem_of_dom. eauto.
Qed.

Lemma lookup_all_keys {V} (key : V -> Z) (m : gmap Z V) ids :
  (forall k v, m !! k = Some v -> key v = k) ->
  (forall x, x ∈ ids -> x ∈ dom m) -> map key (lookup_all m ids) = ids.
Proof.
  intros Hk. induction ids as [|i ids IH]; intros Hd; simpl; [done|].
  destruct (proj1 (elem_of_dom m i)) as [v Hv]; [apply Hd; left|]. rewrite Hv. simpl.
  rewrite (Hk _ _ Hv). f_equal. apply IH. intros x Hx. apply Hd. by right.
Qed.

Section Snapshot.
Context `{TimeZones}.

Lemma try_fold_cons_Ok {S A} (f : S -> A -> Result S) s x l s1 :
  f s x = Ok s1 -> try_fold f s (x :: l) = try_fold f s1 l.
Proof. simpl. by intros ->. Qed.

Lemma replay_entities c l :
  (forall e, e ∈ l -> validate_entity e = Ok tt) ->
  try_fold apply c (map REntity l)
  = Ok (mkCatalog (insert_all entity_id (entities c) l) (relations c) (series_map c)
          (runs c) (plans c)).
Proof.
  revert c. induction l as [|e l IH]; intros c Hl; [by destruct c|].
  cbn [map]. erewrite try_fold_cons_Ok; [|simpl; by rewrite Hl by left].
  rewrite IH; [done|]. intros e' He'. apply Hl. by right.
Qed.

Lemma replay_relations c l :
  (forall e, e ∈ l -> validate_relation e = Ok tt) ->
  try_fold apply c (map RRelation l)
  = Ok (mkCatalog (entities c) (insert_all relation_id (relations c) l) (series_map c)
          (runs c) (plans c)).
Proof.
  revert c. induction l as [|e l IH]; intros c Hl; [by destruct c|].
  cbn [map]. erewrite try_fold_cons_Ok; [|simpl; by rewrite Hl by left].
  rewrite IH; [done|]. intros e' He'. apply Hl. by right.
Qed.

Lemma replay_series c l :
  (forall e, e ∈ l -> SeriesDefinition_validate e = None) ->
  try_fold apply c (map RSeries l)
  = Ok (mkCatalog (entities c) (relations c) (insert_all series_id (series_map c) l)
          (runs c) (plans c)).
Proof.
  revert c. induction l as [|e l IH]; intros c Hl; [by destruct c|].
  cbn [map]. erewrite try_fold_cons_Ok; [|simpl; by rewrite Hl by left].
  rewrite IH; [done|]. intros e' He'. apply Hl. by right.
Qed.

Lemma replay_runs c l :
  (forall e, e ∈ l -> validate_run e = Ok tt) -> NoDup (map run_id l) ->
  (forall e, e ∈ l -> runs c !! run_id e = None) ->
  try_fold apply c (map RRun l)
  = Ok (mkCatalog (entities c) (relations c) (series_map c)
          (insert_all run_id (runs c) l) (plans c)).
Proof.
  revert c. induction l as [|e l IH]; intros c Hl Hnd Hfresh; [by destruct c|].
  apply NoDup_cons in Hnd as [Hne Hnd].
  cbn [map]. erewrite try_fold_cons_Ok; [|simpl; by rewrite Hl, Hfresh by left].
  rewrite IH; [done| |done|].
  - intros e' He'. apply Hl. by right.
  - intros e' He'. simpl. rewrite lookup_insert_ne; [apply Hfresh; by right|].
    intros Heq. apply Hne. rewrite Heq. apply list_elem_of_fmap. eauto.
Qed.

Lemma replay_plans c l :
  (forall e, e ∈ l -> Plan_validate e = None
                      /\ validate_properties "plan" (plan_attributes e) = Ok tt) ->
  NoDup (map plan_id l) -> (forall e, e ∈ l -> plans c !! plan_id e = None) ->
  try_fold apply c (map RPlan l)
  = Ok (mkCatalog (entities c) (relations c) (series_map c) (runs c)
          (insert_all plan_id (plans c) l)).
Proof.
  revert c. induction l as [|e l IH]; intros c Hl Hnd Hfresh; [by destruct c|].
  apply NoDup_cons in Hnd as [Hne Hnd]. destruct (Hl e) as [Hv Hp]; [left|].
  cbn [map]. erewrite try_fold_cons_Ok;
    [|simpl; rewrite Hv, Hp, Hfresh by left; simpl; reflexivity].
  rewrite IH; [done| |done|].
  - intros e' He'. apply Hl. by right.
  - intros e' He'. simpl. rewrite lookup_insert_ne; [apply Hfresh; by right|].
    intros Heq. apply Hne. rewrite Heq. apply list_elem_of_fmap. eauto.
Qed.

(** The dependency enumerations of a sound catalog succeed. *)
Lemma grounded_sub (R S : Z -> Z -> Prop) x :
  (forall a b, R a b -> S a b) -> grounded S x -> grounded R x.
Proof.
  intros HRS Hg. induction Hg as [x _ IH]. constructor. intros b Hb. apply IH. by apply HRS.
Qed.

Lemma drain_entities c : refs_valid c ->
  exists ids, drain (entity_deps c) "entity dependency graph cannot be snapshotted"
                (size (entities c)) (dom (entities c)) = Ok ids
    /\ NoDup ids /\ forall x, x ∈ ids <-> x ∈ dom (entities c).
Proof.
  intros Hrv. apply drain_complete; [by rewrite size_dom|]. intros x Hx%elem_of_dom.
  eapply grounded_sub; [|by apply (rv_parent_grounded c Hrv)].
  intros a b Hb. unfold dep_edge, entity_deps in Hb. unfold parent_ref, parent_edge.
  destruct (entity_parent_of (entities c) a); simpl in Hb; [|inversion Hb].
  by apply list_elem_of_singleton in Hb as ->.
Qed.

Lemma drain_runs c : refs_valid c ->
  exists ids, drain (run_deps c) "run dependency graph cannot be snapshotted"
                (size (runs c)) (dom (runs c)) = Ok ids
    /\ NoDup ids /\ forall x, x ∈ ids <-> x ∈ dom (runs c).
Proof.
  intros Hrv. apply drain_complete; [by rewrite size_dom|]. intros x Hx%elem_of_dom.
  eapply grounded_sub; [|by apply (rv_run_grounded c Hrv)].
  intros a b Hb. unfold dep_edge, run_deps in Hb. unfold run_ref, edge, run_edges.
  destruct (runs c !! a); [|inversion Hb]. eexists. split; [done|].
  apply elem_of_app in Hb. apply elem_of_app. tauto.
Qed.

Lemma drain_plans c : refs_valid c ->
  exists ids, drain (plan_deps c) "plan dependency graph cannot be snapshotted"
                (size (plans c)) (dom (plans c)) = Ok ids
    /\ NoDup ids /\ forall x, x ∈ ids <-> x ∈ dom (plans c).
Proof.
  intros Hrv. apply drain_complete; [by rewrite size_dom|]. intros x Hx%elem_of_dom.
  eapply grounded_sub; [|by apply (rv_plan_grounded c Hrv)].
  intros a b Hb. unfold dep_edge, plan_deps in Hb. unfold plan_ref, edge, plan_edges.
  destruct (plans c !! a); simpl in Hb; [|inversion Hb]. eexists. by split.
Qed.

Lemma snapshot_replay c :
  wf_catalog c ->
  exists rs, snapshot_records c = Ok rs /\ try_fold apply Catalog_default rs = Ok c
    /\ (forall r, r ∈ rs -> is_points r = false).
Proof.
  intros [Hw Hrv].
  destruct (drain_entities c Hrv) as (es & Hes & _ & Hes').
  destruct (drain_runs c Hrv) as (rs & Hrs & Hrnd & Hrs').
  destruct (drain_plans c Hrv) as (ps & Hps & Hpnd & Hps').
  destruct Hw as [We Wr Ws Wru Wp].
  eexists. split; [|split].
  - unfold snapshot_records. rewrite (proj2 (validate_references_iff c ltac:(by split)) Hrv).
    simpl. rewrite Hes. simpl. rewrite Hrs. simpl. by rewrite Hps.
  - rewrite try_fold_app, replay_entities by (intros e (k & Hk)%lookup_all_dom; [by apply (We k)|done]).
    cbn [bind]. rewrite try_fold_app, replay_relations
      by (intros e (k & Hk)%elem_of_btree_values; by apply (Wr k)).
    cbn [bind]. rewrite try_fold_app, replay_series
      by (intros e (k & Hk)%elem_of_btree_values; by apply (Ws k)).
    cbn [bind]. rewrite try_fold_app, replay_runs; cbn [bind].
    + rewrite replay_plans; cbn [entities relations series_map runs plans Catalog_default].
      * f_equal. destruct c; simpl in *. f_equal.
        -- apply insert_all_rebuild; [intros k v Hk; by apply (We k)|]. by apply lookup_all_dom.
        -- apply insert_all_rebuild; [intros k v Hk; by apply (Wr k)|]. apply elem_of_btree_values.
        -- apply insert_all_rebuild; [intros k v Hk; by apply (Ws k)|]. apply elem_of_btree_values.
        -- apply insert_all_rebuild; [intros k v Hk; by apply (Wru k)|]. by apply lookup_all_dom.
        -- apply insert_all_rebuild; [intros k v Hk; by apply (Wp k)|]. by apply lookup_all_dom.
      * intros e (k & Hk)%lookup_all_dom; [by apply (Wp k)|done].
      * rewrite lookup_all_keys; [done|intros k v Hk; by apply (Wp k)|by intros x Hx%Hps'].
      * intros e _. apply lookup_empty.
    + intros e (k & Hk)%lookup_all_dom; [by apply (Wru k)|done].
    + rewrite lookup_all_keys; [done|intros k v Hk; by apply (Wru k)|by intros x Hx%Hrs'].
    + intros e _. apply lookup_empty.
  - intros r Hr. rewrite !elem_of_app in Hr.
    destruct_or!; apply list_elem_of_fmap in Hr as (? & -> & _); done.
Qed.

(** Snapshot round trip: on every sound catalog [snapshot_records]
    succeeds, and applying its records to an empty catalog validates and
    rebuilds exactly that catalog, so a reclaimed log loses no catalog
    state. *)
Lemma snapshot_records_roundtrip c :
  wf_catalog c ->
  exists rs, snapshot_records c = Ok rs /\ validate_and_apply Catalog_default rs = Ok c.
Proof.
  intros Hwf. destruct (snapshot_replay c Hwf) as (rs & Hs & Hf & Hnp).
  exists rs. split; [done|]. apply validate_and_apply_Ok. split; [done|]. split.
  - by apply validate_references_iff; apply Hwf.
  - apply for_each_Ok. intros r Hr. specialize (Hnp r Hr). by destruct r.
Qed.
End Snapshot.
