(* ===== verification/Aggregate.v ===== *)
(** * Aggregate: [src/src/aggregate.rs]

    Mergeable streaming aggregates for gauges and monotonic counters. *)
From S2P Require Import Prelude Errors Float64.

Record Sample := mkSample { timestamp : Z; sample_value : f64 }.

#[export] Instance Sample_eq_dec : EqDecision Sample.
Proof. solve_decision. Defined.

Record GaugeAggregate := mkGauge {
  g_count : Z;
  g_sum : f64;
  g_min : f64;
  g_max : f64;
  g_first : Sample;
  g_last : Sample;
  g_integral_value_micros : f64;
  g_covered_micros : Z;
}.

(** [GaugeAggregate::from_sample]. *)
Definition gauge_from_sample (s : Sample) : GaugeAggregate :=
  mkGauge 1 (sample_value s) (sample_value s) (sample_value s) s s f64_zero 0.

(** [GaugeAggregate::push].  The counter is a [u64]: its overflow would need
    more samples than an address space holds, and is not reached here. *)
Definition gauge_push (a : GaugeAggregate) (s : Sample) (max_gap : Z) : Result GaugeAggregate :=
  reject (timestamp s <? timestamp (g_last a)) (InvalidArgument "samples must be time ordered") ;?
  let? gap := ok_or (i64_checked_sub (timestamp s) (timestamp (g_last a)))
                (InvalidArgument "sample timestamps overflow a gap") in
  let? (integral, covered) :=
    if gap <=? max_gap then
      let? covered := ok_or (i64_checked_add (g_covered_micros a) gap)
                        (InvalidArgument "aggregate coverage overflows") in
      Ok (f64_add (g_integral_value_micros a)
            (f64_mul (sample_value (g_last a)) (f64_of_Z gap)), covered)
    else Ok (g_integral_value_micros a, g_covered_micros a) in
  Ok (mkGauge (g_count a + 1) (f64_add (g_sum a) (sample_value s))
        (f64_min (g_min a) (sample_value s)) (f64_max (g_max a) (sample_value s))
        (g_first a) s integral covered).

(** [GaugeAggregate::merge]. *)
Definition gauge_merge (a next : GaugeAggregate) (max_gap : Z) : Result GaugeAggregate :=
  reject (timestamp (g_first next) <? timestamp (g_last a))
    (InvalidArgument "aggregate states must be time ordered") ;?
  let? gap := ok_or (i64_checked_sub (timestamp (g_first next)) (timestamp (g_last a)))
                (InvalidArgument "aggregate timestamps overflow a gap") in
  let '(bridge_integral, bridge_coverage) :=
    if gap <=? max_gap then (f64_mul (sample_value (g_last a)) (f64_of_Z gap), gap)
    else (f64_zero, 0) in
  let? covered := ok_or (i64_checked_add (g_covered_micros a) bridge_coverage
                           ≫= fun v => i64_checked_add v (g_covered_micros next))
                    (InvalidArgument "aggregate coverage overflows") in
  Ok (mkGauge (g_count a + g_count next) (f64_add (g_sum a) (g_sum next))
        (f64_min (g_min a) (g_min next)) (f64_max (g_max a) (g_max next))
        (g_first a) (g_last next)
        (f64_add (f64_add (g_integral_value_micros a) bridge_integral)
           (g_integral_value_micros next)) covered).

Definition sample_mean (a : GaugeAggregate) : f64 := f64_div (g_sum a) (f64_of_Z (g_count a)).

Definition time_weighted_mean (a : GaugeAggregate) : option f64 :=
  if 0 <? g_covered_micros a
  then Some (f64_div (g_integral_value_micros a) (f64_of_Z (g_covered_micros a))) else None.

Definition power_to_energy_hours (a : GaugeAggregate) : f64 :=
  f64_div (g_integral_value_micros a) (f64_of_Z 3600000000).

Record CounterAggregate := mkCounter {
  c_count : Z;
  c_first : Sample;
  c_last : Sample;
  c_positive_delta : f64;
  c_resets : Z;
}.

Definition counter_from_sample (s : Sample) : CounterAggregate :=
  mkCounter 1 s s f64_zero 0.

(** [counter_step]. *)
Definition counter_step (previous next : f64) : f64 * bool :=
  if f64_leb previous next then (f64_sub next previous, false)
  else (f64_max next f64_zero, true).

(** [CounterAggregate::push]. *)
Definition counter_push (a : CounterAggregate) (s : Sample) : Result CounterAggregate :=
  reject (timestamp s <? timestamp (c_last a)) (InvalidArgument "samples must be time ordered") ;?
  let '(delta, reset) := counter_step (sample_value (c_last a)) (sample_value s) in
  Ok (mkCounter (c_count a + 1) (c_first a) s (f64_add (c_positive_delta a) delta)
        (c_resets a + Z.b2z reset)).

(** [CounterAggregate::merge]. *)
Definition counter_merge (a next : CounterAggregate) : Result CounterAggregate :=
  reject (timestamp (c_first next) <? timestamp (c_last a))
    (InvalidArgument "aggregate states must be time ordered") ;?
  let '(bridge_delta, reset) := counter_step (sample_value (c_last a)) (sample_value (c_first next)) in
  Ok (mkCounter (c_count a + c_count next) (c_first a) (c_last next)
        (f64_add (f64_add (c_positive_delta a) bridge_delta) (c_positive_delta next))
        (c_resets a + Z.b2z reset + c_resets next)).

(** ** Direct aggregation *)

(** The aggregate of a non-empty stream: [from_sample] then [push]es. *)
Definition gauge_of (max_gap : Z) (s : Sample) (l : list Sample) : Result GaugeAggregate :=
  try_fold (fun a x => gauge_push a x max_gap) (gauge_from_sample s) l.

Definition counter_of (s : Sample) (l : list Sample) : Result CounterAggregate :=
  try_fold counter_push (counter_from_sample s) l.

(** The reference definition of coverage: the gaps between consecutive samples
    that do not exceed the maximum gap. *)
Fixpoint coverage (max_gap : Z) (prev : Z) (l : list Sample) : Z :=
  match l with
  | [] => 0
  | s :: t =>
      (if timestamp s - prev <=? max_gap then timestamp s - prev else 0)
      + coverage max_gap (timestamp s) t
  end.

Fixpoint count_resets (prev : f64) (l : list Sample) : Z :=
  match l with
  | [] => 0
  | s :: t =>
      Z.b2z (snd (counter_step prev (sample_value s))) + count_resets (sample_value s) t
  end.

(** Timestamps are non-decreasing and their differences fit an [i64]. *)
Fixpoint ordered_from (prev : Z) (l : list Sample) : Prop :=
  match l with
  | [] => True
  | s :: t => prev <= timestamp s /\ ordered_from (timestamp s) t
  end.

Definition last_of (s : Sample) (l : list Sample) : Sample := List.last l s.

Lemma last_of_cons s x l : last_of s (x :: l) = last_of x l.
Proof. unfold last_of. revert s x. induction l as [|y l IH]; intros s x; [done|].
  change (List.last (y :: l) s = List.last (y :: l) x). by rewrite (IH s y), (IH x y). Qed.

Lemma ordered_last prev s l : ordered_from prev (s :: l) -> prev <= timestamp (last_of s l).
Proof.
  revert prev s. induction l as [|y l IH]; intros prev s [H1 H2]; [done|].
  rewrite last_of_cons. specialize (IH (timestamp s) y H2). lia.
Qed.

Lemma coverage_bound max_gap prev l :
  ordered_from prev l ->
  0 <= coverage max_gap prev l <= timestamp (last_of (mkSample prev 0) l) - prev.
Proof.
  revert prev. induction l as [|s l IH]; intros prev Ho; cbn [coverage ordered_from] in *;
    [unfold last_of; simpl; lia|].
  rewrite last_of_cons. destruct Ho as [H1 H2]. specialize (IH _ H2).
  destruct l as [|y l].
  - unfold last_of in *. simpl in *. destruct (_ <=? _); lia.
  - rewrite last_of_cons in IH. rewrite last_of_cons. destruct (timestamp s - prev <=? max_gap); lia.
Qed.

Lemma gauge_push_Ok a s max_gap b :
  gauge_push a s max_gap = Ok b ->
  g_count b = g_count a + 1 /\ g_first b = g_first a /\ g_last b = s
  /\ g_covered_micros b = g_covered_micros a
       + (if timestamp s - timestamp (g_last a) <=? max_gap
          then timestamp s - timestamp (g_last a) else 0)
  /\ timestamp (g_last a) <= timestamp s
  /\ g_sum b = f64_add (g_sum a) (sample_value s)
  /\ g_min b = f64_min (g_min a) (sample_value s)
  /\ g_max b = f64_max (g_max a) (sample_value s).
Proof.
  unfold gauge_push, i64_checked_sub, i64_checked_add.
  intros ([] & Hlt%reject_Ok & H)%bind_Ok.
  apply bind_Ok in H as (gap & [-> _]%ok_or_Ok%i64_checked_Some & H).
  apply bind_Ok in H as ([i c] & Hc & H). ok_inv. simpl. zbool.
  destruct (_ <=? _).
  - apply bind_Ok in Hc as (c' & [-> _]%ok_or_Ok%i64_checked_Some & [= <- <-]).
    split_and!; try done; lia.
  - injection Hc as <- <-. split_and!; try done; lia.
Qed.

(** A push succeeds exactly when the sample is in order and neither the gap
    nor the coverage overflows. *)
Lemma gauge_push_succeeds a s max_gap :
  timestamp (g_last a) <= timestamp s ->
  is_i64 (timestamp s - timestamp (g_last a)) ->
  is_i64 (g_covered_micros a + (if timestamp s - timestamp (g_last a) <=? max_gap
          then timestamp s - timestamp (g_last a) else 0)) ->
  exists b, gauge_push a s max_gap = Ok b.
Proof.
  intros Ho Hg Hc. unfold gauge_push, i64_checked_sub, i64_checked_add.
  destruct (Z.ltb_spec (timestamp s) (timestamp (g_last a))); [lia|].
  simpl. rewrite i64_checked_ok by done. simpl. destruct (_ <=? _); simpl; [|eauto].
  rewrite i64_checked_ok by done. simpl. eauto.
Qed.

(** What direct aggregation computes. *)
Lemma gauge_of_spec max_gap s l a :
  gauge_of max_gap s l = Ok a ->
  g_count a = 1 + len l /\ g_first a = s /\ g_last a = last_of s l
  /\ g_covered_micros a = coverage max_gap (timestamp s) l
  /\ ordered_from (timestamp s) l
  /\ g_sum a = foldl f64_add (sample_value s) (map sample_value l)
  /\ g_min a = foldl f64_min (sample_value s) (map sample_value l)
  /\ g_max a = foldl f64_max (sample_value s) (map sample_value l).
Proof.
  unfold gauge_of.
  assert (Hgen : forall a0, try_fold (fun a x => gauge_push a x max_gap) a0 l = Ok a ->
    g_count a = g_count a0 + len l /\ g_first a = g_first a0 /\ g_last a = last_of (g_last a0) l
    /\ g_covered_micros a = g_covered_micros a0 + coverage max_gap (timestamp (g_last a0)) l
    /\ ordered_from (timestamp (g_last a0)) l
    /\ g_sum a = foldl f64_add (g_sum a0) (map sample_value l)
    /\ g_min a = foldl f64_min (g_min a0) (map sample_value l)
    /\ g_max a = foldl f64_max (g_max a0) (map sample_value l)).
  { unfold zlen. induction l as [|x l IH]; intros a0 Hf; cbn [try_fold] in Hf.
    - injection Hf as <-. simpl. split_and!; try done; lia.
    - apply bind_Ok in Hf as (b & Hp & Hf). apply IH in Hf.
      apply gauge_push_Ok in Hp as (P1 & P2 & P3 & P4 & P5 & P6 & P7 & P8).
      rewrite P1, P2, P3, P4, P6, P7, P8 in Hf. destruct_and! Hf.
      rewrite last_of_cons. simpl. split_and!; try done; lia. }
  intros H. apply Hgen in H. unfold gauge_from_sample in H. simpl in H. naive_solver lia.
Qed.

Lemma coverage_app max_gap prev l s' l' :
  coverage max_gap prev (l ++ s' :: l')
  = coverage max_gap prev l
    + (let gap := timestamp s' - timestamp (last_of (mkSample prev 0) l) in
       if gap <=? max_gap then gap else 0)
    + coverage max_gap (timestamp s') l'.
Proof.
  cbv zeta. revert prev. induction l as [|x l IH]; intros prev; cbn [app coverage].
  - unfold last_of. simpl. lia.
  - rewrite IH, last_of_cons. destruct l as [|y l].
    + unfold last_of. cbn [List.last timestamp coverage]. lia.
    + rewrite !last_of_cons. lia.
Qed.

Lemma ordered_app prev l s' l' :
  ordered_from prev (l ++ s' :: l') <->
  ordered_from prev l /\ timestamp (last_of (mkSample prev 0) l) <= timestamp s'
  /\ ordered_from (timestamp s') l'.
Proof.
  revert prev. induction l as [|x l IH]; intros prev; cbn [app ordered_from];
    [unfold last_of; simpl; tauto|].
  rewrite IH, last_of_cons. destruct l as [|y l]; [unfold last_of; simpl; tauto|].
  rewrite !last_of_cons. tauto.
Qed.

Lemma last_of_app s l s' l' : last_of s (l ++ s' :: l') = last_of s' l'.
Proof.
  revert s. induction l as [|x l IH]; intros s; cbn [app]; rewrite last_of_cons; [done|apply IH].
Qed.

Lemma last_of_timestamp s l :
  timestamp (last_of (mkSample (timestamp s) 0) l) = timestamp (last_of s l).
Proof. destruct l as [|y l]; [done|]. by rewrite !last_of_cons. Qed.

Lemma foldl_assoc_split (op : f64 -> f64 -> f64) x l y k :
  (forall a b c, f64_is_nan a = false -> f64_is_nan b = false -> f64_is_nan c = false ->
     op (op a b) c = op a (op b c)) ->
  (forall a b, f64_is_nan a = false -> f64_is_nan b = false -> f64_is_nan (op a b) = false) ->
  Forall (fun v => f64_is_nan v = false) (x :: l ++ y :: k) ->
  op (foldl op x l) (foldl op y k) = foldl op x (l ++ y :: k).
Proof.
  intros Hassoc Hnan Hall. rewrite foldl_app. cbn [foldl].
  apply Forall_cons in Hall as [Hx Hall]. apply Forall_app in Hall as [Hl Hk].
  apply Forall_cons in Hk as [Hy Hk].
  assert (Hfl : f64_is_nan (foldl op x l) = false).
  { revert x Hx. induction Hl as [|z l Hz _ IH]; intros x Hx; simpl; [done|]. apply IH. auto. }
  revert y Hy Hfl. generalize (foldl op x l) as p.
  induction Hk as [|z k Hz _ IH]; intros p y Hy Hp; simpl; [done|].
  rewrite IH by auto. by rewrite Hassoc by auto.
Qed.

(** The bounds that make every intermediate checked operation succeed. *)
Definition spans_i64 (s : Sample) (l : list Sample) : Prop :=
  is_i64 (timestamp (last_of s l) - timestamp s).

(** Direct aggregation of an ordered stream whose time span fits an [i64]
    never fails. *)
Lemma gauge_of_succeeds max_gap s l :
  ordered_from (timestamp s) l -> spans_i64 s l -> exists a, gauge_of max_gap s l = Ok a.
Proof.
  unfold spans_i64. induction l as [|x l IH] using rev_ind; intros Ho Hsp; [by eexists|].
  apply ordered_app in Ho as (Ho & Hx & _). rewrite last_of_timestamp in Hx.
  rewrite last_of_app in Hsp. unfold last_of in Hsp at 1. simpl in Hsp.
  pose proof (coverage_bound max_gap (timestamp s) l Ho) as Hcov. rewrite last_of_timestamp in Hcov.
  assert (Hle : timestamp s <= timestamp (last_of s l)).
  { destruct l as [|y l]; [done|]. rewrite last_of_cons. by apply ordered_last. }
  destruct IH as [a Ha]; [done|unfold is_i64 in *; lia|].
  unfold gauge_of in *. rewrite try_fold_app, Ha. cbn [bind try_fold].
  apply gauge_of_spec in Ha as (_ & _ & Hlast & Hc & _).
  destruct (gauge_push_succeeds a x max_gap) as [b ->]; [by rewrite Hlast|..]; [| |by eexists];
    rewrite Hlast, ?Hc; unfold is_i64 in *; [lia|]. destruct (_ <=? _); lia.
Qed.

(** Merging the aggregates of two adjacent parts gives what direct aggregation
    of the whole stream gives, up to the order of float additions. *)
Lemma gauge_merge_direct max_gap s l s' l' d :
  Forall (fun x => f64_is_finite (sample_value x) = true) (s :: l ++ s' :: l') ->
  spans_i64 s (l ++ s' :: l') ->
  gauge_of max_gap s (l ++ s' :: l') = Ok d ->
  exists a b m, gauge_of max_gap s l = Ok a /\ gauge_of max_gap s' l' = Ok b
    /\ gauge_merge a b max_gap = Ok m
    /\ g_count m = g_count d /\ g_first m = g_first d /\ g_last m = g_last d
    /\ g_covered_micros m = g_covered_micros d /\ g_min m = g_min d /\ g_max m = g_max d.
Proof.
  intros Hfin Hsp Hd. pose proof (gauge_of_spec _ _ _ _ Hd) as (D1 & D2 & D3 & D4 & D5 & _ & D7 & D8).
  apply ordered_app in D5 as (Ho & Hx & Ho'). rewrite last_of_timestamp in Hx.
  unfold spans_i64 in Hsp. rewrite last_of_app in Hsp.
  pose proof (coverage_bound max_gap _ _ Ho) as C1. rewrite last_of_timestamp in C1.
  pose proof (coverage_bound max_gap _ _ Ho') as C2. rewrite last_of_timestamp in C2.
  rewrite coverage_app, last_of_timestamp in D4. cbv zeta in D4.
  destruct (gauge_of_succeeds max_gap s l) as [a Ha]; [done|unfold spans_i64, is_i64 in *; lia|].
  destruct (gauge_of_succeeds max_gap s' l') as [b Hb]; [done|unfold spans_i64, is_i64 in *; lia|].
  exists a, b. pose proof (gauge_of_spec _ _ _ _ Ha) as (A1 & A2 & A3 & A4 & _ & _ & A7 & A8).
  pose proof (gauge_of_spec _ _ _ _ Hb) as (B1 & B2 & B3 & B4 & _ & _ & B7 & B8).
  assert (Hn : Forall (fun v => f64_is_nan v = false)
                 (sample_value s :: map sample_value l ++ sample_value s' :: map sample_value l')).
  { change (Forall (fun v => f64_is_nan v = false) (map sample_value (s :: l) ++ map sample_value (s' :: l'))).
    rewrite <- map_app. apply Forall_fmap. eapply Forall_impl; [exact Hfin|].
    intros x Hf. exact (f64_is_finite_not_nan _ Hf). }
  unfold gauge_merge, i64_checked_sub, i64_checked_add. rewrite A3, A4, B2, B4.
  destruct (Z.ltb_spec (timestamp s') (timestamp (last_of s l))); [lia|]. cbn [reject bind].
  rewrite i64_checked_ok by (unfold is_i64 in *; lia). cbn [ok_or bind].
  destruct (timestamp s' - timestamp (last_of s l) <=? max_gap).
  all: rewrite i64_checked_ok by (unfold is_i64 in *; lia); cbn [mbind option_bind];
    rewrite i64_checked_ok by (unfold is_i64 in *; lia); cbn [ok_or bind];
    eexists; split; [exact Ha|]; split; [exact Hb|]; split; [reflexivity|];
    cbn [g_count g_first g_last g_covered_micros g_min g_max];
    rewrite A1, A2, A7, A8, B1, B3, B7, B8, D1, D2, D3, D4, D7, D8, last_of_app, !map_app;
    cbn [map]; split_and!;
    [unfold zlen; rewrite length_app; simpl length; lia|reflexivity|reflexivity|lia|
     apply foldl_assoc_split; auto using f64_min_assoc, f64_min_not_nan|
     apply foldl_assoc_split; auto using f64_max_assoc, f64_max_not_nan].
Qed.

(** ** Counters *)

Lemma counter_of_spec s l a :
  counter_of s l = Ok a ->
  c_count a = 1 + len l /\ c_first a = s /\ c_last a = last_of s l
  /\ c_resets a = count_resets (sample_value s) l /\ ordered_from (timestamp s) l.
Proof.
  unfold counter_of.
  assert (Hgen : forall a0, try_fold counter_push a0 l = Ok a ->
    c_count a = c_count a0 + len l /\ c_first a = c_first a0 /\ c_last a = last_of (c_last a0) l
    /\ c_resets a = c_resets a0 + count_resets (sample_value (c_last a0)) l
    /\ ordered_from (timestamp (c_last a0)) l).
  { unfold zlen. induction l as [|x l IH]; intros a0 Hf; cbn [try_fold] in Hf.
    - injection Hf as <-. simpl. split_and!; try done; lia.
    - apply bind_Ok in Hf as (b & Hp & Hf). apply IH in Hf. unfold counter_push in Hp.
      apply bind_Ok in Hp as ([] & Hlt%reject_Ok & Hp). zbool.
      rewrite last_of_cons. cbn [count_resets].
      destruct (counter_step _ _) as [dl rs]. injection Hp as <-. simpl in *.
      destruct_and! Hf. split_and!; try done; lia. }
  intros H. apply Hgen in H. simpl in H. naive_solver lia.
Qed.
