(* ===== verification/Rollup.v ===== *)
(** * Rollup: [src/src/rollup.rs]

    Closed gauge buckets and their construction from points: fixed UTC buckets
    and calendar buckets.  Integer arithmetic follows the release profile
    (wrap-around on the unchecked operations). *)
From S2P Require Import Prelude Errors Float64 Model Transaction Aggregate.

Record GaugeBucket := mkBucket {
  b_start : Z;
  b_end : Z;
  b_count : Z;
  b_sum : f64;
  b_min : option f64;
  b_max : option f64;
  b_first : option Sample;
  b_last : option Sample;
  b_integral_value_micros : f64;
  b_covered_micros : Z;
}.

(** [GaugeBucket::empty]. *)
Definition bucket_empty (start stop : Z) : GaugeBucket :=
  mkBucket start stop 0 f64_zero None None None None f64_zero 0.

(** [Option::map_or(v, |x| f(x, v))]. *)
Definition fold_opt (f : f64 -> f64 -> f64) (o : option f64) (v : f64) : f64 :=
  match o with Some x => f x v | None => v end.

(** [GaugeBucket::add_sample]. *)
Definition add_sample (b : GaugeBucket) (s : Sample) : GaugeBucket :=
  mkBucket (b_start b) (b_end b) (b_count b + 1) (f64_add (b_sum b) (sample_value s))
    (Some (fold_opt f64_min (b_min b) (sample_value s)))
    (Some (fold_opt f64_max (b_max b) (sample_value s)))
    (match b_first b with Some f => Some f | None => Some s end)
    (Some s) (b_integral_value_micros b) (b_covered_micros b).

(** [GaugeBucket::add_covered_interval]. *)
Definition add_covered_interval (b : GaugeBucket) (v : f64) (duration : Z) : GaugeBucket :=
  mkBucket (b_start b) (b_end b) (b_count b) (b_sum b)
    (Some (fold_opt f64_min (b_min b) v)) (Some (fold_opt f64_max (b_max b) v))
    (b_first b) (b_last b)
    (f64_add (b_integral_value_micros b) (f64_mul v (f64_of_Z duration)))
    (b_covered_micros b + duration).

Definition bucket_sample_mean (b : GaugeBucket) : option f64 :=
  if 0 <? b_count b then Some (f64_div (b_sum b) (f64_of_Z (b_count b))) else None.

Definition bucket_time_weighted_mean (b : GaugeBucket) : option f64 :=
  if 0 <? b_covered_micros b
  then Some (f64_div (b_integral_value_micros b) (f64_of_Z (b_covered_micros b))) else None.

Definition bucket_power_to_energy_hours (b : GaugeBucket) : f64 :=
  f64_div (b_integral_value_micros b) (f64_of_Z 3600000000).

(** [option_min] and [option_max]. *)
Definition option_merge (f : f64 -> f64 -> f64) (a b : option f64) : option f64 :=
  match a, b with
  | Some x, Some y => Some (f x y)
  | Some x, None => Some x
  | None, o => o
  end.

(** [Option::or]. *)
Definition option_or {A} (a b : option A) : option A :=
  match a with Some x => Some x | None => b end.

(** [GaugeBucket::merge_exact]. *)
Definition merge_exact (a next : GaugeBucket) : Result GaugeBucket :=
  if negb (b_end a =? b_start next) then Err (InvalidArgument "rollup buckets must be adjacent")
  else Ok (mkBucket (b_start a) (b_end next) (b_count a + b_count next)
             (f64_add (b_sum a) (b_sum next))
             (option_merge f64_min (b_min a) (b_min next))
             (option_merge f64_max (b_max a) (b_max next))
             (option_or (b_first a) (b_first next)) (option_or (b_last next) (b_last a))
             (f64_add (b_integral_value_micros a) (b_integral_value_micros next))
             (b_covered_micros a + b_covered_micros next)).

(** Two's complement wrap-around of an [i64]. *)
Definition wrap_i64 (z : Z) : Z := to_signed 64 (z mod 2 ^ 64).

(** [bucket_start]: [timestamp.div_euclid(resolution) * resolution]. *)
Definition bucket_start (ts resolution : Z) : Z := wrap_i64 (ts / resolution * resolution).

(** The bounds of the fixed bucket that holds an instant. *)
Definition fixed_bounds (resolution ts : Z) : Result (Z * Z) :=
  let start := bucket_start ts resolution in
  let? stop := ok_or (i64_checked_add start resolution)
                 (InvalidArgument "rollup bucket end overflows") in
  Ok (start, stop).

(** [.map_err(calendar_error)]; the message of the calendar library is not
    kept. *)
Definition calendar_error {A} (o : option A) : Result A := ok_or o (InvalidModel (text "invalid calendar rollup: {error}")).

(** [calendar_bucket_bounds]. *)
Definition calendar_bucket_bounds `{TimeZones} (ts : Z) (unit : CalendarUnit) (tz : rstring)
    : Result (Z * Z) :=
  let? zoned := calendar_error (in_tz ts tz) in
  let? start :=
    match unit with
    | Day => calendar_error (start_of_day zoned)
    | Month => let? first := calendar_error (first_of_month zoned) in calendar_error (start_of_day first)
    | Year => let? first := calendar_error (first_of_year zoned) in calendar_error (start_of_day first)
    end in
  let? stop := calendar_error (checked_add_one unit start) in
  Ok (zoned_micros start, zoned_micros stop).

(** The map of buckets, updated through [entry(k).or_insert_with(..)]. *)
Definition update_bucket (m : gmap Z GaugeBucket) (bounds : Z * Z)
    (f : GaugeBucket -> GaugeBucket) : gmap Z GaugeBucket :=
  <[bounds.1 := f (default (bucket_empty bounds.1 bounds.2) (m !! bounds.1))]> m.

Section Build.
(** What [FixedGaugeRollup::build] and [CalendarGaugeRollup::build] differ
    in: the bounds of a bucket and the wording of two errors. *)
Context (bounds : Z -> Result (Z * Z)) (coverage_error gap_error : string).

(** [add_interval] and [add_calendar_interval]. *)
Fixpoint add_interval (fuel : nat) (m : gmap Z GaugeBucket) (start stop : Z) (v : f64)
    : Result (gmap Z GaugeBucket) :=
  if start <? stop then
    match fuel with
    | O => Err (Panic "rollup interval bound")
    | S f =>
        let? b := bounds start in
        let interval_end := Z.min stop b.2 in
        let? duration := ok_or (i64_checked_sub interval_end start)
                           (InvalidArgument coverage_error) in
        add_interval f (update_bucket m b (fun x => add_covered_interval x v duration))
          interval_end stop v
    end
  else Ok m.

(** The first loop of [build]: one sample per point. *)
Definition add_point (m : gmap Z GaugeBucket) (p : Point) : Result (gmap Z GaugeBucket) :=
  let? b := bounds (valid_time p) in
  Ok (update_bucket m b (fun x => add_sample x (mkSample (valid_time p) (value p)))).

(** The second loop of [build]: one held interval per adjacent pair. *)
Definition add_pair (fuel : Z -> nat) (max_gap : Z) (m : gmap Z GaugeBucket)
    (pair : Point * Point) : Result (gmap Z GaugeBucket) :=
  let '(previous, next) := pair in
  match i64_checked_sub (valid_time next) (valid_time previous) with
  | None => Err (InvalidArgument gap_error)
  | Some gap =>
      if (gap =? 0) || (max_gap <? gap) then Ok m
      else add_interval (fuel gap) m (valid_time previous) (valid_time next) (value previous)
  end.
End Build.

(** [slice::windows(2)]. *)
Fixpoint windows2 {A} (l : list A) : list (A * A) :=
  match l with
  | x :: ((y :: _) as t) => (x, y) :: windows2 t
  | _ => []
  end.

Definition sort_by_valid_time (l : list Point) : list Point :=
  stable_sort (fun a b => valid_time a <=? valid_time b) l.

Record FixedGaugeRollup := mkFixed {
  resolution_micros : Z;
  fixed_buckets : gmap Z GaugeBucket;
}.

(** A gap of [g] microseconds crosses at most [g / resolution + 2] buckets. *)
Definition fixed_fuel (resolution gap : Z) : nat := Z.to_nat (gap / resolution + 2).

(** [FixedGaugeRollup::build]. *)
Definition fixed_build (points : list Point) (resolution max_gap : Z)
    : Result FixedGaugeRollup :=
  reject (resolution <=? 0) (InvalidArgument "fixed rollup resolution must be positive") ;?
  reject (max_gap <? 0) (InvalidArgument "fixed rollup maximum gap must not be negative") ;?
  let ordered := sort_by_valid_time points in
  let? m := try_fold (add_point (fixed_bounds resolution)) ∅ ordered in
  let? m' := try_fold (add_pair (fixed_bounds resolution) "rollup coverage overflows"
                         "rollup sample timestamps overflow a gap"
                         (fixed_fuel resolution) max_gap) m (windows2 ordered) in
  Ok (mkFixed resolution m').

(** [FixedGaugeRollup::range].  [BTreeMap::range] panics when the start of its
    range is after its end. *)
Definition fixed_range (r : FixedGaugeRollup) (start stop : Z) : Result (list GaugeBucket) :=
  let first := bucket_start start (resolution_micros r) in
  if stop <? first then Err (Panic "range start is greater than range end in BTreeMap")
  else Ok (map snd (List.filter (fun '(k, _) => (first <=? k) && (k <? stop))
                      (btree_to_list (fixed_buckets r)))).

Record CalendarGaugeRollup := mkCalendar {
  calendar_resolution : RollupResolution;
  calendar_buckets : gmap Z GaugeBucket;
}.

(** A local day, month or year lasts at least an hour. *)
Definition calendar_fuel (gap : Z) : nat := Z.to_nat (gap / 3600000000 + 2).

(** [CalendarGaugeRollup::build]. *)
Definition calendar_build `{TimeZones} (points : list Point) (unit : CalendarUnit)
    (tz : rstring) (max_gap : Z) : Result CalendarGaugeRollup :=
  reject (max_gap <? 0)
    (InvalidArgument "calendar rollup maximum gap must not be negative") ;?
  reject (negb (tz_exists tz)) (InvalidModel (text "invalid calendar rollup: {error}")) ;?
  let bounds := fun t => calendar_bucket_bounds t unit tz in
  let ordered := sort_by_valid_time points in
  let? m := try_fold (add_point bounds) ∅ ordered in
  let? m' := try_fold (add_pair bounds "calendar coverage overflows"
                         "calendar sample timestamps overflow a gap"
                         calendar_fuel max_gap) m (windows2 ordered) in
  Ok (mkCalendar (Calendar unit tz) m').

(** [CalendarGaugeRollup::range]. *)
Definition calendar_range (r : CalendarGaugeRollup) (start stop : Z) : list GaugeBucket :=
  List.filter (fun b => (start <? b_end b) && (b_start b <? stop))
    (btree_values (calendar_buckets r)).

(** ** Coverage accounting

    The overlap of a held interval with a bucket is the reference definition
    of what the interval adds to the bucket's coverage. *)

Definition overlap (a b : Z) (bucket : Z * Z) : Z :=
  Z.max 0 (Z.min b bucket.2 - Z.max a bucket.1).

Lemma overlap_add a b c bk :
  a <= b -> b <= c -> overlap a c bk = overlap a b bk + overlap b c bk.
Proof. unfold overlap. lia. Qed.

Lemma overlap_le a b bk : bk.1 <= bk.2 -> 0 <= overlap a b bk <= bk.2 - bk.1.
Proof. unfold overlap. lia. Qed.

Definition covered_at (m : gmap Z GaugeBucket) (k : Z) : Z :=
  default 0 (b_covered_micros <$> m !! k).
Definition count_at (m : gmap Z GaugeBucket) (k : Z) : Z := default 0 (b_count <$> m !! k).

Section Coverage.
Context (bounds : Z -> Result (Z * Z)) (coverage_error gap_error : string) (minimum : Z).

(** The bucket of an [i64] instant. *)
Definition bucket_of (t : Z) (bk : Z * Z) : Prop := is_i64 t /\ bounds t = Ok bk.

(** The buckets partition the instants that have one, and last at least
    [minimum] microseconds. *)
Class Partition : Prop := {
  bounds_contains : forall t s e, bucket_of t (s, e) -> s <= t < e;
  bounds_same : forall t s e t', bucket_of t (s, e) -> s <= t' < e -> bucket_of t' (s, e);
  bounds_minimum : forall t s e, bucket_of t (s, e) -> minimum <= e - s;
  minimum_positive : 0 < minimum;
  bounds_i64 : forall t s e, bucket_of t (s, e) -> is_i64 e;
}.

Context {part : Partition}.

(** A bucket map whose keys are the starts of their buckets. *)
Definition wf_buckets (m : gmap Z GaugeBucket) : Prop :=
  forall k b, m !! k = Some b -> b_start b = k /\ bucket_of k (k, b_end b).

Lemma bounds_start t s e : bucket_of t (s, e) -> bucket_of s (s, e).
Proof using part.
  intros Hb. eapply bounds_same; [exact Hb|]. apply bounds_contains in Hb. lia.
Qed.

Lemma update_bucket_wf m t bk f :
  bucket_of t bk -> wf_buckets m ->
  (forall b, b_start (f b) = b_start b /\ b_end (f b) = b_end b) ->
  wf_buckets (update_bucket m bk f).
Proof using part.
  intros Hb Hm Hf k b. unfold update_bucket.
  destruct (decide (k = bk.1)) as [->|Hne].
  - rewrite lookup_insert_eq. intros [= <-]. destruct bk as [s e]. simpl in *.
    destruct (Hf (default (bucket_empty s e) (m !! s))) as [-> ->].
    destruct (m !! s) as [b0|] eqn:Hs; simpl; [by apply Hm|].
    split; [done|]. by eapply bounds_start.
  - rewrite lookup_insert_ne by done. apply Hm.
Qed.

Lemma covered_update m bk f d k :
  (forall b, b_covered_micros (f b) = b_covered_micros b + d) ->
  covered_at (update_bucket m bk f) k = covered_at m k + (if decide (k = bk.1) then d else 0).
Proof using Type.
  intros Hf. unfold covered_at, update_bucket. case_decide as Hk.
  - subst. rewrite lookup_insert_eq. simpl. rewrite Hf.
    destruct (m !! bk.1); simpl; lia.
  - rewrite lookup_insert_ne by done. lia.
Qed.

Lemma count_update m bk f d k :
  (forall b, b_count (f b) = b_count b + d) ->
  count_at (update_bucket m bk f) k = count_at m k + (if decide (k = bk.1) then d else 0).
Proof using Type.
  intros Hf. unfold count_at, update_bucket. case_decide as Hk.
  - subst. rewrite lookup_insert_eq. simpl. rewrite Hf. destruct (m !! bk.1); simpl; lia.
  - rewrite lookup_insert_ne by done. lia.
Qed.

(** Distinct buckets are disjoint. *)
Lemma overlap_other t s e t' s' e' a b :
  bucket_of t (s, e) -> bucket_of t' (s', e') -> s <> s' ->
  s <= a -> b <= e -> overlap a b (s', e') = 0.
Proof using part.
  intros Hb Hb' Hne Ha He. unfold overlap. simpl.
  destruct (decide (Z.max a s' < Z.min b e')) as [Hlt|]; [|lia]. exfalso. apply Hne.
  set (x := Z.max a s').
  assert (H1 : bucket_of x (s, e)) by (eapply bounds_same; [exact Hb|lia]).
  assert (H2 : bucket_of x (s', e')) by (eapply bounds_same; [exact Hb'|lia]).
  destruct H1, H2. congruence.
Qed.

Lemma bucket_of_unique t bk bk' : bucket_of t bk -> bucket_of t bk' -> bk = bk'.
Proof using Type. intros [_ H1] [_ H2]. congruence. Qed.

Lemma add_interval_covered fuel m start stop v m' :
  add_interval bounds coverage_error fuel m start stop v = Ok m' ->
  is_i64 start -> wf_buckets m ->
  wf_buckets m' /\ (forall k, count_at m' k = count_at m k)
  /\ forall s e t, bucket_of t (s, e) ->
       covered_at m' s = covered_at m s + overlap start stop (s, e).
Proof using part.
  revert m start. induction fuel as [|fuel IH]; intros m start; simpl;
    (destruct (Z.ltb_spec start stop); [|
      intros [= <-] Hi Hm; split; [done|]; split; [done|]; intros s e t Hb;
      apply bounds_contains in Hb; unfold overlap; simpl; lia]).
  - done.
  - intros ([s0 e0] & Hb & Hrun)%bind_Ok Hi Hm. simpl in Hrun.
    assert (Hb0 : bucket_of start (s0, e0)) by done. clear Hb.
    apply bind_Ok in Hrun as (dur & Hdur & Hrun). apply ok_or_Ok in Hdur.
    unfold i64_checked_sub in Hdur. apply i64_checked_Some in Hdur as [-> _].
    pose proof (bounds_contains _ _ _ Hb0) as Hc0.
    pose proof (bounds_i64 _ _ _ Hb0) as Hi0.
    apply IH in Hrun as (Hwf & Hcnt & Hcov);
      [|unfold is_i64 in *; lia|eapply update_bucket_wf; [exact Hb0|done|done]].
    split; [done|]. split.
    + intros k. rewrite Hcnt, (count_update _ _ _ 0) by (intros; simpl; lia).
      destruct (decide _); lia.
    + intros s e t Hb. rewrite (Hcov s e t Hb).
      rewrite (covered_update _ _ _ (Z.min stop e0 - start)) by done.
      rewrite (overlap_add start (Z.min stop e0) stop) by lia. simpl.
      destruct (decide (s = s0)) as [->|Hne].
      * assert (Ee : e = e0).
        { apply bounds_start in Hb, Hb0. pose proof (bucket_of_unique _ _ _ Hb Hb0). congruence. }
        subst. unfold overlap; simpl. lia.
      * rewrite (overlap_other start s0 e0 t s e start (Z.min stop e0)) by (done || lia). lia.
Qed.

(** A bucket starts where the previous one ends. *)
Lemma bounds_adjacent t s e s' e' :
  bucket_of t (s, e) -> bucket_of e (s', e') -> s' = e.
Proof using part.
  intros Hb He. pose proof (bounds_contains _ _ _ He). pose proof (bounds_contains _ _ _ Hb).
  destruct (decide (s' = e)) as [|Hne]; [done|]. exfalso.
  assert (H1 : bucket_of (e - 1) (s, e)) by (eapply bounds_same; [exact Hb|lia]).
  assert (H2 : bucket_of (e - 1) (s', e')) by (eapply bounds_same; [exact He|lia]).
  pose proof (bucket_of_unique _ _ _ H1 H2). simplify_eq. lia.
Qed.

Lemma add_interval_step fuel m start stop v s e :
  start < stop -> bucket_of start (s, e) -> is_i64 (stop - start) ->
  add_interval bounds coverage_error (S fuel) m start stop v
  = add_interval bounds coverage_error fuel
      (update_bucket m (s, e) (fun x => add_covered_interval x v (Z.min stop e - start)))
      (Z.min stop e) stop v.
Proof using part.
  intros Hlt Hb Hi. simpl. destruct (Z.ltb_spec start stop); [|lia]. rewrite (proj2 Hb). simpl.
  pose proof (bounds_contains _ _ _ Hb). unfold i64_checked_sub.
  rewrite i64_checked_ok by (unfold is_i64 in *; lia). done.
Qed.

Lemma add_interval_done fuel m start stop v :
  stop <= start -> add_interval bounds coverage_error fuel m start stop v = Ok m.
Proof using Type. intros. destruct fuel; simpl; destruct (Z.ltb_spec start stop); (lia || done). Qed.

Lemma add_interval_aligned fuel m start stop v :
  (stop - start) / minimum + 1 <= Z.of_nat fuel ->
  (forall t, start <= t < stop -> exists bk, bucket_of t bk) ->
  is_i64 (stop - start) ->
  (start < stop -> exists e, bucket_of start (start, e)) ->
  exists m', add_interval bounds coverage_error fuel m start stop v = Ok m'.
Proof using part.
  pose proof minimum_positive as Hmin. revert m start.
  induction fuel as [|fuel IH]; intros m start Hf Hall Hi Ha;
    (destruct (decide (start < stop)) as [Hlt|]; [|rewrite add_interval_done by lia; by eexists]).
  - exfalso. assert (0 <= (stop - start) / minimum) by (apply Z.div_pos; lia). lia.
  - destruct (Ha Hlt) as (e & Hb). rewrite (add_interval_step _ _ _ _ _ start e) by done.
    pose proof (bounds_contains _ _ _ Hb). pose proof (bounds_minimum _ _ _ Hb).
    destruct (decide (e < stop)) as [He|He].
    + rewrite Z.min_r by lia. apply IH.
      * assert ((stop - e) / minimum + 1 <= (stop - start) / minimum); [|lia].
        rewrite <- Z.div_add by lia. apply Z.div_le_mono; lia.
      * intros t Ht. apply Hall. lia.
      * unfold is_i64 in *. lia.
      * intros _. destruct (Hall e) as [[s' e'] He']; [lia|]. exists e'.
        pose proof (bounds_adjacent _ _ _ _ _ Hb He'). by subst s'.
    + rewrite Z.min_l by lia. rewrite add_interval_done by lia. by eexists.
Qed.

(** The loop terminates within its bound, and fails only where a bucket has
    no bounds. *)
Lemma add_interval_total fuel m start stop v :
  (stop - start) / minimum + 2 <= Z.of_nat fuel ->
  (forall t, start <= t < stop -> exists bk, bucket_of t bk) ->
  is_i64 (stop - start) ->
  exists m', add_interval bounds coverage_error fuel m start stop v = Ok m'.
Proof using part.
  pose proof minimum_positive as Hmin. intros Hf Hall Hi.
  destruct (decide (start < stop)) as [Hlt|]; [|rewrite add_interval_done by lia; by eexists].
  assert (0 <= (stop - start) / minimum) by (apply Z.div_pos; lia).
  destruct fuel as [|fuel]; [lia|].
  destruct (Hall start) as [[s e] Hb]; [lia|]. rewrite (add_interval_step _ _ _ _ _ s e) by done.
  pose proof (bounds_contains _ _ _ Hb).
  destruct (decide (e < stop)) as [He|He].
  - rewrite Z.min_r by lia. apply add_interval_aligned.
    + assert ((stop - e) / minimum <= (stop - start) / minimum) by (apply Z.div_le_mono; lia). lia.
    + intros t Ht. apply Hall. lia.
    + unfold is_i64 in *. lia.
    + intros _. destruct (Hall e) as [[s' e'] He']; [lia|]. exists e'.
      pose proof (bounds_adjacent _ _ _ _ _ Hb He'). by subst s'.
  - rewrite Z.min_l by lia. rewrite add_interval_done by lia. by eexists.
Qed.

(** ** The two loops of [build] *)

Definition point_in (k : Z) (p : Point) : bool :=
  match bounds (valid_time p) with Ok (s, _) => s =? k | Err _ => false end.

Lemma add_points_count l m m' :
  try_fold (add_point bounds) m l = Ok m' -> Forall (fun p => is_i64 (valid_time p)) l ->
  wf_buckets m ->
  wf_buckets m'
  /\ (forall k, count_at m' k = count_at m k + len (List.filter (point_in k) l))
  /\ (forall k, covered_at m' k = covered_at m k)
  /\ (forall p, p ∈ l -> exists bk, bucket_of (valid_time p) bk).
Proof using part.
  revert m. induction l as [|p l IH]; intros m; simpl.
  - intros [= <-] _ Hm. split_and!; try done; [intros k; unfold zlen; simpl; lia|].
    intros p Hp. inversion Hp.
  - intros (m1 & Hp & Hrest)%bind_Ok [Hi Hil]%Forall_cons Hm. unfold add_point in Hp.
    apply bind_Ok in Hp as ([s e] & Hb & Hp). injection Hp as <-.
    apply IH in Hrest as (Hwf & Hcnt & Hcov & Hex);
      [|done|eapply update_bucket_wf; [split; [exact Hi|exact Hb]|done|done]].
    split_and!; [done| | |].
    + intros k. rewrite Hcnt, (count_update _ _ _ 1) by done. unfold point_in at 2. rewrite Hb.
      simpl fst. destruct (Z.eqb_spec s k); destruct (decide (k = s)); try lia; unfold zlen; simpl; lia.
    + intros k. rewrite Hcov, (covered_update _ _ _ 0) by (intros; simpl; lia).
      destruct (decide _); lia.
    + intros q [->|Hq]%elem_of_cons; [|auto]. exists (s, e). by split.
Qed.

(** The coverage an ordered stream must give to a bucket. *)
Definition held_overlap (max_gap : Z) (bk : Z * Z) (pair : Point * Point) : Z :=
  if valid_time pair.2 - valid_time pair.1 <=? max_gap
  then overlap (valid_time pair.1) (valid_time pair.2) bk else 0.

Definition expected_coverage (max_gap : Z) (bk : Z * Z) (l : list (Point * Point)) : Z :=
  foldr (fun pr acc => held_overlap max_gap bk pr + acc) 0 l.

Lemma add_pairs_covered fuel max_gap l m m' :
  try_fold (add_pair bounds coverage_error gap_error fuel max_gap) m l = Ok m' ->
  Forall (fun pr => is_i64 (valid_time pr.1)) l -> wf_buckets m ->
  wf_buckets m' /\ (forall k, count_at m' k = count_at m k)
  /\ forall s e t, bucket_of t (s, e) ->
       covered_at m' s = covered_at m s + expected_coverage max_gap (s, e) l.
Proof using part.
  revert m. induction l as [|[p q] l IH]; intros m; simpl.
  - intros [= <-] _ Hm. split_and!; try done. intros. lia.
  - intros (m1 & Hp & Hrest)%bind_Ok [Hi Hil]%Forall_cons Hm.
    enough (Hstep : wf_buckets m1 /\ (forall k, count_at m1 k = count_at m k)
      /\ forall s e t, bucket_of t (s, e) ->
           covered_at m1 s = covered_at m s + held_overlap max_gap (s, e) (p, q)).
    { destruct Hstep as (Hwf1 & Hc1 & Hv1).
      apply IH in Hrest as (Hwf & Hcnt & Hcov); [|done|done]. split; [done|]. split.
      - intros k. by rewrite Hcnt.
      - intros s e t Hb. rewrite (Hcov s e t Hb), (Hv1 s e t Hb). lia. }
    unfold add_pair, i64_checked_sub in Hp. unfold held_overlap. simpl.
    destruct (i64_checked _) as [gap|] eqn:Hgap; [|done].
    apply i64_checked_Some in Hgap as [-> _]. destruct (_ || _) eqn:Hskip.
    + injection Hp as <-. split_and!; try done. intros s e t Hb.
      apply bounds_contains in Hb. apply orb_true_iff in Hskip.
      rewrite Z.eqb_eq, Z.ltb_lt in Hskip. destruct (Z.leb_spec (valid_time q - valid_time p) max_gap);
        unfold overlap; simpl; lia.
    + zbool. apply add_interval_covered in Hp as (Hwf & Hcnt & Hcov); [|done|done].
      split_and!; [done|done|]. intros s e t Hb. rewrite (Hcov s e t Hb).
      destruct (Z.leb_spec (valid_time q - valid_time p) max_gap); lia.
Qed.
End Coverage.

(** ** Fixed buckets *)

(** A successful bucket computation has not wrapped: where the product leaves
    the [i64] range, the checked addition of the resolution fails. *)
Lemma fixed_bounds_Ok res t s e :
  0 < res -> is_i64 res -> is_i64 t -> fixed_bounds res t = Ok (s, e) ->
  s = t / res * res /\ e = s + res /\ s <= t < e /\ is_i64 s /\ is_i64 e.
Proof.
  intros Hres Hir Hit. unfold fixed_bounds, bucket_start, i64_checked_add.
  intros (stop & Hs & [= <- <-])%bind_Ok. apply ok_or_Ok, i64_checked_Some in Hs as [-> Hie].
  assert (Ht0 : t / res * res <= t < t / res * res + res).
  { pose proof (Z.div_mod t res). pose proof (Z.mod_pos_bound t res). lia. }
  revert Hie Ht0. generalize (t / res * res) as t0. intros t0 Hie Ht0.
  assert (H64 : 2 ^ 64 = 2 * 2 ^ 63) by reflexivity.
  assert (Hlow : - 2 ^ 63 <= t0).
  { destruct (decide (- 2 ^ 63 <= t0)); [done|]. exfalso. unfold wrap_i64 in Hie.
    assert (Hm : t0 mod 2 ^ 64 = t0 + 2 ^ 64).
    { rewrite <- (Z.mod_small (t0 + 2 ^ 64) (2 ^ 64)) by (unfold is_i64 in *; lia).
      rewrite <- (Z_mod_plus_full t0 1 (2 ^ 64)). f_equal. }
    rewrite Hm in Hie. unfold to_signed in Hie. change (64 - 1) with 63 in Hie.
    unfold is_i64 in *. destruct (Z.ltb_spec (t0 + 2 ^ 64) (2 ^ 63)); lia. }
  assert (Hw : wrap_i64 t0 = t0) by (apply to_signed_mod; unfold is_i64 in *; lia).
  rewrite Hw in *. unfold is_i64 in *. lia.
Qed.

Lemma fixed_bounds_succeeds res t :
  0 < res -> is_i64 res -> - 2 ^ 63 + res <= t < 2 ^ 63 - res ->
  fixed_bounds res t = Ok (t / res * res, t / res * res + res).
Proof.
  intros Hres Hir Ht. unfold fixed_bounds, bucket_start, i64_checked_add, wrap_i64.
  assert (Ht0 : t / res * res <= t < t / res * res + res).
  { pose proof (Z.div_mod t res). pose proof (Z.mod_pos_bound t res). lia. }
  revert Ht0. generalize (t / res * res) as t0. intros t0 Ht0. unfold is_i64 in *.
  rewrite to_signed_mod by lia. rewrite i64_checked_ok by (unfold is_i64; lia). done.
Qed.

Lemma fixed_partition res : 0 < res -> is_i64 res -> Partition (fixed_bounds res) res.
Proof.
  intros Hres Hir.
  assert (Hb : forall t s e, bucket_of (fixed_bounds res) t (s, e) ->
    s = t / res * res /\ e = s + res /\ s <= t < e /\ is_i64 s /\ is_i64 e)
    by (intros t s e [Ht Hb]; by apply fixed_bounds_Ok).
  split.
  - intros t s e Ht. apply Hb in Ht. lia.
  - intros t s e t' Ht Ht'. pose proof (Hb _ _ _ Ht) as (Es & Ee & Hc & His & Hie).
    split; [unfold is_i64 in *; lia|].
    assert (Hq : t' / res = t / res).
    { symmetry. apply Z.div_unique with (r := t' - t / res * res); lia. }
    destruct Ht as [_ Ht]. unfold fixed_bounds, bucket_start in *. by rewrite Hq.
  - intros t s e Ht. apply Hb in Ht. lia.
  - done.
  - intros t s e Ht. apply Hb in Ht. tauto.
Qed.

(** ** Calendar buckets

    What the bucket bounds rely on, for the units and the zones they are used
    with.  [day_of] numbers the local dates, [midnight d] is the instant date
    [d] begins, [first_day d] and [next_day d] are the first dates of the period
    that holds [d] and of the one after it. *)
Definition hour_micros : Z := 3600000000.

Class CalendarZone `{TimeZones} (unit : CalendarUnit) (tz : rstring) := {
  local : Zoned -> Prop;
  day_of : Zoned -> Z;
  midnight : Z -> Z;
  first_day : Z -> Z;
  next_day : Z -> Z;
  (** Instants of the zone are microseconds of an [i64] range, and one of them
      is all of a [Zoned]. *)
  cz_in_tz t z : in_tz t tz = Some z -> local z /\ zoned_micros z = t;
  cz_micros z : local z -> is_i64 (zoned_micros z);
  cz_unique z z' : local z -> local z' -> zoned_micros z = zoned_micros z' -> z = z';
  cz_between a b t : local a -> local b -> zoned_micros a <= t <= zoned_micros b -> is_Some (in_tz t tz);
  (** [start_of_day] is the first instant of the local date, [first_of_month]
      and [first_of_year] go to the first date of their period. *)
  cz_start z s : local z -> start_of_day z = Some s -> local s /\ zoned_micros s = midnight (day_of z);
  cz_start_date z z' : local z -> local z' -> day_of z = day_of z' -> start_of_day z = start_of_day z';
  cz_month z f : unit = Month -> local z -> first_of_month z = Some f -> local f /\ day_of f = first_day (day_of z);
  cz_month_same z z' : unit = Month -> local z -> local z' -> first_day (day_of z) = first_day (day_of z') ->
    is_Some (first_of_month z) -> is_Some (first_of_month z');
  cz_year z f : unit = Year -> local z -> first_of_year z = Some f -> local f /\ day_of f = first_day (day_of z);
  cz_year_same z z' : unit = Year -> local z -> local z' -> first_day (day_of z) = first_day (day_of z') ->
    is_Some (first_of_year z) -> is_Some (first_of_year z');
  (** Periods of dates. *)
  cz_period d : first_day d <= d < next_day d;
  cz_period_same d d' : first_day d <= d' < next_day d -> first_day d' = first_day d /\ next_day d' = next_day d;
  cz_day d : unit = Day -> first_day d = d;
  (** The clock of the zone never falls back over midnight: the local date of an
      instant is the one that began last.  A date that is not skipped lasts at
      least an hour. *)
  cz_dates z : local z -> midnight (day_of z) <= zoned_micros z < midnight (day_of z + 1);
  cz_midnights d : midnight d <= midnight (d + 1);
  cz_hour z : local z -> midnight (day_of z) + hour_micros <= midnight (day_of z + 1);
  (** The clock never skips midnight: a period after the beginning of a date is
      the beginning of a date. *)
  cz_add d s e : local s -> zoned_micros s = midnight (first_day d) -> checked_add_one unit s = Some e ->
    local e /\ zoned_micros e = midnight (next_day d);
}.

Section CalendarBuckets.
Context `{TimeZones} (unit : CalendarUnit) (tz : rstring) `{!CalendarZone unit tz}.

Lemma midnight_mono d d' : d <= d' -> midnight d <= midnight d'.
Proof.
  intros Hd. replace d' with (d + Z.of_nat (Z.to_nat (d' - d))) by lia. generalize (Z.to_nat (d' - d)) as n. intros n.
  induction n as [|n IH]; [by rewrite Z.add_0_r|]. pose proof (cz_midnights (d + Z.of_nat n)).
  replace (d + Z.of_nat (S n)) with (d + Z.of_nat n + 1) by lia. lia.
Qed.

Lemma calendar_error_Ok {A} (o : option A) a : calendar_error o = Ok a -> o = Some a.
Proof. apply ok_or_Ok. Qed.

(** The beginning of the period, and its end. *)
Definition period_start (z : Zoned) : option Zoned :=
  match unit with
  | Day => start_of_day z
  | Month => first_of_month z ≫= start_of_day
  | Year => first_of_year z ≫= start_of_day
  end.

Lemma calendar_bounds_Ok t s e :
  calendar_bucket_bounds t unit tz = Ok (s, e) ->
  exists z a b, in_tz t tz = Some z /\ period_start z = Some a /\ checked_add_one unit a = Some b
    /\ s = zoned_micros a /\ e = zoned_micros b.
Proof.
  unfold calendar_bucket_bounds, period_start. intros (z & Hz%calendar_error_Ok & E)%bind_Ok. apply bind_Ok in E as (a & Ha & E).
  apply bind_Ok in E as (b & Hb%calendar_error_Ok & [= <- <-]). exists z, a, b. split_and!; try done.
  destruct unit; [by apply calendar_error_Ok in Ha|..]; apply bind_Ok in Ha as (f & ->%calendar_error_Ok & Ha); by apply calendar_error_Ok in Ha.
Qed.

Lemma calendar_bounds_run t z a b :
  in_tz t tz = Some z -> period_start z = Some a -> checked_add_one unit a = Some b ->
  calendar_bucket_bounds t unit tz = Ok (zoned_micros a, zoned_micros b).
Proof.
  unfold calendar_bucket_bounds, period_start. intros -> Ha Hb. cbn [calendar_error ok_or bind].
  destruct unit; [rewrite Ha; cbn; by rewrite Hb|..].
  - destruct (first_of_month z) as [f|]; [|done]. cbn in Ha |- *. rewrite Ha. cbn. by rewrite Hb.
  - destruct (first_of_year z) as [f|]; [|done]. cbn in Ha |- *. rewrite Ha. cbn. by rewrite Hb.
Qed.

Lemma period_start_local z a :
  local z -> period_start z = Some a -> local a /\ zoned_micros a = midnight (first_day (day_of z)).
Proof.
  unfold period_start. intros Hz. destruct unit eqn:Eu.
  - rewrite cz_day by done. by apply cz_start.
  - intros (f & Hf & Ha)%bind_Some. destruct (cz_month z f eq_refl Hz Hf) as [Lf <-]. by apply cz_start.
  - intros (f & Hf & Ha)%bind_Some. destruct (cz_year z f eq_refl Hz Hf) as [Lf <-]. by apply cz_start.
Qed.

Lemma period_start_same z z' a :
  local z -> local z' -> first_day (day_of z) = first_day (day_of z') -> period_start z = Some a -> period_start z' = Some a.
Proof.
  unfold period_start. intros Hz Hz' Hd. destruct unit eqn:Eu.
  - rewrite !cz_day in Hd by done. intros <-. by apply cz_start_date.
  - intros (f & Hf & Ha)%bind_Some. destruct (cz_month_same z z' eq_refl Hz Hz' Hd) as [f' Hf']; [by eexists|].
    destruct (cz_month z f eq_refl Hz Hf) as [Lf Df], (cz_month z' f' eq_refl Hz' Hf') as [Lf' Df'].
    rewrite Hf'. cbn. rewrite <- Ha. apply cz_start_date; [done..|congruence].
  - intros (f & Hf & Ha)%bind_Some. destruct (cz_year_same z z' eq_refl Hz Hz' Hd) as [f' Hf']; [by eexists|].
    destruct (cz_year z f eq_refl Hz Hf) as [Lf Df], (cz_year z' f' eq_refl Hz' Hf') as [Lf' Df'].
    rewrite Hf'. cbn. rewrite <- Ha. apply cz_start_date; [done..|congruence].
Qed.

(** The buckets of such a zone partition its instants. *)
Lemma calendar_partition : Partition (fun t => calendar_bucket_bounds t unit tz) hour_micros.
Proof.
  assert (Hb : forall t s e, calendar_bucket_bounds t unit tz = Ok (s, e) ->
    exists z a b, in_tz t tz = Some z /\ local z /\ zoned_micros z = t /\ period_start z = Some a /\ checked_add_one unit a = Some b
      /\ local a /\ local b /\ s = zoned_micros a /\ e = zoned_micros b
      /\ s = midnight (first_day (day_of z)) /\ e = midnight (next_day (day_of z))).
  { intros t s e (z & a & b & Hz & Ha & Hb & -> & ->)%calendar_bounds_Ok. destruct (cz_in_tz _ _ Hz) as [Lz Et].
    destruct (period_start_local _ _ Lz Ha) as [La Ea]. destruct (cz_add _ _ _ La Ea Hb) as [Lb Eb]. by exists z, a, b. }
  split.
  - intros t s e [_ (z & a & b & _ & Lz & <- & _ & _ & _ & _ & _ & _ & -> & ->)%Hb].
    pose proof (cz_dates z Lz). destruct (cz_period (day_of z)) as [H1 H2].
    pose proof (midnight_mono _ _ H1). assert (midnight (day_of z + 1) <= midnight (next_day (day_of z))) by (apply midnight_mono; lia). lia.
  - intros t s e t' [_ (z & a & b & _ & Lz & _ & Ha & Hab & La & Lb & Es & Ee & Es' & Ee')%Hb] Ht'.
    destruct (cz_between a b t' La Lb ltac:(lia)) as [z' Hz']. destruct (cz_in_tz _ _ Hz') as [Lz' Et'].
    assert (Hd : first_day (day_of z) <= day_of z' < next_day (day_of z)).
    { pose proof (cz_dates z' Lz') as Hz0. rewrite Et' in Hz0.
      destruct (decide (day_of z' < first_day (day_of z))); [assert (midnight (day_of z' + 1) <= midnight (first_day (day_of z))) by (apply midnight_mono; lia); lia|].
      destruct (decide (next_day (day_of z) <= day_of z')); [assert (midnight (next_day (day_of z)) <= midnight (day_of z')) by (apply midnight_mono; lia); lia|lia]. }
    destruct (cz_period_same _ _ Hd) as [Hf _].
    split; [pose proof (cz_micros z' Lz') as Hi; by rewrite Et' in Hi|].
    rewrite Es, Ee. apply (calendar_bounds_run t' z' a b); [done| |done]. eapply period_start_same; [exact Lz|done|by rewrite Hf|done].
  - intros t s e [_ (z & a & b & _ & Lz & _ & _ & _ & _ & _ & _ & _ & -> & ->)%Hb]. destruct (cz_period (day_of z)) as [H1 H2].
    pose proof (cz_hour z Lz). pose proof (midnight_mono _ _ H1). assert (midnight (day_of z + 1) <= midnight (next_day (day_of z))) by (apply midnight_mono; lia). lia.
  - done.
  - intros t s e [_ (z & a & b & _ & _ & _ & _ & _ & _ & Lb & _ & -> & _)%Hb]. by apply cz_micros.
Qed.
End CalendarBuckets.

Lemma sort_by_valid_time_sorted l :
  StronglySorted (fun a b => (valid_time a <=? valid_time b) = true) (sort_by_valid_time l).
Proof. apply stable_sort_sorted; intros; rewrite !Z.leb_le in *; lia. Qed.

Lemma windows2_sorted l pr :
  StronglySorted (fun a b => (valid_time a <=? valid_time b) = true) l ->
  pr ∈ windows2 l -> valid_time pr.1 <= valid_time pr.2 /\ pr.1 ∈ l /\ pr.2 ∈ l.
Proof.
  induction 1 as [|x l Hs IH Hx]; [intros Hp; inversion Hp|].
  destruct l as [|y l]; [intros Hp; inversion Hp|].
  cbn [windows2]. intros [->|Hp]%elem_of_cons.
  - simpl. apply Forall_cons in Hx as [Hx _]. apply Z.leb_le in Hx. set_solver.
  - apply IH in Hp as (? & ? & ?). set_solver.
Qed.

(** Held intervals of an ordered stream are disjoint, so no bucket is covered
    for longer than it lasts. *)
Lemma expected_coverage_overlap max_gap bk x l :
  StronglySorted (fun a b => (valid_time a <=? valid_time b) = true) (x :: l) ->
  exists z, valid_time x <= z /\
    0 <= expected_coverage max_gap bk (windows2 (x :: l)) <= overlap (valid_time x) z bk.
Proof.
  revert x. induction l as [|y l IH]; intros x Hs.
  - exists (valid_time x). simpl. unfold overlap. lia.
  - apply StronglySorted_inv in Hs as [Hs Hx]. destruct (IH y Hs) as (z & Hz & Hc).
    apply Forall_cons in Hx as [Hx _]. apply Z.leb_le in Hx.
    exists z. split; [lia|]. rewrite (overlap_add _ (valid_time y)) by lia.
    change (expected_coverage max_gap bk (windows2 (x :: y :: l)))
      with (held_overlap max_gap bk (x, y) + expected_coverage max_gap bk (windows2 (y :: l))).
    assert (0 <= overlap (valid_time x) (valid_time y) bk) by (unfold overlap; lia).
    unfold held_overlap. cbn [fst snd]. destruct (_ <=? _); lia.
Qed.

Lemma expected_coverage_bound max_gap bk l :
  StronglySorted (fun a b => (valid_time a <=? valid_time b) = true) l -> bk.1 <= bk.2 ->
  0 <= expected_coverage max_gap bk (windows2 l) <= bk.2 - bk.1.
Proof.
  intros Hs Hbk. destruct l as [|x l]; [simpl; lia|].
  destruct (expected_coverage_overlap max_gap bk x l Hs) as (z & _ & Hc).
  pose proof (overlap_le (valid_time x) z bk Hbk). lia.
Qed.

Lemma filter_length_perm {A} (f : A -> bool) l k :
  l ≡ₚ k -> len (List.filter f l) = len (List.filter f k).
Proof.
  intros Hp. unfold zlen. f_equal. induction Hp; simpl; repeat case_match; simpl; congruence.
Qed.

(** What the buckets of a fixed rollup contain. *)
Definition in_bucket (k res : Z) (p : Point) : bool :=
  (k <=? valid_time p) && (valid_time p <? k + res).

Lemma fixed_bucket_facts res k e :
  0 < res -> is_i64 res -> bucket_of (fixed_bounds res) k (k, e) ->
  e = k + res /\ k = k / res * res /\ is_i64 k /\ is_i64 (k + res).
Proof.
  intros Hres Hir [Hk Hbk]. apply fixed_bounds_Ok in Hbk as (E1 & -> & _ & _ & ?); try done.
Qed.

Lemma point_in_bucket res k p bk :
  0 < res -> is_i64 res -> k = k / res * res -> bucket_of (fixed_bounds res) (valid_time p) bk ->
  point_in (fixed_bounds res) k p = in_bucket k res p.
Proof.
  intros Hres Hir Hk [Hip Hbp]. destruct bk as [s e]. unfold point_in, in_bucket. rewrite Hbp.
  apply fixed_bounds_Ok in Hbp as (E2 & -> & ? & _ & _); try done.
  apply eq_bool_prop_intro. rewrite andb_True, !Is_true_true, Z.eqb_eq, Z.leb_le, Z.ltb_lt.
  split; [intros ->; lia|]. intros Hkp. rewrite E2, Hk. f_equal.
  symmetry. apply Z.div_unique with (r := valid_time p - k); lia.
Qed.

Lemma point_in_counted bounds k p l e :
  p ∈ l -> bounds (valid_time p) = Ok (k, e) -> 0 < len (List.filter (point_in bounds k) l).
Proof.
  intros Hp Hb. assert (Hpin : p ∈ List.filter (point_in bounds k) l).
  { apply list_elem_of_In, filter_In. split; [by apply list_elem_of_In|].
    unfold point_in. rewrite Hb. by apply Z.eqb_eq. }
  destruct (List.filter _ _); [inversion Hpin|]. unfold zlen. simpl. lia.
Qed.

Lemma fixed_build_Ok points res max_gap r :
  fixed_build points res max_gap = Ok r ->
  0 < res /\ 0 <= max_gap /\ resolution_micros r = res /\ exists m,
    try_fold (add_point (fixed_bounds res)) ∅ (sort_by_valid_time points) = Ok m
    /\ try_fold (add_pair (fixed_bounds res) "rollup coverage overflows"
         "rollup sample timestamps overflow a gap" (fixed_fuel res) max_gap) m
         (windows2 (sort_by_valid_time points)) = Ok (fixed_buckets r).
Proof.
  unfold fixed_build. intros ([] & Hres%reject_Ok & Hb)%bind_Ok.
  apply bind_Ok in Hb as ([] & Hgap%reject_Ok & Hb). zbool.
  apply bind_Ok in Hb as (m & Hm & Hb). apply bind_Ok in Hb as (m' & Hm' & [= <-]). eauto 10.
Qed.

Lemma sorted_points_i64 points :
  Forall typed_point points ->
  Forall (fun p => is_i64 (valid_time p)) (sort_by_valid_time points)
  /\ Forall (fun pr => is_i64 (valid_time pr.1)) (windows2 (sort_by_valid_time points)).
Proof.
  intros Htyped.
  assert (Hty : Forall (fun p => is_i64 (valid_time p)) (sort_by_valid_time points)).
  { eapply Permutation_Forall; [symmetry; apply stable_sort_perm|].
    eapply Forall_impl; [exact Htyped|]. intros p Hp. apply Hp. }
  split; [done|]. apply Forall_forall. intros pr Hpr. rewrite Forall_forall in Hty. apply Hty.
  by apply (windows2_sorted _ _ (sort_by_valid_time_sorted points)) in Hpr as (_ & ? & _).
Qed.

Lemma fixed_build_spec points res max_gap r :
  Forall typed_point points -> is_i64 res ->
  fixed_build points res max_gap = Ok r ->
  0 < res /\ resolution_micros r = res /\
  (forall p, p ∈ points -> is_Some (fixed_buckets r !! (valid_time p / res * res))) /\
  forall k b, fixed_buckets r !! k = Some b ->
    b_start b = k /\ b_end b = k + res /\ k = k / res * res /\ is_i64 k /\ is_i64 (k + res)
    /\ b_count b = len (List.filter (in_bucket k res) points)
    /\ b_covered_micros b
       = expected_coverage max_gap (k, k + res) (windows2 (sort_by_valid_time points))
    /\ 0 <= b_covered_micros b <= res.
Proof.
  intros Htyped Hir (Hres & Hgap & Hrr & m & Hm & Hm')%fixed_build_Ok.
  pose proof (stable_sort_perm (fun a b => valid_time a <=? valid_time b) points) as Hperm.
  fold (sort_by_valid_time points) in Hperm. destruct (sorted_points_i64 _ Htyped) as [Hty Hty2].
  pose proof (fixed_partition res Hres Hir) as Hpart.
  apply (add_points_count _ res) in Hm as (Hwf & Hcnt & Hcov & Hex);
    [|done|intros ? ? Hk; by rewrite lookup_empty in Hk].
  apply (add_pairs_covered _ _ _ res) in Hm' as (Hwf' & Hcnt' & Hcov'); [|done|done].
  split; [done|]. split; [done|]. split.
  - intros p Hp. rewrite <- Hperm in Hp. destruct (Hex p Hp) as [[s e] [Hip Hbp]].
    pose proof (point_in_counted _ _ _ _ _ Hp Hbp) as Hpos.
    apply fixed_bounds_Ok in Hbp as (<- & _); try done.
    destruct (fixed_buckets r !! s) eqn:E; [eauto|]. exfalso.
    assert (Hc0 : count_at (fixed_buckets r) s = 0) by (unfold count_at; by rewrite E).
    rewrite Hcnt', Hcnt in Hc0. unfold count_at in Hc0. rewrite lookup_empty in Hc0. simpl in Hc0. lia.
  - intros k b Hkb. destruct (Hwf' k b Hkb) as [Hst Hbk].
    destruct (fixed_bucket_facts _ _ _ Hres Hir Hbk) as (He & Hdiv & Hik & Hie). rewrite He in Hbk.
    assert (Hcount : b_count b = count_at (fixed_buckets r) k) by (unfold count_at; by rewrite Hkb).
    assert (Hcover : b_covered_micros b = covered_at (fixed_buckets r) k)
      by (unfold covered_at; by rewrite Hkb).
    rewrite Hcount, Hcover, Hcnt', Hcnt, (Hcov' k (k + res) k Hbk), Hcov.
    unfold count_at, covered_at. rewrite !lookup_empty. cbn [fmap option_fmap option_map default].
    rewrite !Z.add_0_l.
    pose proof (expected_coverage_bound max_gap (k, k + res) _
      (sort_by_valid_time_sorted points) ltac:(simpl; lia)) as Hbd. cbn [fst snd] in Hbd.
    split_and!; try done; try lia.
    rewrite <- (filter_length_perm _ _ _ Hperm). f_equal.
    apply filter_ext_in. intros p Hp%list_elem_of_In. destruct (Hex p Hp) as [bk Hbp].
    by eapply point_in_bucket.
Qed.

(** Construction succeeds away from the ends of the [i64] range. *)
Lemma fixed_build_succeeds points res max_gap :
  0 < res -> is_i64 res -> 0 <= max_gap ->
  (forall p, p ∈ points -> - 2 ^ 63 + res <= valid_time p < 2 ^ 63 - res) ->
  (forall p q, p ∈ points -> q ∈ points -> is_i64 (valid_time q - valid_time p)) ->
  exists r, fixed_build points res max_gap = Ok r.
Proof.
  intros Hres Hir Hgap Hr Hd.
  pose proof (stable_sort_perm (fun a b => valid_time a <=? valid_time b) points) as Hperm.
  fold (sort_by_valid_time points) in Hperm. pose proof (fixed_partition res Hres Hir) as Hpart.
  unfold fixed_build. destruct (Z.leb_spec res 0); [lia|]. destruct (Z.ltb_spec max_gap 0); [lia|].
  cbn [reject bind].
  assert (H1 : forall m l, (forall p, p ∈ l -> p ∈ points) ->
    exists m', try_fold (add_point (fixed_bounds res)) m l = Ok m').
  { intros m l. revert m. induction l as [|p l IH]; intros m Hl; simpl; [by eexists|].
    unfold add_point at 1. rewrite fixed_bounds_succeeds by (try apply Hr, Hl; done || left). simpl.
    apply IH. intros q Hq. apply Hl. by right. }
  destruct (H1 ∅ (sort_by_valid_time points)) as [m ->]; [by intros p; rewrite Hperm|]. cbn [bind].
  assert (H2 : forall m l, (forall pr, pr ∈ l -> pr.1 ∈ points /\ pr.2 ∈ points) ->
    exists m', try_fold (add_pair (fixed_bounds res) "rollup coverage overflows"
      "rollup sample timestamps overflow a gap" (fixed_fuel res) max_gap) m l = Ok m').
  { intros m0 l. revert m0. induction l as [|[p q] l IH]; intros m0 Hl; cbn [try_fold]; [by eexists|].
    destruct (Hl (p, q)) as [Hp Hq]; [left|]. simpl in Hp, Hq. unfold add_pair at 1, i64_checked_sub.
    rewrite i64_checked_ok by auto.
    assert (Hstep : exists m1, (if (valid_time q - valid_time p =? 0) || (max_gap <? valid_time q - valid_time p)
      then Ok m0 else add_interval (fixed_bounds res) "rollup coverage overflows"
        (fixed_fuel res (valid_time q - valid_time p)) m0 (valid_time p) (valid_time q) (value p)) = Ok m1).
    { destruct (_ || _); [by eexists|]. apply (add_interval_total _ _ res).
      - unfold fixed_fuel. lia.
      - intros t Ht. pose proof (Hr p Hp). pose proof (Hr q Hq).
        eexists. split; [unfold is_i64 in *; lia|]. apply fixed_bounds_succeeds; (done || lia).
      - auto. }
    destruct Hstep as [m1 ->]. cbn [bind]. apply IH. intros pr Hpr. apply Hl. by right. }
  destruct (H2 m (windows2 (sort_by_valid_time points))) as [m' ->]; [|by eexists].
  intros pr Hpr. apply (windows2_sorted _ _ (sort_by_valid_time_sorted points)) in Hpr as (_ & Ha & Hb).
  by rewrite Hperm in Ha, Hb.
Qed.

Lemma wf_fixed_start_le k start res :
  0 < res -> k = k / res * res -> (start / res * res <= k <-> start < k + res).
Proof.
  intros Hres Hk. pose proof (Z.div_mod start res). pose proof (Z.mod_pos_bound start res).
  split; [lia|]. intros Hlt.
  assert (start / res < k / res + 1) by (apply Z.div_lt_upper_bound; lia). nia.
Qed.

(** [range] selects exactly the buckets that intersect the requested window. *)
Lemma fixed_range_spec points res max_gap r start stop :
  Forall typed_point points -> is_i64 res -> fixed_build points res max_gap = Ok r ->
  - 2 ^ 63 + res <= start < 2 ^ 63 - res -> start <= stop ->
  exists l, fixed_range r start stop = Ok l /\
    forall b, b ∈ l <->
      (exists k, fixed_buckets r !! k = Some b) /\ start < b_end b /\ b_start b < stop.
Proof.
  intros Htyped Hir Hb Hs Hle.
  destruct (fixed_build_spec _ _ _ _ Htyped Hir Hb) as (Hres & Hrr & _ & Hspec).
  unfold fixed_range. rewrite Hrr.
  assert (Hfirst : bucket_start start res = start / res * res).
  { pose proof (fixed_bounds_succeeds res start Hres Hir Hs) as Hf. unfold fixed_bounds in Hf.
    destruct (ok_or _ _); simpl in Hf; congruence. }
  rewrite Hfirst. pose proof (Z.div_mod start res). pose proof (Z.mod_pos_bound start res).
  destruct (Z.ltb_spec stop (start / res * res)); [lia|]. eexists. split; [done|].
  intros b. rewrite list_elem_of_fmap. split.
  - intros ([k b'] & -> & Hin). simpl. apply list_elem_of_In, filter_In in Hin as [Hin Hc].
    apply list_elem_of_In, elem_of_btree_to_list in Hin. zbool.
    destruct (Hspec k b' Hin) as (E1 & E2 & E3 & _). split; [eauto|]. rewrite E1, E2.
    rewrite <- (wf_fixed_start_le k start res) by done. lia.
  - intros ((k & Hk) & Hend & Hstart). destruct (Hspec k b Hk) as (E1 & E2 & E3 & _).
    exists (k, b). split; [done|]. apply list_elem_of_In, filter_In.
    split; [by apply list_elem_of_In, elem_of_btree_to_list|].
    rewrite E1 in Hstart. rewrite E2 in Hend. apply andb_true_iff. rewrite Z.leb_le, Z.ltb_lt.
    by rewrite wf_fixed_start_le.
Qed.

Lemma expected_coverage_split max_gap a b c l :
  a <= b -> b <= c ->
  expected_coverage max_gap (a, c) l
  = expected_coverage max_gap (a, b) l + expected_coverage max_gap (b, c) l.
Proof.
  intros. induction l as [|pr l IH]; simpl; [done|]. rewrite IH.
  unfold held_overlap, overlap. simpl. destruct (_ <=? _); lia.
Qed.

Lemma in_bucket_split k res points :
  0 < res ->
  len (List.filter (in_bucket k (2 * res)) points)
  = len (List.filter (in_bucket k res) points) + len (List.filter (in_bucket (k + res) res) points).
Proof.
  intros Hres. unfold zlen. induction points as [|p l IH]; simpl; [done|]. unfold in_bucket in *.
  destruct (Z.leb_spec k (valid_time p)), (Z.ltb_spec (valid_time p) (k + 2 * res)),
    (Z.ltb_spec (valid_time p) (k + res)), (Z.leb_spec (k + res) (valid_time p)),
    (Z.ltb_spec (valid_time p) (k + res + res)); simpl; lia.
Qed.

(** Merging two adjacent fine buckets gives the coarse bucket. *)
Lemma merge_exact_coarser points res max_gap fine coarse k a b c :
  Forall typed_point points -> is_i64 res -> is_i64 (2 * res) ->
  fixed_build points res max_gap = Ok fine ->
  fixed_build points (2 * res) max_gap = Ok coarse ->
  fixed_buckets fine !! k = Some a -> fixed_buckets fine !! (k + res) = Some b ->
  fixed_buckets coarse !! k = Some c ->
  exists m, merge_exact a b = Ok m /\ b_start m = b_start c /\ b_end m = b_end c
    /\ b_count m = b_count c /\ b_covered_micros m = b_covered_micros c.
Proof.
  intros Ht Hi1 Hi2 Hf Hc Ha Hb Hk.
  destruct (fixed_build_spec _ _ _ _ Ht Hi1 Hf) as (Hres & _ & _ & Sf).
  destruct (fixed_build_spec _ _ _ _ Ht Hi2 Hc) as (_ & _ & _ & Sc).
  destruct (Sf k a Ha) as (A1 & A2 & _ & _ & _ & A3 & A4 & _).
  destruct (Sf (k + res) b Hb) as (B1 & B2 & _ & _ & _ & B3 & B4 & _).
  destruct (Sc k c Hk) as (C1 & C2 & _ & _ & _ & C3 & C4 & _).
  unfold merge_exact. rewrite A2, B1, Z.eqb_refl. simpl. eexists. split; [done|]. simpl.
  rewrite A1, A3, A4, B2, B3, B4, C1, C2, C3, C4, in_bucket_split by done.
  replace (k + 2 * res) with (k + res + res) by lia.
  rewrite (expected_coverage_split _ k (k + res) (k + res + res)) by lia. split_and!; (done || lia).
Qed.
