(* ===== verification/Query.v ===== *)
(** * Query: the live index and the point queries of [src/src/storage.rs]

    The per-series index of the unsealed tail, time slices, winning revisions
    and the bitemporal queries over sealed segments plus the live tail.
    Sealed segments enter through an interface that [Segment] implements. *)
From S2P Require Import Prelude Errors Float64 Model Transaction Aggregate Rollup.

(** ** The live index *)

Abbreviation Index := (gmap Z (list Point)).

Definition series_points (index : Index) (s : Z) : list Point := default [] (index !! s).

Definition time_leb (a b : Point) : bool := valid_time a <=? valid_time b.

(** [insert_indexed_point]: keep a series in valid-time order, a new point
    after the existing points of the same time. *)
Definition insert_indexed_point (index : Index) (p : Point) : Index :=
  let l := series_points index (series p) in
  <[series p :=
      match last l with
      | Some q =>
          if valid_time p <? valid_time q then
            let at_ := partition_point (fun e => valid_time e <=? valid_time p) l in
            take at_ l ++ p :: drop at_ l
          else l ++ [p]
      | None => l ++ [p]
      end]> index.

(** Recovery pushes the points in log order and sorts every series once. *)
Definition push_indexed_point (index : Index) (p : Point) : Index :=
  <[series p := series_points index (series p) ++ [p]]> index.

Definition sort_series (l : list Point) : list Point := stable_sort time_leb l.

(** [series_time_slice]. *)
Definition series_time_slice (points : list Point) (start stop : Z) : list Point :=
  let lo := partition_point (fun p => valid_time p <? start) points in
  let hi := Nat.add lo (partition_point (fun p => valid_time p <? stop) (drop lo points)) in
  slice lo hi points.

(** [winning_revisions]. *)
Definition winning_step (keep : Point -> bool) (prefer : Point -> Point -> bool)
    (winners : list Point) (p : Point) : list Point :=
  if negb (keep p) then winners
  else match last winners with
       | Some current =>
           if valid_time current =? valid_time p then
             if prefer p current then removelast winners ++ [p] else winners
           else winners ++ [p]
       | None => winners ++ [p]
       end.

Definition winning_revisions (points : list Point) (start stop : Z)
    (keep : Point -> bool) (prefer : Point -> Point -> bool) : list Point :=
  foldl (winning_step keep prefer) [] (series_time_slice points start stop).

(** The key [(valid_time, knowledge_time, change_time)], compared
    lexicographically. *)
Definition revision_leb (a b : Point) : bool :=
  (valid_time a <? valid_time b)
  || ((valid_time a =? valid_time b)
      && ((knowledge_time a <? knowledge_time b)
          || ((knowledge_time a =? knowledge_time b) && (change_time a <=? change_time b)))).

Definition sort_revisions (l : list Point) : list Point := stable_sort revision_leb l.

(** [(a.knowledge_time, a.change_time) >= (b.knowledge_time, b.change_time)]. *)
Definition prefer_latest (a b : Point) : bool :=
  (knowledge_time b <? knowledge_time a)
  || ((knowledge_time b =? knowledge_time a) && (change_time b <=? change_time a)).

Definition prefer_change (a b : Point) : bool := change_time b <=? change_time a.

(** ** Sealed segments *)

(** What the query path uses of an immutable raw segment. *)
Class SegmentOps (Seg : Type) := {
  seg_overlaps : Seg -> Z -> Z -> Z -> bool;
  seg_query : Seg -> Z -> Z -> Z -> Result (list Point);
  seg_series_point_count : Seg -> Z -> Z;
  seg_series_bounds : Seg -> Z -> option (Z * Z);
  seg_series_ids : Seg -> list Z;
}.

Definition in_window (s start stop : Z) (p : Point) : bool :=
  (series p =? s) && (start <=? valid_time p) && (valid_time p <? stop).

(** What an intact segment promises: its queries return the matching part of
    the points it was built from, in stored order. *)
Class SegmentSpec (Seg : Type) `{SegmentOps Seg} := {
  seg_points : Seg -> list Point;
  seg_intact : Seg -> Prop;
  seg_query_ok : forall g s start stop, seg_intact g ->
    seg_query g s start stop = Ok (List.filter (in_window s start stop) (seg_points g));
  seg_overlaps_ok : forall g s start stop, seg_intact g ->
    seg_overlaps g s start stop = false ->
    List.filter (in_window s start stop) (seg_points g) = [];
}.

Record PlanOutcome := mkOutcome {
  outcome_valid_time : Z;
  planned : option Point;
  actual : option Point;
  difference : option f64;
}.

Section Queries.
Context {Seg : Type} `{SegmentOps Seg}.

(** The points of the sealed segments, in seal order. *)
Fixpoint collect_sealed (sealed : list Seg) (s start stop : Z) : Result (list Point) :=
  match sealed with
  | [] => Ok []
  | g :: rest =>
      let? head := if negb (seg_overlaps g s start stop) then Ok []
                   else seg_query g s start stop in
      let? tail := collect_sealed rest s start stop in
      Ok (head ++ tail)
  end.

(** [Database::collect_raw_points]. *)
Definition collect_raw_points (sealed : list Seg) (index : Index) (s start stop : Z)
    : Result (list Point) :=
  let? points := collect_sealed sealed s start stop in
  Ok (sort_revisions (points ++ series_time_slice (series_points index s) start stop)).

(** [Database::query_history]. *)
Definition query_history (sealed : list Seg) (index : Index) (s start stop : Z)
    : Result (list Point) :=
  let? r := collect_raw_points sealed index s start stop in Ok (sort_revisions r).

(** [Database::query_with_cutoffs]. *)
Definition query_with_cutoffs (sealed : list Seg) (index : Index) (s start stop : Z)
    (maximum_knowledge_time maximum_change_time : option Z) : Result (list Point) :=
  let? points := collect_raw_points sealed index s start stop in
  Ok (winning_revisions points start stop
        (fun p => is_none_or maximum_knowledge_time (fun cutoff => knowledge_time p <=? cutoff)
                  && is_none_or maximum_change_time (fun cutoff => change_time p <=? cutoff))
        prefer_latest).

(** [Database::query_latest] and [Database::query_as_of]. *)
Definition query_latest (sealed : list Seg) (index : Index) (s start stop : Z) :=
  query_with_cutoffs sealed index s start stop None None.
Definition query_as_of (sealed : list Seg) (index : Index) (s start stop as_of : Z) :=
  query_with_cutoffs sealed index s start stop (Some as_of) (Some as_of).

(** [Database::query_run]. *)
Definition query_run (sealed : list Seg) (index : Index) (s run start stop : Z)
    : Result (list Point) :=
  let? points := collect_raw_points sealed index s start stop in
  Ok (winning_revisions points start stop (fun p => point_run_id p =? run) prefer_change).

(** [Database::compare_plan_to_actual]. *)
Definition set_planned (m : gmap Z (option Point * option Point)) (p : Point) :=
  <[valid_time p := (Some p, (default (None, None) (m !! valid_time p)).2)]> m.
Definition set_actual (m : gmap Z (option Point * option Point)) (p : Point) :=
  <[valid_time p := ((default (None, None) (m !! valid_time p)).1, Some p)]> m.

Definition plan_outcome (entry : Z * (option Point * option Point)) : PlanOutcome :=
  let '(t, (pl, ac)) := entry in
  mkOutcome t pl ac
    (match pl, ac with
     | Some p, Some a => Some (f64_sub (value a) (value p))
     | _, _ => None
     end).

Definition compare_plan_to_actual (sealed : list Seg) (index : Index)
    (planned_series actual_series run start stop : Z) : Result (list PlanOutcome) :=
  let? pl := query_run sealed index planned_series run start stop in
  let? ac := query_run sealed index actual_series 0 start stop in
  Ok (map plan_outcome (btree_to_list (foldl set_actual (foldl set_planned ∅ pl) ac))).

(** [Database::series_revision_count] and [Database::series_valid_bounds]. *)
Definition series_revision_count (sealed : list Seg) (index : Index) (s : Z) : Z :=
  u64_saturating_add (len (series_points index s))
    (foldr (fun g n => seg_series_point_count g s + n) 0 sealed).

Definition series_valid_bounds (sealed : list Seg) (index : Index) (s : Z) : option (Z * Z) :=
  let live :=
    match head (series_points index s), last (series_points index s) with
    | Some f, Some l => (Z.min i64_max (valid_time f), Z.max i64_min (valid_time l))
    | _, _ => (i64_max, i64_min)
    end in
  let '(lo, hi) :=
    foldl (fun '(lo, hi) g =>
             match seg_series_bounds g s with
             | Some (a, b) => (Z.min lo a, Z.max hi b)
             | None => (lo, hi)
             end) live sealed in
  if lo <=? hi then Some (lo, hi) else None.

(** [Database::rollup_gauge]. *)
Definition rollup_gauge (sealed : list Seg) (index : Index) (s start stop resolution_micros max_gap_micros : Z)
    : Result FixedGaugeRollup :=
  let? points := query_latest sealed index s start stop in
  fixed_build points resolution_micros max_gap_micros.
End Queries.

(** ** The live index is the stable sort of the append order *)

Abbreviation time_sorted := (StronglySorted (fun a b => time_leb a b = true)).
Abbreviation rev_sorted := (StronglySorted (fun a b => revision_leb a b = true)).

Lemma time_leb_total a b : time_leb a b = true \/ time_leb b a = true.
Proof. unfold time_leb. rewrite !Z.leb_le. lia. Qed.
Lemma time_leb_trans a b c : time_leb a b = true -> time_leb b c = true -> time_leb a c = true.
Proof. unfold time_leb. rewrite !Z.leb_le. lia. Qed.

Lemma revision_leb_spec a b :
  revision_leb a b = true <->
  valid_time a < valid_time b \/ (valid_time a = valid_time b /\
    (knowledge_time a < knowledge_time b \/
     (knowledge_time a = knowledge_time b /\ change_time a <= change_time b))).
Proof.
  unfold revision_leb.
  rewrite !orb_true_iff, !andb_true_iff, !orb_true_iff, !andb_true_iff, !Z.ltb_lt, !Z.eqb_eq, Z.leb_le.
  tauto.
Qed.
Lemma revision_leb_total a b : revision_leb a b = true \/ revision_leb b a = true.
Proof. rewrite !revision_leb_spec. lia. Qed.
Lemma revision_leb_trans a b c :
  revision_leb a b = true -> revision_leb b c = true -> revision_leb a c = true.
Proof. rewrite !revision_leb_spec. lia. Qed.

#[export] Hint Resolve time_leb_total time_leb_trans revision_leb_total revision_leb_trans : ftw.

Lemma rev_sorted_time l : rev_sorted l -> time_sorted l.
Proof.
  induction 1 as [|x l _ IH Hx]; constructor; [done|].
  eapply Forall_impl; [exact Hx|]. intros y Hy. apply revision_leb_spec in Hy.
  unfold time_leb. apply Z.leb_le. lia.
Qed.

(** On a sorted series, the three branches of [insert_indexed_point] are the
    stable insertion. *)
Lemma partition_insert p l :
  let at_ := partition_point (fun e => valid_time e <=? valid_time p) l in
  take at_ l ++ p :: drop at_ l = sorted_insert time_leb p l.
Proof.
  induction l as [|x l IH]; [done|]. cbn [partition_point sorted_insert].
  unfold time_leb at 1. destruct (valid_time x <=? valid_time p); [|done].
  cbn [take drop app]. by rewrite <- IH.
Qed.

Lemma sorted_last_le l q : time_sorted l -> last l = Some q ->
  Forall (fun x => valid_time x <= valid_time q) l.
Proof.
  induction 1 as [|x l Hs IH Hx]; [constructor|]. destruct l as [|y l].
  - intros [= ->]. constructor; [lia|constructor].
  - rewrite last_cons_cons. intros Hl. specialize (IH Hl). constructor; [|done].
    apply Forall_cons in Hx as [Hx _]. apply Forall_cons in IH as [IH _].
    unfold time_leb in Hx. apply Z.leb_le in Hx. lia.
Qed.

Lemma insert_series_sorted p l :
  time_sorted l ->
  match last l with
  | Some q =>
      if valid_time p <? valid_time q then
        let at_ := partition_point (fun e => valid_time e <=? valid_time p) l in
        take at_ l ++ p :: drop at_ l
      else l ++ [p]
  | None => l ++ [p]
  end = sorted_insert time_leb p l.
Proof.
  intros Hs. destruct (last l) as [q|] eqn:Hl.
  - destruct (Z.ltb_spec (valid_time p) (valid_time q)); [apply partition_insert|].
    symmetry. apply sorted_insert_last. pose proof (sorted_last_le l q Hs Hl) as Hle.
    eapply Forall_impl; [exact Hle|]. intros x Hx. unfold time_leb. apply Z.leb_le. simpl in Hx. lia.
  - by apply last_None in Hl as ->.
Qed.

Definition index_sorted (index : Index) : Prop :=
  forall s l, index !! s = Some l -> time_sorted l.

Lemma index_sorted_points index s : index_sorted index -> time_sorted (series_points index s).
Proof.
  intros Hi. unfold series_points. destruct (index !! s) eqn:E; simpl; [by eapply Hi|constructor].
Qed.

Lemma insert_indexed_point_sorted index p :
  index_sorted index ->
  insert_indexed_point index p
  = <[series p := sorted_insert time_leb p (series_points index (series p))]> index.
Proof.
  intros Hi. unfold insert_indexed_point. by rewrite insert_series_sorted by (by apply index_sorted_points).
Qed.

Lemma insert_indexed_point_wf index p :
  index_sorted index -> index_sorted (insert_indexed_point index p).
Proof.
  intros Hi. rewrite insert_indexed_point_sorted by done. intros s l.
  destruct (decide (s = series p)) as [->|].
  - rewrite lookup_insert_eq. intros [= <-].
    apply sorted_insert_sorted; eauto with ftw. by apply index_sorted_points.
  - rewrite lookup_insert_ne by done. apply Hi.
Qed.

(** Pushing in order and sorting at the end, as recovery does, builds the index
    that incremental insertion, as the writer does, maintains. *)
Lemma push_then_sort_insert m ps :
  sort_series <$> foldl push_indexed_point m ps
  = foldl insert_indexed_point (sort_series <$> m) ps.
Proof.
  assert (Hsorted : forall m : Index, index_sorted (sort_series <$> m)).
  { intros m0 s l. rewrite lookup_fmap. destruct (m0 !! s); simpl; [|done]. intros [= <-].
    apply stable_sort_sorted; eauto with ftw. }
  revert m. induction ps as [|p ps IH]; intros m; simpl; [done|].
  rewrite IH. f_equal. rewrite insert_indexed_point_sorted by done.
  unfold push_indexed_point. rewrite fmap_insert. f_equal.
  unfold sort_series at 1. rewrite stable_sort_snoc. f_equal.
  unfold series_points. rewrite lookup_fmap. by destruct (m !! series p).
Qed.

(** ** Time slices *)

Lemma partition_point_filter_lt l t :
  time_sorted l ->
  drop (partition_point (fun p => valid_time p <? t) l) l
    = List.filter (fun p => t <=? valid_time p) l
  /\ take (partition_point (fun p => valid_time p <? t) l) l
    = List.filter (fun p => valid_time p <? t) l.
Proof.
  induction 1 as [|x l Hs [IH1 IH2] Hx]; [done|]. simpl.
  destruct (Z.ltb_spec (valid_time x) t), (Z.leb_spec t (valid_time x)); try lia; simpl.
  - split; [done|]. by f_equal.
  - assert (Hall : Forall (fun y => t <= valid_time y) l).
    { eapply Forall_impl; [exact Hx|]. intros y Hy. unfold time_leb in Hy. apply Z.leb_le in Hy. lia. }
    split.
    + f_equal. clear -Hall. induction Hall as [|y l Hy _ IH]; simpl; [done|].
      destruct (Z.leb_spec t (valid_time y)); [|lia]. by f_equal.
    + clear -Hall. induction Hall as [|y l Hy _ IH]; simpl; [done|].
      destruct (Z.ltb_spec (valid_time y) t); [lia|done].
Qed.

Lemma filter_filter {A} (f g : A -> bool) l :
  List.filter f (List.filter g l) = List.filter (fun x => g x && f x) l.
Proof. induction l as [|x l IH]; simpl; [done|]. destruct (g x); simpl; [|done]. by rewrite IH. Qed.

Lemma time_sorted_filter f l : time_sorted l -> time_sorted (List.filter f l).
Proof.
  induction 1 as [|x l Hs IH Hx]; simpl; [constructor|]. destruct (f x); [|done].
  constructor; [done|]. rewrite List.Forall_forall in *. intros y [Hy _]%filter_In. by apply Hx.
Qed.

Lemma series_time_slice_filter l start stop :
  time_sorted l ->
  series_time_slice l start stop
  = List.filter (fun p => (start <=? valid_time p) && (valid_time p <? stop)) l.
Proof.
  intros Hs. unfold series_time_slice, slice. rewrite Nat.add_comm, Nat.add_sub.
  destruct (partition_point_filter_lt l start Hs) as [-> _].
  pose proof (time_sorted_filter (fun p => start <=? valid_time p) l Hs) as Hs'.
  destruct (partition_point_filter_lt _ stop Hs') as [_ ->]. apply filter_filter.
Qed.

(** ** Winning revisions *)

(** The revision a scan keeps among candidates for one valid time: a later
    candidate replaces the current one when it is preferred to it. *)
Definition best (prefer : Point -> Point -> bool) (l : list Point) : option Point :=
  foldl (fun acc p => match acc with
                      | Some c => if prefer p c then Some p else Some c
                      | None => Some p
                      end) None l.

Definition at_time (t : Z) (p : Point) : bool := valid_time p =? t.

Abbreviation time_strict := (StronglySorted (fun a b => valid_time a < valid_time b)).

Lemma best_snoc prefer l p :
  best prefer (l ++ [p])
  = Some (match best prefer l with Some c => if prefer p c then p else c | None => p end).
Proof.
  unfold best. rewrite foldl_app. simpl. destruct (foldl _ None l) as [c|]; [|done].
  by destruct (prefer p c).
Qed.

Lemma filter_none {A} (f : A -> bool) l : Forall (fun x => f x = false) l -> List.filter f l = [].
Proof. induction 1 as [|x l Hx _ IH]; simpl; [done|]. by rewrite Hx. Qed.

Lemma time_strict_snoc l p :
  time_strict (l ++ [p]) <-> time_strict l /\ Forall (fun q => valid_time q < valid_time p) l.
Proof.
  induction l as [|x l IH]; simpl.
  - split; [split; constructor|repeat constructor].
  - split.
    + intros [H Hx]%StronglySorted_inv. apply Forall_app in Hx as [Hx [Hp _]%Forall_cons].
      apply IH in H as [H1 H2]. split; constructor; done.
    + intros [[H Hx]%StronglySorted_inv [Hp Hl]%Forall_cons]. constructor; [by apply IH|].
      apply Forall_app. split; [done|by repeat constructor].
Qed.

(** In a strictly ordered list, one element answers for its own time. *)
Lemma filter_at_time_snoc W c t :
  time_strict (W ++ [c]) ->
  List.filter (at_time t) (W ++ [c]) = if at_time t c then [c] else List.filter (at_time t) W.
Proof.
  intros [_ HW]%time_strict_snoc. rewrite List.filter_app. simpl. unfold at_time at 2 3.
  destruct (Z.eqb_spec (valid_time c) t) as [<-|]; [|by rewrite app_nil_r].
  rewrite filter_none; [done|]. eapply Forall_impl; [exact HW|]. intros q Hq.
  unfold at_time. apply Z.eqb_neq. simpl in Hq. lia.
Qed.

Definition winners_ok (keep : Point -> bool) prefer (l W : list Point) : Prop :=
  time_strict W /\ (forall p, p ∈ W -> p ∈ l) /\
  forall t, List.filter (at_time t) W
            = option_list (best prefer (List.filter (fun p => keep p && at_time t p) l)).

Lemma time_sorted_snoc l p :
  time_sorted (l ++ [p]) -> time_sorted l /\ Forall (fun q => valid_time q <= valid_time p) l.
Proof.
  induction l as [|x l IH]; simpl; [repeat constructor|].
  intros [H Hx]%StronglySorted_inv. apply Forall_app in Hx as [Hx [Hp _]%Forall_cons].
  apply IH in H as [H1 H2]. split; constructor; try done. unfold time_leb in Hp. zlia.
Qed.

(** The winners after one more kept candidate [p]: [w] now answers for the time
    of [p], and the other times keep their answers. *)
Lemma winners_ok_snoc keep prefer l W p w :
  keep p = true -> valid_time w = valid_time p ->
  time_strict (W ++ [w]) -> (forall q, q ∈ W ++ [w] -> q ∈ l ++ [p]) ->
  match best prefer (List.filter (fun q => keep q && at_time (valid_time p) q) l) with
  | Some c => w = if prefer p c then p else c
  | None => w = p
  end ->
  (forall t, t <> valid_time p -> List.filter (at_time t) W
     = option_list (best prefer (List.filter (fun q => keep q && at_time t q) l))) ->
  winners_ok keep prefer (l ++ [p]) (W ++ [w]).
Proof.
  intros Hk Hw Hs Hin Hbest Hother. split_and!; [done..|]. intros t.
  rewrite filter_at_time_snoc by done. rewrite List.filter_app. simpl. rewrite Hk. simpl.
  unfold at_time at 1 4. rewrite Hw. destruct (Z.eqb_spec (valid_time p) t) as [<-|Hne].
  - rewrite best_snoc. destruct (best prefer _); by subst w.
  - rewrite app_nil_r. auto.
Qed.

Lemma filter_before W t :
  Forall (fun q => valid_time q < t) W -> List.filter (at_time t) W = [].
Proof.
  intros HW. apply filter_none. eapply Forall_impl; [exact HW|]. intros q Hq.
  unfold at_time. apply Z.eqb_neq. simpl in Hq. lia.
Qed.

Lemma winning_step_ok keep prefer l W p :
  Forall (fun q => valid_time q <= valid_time p) l ->
  winners_ok keep prefer l W -> winners_ok keep prefer (l ++ [p]) (winning_step keep prefer W p).
Proof.
  intros Hle (Hs & Hin & Hb). unfold winning_step. rewrite Forall_forall in Hle.
  assert (Hup : forall q, q ∈ W -> q ∈ l ++ [p]) by (intros; apply elem_of_app; left; auto).
  assert (Hp : p ∈ l ++ [p]) by (apply elem_of_app; right; by left).
  destruct (keep p) eqn:Hk; simpl.
  2: { split_and!; [done..|]. intros t. rewrite List.filter_app. simpl. by rewrite Hk, app_nil_r. }
  destruct W as [|c W _] using rev_ind.
  { apply (winners_ok_snoc keep prefer l [] p p Hk eq_refl).
    - apply time_strict_snoc. split; constructor.
    - by intros q ->%list_elem_of_singleton.
    - specialize (Hb (valid_time p)). simpl in Hb. by destruct (best prefer _).
    - intros t _. apply (Hb t). }
  rewrite last_snoc. pose proof Hs as [HsW HltW]%time_strict_snoc.
  assert (Hc : c ∈ l) by (apply Hin, elem_of_app; right; by left).
  pose proof (Hle _ Hc) as Hcp.
  destruct (Z.eqb_spec (valid_time c) (valid_time p)) as [Heq|Hne].
  - rewrite removelast_last. set (w := if prefer p c then p else c).
    replace (if prefer p c then W ++ [p] else W ++ [c]) with (W ++ [w])
      by (unfold w; by destruct (prefer p c)).
    assert (Hwt : valid_time w = valid_time p) by (unfold w; destruct (prefer p c); congruence).
    apply winners_ok_snoc; auto.
    + apply time_strict_snoc. by rewrite Hwt, <- Heq.
    + intros q [Hq|Hq%list_elem_of_singleton]%elem_of_app; [apply Hup, elem_of_app; by left|].
      subst q w. destruct (prefer p c); [done|]. apply elem_of_app. by left.
    + specialize (Hb (valid_time p)). rewrite filter_at_time_snoc in Hb by done.
      unfold at_time at 1 in Hb. rewrite Heq, Z.eqb_refl in Hb.
      destruct (best prefer _) as [b|]; simpl in Hb; [|done]. by injection Hb as <-.
    + intros t Ht. rewrite <- Hb, filter_at_time_snoc by done. unfold at_time at 2.
      destruct (Z.eqb_spec (valid_time c) t); [congruence|done].
  - assert (HW : Forall (fun q => valid_time q < valid_time p) (W ++ [c])).
    { apply Forall_app. split; [|repeat constructor; lia].
      eapply Forall_impl; [exact HltW|]. simpl. intros. lia. }
    apply winners_ok_snoc; auto; [by apply time_strict_snoc| |].
    + intros q [Hq| ->%list_elem_of_singleton]%elem_of_app; auto.
    + specialize (Hb (valid_time p)). rewrite filter_before in Hb by done. by destruct (best prefer _).
Qed.

Lemma winning_fold_ok keep prefer l :
  time_sorted l -> winners_ok keep prefer l (foldl (winning_step keep prefer) [] l).
Proof.
  induction l as [|p l IH] using rev_ind; intros Hs.
  - split_and!; [constructor|done|done].
  - apply time_sorted_snoc in Hs as [Hs Hle]. rewrite foldl_app. simpl.
    apply winning_step_ok; auto.
Qed.

(** On a series in valid-time order, [winning_revisions] returns exactly one
    revision per valid time of the window that has a visible candidate. *)
Lemma winning_revisions_ok keep prefer l start stop :
  time_sorted l ->
  let W := winning_revisions l start stop keep prefer in
  time_strict W /\
  forall t, List.filter (at_time t) W
    = option_list (best prefer (List.filter (fun p => (start <=? valid_time p)
        && (valid_time p <? stop) && keep p && at_time t p) l)).
Proof.
  intros Hs. unfold winning_revisions. rewrite series_time_slice_filter by done.
  destruct (winning_fold_ok keep prefer _ (time_sorted_filter
    (fun p => (start <=? valid_time p) && (valid_time p <? stop)) _ Hs)) as (H1 & _ & H3).
  split; [exact H1|]. intros t. rewrite H3, filter_filter. do 2 f_equal.
  apply List.filter_ext. intros p. by rewrite !andb_assoc.
Qed.

Lemma best_elem prefer l p : best prefer l = Some p -> p ∈ l.
Proof.
  revert p. induction l as [|x l IH] using rev_ind; intros p; [done|].
  rewrite best_snoc, elem_of_app, list_elem_of_singleton. intros [= <-].
  destruct (best prefer l) as [c|]; [|auto]. destruct (prefer x c); auto.
Qed.

(** When preference is a total order, the winner is preferred to every candidate. *)
Lemma best_maximal prefer l p :
  (forall a b, prefer a b = true \/ prefer b a = true) ->
  (forall a b c, prefer a b = true -> prefer b c = true -> prefer a c = true) ->
  best prefer l = Some p -> forall q, q ∈ l -> prefer p q = true.
Proof.
  intros Htot Htr. assert (Hrefl : forall a, prefer a a = true) by (intros a; destruct (Htot a a); done).
  revert p. induction l as [|x l IH] using rev_ind; intros p; [done|].
  rewrite best_snoc. intros [= <-] q. rewrite elem_of_app, list_elem_of_singleton.
  destruct (best prefer l) as [c|] eqn:E.
  - intros [Hq| ->].
    + specialize (IH c eq_refl q Hq). destruct (prefer x c) eqn:Ex; eauto.
    + destruct (prefer x c) eqn:Ex; [done|]. destruct (Htot x c); congruence.
  - destruct l as [|y l _] using rev_ind; [|by rewrite best_snoc in E].
    intros [Hq| ->]; [by inversion Hq|done].
Qed.

Lemma best_exists prefer l q :
  q ∈ l ->
  (forall a b, prefer a b = true \/ prefer b a = true) ->
  (forall a b c, prefer a b = true -> prefer b c = true -> prefer a c = true) ->
  exists p, best prefer l = Some p /\ prefer p q = true.
Proof.
  intros Hq Htot Htr. destruct (best prefer l) as [p|] eqn:E.
  - exists p. split; [done|]. by eapply best_maximal.
  - destruct l as [|y l _] using rev_ind; [by inversion Hq|by rewrite best_snoc in E].
Qed.

(** The revision order prefers knowledge time, then change time. *)
Lemma prefer_latest_leb a b :
  valid_time a = valid_time b -> prefer_latest a b = revision_leb b a.
Proof. intros E. unfold prefer_latest, revision_leb. rewrite E, Z.ltb_irrefl, Z.eqb_refl. done. Qed.

Lemma best_latest_last l t :
  rev_sorted l -> Forall (fun p => valid_time p = t) l -> best prefer_latest l = last l.
Proof.
  induction l as [|p l IH] using rev_ind; intros Hs Ht; [done|].
  rewrite best_snoc, last_snoc. apply Forall_app in Ht as [Ht [Hp _]%Forall_cons].
  assert (Hl : rev_sorted l /\ Forall (fun q => revision_leb q p = true) l).
  { clear -Hs. induction l as [|x l IH]; [repeat constructor|].
    apply StronglySorted_inv in Hs as [H Hx]. apply Forall_app in Hx as [Hx [Hxp _]%Forall_cons].
    apply IH in H as [? ?]. split; constructor; done. }
  destruct Hl as [Hl Hlp]. rewrite IH by done. destruct (last l) as [c|] eqn:E; [|done].
  assert (Hc : c ∈ l).
  { apply last_Some in E as [k ->]. apply elem_of_app. right. by left. }
  rewrite Forall_forall in Ht, Hlp. rewrite prefer_latest_leb by (by rewrite Hp, Ht).
  by rewrite (Hlp c Hc).
Qed.

(** ** The queries over sealed segments and the live tail *)

Definition index_keyed (index : Index) : Prop :=
  forall s l, index !! s = Some l -> Forall (fun p => series p = s) l.
Definition wf_index (index : Index) : Prop := index_sorted index /\ index_keyed index.

Lemma wf_index_empty : wf_index ∅.
Proof. split; intros s l H; by rewrite lookup_empty in H. Qed.

Lemma insert_indexed_point_keyed index p :
  wf_index index -> wf_index (insert_indexed_point index p).
Proof.
  intros [Hs Hk]. split; [by apply insert_indexed_point_wf|].
  rewrite insert_indexed_point_sorted by done. intros s l.
  destruct (decide (s = series p)) as [->|].
  - rewrite lookup_insert_eq. intros [= <-]. rewrite sorted_insert_perm. constructor; [done|].
    unfold series_points. destruct (index !! series p) eqn:E; simpl; [by eapply Hk|constructor].
  - rewrite lookup_insert_ne by done. apply Hk.
Qed.

Section QuerySpec.
Context {Seg : Type} `{SegmentSpec Seg}.

(** Every stored revision of the database, sealed first, in log order. *)
Definition stored (sealed : list Seg) (index : Index) (s : Z) : list Point :=
  concat (map seg_points sealed) ++ series_points index s.

Lemma collect_sealed_ok sealed s start stop :
  Forall seg_intact sealed ->
  collect_sealed sealed s start stop
  = Ok (List.filter (in_window s start stop) (concat (map seg_points sealed))).
Proof.
  induction 1 as [|g rest Hg _ IH]; simpl; [done|].
  rewrite IH, List.filter_app. destruct (seg_overlaps g s start stop) eqn:E; simpl.
  - by rewrite seg_query_ok.
  - by rewrite seg_overlaps_ok.
Qed.

Lemma live_window index s start stop :
  wf_index index ->
  series_time_slice (series_points index s) start stop
  = List.filter (in_window s start stop) (series_points index s).
Proof.
  intros [Hs Hk]. rewrite series_time_slice_filter by (by apply index_sorted_points).
  apply filter_ext_in. intros p Hp. unfold in_window.
  assert (Hser : series p = s).
  { unfold series_points in Hp. destruct (index !! s) eqn:E; [|done]. specialize (Hk _ _ E).
    rewrite Forall_forall in Hk. apply Hk. by apply list_elem_of_In. }
  by rewrite Hser, Z.eqb_refl.
Qed.

Lemma collect_raw_points_ok sealed index s start stop :
  Forall seg_intact sealed -> wf_index index ->
  collect_raw_points sealed index s start stop
  = Ok (sort_revisions (List.filter (in_window s start stop) (stored sealed index s))).
Proof.
  intros Hg Hi. unfold collect_raw_points. rewrite collect_sealed_ok by done. simpl.
  rewrite live_window by done. unfold stored. by rewrite List.filter_app.
Qed.

(** [query_history] returns every stored revision of the window, in revision
    order. *)
Lemma query_history_ok sealed index s start stop :
  Forall seg_intact sealed -> wf_index index ->
  query_history sealed index s start stop
  = Ok (sort_revisions (List.filter (in_window s start stop) (stored sealed index s))).
Proof.
  intros Hg Hi. unfold query_history. rewrite collect_raw_points_ok by done. simpl. f_equal.
  apply stable_sort_sorted_id, stable_sort_sorted; eauto with ftw.
Qed.

(** What a scan with a visibility filter and a preference returns. *)
Lemma winning_query_ok (keep : Point -> bool) prefer sealed index s start stop :
  Forall seg_intact sealed -> wf_index index ->
  exists W,
    (let? points := collect_raw_points sealed index s start stop in
     Ok (winning_revisions points start stop keep prefer)) = Ok W /\
    time_strict W /\
    forall t, List.filter (at_time t) W
      = option_list (best prefer (sort_revisions (List.filter
          (fun p => in_window s start stop p && keep p && at_time t p) (stored sealed index s)))).
Proof.
  intros Hg Hi. rewrite collect_raw_points_ok by done. simpl. eexists. split; [reflexivity|].
  assert (Hs : rev_sorted (sort_revisions (List.filter (in_window s start stop) (stored sealed index s))))
    by (apply stable_sort_sorted; eauto with ftw).
  destruct (winning_revisions_ok keep prefer _ start stop (rev_sorted_time _ Hs)) as [H1 H2].
  split; [exact H1|]. intros t. rewrite H2. do 2 f_equal. unfold sort_revisions.
  rewrite filter_stable_sort by eauto with ftw. f_equal. rewrite filter_filter.
  apply List.filter_ext. intros p. unfold in_window.
  destruct (series p =? s), (start <=? valid_time p), (valid_time p <? stop); done.
Qed.

Definition visible (k c : option Z) (p : Point) : bool :=
  is_none_or k (fun cutoff => knowledge_time p <=? cutoff)
  && is_none_or c (fun cutoff => change_time p <=? cutoff).

(** [query_with_cutoffs]: at each valid time, the greatest visible revision. *)
Lemma query_with_cutoffs_ok sealed index s start stop k c :
  Forall seg_intact sealed -> wf_index index ->
  exists W,
    query_with_cutoffs sealed index s start stop k c = Ok W /\
    time_strict W /\
    forall t, List.filter (at_time t) W
      = option_list (last (sort_revisions (List.filter
          (fun p => in_window s start stop p && visible k c p && at_time t p)
          (stored sealed index s)))).
Proof.
  intros Hg Hi. destruct (winning_query_ok (visible k c) prefer_latest sealed index s start stop Hg Hi)
    as (W & HW & Hs & Ht). exists W. split; [exact HW|]. split; [exact Hs|]. intros t.
  rewrite Ht. f_equal. apply (best_latest_last _ t).
  - apply stable_sort_sorted; eauto with ftw.
  - unfold sort_revisions. rewrite stable_sort_perm. apply List.Forall_forall.
    intros p [_ Hp]%filter_In. unfold at_time in Hp. zlia.
Qed.

(** [query_run]: at each valid time, a revision of the run with the greatest
    change time. *)
Lemma query_run_ok sealed index s run start stop :
  Forall seg_intact sealed -> wf_index index ->
  exists W,
    query_run sealed index s run start stop = Ok W /\
    time_strict W /\
    (forall p, p ∈ W -> p ∈ stored sealed index s /\ in_window s start stop p = true
                        /\ point_run_id p = run) /\
    (forall q, q ∈ stored sealed index s -> in_window s start stop q = true ->
       point_run_id q = run ->
       exists p, p ∈ W /\ valid_time p = valid_time q /\ change_time q <= change_time p).
Proof.
  intros Hg Hi.
  destruct (winning_query_ok (fun p => point_run_id p =? run) prefer_change sealed index s start stop Hg Hi)
    as (W & HW & Hs & Ht). exists W. split; [exact HW|]. split; [exact Hs|].
  assert (HL : forall q, q ∈ sort_revisions (List.filter (fun p => in_window s start stop p
      && (point_run_id p =? run) && at_time (valid_time q) p) (stored sealed index s)) <->
    q ∈ stored sealed index s /\ in_window s start stop q = true /\ point_run_id q = run).
  { intros q. unfold sort_revisions. rewrite stable_sort_perm, list_elem_of_In, filter_In.
    rewrite <- list_elem_of_In. unfold at_time. rewrite Z.eqb_refl, andb_true_r, andb_true_iff, Z.eqb_eq.
    done. }
  split.
  - intros p Hp. apply HL. apply (best_elem prefer_change). specialize (Ht (valid_time p)).
    assert (Hin : p ∈ List.filter (at_time (valid_time p)) W).
    { apply list_elem_of_In, filter_In. split; [by apply list_elem_of_In|]. apply Z.eqb_refl. }
    rewrite Ht in Hin. destruct (best _ _) as [x|]; [|by inversion Hin].
    by apply list_elem_of_singleton in Hin as ->.
  - intros q Hq Hw Hr. specialize (Ht (valid_time q)).
    destruct (best_exists prefer_change _ q (proj2 (HL q) (conj Hq (conj Hw Hr)))) as (x & Hx & Hle).
    { intros a b. unfold prefer_change. rewrite !Z.leb_le. lia. }
    { intros a b c. unfold prefer_change. rewrite !Z.leb_le. lia. }
    rewrite Hx in Ht. assert (HxW : x ∈ List.filter (at_time (valid_time q)) W) by (rewrite Ht; by left).
    apply list_elem_of_In, filter_In in HxW as [HxW Hxt]. exists x.
    split; [by apply list_elem_of_In|]. unfold at_time, prefer_change in *. split; zlia.
Qed.
End QuerySpec.

(** ** Plans against actuals *)

(** The last point of a list at a valid time. *)
Definition point_at (t : Z) (l : list Point) : option Point := last (List.filter (at_time t) l).

Lemma point_at_snoc t l p :
  point_at t (l ++ [p]) = if valid_time p =? t then Some p else point_at t l.
Proof.
  unfold point_at. rewrite List.filter_app. cbn [List.filter]. unfold at_time at 2.
  destruct (valid_time p =? t); [apply last_snoc|by rewrite app_nil_r].
Qed.

Lemma foldl_set_planned m l t :
  foldl set_planned m l !! t
  = match point_at t l with Some p => Some (Some p, (default (None, None) (m !! t)).2) | None => m !! t end.
Proof.
  induction l as [|p l IH] using rev_ind; [done|]. rewrite foldl_snoc, point_at_snoc.
  unfold set_planned at 1. destruct (Z.eqb_spec (valid_time p) t) as [->|Hne].
  - rewrite lookup_insert_eq, IH. by destruct (point_at t l).
  - by rewrite lookup_insert_ne.
Qed.

Lemma foldl_set_actual m l t :
  foldl set_actual m l !! t
  = match point_at t l with Some p => Some ((default (None, None) (m !! t)).1, Some p) | None => m !! t end.
Proof.
  induction l as [|p l IH] using rev_ind; [done|]. rewrite foldl_snoc, point_at_snoc.
  unfold set_actual at 1. destruct (Z.eqb_spec (valid_time p) t) as [->|Hne].
  - rewrite lookup_insert_eq, IH. by destruct (point_at t l).
  - by rewrite lookup_insert_ne.
Qed.

Section PlanComparison.
Context {Seg : Type} `{SegmentSpec Seg}.

(** One outcome per valid time at which the plan or the actual has a point. *)
Lemma compare_plan_to_actual_ok sealed index ps acs run start stop pl ac :
  query_run sealed index ps run start stop = Ok pl ->
  query_run sealed index acs 0 start stop = Ok ac ->
  exists out, compare_plan_to_actual sealed index ps acs run start stop = Ok out
    /\ StronglySorted (fun a b => outcome_valid_time a < outcome_valid_time b) out
    /\ forall o, o ∈ out <->
         (is_Some (planned o) \/ is_Some (actual o))
         /\ planned o = point_at (outcome_valid_time o) pl
         /\ actual o = point_at (outcome_valid_time o) ac
         /\ difference o = match planned o, actual o with
                           | Some p, Some a => Some (f64_sub (value a) (value p))
                           | _, _ => None
                           end.
Proof.
  intros Hp Ha. unfold compare_plan_to_actual. rewrite Hp, Ha. eexists. split; [reflexivity|].
  set (m := foldl set_actual (foldl set_planned ∅ pl) ac).
  assert (Hm : forall t, m !! t = match point_at t pl, point_at t ac with
                                  | None, None => None | p, a => Some (p, a) end).
  { intros t. unfold m. rewrite foldl_set_actual, foldl_set_planned, lookup_empty.
    by destruct (point_at t pl), (point_at t ac). }
  split.
  - pose proof (btree_to_list_sorted m) as Hs. induction Hs as [|[t e] l _ IH Hall]; simpl; constructor; [done|].
    apply Forall_map. eapply Forall_impl; [exact Hall|]. intros [t' [p' a']] Hlt. by destruct e.
  - intros o. rewrite list_elem_of_fmap. split.
    + intros ([t [p a]] & -> & Hin). apply elem_of_btree_to_list in Hin. rewrite Hm in Hin.
      simpl. destruct (point_at t pl), (point_at t ac); try discriminate Hin; injection Hin as <- <-;
        split_and!; eauto.
    + destruct o as [t p a df]. simpl. intros (Hex & -> & -> & ->). exists (t, (point_at t pl, point_at t ac)).
      split; [done|]. apply elem_of_btree_to_list. rewrite Hm.
      destruct (point_at t pl), (point_at t ac); try done. by destruct Hex as [[]|[]].
Qed.
End PlanComparison.
