(* ===== verification/Wire.v ===== *)
(** * Wire: the primitives of [src/src/shadow_protocol.rs]

    Big-endian integers, strings, options and the [Input] cursor of the
    version-one wire protocol of the shadow sidecar.  A writer only appends to
    its buffer, so that it is the list of bytes it appends; a reader is a
    function of the [Input]. *)
From S2P Require Import Prelude Errors Bytes Float64 Model Utf8.

(** [ProtocolError]; [UnreachableCode] stands for the panic of [unreachable!()]. *)
Inductive ProtocolError :=
  | ProtoIo (kind : string)
  | Truncated (expected actual : Z)
  | TrailingBytes (count : Z)
  | InvalidMagic
  | ProtoUnsupportedVersion (version : Z)
  | UnknownMessageType (kind : Z)
  | ReservedBitsSet (bits : Z)
  | FrameTooLarge (declared maximum : Z)
  | ChecksumMismatch (expected actual : Z)
  | InvalidField (field : string)
  | InvalidEnumValue (field : string) (value : Z)
  | UnreachableCode.

Abbreviation PResult A := (ProtocolError + A)%type.

Definition p_bind {A B} (m : PResult A) (k : A -> PResult B) : PResult B :=
  match m with inr a => k a | inl e => inl e end.

Notation "'let!' x := m 'in' k" := (p_bind m (fun x => k))
  (at level 10, x pattern, m at level 100, k at level 200) : ftw_scope.

(** [if cond { return Err(e) }]. *)
Definition p_reject (cond : bool) (e : ProtocolError) : PResult unit := if cond then inl e else inr tt.

(** [validate().map_err(ProtocolError::InvalidField)]. *)
Definition p_valid (o : option string) : PResult unit :=
  match o with Some field => inl (InvalidField field) | None => inr tt end.

(** Appending the output of one writer after another. *)
Fixpoint p_concat (l : list (PResult bytes)) : PResult bytes :=
  match l with
  | [] => inr []
  | m :: t => let! b := m in let! rest := p_concat t in inr (b ++ rest)
  end.

(** ** Writers *)

Definition to_be (n : nat) (z : Z) : bytes := rev (to_le n z).
Definition put_u16 (z : Z) : bytes := to_be 2 z.
Definition put_u32 (z : Z) : bytes := to_be 4 z.
Definition put_u64 (z : Z) : bytes := to_be 8 z.
Definition put_u128 (z : Z) : bytes := to_be 16 z.
Definition put_i64 (z : Z) : bytes := to_be 8 z.

Definition put_text (max : Z) (field : string) (v : rstring) : PResult bytes :=
  let n := len (as_bytes v) in
  if (max <? n) || (65535 <? n) then inl (InvalidField field)
  else inr (put_u16 n ++ as_bytes v).

Definition put_string (max : Z) (field : string) (v : rstring) : PResult bytes :=
  let n := len (as_bytes v) in
  if (n =? 0) || (max <? n) then inl (InvalidField field) else put_text max field v.

Definition put_option (put : Z -> bytes) (o : option Z) : bytes :=
  match o with Some z => [1] ++ put z | None => [0] end.
Definition put_option_u128 : option Z -> bytes := put_option put_u128.
Definition put_option_i64 : option Z -> bytes := put_option put_i64.
Definition put_watermark : option Z -> bytes := put_option put_u64.

Definition put_f64 (field : string) (v : f64) : PResult bytes :=
  if negb (f64_is_finite v) then inl (InvalidField field) else inr (put_u64 v).
Definition put_option_f64 (field : string) (o : option f64) : PResult bytes :=
  match o with
  | Some v => let! b := put_f64 field v in inr ([1] ++ b)
  | None => inr [0]
  end.

(** ** The input *)

Record Input := mkInput { in_b : bytes; in_p : nat }.

Definition Reader (A : Type) : Type := Input -> PResult (A * Input).

Definition r_ret {A} (a : A) : Reader A := fun i => inr (a, i).
Definition r_fail {A} (e : ProtocolError) : Reader A := fun _ => inl e.
Definition r_bind {A B} (m : Reader A) (k : A -> Reader B) : Reader B :=
  fun i => match m i with inr (a, i) => k a i | inl e => inl e end.
Definition r_lift {A} (m : PResult A) : Reader A :=
  fun i => match m with inr a => inr (a, i) | inl e => inl e end.

Notation "'read' x := m 'in' k" := (r_bind m (fun x => k))
  (at level 10, x pattern, m at level 100, k at level 200) : ftw_scope.

(** [Input::take].  Slices are shorter than [isize::MAX]: the addition does
    not overflow. *)
Definition r_take (n : nat) : Reader bytes :=
  fun i =>
    let e := (in_p i + n)%nat in
    if (length (in_b i) <? e)%nat then inl (Truncated (Z.of_nat e) (len (in_b i)))
    else inr (slice (in_p i) e (in_b i), mkInput (in_b i) e).

Definition remaining (i : Input) : nat := (length (in_b i) - in_p i)%nat.

Definition finish : Reader unit :=
  fun i => if (in_p i =? length (in_b i))%nat then inr (tt, i)
           else inl (TrailingBytes (Z.of_nat (remaining i))).

Definition from_be (l : bytes) : Z := from_le (rev l).

Definition r_uint (n : nat) : Reader Z := read b := r_take n in r_ret (from_be b).
Definition r_u8 : Reader Z := read b := r_take 1 in r_ret (nth 0 b 0).
Definition r_u16 : Reader Z := r_uint 2.
Definition r_u32 : Reader Z := r_uint 4.
Definition r_u64 : Reader Z := r_uint 8.
Definition r_u128 : Reader Z := r_uint 16.
Definition r_i64 : Reader Z := read b := r_take 8 in r_ret (to_signed 64 (from_be b)).

Definition enum_error {A} (field : string) (value : Z) : PResult A := inl (InvalidEnumValue field value).

Definition r_boolean (field : string) : Reader bool :=
  read v := r_u8 in
  if v =? 0 then r_ret false else if v =? 1 then r_ret true else r_lift (enum_error field v).

(** [Input::option_u128], [option_i64], [option_f64] and [watermark]. *)
Definition r_option {A} (value : Reader A) (field : string) : Reader (option A) :=
  read v := r_u8 in
  if v =? 0 then r_ret None
  else if v =? 1 then read x := value in r_ret (Some x)
  else r_lift (enum_error field v).
Definition r_option_u128 : string -> Reader (option Z) := r_option r_u128.
Definition r_option_i64 : string -> Reader (option Z) := r_option r_i64.
Definition r_watermark : string -> Reader (option Z) := r_option r_u64.

Definition r_f64 (field : string) : Reader f64 :=
  read v := r_u64 in if f64_is_finite v then r_ret v else r_fail (InvalidField field).
Definition r_option_f64 (field : string) : Reader (option f64) := r_option (r_f64 field) field.

Definition r_text_bytes (n : Z) (field : string) : Reader rstring :=
  read b := r_take (Z.to_nat n) in
  match from_utf8 b with Some s => r_ret s | None => r_fail (InvalidField field) end.
Definition r_string (max : Z) (field : string) : Reader rstring :=
  read n := r_u16 in
  if (n =? 0) || (max <? n) then r_fail (InvalidField field) else r_text_bytes n field.
Definition r_text (max : Z) (field : string) : Reader rstring :=
  read n := r_u16 in
  if max <? n then r_fail (InvalidField field) else r_text_bytes n field.

Definition r_count (maximum : Z) (field : string) : Reader Z :=
  read count := r_u32 in if maximum <? count then r_fail (InvalidField field) else r_ret count.

(** [for _ in 0..n { values.push(decode(i)?) }]. *)
Fixpoint r_repeat {A} (n : nat) (decode : Reader A) : Reader (list A) :=
  match n with
  | O => r_ret []
  | S n => read x := decode in read rest := r_repeat n decode in r_ret (x :: rest)
  end.

(** [ensure_sorted]. *)
Definition ensure_sorted (previous : option rstring) (current : rstring) (field : string) : PResult unit :=
  match previous with
  | Some value => if str_leb current value then inl (InvalidField field) else inr tt
  | None => inr tt
  end.

(** The loop that reads a [BTreeMap]: [n] sorted keys with their values. *)
Fixpoint r_entries {V} (n : nat) (max : Z) (key_field keys_field : string) (value : Reader V)
    (previous : option rstring) (values : gmap rstring V) : Reader (gmap rstring V) :=
  match n with
  | O => r_ret values
  | S n =>
      read key := r_string max key_field in
      read _ := r_lift (ensure_sorted previous key keys_field) in
      read v := value in
      r_entries n max key_field keys_field value (Some key) (<[key := v]> values)
  end.

(** ** What reads what *)

(** [m] reads exactly the bytes [b] as [a], whatever comes after. *)
Definition reads {A} (m : Reader A) (b : bytes) (a : A) : Prop :=
  forall pre suf, m (mkInput (pre ++ b ++ suf) (length pre)) = inr (a, mkInput (pre ++ b ++ suf) (length pre + length b)).

(** [m] reads [b] as [a] when nothing comes after. *)
Definition reads_last {A} (m : Reader A) (b : bytes) (a : A) : Prop :=
  forall pre, m (mkInput (pre ++ b) (length pre)) = inr (a, mkInput (pre ++ b) (length (pre ++ b))).

Lemma reads_ret {A} (a : A) : reads (r_ret a) [] a.
Proof. intros pre suf. unfold r_ret. by rewrite Nat.add_0_r. Qed.

Lemma reads_bind {A B} (m : Reader A) (k : A -> Reader B) b1 b2 a x :
  reads m b1 a -> reads (k a) b2 x -> reads (r_bind m k) (b1 ++ b2) x.
Proof.
  intros Hm Hk pre suf. unfold r_bind. specialize (Hm pre (b2 ++ suf)). specialize (Hk (pre ++ b1) suf).
  rewrite <- !app_assoc in *. rewrite Hm. rewrite length_app in Hk. rewrite Hk, length_app. do 3 f_equal. lia.
Qed.

Lemma reads_then {A B} (m : Reader A) (k : A -> Reader B) b a x :
  reads m b a -> reads (k a) [] x -> reads (r_bind m k) b x.
Proof. intros Hm Hk. rewrite <- (app_nil_r b). by eapply reads_bind. Qed.

Lemma reads_bind_ret {A B} (m : Reader A) (k : A -> B) b a :
  reads m b a -> reads (r_bind m (fun x => r_ret (k x))) b (k a).
Proof. intros Hm. rewrite <- (app_nil_r b). eapply reads_bind; [done|apply reads_ret]. Qed.

Lemma reads_lift {A} (m : PResult A) a : m = inr a -> reads (r_lift m) [] a.
Proof. intros ->. apply reads_ret. Qed.

Lemma reads_last_of {A} (m : Reader A) b a : reads m b a -> reads_last m b a.
Proof. intros Hm pre. specialize (Hm pre []). rewrite app_nil_r in Hm. by rewrite length_app. Qed.

Lemma reads_last_bind {A B} (m : Reader A) (k : A -> Reader B) b1 b2 a x :
  reads m b1 a -> reads_last (k a) b2 x -> reads_last (r_bind m k) (b1 ++ b2) x.
Proof.
  intros Hm Hk pre. unfold r_bind. specialize (Hm pre b2). specialize (Hk (pre ++ b1)).
  rewrite Hm. rewrite length_app, <- app_assoc in Hk. by rewrite Hk.
Qed.

Lemma reads_take b : reads (r_take (length b)) b b.
Proof.
  intros pre suf. unfold r_take. cbn [in_p in_b]. rewrite !length_app, (proj2 (Nat.ltb_ge _ _)) by lia.
  by rewrite slice_app_at.
Qed.

Lemma reads_take' b n : length b = n -> reads (r_take n) b b.
Proof. intros <-. apply reads_take. Qed.

Lemma length_to_be n z : length (to_be n z) = n.
Proof. unfold to_be. by rewrite length_rev, length_to_le. Qed.

Lemma from_to_be n z : 0 <= z < 256 ^ Z.of_nat n -> from_be (to_be n z) = z.
Proof. intros Hz. unfold from_be, to_be. rewrite rev_involutive. by apply from_to_le. Qed.

Lemma reads_uint n z : 0 <= z < 256 ^ Z.of_nat n -> reads (r_uint n) (to_be n z) z.
Proof.
  intros Hz. unfold r_uint. rewrite <- (from_to_be n z Hz) at 2.
  apply (reads_bind_ret (r_take n) from_be), reads_take', length_to_be.
Qed.

Lemma reads_u16 z : is_u16 z -> reads r_u16 (put_u16 z) z.
Proof. apply (reads_uint 2). Qed.
Lemma reads_u32 z : is_u32 z -> reads r_u32 (put_u32 z) z.
Proof. apply (reads_uint 4). Qed.
Lemma reads_u64 z : is_u64 z -> reads r_u64 (put_u64 z) z.
Proof. apply (reads_uint 8). Qed.
Lemma reads_u128 z : is_u128 z -> reads r_u128 (put_u128 z) z.
Proof. apply (reads_uint 16). Qed.

Lemma reads_u8 z : reads r_u8 [z] z.
Proof. apply (reads_bind_ret (r_take 1) (fun b => nth 0 b 0) [z] [z]). by apply reads_take'. Qed.

Lemma reads_i64 z : is_i64 z -> reads r_i64 (put_i64 z) z.
Proof.
  intros Hz. unfold r_i64, put_i64.
  assert (E : to_signed 64 (from_be (to_be 8 z)) = z).
  { unfold from_be, to_be. rewrite rev_involutive. by apply from_to_le_i64. }
  rewrite <- E at 2. apply (reads_bind_ret (r_take 8) (fun b => to_signed 64 (from_be b))), reads_take', length_to_be.
Qed.

Lemma reads_boolean field b : reads (r_boolean field) [Z.b2z b] b.
Proof.
  unfold r_boolean. eapply reads_then; [apply reads_u8|].
  destruct b; apply reads_ret.
Qed.

Lemma reads_option {A} (value : Reader A) field put (o : option A) :
  (forall a, o = Some a -> reads value (put a) a) ->
  reads (r_option value field) (match o with Some a => [1] ++ put a | None => [0] end) o.
Proof.
  intros Hv. unfold r_option. destruct o as [a|].
  - eapply reads_bind; [apply reads_u8|]. cbn [Z.eqb Pos.eqb]. by apply (reads_bind_ret value Some), Hv.
  - eapply reads_then; [apply reads_u8|]. apply reads_ret.
Qed.

Lemma reads_option_u128 field o : typed_opt is_u128 o -> reads (r_option_u128 field) (put_option_u128 o) o.
Proof. intros Ho. apply (reads_option r_u128 field put_u128). intros a ->. by apply reads_u128. Qed.
Lemma reads_option_i64 field o : typed_opt is_i64 o -> reads (r_option_i64 field) (put_option_i64 o) o.
Proof. intros Ho. apply (reads_option r_i64 field put_i64). intros a ->. by apply reads_i64. Qed.
Lemma reads_watermark field o : typed_opt is_u64 o -> reads (r_watermark field) (put_watermark o) o.
Proof. intros Ho. apply (reads_option r_u64 field put_u64). intros a ->. by apply reads_u64. Qed.

Lemma reads_f64 field field' v b : put_f64 field v = inr b -> is_f64 v -> reads (r_f64 field') b v.
Proof.
  unfold put_f64, r_f64. intros Hb Hv. destruct (f64_is_finite v) eqn:E; [|done]. injection Hb as <-.
  eapply reads_then; [by apply reads_u64|]. rewrite E. apply reads_ret.
Qed.

Lemma reads_option_f64 field field' o b :
  put_option_f64 field o = inr b -> typed_opt is_f64 o -> reads (r_option_f64 field') b o.
Proof.
  intros Hb Ho. destruct o as [v|]; cbn [put_option_f64] in Hb.
  - destruct (put_f64 field v) as [|b'] eqn:E; [done|]. injection Hb as <-.
    apply (reads_option (r_f64 field') field' (fun _ => b') (Some v)). intros a [= <-]. by apply (reads_f64 field).
  - injection Hb as <-. by apply (reads_option (r_f64 field') field' (fun _ => []) None).
Qed.

Lemma reads_text_bytes field v :
  typed_string v -> reads (r_text_bytes (len (as_bytes v)) field) (as_bytes v) v.
Proof.
  intros Hv. unfold r_text_bytes. rewrite zlen_nat.
  eapply reads_then; [apply reads_take|]. rewrite from_as_bytes by done. apply reads_ret.
Qed.

Lemma put_text_Ok max field v b :
  put_text max field v = inr b -> b = put_u16 (len (as_bytes v)) ++ as_bytes v /\ len (as_bytes v) <= max /\ is_u16 (len (as_bytes v)).
Proof.
  unfold put_text. cbv zeta. intros Hb. destruct (_ || _) eqn:E; [done|]. injection Hb as <-. zbool.
  pose proof (zlen_nonneg (as_bytes v)). unfold is_u16. split; [done|]. split; [done|]. lia.
Qed.

Lemma reads_text max field field' v b :
  put_text max field v = inr b -> typed_string v -> reads (r_text max field') b v.
Proof.
  intros Hb Hv. apply put_text_Ok in Hb as (-> & Hm & Hu). unfold r_text.
  eapply reads_bind; [by apply reads_u16|]. rewrite (proj2 (Z.ltb_ge _ _)) by done. by apply reads_text_bytes.
Qed.

Lemma reads_string max field field' v b :
  put_string max field v = inr b -> typed_string v -> reads (r_string max field') b v.
Proof.
  unfold put_string. cbv zeta. intros Hb Hv. destruct (_ || _) eqn:E; [done|]. apply put_text_Ok in Hb as (-> & Hm & Hu).
  unfold r_string. eapply reads_bind; [by apply reads_u16|]. rewrite E. by apply reads_text_bytes.
Qed.

Lemma reads_count maximum field n : is_u32 n -> n <= maximum -> reads (r_count maximum field) (put_u32 n) n.
Proof.
  intros Hn Hm. unfold r_count. eapply reads_then; [by apply reads_u32|].
  rewrite (proj2 (Z.ltb_ge _ _)) by done. apply reads_ret.
Qed.

Lemma p_concat_cons m l b :
  p_concat (m :: l) = inr b -> exists x y, m = inr x /\ p_concat l = inr y /\ b = x ++ y.
Proof.
  cbn [p_concat]. destruct m as [|x]; [done|]. destruct (p_concat l) as [|y]; [done|]. intros [= <-]. eauto.
Qed.

Lemma reads_repeat {A} (enc : A -> PResult bytes) (dec : Reader A) l : forall b,
  (forall a x, a ∈ l -> enc a = inr x -> reads dec x a) -> p_concat (map enc l) = inr b ->
  reads (r_repeat (length l) dec) b l.
Proof.
  induction l as [|a l IH]; intros b Hd Hb; cbn [map length r_repeat].
  - injection Hb as <-. apply reads_ret.
  - apply p_concat_cons in Hb as (x & y & Hx & Hy & ->).
    eapply reads_bind; [apply (Hd a); [by left|done]|].
    apply (reads_bind_ret (r_repeat (length l) dec) (cons a)). apply IH; [|done]. intros a' x' Ha. apply Hd. by right.
Qed.

Lemma ensure_sorted_lt previous key field :
  match previous with Some p => str_ltb p key = true | None => True end -> ensure_sorted previous key field = inr tt.
Proof.
  destruct previous as [p|]; [|done]. cbn. intros Hlt. unfold str_leb. by rewrite Hlt.
Qed.

(** A map written in order is read back. *)
Lemma reads_entries {V} max kf ksf (encv : V -> PResult bytes) (value : Reader V) (l : list (rstring * V)) :
  forall previous values b,
  (forall k v x, (k, v) ∈ l -> encv v = inr x -> reads value x v) ->
  Forall (fun e => typed_string e.1) l ->
  StronglySorted (fun a b => str_ltb a.1 b.1 = true) l ->
  match previous with Some p => Forall (fun e => str_ltb p e.1 = true) l | None => True end ->
  p_concat (map (fun '(k, v) => p_concat [put_string max kf k; encv v]) l) = inr b ->
  reads (r_entries (length l) max kf ksf value previous values) b (foldl (fun m '(k, v) => <[k := v]> m) values l).
Proof.
  induction l as [|[k v] l IH]; intros previous values b Hv Ht Hs Hp Hb; cbn [map length r_entries foldl].
  - injection Hb as <-. apply reads_ret.
  - apply p_concat_cons in Hb as (x & y & Hx & Hy & ->). apply p_concat_cons in Hx as (kb & r & Hk & Hr & ->).
    apply p_concat_cons in Hr as (vb & r' & Hvb & Hr' & ->). injection Hr' as <-. rewrite app_nil_r, <- app_assoc.
    apply Forall_cons in Ht as [Hk' Ht]. apply StronglySorted_inv in Hs as [Hs Hks].
    eapply reads_bind; [by apply (reads_string max kf)|].
    change (vb ++ y) with ([] ++ vb ++ y). eapply reads_bind.
    { apply reads_lift, ensure_sorted_lt. destruct previous; [|done]. by apply Forall_cons in Hp as [? _]. }
    eapply reads_bind; [apply (Hv k); [by left|done]|].
    apply IH; [|done|done|done|done]. intros k' v' x' Hin. apply (Hv k'). by right.
Qed.

Lemma foldl_insert_list {V} (l : list (rstring * V)) : forall m : gmap rstring V,
  NoDup l.*1 -> foldl (fun m '(k, v) => <[k := v]> m) m l = list_to_map l ∪ m.
Proof.
  induction l as [|[k v] l IH]; intros m Hn; cbn; [by rewrite map_empty_union|].
  apply NoDup_cons in Hn as [Hk Hn]. rewrite IH by done.
  rewrite <- insert_union_l. symmetry. rewrite insert_union_r; [done|]. by apply not_elem_of_list_to_map_1.
Qed.

(** The whole map, with its count. *)
Lemma reads_map {V} (bound max : Z) (cf kf ksf : string) (encv : V -> PResult bytes) (value : Reader V) (m : gmap rstring V) (b : bytes) :
  (forall k v x, m !! k = Some v -> encv v = inr x -> reads value x v) ->
  map_Forall (fun k _ => typed_string k) m -> Z.of_nat (size m) <= bound < 2 ^ 32 ->
  p_concat (map (fun '(k, v) => p_concat [put_string max kf k; encv v]) (btree_entries m)) = inr b ->
  reads (read n := r_count bound cf in r_entries (Z.to_nat n) max kf ksf value None ∅)
    (put_u32 (Z.of_nat (size m)) ++ b) m.
Proof.
  intros Hv Hk Hs Hb. eapply reads_bind; [apply reads_count; [unfold is_u32; lia|lia]|].
  rewrite Nat2Z.id, <- length_btree_entries.
  assert (E : foldl (fun m '(k, v) => <[k := v]> m) ∅ (btree_entries m) = m).
  { rewrite foldl_insert_list, map_union_empty by apply NoDup_btree_entries. apply list_to_map_btree. }
  rewrite <- E at 2. apply (reads_entries max kf ksf encv); [..|done].
  - intros k v x Hin. apply (Hv k). rewrite btree_entries_perm in Hin. by apply elem_of_map_to_list in Hin.
  - rewrite btree_entries_perm. apply Forall_forall. intros [k v] Hin. apply elem_of_map_to_list in Hin. by apply (Hk k v).
  - by apply btree_entries_sorted.
  - done.
Qed.
