(* ===== verification/Codec.v ===== *)
(** * Codec: the on-disk encodings of [src/src/storage.rs]

    Frame headers, points, transaction payloads and the compact identity index
    of the write-ahead log, with their decoders.  The checksum ([crc32fast])
    and the record serializer ([postcard]) are third-party code and enter as
    parameters with their documented laws. *)
From S2P Require Import Prelude Errors Bytes Float64 Model Transaction.

(** ** Third-party code *)

(** [crc32fast::hash].  An incremental [crc32fast::Hasher] computes the hash
    of the concatenation of its updates. *)
Class Crc := { hash : bytes -> Z; hash_u32 : forall b, is_u32 (hash b) }.

(** [postcard::to_stdvec] and [postcard::from_bytes] at one type. *)
Class Postcard (T : Type) := {
  to_stdvec : T -> option bytes;
  from_bytes : bytes -> option T;
}.

(** What serde promises for a derived pair of implementations: a serialized
    value is a byte string that reads back as the value. *)
Class PostcardLaws (T : Type) `{Postcard T} (typed : T -> Prop) := {
  to_stdvec_bytes : forall x b, to_stdvec x = Some b -> is_bytes b;
  from_to_stdvec : forall x b, typed x -> to_stdvec x = Some b -> from_bytes b = Some x;
}.

(** ** Constants *)

Definition DATABASE_MAGIC : bytes := bstr "FTWDB001".
Definition DATABASE_VERSION : Z := 1.
Definition DATABASE_HEADER_BYTES : nat := 16.
Definition FRAME_MAGIC : bytes := bstr "WBAT".
Definition FRAME_VERSION : Z := 1.
Definition FRAME_HEADER_BYTES : nat := 24.
Definition POINT_BYTES : nat := 72.
Definition FRAME_KIND_LEGACY_POINTS : Z := 0.
Definition FRAME_KIND_TRANSACTION : Z := 1.
Definition FRAME_KIND_IDENTIFIED_TRANSACTION : Z := 2.
Definition COMMIT_ID_BYTES : nat := 16.
Definition FRAME_KIND_INGRESS_TRANSACTION : Z := 3.
Definition FRAME_KIND_SEAL_CHECKPOINT : Z := 4.
Definition FRAME_KIND_IDENTITY_INDEX : Z := 5.
Definition IDENTITY_INDEX_MAGIC_V2 : bytes := bstr "WIDX0002".
Definition IDENTITY_INDEX_ENTRY_OVERHEAD_BYTES : Z := 1024.
Definition INGRESS_IDENTITY_BYTES : nat := 40.
Definition SEAL_CHECKPOINT_BYTES : nat := 16.
Definition TRANSACTION_MAGIC : bytes := bstr "WTXN".
Definition TRANSACTION_VERSION : Z := 1.
Definition TRANSACTION_HEADER_BYTES : nat := 12.
Definition RECORD_HEADER_BYTES : nat := 8.
Definition RECORD_ENTITY : Z := 1.
Definition RECORD_RELATION : Z := 2.
Definition RECORD_SERIES : Z := 3.
Definition RECORD_RUN : Z := 4.
Definition RECORD_PLAN : Z := 5.
Definition RECORD_POINTS : Z := 6.

Definition corruption {A} (offset : Z) (reason : string) : Result A :=
  Err (Corruption offset (text reason)).

Definition bytes_eqb (a b : bytes) : bool := bool_decide (a = b).

(** ** Frame headers *)

Section Header.
Context `{Crc}.

(** [encode_frame_header]: the header array is filled field by field. *)
Definition frame_header_prefix (frame_kind item_count payload_len payload_checksum : Z) : bytes :=
  FRAME_MAGIC ++ to_le 2 FRAME_VERSION ++ to_le 2 frame_kind ++ to_le 4 item_count
  ++ to_le 4 payload_len ++ to_le 4 payload_checksum.

Definition encode_frame_header (frame_kind item_count payload_len payload_checksum : Z) : bytes :=
  let header := frame_header_prefix frame_kind item_count payload_len payload_checksum in
  header ++ to_le 4 (hash header).

(** [write_database_header]: magic, version, two reserved bytes, checksum. *)
Definition database_header_prefix : bytes :=
  DATABASE_MAGIC ++ to_le 2 DATABASE_VERSION ++ [0; 0].
Definition database_header : bytes :=
  database_header_prefix ++ to_le 4 (hash database_header_prefix).

(** The bytes a frame write appends: its header, then its payload. *)
Definition encode_frame (frame_kind item_count : Z) (payload : bytes) : bytes :=
  encode_frame_header frame_kind item_count (len payload) (hash payload) ++ payload.
End Header.

#[global] Arguments database_header {_} : simpl never.
#[global] Arguments encode_frame_header {_} _ _ _ _ : simpl never.

(** ** Points *)

Definition encode_point (p : Point) : bytes :=
  to_le 8 (series p) ++ to_le 8 (valid_time p) ++ to_le 8 (valid_time_end p)
  ++ to_le 8 (knowledge_time p) ++ to_le 8 (change_time p) ++ to_le 16 (point_run_id p)
  ++ to_le 8 (value p) ++ to_le 4 (quality p) ++ to_le 4 (flags p).

Definition decode_point (raw : bytes) : Point := {|
  series := from_le (slice 0 8 raw);
  valid_time := from_le_i64 (slice 8 16 raw);
  valid_time_end := from_le_i64 (slice 16 24 raw);
  knowledge_time := from_le_i64 (slice 24 32 raw);
  change_time := from_le_i64 (slice 32 40 raw);
  point_run_id := from_le (slice 40 56 raw);
  value := from_le (slice 56 64 raw);
  quality := from_le (slice 64 68 raw);
  flags := from_le (slice 68 72 raw);
|}.

Definition encode_points (ps : list Point) : bytes := concat (map encode_point ps).

(** [payload.chunks_exact(POINT_BYTES).map(decode_point)]. *)
Definition decode_points (body : bytes) : list Point :=
  map decode_point (chunks_exact (length body / POINT_BYTES) POINT_BYTES body).

(** ** Transactions *)

(** The serializers of the five catalog record types. *)
Class RecordCodec := {
  #[global] codec_entity :: Postcard Entity;
  #[global] codec_relation :: Postcard Relation;
  #[global] codec_series :: Postcard SeriesDefinition;
  #[global] codec_run :: Postcard Run;
  #[global] codec_plan :: Postcard Plan;
}.

Class RecordCodecLaws `{RecordCodec} := {
  #[global] laws_entity :: PostcardLaws Entity typed_entity;
  #[global] laws_relation :: PostcardLaws Relation typed_relation;
  #[global] laws_series :: PostcardLaws SeriesDefinition typed_series;
  #[global] laws_run :: PostcardLaws Run typed_run;
  #[global] laws_plan :: PostcardLaws Plan typed_plan;
}.

Section Transactions.
Context `{RecordCodec}.

Definition serialize {T} `{Postcard T} (v : T) : Result bytes :=
  ok_or (to_stdvec v) (Serialization "postcard").

Definition deserialize {T} `{Postcard T} (body : bytes) (offset : Z) : Result T :=
  ok_or (from_bytes body) (Corruption offset (text "invalid transaction record")).

(** The body of a point record. *)
Definition encode_point_record (points : list Point) : Result bytes :=
  let? count := ok_or (u32_try_from (len points)) (Serialization "too many points") in
  let overflow := Serialization "point record length overflows" in
  let? product := ok_or (u64_checked_mul (len points) 72) overflow in
  let? _ := ok_or (u64_checked_add 4 product) overflow in
  Ok (to_le 4 count ++ encode_points points).

Definition encode_record_body (r : TxRecord) : Result (Z * bytes) :=
  match r with
  | REntity e => let? b := serialize e in Ok (RECORD_ENTITY, b)
  | RRelation e => let? b := serialize e in Ok (RECORD_RELATION, b)
  | RSeries e => let? b := serialize e in Ok (RECORD_SERIES, b)
  | RRun e => let? b := serialize e in Ok (RECORD_RUN, b)
  | RPlan e => let? b := serialize e in Ok (RECORD_PLAN, b)
  | RPoints ps => let? b := encode_point_record ps in Ok (RECORD_POINTS, b)
  end.

(** One iteration of the record loop of [encode_canonical_transaction]. *)
Definition encode_record (r : TxRecord) : Result bytes :=
  let? (kind, body) := encode_record_body r in
  let? body_len := ok_or (u32_try_from (len body)) (Serialization "transaction record exceeds u32") in
  Ok ([kind; 1] ++ to_le 2 0 ++ to_le 4 body_len ++ body).

Definition encode_canonical_transaction (t : Transaction) : Result bytes :=
  let? record_count := ok_or (u32_try_from (record_count t))
    (Serialization "too many transaction records") in
  let? parts := try_map encode_record (records t) in
  Ok (TRANSACTION_MAGIC ++ to_le 2 TRANSACTION_VERSION ++ to_le 2 0 ++ to_le 4 record_count
      ++ concat parts).

Definition encode_transaction (t : Transaction) : Result bytes :=
  let? canonical := encode_canonical_transaction t in
  Ok ((match tx_commit_id t with Some id => to_le 16 id | None => [] end) ++ canonical).

(** [ingress_frame_bytes]. *)
Definition ingress_frame_bytes (t : Transaction) : Result Z :=
  let? payload := encode_canonical_transaction t in
  Ok (Z.of_nat FRAME_HEADER_BYTES + Z.of_nat INGRESS_IDENTITY_BYTES + len payload).

Definition decode_point_record (body : bytes) (offset : Z) : Result (list Point) :=
  if len body <? 4 then corruption offset "truncated point record count"
  else
    let count := from_le (slice 0 4 body) in
    let? product := ok_or (u64_checked_mul count 72)
      (Corruption offset (text "point record count overflows")) in
    let? expected := ok_or (u64_checked_add 4 product)
      (Corruption offset (text "point record length overflows")) in
    if negb (len body =? expected) then corruption offset "point record length mismatch"
    else Ok (decode_points (drop 4 body)).

Definition decode_record_body (kind : Z) (body : bytes) (offset : Z) : Result TxRecord :=
  if kind =? RECORD_ENTITY then let? v := deserialize body offset in Ok (REntity v)
  else if kind =? RECORD_RELATION then let? v := deserialize body offset in Ok (RRelation v)
  else if kind =? RECORD_SERIES then let? v := deserialize body offset in Ok (RSeries v)
  else if kind =? RECORD_RUN then let? v := deserialize body offset in Ok (RRun v)
  else if kind =? RECORD_PLAN then let? v := deserialize body offset in Ok (RPlan v)
  else if kind =? RECORD_POINTS then let? v := decode_point_record body offset in Ok (RPoints v)
  else corruption offset "unknown transaction record kind".

(** One iteration of the record loop of [decode_transaction] at [cursor]. *)
Definition decode_record (payload : bytes) (cursor offset : Z) : Result (TxRecord * Z) :=
  let? header_end := ok_or (u64_checked_add cursor 8)
    (Corruption offset (text "transaction cursor overflow")) in
  if len payload <? header_end then corruption offset "truncated transaction record header"
  else
    let c := Z.to_nat cursor in
    let kind := nth c payload 0 in
    let record_version := nth (S c) payload 0 in
    if negb (record_version =? 1) then corruption offset "unsupported transaction record version"
    else if negb (bytes_eqb (slice (c + 2) (c + 4) payload) [0; 0]) then
      corruption offset "transaction record reserved flags are non-zero"
    else
      let body_len := from_le (slice (c + 4) (c + 8) payload) in
      let? body_end := ok_or (u64_checked_add header_end body_len)
        (Corruption offset (text "transaction record length overflow")) in
      if len payload <? body_end then corruption offset "truncated transaction record body"
      else
        let body := slice (Z.to_nat header_end) (Z.to_nat body_end) payload in
        let? record := decode_record_body kind body offset in
        Ok (record, body_end).

Fixpoint decode_records (n : nat) (payload : bytes) (cursor offset : Z) : Result (list TxRecord * Z) :=
  match n with
  | O => Ok ([], cursor)
  | S m =>
      let? (record, cursor) := decode_record payload cursor offset in
      let? (rest, cursor) := decode_records m payload cursor offset in
      Ok (record :: rest, cursor)
  end.

Definition decode_transaction (payload : bytes) (expected_records offset : Z)
    : Result (list TxRecord) :=
  if (len payload <? 12) || negb (bytes_eqb (slice 0 4 payload) TRANSACTION_MAGIC) then
    corruption offset "invalid transaction header"
  else if negb (from_le (slice 4 6 payload) =? TRANSACTION_VERSION) then
    corruption offset "unsupported transaction version"
  else if negb (bytes_eqb (slice 6 8 payload) [0; 0]) then
    corruption offset "transaction reserved flags are non-zero"
  else
    let record_count := from_le (slice 8 12 payload) in
    if negb (record_count =? expected_records) then
      corruption offset "transaction record count mismatch"
    else if (len payload - 12) / 8 <? record_count then
      corruption offset "transaction record count exceeds payload bounds"
    else
      let? (records, cursor) := decode_records (Z.to_nat record_count) payload 12 offset in
      if negb (cursor =? len payload) then corruption offset "trailing transaction bytes"
      else Ok records.
End Transactions.

(** ** The compact identity index *)

Record CompactIdentifiedReceipt := mkCompactIdentified {
  cid_commit_id : Z;
  cid_payload_len : Z;
  cid_payload_crc32 : Z;
  cid_points : Z;
  cid_records : Z;
  cid_payload : bytes;
}.

Record CompactIngressReceipt := mkCompactIngress {
  cin_source_id : Z;
  cin_sequence : Z;
  cin_commit_id : Z;
  cin_canonical_payload_len : Z;
  cin_canonical_payload_crc32 : Z;
  cin_points : Z;
  cin_records : Z;
  cin_canonical_payload : bytes;
  cin_frame_offset : Z;
  cin_bytes_written : Z;
}.

Record CompactIdentityIndex := mkIdentityIndex {
  identified : list CompactIdentifiedReceipt;
  ingress : list CompactIngressReceipt;
}.

Definition typed_compact_identified (r : CompactIdentifiedReceipt) : Prop :=
  is_u128 (cid_commit_id r) /\ is_u32 (cid_payload_len r) /\ is_u32 (cid_payload_crc32 r)
  /\ is_u64 (cid_points r) /\ is_u64 (cid_records r) /\ is_bytes (cid_payload r).

Definition typed_compact_ingress (r : CompactIngressReceipt) : Prop :=
  is_u128 (cin_source_id r) /\ is_u64 (cin_sequence r) /\ is_u128 (cin_commit_id r)
  /\ is_u32 (cin_canonical_payload_len r) /\ is_u32 (cin_canonical_payload_crc32 r)
  /\ is_u64 (cin_points r) /\ is_u64 (cin_records r) /\ is_bytes (cin_canonical_payload r)
  /\ is_u64 (cin_frame_offset r) /\ is_u64 (cin_bytes_written r).

Definition typed_identity_index (i : CompactIdentityIndex) : Prop :=
  Forall typed_compact_identified (identified i) /\ Forall typed_compact_ingress (ingress i).

Record LegacyCompactIdentifiedReceipt := mkLegacyIdentified {
  lid_commit_id : Z;
  lid_payload_len : Z;
  lid_payload_crc32 : Z;
  lid_points : Z;
  lid_records : Z;
}.

Record LegacyCompactIngressReceipt := mkLegacyIngress {
  lin_source_id : Z;
  lin_sequence : Z;
  lin_commit_id : Z;
  lin_canonical_payload_len : Z;
  lin_canonical_payload_crc32 : Z;
  lin_points : Z;
  lin_records : Z;
}.

Record LegacyCompactIdentityIndex := mkLegacyIndex {
  legacy_identified : list LegacyCompactIdentifiedReceipt;
  legacy_ingress : list LegacyCompactIngressReceipt;
}.

(** [impl From<LegacyCompactIdentityIndex> for CompactIdentityIndex]. *)
Definition from_legacy (i : LegacyCompactIdentityIndex) : CompactIdentityIndex := {|
  identified := map (fun r => mkCompactIdentified (lid_commit_id r) (lid_payload_len r)
    (lid_payload_crc32 r) (lid_points r) (lid_records r) []) (legacy_identified i);
  ingress := map (fun r => mkCompactIngress (lin_source_id r) (lin_sequence r) (lin_commit_id r)
    (lin_canonical_payload_len r) (lin_canonical_payload_crc32 r) (lin_points r) (lin_records r)
    [] 0 0) (legacy_ingress i);
|}.

Class IndexCodec := {
  #[global] codec_index :: Postcard CompactIdentityIndex;
  (** The old format is only read. *)
  legacy_from_bytes : bytes -> option LegacyCompactIdentityIndex;
}.

Class IndexCodecLaws `{IndexCodec} := {
  #[global] laws_index :: PostcardLaws CompactIdentityIndex typed_identity_index;
}.

Section IdentityIndex.
Context `{IndexCodec}.

Definition encoded_identity_index (i : CompactIdentityIndex) : Result bytes :=
  let? encoded := ok_or (to_stdvec i) (Serialization "identity index encode failed") in
  Ok (IDENTITY_INDEX_MAGIC_V2 ++ encoded).

(** [payload.strip_prefix(IDENTITY_INDEX_MAGIC_V2)]. *)
Definition decode_identity_index (payload : bytes) (offset : Z) : Result CompactIdentityIndex :=
  if bytes_eqb (take 8 payload) IDENTITY_INDEX_MAGIC_V2 then
    ok_or (from_bytes (drop 8 payload)) (Corruption offset (text "identity index v2 decode failed"))
  else
    let? legacy := ok_or (legacy_from_bytes payload)
      (Corruption offset (text "legacy identity index decode failed")) in
    Ok (from_legacy legacy).
End IdentityIndex.

(** [identity_index_frame_limit]. *)
Definition identity_index_frame_limit (max_transaction_bytes : Z) : Z :=
  Z.min (u64_saturating_add max_transaction_bytes IDENTITY_INDEX_ENTRY_OVERHEAD_BYTES) u32_max.

(** ** Round trips *)

Lemma length_encode_point p : length (encode_point p) = POINT_BYTES.
Proof. unfold encode_point. by rewrite !length_app, !length_to_le. Qed.

Lemma encode_point_bytes p : is_bytes (encode_point p).
Proof. unfold encode_point. rewrite !is_bytes_app. split_and!; apply to_le_bytes. Qed.

Lemma decode_encode_point p : typed_point p -> decode_point (encode_point p) = p.
Proof.
  intros (H1 & H2 & H3 & H4 & H5 & H6 & H7 & H8 & H9).
  unfold decode_point, encode_point. slices.
  rewrite !from_to_le_i64, !from_to_le_u64, from_to_le_u128, !from_to_le_u32 by done.
  by destruct p.
Qed.

Lemma to_le_i64_from l : is_bytes l -> length l = 8%nat -> to_le 8 (from_le_i64 l) = l.
Proof.
  intros Hb Hl. unfold from_le_i64, to_signed.
  transitivity (to_le 8 (from_le l)); [|rewrite <- Hl; by apply to_from_le].
  destruct (from_le l <? _); [reflexivity|]. apply to_le_congr.
  change (256 ^ Z.of_nat 8) with (2 ^ 64). rewrite <- (Z_mod_plus_full (from_le l) (-1)). f_equal.
Qed.

Lemma slice_bytes a b l : is_bytes l -> is_bytes (slice a b l).
Proof. intros. unfold slice. by apply Forall_take, Forall_drop. Qed.

(** Reassembling a buffer from adjacent slices. *)
Lemma slice_slice_app {A} a b c (l : list A) :
  (a <= b)%nat -> (b <= c)%nat -> slice a b l ++ slice b c l = slice a c l.
Proof.
  intros. unfold slice. replace (c - a)%nat with ((b - a) + (c - b))%nat by lia.
  rewrite <- take_take_drop, drop_drop. do 3 f_equal. lia.
Qed.

Lemma encode_decode_point raw :
  is_bytes raw -> length raw = POINT_BYTES -> encode_point (decode_point raw) = raw.
Proof.
  intros Hb Hl. unfold encode_point, decode_point. simpl.
  assert (Hs : forall a b, (a <= b)%nat -> (b <= 72)%nat ->
    is_bytes (slice a b raw) /\ length (slice a b raw) = (b - a)%nat).
  { intros a b ? ?. split; [by apply slice_bytes|]. apply length_slice; [done|]. by rewrite Hl. }
  assert (Hu : forall n a b, (a <= b)%nat -> (b <= 72)%nat -> n = (b - a)%nat ->
    to_le n (from_le (slice a b raw)) = slice a b raw).
  { intros n a b ? ? ->. destruct (Hs a b) as [H1 H2]; [done..|]. rewrite <- H2. by apply to_from_le. }
  assert (Hi : forall a b, (a <= b)%nat -> (b <= 72)%nat -> (b - a)%nat = 8%nat ->
    to_le 8 (from_le_i64 (slice a b raw)) = slice a b raw).
  { intros a b ? ? E. destruct (Hs a b) as [H1 H2]; [done..|]. apply to_le_i64_from; [done|]. lia. }
  rewrite !Hu, !Hi by lia. rewrite !slice_slice_app by lia. by apply slice_all.
Qed.

Lemma length_encode_points ps : length (encode_points ps) = (length ps * POINT_BYTES)%nat.
Proof.
  unfold encode_points. induction ps as [|p ps IH]; simpl; [done|].
  by rewrite length_app, length_encode_point, IH.
Qed.

Lemma encode_points_bytes ps : is_bytes (encode_points ps).
Proof.
  unfold encode_points. induction ps as [|p ps IH]; simpl; [constructor|].
  apply is_bytes_app. split; [apply encode_point_bytes|done].
Qed.

Lemma decode_encode_points ps :
  Forall typed_point ps -> decode_points (encode_points ps) = ps.
Proof.
  intros Ht. unfold decode_points. rewrite length_encode_points, Nat.div_mul by done.
  unfold encode_points. rewrite <- (length_map encode_point ps), chunks_exact_concat.
  - rewrite map_map. induction Ht as [|p ps Hp _ IH]; simpl; [done|].
    by rewrite decode_encode_point, IH.
  - apply List.Forall_forall. intros c (p & <- & _)%in_map_iff. apply length_encode_point.
Qed.

Lemma bytes_eqb_refl b : bytes_eqb b b = true.
Proof. unfold bytes_eqb. by rewrite bool_decide_true. Qed.

Lemma bytes_eqb_true a b : bytes_eqb a b = true <-> a = b.
Proof. unfold bytes_eqb. apply bool_decide_eq_true. Qed.

Lemma decode_encode_point_record ps b off :
  Forall typed_point ps -> encode_point_record ps = Ok b -> decode_point_record b off = Ok ps.
Proof.
  intros Ht He. unfold encode_point_record in He.
  apply bind_Ok in He as (n & Hn%ok_or_Ok%u32_try_from_Some & He). destruct Hn as [-> Hn].
  ok_inv. pose proof (length_encode_points ps) as Hl. unfold decode_point_record.
  set (body := to_le 4 (len ps) ++ encode_points ps).
  assert (Hlen : len body = 4 + len ps * 72).
  { unfold body, zlen. rewrite length_app, length_to_le, Hl. unfold POINT_BYTES. lia. }
  assert (Hb : (len body <? 4) = false) by (unfold is_u32 in Hn; zlia). rewrite Hb.
  assert (Hf : from_le (slice 0 4 body) = len ps).
  { unfold body. slices. by apply from_to_le_u32. }
  rewrite Hf. unfold u64_checked_mul, u64_checked_add. unfold is_u32 in Hn.
  rewrite u64_checked_ok by (unfold is_u64; lia). simpl.
  rewrite u64_checked_ok by (unfold is_u64; lia). simpl.
  rewrite Hlen, Z.eqb_refl. simpl. f_equal. unfold body.
  rewrite drop_app_length' by (by rewrite length_to_le). by apply decode_encode_points.
Qed.

Section TransactionRoundTrip.
Context `{RecordCodecLaws}.

Lemma deserialize_serialize {T} `{PostcardLaws T typed} (v : T) b off :
  typed v -> serialize v = Ok b -> deserialize b off = Ok v.
Proof.
  intros Ht Hs. unfold serialize in Hs. apply ok_or_Ok in Hs. unfold deserialize.
  by rewrite (from_to_stdvec v b Ht Hs).
Qed.

Lemma decode_encode_record_body r kind b off :
  typed_record r -> encode_record_body r = Ok (kind, b) -> decode_record_body kind b off = Ok r.
Proof.
  intros Ht He. destruct r; simpl in Ht, He; apply bind_Ok in He as (b' & Hb & [= <- <-]);
    unfold decode_record_body; simpl;
    first [rewrite (decode_encode_point_record _ _ _ Ht Hb) | rewrite (deserialize_serialize _ _ _ Ht Hb)];
    done.
Qed.

Lemma encode_record_body_bytes r kind b :
  encode_record_body r = Ok (kind, b) -> is_u8 kind /\ is_bytes b.
Proof.
  intros He. destruct r; simpl in He; apply bind_Ok in He as (b' & Hb & [= <- <-]);
    (split; [unfold is_u8; done|]);
    try (unfold serialize in Hb; apply ok_or_Ok in Hb; exact (to_stdvec_bytes _ _ Hb)).
  unfold encode_point_record in Hb. ok_inv. apply is_bytes_app.
  split; [apply to_le_bytes|apply encode_points_bytes].
Qed.

Lemma encode_record_bytes r b : encode_record r = Ok b -> is_bytes b /\ (8 <= length b)%nat.
Proof.
  unfold encode_record. intros ([kind body] & Hb & He)%bind_Ok. ok_inv.
  apply encode_record_body_bytes in Hb as [Hk Hb]. split.
  - constructor; [done|]. constructor; [done|]. rewrite !is_bytes_app. split_and!; auto using to_le_bytes.
  - simpl. rewrite !length_app, !length_to_le. lia.
Qed.

(** The fields of an encoded record followed by other bytes. *)
Lemma record_layout kind body post rest :
  is_u32 (len body) ->
  rest = ([kind; 1] ++ to_le 2 0 ++ to_le 4 (len body) ++ body) ++ post ->
  nth 0 rest 0 = kind /\ nth 1 rest 0 = 1 /\ slice 2 4 rest = [0; 0]
  /\ from_le (slice 4 8 rest) = len body /\ slice 8 (8 + length body) rest = body
  /\ len rest = 8 + len body + len post.
Proof.
  intros Hn ->. rewrite <- !app_assoc. split_and!; [done|done|by slices| | |].
  - slices. by apply from_to_le_u32.
  - rewrite slice_app_r by (simpl; lia). rewrite slice_app_r by (rewrite length_to_le; simpl; lia).
    rewrite slice_app_r by (rewrite !length_to_le; simpl; lia). rewrite !length_to_le.
    simpl Nat.sub. rewrite Nat.sub_0_r. by apply slice_app_l.
  - unfold zlen. rewrite !length_app, !length_to_le. simpl. lia.
Qed.

Lemma decode_encode_record r b pre post off :
  typed_record r -> encode_record r = Ok b -> is_u64 (len (pre ++ b ++ post)) ->
  decode_record (pre ++ b ++ post) (len pre) off = Ok (r, len pre + len b).
Proof.
  intros Ht He Hlen. unfold encode_record in He.
  apply bind_Ok in He as ([kind body] & Hbody & He).
  apply bind_Ok in He as (n & Hn%ok_or_Ok%u32_try_from_Some & He). destruct Hn as [-> Hn].
  assert (b = [kind; 1] ++ to_le 2 0 ++ to_le 4 (len body) ++ body) as -> by congruence.
  assert (Hb : len ([kind; 1] ++ to_le 2 0 ++ to_le 4 (len body) ++ body) = 8 + len body)
    by (unfold zlen; simpl; rewrite !length_app, !length_to_le; lia).
  rewrite Hb. remember (_ ++ post) as rest eqn:E.
  destruct (record_layout _ _ _ _ Hn E) as (H0' & H1 & H2 & H3 & H4 & H5). clear E.
  rewrite zlen_app, H5 in Hlen. unfold is_u64 in Hlen.
  pose proof (zlen_nonneg pre). pose proof (zlen_nonneg body). pose proof (zlen_nonneg post).
  unfold decode_record, u64_checked_add. rewrite zlen_app, H5, zlen_nat.
  rewrite u64_checked_ok by (unfold is_u64; lia). cbn [ok_or bind].
  destruct (Z.ltb_spec (len pre + (8 + len body + len post)) (len pre + 8)); [lia|].
  rewrite <- (Nat.add_1_r (length pre)), nth_app_shift, H1. cbn [negb Z.eqb Pos.eqb].
  rewrite !slice_app_shift, H2, H3, bytes_eqb_refl. cbn [negb].
  rewrite u64_checked_ok by (unfold is_u64; lia). cbn [ok_or bind].
  destruct (Z.ltb_spec (len pre + (8 + len body + len post)) (len pre + 8 + len body)); [lia|].
  replace (Z.to_nat (len pre + 8)) with (length pre + 8)%nat by (unfold zlen; lia).
  replace (Z.to_nat (len pre + 8 + len body)) with (length pre + (8 + length body))%nat
    by (unfold zlen; lia).
  rewrite slice_app_shift, H4. rewrite <- (Nat.add_0_r (length pre)), nth_app_shift, H0'.
  rewrite (decode_encode_record_body r kind body off Ht Hbody). cbn [bind]. do 2 f_equal. lia.
Qed.

Lemma decode_encode_records rs parts pre post off :
  Forall typed_record rs -> try_map encode_record rs = Ok parts ->
  is_u64 (len (pre ++ concat parts ++ post)) ->
  decode_records (length rs) (pre ++ concat parts ++ post) (len pre) off
  = Ok (rs, len pre + len (concat parts)).
Proof.
  intros Ht. revert parts pre. induction Ht as [|r rs Hr _ IH]; intros parts pre He Hlen; simpl in He.
  - injection He as <-. simpl. do 2 f_equal. unfold zlen. simpl. lia.
  - apply bind_Ok in He as (b & Hb & He). apply bind_Ok in He as (bs & Hbs & [= <-]).
    simpl concat in *. rewrite <- app_assoc in *. simpl.
    rewrite (decode_encode_record r b pre _ off Hr Hb Hlen). cbn [bind].
    rewrite app_assoc in *. specialize (IH bs (pre ++ b) Hbs Hlen).
    rewrite zlen_app in IH. rewrite IH. simpl. do 2 f_equal. rewrite !zlen_app. lia.
Qed.

Lemma try_map_length rs parts : try_map encode_record rs = Ok parts ->
  (8 * length rs <= length (concat parts))%nat /\ is_bytes (concat parts).
Proof.
  revert parts. induction rs as [|r rs IH]; intros parts He; simpl in He.
  - injection He as <-. split; [done|constructor].
  - apply bind_Ok in He as (b & Hb & He). apply bind_Ok in He as (bs & Hbs & [= <-]).
    apply IH in Hbs as [H1 H2]. apply encode_record_bytes in Hb as [H3 H4]. simpl. split.
    + rewrite length_app. lia.
    + apply is_bytes_app. done.
Qed.

Lemma encode_canonical_bytes t b : encode_canonical_transaction t = Ok b ->
  is_bytes b /\ (12 <= length b)%nat.
Proof.
  unfold encode_canonical_transaction. intros (n & Hn & He)%bind_Ok.
  apply bind_Ok in He as (parts & Hp & <-%Ok_inj). apply try_map_length in Hp as [_ Hp]. split.
  - rewrite !is_bytes_app. split_and!; auto using to_le_bytes. by repeat constructor.
  - rewrite !length_app, !length_to_le. simpl. lia.
Qed.

(** A decoded canonical payload is the list of records that was encoded. *)
Lemma decode_encode_transaction t b off :
  Forall typed_record (records t) -> encode_canonical_transaction t = Ok b -> is_u64 (len b) ->
  decode_transaction b (record_count t) off = Ok (records t).
Proof.
  intros Ht He Hlen. unfold encode_canonical_transaction in He.
  apply bind_Ok in He as (n & Hn%ok_or_Ok%u32_try_from_Some & He). destruct Hn as [-> Hn].
  apply bind_Ok in He as (parts & Hp & He).
  set (hd := TRANSACTION_MAGIC ++ to_le 2 TRANSACTION_VERSION ++ to_le 2 0 ++ to_le 4 (record_count t)).
  assert (b = hd ++ concat parts) as ->.
  { injection He as <-. unfold hd. by rewrite <- !app_assoc. }
  assert (Hhd : len hd = 12) by (unfold hd, zlen; by rewrite !length_app, !length_to_le).
  pose proof (try_map_length _ _ Hp) as [Hlong _].
  pose proof (decode_encode_records _ _ hd [] off Ht Hp) as Hd. rewrite app_nil_r in Hd.
  specialize (Hd Hlen). rewrite Hhd in Hd.
  assert (H1 : slice 0 4 (hd ++ concat parts) = TRANSACTION_MAGIC) by (unfold hd; by rewrite <- app_assoc).
  assert (H2 : from_le (slice 4 6 (hd ++ concat parts)) = TRANSACTION_VERSION).
  { unfold hd. rewrite <- !app_assoc. slices. by apply from_to_le_u16. }
  assert (H3 : slice 6 8 (hd ++ concat parts) = [0; 0]).
  { unfold hd. rewrite <- !app_assoc. by slices. }
  assert (H4 : from_le (slice 8 12 (hd ++ concat parts)) = record_count t).
  { unfold hd. rewrite <- !app_assoc. slices. by apply from_to_le_u32. }
  clearbody hd. unfold decode_transaction. rewrite H1, H2, H3, H4, !bytes_eqb_refl, !Z.eqb_refl.
  rewrite zlen_app, Hhd. cbn [negb orb].
  destruct (Z.ltb_spec (12 + len (concat parts)) 12) as [Hx|_]; [zlia|]. cbn [negb orb].
  destruct (Z.ltb_spec ((12 + len (concat parts) - 12) / 8) (record_count t)) as [Hx|_].
  { exfalso. apply Z.lt_nge in Hx. apply Hx. apply Z.div_le_lower_bound; [lia|].
    unfold record_count, zlen. lia. }
  unfold record_count at 1. rewrite zlen_nat, Hd. cbn [bind]. by rewrite Z.eqb_refl.
Qed.
End TransactionRoundTrip.

(** A decoded transaction has the number of records its frame announced. *)
Lemma decode_records_length `{RecordCodec} n payload cursor offset rs c :
  decode_records n payload cursor offset = Ok (rs, c) -> length rs = n.
Proof.
  revert cursor rs c. induction n as [|n IH]; intros cursor rs c E; simpl in E.
  - by injection E as <- <-.
  - apply bind_Ok in E as ([r c1] & _ & E). apply bind_Ok in E as ([rest c2] & E2 & [= <- <-]).
    simpl. f_equal. by eapply IH.
Qed.

Lemma decode_transaction_count `{RecordCodec} payload n offset rs :
  0 <= n -> decode_transaction payload n offset = Ok rs -> n = len rs.
Proof.
  intros Hn. unfold decode_transaction. destruct (_ || _); [done|]. destruct (negb _); [done|].
  destruct (negb _); [done|]. destruct (negb (from_le (slice 8 12 payload) =? n)) eqn:E; [done|].
  destruct (_ <? _) eqn:Eb; [done|]. intros ([rs' c] & Hd & Hr)%bind_Ok.
  destruct (negb (c =? _)); [done|]. injection Hr as <-. apply decode_records_length in Hd.
  apply negb_false_iff, Z.eqb_eq in E. unfold zlen. rewrite Hd, E. lia.
Qed.

Lemma decode_encoded_identity_index `{IndexCodecLaws} i b off :
  typed_identity_index i -> encoded_identity_index i = Ok b -> decode_identity_index b off = Ok i.
Proof.
  intros Ht. unfold encoded_identity_index. intros (e & He%ok_or_Ok & <-%Ok_inj)%bind_Ok.
  unfold decode_identity_index. rewrite take_app_length', drop_app_length', bytes_eqb_refl by done.
  by rewrite (from_to_stdvec i e Ht He).
Qed.
