(* ===== verification/Protocol.v ===== *)
(** * Protocol: the frames of [src/src/shadow_protocol.rs]

    The messages of version one of the sidecar protocol, their payload
    encodings, the checksummed frame around a payload and the reader of a
    frame from a byte stream. *)
From S2P Require Import Prelude Errors Bytes Float64 Model Utf8 Transaction Wire Codec.

Definition PROTOCOL_VERSION : Z := 1.
Definition FRAME_MAGIC : bytes := [70; 84; 87; 83].
Definition MAX_FRAME_BYTES : Z := 4 * 1024 * 1024.
Definition MAX_BATCH_POINTS : Z := 16384.
Definition MAX_METADATA_RECORDS : Z := 16384.
Definition MAX_QUEUE_ENTRIES : Z := 65536.
Definition MAX_PROPERTIES : Z := 1024.
Definition MAX_ROLLUP_TIERS : Z := 64.
Definition MAX_TEXT_BYTES : Z := 4096.
Definition HEADER_BYTES : Z := 12.
Definition CHECKSUM_BYTES : Z := 4.
Definition MAX_PAYLOAD_BYTES : Z := MAX_FRAME_BYTES - HEADER_BYTES - CHECKSUM_BYTES.
Definition MAX_KEY_BYTES : Z := 256.
Definition MAX_ERROR_TEXT_BYTES : Z := 512.
Definition HELLO_REQUEST : Z := 1.
Definition COMMIT_BATCH_REQUEST : Z := 2.
Definition FLUSH_REQUEST : Z := 3.
Definition HEALTH_REQUEST : Z := 4.
Definition HELLO_RESPONSE : Z := 128.
Definition ACK_RESPONSE : Z := 129.
Definition HEALTH_RESPONSE : Z := 130.
Definition ERROR_RESPONSE : Z := 131.

(** ** Messages *)

Record HelloRequest := mkHelloRequest {
  hello_source_id : Z;
  hello_node_id : rstring;
  hello_client_version : rstring;
  hello_capabilities : Z;
}.

Record HelloResponse := mkHelloResponse {
  selected_version : Z;
  session_id : bytes;
  server_time_micros : Z;
}.

Record CommitBatchRequest := mkBatch {
  batch_source_id : Z;
  batch_sequence : Z;
  batch_commit_id : Z;
  batch_entities : list Entity;
  batch_relations : list Relation;
  batch_series : list SeriesDefinition;
  batch_runs : list Run;
  batch_plans : list Plan;
  batch_points : list Point;
}.

Record FlushRequest := mkFlushRequest { flush_source_id : Z; through_sequence : Z }.
Record HealthRequest := mkHealthRequest { health_nonce : Z }.

Inductive AckKind := AckCommitBatch | AckFlush.

Record Ack := mkAck {
  ack_kind : AckKind;
  ack_source_id : Z;
  ack_sequence : Z;
  ack_commit_id : Z;
  ack_accepted_through_sequence : option Z;
  ack_durable_through_sequence : option Z;
  ack_durable : bool;
  ack_deduplicated : bool;
  ack_frame_offset : Z;
  ack_records : Z;
  ack_points : Z;
  ack_bytes_written : Z;
}.

Inductive HealthStatus := Healthy | Degraded | Unavailable.
Inductive SyncPolicy := SyncAlways | SyncManual | SyncEveryBytes (n : Z).

Record HealthResponse := mkHealth {
  h_nonce : Z;
  h_source_id : Z;
  h_status : HealthStatus;
  h_queue_entries : Z;
  h_accepted_through_sequence : option Z;
  h_durable_through_sequence : option Z;
  h_overload_count : Z;
  h_protocol_error_count : Z;
  h_database_bytes : Z;
  h_database_points : Z;
  h_database_commits : Z;
  h_recovered_tail_bytes : Z;
  h_sync_policy : SyncPolicy;
  h_last_ack_durable : bool;
}.

Inductive ErrorCode := InvalidRequest | Overloaded | Internal | Unsupported | IdempotencyConflict.

Record ErrorResponse := mkErrorResponse {
  error_code : ErrorCode;
  error_retryable : bool;
  error_message : rstring;
}.

Inductive Request :=
  | ReqHello (v : HelloRequest)
  | ReqCommitBatch (v : CommitBatchRequest)
  | ReqFlush (v : FlushRequest)
  | ReqHealth (v : HealthRequest).

Inductive Response :=
  | RespHello (v : HelloResponse)
  | RespAck (v : Ack)
  | RespHealth (v : HealthResponse)
  | RespError (v : ErrorResponse).

Inductive WireMessage :=
  | WireRequest (r : Request)
  | WireResponse (r : Response).

(** [transaction_from_batch]. *)
Definition transaction_from_batch (batch : CommitBatchRequest) : Transaction :=
  let add {A} (build : A -> Transaction -> Transaction) (l : list A) (t : Transaction) :=
    foldl (fun t x => build x t) t l in
  let t := add upsert_entity (batch_entities batch) Transaction_new in
  let t := add upsert_relation (batch_relations batch) t in
  let t := add define_series (batch_series batch) t in
  let t := add upsert_run (batch_runs batch) t in
  let t := add upsert_plan (batch_plans batch) t in
  match batch_points batch with [] => t | points => append_points points t end.

(** ** Enumerations *)

Definition series_semantics_byte (v : SeriesSemantics) : Z :=
  match v with Gauge => 1 | IntervalTotal => 2 | Counter => 3 | State => 4 | Event => 5 end.
Definition series_semantics_from (v : Z) : PResult SeriesSemantics :=
  if v =? 1 then inr Gauge else if v =? 2 then inr IntervalTotal else if v =? 3 then inr Counter
  else if v =? 4 then inr State else if v =? 5 then inr Event else enum_error "series semantics" v.

Definition calendar_unit_byte (v : CalendarUnit) : Z := match v with Day => 1 | Month => 2 | Year => 3 end.
Definition calendar_unit_from (v : Z) : PResult CalendarUnit :=
  if v =? 1 then inr Day else if v =? 2 then inr Month else if v =? 3 then inr Year
  else enum_error "calendar unit" v.

Definition run_kind_byte (v : RunKind) : Z :=
  match v with Forecast => 1 | Optimization => 2 | Import => 3 | Control => 4 | Reconciliation => 5 end.
Definition run_kind_from (v : Z) : PResult RunKind :=
  if v =? 1 then inr Forecast else if v =? 2 then inr Optimization else if v =? 3 then inr Import
  else if v =? 4 then inr Control else if v =? 5 then inr Reconciliation else enum_error "run kind" v.

Definition run_status_byte (v : RunStatus) : Z :=
  match v with Pending => 1 | Running => 2 | Succeeded => 3 | Failed => 4 | RunCancelled => 5 end.
Definition run_status_from (v : Z) : PResult RunStatus :=
  if v =? 1 then inr Pending else if v =? 2 then inr Running else if v =? 3 then inr Succeeded
  else if v =? 4 then inr Failed else if v =? 5 then inr RunCancelled else enum_error "run status" v.

Definition plan_status_byte (v : PlanStatus) : Z :=
  match v with Candidate => 1 | Approved => 2 | Deployed => 3 | Superseded => 4 | PlanCancelled => 5 end.
Definition plan_status_from (v : Z) : PResult PlanStatus :=
  if v =? 1 then inr Candidate else if v =? 2 then inr Approved else if v =? 3 then inr Deployed
  else if v =? 4 then inr Superseded else if v =? 5 then inr PlanCancelled else enum_error "plan status" v.

Definition status_byte (v : HealthStatus) : Z := match v with Healthy => 1 | Degraded => 2 | Unavailable => 3 end.
Definition status_from (v : Z) : PResult HealthStatus :=
  if v =? 1 then inr Healthy else if v =? 2 then inr Degraded else if v =? 3 then inr Unavailable
  else enum_error "health status" v.

Definition error_byte (v : ErrorCode) : Z :=
  match v with
  | InvalidRequest => 1 | Overloaded => 2 | Internal => 3 | Unsupported => 4 | IdempotencyConflict => 5
  end.
Definition error_from (v : Z) : PResult ErrorCode :=
  if v =? 1 then inr InvalidRequest else if v =? 2 then inr Overloaded else if v =? 3 then inr Internal
  else if v =? 4 then inr Unsupported else if v =? 5 then inr IdempotencyConflict
  else enum_error "error code" v.

(** The match of [ACK_RESPONSE] on the kind. *)
Definition ack_kind_byte (v : AckKind) : Z := match v with AckCommitBatch => 1 | AckFlush => 2 end.
Definition ack_kind_from (v : Z) : PResult AckKind :=
  if v =? 1 then inr AckCommitBatch else if v =? 2 then inr AckFlush else enum_error "ack kind" v.

(** [i.u8()?] through one of the functions above. *)
Definition r_enum {A} (from : Z -> PResult A) : Reader A := read v := r_u8 in r_lift (from v).

Definition put_sync_policy (v : SyncPolicy) : PResult bytes :=
  match v with
  | SyncAlways => inr ([1] ++ put_u64 0)
  | SyncManual => inr ([2] ++ put_u64 0)
  | SyncEveryBytes n => if n =? 0 then inl (InvalidField "sync every-bytes") else inr ([3] ++ put_u64 n)
  end.
Definition sync_policy_from : Reader SyncPolicy :=
  read v := r_u8 in
  if v =? 1 then
    read n := r_u64 in
    if negb (n =? 0) then r_fail (InvalidField "sync every-bytes") else r_ret SyncAlways
  else if v =? 2 then
    read n := r_u64 in
    if negb (n =? 0) then r_fail (InvalidField "sync every-bytes") else r_ret SyncManual
  else if v =? 3 then
    read n := r_u64 in
    if n =? 0 then r_fail (InvalidField "sync every-bytes") else r_ret (SyncEveryBytes n)
  else r_lift (enum_error "sync policy" v).

(** ** Metadata records *)

(** The match on the value of [encode_properties]. *)
Definition encode_property (v : PropertyValue) : PResult bytes :=
  match v with
  | PvNull => inr [0]
  | PvBool b => inr [1; Z.b2z b]
  | PvInteger z => inr ([2] ++ put_i64 z)
  | PvFloat x => let! b := put_f64 "property float" x in inr ([3] ++ b)
  | PvText s => let! b := put_text MAX_TEXT_BYTES "property text" s in inr ([4] ++ b)
  end.
Definition decode_property : Reader PropertyValue :=
  read v := r_u8 in
  if v =? 0 then r_ret PvNull
  else if v =? 1 then read b := r_boolean "property bool" in r_ret (PvBool b)
  else if v =? 2 then read z := r_i64 in r_ret (PvInteger z)
  else if v =? 3 then read x := r_f64 "property float" in r_ret (PvFloat x)
  else if v =? 4 then read s := r_text MAX_TEXT_BYTES "property text" in r_ret (PvText s)
  else r_lift (enum_error "property value" v).

(** The two [BTreeMap] encodings share their loop. *)
Definition encode_map {V} (too_many key_field : string) (encode_value : V -> PResult bytes)
    (values : gmap rstring V) : PResult bytes :=
  let n := Z.of_nat (size values) in
  let! _ := p_reject (MAX_PROPERTIES <? n) (InvalidField too_many) in
  p_concat [inr (put_u32 n);
            p_concat (map (fun '(k, v) => p_concat [put_string MAX_KEY_BYTES key_field k; encode_value v])
                          (btree_entries values))].
Definition decode_map {V} (count_field key_field keys_field : string) (value : Reader V) : Reader (gmap rstring V) :=
  read n := r_count MAX_PROPERTIES count_field in
  r_entries (Z.to_nat n) MAX_KEY_BYTES key_field keys_field value None ∅.

Definition encode_properties : Properties -> PResult bytes :=
  encode_map "too many properties" "property key" encode_property.
Definition decode_properties : Reader Properties :=
  decode_map "property count" "property key" "property keys" decode_property.

Definition encode_entity (v : Entity) : PResult bytes :=
  p_concat [inr (put_u128 (entity_id v));
            put_string MAX_KEY_BYTES "entity kind" (entity_kind v);
            put_string MAX_TEXT_BYTES "entity name" (entity_name v);
            inr (put_option_u128 (entity_parent v));
            inr (put_i64 (entity_valid_from v));
            inr (put_option_i64 (entity_valid_to v));
            encode_properties (entity_properties v)].
Definition decode_entity : Reader Entity :=
  read id := r_u128 in
  read kind := r_string MAX_KEY_BYTES "entity kind" in
  read name := r_string MAX_TEXT_BYTES "entity name" in
  read parent := r_option_u128 "entity parent" in
  read valid_from := r_i64 in
  read valid_to := r_option_i64 "entity valid_to" in
  read properties := decode_properties in
  r_ret (mkEntity id kind name parent valid_from valid_to properties).

Definition encode_relation (v : Relation) : PResult bytes :=
  p_concat [inr (put_u128 (relation_id v));
            put_string MAX_KEY_BYTES "relation kind" (relation_kind v);
            inr (put_u128 (relation_source v));
            inr (put_u128 (relation_target v));
            inr (put_i64 (relation_valid_from v));
            inr (put_option_i64 (relation_valid_to v));
            encode_properties (relation_properties v)].
Definition decode_relation : Reader Relation :=
  read id := r_u128 in
  read kind := r_string MAX_KEY_BYTES "relation kind" in
  read source := r_u128 in
  read target := r_u128 in
  read valid_from := r_i64 in
  read valid_to := r_option_i64 "relation valid_to" in
  read properties := decode_properties in
  r_ret (mkRelation id kind source target valid_from valid_to properties).

Definition encode_resolution (v : RollupResolution) : PResult bytes :=
  match v with
  | FixedMicros micros => inr ([1] ++ put_i64 micros)
  | Calendar unit tz =>
      let! b := put_string MAX_KEY_BYTES "IANA timezone" tz in inr ([2; calendar_unit_byte unit] ++ b)
  end.
Definition decode_resolution : Reader RollupResolution :=
  read v := r_u8 in
  if v =? 1 then read micros := r_i64 in r_ret (FixedMicros micros)
  else if v =? 2 then
    read unit := r_enum calendar_unit_from in
    read tz := r_string MAX_KEY_BYTES "IANA timezone" in
    r_ret (Calendar unit tz)
  else r_lift (enum_error "rollup resolution" v).

(** The bodies of the loops over the tiers. *)
Definition encode_tier (v : RollupTier) : PResult bytes :=
  p_concat [encode_resolution (tier_resolution v); inr (put_option_i64 (tier_retain_for_micros v))].
Definition decode_tier : Reader RollupTier :=
  read resolution := decode_resolution in
  read retain := r_option_i64 "tier retention" in
  r_ret (mkTier resolution retain).

Definition encode_rollup_policy (v : RollupPolicy) : PResult bytes :=
  let! _ := p_reject (MAX_ROLLUP_TIERS <? len (policy_tiers v)) (InvalidField "too many rollup tiers") in
  p_concat [inr (put_option_i64 (policy_raw_retain_for_micros v));
            inr (put_u32 (len (policy_tiers v)));
            p_concat (map encode_tier (policy_tiers v))].
Definition decode_rollup_policy : Reader RollupPolicy :=
  read raw := r_option_i64 "raw retention" in
  read count := r_count MAX_ROLLUP_TIERS "rollup tier count" in
  read tiers := r_repeat (Z.to_nat count) decode_tier in
  r_ret (mkPolicy raw tiers).

Section SeriesCodec.
Context `{TimeZones}.

Definition encode_series (v : SeriesDefinition) : PResult bytes :=
  let! _ := p_valid (SeriesDefinition_validate v) in
  p_concat [inr (put_u64 (series_id v));
            inr (put_option_u128 (series_owner_entity v));
            inr (put_option_u128 (series_owner_relation v));
            put_string MAX_KEY_BYTES "series name" (series_name v);
            put_string MAX_KEY_BYTES "physical quantity" (series_physical_quantity v);
            put_string MAX_KEY_BYTES "canonical unit" (series_canonical_unit v);
            inr [series_semantics_byte (series_semantics v)];
            inr (put_option_i64 (series_maximum_gap_micros v));
            encode_rollup_policy (series_rollup_policy v)].
Definition decode_series : Reader SeriesDefinition :=
  read id := r_u64 in
  read owner_entity := r_option_u128 "owner entity" in
  read owner_relation := r_option_u128 "owner relation" in
  read name := r_string MAX_KEY_BYTES "series name" in
  read quantity := r_string MAX_KEY_BYTES "physical quantity" in
  read canonical := r_string MAX_KEY_BYTES "canonical unit" in
  read semantics := r_enum series_semantics_from in
  read gap := r_option_i64 "maximum gap" in
  read policy := decode_rollup_policy in
  let v := mkSeries id owner_entity owner_relation name quantity canonical semantics gap policy in
  read _ := r_lift (p_valid (SeriesDefinition_validate v)) in
  r_ret v.

End SeriesCodec.

Definition encode_run (v : Run) : PResult bytes :=
  p_concat [inr (put_u128 (run_id v));
            inr [run_kind_byte (run_kind v)];
            inr [run_status_byte (run_status v)];
            inr (put_i64 (run_created_at v));
            inr (put_i64 (run_knowledge_time v));
            put_string MAX_TEXT_BYTES "workflow" (run_workflow v);
            put_text MAX_TEXT_BYTES "model" (run_model v);
            put_text MAX_TEXT_BYTES "model version" (run_model_version v);
            inr (put_option_u128 (run_parent_run v));
            inr (put_option_u128 (run_input_snapshot v));
            encode_properties (run_attributes v)].
Definition decode_run : Reader Run :=
  read id := r_u128 in
  read kind := r_enum run_kind_from in
  read status := r_enum run_status_from in
  read created_at := r_i64 in
  read knowledge := r_i64 in
  read workflow := r_string MAX_TEXT_BYTES "workflow" in
  read model := r_text MAX_TEXT_BYTES "model" in
  read model_version := r_text MAX_TEXT_BYTES "model version" in
  read parent_run := r_option_u128 "parent run" in
  read input_snapshot := r_option_u128 "input snapshot" in
  read attributes := decode_properties in
  r_ret (mkRun id kind status created_at knowledge workflow model model_version parent_run
               input_snapshot attributes).

Definition encode_plan (v : Plan) : PResult bytes :=
  let! _ := p_valid (Plan_validate v) in
  p_concat [inr (put_u128 (plan_id v));
            inr (put_u128 (plan_run_id v));
            inr [plan_status_byte (plan_status v)];
            inr (put_i64 (plan_horizon_start v));
            inr (put_i64 (plan_horizon_end v));
            inr (put_i64 (plan_resolution_micros v));
            put_string MAX_TEXT_BYTES "scenario" (plan_scenario v);
            encode_map "too many objective terms" "objective key" (put_f64 "objective value")
              (plan_objective_terms v);
            put_option_f64 "objective value" (plan_objective_value v);
            inr (put_option_u128 (plan_supersedes v));
            encode_properties (plan_attributes v)].
Definition decode_plan : Reader Plan :=
  read id := r_u128 in
  read run := r_u128 in
  read status := r_enum plan_status_from in
  read horizon_start := r_i64 in
  read horizon_end := r_i64 in
  read resolution := r_i64 in
  read scenario := r_string MAX_TEXT_BYTES "scenario" in
  read terms := decode_map "objective term count" "objective key" "objective keys" (r_f64 "objective value") in
  read objective := r_option_f64 "objective value" in
  read supersedes := r_option_u128 "supersedes" in
  read attributes := decode_properties in
  let v := mkPlan id run status horizon_start horizon_end resolution scenario terms objective
                  supersedes attributes in
  read _ := r_lift (p_valid (Plan_validate v)) in
  r_ret v.

(** ** Points *)

(** [point]. *)
Definition put_point (p : Point) : bytes :=
  put_u64 (series p) ++ put_i64 (valid_time p) ++ put_i64 (valid_time_end p)
  ++ put_i64 (knowledge_time p) ++ put_i64 (change_time p) ++ put_u128 (point_run_id p)
  ++ put_u64 (value p) ++ put_u32 (quality p) ++ put_u32 (flags p).
Definition r_point : Reader Point :=
  read s := r_u64 in
  read start := r_i64 in
  read stop := r_i64 in
  read known := r_i64 in
  read changed := r_i64 in
  read run := r_u128 in
  read v := r_u64 in
  read q := r_u32 in
  read f := r_u32 in
  r_ret (mkPoint s start stop known changed run v q f).

(** [Input::points]; [n * 72] does not overflow after the bound on [n]. *)
Definition r_points : Reader (list Point) :=
  read n := r_u32 in
  if MAX_BATCH_POINTS <? n then r_fail (InvalidField "too many points")
  else fun i =>
    if negb (Z.of_nat (remaining i) =? n * 72) then inl (InvalidField "point payload length")
    else r_repeat (Z.to_nat n) r_point i.

(** [decode_collection]: the records and what is left of the budget. *)
Definition decode_collection {T} (budget : Z) (decode : Reader T) : Reader (list T * Z) :=
  read count := r_count budget "metadata record count" in
  read values := r_repeat (Z.to_nat count) decode in
  r_ret (values, budget - count).

(** ** Payloads *)

Section Frames.
Context `{TimeZones} `{Crc}.

(** The first failing [validate] of a list. *)
Fixpoint validate_each {A} (validate : A -> option string) (l : list A) : PResult unit :=
  match l with
  | [] => inr tt
  | x :: t => let! _ := p_valid (validate x) in validate_each validate t
  end.

Definition point_invalid (p : Point) : bool :=
  (series p =? 0) || (valid_time_end p <? valid_time p) || negb (f64_is_finite (value p)).

Definition metadata_records (v : CommitBatchRequest) : Z :=
  len (batch_entities v) + len (batch_relations v) + len (batch_series v) + len (batch_runs v)
  + len (batch_plans v).

Definition validate_batch (v : CommitBatchRequest) : PResult unit :=
  let! _ := p_reject (batch_source_id v =? 0) (InvalidField "source_id") in
  let meta := metadata_records v in
  let! _ := p_reject (MAX_METADATA_RECORDS <? meta) (InvalidField "too many metadata records") in
  let! _ := p_reject (MAX_BATCH_POINTS <? len (batch_points v)) (InvalidField "too many points") in
  let! _ := p_reject ((meta =? 0) && (len (batch_points v) =? 0)) (InvalidField "empty transaction") in
  let! _ := validate_each SeriesDefinition_validate (batch_series v) in
  let! _ := validate_each Plan_validate (batch_plans v) in
  p_reject (existsb point_invalid (batch_points v)) (InvalidField "invalid point").

(** [put_u32(o, l.len() as u32); for value in l { encode(o, value)? }]. *)
Definition put_collection {T} (encode : T -> PResult bytes) (l : list T) : PResult bytes :=
  p_concat [inr (put_u32 (len l mod 2 ^ 32)); p_concat (map encode l)].

Definition encode_batch (v : CommitBatchRequest) : PResult bytes :=
  let! _ := validate_batch v in
  p_concat [inr (put_u128 (batch_source_id v));
            inr (put_u64 (batch_sequence v));
            inr (put_u128 (batch_commit_id v));
            put_collection encode_entity (batch_entities v);
            put_collection encode_relation (batch_relations v);
            put_collection encode_series (batch_series v);
            put_collection encode_run (batch_runs v);
            put_collection encode_plan (batch_plans v);
            put_collection (fun p => inr (put_point p)) (batch_points v)].

Definition encode_health (v : HealthResponse) : PResult bytes :=
  let! _ := p_reject (MAX_QUEUE_ENTRIES <? h_queue_entries v) (InvalidField "queue_entries") in
  let! _ := p_reject (h_source_id v =? 0) (InvalidField "source_id") in
  p_concat [inr (put_u64 (h_nonce v));
            inr (put_u128 (h_source_id v));
            inr [status_byte (h_status v)];
            inr (put_u32 (h_queue_entries v));
            inr (put_watermark (h_accepted_through_sequence v));
            inr (put_watermark (h_durable_through_sequence v));
            inr (put_u64 (h_overload_count v));
            inr (put_u64 (h_protocol_error_count v));
            inr (put_u64 (h_database_bytes v));
            inr (put_u64 (h_database_points v));
            inr (put_u64 (h_database_commits v));
            inr (put_u64 (h_recovered_tail_bytes v));
            put_sync_policy (h_sync_policy v);
            inr [Z.b2z (h_last_ack_durable v)]].

(** The message type of [encode_payload] and the bytes it writes. *)
Definition message_kind (m : WireMessage) : Z :=
  match m with
  | WireRequest (ReqHello _) => HELLO_REQUEST
  | WireRequest (ReqCommitBatch _) => COMMIT_BATCH_REQUEST
  | WireRequest (ReqFlush _) => FLUSH_REQUEST
  | WireRequest (ReqHealth _) => HEALTH_REQUEST
  | WireResponse (RespHello _) => HELLO_RESPONSE
  | WireResponse (RespAck _) => ACK_RESPONSE
  | WireResponse (RespHealth _) => HEALTH_RESPONSE
  | WireResponse (RespError _) => ERROR_RESPONSE
  end.

Definition encode_payload (m : WireMessage) : PResult bytes :=
  match m with
  | WireRequest (ReqHello v) =>
      let! _ := p_reject (hello_source_id v =? 0) (InvalidField "source_id") in
      p_concat [inr (put_u128 (hello_source_id v));
                put_string 128 "node_id" (hello_node_id v);
                put_string 64 "client_version" (hello_client_version v);
                inr (put_u64 (hello_capabilities v))]
  | WireRequest (ReqCommitBatch v) => encode_batch v
  | WireRequest (ReqFlush v) =>
      let! _ := p_reject (flush_source_id v =? 0) (InvalidField "source_id") in
      p_concat [inr (put_u128 (flush_source_id v)); inr (put_u64 (through_sequence v))]
  | WireRequest (ReqHealth v) => inr (put_u64 (health_nonce v))
  | WireResponse (RespHello v) =>
      let! _ := p_reject (negb (selected_version v =? PROTOCOL_VERSION))
                         (ProtoUnsupportedVersion (selected_version v)) in
      p_concat [inr (put_u16 (selected_version v)); inr (session_id v); inr (put_i64 (server_time_micros v))]
  | WireResponse (RespAck v) =>
      let! _ := p_reject (ack_source_id v =? 0) (InvalidField "source_id") in
      p_concat [inr [ack_kind_byte (ack_kind v)];
                inr (put_u128 (ack_source_id v));
                inr (put_u64 (ack_sequence v));
                inr (put_u128 (ack_commit_id v));
                inr (put_watermark (ack_accepted_through_sequence v));
                inr (put_watermark (ack_durable_through_sequence v));
                inr [Z.b2z (ack_durable v)];
                inr [Z.b2z (ack_deduplicated v)];
                inr (put_u64 (ack_frame_offset v));
                inr (put_u32 (ack_records v));
                inr (put_u32 (ack_points v));
                inr (put_u64 (ack_bytes_written v))]
  | WireResponse (RespHealth v) => encode_health v
  | WireResponse (RespError v) =>
      p_concat [inr [error_byte (error_code v)];
                inr [Z.b2z (error_retryable v)];
                put_string MAX_ERROR_TEXT_BYTES "error message" (error_message v)]
  end.

Definition decode_hello_request : Reader HelloRequest :=
  read source := r_u128 in
  read node := r_string 128 "node_id" in
  read version := r_string 64 "client_version" in
  read capabilities := r_u64 in
  r_ret (mkHelloRequest source node version capabilities).

Definition decode_batch : Reader CommitBatchRequest :=
  read source := r_u128 in
  read seq := r_u64 in
  read commit := r_u128 in
  read (entities, budget) := decode_collection MAX_METADATA_RECORDS decode_entity in
  read (relations, budget) := decode_collection budget decode_relation in
  read (series, budget) := decode_collection budget decode_series in
  read (runs, budget) := decode_collection budget decode_run in
  read (plans, budget) := decode_collection budget decode_plan in
  read points := r_points in
  let v := mkBatch source seq commit entities relations series runs plans points in
  read _ := r_lift (validate_batch v) in
  r_ret v.

Definition decode_hello_response : Reader HelloResponse :=
  read version := r_u16 in
  if negb (version =? PROTOCOL_VERSION) then r_fail (ProtoUnsupportedVersion version) else
  read session := r_take 16 in
  read time := r_i64 in
  r_ret (mkHelloResponse version session time).

Definition decode_ack : Reader Ack :=
  read kind := r_enum ack_kind_from in
  read source := r_u128 in
  read seq := r_u64 in
  read commit := r_u128 in
  read accepted := r_watermark "accepted watermark" in
  read durable_through := r_watermark "durable watermark" in
  read durable := r_boolean "durable" in
  read deduplicated := r_boolean "deduplicated" in
  read offset := r_u64 in
  read records := r_u32 in
  read points := r_u32 in
  read written := r_u64 in
  r_ret (mkAck kind source seq commit accepted durable_through durable deduplicated offset records
               points written).

(** The fields added after the first release, absent from a short payload. *)
Definition decode_health_tail (short : HealthResponse) : Reader HealthResponse :=
  read overloads := r_u64 in
  read errors := r_u64 in
  read db_bytes := r_u64 in
  read db_points := r_u64 in
  read db_commits := r_u64 in
  read tail_bytes := r_u64 in
  read policy := sync_policy_from in
  read last := r_boolean "last_ack_durable" in
  r_ret (mkHealth (h_nonce short) (h_source_id short) (h_status short) (h_queue_entries short)
           (h_accepted_through_sequence short) (h_durable_through_sequence short)
           overloads errors db_bytes db_points db_commits tail_bytes policy last).

Definition decode_health : Reader HealthResponse :=
  read nonce := r_u64 in
  read source := r_u128 in
  read status := r_enum status_from in
  read queue := r_u32 in
  read accepted := r_watermark "accepted watermark" in
  read durable := r_watermark "durable watermark" in
  let short := mkHealth nonce source status queue accepted durable 0 0 0 0 0 0 SyncAlways false in
  read v := (fun i => if (0 <? remaining i)%nat then decode_health_tail short i else inr (short, i)) in
  if MAX_QUEUE_ENTRIES <? h_queue_entries v then r_fail (InvalidField "queue_entries") else r_ret v.

Definition decode_error : Reader ErrorResponse :=
  read code := r_enum error_from in
  read retryable := r_boolean "retryable" in
  read message := r_string MAX_ERROR_TEXT_BYTES "error message" in
  r_ret (mkErrorResponse code retryable message).

Definition r_map {A B} (f : A -> B) (m : Reader A) : Reader B := read x := m in r_ret (f x).

(** The match of [decode_payload] on the message type. *)
Definition decode_message (kind : Z) : Reader WireMessage :=
  if kind =? HELLO_REQUEST then r_map (fun v => WireRequest (ReqHello v)) decode_hello_request
  else if kind =? COMMIT_BATCH_REQUEST then r_map (fun v => WireRequest (ReqCommitBatch v)) decode_batch
  else if kind =? FLUSH_REQUEST then
    read source := r_u128 in
    read through := r_u64 in
    r_ret (WireRequest (ReqFlush (mkFlushRequest source through)))
  else if kind =? HEALTH_REQUEST then r_map (fun v => WireRequest (ReqHealth (mkHealthRequest v))) r_u64
  else if kind =? HELLO_RESPONSE then r_map (fun v => WireResponse (RespHello v)) decode_hello_response
  else if kind =? ACK_RESPONSE then r_map (fun v => WireResponse (RespAck v)) decode_ack
  else if kind =? HEALTH_RESPONSE then r_map (fun v => WireResponse (RespHealth v)) decode_health
  else if kind =? ERROR_RESPONSE then r_map (fun v => WireResponse (RespError v)) decode_error
  else r_fail UnreachableCode.

(** The match of [decode_payload] on the decoded message. *)
Definition source_id_missing (m : WireMessage) : bool :=
  match m with
  | WireRequest (ReqHello v) => hello_source_id v =? 0
  | WireRequest (ReqFlush v) => flush_source_id v =? 0
  | WireResponse (RespAck v) => ack_source_id v =? 0
  | WireResponse (RespHealth v) => h_source_id v =? 0
  | _ => false
  end.

Definition decode_payload (kind : Z) (b : bytes) : PResult WireMessage :=
  let! (m, i) := decode_message kind (mkInput b 0) in
  let! _ := p_reject (source_id_missing m) (InvalidField "source_id") in
  let! _ := finish i in
  inr m.

(** ** Frames *)

Definition validate_kind (kind : Z) : PResult unit :=
  if existsb (Z.eqb kind)
       [HELLO_REQUEST; COMMIT_BATCH_REQUEST; FLUSH_REQUEST; HEALTH_REQUEST; HELLO_RESPONSE;
        ACK_RESPONSE; HEALTH_RESPONSE; ERROR_RESPONSE]
  then inr tt else inl (UnknownMessageType kind).

Definition too_large (payload : Z) : ProtocolError :=
  FrameTooLarge (Z.min (payload + (HEADER_BYTES + CHECKSUM_BYTES)) usize_max) MAX_FRAME_BYTES.

(** Everything of a frame but its checksum. *)
Definition frame_body (kind : Z) (payload : bytes) : bytes :=
  FRAME_MAGIC ++ put_u16 PROTOCOL_VERSION ++ [kind] ++ [0] ++ put_u32 (len payload) ++ payload.

Definition encode (m : WireMessage) : PResult bytes :=
  let! payload := encode_payload m in
  if MAX_PAYLOAD_BYTES <? len payload then inl (too_large (len payload)) else
  let frame := frame_body (message_kind m) payload in
  inr (frame ++ put_u32 (hash frame)).

(** A payload length of 32 bits does not overflow [usize]. *)
Definition parse_header (frame : bytes) : PResult (Z * Z) :=
  if len frame <? HEADER_BYTES then inl (Truncated HEADER_BYTES (len frame)) else
  if negb (bool_decide (slice 0 4 frame = FRAME_MAGIC)) then inl InvalidMagic else
  let version := from_be (slice 4 6 frame) in
  if negb (version =? PROTOCOL_VERSION) then inl (ProtoUnsupportedVersion version) else
  let kind := nth 6 frame 0 in
  let! _ := validate_kind kind in
  if negb (nth 7 frame 0 =? 0) then inl (ReservedBitsSet (nth 7 frame 0)) else
  let payload := from_be (slice 8 12 frame) in
  let total := HEADER_BYTES + payload + CHECKSUM_BYTES in
  if MAX_FRAME_BYTES <? total then inl (too_large payload) else inr (kind, total).

Definition decode (frame : bytes) : PResult WireMessage :=
  let! (kind, total) := parse_header frame in
  if len frame <? total then inl (Truncated total (len frame)) else
  if total <? len frame then inl (TrailingBytes (len frame - total)) else
  let body := Z.to_nat (total - CHECKSUM_BYTES) in
  let actual := from_be (slice body (Z.to_nat total) frame) in
  let expected := hash (take body frame) in
  if negb (actual =? expected) then inl (ChecksumMismatch expected actual) else
  decode_payload kind (slice (Z.to_nat HEADER_BYTES) body frame).

(** ** Reading from a stream *)

(** What the successive calls of [Read::read] have to offer: some bytes, of
    which a call takes as many as fit its buffer, an interrupted call or
    another error.  After the last event a call returns [Ok(0)]. *)
Inductive ReadEvent :=
  | Arrived (b : bytes)
  | Interrupted
  | ReadFailed (kind : string).

Fixpoint read_exact (base want : nat) (got : bytes) (events : list ReadEvent) : PResult (bytes * list ReadEvent) :=
  let short := Truncated (Z.of_nat (base + want)) (Z.of_nat (base + length got)) in
  if (length got <? want)%nat then
    match events with
    | [] => inl short
    | Interrupted :: events => read_exact base want got events
    | ReadFailed kind :: _ => inl (ProtoIo kind)
    | Arrived b :: events' =>
        let room := (want - length got)%nat in
        if (length b =? 0)%nat then inl short
        else if (length b <=? room)%nat then read_exact base want (got ++ b) events'
        else inr (got ++ take room b, Arrived (drop room b) :: events')
    end
  else inr (got, events).

Definition read_from (events : list ReadEvent) : PResult (WireMessage * list ReadEvent) :=
  let! (header, events) := read_exact 0 (Z.to_nat HEADER_BYTES) [] events in
  let! (_, total) := parse_header header in
  let! (tail, events) := read_exact (Z.to_nat HEADER_BYTES) (Z.to_nat (total - HEADER_BYTES)) [] events in
  let! m := decode (header ++ tail) in
  inr (m, events).

End Frames.
