(* ===== verification/ProtocolInv.v ===== *)
(** * ProtocolInv: what a frame says is what its reader hears

    Every message that can be encoded is decoded to itself, from a slice and
    from a stream however the stream is cut; and a frame that decodes to a
    commit batch is the frame [encode] writes for it. *)
From S2P Require Import Prelude Errors Bytes Float64 Model Utf8 Transaction Wire Codec Protocol.

(** ** Well-typed messages *)

Definition typed_batch (v : CommitBatchRequest) : Prop :=
  is_u128 (batch_source_id v) /\ is_u64 (batch_sequence v) /\ is_u128 (batch_commit_id v)
  /\ Forall typed_entity (batch_entities v) /\ Forall typed_relation (batch_relations v)
  /\ Forall typed_series (batch_series v) /\ Forall typed_run (batch_runs v)
  /\ Forall typed_plan (batch_plans v) /\ Forall typed_point (batch_points v).

Definition typed_ack (v : Ack) : Prop :=
  is_u128 (ack_source_id v) /\ is_u64 (ack_sequence v) /\ is_u128 (ack_commit_id v)
  /\ typed_opt is_u64 (ack_accepted_through_sequence v)
  /\ typed_opt is_u64 (ack_durable_through_sequence v) /\ is_u64 (ack_frame_offset v)
  /\ is_u32 (ack_records v) /\ is_u32 (ack_points v) /\ is_u64 (ack_bytes_written v).

Definition typed_policy (v : SyncPolicy) : Prop := match v with SyncEveryBytes n => is_u64 n | _ => True end.

Definition typed_health (v : HealthResponse) : Prop :=
  is_u64 (h_nonce v) /\ is_u128 (h_source_id v) /\ is_u32 (h_queue_entries v)
  /\ typed_opt is_u64 (h_accepted_through_sequence v) /\ typed_opt is_u64 (h_durable_through_sequence v)
  /\ is_u64 (h_overload_count v) /\ is_u64 (h_protocol_error_count v) /\ is_u64 (h_database_bytes v)
  /\ is_u64 (h_database_points v) /\ is_u64 (h_database_commits v)
  /\ is_u64 (h_recovered_tail_bytes v) /\ typed_policy (h_sync_policy v).

Definition typed_message (m : WireMessage) : Prop :=
  match m with
  | WireRequest (ReqHello v) =>
      is_u128 (hello_source_id v) /\ typed_string (hello_node_id v)
      /\ typed_string (hello_client_version v) /\ is_u64 (hello_capabilities v)
  | WireRequest (ReqCommitBatch v) => typed_batch v
  | WireRequest (ReqFlush v) => is_u128 (flush_source_id v) /\ is_u64 (through_sequence v)
  | WireRequest (ReqHealth v) => is_u64 (health_nonce v)
  | WireResponse (RespHello v) =>
      is_u16 (selected_version v) /\ is_bytes (session_id v) /\ length (session_id v) = 16%nat
      /\ is_i64 (server_time_micros v)
  | WireResponse (RespAck v) => typed_ack v
  | WireResponse (RespHealth v) => typed_health v
  | WireResponse (RespError v) => typed_string (error_message v)
  end.

(** ** Readers of records *)

(** One field of a record: what its writer appends, its reader takes. *)
Lemma reads_concat {A B} e l b (m : Reader A) (k : A -> Reader B) a r :
  p_concat (e :: l) = inr b -> (forall x, e = inr x -> reads m x a) ->
  (forall y, p_concat l = inr y -> reads (k a) y r) -> reads (r_bind m k) b r.
Proof.
  intros Hb Hm Hk. apply p_concat_cons in Hb as (x & y & Hx & Hy & ->). eapply reads_bind; eauto.
Qed.

Lemma reads_end {A} b (a : A) : p_concat [] = inr b -> reads (r_ret a) b a.
Proof. intros [= <-]. apply reads_ret. Qed.

Lemma reads_enum {A} (from : Z -> PResult A) z a : from z = inr a -> reads (r_enum from) [z] a.
Proof. intros Hf. unfold r_enum. eapply reads_then; [apply reads_u8|]. by apply reads_lift. Qed.

(** A record is read as soon as its validation accepts it. *)
Lemma reads_checked {A} b (c : PResult unit) (a : A) :
  p_concat [] = inr b -> c = inr tt -> reads (read _ := r_lift c in r_ret a) b a.
Proof. intros [= <-] ->. apply reads_ret. Qed.

Lemma p_valid_bind {B} o (k : PResult B) b :
  (let! _ := p_valid o in k) = inr b -> p_valid o = inr tt /\ k = inr b.
Proof. destruct o; [done|]. by split. Qed.

Lemma p_reject_bind {B} c e (k : PResult B) b :
  (let! _ := p_reject c e in k) = inr b -> c = false /\ k = inr b.
Proof. destruct c; [done|]. by split. Qed.

(** The bytes of the enumerations. *)
Lemma reads_semantics v : reads (r_enum series_semantics_from) [series_semantics_byte v] v.
Proof. apply reads_enum. by destruct v. Qed.
Lemma reads_unit v : reads (r_enum calendar_unit_from) [calendar_unit_byte v] v.
Proof. apply reads_enum. by destruct v. Qed.
Lemma reads_run_kind v : reads (r_enum run_kind_from) [run_kind_byte v] v.
Proof. apply reads_enum. by destruct v. Qed.
Lemma reads_run_status v : reads (r_enum run_status_from) [run_status_byte v] v.
Proof. apply reads_enum. by destruct v. Qed.
Lemma reads_plan_status v : reads (r_enum plan_status_from) [plan_status_byte v] v.
Proof. apply reads_enum. by destruct v. Qed.
Lemma reads_status v : reads (r_enum status_from) [status_byte v] v.
Proof. apply reads_enum. by destruct v. Qed.
Lemma reads_error v : reads (r_enum error_from) [error_byte v] v.
Proof. apply reads_enum. by destruct v. Qed.
Lemma reads_ack_kind v : reads (r_enum ack_kind_from) [ack_kind_byte v] v.
Proof. apply reads_enum. by destruct v. Qed.

Create HintDb wire.
#[export] Hint Resolve reads_semantics reads_unit reads_run_kind reads_run_status reads_plan_status reads_status
  reads_error reads_ack_kind : wire.
#[export] Hint Resolve reads_u8 reads_u16 reads_u32 reads_u64 reads_u128 reads_i64 reads_boolean
  reads_option_u128 reads_option_i64 reads_watermark reads_f64 reads_option_f64 reads_string reads_text
  : wire.

(** Reads one field after another; what is left are the side conditions. *)
Ltac field :=
  first [ intros ? [= <-]; solve [eauto with wire]
        | intros ? ?; solve [eauto with wire] ].
Ltac fields H :=
  repeat (eapply reads_concat; [exact H | field | clear H; intros ? H]).

Lemma reads_property v b : encode_property v = inr b -> typed_property v -> reads decode_property b v.
Proof.
  unfold decode_property. destruct v as [|x|z|x|s]; cbn [encode_property typed_property]; intros Hb Hv.
  - injection Hb as <-. eapply reads_then; [apply reads_u8|]. apply reads_ret.
  - injection Hb as <-. apply (reads_bind r_u8 _ [1] [Z.b2z x] 1); [apply reads_u8|].
    apply (reads_bind_ret (r_boolean "property bool") PvBool), reads_boolean.
  - injection Hb as <-. apply (reads_bind r_u8 _ [2] (put_i64 z) 2); [apply reads_u8|].
    apply (reads_bind_ret r_i64 PvInteger). auto with wire.
  - destruct (put_f64 _ x) as [|b'] eqn:E; [done|]. injection Hb as <-.
    apply (reads_bind r_u8 _ [3] b' 3); [apply reads_u8|].
    apply (reads_bind_ret (r_f64 "property float") PvFloat). eauto with wire.
  - destruct (put_text _ _ s) as [|b'] eqn:E; [done|]. injection Hb as <-.
    apply (reads_bind r_u8 _ [4] b' 4); [apply reads_u8|].
    apply (reads_bind_ret (r_text MAX_TEXT_BYTES "property text") PvText). eauto with wire.
Qed.

Lemma reads_encoded_map {V} (tf kf cf ksf : string) (encv : V -> PResult bytes) (value : Reader V) (m : gmap rstring V) (b : bytes) :
  encode_map tf kf encv m = inr b ->
  (forall k v x, m !! k = Some v -> encv v = inr x -> reads value x v) ->
  map_Forall (fun k _ => typed_string k) m -> reads (decode_map cf kf ksf value) b m.
Proof.
  unfold encode_map, decode_map. cbv zeta. intros Hb Hv Hk. apply p_reject_bind in Hb as [E Hb]. zbool.
  apply p_concat_cons in Hb as (x & y & [= <-] & Hy & ->). apply p_concat_cons in Hy as (z & w & Hz & [= <-] & ->).
  rewrite app_nil_r. apply (reads_map MAX_PROPERTIES MAX_KEY_BYTES cf kf ksf encv); [done|done| |done].
  unfold MAX_PROPERTIES in *. lia.
Qed.

Lemma reads_properties m b : encode_properties m = inr b -> typed_properties m -> reads decode_properties b m.
Proof.
  intros Hb Hm. eapply reads_encoded_map; [exact Hb| |].
  - intros k v x Hkv. intros Hx. apply reads_property; [done|]. by apply (Hm k v).
  - intros k v Hkv. by apply (Hm k v).
Qed.

Lemma reads_terms (m : gmap rstring f64) (b : bytes) :
  encode_map "too many objective terms" "objective key" (put_f64 "objective value") m = inr b ->
  map_Forall (fun k v => typed_string k /\ is_f64 v) m ->
  reads (decode_map "objective term count" "objective key" "objective keys" (r_f64 "objective value")) b m.
Proof.
  intros Hb Hm. eapply reads_encoded_map; [exact Hb| |].
  - intros k v x Hkv Hx. eapply reads_f64; [done|]. by apply (Hm k v).
  - intros k v Hkv. by apply (Hm k v).
Qed.
#[export] Hint Resolve reads_property reads_properties reads_terms : wire.

Lemma reads_entity v b : encode_entity v = inr b -> typed_entity v -> reads decode_entity b v.
Proof.
  unfold encode_entity, typed_entity, decode_entity. intros Hb Hv. destruct_and! Hv.
  fields Hb. destruct v. by apply reads_end.
Qed.

Lemma reads_relation v b : encode_relation v = inr b -> typed_relation v -> reads decode_relation b v.
Proof.
  unfold encode_relation, typed_relation, decode_relation. intros Hb Hv. destruct_and! Hv.
  fields Hb. destruct v. by apply reads_end.
Qed.

Lemma reads_run v b : encode_run v = inr b -> typed_run v -> reads decode_run b v.
Proof.
  unfold encode_run, typed_run, decode_run. intros Hb Hv. destruct_and! Hv.
  fields Hb. destruct v. by apply reads_end.
Qed.

Lemma reads_plan v b : encode_plan v = inr b -> typed_plan v -> reads decode_plan b v.
Proof.
  unfold encode_plan, typed_plan, decode_plan. intros Hb Hv. apply p_valid_bind in Hb as [Ev Hb].
  destruct_and! Hv. fields Hb. destruct v. by apply reads_checked.
Qed.
#[export] Hint Resolve reads_entity reads_relation reads_run reads_plan : wire.

Lemma reads_resolution v b : encode_resolution v = inr b -> typed_resolution v -> reads decode_resolution b v.
Proof.
  unfold decode_resolution. destruct v as [micros|unit tz]; cbn [encode_resolution typed_resolution]; intros Hb Hv.
  - injection Hb as <-. apply (reads_bind r_u8 _ [1] (put_i64 micros) 1); [apply reads_u8|].
    apply (reads_bind_ret r_i64 FixedMicros). auto with wire.
  - destruct (put_string _ _ tz) as [|b'] eqn:E; [done|]. injection Hb as <-.
    apply (reads_bind r_u8 _ [2] (calendar_unit_byte unit :: b') 2); [apply reads_u8|].
    apply (reads_bind (r_enum calendar_unit_from) _ [calendar_unit_byte unit] b' unit); [auto with wire|].
    apply (reads_bind_ret (r_string MAX_KEY_BYTES "IANA timezone") (Calendar unit)). eauto with wire.
Qed.
#[export] Hint Resolve reads_resolution : wire.

Lemma reads_tier v b : encode_tier v = inr b -> typed_tier v -> reads decode_tier b v.
Proof.
  unfold encode_tier, typed_tier, decode_tier. intros Hb Hv. destruct_and! Hv. fields Hb. destruct v. by apply reads_end.
Qed.

Lemma reads_policy v b :
  encode_rollup_policy v = inr b -> typed_opt is_i64 (policy_raw_retain_for_micros v) ->
  Forall typed_tier (policy_tiers v) -> reads decode_rollup_policy b v.
Proof.
  unfold encode_rollup_policy, decode_rollup_policy. intros Hb Hr Ht. apply p_reject_bind in Hb as [E Hb]. zbool.
  pose proof (zlen_nonneg (policy_tiers v)).
  eapply reads_concat; [exact Hb|field|]. clear Hb. intros y Hb.
  eapply reads_concat; [exact Hb| |].
  { intros x [= <-]. apply reads_count; [unfold is_u32, MAX_ROLLUP_TIERS in *; lia|done]. }
  clear y Hb. intros y Hb. eapply reads_concat; [exact Hb| |].
  { intros x Hx. rewrite zlen_nat. apply (reads_repeat encode_tier); [|done]. intros a x' Ha Hx'.
    apply reads_tier; [done|]. by eapply Forall_forall. }
  intros y' Hy. destruct v. by apply reads_end.
Qed.
#[export] Hint Resolve reads_policy : wire.

Section Messages.
Context `{TimeZones} `{Crc}.

Lemma reads_series v b : encode_series v = inr b -> typed_series v -> reads decode_series b v.
Proof.
  unfold encode_series, typed_series, decode_series. intros Hb Hv. apply p_valid_bind in Hb as [Ev Hb].
  destruct_and! Hv. fields Hb. destruct v. by apply reads_checked.
Qed.

Lemma reads_point p : typed_point p -> reads r_point (put_point p) p.
Proof.
  unfold typed_point, r_point, put_point. intros Hp. destruct_and! Hp.
  do 8 (eapply reads_bind; [by auto with wire|]). eapply reads_then; [by auto with wire|].
  destruct p. apply reads_ret.
Qed.

Lemma reads_collection {T} (enc : T -> PResult bytes) (dec : Reader T) (typed : T -> Prop) budget l b :
  (forall a x, enc a = inr x -> typed a -> reads dec x a) -> Forall typed l ->
  put_collection enc l = inr b -> len l <= budget < 2 ^ 32 ->
  reads (decode_collection budget dec) b (l, budget - len l).
Proof.
  intros Hd Ht Hb Hl. pose proof (zlen_nonneg l). unfold put_collection in Hb. unfold decode_collection.
  rewrite Z.mod_small in Hb by lia.
  eapply reads_concat; [exact Hb| |].
  { intros x [= <-]. apply reads_count; [unfold is_u32; lia|lia]. }
  clear Hb. intros y Hb. eapply reads_concat; [exact Hb| |].
  { intros x Hx. rewrite zlen_nat. apply (reads_repeat enc); [|done]. intros a x' Ha Hx'. apply Hd; [done|].
    by eapply Forall_forall. }
  intros y' Hy. by apply reads_end.
Qed.

Lemma length_put_point p : length (put_point p) = 72%nat.
Proof. unfold put_point, put_u64, put_i64, put_u128, put_u32. by rewrite !length_app, !length_to_be. Qed.

Lemma p_concat_points l b :
  p_concat (map (fun p => inr (put_point p)) l) = inr b -> length b = (72 * length l)%nat.
Proof.
  revert b. induction l as [|p l IH]; intros b Hb.
  - by injection Hb as <-.
  - apply p_concat_cons in Hb as (x & y & [= <-] & Hy & ->). rewrite length_app, length_put_point, (IH y Hy). cbn [length]. lia.
Qed.

Lemma reads_points l b :
  Forall typed_point l -> len l <= MAX_BATCH_POINTS ->
  put_collection (fun p => inr (put_point p)) l = inr b -> reads_last r_points b l.
Proof.
  unfold MAX_BATCH_POINTS, put_collection, r_points. intros Ht Hl Hb. pose proof (zlen_nonneg l).
  rewrite Z.mod_small in Hb by lia.
  apply p_concat_cons in Hb as (x & y & [= <-] & Hy & ->). apply p_concat_cons in Hy as (z & w & Hz & [= <-] & ->).
  rewrite app_nil_r. eapply reads_last_bind; [apply reads_u32; unfold is_u32; lia|].
  unfold MAX_BATCH_POINTS. rewrite (proj2 (Z.ltb_ge _ _)) by lia. intros pre.
  rewrite (proj2 (Z.eqb_eq _ _)); [|unfold remaining; cbn [in_b in_p]; rewrite length_app, (p_concat_points l z Hz); unfold zlen; lia].
  cbn [negb]. rewrite zlen_nat.
  apply (reads_last_of (r_repeat (length l) r_point) z l).
  apply (reads_repeat (fun p => inr (put_point p))); [|done]. intros a x' Ha [= <-].
  apply reads_point. by eapply Forall_forall.
Qed.

(** ** Payloads *)

Lemma reads_last_concat {A B} e l b (m : Reader A) (k : A -> Reader B) a r :
  p_concat (e :: l) = inr b -> (forall x, e = inr x -> reads m x a) ->
  (forall y, p_concat l = inr y -> reads_last (k a) y r) -> reads_last (r_bind m k) b r.
Proof.
  intros Hb Hm Hk. apply p_concat_cons in Hb as (x & y & Hx & Hy & ->). eapply reads_last_bind; eauto.
Qed.

Lemma reads_last_map {A B} (f : A -> B) (m : Reader A) b a : reads_last m b a -> reads_last (r_map f m) b (f a).
Proof. intros Hm pre. unfold r_map, r_bind. by rewrite Hm. Qed.

(** A reader that must see the end of the payload, and what it returns. *)
Lemma reads_last_then {A B} (m : Reader A) (k : A -> Reader B) b a x :
  reads_last m b a -> reads (k a) [] x -> reads_last (r_bind m k) b x.
Proof.
  intros Hm Hk pre. unfold r_bind. rewrite Hm. specialize (Hk (pre ++ b) []).
  rewrite !app_nil_r, Nat.add_0_r in Hk. exact Hk.
Qed.

Ltac collection H lem :=
  eapply reads_last_concat;
  [exact H | intros ? ?; eapply (reads_collection _ _ _ _ _ _ lem); [done|done|unfold MAX_METADATA_RECORDS in *; lia]
  | clear H; intros ? H].

Lemma reads_batch v b : typed_batch v -> encode_batch v = inr b -> reads_last decode_batch b v.
Proof.
  unfold encode_batch, typed_batch, decode_batch. intros Hv Hb. destruct_and! Hv.
  destruct (validate_batch v) as [|[]] eqn:Ev; [done|]. cbn [p_bind] in Hb.
  assert (Hm : metadata_records v <= MAX_METADATA_RECORDS /\ len (batch_points v) <= MAX_BATCH_POINTS).
  { unfold validate_batch in Ev. cbv zeta in Ev. apply p_reject_bind in Ev as [_ Ev].
    apply p_reject_bind in Ev as [E1 Ev]. apply p_reject_bind in Ev as [E2 Ev]. by zbool. }
  destruct Hm as [Hm Hp]. unfold metadata_records in Hm.
  pose proof (zlen_nonneg (batch_entities v)). pose proof (zlen_nonneg (batch_relations v)).
  pose proof (zlen_nonneg (batch_series v)). pose proof (zlen_nonneg (batch_runs v)).
  pose proof (zlen_nonneg (batch_plans v)).
  do 3 (eapply reads_last_concat; [exact Hb|field|clear Hb; intros ? Hb]).
  collection Hb reads_entity. collection Hb reads_relation. collection Hb reads_series.
  collection Hb reads_run. collection Hb reads_plan.
  apply p_concat_cons in Hb as (x & w & Hx & [= <-] & ->). rewrite app_nil_r.
  eapply reads_last_then; [by apply reads_points|]. destruct v. by apply reads_checked.
Qed.

Lemma reads_sync_policy v b : typed_policy v -> put_sync_policy v = inr b -> reads sync_policy_from b v.
Proof.
  unfold sync_policy_from. destruct v as [| |n]; cbn [put_sync_policy typed_policy]; intros Hv Hb.
  - injection Hb as <-. apply (reads_bind r_u8 _ [1] (put_u64 0) 1); [apply reads_u8|].
    eapply reads_then; [by apply reads_u64|]. apply reads_ret.
  - injection Hb as <-. apply (reads_bind r_u8 _ [2] (put_u64 0) 2); [apply reads_u8|].
    eapply reads_then; [by apply reads_u64|]. apply reads_ret.
  - destruct (n =? 0) eqn:E; [done|]. injection Hb as <-.
    apply (reads_bind r_u8 _ [3] (put_u64 n) 3); [apply reads_u8|].
    eapply reads_then; [by apply reads_u64|]. cbn [Z.eqb Pos.eqb]. rewrite E. apply reads_ret.
Qed.

Lemma reads_health v b : typed_health v -> encode_health v = inr b -> reads_last decode_health b v.
Proof.
  unfold encode_health, typed_health, decode_health. intros Hv Hb. destruct_and! Hv.
  apply p_reject_bind in Hb as [Eq Hb]. apply p_reject_bind in Hb as [_ Hb].
  do 6 (eapply reads_last_concat; [exact Hb|field|clear Hb; intros ? Hb]). cbv zeta.
  eapply reads_last_then; [|rewrite Eq; apply reads_ret].
  assert (Ht : reads (decode_health_tail (mkHealth (h_nonce v) (h_source_id v) (h_status v) (h_queue_entries v)
            (h_accepted_through_sequence v) (h_durable_through_sequence v) 0 0 0 0 0 0 SyncAlways false)) y4 v).
  { unfold decode_health_tail. do 6 (eapply reads_concat; [exact Hb|field|clear Hb; intros ? Hb]).
    eapply reads_concat; [exact Hb|intros ? ?; by apply reads_sync_policy|clear Hb; intros ? Hb].
    fields Hb. destruct v. by apply reads_end. }
  intros pre. rewrite (proj2 (Nat.ltb_lt _ _)); [by apply reads_last_of|].
  unfold remaining. cbn [in_b in_p]. rewrite length_app.
  apply p_concat_cons in Hb as (x & w & [= <-] & _ & ->). rewrite length_app. unfold put_u64. rewrite length_to_be. lia.
Qed.

Lemma reads_ack v b :
  typed_ack v -> encode_payload (WireResponse (RespAck v)) = inr b -> reads decode_ack b v.
Proof.
  unfold typed_ack, decode_ack. cbn [encode_payload]. intros Hv Hb. destruct_and! Hv.
  apply p_reject_bind in Hb as [_ Hb]. fields Hb. destruct v. by apply reads_end.
Qed.

Lemma reads_message m b :
  typed_message m -> encode_payload m = inr b -> reads_last (decode_message (message_kind m)) b m.
Proof.
  destruct m as [[v|v|v|v]|[v|v|v|v]]; intros Hm Hb; unfold decode_message; cbn [message_kind Z.eqb Pos.eqb]; cbv [HELLO_REQUEST
    COMMIT_BATCH_REQUEST FLUSH_REQUEST HEALTH_REQUEST HELLO_RESPONSE ACK_RESPONSE HEALTH_RESPONSE ERROR_RESPONSE];
    cbn [Z.eqb Pos.eqb].
  - cbn [encode_payload] in Hb. apply p_reject_bind in Hb as [_ Hb]. destruct Hm as (? & ? & ? & ?).
    apply (reads_last_map (fun v => WireRequest (ReqHello v))), reads_last_of. unfold decode_hello_request.
    fields Hb. destruct v. by apply reads_end.
  - by apply (reads_last_map (fun v => WireRequest (ReqCommitBatch v))), reads_batch.
  - cbn [encode_payload] in Hb. apply p_reject_bind in Hb as [_ Hb]. destruct Hm as [? ?]. apply reads_last_of.
    fields Hb. destruct v. by apply reads_end.
  - injection Hb as <-. destruct v as [n]. apply (reads_last_map (fun v => WireRequest (ReqHealth (mkHealthRequest v)))), reads_last_of.
    by apply reads_u64.
  - cbn [encode_payload] in Hb. apply p_reject_bind in Hb as [E Hb]. destruct Hm as (? & ? & ? & ?).
    apply (reads_last_map (fun v => WireResponse (RespHello v))), reads_last_of. unfold decode_hello_response.
    eapply reads_concat; [exact Hb|field|clear Hb; intros ? Hb]. rewrite E.
    eapply reads_concat; [exact Hb|intros ? [= <-]; by apply reads_take'|clear Hb; intros ? Hb].
    fields Hb. destruct v. by apply reads_end.
  - by apply (reads_last_map (fun v => WireResponse (RespAck v))), reads_last_of, reads_ack.
  - by apply (reads_last_map (fun v => WireResponse (RespHealth v))), reads_health.
  - cbn [encode_payload] in Hb. cbn [typed_message] in Hm.
    apply (reads_last_map (fun v => WireResponse (RespError v))), reads_last_of. unfold decode_error.
    fields Hb. destruct v. by apply reads_end.
Qed.

Lemma encode_has_source m b : encode_payload m = inr b -> source_id_missing m = false.
Proof.
  destruct m as [[v|v|v|v]|[v|v|v|v]]; cbn [source_id_missing encode_payload]; intros Hb; try done;
    unfold encode_health in *; repeat (apply p_reject_bind in Hb as [? Hb]); done.
Qed.

Lemma decode_encode_payload m b :
  typed_message m -> encode_payload m = inr b -> decode_payload (message_kind m) b = inr m.
Proof.
  intros Hm Hb. unfold decode_payload. pose proof (reads_message m b Hm Hb []) as Hr. cbn [app length] in Hr.
  rewrite Hr. cbn [p_bind]. rewrite (encode_has_source m b Hb). cbn [p_reject p_bind]. unfold finish. cbn [in_p in_b].
  by rewrite Nat.eqb_refl.
Qed.

(** ** Frames *)

Lemma validate_message_kind m : validate_kind (message_kind m) = inr tt.
Proof. by destruct m as [[v|v|v|v]|[v|v|v|v]]. Qed.

Lemma length_frame_body kind p : length (frame_body kind p) = (12 + length p)%nat.
Proof. unfold frame_body, put_u16, put_u32. rewrite !length_app, !length_to_be. cbn [length FRAME_MAGIC]. lia. Qed.

(** The header of a frame and whatever follows it. *)
Lemma parse_frame_header m p rest :
  len p <= MAX_PAYLOAD_BYTES ->
  parse_header (frame_body (message_kind m) p ++ rest) = inr (message_kind m, len p + 16).
Proof.
  intros Hp. pose proof (zlen_nonneg p). unfold parse_header. cbv [MAX_PAYLOAD_BYTES MAX_FRAME_BYTES HEADER_BYTES CHECKSUM_BYTES] in *.
  rewrite (proj2 (Z.ltb_ge _ _)).
  2: { rewrite zlen_app. unfold zlen at 1. rewrite length_frame_body. pose proof (zlen_nonneg rest). lia. }
  unfold frame_body. rewrite <- !app_assoc.
  rewrite (slice_app_l 4 FRAME_MAGIC) by done. rewrite bool_decide_true by done. cbn [negb].
  assert (E4 : slice 4 6 (FRAME_MAGIC ++ put_u16 PROTOCOL_VERSION ++ [message_kind m] ++ [0] ++ put_u32 (len p) ++ p ++ rest)
               = put_u16 PROTOCOL_VERSION) by (by apply (slice_app_at 6 FRAME_MAGIC)).
  assert (E8 : slice 8 12 (FRAME_MAGIC ++ put_u16 PROTOCOL_VERSION ++ [message_kind m] ++ [0] ++ put_u32 (len p) ++ p ++ rest)
               = put_u32 (len p)).
  { rewrite !app_assoc, <- (app_assoc _ p). rewrite <- (app_assoc _ (put_u32 (len p))).
    by apply (slice_app_at 12 (((FRAME_MAGIC ++ put_u16 PROTOCOL_VERSION) ++ [message_kind m]) ++ [0])). }
  rewrite E4, E8. unfold put_u16, put_u32. rewrite !from_to_be by (cbv [PROTOCOL_VERSION]; lia).
  change (nth 6 (FRAME_MAGIC ++ to_be 2 PROTOCOL_VERSION ++ [message_kind m] ++ [0] ++ to_be 4 (len p) ++ p ++ rest) 0)
    with (message_kind m).
  change (nth 7 (FRAME_MAGIC ++ to_be 2 PROTOCOL_VERSION ++ [message_kind m] ++ [0] ++ to_be 4 (len p) ++ p ++ rest) 0) with 0.
  rewrite validate_message_kind. cbn [p_bind negb Z.eqb Pos.eqb PROTOCOL_VERSION].
  rewrite (proj2 (Z.ltb_ge _ _)) by lia. do 2 f_equal. lia.
Qed.

Lemma encode_Ok m f :
  encode m = inr f -> exists p, encode_payload m = inr p /\ len p <= MAX_PAYLOAD_BYTES
    /\ f = frame_body (message_kind m) p ++ put_u32 (hash (frame_body (message_kind m) p)).
Proof.
  unfold encode. destruct (encode_payload m) as [|p]; [done|]. cbn [p_bind]. destruct (_ <? _) eqn:E; [done|].
  intros [= <-]. zbool. eauto.
Qed.

Lemma decode_encode m f : typed_message m -> encode m = inr f -> decode f = inr m.
Proof.
  intros Hm Hf. apply encode_Ok in Hf as (p & Hp & Hl & ->). unfold decode. rewrite parse_frame_header by done.
  cbn [p_bind]. set (body := frame_body (message_kind m) p).
  assert (Hb : length body = (12 + length p)%nat) by apply length_frame_body.
  assert (Hf : len (body ++ put_u32 (hash body)) = len p + 16).
  { unfold zlen, put_u32. rewrite length_app, length_to_be. lia. }
  rewrite Hf, !Z.ltb_irrefl. unfold CHECKSUM_BYTES, HEADER_BYTES.
  replace (Z.to_nat (len p + 16 - 4)) with (length body) by (unfold zlen; lia).
  replace (Z.to_nat (len p + 16)) with (length body + 4)%nat by (unfold zlen; lia).
  rewrite take_app_length.
  assert (Es : slice (length body) (length body + 4) (body ++ put_u32 (hash body)) = put_u32 (hash body)).
  { rewrite <- (app_nil_r (put_u32 _)). apply (slice_app_at (length body + 4) body (put_u32 (hash body)) []). unfold put_u32. by rewrite length_to_be. }
  rewrite Es. unfold put_u32 at 1. rewrite from_to_be by apply hash_u32. rewrite Z.eqb_refl. cbn [negb].
  change (Z.to_nat 12) with 12%nat.
  assert (Ep : slice 12 (length body) (body ++ put_u32 (hash body)) = p).
  { rewrite Hb. unfold body, frame_body. rewrite !app_assoc, <- (app_assoc _ p).
    by apply (slice_app_at (12 + length p) (((((FRAME_MAGIC ++ put_u16 PROTOCOL_VERSION) ++ [message_kind m]) ++ [0]) ++ put_u32 (len p)))). }
  rewrite Ep. by apply decode_encode_payload.
Qed.

(** ** Streams *)

(** A stream without failures, and the bytes it delivers in all. *)
Definition arrives (e : ReadEvent) : Prop :=
  match e with Arrived b => b <> [] | Interrupted => True | ReadFailed _ => False end.
Definition event_bytes (e : ReadEvent) : bytes := match e with Arrived b => b | _ => [] end.
Definition data_of (events : list ReadEvent) : bytes := concat (map event_bytes events).

Lemma read_exact_Ok base want events : forall got,
  Forall arrives events -> (length got <= want <= length got + length (data_of events))%nat ->
  exists rest, read_exact base want got events = inr (got ++ take (want - length got) (data_of events), rest)
    /\ data_of rest = drop (want - length got) (data_of events) /\ Forall arrives rest.
Proof.
  induction events as [|e events IH]; intros got He Hw; cbn [read_exact];
    (destruct (length got <? want)%nat eqn:El; [apply Nat.ltb_lt in El|apply Nat.ltb_ge in El]).
  1: unfold data_of in Hw; cbn in Hw; lia.
  1,3: replace (want - length got)%nat with 0%nat by lia; rewrite take_0, drop_0, app_nil_r; eauto.
  apply Forall_cons in He as [He Hes]. unfold data_of in *. cbn [map concat] in *.
  destruct e as [b| |k]; cbn [arrives event_bytes app] in *; [|by apply IH|done].
  assert (Hb : (0 < length b)%nat) by (destruct b; [done|cbn; lia]).
  rewrite (proj2 (Nat.eqb_neq _ _)) by lia. rewrite length_app in Hw.
  destruct (length b <=? want - length got)%nat eqn:Ef; [apply Nat.leb_le in Ef|apply Nat.leb_gt in Ef].
  - destruct (IH (got ++ b)) as (rest & -> & Hd & Hr); [done|rewrite length_app; lia|].
    rewrite length_app in *. rewrite take_app_ge, drop_app_ge by lia.
    replace (want - length got - length b)%nat with (want - (length got + length b))%nat by lia.
    rewrite <- app_assoc. eauto.
  - eexists. rewrite take_app_le, drop_app_le by lia. split; [done|]. split; [done|].
    apply Forall_cons. split; [|done]. intros En. apply (f_equal length) in En. rewrite length_drop in En. cbn in En. lia.
Qed.

(** A stream that ends too early is reported with the number of bytes it had. *)
Lemma read_exact_short base want events : forall got,
  Forall arrives events -> (length got + length (data_of events) < want)%nat ->
  read_exact base want got events
  = inl (Truncated (Z.of_nat (base + want)) (Z.of_nat (base + length got + length (data_of events)))).
Proof.
  induction events as [|e events IH]; intros got He Hw; cbn [read_exact]; unfold data_of in *; cbn [map concat] in *.
  - rewrite (proj2 (Nat.ltb_lt _ _)) by (cbn in Hw; lia). cbn. by rewrite Nat.add_0_r.
  - apply Forall_cons in He as [He Hes]. rewrite length_app in Hw. rewrite (proj2 (Nat.ltb_lt _ _)) by lia.
    destruct e as [b| |k]; cbn [arrives event_bytes app length] in *; [|by apply IH|done].
    assert (Hb : (0 < length b)%nat) by (destruct b; [done|cbn; lia]).
    rewrite (proj2 (Nat.eqb_neq _ _)), (proj2 (Nat.leb_le _ _)) by lia.
    rewrite IH; [|done|rewrite length_app; lia]. rewrite !length_app. do 3 f_equal. lia.
Qed.

Lemma encode_length m f : encode m = inr f -> 16 <= len f <= MAX_FRAME_BYTES.
Proof.
  intros Hf. apply encode_Ok in Hf as (p & _ & Hl & ->). unfold zlen, put_u32.
  rewrite length_app, length_frame_body, length_to_be. unfold zlen in Hl.
  cbv [MAX_PAYLOAD_BYTES MAX_FRAME_BYTES HEADER_BYTES CHECKSUM_BYTES] in *. lia.
Qed.

(** The first twelve bytes of a frame announce its length. *)
Lemma parse_encoded m f rest :
  encode m = inr f -> parse_header (take 12 (f ++ rest)) = inr (message_kind m, len f).
Proof.
  intros Hf. apply encode_Ok in Hf as (p & _ & Hl & ->). set (k := message_kind m).
  pose proof (parse_frame_header m p [] Hl) as Hp. rewrite app_nil_r in Hp. fold k in Hp.
  assert (Hlen : len (frame_body k p ++ put_u32 (hash (frame_body k p))) = len p + 16).
  { unfold zlen, put_u32. rewrite length_app, length_frame_body, length_to_be. lia. }
  rewrite Hlen, <- Hp. clear Hp Hlen.
  assert (E : exists h, length h = 12%nat /\ forall q, frame_body k p ++ q = h ++ p ++ q /\ frame_body k p = h ++ p).
  { exists (FRAME_MAGIC ++ put_u16 PROTOCOL_VERSION ++ [k] ++ [0] ++ put_u32 (len p)). split; [done|].
    intros q. unfold frame_body. by rewrite <- !app_assoc. }
  destruct E as (h & Hh & E). rewrite <- app_assoc, (proj1 (E _)), (proj2 (E [])). rewrite <- Hh, take_app_length.
  unfold parse_header. unfold zlen. rewrite length_app, Hh. cbv [HEADER_BYTES].
  rewrite !(proj2 (Z.ltb_ge _ _)) by lia.
  assert (Es : forall a b, (b <= 12)%nat -> slice a b (h ++ p) = slice a b h).
  { intros a b Hb. unfold slice. destruct (decide (a <= 12)%nat).
    - rewrite drop_app_le, take_app_le; [done|rewrite length_drop|]; lia.
    - by replace (b - a)%nat with 0%nat by lia. }
  rewrite !Es, !app_nth1 by lia. by rewrite (proj2 (Z.ltb_ge (Z.of_nat (12 + length p)) 12)) by lia.
Qed.

(** Reading from a stream: however the frame is cut into reads, the message
    comes out and the bytes after the frame stay in the stream. *)
Lemma read_from_encoded m f events rest :
  typed_message m -> encode m = inr f -> Forall arrives events -> data_of events = f ++ rest ->
  exists events', read_from events = inr (m, events') /\ data_of events' = rest /\ Forall arrives events'.
Proof.
  intros Hm Hf He Hd. pose proof (encode_length m f Hf) as Hl. unfold zlen in Hl. unfold read_from, HEADER_BYTES.
  change (Z.to_nat 12) with 12%nat.
  destruct (read_exact_Ok 0 12 events []) as (e1 & -> & Hd1 & He1); [done|cbn [length]; rewrite Hd, length_app; lia|].
  cbn [p_bind app length]. rewrite Nat.sub_0_r in *. rewrite Hd in *. rewrite (parse_encoded m f rest Hf). cbn [p_bind].
  replace (Z.to_nat (len f - 12)) with (length f - 12)%nat by (unfold zlen; lia).
  destruct (read_exact_Ok 12 (length f - 12) e1 []) as (e2 & -> & Hd2 & He2); [done|cbn [length]; rewrite Hd1, length_drop, length_app; lia|].
  cbn [p_bind app length] in *. rewrite Nat.sub_0_r in *. rewrite Hd1 in *.
  rewrite drop_app_le in * by lia. rewrite take_app_le by lia. rewrite take_app_length' by (rewrite length_drop; lia).
  rewrite take_drop, (decode_encode m f Hm Hf). cbn [p_bind]. exists e2. split; [done|]. split; [|done].
  rewrite Hd2, drop_app_length'; [done|]. rewrite length_drop. lia.
Qed.

End Messages.
