(* ===== verification/Canonical.v ===== *)
(** * Canonical: one frame per message

    A reader of [Wire] and [Protocol] accepts only the bytes the matching
    writer produces, and returns only values the program's types allow.
    Health responses apart, whose later fields may be absent, a frame is
    determined by the message it decodes to. *)
From S2P Require Import Prelude Errors Bytes Float64 Model Utf8 Transaction Wire Codec Protocol ProtocolInv.

(** [i'] is [i] after the bytes [b]. *)
Definition wf_input (i : Input) : Prop := is_bytes (in_b i) /\ (in_p i <= length (in_b i))%nat.

Definition took (i : Input) (b : bytes) (i' : Input) : Prop :=
  in_b i' = in_b i /\ in_p i' = (in_p i + length b)%nat /\ wf_input i' /\ slice (in_p i) (in_p i') (in_b i) = b.

(** What [m] accepts is what [enc] writes for the value [m] returns. *)
Definition canonical {A} (typed : A -> Prop) (m : Reader A) (enc : A -> PResult bytes) : Prop :=
  forall i a i', wf_input i -> m i = inr (a, i') -> typed a /\ exists b, enc a = inr b /\ took i b i'.

Lemma took_nil i : wf_input i -> took i [] i.
Proof.
  intros Hi. unfold took. rewrite Nat.add_0_r. repeat split; try apply Hi. unfold slice. by rewrite Nat.sub_diag.
Qed.

Lemma took_app i b j c k : took i b j -> took j c k -> took i (b ++ c) k.
Proof.
  intros (E1 & P1 & W1 & S1) (E2 & P2 & W2 & S2). unfold took. rewrite length_app.
  split; [congruence|]. split; [lia|]. split; [done|].
  rewrite E1 in S2. rewrite <- S1, <- S2 at 1. rewrite P2, P1. unfold slice.
  replace (in_p i + length b + length c - in_p i)%nat with (length b + length c)%nat by lia.
  replace (in_p i + length b - in_p i)%nat with (length b) by lia.
  replace (in_p i + length b + length c - (in_p i + length b))%nat with (length c) by lia.
  by rewrite <- take_take_drop, drop_drop.
Qed.

Lemma took_wf i b j : took i b j -> wf_input j.
Proof. by intros (_ & _ & ? & _). Qed.

Lemma r_bind_Ok {A B} (m : Reader A) (k : A -> Reader B) i r :
  r_bind m k i = inr r -> exists a j, m i = inr (a, j) /\ k a j = inr r.
Proof. unfold r_bind. destruct (m i) as [|[a j]]; [done|]. eauto. Qed.

(** One more field. *)
Lemma canon_cons e l b i j k :
  e = inr b -> took i b j -> (exists c, p_concat l = inr c /\ took j c k) ->
  exists c, p_concat (e :: l) = inr c /\ took i c k.
Proof. intros -> Hb (c & Hc & Ht). exists (b ++ c). cbn [p_concat p_bind]. rewrite Hc. split; [done|]. by eapply took_app. Qed.

Lemma canon_nil i : wf_input i -> exists c, p_concat [] = inr c /\ took i c i.
Proof. intros. exists []. split; [done|]. by apply took_nil. Qed.

Create HintDb canon.
#[export] Hint Resolve took_wf : canon.

(** Inverts one [read] of [H]: the value, its type, its bytes and the input
    after it; then the record itself, field after field. *)
Ltac take_field H :=
  let x := fresh "x" in let j := fresh "j" in let Hx := fresh "Hx" in
  let C := fresh "C" in let T := fresh "T" in let b := fresh "b" in let E := fresh "E" in let K := fresh "K" in
  apply r_bind_Ok in H as (x & j & Hx & H);
  match type of Hx with
  | ?m ?i = _ =>
      eassert (C : canonical _ m _) by (solve [eauto with canon]);
      apply C in Hx as (T & b & E & K); [|by eauto with canon]; clear C; cbn beta in E
  end.
Ltac put_fields := repeat (eapply canon_cons; [eassumption|eassumption|]); try (apply canon_nil; by eauto with canon).

Lemma canon_ret {A} (a a' : A) i i' : r_ret a i = inr (a', i') -> a' = a /\ i' = i.
Proof. by intros [= <- <-]. Qed.

(** ** Primitives *)

Lemma canonical_take n : canonical (fun b => is_bytes b /\ length b = n) (r_take n) inr.
Proof.
  intros i a i' [Hb Hp] H. unfold r_take in H. cbv zeta in H. destruct (_ <? _)%nat eqn:E; [done|]. injection H as <- <-.
  apply Nat.ltb_ge in E. pose proof (length_slice (in_p i) (in_p i + n) (in_b i) ltac:(lia) E) as Hl.
  split; [split; [by apply slice_bytes|lia]|]. eexists. split; [done|]. unfold took, wf_input. cbn [in_b in_p].
  repeat split; [lia|done|done].
Qed.

Lemma canonical_u8 : canonical is_u8 r_u8 (fun z => inr [z]).
Proof.
  intros i a i' Hi H. unfold r_u8 in H. apply r_bind_Ok in H as (x & j & Hx & H).
  apply canonical_take in Hx as ([Hb Hl] & b & [= <-] & K); [|done]. apply canon_ret in H as [-> ->].
  destruct x as [|z [|]]; try done. apply Forall_cons in Hb as [Hz _]. cbn [nth]. eauto.
Qed.

Lemma from_be_bound l : is_bytes l -> 0 <= from_be l < 256 ^ Z.of_nat (length l).
Proof.
  intros Hl. unfold from_be. rewrite <- length_rev. by apply from_le_bound, Forall_rev.
Qed.

Lemma to_from_be l : is_bytes l -> to_be (length l) (from_be l) = l.
Proof.
  intros Hl. unfold from_be, to_be. rewrite <- (length_rev l), to_from_le, rev_involutive by (by apply Forall_rev). done.
Qed.

Lemma canonical_uint n : canonical (fun z => 0 <= z < 256 ^ Z.of_nat n) (r_uint n) (fun z => inr (to_be n z)).
Proof.
  intros i a i' Hi H. unfold r_uint in H. apply r_bind_Ok in H as (x & j & Hx & H).
  apply canonical_take in Hx as ([Hb Hl] & b & [= <-] & K); [|done]. apply canon_ret in H as [-> ->].
  subst n. split; [by apply from_be_bound|]. rewrite to_from_be by done. eauto.
Qed.

Lemma canonical_u16 : canonical is_u16 r_u16 (fun z => inr (put_u16 z)).
Proof. apply (canonical_uint 2). Qed.
Lemma canonical_u32 : canonical is_u32 r_u32 (fun z => inr (put_u32 z)).
Proof. apply (canonical_uint 4). Qed.
Lemma canonical_u64 : canonical is_u64 r_u64 (fun z => inr (put_u64 z)).
Proof. apply (canonical_uint 8). Qed.
Lemma canonical_u128 : canonical is_u128 r_u128 (fun z => inr (put_u128 z)).
Proof. apply (canonical_uint 16). Qed.

Lemma canonical_i64 : canonical is_i64 r_i64 (fun z => inr (put_i64 z)).
Proof.
  intros i a i' Hi H. unfold r_i64 in H. apply r_bind_Ok in H as (x & j & Hx & H).
  apply canonical_take in Hx as ([Hb Hl] & b & [= <-] & K); [|done]. apply canon_ret in H as [-> ->].
  pose proof (from_be_bound x Hb) as Hr. rewrite Hl in Hr. change (256 ^ Z.of_nat 8) with (2 ^ 64) in Hr.
  split; [unfold is_i64, to_signed; destruct (_ <? _) eqn:E; zbool; cbn in *; lia|].
  assert (Ep : put_i64 (to_signed 64 (from_be x)) = x); [|rewrite Ep; eauto].
  unfold put_i64, to_be, from_be. fold (from_le_i64 (rev x)). rewrite to_le_i64_from; [apply rev_involutive|by apply Forall_rev|].
  by rewrite length_rev.
Qed.
#[export] Hint Resolve canonical_u8 canonical_u16 canonical_u32 canonical_u64 canonical_u128 canonical_i64 : canon.

Lemma canonical_option {A} (typed : A -> Prop) (value : Reader A) field (put : A -> bytes) :
  canonical typed value (fun a => inr (put a)) ->
  canonical (fun o => match o with Some a => typed a | None => True end) (r_option value field)
    (fun o => inr (match o with Some a => [1] ++ put a | None => [0] end)).
Proof.
  intros C i a i' Hi H. unfold r_option in H. take_field H. injection E as <-.
  destruct (x =? 0) eqn:E0; zbool; subst.
  - apply canon_ret in H as [-> ->]. eauto.
  - destruct (x =? 1) eqn:E1; zbool; subst; [|done]. apply r_bind_Ok in H as (y & j' & Hy & H).
    apply C in Hy as (Ty & b & [= <-] & K'); [|by eauto with canon]. apply canon_ret in H as [-> ->].
    split; [done|]. eexists. split; [done|]. by eapply took_app.
Qed.

Lemma canonical_option_u128 field : canonical (typed_opt is_u128) (r_option_u128 field) (fun o => inr (put_option_u128 o)).
Proof. apply (canonical_option is_u128), canonical_u128. Qed.
Lemma canonical_option_i64 field : canonical (typed_opt is_i64) (r_option_i64 field) (fun o => inr (put_option_i64 o)).
Proof. apply (canonical_option is_i64), canonical_i64. Qed.
Lemma canonical_watermark field : canonical (typed_opt is_u64) (r_watermark field) (fun o => inr (put_watermark o)).
Proof. apply (canonical_option is_u64), canonical_u64. Qed.

Lemma canonical_boolean field : canonical (fun _ => True) (r_boolean field) (fun b => inr [Z.b2z b]).
Proof.
  intros i a i' Hi H. unfold r_boolean in H. take_field H. injection E as <-. split; [done|].
  destruct (x =? 0) eqn:E0; zbool; subst; [|destruct (x =? 1) eqn:E1; zbool; subst; [|done]];
    apply canon_ret in H as [-> ->]; eauto.
Qed.

Lemma canonical_f64 field : canonical is_f64 (r_f64 field) (put_f64 field).
Proof.
  intros i a i' Hi H. unfold r_f64 in H. take_field H. injection E as <-.
  destruct (f64_is_finite x) eqn:Ef; [|done]. apply canon_ret in H as [-> ->]. split; [done|].
  unfold put_f64. rewrite Ef. eauto.
Qed.

Lemma canonical_option_f64 field : canonical (typed_opt is_f64) (r_option_f64 field) (put_option_f64 field).
Proof.
  intros i a i' Hi H. unfold r_option_f64, r_option in H. take_field H. injection E as <-.
  destruct (x =? 0) eqn:E0; zbool; subst.
  - apply canon_ret in H as [-> ->]. split; [done|]. eexists. split; [done|done].
  - destruct (x =? 1) eqn:E1; zbool; subst; [|done]. apply r_bind_Ok in H as (y & j' & Hy & H).
    apply (canonical_f64 field) in Hy as (Ty & b & Eb & K'); [|by eauto with canon].
    apply canon_ret in H as [-> ->]. split; [done|]. cbn [put_option_f64]. rewrite Eb. eexists. split; [done|].
    by eapply took_app.
Qed.

Lemma text_bytes_Ok n field i s i' :
  is_u16 n -> wf_input i -> r_text_bytes n field i = inr (s, i') ->
  typed_string s /\ len (as_bytes s) = n /\ took i (as_bytes s) i'.
Proof.
  intros Hn Hi H. unfold r_text_bytes in H. apply r_bind_Ok in H as (x & j & Hx & H).
  apply canonical_take in Hx as ([Hb Hl] & b & [= <-] & K); [|done].
  destruct (from_utf8 x) as [t|] eqn:E; [|done]. apply canon_ret in H as [-> ->].
  apply as_from_utf8 in E as [-> Ht]; [|done]. split; [done|]. split; [|done]. unfold zlen. unfold is_u16 in Hn. lia.
Qed.

Lemma canonical_text max field : canonical typed_string (r_text max field) (put_text max field).
Proof.
  intros i a i' Hi H. unfold r_text in H. take_field H. injection E as <-. destruct (max <? x) eqn:Em; [done|].
  apply text_bytes_Ok in H as (Ht & Hl & K'); [|done|by eauto with canon]. split; [done|].
  unfold put_text. cbv zeta. rewrite Hl, Em. rewrite (proj2 (Z.ltb_ge _ _)) by (unfold is_u16 in T; lia). cbn [orb].
  eexists. split; [done|]. by eapply took_app.
Qed.

Lemma canonical_string max field : canonical typed_string (r_string max field) (put_string max field).
Proof.
  intros i a i' Hi H. unfold r_string in H. take_field H. injection E as <-. destruct (_ || _) eqn:Em; [done|].
  apply text_bytes_Ok in H as (Ht & Hl & K'); [|done|by eauto with canon]. split; [done|].
  unfold put_string, put_text. cbv zeta. rewrite Hl, Em. apply orb_false_iff in Em as [_ ->].
  rewrite (proj2 (Z.ltb_ge _ _)) by (unfold is_u16 in T; lia). cbn [orb].
  eexists. split; [done|]. by eapply took_app.
Qed.

Lemma canonical_count maximum field :
  canonical (fun n => is_u32 n /\ n <= maximum) (r_count maximum field) (fun n => inr (put_u32 n)).
Proof.
  intros i a i' Hi H. unfold r_count in H. take_field H. injection E as <-. destruct (_ <? _) eqn:Em; [done|]. zbool.
  apply canon_ret in H as [-> ->]. eauto.
Qed.

Lemma canonical_repeat {A} (typed : A -> Prop) (dec : Reader A) enc :
  canonical typed dec enc -> forall n,
  canonical (fun l => Forall typed l /\ length l = n) (r_repeat n dec) (fun l => p_concat (map enc l)).
Proof.
  intros C n. induction n as [|n IH]; intros i a i' Hi H; cbn [r_repeat] in H.
  - apply canon_ret in H as [-> ->]. split; [by split|]. by apply canon_nil.
  - apply r_bind_Ok in H as (x & j & Hx & H). apply C in Hx as (Tx & b & Eb & K); [|done].
    apply r_bind_Ok in H as (r & j' & Hr & H). apply IH in Hr as ((Tr & Hl) & c & Ec & K'); [|by eauto with canon].
    apply canon_ret in H as [-> ->]. split; [split; [by constructor|cbn; lia]|]. cbn [map].
    eapply canon_cons; eauto.
Qed.
#[export] Hint Resolve canonical_option_u128 canonical_option_i64 canonical_watermark canonical_boolean
  canonical_f64 canonical_option_f64 canonical_text canonical_string : canon.

(** ** Maps *)

Lemma str_ltb_asym a b : str_ltb a b = true -> str_ltb b a = true -> False.
Proof.
  unfold str_ltb. intros H1 H2. pose proof (lex_ltb_trans _ _ _ H1 H2) as H. by rewrite lex_ltb_irrefl in H.
Qed.

(** A sorted list of entries is the iteration of the map it builds. *)
Lemma btree_entries_of_sorted {V} (l : list (rstring * V)) :
  Forall (fun e => typed_string e.1) l -> StronglySorted (fun a b => str_ltb a.1 b.1 = true) l ->
  NoDup l.*1 /\ btree_entries (list_to_map l : gmap rstring V) = l.
Proof.
  intros Ht Hs.
  assert (Hn : NoDup l.*1).
  { clear Ht. induction Hs as [|[k v] l _ IH Hk]; cbn; constructor; [|done]. intros Hin.
    apply list_elem_of_fmap in Hin as ([k' v'] & -> & Hin). eapply Forall_forall in Hk; [|done]. cbn in Hk.
    by apply (str_ltb_asym k' k'). }
  split; [done|]. apply (StronglySorted_unique_strong (fun a b => str_ltb a.1 b.1 = true)).
  - intros a b _ _ H1 H2. by destruct (str_ltb_asym a.1 b.1).
  - apply btree_entries_sorted. intros k v Hk. apply elem_of_list_to_map_2 in Hk.
    by eapply Forall_forall in Ht; [|done].
  - done.
  - rewrite btree_entries_perm. by apply map_to_list_to_map.
Qed.

Lemma ensure_sorted_Ok previous key field r :
  ensure_sorted previous key field = inr r -> match previous with Some p => str_ltb p key = true | None => True end.
Proof.
  destruct previous as [p|]; [|done]. cbn. unfold str_leb. intros H. by destruct (str_ltb p key).
Qed.

Section Entries.
Context {V : Type} (typed : V -> Prop) (max : Z) (kf ksf : string) (value : Reader V) (encv : V -> PResult bytes).
Hypothesis value_canonical : canonical typed value encv.

Definition put_entry (e : rstring * V) : PResult bytes := let '(k, v) := e in p_concat [put_string max kf k; encv v].

Lemma entries_Ok n : forall previous (values : gmap rstring V) i m i',
  wf_input i -> r_entries n max kf ksf value previous values i = inr (m, i') ->
  exists l, length l = n /\ Forall (fun e => typed_string e.1 /\ typed e.2) l
    /\ StronglySorted (fun a b => str_ltb a.1 b.1 = true) l
    /\ match previous with Some p => Forall (fun e => str_ltb p e.1 = true) l | None => True end
    /\ m = foldl (fun m '(k, v) => <[k := v]> m) values l
    /\ exists b, p_concat (map put_entry l) = inr b /\ took i b i'.
Proof using value_canonical.
  induction n as [|n IH]; intros previous values i m i' Hi H; cbn [r_entries] in H.
  - apply canon_ret in H as [-> ->]. exists []. do 3 (split; [done || constructor|]).
    split; [by destruct previous|]. split; [done|]. by apply canon_nil.
  - apply r_bind_Ok in H as (k & j1 & Hk & H). apply (canonical_string max kf) in Hk as (Tk & b1 & Eb1 & K1); [|done].
    apply r_bind_Ok in H as ([] & j2 & Hs & H). unfold r_lift in Hs.
    destruct (ensure_sorted previous k ksf) as [|[]] eqn:Es; [done|]. injection Hs as <-. apply ensure_sorted_Ok in Es.
    apply r_bind_Ok in H as (v & j3 & Hv & H). apply value_canonical in Hv as (Tv & b2 & Eb2 & K2); [|by eauto with canon].
    apply IH in H as (l & Hl & Tl & Sl & Pl & -> & b & Eb & K); [|by eauto with canon].
    exists ((k, v) :: l). split; [by cbn; f_equal|]. split; [by constructor|]. split; [by constructor|].
    split.
    { destruct previous as [p|]; [|done]. constructor; [done|]. eapply Forall_impl; [exact Pl|]. cbn.
      intros e He. unfold str_ltb in *. by eapply lex_ltb_trans. }
    split; [done|]. cbn [map put_entry]. eapply canon_cons; [|by eapply took_app|eauto].
    cbn [p_concat]. rewrite Eb1, Eb2. cbn [p_bind]. by rewrite app_nil_r.
Qed.

End Entries.

Lemma canonical_map {V} (typed : V -> Prop) (value : Reader V) (encv : V -> PResult bytes) (tf cf kf ksf : string) :
  canonical typed value encv ->
  canonical (fun m : gmap rstring V => map_Forall (fun k v => typed_string k /\ typed v) m)
    (decode_map cf kf ksf value) (encode_map tf kf encv).
Proof.
  intros Cv i m i' Hi H. unfold decode_map in H. apply r_bind_Ok in H as (n & j & Hn & H).
  apply canonical_count in Hn as ((Tn & Hm) & b & [= <-] & K); [|done].
  apply (entries_Ok typed MAX_KEY_BYTES kf ksf value encv Cv) in H as (l & Hl & Tl & Sl & _ & -> & c & Ec & K'); [|by eauto with canon].
  destruct (btree_entries_of_sorted l) as [Hnd Hbt]; [by eapply Forall_impl; [exact Tl|intros ? [? ?]]|done|].
  assert (Em : foldl (fun m '(k, v) => <[k := v]> m) (∅ : gmap rstring V) l = list_to_map l).
  { rewrite foldl_insert_list by done. apply map_union_empty. }
  cbn beta. rewrite Em. unfold is_u32 in Tn. split.
  - intros k v Hkv. apply elem_of_list_to_map_2 in Hkv. by eapply Forall_forall in Tl; [|done].
  - unfold encode_map. cbv zeta. rewrite <- length_btree_entries, Hbt, Hl.
    replace (Z.of_nat (Z.to_nat n)) with n by lia. unfold p_reject. rewrite (proj2 (Z.ltb_ge _ _)) by done. cbn [p_bind].
    eapply canon_cons; [done|done|]. eapply canon_cons; [exact Ec|done|]. apply canon_nil. by eauto with canon.
Qed.

(** ** Records *)

Lemma canonical_enum {A} (from : Z -> PResult A) (byte : A -> Z) :
  (forall z a, from z = inr a -> byte a = z) -> canonical (fun _ => True) (r_enum from) (fun a => inr [byte a]).
Proof.
  intros Hf i a i' Hi H. unfold r_enum in H. take_field H. injection E as <-. unfold r_lift in H.
  destruct (from x) as [|y] eqn:Ef; [done|]. injection H as <- <-. apply Hf in Ef as ->. eauto.
Qed.

Ltac enum := apply canonical_enum; intros z a Hz; repeat (destruct (z =? _) eqn:?; zbool; subst; [by injection Hz as <-|]); done.

Lemma canonical_semantics : canonical (fun _ => True) (r_enum series_semantics_from) (fun v => inr [series_semantics_byte v]).
Proof. unfold series_semantics_from. enum. Qed.
Lemma canonical_unit : canonical (fun _ => True) (r_enum calendar_unit_from) (fun v => inr [calendar_unit_byte v]).
Proof. unfold calendar_unit_from. enum. Qed.
Lemma canonical_run_kind : canonical (fun _ => True) (r_enum run_kind_from) (fun v => inr [run_kind_byte v]).
Proof. unfold run_kind_from. enum. Qed.
Lemma canonical_run_status : canonical (fun _ => True) (r_enum run_status_from) (fun v => inr [run_status_byte v]).
Proof. unfold run_status_from. enum. Qed.
Lemma canonical_plan_status : canonical (fun _ => True) (r_enum plan_status_from) (fun v => inr [plan_status_byte v]).
Proof. unfold plan_status_from. enum. Qed.
Lemma canonical_error : canonical (fun _ => True) (r_enum error_from) (fun v => inr [error_byte v]).
Proof. unfold error_from. enum. Qed.
Lemma canonical_ack_kind : canonical (fun _ => True) (r_enum ack_kind_from) (fun v => inr [ack_kind_byte v]).
Proof. unfold ack_kind_from. enum. Qed.
#[export] Hint Resolve canonical_semantics canonical_unit canonical_run_kind canonical_run_status
  canonical_plan_status canonical_error canonical_ack_kind : canon.

Lemma canonical_property : canonical typed_property decode_property encode_property.
Proof.
  intros i a i' Hi H. unfold decode_property in H. take_field H. injection E as <-.
  destruct (x =? 0) eqn:E0; zbool; subst; [apply canon_ret in H as [-> ->]; split; [done|]; by exists [0]|].
  destruct (x =? 1) eqn:E1; zbool; subst.
  { take_field H. injection E as <-. apply canon_ret in H as [-> ->]. split; [done|]. eexists. split; [done|]. by eapply (took_app _ [1]). }
  destruct (x =? 2) eqn:E2; zbool; subst.
  { take_field H. injection E as <-. apply canon_ret in H as [-> ->]. split; [done|]. eexists. split; [done|]. by eapply took_app. }
  destruct (x =? 3) eqn:E3; zbool; subst.
  { take_field H. apply canon_ret in H as [-> ->]. split; [done|]. cbn [encode_property]. rewrite E.
    eexists. split; [done|]. by eapply took_app. }
  destruct (x =? 4) eqn:E4; zbool; subst; [|done].
  take_field H. apply canon_ret in H as [-> ->]. split; [done|]. cbn [encode_property]. rewrite E.
  eexists. split; [done|]. by eapply took_app.
Qed.

Lemma canonical_properties : canonical typed_properties decode_properties encode_properties.
Proof. apply (canonical_map typed_property), canonical_property. Qed.

Lemma canonical_terms :
  canonical (fun m : gmap rstring f64 => map_Forall (fun k v => typed_string k /\ is_f64 v) m)
    (decode_map "objective term count" "objective key" "objective keys" (r_f64 "objective value"))
    (encode_map "too many objective terms" "objective key" (put_f64 "objective value")).
Proof. apply (canonical_map is_f64), canonical_f64. Qed.
#[export] Hint Resolve canonical_property canonical_properties canonical_terms : canon.

(** Inverts a record reader to its last field. *)
Ltac record H := repeat take_field H; apply canon_ret in H as [-> ->].

Lemma canonical_entity : canonical typed_entity decode_entity encode_entity.
Proof.
  intros i a i' Hi H. unfold decode_entity in H. record H. split; [by unfold typed_entity; cbn|].
  unfold encode_entity. put_fields.
Qed.

Lemma canonical_relation : canonical typed_relation decode_relation encode_relation.
Proof.
  intros i a i' Hi H. unfold decode_relation in H. record H. split; [by unfold typed_relation; cbn|].
  unfold encode_relation. put_fields.
Qed.

Lemma canonical_run : canonical typed_run decode_run encode_run.
Proof.
  intros i a i' Hi H. unfold decode_run in H. record H. split; [by unfold typed_run; cbn|].
  unfold encode_run. put_fields.
Qed.

(** A reader that validates what it read. *)
Lemma r_checked_Ok {A} (c : PResult unit) (a a' : A) i i' :
  (read _ := r_lift c in r_ret a) i = inr (a', i') -> c = inr tt /\ a' = a /\ i' = i.
Proof. unfold r_bind, r_lift. destruct c as [|[]]; [done|]. by intros [= <- <-]. Qed.

Lemma canonical_plan : canonical typed_plan decode_plan encode_plan.
Proof.
  intros i a i' Hi H. unfold decode_plan in H. do 11 take_field H. cbv zeta in H.
  apply r_checked_Ok in H as (Ev & -> & ->). split; [by unfold typed_plan; cbn|].
  unfold encode_plan. rewrite Ev. cbn [p_bind]. put_fields.
Qed.

Lemma canonical_resolution : canonical typed_resolution decode_resolution encode_resolution.
Proof.
  intros i a i' Hi H. unfold decode_resolution in H. take_field H. injection E as <-.
  destruct (x =? 1) eqn:E1; zbool; subst.
  { take_field H. injection E as <-. apply canon_ret in H as [-> ->]. split; [done|]. eexists. split; [done|]. by eapply took_app. }
  destruct (x =? 2) eqn:E2; zbool; subst; [|done].
  take_field H. injection E as <-. take_field H. apply canon_ret in H as [-> ->]. split; [done|]. cbn [encode_resolution].
  rewrite E. eexists. split; [done|]. eapply (took_app _ [2]); [done|]. by eapply (took_app _ [_]).
Qed.
#[export] Hint Resolve canonical_resolution : canon.

Lemma canonical_tier : canonical typed_tier decode_tier encode_tier.
Proof.
  intros i a i' Hi H. unfold decode_tier in H. record H. split; [by unfold typed_tier; cbn|]. unfold encode_tier. put_fields.
Qed.

Lemma canonical_policy :
  canonical (fun v => typed_opt is_i64 (policy_raw_retain_for_micros v) /\ Forall typed_tier (policy_tiers v))
    decode_rollup_policy encode_rollup_policy.
Proof.
  intros i a i' Hi H. unfold decode_rollup_policy in H. take_field H.
  apply r_bind_Ok in H as (n & j' & Hn & H). apply canonical_count in Hn as ((Tn & Hm) & b' & E' & K'); [|by eauto with canon].
  apply r_bind_Ok in H as (l & j2 & Hl & H).
  apply (canonical_repeat _ _ _ canonical_tier) in Hl as ((Tl & Hlen) & b2 & E2 & K2); [|by eauto with canon].
  apply canon_ret in H as [-> ->]. split; [done|]. unfold encode_rollup_policy. cbn [policy_tiers policy_raw_retain_for_micros].
  unfold is_u32 in Tn. replace (len l) with n by (unfold zlen; lia). unfold p_reject. rewrite (proj2 (Z.ltb_ge _ _)) by done.
  cbn [p_bind]. put_fields.
Qed.
#[export] Hint Resolve canonical_plan canonical_tier canonical_policy canonical_entity canonical_relation canonical_run : canon.

Section Frames.
Context `{TimeZones} `{Crc}.

Lemma canonical_series : canonical typed_series decode_series encode_series.
Proof.
  intros i a i' Hi H1. unfold decode_series in H1. do 9 take_field H1. cbv zeta in H1.
  apply r_checked_Ok in H1 as (Ev & -> & ->). split; [by unfold typed_series; cbn; destruct_and!|].
  unfold encode_series. rewrite Ev. cbn [p_bind]. put_fields.
Qed.

Lemma canonical_point : canonical typed_point r_point (fun p => inr (put_point p)).
Proof.
  intros i a i' Hi H1. unfold r_point in H1. do 9 (take_field H1; match goal with E : inr _ = inr _ |- _ => injection E as <- end).
  apply canon_ret in H1 as [-> ->]. split; [by unfold typed_point; cbn|]. eexists. split; [done|].
  unfold put_point. cbn [series valid_time valid_time_end knowledge_time change_time point_run_id value quality flags].
  repeat (eapply took_app; [eassumption|]). eassumption.
Qed.

Lemma canonical_collection {T} (typed : T -> Prop) (dec : Reader T) enc budget i l rest i' :
  canonical typed dec enc -> wf_input i -> budget < 2 ^ 32 -> decode_collection budget dec i = inr ((l, rest), i') ->
  Forall typed l /\ rest = budget - len l /\ 0 <= rest /\ exists b, put_collection enc l = inr b /\ took i b i'.
Proof.
  intros C Hi Hb H1. unfold decode_collection in H1.
  apply r_bind_Ok in H1 as (n & j & Hn & H1). apply canonical_count in Hn as ((Tn & Hm) & b & E & K); [|by eauto with canon].
  apply r_bind_Ok in H1 as (l' & j2 & Hl & H1).
  apply (canonical_repeat _ _ _ C) in Hl as ((Tl & Hlen) & b2 & E2 & K2); [|by eauto with canon].
  apply canon_ret in H1 as [H1 ->]. injection H1 as -> ->. unfold is_u32 in Tn.
  assert (En : len l' = n) by (unfold zlen; lia). rewrite En. split; [done|]. split; [done|]. split; [lia|].
  unfold put_collection. rewrite En, Z.mod_small by lia. put_fields.
Qed.

Lemma canonical_points i l i' :
  wf_input i -> r_points i = inr (l, i') ->
  Forall typed_point l /\ exists b, put_collection (fun p => inr (put_point p)) l = inr b /\ took i b i'.
Proof.
  intros Hi H1. unfold r_points in H1. take_field H1. destruct (_ <? _) eqn:Em; [done|]. zbool.
  destruct (negb _); [done|].
  apply (canonical_repeat _ _ _ canonical_point) in H1 as ((Tl & Hlen) & b2 & E2 & K2); [|by eauto with canon].
  split; [done|]. unfold put_collection. unfold is_u32, MAX_BATCH_POINTS in *.
  assert (En : len l = x) by (unfold zlen; lia). rewrite En, Z.mod_small by lia. put_fields.
Qed.

Lemma canonical_batch : canonical typed_batch decode_batch encode_batch.
Proof.
  intros i a i' Hi H1. unfold decode_batch in H1. do 3 take_field H1.
  apply r_bind_Ok in H1 as ([es r1] & j2 & Hx & H1).
  apply (canonical_collection _ _ _ _ _ _ _ _ canonical_entity) in Hx as (Te & -> & R1 & be & Ee & Ke); [|by eauto with canon|done].
  apply r_bind_Ok in H1 as ([rs r2] & j3 & Hx & H1).
  apply (canonical_collection _ _ _ _ _ _ _ _ canonical_relation) in Hx as (Tr & -> & R2 & br & Er & Kr);
    [|by eauto with canon|unfold MAX_METADATA_RECORDS; pose proof (zlen_nonneg es); lia].
  apply r_bind_Ok in H1 as ([ss r3] & j4 & Hx & H1).
  apply (canonical_collection _ _ _ _ _ _ _ _ canonical_series) in Hx as (Ts & -> & R3 & bs & Es & Ks);
    [|by eauto with canon|unfold MAX_METADATA_RECORDS; pose proof (zlen_nonneg es); pose proof (zlen_nonneg rs); lia].
  apply r_bind_Ok in H1 as ([us r4] & j5 & Hx & H1).
  apply (canonical_collection _ _ _ _ _ _ _ _ canonical_run) in Hx as (Tu & -> & R4 & bu & Eu & Ku);
    [|by eauto with canon|unfold MAX_METADATA_RECORDS; pose proof (zlen_nonneg es); pose proof (zlen_nonneg rs); pose proof (zlen_nonneg ss); lia].
  apply r_bind_Ok in H1 as ([ps r5] & j6 & Hx & H1).
  apply (canonical_collection _ _ _ _ _ _ _ _ canonical_plan) in Hx as (Tp & -> & R5 & bp & Ep & Kp);
    [|by eauto with canon|unfold MAX_METADATA_RECORDS; pose proof (zlen_nonneg es); pose proof (zlen_nonneg rs); pose proof (zlen_nonneg ss);
      pose proof (zlen_nonneg us); lia].
  apply r_bind_Ok in H1 as (pts & j7 & Hx & H1). apply canonical_points in Hx as (Tpt & bpt & Ept & Kpt); [|by eauto with canon].
  cbv zeta in H1. apply r_checked_Ok in H1 as (Ev & -> & ->). split; [by unfold typed_batch; cbn|].
  unfold encode_batch. rewrite Ev. cbn [p_bind]. put_fields.
Qed.

Definition is_health (m : WireMessage) : bool := match m with WireResponse (RespHealth _) => true | _ => false end.

Lemma message_Ok kind i m i' :
  wf_input i -> decode_message kind i = inr (m, i') -> source_id_missing m = false -> is_health m = false ->
  typed_message m /\ message_kind m = kind /\ exists b, encode_payload m = inr b /\ took i b i'.
Proof.
  intros Hi H1 Hs Hh. unfold decode_message in H1.
  destruct (kind =? HELLO_REQUEST) eqn:E; zbool; subst.
  { apply r_bind_Ok in H1 as (v & j & Hv & H1). apply canon_ret in H1 as [-> ->]. unfold decode_hello_request in Hv. record Hv.
    split; [by cbn|]. split; [done|]. cbn in Hs. cbn [encode_payload]. unfold p_reject. cbn [hello_source_id]. rewrite Hs. cbn [p_bind]. put_fields. }
  clear E. destruct (kind =? COMMIT_BATCH_REQUEST) eqn:E; zbool; subst.
  { apply r_bind_Ok in H1 as (v & j & Hv & H1). apply canon_ret in H1 as [-> ->].
    apply canonical_batch in Hv as (Tv & b & Eb & K); [|done]. by eauto. }
  clear E. destruct (kind =? FLUSH_REQUEST) eqn:E; zbool; subst.
  { record H1. split; [by cbn|]. split; [done|]. cbn in Hs. cbn [encode_payload]. unfold p_reject. cbn [flush_source_id]. rewrite Hs.
    cbn [p_bind]. put_fields. }
  clear E. destruct (kind =? HEALTH_REQUEST) eqn:E; zbool; subst.
  { record H1. split; [done|]. split; [done|]. by eauto. }
  clear E. destruct (kind =? HELLO_RESPONSE) eqn:E; zbool; subst.
  { apply r_bind_Ok in H1 as (v & j & Hv & H1). apply canon_ret in H1 as [-> ->]. unfold decode_hello_response in Hv.
    take_field Hv. destruct (negb _) eqn:Ev; [done|].
    apply r_bind_Ok in Hv as (s & j' & Hx & Hv). apply canonical_take in Hx as ([Ts Hl] & b1 & E1 & K1); [|by eauto with canon].
    record Hv. split; [by cbn|]. split; [done|]. cbn [encode_payload]. unfold p_reject. cbn [selected_version]. rewrite Ev. cbn [p_bind]. put_fields. }
  clear E. destruct (kind =? ACK_RESPONSE) eqn:E; zbool; subst.
  { apply r_bind_Ok in H1 as (v & j & Hv & H1). apply canon_ret in H1 as [-> ->]. unfold decode_ack in Hv. record Hv.
    split; [by cbn|]. split; [done|]. cbn in Hs. cbn [encode_payload]. unfold p_reject. cbn [ack_source_id]. rewrite Hs. cbn [p_bind]. put_fields. }
  clear E. destruct (kind =? HEALTH_RESPONSE) eqn:E; zbool; subst.
  { apply r_bind_Ok in H1 as (v & j & Hv & H1). apply canon_ret in H1 as [-> ->]. done. }
  clear E. destruct (kind =? ERROR_RESPONSE) eqn:E; zbool; subst; [|done].
  apply r_bind_Ok in H1 as (v & j & Hv & H1). apply canon_ret in H1 as [-> ->]. unfold decode_error in Hv. record Hv.
  split; [by cbn|]. split; [done|]. cbn [encode_payload]. put_fields.
Qed.

Lemma payload_Ok kind b m :
  is_bytes b -> decode_payload kind b = inr m -> is_health m = false ->
  typed_message m /\ message_kind m = kind /\ encode_payload m = inr b.
Proof.
  intros Hb H1 Hh. unfold decode_payload in H1.
  destruct (decode_message kind (mkInput b 0)) as [|[m' i]] eqn:E; [done|]. cbn [p_bind] in H1.
  apply p_reject_bind in H1 as [Es H1]. unfold finish in H1. destruct (_ =? _)%nat eqn:Ef; [|done].
  cbn [p_bind] in H1. injection H1 as ->. apply message_Ok in E as (Tm & Hk & c & Ec & (E1 & E2 & _ & E4)); [|split; cbn; [done|lia]|done|done].
  split; [done|]. split; [done|]. rewrite Ec. f_equal. cbn [in_b in_p] in *. apply Nat.eqb_eq in Ef.
  rewrite <- E4, Ef, E1. by apply slice_all.
Qed.

(** The parts of a frame whose header is accepted. *)
Lemma parse_header_Ok f kind total :
  is_bytes f -> parse_header f = inr (kind, total) ->
  16 <= total <= MAX_FRAME_BYTES
  /\ take 12 f = FRAME_MAGIC ++ put_u16 PROTOCOL_VERSION ++ [kind] ++ [0] ++ put_u32 (total - 16).
Proof.
  intros Hf H1. unfold parse_header in H1. destruct (len f <? _) eqn:El; [done|]. zbool. unfold HEADER_BYTES, zlen in El.
  destruct (negb (bool_decide _)) eqn:Em; [done|]. zbool. apply bool_decide_eq_true in Em. cbv zeta in H1.
  destruct (negb (_ =? PROTOCOL_VERSION)) eqn:Ev; [done|]. destruct (validate_kind _) as [|[]]; [done|]. cbn [p_bind] in H1.
  destruct (negb (nth 7 f 0 =? 0)) eqn:Er; [done|]. destruct (MAX_FRAME_BYTES <? _) eqn:Et; [done|]. injection H1 as <- <-. zbool.
  assert (B : forall a b, is_bytes (slice a b f)) by (intros; by apply slice_bytes).
  assert (L : forall a b, (a <= b <= 12)%nat -> length (slice a b f) = (b - a)%nat) by (intros; apply length_slice; lia).
  pose proof (from_be_bound (slice 8 12 f) (B _ _)) as Hp. rewrite L in Hp by lia.
  unfold HEADER_BYTES, CHECKSUM_BYTES in *. split; [lia|].
  replace (12 + from_be (slice 8 12 f) + 4 - 16) with (from_be (slice 8 12 f)) by lia.
  rewrite <- Em, <- Ev. unfold put_u16, put_u32.
  assert (R2 : to_be 2 (from_be (slice 4 6 f)) = slice 4 6 f)
    by (rewrite <- (to_from_be (slice 4 6 f)) at 2 by done; by rewrite (L 4%nat 6%nat) by lia).
  assert (R4 : to_be 4 (from_be (slice 8 12 f)) = slice 8 12 f)
    by (rewrite <- (to_from_be (slice 8 12 f)) at 2 by done; by rewrite (L 8%nat 12%nat) by lia).
  rewrite R2, R4. clear R2 R4 L B Hp Ev Em.
  destruct f as [|f0 [|f1 [|f2 [|f3 [|f4 [|f5 [|f6 [|f7 [|f8 [|f9 [|f10 [|f11 f]]]]]]]]]]]]; cbn [length] in El; try lia.
  cbn in Er. by subst f7.
Qed.

(** A frame that decodes is the encoding of what it decodes to. *)
Lemma encode_decode f m :
  is_bytes f -> decode f = inr m -> is_health m = false -> typed_message m /\ encode m = inr f.
Proof.
  intros Hf H1 Hh. unfold decode in H1. destruct (parse_header f) as [|[kind total]] eqn:Ep; [done|]. cbn [p_bind] in H1.
  destruct (_ <? _) eqn:E1; [done|]. destruct (total <? _) eqn:E2; [done|]. cbv zeta in H1.
  destruct (negb _) eqn:Ec; [done|]. zbool. apply parse_header_Ok in Ep as [Ht Eh]; [|done].
  apply payload_Ok in H1 as (Tm & Hk & Em); [|by apply slice_bytes|done]. split; [done|].
  unfold CHECKSUM_BYTES, HEADER_BYTES in *. change (Z.to_nat 12) with 12%nat in *.
  assert (Hlen : length f = Z.to_nat total) by (unfold zlen in *; lia).
  set (body := Z.to_nat (total - 4)) in *. assert (Hbody : (12 <= body)%nat /\ (body + 4 = length f)%nat) by lia.
  unfold encode. rewrite Em. cbn [p_bind].
  assert (Hpl : len (slice 12 body f) = total - 16) by (unfold zlen; rewrite length_slice; lia).
  rewrite Hpl. unfold MAX_PAYLOAD_BYTES, HEADER_BYTES, CHECKSUM_BYTES. rewrite (proj2 (Z.ltb_ge _ _)) by lia.
  assert (Eb : frame_body (message_kind m) (slice 12 body f) = take body f).
  { unfold frame_body. rewrite Hpl, Hk. transitivity (take 12 f ++ slice 12 body f); [by rewrite Eh, <- !app_assoc|].
    change (take 12 f) with (take (12 - 0) (drop 0 f)). fold (slice 0 12 f). rewrite slice_slice_app by lia.
    unfold slice. by rewrite Nat.sub_0_r. }
  rewrite Eb, <- Ec. f_equal. unfold put_u32. rewrite <- Hlen.
  assert (Hs : length (slice body (length f) f) = 4%nat) by (rewrite length_slice; lia).
  rewrite <- Hs, to_from_be by (by apply slice_bytes).
  change (take body f) with (take body (drop 0 f)). rewrite <- (Nat.sub_0_r body) at 1. fold (slice 0 body f).
  rewrite slice_slice_app by lia. by apply slice_all.
Qed.

End Frames.
