(* ===== verification/Columns.v ===== *)
(** * Columns: the column codec of [src/src/segment.rs]

    Variable-length integers, zigzag, delta-of-delta times and XOR-ed values:
    how a block of points of one series is written, and how it is read back
    from untrusted bytes. *)
From S2P Require Import Prelude Errors Bytes Float64 Model Transaction Codec.

Definition COLUMN_COUNT : nat := 7.
Definition MIN_ENCODED_POINT_BYTES : Z := 8.
Definition MAX_ENCODED_POINT_BYTES : Z := 89.

(** [minimum_encoded_bytes] and [maximum_encoded_bytes]. *)
Definition minimum_encoded_bytes (points : Z) : Z :=
  7 * 4 + 14 + u64_saturating_mul points MIN_ENCODED_POINT_BYTES.
Definition maximum_encoded_bytes (points : Z) : Z :=
  7 * 4 + u64_saturating_mul points MAX_ENCODED_POINT_BYTES.

(** ** Integers *)

Definition checked_delta (left right : Z) : Result Z :=
  ok_or (i64_checked_sub left right) (Serialization "timestamp delta overflows i64").

(** The loop of [write_unsigned_u64] and [write_unsigned_u128]; [fuel] is the
    number of 7-bit groups the width has. *)
Fixpoint write_varint (fuel : nat) (value : Z) : bytes :=
  match fuel with
  | O => []
  | S fuel =>
      if 128 <=? value then
        Z.lor (Z.land (value mod 256) 127) 128 :: write_varint fuel (Z.shiftr value 7)
      else [value mod 256]
  end.

Definition write_unsigned_u64 (value : Z) : bytes := write_varint 10 value.
Definition write_unsigned_u128 (value : Z) : bytes := write_varint 19 value.

(** [read_unsigned_u128_limited]; [fuel] is the number of bytes still allowed. *)
Fixpoint read_varint (fuel : nat) (byte_index value : Z) (source : bytes) (cursor : nat) (offset : Z)
    : Result (Z * nat) :=
  match fuel with
  | O => corruption offset "varint is too long"
  | S fuel =>
      match source !! cursor with
      | None => corruption offset "truncated varint"
      | Some byte =>
          let bits := Z.land byte 127 in
          let shift := byte_index * 7 in
          if (128 <=? shift) || ((shift =? 126) && (3 <? bits)) then corruption offset "varint overflows"
          else
            let value := Z.lor value (Z.shiftl bits shift) in
            if Z.land byte 128 =? 0 then Ok (value, S cursor)
            else read_varint fuel (byte_index + 1) value source (S cursor) offset
      end
  end.

Definition read_unsigned_u128 (source : bytes) (cursor : nat) (offset : Z) : Result (Z * nat) :=
  read_varint 19 0 0 source cursor offset.
Definition read_unsigned_u64 (source : bytes) (cursor : nat) (offset : Z) : Result (Z * nat) :=
  let? (value, cursor) := read_varint 10 0 0 source cursor offset in
  let? value := ok_or (u64_checked value) (Corruption offset (text "u64 varint overflows")) in
  Ok (value, cursor).

(** [((value as u64) << 1) ^ ((value >> 63) as u64)]. *)
Definition zigzag (value : Z) : Z :=
  Z.lxor (Z.shiftl (value mod 2 ^ 64) 1 mod 2 ^ 64) (Z.shiftr value 63 mod 2 ^ 64).
(** [((value >> 1) as i64) ^ -((value & 1) as i64)]. *)
Definition unzigzag (value : Z) : Z :=
  Z.lxor (to_signed 64 (Z.shiftr value 1)) (- Z.land value 1).

Definition write_signed (value : Z) : bytes := write_unsigned_u64 (zigzag value).
Definition read_signed (source : bytes) (cursor : nat) (offset : Z) : Result (Z * nat) :=
  let? (value, cursor) := read_unsigned_u64 source cursor offset in Ok (unzigzag value, cursor).

(** ** Writing *)

(** The first column: the first time, the first difference, then differences
    of differences. *)
Fixpoint encode_deltas (previous previous_delta : Z) (l : list Point) : Result bytes :=
  match l with
  | [] => Ok []
  | p :: rest =>
      let? delta := checked_delta (valid_time p) previous in
      let? delta_of_delta := checked_delta delta previous_delta in
      let? tail := encode_deltas (valid_time p) delta rest in
      Ok (write_signed delta_of_delta ++ tail)
  end.

Definition encode_times (points : list Point) : Result bytes :=
  match points with
  | [] => Err (Panic "encode_columns")
  | [p] => Ok (to_le 8 (valid_time p))
  | p :: q :: rest =>
      let? previous_delta := checked_delta (valid_time q) (valid_time p) in
      let? tail := encode_deltas (valid_time q) previous_delta rest in
      Ok (to_le 8 (valid_time p) ++ write_signed previous_delta ++ tail)
  end.

(** The other six columns. *)
Record Columns := mkColumns {
  col_end : bytes;
  col_knowledge : bytes;
  col_change : bytes;
  col_run : bytes;
  col_value : bytes;
  col_quality : bytes;
}.

Definition no_columns : Columns := mkColumns [] [] [] [] [] [].
Definition cols_app (a b : Columns) : Columns :=
  mkColumns (col_end a ++ col_end b) (col_knowledge a ++ col_knowledge b) (col_change a ++ col_change b)
    (col_run a ++ col_run b) (col_value a ++ col_value b) (col_quality a ++ col_quality b).

(** One turn of the loop over the points. *)
Definition encode_row (first : bool) (previous_bits : Z) (p : Point) : Result Columns :=
  let? e := checked_delta (valid_time_end p) (valid_time p) in
  let? k := checked_delta (knowledge_time p) (valid_time p) in
  let? c := checked_delta (change_time p) (knowledge_time p) in
  Ok (mkColumns (write_signed e) (write_signed k) (write_signed c)
        (write_unsigned_u128 (point_run_id p))
        (if first then to_le 8 (value p) else write_unsigned_u64 (Z.lxor (value p) previous_bits))
        (write_unsigned_u64 (quality p) ++ write_unsigned_u64 (flags p))).

Fixpoint encode_rows (first : bool) (previous_bits : Z) (points : list Point) : Result Columns :=
  match points with
  | [] => Ok no_columns
  | p :: rest =>
      let? row := encode_row first previous_bits p in
      let? rows := encode_rows false (value p) rest in
      Ok (cols_app row rows)
  end.

Definition encode_column (column : bytes) : Result bytes :=
  let? length := ok_or (u32_try_from (len column)) (Serialization "segment column is too large") in
  Ok (to_le 4 length ++ column).

Definition column_list (times : bytes) (c : Columns) : list bytes :=
  [times; col_end c; col_knowledge c; col_change c; col_run c; col_value c; col_quality c].

(** [encode_columns]. *)
Definition encode_columns (points : list Point) : Result bytes :=
  let? times := encode_times points in
  let? rows := encode_rows true 0 points in
  let? parts := try_map encode_column (column_list times rows) in
  Ok (concat parts).

(** ** Reading *)

(** [split_columns]: [n] columns from [cursor].  Slices are shorter than
    [isize::MAX], so that the cursor arithmetic does not overflow. *)
Fixpoint split_columns (n : nat) (encoded : bytes) (cursor : nat) (offset : Z) : Result (list bytes * nat) :=
  match n with
  | O => Ok ([], cursor)
  | S n =>
      if (length encoded <? cursor + 4)%nat then corruption offset "truncated segment column length"
      else
        let length' := Z.to_nat (from_le (slice cursor (cursor + 4) encoded)) in
        let start := (cursor + 4)%nat in
        let stop := (start + length')%nat in
        if (length encoded <? stop)%nat then corruption offset "truncated segment column"
        else
          let? (columns, cursor) := split_columns n encoded stop offset in
          Ok (slice start stop encoded :: columns, cursor)
  end.

Definition require_consumed (source : bytes) (cursor : nat) (offset : Z) (message : string) : Result unit :=
  if (cursor =? length source)%nat then Ok tt else corruption offset message.

(** The delta loop of [decode_columns]; [n] times are missing. *)
Fixpoint decode_deltas (n : nat) (source : bytes) (cursor : nat) (last previous_delta offset : Z)
    : Result (list Z * nat) :=
  match n with
  | O => Ok ([], cursor)
  | S n =>
      let? (delta_of_delta, cursor) := read_signed source cursor offset in
      let? previous_delta := ok_or (i64_checked_add previous_delta delta_of_delta)
        (Corruption offset (text "timestamp delta-of-delta overflows")) in
      let? next := ok_or (i64_checked_add last previous_delta)
        (Corruption offset (text "timestamp overflows")) in
      let? (times, cursor) := decode_deltas n source cursor next previous_delta offset in
      Ok (next :: times, cursor)
  end.

Definition decode_times (count : nat) (source : bytes) (offset : Z) : Result (list Z * nat) :=
  if (length source <? 8)%nat then corruption offset "truncated first timestamp"
  else
    let first := from_le_i64 (slice 0 8 source) in
    match count with
    | S (S n) =>
        let? (previous_delta, cursor) := read_signed source 8 offset in
        let? second := ok_or (i64_checked_add first previous_delta)
          (Corruption offset (text "timestamp delta overflows")) in
        let? (times, cursor) := decode_deltas n source cursor second previous_delta offset in
        Ok (first :: second :: times, cursor)
    | _ => Ok ([first], 8%nat)
    end.

(** The positions in the six columns. *)
Record Cursors := mkCursors {
  cur_end : nat;
  cur_knowledge : nat;
  cur_change : nat;
  cur_run : nat;
  cur_value : nat;
  cur_quality : nat;
}.

(** One turn of the row loop. *)
Definition decode_row (series_id : Z) (first : bool) (previous_bits : Z) (c : Columns) (k : Cursors)
    (time offset : Z) : Result (Point * Cursors) :=
  let? (valid_end_delta, c1) := read_signed (col_end c) (cur_end k) offset in
  let? (knowledge_delta, c2) := read_signed (col_knowledge c) (cur_knowledge k) offset in
  let? knowledge := ok_or (i64_checked_add time knowledge_delta)
    (Corruption offset (text "knowledge timestamp overflows")) in
  let? (change_delta, c3) := read_signed (col_change c) (cur_change k) offset in
  let? (run, c4) := read_unsigned_u128 (col_run c) (cur_run k) offset in
  let? (value_bits, c5) :=
    if first then
      if (length (col_value c) <? 8)%nat then corruption offset "truncated first value"
      else Ok (from_le (slice 0 8 (col_value c)), 8%nat)
    else
      let? (x, c5) := read_unsigned_u64 (col_value c) (cur_value k) offset in
      Ok (Z.lxor previous_bits x, c5) in
  let? (q, c6) := read_unsigned_u64 (col_quality c) (cur_quality k) offset in
  let? q := ok_or (u32_try_from q) (Corruption offset (text "quality exceeds u32")) in
  let? (f, c6) := read_unsigned_u64 (col_quality c) c6 offset in
  let? f := ok_or (u32_try_from f) (Corruption offset (text "flags exceed u32")) in
  let? valid_end := ok_or (i64_checked_add time valid_end_delta)
    (Corruption offset (text "valid end timestamp overflows")) in
  let? change := ok_or (i64_checked_add knowledge change_delta)
    (Corruption offset (text "change timestamp overflows")) in
  Ok (mkPoint series_id time valid_end knowledge change run value_bits q f,
      mkCursors c1 c2 c3 c4 c5 c6).

Fixpoint decode_rows (series_id : Z) (first : bool) (previous_bits : Z) (c : Columns) (k : Cursors)
    (times : list Z) (offset : Z) : Result (list Point * Cursors) :=
  match times with
  | [] => Ok ([], k)
  | t :: rest =>
      let? (p, k) := decode_row series_id first previous_bits c k t offset in
      let? (ps, k) := decode_rows series_id false (value p) c k rest offset in
      Ok (p :: ps, k)
  end.

(** [decode_columns]. *)
Definition decode_columns (encoded : bytes) (series_id : Z) (count : nat) (offset : Z) : Result (list Point) :=
  if (count =? 0)%nat then corruption offset "zero-point segment block"
  else if len encoded <? minimum_encoded_bytes (Z.of_nat count) then
    corruption offset "block point count exceeds payload capacity"
  else
    let? (columns, cursor) := split_columns COLUMN_COUNT encoded 0 offset in
    if negb (cursor =? length encoded)%nat then corruption offset "trailing segment column bytes"
    else
      match columns with
      | [c0; c1; c2; c3; c4; c5; c6] =>
          let? (times, timestamp_cursor) := decode_times count c0 offset in
          require_consumed c0 timestamp_cursor offset "trailing timestamp column bytes" ;?
          let c := mkColumns c1 c2 c3 c4 c5 c6 in
          let? (points, k) := decode_rows series_id true 0 c (mkCursors 0 0 0 0 0 0) times offset in
          require_consumed c1 (cur_end k) offset "trailing point column bytes" ;?
          require_consumed c2 (cur_knowledge k) offset "trailing point column bytes" ;?
          require_consumed c3 (cur_change k) offset "trailing point column bytes" ;?
          require_consumed c4 (cur_run k) offset "trailing point column bytes" ;?
          require_consumed c5 (cur_value k) offset "trailing point column bytes" ;?
          require_consumed c6 (cur_quality k) offset "trailing point column bytes" ;?
          Ok points
      | _ => Err (Panic "decode_columns")
      end.

(** Evaluation on a small block. *)
Example columns_example :
  let ps := [mkPoint 9 5 5 7 6 3 0 1 2; mkPoint 9 8 9 8 8 0 4607182418800017408 0 0;
             mkPoint 9 8 8 9 9 300 4611686018427387904 4294967295 7] in
  (let? b := encode_columns ps in decode_columns b 9 3 0) = Ok ps.
Proof. vm_compute. reflexivity. Qed.

(** ** Round trip *)

(** The cursor [cur] of [src] stands before [rest]. *)
Definition before (src : bytes) (cur : nat) (rest : bytes) : Prop :=
  exists pre, src = pre ++ rest /\ cur = length pre.

Lemma before_start src : before src 0 src.
Proof. by exists []. Qed.

Lemma before_skip src cur a rest :
  before src cur (a ++ rest) -> before src (cur + length a) rest.
Proof. intros (pre & -> & ->). exists (pre ++ a). rewrite <- app_assoc, length_app. done. Qed.

Lemma before_cons src cur b rest :
  before src cur (b :: rest) -> src !! cur = Some b /\ before src (S cur) rest.
Proof.
  intros H. split.
  - destruct H as (pre & -> & ->). by apply list_lookup_middle.
  - rewrite <- Nat.add_1_r. by apply (before_skip src cur [b]).
Qed.

Lemma before_end src cur : before src cur [] -> cur = length src.
Proof. intros (pre & -> & ->). by rewrite app_nil_r. Qed.

(** *** Bits *)

Lemma high_bits x n m : 0 <= x < 2 ^ n -> 0 <= n <= m -> Z.testbit x m = false.
Proof. intros Hx Hm. rewrite <- (Z.mod_small x (2 ^ n)), Z.mod_pow2_bits_high by lia. done. Qed.

Lemma lor_disjoint_add acc bits n :
  0 <= n -> 0 <= acc < 2 ^ n -> Z.lor acc (Z.shiftl bits n) = acc + bits * 2 ^ n.
Proof.
  intros Hn Ha. rewrite <- Z.shiftl_mul_pow2 by done.
  assert (E : Z.land acc (Z.shiftl bits n) = 0).
  { apply Z.bits_inj'. intros m Hm. rewrite Z.land_spec, Z.bits_0.
    destruct (Z.lt_ge_cases m n) as [Hl|Hl].
    - rewrite Z.shiftl_spec_low by done. apply andb_false_r.
    - rewrite (high_bits acc n) by lia. done. }
  by rewrite Z.add_nocarry_lxor, Z.lxor_lor.
Qed.

Lemma land_low7 z : Z.land z 127 = z mod 128.
Proof. apply (Z.land_ones z 7). lia. Qed.

Lemma small_high_bit z : 0 <= z < 128 -> Z.land z 128 = 0.
Proof.
  intros H. rewrite <- (Z.mod_small z 128), <- land_low7, <- Z.land_assoc by done. apply Z.land_0_r.
Qed.

Lemma continued_byte v :
  let b := Z.lor (Z.land (v mod 256) 127) 128 in Z.land b 127 = v mod 128 /\ Z.land b 128 = 128.
Proof.
  assert (E : Z.land (v mod 256) 127 = v mod 128).
  { rewrite land_low7. change 256 with (128 * 2). rewrite Z.rem_mul_r by lia.
    rewrite Z.mul_comm, Z_mod_plus_full. by rewrite Z.mod_mod. }
  cbv zeta. rewrite E, !Z.land_lor_distr_l, land_low7, Z.mod_mod by done. split.
  - apply Z.lor_0_r.
  - rewrite small_high_bit by (apply Z.mod_pos_bound; lia). done.
Qed.

Lemma ones_minus x n : 0 <= n -> 0 <= x < 2 ^ n -> Z.lxor x (Z.ones n) = Z.ones n - x.
Proof.
  intros Hn Hx.
  assert (High : forall m, n <= m -> Z.testbit x m = false) by (intros; apply (high_bits x n); lia).
  rewrite Z.sub_nocarry_ldiff.
  - apply Z.bits_inj'. intros m Hm. rewrite Z.lxor_spec, Z.ldiff_spec.
    destruct (Z.lt_ge_cases m n).
    + rewrite Z.ones_spec_low by lia. by destruct (Z.testbit x m).
    + rewrite Z.ones_spec_high, High by lia. done.
  - apply Z.bits_inj'. intros m Hm. rewrite Z.ldiff_spec, Z.bits_0.
    destruct (Z.lt_ge_cases m n).
    + rewrite Z.ones_spec_low by lia. apply andb_false_r.
    + by rewrite High.
Qed.

Lemma lxor_u64 a b : is_u64 a -> is_u64 b -> is_u64 (Z.lxor a b).
Proof.
  intros Ha Hb. unfold is_u64 in *.
  replace (Z.lxor a b) with (Z.lxor a b mod 2 ^ 64); [by apply Z.mod_pos_bound|].
  apply Z.bits_inj'. intros m Hm. destruct (Z.lt_ge_cases m 64).
  - by rewrite Z.mod_pow2_bits_low.
  - rewrite Z.mod_pow2_bits_high, Z.lxor_spec, !(high_bits _ 64 m) by lia. done.
Qed.

(** *** Variable-length integers *)

Lemma read_write_varint fuel : forall i acc v src cur rest off,
  0 <= v -> v < 2 ^ (7 * Z.of_nat fuel) -> 0 <= i -> i + Z.of_nat fuel <= 19 ->
  v * 2 ^ (i * 7) < 2 ^ 128 -> 0 <= acc < 2 ^ (i * 7) -> (0 < fuel)%nat ->
  before src cur (write_varint fuel v ++ rest) ->
  exists cur', read_varint fuel i acc src cur off = Ok (acc + v * 2 ^ (i * 7), cur')
    /\ before src cur' rest.
Proof.
  induction fuel as [|fuel IH]; intros i acc v src cur rest off Hv0 Hv Hi Hif Hw Ha Hf Hb; [lia|].
  rewrite Nat2Z.inj_succ in *. cbn [write_varint read_varint] in *.
  assert (Hs : i * 7 = 126 -> v < 4).
  { intros E. rewrite E in Hw. change (2 ^ 128) with (4 * 2 ^ 126) in Hw. nia. }
  assert (Hm : v mod 128 <= v) by (apply Z.mod_le; lia).
  assert (Guard : (128 <=? i * 7) || ((i * 7 =? 126) && (3 <? v mod 128)) = false).
  { apply orb_false_iff. split; [lia|]. apply andb_false_iff. destruct (Z.eq_dec (i * 7) 126); [right|left]; lia. }
  destruct (Z.leb_spec 128 v) as [Hl|Hl]; cbn [app] in Hb; apply before_cons in Hb as [-> Hb].
  - destruct (continued_byte v) as [E1 E2]. rewrite E1, E2, Guard. cbn [Z.eqb].
    rewrite lor_disjoint_add by lia.
    assert (Hp : 0 < 2 ^ (i * 7)) by (apply Z.pow_pos_nonneg; lia).
    assert (Hd : v = 128 * (v / 128) + v mod 128) by (apply Z.div_mod; lia).
    assert (Hq : 1 <= v / 128) by (apply Z.div_le_lower_bound; lia).
    assert (Hr : 0 <= v mod 128 < 128) by (apply Z.mod_pos_bound; lia).
    assert (E7 : 2 ^ ((i + 1) * 7) = 128 * 2 ^ (i * 7)).
    { replace ((i + 1) * 7) with (7 + i * 7) by lia. rewrite Z.pow_add_r by lia. done. }
    rewrite Z.shiftr_div_pow2 in Hb by lia. change (2 ^ 7) with 128 in Hb.
    replace (7 * Z.succ (Z.of_nat fuel)) with (7 + 7 * Z.of_nat fuel) in Hv by lia.
    rewrite Z.pow_add_r in Hv by lia. change (2 ^ 7) with 128 in Hv.
    edestruct (IH (i + 1) (acc + v mod 128 * 2 ^ (i * 7)) (v / 128)) as (cur' & -> & Hc);
      [lia|nia|lia|lia|rewrite E7; nia|rewrite E7; nia| |exact Hb|].
    { destruct fuel; [|lia]. cbn in Hv. lia. }
    exists cur'. split; [|done]. do 2 f_equal. rewrite E7. nia.
  - rewrite land_low7, (Z.mod_small v 256), Guard, small_high_bit by lia. cbn [Z.eqb].
    rewrite lor_disjoint_add, (Z.mod_small v 128) by lia. eauto.
Qed.

Lemma read_write_u64 v src cur rest off :
  is_u64 v -> before src cur (write_unsigned_u64 v ++ rest) ->
  exists cur', read_unsigned_u64 src cur off = Ok (v, cur') /\ before src cur' rest.
Proof.
  unfold is_u64. intros Hv Hb. unfold read_unsigned_u64.
  destruct (read_write_varint 10 0 0 v src cur rest off) as (cur' & -> & Hc); try done; try lia.
  exists cur'. cbn [bind]. rewrite Z.mul_1_r, Z.add_0_l, u64_checked_ok by done. done.
Qed.

Lemma read_write_u128 v src cur rest off :
  is_u128 v -> before src cur (write_unsigned_u128 v ++ rest) ->
  exists cur', read_unsigned_u128 src cur off = Ok (v, cur') /\ before src cur' rest.
Proof.
  unfold is_u128. intros Hv Hb. unfold read_unsigned_u128.
  destruct (read_write_varint 19 0 0 v src cur rest off) as (cur' & -> & Hc); try done; try lia.
  exists cur'. by rewrite Z.mul_1_r, Z.add_0_l.
Qed.

Lemma zigzag_value v : is_i64 v -> zigzag v = if 0 <=? v then 2 * v else - 2 * v - 1.
Proof.
  unfold is_i64, zigzag. intros Hv. rewrite Z.shiftl_mul_pow2, Z.shiftr_div_pow2 by lia.
  change (2 ^ 1) with 2. destruct (Z.leb_spec 0 v).
  - rewrite (Z.div_small v), (Z.mod_small v), Z.mod_small, Z.lxor_0_r by lia. lia.
  - replace (v / 2 ^ 63) with (-1) by (apply (Z.div_unique v (2 ^ 63) (-1) (v + 2 ^ 63)); lia).
    replace (v mod 2 ^ 64) with (v + 2 ^ 64)
      by (apply (Z.mod_unique v (2 ^ 64) (-1) (v + 2 ^ 64)); lia).
    replace (((v + 2 ^ 64) * 2) mod 2 ^ 64) with (2 * v + 2 ^ 64)
      by (apply (Z.mod_unique _ (2 ^ 64) 1); lia).
    change (-1 mod 2 ^ 64) with (Z.ones 64). rewrite ones_minus by lia.
    change (Z.ones 64) with (2 ^ 64 - 1). lia.
Qed.

Lemma zigzag_u64 v : is_i64 v -> is_u64 (zigzag v).
Proof. intros H. rewrite zigzag_value by done. unfold is_i64, is_u64 in *. destruct (Z.leb_spec 0 v); lia. Qed.

Lemma to_signed_small w z : 0 <= z < 2 ^ (w - 1) -> to_signed w z = z.
Proof. intros H. unfold to_signed. destruct (Z.ltb_spec z (2 ^ (w - 1))); lia. Qed.

Lemma unzigzag_zigzag v : is_i64 v -> unzigzag (zigzag v) = v.
Proof.
  intros H. unfold unzigzag. pose proof (zigzag_u64 v H) as Hu. unfold is_u64 in Hu.
  rewrite Z.shiftr_div_pow2 by lia. change (2 ^ 1) with 2.
  rewrite to_signed_small by (split; [apply Z.div_pos|apply Z.div_lt_upper_bound]; lia).
  change (Z.land (zigzag v) 1) with (Z.land (zigzag v) (Z.ones 1)).
  rewrite Z.land_ones by lia. change (2 ^ 1) with 2.
  rewrite zigzag_value by done. destruct (Z.leb_spec 0 v).
  - rewrite (Z.mul_comm 2), Z.div_mul, Z_mod_mult, Z.lxor_0_r by lia. done.
  - replace (- 2 * v - 1) with (1 + (- v - 1) * 2) by lia.
    rewrite Z.div_add, Z_mod_plus_full by lia. change (- (1 mod 2)) with (-1).
    rewrite Z.lxor_m1_r. unfold Z.lnot. change (1 / 2) with 0. lia.
Qed.

Lemma read_write_signed v src cur rest off :
  is_i64 v -> before src cur (write_signed v ++ rest) ->
  exists cur', read_signed src cur off = Ok (v, cur') /\ before src cur' rest.
Proof.
  intros Hv Hb. unfold read_signed, write_signed in *.
  destruct (read_write_u64 (zigzag v) src cur rest off) as (cur' & -> & Hc); [by apply zigzag_u64|done|].
  exists cur'. cbn [bind]. by rewrite unzigzag_zigzag.
Qed.

(** *** Sizes *)

Lemma write_varint_length fuel : forall v, (0 < fuel)%nat -> (1 <= length (write_varint fuel v) <= fuel)%nat.
Proof.
  induction fuel as [|fuel IH]; intros v Hf; [lia|]. cbn [write_varint].
  destruct (128 <=? v); cbn [length]; [|lia].
  destruct fuel as [|fuel]; [cbn; lia|]. specialize (IH (Z.shiftr v 7) ltac:(lia)). lia.
Qed.

Lemma write_u64_length v : (1 <= length (write_unsigned_u64 v) <= 10)%nat.
Proof. apply write_varint_length. lia. Qed.
Lemma write_u128_length v : (1 <= length (write_unsigned_u128 v) <= 19)%nat.
Proof. apply write_varint_length. lia. Qed.
Lemma write_signed_length v : (1 <= length (write_signed v) <= 10)%nat.
Proof. apply write_u64_length. Qed.

Definition cols_len (c : Columns) : nat :=
  length (col_end c) + length (col_knowledge c) + length (col_change c) + length (col_run c)
  + length (col_value c) + length (col_quality c).

Lemma cols_len_app a b : cols_len (cols_app a b) = (cols_len a + cols_len b)%nat.
Proof. unfold cols_len. cbn. rewrite !length_app. lia. Qed.

Lemma encode_row_length first bits p row :
  encode_row first bits p = Ok row ->
  (7 + (if first then 7 else 0) <= cols_len row <= 79)%nat.
Proof.
  unfold encode_row. intros H.
  apply bind_Ok in H as (e & _ & H). apply bind_Ok in H as (k & _ & H). apply bind_Ok in H as (c & _ & H).
  injection H as <-. unfold cols_len.
  cbn [col_end col_knowledge col_change col_run col_value col_quality]. rewrite length_app.
  pose proof (write_signed_length e). pose proof (write_signed_length k). pose proof (write_signed_length c).
  pose proof (write_u128_length (point_run_id p)). pose proof (write_u64_length (Z.lxor (value p) bits)).
  pose proof (write_u64_length (quality p)). pose proof (write_u64_length (flags p)).
  destruct first; rewrite ?length_to_le; lia.
Qed.

Lemma encode_rows_length ps : forall first bits rows,
  encode_rows first bits ps = Ok rows ->
  (7 * length ps + (if first then match ps with [] => 0 | _ => 7 end else 0) <= cols_len rows <= 79 * length ps)%nat.
Proof.
  induction ps as [|p ps IH]; intros first bits rows H; cbn [encode_rows] in H.
  - injection H as <-. cbn. by destruct first.
  - apply bind_Ok in H as (row & Hr & H). apply bind_Ok in H as (tail & Ht & H). injection H as <-.
    rewrite cols_len_app. apply encode_row_length in Hr. apply IH in Ht. cbn [length]. destruct first; lia.
Qed.

Lemma encode_deltas_length ps : forall prev delta b,
  encode_deltas prev delta ps = Ok b -> (length ps <= length b <= 10 * length ps)%nat.
Proof.
  induction ps as [|p ps IH]; intros prev delta b H; cbn [encode_deltas] in H.
  - injection H as <-. cbn. lia.
  - apply bind_Ok in H as (d & _ & H). apply bind_Ok in H as (dd & _ & H).
    apply bind_Ok in H as (tail & Ht & H). injection H as <-. apply IH in Ht.
    rewrite length_app. cbn [length]. pose proof (write_signed_length dd). lia.
Qed.

Lemma encode_times_length ps b :
  encode_times ps = Ok b -> (7 + length ps <= length b <= 10 * length ps)%nat.
Proof.
  destruct ps as [|p [|q rest]]; cbn [encode_times]; intros H; [done| |].
  - injection H as <-. rewrite length_to_le. cbn. lia.
  - apply bind_Ok in H as (d & _ & H). apply bind_Ok in H as (tail & Ht & H). injection H as <-.
    apply encode_deltas_length in Ht. rewrite !length_app, length_to_le. cbn [length].
    pose proof (write_signed_length d). lia.
Qed.

Lemma encode_column_Ok c b : encode_column c = Ok b -> b = to_le 4 (len c) ++ c /\ is_u32 (len c).
Proof.
  intros H. apply bind_Ok in H as (n & H & E). apply ok_or_Ok, u32_try_from_Some in H as [-> Hn].
  by injection E as <-.
Qed.

(** The layout of an encoded block. *)
Lemma encode_columns_Ok ps b :
  encode_columns ps = Ok b ->
  exists times rows, encode_times ps = Ok times /\ encode_rows true 0 ps = Ok rows
    /\ b = concat (map (fun c => to_le 4 (len c) ++ c) (column_list times rows))
    /\ Forall (fun c => is_u32 (len c)) (column_list times rows).
Proof.
  intros H. apply bind_Ok in H as (times & Ht & H). apply bind_Ok in H as (rows & Hr & H).
  apply bind_Ok in H as (parts & Hp & H). injection H as <-.
  exists times, rows. split; [done|]. split; [done|]. revert parts Hp.
  induction (column_list times rows) as [|c l IH]; intros parts Hp; cbn [try_map] in Hp.
  - injection Hp as <-. done.
  - apply bind_Ok in Hp as (x & Hx & Hp). apply bind_Ok in Hp as (xs & Hxs & Hp). injection Hp as <-.
    apply encode_column_Ok in Hx as [-> Hu]. destruct (IH _ Hxs) as [E Hl].
    cbn [map concat]. rewrite E. split; [done|by constructor].
Qed.

Lemma encode_columns_length ps b :
  encode_columns ps = Ok b ->
  42 + 8 * len ps <= len b <= 28 + 89 * len ps.
Proof.
  intros H. apply encode_columns_Ok in H as (times & rows & Ht & Hr & -> & _).
  assert (ps <> []) by (intros ->; discriminate Ht).
  apply encode_times_length in Ht. apply encode_rows_length in Hr. unfold cols_len in Hr.
  unfold zlen. cbn [column_list map concat]. rewrite !length_app, !length_to_le. cbn [length].
  destruct ps; [done|]. cbn [length] in *. lia.
Qed.

(** *** Decoding what was encoded *)

Lemma split_columns_concat cs : forall pre off,
  Forall (fun c => is_u32 (len c)) cs ->
  let b := pre ++ concat (map (fun c => to_le 4 (len c) ++ c) cs) in
  split_columns (length cs) b (length pre) off = Ok (cs, length b).
Proof.
  induction cs as [|c cs IH]; intros pre off Hcs; cbn [length split_columns map concat].
  - by rewrite app_nil_r.
  - apply Forall_cons in Hcs as [Hc Hcs]. cbv zeta.
    set (tail := concat (map (fun c => to_le 4 (len c) ++ c) cs)).
    assert (El : from_le (slice (length pre) (length pre + 4) (pre ++ (to_le 4 (len c) ++ c) ++ tail)) = len c).
    { rewrite <- app_assoc, slice_app_at by (by rewrite length_to_le). by apply from_to_le_u32. }
    rewrite El, zlen_nat.
    assert (Ec : slice (length pre + 4) (length pre + 4 + length c) (pre ++ (to_le 4 (len c) ++ c) ++ tail) = c).
    { replace (length pre + 4)%nat with (length (pre ++ to_le 4 (len c))) by (rewrite length_app, length_to_le; done).
      rewrite <- (app_assoc (to_le 4 (len c))), app_assoc. by apply slice_app_at. }
    rewrite Ec. rewrite !length_app, length_to_le.
    rewrite (proj2 (Nat.ltb_ge _ _)) by lia. rewrite (proj2 (Nat.ltb_ge _ _)) by lia.
    specialize (IH (pre ++ to_le 4 (len c) ++ c) off Hcs). fold tail in IH. cbv zeta in IH.
    rewrite !length_app, length_to_le, <- !app_assoc in IH.
    rewrite <- app_assoc, <- Nat.add_assoc, IH. cbn [bind]. do 2 f_equal. lia.
Qed.

Lemma checked_delta_Ok a b d : checked_delta a b = Ok d -> d = a - b /\ is_i64 d.
Proof.
  unfold checked_delta, i64_checked_sub. intros H. apply ok_or_Ok, i64_checked_Some in H as [-> H]. done.
Qed.

Lemma checked_add_back {e} a b d : checked_delta a b = Ok d -> is_i64 a -> ok_or (i64_checked_add b d) e = Ok a.
Proof.
  intros H Ha. apply checked_delta_Ok in H as [-> _]. unfold i64_checked_add.
  replace (b + (a - b)) with a by lia. by rewrite i64_checked_ok.
Qed.

Lemma decode_encode_deltas ps : forall prev delta b src cur rest off,
  encode_deltas prev delta ps = Ok b -> Forall typed_point ps -> is_i64 delta ->
  before src cur (b ++ rest) ->
  exists cur', decode_deltas (length ps) src cur prev delta off = Ok (map valid_time ps, cur')
    /\ before src cur' rest.
Proof.
  induction ps as [|p ps IH]; intros prev delta b src cur rest off H Hps Hd Hb; cbn [encode_deltas] in H.
  - injection H as <-. exists cur. done.
  - apply bind_Ok in H as (d & Hdelta & H). apply bind_Ok in H as (dd & Hdd & H).
    apply bind_Ok in H as (tail & Ht & H). injection H as <-. apply Forall_cons in Hps as [Hp Hps].
    rewrite <- app_assoc in Hb.
    assert (Hd' : is_i64 d) by (by apply checked_delta_Ok in Hdelta as [_ ?]).
    assert (Hdd' : is_i64 dd) by (by apply checked_delta_Ok in Hdd as [_ ?]).
    destruct (read_write_signed dd src cur _ off Hdd' Hb) as (c1 & E1 & B1).
    destruct (IH _ _ _ src c1 rest off Ht Hps Hd' B1) as (c2 & E2 & B2).
    exists c2. cbn [length decode_deltas map]. rewrite E1. cbn [bind].
    rewrite (checked_add_back _ _ _ Hdd Hd'). cbn [bind].
    rewrite (checked_add_back _ _ _ Hdelta) by apply Hp. cbn [bind]. by rewrite E2.
Qed.

Lemma decode_encode_times ps b off :
  encode_times ps = Ok b -> Forall typed_point ps ->
  decode_times (length ps) b off = Ok (map valid_time ps, length b).
Proof.
  intros H Hps. pose proof (encode_times_length _ _ H) as Hl. unfold decode_times.
  destruct ps as [|p [|q rest]]; cbn [encode_times length map] in *; [done| |].
  - injection H as <-. rewrite length_to_le, slice_all by apply length_to_le. cbn.
    apply Forall_cons in Hps as [Hp _]. by rewrite from_to_le_i64 by apply Hp.
  - apply bind_Ok in H as (d & Hd & H). apply bind_Ok in H as (tail & Ht & H). injection H as <-.
    apply Forall_cons in Hps as [Hp Hps]. apply Forall_cons in Hps as [Hq Hps].
    rewrite (proj2 (Nat.ltb_ge _ _)) by lia.
    rewrite slice_app_l by apply length_to_le. rewrite from_to_le_i64 by apply Hp.
    assert (Hd' : is_i64 d) by (by apply checked_delta_Ok in Hd as [_ ?]).
    set (b := to_le 8 (valid_time p) ++ write_signed d ++ tail).
    assert (B0 : before b 8 (write_signed d ++ tail)) by (exists (to_le 8 (valid_time p)); by rewrite length_to_le).
    destruct (read_write_signed d b 8 tail off Hd' B0) as (c1 & E1 & B1).
    rewrite <- (app_nil_r tail) in B1.
    destruct (decode_encode_deltas rest _ _ _ b c1 [] off Ht Hps Hd' B1) as (c2 & E2 & B2).
    rewrite E1. cbn [bind]. rewrite (checked_add_back _ _ _ Hd) by apply Hq. cbn [bind].
    rewrite E2. cbn [bind]. by rewrite (before_end _ _ B2).
Qed.

(** The six cursors stand before [rest]. *)
Record before_rows (c : Columns) (k : Cursors) (rest : Columns) : Prop := {
  before_col_end : before (col_end c) (cur_end k) (col_end rest);
  before_col_knowledge : before (col_knowledge c) (cur_knowledge k) (col_knowledge rest);
  before_col_change : before (col_change c) (cur_change k) (col_change rest);
  before_col_run : before (col_run c) (cur_run k) (col_run rest);
  before_col_value : before (col_value c) (cur_value k) (col_value rest);
  before_col_quality : before (col_quality c) (cur_quality k) (col_quality rest);
}.

(** The value column: eight bytes for the first value, then XOR-ed bits. *)
Lemma read_value_column (first : bool) bits v src cur rest off :
  is_u64 v -> is_u64 bits -> (first = true -> cur = 0%nat) ->
  before src cur ((if first then to_le 8 v else write_unsigned_u64 (Z.lxor v bits)) ++ rest) ->
  exists cur',
    (if first then
       if (length src <? 8)%nat then corruption off "truncated first value"
       else Ok (from_le (slice 0 8 src), 8%nat)
     else let? (x, c5) := read_unsigned_u64 src cur off in Ok (Z.lxor bits x, c5)) = Ok (v, cur')
    /\ before src cur' rest.
Proof.
  intros Hv Hbits Hcur Hb. destruct first.
  - specialize (Hcur eq_refl). subst cur. exists 8%nat.
    pose proof (before_skip _ _ _ _ Hb) as Hn. rewrite length_to_le in Hn.
    destruct Hb as ([|? ?] & -> & E); [|discriminate E]. cbn [app].
    rewrite length_app, length_to_le, slice_app_l by apply length_to_le. cbn.
    by rewrite from_to_le_u64.
  - destruct (read_write_u64 _ _ _ _ off (lxor_u64 _ _ Hv Hbits) Hb) as (c & -> & Hc).
    exists c. cbn [bind]. split; [|done]. do 2 f_equal.
    by rewrite Z.lxor_comm, Z.lxor_assoc, Z.lxor_nilpotent, Z.lxor_0_r.
Qed.

Lemma decode_encode_row first bits p row rest c k off :
  encode_row first bits p = Ok row -> typed_point p -> is_u64 bits ->
  (first = true -> cur_value k = 0%nat) -> before_rows c k (cols_app row rest) ->
  exists k', decode_row (series p) first bits c k (valid_time p) off = Ok (p, k') /\ before_rows c k' rest.
Proof.
  intros H Hp Hbits Hfirst [B1 B2 B3 B4 B5 B6]. unfold encode_row in H.
  apply bind_Ok in H as (e & He & H). apply bind_Ok in H as (kn & Hk & H). apply bind_Ok in H as (ch & Hc & H).
  injection H as <-. cbn [cols_app col_end col_knowledge col_change col_run col_value col_quality] in *.
  destruct Hp as (_ & T1 & T2 & T3 & T4 & T5 & T6 & T7 & T8).
  destruct (read_write_signed e _ _ _ off (proj2 (checked_delta_Ok _ _ _ He)) B1) as (c1 & E1 & N1).
  destruct (read_write_signed kn _ _ _ off (proj2 (checked_delta_Ok _ _ _ Hk)) B2) as (c2 & E2 & N2).
  destruct (read_write_signed ch _ _ _ off (proj2 (checked_delta_Ok _ _ _ Hc)) B3) as (c3 & E3 & N3).
  destruct (read_write_u128 _ _ _ _ off T5 B4) as (c4 & E4 & N4).
  destruct (read_value_column first bits _ _ _ _ off T6 Hbits Hfirst B5) as (c5 & E5 & N5).
  rewrite <- app_assoc in B6.
  assert (U32 : forall z, is_u32 z -> is_u64 z) by (unfold is_u32, is_u64; lia).
  destruct (read_write_u64 _ _ _ _ off (U32 _ T7) B6) as (c6 & E6 & B6').
  destruct (read_write_u64 _ _ _ _ off (U32 _ T8) B6') as (c7 & E7 & N6).
  exists (mkCursors c1 c2 c3 c4 c5 c7). split; [|by constructor].
  unfold decode_row. rewrite E1. cbn [bind]. rewrite E2. cbn [bind].
  rewrite (checked_add_back _ _ _ Hk T3). cbn [bind]. rewrite E3. cbn [bind]. rewrite E4. cbn [bind].
  rewrite E5. cbn [bind]. rewrite E6. cbn [bind].
  rewrite (proj2 (u32_try_from_Some (quality p) _) (conj eq_refl T7)). cbn [bind ok_or].
  rewrite E7. cbn [bind]. rewrite (proj2 (u32_try_from_Some (flags p) _) (conj eq_refl T8)). cbn [bind ok_or].
  rewrite (checked_add_back _ _ _ He T2). cbn [bind]. rewrite (checked_add_back _ _ _ Hc T4). cbn [bind].
  by destruct p.
Qed.

Lemma decode_encode_rows s ps : forall first bits rows rest c k off,
  encode_rows first bits ps = Ok rows -> Forall typed_point ps -> Forall (fun p => series p = s) ps ->
  is_u64 bits -> (first = true -> cur_value k = 0%nat) -> before_rows c k (cols_app rows rest) ->
  exists k', decode_rows s first bits c k (map valid_time ps) off = Ok (ps, k') /\ before_rows c k' rest.
Proof.
  induction ps as [|p ps IH]; intros first bits rows rest c k off H Hps Hs Hbits Hf Hb;
    cbn [encode_rows map decode_rows] in *.
  - injection H as <-. exists k. split; [done|]. by destruct rest.
  - apply bind_Ok in H as (row & Hr & H). apply bind_Ok in H as (tail & Ht & H). injection H as <-.
    apply Forall_cons in Hps as [Hp Hps]. apply Forall_cons in Hs as [<- Hs].
    assert (Hb' : before_rows c k (cols_app row (cols_app tail rest))).
    { destruct Hb as [B1 B2 B3 B4 B5 B6]. unfold cols_app in *; cbn in *. rewrite <- !app_assoc in *.
      by constructor. }
    destruct (decode_encode_row first bits p row _ c k off Hr Hp Hbits Hf Hb') as (k1 & E1 & B1).
    destruct (IH false (value p) tail rest c k1 off Ht Hps Hs) as (k2 & E2 & B2); [apply Hp|done|done|].
    exists k2. rewrite E1. cbn [bind]. by rewrite E2.
Qed.

Lemma require_consumed_all src cur off m : before src cur [] -> require_consumed src cur off m = Ok tt.
Proof. intros H. unfold require_consumed. by rewrite (before_end _ _ H), Nat.eqb_refl. Qed.

Lemma minimum_encoded_bytes_small n : 0 <= n < 2 ^ 32 -> minimum_encoded_bytes n = 42 + 8 * n.
Proof.
  intros H. unfold minimum_encoded_bytes, u64_saturating_mul, MIN_ENCODED_POINT_BYTES, u64_max. lia.
Qed.
Lemma maximum_encoded_bytes_small n : 0 <= n < 2 ^ 32 -> maximum_encoded_bytes n = 28 + 89 * n.
Proof.
  intros H. unfold maximum_encoded_bytes, u64_saturating_mul, MAX_ENCODED_POINT_BYTES, u64_max. lia.
Qed.

(** A block that was encoded is decoded to the same points, bit for bit. *)
Lemma decode_encode_columns s ps b off :
  encode_columns ps = Ok b -> Forall typed_point ps -> Forall (fun p => series p = s) ps ->
  len ps < 2 ^ 32 -> decode_columns b s (length ps) off = Ok ps.
Proof.
  intros H Hps Hs Hn. pose proof (encode_columns_length _ _ H) as Hl.
  apply encode_columns_Ok in H as (times & rows & Ht & Hr & Eb & Hu).
  assert (Hne : ps <> []) by (intros ->; discriminate Ht).
  pose proof (split_columns_concat (column_list times rows) [] off Hu) as Es. cbv zeta in Es.
  cbn [app] in Es. rewrite <- Eb in Es.
  unfold decode_columns. fold (zlen ps). rewrite minimum_encoded_bytes_small by (split; [apply zlen_nonneg|done]).
  rewrite (proj2 (Nat.eqb_neq _ _)) by (by destruct ps).
  rewrite (proj2 (Z.ltb_ge _ _)) by lia.
  change (split_columns COLUMN_COUNT b 0 off = Ok (column_list times rows, length b)) in Es.
  rewrite Es. cbn [bind column_list]. rewrite Nat.eqb_refl. cbn [negb].
  rewrite (decode_encode_times _ _ _ Ht Hps). cbn [bind].
  rewrite (require_consumed_all times) by (exists times; by rewrite app_nil_r). cbn [bind].
  destruct (decode_encode_rows s ps true 0 rows no_columns rows (mkCursors 0 0 0 0 0 0) off Hr Hps Hs)
    as (k & Ek & [B1 B2 B3 B4 B5 B6]); [unfold is_u64; lia|done| |].
  { constructor; cbn; rewrite app_nil_r; apply before_start. }
  destruct rows as [r1 r2 r3 r4 r5 r6]. cbn [col_end col_knowledge col_change col_run col_value col_quality] in *.
  rewrite Ek. cbn [bind]. rewrite !require_consumed_all by done. done.
Qed.

(** *** When encoding succeeds *)

(** Times within 2^61 microseconds of the epoch (more than 70,000 years):
    no difference of differences overflows. *)
Definition near (t : Z) : Prop := - 2 ^ 61 <= t < 2 ^ 61.
Definition near_times (p : Point) : Prop :=
  near (valid_time p) /\ near (valid_time_end p) /\ near (knowledge_time p) /\ near (change_time p).

Lemma checked_delta_fits a b : is_i64 (a - b) -> checked_delta a b = Ok (a - b).
Proof. intros H. unfold checked_delta, i64_checked_sub. by rewrite i64_checked_ok. Qed.

Lemma encode_deltas_total ps : forall prev delta,
  Forall near_times ps -> near prev -> - 2 ^ 62 <= delta < 2 ^ 62 ->
  exists b, encode_deltas prev delta ps = Ok b.
Proof.
  induction ps as [|p ps IH]; intros prev delta Hps Hprev Hd; cbn [encode_deltas]; [eauto|].
  apply Forall_cons in Hps as [[Hp _] Hps]. unfold near in *.
  rewrite checked_delta_fits by (unfold is_i64; lia). cbn [bind].
  rewrite checked_delta_fits by (unfold is_i64; lia). cbn [bind].
  destruct (IH (valid_time p) (valid_time p - prev) Hps Hp ltac:(lia)) as [b ->]. eauto.
Qed.

Lemma encode_times_total ps : ps <> [] -> Forall near_times ps -> exists b, encode_times ps = Ok b.
Proof.
  destruct ps as [|p [|q rest]]; intros Hne Hps; cbn [encode_times]; [done|eauto|].
  apply Forall_cons in Hps as [[Hp _] Hps]. apply Forall_cons in Hps as [[Hq _] Hps]. unfold near in *.
  rewrite checked_delta_fits by (unfold is_i64; lia). cbn [bind].
  destruct (encode_deltas_total rest (valid_time q) (valid_time q - valid_time p) Hps Hq ltac:(lia)) as [b ->].
  eauto.
Qed.

Lemma encode_rows_total ps : forall first bits, Forall near_times ps -> exists rows, encode_rows first bits ps = Ok rows.
Proof.
  induction ps as [|p ps IH]; intros first bits Hps; cbn [encode_rows]; [eauto|].
  apply Forall_cons in Hps as [(H1 & H2 & H3 & H4) Hps]. unfold near, encode_row in *.
  rewrite !checked_delta_fits by (unfold is_i64; lia). cbn [bind].
  destruct (IH false (value p) Hps) as [rows ->]. eauto.
Qed.

Lemma encode_column_fits c : is_u32 (len c) -> encode_column c = Ok (to_le 4 (len c) ++ c).
Proof. intros H. unfold encode_column. by rewrite (proj2 (u32_try_from_Some _ _) (conj eq_refl H)). Qed.

Lemma encode_columns_total ps :
  ps <> [] -> Forall near_times ps -> 89 * len ps < 2 ^ 32 -> exists b, encode_columns ps = Ok b.
Proof.
  intros Hne Hps Hn. unfold encode_columns.
  destruct (encode_times_total ps Hne Hps) as [times Ht]. destruct (encode_rows_total ps true 0 Hps) as [rows Hr].
  rewrite Ht, Hr. cbn [bind column_list try_map].
  apply encode_times_length in Ht. apply encode_rows_length in Hr. unfold cols_len in Hr.
  rewrite !encode_column_fits by (unfold is_u32, zlen in *; lia). cbn [bind]. eauto.
Qed.
