(* ===== verification/Effects.v ===== *)
(** * Effects: the state-and-error monad and the file the log lives in

    Methods that take [&mut self] and return [Result] become functions of the
    state that return the state after the call, also when they fail. *)
From S2P Require Import Prelude Errors Bytes.

(** ** Fallible operations on a state *)

Definition ST (S A : Type) : Type := S -> S * Result A.

Definition st_ret {S A} (a : A) : ST S A := fun s => (s, Ok a).
Definition st_err {S A} (e : Error) : ST S A := fun s => (s, Err e).
Definition st_get {S} : ST S S := fun s => (s, Ok s).
Definition st_modify {S} (f : S -> S) : ST S unit := fun s => (f s, Ok tt).
Definition st_bind {S A B} (m : ST S A) (k : A -> ST S B) : ST S B :=
  fun s => let '(s', r) := m s in
           match r with Ok a => k a s' | Err e => (s', Err e) end.

(** A pure fallible computation, and an early return. *)
Definition st_lift {S A} (r : Result A) : ST S A := fun s => (s, r).
Definition st_reject {S} (cond : bool) (e : Error) : ST S unit := st_lift (reject cond e).

Notation "'let*' x := m 'in' k" := (st_bind m (fun x => k))
  (at level 10, x pattern, m at level 100, k at level 200) : ftw_scope.
Notation "m ;* k" := (st_bind m (fun _ : unit => k))
  (at level 199, right associativity) : ftw_scope.

Fixpoint st_for_each {S A} (f : A -> ST S unit) (l : list A) : ST S unit :=
  match l with
  | [] => st_ret tt
  | x :: t => f x ;* st_for_each f t
  end.

Fixpoint st_map {S A B} (f : A -> ST S B) (l : list A) : ST S (list B) :=
  match l with
  | [] => st_ret []
  | x :: t => let* y := f x in let* ys := st_map f t in st_ret (y :: ys)
  end.

Fixpoint st_fold {S T A} (f : T -> A -> ST S T) (acc : T) (l : list A) : ST S T :=
  match l with
  | [] => st_ret acc
  | x :: rest => let* acc := f acc x in st_fold f acc rest
  end.

(** An operation on a component of the state. *)
Definition st_zoom {S T A} (get : S -> T) (set : T -> S -> S) (m : ST T A) : ST S A :=
  fun s => let '(t, r) := m (get s) in (set t s, r).

Lemma st_bind_run {S A B} (m : ST S A) (k : A -> ST S B) s s1 a : m s = (s1, Ok a) -> st_bind m k s = k a s1.
Proof. intros E. unfold st_bind. by rewrite E. Qed.

Lemma st_bind_Ok {S A B} (m : ST S A) (k : A -> ST S B) s s' b :
  st_bind m k s = (s', Ok b) <-> exists a s1, m s = (s1, Ok a) /\ k a s1 = (s', Ok b).
Proof.
  unfold st_bind. destruct (m s) as [s1 [a|e]]; split.
  - intros E. eauto.
  - intros (a' & s2 & [= <- <-] & E). done.
  - done.
  - intros (a' & s2 & [=] & _).
Qed.

Lemma st_lift_Ok {S A} (r : Result A) (s s' : S) a : st_lift r s = (s', Ok a) <-> s' = s /\ r = Ok a.
Proof. unfold st_lift. naive_solver. Qed.

Lemma st_reject_Ok {S} c e (s s' : S) u : st_reject c e s = (s', Ok u) <-> s' = s /\ c = false.
Proof. unfold st_reject. rewrite st_lift_Ok, reject_Ok. done. Qed.

Lemma st_for_each_app {S A} (f : A -> ST S unit) l k s :
  st_for_each f (l ++ k) s = (st_for_each f l ;* st_for_each f k) s.
Proof.
  revert s. induction l as [|x l IH]; intros s; simpl; [done|].
  unfold st_bind in *. destruct (f x s) as [s1 [u|e]]; [apply IH|done].
Qed.

(** Reads the success of a stateful computation backwards. *)
Ltac st_inv :=
  repeat match goal with
         | H : st_bind _ _ _ = (_, Ok _) |- _ =>
             let a := fresh "v" in let s := fresh "s" in
             let H1 := fresh "H" in let H2 := fresh "H" in
             apply st_bind_Ok in H as (a & s & H1 & H2)
         | H : st_lift _ _ = (_, Ok _) |- _ => apply st_lift_Ok in H as [-> H]
         | H : st_reject _ _ _ = (_, Ok _) |- _ => apply st_reject_Ok in H as [-> H]
         | H : st_ret _ _ = (_, Ok _) |- _ => unfold st_ret in H; injection H as H; subst
         | H : st_get _ = (_, Ok _) |- _ => unfold st_get in H; injection H as H; subst
         | H : st_modify _ _ = (_, Ok _) |- _ => unfold st_modify in H; injection H as H; subst
         | H : st_err _ _ = (_, Ok _) |- _ => discriminate H
         | u : unit |- _ => destruct u
         end; ok_inv.

(** ** Callers with errors of their own

    Functions generic in [E: From<Error>] run closures that fail with [E]. *)
Definition EM (S E A : Type) : Type := S -> S * (E + A).

Definition em_ret {S E A} (a : A) : EM S E A := fun s => (s, inr a).
Definition em_err {S E A} (e : E) : EM S E A := fun s => (s, inl e).
Definition em_get {S E} : EM S E S := fun s => (s, inr s).
Definition em_put {S E} (s' : S) : EM S E unit := fun _ => (s', inr tt).
Definition em_bind {S E A B} (m : EM S E A) (k : A -> EM S E B) : EM S E B :=
  fun s => let '(s', r) := m s in
           match r with inr a => k a s' | inl e => (s', inl e) end.

Notation "'let^' x := m 'in' k" := (em_bind m (fun x => k))
  (at level 10, x pattern, m at level 100, k at level 200) : ftw_scope.
Notation "m ;^ k" := (em_bind m (fun _ : unit => k))
  (at level 199, right associativity) : ftw_scope.

(** [?] on an operation that fails with [Error], through [E::from]. *)
Definition em_from {S E A} (from : Error -> E) (m : ST S A) : EM S E A :=
  fun s => let '(s', r) := m s in (s', match r with Ok a => inr a | Err e => inl (from e) end).
Definition em_lift {S E A} (r : E + A) : EM S E A := fun s => (s, r).

Fixpoint em_for_each {S E A} (f : A -> EM S E unit) (l : list A) : EM S E unit :=
  match l with
  | [] => em_ret tt
  | x :: t => f x ;^ em_for_each f t
  end.

Fixpoint em_fold {S E T A} (f : T -> A -> EM S E T) (acc : T) (l : list A) : EM S E T :=
  match l with
  | [] => em_ret acc
  | x :: t => let^ acc' := f acc x in em_fold f acc' t
  end.

Lemma em_bind_inr {S E A B} (m : EM S E A) (k : A -> EM S E B) s s' b :
  em_bind m k s = (s', inr b) <-> exists a s1, m s = (s1, inr a) /\ k a s1 = (s', inr b).
Proof.
  unfold em_bind. destruct (m s) as [s1 [e|a]]; split.
  - done.
  - intros (a' & s2 & [=] & _).
  - intros E'. eauto.
  - intros (a' & s2 & [= <- <-] & E'). done.
Qed.

Lemma em_bind_run {S E A B} (m : EM S E A) (k : A -> EM S E B) s s1 a : m s = (s1, inr a) -> em_bind m k s = k a s1.
Proof. intros E'. unfold em_bind. by rewrite E'. Qed.

Lemma em_bind_ext {S E A B} (m m' : EM S E A) (k k' : A -> EM S E B) s :
  m s = m' s -> (forall a s, k a s = k' a s) -> em_bind m k s = em_bind m' k' s.
Proof. unfold em_bind. intros -> Hk. destruct (m' s) as [s1 [e|a]]; [done|apply Hk]. Qed.

Lemma em_for_each_ext {S E A} (f g : A -> EM S E unit) l : forall s,
  (forall x s, x ∈ l -> f x s = g x s) -> em_for_each f l s = em_for_each g l s.
Proof.
  induction l as [|x l IH]; intros s Hf; cbn [em_for_each]; [done|].
  apply em_bind_ext; [apply Hf; left|]. intros _ s'. apply IH. intros y s'' Hy. apply Hf. by right.
Qed.

(** ** The log file

    [contents] is what the kernel shows; the first [synced] bytes are known to
    be on the medium.  [faults] decides the coming I/O calls, one entry per
    call: [None] (or an exhausted list) is a call that succeeds, and a fault
    carries the error and how much of a write had reached the file. *)
Record Fault := mkFault { fault_kind : string; fault_written : nat }.

Record File := mkFile {
  contents : bytes;
  synced : nat;
  faults : list (option Fault);
}.

Definition set_contents (c : bytes) (f : File) : File := mkFile c (synced f) (faults f).
Definition set_synced (n : nat) (f : File) : File := mkFile (contents f) n (faults f).

Definition next_fault (f : File) : option Fault * File :=
  match faults f with
  | [] => (None, f)
  | o :: rest => (o, mkFile (contents f) (synced f) rest)
  end.

(** A call with no partial effect. *)
Definition f_call {A} (op : ST File A) : ST File A :=
  fun f => match next_fault f with
           | (Some fault, f) => (f, Err (Io (fault_kind fault)))
           | (None, f) => op f
           end.

(** [file.metadata()?.len()] and [file.seek(SeekFrom::End(0))]. *)
Definition f_len : ST File Z := f_call (fun f => (f, Ok (len (contents f)))).

(** [file.write_all(data)] with the cursor at the end. *)
Definition f_write_all (data : bytes) : ST File unit :=
  fun f => match next_fault f with
           | (Some fault, f) =>
               (set_contents (contents f ++ take (fault_written fault) data) f,
                Err (Io (fault_kind fault)))
           | (None, f) => (set_contents (contents f ++ data) f, Ok tt)
           end.

(** [file.sync_data()] and [file.sync_all()]. *)
Definition f_sync : ST File unit :=
  f_call (fun f => (set_synced (length (contents f)) f, Ok tt)).

(** [file.set_len(n)] with [n] not above the length. *)
Definition f_set_len (n : Z) : ST File unit :=
  f_call (fun f => let c := take (Z.to_nat n) (contents f) in
                   (mkFile c (Nat.min (synced f) (length c)) (faults f), Ok tt)).

(** [file.read_exact_at(buffer, offset)] into a buffer of [n] bytes. *)
Definition f_read_exact_at (n offset : Z) : ST File bytes :=
  f_call (fun f =>
    if len (contents f) <? offset + n then (f, Err (Io "UnexpectedEof"))
    else (f, Ok (slice (Z.to_nat offset) (Z.to_nat (offset + n)) (contents f)))).

(** Reading the whole file from its start through a buffered reader. *)
Definition f_read_all : ST File bytes := f_call (fun f => (f, Ok (contents f))).

(** What a power loss can leave of an append-only file: at least the synced
    prefix, and possibly more of what was written after it. *)
Definition crash (f : File) (left : bytes) : Prop :=
  exists n, (synced f <= n)%nat /\ left = take n (contents f).
