(* ===== verification/Segment.v ===== *)
(** * Segment: [src/src/segment.rs]

    An immutable segment file: a header, one block of column-encoded points
    after another, and an index with one entry per block.  [Segment_create]
    builds the bytes that are published under the segment's name;
    [Segment_open] reads the header and the index of untrusted bytes; blocks
    are read on demand.

    A segment is opened read-only and its file is never written again, so
    that an open segment carries the contents of its file; reads fail exactly
    when they reach past its end.  LZ4 ([lz4_flex]) is a parameter. *)
From S2P Require Import Prelude Errors Bytes Float64 Model Transaction Catalog Query Codec Columns Effects.

(** [lz4_flex::block]: [compress_prepend_size] and [decompress]. *)
Class Lz4 := {
  compress_prepend_size : bytes -> bytes;
  lz4_decompress : bytes -> Z -> option bytes;
}.

(** The documented behaviour: the size of the input as four little-endian
    bytes, then an LZ4 stream that decompresses to the input and that is at
    least 1/255 of its size. *)
Class Lz4Laws `{Lz4} := {
  lz4_stream : bytes -> bytes;
  lz4_layout : forall x, compress_prepend_size x = to_le 4 (len x) ++ lz4_stream x;
  lz4_roundtrip : forall x, lz4_decompress (lz4_stream x) (len x) = Some x;
  lz4_ratio : forall x, len x <= 255 * len (lz4_stream x);
}.

Definition SEGMENT_MAGIC : bytes := bstr "WSEG0001".
Definition SEGMENT_VERSION : Z := 1.
Definition SEGMENT_HEADER_BYTES : Z := 40.
Definition BLOCK_MAGIC : bytes := bstr "WBLK".
Definition BLOCK_VERSION : Z := 1.
Definition BLOCK_HEADER_BYTES : Z := 56.
Definition BLOCK_ENCODING_COLUMN_V1 : Z := 1.
Definition COMPRESSION_RAW : Z := 0.
Definition COMPRESSION_LZ4 : Z := 1.
Definition INDEX_MAGIC : bytes := bstr "WIDX".
Definition INDEX_VERSION : Z := 1.
Definition INDEX_HEADER_BYTES : Z := 16.
Definition INDEX_ENTRY_BYTES : Z := 40.
Definition MAX_BLOCK_POINTS : Z := 262144.
Definition MAX_LZ4_RATIO : Z := 255.

Record SegmentStats := mkSegmentStats {
  blocks : Z;
  seg_point_total : Z;
  stored_bytes : Z;
  logical_point_bytes : Z;
}.

Record IndexEntry := mkIndexEntry {
  ie_series : Z;
  min_time : Z;
  max_time : Z;
  ie_offset : Z;
  ie_length : Z;
  ie_points : Z;
}.

Record Segment := mkSegment {
  seg_file : bytes;
  seg_index : list IndexEntry;
  seg_stats : SegmentStats;
}.

(** [file.read_exact_at] on the contents of the file. *)
Definition read_exact_at (file : bytes) (n offset : Z) : Result bytes :=
  if len file <? offset + n then Err (Io "UnexpectedEof")
  else Ok (slice (Z.to_nat offset) (Z.to_nat (offset + n)) file).

Definition encode_index (e : IndexEntry) : bytes :=
  to_le 8 (ie_series e) ++ to_le 8 (min_time e) ++ to_le 8 (max_time e)
  ++ to_le 8 (ie_offset e) ++ to_le 4 (ie_length e) ++ to_le 4 (ie_points e).

Definition decode_index (raw : bytes) : IndexEntry :=
  mkIndexEntry (from_le (slice 0 8 raw)) (from_le_i64 (slice 8 16 raw)) (from_le_i64 (slice 16 24 raw))
    (from_le (slice 24 32 raw)) (from_le (slice 32 36 raw)) (from_le (slice 36 40 raw)).

(** [sort_by_key] on (series, valid time, knowledge time, change time). *)
Definition segment_leb (a b : Point) : bool :=
  (series a <? series b) || ((series a =? series b) && revision_leb a b).

(** [chunks(n)]; [fuel] is at least the number of chunks. *)
Fixpoint chunks {A} (fuel n : nat) (l : list A) : list (list A) :=
  match fuel, l with
  | _, [] => []
  | O, _ => []
  | S fuel, _ => take n l :: chunks fuel n (drop n l)
  end.

(** The leading points of series [s], and the points after them. *)
Fixpoint span_series (s : Z) (l : list Point) : list Point * list Point :=
  match l with
  | [] => ([], [])
  | p :: t => if series p =? s then let '(a, b) := span_series s t in (p :: a, b) else ([], l)
  end.

(** [Iterator::take_while]. *)
Fixpoint take_while {A} (p : A -> bool) (l : list A) : list A :=
  match l with
  | [] => []
  | x :: t => if p x then x :: take_while p t else []
  end.

Section Segments.
Context `{Crc} `{Lz4}.

(** ** Writing *)

Definition block_header_prefix (compression series_id points uncompressed_len payload_len payload_crc
    min_time max_time : Z) : bytes :=
  BLOCK_MAGIC ++ to_le 2 BLOCK_VERSION ++ [compression] ++ [BLOCK_ENCODING_COLUMN_V1]
  ++ to_le 8 series_id ++ to_le 4 points ++ to_le 4 uncompressed_len ++ to_le 4 payload_len
  ++ to_le 4 payload_crc ++ to_le 8 min_time ++ to_le 8 max_time.

Definition encode_block_header (compression series_id points uncompressed_len payload_len payload_crc
    min_time max_time : Z) : bytes :=
  let prefix := block_header_prefix compression series_id points uncompressed_len payload_len payload_crc
                  min_time max_time in
  prefix ++ to_le 4 (hash prefix) ++ [0; 0; 0; 0].

(** The body of the block loop of [write_temporary_segment]: what is appended
    to the file, and the entry pushed on the index. *)
Definition write_block (series_id : Z) (st : bytes * list IndexEntry) (block : list Point)
    : Result (bytes * list IndexEntry) :=
  let '(file, index) := st in
  let offset := len file in
  let? encoded := encode_columns block in
  let compressed := compress_prepend_size encoded in
  let '(compression, payload) :=
    if len compressed <? len encoded then (COMPRESSION_LZ4, compressed) else (COMPRESSION_RAW, encoded) in
  let? payload_len := ok_or (u32_try_from (len payload)) (Serialization "segment block is too large") in
  let? uncompressed_len := ok_or (u32_try_from
      (if compression =? COMPRESSION_RAW then len payload else from_le (slice 0 4 payload)))
    (Serialization "segment block is too large") in
  let? point_count := ok_or (u32_try_from (len block)) (Serialization "too many block points") in
  let? first := ok_or (head block) (Panic "block.first()") in
  let? final := ok_or (last block) (Panic "block.last()") in
  let header := encode_block_header compression series_id point_count uncompressed_len payload_len
                  (hash payload) (valid_time first) (valid_time final) in
  let? length := ok_or (u32_try_from (BLOCK_HEADER_BYTES + len payload)) (Serialization "segment block is too large") in
  Ok (file ++ header ++ payload,
      index ++ [mkIndexEntry series_id (valid_time first) (valid_time final) offset length point_count]).

(** The loop over the series; [fuel] is at least the number of points. *)
Fixpoint write_series (fuel block_points : nat) (ordered : list Point) (st : bytes * list IndexEntry)
    : Result (bytes * list IndexEntry) :=
  match fuel, ordered with
  | _, [] => Ok st
  | O, _ => Err (Panic "write_series")
  | S fuel, p :: _ =>
      let '(group, rest) := span_series (series p) ordered in
      let? st := try_fold (write_block (series p)) st (chunks (length group) block_points group) in
      write_series fuel block_points rest st
  end.

Definition index_header (entries : bytes) (count : Z) : bytes :=
  INDEX_MAGIC ++ to_le 2 INDEX_VERSION ++ to_le 2 INDEX_ENTRY_BYTES ++ to_le 4 count ++ to_le 4 (hash entries).

Definition segment_header_prefix (block_count points index_offset index_bytes : Z) : bytes :=
  SEGMENT_MAGIC ++ to_le 2 SEGMENT_VERSION ++ [0; 0] ++ to_le 4 block_count ++ to_le 8 points
  ++ to_le 8 index_offset ++ to_le 4 index_bytes.

Definition segment_header (block_count points index_offset index_bytes : Z) : bytes :=
  let prefix := segment_header_prefix block_count points index_offset index_bytes in
  prefix ++ to_le 4 (hash prefix).

(** [write_temporary_segment]: the contents of the file when it is synced. *)
Definition write_temporary_segment (points : list Point) (block_points : Z) : Result (bytes * SegmentStats) :=
  let ordered := stable_sort segment_leb points in
  let placeholder := replicate (Z.to_nat SEGMENT_HEADER_BYTES) 0 in
  let? (file, index) := write_series (length ordered) (Z.to_nat block_points) ordered (placeholder, []) in
  let index_offset := len file in
  let index_entries := concat (map encode_index index) in
  let? count := ok_or (u32_try_from (len index)) (Serialization "too many segment blocks") in
  let file := file ++ index_header index_entries count ++ index_entries in
  let? index_bytes := ok_or (u32_try_from (INDEX_HEADER_BYTES + len index_entries))
    (Serialization "segment index is too large") in
  let header := segment_header count (len points) index_offset index_bytes in
  let file := header ++ drop (length header) file in
  Ok (file, mkSegmentStats (len index mod 2 ^ 32) (len points) (len file) (u64_saturating_mul (len points) 72)).

(** [Segment::create]; [target_exists] is [path.exists()].  The result is the
    contents that the hard link publishes. *)
Definition Segment_create (target_exists : bool) (points : list Point) (block_points : Z)
    : Result (bytes * SegmentStats) :=
  reject ((block_points =? 0) || (MAX_BLOCK_POINTS <? block_points))
    (InvalidConfig "segment block_points must be in 1..=262144") ;?
  validate_point_intervals points ;?
  reject target_exists (Io "AlreadyExists") ;?
  write_temporary_segment points block_points.

(** ** Reading *)

(** [points.windows(2).any(|pair| pair[0].valid_time > pair[1].valid_time)]. *)
Fixpoint times_decrease (points : list Point) : bool :=
  match points with
  | p :: (q :: _) as t => (valid_time q <? valid_time p) || times_decrease t
  | _ => false
  end.

Definition block_violates (min_time max_time : Z) (points : list Point) : bool :=
  match head points with None => true | Some p => negb (valid_time p =? min_time) end
  || match last points with None => true | Some p => negb (valid_time p =? max_time) end
  || times_decrease points
  || existsb (fun p => (valid_time_end p <? valid_time p) || negb (f64_is_finite (value p))) points.

(** The [match compression] of [read_block]. *)
Definition decompress_block (entry : IndexEntry) (compression uncompressed_len : Z) (payload : bytes)
    : Result bytes :=
  if compression =? COMPRESSION_RAW then Ok payload
  else if compression =? COMPRESSION_LZ4 then
    if len payload <? 4 then corruption (ie_offset entry) "LZ4 block is too short"
    else if negb (from_le (slice 0 4 payload) =? uncompressed_len) then
      corruption (ie_offset entry) "LZ4 size prefix disagrees with block header"
    else if u64_saturating_mul (len payload - 4) MAX_LZ4_RATIO <? uncompressed_len then
      corruption (ie_offset entry) "block uncompressed length exceeds LZ4 capacity"
    else ok_or (lz4_decompress (drop 4 payload) uncompressed_len)
           (Corruption (ie_offset entry) (text "invalid LZ4 block"))
  else corruption (ie_offset entry) "unknown block compression".

(** The fields of a block header. *)
Record BlockHeader := mkBlockHeader {
  bh_compression : Z;
  bh_series : Z;
  bh_points : Z;
  bh_uncompressed_len : Z;
  bh_payload_len : Z;
  bh_payload_crc : Z;
  bh_min_time : Z;
  bh_max_time : Z;
}.

Definition parse_block_header (header : bytes) : BlockHeader :=
  mkBlockHeader (nth 6 header 0) (from_le (slice 8 16 header)) (from_le (slice 16 20 header))
    (from_le (slice 20 24 header)) (from_le (slice 24 28 header)) (from_le (slice 28 32 header))
    (from_le_i64 (slice 32 40 header)) (from_le_i64 (slice 40 48 header)).

(** The checks of [read_block] on the header. *)
Definition check_block_header (header : bytes) (entry : IndexEntry) : Result BlockHeader :=
  if negb (bool_decide (slice 0 4 header = BLOCK_MAGIC)) then corruption (ie_offset entry) "invalid block magic"
  else if negb (from_le (slice 4 6 header) =? BLOCK_VERSION) || negb (nth 7 header 0 =? BLOCK_ENCODING_COLUMN_V1)
  then corruption (ie_offset entry) "unsupported block encoding"
  else if negb (bool_decide (slice 52 56 header = [0; 0; 0; 0]))
  then corruption (ie_offset entry) "non-zero reserved block header bytes"
  else if negb (hash (slice 0 48 header) =? from_le (slice 48 52 header))
  then corruption (ie_offset entry) "block header checksum mismatch"
  else
    let h := parse_block_header header in
    if negb (bh_series h =? ie_series entry) || negb (bh_points h =? ie_points entry)
       || negb (bh_min_time h =? min_time entry) || negb (bh_max_time h =? max_time entry)
       || negb (BLOCK_HEADER_BYTES + bh_payload_len h =? ie_length entry)
    then corruption (ie_offset entry) "block header disagrees with index"
    else if (bh_uncompressed_len h <? minimum_encoded_bytes (bh_points h))
            || (maximum_encoded_bytes (bh_points h) <? bh_uncompressed_len h)
    then corruption (ie_offset entry) "block uncompressed length is out of bounds"
    else Ok h.

(** [read_block]. *)
Definition read_block (file : bytes) (entry : IndexEntry) : Result (list Point) :=
  let? header := read_exact_at file BLOCK_HEADER_BYTES (ie_offset entry) in
  let? h := check_block_header header entry in
  let? payload := read_exact_at file (bh_payload_len h) (ie_offset entry + BLOCK_HEADER_BYTES) in
  if negb (hash payload =? bh_payload_crc h) then corruption (ie_offset entry) "block payload checksum mismatch"
  else
    let? decoded := decompress_block entry (bh_compression h) (bh_uncompressed_len h) payload in
    if negb (len decoded =? bh_uncompressed_len h) then
      corruption (ie_offset entry) "block uncompressed length mismatch"
    else
      let? points := decode_columns decoded (bh_series h) (Z.to_nat (bh_points h)) (ie_offset entry) in
      if block_violates (bh_min_time h) (bh_max_time h) points then
        corruption (ie_offset entry) "decoded block violates point or index invariants"
      else Ok points.

(** One turn of the loop of [validate_index]. *)
Definition index_order_broken (previous : option IndexEntry) (entry : IndexEntry) : bool :=
  match previous with
  | None => false
  | Some prev =>
      (ie_series entry <? ie_series prev)
      || ((ie_series entry =? ie_series prev) && (min_time entry <? min_time prev))
      || ((ie_series entry =? ie_series prev) && (min_time entry <? max_time prev))
  end.

Definition check_index_entry (index_offset : Z) (st : option IndexEntry * Z * Z) (entry : IndexEntry)
    : Result (option IndexEntry * Z * Z) :=
  let '(previous, indexed_points, expected_offset) := st in
  if (ie_points entry =? 0) || (MAX_BLOCK_POINTS <? ie_points entry) || (max_time entry <? min_time entry)
     || negb (ie_offset entry =? expected_offset)
     || match u64_checked_add (ie_offset entry) (ie_length entry) with
        | None => true | Some stop => index_offset <? stop end
  then corruption index_offset "invalid segment index entry"
  else
    let payload_bytes := u64_saturating_sub (ie_length entry) BLOCK_HEADER_BYTES in
    if u64_saturating_mul payload_bytes MAX_LZ4_RATIO <? minimum_encoded_bytes (ie_points entry)
    then corruption index_offset "segment index point count exceeds block capacity"
    else if index_order_broken previous entry
    then corruption index_offset "segment index is not sorted or has overlapping blocks"
    else Ok (Some entry, indexed_points + ie_points entry, ie_offset entry + ie_length entry).

Definition validate_index (index : list IndexEntry) (index_offset point_count : Z) : Result unit :=
  let? (_, indexed_points, expected_offset) :=
    try_fold (check_index_entry index_offset) (None, 0, SEGMENT_HEADER_BYTES) index in
  if negb (indexed_points =? point_count) || negb (expected_offset =? index_offset)
  then corruption index_offset "segment index coverage or point count mismatch"
  else Ok tt.

(** [Segment::open] on the contents of a regular file. *)
Definition Segment_open (file : bytes) : Result Segment :=
  let file_len := len file in
  if file_len <? SEGMENT_HEADER_BYTES + INDEX_HEADER_BYTES then corruption 0 "segment is too small"
  else
    let? header := read_exact_at file SEGMENT_HEADER_BYTES 0 in
    if negb (bool_decide (slice 0 8 header = SEGMENT_MAGIC)) then corruption 0 "invalid segment magic"
    else if negb (from_le (slice 8 10 header) =? SEGMENT_VERSION)
            || negb (bool_decide (slice 10 12 header = [0; 0]))
    then corruption 0 "unsupported segment version"
    else if negb (hash (slice 0 36 header) =? from_le (slice 36 40 header))
    then corruption 0 "segment header checksum mismatch"
    else
      let block_count := from_le (slice 12 16 header) in
      let point_count := from_le (slice 16 24 header) in
      let index_offset := from_le (slice 24 32 header) in
      let index_bytes := from_le (slice 32 36 header) in
      if (index_offset <? SEGMENT_HEADER_BYTES)
         || match u64_checked_add index_offset index_bytes with
            | None => true | Some stop => negb (stop =? file_len) end
      then corruption 0 "invalid segment index bounds"
      else
        let? index_header := read_exact_at file INDEX_HEADER_BYTES index_offset in
        if negb (bool_decide (slice 0 4 index_header = INDEX_MAGIC))
        then corruption index_offset "invalid segment index magic"
        else
          let entry_count := from_le (slice 8 12 index_header) in
          if negb (from_le (slice 4 6 index_header) =? INDEX_VERSION)
             || negb (from_le (slice 6 8 index_header) =? INDEX_ENTRY_BYTES)
             || negb (entry_count =? block_count)
          then corruption index_offset "unsupported segment index layout"
          else if negb (index_bytes =? INDEX_HEADER_BYTES + entry_count * INDEX_ENTRY_BYTES)
          then corruption index_offset "segment index length mismatch"
          else
            let? entries := read_exact_at file (entry_count * INDEX_ENTRY_BYTES) (index_offset + INDEX_HEADER_BYTES) in
            if negb (hash entries =? from_le (slice 12 16 index_header))
            then corruption index_offset "segment index checksum mismatch"
            else
              let index := map decode_index (chunks_exact (Z.to_nat entry_count) (Z.to_nat INDEX_ENTRY_BYTES) entries) in
              validate_index index index_offset point_count ;?
              Ok (mkSegment file index
                    (mkSegmentStats block_count point_count file_len (u64_saturating_mul point_count 72))).

(** [Segment::content_crc32]: the hash of the file, read in pieces. *)
Definition content_crc32 (g : Segment) : Result Z :=
  let? data := read_exact_at (seg_file g) (stored_bytes (seg_stats g)) 0 in
  if negb (len (seg_file g) =? stored_bytes (seg_stats g))
  then corruption 0 "segment length changed after open"
  else Ok (hash data).

(** [Segment::valid_bounds]. *)
Definition valid_bounds (g : Segment) : option (Z * Z) :=
  match seg_index g with
  | [] => None
  | e :: rest => Some (foldl (fun m e => Z.min m (min_time e)) (min_time e) rest,
                       foldl (fun m e => Z.max m (max_time e)) (max_time e) rest)
  end.

(** [Segment::verify_blocks]. *)
Definition verify_blocks (g : Segment) : Result unit :=
  for_each (fun e => let? _ := read_block (seg_file g) e in Ok tt) (seg_index g).

Definition entry_matches (s start stop : Z) (e : IndexEntry) : bool :=
  (ie_series e =? s) && (start <=? max_time e) && (min_time e <? stop).

Definition point_in (start stop : Z) (p : Point) : bool := (start <=? valid_time p) && (valid_time p <? stop).

(** [Segment::query]. *)
Definition Segment_query (g : Segment) (s start stop : Z) : Result (list Point) :=
  try_fold (fun result e =>
      let? points := read_block (seg_file g) e in
      Ok (result ++ List.filter (point_in start stop) points))
    [] (List.filter (entry_matches s start stop) (seg_index g)).

(** [Segment::visit_query]; the closures [reserve] and [visit] act on a state. *)
Definition entry_below (s start : Z) (e : IndexEntry) : bool :=
  (ie_series e <? s) || ((ie_series e =? s) && (max_time e <? start)).

Definition entry_before_end (s stop : Z) (e : IndexEntry) : bool := (ie_series e =? s) && (min_time e <? stop).

Definition visit_query {S E : Type} (from : Error -> E) (g : Segment) (s start stop : Z) (reserve : Z -> EM S E unit)
    (visit : Point -> EM S E unit) : EM S E unit :=
  let first := partition_point (entry_below s start) (seg_index g) in
  let entries := drop first (seg_index g) in
  em_for_each (fun e =>
      reserve (ie_points e) ;^
      let^ points := em_from from (st_lift (read_block (seg_file g) e)) in
      em_for_each (fun p => if point_in start stop p then visit p else em_ret tt) points)
    (take_while (entry_before_end s stop) entries).

(** [Segment::series_bounds], [series_ids], [series_point_count], [overlaps]. *)
Definition series_bounds (g : Segment) (s : Z) : option (Z * Z) :=
  let '(lo, hi) := foldl (fun '(lo, hi) e =>
      if ie_series e =? s then (Z.min lo (min_time e), Z.max hi (max_time e)) else (lo, hi))
    (i64_max, i64_min) (seg_index g) in
  if lo <=? hi then Some (lo, hi) else None.

Definition series_ids (g : Segment) : list Z :=
  foldl (fun ids e => if bool_decide (last ids = Some (ie_series e)) then ids else ids ++ [ie_series e])
    [] (seg_index g).

Definition series_point_count (g : Segment) (s : Z) : Z :=
  foldr (fun e n => ie_points e + n) 0 (List.filter (fun e => ie_series e =? s) (seg_index g)).

Definition overlaps (g : Segment) (s start stop : Z) : bool := existsb (entry_matches s start stop) (seg_index g).

#[export] Instance segment_ops : SegmentOps Segment := {|
  seg_overlaps := overlaps;
  seg_query := Segment_query;
  seg_series_point_count := series_point_count;
  seg_series_bounds := series_bounds;
  seg_series_ids := series_ids;
|}.
End Segments.

#[global] Arguments segment_header : simpl never.
#[global] Arguments index_header : simpl never.
#[global] Arguments encode_block_header : simpl never.
