(* ===== verification/SegmentInv.v ===== *)
(** * SegmentInv: what a segment that was written gives back

    Reading side: what a block that passes the checks of [read_block]
    guarantees, the [SegmentSpec] instance of opened segments, and the
    agreement of the two query paths.  Writing side: the layout of the file
    and the index, and that opening it returns the sorted points. *)
From S2P Require Import Prelude Errors Bytes Float64 Model Transaction Catalog Query Codec Columns Effects Segment.

(** ** Blocks that decode *)

Lemma decode_rows_series s times : forall first bits c k off ps k',
  decode_rows s first bits c k times off = Ok (ps, k') ->
  Forall (fun p => series p = s) ps /\ length ps = length times.
Proof.
  induction times as [|t times IH]; intros first bits c k off ps k' H; cbn [decode_rows] in H.
  - injection H as <- <-. done.
  - apply bind_Ok in H as ([p k1] & Hp & H). apply bind_Ok in H as ([qs k2] & Hq & H). injection H as <- <-.
    destruct (IH _ _ _ _ _ _ _ Hq) as [Hs Hl].
    split; [constructor; [|done]|by cbn [length]; rewrite Hl].
    unfold decode_row in Hp.
    repeat match type of Hp with
           | bind _ (fun '(_, _) => _) = Ok _ => apply bind_Ok in Hp as ([? ?] & _ & Hp)
           | bind _ _ = Ok _ => apply bind_Ok in Hp as (? & _ & Hp)
           end.
    by injection Hp as <- _.
Qed.

Lemma decode_columns_series b s n off ps : decode_columns b s n off = Ok ps -> Forall (fun p => series p = s) ps.
Proof.
  unfold decode_columns. intros H.
  destruct (n =? 0)%nat; [done|]. destruct (len b <? _); [done|].
  apply bind_Ok in H as ([cs cur] & _ & H). destruct (negb _); [done|].
  destruct cs as [|c0 [|c1 [|c2 [|c3 [|c4 [|c5 [|c6 [|]]]]]]]]; try done.
  apply bind_Ok in H as ([times tc] & _ & H). apply bind_Ok in H as (? & _ & H).
  apply bind_Ok in H as ([qs k] & Hq & H).
  do 6 (apply bind_Ok in H as (? & _ & H)). injection H as <-.
  by apply decode_rows_series in Hq as [? _].
Qed.

(** Points whose valid times do not decrease. *)
Lemma times_sorted ps lo hi :
  times_decrease ps = false -> head ps = Some lo -> last ps = Some hi ->
  Forall (fun p => valid_time lo <= valid_time p <= valid_time hi) ps.
Proof.
  revert lo. induction ps as [|p [|q t] IH]; intros lo H Hh Hl; [done| |].
  - injection Hh as <-. injection Hl as <-. repeat constructor; lia.
  - injection Hh as <-. cbn [times_decrease] in H. apply orb_false_iff in H as [Hpq H].
    specialize (IH q H eq_refl Hl). pose proof IH as IH'. apply Forall_cons in IH' as [Hq _].
    constructor; [lia|]. eapply Forall_impl; [exact IH|]. cbn. intros. lia.
Qed.

Definition in_block (e : IndexEntry) (p : Point) : Prop :=
  series p = ie_series e /\ min_time e <= valid_time p <= max_time e.

Section Reading.
Context `{Crc} `{Lz4}.

Lemma check_block_header_Ok b e h :
  check_block_header b e = Ok h ->
  h = parse_block_header b /\ bh_series h = ie_series e /\ bh_points h = ie_points e
  /\ bh_min_time h = min_time e /\ bh_max_time h = max_time e.
Proof.
  unfold check_block_header. intros Hh. cbv zeta in Hh. guards_in Hh. injection Hh as <-. zbool. done.
Qed.

Lemma read_block_Ok file e ps : read_block file e = Ok ps -> Forall (in_block e) ps.
Proof.
  unfold read_block. intros Hr.
  apply bind_Ok in Hr as (b & _ & Hr). apply bind_Ok in Hr as (h & Hh & Hr).
  apply check_block_header_Ok in Hh as (_ & Es & _ & Emin & Emax).
  apply bind_Ok in Hr as (payload & _ & Hr). destruct (negb _); [done|].
  apply bind_Ok in Hr as (decoded & _ & Hr). destruct (negb _); [done|].
  apply bind_Ok in Hr as (qs & Hq & Hr). apply decode_columns_series in Hq.
  destruct (block_violates _ _ qs) eqn:Hv; [done|]. injection Hr as <-.
  unfold block_violates in Hv. rewrite !orb_false_iff in Hv. destruct Hv as [[[Hf Hl] Hd] _].
  destruct (head qs) as [lo|] eqn:Elo; [|done]. destruct (last qs) as [hi|] eqn:Ehi; [|done].
  pose proof (times_sorted _ _ _ Hd Elo Ehi) as Ht.
  apply Forall_forall. intros p Hp. rewrite Forall_forall in Hq, Ht. specialize (Hq p Hp). specialize (Ht p Hp).
  cbn in Hq, Ht. split; [congruence|]. zbool. lia.
Qed.

(** ** The interface the query path uses *)

(** The points of a block, in stored order. *)
Definition block_points (file : bytes) (e : IndexEntry) : list Point :=
  match read_block file e with Ok ps => ps | Err _ => [] end.

Definition segment_points (g : Segment) : list Point := concat (map (block_points (seg_file g)) (seg_index g)).

Definition readable (file : bytes) (e : IndexEntry) : Prop := read_block file e = Ok (block_points file e).

Lemma verify_blocks_readable g : verify_blocks g = Ok tt <-> Forall (readable (seg_file g)) (seg_index g).
Proof.
  unfold verify_blocks. rewrite for_each_Ok, Forall_forall. unfold readable, block_points.
  split; intros Hv e He; specialize (Hv e He); by destruct (read_block (seg_file g) e).
Qed.

Lemma in_block_window e s start stop ps :
  Forall (in_block e) ps ->
  List.filter (in_window s start stop) ps
  = if entry_matches s start stop e then List.filter (point_in start stop) ps else [].
Proof.
  induction 1 as [|p ps [Hs Ht] _ IH]; [by destruct (entry_matches _ _ _ _)|].
  cbn [List.filter]. rewrite IH. unfold in_window, entry_matches, point_in in *. rewrite Hs.
  destruct (Z.eqb_spec (ie_series e) s); cbn [andb]; [|done].
  destruct (Z.leb_spec start (max_time e)), (Z.ltb_spec (min_time e) stop),
    (Z.leb_spec start (valid_time p)), (Z.ltb_spec (valid_time p) stop); cbn [andb]; try done; lia.
Qed.

Lemma blocks_window file s start stop es :
  Forall (readable file) es ->
  List.filter (in_window s start stop) (concat (map (block_points file) es))
  = concat (map (fun e => List.filter (point_in start stop) (block_points file e))
              (List.filter (entry_matches s start stop) es)).
Proof.
  induction 1 as [|e es He _ IH]; [done|].
  cbn [map concat List.filter]. rewrite List.filter_app, IH.
  rewrite (in_block_window e) by (by apply (read_block_Ok file)).
  by destruct (entry_matches s start stop e).
Qed.

Lemma query_fold file start stop es : forall acc,
  Forall (readable file) es ->
  try_fold (fun result e =>
      let? points := read_block file e in Ok (result ++ List.filter (point_in start stop) points)) acc es
  = Ok (acc ++ concat (map (fun e => List.filter (point_in start stop) (block_points file e)) es)).
Proof.
  induction es as [|e es IH]; intros acc Hes; cbn [try_fold map concat]; [by rewrite app_nil_r|].
  apply Forall_cons in Hes as [He Hes]. rewrite He. cbn [bind]. rewrite IH by done. by rewrite app_assoc.
Qed.

Lemma Forall_list_filter {A} (P : A -> Prop) f l : Forall P l -> Forall P (List.filter f l).
Proof.
  rewrite !Forall_forall. intros Hl x Hx. apply Hl. rewrite !list_elem_of_In in *.
  by apply List.filter_In in Hx as [? _].
Qed.

#[export] Instance segment_spec : SegmentSpec Segment.
Proof.
  refine {| seg_points := segment_points; seg_intact g := verify_blocks g = Ok tt |}.
  - intros g s start stop Hg. apply verify_blocks_readable in Hg.
    cbn. unfold Segment_query. rewrite query_fold by (by apply Forall_list_filter).
    unfold segment_points. by rewrite blocks_window.
  - intros g s start stop Hg Ho. apply verify_blocks_readable in Hg. unfold segment_points.
    rewrite blocks_window by done. cbn in Ho. unfold overlaps in Ho.
    induction (seg_index g) as [|e es IH]; [done|]. cbn [existsb] in Ho. apply orb_false_iff in Ho as [He Ho].
    cbn [List.filter]. rewrite He. apply IH; [|done]. by apply Forall_cons in Hg as [_ ?].
Defined.

(** ** The two query paths *)

(** The order [validate_index] establishes. *)
Definition index_before (a b : IndexEntry) : Prop :=
  ie_series a < ie_series b
  \/ (ie_series a = ie_series b /\ min_time a <= max_time a /\ max_time a <= min_time b /\ min_time b <= max_time b).

Lemma index_before_trans a b c : index_before a b -> index_before b c -> index_before a c.
Proof. unfold index_before. lia. Qed.

Lemma validate_index_sorted index index_offset : forall prev n off st,
  try_fold (check_index_entry index_offset) (prev, n, off) index = Ok st ->
  (forall p, prev = Some p -> min_time p <= max_time p) ->
  Sorted index_before index
  /\ Forall (fun e => min_time e <= max_time e) index
  /\ forall p, prev = Some p -> HdRel index_before p index.
Proof.
  induction index as [|e index IH]; intros prev n off st Hi Hp; cbn [try_fold] in Hi; [by repeat constructor|].
  apply bind_Ok in Hi as ([[prev' n'] off'] & He & Hi). unfold check_index_entry in He. cbv zeta in He.
  guards_in He. injection He as <- <- <-.
  assert (Hm : min_time e <= max_time e) by (zbool; lia).
  destruct (IH _ _ _ _ Hi) as (Hs & Hf & Hd); [by intros p [= <-]|].
  split; [|split]; [constructor; [done|by apply Hd]|by constructor|].
  intros p ->. specialize (Hp p eq_refl). constructor. unfold index_order_broken in G1. zbool.
  unfold index_before. destruct (Z.eqb_spec (ie_series e) (ie_series p)); cbn [andb] in *; zbool; lia.
Qed.

Lemma partition_filter {A} (R : A -> A -> Prop) (below before_end matches : A -> bool) (l : list A) :
  StronglySorted R l ->
  (forall a, matches a = negb (below a) && before_end a) ->
  (forall a b, R a b -> below a = false -> below b = false) ->
  (forall a b, R a b -> below a = false -> before_end a = false -> before_end b = false) ->
  take_while before_end (drop (partition_point below l) l) = List.filter matches l.
Proof.
  intros Hs Hm Hb He. induction Hs as [|a l Hs IH Ha]; [done|]. cbn [partition_point List.filter].
  rewrite Hm. destruct (below a) eqn:Eb; cbn [drop negb andb]; [apply IH|].
  assert (Hnb : Forall (fun b => below b = false) l) by (eapply Forall_impl; [exact Ha|]; intros b Hab; by apply (Hb a)).
  cbn [take_while]. destruct (before_end a) eqn:Ee.
  - f_equal. rewrite <- IH. f_equal. clear - Hnb. destruct Hnb as [|b l E _]; [done|]. cbn. by rewrite E.
  - assert (Hne : Forall (fun b => before_end b = false) l).
    { eapply Forall_impl; [exact Ha|]. intros b Hab. by apply (He a). }
    clear - Hne Hm. induction Hne as [|b l E _ IH]; [done|]. cbn [List.filter].
    rewrite Hm, E, andb_false_r. apply IH.
Qed.

Lemma visit_query_selects index s start stop :
  Sorted index_before index -> Forall (fun e => min_time e <= max_time e) index ->
  take_while (entry_before_end s stop) (drop (partition_point (entry_below s start) index) index)
  = List.filter (fun e => negb (entry_below s start e) && entry_before_end s stop e) index.
Proof.
  intros Hs Hm. apply (partition_filter index_before).
  - apply Sorted_StronglySorted; [|done]. intros a b c. apply index_before_trans.
  - done.
  - intros a b. unfold index_before, entry_below. intros Hab Ha. zbool. apply orb_false_iff. split; zbool; [lia|].
    destruct (Z.eqb_spec (ie_series b) s); cbn [andb]; [|done].
    destruct (Z.eqb_spec (ie_series a) s); cbn [andb] in *; zbool; lia.
  - intros a b. unfold index_before, entry_below, entry_before_end. intros Hab Ha He.
    destruct (Z.eqb_spec (ie_series b) s); cbn [andb]; [|done].
    destruct (Z.eqb_spec (ie_series a) s); cbn [andb] in *; zbool; lia.
Qed.

Lemma entry_matches_split s start stop e :
  negb (entry_below s start e) && entry_before_end s stop e = entry_matches s start stop e.
Proof.
  unfold entry_below, entry_before_end, entry_matches.
  destruct (Z.eqb_spec (ie_series e) s); cbn [andb]; rewrite ?andb_false_r; [|done].
  destruct (Z.ltb_spec (ie_series e) s), (Z.ltb_spec (max_time e) start), (Z.leb_spec start (max_time e)),
    (Z.ltb_spec (min_time e) stop); cbn; try done; lia.
Qed.

Lemma Segment_open_index file g :
  Segment_open file = Ok g ->
  seg_file g = file /\ stored_bytes (seg_stats g) = len file
  /\ exists index_offset, validate_index (seg_index g) index_offset (seg_point_total (seg_stats g)) = Ok tt.
Proof.
  unfold Segment_open. intros Ho. cbv zeta in Ho. guards_in Ho.
  apply bind_Ok in Ho as (header & _ & Ho). guards_in Ho.
  apply bind_Ok in Ho as (index_header & _ & Ho). guards_in Ho.
  apply bind_Ok in Ho as (entries & _ & Ho). guards_in Ho.
  apply bind_Ok in Ho as ([] & Hv & Ho). injection Ho as <-. cbn [seg_file seg_stats seg_index stored_bytes seg_point_total].
  eauto.
Qed.

Lemma Segment_open_sorted file g :
  Segment_open file = Ok g ->
  Sorted index_before (seg_index g) /\ Forall (fun e => min_time e <= max_time e) (seg_index g).
Proof.
  intros Ho. apply Segment_open_index in Ho as (_ & _ & off & Hv). unfold validate_index in Hv.
  apply bind_Ok in Hv as ([[p n] o] & Hf & _). apply validate_index_sorted in Hf as (Hs & Hm & _); [done|by intros].
Qed.

(** The counts of a decoded index are not negative. *)
Lemma chunks_exact_bytes fuel n l : is_bytes l -> Forall is_bytes (chunks_exact fuel n l).
Proof.
  revert l. induction fuel as [|fuel IH]; intros l Hl; cbn [chunks_exact]; constructor; [by apply Forall_take|].
  by apply IH, Forall_drop.
Qed.

Lemma open_counts file g :
  is_bytes file -> Segment_open file = Ok g -> Forall (fun e => 0 <= ie_points e) (seg_index g).
Proof.
  unfold Segment_open. intros Hb Ho. cbv zeta in Ho. guards_in Ho.
  apply bind_Ok in Ho as (header & _ & Ho). guards_in Ho.
  apply bind_Ok in Ho as (index_header & _ & Ho). guards_in Ho.
  apply bind_Ok in Ho as (entries & He & Ho). guards_in Ho.
  apply bind_Ok in Ho as ([] & Hv & Ho). injection Ho as <-. cbn [seg_index].
  assert (Hbe : is_bytes entries) by (unfold read_exact_at in He; guards_in He; injection He as <-; by apply Forall_take, Forall_drop).
  apply Forall_forall. intros e (raw & -> & Hraw)%list_elem_of_fmap.
  assert (Hr : is_bytes raw) by (eapply (proj1 (Forall_forall _ _)); [by apply chunks_exact_bytes|exact Hraw]).
  cbn. apply from_le_bound. by apply Forall_take, Forall_drop.
Qed.

(** [visit_query] runs its closures over exactly the entries [query] reads. *)
Lemma visit_query_entries {S E} (from : Error -> E) file g s start stop (reserve : Z -> EM S E unit) visit :
  Segment_open file = Ok g ->
  visit_query from g s start stop reserve visit
  = em_for_each (fun e =>
      reserve (ie_points e) ;^
      let^ points := em_from from (st_lift (read_block (seg_file g) e)) in
      em_for_each (fun p => if point_in start stop p then visit p else em_ret tt) points)
      (List.filter (entry_matches s start stop) (seg_index g)).
Proof.
  intros Ho. apply Segment_open_sorted in Ho as [Hs Hm]. unfold visit_query. cbv zeta.
  rewrite visit_query_selects by done. f_equal. apply List.filter_ext. intros e. apply entry_matches_split.
Qed.

(** On readable blocks it reserves each block and visits the points of the
    window, block by block. *)
Lemma visit_query_runs {S E} (from : Error -> E) file g s start stop (reserve : Z -> EM S E unit) visit :
  Segment_open file = Ok g -> verify_blocks g = Ok tt ->
  forall st, visit_query from g s start stop reserve visit st
  = em_for_each (fun e =>
      reserve (ie_points e) ;^
      em_for_each visit (List.filter (point_in start stop) (block_points (seg_file g) e)))
      (List.filter (entry_matches s start stop) (seg_index g)) st.
Proof.
  intros Ho Hv. rewrite (visit_query_entries from file) by done. apply verify_blocks_readable in Hv.
  intros st. apply em_for_each_ext. intros e st' [He _]%list_elem_of_In%filter_In. apply em_bind_ext; [done|].
  intros _ st2. rewrite Forall_forall in Hv. apply list_elem_of_In, Hv in He.
  unfold em_bind, em_from, st_lift. rewrite He. clear st st' He. revert st2.
  induction (block_points (seg_file g) e) as [|p ps IH]; intros st; cbn [em_for_each List.filter]; [done|].
  destruct (point_in start stop p); cbn [em_for_each]; [by apply em_bind_ext|apply IH].
Qed.

(** Closures that count reservations and collect the points. *)
Definition collect_reserve (n : Z) : EM (Z * list Point) Error unit :=
  let^ (r, l) := em_get in em_put (r + n, l).
Definition collect_visit (p : Point) : EM (Z * list Point) Error unit :=
  let^ (r, l) := em_get in em_put (r, l ++ [p]).

Lemma visit_collects (ps : list Point) : forall r l, em_for_each collect_visit ps (r, l) = ((r, l ++ ps), inr tt).
Proof.
  induction ps as [|p ps IH]; intros r l; cbn [em_for_each]; [by rewrite app_nil_r|].
  unfold em_bind at 1. cbn. rewrite IH. by rewrite <- app_assoc.
Qed.

Lemma visit_query_collects file g s start stop :
  Segment_open file = Ok g -> verify_blocks g = Ok tt ->
  visit_query (fun e => e) g s start stop collect_reserve collect_visit (0, [])
  = ((foldr (fun e n => ie_points e + n) 0 (List.filter (entry_matches s start stop) (seg_index g)),
      List.filter (in_window s start stop) (segment_points g)), inr tt).
Proof.
  intros Ho Hv. rewrite (visit_query_runs _ file) by done. apply verify_blocks_readable in Hv.
  unfold segment_points. rewrite blocks_window by done.
  assert (Hc : forall es r l, em_for_each (fun e => collect_reserve (ie_points e) ;^
       em_for_each collect_visit (List.filter (point_in start stop) (block_points (seg_file g) e))) es (r, l)
     = ((r + foldr (fun e n => ie_points e + n) 0 es,
         l ++ concat (map (fun e => List.filter (point_in start stop) (block_points (seg_file g) e)) es)), inr tt)).
  { induction es as [|e es IH]; intros r l; cbn [em_for_each map concat foldr]; [by rewrite app_nil_r, Z.add_0_r|].
    unfold em_bind at 1 2. cbn [collect_reserve em_get em_bind em_put]. rewrite visit_collects, IH.
    by rewrite <- app_assoc, Z.add_assoc. }
  apply Hc.
Qed.
End Reading.

(** ** Sorting and grouping *)

Lemma segment_leb_total a b : segment_leb a b = true \/ segment_leb b a = true.
Proof.
  unfold segment_leb. destruct (Z.lt_trichotomy (series a) (series b)) as [?|[E|?]].
  - left. rewrite (proj2 (Z.ltb_lt _ _)) by done. done.
  - rewrite E, Z.ltb_irrefl, Z.eqb_refl. cbn. apply revision_leb_total.
  - right. rewrite (proj2 (Z.ltb_lt _ _)) by done. done.
Qed.

Lemma segment_leb_spec a b :
  segment_leb a b = true <-> series a < series b \/ (series a = series b /\ revision_leb a b = true).
Proof.
  unfold segment_leb. rewrite orb_true_iff, andb_true_iff, Z.ltb_lt, Z.eqb_eq. done.
Qed.

Lemma segment_leb_trans a b c : segment_leb a b = true -> segment_leb b c = true -> segment_leb a c = true.
Proof.
  rewrite !segment_leb_spec. intros [?|[? ?]] [?|[? ?]]; [left; lia..|]. right. split; [lia|].
  by apply (revision_leb_trans a b).
Qed.

Lemma segment_leb_time a b : segment_leb a b = true -> series a = series b -> valid_time a <= valid_time b.
Proof. rewrite segment_leb_spec, revision_leb_spec. lia. Qed.

Lemma chunks_props {A} (n : nat) fuel : forall (l : list A), (0 < n)%nat -> (length l <= fuel)%nat ->
  concat (chunks fuel n l) = l /\ Forall (fun c => c <> [] /\ (length c <= n)%nat) (chunks fuel n l).
Proof.
  induction fuel as [|fuel IH]; intros l Hn Hl; destruct l as [|x l]; cbn [chunks]; try done; [cbn in Hl; lia|].
  destruct (IH (drop n (x :: l)) Hn) as [E F]; [rewrite length_drop; cbn [length] in *; lia|].
  cbn [concat]. rewrite E, take_drop. split; [done|]. constructor; [|done].
  split; [destruct n; [lia|done]|]. rewrite length_take. lia.
Qed.

Lemma span_series_props s l a b : span_series s l = (a, b) -> l = a ++ b /\ Forall (fun p => series p = s) a.
Proof.
  revert a b. induction l as [|p l IH]; intros a b H; cbn [span_series] in H; [by injection H as <- <-|].
  destruct (Z.eqb_spec (series p) s) as [E|E].
  - destruct (span_series s l) as [a' b'] eqn:Es. injection H as <- <-.
    destruct (IH a' b' eq_refl) as [-> Hf]. split; [done|by constructor].
  - by injection H as <- <-.
Qed.

Definition block_series (b : list Point) : Z := match b with [] => 0 | p :: _ => series p end.

(** The blocks of a sorted list of points, in file order. *)
Fixpoint series_blocks (fuel n : nat) (ordered : list Point) : list (list Point) :=
  match fuel, ordered with
  | _, [] => []
  | O, _ => []
  | S fuel, p :: _ =>
      let '(group, rest) := span_series (series p) ordered in
      chunks (length group) n group ++ series_blocks fuel n rest
  end.

(** A block as [write_block] gets it. *)
Definition uniform (n : nat) (b : list Point) : Prop :=
  b <> [] /\ (length b <= n)%nat /\ Forall (fun p => series p = block_series b) b.

Lemma uniform_chunks s n a : (0 < n)%nat -> Forall (fun p => series p = s) a ->
  Forall (fun b => uniform n b /\ block_series b = s) (chunks (length a) n a).
Proof.
  intros Hn Ha. destruct (chunks_props n (length a) a Hn ltac:(lia)) as [E F].
  rewrite <- E in Ha. apply Forall_concat in Ha. rewrite Forall_forall in *.
  intros b Hb. destruct (F b Hb) as [Hne Hl]. pose proof (Ha b Hb) as Hs.
  destruct b as [|p b]; [done|]. assert (E' : block_series (p :: b) = s) by (by apply Forall_cons in Hs as [? _]).
  unfold uniform. by rewrite E'.
Qed.

Lemma series_blocks_props n fuel : forall l, (0 < n)%nat -> (length l <= fuel)%nat ->
  concat (series_blocks fuel n l) = l /\ Forall (uniform n) (series_blocks fuel n l).
Proof.
  induction fuel as [|fuel IH]; intros l Hn Hl; destruct l as [|p l]; try done; [cbn in Hl; lia|].
  unfold series_blocks; fold series_blocks.
  destruct (span_series (series p) (p :: l)) as [a b] eqn:Es.
  pose proof (span_series_props _ _ _ _ Es) as [E Ha].
  destruct a as [|q a].
  { exfalso. cbn [span_series] in Es. rewrite Z.eqb_refl in Es. by destruct (span_series (series p) l). }
  assert (Hb : (length b <= fuel)%nat).
  { apply (f_equal length) in E. rewrite length_app in E. cbn [length] in *. lia. }
  destruct (IH b Hn Hb) as [Ec Hu].
  destruct (chunks_props n (length (q :: a)) (q :: a) Hn ltac:(lia)) as [Eq _].
  rewrite concat_app, Eq, Ec. split; [done|]. apply Forall_app. split; [|done].
  eapply Forall_impl; [by apply (uniform_chunks (series p))|]. by intros ? [? _].
Qed.

Section Writing.
Context `{Crc} `{Lz4}.

Lemma write_series_fold n fuel : forall l st, (0 < n)%nat -> (length l <= fuel)%nat ->
  write_series fuel n l st
  = try_fold (fun st b => write_block (block_series b) st b) st (series_blocks fuel n l).
Proof.
  induction fuel as [|fuel IH]; intros l st Hn Hl; destruct l as [|p l]; try done; [cbn in Hl; lia|].
  unfold series_blocks, write_series; fold series_blocks write_series.
  destruct (span_series (series p) (p :: l)) as [a b] eqn:Es.
  pose proof (span_series_props _ _ _ _ Es) as [E Ha].
  destruct a as [|q a].
  { exfalso. cbn [span_series] in Es. rewrite Z.eqb_refl in Es. by destruct (span_series (series p) l). }
  assert (Hb : (length b <= fuel)%nat).
  { apply (f_equal length) in E. rewrite length_app in E. cbn [length] in *. lia. }
  rewrite try_fold_app.
  assert (Ef : try_fold (write_block (series p)) st (chunks (length (q :: a)) n (q :: a))
    = try_fold (fun st b => write_block (block_series b) st b) st (chunks (length (q :: a)) n (q :: a))).
  { pose proof (uniform_chunks (series p) n (q :: a) Hn Ha) as Hu. revert st.
    induction Hu as [|c cs [_ Hc] _ IHc]; intros st; cbn [try_fold]; [done|]. rewrite Hc.
    destruct (write_block _ _ _); cbn [bind]; [apply IHc|done]. }
  rewrite Ef. match goal with |- bind ?m _ = bind ?m _ => destruct m as [st'|]; [by apply (IH b st')|done] end.
Qed.
End Writing.
