(* ===== verification/SegmentWrite.v ===== *)
(** * SegmentWrite: the file [Segment::create] publishes

    Every block that is written is read back, the index that is written
    passes the checks of [Segment::open], and the points of the opened
    segment are the points that were given, sorted. *)
From S2P Require Import Prelude Errors Bytes Float64 Model Transaction Catalog Query Codec Columns Effects.
From S2P Require Import Segment SegmentInv.

(** ** Reading at an offset *)

Lemma read_exact_at_app pre b suf n off :
  n = len b -> off = len pre -> read_exact_at (pre ++ b ++ suf) n off = Ok b.
Proof.
  intros -> ->. unfold read_exact_at. rewrite (proj2 (Z.ltb_ge _ _)) by (rewrite !zlen_app; pose proof (zlen_nonneg suf); lia).
  f_equal. rewrite zlen_nat. apply slice_app_at. unfold zlen. lia.
Qed.

Section Blocks.
Context `{Crc} `{Lz4}.

(** ** One block *)

Lemma length_block_header_prefix c s n ul pl crc lo hi :
  length (block_header_prefix c s n ul pl crc lo hi) = 48%nat.
Proof. unfold block_header_prefix. rewrite !length_app, !length_to_le. reflexivity. Qed.

Lemma length_block_header c s n ul pl crc lo hi : len (encode_block_header c s n ul pl crc lo hi) = BLOCK_HEADER_BYTES.
Proof.
  unfold encode_block_header, zlen. rewrite !length_app, length_block_header_prefix, length_to_le. reflexivity.
Qed.

Lemma parse_block_header_encode c s n ul pl crc lo hi :
  is_u64 s -> is_u32 n -> is_u32 ul -> is_u32 pl -> is_u32 crc -> is_i64 lo -> is_i64 hi ->
  parse_block_header (encode_block_header c s n ul pl crc lo hi) = mkBlockHeader c s n ul pl crc lo hi.
Proof.
  intros. unfold parse_block_header, encode_block_header, block_header_prefix. rewrite <- !app_assoc.
  assert (E2 : to_le 2 BLOCK_VERSION = [1; 0]) by (vm_compute; reflexivity). rewrite E2.
  f_equal; try reflexivity; slices; auto using from_to_le_u64, from_to_le_u32, from_to_le_i64.
Qed.

Lemma check_block_header_encode c s n ul pl crc lo hi e :
  is_u64 s -> is_u32 n -> is_u32 ul -> is_u32 pl -> is_u32 crc -> is_i64 lo -> is_i64 hi ->
  ie_series e = s -> ie_points e = n -> min_time e = lo -> max_time e = hi ->
  ie_length e = BLOCK_HEADER_BYTES + pl ->
  minimum_encoded_bytes n <= ul <= maximum_encoded_bytes n ->
  check_block_header (encode_block_header c s n ul pl crc lo hi) e = Ok (mkBlockHeader c s n ul pl crc lo hi).
Proof.
  intros Hs Hn Hul Hpl Hcrc Hlo Hhi <- <- <- <- El Hb. unfold check_block_header. cbv zeta.
  rewrite parse_block_header_encode by done. cbn [bh_series bh_points bh_min_time bh_max_time bh_payload_len bh_uncompressed_len].
  rewrite !Z.eqb_refl, El, Z.eqb_refl. cbn [negb orb].
  rewrite (proj2 (Z.ltb_ge _ _)), (proj2 (Z.ltb_ge _ _)) by lia. cbn [orb].
  pose proof (length_block_header_prefix c (ie_series e) (ie_points e) ul pl crc (min_time e) (max_time e)) as Hp.
  set (prefix := block_header_prefix _ _ _ _ _ _ _ _) in *.
  assert (E48 : slice 0 48 (encode_block_header c (ie_series e) (ie_points e) ul pl crc (min_time e) (max_time e)) = prefix)
    by (by apply slice_app_l).
  assert (E52 : slice 48 52 (encode_block_header c (ie_series e) (ie_points e) ul pl crc (min_time e) (max_time e))
                = to_le 4 (hash prefix)).
  { unfold encode_block_header. fold prefix. replace 48%nat with (length prefix) by done.
    apply slice_app_at. rewrite Hp, length_to_le. done. }
  rewrite E48, E52, from_to_le_u32, Z.eqb_refl by apply hash_u32.
  assert (E2 : to_le 2 BLOCK_VERSION = [1; 0]) by (vm_compute; reflexivity).
  assert (Ez : slice 52 56 (encode_block_header c (ie_series e) (ie_points e) ul pl crc (min_time e) (max_time e)) = [0; 0; 0; 0]).
  { unfold encode_block_header. fold prefix. rewrite slice_app_r by (rewrite Hp; lia). rewrite Hp.
    rewrite slice_app_r by (rewrite length_to_le; lia). by rewrite length_to_le. }
  rewrite Ez. unfold encode_block_header, prefix, block_header_prefix. rewrite E2. reflexivity.
Qed.

(** What the writer establishes about a block at [off]. *)
Record block_at (off : Z) (b : list Point) (data : bytes) (e : IndexEntry) : Prop := {
  at_series : ie_series e = block_series b;
  at_offset : ie_offset e = off;
  at_length : ie_length e = len data;
  at_u32 : is_u32 (len data);
  at_points : ie_points e = len b;
  at_first : option_map valid_time (head b) = Some (min_time e);
  at_last : option_map valid_time (last b) = Some (max_time e);
  at_capacity : minimum_encoded_bytes (len b) <= 255 * (len data - 56);
  at_read : forall pre suf, len pre = off -> read_block (pre ++ data ++ suf) e = Ok b;
}.

(** The points of a block as [Segment::create] passes them on. *)
Definition good_block (b : list Point) : Prop :=
  uniform (Z.to_nat MAX_BLOCK_POINTS) b /\ Forall typed_point b
  /\ Forall (fun p => valid_time p <= valid_time_end p /\ f64_is_finite (value p) = true) b
  /\ times_decrease b = false.

Lemma block_violates_good b p q :
  good_block b -> head b = Some p -> last b = Some q -> block_violates (valid_time p) (valid_time q) b = false.
Proof.
  intros (_ & _ & Hi & Hd) Hp Hq. unfold block_violates. rewrite Hp, Hq, !Z.eqb_refl, Hd. cbn [negb orb].
  clear - Hi. induction Hi as [|x b [Ht Hf] _ IH]; [done|]. cbn [existsb]. rewrite IH, Hf.
  by rewrite (proj2 (Z.ltb_ge _ _)).
Qed.

Context `{!Lz4Laws}.

(** The payload the writer chooses. *)
Definition chosen (encoded : bytes) : Z * bytes :=
  if len (compress_prepend_size encoded) <? len encoded then (COMPRESSION_LZ4, compress_prepend_size encoded)
  else (COMPRESSION_RAW, encoded).

Lemma chosen_size encoded c payload :
  chosen encoded = (c, payload) -> is_u32 (len encoded) ->
  (if c =? COMPRESSION_RAW then len payload else from_le (slice 0 4 payload)) = len encoded
  /\ 0 <= len payload <= len encoded /\ len encoded <= 255 * len payload.
Proof.
  unfold chosen. pose proof (lz4_layout encoded) as El. pose proof (lz4_ratio encoded) as Hr.
  pose proof (zlen_nonneg (lz4_stream encoded)). pose proof (zlen_nonneg encoded).
  destruct (Z.ltb_spec (len (compress_prepend_size encoded)) (len encoded)) as [Hlt|Hge]; intros [= <- <-] Hu.
  - rewrite El, zlen_app, zlen_to_le in *. cbn [Z.eqb COMPRESSION_LZ4 COMPRESSION_RAW].
    rewrite slice_app_l by apply length_to_le. rewrite from_to_le_u32 by done. lia.
  - cbn. lia.
Qed.

Lemma decompress_chosen encoded c payload e :
  chosen encoded = (c, payload) -> is_u32 (len encoded) ->
  decompress_block e c (len encoded) payload = Ok encoded.
Proof.
  unfold chosen. pose proof (lz4_layout encoded) as El. pose proof (lz4_ratio encoded) as Hr.
  destruct (len (compress_prepend_size encoded) <? len encoded); intros [= <- <-] Hu; [|done].
  unfold decompress_block. cbn [Z.eqb COMPRESSION_LZ4 COMPRESSION_RAW Pos.eqb].
  rewrite El, zlen_app, zlen_to_le.
  pose proof (zlen_nonneg (lz4_stream encoded)) as Hn.
  rewrite (proj2 (Z.ltb_ge _ _)) by lia.
  rewrite slice_app_l by apply length_to_le. rewrite from_to_le_u32, Z.eqb_refl by done. cbn [negb].
  rewrite (proj2 (Z.ltb_ge _ _)).
  - rewrite drop_app_length' by (by rewrite length_to_le). by rewrite lz4_roundtrip.
  - unfold u64_saturating_mul, u64_max, MAX_LZ4_RATIO, is_u32 in *. lia.
Qed.

Lemma u32_fits z e : is_u32 z -> ok_or (u32_try_from z) e = Ok z.
Proof. intros Hz. by rewrite (proj2 (u32_try_from_Some z z) (conj eq_refl Hz)). Qed.

Lemma good_block_len b : good_block b -> 0 < len b <= 262144.
Proof.
  intros ((Hne & Hl & _) & _). unfold MAX_BLOCK_POINTS in Hl. unfold zlen.
  destruct b; [done|]. cbn [length] in *. lia.
Qed.

Lemma write_block_encoded file index b encoded :
  good_block b -> encode_columns b = Ok encoded ->
  exists data e, write_block (block_series b) (file, index) b = Ok (file ++ data, index ++ [e])
    /\ block_at (len file) b data e.
Proof.
  intros Hg Henc. pose proof (good_block_len _ Hg) as Hn. pose proof Hg as ((Hne & _ & Hs) & Ht & _).
  pose proof (encode_columns_length _ _ Henc) as Hl.
  assert (Hu : is_u32 (len encoded)) by (unfold is_u32; lia).
  destruct (chosen encoded) as [c payload] eqn:Ec.
  destruct (chosen_size _ _ _ Ec Hu) as (Eul & Hp & Hr).
  destruct (head b) as [p|] eqn:Ep; [|by destruct b]. destruct (last b) as [q|] eqn:Eq; [|by apply last_None in Eq].
  assert (Tp : typed_point p) by (rewrite Forall_forall in Ht; apply Ht; by apply head_Some_elem_of).
  assert (Tq : typed_point q) by (rewrite Forall_forall in Ht; apply Ht; by apply last_Some_elem_of).
  set (hdr := encode_block_header c (block_series b) (len b) (len encoded) (len payload) (hash payload)
                (valid_time p) (valid_time q)).
  set (e := mkIndexEntry (block_series b) (valid_time p) (valid_time q) (len file) (56 + len payload) (len b)).
  exists (hdr ++ payload), e. unfold write_block. rewrite Henc. cbn [bind].
  change (if len (compress_prepend_size encoded) <? len encoded
          then (COMPRESSION_LZ4, compress_prepend_size encoded) else (COMPRESSION_RAW, encoded)) with (chosen encoded).
  rewrite Ec. cbv iota beta zeta. rewrite Eul.
  rewrite !u32_fits by (unfold is_u32, BLOCK_HEADER_BYTES in *; lia). cbn [bind].
  rewrite Ep, Eq. cbn [ok_or bind]. split; [done|].
  assert (Hh : len hdr = 56) by apply length_block_header.
  assert (Hlen : len (hdr ++ payload) = 56 + len payload) by (by rewrite zlen_app, Hh).
  assert (Hmm : minimum_encoded_bytes (len b) <= len encoded <= maximum_encoded_bytes (len b)).
  { rewrite minimum_encoded_bytes_small, maximum_encoded_bytes_small by lia. lia. }
  constructor; rewrite ?Hlen, ?Ep, ?Eq; try done.
  - unfold is_u32. lia.
  - lia.
  - intros pre suf Hpre. unfold read_block. cbn [ie_offset e].
    rewrite <- app_assoc, (read_exact_at_app pre hdr) by (by rewrite ?Hh). cbn [bind].
    unfold hdr at 1. rewrite check_block_header_encode; try done.
    + cbn [bind bh_payload_len bh_payload_crc bh_compression bh_uncompressed_len bh_series bh_points bh_min_time bh_max_time].
      rewrite (app_assoc pre), read_exact_at_app by (rewrite ?zlen_app, ?Hh; unfold BLOCK_HEADER_BYTES; lia). cbn [bind].
      rewrite Z.eqb_refl. cbn [negb]. rewrite (decompress_chosen _ _ _ _ Ec Hu). cbn [bind].
      rewrite Z.eqb_refl. cbn [negb]. rewrite zlen_nat, (decode_encode_columns _ _ _ _ Henc) by (done || lia). cbn [bind].
      by rewrite (block_violates_good b p q).
    + rewrite Forall_forall in Hs. rewrite <- (Hs p) by (by apply head_Some_elem_of). apply Tp.
    + unfold is_u32. lia.
    + unfold is_u32. lia.
    + apply hash_u32.
    + apply Tp.
    + apply Tq.
Qed.

(** ** All blocks *)

Inductive laid : Z -> list (list Point) -> bytes -> list IndexEntry -> Prop :=
  | laid_nil off : laid off [] [] []
  | laid_cons off b bs data D e es :
      block_at off b data e -> laid (off + len data) bs D es -> laid off (b :: bs) (data ++ D) (e :: es).

Lemma write_blocks_laid bs : forall file index file' index',
  Forall good_block bs ->
  try_fold (fun st b => write_block (block_series b) st b) (file, index) bs = Ok (file', index') ->
  exists D es, file' = file ++ D /\ index' = index ++ es /\ laid (len file) bs D es.
Proof.
  induction bs as [|b bs IH]; intros file index file' index' Hbs Hw; cbn [try_fold] in Hw.
  - injection Hw as <- <-. exists [], []. rewrite !app_nil_r. repeat constructor.
  - apply Forall_cons in Hbs as [Hb Hbs]. apply bind_Ok in Hw as (st & Hw1 & Hw).
    pose proof Hw1 as Hw2. unfold write_block in Hw2. apply bind_Ok in Hw2 as (encoded & Henc & _).
    destruct (write_block_encoded file index b encoded Hb Henc) as (data & e & E & Hat).
    rewrite E in Hw1. injection Hw1 as <-.
    destruct (IH _ _ _ _ Hbs Hw) as (D & es & -> & -> & Hl). exists (data ++ D), (e :: es).
    rewrite <- !app_assoc. rewrite zlen_app in Hl. split; [done|]. split; [done|]. by constructor.
Qed.

(** Writing does not fail when every block can be encoded. *)
Lemma write_blocks_total bs : forall file index,
  Forall good_block bs -> Forall (fun b => exists encoded, encode_columns b = Ok encoded) bs ->
  exists st, try_fold (fun st b => write_block (block_series b) st b) (file, index) bs = Ok st.
Proof.
  induction bs as [|b bs IH]; intros file index Hbs He; cbn [try_fold]; [eauto|].
  apply Forall_cons in Hbs as [Hb Hbs]. apply Forall_cons in He as [[encoded He] Hes].
  destruct (write_block_encoded file index b encoded Hb He) as (data & e & -> & _). by apply IH.
Qed.

Lemma laid_length off bs D es : laid off bs D es -> length es = length bs /\ 0 <= len D <= 2 ^ 32 * len es.
Proof.
  induction 1 as [|off b bs data D e es Hat _ [IH1 IH2]]; [by unfold zlen|].
  pose proof (at_u32 _ _ _ _ Hat). rewrite zlen_app. unfold zlen in *. cbn [length]. unfold is_u32 in *. lia.
Qed.

Lemma laid_reads off bs D es : laid off bs D es ->
  forall pre suf, len pre = off -> Forall2 (fun e b => read_block (pre ++ D ++ suf) e = Ok b) es bs.
Proof.
  induction 1 as [|off b bs data D e es Hat _ IH]; intros pre suf Hpre; constructor.
  - rewrite <- app_assoc. by apply (at_read _ _ _ _ Hat).
  - specialize (IH (pre ++ data) suf). rewrite <- !app_assoc in *. apply IH. rewrite zlen_app. lia.
Qed.

Definition typed_entry (e : IndexEntry) : Prop :=
  is_u64 (ie_series e) /\ is_i64 (min_time e) /\ is_i64 (max_time e) /\ is_u64 (ie_offset e)
  /\ is_u32 (ie_length e) /\ is_u32 (ie_points e).

Lemma block_at_typed off b data e :
  block_at off b data e -> good_block b -> is_u64 off -> typed_entry e.
Proof.
  intros Hat Hg Hoff. pose proof (good_block_len _ Hg) as Hn. pose proof Hg as ((_ & _ & Hs) & Ht & _).
  rewrite Forall_forall in Ht, Hs. destruct Hat as [E1 E2 E3 Hu E4 Ef El _ _].
  destruct (head b) as [p|] eqn:Ep; [|done]. destruct (last b) as [q|] eqn:Eq; [|done].
  injection Ef as Ef. injection El as El. apply head_Some_elem_of in Ep. apply last_Some_elem_of in Eq.
  unfold typed_entry. rewrite <- Ef, <- El, E1, E2, E3, E4, <- (Hs p Ep). pose proof (Ht p Ep) as Tp. pose proof (Ht q Eq) as Tq.
  refine (conj _ (conj _ (conj _ (conj _ (conj _ _))))); [apply Tp|apply Tp|apply Tq|done|done|].
  unfold is_u32. lia.
Qed.

Lemma laid_typed off bs D es :
  laid off bs D es -> Forall good_block bs -> 0 <= off -> off + len D < 2 ^ 64 -> Forall typed_entry es.
Proof.
  induction 1 as [|off b bs data D e es Hat _ IH]; intros Hbs Hoff H64; [constructor|].
  apply Forall_cons in Hbs as [Hb Hbs]. rewrite zlen_app in H64.
  pose proof (zlen_nonneg data). pose proof (zlen_nonneg D). constructor.
  - apply (block_at_typed _ _ _ _ Hat); [done|]. unfold is_u64. lia.
  - apply IH; [done|lia|lia].
Qed.

Lemma decode_encode_index e : typed_entry e -> decode_index (encode_index e) = e.
Proof.
  intros (? & ? & ? & ? & ? & ?). unfold decode_index, encode_index. slices.
  rewrite !from_to_le_u64, !from_to_le_i64, !from_to_le_u32 by done. by destruct e.
Qed.

Lemma length_encode_index e : length (encode_index e) = 40%nat.
Proof. unfold encode_index. by rewrite !length_app, !length_to_le. Qed.

Lemma length_index_entries es : len (concat (map encode_index es)) = 40 * len es.
Proof.
  unfold zlen. induction es as [|e es IH]; [done|]. cbn [map concat length].
  rewrite length_app, length_encode_index. lia.
Qed.

Lemma index_entries_decode es :
  Forall typed_entry es -> map decode_index (chunks_exact (length es) 40 (concat (map encode_index es))) = es.
Proof.
  intros He. rewrite <- (length_map encode_index), chunks_exact_concat.
  - rewrite map_map. rewrite <- (map_id es) at 2. apply map_ext_Forall.
    eapply Forall_impl; [exact He|]. intros e. apply decode_encode_index.
  - apply Forall_map, Forall_true. intros e. apply length_encode_index.
Qed.

(** ** The index *)

(** Every point of [ps] comes after the block of [prev]. *)
Definition follows (prev : option IndexEntry) (ps : list Point) : Prop :=
  forall e, prev = Some e ->
    min_time e <= max_time e
    /\ Forall (fun p => ie_series e < series p \/ (ie_series e = series p /\ max_time e <= valid_time p)) ps.

Lemma StronglySorted_cross {A} (R : A -> A -> Prop) l k x :
  StronglySorted R (l ++ k) -> x ∈ l -> Forall (R x) k.
Proof.
  induction l as [|y l IH]; cbn; intros Hs Hx; [by apply not_elem_of_nil in Hx|].
  apply StronglySorted_inv in Hs as [Hs Hy]. apply elem_of_cons in Hx as [->|Hx]; [|by apply IH].
  by apply Forall_app in Hy as [_ ?].
Qed.

Lemma StronglySorted_tail {A} (R : A -> A -> Prop) l k : StronglySorted R (l ++ k) -> StronglySorted R k.
Proof. induction l as [|y l IH]; cbn; [done|]. intros Hs. apply IH. by apply StronglySorted_inv in Hs as [? _]. Qed.

Lemma block_at_ends off b data e :
  block_at off b data e -> good_block b ->
  exists p q, head b = Some p /\ q ∈ b /\ p ∈ b /\ valid_time p = min_time e /\ valid_time q = max_time e
    /\ series p = ie_series e /\ series q = ie_series e /\ min_time e <= max_time e.
Proof.
  intros Hat ((_ & _ & Hs) & _ & _ & Hd). destruct Hat as [E1 _ _ _ _ Ef El _ _].
  destruct (head b) as [p|] eqn:Ep; [|done]. destruct (last b) as [q|] eqn:Eq; [|done].
  injection Ef as Ef. injection El as El. pose proof (times_sorted _ _ _ Hd Ep Eq) as Ht.
  pose proof Ep as Ip. apply head_Some_elem_of in Ip. apply last_Some_elem_of in Eq.
  rewrite Forall_forall in Hs, Ht. exists p, q. rewrite E1.
  pose proof (Ht p Ip). cbn in *. repeat split; auto; lia.
Qed.

Lemma check_entry_ok index_offset prev n off b data e ps :
  block_at off b data e -> good_block b -> 0 <= off -> off + len data <= index_offset < 2 ^ 64 ->
  follows prev (b ++ ps) ->
  check_index_entry index_offset (prev, n, off) e = Ok (Some e, n + len b, off + len data).
Proof.
  intros Hat Hg Hoff Hio Hf. pose proof (good_block_len _ Hg) as Hn. pose proof (zlen_nonneg data) as Hd0.
  destruct (block_at_ends _ _ _ _ Hat Hg) as (p & q & Ep & _ & _ & Tp & _ & Sp & _ & Hm).
  destruct Hat as [E1 E2 E3 Hu E4 _ _ Hc _]. unfold check_index_entry.
  rewrite E2, E3, E4, Z.eqb_refl.
  assert (Ea : u64_checked_add off (len data) = Some (off + len data)).
  { unfold u64_checked_add. apply u64_checked_ok. unfold is_u64. lia. }
  rewrite Ea. cbn [negb].
  rewrite (proj2 (Z.eqb_neq (len b) 0)), (proj2 (Z.ltb_ge MAX_BLOCK_POINTS _)),
    (proj2 (Z.ltb_ge (max_time e) _)), (proj2 (Z.ltb_ge index_offset _)) by (unfold MAX_BLOCK_POINTS; lia).
  cbn [orb]. cbv zeta. rewrite (proj2 (Z.ltb_ge _ _)).
  2:{ unfold u64_saturating_mul, u64_saturating_sub, BLOCK_HEADER_BYTES, MAX_LZ4_RATIO, u64_max.
      unfold is_u32 in Hu. lia. }
  replace (index_order_broken prev e) with false; [done|]. symmetry.
  destruct prev as [prev|]; [|done]. destruct (Hf prev eq_refl) as [Hmp Hps]. cbn [index_order_broken].
  apply Forall_app in Hps as [Hb _]. rewrite Forall_forall in Hb.
  specialize (Hb p ltac:(by apply head_Some_elem_of)). cbn in Hb.
  rewrite Sp, Tp in Hb. rewrite !orb_false_iff, !andb_false_iff. zbool.
  rewrite !Z.ltb_ge, !Z.eqb_neq. lia.
Qed.

Lemma laid_index off bs D es : laid off bs D es ->
  forall index_offset prev n, Forall good_block bs -> 0 <= off -> off + len D <= index_offset < 2 ^ 64 ->
  StronglySorted (fun a b => segment_leb a b = true) (concat bs) -> follows prev (concat bs) ->
  exists last_entry, try_fold (check_index_entry index_offset) (prev, n, off) es
    = Ok (last_entry, n + len (concat bs), off + len D).
Proof.
  induction 1 as [off|off b bs data D e es Hat _ IH]; intros index_offset prev n Hbs Hoff Hio Hs Hf;
    cbn [try_fold concat].
  - exists prev. unfold zlen. cbn [length]. by rewrite !Z.add_0_r.
  - apply Forall_cons in Hbs as [Hb Hbs]. rewrite zlen_app in Hio. cbn [concat] in Hs, Hf.
    pose proof (zlen_nonneg D) as HD. pose proof (zlen_nonneg data) as Hd.
    rewrite (check_entry_ok index_offset prev n off b data e (concat bs)) by (done || lia). cbn [bind].
    edestruct (IH index_offset (Some e) (n + len b) Hbs) as (l & El); [lia|lia|by apply StronglySorted_tail in Hs| |].
    + intros e' [= <-]. destruct (block_at_ends _ _ _ _ Hat Hb) as (p & q & _ & Iq & _ & _ & Tq & _ & Sq & Hm).
      split; [done|]. pose proof (StronglySorted_cross _ _ _ q Hs Iq) as Hc.
      eapply Forall_impl; [exact Hc|]. cbn. intros x Hx. rewrite segment_leb_spec, revision_leb_spec in Hx. lia.
    + exists l. rewrite El, !zlen_app, <- !Z.add_assoc. done.
Qed.

Lemma laid_validates bs D es index_offset :
  laid SEGMENT_HEADER_BYTES bs D es -> Forall good_block bs ->
  SEGMENT_HEADER_BYTES + len D = index_offset -> index_offset < 2 ^ 64 ->
  StronglySorted (fun a b => segment_leb a b = true) (concat bs) ->
  validate_index es index_offset (len (concat bs)) = Ok tt.
Proof.
  intros Hl Hbs <- H64 Hs. unfold validate_index.
  destruct (laid_index _ _ _ _ Hl (SEGMENT_HEADER_BYTES + len D) None 0) as (l & ->);
    [done|unfold SEGMENT_HEADER_BYTES; lia|lia|done|by intros e [=]|].
  cbn [bind]. by rewrite Z.add_0_l, !Z.eqb_refl.
Qed.

(** ** The file *)

Lemma length_segment_header_prefix c n io ib : length (segment_header_prefix c n io ib) = 36%nat.
Proof. unfold segment_header_prefix. rewrite !length_app, !length_to_le. reflexivity. Qed.

Lemma length_segment_header c n io ib : length (segment_header c n io ib) = 40%nat.
Proof. unfold segment_header. by rewrite length_app, length_segment_header_prefix, length_to_le. Qed.

Lemma length_index_header entries c : length (index_header entries c) = 16%nat.
Proof. unfold index_header. rewrite !length_app, !length_to_le. reflexivity. Qed.

(** The header fields as [Segment::open] slices them. *)
Lemma segment_header_fields c n io ib :
  is_u32 c -> is_u64 n -> is_u64 io -> is_u32 ib ->
  let h := segment_header c n io ib in
  slice 0 8 h = SEGMENT_MAGIC /\ from_le (slice 8 10 h) = SEGMENT_VERSION /\ slice 10 12 h = [0; 0]
  /\ hash (slice 0 36 h) = from_le (slice 36 40 h)
  /\ from_le (slice 12 16 h) = c /\ from_le (slice 16 24 h) = n
  /\ from_le (slice 24 32 h) = io /\ from_le (slice 32 36 h) = ib.
Proof.
  intros Hc Hn Hio Hib h.
  assert (E36 : slice 0 36 h = segment_header_prefix c n io ib)
    by (apply slice_app_l, length_segment_header_prefix).
  assert (E40 : slice 36 40 h = to_le 4 (hash (segment_header_prefix c n io ib))).
  { unfold h, segment_header. rewrite slice_app_r by (rewrite length_segment_header_prefix; lia).
    rewrite length_segment_header_prefix. apply slice_all, length_to_le. }
  rewrite E36, E40, from_to_le_u32 by apply hash_u32.
  unfold h, segment_header. set (crc := to_le 4 _). unfold segment_header_prefix.
  rewrite <- !app_assoc. repeat split; slices; rewrite ?from_to_le_u32, ?from_to_le_u64 by done; try done.
Qed.

Lemma index_header_fields entries c :
  is_u32 c ->
  let h := index_header entries c in
  slice 0 4 h = INDEX_MAGIC /\ from_le (slice 4 6 h) = INDEX_VERSION /\ from_le (slice 6 8 h) = INDEX_ENTRY_BYTES
  /\ from_le (slice 8 12 h) = c /\ from_le (slice 12 16 h) = hash entries.
Proof.
  intros Hc h. unfold h, index_header. repeat split; slices; rewrite ?from_to_le_u32 by (done || apply hash_u32); try done.
Qed.

Lemma Segment_open_layout D es n :
  Forall typed_entry es -> is_u64 n ->
  let io := 40 + len D in
  let ib := 16 + 40 * len es in
  let entries := concat (map encode_index es) in
  is_u32 ib -> io + ib < 2 ^ 64 ->
  let file := segment_header (len es) n io ib ++ D ++ index_header entries (len es) ++ entries in
  validate_index es io n = Ok tt ->
  Segment_open file
  = Ok (mkSegment file es (mkSegmentStats (len es) n (io + ib) (u64_saturating_mul n 72))).
Proof.
  intros Hes Hn io ib entries Hib H64 file Hv.
  pose proof (zlen_nonneg es) as He0. pose proof (zlen_nonneg D) as HD0.
  assert (Hc : is_u32 (len es)) by (unfold is_u32, ib in *; lia).
  assert (Hio : is_u64 io) by (unfold is_u64, io, ib in *; lia).
  assert (Hel : len entries = 40 * len es) by apply length_index_entries.
  assert (Hh : len (segment_header (len es) n io ib) = 40) by (unfold zlen at 1; by rewrite length_segment_header).
  assert (Hi : len (index_header entries (len es)) = 16) by (unfold zlen at 1; by rewrite length_index_header).
  assert (Hlen : len file = io + ib) by (unfold file; rewrite !zlen_app, Hel, Hh, Hi; unfold io, ib; lia).
  destruct (segment_header_fields (len es) n io ib Hc Hn Hio Hib) as (F1 & F2 & F3 & F4 & F5 & F6 & F7 & F8).
  destruct (index_header_fields entries (len es) Hc) as (I1 & I2 & I3 & I4 & I5).
  unfold Segment_open. cbv zeta. rewrite Hlen.
  rewrite (proj2 (Z.ltb_ge _ _)) by (unfold SEGMENT_HEADER_BYTES, INDEX_HEADER_BYTES, io, ib; lia).
  replace (read_exact_at file SEGMENT_HEADER_BYTES 0) with (Ok (segment_header (len es) n io ib))
    by (symmetry; apply (read_exact_at_app []); done).
  cbn [bind]. rewrite F1, F2, F3, F4, F5, F6, F7, F8, !bool_decide_true, !Z.eqb_refl by done. cbn [negb orb].
  rewrite (proj2 (Z.ltb_ge _ _)) by (unfold SEGMENT_HEADER_BYTES, io; lia). cbn [orb].
  unfold u64_checked_add. rewrite u64_checked_ok by (unfold is_u64, ib in *; lia). rewrite Z.eqb_refl. cbn [negb].
  replace (read_exact_at file INDEX_HEADER_BYTES io) with (Ok (index_header entries (len es))).
  2:{ symmetry. unfold file. rewrite app_assoc. apply read_exact_at_app; [done|]. rewrite zlen_app, Hh. done. }
  cbn [bind]. rewrite I1, I2, I3, I4, I5, bool_decide_true, !Z.eqb_refl by done. cbn [negb orb].
  rewrite (proj2 (Z.eqb_eq ib _)) by (unfold ib, INDEX_HEADER_BYTES, INDEX_ENTRY_BYTES; lia). cbn [negb].
  replace (read_exact_at file (len es * INDEX_ENTRY_BYTES) (io + INDEX_HEADER_BYTES)) with (Ok entries).
  2:{ symmetry. unfold file. rewrite <- (app_nil_r entries) at 2. rewrite !app_assoc, <- (app_assoc _ entries).
      apply read_exact_at_app; [rewrite Hel; unfold INDEX_ENTRY_BYTES; lia|].
      rewrite !zlen_app, Hh, Hi. unfold io, INDEX_HEADER_BYTES. lia. }
  cbn [bind]. rewrite Z.eqb_refl. cbn [negb].
  change (Z.to_nat INDEX_ENTRY_BYTES) with 40%nat. rewrite zlen_nat, index_entries_decode by done.
  by rewrite Hv.
Qed.

(** ** Create, then open *)

Lemma sorted_times s b :
  StronglySorted (fun a b => segment_leb a b = true) b -> Forall (fun p => series p = s) b -> times_decrease b = false.
Proof.
  induction 1 as [|p b Hs IH Hp]; intros Hu; [done|]. apply Forall_cons in Hu as [Ep Hu].
  destruct b as [|q b]; [done|]. apply Forall_cons in Hp as [Hpq _].
  apply Forall_cons in Hu as [Eq Hu']. apply segment_leb_time in Hpq; [|congruence].
  change (times_decrease (p :: q :: b)) with ((valid_time q <? valid_time p) || times_decrease (q :: b)).
  rewrite IH by (by constructor). rewrite (proj2 (Z.ltb_ge _ _)) by done. done.
Qed.

Lemma good_blocks n points :
  (0 < n <= Z.to_nat MAX_BLOCK_POINTS)%nat -> Forall typed_point points -> validate_point_intervals points = Ok tt ->
  let ordered := stable_sort segment_leb points in
  Forall good_block (series_blocks (length ordered) n ordered).
Proof.
  intros Hn Ht Hv ordered. destruct (series_blocks_props n (length ordered) ordered) as [Ec Hu]; [lia|lia|].
  set (bs := series_blocks _ _ _) in *.
  assert (Hperm : ordered ≡ₚ points) by apply stable_sort_perm.
  assert (Ht' : Forall typed_point (concat bs)) by (rewrite Ec, Hperm; done).
  assert (Hi : Forall (fun p => valid_time p <= valid_time_end p /\ f64_is_finite (value p) = true) (concat bs)).
  { rewrite Ec, Hperm. apply Forall_forall. intros p Hp.
    unfold validate_point_intervals in Hv. rewrite for_each_Ok in Hv. specialize (Hv p Hp).
    unfold validate_point_interval in Hv. ok_inv. zbool. done. }
  assert (Hs : StronglySorted (fun a b => segment_leb a b = true) (concat bs)).
  { rewrite Ec. apply stable_sort_sorted; [apply segment_leb_total|apply segment_leb_trans]. }
  clearbody bs. clear Ec. induction bs as [|b bs IH]; [done|].
  apply Forall_cons in Hu as [Hb Hu]. cbn [concat] in *.
  apply Forall_app in Ht' as [? ?]. apply Forall_app in Hi as [? ?]. constructor.
  - assert (Hsb : StronglySorted (fun a b => segment_leb a b = true) b).
    { clear - Hs. induction b as [|p b IH]; [constructor|]. cbn in Hs. apply StronglySorted_inv in Hs as [Hs Hp].
      constructor; [by apply IH|]. by apply Forall_app in Hp as [? _]. }
    destruct Hb as (Hne & Hl & Hser). unfold good_block.
    split; [split; [done|split; [lia|done]]|]. split; [done|]. split; [done|].
    by apply (sorted_times (block_series b)).
  - apply IH; try done. by apply StronglySorted_tail in Hs.
Qed.

Lemma laid_points off bs D es pre suf :
  laid off bs D es -> len pre = off ->
  Forall (readable (pre ++ D ++ suf)) es
  /\ concat (map (block_points (pre ++ D ++ suf)) es) = concat bs.
Proof.
  intros Hl Hp. pose proof (laid_reads _ _ _ _ Hl pre suf Hp) as Hr. clear Hl Hp.
  induction Hr as [|e b es bs He _ [IH1 IH2]]; [done|]. cbn [map concat]. rewrite IH2.
  unfold readable, block_points in *. rewrite He. split; [|done]. constructor; [|done]. by rewrite He.
Qed.

Lemma laid_point_total off bs D es : laid off bs D es -> Forall good_block bs -> len (concat bs) <= 262144 * len es.
Proof.
  intros Hl. apply laid_length in Hl as [El _]. unfold zlen at 2. rewrite El. clear El.
  induction 1 as [|b bs Hb _ IH]; [done|]. cbn [concat length]. rewrite zlen_app.
  apply good_block_len in Hb. lia.
Qed.

(** The sorted points come back from the bytes that are written. *)
Lemma write_open points n file st :
  write_temporary_segment points n = Ok (file, st) ->
  0 < n <= MAX_BLOCK_POINTS -> Forall typed_point points -> validate_point_intervals points = Ok tt ->
  exists g, Segment_open file = Ok g /\ seg_file g = file /\ seg_stats g = st /\ verify_blocks g = Ok tt
    /\ segment_points g = stable_sort segment_leb points.
Proof.
  intros Hw Hn Ht Hv. unfold write_temporary_segment in Hw. cbv zeta in Hw.
  set (ordered := stable_sort segment_leb points) in *.
  assert (Hnn : (0 < Z.to_nat n <= Z.to_nat MAX_BLOCK_POINTS)%nat) by lia.
  pose proof (good_blocks (Z.to_nat n) points Hnn Ht Hv) as Hg. cbv zeta in Hg. fold ordered in Hg.
  destruct (series_blocks_props (Z.to_nat n) (length ordered) ordered) as [Ec _]; [lia|lia|].
  apply bind_Ok in Hw as ([file0 es] & Hws & Hw). rewrite write_series_fold in Hws by lia.
  set (bs := series_blocks _ _ _) in *.
  destruct (write_blocks_laid bs _ _ _ _ Hg Hws) as (D & es' & -> & E & Hl). cbn [app] in E. subst es'.
  change (len (replicate (Z.to_nat SEGMENT_HEADER_BYTES) 0)) with SEGMENT_HEADER_BYTES in Hl.
  apply bind_Ok in Hw as (count & Hcount & Hw). apply ok_or_Ok, u32_try_from_Some in Hcount as [-> Hcount].
  apply bind_Ok in Hw as (ib & Hib & Hw). apply ok_or_Ok, u32_try_from_Some in Hib as [-> Hib].
  rewrite length_index_entries in *. unfold INDEX_HEADER_BYTES in *.
  rewrite <- !app_assoc, length_segment_header, !zlen_app, drop_app_length' in Hw by done.
  change (len (replicate (Z.to_nat SEGMENT_HEADER_BYTES) 0)) with 40 in Hw.
  destruct (laid_length _ _ _ _ Hl) as [_ HD]. unfold is_u32 in Hcount, Hib.
  assert (Hpts : len (concat bs) = len points).
  { rewrite Ec. unfold ordered, zlen. by rewrite (stable_sort_perm segment_leb points). }
  assert (Hnp : is_u64 (len points)).
  { rewrite <- Hpts. pose proof (laid_point_total _ _ _ _ Hl Hg). pose proof (zlen_nonneg (concat bs)).
    unfold is_u64. lia. }
  assert (Hval : validate_index es (40 + len D) (len points) = Ok tt).
  { rewrite <- Hpts. apply (laid_validates bs D); try done; [lia|]. rewrite Ec.
    apply stable_sort_sorted; [apply segment_leb_total|apply segment_leb_trans]. }
  assert (Hte : Forall typed_entry es) by (apply (laid_typed _ _ _ _ Hl Hg); unfold SEGMENT_HEADER_BYTES; lia).
  pose proof (Segment_open_layout D es (len points) Hte Hnp ltac:(unfold is_u32; lia) ltac:(lia) Hval) as Ho.
  assert (Hh : forall c k io ib, len (segment_header c k io ib) = 40) by (intros; unfold zlen; by rewrite length_segment_header).
  assert (Hi : forall x c, len (index_header x c) = 16) by (intros; unfold zlen; by rewrite length_index_header).
  rewrite Hh, !zlen_app, length_index_entries, Hi, Z.mod_small, !Z.add_assoc in Hw by lia.
  rewrite Z.add_assoc in Ho. injection Hw as <- <-.
  eexists. split; [exact Ho|]. cbn [seg_file seg_stats]. split; [done|]. split; [done|].
  destruct (laid_points _ _ _ _ (segment_header (len es) (len points) (40 + len D) (16 + 40 * len es))
              (index_header (concat (map encode_index es)) (len es) ++ concat (map encode_index es)) Hl)
    as [Hr Ep]; [apply Hh|].
  split; [by apply verify_blocks_readable|]. unfold segment_points. cbn [seg_file seg_index]. by rewrite Ep.
Qed.

Lemma create_open ex points n file st :
  Segment_create ex points n = Ok (file, st) -> 0 <= n -> Forall typed_point points ->
  exists g, Segment_open file = Ok g /\ seg_file g = file /\ seg_stats g = st /\ verify_blocks g = Ok tt
    /\ segment_points g = stable_sort segment_leb points.
Proof.
  intros Hc Hn Ht. unfold Segment_create in Hc.
  apply bind_Ok in Hc as ([] & Hb & Hc). apply reject_Ok in Hb.
  apply bind_Ok in Hc as ([] & Hv & Hc). apply bind_Ok in Hc as ([] & _ & Hc).
  apply (write_open points n); try done. zbool. lia.
Qed.

(** ** When creation succeeds *)

Lemma uniform_count n bs : Forall (uniform n) bs -> len bs <= len (concat bs).
Proof.
  induction 1 as [|b bs (Hne & _) _ IH]; [done|]. cbn [concat]. rewrite zlen_app. unfold zlen in *.
  destruct b; [done|]. cbn [length] in *. lia.
Qed.

Lemma create_total points n :
  0 < n <= MAX_BLOCK_POINTS -> Forall typed_point points -> Forall near_times points ->
  validate_point_intervals points = Ok tt -> len points <= 100000000 ->
  exists file st, Segment_create false points n = Ok (file, st).
Proof.
  intros Hn Ht Hnear Hv Hlen. unfold Segment_create.
  rewrite (proj2 (Z.eqb_neq _ _)), (proj2 (Z.ltb_ge _ _)) by lia. cbn [orb reject bind]. rewrite Hv. cbn [bind].
  unfold write_temporary_segment. cbv zeta. set (ordered := stable_sort segment_leb points) in *.
  assert (Hnn : (0 < Z.to_nat n <= Z.to_nat MAX_BLOCK_POINTS)%nat) by lia.
  pose proof (good_blocks (Z.to_nat n) points Hnn Ht Hv) as Hg. cbv zeta in Hg. fold ordered in Hg.
  destruct (series_blocks_props (Z.to_nat n) (length ordered) ordered) as [Ec Hu]; [lia|lia|].
  rewrite write_series_fold by lia. set (bs := series_blocks _ _ _) in *.
  assert (Hperm : ordered ≡ₚ points) by apply stable_sort_perm.
  assert (Hnb : Forall near_times (concat bs)) by (rewrite Ec, Hperm; done).
  assert (Hcount : len bs <= len points).
  { apply uniform_count in Hu. rewrite Ec in Hu. unfold zlen in *. rewrite (Permutation_length Hperm) in Hu. lia. }
  destruct (write_blocks_total bs (replicate (Z.to_nat SEGMENT_HEADER_BYTES) 0) [] Hg) as ([file0 es] & Hws).
  { apply Forall_concat in Hnb. rewrite Forall_forall in *. intros b Hb. pose proof (good_block_len b (Hg b Hb)).
    apply encode_columns_total; [intros ->; unfold zlen in *; cbn in *; lia|by apply Hnb|lia]. }
  rewrite Hws. cbn [bind].
  destruct (write_blocks_laid bs _ _ _ _ Hg Hws) as (D & es' & _ & -> & Hl). cbn [app].
  apply laid_length in Hl as [El _].
  assert (Hes : 0 <= len es' <= 100000000) by (unfold zlen in *; lia).
  rewrite length_index_entries, !u32_fits by (unfold is_u32, INDEX_HEADER_BYTES; lia). cbn [bind]. eauto.
Qed.

Lemma encode_rows_delta ps : forall first bits rows p,
  encode_rows first bits ps = Ok rows -> p ∈ ps -> is_i64 (valid_time_end p - valid_time p).
Proof.
  induction ps as [|q ps IH]; intros first bits rows p He Hp; [by apply not_elem_of_nil in Hp|].
  cbn [encode_rows] in He. apply bind_Ok in He as (row & Hr & He). apply bind_Ok in He as (tail & Ht & _).
  apply elem_of_cons in Hp as [->|Hp]; [|by apply (IH false (value q) tail)].
  unfold encode_row in Hr. apply bind_Ok in Hr as (e & Hd & _). by apply checked_delta_Ok in Hd as [-> ?].
Qed.

Lemma write_blocks_delta bs : forall st st' p,
  try_fold (fun st b => write_block (block_series b) st b) st bs = Ok st' ->
  p ∈ concat bs -> is_i64 (valid_time_end p - valid_time p).
Proof.
  induction bs as [|b bs IH]; intros st st' p Hw Hp; [by apply not_elem_of_nil in Hp|].
  cbn [try_fold concat] in *. apply bind_Ok in Hw as (st1 & Hb & Hw).
  apply elem_of_app in Hp as [Hp|Hp]; [|by apply (IH st1 st')].
  unfold write_block in Hb. destruct st as [file index]. apply bind_Ok in Hb as (encoded & Henc & _).
  apply encode_columns_Ok in Henc as (times & rows & _ & Hr & _). by apply encode_rows_delta with (p := p) in Hr.
Qed.

(** A point whose interval is longer than [i64::MAX] microseconds, which the
    log accepts, is in no segment. *)
Lemma create_rejects_long_interval ex points n p :
  0 <= n -> p ∈ points -> i64_max < valid_time_end p - valid_time p ->
  exists e, Segment_create ex points n = Err e.
Proof.
  intros Hn Hp Hlong. destruct (Segment_create ex points n) as [[file st]|e] eqn:Hc; [|eauto]. exfalso.
  unfold Segment_create in Hc.
  apply bind_Ok in Hc as ([] & Hb & Hc). apply reject_Ok in Hb. zbool.
  apply bind_Ok in Hc as ([] & _ & Hc). apply bind_Ok in Hc as ([] & _ & Hc).
  unfold write_temporary_segment in Hc. cbv zeta in Hc. set (ordered := stable_sort segment_leb points) in *.
  apply bind_Ok in Hc as (st0 & Hw & _). rewrite write_series_fold in Hw by lia.
  destruct (series_blocks_props (Z.to_nat n) (length ordered) ordered) as [Ec _]; [lia|lia|].
  apply write_blocks_delta with (p := p) in Hw; [unfold is_i64, i64_max in *; lia|].
  rewrite Ec. unfold ordered. by rewrite (stable_sort_perm segment_leb points).
Qed.
End Blocks.
