(* ===== verification/RollupSegment.v ===== *)
(** * RollupSegment: [src/src/rollup_segment.rs]

    An immutable file of closed gauge buckets: a checksummed header and one
    payload of fixed-width buckets, stored raw or as an LZ4 block. *)
From S2P Require Import Prelude Errors Bytes Float64 Model Transaction Aggregate Rollup Codec Segment SegmentInv SegmentWrite.

Definition ROLLUP_MAGIC : bytes := bstr "WROL0001".
Definition ROLLUP_VERSION : Z := 1.
Definition ROLLUP_HEADER_BYTES : Z := 48.
Definition BUCKET_BYTES : Z := 104.
Definition MAX_ROLLUP_BUCKETS : Z := 262144.

Record RollupSegmentStats := mkRollupStats {
  rs_buckets : Z;
  rs_stored_bytes : Z;
  rs_logical_bytes : Z;
  rs_min_start : option Z;
  rs_max_end : option Z;
}.

Record RollupSegment := mkRollupSegment {
  rollup_buckets : list GaugeBucket;
  rollup_stats : RollupSegmentStats;
}.

(** ** Buckets *)

Definition presence_byte (b : GaugeBucket) : Z :=
  Z.lor (Z.lor (Z.lor (Z.b2z (bool_decide (is_Some (b_min b))))
                      (Z.shiftl (Z.b2z (bool_decide (is_Some (b_max b)))) 1))
               (Z.shiftl (Z.b2z (bool_decide (is_Some (b_first b)))) 2))
        (Z.shiftl (Z.b2z (bool_decide (is_Some (b_last b)))) 3).

Definition encode_bucket (b : GaugeBucket) : bytes :=
  to_le 8 (b_start b) ++ to_le 8 (b_end b) ++ to_le 8 (b_count b) ++ to_le 8 (b_sum b)
  ++ to_le 8 (default f64_zero (b_min b)) ++ to_le 8 (default f64_zero (b_max b))
  ++ to_le 8 (from_option timestamp 0 (b_first b)) ++ to_le 8 (from_option sample_value f64_zero (b_first b))
  ++ to_le 8 (from_option timestamp 0 (b_last b)) ++ to_le 8 (from_option sample_value f64_zero (b_last b))
  ++ to_le 8 (b_integral_value_micros b) ++ to_le 8 (b_covered_micros b)
  ++ [presence_byte b] ++ [0; 0; 0; 0; 0; 0; 0].

(** [bool::then]. *)
Definition then_some {A} (c : bool) (a : A) : option A := if c then Some a else None.

Definition decode_bucket (raw : bytes) : GaugeBucket :=
  let presence := nth 96 raw 0 in
  mkBucket (from_le_i64 (slice 0 8 raw)) (from_le_i64 (slice 8 16 raw)) (from_le (slice 16 24 raw))
    (from_le (slice 24 32 raw))
    (then_some (negb (Z.land presence 1 =? 0)) (from_le (slice 32 40 raw)))
    (then_some (negb (Z.land presence 2 =? 0)) (from_le (slice 40 48 raw)))
    (then_some (negb (Z.land presence 4 =? 0)) (mkSample (from_le_i64 (slice 48 56 raw)) (from_le (slice 56 64 raw))))
    (then_some (negb (Z.land presence 8 =? 0)) (mkSample (from_le_i64 (slice 64 72 raw)) (from_le (slice 72 80 raw))))
    (from_le (slice 80 88 raw)) (from_le_i64 (slice 88 96 raw)).

(** [raw[96] & !0x0f != 0 || raw[97..104] != [0; 7]]. *)
Definition reserved_bits_set (raw : bytes) : bool :=
  negb (Z.land (nth 96 raw 0) 240 =? 0) || negb (bool_decide (slice 97 104 raw = replicate 7 0)).

(** [PartialEq] of [Sample]. *)
Definition sample_eqb (a b : Sample) : bool :=
  (timestamp a =? timestamp b) && f64_eqb (sample_value a) (sample_value b).

Definition not_finite (o : option f64) : bool := match o with Some v => negb (f64_is_finite v) | None => false end.

(** The checks of [validate_buckets] on one bucket; [previous] is the bucket
    before it. *)
Definition validate_bucket (bucket_offset : Z) (previous : option GaugeBucket) (b : GaugeBucket) : Result unit :=
  if (b_end b <=? b_start b) || (b_covered_micros b <? 0) then corruption bucket_offset "invalid bucket bounds"
  else if match previous with Some prev => b_start b <? b_end prev | None => false end
  then corruption bucket_offset "rollup buckets overlap or are unsorted"
  else
    let? duration := ok_or (i64_checked_sub (b_end b) (b_start b))
      (Corruption bucket_offset (text "rollup bucket duration overflows")) in
    let has_samples := 0 <? b_count b in
    let has_values := has_samples || (0 <? b_covered_micros b) in
    let min := bool_decide (is_Some (b_min b)) in
    let max := bool_decide (is_Some (b_max b)) in
    let first := bool_decide (is_Some (b_first b)) in
    let final := bool_decide (is_Some (b_last b)) in
    if xorb has_samples (first && final) || xorb has_values (min && max) || xorb min max || xorb first final
    then corruption bucket_offset "inconsistent rollup aggregate presence"
    else if duration <? b_covered_micros b
    then corruption bucket_offset "rollup coverage exceeds bucket duration"
    else if negb (f64_is_finite (b_sum b)) || negb (f64_is_finite (b_integral_value_micros b))
            || not_finite (b_min b) || not_finite (b_max b)
            || not_finite (sample_value <$> b_first b) || not_finite (sample_value <$> b_last b)
    then corruption bucket_offset "rollup aggregate contains a non-finite value"
    else if match b_min b, b_max b with Some lo, Some hi => f64_ltb hi lo | _, _ => false end
    then corruption bucket_offset "rollup aggregate minimum exceeds maximum"
    else if match b_first b, b_last b, b_min b, b_max b with
            | Some f, Some l, Some lo, Some hi =>
                (timestamp f <? b_start b) || (b_end b <=? timestamp f)
                || (timestamp l <? b_start b) || (b_end b <=? timestamp l)
                || (timestamp l <? timestamp f)
                || f64_ltb (sample_value f) lo || f64_ltb hi (sample_value f)
                || f64_ltb (sample_value l) lo || f64_ltb hi (sample_value l)
                || ((b_count b =? 1) && negb (sample_eqb f l))
            | _, _, _, _ => false
            end
    then corruption bucket_offset "rollup samples violate aggregate bounds"
    else Ok tt.

(** [validate_buckets]: the loop from bucket [index]. *)
Fixpoint validate_from (offset index : Z) (previous : option GaugeBucket) (l : list GaugeBucket) : Result unit :=
  match l with
  | [] => Ok tt
  | b :: t => validate_bucket (offset + index * BUCKET_BYTES) previous b ;? validate_from offset (index + 1) (Some b) t
  end.
Definition validate_buckets (l : list GaugeBucket) (offset : Z) : Result unit := validate_from offset 0 None l.

Section Files.
Context `{Crc} `{Lz4}.

Definition rollup_header_prefix (compression count uncompressed_len stored_len payload_crc lo hi : Z) : bytes :=
  ROLLUP_MAGIC ++ to_le 2 ROLLUP_VERSION ++ [compression] ++ [0] ++ to_le 4 count ++ to_le 4 uncompressed_len
  ++ to_le 4 stored_len ++ to_le 4 payload_crc ++ to_le 8 lo ++ to_le 8 hi.

Definition rollup_header (compression count uncompressed_len stored_len payload_crc lo hi : Z) : bytes :=
  let prefix := rollup_header_prefix compression count uncompressed_len stored_len payload_crc lo hi in
  prefix ++ to_le 4 (hash prefix).

(** [write_temporary]: the contents of the file when it is synced. *)
Definition write_temporary (buckets : list GaugeBucket) : Result (bytes * RollupSegmentStats) :=
  let encoded := concat (map encode_bucket buckets) in
  let compressed := compress_prepend_size encoded in
  let '(compression, payload) :=
    if len compressed <? len encoded then (COMPRESSION_LZ4, compressed) else (COMPRESSION_RAW, encoded) in
  let? uncompressed_len := ok_or (u32_try_from (len buckets * BUCKET_BYTES))
    (Serialization "rollup segment exceeds u32 length") in
  let? stored_len := ok_or (u32_try_from (len payload)) (Serialization "rollup segment exceeds u32 length") in
  let? bucket_count := ok_or (u32_try_from (len buckets)) (Serialization "too many rollup buckets") in
  let min_start := from_option b_start 0 (head buckets) in
  let max_end := from_option b_end 0 (last buckets) in
  let header := rollup_header compression bucket_count uncompressed_len stored_len (hash payload) min_start max_end in
  let file := header ++ payload in
  Ok (file, mkRollupStats bucket_count (len file) uncompressed_len
              (then_some (0 <? bucket_count) min_start) (then_some (0 <? bucket_count) max_end)).

(** [RollupSegment::create]. *)
Definition RollupSegment_create (target_exists : bool) (buckets : list GaugeBucket)
    : Result (bytes * RollupSegmentStats) :=
  reject (MAX_ROLLUP_BUCKETS <? len buckets) (InvalidModel (text "rollup segment exceeds 262144 buckets")) ;?
  validate_buckets buckets 0 ;?
  reject target_exists (Io "AlreadyExists") ;?
  write_temporary buckets.

(** The [match compression] of [RollupSegment::open]. *)
Definition decompress_rollup (compression uncompressed_len stored_len : Z) (payload : bytes) : Result bytes :=
  if compression =? COMPRESSION_RAW then Ok payload
  else if compression =? COMPRESSION_LZ4 then
    if u64_saturating_mul stored_len MAX_LZ4_RATIO <? uncompressed_len then
      corruption 0 "rollup uncompressed length exceeds LZ4 capacity"
    else if len payload <? 4 then corruption ROLLUP_HEADER_BYTES "LZ4 rollup payload is too short"
    else if negb (from_le (slice 0 4 payload) =? uncompressed_len) then
      corruption ROLLUP_HEADER_BYTES "LZ4 size prefix disagrees with rollup header"
    else ok_or (lz4_decompress (drop 4 payload) uncompressed_len)
           (Corruption ROLLUP_HEADER_BYTES (text "invalid LZ4 rollup payload"))
  else corruption 0 "unknown rollup compression".

(** Decoding the chunks, from bucket [index]. *)
Fixpoint decode_buckets (index : Z) (chunks : list bytes) : Result (list GaugeBucket) :=
  match chunks with
  | [] => Ok []
  | raw :: t =>
      if reserved_bits_set raw then
        corruption (ROLLUP_HEADER_BYTES + index * BUCKET_BYTES) "rollup bucket reserved bits are non-zero"
      else let? rest := decode_buckets (index + 1) t in Ok (decode_bucket raw :: rest)
  end.

Definition header_bounds_mismatch (lo hi : Z) (l : list GaugeBucket) : bool :=
  match head l with Some b => negb (b_start b =? lo) | None => false end
  || match last l with Some b => negb (b_end b =? hi) | None => false end
  || (match l with [] => true | _ => false end && (negb (lo =? 0) || negb (hi =? 0))).

(** [RollupSegment::open] on the contents of a regular file. *)
Definition RollupSegment_open (file : bytes) : Result RollupSegment :=
  let file_len := len file in
  if file_len <? ROLLUP_HEADER_BYTES then corruption 0 "rollup segment is too small"
  else
    let? header := read_exact_at file ROLLUP_HEADER_BYTES 0 in
    if negb (bool_decide (slice 0 8 header = ROLLUP_MAGIC)) then corruption 0 "invalid rollup segment magic"
    else if negb (from_le (slice 8 10 header) =? ROLLUP_VERSION)
    then corruption 0 "unsupported rollup segment version"
    else if negb (hash (slice 0 44 header) =? from_le (slice 44 48 header))
    then corruption 0 "rollup segment header checksum mismatch"
    else if negb (nth 11 header 0 =? 0) then corruption 0 "rollup segment reserved header byte is non-zero"
    else
      let bucket_count := from_le (slice 12 16 header) in
      let uncompressed_len := from_le (slice 16 20 header) in
      let stored_len := from_le (slice 20 24 header) in
      let min_start := from_le_i64 (slice 28 36 header) in
      let max_end := from_le_i64 (slice 36 44 header) in
      if MAX_ROLLUP_BUCKETS <? bucket_count
      then corruption 0 "rollup bucket count exceeds implementation limit"
      else if negb (uncompressed_len =? bucket_count * BUCKET_BYTES)
              || negb (file_len =? ROLLUP_HEADER_BYTES + stored_len)
      then corruption 0 "invalid rollup segment lengths"
      else
        let? payload := read_exact_at file stored_len ROLLUP_HEADER_BYTES in
        if negb (hash payload =? from_le (slice 24 28 header))
        then corruption ROLLUP_HEADER_BYTES "rollup payload checksum mismatch"
        else
          let? decoded := decompress_rollup (nth 10 header 0) uncompressed_len stored_len payload in
          if negb (len decoded =? uncompressed_len)
          then corruption ROLLUP_HEADER_BYTES "rollup decoded length mismatch"
          else
            let? buckets := decode_buckets 0 (chunks_exact (Z.to_nat bucket_count) (Z.to_nat BUCKET_BYTES) decoded) in
            validate_buckets buckets ROLLUP_HEADER_BYTES ;?
            if header_bounds_mismatch min_start max_end buckets
            then corruption 0 "rollup header bounds mismatch"
            else Ok (mkRollupSegment buckets
                       (mkRollupStats bucket_count file_len uncompressed_len
                          (then_some (0 <? bucket_count) min_start) (then_some (0 <? bucket_count) max_end))).
End Files.

(** [RollupSegment::query]. *)
Definition rollup_query (g : RollupSegment) (start stop : Z) : list GaugeBucket :=
  let lo := partition_point (fun b => b_end b <=? start) (rollup_buckets g) in
  let hi := Nat.add lo (partition_point (fun b => b_start b <? stop) (drop lo (rollup_buckets g))) in
  slice lo hi (rollup_buckets g).

#[global] Arguments rollup_header : simpl never.

(** ** Round trip *)

Definition typed_sample (s : Sample) : Prop := is_i64 (timestamp s) /\ is_f64 (sample_value s).
Definition typed_bucket (b : GaugeBucket) : Prop :=
  is_i64 (b_start b) /\ is_i64 (b_end b) /\ is_u64 (b_count b) /\ is_f64 (b_sum b)
  /\ from_option is_f64 True (b_min b) /\ from_option is_f64 True (b_max b)
  /\ from_option typed_sample True (b_first b) /\ from_option typed_sample True (b_last b)
  /\ is_f64 (b_integral_value_micros b) /\ is_i64 (b_covered_micros b).

Lemma length_encode_bucket b : length (encode_bucket b) = 104%nat.
Proof. unfold encode_bucket. rewrite !length_app, !length_to_le. reflexivity. Qed.

Lemma encode_bucket_presence b :
  nth 96 (encode_bucket b) 0 = presence_byte b /\ slice 97 104 (encode_bucket b) = replicate 7 0.
Proof.
  unfold encode_bucket. rewrite !app_assoc, <- app_assoc.
  match goal with |- context [?f ++ [presence_byte b] ++ _] => assert (Hf : length f = 96%nat) end.
  { rewrite !length_app, !length_to_le. reflexivity. }
  split.
  - rewrite <- Hf at 1. rewrite <- (Nat.add_0_r (length _)), nth_app_shift. reflexivity.
  - rewrite slice_app_r by (rewrite Hf; lia). rewrite Hf. reflexivity.
Qed.

Lemma presence_bits b :
  Z.land (presence_byte b) 240 = 0
  /\ negb (Z.land (presence_byte b) 1 =? 0) = bool_decide (is_Some (b_min b))
  /\ negb (Z.land (presence_byte b) 2 =? 0) = bool_decide (is_Some (b_max b))
  /\ negb (Z.land (presence_byte b) 4 =? 0) = bool_decide (is_Some (b_first b))
  /\ negb (Z.land (presence_byte b) 8 =? 0) = bool_decide (is_Some (b_last b)).
Proof.
  unfold presence_byte. repeat case_bool_decide; vm_compute; done.
Qed.

Lemma from_le_default_f64 o : from_option is_f64 True o -> then_some (bool_decide (is_Some o)) (default f64_zero o) = o.
Proof. by destruct o. Qed.

Lemma reserved_bits_clear b : reserved_bits_set (encode_bucket b) = false.
Proof.
  unfold reserved_bits_set. destruct (encode_bucket_presence b) as [-> ->].
  destruct (presence_bits b) as [-> _]. reflexivity.
Qed.

Lemma zero_u64 : is_u64 0.
Proof. unfold is_u64. lia. Qed.
Lemma zero_i64 : is_i64 0.
Proof. unfold is_i64. lia. Qed.

Lemma default_f64_u64 o : from_option is_f64 True o -> is_u64 (default f64_zero o).
Proof. destruct o; [done|intros _; exact zero_u64]. Qed.
Lemma sample_fields o :
  from_option typed_sample True o ->
  is_i64 (from_option timestamp 0 o) /\ is_u64 (from_option sample_value f64_zero o)
  /\ then_some (bool_decide (is_Some o)) (mkSample (from_option timestamp 0 o) (from_option sample_value f64_zero o)) = o.
Proof.
  destruct o as [[t v]|]; cbn.
  - intros [? ?]. done.
  - intros _. split; [exact zero_i64|]. split; [exact zero_u64|done].
Qed.

Lemma decode_encode_bucket b : typed_bucket b -> decode_bucket (encode_bucket b) = b.
Proof.
  intros (T1 & T2 & T3 & T4 & T5 & T6 & T7 & T8 & T9 & T10). unfold decode_bucket.
  destruct (encode_bucket_presence b) as [-> _]. destruct (presence_bits b) as (_ & -> & -> & -> & ->).
  unfold encode_bucket. cbv zeta. slices.
  destruct (sample_fields _ T7) as (S1 & S2 & S3). destruct (sample_fields _ T8) as (S4 & S5 & S6).
  rewrite !from_to_le_i64 by done. rewrite !from_to_le_u64 by (done || by apply default_f64_u64).
  rewrite !from_le_default_f64, S3, S6 by done. by destruct b.
Qed.

Lemma decode_encode_buckets l : forall index,
  Forall typed_bucket l -> decode_buckets index (map encode_bucket l) = Ok l.
Proof.
  induction l as [|b l IH]; intros index Hl; [done|]. apply Forall_cons in Hl as [Hb Hl].
  cbn [map decode_buckets]. rewrite reserved_bits_clear, IH by done. cbn [bind].
  by rewrite decode_encode_bucket.
Qed.

Lemma validate_bucket_offset o o' prev b : is_ok (validate_bucket o prev b) = is_ok (validate_bucket o' prev b).
Proof.
  unfold validate_bucket. cbv zeta.
  repeat match goal with |- context [if ?c then _ else _] => destruct c; [done|] end.
  unfold i64_checked_sub. destruct (i64_checked (b_end b - b_start b)); cbn [ok_or bind]; [|done].
  by repeat match goal with |- context [if ?c then _ else _] => destruct c; [done|] end.
Qed.

Lemma validate_from_offset o o' l : forall i prev, validate_from o i prev l = Ok tt -> validate_from o' i prev l = Ok tt.
Proof.
  induction l as [|b l IH]; intros i prev Hv; [done|]. cbn [validate_from] in *.
  apply bind_Ok in Hv as ([] & Hb & Hv).
  pose proof (validate_bucket_offset (o + i * BUCKET_BYTES) (o' + i * BUCKET_BYTES) prev b) as E.
  rewrite Hb in E. destruct (validate_bucket (o' + i * BUCKET_BYTES) prev b) as [[]|]; [|done].
  cbn [bind]. by apply IH.
Qed.

(** What a validated list of buckets promises a reader. *)
Lemma validate_from_sorted o l : forall i prev,
  validate_from o i prev l = Ok tt ->
  Sorted (fun a b => b_end a <= b_start b) l /\ Forall (fun b => b_start b < b_end b) l
  /\ forall p, prev = Some p -> HdRel (fun a b => b_end a <= b_start b) p l.
Proof.
  induction l as [|b l IH]; intros i prev Hv; [by repeat constructor|]. cbn [validate_from] in Hv.
  apply bind_Ok in Hv as ([] & Hb & Hv). destruct (IH _ _ Hv) as (Hs & Hf & Hd).
  unfold validate_bucket in Hb. guards_in Hb. zbool.
  split; [|split]; [constructor; [done|by apply Hd]|constructor; [lia|done]|].
  intros p ->. zbool. by constructor.
Qed.

Lemma validated_sorted l o :
  validate_buckets l o = Ok tt ->
  StronglySorted (fun a b => b_start a < b_end a /\ b_end a <= b_start b /\ b_start b < b_end b) l.
Proof.
  intros Hv. apply validate_from_sorted in Hv as (Hs & Hf & _). apply Sorted_StronglySorted.
  { intros a b c. lia. }
  induction Hs as [|a l Hs IH Ha]; constructor; apply Forall_cons in Hf as [? Hf]; [by apply IH|].
  destruct Ha as [|b l Hab]; constructor. apply Forall_cons in Hf as [? _]. done.
Qed.

Lemma rollup_query_ordered l st start stop :
  StronglySorted (fun a b => b_start a < b_end a /\ b_end a <= b_start b /\ b_start b < b_end b) l ->
  rollup_query (mkRollupSegment l st) start stop
  = List.filter (fun b => (start <? b_end b) && (b_start b <? stop)) l.
Proof.
  intros Hv. unfold rollup_query. cbn [rollup_buckets]. cbv zeta.
  unfold slice. rewrite Nat.add_comm, Nat.add_sub.
  transitivity (Segment.take_while (fun b => b_start b <? stop) (drop (partition_point (fun b => b_end b <=? start) l) l)).
  { generalize (drop (partition_point (fun b => b_end b <=? start) l) l). intros k.
    induction k as [|b k IH]; [done|]. cbn [partition_point Segment.take_while].
    destruct (b_start b <? stop); [|done]. cbn [take]. by rewrite IH. }
  apply (SegmentInv.partition_filter _ _ _ _ _ Hv).
  - intros b. destruct (Z.leb_spec (b_end b) start), (Z.ltb_spec start (b_end b)); cbn; try done; lia.
  - intros a b Hab Ha. zbool. apply Z.leb_gt. lia.
  - intros a b Hab _ He. zbool. apply Z.ltb_ge. lia.
Qed.

Lemma rollup_query_sorted l st start stop o :
  validate_buckets l o = Ok tt ->
  rollup_query (mkRollupSegment l st) start stop
  = List.filter (fun b => (start <? b_end b) && (b_start b <? stop)) l.
Proof. intros Hv. by eapply rollup_query_ordered, validated_sorted. Qed.

Section RoundTrip.
Context `{Crc} `{Lz4} `{!Lz4Laws}.

Lemma decompress_rollup_chosen encoded c payload :
  chosen encoded = (c, payload) -> is_u32 (len encoded) ->
  decompress_rollup c (len encoded) (len payload) payload = Ok encoded.
Proof.
  intros Hc Hu. destruct (chosen_size _ _ _ Hc Hu) as (_ & _ & Hr). revert Hc. unfold chosen.
  pose proof (lz4_layout encoded) as El.
  destruct (len (compress_prepend_size encoded) <? len encoded); intros [= <- <-]; [|done].
  unfold decompress_rollup. cbn [Z.eqb COMPRESSION_LZ4 COMPRESSION_RAW Pos.eqb].
  rewrite (proj2 (Z.ltb_ge _ (len encoded))).
  2:{ unfold u64_saturating_mul, u64_max, MAX_LZ4_RATIO, is_u32 in *. lia. }
  rewrite El, zlen_app, zlen_to_le. pose proof (zlen_nonneg (lz4_stream encoded)) as Hn.
  rewrite (proj2 (Z.ltb_ge _ _)) by lia.
  rewrite slice_app_l by apply length_to_le. rewrite from_to_le_u32, Z.eqb_refl by done. cbn [negb].
  rewrite drop_app_length' by (by rewrite length_to_le). by rewrite lz4_roundtrip.
Qed.

Lemma length_rollup_prefix c n ul sl crc lo hi : length (rollup_header_prefix c n ul sl crc lo hi) = 44%nat.
Proof. unfold rollup_header_prefix. rewrite !length_app, !length_to_le. reflexivity. Qed.

Lemma length_rollup_header c n ul sl crc lo hi : len (rollup_header c n ul sl crc lo hi) = 48.
Proof. unfold rollup_header, zlen. by rewrite length_app, length_rollup_prefix, length_to_le. Qed.

Lemma rollup_header_fields c n ul sl crc lo hi :
  is_u32 n -> is_u32 ul -> is_u32 sl -> is_u32 crc -> is_i64 lo -> is_i64 hi ->
  let h := rollup_header c n ul sl crc lo hi in
  slice 0 8 h = ROLLUP_MAGIC /\ from_le (slice 8 10 h) = ROLLUP_VERSION
  /\ hash (slice 0 44 h) = from_le (slice 44 48 h) /\ nth 10 h 0 = c /\ nth 11 h 0 = 0
  /\ from_le (slice 12 16 h) = n /\ from_le (slice 16 20 h) = ul /\ from_le (slice 20 24 h) = sl
  /\ from_le (slice 24 28 h) = crc /\ from_le_i64 (slice 28 36 h) = lo /\ from_le_i64 (slice 36 44 h) = hi.
Proof.
  intros Hn Hul Hsl Hcrc Hlo Hhi h.
  assert (E44 : slice 0 44 h = rollup_header_prefix c n ul sl crc lo hi) by (apply slice_app_l, length_rollup_prefix).
  assert (E48 : slice 44 48 h = to_le 4 (hash (rollup_header_prefix c n ul sl crc lo hi))).
  { unfold h, rollup_header. rewrite slice_app_r by (rewrite length_rollup_prefix; lia).
    rewrite length_rollup_prefix. apply slice_all, length_to_le. }
  rewrite E44, E48, from_to_le_u32 by apply hash_u32.
  unfold h, rollup_header. set (tail := to_le 4 _). unfold rollup_header_prefix.
  assert (E2 : to_le 2 ROLLUP_VERSION = [1; 0]) by (vm_compute; reflexivity). rewrite E2.
  rewrite <- !app_assoc. repeat split; try reflexivity; slices;
    rewrite ?from_to_le_u32, ?from_to_le_i64 by done; done.
Qed.

Lemma length_encoded_buckets l : len (concat (map encode_bucket l)) = len l * 104.
Proof.
  unfold zlen. induction l as [|b l IH]; [done|]. cbn [map concat length].
  rewrite length_app, length_encode_bucket. lia.
Qed.

Lemma header_bounds_match l :
  header_bounds_mismatch (from_option b_start 0 (head l)) (from_option b_end 0 (last l)) l = false.
Proof.
  unfold header_bounds_mismatch. destruct l as [|b l]; [done|]. cbn [head from_option].
  destruct (last (b :: l)) as [q|] eqn:E; [|by apply last_None in E]. cbn [from_option].
  by rewrite !Z.eqb_refl.
Qed.

Lemma header_bounds_i64 l :
  Forall typed_bucket l -> is_i64 (from_option b_start 0 (head l)) /\ is_i64 (from_option b_end 0 (last l)).
Proof.
  intros Hl. rewrite Forall_forall in Hl. split.
  - destruct (head l) as [b|] eqn:E; [|exact zero_i64]. apply (Hl b). by apply head_Some_elem_of.
  - destruct (last l) as [b|] eqn:E; [|exact zero_i64]. apply (Hl b). by apply last_Some_elem_of.
Qed.

(** Opening the layout that [write_temporary] produces. *)
Lemma rollup_open_layout l c payload :
  let encoded := concat (map encode_bucket l) in
  let lo := from_option b_start 0 (head l) in
  let hi := from_option b_end 0 (last l) in
  let file := rollup_header c (len l) (len encoded) (len payload) (hash payload) lo hi ++ payload in
  chosen encoded = (c, payload) -> len l <= MAX_ROLLUP_BUCKETS -> Forall typed_bucket l -> validate_buckets l 0 = Ok tt ->
  RollupSegment_open file
  = Ok (mkRollupSegment l (mkRollupStats (len l) (len file) (len encoded)
          (then_some (0 <? len l) lo) (then_some (0 <? len l) hi))).
Proof.
  intros encoded lo hi file Ec Hn Hl Hv. unfold MAX_ROLLUP_BUCKETS in Hn.
  pose proof (length_encoded_buckets l) as He. fold encoded in He. pose proof (zlen_nonneg l) as Hl0.
  assert (Hu : is_u32 (len encoded)) by (unfold is_u32; lia).
  destruct (chosen_size _ _ _ Ec Hu) as (_ & Hp & _). destruct (header_bounds_i64 l Hl) as [Hlo Hhi].
  unfold file. set (hdr := rollup_header _ _ _ _ _ _ _) in *.
  assert (Hh : len hdr = 48) by apply length_rollup_header.
  destruct (rollup_header_fields c (len l) (len encoded) (len payload) (hash payload) lo hi)
    as (F1 & F2 & F3 & F4 & F5 & F6 & F7 & F8 & F9 & F10 & F11);
    [unfold is_u32 in *; lia|done|unfold is_u32 in *; lia|apply hash_u32|done|done|].
  fold hdr in F1, F2, F3, F4, F5, F6, F7, F8, F9, F10, F11.
  unfold RollupSegment_open. cbv zeta. rewrite zlen_app, Hh.
  rewrite (proj2 (Z.ltb_ge _ _)) by (unfold ROLLUP_HEADER_BYTES; lia).
  replace (read_exact_at (hdr ++ payload) ROLLUP_HEADER_BYTES 0) with (Ok hdr)
    by (symmetry; by apply (read_exact_at_app [])).
  cbn [bind]. rewrite F1, F2, F3, F4, F5, F6, F7, F8, F9, F10, F11, bool_decide_true, !Z.eqb_refl by done. cbn [negb].
  rewrite (proj2 (Z.ltb_ge _ _)), (proj2 (Z.eqb_eq (len encoded) _)) by (unfold MAX_ROLLUP_BUCKETS, BUCKET_BYTES; lia).
  cbn [negb orb].
  replace (read_exact_at (hdr ++ payload) (len payload) ROLLUP_HEADER_BYTES) with (Ok payload)
    by (symmetry; rewrite <- (app_nil_r payload) at 1; by apply read_exact_at_app).
  cbn [bind]. rewrite Z.eqb_refl. cbn [negb].
  rewrite (decompress_rollup_chosen _ _ _ Ec Hu). cbn [bind]. rewrite Z.eqb_refl. cbn [negb].
  change (Z.to_nat BUCKET_BYTES) with 104%nat. rewrite zlen_nat. unfold encoded at 1.
  rewrite <- (length_map encode_bucket l), chunks_exact_concat
    by (apply Forall_map, Forall_true; intros; apply length_encode_bucket).
  rewrite decode_encode_buckets by done. cbn [bind].
  rewrite (validate_from_offset 0 _ l 0 None Hv : validate_buckets l ROLLUP_HEADER_BYTES = Ok tt). cbn [bind].
  unfold lo, hi. by rewrite header_bounds_match.
Qed.

Lemma rollup_create_open ex l file st :
  RollupSegment_create ex l = Ok (file, st) -> Forall typed_bucket l ->
  RollupSegment_open file = Ok (mkRollupSegment l st).
Proof.
  intros Hc Hl. unfold RollupSegment_create in Hc.
  apply bind_Ok in Hc as ([] & Hn & Hc). apply reject_Ok, Z.ltb_ge in Hn.
  apply bind_Ok in Hc as ([] & Hv & Hc). apply bind_Ok in Hc as ([] & _ & Hc).
  unfold write_temporary in Hc. cbv zeta in Hc. fold (chosen (concat (map encode_bucket l))) in Hc.
  pose proof (length_encoded_buckets l) as He.
  destruct (chosen (concat (map encode_bucket l))) as [c payload] eqn:Ec.
  apply bind_Ok in Hc as (ul & E1 & Hc). apply ok_or_Ok, u32_try_from_Some in E1 as [-> _].
  apply bind_Ok in Hc as (sl & E2 & Hc). apply ok_or_Ok, u32_try_from_Some in E2 as [-> _].
  apply bind_Ok in Hc as (n & E3 & Hc). apply ok_or_Ok, u32_try_from_Some in E3 as [-> _].
  unfold BUCKET_BYTES in Hc. rewrite <- He in Hc. apply Ok_inj, pair_equal_spec in Hc as [<- <-].
  by apply rollup_open_layout.
Qed.

(** A rollup of at most 262,144 valid buckets is always written. *)
Lemma rollup_create_total l :
  len l <= MAX_ROLLUP_BUCKETS -> validate_buckets l 0 = Ok tt -> exists file st, RollupSegment_create false l = Ok (file, st).
Proof.
  intros Hn Hv. unfold RollupSegment_create. rewrite (proj2 (Z.ltb_ge _ _)) by done. cbn [reject bind]. rewrite Hv. cbn [bind].
  unfold write_temporary. cbv zeta. fold (chosen (concat (map encode_bucket l))).
  pose proof (length_encoded_buckets l) as He. pose proof (zlen_nonneg l) as Hl0.
  unfold MAX_ROLLUP_BUCKETS in Hn.
  destruct (chosen (concat (map encode_bucket l))) as [c payload] eqn:Ec.
  destruct (chosen_size _ _ _ Ec) as (_ & Hp & _); [unfold is_u32; lia|].
  rewrite !u32_fits by (unfold is_u32, BUCKET_BYTES; lia). cbn [bind]. eauto.
Qed.
End RoundTrip.
