(* ===== verification/Directory.v ===== *)
(** * Directory: the directory a store lives in, and publication by hard link

    Segments, rollup segments and manifests are published the same way: the
    contents go to a temporary file that is synced, a hard link gives it its
    name without replacing an existing one, and the directory is synced before
    and after the temporary name is removed.

    The model keeps what a power loss can leave.  A file that was not synced
    since it was last written can hold anything.  A change of the directory
    that was not followed by a sync of the directory may or may not survive,
    name by name. *)
From S2P Require Import Prelude Errors Bytes Model Effects.

(** [fs_names] holds the current names (file numbers) and, after it, every
    state of the names since the last directory sync. *)
Record DirState := mkDirState {
  fs_now : gmap rstring nat;
  fs_names : list (gmap rstring nat);
  fs_files : gmap nat (bytes * bool);
  fs_next : nat;
}.

(** [dir_past] collects the states the directory went through; [dir_faults]
    decides the coming calls as in [Effects]. *)
Record Dir := mkDir {
  dir_state : DirState;
  dir_past : list DirState;
  dir_faults : list (option Fault);
}.

(** A call that changes the state to [s]. *)
Definition dir_step (s : DirState) (d : Dir) : Dir := mkDir s (dir_state d :: dir_past d) (dir_faults d).

Definition dir_call {A} (op : Fault + unit -> Dir -> Dir * Result A) : ST Dir A :=
  fun d => match dir_faults d with
           | Some f :: rest => op (inl f) (mkDir (dir_state d) (dir_past d) rest)
           | None :: rest => op (inr tt) (mkDir (dir_state d) (dir_past d) rest)
           | [] => op (inr tt) d
           end.

Definition set_names (m : gmap rstring nat) (s : DirState) : DirState :=
  mkDirState m (m :: fs_names s) (fs_files s) (fs_next s).
Definition set_file (i : nat) (f : bytes * bool) (s : DirState) : DirState :=
  mkDirState (fs_now s) (fs_names s) (<[i := f]> (fs_files s)) (fs_next s).

(** [path.exists()]. *)
Definition d_exists (name : rstring) (d : Dir) : bool := bool_decide (is_Some (fs_now (dir_state d) !! name)).

(** [OpenOptions::new().create_new(true).write(true).open(name)]. *)
Definition d_create_new (name : rstring) : ST Dir nat :=
  dir_call (fun f d =>
    match f with
    | inl fault => (d, Err (Io (fault_kind fault)))
    | inr _ =>
        let s := dir_state d in
        match fs_now s !! name with
        | Some _ => (d, Err (Io "AlreadyExists"))
        | None =>
            let i := fs_next s in
            let m := <[name := i]> (fs_now s) in
            (dir_step (mkDirState m (m :: fs_names s) (<[i := ([], false)]> (fs_files s)) (S i)) d, Ok i)
        end
    end).

(** [file.write_all(data)] on an open file; a fault can leave a part. *)
Definition d_write_all (i : nat) (data : bytes) : ST Dir unit :=
  dir_call (fun f d =>
    let s := dir_state d in
    let old := default [] (fst <$> fs_files s !! i) in
    match f with
    | inl fault => (dir_step (set_file i (old ++ take (fault_written fault) data, false) s) d, Err (Io (fault_kind fault)))
    | inr _ => (dir_step (set_file i (old ++ data, false) s) d, Ok tt)
    end).

(** [file.sync_all()]. *)
Definition d_sync_file (i : nat) : ST Dir unit :=
  dir_call (fun f d =>
    match f with
    | inl fault => (d, Err (Io (fault_kind fault)))
    | inr _ =>
        let s := dir_state d in
        (dir_step (set_file i (default [] (fst <$> fs_files s !! i), true) s) d, Ok tt)
    end).

(** [std::fs::hard_link(source, target)]. *)
Definition d_hard_link (source target : rstring) : ST Dir unit :=
  dir_call (fun f d =>
    match f with
    | inl fault => (d, Err (Io (fault_kind fault)))
    | inr _ =>
        let s := dir_state d in
        match fs_now s !! source, fs_now s !! target with
        | None, _ => (d, Err (Io "NotFound"))
        | _, Some _ => (d, Err (Io "AlreadyExists"))
        | Some i, None => (dir_step (set_names (<[target := i]> (fs_now s)) s) d, Ok tt)
        end
    end).

(** [std::fs::remove_file(name)]. *)
Definition d_remove_file (name : rstring) : ST Dir unit :=
  dir_call (fun f d =>
    match f with
    | inl fault => (d, Err (Io (fault_kind fault)))
    | inr _ =>
        let s := dir_state d in
        match fs_now s !! name with
        | None => (d, Err (Io "NotFound"))
        | Some _ => (dir_step (set_names (delete name (fs_now s)) s) d, Ok tt)
        end
    end).

(** [sync_directory] and [sync_parent_directory]. *)
Definition d_sync_dir : ST Dir unit :=
  dir_call (fun f d =>
    match f with
    | inl fault => (d, Err (Io (fault_kind fault)))
    | inr _ =>
        let s := dir_state d in
        (dir_step (mkDirState (fs_now s) [fs_now s] (fs_files s) (fs_next s)) d, Ok tt)
    end).

(** [let _ = op]: the outcome is ignored. *)
Definition ignore {S A} (op : ST S A) : ST S unit := fun s => let '(s', _) := op s in (s', Ok tt).

(** [if let Err(error) = op { handler; return Err(error) }]. *)
Definition on_error {S A} (op : ST S A) (handler : ST S unit) : ST S A :=
  fun s => match op s with
           | (s', Ok a) => (s', Ok a)
           | (s', Err e) => let '(s'', _) := handler s' in (s'', Err e)
           end.

(** The closure that writes the temporary file. *)
Definition write_synced (temporary : rstring) (chunks : list bytes) : ST Dir unit :=
  let* i := d_create_new temporary in
  st_for_each (d_write_all i) chunks ;*
  d_sync_file i.

(** The publication protocol of [Segment::create], [RollupSegment::create] and
    [Manifest::publish], after the [exists] check. *)
Definition publish_new (temporary target : rstring) (chunks : list bytes) : ST Dir unit :=
  on_error (write_synced temporary chunks) (d_remove_file temporary) ;*
  on_error (d_hard_link temporary target) (d_remove_file temporary) ;*
  d_sync_dir ;*
  d_remove_file temporary ;*
  d_sync_dir.

(** ** What a power loss can leave *)

(** The contents a name can have after a power loss in state [s]. *)
Definition may_survive (s : DirState) (name : rstring) (v : option bytes) : Prop :=
  exists m, m ∈ fs_names s /\
    match m !! name with
    | None => v = None
    | Some i => exists c, v = Some c /\ (fs_files s !! i = Some (c, true) \/ exists c', fs_files s !! i = Some (c', false))
    end.

Definition crash_image (s : DirState) (image : gmap rstring bytes) : Prop :=
  forall name, may_survive s name (image !! name).

(** What the running program sees. *)
Definition visible (s : DirState) : gmap rstring bytes :=
  omap (fun i => fst <$> fs_files s !! i) (fs_now s).

(** [open_regular_file_read_only] and reading the file. *)
Definition d_read (name : rstring) : ST Dir bytes :=
  dir_call (fun f d =>
    match f with
    | inl fault => (d, Err (Io (fault_kind fault)))
    | inr _ => (d, ok_or (visible (dir_state d) !! name) (Io "NotFound"))
    end).

(** File numbers are not reused, and every name refers to a file. *)
Record wf_dir (s : DirState) : Prop := {
  wf_now : fs_now s ∈ fs_names s;
  wf_numbers : forall m name i, m ∈ fs_names s -> m !! name = Some i -> (i < fs_next s)%nat;
}.

(** ** Sequences of states *)

(** From [d] to [d'] the directory only went through states of [I]. *)
Definition passes (I : DirState -> Prop) (d d' : Dir) : Prop :=
  exists l, dir_past d' = l ++ dir_past d /\ Forall I l /\ I (dir_state d').

Lemma passes_refl I d : I (dir_state d) -> passes I d d.
Proof. intros. by exists []. Qed.

Lemma passes_trans I d1 d2 d3 : passes I d1 d2 -> passes I d2 d3 -> passes I d1 d3.
Proof.
  intros (l & E1 & F1 & _) (k & E2 & F2 & H). exists (k ++ l). rewrite E2, E1, app_assoc.
  split; [done|]. split; [by apply Forall_app|done].
Qed.

(** [op] started in [P] stays in [I] and ends in [Q] when it succeeds. *)
Definition dtriple {A} (I P : DirState -> Prop) (op : ST Dir A) (Q : A -> DirState -> Prop) : Prop :=
  forall d d' r, P (dir_state d) -> op d = (d', r) ->
    passes I d d' /\ match r with Ok a => Q a (dir_state d') | Err _ => True end.

Lemma dtriple_bind {A B} I P (m : ST Dir A) (k : A -> ST Dir B) Q R :
  dtriple I P m Q -> (forall a, dtriple I (Q a) (k a) R) -> dtriple I P (st_bind m k) R.
Proof.
  intros Hm Hk d d' r HP E. unfold st_bind in E. destruct (m d) as [d1 [a|e]] eqn:Em.
  - destruct (Hm _ _ _ HP Em) as [H1 HQ]. destruct (Hk a _ _ _ HQ E) as [H2 HR].
    split; [by apply (passes_trans _ _ d1)|done].
  - injection E as <- <-. destruct (Hm _ _ _ HP Em) as [H1 _]. done.
Qed.

Lemma dtriple_call {A} (I P : DirState -> Prop) (op : Fault + unit -> Dir -> Dir * Result A) Q :
  (forall f d, P (dir_state d) -> passes I d (op f d).1
     /\ match (op f d).2 with Ok a => Q a (dir_state (op f d).1) | Err _ => True end) ->
  dtriple I P (dir_call op) Q.
Proof.
  intros Hop d d' r HP E. unfold dir_call in E.
  assert (Hd : forall f d0, dir_state d0 = dir_state d -> dir_past d0 = dir_past d -> op f d0 = (d', r) ->
    passes I d d' /\ match r with Ok a => Q a (dir_state d') | Err _ => True end).
  { intros f d0 E1 E2 E0. pose proof (Hop f d0) as Ho. rewrite E1, E0 in Ho. cbn in Ho.
    destruct (Ho HP) as [(l & El & Hl) HQ]. split; [|done]. exists l. by rewrite El, E2. }
  destruct (dir_faults d) as [|[f|] rest].
  - by apply (Hd _ _ eq_refl eq_refl E).
  - by apply (Hd (inl f) (mkDir (dir_state d) (dir_past d) rest) eq_refl eq_refl E).
  - by apply (Hd (inr tt) (mkDir (dir_state d) (dir_past d) rest) eq_refl eq_refl E).
Qed.

Lemma dtriple_on_error {A} I P (op : ST Dir A) h Q :
  dtriple I P op Q -> dtriple I I h (fun _ _ => True) -> dtriple I P (on_error op h) Q.
Proof.
  intros Hop Hh d d' r HP E. unfold on_error in E. destruct (op d) as [d1 [a|e]] eqn:Eo.
  - injection E as <- <-. exact (Hop _ _ _ HP Eo).
  - destruct (h d1) as [d2 r2] eqn:Eh. injection E as <- <-. destruct (Hop _ _ _ HP Eo) as [H1 _].
    destruct (Hh d1 d2 r2) as [H2 _]; [by destruct H1 as (l & _ & _ & H1)|done|].
    split; [by apply (passes_trans _ _ d1)|done].
Qed.

Lemma passes_step (I : DirState -> Prop) d s : I (dir_state d) -> I s -> passes I d (dir_step s d).
Proof. intros H1 H2. exists [dir_state d]. repeat constructor; done. Qed.

(** ** The publication protocol *)

Section Publication.
Context (s0 : DirState) (temporary target : rstring) (data : bytes).
Hypothesis distinct : temporary <> target.
Hypothesis wf0 : wf_dir s0.
Hypothesis fresh : forall m, m ∈ fs_names s0 -> m !! temporary = None /\ m !! target = None.

Abbreviation other name := (name <> temporary /\ name <> target).
Abbreviation number := (fs_next s0).

(** Everything but the two names is as it was, and these two refer to the new
    file if to any. *)
Record framed (s : DirState) : Prop := {
  fr_names : forall m, m ∈ fs_names s ->
    (exists m0, m0 ∈ fs_names s0 /\ forall n, other n -> m !! n = m0 !! n)
    /\ (m !! temporary = None \/ m !! temporary = Some number)
    /\ (m !! target = None \/ m !! target = Some number);
  fr_now : fs_now s ∈ fs_names s;
  fr_others : forall n, other n -> fs_now s !! n = fs_now s0 !! n;
  fr_files : forall i, (i < number)%nat -> fs_files s !! i = fs_files s0 !! i;
}.

Definition complete (s : DirState) : Prop := fs_files s !! number = Some (data, true).
Definition unlinked (s : DirState) : Prop := forall m, m ∈ fs_names s -> m !! target = None.

(** What holds at every moment. *)
Definition publishing (s : DirState) : Prop := framed s /\ (unlinked s \/ complete s).

Lemma framed_start : framed s0 /\ unlinked s0.
Proof using fresh wf0.
  split; [|intros m Hm; by apply fresh].
  split; [|apply wf0|done|done]. intros m Hm. destruct (fresh m Hm) as [-> ->].
  split; [by exists m|]. split; by left.
Qed.

Lemma framed_file s f : framed s -> framed (set_file number f s).
Proof.
  intros [H1 H2 H3 H4]. split; cbn; [done..|].
  intros i Hi. rewrite lookup_insert_ne by lia. by apply H4.
Qed.

Lemma framed_set_names s m next files :
  framed s -> (forall n, other n -> m !! n = fs_now s !! n) ->
  (m !! temporary = None \/ m !! temporary = Some number) -> (m !! target = None \/ m !! target = Some number) ->
  (forall i, (i < number)%nat -> files !! i = fs_files s !! i) ->
  framed (mkDirState m (m :: fs_names s) files next).
Proof using wf0.
  intros [H1 H2 H3 H4] Hm Ht Hg Hf. split; cbn.
  - intros m' Hm'. apply elem_of_cons in Hm' as [->|Hm']; [|by apply H1]. split; [|done].
    exists (fs_now s0). split; [apply wf0|]. intros n Hn. rewrite Hm, H3 by done. done.
  - by left.
  - intros n Hn. rewrite Hm, H3 by done. done.
  - intros i Hi. rewrite Hf, H4 by done. done.
Qed.

Lemma framed_sync s : framed s -> framed (mkDirState (fs_now s) [fs_now s] (fs_files s) (fs_next s)).
Proof.
  intros [H1 H2 H3 H4]. split; cbn; [|by left|done|done].
  intros m Hm. apply list_elem_of_singleton in Hm as ->. by apply H1.
Qed.

(** Removing the temporary name is harmless at any moment. *)
Lemma remove_temporary (P : DirState -> Prop) :
  (forall s, P s -> publishing s) ->
  dtriple publishing P (d_remove_file temporary) (fun _ s' => exists s, P s
    /\ s' = set_names (delete temporary (fs_now s)) s).
Proof using wf0 distinct.
  intros HP. apply dtriple_call. intros f d Hd. pose proof (HP _ Hd) as Hpub.
  destruct f as [fault|[]]; cbn; [by split; [apply passes_refl|]|].
  destruct (fs_now (dir_state d) !! temporary) as [i|] eqn:E; cbn; [|by split; [apply passes_refl|]].
  split; [|eauto]. apply passes_step; [done|]. destruct Hpub as [Hf Hu]. split.
  - apply framed_set_names; try done.
    + intros n [Hn _]. by rewrite lookup_delete_ne.
    + left. apply lookup_delete_eq.
    + rewrite lookup_delete_ne by done. apply Hf, Hf.
  - destruct Hu as [Hu|Hu]; [left|by right]. intros m Hm. apply elem_of_cons in Hm as [->|Hm]; [|by apply Hu].
    rewrite lookup_delete_ne by done. apply Hu, Hf.
Qed.

(** The temporary file holds [written] and is not linked yet. *)
Definition filling (written : bytes) (s : DirState) : Prop :=
  framed s /\ unlinked s /\ fs_now s !! temporary = Some number
  /\ exists b, fs_files s !! number = Some (written, b).

Lemma filling_publishing w s : filling w s -> publishing s.
Proof. intros (H1 & H2 & _). split; [done|by left]. Qed.

Lemma create_triple :
  dtriple publishing (fun s => s = s0) (d_create_new temporary) (fun i s => i = number /\ filling [] s).
Proof using fresh wf0 distinct.
  apply dtriple_call. intros f d Hd. destruct framed_start as [Hf Hu].
  assert (Hpub : publishing (dir_state d)) by (rewrite Hd; split; [done|by left]).
  destruct f as [fault|[]]; cbn; [by split; [apply passes_refl|]|].
  rewrite Hd. rewrite (proj1 (fresh _ (wf_now _ wf0))). cbn.
  assert (Hfill : filling [] (mkDirState (<[temporary := number]> (fs_now s0))
      (<[temporary := number]> (fs_now s0) :: fs_names s0) (<[number := ([], false)]> (fs_files s0)) (S number))).
  { split; [|split; [|split]].
    - apply framed_set_names; try done.
      + intros n [Hn _]. by rewrite lookup_insert_ne.
      + right. apply lookup_insert_eq.
      + left. rewrite lookup_insert_ne by done. apply fresh, wf0.
      + intros i Hi. rewrite lookup_insert_ne by lia. done.
    - intros m Hm. apply elem_of_cons in Hm as [->|Hm]; [|by apply fresh].
      rewrite lookup_insert_ne by done. apply fresh, wf0.
    - apply lookup_insert_eq.
    - exists false. apply lookup_insert_eq. }
  split; [|done]. apply passes_step; [done|]. by apply (filling_publishing []).
Qed.

Lemma set_file_filling w f s : filling w s -> filling f.1 (set_file number f s).
Proof.
  intros (H1 & H2 & H3 & _). split; [by apply framed_file|]. split; [done|]. split; [done|].
  exists f.2. cbn. rewrite lookup_insert_eq. by destruct f.
Qed.

Lemma write_triple w chunk :
  dtriple publishing (filling w) (d_write_all number chunk) (fun _ => filling (w ++ chunk)).
Proof using distinct.
  apply dtriple_call. intros f d Hd. pose proof Hd as (_ & _ & _ & b & Eb).
  destruct f as [fault|[]]; cbn; rewrite Eb; cbn.
  - split; [|done]. apply passes_step; [by eapply filling_publishing|].
    eapply filling_publishing. by apply (set_file_filling w (w ++ take (fault_written fault) chunk, false)).
  - assert (Hn := set_file_filling w (w ++ chunk, false) _ Hd). split; [|done].
    apply passes_step; by eapply filling_publishing.
Qed.

Lemma write_all_triple chunks : forall w,
  dtriple publishing (filling w) (st_for_each (d_write_all number) chunks) (fun _ => filling (w ++ concat chunks)).
Proof using distinct.
  induction chunks as [|c chunks IH]; intros w; cbn [st_for_each concat].
  - intros d d' r HP [= <- <-]. rewrite app_nil_r. split; [|done]. apply passes_refl. by eapply filling_publishing.
  - eapply dtriple_bind; [apply write_triple|]. intros []. rewrite app_assoc. apply IH.
Qed.

(** The temporary file is complete and synced. *)
Definition staged (s : DirState) : Prop :=
  framed s /\ unlinked s /\ fs_now s !! temporary = Some number /\ complete s.

Lemma sync_triple : dtriple publishing (filling data) (d_sync_file number) (fun _ => staged).
Proof using distinct.
  apply dtriple_call. intros f d Hd. pose proof Hd as (_ & _ & _ & b & Eb).
  assert (Hp : publishing (dir_state d)) by (by eapply filling_publishing).
  destruct f as [fault|[]]; cbn; [by split; [apply passes_refl|]|]. rewrite Eb. cbn.
  assert (Hs : staged (set_file number (data, true) (dir_state d))).
  { destruct (set_file_filling data (data, true) _ Hd) as (H1 & H2 & H3 & _).
    split; [done|]. split; [done|]. split; [done|]. apply lookup_insert_eq. }
  split; [|done]. apply passes_step; [done|]. destruct Hs as (H1 & H2 & _). split; [done|by left].
Qed.

Lemma write_synced_triple chunks :
  concat chunks = data -> dtriple publishing (fun s => s = s0) (write_synced temporary chunks) (fun _ => staged).
Proof using fresh wf0 distinct.
  intros E. unfold write_synced. eapply dtriple_bind; [apply create_triple|]. intros i d d' r [-> Hf].
  revert d d' r Hf. change (dtriple publishing (filling [])
    (st_for_each (d_write_all number) chunks ;* d_sync_file number) (fun _ => staged)).
  eapply dtriple_bind; [apply write_all_triple|]. intros []. cbn [app]. rewrite E. apply sync_triple.
Qed.

(** The file has its name, in [fs_now] and perhaps not yet on the medium. *)
Definition linked (s : DirState) : Prop :=
  framed s /\ complete s /\ fs_now s !! target = Some number.

Lemma linked_publishing s : linked s -> publishing s.
Proof. intros (H1 & H2 & _). split; [done|by right]. Qed.

Lemma link_triple : dtriple publishing staged (d_hard_link temporary target) (fun _ => linked).
Proof using wf0 distinct.
  apply dtriple_call. intros f d (H1 & H2 & H3 & H4).
  assert (Hp : publishing (dir_state d)) by (split; [done|by left]).
  destruct f as [fault|[]]; cbn; [by split; [apply passes_refl|]|].
  rewrite H3, (H2 _ (fr_now _ H1)). cbn.
  assert (Hl : linked (set_names (<[target := number]> (fs_now (dir_state d))) (dir_state d))).
  { split; [|split; [done|apply lookup_insert_eq]]. apply framed_set_names; try done.
    - intros n [_ Hn]. by rewrite lookup_insert_ne.
    - rewrite lookup_insert_ne by done. by right.
    - right. apply lookup_insert_eq. }
  split; [|done]. apply passes_step; [done|by apply linked_publishing].
Qed.

(** The name is on the medium. *)
Definition durable_name (s : DirState) : Prop :=
  framed s /\ complete s /\ forall m, m ∈ fs_names s -> m !! target = Some number.

Lemma durable_publishing s : durable_name s -> publishing s.
Proof. intros (H1 & H2 & _). split; [done|by right]. Qed.

Lemma sync_dir_triple : dtriple publishing linked d_sync_dir (fun _ => durable_name).
Proof using distinct.
  apply dtriple_call. intros f d Hd. pose proof (linked_publishing _ Hd) as Hp. destruct Hd as (H1 & H2 & H3).
  destruct f as [fault|[]]; cbn; [by split; [apply passes_refl|]|].
  assert (Hs : durable_name (mkDirState (fs_now (dir_state d)) [fs_now (dir_state d)] (fs_files (dir_state d)) (fs_next (dir_state d)))).
  { split; [by apply framed_sync|]. split; [done|]. intros m Hm. by apply list_elem_of_singleton in Hm as ->. }
  split; [|done]. apply passes_step; [done|by apply durable_publishing].
Qed.

(** The end: only the published name is left. *)
Definition published (s : DirState) : Prop :=
  durable_name s /\ fs_names s = [fs_now s] /\ fs_now s !! temporary = None.

Lemma publish_triple chunks :
  concat chunks = data -> dtriple publishing (fun s => s = s0) (publish_new temporary target chunks) (fun _ => published).
Proof using fresh wf0 distinct.
  intros E. unfold publish_new.
  assert (Hrm : dtriple publishing publishing (d_remove_file temporary) (fun _ _ => True)).
  { intros d d' r HP Er. destruct (remove_temporary publishing (fun s H => H) d d' r HP Er). destruct r; done. }
  eapply dtriple_bind; [by apply dtriple_on_error; [apply write_synced_triple|]|]. intros [].
  eapply dtriple_bind; [by apply dtriple_on_error; [apply link_triple|]|]. intros [].
  eapply dtriple_bind; [apply sync_dir_triple|]. intros [].
  eapply dtriple_bind; [apply (remove_temporary durable_name durable_publishing)|]. intros [].
  apply dtriple_call. intros f d (s & Hs & Ed).
  assert (Hd : durable_name (dir_state d) /\ fs_now (dir_state d) !! temporary = None).
  { rewrite Ed. destruct Hs as (H1 & H2 & H3). split; [|apply lookup_delete_eq]. split; [|split; [done|]].
    - apply framed_set_names; try done.
      + intros n [Hn _]. by rewrite lookup_delete_ne.
      + left. apply lookup_delete_eq.
      + rewrite lookup_delete_ne by done. right. apply H3, H1.
    - intros m Hm. apply elem_of_cons in Hm as [->|Hm]; [|by apply H3].
      rewrite lookup_delete_ne by done. apply H3, H1. }
  clear s Hs Ed. destruct Hd as [Hd Ht]. pose proof (durable_publishing _ Hd) as Hp.
  destruct f as [fault|[]]; cbn; [by split; [apply passes_refl|]|].
  destruct Hd as (H1 & H2 & H3).
  assert (Hs : durable_name (mkDirState (fs_now (dir_state d)) [fs_now (dir_state d)] (fs_files (dir_state d)) (fs_next (dir_state d)))).
  { split; [by apply framed_sync|]. split; [done|]. intros m Hm. apply list_elem_of_singleton in Hm as ->. apply H3, H1. }
  split; [|done]. apply passes_step; [done|by apply durable_publishing].
Qed.

(** What a power loss leaves. *)
Lemma other_survives s n v : framed s -> other n -> may_survive s n v -> may_survive s0 n v.
Proof using wf0.
  intros Hf Hn (m & Hm & Hv). destruct (fr_names _ Hf m Hm) as [(m0 & Hm0 & E) _].
  exists m0. split; [done|]. rewrite <- E by done. destruct (m !! n) as [i|] eqn:Ei; [|done].
  rewrite E in Ei by done. by rewrite <- (fr_files _ Hf) by (by apply (wf_numbers _ wf0 m0 n)).
Qed.

Lemma complete_survives (s : DirState) (m : gmap rstring nat) (v : option bytes) :
  complete s -> m !! target = Some number ->
  match m !! target with
  | None => v = None
  | Some i => exists c, v = Some c /\ (fs_files s !! i = Some (c, true) \/ exists c', fs_files s !! i = Some (c', false))
  end -> v = Some data.
Proof.
  intros Hc -> (c & -> & [E|(c' & E)]); unfold complete in Hc; congruence.
Qed.

Lemma publishing_crash s image :
  publishing s -> crash_image s image ->
  (image !! target = None \/ image !! target = Some data) /\ forall n, other n -> may_survive s0 n (image !! n).
Proof using wf0.
  intros [Hf Hu] Hi. split; [|intros n Hn; by apply (other_survives s)].
  destruct (Hi target) as (m & Hm & Hv). destruct (fr_names _ Hf m Hm) as (_ & _ & [E|E]); [left; by rewrite E in Hv|].
  destruct Hu as [Hu|Hc]; [rewrite (Hu m Hm) in E; done|]. right. by apply (complete_survives s m).
Qed.

Lemma published_crash s image :
  published s -> crash_image s image ->
  image !! target = Some data /\ image !! temporary = None /\ forall n, other n -> may_survive s0 n (image !! n).
Proof using wf0.
  intros ((Hf & Hc & Ht) & En & Et) Hi. split; [|split; [|intros n Hn; by apply (other_survives s)]].
  - destruct (Hi target) as (m & Hm & Hv). apply (complete_survives s m); [done|by apply Ht|done].
  - destruct (Hi temporary) as (m & Hm & Hv). rewrite En in Hm. apply list_elem_of_singleton in Hm as ->.
    by rewrite Et in Hv.
Qed.

Lemma published_visible s :
  published s -> visible s !! target = Some data /\ visible s !! temporary = None
  /\ forall n, other n -> visible s !! n = visible s0 !! n.
Proof using wf0.
  intros ((Hf & Hc & Ht) & En & Et). unfold visible. repeat split; rewrite ?lookup_omap.
  - rewrite (Ht _ (fr_now _ Hf)). cbn. unfold complete in Hc. by rewrite Hc.
  - by rewrite Et.
  - intros n Hn. rewrite !lookup_omap, (fr_others _ Hf n Hn).
    destruct (fs_now s0 !! n) as [i|] eqn:Ei; [|done]. cbn.
    by rewrite (fr_files _ Hf) by (by apply (wf_numbers _ wf0 (fs_now s0) n); [apply wf0|]).
Qed.
End Publication.

(** A directory in which everything is on the medium. *)
Definition settled (s : DirState) : Prop :=
  fs_names s = [fs_now s] /\ forall n i, fs_now s !! n = Some i -> exists c, fs_files s !! i = Some (c, true).

Lemma settled_survives s n v : settled s -> may_survive s n v -> v = visible s !! n.
Proof.
  intros [Hn Hs] (m & Hm & Hv). rewrite Hn in Hm. apply list_elem_of_singleton in Hm as ->.
  unfold visible. rewrite lookup_omap. destruct (fs_now s !! n) as [i|] eqn:E; cbn; [|done].
  destruct (Hs n i E) as [c Ec]. destruct Hv as (c' & -> & [Hc|[c'' Hc]]); rewrite Ec in *; cbn; congruence.
Qed.
