(* ===== verification/Manifest.v ===== *)
(** * Manifest: [src/src/manifest.rs]

    A manifest generation lists the rollup files and the raw segments of a
    store.  Generations are files [MANIFEST.<generation>], published by hard
    link and never rewritten; the newest one that can be read is current. *)
From S2P Require Import Prelude Errors Bytes Float64 Model Codec Effects Segment Directory.

Definition MANIFEST_MAGIC : bytes := bstr "WMAN0001".
Definition VERSION_V1 : Z := 1.
Definition VERSION_V2 : Z := 2.
Definition MANIFEST_VERSION : Z := 3.
Definition MANIFEST_HEADER_BYTES : Z := 24.
Definition MAX_PAYLOAD_BYTES : Z := 64 * 1024 * 1024.
Definition PREFIX : rstring := str "MANIFEST.".
Definition RETAINED_FALLBACK_GENERATIONS : nat := 2.

Record RollupDescriptor := mkRollupDescriptor {
  rd_file : rstring;
  rd_series : Z;
  rd_resolution : RollupResolution;
  rd_start : Z;
  rd_end : Z;
  rd_source_commit : Z;
  rd_source_points : Z;
  rd_active : bool;
}.

Record RawSegmentDescriptor := mkRawDescriptor {
  sd_file : rstring;
  sd_generation : Z;
  sd_points : Z;
  sd_source_commit : Z;
  sd_source_points : Z;
  sd_min_valid_time : Z;
  sd_max_valid_time : Z;
  sd_content_crc32 : Z;
}.

Record Manifest := mkManifest {
  generation : Z;
  rollups : list RollupDescriptor;
  segments : list RawSegmentDescriptor;
}.

(** [Manifest::default()]. *)
Definition Manifest_default : Manifest := mkManifest 0 [] [].

Record ManifestV1 := mkManifestV1 { v1_generation : Z; v1_rollups : list RollupDescriptor }.

(** The fields of a version 2 raw descriptor are not read. *)
Record RawSegmentDescriptorV2 := mkRawDescriptorV2 {
  v2_file : rstring;
  v2_segment_generation : Z;
  v2_points : Z;
  v2_source_commit : Z;
  v2_source_points : Z;
  v2_min_valid_time : Z;
  v2_max_valid_time : Z;
}.
Record ManifestV2 := mkManifestV2 {
  v2_generation : Z;
  v2_rollups : list RollupDescriptor;
  v2_segments : list RawSegmentDescriptorV2;
}.

(** Well-typed manifests. *)
Definition typed_rollup (r : RollupDescriptor) : Prop :=
  typed_string (rd_file r) /\ is_u64 (rd_series r) /\ typed_resolution (rd_resolution r) /\ is_i64 (rd_start r)
  /\ is_i64 (rd_end r) /\ is_u64 (rd_source_commit r) /\ is_u64 (rd_source_points r).
Definition typed_segment (s : RawSegmentDescriptor) : Prop :=
  typed_string (sd_file s) /\ is_u64 (sd_generation s) /\ is_u64 (sd_points s) /\ is_u64 (sd_source_commit s)
  /\ is_u64 (sd_source_points s) /\ is_i64 (sd_min_valid_time s) /\ is_i64 (sd_max_valid_time s)
  /\ is_u32 (sd_content_crc32 s).
Definition typed_manifest (m : Manifest) : Prop :=
  is_u64 (generation m) /\ Forall typed_rollup (rollups m) /\ Forall typed_segment (segments m).

(** [postcard] at the manifest types; the old versions are only read. *)
Class ManifestCodec := {
  #[global] codec_manifest :: Postcard Manifest;
  v1_from_bytes : bytes -> option ManifestV1;
  v2_from_bytes : bytes -> option ManifestV2;
}.
Class ManifestCodecLaws `{ManifestCodec} := {
  #[global] laws_manifest :: PostcardLaws Manifest typed_manifest;
}.

(** [std::fs::read_dir]: the entries of a directory in an unspecified order. *)
Class ReadDir := {
  read_dir : gmap rstring bytes -> list (rstring * bytes);
  read_dir_perm : forall m, read_dir m ≡ₚ map_to_list m;
}.

(** ** File names *)

(** [Path::components] of a relative or absolute Unix path. *)
Inductive Component := RootDir | CurDir | ParentDir | Normal (name : rstring).

Fixpoint split_slash (path : rstring) : list rstring :=
  match path with
  | [] => [[]]
  | c :: t =>
      match split_slash t with
      | [] => []
      | piece :: rest => if c =? 47 then [] :: piece :: rest else (c :: piece) :: rest
      end
  end.

Definition component_of (piece : rstring) : option Component :=
  if bool_decide (piece = []) then None
  else if bool_decide (piece = str ".") then None
  else if bool_decide (piece = str "..") then Some ParentDir
  else Some (Normal piece).

Definition components (path : rstring) : list Component :=
  let pieces := split_slash path in
  match path with
  | 47 :: _ => RootDir :: omap component_of pieces
  | _ =>
      match pieces with
      | first :: rest =>
          if bool_decide (first = str ".") then CurDir :: omap component_of rest else omap component_of pieces
      | [] => []
      end
  end.

(** [validate_safe_filename]. *)
Definition validate_safe_filename (file : rstring) (label : string) : Result unit :=
  match components file with
  | [Normal _] => Ok tt
  | _ => Err (InvalidModel (text (label ++ " must be a single safe path component")))
  end.

(** [{:020}] of a [u64]: twenty decimal digits. *)
Fixpoint decimal (digits : nat) (z : Z) : rstring :=
  match digits with
  | O => []
  | S n => decimal n (z / 10) ++ [48 + z mod 10]
  end.

Definition manifest_name (g : Z) : rstring := PREFIX ++ decimal 20 g.

(** [str::parse::<u64>]. *)
Fixpoint parse_digits (acc : Z) (l : rstring) : option Z :=
  match l with
  | [] => Some acc
  | c :: t =>
      if (48 <=? c) && (c <=? 57) then
        match u64_checked (acc * 10 + (c - 48)) with Some acc => parse_digits acc t | None => None end
      else None
  end.

Definition parse_u64 (l : rstring) : option Z :=
  match l with
  | [] => None
  | 43 :: t => match t with [] => None | _ => parse_digits 0 t end
  | _ => parse_digits 0 l
  end.

(** [str::strip_prefix]. *)
Fixpoint strip_prefix (prefix l : rstring) : option rstring :=
  match prefix, l with
  | [], _ => Some l
  | p :: ps, c :: t => if p =? c then strip_prefix ps t else None
  | _ :: _, [] => None
  end.

Definition generation_of (name : rstring) : option Z :=
  match strip_prefix PREFIX name with Some raw => parse_u64 raw | None => None end.

(** ** Validation *)

Definition check_rollup (files : gset rstring) (r : RollupDescriptor) : Result (gset rstring) :=
  validate_safe_filename (rd_file r) "manifest rollup filename" ;?
  if bool_decide (rd_file r ∈ files) || (rd_series r =? 0) || (rd_end r <=? rd_start r)
  then Err (InvalidModel (text "manifest rollup descriptor has a duplicate file, invalid identity, or invalid bounds"))
  else Ok (files ∪ {[rd_file r]}).

(** The state of the loop over the segments. *)
Record SegmentChecks := mkChecks {
  ck_files : gset rstring;
  ck_generations : gset Z;
  ck_previous : Z;
  ck_cumulative : Z;
}.

Definition check_segment (m : Manifest) (st : SegmentChecks) (s : RawSegmentDescriptor) : Result SegmentChecks :=
  validate_safe_filename (sd_file s) "manifest raw segment filename" ;?
  let? cumulative := ok_or (u64_checked_add (ck_cumulative st) (sd_points s))
    (InvalidModel (text "manifest raw segment point count overflows")) in
  if bool_decide (sd_file s ∈ ck_files st) || bool_decide (sd_generation s ∈ ck_generations st)
     || (sd_generation s =? 0) || (sd_generation s <=? ck_previous st) || (generation m <? sd_generation s)
     || (sd_points s =? 0) || negb (sd_source_points s =? cumulative)
     || (sd_max_valid_time s <? sd_min_valid_time s)
  then Err (InvalidModel (text "manifest raw segment descriptor has invalid order, identity, or coverage"))
  else Ok (mkChecks (ck_files st ∪ {[sd_file s]}) (ck_generations st ∪ {[sd_generation s]}) (sd_generation s) cumulative).

(** [validate_manifest]. *)
Definition validate_manifest (m : Manifest) : Result unit :=
  let? _ := try_fold check_rollup ∅ (rollups m) in
  let? _ := try_fold (check_segment m) (mkChecks ∅ ∅ 0 0) (segments m) in
  Ok tt.

(** [temporary_path]: [suffix] is the process id and the nanosecond nonce. *)
Definition temporary_name (target suffix : rstring) : rstring := str "." ++ target ++ str ".tmp-" ++ suffix.

Section Manifests.
Context `{Crc} `{ManifestCodec} `{ReadDir}.

(** [decode_manifest_payload]. *)
Definition decode_manifest_payload (payload : bytes) (version : Z) : Result Manifest :=
  if version =? VERSION_V1 then
    let? parsed := ok_or (v1_from_bytes payload) (Serialization "manifest decode failed") in
    Ok (mkManifest (v1_generation parsed) (v1_rollups parsed) [])
  else if version =? VERSION_V2 then
    let? parsed := ok_or (v2_from_bytes payload) (Serialization "manifest decode failed") in
    match v2_segments parsed with
    | _ :: _ => Err (InvalidConfig "development v2 raw segments lack a content checksum; restore a pre-seal snapshot or use a fresh shadow store")
    | [] => Ok (mkManifest (v2_generation parsed) (v2_rollups parsed) [])
    end
  else ok_or (from_bytes payload) (Serialization "manifest decode failed").

(** [read_manifest] on the contents of a regular file. *)
Definition read_manifest (file : bytes) (expected_generation : Z) : Result Manifest :=
  let file_len := len file in
  if file_len <? MANIFEST_HEADER_BYTES then corruption 0 "manifest is too small"
  else
    let? header := read_exact_at file MANIFEST_HEADER_BYTES 0 in
    if negb (bool_decide (slice 0 8 header = MANIFEST_MAGIC)) then corruption 0 "invalid manifest magic"
    else
      let version := from_le (slice 8 10 header) in
      if negb (version =? MANIFEST_VERSION) && negb (version =? VERSION_V1) && negb (version =? VERSION_V2)
      then corruption 0 "unsupported manifest version"
      else if negb (hash (slice 0 20 header) =? from_le (slice 20 24 header))
      then corruption 0 "manifest header checksum mismatch"
      else if negb (bool_decide (slice 10 12 header = [0; 0]))
      then corruption 0 "manifest reserved flags are non-zero"
      else
        let payload_len := from_le (slice 12 16 header) in
        if (MAX_PAYLOAD_BYTES <? payload_len) || negb (file_len =? MANIFEST_HEADER_BYTES + payload_len)
        then corruption 0 "invalid manifest length"
        else
          let? payload := read_exact_at file payload_len MANIFEST_HEADER_BYTES in
          if negb (hash payload =? from_le (slice 16 20 header))
          then corruption 0 "manifest payload checksum mismatch"
          else
            let? m := match decode_manifest_payload payload version with
                      | Ok m => Ok m
                      | Err (InvalidConfig r) => Err (InvalidConfig r)
                      | Err _ => Err (Corruption 0 (text "manifest payload is invalid"))
                      end in
            if negb (generation m =? expected_generation)
            then corruption 0 "manifest generation does not match its filename"
            else match validate_manifest m with
                 | Ok _ => Ok m
                 | Err _ => Err (Corruption 0 (text "manifest descriptors are invalid"))
                 end.

(** ** Loading *)

Record Candidate := mkCandidate { cand_generation : Z; cand_name : rstring; cand_file : bytes }.

Definition candidate_of (entry : rstring * bytes) : option Candidate :=
  match generation_of entry.1 with Some g => Some (mkCandidate g entry.1 entry.2) | None => None end.

(** [sort_by_key(|(generation, _)| Reverse(generation))]. *)
Definition newer (a b : Candidate) : bool := cand_generation b <=? cand_generation a.

(** [generation_candidates] of the entries that were listed: newest first. *)
Definition candidates_of (entries : list (rstring * bytes)) : list Candidate :=
  stable_sort newer (omap candidate_of entries).
Definition generation_candidates (dir : gmap rstring bytes) : list Candidate := candidates_of (read_dir dir).

Fixpoint load_first (last_error : option Error) (l : list Candidate) : Result Manifest :=
  match l with
  | [] => Err (default (Corruption 0 (text "no valid manifest generation")) last_error)
  | c :: t =>
      match read_manifest (cand_file c) (cand_generation c) with
      | Ok m => Ok m
      | Err (InvalidConfig r) => Err (InvalidConfig r)
      | Err e => load_first (Some e) t
      end
  end.

(** [Manifest::load]. *)
Definition Manifest_load (dir : gmap rstring bytes) : Result Manifest :=
  match generation_candidates dir with
  | [] => Ok Manifest_default
  | l => load_first None l
  end.

(** ** Publication *)

Definition manifest_header_prefix (payload_len payload_crc : Z) : bytes :=
  MANIFEST_MAGIC ++ to_le 2 MANIFEST_VERSION ++ [0; 0] ++ to_le 4 payload_len ++ to_le 4 payload_crc.

Definition manifest_header (payload : bytes) : bytes :=
  let prefix := manifest_header_prefix (len payload) (hash payload) in
  prefix ++ to_le 4 (hash prefix).

(** The part of [Manifest::publish] before the file system is touched: the
    two writes of the file. *)
Definition manifest_chunks (m : Manifest) : Result (list bytes) :=
  validate_manifest m ;?
  let? payload := ok_or (to_stdvec m) (Serialization "manifest encode failed") in
  reject (MAX_PAYLOAD_BYTES <? len payload) (Serialization "manifest exceeds 64 MiB") ;?
  let? _ := ok_or (u32_try_from (len payload)) (Serialization "manifest exceeds u32 length") in
  Ok [manifest_header payload; payload].

(** [Manifest::publish]; [suffix] is as in [temporary_name]. *)
Definition Manifest_publish (m : Manifest) (suffix : rstring) : ST Dir unit :=
  let* chunks := st_lift (manifest_chunks m) in
  let target := manifest_name (generation m) in
  let* d := st_get in
  st_reject (d_exists target d) (Io "AlreadyExists") ;*
  publish_new (temporary_name target suffix) target chunks.

(** The removals of [prune_generations]: the retained tail, and the removals
    that are attempted. *)
Fixpoint prune_tail (loaded_generation : Z) (l : list Candidate) : list Candidate * list Candidate :=
  match l with
  | [] => ([], [])
  | c :: t =>
      let '(retained, removed) := prune_tail loaded_generation t in
      if cand_generation c =? loaded_generation then (c :: retained, removed) else (retained, c :: removed)
  end.

(** [std::fs::read_dir] and its entries, which can fail. *)
Definition d_read_dir : ST Dir (list (rstring * bytes)) :=
  dir_call (fun f d =>
    match f with
    | inl fault => (d, Err (Io (fault_kind fault)))
    | inr _ => (d, Ok (read_dir (visible (dir_state d))))
    end).

(** [prune_generations]. *)
Definition prune_generations (loaded_generation : Z) : ST Dir (list Candidate) :=
  let* entries := d_read_dir in
  let candidates := candidates_of entries in
  let window := Nat.min (1 + RETAINED_FALLBACK_GENERATIONS) (length candidates) in
  let '(tail, removed) := prune_tail loaded_generation (drop window candidates) in
  st_for_each (fun c => ignore (d_remove_file (cand_name c))) removed ;*
  ignore d_sync_dir ;*
  st_ret (take window candidates ++ tail).

(** [read_manifest]: the file is opened and read, which can fail. *)
Definition read_manifest_in (c : Candidate) : ST Dir Manifest :=
  let* file := d_read (cand_name c) in st_lift (read_manifest file (cand_generation c)).

(** [referenced_rollup_files] and [referenced_segment_files]. *)
Definition referenced_rollup_files (retained : list Candidate) : ST Dir (gset rstring) :=
  st_fold (fun acc c =>
    let* m := read_manifest_in c in st_ret (acc ∪ list_to_set (map rd_file (rollups m)))) ∅ retained.
Definition referenced_segment_files (retained : list Candidate) : ST Dir (gset rstring) :=
  st_fold (fun acc c =>
    let* m := read_manifest_in c in st_ret (acc ∪ list_to_set (map sd_file (segments m)))) ∅ retained.
End Manifests.

#[global] Arguments manifest_header : simpl never.
