(* ===== verification/ManifestInv.v ===== *)
(** * ManifestInv: manifests survive publication, power loss and pruning *)
From S2P Require Import Prelude Errors Bytes Float64 Model Codec Effects Segment SegmentWrite Directory Manifest.

Lemma StronglySorted_list_filter {A} (R : A -> A -> Prop) f l :
  StronglySorted R l -> StronglySorted R (List.filter f l).
Proof.
  induction 1 as [|c l Hs IH Hc]; [constructor|]. cbn [List.filter].
  destruct (f c); [|done]. constructor; [done|]. by apply SegmentInv.Forall_list_filter.
Qed.

(** ** File names *)

Lemma decimal_head n z : forall c t, decimal (S n) z = c :: t -> 48 <= c <= 57 \/ z < 0.
Proof.
  revert z. induction n as [|n IH]; intros z c t E; cbn [decimal app] in E.
  - injection E as <- _. left. pose proof (Z.mod_pos_bound z 10). lia.
  - destruct (decimal (S n) (z / 10)) as [|c' t'] eqn:E'.
    + exfalso. cbn [decimal] in E'. by apply app_eq_nil in E' as [_ ?].
    + destruct (IH _ _ _ E') as [Hc|Hc].
      * cbn [decimal] in E'. rewrite E' in E. injection E as <- _. by left.
      * right. destruct (Z.lt_ge_cases z 0); [done|]. pose proof (Z.div_pos z 10). lia.
Qed.

Lemma parse_decimal n : forall z acc rest,
  0 <= z < 10 ^ Z.of_nat n -> 0 <= acc -> acc * 10 ^ Z.of_nat n + z < 2 ^ 64 ->
  parse_digits acc (decimal n z ++ rest) = parse_digits (acc * 10 ^ Z.of_nat n + z) rest.
Proof.
  induction n as [|n IH]; intros z acc rest Hz Ha Hb.
  - cbn in *. f_equal. lia.
  - rewrite Nat2Z.inj_succ, Z.pow_succ_r in * by lia. cbn [decimal]. rewrite <- app_assoc.
    assert (Hq : z = 10 * (z / 10) + z mod 10) by (apply Z.div_mod; lia).
    assert (Hr : 0 <= z mod 10 < 10) by (apply Z.mod_pos_bound; lia).
    rewrite IH by nia. cbn [app parse_digits].
    rewrite (proj2 (Z.leb_le 48 _)), (proj2 (Z.leb_le _ 57)) by lia. cbn [andb].
    rewrite u64_checked_ok by (unfold is_u64; nia). f_equal. nia.
Qed.

Lemma strip_prefix_app p l : strip_prefix p (p ++ l) = Some l.
Proof. induction p as [|c p IH]; [done|]. cbn. by rewrite Z.eqb_refl. Qed.

Lemma generation_of_name g : is_u64 g -> generation_of (manifest_name g) = Some g.
Proof.
  intros Hg. unfold generation_of, manifest_name. rewrite strip_prefix_app.
  assert (E : parse_digits 0 (decimal 20 g) = Some g).
  { rewrite <- (app_nil_r (decimal 20 g)), parse_decimal; unfold is_u64 in *; [done|lia..]. }
  destruct (decimal 20 g) as [|c t] eqn:Ed.
  - exfalso. apply (f_equal length) in Ed. change 20%nat with (S 19) in Ed. cbn [decimal] in Ed.
    rewrite length_app in Ed. cbn [length] in Ed. lia.
  - unfold parse_u64. destruct (decimal_head 19 g c t Ed) as [Hc|Hc]; [|unfold is_u64 in Hg; lia].
    destruct c as [|c|c]; [done| |lia]. do 6 (destruct c as [c|c|]; try done; try lia).
Qed.

Lemma manifest_name_inj a b : is_u64 a -> is_u64 b -> manifest_name a = manifest_name b -> a = b.
Proof.
  intros Ha Hb E. apply generation_of_name in Ha. rewrite E, generation_of_name in Ha by done. by injection Ha.
Qed.

(** ** Encoding *)

Section Encoding.
Context `{Crc} `{ManifestCodec} `{ReadDir} {codec_laws : ManifestCodecLaws}.

Lemma manifest_header_fields payload :
  is_u32 (len payload) ->
  let h := manifest_header payload in
  length h = 24%nat /\ slice 0 8 h = MANIFEST_MAGIC /\ from_le (slice 8 10 h) = MANIFEST_VERSION
  /\ hash (slice 0 20 h) = from_le (slice 20 24 h) /\ slice 10 12 h = [0; 0]
  /\ from_le (slice 12 16 h) = len payload /\ from_le (slice 16 20 h) = hash payload.
Proof.
  intros Hp h. pose proof (hash_u32 payload) as Hh.
  assert (Hl : length (manifest_header_prefix (len payload) (hash payload)) = 20%nat).
  { unfold manifest_header_prefix. rewrite !length_app, !length_to_le. reflexivity. }
  assert (E20 : slice 0 20 h = manifest_header_prefix (len payload) (hash payload)) by (by apply slice_app_l).
  assert (E24 : slice 20 24 h = to_le 4 (hash (manifest_header_prefix (len payload) (hash payload)))).
  { unfold h, manifest_header. rewrite slice_app_r by (rewrite Hl; lia). rewrite Hl. apply slice_all, length_to_le. }
  rewrite E20, E24, from_to_le_u32 by apply hash_u32.
  split; [unfold h, manifest_header; by rewrite length_app, Hl, length_to_le|].
  unfold h, manifest_header. set (tail := to_le 4 (hash _)). unfold manifest_header_prefix. rewrite <- !app_assoc.
  repeat split; slices; rewrite ?from_to_le_u32 by done; done.
Qed.

Lemma read_manifest_chunks m chunks :
  manifest_chunks m = Ok chunks -> typed_manifest m -> read_manifest (concat chunks) (generation m) = Ok m.
Proof.
  intros Hc Ht. unfold manifest_chunks in Hc. apply bind_Ok in Hc as ([] & Hv & Hc).
  apply bind_Ok in Hc as (payload & Hs & Hc). apply ok_or_Ok in Hs.
  apply bind_Ok in Hc as ([] & Hm & Hc). apply reject_Ok, Z.ltb_ge in Hm.
  apply bind_Ok in Hc as (n & Hn & Hc). apply ok_or_Ok, u32_try_from_Some in Hn as [_ Hn].
  apply Ok_inj in Hc. subst chunks. cbn [concat]. rewrite app_nil_r.
  destruct (manifest_header_fields payload Hn) as (Fl & F1 & F2 & F3 & F4 & F5 & F6).
  assert (Hh : len (manifest_header payload) = 24) by (unfold zlen; by rewrite Fl).
  pose proof (zlen_nonneg payload) as Hp0.
  unfold read_manifest. cbv zeta. rewrite zlen_app, Hh.
  rewrite (proj2 (Z.ltb_ge _ _)) by (unfold MANIFEST_HEADER_BYTES; lia).
  replace (read_exact_at (manifest_header payload ++ payload) MANIFEST_HEADER_BYTES 0) with (Ok (manifest_header payload))
    by (symmetry; by apply (read_exact_at_app [])).
  cbn [bind]. rewrite F1, F2, F3, F4, F5, F6, !bool_decide_true, !Z.eqb_refl by done. cbn [negb andb].
  rewrite (proj2 (Z.ltb_ge _ _)) by done. cbn [orb].
  replace (read_exact_at (manifest_header payload ++ payload) (len payload) MANIFEST_HEADER_BYTES) with (Ok payload)
    by (symmetry; rewrite <- (app_nil_r payload) at 2; by apply read_exact_at_app).
  cbn [bind]. rewrite Z.eqb_refl. cbn [negb].
  unfold decode_manifest_payload. cbn [Z.eqb MANIFEST_VERSION VERSION_V1 VERSION_V2 Pos.eqb].
  rewrite (from_to_stdvec m payload Ht Hs). cbn [ok_or bind]. rewrite Z.eqb_refl. cbn [negb]. by rewrite Hv.
Qed.

(** ** Loading *)

(** Candidates with different generations. *)
Definition distinct_generations (dir : gmap rstring bytes) : Prop :=
  forall a b g, is_Some (dir !! a) -> is_Some (dir !! b) ->
    generation_of a = Some g -> generation_of b = Some g -> a = b.

Lemma candidates_elem dir c :
  c ∈ generation_candidates dir <->
  generation_of (cand_name c) = Some (cand_generation c) /\ dir !! cand_name c = Some (cand_file c).
Proof.
  unfold generation_candidates, candidates_of. rewrite (stable_sort_perm newer), list_elem_of_omap.
  setoid_rewrite (read_dir_perm dir). unfold candidate_of. split.
  - intros ([n f] & Hn & Hc). apply elem_of_map_to_list in Hn. cbn in Hc.
    destruct (generation_of n) as [g|] eqn:E; [|done]. injection Hc as <-. done.
  - intros [Hg Hf]. exists (cand_name c, cand_file c). split; [by apply elem_of_map_to_list|].
    cbn. rewrite Hg. by destruct c.
Qed.

Lemma newer_total a b : newer a b = true \/ newer b a = true.
Proof. unfold newer. lia. Qed.
Lemma newer_trans a b c : newer a b = true -> newer b c = true -> newer a c = true.
Proof. unfold newer. lia. Qed.

Lemma candidates_sorted dir : StronglySorted (fun a b => newer a b = true) (generation_candidates dir).
Proof. apply stable_sort_sorted; [apply newer_total|apply newer_trans]. Qed.

Lemma candidates_NoDup dir : NoDup (generation_candidates dir).
Proof.
  unfold generation_candidates, candidates_of. rewrite (stable_sort_perm newer), (read_dir_perm dir).
  pose proof (NoDup_fst_map_to_list dir) as Hn. induction (map_to_list dir) as [|[n f] l IH]; [constructor|].
  cbn in Hn. apply NoDup_cons in Hn as [Hn Hl]. cbn. unfold candidate_of at 1. cbn.
  destruct (generation_of n) as [g|] eqn:E; [|by apply IH]. apply NoDup_cons. split; [|by apply IH].
  intros Hc. apply list_elem_of_omap in Hc as ([n' f'] & Hin & Hc). unfold candidate_of in Hc. cbn in Hc.
  destruct (generation_of n'); [|done]. injection Hc as _ <- _. apply Hn. by apply (list_elem_of_fmap_2' fst l (n', f')).
Qed.

(** A sorted list of exactly the candidates is the list of candidates. *)
Lemma candidates_unique dir l :
  distinct_generations dir -> StronglySorted (fun a b => newer a b = true) l -> NoDup l ->
  (forall c, c ∈ l <-> c ∈ generation_candidates dir) -> generation_candidates dir = l.
Proof.
  intros Hd Hs Hn He.
  apply (StronglySorted_unique_strong (fun a b => newer a b = true)); [|apply candidates_sorted|done|].
  - intros a b Ha Hb Hab Hba. apply He in Hb. apply candidates_elem in Ha as [Ga Fa]. apply candidates_elem in Hb as [Gb Fb].
    assert (E : cand_generation a = cand_generation b) by (unfold newer in *; lia).
    assert (En : cand_name a = cand_name b) by (apply (Hd _ _ (cand_generation a)); rewrite ?E; eauto; congruence).
    destruct a, b; cbn in *. subst. congruence.
  - apply NoDup_Permutation; [apply candidates_NoDup|done|]. intros c. by rewrite He.
Qed.

Lemma candidates_ext dir dir' :
  distinct_generations dir ->
  (forall n, is_Some (generation_of n) -> dir !! n = dir' !! n) ->
  generation_candidates dir = generation_candidates dir'.
Proof.
  intros Hd He. apply candidates_unique; [done|apply candidates_sorted|apply candidates_NoDup|].
  intros c. rewrite !candidates_elem. split; intros [Hg Hf]; (split; [done|]); [rewrite He|rewrite <- He]; eauto.
Qed.

(** Publishing a newer generation puts it in front. *)
Lemma candidates_newer dir dir' g f :
  distinct_generations dir -> is_u64 g ->
  (forall n h, generation_of n = Some h -> is_Some (dir !! n) -> h < g) ->
  dir' !! manifest_name g = Some f ->
  (forall n, is_Some (generation_of n) -> n <> manifest_name g -> dir' !! n = dir !! n) ->
  generation_candidates dir' = mkCandidate g (manifest_name g) f :: generation_candidates dir
  /\ distinct_generations dir'.
Proof.
  intros Hd Hg Hlt Hf Ho. pose proof (generation_of_name g Hg) as Hgn.
  assert (Hd' : distinct_generations dir').
  { intros a b h Ha Hb Ga Gb.
    destruct (decide (a = manifest_name g)) as [->|Na], (decide (b = manifest_name g)) as [->|Nb]; [done|..].
    - rewrite Ho in Hb by eauto. rewrite Hgn in Ga. injection Ga as <-. specialize (Hlt _ _ Gb Hb). lia.
    - rewrite Ho in Ha by eauto. rewrite Hgn in Gb. injection Gb as <-. specialize (Hlt _ _ Ga Ha). lia.
    - rewrite Ho in Ha, Hb by eauto. by apply (Hd a b h). }
  assert (Hin : forall c, c ∈ generation_candidates dir -> cand_generation c < g).
  { intros c Hc. apply candidates_elem in Hc as [Gc Fc]. by apply (Hlt (cand_name c)). }
  split; [|done]. apply candidates_unique; [done|..].
  - constructor; [apply candidates_sorted|]. apply Forall_forall. intros c Hc. specialize (Hin c Hc). unfold newer. cbn. lia.
  - apply NoDup_cons. split; [|apply candidates_NoDup]. intros Hc. apply Hin in Hc. cbn in Hc. lia.
  - intros c. rewrite elem_of_cons, !candidates_elem. split.
    + intros [->|[Gc Fc]]; [done|]. split; [done|]. rewrite Ho; [done|eauto|].
      intros E. rewrite E, Hgn in Gc. injection Gc as Gc.
      specialize (Hlt (cand_name c) (cand_generation c)). rewrite E, Hgn in Hlt. rewrite <- E in Hlt at 1.
      rewrite <- Gc in Hlt. specialize (Hlt eq_refl). rewrite Fc in Hlt. specialize (Hlt ltac:(eauto)). lia.
    + intros [Gc Fc]. destruct (decide (cand_name c = manifest_name g)) as [E|E].
      * left. rewrite E, Hf in Fc. rewrite E, Hgn in Gc. destruct c; cbn in *. congruence.
      * right. split; [done|]. rewrite <- Ho; eauto.
Qed.

(** ** Publication under power loss *)

Lemma temporary_not_candidate target suffix : generation_of (temporary_name target suffix) = None.
Proof. done. Qed.

Lemma load_candidates dir dir' :
  generation_candidates dir = generation_candidates dir' -> Manifest_load dir = Manifest_load dir'.
Proof. unfold Manifest_load. by intros ->. Qed.

Lemma load_newest dir g n f m rest :
  generation_candidates dir = mkCandidate g n f :: rest -> read_manifest f g = Ok m -> Manifest_load dir = Ok m.
Proof. intros E Hr. unfold Manifest_load. rewrite E. cbn. by rewrite Hr. Qed.

Section Publish.
Context (s0 : DirState) (m : Manifest) (suffix : rstring).
Abbreviation target := (manifest_name (generation m)).
Abbreviation temporary := (temporary_name target suffix).
Hypothesis wf0 : wf_dir s0.
Hypothesis settled0 : settled s0.
Hypothesis distinct0 : distinct_generations (visible s0).
Hypothesis typed : typed_manifest m.
Hypothesis newest : forall n g, generation_of n = Some g -> is_Some (visible s0 !! n) -> g < generation m.
Hypothesis fresh : fs_now s0 !! temporary = None.

Lemma target_fresh : fs_now s0 !! target = None.
Proof using settled0 newest typed.
  destruct (fs_now s0 !! target) as [i|] eqn:E; [|done]. exfalso.
  destruct settled0 as [_ Hs]. destruct (Hs _ _ E) as [c Ec].
  assert (Hv : visible s0 !! target = Some c) by (unfold visible; rewrite lookup_omap, E; cbn; by rewrite Ec).
  pose proof (newest target (generation m) (generation_of_name _ (proj1 typed))) as Hn.
  rewrite Hv in Hn. specialize (Hn ltac:(eauto)). lia.
Qed.

Lemma temporary_target : temporary <> target.
Proof using. intros E. apply (f_equal (hd 0)) in E. change (46 = 77) in E. lia. Qed.

Lemma fresh_names x : x ∈ fs_names s0 -> x !! temporary = None /\ x !! target = None.
Proof using fresh settled0 newest typed.
  destruct settled0 as [-> _]. intros Hx. apply list_elem_of_singleton in Hx as ->. split; [done|apply target_fresh].
Qed.

(** What [Manifest_load] gives on an image with the old files and perhaps the
    new one. *)
Lemma load_old image :
  image !! target = None -> (forall n, n <> temporary /\ n <> target -> image !! n = visible s0 !! n) ->
  Manifest_load image = Manifest_load (visible s0).
Proof using wf0 distinct0 settled0 newest typed codec_laws.
  intros Ht Ho. symmetry. apply load_candidates, candidates_ext; [done|]. intros n Hn.
  destruct (decide (n = target)) as [->|Hnt].
  - rewrite Ht. unfold visible. by rewrite lookup_omap, target_fresh.
  - symmetry. apply Ho. split; [|done]. intros ->. rewrite temporary_not_candidate in Hn. by destruct Hn.
Qed.

Lemma load_new image chunks :
  manifest_chunks m = Ok chunks -> image !! target = Some (concat chunks) ->
  (forall n, n <> temporary /\ n <> target -> image !! n = visible s0 !! n) -> Manifest_load image = Ok m.
Proof using wf0 distinct0 settled0 newest typed codec_laws.
  intros Hc Ht Ho.
  destruct (candidates_newer (visible s0) image (generation m) (concat chunks) distinct0 (proj1 typed) newest Ht) as [E _].
  - intros n Hn Hnt. apply Ho. split; [|done]. intros ->. rewrite temporary_not_candidate in Hn. by destruct Hn.
  - eapply load_newest; [exact E|]. by apply read_manifest_chunks.
Qed.

Definition recovers (m0 : Result Manifest) (s : DirState) : Prop :=
  forall image, crash_image s image -> Manifest_load image = m0 \/ Manifest_load image = Ok m.

Lemma publish_recovers d d' r :
  dir_state d = s0 -> Manifest_publish m suffix d = (d', r) ->
  passes (recovers (Manifest_load (visible s0))) d d'
  /\ (r = Ok tt -> Manifest_load (visible (dir_state d')) = Ok m
       /\ forall image, crash_image (dir_state d') image -> Manifest_load image = Ok m).
Proof using wf0 distinct0 settled0 newest typed fresh codec_laws.
  intros Hd Hp. assert (Hstart : recovers (Manifest_load (visible s0)) s0).
  { intros image Hi. left. apply load_old.
    - pose proof (settled_survives s0 target _ settled0 (Hi target)) as ->.
      unfold visible. by rewrite lookup_omap, target_fresh.
    - intros n _. by apply settled_survives. }
  assert (Hstay : passes (recovers (Manifest_load (visible s0))) d d) by (apply passes_refl; by rewrite Hd).
  unfold Manifest_publish, st_bind, st_lift in Hp.
  destruct (manifest_chunks m) as [chunks|e] eqn:Ec; [|injection Hp as <- <-; by split].
  cbn [st_get] in Hp. unfold st_reject, st_lift, reject, d_exists in Hp. rewrite Hd, target_fresh in Hp.
  rewrite bool_decide_false in Hp by (by intros [? ?]).
  destruct (publish_triple s0 temporary target (concat chunks) temporary_target wf0 fresh_names chunks eq_refl d d' r Hd Hp)
    as [(l & El & Fl & Hl) HQ].
  assert (Himp : forall s, publishing s0 temporary target (concat chunks) s -> recovers (Manifest_load (visible s0)) s).
  { intros s Hs image Hi.
    destruct (publishing_crash s0 temporary target (concat chunks) wf0 s image Hs Hi) as [[Ht|Ht] Ho].
    - left. apply load_old; [done|]. intros n Hn. apply settled_survives; [done|by apply Ho].
    - right. apply (load_new image chunks); [done..|]. intros n Hn. apply settled_survives; [done|by apply Ho]. }
  split.
  - exists l. split; [done|]. split; [|by apply Himp]. eapply Forall_impl; [exact Fl|]. apply Himp.
  - intros ->. split.
    + destruct (published_visible s0 temporary target (concat chunks) wf0 _ HQ) as (Ht & _ & Ho).
      by apply (load_new _ chunks).
    + intros image Hi. destruct (published_crash s0 temporary target (concat chunks) wf0 _ image HQ Hi) as (Ht & _ & Ho).
      apply (load_new image chunks); [done..|]. intros n Hn. apply settled_survives; [done|by apply Ho].
Qed.
End Publish.

(** ** Pruning *)

Section Prune.
Context (s0 : DirState) (removed : list rstring).
Hypothesis wf0 : wf_dir s0.
Hypothesis settled0 : settled s0.

(** Some of the names [removed] are gone, everything else is as it was. *)
Definition thinned (m : gmap rstring nat) : Prop :=
  forall n, m !! n = fs_now s0 !! n \/ (m !! n = None /\ n ∈ removed).
Definition pruning (s : DirState) : Prop :=
  (forall m, m ∈ fs_names s -> thinned m) /\ fs_now s ∈ fs_names s /\ fs_files s = fs_files s0.

Lemma pruning_start : pruning s0.
Proof using settled0.
  destruct settled0 as [E _]. split; [|split; [rewrite E; by left|done]].
  intros m Hm n. rewrite E in Hm. apply list_elem_of_singleton in Hm as ->. by left.
Qed.

Lemma ignore_triple {A} (I : DirState -> Prop) (op : ST Dir A) :
  dtriple I I op (fun _ => I) -> dtriple I I (ignore op) (fun _ => I).
Proof using.
  intros Hop d d' r HI E. unfold ignore in E. destruct (op d) as [d1 r1] eqn:Eo. injection E as <- <-.
  destruct (Hop _ _ _ HI Eo) as [Hp _]. split; [done|]. by destruct Hp as (l & _ & _ & ?).
Qed.

Lemma prune_remove_triple n : n ∈ removed -> dtriple pruning pruning (d_remove_file n) (fun _ => pruning).
Proof using.
  intros Hn. apply dtriple_call. intros f d Hd.
  destruct f as [fault|[]]; cbn; [by split; [apply passes_refl|]|].
  destruct (fs_now (dir_state d) !! n) as [i|]; cbn; [|by split; [apply passes_refl|]].
  assert (Hp : pruning (set_names (delete n (fs_now (dir_state d))) (dir_state d))).
  { destruct Hd as (P1 & P2 & P3). split; [|split; [by left|done]].
    intros m Hm. apply elem_of_cons in Hm as [->|Hm]; [|by apply P1]. intros k.
    destruct (decide (k = n)) as [->|Hk]; [right; split; [apply lookup_delete_eq|done]|].
    rewrite lookup_delete_ne by done. by apply P1. }
  split; [by apply passes_step|done].
Qed.

Lemma prune_sync_triple : dtriple pruning pruning d_sync_dir (fun _ => pruning).
Proof using.
  apply dtriple_call. intros f d Hd. destruct f as [fault|[]]; cbn; [by split; [apply passes_refl|]|].
  assert (Hp : pruning (mkDirState (fs_now (dir_state d)) [fs_now (dir_state d)] (fs_files (dir_state d)) (fs_next (dir_state d)))).
  { destruct Hd as (P1 & P2 & P3). split; [|split; [by left|done]].
    intros m Hm. apply list_elem_of_singleton in Hm as ->. by apply P1. }
  split; [by apply passes_step|done].
Qed.

Lemma prune_all_triple (cs : list Candidate) :
  Forall (fun c => cand_name c ∈ removed) cs ->
  dtriple pruning pruning (st_for_each (fun c => ignore (d_remove_file (cand_name c))) cs ;* ignore d_sync_dir)
    (fun _ => pruning).
Proof using.
  intros Hcs. apply (dtriple_bind _ _ _ _ (fun _ => pruning)); [|intros []; apply ignore_triple, prune_sync_triple].
  induction Hcs as [|c cs Hc _ IH]; cbn [st_for_each].
  - intros d d' r HP [= <- <-]. split; [by apply passes_refl|done].
  - eapply dtriple_bind; [by apply ignore_triple, prune_remove_triple|]. intros []. apply IH.
Qed.

(** Whatever a power loss leaves of it, and what the program sees. *)
Definition thinned_image (image : gmap rstring bytes) : Prop :=
  forall n, image !! n = visible s0 !! n \/ (image !! n = None /\ n ∈ removed).

Lemma pruning_crash s image : pruning s -> crash_image s image -> thinned_image image.
Proof using settled0.
  intros (P1 & _ & P3) Hi n. destruct (Hi n) as (m & Hm & Hv). unfold visible. rewrite lookup_omap.
  destruct (P1 m Hm n) as [E|[E Hn]]; [left|right; by rewrite E in Hv].
  rewrite E in Hv. destruct (fs_now s0 !! n) as [i|] eqn:Ei; cbn; [|done].
  destruct (proj2 settled0 n i Ei) as [c Ec]. rewrite P3, Ec in Hv. rewrite Ec. cbn.
  destruct Hv as (c' & -> & [Hc|[c'' Hc]]); congruence.
Qed.

Lemma pruning_visible s : pruning s -> thinned_image (visible s).
Proof using.
  intros (P1 & P2 & P3) n. unfold visible. rewrite !lookup_omap, P3.
  destruct (P1 _ P2 n) as [->|[-> Hn]]; [by left|by right].
Qed.
End Prune.

(** The first readable candidate decides. *)
Lemma load_first_split l : forall e m,
  load_first e l = Ok m ->
  exists l1 c l2, l = l1 ++ c :: l2 /\ read_manifest (cand_file c) (cand_generation c) = Ok m
    /\ Forall (fun c => exists e, read_manifest (cand_file c) (cand_generation c) = Err e
                         /\ forall r, e <> InvalidConfig r) l1.
Proof.
  induction l as [|c l IH]; intros e m Hl; [done|]. cbn [load_first] in Hl.
  destruct (read_manifest (cand_file c) (cand_generation c)) as [m'|e'] eqn:Er.
  - injection Hl as <-. exists [], c, l. done.
  - assert (Hl' : load_first (Some e') l = Ok m /\ forall r, e' <> InvalidConfig r) by (by destruct e').
    destruct Hl' as [Hl' He]. destruct (IH _ _ Hl') as (l1 & c' & l2 & -> & Hr & Hf).
    exists (c :: l1), c', l2. split; [done|]. split; [done|]. constructor; eauto.
Qed.

Lemma load_first_skips l1 c l2 m : forall e,
  read_manifest (cand_file c) (cand_generation c) = Ok m ->
  Forall (fun c => exists e, read_manifest (cand_file c) (cand_generation c) = Err e
                     /\ forall r, e <> InvalidConfig r) l1 ->
  load_first e (l1 ++ c :: l2) = Ok m.
Proof.
  induction l1 as [|c' l1 IH]; intros e Hr Hf; cbn [app load_first]; [by rewrite Hr|].
  apply Forall_cons in Hf as [(e' & -> & He) Hf].
  destruct e'; try (by apply IH). by destruct (He reason).
Qed.

Lemma load_first_filter (keep : Candidate -> bool) l m e e' :
  load_first e l = Ok m ->
  (forall c, c ∈ l -> read_manifest (cand_file c) (cand_generation c) = Ok m -> keep c = true) ->
  load_first e' (List.filter keep l) = Ok m.
Proof.
  intros Hl Hk. apply load_first_split in Hl as (l1 & c & l2 & -> & Hr & Hf).
  rewrite List.filter_app. cbn [List.filter]. rewrite Hk; [|apply elem_of_app; right; by left|done].
  apply load_first_skips; [done|]. by apply SegmentInv.Forall_list_filter.
Qed.

Lemma read_manifest_generation f g m : read_manifest f g = Ok m -> generation m = g.
Proof.
  unfold read_manifest. intros Hr. cbv zeta in Hr. guards_in Hr.
  apply bind_Ok in Hr as (h & _ & Hr). guards_in Hr.
  apply bind_Ok in Hr as (p & _ & Hr). guards_in Hr.
  apply bind_Ok in Hr as (m' & _ & Hr). guards_in Hr. zbool.
  destruct (validate_manifest m'); [|done]. by injection Hr as <-.
Qed.

(** What is removed is neither in the window nor the loaded generation. *)
Lemma prune_tail_spec g l kept gone :
  prune_tail g l = (kept, gone) ->
  forall c, c ∈ gone <-> c ∈ l /\ cand_generation c <> g.
Proof.
  revert kept gone. induction l as [|c l IH]; intros kept gone E; cbn [prune_tail] in E.
  - injection E as <- <-. intros x. split; [intros Hx; by apply not_elem_of_nil in Hx|].
    intros [Hx _]. by apply not_elem_of_nil in Hx.
  - destruct (prune_tail g l) as [k r] eqn:Et. specialize (IH k r eq_refl). intros x. rewrite elem_of_cons.
    destruct (Z.eqb_spec (cand_generation c) g) as [Eg|Eg]; injection E as <- <-; rewrite ?elem_of_cons, ?IH.
    + split; [tauto|]. intros [[->|Hx] Hn]; [done|tauto].
    + split; [intros [->|[? ?]]; tauto|]. intros [[->|Hx] Hn]; tauto.
Qed.

Lemma load_thinned s0 gone image m :
  distinct_generations (visible s0) -> Manifest_load (visible s0) = Ok m ->
  (forall c, c ∈ gone -> c ∈ generation_candidates (visible s0) /\ cand_generation c <> generation m) ->
  thinned_image s0 (map cand_name gone) image -> Manifest_load image = Ok m.
Proof.
  intros Hd Hl Hg Hi. set (keep := fun c => bool_decide (is_Some (image !! cand_name c))).
  assert (Hd' : distinct_generations image).
  { intros a b g Ha Hb. destruct (Hi a) as [Ea|[Ea _]], (Hi b) as [Eb|[Eb _]]; rewrite Ea in Ha; rewrite Eb in Hb;
      try (by destruct Ha); try (by destruct Hb). by apply Hd. }
  assert (Ec : generation_candidates image = List.filter keep (generation_candidates (visible s0))).
  { apply candidates_unique; [done|..].
    - apply StronglySorted_list_filter, candidates_sorted.
    - apply NoDup_ListNoDup, List.NoDup_filter, NoDup_ListNoDup, candidates_NoDup.
    - intros c. rewrite list_elem_of_In, List.filter_In, <- list_elem_of_In, !candidates_elem. unfold keep. split.
      + intros [[Hgc Hf] Hk]. split; [done|]. apply bool_decide_eq_true in Hk.
        destruct (Hi (cand_name c)) as [E|[E _]]; [by rewrite E|]. rewrite E in Hk. by destruct Hk.
      + intros [Hgc Hf]. split; [|by apply bool_decide_eq_true; rewrite Hf; eauto]. split; [done|].
        destruct (Hi (cand_name c)) as [E|[E _]]; congruence. }
  unfold Manifest_load in *. rewrite Ec.
  destruct (generation_candidates (visible s0)) as [|c0 cs] eqn:El; [done|].
  assert (Hf : forall c, c ∈ c0 :: cs -> read_manifest (cand_file c) (cand_generation c) = Ok m -> keep c = true).
  { intros c Hc Hr. apply read_manifest_generation in Hr. unfold keep. apply bool_decide_true.
    assert (Hc' : c ∈ generation_candidates (visible s0)) by (by rewrite El).
    apply candidates_elem in Hc' as [Hgc Hfc].
    destruct (Hi (cand_name c)) as [E|[E Hn]]; [rewrite E, Hfc; eauto|]. exfalso.
    apply list_elem_of_In, in_map_iff in Hn as (c' & En & Hc''). apply list_elem_of_In in Hc''.
    destruct (Hg c' Hc'') as [Hin Hne]. rewrite <- El in Hin. apply candidates_elem in Hin as [Hgc' _].
    rewrite En, Hgc in Hgc'. injection Hgc' as Hgc'. congruence. }
  pose proof (load_first_filter keep _ m None None Hl Hf) as Hres.
  by destruct (List.filter keep (c0 :: cs)).
Qed.

Lemma d_read_dir_spec d d' r :
  d_read_dir d = (d', r) ->
  dir_past d' = dir_past d /\ dir_state d' = dir_state d /\ forall entries, r = Ok entries -> entries = read_dir (visible (dir_state d)).
Proof.
  unfold d_read_dir, dir_call. destruct (dir_faults d) as [|[f|] rest]; intros [= <- <-]; split_and!; try done; by intros ? [= <-].
Qed.

Lemma prune_preserves_load s0 m d d' r :
  wf_dir s0 -> settled s0 -> distinct_generations (visible s0) -> Manifest_load (visible s0) = Ok m ->
  dir_state d = s0 -> prune_generations (generation m) d = (d', r) ->
  passes (fun s => forall image, image = visible s \/ crash_image s image -> Manifest_load image = Ok m) d d'.
Proof.
  intros Hwf Hs Hd Hl Hst Hp. unfold prune_generations in Hp. unfold st_bind at 1 in Hp.
  destruct (d_read_dir d) as [dl rl] eqn:El. apply d_read_dir_spec in El as (Hps & Hdl & Hrl).
  assert (Himage : forall image, image = visible s0 \/ crash_image s0 image -> Manifest_load image = Ok m).
  { intros image Hi. apply (load_thinned s0 []); [done..| |]; [by intros c ?%elem_of_nil|].
    destruct Hi as [->|Hi]; [intros n; by left|]. by apply (pruning_crash s0 _ Hs s0); [apply pruning_start|]. }
  destruct rl as [entries|e]; [|injection Hp as <- _; exists []; rewrite Hdl, Hst; by split_and!].
  rewrite (Hrl _ eq_refl), Hst in Hp. clear Hrl Himage. rewrite Hst in Hdl. clear Hst.
  unfold passes. rewrite <- Hps. change (passes (fun s => forall image, image = visible s \/ crash_image s image -> Manifest_load image = Ok m) dl d').
  clear Hps d. rename dl into d, Hdl into Hst.
  fold (generation_candidates (visible s0)) in Hp. cbv zeta in Hp. set (cs := generation_candidates (visible s0)) in *.
  set (w := Nat.min _ _) in *. destruct (prune_tail (generation m) (drop w cs)) as [kept gone] eqn:Et.
  pose proof (prune_tail_spec _ _ _ _ Et) as Hgone.
  assert (Hin : forall c, c ∈ gone -> c ∈ cs /\ cand_generation c <> generation m).
  { intros c Hc. apply Hgone in Hc as [Hc Hn]. split; [|done]. rewrite <- (take_drop w cs).
    apply elem_of_app. by right. }
  assert (Himp : forall s, pruning s0 (map cand_name gone) s ->
    forall image, image = visible s \/ crash_image s image -> Manifest_load image = Ok m).
  { intros s Hps image Hi. apply (load_thinned s0 gone); [done..|].
    destruct Hi as [->|Hi]; [by apply pruning_visible|by apply (pruning_crash s0 _ Hs s)]. }
  pose proof (prune_all_triple s0 (map cand_name gone) gone) as Ht.
  unfold st_bind in Hp. destruct (st_for_each _ gone d) as [d1 r1] eqn:E1.
  assert (Hr1 : r1 = Ok tt).
  { clear - E1. revert d E1. induction gone as [|c gone IH]; intros d E1; cbn [st_for_each] in E1.
    - by injection E1 as _ <-.
    - unfold st_bind, ignore at 1 in E1. destruct (d_remove_file (cand_name c) d) as [d2 r2]. by apply (IH d2). }
  subst r1. destruct (ignore d_sync_dir d1) as [d2 r2] eqn:E2.
  assert (Hr2 : r2 = Ok tt) by (unfold ignore in E2; destruct (d_sync_dir d1); by injection E2 as _ <-).
  subst r2. injection Hp as <- <-.
  edestruct (Ht ltac:(apply Forall_forall; intros c Hc; apply list_elem_of_In, in_map, list_elem_of_In, Hc) d d2 (Ok tt))
    as [(l & El & Fl & Hl2) _].
  - rewrite Hst. by apply pruning_start.
  - unfold st_bind. by rewrite E1, E2.
  - exists l. split; [done|]. split; [|by apply Himp]. eapply Forall_impl; [exact Fl|]. apply Himp.
Qed.
End Encoding.
