(* ===== verification/Planner.v ===== *)
(** * Planner: what [src/src/store.rs] decides about rollups

    Which shards of a series are complete and missing, which descriptors
    answer a range and where raw points have to fill in, which rollups expire,
    and how a series is materialized into shards.  These functions touch no
    file. *)
From S2P Require Import Prelude Errors Bytes Float64 Model Transaction Query Aggregate Rollup.
From S2P Require Import Segment Manifest.

Definition UTC_DAY_MICROS : Z := 86400000000.

(** ** Descriptors *)

Definition set_active (b : bool) (r : RollupDescriptor) : RollupDescriptor :=
  mkRollupDescriptor (rd_file r) (rd_series r) (rd_resolution r) (rd_start r) (rd_end r)
    (rd_source_commit r) (rd_source_points r) b.
Definition set_source (commits points : Z) (r : RollupDescriptor) : RollupDescriptor :=
  mkRollupDescriptor (rd_file r) (rd_series r) (rd_resolution r) (rd_start r) (rd_end r)
    commits points (rd_active r).
Definition set_rollups (l : list RollupDescriptor) (m : Manifest) : Manifest := mkManifest (generation m) l (segments m).
Definition set_generation (g : Z) (m : Manifest) : Manifest := mkManifest g (rollups m) (segments m).

(** An active rollup of a series at a resolution. *)
Definition active_for (series_id : Z) (res : RollupResolution) (r : RollupDescriptor) : bool :=
  rd_active r && (rd_series r =? series_id) && bool_decide (rd_resolution r = res).

(** [for rollup in &mut rollups { if hit { *rollup = change; changed = true } }]. *)
Definition update_where (hit : RollupDescriptor -> bool) (change : RollupDescriptor -> RollupDescriptor)
    (l : list RollupDescriptor) : list RollupDescriptor * bool :=
  (map (fun r => if hit r then change r else r) l, existsb hit l).

Definition is_gauge (d : SeriesDefinition) : bool := bool_decide (series_semantics d = Gauge).
Definition tiers_of (d : SeriesDefinition) : list RollupTier := policy_tiers (series_rollup_policy d).

(** The cut-off of a tier: nothing that ends before it is kept. *)
Definition retention_cutoff (now_micros : Z) (tier : RollupTier) : option Z :=
  i64_saturating_sub now_micros <$> tier_retain_for_micros tier.

(** [has_retention_work]. *)
Definition has_retention_work (m : Manifest) (definitions : list SeriesDefinition) (now_micros : Z) : bool :=
  existsb (fun d =>
    is_gauge d && existsb (fun tier =>
      match retention_cutoff now_micros tier with
      | None => false
      | Some cutoff =>
          existsb (fun r => active_for (series_id d) (tier_resolution tier) r && (rd_end r <? cutoff)) (rollups m)
      end) (tiers_of d)) definitions.

(** [deactivate_expired_rollups]. *)
Definition expired (d : SeriesDefinition) (now_micros : Z) (tier : RollupTier) (r : RollupDescriptor) : bool :=
  active_for (series_id d) (tier_resolution tier) r
  && match retention_cutoff now_micros tier with Some cutoff => rd_end r <? cutoff | None => false end.

Definition deactivate_expired_rollups (m : Manifest) (d : SeriesDefinition) (now_micros : Z) : Manifest * bool :=
  let '(l, changed) :=
    foldl (fun '(l, changed) tier =>
             let '(l', hit) := update_where (expired d now_micros tier) (set_active false) l in
             (l', changed || hit)) (rollups m, false) (tiers_of d) in
  (set_rollups l m, changed).

(** [stamp_active_series_source]. *)
Definition stamp_active_series_source (m : Manifest) (series_id source_commit source_points : Z) : Manifest * bool :=
  let '(l, changed) :=
    update_where (fun r => rd_active r && (rd_series r =? series_id)
                    && (negb (rd_source_commit r =? source_commit) || negb (rd_source_points r =? source_points)))
      (set_source source_commit source_points) (rollups m) in
  (set_rollups l m, changed).

(** ** Materialization *)

Section Calendar.
Context `{TimeZones}.

(** [materialize]. *)
Definition materialize (points : list Point) (res : RollupResolution) (max_gap : Z) : Result (list GaugeBucket) :=
  match res with
  | FixedMicros micros =>
      reject (micros <=? 0) (InvalidModel (text "fixed rollup resolution must be positive")) ;?
      let? r := fixed_build points micros max_gap in Ok (btree_values (fixed_buckets r))
  | Calendar unit tz =>
      let? r := calendar_build points unit tz max_gap in Ok (btree_values (calendar_buckets r))
  end.

Record RollupShard := mkShard {
  shard_start : Z;
  shard_end : Z;
  shard_buckets : list GaugeBucket;
}.

(** [fixed_shard_width]. *)
Definition shard_width (micros : Z) : Z :=
  if (micros <=? UTC_DAY_MICROS) && (UTC_DAY_MICROS mod micros =? 0) then UTC_DAY_MICROS else micros.
Definition fixed_shard_width (micros : Z) : Result Z :=
  reject (micros <=? 0) (InvalidModel (text "fixed rollup resolution must be positive")) ;? Ok (shard_width micros).

(** [latest_completed_shard_end]; the source wraps it in [Some]. *)
Definition latest_completed_shard_end (now_micros : Z) (res : RollupResolution) : Result Z :=
  match res with
  | FixedMicros micros => let? width := fixed_shard_width micros in Ok (bucket_start now_micros width)
  | Calendar unit tz => let? b := calendar_bucket_bounds now_micros unit tz in Ok b.1
  end.

(** [series_gained_completed_shard]. *)
Fixpoint tiers_gained (tiers : list RollupTier) (prev_now now_micros : Z) : Result bool :=
  match tiers with
  | [] => Ok false
  | tier :: rest =>
      let? a := latest_completed_shard_end now_micros (tier_resolution tier) in
      let? b := latest_completed_shard_end prev_now (tier_resolution tier) in
      if b <? a then Ok true else tiers_gained rest prev_now now_micros
  end.
Definition series_gained_completed_shard (d : SeriesDefinition) (prev_now now_micros : Z) : Result bool :=
  if now_micros <=? prev_now then Ok false else tiers_gained (tiers_of d) prev_now now_micros.

(** The two loops of [needed_completed_shards]: [bounds] gives the shard at
    the cursor and [wanted] the test on its bounds. *)
Fixpoint needed_loop (bounds : Z -> Result (Z * Z)) (wanted : Z -> Z -> bool) (fuel : nat) (cursor latest : Z)
    : Result (list (Z * Z)) :=
  match fuel with
  | O => Err (Panic "shard loop bound")
  | S fuel =>
      if latest <? cursor then Ok []
      else
        let? b := bounds cursor in
        let here := if wanted b.1 b.2 then [b] else [] in
        if b.2 <=? cursor then Ok here
        else let? rest := needed_loop bounds wanted fuel b.2 latest in Ok (here ++ rest)
  end.

(** The shard that begins at [start]. *)
Definition fixed_shard (width start : Z) : Result (Z * Z) := Ok (start, i64_saturating_add start width).
Definition needed_fuel (minimum earliest latest : Z) : nat := Z.to_nat ((latest - earliest) / minimum + 3).

(** [needed_completed_shards]; [u64::MAX] for [current_points] means any
    provenance. *)
Definition shard_covered (series_id : Z) (res : RollupResolution) (current_points : Z)
    (rollups : list RollupDescriptor) (start stop : Z) : bool :=
  existsb (fun r => active_for series_id res r
                    && ((current_points =? u64_max) || (rd_source_points r =? current_points))
                    && (rd_start r =? start) && (rd_end r =? stop)) rollups.

Definition needed_completed_shards (series_id : Z) (res : RollupResolution) (earliest latest now_micros : Z)
    (rollups : list RollupDescriptor) (current_points : Z) : Result (list (Z * Z)) :=
  let wanted start stop :=
    (stop <=? now_micros) && negb (shard_covered series_id res current_points rollups start stop) in
  match res with
  | FixedMicros micros =>
      let? width := fixed_shard_width micros in
      let start := bucket_start earliest width in
      needed_loop (fixed_shard width) wanted (needed_fuel width start latest) start latest
  | Calendar unit tz =>
      needed_loop (fun cursor => calendar_bucket_bounds cursor unit tz) wanted
        (needed_fuel 3600000000 earliest latest) earliest latest
  end.

(** [series_has_missing_completed_shard]. *)
Fixpoint tiers_missing (series_id earliest latest now_micros : Z) (rollups : list RollupDescriptor)
    (tiers : list RollupTier) : Result bool :=
  match tiers with
  | [] => Ok false
  | tier :: rest =>
      let? needed := needed_completed_shards series_id (tier_resolution tier) earliest latest now_micros rollups u64_max in
      match needed with
      | [] => tiers_missing series_id earliest latest now_micros rollups rest
      | _ => Ok true
      end
  end.
Definition series_has_missing_completed_shard (d : SeriesDefinition) (bounds : option (Z * Z)) (now_micros : Z)
    (rollups : list RollupDescriptor) : Result bool :=
  match bounds with
  | None => Ok false
  | Some (earliest, latest) => tiers_missing (series_id d) earliest latest now_micros rollups (tiers_of d)
  end.

(** [rollup_shards]: [grouped.entry(start).or_default().push(bucket)]. *)
Definition group_bucket (width now_micros : Z) (grouped : gmap Z (list GaugeBucket)) (b : GaugeBucket)
    : gmap Z (list GaugeBucket) :=
  let start := bucket_start (b_start b) width in
  let stop := i64_saturating_add start width in
  if stop <=? now_micros then <[start := default [] (grouped !! start) ++ [b]]> grouped else grouped.

Definition rollup_shards (buckets : list GaugeBucket) (res : RollupResolution) (now_micros : Z)
    : Result (list RollupShard) :=
  match res with
  | FixedMicros micros =>
      if 0 <? micros then
        let width := shard_width micros in
        Ok (map (fun '(start, l) => mkShard start (i64_saturating_add start width) l)
              (btree_to_list (foldl (group_bucket width now_micros) ∅ buckets)))
      else Err (InvalidModel (text "fixed rollup resolution must be positive"))
  | Calendar _ _ =>
      Ok (map (fun b => mkShard (b_start b) (b_end b) [b]) (List.filter (fun b => b_end b <=? now_micros) buckets))
  end.

(** [query_envelope]. *)
Definition query_envelope (start stop : Z) (res : RollupResolution) : Result (Z * Z) :=
  match res with
  | FixedMicros micros =>
      if 0 <? micros then
        let last_timestamp := i64_saturating_sub stop 1 in
        Ok (bucket_start start micros, i64_saturating_add (bucket_start last_timestamp micros) micros)
      else Err (InvalidModel (text "fixed rollup resolution must be positive"))
  | Calendar unit tz =>
      let? first := calendar_bucket_bounds start unit tz in
      let? final := calendar_bucket_bounds (i64_saturating_sub stop 1) unit tz in
      Ok (first.1, final.2)
  end.
End Calendar.

(** ** Coverage *)

Definition ranges_overlap (left_start left_end right_start right_end : Z) : bool :=
  (left_start <? right_end) && (right_start <? left_end).

Record CoveragePlan := mkCoverage {
  descriptors : list RollupDescriptor;
  gaps : list (Z * Z);
}.

Definition range_leb (a b : RollupDescriptor) : bool :=
  (rd_start a <? rd_start b) || ((rd_start a =? rd_start b) && (rd_end a <=? rd_end b)).

(** [Iterator::max_by_key(|descriptor| descriptor.end)]: the last of the
    greatest. *)
Definition furthest (l : list RollupDescriptor) : option RollupDescriptor :=
  foldl (fun best r => match best with
                       | Some b => if rd_end b <=? rd_end r then Some r else best
                       | None => Some r
                       end) None l.

(** [Iterator::min]. *)
Definition least (l : list Z) : option Z :=
  foldl (fun best z => match best with Some b => Some (Z.min b z) | None => Some z end) None l.

(** The loop of [coverage_plan] from [cursor]. *)
Fixpoint cover_from (fuel : nat) (candidates : list RollupDescriptor) (cursor stop : Z) (plan : CoveragePlan)
    : CoveragePlan :=
  match fuel with
  | O => plan
  | S fuel =>
      if cursor <? stop then
        match furthest (List.filter (fun r => (rd_start r <=? cursor) && (cursor <? rd_end r)) candidates) with
        | Some r =>
            cover_from fuel candidates (Z.min (rd_end r) stop) stop (mkCoverage (descriptors plan ++ [r]) (gaps plan))
        | None =>
            let gap_end :=
              Z.min (default stop (least (map rd_start (List.filter (fun r => cursor <? rd_start r) candidates)))) stop in
            cover_from fuel candidates gap_end stop (mkCoverage (descriptors plan) (gaps plan ++ [(cursor, gap_end)]))
        end
      else plan
  end.

(** [coverage_plan].  Every round passes the start or the end of a candidate,
    or ends the loop. *)
Definition coverage_plan (candidates : list RollupDescriptor) (start stop : Z) : CoveragePlan :=
  if stop <=? start then mkCoverage [] []
  else cover_from (S (2 * length candidates)) (stable_sort range_leb candidates) start stop (mkCoverage [] []).

(** [covering_descriptors]. *)
Definition covering_descriptors (candidates : list RollupDescriptor) (start stop : Z) : option (list RollupDescriptor) :=
  let plan := coverage_plan candidates start stop in
  match gaps plan with [] => Some (descriptors plan) | _ => None end.

(** ** Sealed segments of the manifest *)

Definition published_seal_generations (m : Manifest) : gset Z := list_to_set (map sd_generation (segments m)).

(** [verify_raw_segment_descriptor]; the checksum is read last. *)
Definition verify_raw_segment_descriptor `{Codec.Crc} (g : Segment) (r : RawSegmentDescriptor) : Result unit :=
  let mismatch := Corruption 0 (text "raw segment {} does not match its manifest count, time bounds, or content checksum") in
  reject (negb (seg_point_total (seg_stats g) =? sd_points r)
          || negb (bool_decide (valid_bounds g = Some (sd_min_valid_time r, sd_max_valid_time r)))) mismatch ;?
  let? crc := content_crc32 g in
  reject (negb (crc =? sd_content_crc32 r)) mismatch.
