(* ===== verification/PlannerInv.v ===== *)
(** * PlannerInv: coverage plans, shards and local materialization

    A coverage plan splits its range exactly; the shard loops visit every
    shard once; and a range of buckets depends only on the points of the range
    and of one maximum gap around it. *)
From S2P Require Import Prelude Errors Bytes Float64 Model Transaction Query Aggregate Rollup.
From S2P Require Import Segment Manifest Planner.

(** ** Coverage *)

Definition in_range (t : Z) (g : Z * Z) : Prop := g.1 <= t < g.2.
Definition covers (t : Z) (r : RollupDescriptor) : Prop := rd_start r <= t < rd_end r.

Lemma furthest_snoc l r :
  furthest (l ++ [r]) = match furthest l with
                        | Some b => if rd_end b <=? rd_end r then Some r else Some b
                        | None => Some r
                        end.
Proof. unfold furthest. rewrite foldl_app. cbn. by destruct (foldl _ _ l). Qed.

Lemma furthest_spec l :
  match furthest l with
  | Some r => r ∈ l /\ forall x, x ∈ l -> rd_end x <= rd_end r
  | None => l = []
  end.
Proof.
  induction l as [|r l IH] using rev_ind; [done|]. rewrite furthest_snoc.
  destruct (furthest l) as [b|].
  - destruct IH as [Hb Hmax]. destruct (Z.leb_spec (rd_end b) (rd_end r)).
    + split; [set_solver|]. intros x [Hx| ->%list_elem_of_singleton]%elem_of_app; [|lia]. specialize (Hmax _ Hx). lia.
    + split; [set_solver|]. intros x [Hx| ->%list_elem_of_singleton]%elem_of_app; [by apply Hmax|lia].
  - subst. split; [set_solver|]. intros x [Hx| ->%list_elem_of_singleton]%elem_of_app; [by apply not_elem_of_nil in Hx|lia].
Qed.

Lemma least_spec l :
  match least l with Some z => z ∈ l /\ forall x, x ∈ l -> z <= x | None => l = [] end.
Proof.
  induction l as [|r l IH] using rev_ind; [done|]. unfold least in *. rewrite foldl_app. cbn.
  destruct (foldl _ None l) as [b|].
  - destruct IH as [Hb Hmin]. split.
    + destruct (Z.min_spec b r) as [[_ ->]|[_ ->]]; set_solver.
    + intros x [Hx| ->%list_elem_of_singleton]%elem_of_app; [specialize (Hmin _ Hx)|]; lia.
  - subst. split; [set_solver|]. intros x [Hx| ->%list_elem_of_singleton]%elem_of_app; [by apply not_elem_of_nil in Hx|lia].
Qed.

(** The ends of candidates that are still ahead. *)
Definition ahead (f : RollupDescriptor -> Z) (cursor : Z) (l : list RollupDescriptor) : nat :=
  length (List.filter (fun r => cursor <? f r) l).

Lemma ahead_mono f a b l : a <= b -> (ahead f b l <= ahead f a l)%nat.
Proof.
  intros Hab. unfold ahead. induction l as [|r l IH]; cbn; [lia|].
  destruct (Z.ltb_spec b (f r)), (Z.ltb_spec a (f r)); cbn; lia.
Qed.

Lemma ahead_pass f a b l r : r ∈ l -> a < f r -> f r <= b -> (ahead f b l < ahead f a l)%nat.
Proof.
  intros Hr Ha Hb. induction l as [|x l IH]; [by apply not_elem_of_nil in Hr|].
  pose proof (ahead_mono f a b l ltac:(lia)). unfold ahead in *. cbn.
  apply elem_of_cons in Hr as [<-|Hr].
  - destruct (Z.ltb_spec b (f r)), (Z.ltb_spec a (f r)); cbn; lia.
  - specialize (IH Hr). destruct (Z.ltb_spec b (f x)), (Z.ltb_spec a (f x)); cbn; lia.
Qed.

(** What a coverage plan from [cursor] to [stop] is. *)
Record splits (candidates : list RollupDescriptor) (cursor stop : Z) (ds : list RollupDescriptor) (gs : list (Z * Z))
    : Prop := {
  splits_from : forall r, r ∈ ds -> r ∈ candidates /\ rd_start r < stop /\ cursor < rd_end r /\ cursor < stop;
  splits_within : Forall (fun g => cursor <= g.1 < g.2 /\ g.2 <= stop) gs;
  splits_gap : forall t, cursor <= t < stop -> Exists (in_range t) gs <-> ~ Exists (covers t) candidates;
  splits_covered : forall t, cursor <= t < stop -> Exists (covers t) candidates -> Exists (covers t) ds;
  splits_ordered : StronglySorted (fun a b => rd_end a < rd_end b) ds;
  splits_disjoint : StronglySorted (fun a b => a.2 <= b.1) gs;
  splits_maximal : Forall (fun g => g.2 = stop \/ exists r, r ∈ candidates /\ rd_start r = g.2) gs;
}.

Lemma splits_done candidates cursor stop : stop <= cursor -> splits candidates cursor stop [] [].
Proof. intros. split; try (by constructor); try (intros; lia). by intros r Hr%not_elem_of_nil. Qed.

(** One round: a descriptor that reaches furthest from [cursor]. *)
Lemma splits_select candidates cursor stop r ds gs :
  cursor < stop -> r ∈ candidates -> covers cursor r ->
  (forall x, x ∈ candidates -> covers cursor x -> rd_end x <= rd_end r) ->
  splits candidates (Z.min (rd_end r) stop) stop ds gs -> splits candidates cursor stop (r :: ds) gs.
Proof.
  intros Hc Hr Hcov Hmax [Hfrom Hin Hgap Hds Hord Hdis Hend]. unfold covers in *. split.
  - intros x [->|Hx]%elem_of_cons; [split; [done|lia]|]. destruct (Hfrom x Hx) as (? & ? & ? & ?). split; [done|lia].
  - eapply Forall_impl; [exact Hin|]. cbn. intros g Hg. lia.
  - intros t Ht. destruct (decide (t < Z.min (rd_end r) stop)) as [Hlt|]; [|apply Hgap; lia]. split.
    + intros Hex. exfalso. apply Exists_exists in Hex as (g & Hg & Hgt). rewrite Forall_forall in Hin.
      specialize (Hin g Hg). unfold in_range in Hgt. lia.
    + intros Hno. destruct Hno. apply Exists_exists. exists r. split; [done|]. unfold covers. lia.
  - intros t Ht Hex. destruct (decide (t < Z.min (rd_end r) stop)) as [Hlt|].
    + apply Exists_cons_hd. unfold covers. lia.
    + apply Exists_cons_tl, Hds; [lia|done].
  - constructor; [done|]. apply Forall_forall. intros x Hx. destruct (Hfrom x Hx) as (? & ? & ? & ?). lia.
  - done.
  - done.
Qed.

(** One round: a gap up to the next candidate. *)
Lemma splits_gap_round candidates cursor gap_end stop ds gs :
  cursor < gap_end <= stop -> (forall t, cursor <= t < gap_end -> ~ Exists (covers t) candidates) ->
  (gap_end = stop \/ exists r, r ∈ candidates /\ rd_start r = gap_end) ->
  splits candidates gap_end stop ds gs -> splits candidates cursor stop ds ((cursor, gap_end) :: gs).
Proof.
  intros Hc Hno Hmx [Hfrom Hin Hgap Hds Hord Hdis Hend]. split.
  - intros x Hx. destruct (Hfrom x Hx) as (? & ? & ? & ?). split; [done|lia].
  - constructor; [cbn; lia|]. eapply Forall_impl; [exact Hin|]. cbn. intros g Hg. lia.
  - intros t Ht. destruct (decide (t < gap_end)) as [Hlt|].
    + split; [intros _; apply Hno; lia|]. intros _. apply Exists_cons_hd. unfold in_range. cbn. lia.
    + rewrite <- (Hgap t) by lia. split; [|by apply Exists_cons_tl].
      intros [Hg|Hg]%Exists_cons; [unfold in_range in Hg; cbn in Hg; lia|done].
  - intros t Ht Hex. destruct (decide (t < gap_end)) as [Hlt|]; [|apply Hds; [lia|done]].
    exfalso. by apply (Hno t ltac:(lia)).
  - done.
  - constructor; [done|]. eapply Forall_impl; [exact Hin|]. cbn. intros g Hg. lia.
  - by constructor.
Qed.

Lemma cover_from_splits fuel candidates cursor stop plan :
  (cursor < stop -> (ahead rd_end cursor candidates + ahead rd_start cursor candidates < fuel)%nat) ->
  exists ds gs, cover_from fuel candidates cursor stop plan = mkCoverage (descriptors plan ++ ds) (gaps plan ++ gs)
    /\ splits candidates cursor stop ds gs.
Proof.
  revert cursor plan. induction fuel as [|fuel IH]; intros cursor plan Hm; cbn [cover_from].
  - destruct (decide (cursor < stop)) as [Hlt|]; [specialize (Hm Hlt); lia|].
    exists [], []. rewrite !app_nil_r. split; [by destruct plan|]. apply splits_done. lia.
  - destruct (Z.ltb_spec cursor stop) as [Hlt|Hge]; cycle 1.
    { exists [], []. rewrite !app_nil_r. split; [by destruct plan|]. by apply splits_done. }
    specialize (Hm Hlt).
    pose proof (furthest_spec (List.filter (fun r => (rd_start r <=? cursor) && (cursor <? rd_end r)) candidates)) as Hf.
    destruct (furthest _) as [r|].
    + destruct Hf as [Hr Hmax]. apply list_elem_of_In, filter_In in Hr as [Hr Hcov]. apply list_elem_of_In in Hr. zbool.
      destruct (IH (Z.min (rd_end r) stop) (mkCoverage (descriptors plan ++ [r]) (gaps plan))) as (ds & gs & -> & Hsp).
      { intros Hlt'. pose proof (ahead_pass rd_end cursor (Z.min (rd_end r) stop) candidates r Hr ltac:(lia) ltac:(lia)).
        pose proof (ahead_mono rd_start cursor (Z.min (rd_end r) stop) candidates ltac:(lia)). lia. }
      exists (r :: ds), gs. cbn. rewrite <- app_assoc. split; [done|].
      eapply splits_select; [done|done|unfold covers; lia| |done].
      intros x Hx Hcx. apply Hmax. apply list_elem_of_In, filter_In. split; [by apply list_elem_of_In|].
      unfold covers in Hcx. apply andb_true_iff. rewrite Z.leb_le, Z.ltb_lt. lia.
    + set (gap_end := Z.min (default stop _) stop).
      assert (Hge : cursor < gap_end <= stop /\ (forall x, x ∈ candidates -> cursor < rd_start x -> gap_end <= rd_start x)
                    /\ (gap_end < stop -> exists x, x ∈ candidates /\ rd_start x = gap_end)).
      { unfold gap_end. pose proof (least_spec (map rd_start (List.filter (fun r => cursor <? rd_start r) candidates))) as Hl.
        destruct (least _) as [z|] eqn:El; cbn [from_option id].
        - destruct Hl as [Hz Hmin]. apply list_elem_of_In, in_map_iff in Hz as (x & <- & Hx).
          apply filter_In in Hx as [Hx Hcx]. zbool. split; [lia|]. split.
          + intros y Hy Hcy. etrans; [apply Z.le_min_l|]. apply Hmin, list_elem_of_In, in_map, filter_In.
            split; [by apply list_elem_of_In|lia].
          + intros ?. exists x. split; [by apply list_elem_of_In|lia].
        - split; [lia|]. split; [|lia]. intros y Hy Hcy. apply map_eq_nil in Hl.
          assert (Hin : In y (List.filter (fun r => cursor <? rd_start r) candidates))
            by (apply filter_In; split; [by apply list_elem_of_In|lia]). by rewrite Hl in Hin. }
      destruct Hge as (Hge & Hnext & Hex).
      destruct (IH gap_end (mkCoverage (descriptors plan) (gaps plan ++ [(cursor, gap_end)]))) as (ds & gs & -> & Hsp).
      { intros Hlt'. destruct (Hex Hlt') as (x & Hx & Ex).
        pose proof (ahead_pass rd_start cursor gap_end candidates x Hx ltac:(lia) ltac:(lia)).
        pose proof (ahead_mono rd_end cursor gap_end candidates ltac:(lia)). lia. }
      exists ds, ((cursor, gap_end) :: gs). cbn. rewrite <- app_assoc. split; [done|].
      apply splits_gap_round;
        [done| |destruct (decide (gap_end < stop)) as [Hl|]; [right; by apply Hex|left; lia]|done]. intros t Ht (x & Hx & Hcx)%Exists_exists. unfold covers in Hcx.
      destruct (decide (rd_start x <= cursor)) as [Hs|Hs]; [|specialize (Hnext x Hx ltac:(lia)); lia].
      assert (Hin : In x (List.filter (fun r => (rd_start r <=? cursor) && (cursor <? rd_end r)) candidates)).
      { apply filter_In. split; [by apply list_elem_of_In|]. apply andb_true_iff. rewrite Z.leb_le, Z.ltb_lt. lia. }
      by rewrite Hf in Hin.
Qed.

Lemma ahead_length f cursor l : (ahead f cursor l <= length l)%nat.
Proof. apply List.filter_length_le. Qed.

Lemma splits_perm l k cursor stop ds gs : l ≡ₚ k -> splits l cursor stop ds gs -> splits k cursor stop ds gs.
Proof.
  intros Hp [Hfrom Hin Hgap Hds Hord Hdis Hend].
  assert (He : forall P, Exists P l <-> Exists P k) by (intros P; rewrite !Exists_exists; by setoid_rewrite Hp).
  split; [by setoid_rewrite <- Hp|done|by setoid_rewrite <- He|by setoid_rewrite <- He|done|done|by setoid_rewrite <- Hp].
Qed.

Lemma coverage_plan_splits candidates start stop :
  splits candidates start stop (descriptors (coverage_plan candidates start stop)) (gaps (coverage_plan candidates start stop)).
Proof.
  unfold coverage_plan. destruct (Z.leb_spec stop start); [by apply splits_done|].
  destruct (cover_from_splits (S (2 * length candidates)) (stable_sort range_leb candidates) start stop (mkCoverage [] []))
    as (ds & gs & -> & Hsp).
  - intros _. pose proof (ahead_length rd_end start (stable_sort range_leb candidates)).
    pose proof (ahead_length rd_start start (stable_sort range_leb candidates)).
    rewrite (Permutation_length (stable_sort_perm range_leb candidates)) in *. lia.
  - eapply splits_perm; [apply stable_sort_perm|exact Hsp].
Qed.
