(* ===== verification/Locality.v ===== *)
(** * Locality: a range of buckets needs only the points around it

    The buckets inside a range are determined by the points of the range and
    of one maximum gap on either side.  This is what lets the store rebuild a
    shard, or fill a gap of a query, without reading the whole series. *)
From S2P Require Import Prelude Errors Bytes Float64 Model Transaction Query Aggregate Rollup.
From S2P Require Import Segment Manifest Planner.

(** ** Folds that leave part of a map alone *)

Section Agree.
Context {V X : Type} (K : Z -> Prop) (f : gmap Z V -> X -> Result (gmap Z V)).

Definition agree (m1 m2 : gmap Z V) : Prop := forall k, K k -> m1 !! k = m2 !! k.
Definition stays (x : X) : Prop := forall m m', f m x = Ok m' -> agree m m'.
Definition frames (x : X) : Prop :=
  forall m1 m2 m1', agree m1 m2 -> f m1 x = Ok m1' -> exists m2', f m2 x = Ok m2' /\ agree m1' m2'.

Lemma agree_trans m1 m2 m3 : agree m1 m2 -> agree m2 m3 -> agree m1 m3.
Proof. intros H1 H2 k Hk. by rewrite H1, H2. Qed.
Lemma agree_sym m1 m2 : agree m1 m2 -> agree m2 m1.
Proof. intros H1 k Hk. by rewrite H1. Qed.

Lemma fold_stays l m m' : Forall stays l -> try_fold f m l = Ok m' -> agree m m'.
Proof.
  intros Hl. revert m. induction Hl as [|x l Hx _ IH]; intros m; cbn; [by intros [= <-]|].
  intros (m1 & H1 & H2)%bind_Ok. eapply agree_trans; [by apply Hx|by apply IH].
Qed.

Lemma fold_frames l m1 m2 m1' :
  Forall frames l -> agree m1 m2 -> try_fold f m1 l = Ok m1' -> exists m2', try_fold f m2 l = Ok m2' /\ agree m1' m2'.
Proof.
  intros Hl. revert m1 m2. induction Hl as [|x l Hx _ IH]; intros m1 m2 Ha; cbn.
  - intros [= <-]. by exists m2.
  - intros (n1 & H1 & H2)%bind_Ok. destruct (Hx _ _ _ Ha H1) as (n2 & E & Ha').
    rewrite E. cbn. by eapply IH.
Qed.

(** Only the middle of the list matters. *)
Lemma fold_middle pre mid post m0 m m' :
  Forall stays pre -> Forall frames mid -> Forall stays post -> agree m0 m ->
  try_fold f m0 (pre ++ mid ++ post) = Ok m' -> exists m2, try_fold f m mid = Ok m2 /\ agree m' m2.
Proof.
  intros Hpre Hmid Hpost Ha. rewrite !try_fold_app. intros (m1 & H1 & H2)%bind_Ok.
  rewrite try_fold_app in H2. apply bind_Ok in H2 as (m3 & H2 & H3).
  destruct (fold_frames mid m1 m m3 Hmid) as (m4 & E & Ha4); [|done|].
  - eapply agree_trans; [apply agree_sym, (fold_stays pre _ _ Hpre H1)|done].
  - exists m4. split; [done|]. eapply agree_trans; [apply agree_sym, (fold_stays post _ _ Hpost H3)|done].
Qed.
End Agree.

(** ** Adjacent pairs *)

Definition crossing {A} (l k : list A) : list (A * A) :=
  match last l, head k with Some x, Some y => [(x, y)] | _, _ => [] end.

Lemma windows2_app {A} (l k : list A) : windows2 (l ++ k) = windows2 l ++ crossing l k ++ windows2 k.
Proof.
  induction l as [|x l IH]; [done|]. destruct l as [|y l].
  - by destruct k.
  - change (windows2 ((x :: y :: l) ++ k)) with ((x, y) :: windows2 ((y :: l) ++ k)). rewrite IH.
    unfold crossing. by rewrite last_cons_cons.
Qed.

Lemma windows2_elem {A} (l : list A) pr : pr ∈ windows2 l -> pr.1 ∈ l /\ pr.2 ∈ l.
Proof.
  induction l as [|x l IH]; [intros Hp; inversion Hp|]. destruct l as [|y l]; [intros Hp; inversion Hp|].
  cbn [windows2]. intros [->|Hp]%elem_of_cons; [set_solver|]. apply IH in Hp. set_solver.
Qed.

Lemma crossing_elem {A} (l k : list A) pr : pr ∈ crossing l k -> pr.1 ∈ l /\ pr.2 ∈ k.
Proof.
  unfold crossing. destruct (last l) eqn:El; [|by intros ?%not_elem_of_nil].
  destruct k as [|y k]; [by intros ?%not_elem_of_nil|]. cbn. intros ->%list_elem_of_singleton.
  split; [by apply last_Some_elem_of|apply list_elem_of_here].
Qed.

(** ** Buckets inside a range *)

Section Local.
Context (bounds : Z -> Result (Z * Z)) (coverage_error gap_error : string) (minimum : Z).
Context {part : Partition bounds minimum}.
Context (lo hi : Z).

(** The keys of the buckets inside [lo, hi). *)
Definition inside_key (k : Z) : Prop := exists e, bucket_of bounds k (k, e) /\ lo <= k /\ e <= hi.
Abbreviation agree := (agree inside_key).

Lemma outside_key t s e : bucket_of bounds t (s, e) -> t < lo \/ hi <= t -> ~ inside_key s.
Proof using part.
  intros Hb Ht (e' & Hb' & Hlo & Hhi). pose proof (bounds_contains bounds minimum _ _ _ Hb) as Hc.
  pose proof (bucket_of_unique bounds _ _ _ (bounds_start bounds minimum _ _ _ Hb) Hb') as [= ->]. lia.
Qed.

Lemma update_bucket_frames m1 m2 bk f : agree m1 m2 -> agree (update_bucket m1 bk f) (update_bucket m2 bk f).
Proof using Type.
  intros Ha k Hk. unfold update_bucket. destruct (decide (k = bk.1)) as [->|Hne].
  - by rewrite !lookup_insert_eq, (Ha _ Hk).
  - rewrite !lookup_insert_ne by done. by apply Ha.
Qed.

Lemma update_bucket_stays m bk f : ~ inside_key bk.1 -> agree m (update_bucket m bk f).
Proof using Type. intros Hk k Hin. unfold update_bucket. rewrite lookup_insert_ne; [done|]. by intros <-. Qed.

Lemma add_interval_frames fuel m1 m2 start stop v m1' :
  agree m1 m2 -> add_interval bounds coverage_error fuel m1 start stop v = Ok m1' ->
  exists m2', add_interval bounds coverage_error fuel m2 start stop v = Ok m2' /\ agree m1' m2'.
Proof using Type.
  revert m1 m2 start. induction fuel as [|fuel IH]; intros m1 m2 start Ha; cbn [add_interval];
    (destruct (start <? stop); [|intros [= <-]; by exists m2]); [done|].
  intros (b & -> & H2)%bind_Ok. apply bind_Ok in H2 as (dur & E & H2). cbn [bind]. rewrite E. cbn [bind].
  eapply IH; [|exact H2]. by apply update_bucket_frames.
Qed.

Lemma add_interval_stays fuel m start stop v m' :
  add_interval bounds coverage_error fuel m start stop v = Ok m' -> is_i64 start -> stop <= lo \/ hi <= start ->
  agree m m'.
Proof using part.
  revert m start. induction fuel as [|fuel IH]; intros m start; cbn [add_interval];
    (destruct (Z.ltb_spec start stop); [|by intros [= <-]]); [done|].
  intros ([s e] & Hb & H2)%bind_Ok Hi Hout. apply bind_Ok in H2 as (dur & E & H2). cbn [snd] in H2.
  assert (Hbk : bucket_of bounds start (s, e)) by done.
  pose proof (bounds_contains bounds minimum _ _ _ Hbk). pose proof (bounds_i64 bounds minimum _ _ _ Hbk) as Hie.
  eapply agree_trans; [|eapply IH; [exact H2|unfold is_i64 in *; lia|lia]].
  apply update_bucket_stays. eapply (outside_key start); [exact Hbk|]. lia.
Qed.

Context (fuel : Z -> nat) (max_gap : Z).
Abbreviation point_step := (add_point bounds).
Abbreviation pair_step := (add_pair bounds coverage_error gap_error fuel max_gap).

Lemma add_point_frames p : frames inside_key point_step p.
Proof using Type.
  intros m1 m2 m1' Ha (b & E & [= <-])%bind_Ok. eexists. unfold add_point. rewrite E. cbn [bind].
  split; [done|]. by apply update_bucket_frames.
Qed.

Lemma add_point_stays p : is_i64 (valid_time p) -> valid_time p < lo \/ hi <= valid_time p -> stays inside_key point_step p.
Proof using part.
  intros Hi Hout m m' ([s e] & E & [= <-])%bind_Ok. apply update_bucket_stays. by eapply (outside_key (valid_time p)).
Qed.

Lemma add_pair_frames pr : frames inside_key pair_step pr.
Proof using Type.
  destruct pr as [p q]. intros m1 m2 m1' Ha. unfold add_pair. destruct (i64_checked_sub _ _) as [g|]; [|done].
  destruct (_ || _); [intros [= <-]; by exists m2|]. by apply add_interval_frames.
Qed.

Lemma add_pair_stays p q :
  is_i64 (valid_time p) ->
  (valid_time q - valid_time p <= max_gap -> valid_time q <= lo \/ hi <= valid_time p) -> stays inside_key pair_step (p, q).
Proof using part.
  intros Hi Hout m m'. unfold add_pair, i64_checked_sub. destruct (i64_checked _) as [g|] eqn:Hg; [|done].
  apply i64_checked_Some in Hg as [-> _]. destruct (_ || _) eqn:Hskip; [by intros [= <-]|]. zbool.
  intros H2. eapply add_interval_stays; [exact H2|done|]. apply Hout. lia.
Qed.

(** The buckets of a whole series. *)
Definition build (points : list Point) : Result (gmap Z GaugeBucket) :=
  let ordered := sort_by_valid_time points in
  let? m := try_fold point_step ∅ ordered in try_fold pair_step m (windows2 ordered).

(** The points that a range of buckets depends on. *)
Definition context (p : Point) : bool :=
  (i64_saturating_sub lo max_gap <=? valid_time p) && (valid_time p <? i64_saturating_add hi (Z.max max_gap 1)).

Lemma build_middle pre mid post m :
  Forall (fun p => is_i64 (valid_time p) /\ valid_time p < lo - max_gap) pre ->
  Forall (fun p => is_i64 (valid_time p) /\ lo - max_gap <= valid_time p) mid ->
  Forall (fun p => is_i64 (valid_time p) /\ hi + Z.max max_gap 1 <= valid_time p) post ->
  0 <= max_gap -> lo <= hi ->
  (let? m := try_fold point_step ∅ (pre ++ mid ++ post) in try_fold pair_step m (windows2 (pre ++ mid ++ post))) = Ok m ->
  exists m', (let? m := try_fold point_step ∅ mid in try_fold pair_step m (windows2 mid)) = Ok m' /\ agree m m'.
Proof using part.
  intros Hpre Hmid Hpost Hg Hr (m1 & H1 & H2)%bind_Ok. rewrite Forall_forall in Hpre, Hmid, Hpost.
  eapply fold_middle with (m := ∅) in H1 as (m1' & E1 & Ha1);
    [ |apply Forall_forall; intros p Hp; apply add_point_stays; [by apply Hpre|left; specialize (Hpre p Hp); lia]
      |apply Forall_forall; intros; apply add_point_frames
      |apply Forall_forall; intros p Hp; apply add_point_stays; [by apply Hpost|right; specialize (Hpost p Hp); lia]|done].
  rewrite E1. cbn [bind].
  assert (Hstays : forall l, (forall pr, pr ∈ l -> is_i64 (valid_time pr.1) /\
      (valid_time pr.2 - valid_time pr.1 <= max_gap -> valid_time pr.2 <= lo \/ hi <= valid_time pr.1)) ->
      Forall (stays inside_key pair_step) l).
  { intros l Hl. apply Forall_forall. intros [p q] Hp. by apply add_pair_stays; apply (Hl _ Hp). }
  assert (Epairs : exists a b, windows2 (pre ++ mid ++ post) = a ++ windows2 mid ++ b
      /\ Forall (stays inside_key pair_step) a /\ Forall (stays inside_key pair_step) b).
  { exists (windows2 pre ++ crossing pre (mid ++ post)), (crossing mid post ++ windows2 post).
    rewrite !windows2_app, !app_assoc. split; [done|]. split; apply Hstays.
    - intros pr [[Hp Hq]%windows2_elem|[Hp Hq]%crossing_elem]%elem_of_app.
      + pose proof (Hpre _ Hp). pose proof (Hpre _ Hq). split; [tauto|lia].
      + pose proof (Hpre _ Hp). split; [tauto|]. lia.
    - intros pr [[Hp Hq]%crossing_elem|[Hp Hq]%windows2_elem]%elem_of_app.
      + pose proof (Hmid _ Hp). pose proof (Hpost _ Hq). split; [tauto|]. lia.
      + pose proof (Hpost _ Hp). split; [tauto|]. lia. }
  destruct Epairs as (a & b & Ep & Hsa & Hsb). rewrite Ep in H2.
  eapply fold_middle with (m := m1') in H2 as (m2 & E2 & Ha2); [by exists m2|done| |done|done].
  apply Forall_forall. intros. apply add_pair_frames.
Qed.
End Local.

(** ** The points around a range *)

Lemma sorted_split l a b :
  StronglySorted (fun p q => (valid_time p <=? valid_time q) = true) l -> a <= b ->
  l = List.filter (fun p => valid_time p <? a) l
      ++ List.filter (fun p => (a <=? valid_time p) && (valid_time p <? b)) l
      ++ List.filter (fun p => b <=? valid_time p) l.
Proof.
  intros Hs Hab. induction Hs as [|p l _ IH Hp]; [done|]. cbn [List.filter].
  destruct (Z.ltb_spec (valid_time p) a) as [H1|H1].
  { destruct (Z.leb_spec a (valid_time p)), (Z.leb_spec b (valid_time p)); try lia. cbn. by rewrite <- IH. }
  assert (Hge : Forall (fun q => valid_time p <= valid_time q) l).
  { eapply Forall_impl; [exact Hp|]. cbn. intros q Hq. zbool. lia. }
  assert (Enil : List.filter (fun p => valid_time p <? a) l = []).
  { apply filter_none. eapply Forall_impl; [exact Hge|]. cbn. intros q Hq. apply Z.ltb_ge. lia. }
  rewrite Enil in *. destruct (Z.leb_spec a (valid_time p)); [|lia].
  destruct (Z.ltb_spec (valid_time p) b) as [H2|H2]; destruct (Z.leb_spec b (valid_time p)); try lia; cbn.
  - cbn [app] in IH. by rewrite <- IH.
  - assert (Enil2 : List.filter (fun p => (a <=? valid_time p) && (valid_time p <? b)) l = []).
    { apply filter_none. eapply Forall_impl; [exact Hge|]. cbn. intros q Hq.
      apply andb_false_iff. right. apply Z.ltb_ge. lia. }
    rewrite Enil2 in *. cbn in *. by rewrite <- IH.
Qed.

(** Maps that agree on the keys of a range have the same values there. *)
Definition inside (lo hi : Z) (b : GaugeBucket) : bool := (lo <=? b_start b) && (b_end b <=? hi).

Lemma strict_unique {A} (key : A -> Z) (l k : list A) :
  StronglySorted (fun a b => key a < key b) l -> StronglySorted (fun a b => key a < key b) k ->
  (forall x, x ∈ l <-> x ∈ k) -> l = k.
Proof.
  intros Hl. revert k. induction Hl as [|x l _ IH Hx]; intros k Hk Hiff.
  - destruct k as [|y k]; [done|]. exfalso. by apply (not_elem_of_nil y), Hiff, list_elem_of_here.
  - destruct Hk as [|y k Hk Hy]; [exfalso; by apply (not_elem_of_nil x), Hiff, list_elem_of_here|].
    rewrite Forall_forall in Hx, Hy.
    assert (x = y) as ->.
    { destruct (proj1 (elem_of_cons k x y) (proj1 (Hiff x) (list_elem_of_here _ _))) as [->|Hxk]; [done|].
      destruct (proj1 (elem_of_cons l y x) (proj2 (Hiff y) (list_elem_of_here _ _))) as [->|Hyl]; [done|].
      specialize (Hx _ Hyl). specialize (Hy _ Hxk). lia. }
    f_equal. apply IH; [done|]. intros z. split; intros Hz.
    + destruct (proj1 (elem_of_cons k z y) (proj1 (Hiff z) (list_elem_of_further _ _ _ Hz))) as [->|]; [|done].
      specialize (Hx _ Hz). lia.
    + destruct (proj1 (elem_of_cons l z y) (proj2 (Hiff z) (list_elem_of_further _ _ _ Hz))) as [->|]; [|done].
      specialize (Hy _ Hz). lia.
Qed.

Lemma filter_map_snd (p : GaugeBucket -> bool) (l : list (Z * GaugeBucket)) :
  List.filter p (l.*2) = (List.filter (fun x => p x.2) l).*2.
Proof. induction l as [|[k v] l IH]; [done|]. cbn. destruct (p v); cbn; by rewrite IH. Qed.

Lemma StronglySorted_filter {A} (R : A -> A -> Prop) (p : A -> bool) l :
  StronglySorted R l -> StronglySorted R (List.filter p l).
Proof.
  induction 1 as [|x l _ IH Hx]; cbn; [constructor|]. destruct (p x); [|done]. constructor; [done|].
  apply Forall_forall. intros y Hy%list_elem_of_In%filter_In. rewrite Forall_forall in Hx. apply Hx, list_elem_of_In, Hy.
Qed.

Lemma inside_values bounds minimum `{!Partition bounds minimum} lo hi m1 m2 :
  wf_buckets bounds m1 -> wf_buckets bounds m2 -> agree (inside_key bounds lo hi) m1 m2 ->
  List.filter (inside lo hi) (btree_values m1) = List.filter (inside lo hi) (btree_values m2).
Proof.
  intros Hw1 Hw2 Ha. unfold btree_values. rewrite !filter_map_snd. f_equal.
  apply (strict_unique fst); [apply StronglySorted_filter, btree_to_list_sorted..|].
  assert (Hdir : forall m1 m2, wf_buckets bounds m1 -> agree (inside_key bounds lo hi) m1 m2 -> forall x,
    x ∈ List.filter (fun x => inside lo hi x.2) (btree_to_list m1) ->
    x ∈ List.filter (fun x => inside lo hi x.2) (btree_to_list m2)).
  { intros n1 n2 Hw Hag [k b] Hx. apply list_elem_of_In, filter_In in Hx as [Hx Hin].
    apply list_elem_of_In, filter_In. split; [|done]. cbn in Hin.
    apply list_elem_of_In, elem_of_btree_to_list in Hx. apply list_elem_of_In, elem_of_btree_to_list.
    rewrite <- Hag; [done|]. destruct (Hw _ _ Hx) as [Es Hb]. unfold inside in Hin. zbool.
    exists (b_end b). split; [done|]. lia. }
  intros x. split; [by apply Hdir|]. apply Hdir; [done|by apply agree_sym].
Qed.

Section Tiers.
Context `{TimeZones}.

(** What the two kinds of resolution put into the shared loops. *)
Definition tier_bounds (res : RollupResolution) (t : Z) : Result (Z * Z) :=
  match res with FixedMicros micros => fixed_bounds micros t | Calendar unit tz => calendar_bucket_bounds t unit tz end.
Definition tier_errors (res : RollupResolution) : string * string :=
  match res with
  | FixedMicros _ => ("rollup coverage overflows", "rollup sample timestamps overflow a gap")
  | Calendar _ _ => ("calendar coverage overflows", "calendar sample timestamps overflow a gap")
  end%string.
(** A tier whose buckets partition time: a fixed one, or a calendar tier in a
    zone where no clock change skips or repeats midnight. *)
Definition regular_tier (res : RollupResolution) : Prop :=
  match res with
  | FixedMicros micros => 0 < micros /\ is_i64 micros
  | Calendar unit tz => inhabited (CalendarZone unit tz)
  end.

Lemma regular_partition res : regular_tier res -> exists minimum, Partition (tier_bounds res) minimum.
Proof.
  destruct res as [micros|unit tz]; cbn; [intros [Hp Hi]; exists micros; by apply fixed_partition|].
  intros [Hz]. exists hour_micros. exact (calendar_partition unit tz).
Qed.

Definition tier_fuel (res : RollupResolution) (gap : Z) : nat :=
  match res with FixedMicros micros => fixed_fuel micros gap | Calendar _ _ => calendar_fuel gap end.
Definition tier_check (res : RollupResolution) (max_gap : Z) : Result unit :=
  match res with
  | FixedMicros micros =>
      reject (micros <=? 0) (InvalidModel (text "fixed rollup resolution must be positive")) ;?
      reject (micros <=? 0) (InvalidArgument "fixed rollup resolution must be positive") ;?
      reject (max_gap <? 0) (InvalidArgument "fixed rollup maximum gap must not be negative")
  | Calendar _ tz =>
      reject (max_gap <? 0) (InvalidArgument "calendar rollup maximum gap must not be negative") ;?
      reject (negb (tz_exists tz)) (InvalidModel (text "invalid calendar rollup: {error}"))
  end.
Definition tier_build (res : RollupResolution) (max_gap : Z) (points : list Point) : Result (gmap Z GaugeBucket) :=
  build (tier_bounds res) (tier_errors res).1 (tier_errors res).2 (tier_fuel res) max_gap points.

Lemma materialize_build points res max_gap :
  materialize points res max_gap
  = (tier_check res max_gap ;? let? m := tier_build res max_gap points in Ok (btree_values m)).
Proof.
  destruct res as [micros|unit tz]; cbn [materialize tier_check tier_bounds];
    unfold fixed_build, calendar_build, tier_build, build; cbn [tier_bounds tier_errors tier_fuel fst snd].
  - destruct (reject _ _) as [[]|]; cbn [bind]; [|done]. destruct (reject _ _) as [[]|]; cbn [bind]; [|done].
    destruct (reject _ _) as [[]|]; cbn [bind]; [|done]. destruct (try_fold _ _ _) as [m|]; cbn [bind]; [|done].
    by destruct (try_fold _ m _).
  - destruct (reject _ _) as [[]|]; cbn [bind]; [|done]. destruct (reject _ _) as [[]|]; cbn [bind]; [|done].
    change (fun t => tier_bounds (Calendar unit tz) t) with (fun t => calendar_bucket_bounds t unit tz).
    destruct (try_fold _ _ _) as [m|]; cbn [bind]; [|done]. by destruct (try_fold _ m _).
Qed.

Lemma tier_check_Ok res max_gap : tier_check res max_gap = Ok tt -> 0 <= max_gap.
Proof.
  destruct res; unfold tier_check; intros ([] & Hr & Hc)%bind_Ok.
  - apply bind_Ok in Hc as ([] & _ & Hc). apply reject_Ok in Hc. zbool. lia.
  - apply reject_Ok in Hr. zbool. lia.
Qed.

Lemma tier_build_wf res minimum `{!Partition (tier_bounds res) minimum} max_gap points m :
  tier_build res max_gap points = Ok m -> Forall (fun p => is_i64 (valid_time p)) points ->
  wf_buckets (tier_bounds res) m.
Proof.
  unfold tier_build, build. intros (m1 & H1 & H2)%bind_Ok Ht.
  assert (Hs : Forall (fun p => is_i64 (valid_time p)) (sort_by_valid_time points)).
  { apply Forall_forall. intros p. unfold sort_by_valid_time. rewrite stable_sort_perm. revert p. by apply Forall_forall. }
  eapply add_points_count in H1 as (Hw & _); [|done|done|intros k b Hk; by rewrite lookup_empty in Hk].
  eapply add_pairs_covered in H2 as (Hw2 & _); [done|done| |done].
  apply Forall_forall. intros pr [Hp _]%windows2_elem. rewrite Forall_forall in Hs. by apply Hs.
Qed.

(** The buckets inside a range are those of the points around the range. *)
Lemma materialize_local res minimum `{!Partition (tier_bounds res) minimum} max_gap points lo hi full :
  materialize points res max_gap = Ok full -> Forall (fun p => is_i64 (valid_time p)) points ->
  lo <= hi -> hi + Z.max max_gap 1 <= i64_max ->
  exists near, materialize (List.filter (context lo hi max_gap) points) res max_gap = Ok near
    /\ List.filter (inside lo hi) near = List.filter (inside lo hi) full.
Proof.
  rewrite !materialize_build. intros ([] & Hc & Hb)%bind_Ok Ht Hr Hhi. apply bind_Ok in Hb as (m & Hb & [= <-]).
  pose proof (tier_check_Ok _ _ Hc) as Hg. rewrite Hc. cbn [bind].
  set (mid := List.filter (context lo hi max_gap) points).
  set (a := i64_saturating_sub lo max_gap). set (b := i64_saturating_add hi (Z.max max_gap 1)).
  set (sorted := sort_by_valid_time points).
  assert (Hab : a <= b) by (unfold a, b, i64_saturating_sub, i64_saturating_add, i64_min, i64_max in *; lia).
  pose proof (sorted_split sorted a b (sort_by_valid_time_sorted points) Hab) as Es.
  set (pre := List.filter (fun p => valid_time p <? a) sorted) in Es.
  set (post := List.filter (fun p => b <=? valid_time p) sorted) in Es.
  assert (Em : List.filter (fun p => (a <=? valid_time p) && (valid_time p <? b)) sorted = sort_by_valid_time mid).
  { unfold sorted, sort_by_valid_time, mid, context. apply filter_stable_sort; intros; rewrite !Z.leb_le in *; lia. }
  rewrite Em in Es. 
  assert (Hs : forall p, p ∈ sorted -> is_i64 (valid_time p)).
  { intros p. unfold sorted, sort_by_valid_time. rewrite stable_sort_perm. revert p. by apply Forall_forall. }
  assert (Hb' := Hb). unfold tier_build, build in Hb'. fold sorted in Hb'. rewrite Es in Hb'.
  eapply (build_middle _ _ _ minimum lo hi) in Hb' as (m' & E & Ha); [| | | |done|done].
  - change (tier_build res max_gap mid = Ok m') in E. rewrite E. cbn [bind]. eexists. split; [done|].
    symmetry. eapply (inside_values (tier_bounds res) minimum); [by eapply tier_build_wf|eapply tier_build_wf; [done|exact E|]|done].
    apply Forall_forall. intros p Hp%list_elem_of_In%filter_In. rewrite Forall_forall in Ht. apply Ht, list_elem_of_In, Hp.
  - apply Forall_forall. intros p Hp. apply list_elem_of_In, filter_In in Hp as [Hp Hlt]. apply list_elem_of_In, Hs in Hp.
    zbool. unfold a, i64_saturating_sub, i64_min, i64_max, is_i64 in *. lia.
  - apply Forall_forall. intros p Hp. rewrite <- Em in Hp. apply list_elem_of_In, filter_In in Hp as [Hp Hlt].
    apply list_elem_of_In, Hs in Hp. zbool. unfold a, i64_saturating_sub, i64_min, i64_max, is_i64 in *. lia.
  - apply Forall_forall. intros p Hp. apply list_elem_of_In, filter_In in Hp as [Hp Hlt]. apply list_elem_of_In, Hs in Hp.
    zbool. unfold b, i64_saturating_add, i64_min, i64_max, is_i64 in *. lia.
Qed.
End Tiers.
