(* ===== verification/Scan.v ===== *)
(** * Scan: replay and recovery of the write-ahead log ([src/src/storage.rs])

    [scan_log] reads the frames of a log in order, checks each one, replays it
    into the in-memory state, and either recovers from a torn tail or stops at
    the first frame that cannot be trusted (salvage). *)
From S2P Require Import Prelude Errors Bytes Float64 Model Transaction Catalog Query Codec Effects.

(** ** Receipts *)

Record Commit := mkCommit {
  cm_frame_offset : Z;
  cm_points : Z;
  cm_records : Z;
  cm_bytes_written : Z;
  cm_durable : bool;
  cm_deduplicated : bool;
}.

(** [IngressKey] is the pair of a source and a sequence. *)
Abbreviation IngressKey := (Z * Z)%type.
Definition key_of (i : IngressIdentity) : IngressKey := (source_id i, sequence i).

Record StoredIngressReceipt := mkIngressReceipt {
  ir_identity : IngressIdentity;
  ir_canonical_payload_offset : Z;
  ir_canonical_payload_len : Z;
  ir_canonical_payload_crc32 : Z;
  ir_compact_payload : option bytes;
  ir_commit : Commit;
}.

Record StoredIdentifiedReceipt := mkIdentifiedReceipt {
  dr_payload_offset : Z;
  dr_payload_len : Z;
  dr_payload_crc32 : Z;
  dr_compact_payload : option bytes;
  dr_commit : Commit;
}.

Inductive RecoveredTail := TailNone | IncompleteHeader | IncompletePayload.

Inductive SalvageStopReason :=
  | CleanEof
  | IncompleteFrameHeader
  | InvalidFrameMagic
  | UnsupportedFrameVersion
  | FrameHeaderChecksumMismatch
  | InvalidLegacyFrameSize
  | InvalidLegacyPoint
  | TransactionFrameTooLarge
  | IdentifiedTransactionTooShort
  | IngressTransactionTooShort
  | UnknownFrameKind
  | IncompleteFramePayload
  | PayloadChecksumMismatch
  | DuplicateCommitId
  | DuplicateIngressSequence
  | InvalidIngressSequence
  | InvalidTransaction
  | TransactionPointCountTooLarge
  | InvalidCatalogTransaction
  | SealCheckpointInvalid
  | IdentityIndexInvalid.

(** ** The replayed state

    The part of the state that the log determines: the local variables of
    [scan_log], which become the fields of the same names of [Database]. *)
Record LogState := mkLog {
  index : Index;
  catalog : Catalog;
  commit_ids : gset Z;
  identified_receipts : gmap Z StoredIdentifiedReceipt;
  ingress_receipts : gmap IngressKey StoredIngressReceipt;
  ingress_commit_ids : gmap Z IngressKey;
  ingress_last_sequences : gmap Z Z;
  commits : Z;
  points : Z;
  catalog_records : Z;
  pending_reclaim : bool;
}.

Definition LogState_empty : LogState := mkLog ∅ Catalog_default ∅ ∅ ∅ ∅ ∅ 0 0 0 false.

Definition set_commit_ids (v : gset Z) (s : LogState) : LogState :=
  mkLog (index s) (catalog s) v (identified_receipts s) (ingress_receipts s)
    (ingress_commit_ids s) (ingress_last_sequences s) (commits s) (points s) (catalog_records s)
    (pending_reclaim s).
Definition set_catalog (v : Catalog) (s : LogState) : LogState :=
  mkLog (index s) v (commit_ids s) (identified_receipts s) (ingress_receipts s)
    (ingress_commit_ids s) (ingress_last_sequences s) (commits s) (points s) (catalog_records s)
    (pending_reclaim s).
Definition set_index (v : Index) (s : LogState) : LogState :=
  mkLog v (catalog s) (commit_ids s) (identified_receipts s) (ingress_receipts s)
    (ingress_commit_ids s) (ingress_last_sequences s) (commits s) (points s) (catalog_records s)
    (pending_reclaim s).
Definition set_points (v : Z) (s : LogState) : LogState :=
  mkLog (index s) (catalog s) (commit_ids s) (identified_receipts s) (ingress_receipts s)
    (ingress_commit_ids s) (ingress_last_sequences s) (commits s) v (catalog_records s)
    (pending_reclaim s).
Definition set_catalog_records (v : Z) (s : LogState) : LogState :=
  mkLog (index s) (catalog s) (commit_ids s) (identified_receipts s) (ingress_receipts s)
    (ingress_commit_ids s) (ingress_last_sequences s) (commits s) (points s) v (pending_reclaim s).
Definition set_commits (v : Z) (s : LogState) : LogState :=
  mkLog (index s) (catalog s) (commit_ids s) (identified_receipts s) (ingress_receipts s)
    (ingress_commit_ids s) (ingress_last_sequences s) v (points s) (catalog_records s)
    (pending_reclaim s).
Definition set_pending_reclaim (v : bool) (s : LogState) : LogState :=
  mkLog (index s) (catalog s) (commit_ids s) (identified_receipts s) (ingress_receipts s)
    (ingress_commit_ids s) (ingress_last_sequences s) (commits s) (points s) (catalog_records s) v.

(** [identified_receipts.insert(commit_id, receipt)]. *)
Definition insert_identified (id : Z) (r : StoredIdentifiedReceipt) (s : LogState) : LogState :=
  mkLog (index s) (catalog s) (commit_ids s) (<[id := r]> (identified_receipts s))
    (ingress_receipts s) (ingress_commit_ids s) (ingress_last_sequences s) (commits s) (points s)
    (catalog_records s) (pending_reclaim s).

(** The three inserts that record an ordered ingress frame. *)
Definition insert_ingress (i : IngressIdentity) (r : StoredIngressReceipt) (s : LogState) : LogState :=
  mkLog (index s) (catalog s) (commit_ids s) (identified_receipts s)
    (<[key_of i := r]> (ingress_receipts s)) (<[commit_id i := key_of i]> (ingress_commit_ids s))
    (<[source_id i := sequence i]> (ingress_last_sequences s)) (commits s) (points s)
    (catalog_records s) (pending_reclaim s).

Definition add_commit_id (id : Z) (s : LogState) : LogState :=
  set_commit_ids ({[id]} ∪ commit_ids s) s.

(** ** The scanner

    The scanner's state is the replayed state with the local
    [salvage_stop_reason].  The macro [stop_or_corruption!] records the reason
    (which a salvage keeps) and raises the error (which a recovery returns);
    [scan_log] selects by mode. *)
Record ScanState := mkScanState { log : LogState; stop_reason : option SalvageStopReason }.

Abbreviation Scanner := (ST ScanState).

Definition upd (f : LogState -> LogState) : Scanner unit :=
  st_modify (fun s => mkScanState (f (log s)) (stop_reason s)).
Definition halt {A} (reason : SalvageStopReason) (e : Error) : Scanner A :=
  fun s => (mkScanState (log s) (Some reason), Err e).
Definition stop_or_corruption {A} (offset : Z) (reason : SalvageStopReason) (message : string)
    : Scanner A := halt reason (Corruption offset (text message)).
Definition stop_if (cond : bool) (offset : Z) (reason : SalvageStopReason) (message : string)
    : Scanner unit :=
  if cond then stop_or_corruption offset reason message else st_ret tt.
(** A call whose error becomes the given stop reason. *)
Definition halt_on {A} (reason : SalvageStopReason) (r : Result A) : Scanner A :=
  match r with Ok a => st_ret a | Err e => halt reason e end.

Definition usize_try_from (z : Z) : option Z := if z <=? usize_max then Some z else None.

(** What the scan is configured with: limits and the published seals. *)
Record ScanConfig := mkScanConfig {
  max_batch_points : Z;
  max_transaction_bytes : Z;
  published_seals : gset Z;
}.

Record FrameHeader := mkFrameHeader {
  frame_kind : Z;
  item_count : Z;
  payload_len : Z;
  payload_checksum : Z;
}.

Section Scanner.
Context `{Crc} `{RecordCodec} `{IndexCodec} `{TimeZones}.

(** The kind-specific checks of a frame header. *)
Definition check_frame_kind (cfg : ScanConfig) (offset kind items plen : Z) : Scanner unit :=
  if kind =? FRAME_KIND_LEGACY_POINTS then
    match u64_checked_mul items 72 with
    | None => stop_or_corruption offset InvalidLegacyFrameSize "frame point count overflows"
    | Some expected =>
        stop_if ((max_batch_points cfg <? items) || negb (plen =? expected)) offset
          InvalidLegacyFrameSize "invalid legacy point frame size"
    end
  else if (kind =? FRAME_KIND_TRANSACTION) || (kind =? FRAME_KIND_IDENTIFIED_TRANSACTION)
          || (kind =? FRAME_KIND_INGRESS_TRANSACTION) then
    stop_if (max_transaction_bytes cfg <? plen) offset TransactionFrameTooLarge
      "transaction frame exceeds configured maximum" ;*
    stop_if ((kind =? FRAME_KIND_IDENTIFIED_TRANSACTION) && (plen <? 16)) offset
      IdentifiedTransactionTooShort "identified transaction frame is too short" ;*
    stop_if ((kind =? FRAME_KIND_INGRESS_TRANSACTION) && (plen <? 40)) offset
      IngressTransactionTooShort "ingress transaction frame is too short"
  else if kind =? FRAME_KIND_SEAL_CHECKPOINT then
    stop_if (negb (items =? 0) || negb (plen =? 16)) offset SealCheckpointInvalid
      "seal checkpoint header has an item count or wrong payload length"
  else if kind =? FRAME_KIND_IDENTITY_INDEX then
    stop_if (negb (items =? 0)) offset IdentityIndexInvalid
      "identity index header has an item count" ;*
    stop_if (identity_index_frame_limit (max_transaction_bytes cfg) <? plen) offset
      TransactionFrameTooLarge "identity index frame exceeds configured maximum"
  else stop_or_corruption offset UnknownFrameKind "unknown frame kind".

(** The checks of one frame header. *)
Definition check_frame_header (cfg : ScanConfig) (offset : Z) (frame_header : bytes)
    : Scanner FrameHeader :=
  stop_if (negb (bytes_eqb (slice 0 4 frame_header) FRAME_MAGIC)) offset
    InvalidFrameMagic "invalid frame magic" ;*
  stop_if (negb (from_le (slice 4 6 frame_header) =? FRAME_VERSION)) offset
    UnsupportedFrameVersion "unsupported frame version" ;*
  stop_if (negb (hash (slice 0 20 frame_header) =? from_le (slice 20 24 frame_header))) offset
    FrameHeaderChecksumMismatch "frame header checksum mismatch" ;*
  let kind := from_le (slice 6 8 frame_header) in
  let items := from_le (slice 8 12 frame_header) in
  let plen := from_le (slice 12 16 frame_header) in
  let checksum := from_le (slice 16 20 frame_header) in
  check_frame_kind cfg offset kind items plen ;*
  st_ret (mkFrameHeader kind items plen checksum).

(** [validate_compact_transaction]. *)
Definition validate_compact_transaction (payload : bytes) (expected_records expected_points offset : Z)
    : Result unit :=
  let? records := decode_transaction payload expected_records offset in
  let? points := ok_or
    (foldl (fun acc r => acc ≫= fun n => u64_checked_add n (len (record_points r))) (Some 0) records)
    (Corruption offset (text "identity index point count overflows")) in
  if negb (points =? expected_points) then
    corruption offset "identity index point count does not match payload"
  else
    for_each (fun r => match r with
                       | RPoints ps =>
                           if is_ok (validate_point_intervals ps) then Ok tt
                           else corruption offset "identity index contains invalid point values"
                       | _ => Ok tt
                       end) records.

(** Errors of [apply_identity_index] stop a salvage with one reason. *)
Definition index_corruption {A} (offset : Z) (message : string) : Scanner A :=
  stop_or_corruption offset IdentityIndexInvalid message.
Definition index_check (cond : bool) (offset : Z) (message : string) : Scanner unit :=
  stop_if cond offset IdentityIndexInvalid message.

(** [if !commit_ids.insert(id)]. *)
Definition insert_commit_id (id : Z) (offset : Z) (reason : SalvageStopReason) : Scanner unit :=
  let* s := st_get in
  stop_if (bool_decide (id ∈ commit_ids (log s))) offset reason "duplicate commit identifier" ;*
  upd (add_commit_id id).

(** The identified loop of [apply_identity_index]. *)
Definition apply_compact_identified (offset : Z) (r : CompactIdentifiedReceipt) : Scanner unit :=
  index_check (cid_payload_len r <? 28) offset "identified receipt payload is too short" ;*
  let* points := halt_on IdentityIndexInvalid (ok_or (usize_try_from (cid_points r))
    (Corruption offset (text "identity index point count overflows usize"))) in
  let* records := halt_on IdentityIndexInvalid (ok_or (usize_try_from (cid_records r))
    (Corruption offset (text "identity index record count overflows usize"))) in
  let* compact_payload :=
    match cid_payload r with
    | [] => st_ret None
    | payload =>
        index_check (negb (len payload =? cid_payload_len r)
                     || negb (hash payload =? cid_payload_crc32 r)
                     || (len payload <? 16)
                     || negb (from_le (slice 0 16 payload) =? cid_commit_id r)) offset
          "identified receipt bytes do not match their index" ;*
        halt_on IdentityIndexInvalid
          (validate_compact_transaction (drop COMMIT_ID_BYTES payload) records points offset) ;*
        st_ret (Some payload)
    end in
  insert_commit_id (cid_commit_id r) offset IdentityIndexInvalid ;*
  upd (insert_identified (cid_commit_id r)
         (mkIdentifiedReceipt 0 (cid_payload_len r) (cid_payload_crc32 r) compact_payload
            (mkCommit offset points records 0 false false))).

(** The checks an ordered ingress identity passes in a scan. *)
Definition check_ingress_identity (identity : IngressIdentity) (offset : Z)
    (zero duplicate duplicate_id order : SalvageStopReason) : Scanner unit :=
  stop_if (source_id identity =? 0) offset zero "ingress source id zero is reserved" ;*
  let* s := st_get in
  stop_if (is_some (ingress_receipts (log s) !! key_of identity)) offset duplicate
    "duplicate ingress source sequence" ;*
  insert_commit_id (commit_id identity) offset duplicate_id ;*
  stop_if (is_some_and (ingress_last_sequences (log s) !! source_id identity)
             (fun last => sequence identity <=? last)) offset order
    "ingress source cursor is not strictly increasing".

(** The ingress loop of [apply_identity_index]. *)
Definition apply_compact_ingress (offset : Z) (r : CompactIngressReceipt) : Scanner unit :=
  index_check (cin_canonical_payload_len r <? 12) offset "ingress receipt payload is too short" ;*
  let* points := halt_on IdentityIndexInvalid (ok_or (usize_try_from (cin_points r))
    (Corruption offset (text "identity index point count overflows usize"))) in
  let* records := halt_on IdentityIndexInvalid (ok_or (usize_try_from (cin_records r))
    (Corruption offset (text "identity index record count overflows usize"))) in
  let* compact_payload :=
    match cin_canonical_payload r with
    | [] => st_ret None
    | payload =>
        index_check (negb (len payload =? cin_canonical_payload_len r)
                     || negb (hash payload =? cin_canonical_payload_crc32 r)) offset
          "ingress receipt bytes do not match their index" ;*
        halt_on IdentityIndexInvalid (validate_compact_transaction payload records points offset) ;*
        st_ret (Some payload)
    end in
  let identity := mkIdentity (cin_source_id r) (cin_sequence r) (cin_commit_id r) in
  check_ingress_identity identity offset IdentityIndexInvalid IdentityIndexInvalid
    IdentityIndexInvalid IdentityIndexInvalid ;*
  upd (insert_ingress identity
         (mkIngressReceipt identity 0 (cin_canonical_payload_len r)
            (cin_canonical_payload_crc32 r) compact_payload
            (mkCommit (cin_frame_offset r) points records (cin_bytes_written r) false false))).

(** [apply_identity_index]. *)
Definition apply_identity_index (payload : bytes) (offset : Z) : Scanner unit :=
  let* i := halt_on IdentityIndexInvalid (decode_identity_index payload offset) in
  st_for_each (apply_compact_identified offset) (identified i) ;*
  st_for_each (apply_compact_ingress offset) (ingress i).

(** The bookkeeping loop over the records of a transaction frame. *)
Definition replay_record (s : LogState) (r : TxRecord) : LogState :=
  match r with
  | RPoints ps =>
      set_index (foldl push_indexed_point (index s) ps) (set_points (points s + len ps) s)
  | _ => set_catalog_records (catalog_records s + 1) s
  end.

(** The part of [scan_log] common to the three transaction frame kinds. *)
Definition apply_records_frame (cfg : ScanConfig) (offset : Z) (transaction_payload : bytes)
    (items : Z) : Scanner (list TxRecord) :=
  let* records := halt_on InvalidTransaction
    (decode_transaction transaction_payload items offset) in
  let* s := st_get in
  let* c := halt_on InvalidCatalogTransaction
    (apply_recovered (catalog (log s)) records offset) in
  upd (set_catalog c) ;*
  stop_if (max_batch_points cfg <? records_point_count records) offset
    TransactionPointCountTooLarge "transaction point count exceeds maximum" ;*
  upd (fun s => foldl replay_record s records) ;*
  st_ret records.

Definition decode_ingress_identity (payload : bytes) : IngressIdentity :=
  mkIdentity (from_le (slice 0 16 payload)) (from_le (slice 16 24 payload))
    (from_le (slice 24 40 payload)).

(** What one checked frame does to the state. *)
Definition apply_payload (cfg : ScanConfig) (offset : Z) (h : FrameHeader) (payload : bytes)
    : Scanner unit :=
  let frame_len := Z.of_nat FRAME_HEADER_BYTES + payload_len h in
  if frame_kind h =? FRAME_KIND_LEGACY_POINTS then
    let recovered := decode_points payload in
    stop_if (negb (is_ok (validate_point_intervals recovered))) offset InvalidLegacyPoint
      "legacy point frame violates point invariants" ;*
    upd (fun s => set_index (foldl push_indexed_point (index s) recovered)
                    (set_points (points s + item_count h) s))
  else if frame_kind h =? FRAME_KIND_SEAL_CHECKPOINT then
    let generation := from_le (slice 0 8 payload) in
    let sealed_points := from_le (slice 8 16 payload) in
    let* s := st_get in
    stop_if ((generation =? 0) || negb (sealed_points =? points (log s))) offset
      SealCheckpointInvalid "seal checkpoint generation or point count is invalid" ;*
    if bool_decide (generation ∈ published_seals cfg) then
      upd (fun s => set_pending_reclaim true (set_points 0 (set_index ∅ s)))
    else st_ret tt
  else if frame_kind h =? FRAME_KIND_IDENTITY_INDEX then apply_identity_index payload offset
  else if frame_kind h =? FRAME_KIND_IDENTIFIED_TRANSACTION then
    let id := from_le (slice 0 16 payload) in
    insert_commit_id id offset DuplicateCommitId ;*
    let* records := apply_records_frame cfg offset (drop COMMIT_ID_BYTES payload) (item_count h) in
    upd (insert_identified id
           (mkIdentifiedReceipt (offset + Z.of_nat FRAME_HEADER_BYTES) (len payload)
              (payload_checksum h) None
              (mkCommit offset (records_point_count records) (len records) frame_len false false)))
  else if frame_kind h =? FRAME_KIND_INGRESS_TRANSACTION then
    let identity := decode_ingress_identity payload in
    let canonical := drop INGRESS_IDENTITY_BYTES payload in
    check_ingress_identity identity offset InvalidIngressSequence DuplicateIngressSequence
      DuplicateCommitId InvalidIngressSequence ;*
    let* records := apply_records_frame cfg offset canonical (item_count h) in
    upd (insert_ingress identity
           (mkIngressReceipt identity
              (offset + Z.of_nat FRAME_HEADER_BYTES + Z.of_nat INGRESS_IDENTITY_BYTES)
              (len canonical) (hash canonical) None
              (mkCommit offset (records_point_count records) (len records) frame_len false false)))
  else
    let* _ := apply_records_frame cfg offset payload (item_count h) in st_ret tt.

(** How the frame loop ends. *)
Inductive ScanEnd :=
  | EndOfLog
  | EndTorn (tail : RecoveredTail) (remaining : Z)
  | EndError (e : Error).

(** The frame loop, on the bytes the reader has not consumed.  Every frame
    takes at least a header, so the length of the rest bounds the number of
    iterations. *)
Fixpoint scan_frames (fuel : nat) (cfg : ScanConfig) (rest : bytes) (offset : Z) (s : ScanState)
    : ScanState * Z * ScanEnd :=
  match fuel with
  | O => (s, offset, EndError (Panic "scan_log"))
  | S fuel =>
      let remaining := len rest in
      if remaining =? 0 then (s, offset, EndOfLog)
      else if remaining <? Z.of_nat FRAME_HEADER_BYTES then
        (mkScanState (log s) (Some IncompleteFrameHeader), offset, EndTorn IncompleteHeader remaining)
      else
        match check_frame_header cfg offset (take FRAME_HEADER_BYTES rest) s with
        | (s, Err e) => (s, offset, EndError e)
        | (s, Ok h) =>
            let frame_len := Z.of_nat FRAME_HEADER_BYTES + payload_len h in
            if remaining <? frame_len then
              (mkScanState (log s) (Some IncompleteFramePayload), offset,
               EndTorn IncompletePayload remaining)
            else
              let payload := slice FRAME_HEADER_BYTES (Z.to_nat frame_len) rest in
              let step :=
                stop_if (negb (hash payload =? payload_checksum h)) offset PayloadChecksumMismatch
                  (if remaining =? frame_len then "payload checksum mismatch in complete final frame"
                   else "payload checksum mismatch before valid tail") ;*
                apply_payload cfg offset h payload ;*
                upd (fun s => set_commits (commits s + 1) s) in
              match step s with
              | (s, Err e) => (s, offset, EndError e)
              | (s, Ok _) =>
                  scan_frames fuel cfg (drop (Z.to_nat frame_len) rest) (offset + frame_len) s
              end
        end
  end.

Inductive ScanMode := Recover (simulate : bool) | Salvage.

Record Scan := mkScan {
  scan_state : LogState;
  recovered_tail_bytes : Z;
  recovered_tail : RecoveredTail;
  validated_bytes : Z;
  salvage_stop_reason : option SalvageStopReason;
}.

(** The header of the database file. *)
Definition check_database_header (file : bytes) : Result unit :=
  if len file <? Z.of_nat DATABASE_HEADER_BYTES then Err (Io "UnexpectedEof")
  else if negb (bytes_eqb (slice 0 8 file) DATABASE_MAGIC) then Err InvalidHeader
  else if negb (from_le (slice 8 10 file) =? DATABASE_VERSION) then
    Err (UnsupportedVersion (from_le (slice 8 10 file)))
  else if negb (hash (slice 0 12 file) =? from_le (slice 12 16 file))
          || negb (bytes_eqb (slice 10 12 file) [0; 0]) then Err InvalidHeader
  else Ok tt.

(** The final sort of every series. *)
Definition sort_index (s : LogState) : LogState := set_index (sort_series <$> index s) s.

Definition scan_file (cfg : ScanConfig) (file : bytes) : ScanState * Z * ScanEnd :=
  scan_frames (S (length file)) cfg (drop DATABASE_HEADER_BYTES file) 16
    (mkScanState LogState_empty None).

(** [scan_log]. *)
Definition scan_log (cfg : ScanConfig) (mode : ScanMode) : ST File Scan :=
  let* file := f_read_all in
  st_lift (check_database_header file) ;*
  let '(s, offset, stop) := scan_file cfg file in
  match mode, stop with
  | Salvage, EndOfLog => st_ret (mkScan (sort_index (log s)) 0 TailNone offset (Some CleanEof))
  | Salvage, _ => st_ret (mkScan (sort_index (log s)) 0 TailNone offset (stop_reason s))
  | Recover _, EndOfLog => st_ret (mkScan (sort_index (log s)) 0 TailNone offset None)
  | Recover simulate, EndTorn tail remaining =>
      (if simulate then st_ret tt else f_set_len offset ;* f_sync) ;*
      st_ret (mkScan (sort_index (log s)) remaining tail offset None)
  | Recover _, EndError e => st_err e
  end.
End Scanner.

(** ** Frames as the writer emits them *)

Record Frame := mkFrame { fr_kind : Z; fr_items : Z; fr_payload : bytes }.

Definition typed_frame (f : Frame) : Prop :=
  is_u16 (fr_kind f) /\ is_u32 (fr_items f) /\ is_u32 (len (fr_payload f))
  /\ is_bytes (fr_payload f).

Definition frame_bytes `{Crc} (f : Frame) : bytes :=
  encode_frame (fr_kind f) (fr_items f) (fr_payload f).
Definition frame_size (f : Frame) : Z := 24 + len (fr_payload f).
Definition frames_bytes `{Crc} (fs : list Frame) : bytes := concat (map frame_bytes fs).

Lemma length_frame_header `{Crc} k n l c : length (encode_frame_header k n l c) = 24%nat.
Proof.
  unfold encode_frame_header, frame_header_prefix. by rewrite !length_app, !length_to_le.
Qed.

Lemma length_frame_bytes `{Crc} f : length (frame_bytes f) = (24 + length (fr_payload f))%nat.
Proof. unfold frame_bytes, encode_frame. by rewrite length_app, length_frame_header. Qed.

Section Frames.
Context `{Crc} `{RecordCodec} `{IndexCodec} `{TimeZones}.

(** What the scan does with a complete, intact frame. *)
Definition replay_frame (cfg : ScanConfig) (offset : Z) (f : Frame) : Scanner unit :=
  check_frame_kind cfg offset (fr_kind f) (fr_items f) (len (fr_payload f)) ;*
  apply_payload cfg offset
    (mkFrameHeader (fr_kind f) (fr_items f) (len (fr_payload f)) (hash (fr_payload f)))
    (fr_payload f) ;*
  upd (fun s => set_commits (commits s + 1) s).

Fixpoint replay_frames (cfg : ScanConfig) (offset : Z) (fs : list Frame) : Scanner unit :=
  match fs with
  | [] => st_ret tt
  | f :: rest => replay_frame cfg offset f ;* replay_frames cfg (offset + frame_size f) rest
  end.

Lemma check_frame_header_layout cfg offset k n l c :
  is_u16 k -> is_u32 n -> is_u32 l -> is_u32 c ->
  check_frame_header cfg offset (encode_frame_header k n l c)
  = (check_frame_kind cfg offset k n l ;* st_ret (mkFrameHeader k n l c)).
Proof.
  intros Hk Hn Hl Hc. unfold check_frame_header.
  assert (E20 : slice 0 20 (encode_frame_header k n l c) = frame_header_prefix k n l c).
  { unfold encode_frame_header. apply slice_app_l. unfold frame_header_prefix.
    by rewrite !length_app, !length_to_le. }
  assert (E24 : slice 20 24 (encode_frame_header k n l c) = to_le 4 (hash (frame_header_prefix k n l c))).
  { unfold encode_frame_header. rewrite slice_app_r by
      (unfold frame_header_prefix; rewrite !length_app, !length_to_le; simpl; lia).
    replace (length (frame_header_prefix k n l c)) with 20%nat
      by (unfold frame_header_prefix; by rewrite !length_app, !length_to_le).
    apply slice_all, length_to_le. }
  rewrite E20, E24, from_to_le_u32 by apply hash_u32.
  unfold encode_frame_header, frame_header_prefix. rewrite <- !app_assoc. slices.
  rewrite bytes_eqb_refl, !Z.eqb_refl, !from_to_le_u16, !from_to_le_u32 by done. reflexivity.
Qed.

(** Checks leave the replayed state alone when they pass. *)
Lemma stop_if_Ok c offset r m s s' u : stop_if c offset r m s = (s', Ok u) <-> s' = s /\ c = false.
Proof. destruct c, u; unfold stop_if, stop_or_corruption, halt, st_ret; naive_solver. Qed.

Lemma halt_on_Ok {A} r (x : Result A) s s' a : halt_on r x s = (s', Ok a) <-> s' = s /\ x = Ok a.
Proof. destruct x; unfold halt_on, halt, st_ret; naive_solver. Qed.

Lemma stop_if_false offset r m s : stop_if false offset r m s = (s, Ok tt).
Proof. reflexivity. Qed.

(** A check neither reads nor changes the replayed state. *)
Definition pure_check (m : Scanner unit) : Prop :=
  exists o, forall s, m s = match o with
                            | None => (s, Ok tt)
                            | Some (r, e) => (mkScanState (log s) (Some r), Err e)
                            end.

Lemma pure_stop_if c offset r m : pure_check (stop_if c offset r m).
Proof.
  destruct c; [exists (Some (r, Corruption offset (text m)))|exists None]; done.
Qed.

Lemma pure_bind m k : pure_check m -> pure_check k -> pure_check (m ;* k).
Proof.
  intros [[[r e]|] Hm] [o Hk].
  - exists (Some (r, e)). intros s. unfold st_bind. by rewrite Hm.
  - exists o. intros s. unfold st_bind. by rewrite Hm, Hk.
Qed.

Lemma check_frame_kind_pure cfg offset k n l : pure_check (check_frame_kind cfg offset k n l).
Proof.
  unfold check_frame_kind.
  repeat match goal with
         | |- pure_check (if ?c then _ else _) => destruct c
         | |- pure_check (match ?o with Some _ => _ | None => _ end) => destruct o
         end; repeat first [apply pure_bind | apply pure_stop_if]; by eexists (Some (_, _)).
Qed.

Lemma pure_check_Ok m s s' u : pure_check m -> m s = (s', Ok u) -> s' = s /\ forall t, m t = (t, Ok tt).
Proof. intros [[[r e]|] Hm]; rewrite Hm; [done|]. intros [= -> <-]. done. Qed.

Lemma frame_bytes_split f rest :
  take FRAME_HEADER_BYTES (frame_bytes f ++ rest)
  = encode_frame_header (fr_kind f) (fr_items f) (len (fr_payload f)) (hash (fr_payload f))
  /\ slice FRAME_HEADER_BYTES (Z.to_nat (24 + len (fr_payload f))) (frame_bytes f ++ rest)
     = fr_payload f
  /\ drop (Z.to_nat (24 + len (fr_payload f))) (frame_bytes f ++ rest) = rest.
Proof.
  pose proof (length_frame_header (fr_kind f) (fr_items f) (len (fr_payload f)) (hash (fr_payload f))) as Hl.
  replace (Z.to_nat (24 + len (fr_payload f))) with (24 + length (fr_payload f))%nat by (unfold zlen; lia).
  split_and!.
  - unfold frame_bytes, encode_frame. rewrite <- app_assoc. by apply take_app_length'.
  - unfold frame_bytes, encode_frame. rewrite <- app_assoc.
    unfold FRAME_HEADER_BYTES. rewrite <- Hl. by apply slice_app_at.
  - apply drop_app_length'. by rewrite length_frame_bytes.
Qed.

(** One turn of the frame loop on an intact frame. *)
Lemma scan_frame_step fuel cfg f rest offset s :
  typed_frame f ->
  scan_frames (S fuel) cfg (frame_bytes f ++ rest) offset s
  = match replay_frame cfg offset f s with
    | (s, Err e) => (s, offset, EndError e)
    | (s, Ok _) => scan_frames fuel cfg rest (offset + frame_size f) s
    end.
Proof.
  intros (Hk & Hn & Hl & _). pose proof (length_frame_bytes f) as Hlen.
  assert (Hrem : len (frame_bytes f ++ rest) = 24 + len (fr_payload f) + len rest)
    by (unfold zlen; rewrite length_app; lia).
  pose proof (zlen_nonneg rest). pose proof (zlen_nonneg (fr_payload f)).
  destruct (frame_bytes_split f rest) as (E1 & E2 & E3).
  cbn [scan_frames]. rewrite Hrem.
  destruct (Z.eqb_spec (24 + len (fr_payload f) + len rest) 0); [lia|].
  destruct (Z.ltb_spec (24 + len (fr_payload f) + len rest) (Z.of_nat FRAME_HEADER_BYTES)) as [Hx|_];
    [unfold FRAME_HEADER_BYTES in Hx; lia|].
  rewrite E1, check_frame_header_layout by (done || apply hash_u32).
  unfold replay_frame. unfold st_bind at 1 4.
  destruct (check_frame_kind cfg offset (fr_kind f) (fr_items f) (len (fr_payload f)) s)
    as [s1 [[]|e]]; [|done].
  cbn [st_ret payload_len payload_checksum]. change (Z.of_nat FRAME_HEADER_BYTES) with 24.
  destruct (Z.ltb_spec (24 + len (fr_payload f) + len rest) (24 + len (fr_payload f))); [lia|].
  rewrite E2, E3, Z.eqb_refl. cbn [negb]. unfold stop_if at 1. unfold st_bind at 1. cbn [st_ret]. done.
Qed.

(** Replaying a list of frames is scanning their bytes. *)
Lemma scan_frames_app fuel cfg fs rest offset s s' :
  Forall typed_frame fs -> replay_frames cfg offset fs s = (s', Ok tt) ->
  scan_frames (length fs + fuel) cfg (frames_bytes fs ++ rest) offset s
  = scan_frames fuel cfg rest (offset + len (frames_bytes fs)) s'.
Proof.
  intros Ht. revert offset s. induction Ht as [|f fs Hf _ IH]; intros offset s Hr.
  - injection Hr as <-. simpl. f_equal. unfold zlen. simpl. lia.
  - simpl in Hr. apply st_bind_Ok in Hr as ([] & s1 & Hs1 & Hs2).
    unfold frames_bytes. cbn [map concat length Nat.add]. rewrite <- app_assoc.
    rewrite scan_frame_step, Hs1 by done. fold (frames_bytes fs). rewrite (IH _ _ Hs2). f_equal.
    unfold frame_size, zlen. rewrite !length_app, length_frame_bytes. lia.
Qed.
End Frames.

(** ** Every scan terminates *)

Section Termination.
Context `{Crc} `{RecordCodec} `{IndexCodec} `{TimeZones}.

Lemma check_frame_header_Ok cfg offset hd s s' h :
  check_frame_header cfg offset hd s = (s', Ok h) ->
  s' = s /\ payload_len h = from_le (slice 12 16 hd).
Proof.
  unfold check_frame_header. intros E. st_inv.
  repeat match goal with X : stop_if _ _ _ _ _ = _ |- _ => apply stop_if_Ok in X as [-> _] end.
  match goal with X : check_frame_kind _ _ _ _ _ _ = _ |- _ =>
    apply pure_check_Ok in X as [-> _]; [|apply check_frame_kind_pure] end. done.
Qed.

Lemma frame_len_bounds cfg offset rest s s' h :
  is_bytes rest -> check_frame_header cfg offset (take FRAME_HEADER_BYTES rest) s = (s', Ok h) ->
  s' = s /\ is_u64 (24 + payload_len h) /\ 0 <= payload_len h.
Proof.
  intros Hb [-> ->]%check_frame_header_Ok. split; [done|].
  assert (Hs : is_bytes (slice 12 16 (take FRAME_HEADER_BYTES rest)))
    by (apply slice_bytes; by apply Forall_take).
  pose proof (from_le_bound _ Hs) as Hr.
  assert (Hl : (length (slice 12 16 (take FRAME_HEADER_BYTES rest)) <= 4)%nat)
    by (unfold slice; rewrite length_take; lia).
  assert (256 ^ Z.of_nat (length (slice 12 16 (take FRAME_HEADER_BYTES rest))) <= 256 ^ 4)
    by (apply Z.pow_le_mono_r; lia).
  unfold is_u64. lia.
Qed.

(** Fuel above the number of unread bytes never runs out, so the bound the
    model gives the loop is not observable. *)
Lemma scan_frames_fuel fuel1 fuel2 cfg rest offset s :
  is_bytes rest -> (length rest < fuel1)%nat -> (length rest < fuel2)%nat ->
  scan_frames fuel1 cfg rest offset s = scan_frames fuel2 cfg rest offset s.
Proof.
  revert fuel2 rest offset s. induction fuel1 as [|fuel1 IH]; intros fuel2 rest offset s Hb H1' H2'; [lia|].
  destruct fuel2 as [|fuel2]; [lia|]. cbn [scan_frames].
  destruct (Z.eqb_spec (len rest) 0); [done|].
  destruct (Z.ltb_spec (len rest) (Z.of_nat FRAME_HEADER_BYTES)); [done|].
  destruct (check_frame_header cfg offset (take FRAME_HEADER_BYTES rest) s) as [s1 [h|e]] eqn:E; [|done].
  destruct (frame_len_bounds _ _ _ _ _ _ Hb E) as (-> & _ & Hp).
  destruct (Z.ltb_spec (len rest) (Z.of_nat FRAME_HEADER_BYTES + payload_len h)); [done|].
  destruct ((stop_if _ _ _ _ ;* _) s) as [s2 [[]|e]]; [|done].
  unfold zlen, FRAME_HEADER_BYTES in *.
  apply IH; [by apply Forall_drop|rewrite length_drop; lia|rewrite length_drop; lia].
Qed.
End Termination.

(** ** Recovery of a torn tail *)

Section Torn.
Context `{Crc} `{RecordCodec} `{IndexCodec} `{TimeZones}.

Definition torn_tail (n : nat) : RecoveredTail :=
  if (n <? 24)%nat then IncompleteHeader else IncompletePayload.

(** A proper prefix of a frame is recognised as torn. *)
Lemma scan_torn fuel cfg f n offset s :
  typed_frame f -> (0 < n < length (frame_bytes f))%nat ->
  check_frame_kind cfg offset (fr_kind f) (fr_items f) (len (fr_payload f)) s = (s, Ok tt) ->
  exists s', scan_frames (S fuel) cfg (take n (frame_bytes f)) offset s
    = (s', offset, EndTorn (torn_tail n) (Z.of_nat n)) /\ log s' = log s.
Proof.
  intros (Hk & Hn & Hl & _) Hn' Hc. rewrite length_frame_bytes in Hn'.
  assert (Hlen : len (take n (frame_bytes f)) = Z.of_nat n)
    by (unfold zlen; rewrite length_take, length_frame_bytes; lia).
  cbn [scan_frames]. rewrite Hlen. destruct (Z.eqb_spec (Z.of_nat n) 0); [lia|].
  unfold torn_tail. change (Z.of_nat FRAME_HEADER_BYTES) with 24.
  destruct (Z.ltb_spec (Z.of_nat n) 24), (Nat.ltb_spec n 24); try lia; [by eexists|].
  destruct (frame_bytes_split f []) as (E1 & _ & _). rewrite app_nil_r in E1.
  rewrite take_take. replace (FRAME_HEADER_BYTES `min` n)%nat with FRAME_HEADER_BYTES
    by (unfold FRAME_HEADER_BYTES; lia).
  rewrite E1, check_frame_header_layout by (done || apply hash_u32). unfold st_bind at 1. rewrite Hc.
  cbn [st_ret payload_len]. destruct (Z.ltb_spec (Z.of_nat n) (24 + len (fr_payload f))) as [_|Hx];
    [by eexists|unfold zlen in Hx; lia].
Qed.

Lemma replay_frame_check cfg offset f s s' :
  replay_frame cfg offset f s = (s', Ok tt) ->
  check_frame_kind cfg offset (fr_kind f) (fr_items f) (len (fr_payload f)) s = (s, Ok tt).
Proof.
  unfold replay_frame. intros ([] & s1 & E & _)%st_bind_Ok.
  destruct (pure_check_Ok _ _ _ _ (check_frame_kind_pure _ _ _ _ _) E) as [_ Hp]. apply Hp.
Qed.

(** The result of scanning a log cut after [n] bytes: the state after the
    frames that are complete before the cut, and how the rest was classified. *)
Definition recovered_at (cfg : ScanConfig) (offset : Z) (fs : list Frame) (s : ScanState) (n : nat)
    (result : ScanState * Z * ScanEnd) : Prop :=
  exists fs1 fs2 s1 s1' stop,
    fs = fs1 ++ fs2 /\ replay_frames cfg offset fs1 s = (s1, Ok tt) /\
    result = (s1', offset + len (frames_bytes fs1), stop) /\ log s1' = log s1 /\
    (length (frames_bytes fs1) <= n)%nat /\
    (stop = EndOfLog /\ n = length (frames_bytes fs1) \/
     exists f rest, fs2 = f :: rest /\ (n < length (frames_bytes (fs1 ++ [f])))%nat /\
       stop = EndTorn (torn_tail (n - length (frames_bytes fs1)))
                (Z.of_nat n - len (frames_bytes fs1))).

Lemma recovered_at_end cfg offset fs s : recovered_at cfg offset fs s 0 (s, offset, EndOfLog).
Proof.
  exists [], fs, s, s, EndOfLog. rewrite Z.add_0_r. split_and!; try done. by left.
Qed.

Lemma recovered_at_torn cfg offset f fs s s' n :
  log s' = log s -> (n < length (frame_bytes f))%nat ->
  recovered_at cfg offset (f :: fs) s n (s', offset, EndTorn (torn_tail n) (Z.of_nat n)).
Proof.
  intros Hlog Hn. exists [], (f :: fs), s, s', (EndTorn (torn_tail n) (Z.of_nat n)).
  rewrite Z.add_0_r. split_and!; try done; [simpl; lia|]. right. exists f, fs.
  split_and!; [done|unfold frames_bytes; simpl; by rewrite app_nil_r|].
  simpl. by rewrite Nat.sub_0_r, Z.sub_0_r.
Qed.

Lemma frames_bytes_cons f fs : frames_bytes (f :: fs) = frame_bytes f ++ frames_bytes fs.
Proof. reflexivity. Qed.

Lemma recovered_at_cons cfg offset f fs s s1 n r :
  replay_frame cfg offset f s = (s1, Ok tt) -> (length (frame_bytes f) <= n)%nat ->
  recovered_at cfg (offset + frame_size f) fs s1 (n - length (frame_bytes f)) r ->
  recovered_at cfg offset (f :: fs) s n r.
Proof.
  intros Hs1 Hn (fs1 & fs2 & s3 & s3' & stop & -> & Hr1 & -> & Hlog & Hle & Hstop).
  pose proof (length_frame_bytes f) as Hlf. exists (f :: fs1), fs2, s3, s3', stop.
  assert (Hl1 : len (frames_bytes (f :: fs1)) = frame_size f + len (frames_bytes fs1)).
  { rewrite frames_bytes_cons. unfold frame_size, zlen. rewrite length_app, Hlf. lia. }
  split_and!; [done| | |done| |].
  - simpl. unfold st_bind. by rewrite Hs1.
  - rewrite Hl1. do 2 f_equal. lia.
  - rewrite frames_bytes_cons, length_app. lia.
  - destruct Hstop as [[-> Hn1]|(f1 & rest & -> & Hlt & ->)]; [left|right].
    + split; [done|]. rewrite frames_bytes_cons, length_app. lia.
    + exists f1, rest. rewrite <- app_comm_cons, !frames_bytes_cons, !length_app in *.
      split_and!; [done|lia|]. f_equal; [f_equal; lia|]. rewrite Hl1. unfold frame_size, zlen. lia.
Qed.

(** Cutting a well-formed log anywhere recovers exactly the frames that are
    complete before the cut. *)
Lemma scan_prefix fuel cfg fs offset s s' n :
  Forall typed_frame fs -> replay_frames cfg offset fs s = (s', Ok tt) ->
  (n <= length (frames_bytes fs))%nat -> (n < fuel)%nat ->
  recovered_at cfg offset fs s n
    (scan_frames fuel cfg (take n (frames_bytes fs)) offset s).
Proof.
  intros Ht. revert fuel offset s n. induction Ht as [|f fs Hf Ht IH]; intros fuel offset s n Hr Hn Hfuel.
  - destruct fuel; [lia|]. simpl in Hn. assert (n = 0%nat) as -> by lia. apply recovered_at_end.
  - destruct fuel as [|fuel]; [lia|]. simpl in Hr.
    apply st_bind_Ok in Hr as ([] & s1 & Hs1 & Hs2). rewrite frames_bytes_cons, length_app in *.
    pose proof (length_frame_bytes f) as Hlf.
    destruct (Nat.ltb_spec n (length (frame_bytes f))) as [Hlt|Hge].
    + rewrite take_app_le by lia. destruct (decide (n = 0%nat)) as [->|Hne]; [apply recovered_at_end|].
      destruct (scan_torn fuel cfg f n offset s Hf ltac:(lia) (replay_frame_check _ _ _ _ _ Hs1))
        as (s2 & -> & Hlog). by apply recovered_at_torn.
    + rewrite take_app_ge by lia. rewrite scan_frame_step, Hs1 by done.
      eapply recovered_at_cons; [done|lia|]. apply IH; [done|lia|lia].
Qed.
End Torn.

(** ** The validated prefix *)

Section Validated.
Context `{Crc} `{RecordCodec} `{IndexCodec} `{TimeZones}.

(** The counters a salvage reports. *)
Definition counters (s : ScanState) : Z * Z := (commits (log s), points (log s)).

(** A scanner step that does not move the counters, and one that does not
    move them when it fails. *)
Definition quiet {A} (m : Scanner A) : Prop := forall s, counters (m s).1 = counters s.
Definition safe {A} (m : Scanner A) : Prop :=
  forall s s' e, m s = (s', Err e) -> counters s' = counters s.

Lemma quiet_bind {A B} (m : Scanner A) (k : A -> Scanner B) :
  quiet m -> (forall a, quiet (k a)) -> quiet (st_bind m k).
Proof.
  intros Hm Hk s. unfold st_bind. specialize (Hm s). destruct (m s) as [s1 [a|e]]; [|done].
  by rewrite Hk.
Qed.
Lemma quiet_ret {A} (a : A) : quiet (st_ret a).
Proof. done. Qed.
Lemma quiet_get : quiet st_get.
Proof. done. Qed.
Lemma quiet_halt {A} r e : quiet (@halt A r e).
Proof. done. Qed.
Lemma quiet_stop_if c o r m : quiet (stop_if c o r m).
Proof. by destruct c. Qed.
Lemma quiet_halt_on {A} r (x : Result A) : quiet (halt_on r x).
Proof. by destruct x. Qed.
Lemma quiet_upd f :
  (forall s, commits (f s) = commits s /\ points (f s) = points s) -> quiet (upd f).
Proof. intros Hf s. unfold counters. simpl. by destruct (Hf (log s)) as [-> ->]. Qed.
Lemma quiet_for_each {A} (f : A -> Scanner unit) l : (forall a, quiet (f a)) -> quiet (st_for_each f l).
Proof. intros Hf. induction l; simpl; [done|]. apply quiet_bind; auto. Qed.

Lemma safe_quiet {A} (m : Scanner A) : quiet m -> safe m.
Proof. intros Hm s s' e E. rewrite <- (Hm s). by rewrite E. Qed.
Lemma safe_bind {A B} (m : Scanner A) (k : A -> Scanner B) :
  quiet m -> (forall a, safe (k a)) -> safe (st_bind m k).
Proof.
  intros Hm Hk s s' e. unfold st_bind. specialize (Hm s). destruct (m s) as [s1 [a|e1]].
  - intros E. apply Hk in E. by rewrite E.
  - by intros [= <- <-].
Qed.
Lemma safe_then {A B} (m : Scanner A) (k : A -> Scanner B) :
  safe m -> (forall a s, exists b s', k a s = (s', Ok b)) -> safe (st_bind m k).
Proof.
  intros Hm Hk s s' e. unfold st_bind. destruct (m s) as [s1 [a|e1]] eqn:E.
  - destruct (Hk a s1) as (b & s2 & ->). done.
  - intros [= <- <-]. by eapply Hm.
Qed.
Lemma safe_upd f : safe (upd f).
Proof. intros s s' e [=]. Qed.
End Validated.

#[export] Hint Resolve quiet_ret quiet_get quiet_halt quiet_stop_if quiet_halt_on safe_quiet safe_upd : ftw.

Ltac quiet_tac :=
  repeat first
    [ progress intros
    | apply quiet_bind | apply quiet_stop_if | apply quiet_halt_on | apply quiet_ret
    | apply quiet_get | apply quiet_halt | apply quiet_for_each
    | apply quiet_upd; intros; done
    | match goal with |- quiet (match ?x with _ => _ end) => destruct x end ].

Section ValidatedPrefix.
Context `{Crc} `{RecordCodec} `{IndexCodec} `{TimeZones}.

Lemma insert_commit_id_quiet id o r : quiet (insert_commit_id id o r).
Proof. unfold insert_commit_id. quiet_tac. Qed.

Lemma check_ingress_identity_quiet i o a b c d : quiet (check_ingress_identity i o a b c d).
Proof. unfold check_ingress_identity. quiet_tac. Qed.

Lemma apply_identity_index_quiet payload o : quiet (apply_identity_index payload o).
Proof.
  unfold apply_identity_index. apply quiet_bind; [apply quiet_halt_on|intros i].
  apply quiet_bind; [|intros []]; apply quiet_for_each; intros r.
  - unfold apply_compact_identified, index_check. quiet_tac.
  - unfold apply_compact_ingress, index_check. quiet_tac.
Qed.

Lemma apply_records_frame_safe cfg o p n : safe (apply_records_frame cfg o p n).
Proof.
  unfold apply_records_frame.
  do 5 (apply safe_bind; [quiet_tac|intros]).
  apply safe_then; [apply safe_upd|]. intros [] s. by eexists _, _.
Qed.

Lemma apply_payload_safe cfg o h p : safe (apply_payload cfg o h p).
Proof.
  unfold apply_payload. destruct (_ =? _).
  { apply safe_bind; [quiet_tac|intros; apply safe_upd]. }
  destruct (_ =? _).
  { do 2 (apply safe_bind; [quiet_tac|intros]). destruct (bool_decide _); [apply safe_upd|].
    apply safe_quiet, quiet_ret. }
  destruct (_ =? _); [apply safe_quiet, apply_identity_index_quiet|].
  destruct (_ =? _).
  { apply safe_bind; [apply insert_commit_id_quiet|intros].
    apply safe_then; [apply apply_records_frame_safe|]. intros rs s. by eexists _, _. }
  destruct (_ =? _).
  { apply safe_bind; [apply check_ingress_identity_quiet|intros].
    apply safe_then; [apply apply_records_frame_safe|]. intros rs s. by eexists _, _. }
  apply safe_then; [apply apply_records_frame_safe|]. intros rs s. by eexists _, _.
Qed.

Lemma check_frame_header_safe cfg o hd s s' e :
  check_frame_header cfg o hd s = (s', Err e) -> log s' = log s.
Proof.
  unfold check_frame_header.
  assert (Hp : forall A (m : Scanner unit) (k : unit -> Scanner A),
    pure_check m -> (forall s s' e, k tt s = (s', Err e) -> log s' = log s) ->
    forall s s' e, st_bind m k s = (s', Err e) -> log s' = log s).
  { intros A m k [[[r e0]|] Hm] Hk t t' e' E; unfold st_bind in E; rewrite Hm in E; [|by eapply Hk].
    injection E as <- <-. done. }
  revert s s' e. repeat (apply Hp; [first [apply pure_stop_if|apply check_frame_kind_pure]|]).
  done.
Qed.
End ValidatedPrefix.

Lemma slice_take {A} a b n (l : list A) : (b <= n)%nat -> slice a b (take n l) = slice a b l.
Proof.
  intros. unfold slice. destruct (decide (a <= n)%nat).
  - replace n with (a + (n - a))%nat by lia. rewrite <- take_drop_commute, take_take. f_equal. lia.
  - by replace (b - a)%nat with 0%nat by lia.
Qed.

Section Cut.
Context `{Crc} `{RecordCodec} `{IndexCodec} `{TimeZones}.

Definition is_error (e : ScanEnd) : bool := match e with EndError _ => true | _ => false end.

(** What the scan of a file says about its first [n] unread bytes: they scan
    cleanly, to the same state when the scan did not fail, and to the same
    counters in every case. *)
Definition clean_prefix (cfg : ScanConfig) (fuel : nat) (rest : bytes) (offset : Z) (s : ScanState)
    (result : ScanState * Z * ScanEnd) : Prop :=
  let '(s', offset', stop) := result in
  offset <= offset' <= offset + len rest /\
  exists s1,
    scan_frames fuel cfg (take (Z.to_nat (offset' - offset)) rest) offset s = (s1, offset', EndOfLog)
    /\ counters s1 = counters s' /\ (is_error stop = false -> log s1 = log s').

Lemma clean_prefix_here cfg fuel rest offset s s' stop :
  counters s' = counters s -> (is_error stop = false -> log s = log s') ->
  clean_prefix cfg (S fuel) rest offset s (s', offset, stop).
Proof.
  intros Hc Hl. split; [pose proof (zlen_nonneg rest); lia|]. exists s.
  rewrite Z.sub_diag. simpl. done.
Qed.

(** The frame at the head of [rest] passes every check and takes the state
    from [s] to [s2]. *)
Definition frame_accepted (cfg : ScanConfig) (rest : bytes) (offset : Z) (s : ScanState)
    (flen : Z) (s2 : ScanState) : Prop :=
  24 <= flen <= len rest /\
  exists h, check_frame_header cfg offset (take FRAME_HEADER_BYTES rest) s = (s, Ok h)
    /\ flen = 24 + payload_len h
    /\ hash (slice 24 (Z.to_nat flen) rest) = payload_checksum h
    /\ (apply_payload cfg offset h (slice 24 (Z.to_nat flen) rest) ;*
        upd (fun s => set_commits (commits s + 1) s)) s = (s2, Ok tt).

Lemma scan_frames_accepted fuel cfg rest offset s flen s2 :
  frame_accepted cfg rest offset s flen s2 ->
  scan_frames (S fuel) cfg rest offset s
  = scan_frames fuel cfg (drop (Z.to_nat flen) rest) (offset + flen) s2.
Proof.
  intros (Hlen & h & Hh & Hflen & Hsum & Hbody). cbn [scan_frames].
  change (Z.of_nat FRAME_HEADER_BYTES) with 24. destruct (Z.eqb_spec (len rest) 0); [lia|].
  destruct (Z.ltb_spec (len rest) 24); [lia|]. rewrite Hh, <- Hflen.
  destruct (Z.ltb_spec (len rest) flen); [lia|]. unfold FRAME_HEADER_BYTES. rewrite Hsum, Z.eqb_refl.
  unfold st_bind at 1. cbn [negb stop_if st_ret]. by rewrite Hbody.
Qed.

Lemma frame_accepted_take cfg rest offset s flen s2 n :
  flen <= Z.of_nat n -> frame_accepted cfg rest offset s flen s2 ->
  frame_accepted cfg (take n rest) offset s flen s2.
Proof.
  intros Hn (Hlen & h & Hh & Hflen & Hsum & Hbody). split.
  - unfold zlen in *. rewrite length_take. lia.
  - exists h. rewrite take_take, slice_take by lia.
    replace (FRAME_HEADER_BYTES `min` n)%nat with FRAME_HEADER_BYTES by (unfold FRAME_HEADER_BYTES; lia).
    done.
Qed.

(** One turn of the frame loop: it stops here, or accepts a frame and goes on. *)
Lemma scan_frames_cases fuel cfg rest offset s :
  is_bytes rest ->
  (exists s' stop, scan_frames (S fuel) cfg rest offset s = (s', offset, stop)
     /\ counters s' = counters s /\ (is_error stop = false -> log s = log s')
     /\ match stop with
        | EndOfLog => rest = []
        | EndTorn t n => len rest = n /\ 0 < n /\ t <> TailNone
        | EndError _ => True
        end) \/
  (exists flen s2, frame_accepted cfg rest offset s flen s2).
Proof.
  intros Hb. cbn [scan_frames]. change (Z.of_nat FRAME_HEADER_BYTES) with 24.
  pose proof (zlen_nonneg rest) as Hnn.
  destruct (Z.eqb_spec (len rest) 0) as [E0|]; [left; eexists _, _; by destruct rest|].
  assert (Hpos : 0 < len rest) by lia.
  destruct (Z.ltb_spec (len rest) 24) as [|Hlong]; [left; by eexists _, _|].
  destruct (check_frame_header cfg offset (take FRAME_HEADER_BYTES rest) s) as [s1 [h|e]] eqn:E.
  2: { apply check_frame_header_safe in E. left. eexists _, _. split; [done|].
       split; [unfold counters; by rewrite E|done]. }
  destruct (frame_len_bounds _ _ _ _ _ _ Hb E) as (-> & _ & Hp).
  destruct (Z.ltb_spec (len rest) (24 + payload_len h)) as [|Hfit]; [left; by eexists _, _|].
  destruct ((stop_if _ offset PayloadChecksumMismatch _ ;* _) s) as [s2 [[]|e]] eqn:Es.
  - right. apply st_bind_Ok in Es as ([] & s3 & [-> Hck]%stop_if_Ok & Hbody).
    exists (24 + payload_len h), s2. split; [lia|]. exists h. zbool. done.
  - left. eexists _, _. split; [done|]. split; [|done]. clear Hp Hfit. revert Es.
    match goal with |- ?m s = _ -> _ => enough (safe m) by eauto end.
    apply safe_bind; [apply quiet_stop_if|intros _].
    apply safe_then; [apply apply_payload_safe|]. intros [] t. by eexists _, _.
Qed.

Lemma scan_frames_clean_prefix fuel cfg rest offset s :
  is_bytes rest -> (length rest < fuel)%nat ->
  clean_prefix cfg fuel rest offset s (scan_frames fuel cfg rest offset s).
Proof.
  revert rest offset s. induction fuel as [|fuel IH]; intros rest offset s Hb Hf; [lia|].
  destruct (scan_frames_cases fuel cfg rest offset s Hb) as [(s' & stop & -> & Hc & Hl & _)|(flen & s2 & Ha)];
    [by apply clean_prefix_here|].
  rewrite (scan_frames_accepted fuel _ _ _ _ _ _ Ha). pose proof (proj1 Ha) as Hlen.
  specialize (IH (drop (Z.to_nat flen) rest) (offset + flen) s2 (Forall_drop _ _ _ Hb)
                ltac:(rewrite length_drop; unfold zlen in *; lia)).
  destruct (scan_frames fuel cfg (drop (Z.to_nat flen) rest) (offset + flen) s2) as [[s4 off'] stop].
  destruct IH as (Hoff & s5 & Hs5 & Hc & Hl).
  assert (Hdl : len (drop (Z.to_nat flen) rest) = len rest - flen)
    by (unfold zlen in *; rewrite length_drop; lia).
  rewrite Hdl in Hoff. split; [lia|]. exists s5. split; [|done].
  replace (Z.to_nat (off' - offset)) with (Z.to_nat flen + Z.to_nat (off' - (offset + flen)))%nat by lia.
  rewrite (scan_frames_accepted fuel _ _ _ _ flen s2) by (apply frame_accepted_take; [lia|done]).
  rewrite <- take_drop_commute. exact Hs5.
Qed.
End Cut.

(** ** What an accepted frame looked like *)

(** Adjacent slices that cover a buffer rebuild it. *)
Lemma slices_cover {A} (l : list A) a b c :
  (a <= b)%nat -> (b <= c)%nat -> slice a c l = slice a b l ++ slice b c l.
Proof. intros. by rewrite slice_slice_app. Qed.

Lemma to_le_slice n a b l :
  is_bytes l -> (a <= b)%nat -> (b <= length l)%nat -> n = (b - a)%nat ->
  to_le n (from_le (slice a b l)) = slice a b l.
Proof.
  intros Hb Ha Hl ->. rewrite <- (length_slice a b l) by done. apply to_from_le. by apply slice_bytes.
Qed.

Section Sound.
Context `{Crc} `{RecordCodec} `{IndexCodec} `{TimeZones}.

Lemma check_frame_header_inv cfg offset hd s s' h :
  is_bytes hd -> length hd = 24%nat ->
  check_frame_header cfg offset hd s = (s', Ok h) ->
  hd = encode_frame_header (frame_kind h) (item_count h) (payload_len h) (payload_checksum h)
  /\ is_u16 (frame_kind h) /\ is_u32 (item_count h) /\ is_u32 (payload_len h)
  /\ check_frame_kind cfg offset (frame_kind h) (item_count h) (payload_len h) s = (s, Ok tt).
Proof.
  intros Hb Hl E. unfold check_frame_header in E.
  apply st_bind_Ok in E as ([] & s1 & [-> Hmagic]%stop_if_Ok & E).
  apply st_bind_Ok in E as ([] & s2 & [-> Hver]%stop_if_Ok & E).
  apply st_bind_Ok in E as ([] & s3 & [-> Hsum]%stop_if_Ok & E).
  apply st_bind_Ok in E as ([] & s4 & Hkind & E).
  apply pure_check_Ok in Hkind as [-> Hkind]; [|apply check_frame_kind_pure].
  injection E as <- <-. cbn [frame_kind item_count payload_len payload_checksum].
  apply negb_false_iff in Hmagic, Hver, Hsum. apply bytes_eqb_true in Hmagic.
  apply Z.eqb_eq in Hver, Hsum.
  assert (Hbound : forall a b, is_bytes (slice a b hd)) by (intros; by apply slice_bytes).
  assert (Hle : forall n a b, (a <= b)%nat -> (b <= 24)%nat -> n = (b - a)%nat ->
    to_le n (from_le (slice a b hd)) = slice a b hd) by (intros; by apply to_le_slice; rewrite ?Hl).
  assert (Hpre : frame_header_prefix (from_le (slice 6 8 hd)) (from_le (slice 8 12 hd))
                   (from_le (slice 12 16 hd)) (from_le (slice 16 20 hd)) = slice 0 20 hd).
  { unfold frame_header_prefix. rewrite <- Hmagic, <- Hver, !Hle by lia.
    rewrite !slice_slice_app by lia. done. }
  split_and!.
  - unfold encode_frame_header. rewrite Hpre, Hsum, Hle by lia.
    rewrite slice_slice_app by lia. symmetry. by apply slice_all.
  - pose proof (from_le_bound _ (Hbound 6%nat 8%nat)) as Hr. rewrite length_slice in Hr by lia. done.
  - pose proof (from_le_bound _ (Hbound 8%nat 12%nat)) as Hr. rewrite length_slice in Hr by lia. done.
  - pose proof (from_le_bound _ (Hbound 12%nat 16%nat)) as Hr. rewrite length_slice in Hr by lia. done.
  - apply Hkind.
Qed.

(** An accepted frame is the encoding of a frame that replays. *)
Lemma frame_accepted_frame cfg rest offset s flen s2 :
  is_bytes rest -> frame_accepted cfg rest offset s flen s2 ->
  exists f, typed_frame f /\ flen = frame_size f
    /\ rest = frame_bytes f ++ drop (Z.to_nat flen) rest
    /\ replay_frame cfg offset f s = (s2, Ok tt).
Proof.
  intros Hb (Hlen & h & Hh & Hflen & Hsum & Hbody).
  assert (H24 : length (take FRAME_HEADER_BYTES rest) = 24%nat)
    by (rewrite length_take; unfold zlen, FRAME_HEADER_BYTES in *; lia).
  destruct (check_frame_header_inv _ _ _ _ _ _ (Forall_take _ _ _ Hb) H24 Hh)
    as (Hhd & Hk & Hn & Hl & Hck).
  set (payload := slice 24 (Z.to_nat flen) rest) in *.
  assert (Hpl : len payload = payload_len h).
  { unfold payload, zlen in *. rewrite length_slice by lia. lia. }
  exists (mkFrame (frame_kind h) (item_count h) payload). split_and!.
  - split_and!; cbn [fr_kind fr_items fr_payload]; try done; [by rewrite Hpl|by apply slice_bytes].
  - unfold frame_size. cbn [fr_payload]. lia.
  - unfold frame_bytes, encode_frame. cbn [fr_kind fr_items fr_payload].
    rewrite Hpl, Hsum, <- Hhd. unfold payload, slice, FRAME_HEADER_BYTES.
    rewrite take_take_drop. replace (24 + (Z.to_nat flen - 24))%nat with (Z.to_nat flen) by lia.
    by rewrite take_drop.
  - unfold replay_frame. cbn [fr_kind fr_items fr_payload]. rewrite Hpl, Hsum.
    unfold st_bind at 1. rewrite Hck. by destruct h.
Qed.

(** A scan that does not fail consumed exactly a list of intact frames. *)
Lemma scan_frames_sound fuel cfg rest offset s s' offset' stop :
  is_bytes rest -> (length rest < fuel)%nat ->
  scan_frames fuel cfg rest offset s = (s', offset', stop) -> is_error stop = false ->
  exists fs left s1, rest = frames_bytes fs ++ left /\ Forall typed_frame fs
    /\ replay_frames cfg offset fs s = (s1, Ok tt) /\ offset' = offset + len (frames_bytes fs)
    /\ log s' = log s1
    /\ match stop with
       | EndOfLog => left = []
       | EndTorn t n => len left = n /\ 0 < n /\ t <> TailNone
       | EndError _ => False
       end.
Proof.
  revert rest offset s. induction fuel as [|fuel IH]; intros rest offset s Hb Hf E Hstop; [lia|].
  destruct (scan_frames_cases fuel cfg rest offset s Hb)
    as [(t & stop' & Et & _ & Hlog & Htail)|(flen & s2 & Ha)].
  - rewrite Et in E. injection E as <- <- ->. exists [], rest, s. split_and!; try done.
    + unfold zlen. simpl. lia.
    + symmetry. by apply Hlog.
    + by destruct stop.
  - rewrite (scan_frames_accepted fuel _ _ _ _ _ _ Ha) in E. pose proof (proj1 Ha) as Hlen.
    destruct (frame_accepted_frame _ _ _ _ _ _ Hb Ha) as (f & Hft & Hsz & Hrest & Hrep).
    destruct (IH (drop (Z.to_nat flen) rest) (offset + flen) s2) as
      (fs & left & s1 & Hd & Ht & Hr & Hoff & Hlog & Htail); [by apply Forall_drop| |done|done|].
    { rewrite length_drop. unfold zlen in *. lia. }
    exists (f :: fs), left, s1. split_and!; try done.
    + unfold frames_bytes. cbn [map concat]. rewrite <- app_assoc. fold (frames_bytes fs).
      by rewrite <- Hd.
    + by constructor.
    + cbn [replay_frames]. unfold st_bind. rewrite Hrep, <- Hsz. done.
    + rewrite Hoff, Hsz. unfold frames_bytes. cbn [map concat]. fold (frames_bytes fs).
      unfold zlen, frame_size, zlen. rewrite length_app, length_frame_bytes. lia.
Qed.
End Sound.
