(* ===== verification/LogInv.v ===== *)
(** * LogInv: invariants of every replayed log

    What a scan guarantees about the state it rebuilds, whatever the bytes were:
    the catalog is sound, receipts sit under their own keys, commit identifiers
    are unique across both kinds of receipts, and the cursor of every source is
    the greatest sequence it ever committed. *)
From S2P Require Import Prelude Errors Bytes Float64 Model Transaction Catalog Query Codec Effects Scan.

Record wf_ingress (s : LogState) : Prop := {
  wi_key : forall k r, ingress_receipts s !! k = Some r ->
    key_of (ir_identity r) = k /\ source_id (ir_identity r) <> 0;
  wi_bound : forall k r, ingress_receipts s !! k = Some r ->
    exists n, ingress_last_sequences s !! k.1 = Some n /\ k.2 <= n;
  wi_last : forall src n, ingress_last_sequences s !! src = Some n ->
    is_Some (ingress_receipts s !! (src, n));
  wi_commit : forall c k, ingress_commit_ids s !! c = Some k <->
    exists r, ingress_receipts s !! k = Some r /\ commit_id (ir_identity r) = c;
  wi_ids : forall c, c ∈ commit_ids s <->
    is_Some (identified_receipts s !! c) \/ is_Some (ingress_commit_ids s !! c);
  wi_disjoint : forall c, is_Some (identified_receipts s !! c) -> ingress_commit_ids s !! c = None;
}.

Definition wf_log `{TimeZones} (s : LogState) : Prop :=
  wf_catalog (catalog s) /\ index_keyed (index s) /\ wf_ingress s.

(** How the ordered part of the state grows: no receipt is lost or changed, a
    new receipt lies above the cursor its source had, cursors never go back. *)
Record grow (s s' : LogState) : Prop := {
  gr_receipts : forall k r, ingress_receipts s !! k = Some r -> ingress_receipts s' !! k = Some r;
  gr_new : forall k r, ingress_receipts s' !! k = Some r ->
    ingress_receipts s !! k = Some r \/
    forall n, ingress_last_sequences s !! k.1 = Some n -> n < k.2;
  gr_last : forall src n, ingress_last_sequences s !! src = Some n ->
    exists m, ingress_last_sequences s' !! src = Some m /\ n <= m;
  gr_ids : forall c, c ∈ commit_ids s -> c ∈ commit_ids s';
}.

#[export] Instance grow_refl : Reflexive grow.
Proof. intros s. constructor; eauto. intros src n E. exists n. split; [done|lia]. Qed.

#[export] Instance grow_trans : Transitive grow.
Proof.
  intros a b c [A1 A2 A3 A4] [B1 B2 B3 B4]. constructor; auto.
  - intros k r Hk. destruct (B2 k r Hk) as [Hb|Hb]; [by apply A2|].
    right. intros n Hn. destruct (A3 _ _ Hn) as (m & Hm & Hle). specialize (Hb _ Hm). lia.
  - intros src n Hn. destruct (A3 _ _ Hn) as (m & Hm & Hle). destruct (B3 _ _ Hm) as (p & Hp & Hle').
    exists p. split; [done|lia].
Qed.

(** Two states with the same receipts. *)
Record same_ids (s s' : LogState) : Prop := {
  sd_receipts : ingress_receipts s' = ingress_receipts s;
  sd_last : ingress_last_sequences s' = ingress_last_sequences s;
  sd_commit : ingress_commit_ids s' = ingress_commit_ids s;
  sd_identified : identified_receipts s' = identified_receipts s;
  sd_ids : commit_ids s' = commit_ids s;
}.

Lemma grow_same_r a s s' : same_ids s s' -> grow a s -> grow a s'.
Proof. intros [E1 E2 E3 E4 E5] []. constructor; rewrite ?E1, ?E2, ?E5; done. Qed.

Lemma grow_same s s' : same_ids s s' -> grow s s'.
Proof. intros E. eapply grow_same_r; [exact E|reflexivity]. Qed.

Lemma wf_ingress_same s s' : same_ids s s' -> wf_ingress s -> wf_ingress s'.
Proof. intros [E1 E2 E3 E4 E5] []. constructor; rewrite ?E1, ?E2, ?E3, ?E4, ?E5; done. Qed.

(** The identities a state admits. *)
Definition admits (s : LogState) (i : IngressIdentity) : Prop :=
  source_id i <> 0 /\ ingress_receipts s !! key_of i = None /\ (commit_id i ∉ commit_ids s)
  /\ forall n, ingress_last_sequences s !! source_id i = Some n -> n < sequence i.

Lemma grow_insert_ingress s i r :
  admits s i -> grow s (insert_ingress i r (add_commit_id (commit_id i) s)).
Proof.
  intros (Hsrc & Hkey & Hid & Hord). constructor; simpl.
  - intros k r' Hk. rewrite lookup_insert_ne; [done|]. intros <-. congruence.
  - intros k r' Hk. destruct (decide (k = key_of i)) as [->|Hne].
    + right. exact Hord.
    + rewrite lookup_insert_ne in Hk by done. by left.
  - intros src n Hn. destruct (decide (src = source_id i)) as [->|Hne].
    + exists (sequence i). rewrite lookup_insert_eq. split; [done|]. apply Hord in Hn. lia.
    + exists n. rewrite lookup_insert_ne by done. split; [done|lia].
  - set_solver.
Qed.

Lemma wf_insert_ingress s i r :
  admits s i -> ir_identity r = i -> wf_ingress s ->
  wf_ingress (insert_ingress i r (add_commit_id (commit_id i) s)).
Proof.
  intros (Hsrc & Hkey & Hid & Hord) Hri [W1 W2 W3 W4 W5 W6].
  assert (Hfresh : ingress_commit_ids s !! commit_id i = None /\ identified_receipts s !! commit_id i = None).
  { split; apply eq_None_not_Some; intros Hs; apply Hid, W5; auto. }
  destruct Hfresh as [Hf1 Hf2]. constructor; simpl.
  - intros k r'. destruct (decide (k = key_of i)) as [->|Hne].
    + rewrite lookup_insert_eq. intros [= <-]. by rewrite Hri.
    + rewrite lookup_insert_ne by done. apply W1.
  - intros k r'. destruct (decide (k = key_of i)) as [->|Hne].
    + rewrite lookup_insert_eq. intros _. exists (sequence i). simpl. rewrite lookup_insert_eq. split; [done|lia].
    + rewrite lookup_insert_ne by done. intros Hk. destruct (W2 _ _ Hk) as (n & Hn & Hle).
      destruct (decide (k.1 = source_id i)) as [E|E].
      * exists (sequence i). rewrite E, lookup_insert_eq. rewrite E in Hn. apply Hord in Hn. split; [done|lia].
      * exists n. by rewrite lookup_insert_ne.
  - intros src n. destruct (decide (src = source_id i)) as [->|Hne].
    + rewrite lookup_insert_eq. intros [= <-]. fold (key_of i). rewrite lookup_insert_eq. eauto.
    + rewrite !lookup_insert_ne by (done || intros [=]; congruence). apply W3.
  - intros c k. destruct (decide (c = commit_id i)) as [->|Hne].
    + rewrite lookup_insert_eq. split.
      * intros [= <-]. exists r. rewrite lookup_insert_eq. by rewrite Hri.
      * intros (r' & Hr' & Hc). destruct (decide (k = key_of i)) as [->|Hk]; [done|].
        rewrite lookup_insert_ne in Hr' by done.
        assert (ingress_commit_ids s !! commit_id i = Some k) by (apply W4; eauto). congruence.
    + rewrite lookup_insert_ne by done. rewrite W4. split; intros (r' & Hr' & Hc); exists r'.
      * rewrite lookup_insert_ne; [done|]. intros <-. congruence.
      * destruct (decide (k = key_of i)) as [->|Hk]; [|by rewrite lookup_insert_ne in Hr'].
        rewrite lookup_insert_eq in Hr'. injection Hr' as <-. congruence.
  - intros c. rewrite elem_of_union, elem_of_singleton, W5.
    destruct (decide (c = commit_id i)) as [->|Hne].
    + rewrite lookup_insert_eq. split; eauto.
    + rewrite lookup_insert_ne by done. split; [intros [|]; [done|done]|auto].
  - intros c Hc. destruct (decide (c = commit_id i)) as [->|Hne]; [rewrite Hf2 in Hc; by destruct Hc|].
    rewrite lookup_insert_ne by done. by apply W6.
Qed.

Lemma wf_insert_identified s id r :
  id ∉ commit_ids s -> wf_ingress s -> wf_ingress (insert_identified id r (add_commit_id id s)).
Proof.
  intros Hid [W1 W2 W3 W4 W5 W6]. constructor; simpl; try done.
  - intros c. rewrite elem_of_union, elem_of_singleton, W5.
    destruct (decide (c = id)) as [->|Hne].
    + rewrite lookup_insert_eq. split; eauto.
    + rewrite lookup_insert_ne by done. split; [intros [|]; [done|done]|auto].
  - intros c. destruct (decide (c = id)) as [->|Hne].
    + intros _. apply eq_None_not_Some. intros Hs. apply Hid, W5. by right.
    + rewrite lookup_insert_ne by done. apply W6.
Qed.

Lemma grow_insert_identified s id r : grow s (insert_identified id r (add_commit_id id s)).
Proof.
  constructor; simpl; try done; eauto.
  - intros src n E. exists n. split; [done|lia].
  - set_solver.
Qed.

Lemma wf_ingress_empty : wf_ingress LogState_empty.
Proof.
  constructor; simpl; try (intros *; rewrite ?lookup_empty; naive_solver).
  intros c. rewrite !lookup_empty. set_solver.
Qed.

Lemma wf_log_empty `{TimeZones} : wf_log LogState_empty.
Proof.
  split_and!; [apply wf_catalog_default| |apply wf_ingress_empty].
  intros s l E. cbn [index LogState_empty] in E. by rewrite lookup_empty in E.
Qed.

Lemma push_indexed_keyed m ps : index_keyed m -> index_keyed (foldl push_indexed_point m ps).
Proof.
  revert m. induction ps as [|p ps IH]; intros m Hm; simpl; [done|]. apply IH.
  intros s l. unfold push_indexed_point. destruct (decide (s = series p)) as [->|Hne].
  - rewrite lookup_insert_eq. intros [= <-]. apply Forall_app. split; [|by repeat constructor].
    unfold series_points. destruct (m !! series p) eqn:E; [by eapply Hm|constructor].
  - rewrite lookup_insert_ne by done. apply Hm.
Qed.

(** ** Every successful step of the scan keeps the invariants *)

Section Steps.
Context `{Crc} `{RecordCodec} `{IndexCodec} `{TimeZones}.

Definition evolves (s s' : LogState) : Prop := grow s s' /\ (wf_log s -> wf_log s').

#[local] Instance evolves_refl : Reflexive evolves.
Proof. intros s. split; [reflexivity|done]. Qed.
#[local] Instance evolves_trans : Transitive evolves.
Proof. intros a b c [A1 A2] [B1 B2]. split; [by etrans|auto]. Qed.

Lemma insert_commit_id_Ok id offset r s s' u :
  insert_commit_id id offset r s = (s', Ok u) ->
  (id ∉ commit_ids (log s)) /\ log s' = add_commit_id id (log s).
Proof.
  unfold insert_commit_id. intros (t & s1 & [= -> ->] & E)%st_bind_Ok.
  apply st_bind_Ok in E as ([] & s2 & [-> Hid]%stop_if_Ok & [= <- <-]).
  by apply bool_decide_eq_false in Hid.
Qed.

Lemma check_ingress_identity_Ok i offset a b c e s s' u :
  check_ingress_identity i offset a b c e s = (s', Ok u) ->
  admits (log s) i /\ log s' = add_commit_id (commit_id i) (log s).
Proof.
  unfold check_ingress_identity. intros ([] & s1 & [-> Hz]%stop_if_Ok & E)%st_bind_Ok.
  apply st_bind_Ok in E as (t & s2 & [= -> ->] & E).
  apply st_bind_Ok in E as ([] & s3 & [-> Hk]%stop_if_Ok & E).
  apply st_bind_Ok in E as ([] & s4 & [Hid Hlog]%insert_commit_id_Ok & [-> Hord]%stop_if_Ok).
  split; [|done]. split_and!; [by apply Z.eqb_neq| |done|].
  - by destruct (ingress_receipts (log t) !! key_of i).
  - intros n Hn. rewrite Hn in Hord. simpl in Hord. zlia.
Qed.

(** The body of a transaction frame changes the catalog and the points. *)
Lemma apply_records_frame_Ok cfg offset p n s s' rs :
  apply_records_frame cfg offset p n s = (s', Ok rs) ->
  same_ids (log s) (log s') /\
  (wf_catalog (catalog (log s)) -> wf_catalog (catalog (log s'))) /\
  (index_keyed (index (log s)) -> index_keyed (index (log s'))).
Proof.
  unfold apply_records_frame. intros (rs' & s1 & [-> _]%halt_on_Ok & E)%st_bind_Ok.
  apply st_bind_Ok in E as (t & s2 & [= -> ->] & E).
  apply st_bind_Ok in E as (c & s3 & [-> Hc]%halt_on_Ok & E).
  apply st_bind_Ok in E as ([] & s4 & [= <-] & E).
  apply st_bind_Ok in E as ([] & s5 & [-> _]%stop_if_Ok & E).
  apply st_bind_Ok in E as ([] & s6 & [= <-] & [= <- <-]). cbn [log].
  assert (Hfold : forall rs l, same_ids l (foldl replay_record l rs)
            /\ catalog (foldl replay_record l rs) = catalog l
            /\ (index_keyed (index l) -> index_keyed (index (foldl replay_record l rs)))).
  { clear. induction rs as [|r rs IH]; intros l; [done|]. cbn [foldl].
    destruct (IH (replay_record l r)) as ([] & E & Hk). split_and!.
    - destruct r; simpl in *; by constructor.
    - rewrite E. by destruct r.
    - intros Hl. apply Hk. destruct r; simpl; try done. by apply push_indexed_keyed. }
  destruct (Hfold rs' (set_catalog c (log t))) as ([] & E & Hk). split_and!.
  - by constructor.
  - intros Hw. rewrite E. simpl. revert Hc. unfold apply_recovered.
    destruct (apply_records _ rs') as [[c'|]|] eqn:Ea; intros [= <-]; [|done].
    by eapply apply_records_wf.
  - by apply Hk.
Qed.

(** The three ways a frame changes the state, each after its checks. *)
Lemma evolves_body s s' :
  same_ids s s' -> (wf_catalog (catalog s) -> wf_catalog (catalog s')) ->
  (index_keyed (index s) -> index_keyed (index s')) -> evolves s s'.
Proof.
  intros E Hc Hi. split; [by apply grow_same|]. intros (W1 & W2 & W3).
  split_and!; auto. by eapply wf_ingress_same.
Qed.

Lemma evolves_identified s s' id r :
  id ∉ commit_ids s -> same_ids (add_commit_id id s) s' ->
  (wf_catalog (catalog s) -> wf_catalog (catalog s')) ->
  (index_keyed (index s) -> index_keyed (index s')) -> evolves s (insert_identified id r s').
Proof.
  intros Hid E Hc Hi.
  assert (E' : same_ids (insert_identified id r (add_commit_id id s)) (insert_identified id r s')).
  { destruct E. simpl in *. constructor; simpl; congruence. }
  split; [eapply grow_same_r; [exact E'|apply grow_insert_identified]|].
  intros (W1 & W2 & W3). split_and!; simpl; auto.
  eapply wf_ingress_same; [exact E'|]. by apply wf_insert_identified.
Qed.

Lemma evolves_ingress s s' i r :
  admits s i -> ir_identity r = i -> same_ids (add_commit_id (commit_id i) s) s' ->
  (wf_catalog (catalog s) -> wf_catalog (catalog s')) ->
  (index_keyed (index s) -> index_keyed (index s')) -> evolves s (insert_ingress i r s').
Proof.
  intros Hi Hr E Hc Hk.
  assert (E' : same_ids (insert_ingress i r (add_commit_id (commit_id i) s)) (insert_ingress i r s')).
  { destruct E. simpl in *. constructor; simpl; congruence. }
  split; [eapply grow_same_r; [exact E'|by apply grow_insert_ingress]|].
  intros (W1 & W2 & W3). split_and!; simpl; auto.
  eapply wf_ingress_same; [exact E'|]. by apply wf_insert_ingress.
Qed.

Lemma same_ids_refl s : same_ids s s.
Proof. done. Qed.

Lemma apply_compact_identified_evolves offset r s s' :
  apply_compact_identified offset r s = (s', Ok tt) -> evolves (log s) (log s').
Proof.
  unfold apply_compact_identified. intros ([] & s1 & [-> _]%stop_if_Ok & E)%st_bind_Ok.
  apply st_bind_Ok in E as (pn & s2 & [-> _]%halt_on_Ok & E).
  apply st_bind_Ok in E as (rn & s3 & [-> _]%halt_on_Ok & E).
  apply st_bind_Ok in E as (cp & s4 & Hcp & E).
  assert (s4 = s) as ->.
  { destruct (cid_payload r); [by injection Hcp as <-|].
    apply st_bind_Ok in Hcp as ([] & s5 & [-> _]%stop_if_Ok & Hcp).
    apply st_bind_Ok in Hcp as ([] & s6 & [-> _]%halt_on_Ok & [= <- _]). done. }
  apply st_bind_Ok in E as ([] & s5 & [Hid Hlog]%insert_commit_id_Ok & [= <-]). cbn [log].
  eapply evolves_identified; [exact Hid|by rewrite Hlog|by rewrite Hlog..].
Qed.

Lemma apply_compact_ingress_evolves offset r s s' :
  apply_compact_ingress offset r s = (s', Ok tt) -> evolves (log s) (log s').
Proof.
  unfold apply_compact_ingress. intros ([] & s1 & [-> _]%stop_if_Ok & E)%st_bind_Ok.
  apply st_bind_Ok in E as (pn & s2 & [-> _]%halt_on_Ok & E).
  apply st_bind_Ok in E as (rn & s3 & [-> _]%halt_on_Ok & E).
  apply st_bind_Ok in E as (cp & s4 & Hcp & E).
  assert (s4 = s) as ->.
  { destruct (cin_canonical_payload r); [by injection Hcp as <-|].
    apply st_bind_Ok in Hcp as ([] & s5 & [-> _]%stop_if_Ok & Hcp).
    apply st_bind_Ok in Hcp as ([] & s6 & [-> _]%halt_on_Ok & [= <- _]). done. }
  apply st_bind_Ok in E as ([] & s5 & [Had Hlog]%check_ingress_identity_Ok & [= <-]). cbn [log].
  eapply evolves_ingress; [exact Had|done|by rewrite Hlog|by rewrite Hlog..].
Qed.

Lemma st_for_each_evolves {A} (f : A -> Scanner unit) l s s' :
  (forall x s s', f x s = (s', Ok tt) -> evolves (log s) (log s')) ->
  st_for_each f l s = (s', Ok tt) -> evolves (log s) (log s').
Proof.
  intros Hf. revert s. induction l as [|x l IH]; intros s E; simpl in E.
  - injection E as <-. reflexivity.
  - apply st_bind_Ok in E as ([] & s1 & E1 & E2). etrans; [by eapply Hf|by apply IH].
Qed.

Lemma apply_payload_evolves cfg offset h p s s' :
  apply_payload cfg offset h p s = (s', Ok tt) -> evolves (log s) (log s').
Proof.
  unfold apply_payload. destruct (_ =? _).
  { intros ([] & s1 & [-> _]%stop_if_Ok & [= <-])%st_bind_Ok.
    apply evolves_body; [done|done|]. apply push_indexed_keyed. }
  destruct (_ =? _).
  { intros (t & s1 & [= -> ->] & E)%st_bind_Ok.
    apply st_bind_Ok in E as ([] & s2 & [-> _]%stop_if_Ok & E).
    destruct (bool_decide _); injection E as <-; [|reflexivity].
    apply evolves_body; [done|done|]. intros _ k l E. cbn in E. by rewrite lookup_empty in E. }
  destruct (_ =? _).
  { unfold apply_identity_index. intros (i & s1 & [-> _]%halt_on_Ok & E)%st_bind_Ok.
    apply st_bind_Ok in E as ([] & s2 & E1 & E2). etrans.
    - eapply st_for_each_evolves; [|exact E1]. intros. by eapply apply_compact_identified_evolves.
    - eapply st_for_each_evolves; [|exact E2]. intros. by eapply apply_compact_ingress_evolves. }
  destruct (_ =? _).
  { intros ([] & s1 & [Hid Hlog]%insert_commit_id_Ok & E)%st_bind_Ok.
    apply st_bind_Ok in E as (rs & s2 & (Hs & Hc & Hk)%apply_records_frame_Ok & [= <-]).
    rewrite Hlog in *. by eapply evolves_identified. }
  destruct (_ =? _).
  { intros ([] & s1 & [Had Hlog]%check_ingress_identity_Ok & E)%st_bind_Ok.
    apply st_bind_Ok in E as (rs & s2 & (Hs & Hc & Hk)%apply_records_frame_Ok & [= <-]).
    rewrite Hlog in *. by eapply evolves_ingress. }
  intros (rs & s2 & (Hs & Hc & Hk)%apply_records_frame_Ok & [= <-])%st_bind_Ok.
  by apply evolves_body.
Qed.

Lemma replay_frame_evolves cfg offset f s s' :
  replay_frame cfg offset f s = (s', Ok tt) -> evolves (log s) (log s').
Proof.
  unfold replay_frame. intros ([] & s1 & Hk & E)%st_bind_Ok.
  apply pure_check_Ok in Hk as [-> _]; [|apply check_frame_kind_pure].
  apply st_bind_Ok in E as ([] & s2 & E & [= <-]). apply apply_payload_evolves in E.
  etrans; [exact E|]. by apply evolves_body.
Qed.

(** Replaying any list of frames keeps the invariants and only extends the
    ordered part of the state. *)
Lemma replay_frames_evolves cfg offset fs s s' :
  replay_frames cfg offset fs s = (s', Ok tt) -> evolves (log s) (log s').
Proof.
  revert offset s. induction fs as [|f fs IH]; intros offset s E; simpl in E.
  - injection E as <-. reflexivity.
  - apply st_bind_Ok in E as ([] & s1 & E1 & E2). etrans; [by eapply replay_frame_evolves|by eapply IH].
Qed.
End Steps.
