(* ===== verification/Database.v ===== *)
(** * Database: the single-writer embedded database of [src/src/storage.rs]

    Opening a log, appending point batches, committing transactions with and
    without retry identities, durability, and the seal and reclaim protocol.
    Every method is a function of the whole handle, its file included. *)
From S2P Require Import Prelude Errors Bytes Float64 Model Transaction Catalog Query Codec Effects Scan.

(** ** Configuration *)

Inductive Durability :=
  | Always
  | EveryBytes (threshold : Z)
  | Manual.

Record Config := mkConfig {
  durability : Durability;
  cfg_max_batch_points : Z;
  cfg_max_transaction_bytes : Z;
}.

Definition Config_default : Config := mkConfig Always 262144 (64 * 1024 * 1024).

Definition validate_config (c : Config) : Result unit :=
  reject (cfg_max_batch_points c =? 0) (InvalidConfig "max_batch_points must be positive") ;?
  reject (u32_max <? cfg_max_batch_points c)
    (InvalidConfig "max_batch_points exceeds the on-disk u32 count") ;?
  reject (cfg_max_transaction_bytes c <? 20)
    (InvalidConfig "max_transaction_bytes is too small for one record") ;?
  reject (u32_max <? cfg_max_transaction_bytes c)
    (InvalidConfig "max_transaction_bytes exceeds the on-disk u32 length") ;?
  reject (match durability c with EveryBytes n => n =? 0 | _ => false end)
    (InvalidConfig "EveryBytes durability threshold must be positive").

Definition scan_config (c : Config) (seals : gset Z) : ScanConfig :=
  mkScanConfig (cfg_max_batch_points c) (cfg_max_transaction_bytes c) seals.

(** ** The handle *)

Record IngressWatermarks := mkWatermarks {
  accepted_through : option Z;
  durable_through : option Z;
}.

Record IngressReceipt := mkReceipt {
  rc_identity : IngressIdentity;
  rc_frame_offset : Z;
  rc_records : Z;
  rc_points : Z;
  rc_bytes_written : Z;
  rc_durable : bool;
}.

Record Stats := mkStats {
  st_points : Z;
  st_commits : Z;
  st_series : Z;
  st_catalog_records : Z;
  st_file_bytes : Z;
  st_recovered_tail_bytes : Z;
  st_recovered_tail : RecoveredTail;
}.

(** A handle.  [renamed_log] is not a field of the struct: it is what the path
    of the log names when that is no longer the handle's file. *)
Record Database {Seg : Type} := mkDb {
  file : File;
  config : Config;
  read_only : bool;
  state : LogState;
  sealed : list Seg;
  sealed_points : Z;
  ingress_durable_sequences : gmap Z Z;
  tail_bytes : Z;
  tail : RecoveredTail;
  bytes_since_sync : Z;
  poisoned : bool;
  renamed_log : option File;
}.
Arguments Database : clear implicits.

Section Setters.
Context {Seg : Type}.
Definition set_file (v : File) (d : Database Seg) : Database Seg :=
  mkDb _ v (config d) (read_only d) (state d) (sealed d) (sealed_points d)
    (ingress_durable_sequences d) (tail_bytes d) (tail d) (bytes_since_sync d) (poisoned d) (renamed_log d).
Definition set_state (v : LogState) (d : Database Seg) : Database Seg :=
  mkDb _ (file d) (config d) (read_only d) v (sealed d) (sealed_points d)
    (ingress_durable_sequences d) (tail_bytes d) (tail d) (bytes_since_sync d) (poisoned d) (renamed_log d).
Definition set_sealed (v : list Seg) (n : Z) (d : Database Seg) : Database Seg :=
  mkDb _ (file d) (config d) (read_only d) (state d) v n
    (ingress_durable_sequences d) (tail_bytes d) (tail d) (bytes_since_sync d) (poisoned d) (renamed_log d).
Definition set_durable (v : gmap Z Z) (d : Database Seg) : Database Seg :=
  mkDb _ (file d) (config d) (read_only d) (state d) (sealed d) (sealed_points d)
    v (tail_bytes d) (tail d) (bytes_since_sync d) (poisoned d) (renamed_log d).
Definition set_bytes_since_sync (v : Z) (d : Database Seg) : Database Seg :=
  mkDb _ (file d) (config d) (read_only d) (state d) (sealed d) (sealed_points d)
    (ingress_durable_sequences d) (tail_bytes d) (tail d) v (poisoned d) (renamed_log d).
Definition set_poisoned (v : bool) (d : Database Seg) : Database Seg :=
  mkDb _ (file d) (config d) (read_only d) (state d) (sealed d) (sealed_points d)
    (ingress_durable_sequences d) (tail_bytes d) (tail d) (bytes_since_sync d) v (renamed_log d).
Definition set_tail (n : Z) (t : RecoveredTail) (d : Database Seg) : Database Seg :=
  mkDb _ (file d) (config d) (read_only d) (state d) (sealed d) (sealed_points d)
    (ingress_durable_sequences d) n t (bytes_since_sync d) (poisoned d) (renamed_log d).
Definition set_renamed_log (v : option File) (d : Database Seg) : Database Seg :=
  mkDb _ (file d) (config d) (read_only d) (state d) (sealed d) (sealed_points d)
    (ingress_durable_sequences d) (tail_bytes d) (tail d) (bytes_since_sync d) (poisoned d) v.

(** The file that the path of the log names: the handle's own one, unless a
    reclaim renamed its compact log over the path and then failed to sync the
    directory, which leaves the handle poisoned and on the replaced file. *)
Definition log_at_path (d : Database Seg) : File := default (file d) (renamed_log d).
End Setters.

(** How the advisory lock request on the log file ends. *)
Inductive LockResult := LockAcquired | LockWouldBlock | LockFailed (kind : string).

Definition should_sync (d : Durability) (dirty : Z) : bool :=
  match d with
  | Always => true
  | EveryBytes threshold => threshold <=? dirty
  | Manual => false
  end.

(** Errors after which the writer refuses to go on. *)
Definition poisons (e : Error) : bool :=
  match e with Io _ | Corruption _ _ => true | _ => false end.

Definition set_commit_durable (b : bool) (c : Commit) : Commit :=
  mkCommit (cm_frame_offset c) (cm_points c) (cm_records c) (cm_bytes_written c) b (cm_deduplicated c).
Definition set_receipt_durable (b : bool) (r : StoredIngressReceipt) : StoredIngressReceipt :=
  mkIngressReceipt (ir_identity r) (ir_canonical_payload_offset r) (ir_canonical_payload_len r)
    (ir_canonical_payload_crc32 r) (ir_compact_payload r) (set_commit_durable b (ir_commit r)).
Definition set_ingress_receipts (v : gmap IngressKey StoredIngressReceipt) (s : LogState) : LogState :=
  mkLog (index s) (catalog s) (commit_ids s) (identified_receipts s) v
    (ingress_commit_ids s) (ingress_last_sequences s) (commits s) (points s) (catalog_records s)
    (pending_reclaim s).
(** [for receipt in ingress_receipts.values_mut() { receipt.commit.durable = true }]. *)
Definition receipts_durable (s : LogState) : LogState :=
  set_ingress_receipts (set_receipt_durable true <$> ingress_receipts s) s.

(** The order in which [HashMap::values] visits the live index is unspecified. *)
Class MapOrder := {
  index_values : Index -> list (list Point);
  index_values_perm : forall m, index_values m ≡ₚ (map_to_list m).*2;
}.

Section Database.
Context `{Crc} `{RecordCodec} `{IndexCodec} `{TimeZones} {Seg : Type}.

Abbreviation Db := (Database Seg).
Abbreviation DB := (ST (Database Seg)).

Definition on_file {A} (m : ST File A) : DB A := st_zoom file set_file m.
Definition modify (f : Db -> Db) : DB unit := st_modify f.
Definition upd_log (f : LogState -> LogState) : DB unit :=
  st_modify (fun d => set_state (f (state d)) d).

(** ** Opening *)

Definition write_database_header : ST File unit :=
  let* _ := f_call (fun f => (f, Ok tt)) in
  f_write_all database_header ;* f_sync.

(** [sync_parent_directory]: no effect on the file itself. *)
Definition sync_parent_directory : ST File unit := f_call (fun f => (f, Ok tt)).

Definition open_file (lock : LockResult) (cfg : Config) (ro : bool) (seals : gset Z) : ST File Db :=
  match lock with
  | LockWouldBlock => st_err Locked
  | LockFailed kind => st_err (Io kind)
  | LockAcquired =>
      let* length := f_len in
      (if ro then st_reject (length <? Z.of_nat DATABASE_HEADER_BYTES) InvalidHeader
       else if length =? 0 then write_database_header ;* sync_parent_directory
       else st_ret tt) ;*
      let* scan := scan_log (scan_config cfg seals) (Recover ro) in
      let* log_durable :=
        (if ro then st_ret (scan_state scan, ∅)
         else f_sync ;* st_ret (receipts_durable (scan_state scan),
                                ingress_last_sequences (scan_state scan))) in
      let* f := st_get in
      st_ret (mkDb Seg f cfg ro log_durable.1 [] 0 log_durable.2
                (recovered_tail_bytes scan) (recovered_tail scan) 0 false None)
  end.

(** [Database::open_mode].  The path holds a regular file or nothing. *)
Definition open_mode (lock : LockResult) (cfg : Config) (ro : bool) (seals : gset Z)
    (path : option File) : option File * Result Db :=
  match validate_config cfg with
  | Err e => (path, Err e)
  | Ok _ =>
      match (if ro then path else Some (default (mkFile [] 0 []) path)) with
      | None => (None, Err (Io "NotFound"))
      | Some f => let '(f', r) := open_file lock cfg ro seals f in (Some f', r)
      end
  end.

Definition open_with (lock : LockResult) (cfg : Config) := open_mode lock cfg false ∅.
Definition open (lock : LockResult) := open_with lock Config_default.
Definition open_read_only (lock : LockResult) := open_mode lock Config_default true ∅.

(** ** Writing frames *)

Definition mark_ingress_durable (d : Db) : Db :=
  set_durable (ingress_last_sequences (state d)) d.

(** The closure of [write_frame] and [append]: both writes, then the sync the
    durability mode asks for. *)
Definition write_and_sync (frame_header payload : bytes) (bytes_written : Z) : DB bool :=
  on_file (f_write_all frame_header) ;*
  on_file (f_write_all payload) ;*
  modify (fun d => set_bytes_since_sync (bytes_since_sync d + bytes_written) d) ;*
  let* d := st_get in
  let sync := should_sync (durability (config d)) (bytes_since_sync d) in
  (if sync then on_file f_sync ;* modify (set_bytes_since_sync 0) else st_ret tt) ;*
  st_ret sync.

(** Any failure inside the closure poisons the handle. *)
Definition poison_on_error {A} (m : DB A) : DB A :=
  fun d => match m d with
           | (d, Ok a) => (d, Ok a)
           | (d, Err e) => (set_poisoned true d, Err e)
           end.

Definition write_frame (frame_header payload : bytes) (bytes_written : Z) : DB bool :=
  let* durable := poison_on_error (write_and_sync frame_header payload bytes_written) in
  (if durable then modify mark_ingress_durable else st_ret tt) ;*
  st_ret durable.

(** The guards every writer method starts with. *)
Definition check_writable : DB unit :=
  let* d := st_get in
  st_reject (read_only d) ReadOnly ;* st_reject (poisoned d) Poisoned.

(** A commit that wrote nothing. *)
Definition empty_commit (deduplicated : bool) : DB Commit :=
  let* offset := on_file f_len in
  let* d := st_get in
  st_ret (mkCommit offset 0 0 0 (bytes_since_sync d =? 0) deduplicated).

Definition insert_points (ps : list Point) (s : LogState) : LogState :=
  set_index (foldl insert_indexed_point (index s) ps) s.

(** [Database::append]. *)
Definition append (ps : list Point) : DB Commit :=
  check_writable ;*
  let* d := st_get in
  let too_large := BatchTooLarge (len ps) (cfg_max_batch_points (config d)) in
  st_reject (cfg_max_batch_points (config d) <? len ps) too_large ;*
  st_lift (validate_point_intervals ps) ;*
  match ps with
  | [] => empty_commit false
  | _ =>
      let* payload_len := st_lift (ok_or (u64_checked_mul (len ps) 72) too_large) in
      let* payload_len_u32 := st_lift (ok_or (u32_try_from payload_len) too_large) in
      let* point_count := st_lift (ok_or (u32_try_from (len ps)) too_large) in
      let payload := encode_points ps in
      let frame_header :=
        encode_frame_header FRAME_KIND_LEGACY_POINTS point_count payload_len_u32 (hash payload) in
      let bytes_written := Z.of_nat FRAME_HEADER_BYTES + len payload in
      let* frame_offset := on_file f_len in
      let* durable := write_frame frame_header payload bytes_written in
      upd_log (insert_points ps) ;*
      upd_log (fun s => set_points (points s + len ps) (set_commits (commits s + 1) s)) ;*
      st_ret (mkCommit frame_offset (len ps) 1 bytes_written durable false)
  end.

(** ** Exact retry checks *)

(** The loop of [identified_payload_matches_at]: 8 KiB reads compared with
    the candidate, failing on the first difference. *)
Fixpoint compare_chunks (fuel : nat) (payload_offset frame_offset : Z) (candidate : bytes)
    (candidate_offset : Z) : ST File unit :=
  match fuel with
  | O => st_err (Panic "identified_payload_matches_at")
  | S fuel =>
      if candidate_offset <? len candidate then
        let chunk_len := Z.min 8192 (len candidate - candidate_offset) in
        let* file_offset := st_lift (ok_or (u64_checked_add payload_offset candidate_offset)
          (Serialization "identified replay offset overflows")) in
        let* stored := f_read_exact_at chunk_len file_offset in
        if negb (bytes_eqb stored (slice (Z.to_nat candidate_offset)
                                     (Z.to_nat (candidate_offset + chunk_len)) candidate)) then
          st_lift (corruption frame_offset "stored identified payload changed after open")
        else compare_chunks fuel payload_offset frame_offset candidate (candidate_offset + chunk_len)
      else st_ret tt
  end.

Definition identified_payload_matches_at (r : StoredIdentifiedReceipt) (candidate : bytes)
    : ST File bool :=
  if negb (len candidate =? dr_payload_len r) || negb (hash candidate =? dr_payload_crc32 r) then
    st_ret false
  else if dr_payload_offset r =? 0 then
    st_ret (bool_decide (dr_compact_payload r = Some candidate))
  else
    let frame_offset := cm_frame_offset (dr_commit r) in
    let* expected := st_lift (ok_or (u64_checked_add frame_offset 24)
      (Serialization "identified replay offset overflows")) in
    if negb (dr_payload_offset r =? expected) then
      st_lift (corruption frame_offset "stored identified receipt offset is invalid")
    else
      let* record_count := st_lift (ok_or (u32_try_from (cm_records (dr_commit r)))
        (Serialization "identified replay record count overflows")) in
      let expected_header := encode_frame_header FRAME_KIND_IDENTIFIED_TRANSACTION record_count
        (dr_payload_len r) (dr_payload_crc32 r) in
      let* stored_header := f_read_exact_at 24 frame_offset in
      if negb (bytes_eqb stored_header expected_header) then
        st_lift (corruption frame_offset "stored identified frame header changed after open")
      else
        compare_chunks (S (length candidate)) (dr_payload_offset r) frame_offset candidate 0 ;*
        st_ret true.

(** A failed read or a changed stored frame poisons the handle. *)
Definition poison_if_broken (m : DB bool) : DB bool :=
  fun d => match m d with
           | (d, Err e) => ((if poisons e then set_poisoned true d else d), Err e)
           | other => other
           end.

Definition identified_payload_matches (r : StoredIdentifiedReceipt) (candidate : bytes) : DB bool :=
  poison_if_broken (on_file (identified_payload_matches_at r candidate)).

(** The loop of [ingress_payload_matches_at]: all chunks are read; the
    stored bytes feed a checksum and the comparison is accumulated. *)
Fixpoint read_chunks (fuel : nat) (payload_offset : Z) (candidate : bytes)
    (candidate_offset : Z) (stored_so_far : bytes) (equal : bool) : ST File (bytes * bool) :=
  match fuel with
  | O => st_err (Panic "ingress_payload_matches_at")
  | S fuel =>
      if candidate_offset <? len candidate then
        let chunk_len := Z.min 8192 (len candidate - candidate_offset) in
        let* file_offset := st_lift (ok_or (u64_checked_add payload_offset candidate_offset)
          (Serialization "ingress replay offset overflows")) in
        let* stored := f_read_exact_at chunk_len file_offset in
        let same := bytes_eqb stored (slice (Z.to_nat candidate_offset)
                                        (Z.to_nat (candidate_offset + chunk_len)) candidate) in
        read_chunks fuel payload_offset candidate (candidate_offset + chunk_len)
          (stored_so_far ++ stored) (equal && same)
      else st_ret (stored_so_far, equal)
  end.

Definition encode_identity (i : IngressIdentity) : bytes :=
  to_le 16 (source_id i) ++ to_le 8 (sequence i) ++ to_le 16 (commit_id i).

Definition ingress_payload_matches_at (r : StoredIngressReceipt) (candidate : bytes)
    : ST File bool :=
  if negb (len candidate =? ir_canonical_payload_len r)
     || negb (hash candidate =? ir_canonical_payload_crc32 r) then st_ret false
  else if ir_canonical_payload_offset r =? 0 then
    st_ret (bool_decide (ir_compact_payload r = Some candidate))
  else
    let frame_offset := cm_frame_offset (ir_commit r) in
    let overflow := Serialization "ingress replay offset overflows" in
    let* expected := st_lift (ok_or (u64_checked_add frame_offset 64) overflow) in
    if negb (ir_canonical_payload_offset r =? expected) then
      st_lift (corruption frame_offset "stored ingress receipt offset is invalid")
    else
      let identity_bytes := encode_identity (ir_identity r) in
      let* payload_len := st_lift (ok_or (u32_try_from (40 + len candidate))
        (Serialization "ingress replay length overflows")) in
      let* record_count := st_lift (ok_or (u32_try_from (cm_records (ir_commit r)))
        (Serialization "ingress replay record count overflows")) in
      let expected_header := encode_frame_header FRAME_KIND_INGRESS_TRANSACTION record_count
        payload_len (hash (identity_bytes ++ candidate)) in
      let* stored_header := f_read_exact_at 24 frame_offset in
      if negb (bytes_eqb stored_header expected_header) then
        st_lift (corruption frame_offset "stored ingress frame header changed after open")
      else
        let* identity_offset := st_lift (ok_or (u64_checked_add frame_offset 24) overflow) in
        let* stored_identity := f_read_exact_at 40 identity_offset in
        if negb (bytes_eqb stored_identity identity_bytes) then
          st_lift (corruption frame_offset "stored ingress identity changed after open")
        else
          let* (stored, equal) := read_chunks (S (length candidate))
            (ir_canonical_payload_offset r) candidate 0 [] true in
          if negb (hash stored =? ir_canonical_payload_crc32 r) then
            st_lift (corruption frame_offset "stored ingress transaction checksum changed after open")
          else st_ret equal.

Definition ingress_payload_matches (r : StoredIngressReceipt) (candidate : bytes) : DB bool :=
  poison_if_broken (on_file (ingress_payload_matches_at r candidate)).

(** [Database::verify_ingress_payload]. *)
Definition verify_ingress_payload (identity : IngressIdentity) (t : Transaction)
    : DB (option bool) :=
  let* d := st_get in
  match ingress_receipts (state d) !! key_of identity with
  | None => st_ret None
  | Some receipt =>
      if negb (bool_decide (ir_identity receipt = identity)) then st_ret (Some false)
      else
        let* canonical := st_lift (encode_canonical_transaction t) in
        let* matched := on_file (ingress_payload_matches_at receipt canonical) in
        st_ret (Some matched)
  end.

(** ** Commits *)

(** The state updates shared by the two commit paths: index the points,
    install the candidate catalog, count. *)
Definition index_records (rs : list TxRecord) (s : LogState) : LogState :=
  foldl (fun s r => match r with RPoints ps => insert_points ps s | _ => s end) s rs.

Definition count_transaction (t : Transaction) (s : LogState) : LogState :=
  set_catalog_records (catalog_records s + metadata_count (records t))
    (set_points (points s + point_count t) (set_commits (commits s + 1) s)).

Definition install_catalog (c : option Catalog) (s : LogState) : LogState :=
  match c with Some c => set_catalog c s | None => s end.

(** [commit_ordered_ingress], when the key already has a receipt. *)
Definition replay_ingress (identity : IngressIdentity) (canonical : bytes)
    (receipt : StoredIngressReceipt) : DB Commit :=
  let conflict := IngressSourceSequenceConflict (source_id identity) (sequence identity) in
  st_reject (negb (commit_id (ir_identity receipt) =? commit_id identity)) conflict ;*
  let* matched := ingress_payload_matches receipt canonical in
  st_reject (negb matched) conflict ;*
  let* d := st_get in
  let replay := ir_commit receipt in
  st_ret (mkCommit (cm_frame_offset replay) (cm_points replay) (cm_records replay)
            (cm_bytes_written replay)
            (is_some_and (ingress_durable_sequences d !! source_id identity)
               (fun durable => sequence identity <=? durable))
            true).

(** The cursor of a source must strictly increase. *)
Definition check_cursor (identity : IngressIdentity) (s : LogState) : Result unit :=
  match ingress_last_sequences s !! source_id identity with
  | Some last => reject (sequence identity <=? last)
      (IngressSequenceNotIncreasing (source_id identity) last (sequence identity))
  | None => Ok tt
  end.

(** [commit_ordered_ingress], for a new key. *)
Definition append_ingress (identity : IngressIdentity) (canonical : bytes) (t : Transaction)
    : DB Commit :=
  let* d := st_get in
  st_reject (bool_decide (commit_id identity ∈ commit_ids (state d)))
    (IngressCommitIdConflict (commit_id identity)) ;*
  st_lift (check_cursor identity (state d)) ;*
  st_reject (cfg_max_batch_points (config d) <? point_count t)
    (BatchTooLarge (point_count t) (cfg_max_batch_points (config d))) ;*
  let* payload_len := st_lift (ok_or (u64_checked_add 40 (len canonical))
    (Serialization "ingress transaction length overflows")) in
  st_reject (cfg_max_transaction_bytes (config d) <? payload_len)
    (InvalidModel (Msg "transaction has {} encoded bytes; maximum is {}"
       [payload_len; cfg_max_transaction_bytes (config d)])) ;*
  let* candidate_catalog := st_lift (apply_records (catalog (state d)) (records t)) in
  let too_long := Serialization "transaction exceeds u32 length" in
  let* payload_len_u32 := st_lift (ok_or (u32_try_from payload_len) too_long) in
  let* canonical_len_u32 := st_lift (ok_or (u32_try_from (len canonical)) too_long) in
  let* count := st_lift (ok_or (u32_try_from (record_count t))
    (Serialization "too many transaction records")) in
  let payload := encode_identity identity ++ canonical in
  let frame_header :=
    encode_frame_header FRAME_KIND_INGRESS_TRANSACTION count payload_len_u32 (hash payload) in
  let bytes_written := Z.of_nat FRAME_HEADER_BYTES + len payload in
  let* frame_offset := on_file f_len in
  let* durable := write_frame frame_header payload bytes_written in
  upd_log (index_records (records t)) ;*
  upd_log (install_catalog candidate_catalog) ;*
  upd_log (count_transaction t) ;*
  let commit := mkCommit frame_offset (point_count t) (record_count t) bytes_written durable false in
  let receipt := mkIngressReceipt identity (frame_offset + 24 + 40) canonical_len_u32
    (hash canonical) None commit in
  upd_log (add_commit_id (commit_id identity)) ;*
  upd_log (insert_ingress identity receipt) ;*
  (if durable then
     modify (fun d => set_durable (<[source_id identity := sequence identity]>
                        (ingress_durable_sequences d)) d)
   else st_ret tt) ;*
  st_ret commit.

(** [Database::commit_ordered_ingress]. *)
Definition commit_ordered_ingress (identity : IngressIdentity) (t : Transaction) : DB Commit :=
  st_reject (source_id identity =? 0) (InvalidArgument "ingress source id zero is reserved") ;*
  let* canonical := st_lift (encode_canonical_transaction t) in
  let* d := st_get in
  match ingress_receipts (state d) !! key_of identity with
  | Some receipt => replay_ingress identity canonical receipt
  | None => append_ingress identity canonical t
  end.

(** [Database::commit]. *)
Definition commit_plain (t : Transaction) : DB Commit :=
  let* d := st_get in
  if is_empty t then empty_commit false
  else
    st_reject (cfg_max_batch_points (config d) <? point_count t)
      (BatchTooLarge (point_count t) (cfg_max_batch_points (config d))) ;*
    let* candidate_catalog := st_lift (apply_records (catalog (state d)) (records t)) in
    let* payload := st_lift (encode_transaction t) in
    st_reject (cfg_max_transaction_bytes (config d) <? len payload)
      (InvalidModel (Msg "transaction has {} encoded bytes; maximum is {}"
         [len payload; cfg_max_transaction_bytes (config d)])) ;*
    let* payload_len := st_lift (ok_or (u32_try_from (len payload))
      (Serialization "transaction exceeds u32 length")) in
    let* count := st_lift (ok_or (u32_try_from (record_count t))
      (Serialization "too many transaction records")) in
    let kind := if is_some (tx_commit_id t) then FRAME_KIND_IDENTIFIED_TRANSACTION
                else FRAME_KIND_TRANSACTION in
    let frame_header := encode_frame_header kind count payload_len (hash payload) in
    let bytes_written := Z.of_nat FRAME_HEADER_BYTES + len payload in
    let* frame_offset := on_file f_len in
    let* durable := write_frame frame_header payload bytes_written in
    upd_log (index_records (records t)) ;*
    upd_log (install_catalog candidate_catalog) ;*
    let commit := mkCommit frame_offset (point_count t) (record_count t) bytes_written durable false in
    match tx_commit_id t with
    | Some id =>
        upd_log (add_commit_id id) ;*
        upd_log (insert_identified id
          (mkIdentifiedReceipt (frame_offset + 24) payload_len (hash payload) None commit))
    | None => st_ret tt
    end ;*
    upd_log (count_transaction t) ;*
    st_ret commit.

Definition commit (t : Transaction) : DB Commit :=
  check_writable ;*
  match tx_ingress_identity t with
  | Some identity => commit_ordered_ingress identity t
  | None =>
      let* d := st_get in
      match tx_commit_id t with
      | Some id =>
          st_reject (is_some (ingress_commit_ids (state d) !! id)) (IngressCommitIdConflict id) ;*
          if bool_decide (id ∈ commit_ids (state d)) then
            let* payload := st_lift (encode_transaction t) in
            match identified_receipts (state d) !! id with
            | Some receipt =>
                let* matched := identified_payload_matches receipt payload in
                st_reject (negb matched) (IngressCommitIdConflict id) ;*
                empty_commit true
            | None => st_err (IngressCommitIdConflict id)
            end
          else commit_plain t
      | None => commit_plain t
      end
  end.

(** [Database::commit_ingress]. *)
Definition commit_ingress (identity : IngressIdentity) (t : Transaction) : DB Commit :=
  commit (with_ingress_identity identity t).

(** ** Watermarks and receipts *)

Definition contains_commit_id (id : Z) (d : Db) : bool := bool_decide (id ∈ commit_ids (state d)).

Definition ingress_watermarks (source : Z) (d : Db) : IngressWatermarks :=
  mkWatermarks (ingress_last_sequences (state d) !! source) (ingress_durable_sequences d !! source).

Definition ingress_receipt (source seq : Z) (d : Db) : option IngressReceipt :=
  match ingress_receipts (state d) !! (source, seq) with
  | None => None
  | Some stored =>
      Some (mkReceipt (ir_identity stored) (cm_frame_offset (ir_commit stored))
              (cm_records (ir_commit stored)) (cm_points (ir_commit stored))
              (cm_bytes_written (ir_commit stored))
              (is_some_and (ingress_durable_sequences d !! source) (fun durable => seq <=? durable)))
  end.

Definition all_ingress_watermarks (d : Db) : list (Z * IngressWatermarks) :=
  map (fun source => (source, ingress_watermarks source d))
    (btree_keys (ingress_last_sequences (state d))).

(** ** Durability *)

Definition flush : DB unit :=
  check_writable ;*
  poison_on_error (on_file f_sync) ;*
  modify (set_bytes_since_sync 0) ;*
  modify mark_ingress_durable.

Definition close : DB unit :=
  let* d := st_get in
  if read_only d then st_ret tt else flush.

(** [Database::stats]. *)
Definition stats `{SegmentOps Seg} : DB Stats :=
  let* physical_bytes := on_file f_len in
  let* d := st_get in
  let file_bytes := if read_only d then u64_saturating_sub physical_bytes (tail_bytes d) else physical_bytes in
  let ids : gset Z := dom (index (state d)) ∪ list_to_set (concat (map seg_series_ids (sealed d))) in
  st_ret (mkStats (u64_saturating_add (points (state d)) (sealed_points d)) (commits (state d))
            (Z.of_nat (size ids)) (catalog_records (state d)) file_bytes (tail_bytes d) (tail d)).

(** ** Seal and live index *)

Definition clear_live_index : DB unit := upd_log (fun s => set_points 0 (set_index ∅ s)).

Definition write_seal_checkpoint (generation seal_points : Z) : DB unit :=
  check_writable ;*
  let payload := to_le 8 generation ++ to_le 8 seal_points in
  let* payload_len := st_lift (ok_or (u32_try_from (len payload))
    (Serialization "seal checkpoint exceeds u32 length")) in
  let header := encode_frame_header FRAME_KIND_SEAL_CHECKPOINT 0 payload_len (hash payload) in
  let bytes_written := Z.of_nat FRAME_HEADER_BYTES + len payload in
  let* _ := on_file f_len in
  let* _ := write_frame header payload bytes_written in
  flush ;*
  upd_log (fun s => set_commits (commits s + 1) s).

Definition live_points_snapshot `{MapOrder} (d : Db) : list Point :=
  concat (index_values (index (state d))).

Definition live_index_len (d : Db) : Z :=
  foldr (fun l n => len l + n) 0 (btree_values (index (state d))).
End Database.

(** ** Reclaim *)

(** How the calls around the compact file end: its own I/O, its lock, the
    rename over the live name and the directory sync. *)
Record ReclaimEnv := mkReclaimEnv {
  compact_faults : list (option Fault);
  compact_lock : LockResult;
  rename_fault : option string;
  parent_fault : option string;
}.

Section Reclaim.
Context `{Crc} `{RecordCodec} `{IndexCodec} `{TimeZones} `{MapOrder} {Seg : Type}.
Abbreviation Db := (Database Seg).
Abbreviation DB := (ST (Database Seg)).

Definition compact_identified (entry : Z * StoredIdentifiedReceipt)
    : ST File CompactIdentifiedReceipt :=
  let '(id, r) := entry in
  let* payload :=
    if dr_payload_offset r =? 0 then st_ret (default [] (dr_compact_payload r))
    else
      let* payload := f_read_exact_at (dr_payload_len r) (dr_payload_offset r) in
      let* matched := identified_payload_matches_at r payload in
      if negb matched then
        st_lift (corruption (cm_frame_offset (dr_commit r))
                   "stored identified payload changed before reclaim")
      else st_ret payload in
  st_ret (mkCompactIdentified id (dr_payload_len r) (dr_payload_crc32 r)
            (cm_points (dr_commit r)) (cm_records (dr_commit r)) payload).

Definition compact_ingress (r : StoredIngressReceipt) : ST File CompactIngressReceipt :=
  let* payload :=
    if ir_canonical_payload_offset r =? 0 then st_ret (default [] (ir_compact_payload r))
    else
      let* payload := f_read_exact_at (ir_canonical_payload_len r) (ir_canonical_payload_offset r) in
      let* matched := ingress_payload_matches_at r payload in
      if negb matched then
        st_lift (corruption (cm_frame_offset (ir_commit r))
                   "stored ingress payload changed before reclaim")
      else st_ret payload in
  let i := ir_identity r in
  st_ret (mkCompactIngress (source_id i) (sequence i) (commit_id i) (ir_canonical_payload_len r)
            (ir_canonical_payload_crc32 r) (cm_points (ir_commit r)) (cm_records (ir_commit r))
            payload (cm_frame_offset (ir_commit r)) (cm_bytes_written (ir_commit r))).

(** [Database::compact_identity_index].  The maps are read in some order and
    the lists sorted by their unique keys. *)
Definition ingress_key_leb (a b : CompactIngressReceipt) : bool :=
  (cin_source_id a <? cin_source_id b)
  || ((cin_source_id a =? cin_source_id b) && (cin_sequence a <=? cin_sequence b)).

Definition compact_identity_index (s : LogState) : ST File CompactIdentityIndex :=
  let* ids := st_map compact_identified (map_to_list (identified_receipts s)) in
  let* ins := st_map compact_ingress (map_to_list (ingress_receipts s)).*2 in
  st_ret (mkIdentityIndex
    (stable_sort (fun a b => cid_commit_id a <=? cid_commit_id b) ids)
    (stable_sort ingress_key_leb ins)).

Definition write_identity_index_frame (i : CompactIdentityIndex) (limit : Z) : ST File unit :=
  let* payload := st_lift (encoded_identity_index i) in
  st_reject (limit <? len payload) (Serialization "identity index chunk exceeds its frame limit") ;*
  let* payload_len := st_lift (ok_or (u32_try_from (len payload))
    (Serialization "identity index exceeds u32 length")) in
  f_write_all (encode_frame_header FRAME_KIND_IDENTITY_INDEX 0 payload_len (hash payload)) ;*
  f_write_all payload.

(** The state of the chunking loops: the open chunk and its estimated size. *)
Record Chunk := mkChunk { chunk : CompactIdentityIndex; estimated_bytes : Z }.
Definition chunk_empty : Chunk := mkChunk (mkIdentityIndex [] []) 0.

(** The body of both loops of [write_identity_index_frames]: [single] is the
    receipt alone in an index, [add] puts it in the open chunk. *)
Definition chunk_receipt (limit : Z) (too_big : string) (single : CompactIdentityIndex)
    (add : CompactIdentityIndex -> CompactIdentityIndex) (c : Chunk) : ST File Chunk :=
  let* encoded := st_lift (encoded_identity_index single) in
  let bytes := len encoded in
  st_reject (limit <? bytes) (Serialization too_big) ;*
  let* c :=
    if (0 <? estimated_bytes c) && (limit <? u64_saturating_add (estimated_bytes c) bytes) then
      write_identity_index_frame (chunk c) limit ;* st_ret chunk_empty
    else st_ret c in
  st_ret (mkChunk (add (chunk c)) (u64_saturating_add (estimated_bytes c) bytes)).

Fixpoint chunk_identified (limit : Z) (l : list CompactIdentifiedReceipt) (c : Chunk)
    : ST File Chunk :=
  match l with
  | [] => st_ret c
  | r :: rest =>
      let* c := chunk_receipt limit "one identified receipt exceeds the identity-index frame limit"
        (mkIdentityIndex [r] []) (fun i => mkIdentityIndex (identified i ++ [r]) (ingress i)) c in
      chunk_identified limit rest c
  end.

Fixpoint chunk_ingress (limit : Z) (l : list CompactIngressReceipt) (c : Chunk) : ST File Chunk :=
  match l with
  | [] => st_ret c
  | r :: rest =>
      let* c := chunk_receipt limit "one ingress receipt exceeds the identity-index frame limit"
        (mkIdentityIndex [] [r]) (fun i => mkIdentityIndex (identified i) (ingress i ++ [r])) c in
      chunk_ingress limit rest c
  end.

Definition index_is_empty (i : CompactIdentityIndex) : bool :=
  match identified i, ingress i with [], [] => true | _, _ => false end.

Definition write_identity_index_frames (i : CompactIdentityIndex) (max_bytes : Z) : ST File unit :=
  let limit := identity_index_frame_limit max_bytes in
  let* c := chunk_identified limit (identified i) chunk_empty in
  let* c := chunk_ingress limit (ingress i) c in
  if index_is_empty (chunk c) then st_ret tt else write_identity_index_frame (chunk c) limit.

Definition write_standalone_transaction (t : Transaction) (max_bytes : Z) : ST File unit :=
  let* payload := st_lift (encode_transaction t) in
  st_reject (max_bytes <? len payload)
    (InvalidModel (Msg "transaction has {} encoded bytes; maximum is {}" [len payload; max_bytes])) ;*
  let* payload_len := st_lift (ok_or (u32_try_from (len payload))
    (Serialization "transaction exceeds u32 length")) in
  let* count := st_lift (ok_or (u32_try_from (record_count t))
    (Serialization "too many transaction records")) in
  f_write_all (encode_frame_header FRAME_KIND_TRANSACTION count payload_len (hash payload)) ;*
  f_write_all payload.

(** [write_compact_log], on the freshly created file. *)
Definition write_compact_log (c : Catalog) (i : CompactIdentityIndex) (live : Index)
    (max_points max_bytes : Z) : ST File unit :=
  write_database_header ;*
  let* rs := st_lift (snapshot_records c) in
  (match rs with
   | [] => st_ret tt
   | _ => write_standalone_transaction (mkTransaction rs None None) max_bytes
   end) ;*
  (if index_is_empty i then st_ret tt else write_identity_index_frames i max_bytes) ;*
  let live_tail := concat (index_values live) in
  st_reject (max_points <? len live_tail) (BatchTooLarge (len live_tail) max_points) ;*
  (match live_tail with
   | [] => st_ret tt
   | _ => write_standalone_transaction (append_points live_tail Transaction_new) max_bytes
   end) ;*
  f_sync.

(** [Database::reclaim_live_log]. *)
Definition reclaim_live_log (env : ReclaimEnv) : DB unit :=
  check_writable ;*
  flush ;*
  let* d := st_get in
  let* i := on_file (compact_identity_index (state d)) in
  let points_limit := cfg_max_batch_points (config d) in
  let bytes_limit := cfg_max_transaction_bytes (config d) in
  let '(f1, written) :=
    write_compact_log (catalog (state d)) i (index (state d)) points_limit bytes_limit
      (mkFile [] 0 (compact_faults env)) in
  st_lift written ;*
  match compact_lock env with
  | LockWouldBlock => st_err Locked
  | LockFailed kind => st_err (Io kind)
  | LockAcquired =>
      let '(f2, scanned) := scan_log (scan_config (config d) ∅) (Recover false) f1 in
      let* scan := st_lift scanned in
      let '(f3, synced_) := f_sync f2 in
      poison_on_error (st_lift synced_) ;*
      poison_on_error (st_lift (match rename_fault env with Some k => Err (Io k) | None => Ok tt end)) ;*
      modify (set_renamed_log (Some f3)) ;*
      poison_on_error (st_lift (match parent_fault env with Some k => Err (Io k) | None => Ok tt end)) ;*
      modify (fun d =>
        let log := set_pending_reclaim false (receipts_durable (scan_state scan)) in
        set_tail 0 TailNone (set_bytes_since_sync 0
          (set_durable (ingress_last_sequences log) (set_state log (set_renamed_log None (set_file f3 d))))))
  end.
End Reclaim.
