(* ===== verification/Store.v ===== *)
(** * Store: the directory-level store of [src/src/store.rs]

    One log, three directories and the manifest that ties them together:
    opening and reconciling, commits that invalidate rollups, maintenance,
    sealing, gauge queries over materialized and raw data, retention gates and
    integrity checks.  Backup, restore and salvage are in [Snapshot].

    [suffix] gives the process id and the time that [temporary_path] appends,
    [nonce] the time in the names of new files. *)
From S2P Require Import Prelude Errors Bytes Float64 Model Transaction Catalog Query Aggregate Rollup Codec Effects.
From S2P Require Import Segment RollupSegment Directory Manifest Planner Scan Database.

Definition SEAL_BLOCK_POINTS : Z := 16384.
Definition MAX_CACHED_ROLLUP_SEGMENTS : nat := 1024.

(** ** Reports *)

Inductive RollupSource := Materialized | Hybrid | Raw.
Record RollupQuery := mkRollupQuery {
  rq_buckets : list GaugeBucket;
  rq_source : RollupSource;
  rq_manifest_generation : Z;
}.

Record RetentionGate := mkGate {
  gate_series : Z;
  raw_before : Z;
  eligible : bool;
  gate_reason : Message;
}.

Record MaintenanceReport := mkMaintenance {
  mr_manifest_generation : Z;
  rollup_files_written : Z;
  rollup_buckets_written : Z;
  rollup_bytes_written : Z;
  retention_gates_of : list RetentionGate;
}.

Record SealReport := mkSealReport {
  sr_manifest_generation : Z;
  segment_file : rstring;
  sr_sealed_points : Z;
  live_points : Z;
  segment_bytes : Z;
  log_bytes : Z;
}.

Record IntegrityReport := mkIntegrity {
  ig_manifest_generation : Z;
  raw_points : Z;
  raw_commits : Z;
  raw_recovered_tail_bytes : Z;
  raw_recovered_tail : RecoveredTail;
  active_rollup_files : Z;
  active_rollup_buckets : Z;
  active_rollup_bytes : Z;
  ig_stale_rollup_files : Z;
}.

(** ** The store *)

Record Store := mkStore {
  manifest_directory : Dir;
  rollup_directory : Dir;
  segment_directory : Dir;
  database : Database Segment;
  manifest : Manifest;
  rollup_cache : gmap rstring RollupSegment;
  store_poisoned : bool;
  store_read_only : bool;
  stale_rollup_files : Z;
  materialized_series_revisions : gmap Z Z;
  last_maintain_now_micros : option Z;
}.

Definition set_manifest_directory (v : Dir) (s : Store) : Store :=
  mkStore v (rollup_directory s) (segment_directory s) (database s) (manifest s) (rollup_cache s) (store_poisoned s)
    (store_read_only s) (stale_rollup_files s) (materialized_series_revisions s) (last_maintain_now_micros s).
Definition set_rollup_directory (v : Dir) (s : Store) : Store :=
  mkStore (manifest_directory s) v (segment_directory s) (database s) (manifest s) (rollup_cache s) (store_poisoned s)
    (store_read_only s) (stale_rollup_files s) (materialized_series_revisions s) (last_maintain_now_micros s).
Definition set_segment_directory (v : Dir) (s : Store) : Store :=
  mkStore (manifest_directory s) (rollup_directory s) v (database s) (manifest s) (rollup_cache s) (store_poisoned s)
    (store_read_only s) (stale_rollup_files s) (materialized_series_revisions s) (last_maintain_now_micros s).
Definition set_database (v : Database Segment) (s : Store) : Store :=
  mkStore (manifest_directory s) (rollup_directory s) (segment_directory s) v (manifest s) (rollup_cache s)
    (store_poisoned s) (store_read_only s) (stale_rollup_files s) (materialized_series_revisions s)
    (last_maintain_now_micros s).
Definition set_manifest (v : Manifest) (s : Store) : Store :=
  mkStore (manifest_directory s) (rollup_directory s) (segment_directory s) (database s) v (rollup_cache s)
    (store_poisoned s) (store_read_only s) (stale_rollup_files s) (materialized_series_revisions s)
    (last_maintain_now_micros s).
Definition set_rollup_cache (v : gmap rstring RollupSegment) (s : Store) : Store :=
  mkStore (manifest_directory s) (rollup_directory s) (segment_directory s) (database s) (manifest s) v
    (store_poisoned s) (store_read_only s) (stale_rollup_files s) (materialized_series_revisions s)
    (last_maintain_now_micros s).
Definition set_store_poisoned (v : bool) (s : Store) : Store :=
  mkStore (manifest_directory s) (rollup_directory s) (segment_directory s) (database s) (manifest s) (rollup_cache s)
    v (store_read_only s) (stale_rollup_files s) (materialized_series_revisions s) (last_maintain_now_micros s).
Definition set_stale_rollup_files (v : Z) (s : Store) : Store :=
  mkStore (manifest_directory s) (rollup_directory s) (segment_directory s) (database s) (manifest s) (rollup_cache s)
    (store_poisoned s) (store_read_only s) v (materialized_series_revisions s) (last_maintain_now_micros s).
Definition set_maintained (revisions : gmap Z Z) (now_micros : Z) (s : Store) : Store :=
  mkStore (manifest_directory s) (rollup_directory s) (segment_directory s) (database s) (manifest s) (rollup_cache s)
    (store_poisoned s) (store_read_only s) (stale_rollup_files s) revisions (Some now_micros).

Definition on_manifests {A} : ST Dir A -> ST Store A := st_zoom manifest_directory set_manifest_directory.
Definition on_rollups {A} : ST Dir A -> ST Store A := st_zoom rollup_directory set_rollup_directory.
Definition on_segments {A} : ST Dir A -> ST Store A := st_zoom segment_directory set_segment_directory.
Definition on_database {A} : ST (Database Segment) A -> ST Store A := st_zoom database set_database.

Definition ensure_healthy : ST Store unit := let* s := st_get in st_reject (store_poisoned s) Poisoned.
Definition ensure_writable : ST Store unit :=
  let* s := st_get in st_reject (store_read_only s) ReadOnly ;* ensure_healthy.

Definition any_active (m : Manifest) : bool := existsb rd_active (rollups m).

(** ** Files *)

(** Runs [op]; its failure is a value. *)
Definition attempt {S A} (op : ST S A) : ST S (option A) :=
  fun s => match op s with (s', Ok a) => (s', Ok (Some a)) | (s', Err _) => (s', Ok None) end.

(** [u64] and [i64] in decimal. *)
Fixpoint strip_zeros (l : rstring) : rstring :=
  match l with 48 :: ((_ :: _) as t) => strip_zeros t | _ => l end.
Definition show (z : Z) : rstring :=
  if z <? 0 then str "-" ++ strip_zeros (decimal 20 (- z)) else strip_zeros (decimal 20 z).

Definition raw_segment_file_name (generation : Z) (nonce : rstring) : rstring :=
  str "g" ++ show generation ++ str "-" ++ nonce ++ str ".wseg".

Definition unit_name (u : CalendarUnit) : rstring :=
  match u with Day => str "Day" | Month => str "Month" | Year => str "Year" end.
Definition rollup_file_name (generation series ordinal : Z) (res : RollupResolution) (nonce : rstring) : rstring :=
  str "g" ++ show generation ++ str "-s" ++ show series ++ str "-"
  ++ match res with FixedMicros micros => str "f" ++ show micros | Calendar unit _ => str "c" ++ unit_name unit end
  ++ str "-" ++ show ordinal ++ str "-" ++ nonce ++ str ".rseg".

Definition ends_with (suffix name : rstring) : bool :=
  bool_decide (drop (length name - length suffix) name = suffix).

Section Files.
Context `{Crc} `{Lz4} (suffix : rstring -> rstring).

(** [Segment::create] in its directory.  The temporary file exists before the
    blocks are encoded and is removed when that fails; its writes are one
    write of the whole. *)
Definition Segment_create_in (target : rstring) (points : list Point) (block_points : Z) : ST Dir SegmentStats :=
  let temporary := temporary_name target (suffix target) in
  st_reject ((block_points =? 0) || (MAX_BLOCK_POINTS <? block_points))
    (InvalidConfig "segment block_points must be in 1..=262144") ;*
  st_lift (validate_point_intervals points) ;*
  let* d := st_get in
  st_reject (d_exists target d) (Io "AlreadyExists") ;*
  match write_temporary_segment points block_points with
  | Ok (file, stats) => publish_new temporary target [file] ;* st_ret stats
  | Err e => on_error (let* _ := d_create_new temporary in st_err e) (d_remove_file temporary)
  end.

(** [RollupSegment::create] in its directory. *)
Definition RollupSegment_create_in (target : rstring) (buckets : list GaugeBucket) : ST Dir RollupSegmentStats :=
  let temporary := temporary_name target (suffix target) in
  st_reject (MAX_ROLLUP_BUCKETS <? len buckets) (InvalidModel (text "rollup segment exceeds 262144 buckets")) ;*
  st_lift (validate_buckets buckets 0) ;*
  let* d := st_get in
  st_reject (d_exists target d) (Io "AlreadyExists") ;*
  match write_temporary buckets with
  | Ok (file, stats) => publish_new temporary target [file] ;* st_ret stats
  | Err e => on_error (st_err e) (d_remove_file temporary)
  end.

Definition Segment_open_in (name : rstring) : ST Dir Segment :=
  let* file := d_read name in st_lift (Segment_open file).
Definition RollupSegment_open_in (name : rstring) : ST Dir RollupSegment :=
  let* file := d_read name in st_lift (RollupSegment_open file).
End Files.

(** The order in which [HashMap::keys] visits the rollup cache. *)
Class CacheOrder := {
  cache_keys : gmap rstring RollupSegment -> list rstring;
  cache_keys_perm : forall m, cache_keys m ≡ₚ (map_to_list m).*1;
}.

(** ** Space reclamation *)

Section Store.
Context `{Crc} `{RecordCodec} `{IndexCodec} `{TimeZones} `{Lz4} `{MapOrder} `{ManifestCodec} `{ReadDir} `{CacheOrder}.
Context (suffix : rstring -> rstring).

(** The removals of one directory: whether any succeeded. *)
Fixpoint sweep_names (names : list rstring) (removed : bool) : ST Dir bool :=
  match names with
  | [] => st_ret removed
  | name :: rest => let* r := attempt (d_remove_file name) in sweep_names rest (removed || is_some r)
  end.

(** [read_dir] and the loop over its entries; [false] when it cannot be
    listed. *)
Definition sweep (extension : rstring) (referenced : gset rstring) : ST Dir bool :=
  let* entries := attempt d_read_dir in
  match entries with
  | None => st_ret false
  | Some entries =>
      let* removed := sweep_names (List.filter (fun name => ends_with extension name && negb (bool_decide (name ∈ referenced)))
                                     entries.*1) false in
      (if removed then ignore d_sync_dir else st_ret tt) ;* st_ret true
  end.

(** [Store::remove_unreferenced_files]. *)
Definition remove_unreferenced_files : ST Store unit :=
  let* s := st_get in
  let* retained := attempt (on_manifests (prune_generations (generation (manifest s)))) in
  match retained with
  | None => st_ret tt
  | Some retained =>
      let* referenced := attempt (on_manifests (referenced_rollup_files retained)) in
      match referenced with
      | None => st_ret tt
      | Some rollup_names =>
          let* referenced := attempt (on_manifests (referenced_segment_files retained)) in
          match referenced with
          | None => st_ret tt
          | Some segment_names =>
              let* swept := on_rollups (sweep (str ".rseg") (rollup_names ∪ list_to_set (map rd_file (rollups (manifest s))))) in
              if swept then
                let* _ := on_segments (sweep (str ".wseg")
                                         (segment_names ∪ list_to_set (map sd_file (segments (manifest s))))) in
                st_ret tt
              else st_ret tt
          end
      end
  end.

(** [Store::publish_or_poison]. *)
Definition publish_or_poison (next : Manifest) : ST Store unit :=
  let next := set_rollups (List.filter rd_active (rollups next)) next in
  let name := manifest_name (generation next) in
  on_error (on_manifests (Manifest_publish next (suffix name))) (st_modify (set_store_poisoned true)) ;*
  st_modify (set_manifest next) ;*
  let active : gset rstring := list_to_set (map rd_file (List.filter rd_active (rollups next))) in
  st_modify (fun s => set_rollup_cache (filter (fun entry => entry.1 ∈ active) (rollup_cache s)) s) ;*
  remove_unreferenced_files.

(** ** Opening *)

Definition sealed_total (l : list Segment) : Z := foldr (fun g n => seg_point_total (seg_stats g) + n) 0 l.

(** [Store::attach_published_segments]. *)
Definition attach_one (r : RawSegmentDescriptor) : ST Store Segment :=
  let* opened := attempt (on_segments (Segment_open_in (sd_file r))) in
  match opened with
  | None => st_err (Corruption 0 (text "raw segment {} is unreadable: {error}"))
  | Some g => st_lift (verify_raw_segment_descriptor g r) ;* st_ret g
  end.
Definition attach_published_segments : ST Store unit :=
  let* s := st_get in
  let* opened := st_map attach_one (segments (manifest s)) in
  on_database (st_modify (set_sealed opened (sealed_total opened))).

(** The checks both verifications make of an active descriptor. *)
Definition outside_descriptor (stats : RollupSegmentStats) (r : RollupDescriptor) : bool :=
  is_none_or (rs_min_start stats) (fun start => start <? rd_start r)
  || is_none_or (rs_max_end stats) (fun stop => rd_end r <? stop).
Definition check_active (source_points : Z) (r : RollupDescriptor) : ST Store unit :=
  st_reject (source_points <? rd_source_points r) (Corruption 0 (text "rollup {} is ahead of its raw source")) ;*
  let* g := on_rollups (RollupSegment_open_in (rd_file r)) in
  st_reject (outside_descriptor (rollup_stats g) r) (Corruption 0 (text "rollup {} bounds do not match manifest")).

(** One round of [Store::verify_and_reconcile_manifest]. *)
Definition reconcile_one (source_points : Z) (r : RollupDescriptor) : ST Store RollupDescriptor :=
  if negb (rd_active r) then st_ret r
  else check_active source_points r ;*
       st_ret (if rd_source_points r <? source_points then set_active false r else r).

(** [Store::verify_and_reconcile_manifest]. *)
Definition verify_and_reconcile_manifest : ST Store unit :=
  let* st := on_database stats in
  let* s := st_get in
  let before := rollups (manifest s) in
  let* after := st_map (reconcile_one (st_points st)) before in
  if existsb (fun r => rd_active r && (rd_source_points r <? st_points st)) before then
    publish_or_poison (set_generation (u64_saturating_add (generation (manifest s)) 1) (set_rollups after (manifest s)))
  else st_ret tt.

(** [Store::verify_manifest_read_only]. *)
Definition verify_manifest_read_only : ST Store unit :=
  let* st := on_database stats in
  let* s := st_get in
  let active := List.filter rd_active (rollups (manifest s)) in
  st_for_each (check_active (st_points st)) active ;*
  st_modify (set_stale_rollup_files (len (List.filter (fun r => rd_source_points r <? st_points st) active))).

(** What is on disk. *)
Record StoreFiles := mkStoreFiles {
  sf_log : option File;
  sf_manifests : Dir;
  sf_rollups : Dir;
  sf_segments : Dir;
}.
Definition files_of (s : Store) : StoreFiles :=
  mkStoreFiles (Some (log_at_path (database s))) (manifest_directory s) (rollup_directory s) (segment_directory s).

(** [Store::open_with], once the directories exist and are synced. *)
Definition Store_open_with (lock : LockResult) (cfg : Config) (env : ReclaimEnv) (disk : StoreFiles)
    : StoreFiles * Result Store :=
  match Manifest_load (visible (dir_state (sf_manifests disk))) with
  | Err e => (disk, Err e)
  | Ok m =>
      let '(log, opened) := open_mode lock cfg false (published_seal_generations m) (sf_log disk) in
      match opened with
      | Err e => (mkStoreFiles log (sf_manifests disk) (sf_rollups disk) (sf_segments disk), Err e)
      | Ok db =>
          let '(s, r) :=
            (attach_published_segments ;*
             verify_and_reconcile_manifest ;*
             remove_unreferenced_files ;*
             let* s := st_get in
             if pending_reclaim (state (database s)) then on_database (reclaim_live_log env) else st_ret tt)
              (mkStore (sf_manifests disk) (sf_rollups disk) (sf_segments disk) db m ∅ false false 0 ∅ None) in
          (files_of s, match r with Ok _ => Ok s | Err e => Err e end)
      end
  end.

(** [Store::open_read_only]. *)
Definition Store_open_read_only (lock : LockResult) (disk : StoreFiles) : Result Store :=
  let? m := Manifest_load (visible (dir_state (sf_manifests disk))) in
  let? db := (open_mode lock Config_default true (published_seal_generations m) (sf_log disk)).2 in
  let '(s, r) := (attach_published_segments ;* verify_manifest_read_only)
    (mkStore (sf_manifests disk) (sf_rollups disk) (sf_segments disk) db m ∅ false true 0 ∅ None) in
  match r with Ok _ => Ok s | Err e => Err e end.

(** ** Commits *)

Definition gap_of (c : Catalog) (series : Z) : Z :=
  default 0 (series_map c !! series ≫= series_maximum_gap_micros).

(** The [affected] test of [Store::advance_after_points]. *)
Definition affected (c : Catalog) (points : list Point) (r : RollupDescriptor) : bool :=
  existsb (fun p => (series p =? rd_series r)
                    && (i64_saturating_sub (rd_start r) (gap_of c (rd_series r)) <=? valid_time p)
                    && (valid_time p <=? rd_end r)) points.
Definition advance_one (c : Catalog) (st : Stats) (points : list Point) (r : RollupDescriptor) : RollupDescriptor :=
  if negb (rd_active r) then r
  else if affected c points r then set_active false r else set_source (st_commits st) (st_points st) r.

(** [Store::advance_after_points]. *)
Definition advance_after_points (points : list Point) : ST Store unit :=
  let* st := on_database stats in
  let* s := st_get in
  let m := manifest s in
  if any_active m then
    publish_or_poison (set_generation (u64_saturating_add (generation m) 1)
      (set_rollups (map (advance_one (catalog (state (database s))) st points) (rollups m)) m))
  else st_ret tt.

Definition record_points (r : TxRecord) : list Point := match r with RPoints ps => ps | _ => [] end.

(** The end of [Store::commit] and [Store::append]: the raw points are made
    durable before the manifest moves on. *)
Definition make_durable_and_advance (points : list Point) (c : Commit) : ST Store Commit :=
  let* c := if cm_durable c then st_ret c
            else on_database flush ;* st_ret (set_commit_durable true c) in
  advance_after_points points ;* st_ret c.

(** [Store::commit]. *)
Definition Store_commit (t : Transaction) : ST Store Commit :=
  ensure_writable ;*
  let* s := st_get in
  let committed_points := if any_active (manifest s) then concat (map record_points (records t)) else [] in
  let* c := on_database (commit t) in
  if cm_deduplicated c then st_ret c
  else
    let* s := st_get in
    match committed_points with
    | _ :: _ => if any_active (manifest s) then make_durable_and_advance committed_points c else st_ret c
    | [] => st_ret c
    end.

(** [Store::commit_ingress]. *)
Definition Store_commit_ingress (identity : IngressIdentity) (t : Transaction) : ST Store Commit :=
  Store_commit (with_ingress_identity identity t).

(** [Store::append]. *)
Definition Store_append (points : list Point) : ST Store Commit :=
  ensure_writable ;*
  let* c := on_database (append points) in
  let* s := st_get in
  match points with
  | _ :: _ => if any_active (manifest s) then make_durable_and_advance points c else st_ret c
  | [] => st_ret c
  end.

Definition Store_flush : ST Store unit := ensure_writable ;* on_database flush.
Definition Store_close : ST Store unit :=
  let* s := st_get in if store_read_only s then st_ret tt else Store_flush.

(** ** Gauge queries *)

(** [Store::materialize_raw_range]. *)
Definition materialize_raw_range (d : Database Segment) (series start stop : Z) (res : RollupResolution) (max_gap : Z)
    : Result (list GaugeBucket) :=
  let context_start := i64_saturating_sub start max_gap in
  let context_end := i64_saturating_add stop (Z.max max_gap 1) in
  let? points := query_latest (sealed d) (index (state d)) series context_start context_end in
  let? buckets := materialize points res max_gap in
  Ok (List.filter (fun b => (start <=? b_start b) && (b_end b <=? stop)) buckets).

(** [trim_rollup_cache]. *)
Definition trim_rollup_cache (keep : list RollupDescriptor) (cache : gmap rstring RollupSegment)
    : gmap rstring RollupSegment :=
  if Nat.leb (size cache) MAX_CACHED_ROLLUP_SEGMENTS then cache
  else
    let names : gset rstring := list_to_set (map rd_file keep) in
    let overflow := (size cache - MAX_CACHED_ROLLUP_SEGMENTS)%nat in
    let evict := take overflow (List.filter (fun name => negb (bool_decide (name ∈ names))) (cache_keys cache)) in
    foldl (fun cache name => delete name cache) cache evict.

Definition cached_query (cache : gmap rstring RollupSegment) (start stop : Z) (r : RollupDescriptor) : list GaugeBucket :=
  match cache !! rd_file r with Some g => rollup_query g start stop | None => [] end.
Definition is_cached (cache : gmap rstring RollupSegment) (r : RollupDescriptor) : bool := is_some (cache !! rd_file r).

(** [cache.entry(file).or_insert(segment)]. *)
Definition cache_opened (cache : gmap rstring RollupSegment) (entry : rstring * RollupSegment) : gmap rstring RollupSegment :=
  match cache !! entry.1 with Some _ => cache | None => <[entry.1 := entry.2]> cache end.

(** [Store::cached_rollup_buckets]: the files that are not cached are opened
    first; then every descriptor is in the cache. *)
Definition cached_rollup_buckets (ds : list RollupDescriptor) (start stop : Z) : ST Store (list GaugeBucket) :=
  let* s := st_get in
  let answer cache := concat (map (cached_query cache start stop) ds) in
  if forallb (is_cached (rollup_cache s)) ds then st_ret (answer (rollup_cache s))
  else
    let* opened := st_map (fun r => let* g := on_rollups (RollupSegment_open_in (rd_file r)) in st_ret (rd_file r, g))
                     (List.filter (fun r => negb (is_cached (rollup_cache s) r)) ds) in
    let cache := foldl cache_opened (rollup_cache s) opened in
    st_modify (set_rollup_cache (trim_rollup_cache ds cache)) ;*
    st_ret (answer cache).

Definition start_leb (a b : GaugeBucket) : bool := b_start a <=? b_start b.

(** The descriptors [Store::query_gauge] may use. *)
Definition query_candidates (m : Manifest) (series : Z) (res : RollupResolution) (points lo hi : Z) : list RollupDescriptor :=
  List.filter (fun r => active_for series res r && (rd_source_points r =? points)
                        && ranges_overlap (rd_start r) (rd_end r) lo hi) (rollups m).

(** [Store::query_gauge]. *)
Definition query_gauge (series start stop : Z) (res : RollupResolution) : ST Store RollupQuery :=
  ensure_healthy ;*
  st_reject (stop <=? start) (InvalidModel (text "rollup query range must have positive duration")) ;*
  let* s := st_get in
  let* definition := st_lift (ok_or (series_map (catalog (state (database s))) !! series)
    (InvalidModel (Msg "undefined series {series_id}" [series]))) in
  st_reject (negb (is_gauge definition)) (InvalidModel (Msg "series {series_id} is not a gauge" [series])) ;*
  let* (required_start, required_end) := st_lift (query_envelope start stop res) in
  let* st := on_database stats in
  let* s := st_get in
  let m := manifest s in
  let max_gap := default 0 (series_maximum_gap_micros definition) in
  let plan := coverage_plan (query_candidates m series res (st_points st) required_start required_end)
                required_start required_end in
  match descriptors plan with
  | _ :: _ =>
      let* materialized := cached_rollup_buckets (descriptors plan) start stop in
      let* raw := st_map (fun g => st_lift (materialize_raw_range (database s) series g.1 g.2 res max_gap)) (gaps plan) in
      st_ret (mkRollupQuery (stable_sort start_leb (materialized ++ concat raw))
                (match gaps plan with [] => Materialized | _ => Hybrid end) (generation m))
  | [] =>
      let* buckets := st_lift (materialize_raw_range (database s) series required_start required_end res max_gap) in
      st_ret (mkRollupQuery buckets Raw (generation m))
  end.

(** ** Retention gates *)

Definition gate_for (d : Database Segment) (m : Manifest) (source_points now_micros : Z) (definition : SeriesDefinition)
    : option RetentionGate :=
  match policy_raw_retain_for_micros (series_rollup_policy definition) with
  | None => None
  | Some retention =>
      let cutoff := i64_saturating_sub now_micros retention in
      let gate ok why := Some (mkGate (series_id definition) cutoff ok (text why)) in
      match series_valid_bounds (sealed d) (index (state d)) (series_id definition) with
      | None => gate true "no raw points exist"%string
      | Some (oldest, _) =>
          if cutoff <=? oldest then gate true "no raw points are older than the cutoff"%string
          else
            let uncovered tier :=
              negb (is_some (covering_descriptors
                (List.filter (fun r => active_for (series_id definition) (tier_resolution tier) r
                                       && (rd_source_points r =? source_points)) (rollups m)) oldest cutoff)) in
            if existsb uncovered (tiers_of definition)
            then gate false "durable current {:?} rollup does not cover raw data through the cutoff"%string
            else match tiers_of definition with
                 | [] => gate false "raw retention requires at least one durable rollup tier"%string
                 | _ => gate true "all configured durable rollup tiers cover the deletion range"%string
                 end
      end
  end.

(** [Store::retention_gates]. *)
Definition retention_gates (now_micros : Z) : ST Store (list RetentionGate) :=
  ensure_healthy ;*
  let* st := on_database stats in
  let* s := st_get in
  st_ret (omap (gate_for (database s) (manifest s) (st_points st) now_micros)
            (btree_values (series_map (catalog (state (database s)))))).

(** ** Maintenance *)

(** [Store::can_skip_series_latest_query]. *)
Definition can_skip_series_latest_query (s : Store) (definition : SeriesDefinition) (now_micros : Z)
    (rollups : list RollupDescriptor) : Result bool :=
  let d := database s in
  let known_unchanged :=
    bool_decide (materialized_series_revisions s !! series_id definition
                 = Some (series_revision_count (sealed d) (index (state d)) (series_id definition))) in
  let? no_new_completed_shard :=
    match known_unchanged, last_maintain_now_micros s with
    | true, Some prev_now =>
        let? gained := series_gained_completed_shard definition prev_now now_micros in Ok (negb gained)
    | _, _ => Ok false
    end in
  if no_new_completed_shard then Ok true
  else
    let? missing := series_has_missing_completed_shard definition
      (series_valid_bounds (sealed d) (index (state d)) (series_id definition)) now_micros rollups in
    Ok (negb missing).

(** [Store::can_skip_maintain_scan]. *)
Fixpoint all_skippable (s : Store) (now_micros : Z) (definitions : list SeriesDefinition) : Result bool :=
  match definitions with
  | [] => Ok true
  | d :: rest =>
      if negb (is_gauge d) then all_skippable s now_micros rest
      else
        let? skip := can_skip_series_latest_query s d now_micros (rollups (manifest s)) in
        if skip then all_skippable s now_micros rest else Ok false
  end.
Definition can_skip_maintain_scan (s : Store) (now_micros source_points : Z) (definitions : list SeriesDefinition)
    : Result bool :=
  if existsb (fun r => rd_active r && negb (rd_source_points r =? source_points)) (rollups (manifest s)) then Ok false
  else if has_retention_work (manifest s) definitions now_micros then Ok false
  else all_skippable s now_micros definitions.

(** [Store::remember_materialized_revisions] and the time of the run. *)
Definition remember_materialized_revisions (definitions : list SeriesDefinition) (now_micros : Z) : ST Store unit :=
  st_modify (fun s =>
    let d := database s in
    set_maintained
      (foldl (fun m definition =>
                if is_gauge definition
                then <[series_id definition := series_revision_count (sealed d) (index (state d)) (series_id definition)]> m
                else m) ∅ definitions) now_micros s).

(** What [Store::maintain] accumulates. *)
Record Progress := mkProgress {
  next : Manifest;
  files_written : Z;
  buckets_written : Z;
  bytes_written : Z;
  changed : bool;
}.
Definition set_next (m : Manifest) (hit : bool) (p : Progress) : Progress :=
  mkProgress m (files_written p) (buckets_written p) (bytes_written p) (changed p || hit).

Section Maintain.
Context (nonce : Z -> rstring) (now_micros next_generation : Z) (st : Stats).

(** The shard loop of [maintain]: one completed shard becomes a file. *)
Definition maintain_shard (definition : SeriesDefinition) (res : RollupResolution) (p : Progress) (shard : RollupShard)
    : ST Store Progress :=
  let current r := active_for (series_id definition) res r && (rd_start r =? shard_start shard)
                   && (rd_end r =? shard_end shard) && (rd_source_points r =? st_points st) in
  if existsb current (rollups (next p)) then st_ret p
  else
    let '(rest, _) := update_where (fun r => active_for (series_id definition) res r
                        && ranges_overlap (rd_start r) (rd_end r) (shard_start shard) (shard_end shard))
                        (set_active false) (rollups (next p)) in
    let file := rollup_file_name next_generation (series_id definition) (files_written p) res (nonce (files_written p)) in
    let* written := on_rollups (RollupSegment_create_in suffix file (shard_buckets shard)) in
    let descriptor := mkRollupDescriptor file (series_id definition) res (shard_start shard) (shard_end shard)
                        (st_commits st) (st_points st) true in
    st_ret (mkProgress (set_rollups (rest ++ [descriptor]) (next p)) (files_written p + 1)
              (buckets_written p + rs_buckets written) (bytes_written p + rs_stored_bytes written) true).

(** The tier loop of [maintain]. *)
Definition maintain_tier (definition : SeriesDefinition) (earliest latest : Z) (p : Progress) (tier : RollupTier)
    : ST Store Progress :=
  let res := tier_resolution tier in
  let max_gap := default 0 (series_maximum_gap_micros definition) in
  let* needed := st_lift (needed_completed_shards (series_id definition) res earliest latest now_micros
                            (rollups (next p)) (st_points st)) in
  let needed := List.filter (fun shard => is_none_or (retention_cutoff now_micros tier) (fun cutoff => cutoff <=? shard.2))
                  needed in
  match needed with
  | [] => st_ret p
  | _ =>
      let query_start := i64_saturating_sub (default earliest (least needed.*1)) max_gap in
      let greatest := Z.opp <$> least (map Z.opp needed.*2) in
      let query_end := i64_saturating_add (default (i64_saturating_add latest 1) greatest) (Z.max max_gap 1) in
      let* s := st_get in
      let d := database s in
      let* points := st_lift (query_latest (sealed d) (index (state d)) (series_id definition) query_start query_end) in
      let* buckets := st_lift (materialize points res max_gap) in
      let buckets := List.filter (fun b => b_end b <=? now_micros) buckets in
      let* shards := st_lift (rollup_shards buckets res now_micros) in
      st_fold (maintain_shard definition res) p
        (List.filter (fun shard => existsb (fun want => (want.1 =? shard_start shard) && (want.2 =? shard_end shard)) needed)
           shards)
  end.

(** The series loop of [maintain]. *)
Definition maintain_series (p : Progress) (definition : SeriesDefinition) : ST Store Progress :=
  if negb (is_gauge definition) then st_ret p
  else
    let '(m, hit) := deactivate_expired_rollups (next p) definition now_micros in
    let p := set_next m hit p in
    let* s := st_get in
    let* skip := st_lift (can_skip_series_latest_query s definition now_micros (rollups (next p))) in
    if skip then
      let '(m, hit) := stamp_active_series_source (next p) (series_id definition) (st_commits st) (st_points st) in
      st_ret (set_next m hit p)
    else
      match series_valid_bounds (sealed (database s)) (index (state (database s))) (series_id definition) with
      | None => st_ret p
      | Some (earliest, latest) => st_fold (maintain_tier definition earliest latest) p (tiers_of definition)
      end.
End Maintain.

(** [Store::maintain]. *)
Definition maintain (nonce : Z -> rstring) (now_micros : Z) : ST Store MaintenanceReport :=
  ensure_writable ;*
  on_database flush ;*
  let* st := on_database stats in
  let* s := st_get in
  let definitions := btree_values (series_map (catalog (state (database s)))) in
  let* skip := st_lift (can_skip_maintain_scan s now_micros (st_points st) definitions) in
  if skip then
    remember_materialized_revisions definitions now_micros ;*
    let* gates := retention_gates now_micros in
    st_ret (mkMaintenance (generation (manifest s)) 0 0 0 gates)
  else
    let next_generation := u64_saturating_add (generation (manifest s)) 1 in
    let* p := st_fold (maintain_series nonce now_micros next_generation st) (mkProgress (manifest s) 0 0 0 false) definitions in
    (if changed p then publish_or_poison (set_generation next_generation (next p)) else st_ret tt) ;*
    remember_materialized_revisions definitions now_micros ;*
    let* gates := retention_gates now_micros in
    let* s := st_get in
    st_ret (mkMaintenance (generation (manifest s)) (files_written p) (buckets_written p) (bytes_written p) gates).

(** ** Sealing *)

(** [Store::seal_and_reclaim]. *)
Definition seal_and_reclaim (nonce : rstring) (env : ReclaimEnv) : ST Store SealReport :=
  ensure_writable ;*
  on_database flush ;*
  let* s := st_get in
  let live := live_points_snapshot (database s) in
  match live with
  | [] =>
      let* st := on_database stats in
      st_ret (mkSealReport (generation (manifest s)) [] 0 0 0 (st_file_bytes st))
  | p :: _ =>
      let* st := on_database stats in
      let next_generation := u64_saturating_add (generation (manifest s)) 1 in
      let file := raw_segment_file_name next_generation nonce in
      let min_valid_time := default 0 (least (map valid_time live)) in
      let max_valid_time := - default 0 (least (map (fun p => - valid_time p) live)) in
      let* written := on_segments (Segment_create_in suffix file live SEAL_BLOCK_POINTS) in
      let* g := on_segments (Segment_open_in file) in
      let* crc := st_lift (content_crc32 g) in
      on_database (write_seal_checkpoint next_generation (len live)) ;*
      let descriptor := mkRawDescriptor file next_generation (seg_point_total written) (st_commits st) (st_points st)
                          min_valid_time max_valid_time crc in
      publish_or_poison (mkManifest next_generation (rollups (manifest s)) (segments (manifest s) ++ [descriptor])) ;*
      attach_published_segments ;*
      on_database clear_live_index ;*
      on_database (reclaim_live_log env) ;*
      let* s := st_get in
      let* st := on_database stats in
      st_ret (mkSealReport (generation (manifest s)) file (seg_point_total written) (live_index_len (database s))
                (stored_bytes written) (st_file_bytes st))
  end.

(** ** Integrity *)

Definition check_segment_file (r : RawSegmentDescriptor) : ST Store unit :=
  let* g := on_segments (Segment_open_in (sd_file r)) in
  st_lift (verify_raw_segment_descriptor g r) ;* st_lift (verify_blocks g).

Definition check_rollup_file (source_points : Z) (report : IntegrityReport) (r : RollupDescriptor)
    : ST Store IntegrityReport :=
  let* g := on_rollups (RollupSegment_open_in (rd_file r)) in
  st_reject (outside_descriptor (rollup_stats g) r || (source_points <? rd_source_points r))
    (Corruption 0 (text "active rollup {} does not match its manifest coverage/source")) ;*
  st_ret (mkIntegrity (ig_manifest_generation report) (raw_points report) (raw_commits report)
            (raw_recovered_tail_bytes report) (raw_recovered_tail report) (active_rollup_files report + 1)
            (active_rollup_buckets report + rs_buckets (rollup_stats g))
            (active_rollup_bytes report + rs_stored_bytes (rollup_stats g)) (ig_stale_rollup_files report)).

(** [Store::check_integrity]. *)
Definition check_integrity : ST Store IntegrityReport :=
  ensure_healthy ;*
  let* st := on_database stats in
  let* s := st_get in
  st_for_each check_segment_file (segments (manifest s)) ;*
  st_fold (check_rollup_file (st_points st))
    (mkIntegrity (generation (manifest s)) (st_points st) (st_commits st) (st_recovered_tail_bytes st)
       (st_recovered_tail st) 0 0 0 (stale_rollup_files s)) (List.filter rd_active (rollups (manifest s))).
End Store.
