(* ===== verification/StoreInv.v ===== *)
(** * StoreInv: the store answers from rollups what raw points would give

    A window of the latest revisions is the window of all latest revisions; a
    range of buckets materialized from its context is the range of the whole
    rollup; and a query that mixes stored shards and raw gaps returns exactly
    the buckets of the whole rollup that overlap it. *)
From S2P Require Import Prelude Errors Bytes Float64 Model Transaction Catalog Query Aggregate Rollup Codec Effects.
From S2P Require Import Segment SegmentInv RollupSegment Directory Manifest Planner PlannerInv Locality Scan Database Store.

(** ** Windows of the latest revisions *)

Lemma elem_of_at_time l p : p ∈ l <-> p ∈ List.filter (at_time (valid_time p)) l.
Proof. rewrite !list_elem_of_In, filter_In. unfold at_time. rewrite Z.eqb_refl. tauto. Qed.

Lemma time_strict_ext l k :
  time_strict l -> time_strict k -> (forall t, List.filter (at_time t) l = List.filter (at_time t) k) -> l = k.
Proof.
  intros Hl Hk Hf. apply (strict_unique valid_time); [done|done|]. intros p.
  by rewrite (elem_of_at_time l), (elem_of_at_time k), Hf.
Qed.

Definition within (a b : Z) (p : Point) : bool := (a <=? valid_time p) && (valid_time p <? b).

Section Windows.
Context {Seg : Type} `{SegmentSpec Seg}.

Lemma query_latest_window sealed index s lo hi a b W :
  Forall seg_intact sealed -> wf_index index -> lo <= a -> b <= hi ->
  query_latest sealed index s lo hi = Ok W -> query_latest sealed index s a b = Ok (List.filter (within a b) W).
Proof.
  intros Hg Hi Ha Hb HW. unfold query_latest in *.
  destruct (query_with_cutoffs_ok sealed index s lo hi None None Hg Hi) as (W1 & E1 & S1 & F1).
  destruct (query_with_cutoffs_ok sealed index s a b None None Hg Hi) as (W2 & E2 & S2 & F2).
  rewrite HW in E1. injection E1 as <-. rewrite E2. f_equal. symmetry.
  apply time_strict_ext; [by apply StronglySorted_filter|done|]. intros t. rewrite F2.
  rewrite filter_filter. destruct (decide (a <= t < b)) as [Ht|Ht].
  - rewrite (List.filter_ext _ (at_time t)), F1.
    + do 3 f_equal. apply List.filter_ext. intros p. unfold in_window, at_time.
      destruct (Z.eqb_spec (valid_time p) t) as [->|]; [|by rewrite !andb_false_r].
      by destruct (series p =? s), (Z.leb_spec lo t), (Z.leb_spec a t), (Z.ltb_spec t hi), (Z.ltb_spec t b); cbn; try done; lia.
    + intros p. unfold within, at_time. destruct (Z.eqb_spec (valid_time p) t) as [->|]; [|by rewrite andb_false_r].
      destruct (Z.leb_spec a t), (Z.ltb_spec t b); try done; lia.
  - assert (Hnone : forall p, within a b p && at_time t p = false).
    { intros p. unfold within, at_time. destruct (Z.eqb_spec (valid_time p) t) as [->|]; [|by rewrite andb_false_r].
      destruct (Z.leb_spec a t), (Z.ltb_spec t b); try done; lia. }
    rewrite filter_none by (apply Forall_forall; intros; apply Hnone).
    rewrite filter_none; [done|]. apply Forall_forall. intros p _. specialize (Hnone p). unfold in_window, within in *.
    destruct (at_time t p); [|by rewrite andb_false_r]. rewrite andb_true_r in *.
    destruct (series p =? s); [|done]. cbn. rewrite Hnone. done.
Qed.

Lemma query_latest_stored sealed index s a b W :
  Forall seg_intact sealed -> wf_index index -> query_latest sealed index s a b = Ok W ->
  time_strict W /\ forall p, p ∈ W -> p ∈ stored sealed index s /\ a <= valid_time p < b.
Proof.
  intros Hg Hi E. destruct (query_with_cutoffs_ok sealed index s a b None None Hg Hi) as (W' & E' & Hs & Hf).
  unfold query_latest in E. rewrite E in E'. injection E' as <-. split; [done|].
  intros p Hp%elem_of_at_time. rewrite Hf in Hp. set (l := List.filter _ (stored sealed index s)) in Hp.
  assert (Hl : p ∈ l).
  { destruct (last (sort_revisions l)) as [q|] eqn:El; cbn in Hp; [|by apply not_elem_of_nil in Hp].
    apply list_elem_of_singleton in Hp as ->. apply last_Some in El as (k & El).
    assert (Hq : q ∈ sort_revisions l) by (rewrite El; set_solver). unfold sort_revisions in Hq. by rewrite stable_sort_perm in Hq. }
  apply list_elem_of_In, filter_In in Hl as [Hl Hw]. split; [by apply list_elem_of_In|]. unfold in_window in Hw. zbool. lia.
Qed.

Lemma query_latest_total sealed index s a b :
  Forall seg_intact sealed -> wf_index index -> exists W, query_latest sealed index s a b = Ok W.
Proof. intros Hg Hi. destruct (query_with_cutoffs_ok sealed index s a b None None Hg Hi) as (W & E & _). by exists W. Qed.
End Windows.

(** ** The whole rollup of a series *)

Definition overlaps_window (start stop : Z) (b : GaugeBucket) : bool := (start <? b_end b) && (b_start b <? stop).

Section Tier.
Context `{TimeZones} (res : RollupResolution) (minimum : Z) `{!Partition (tier_bounds res) minimum}.

(** A bucket of the partition. *)
Definition proper (b : GaugeBucket) : Prop := bucket_of (tier_bounds res) (b_start b) (b_start b, b_end b).
Abbreviation by_start := (StronglySorted (fun a b => b_start a < b_start b)).

Lemma proper_positive b : proper b -> b_start b < b_end b.
Proof using All. intros Hb. apply (bounds_contains _ _) in Hb. lia. Qed.

Lemma proper_at a t : proper a -> b_start a <= t < b_end a -> bucket_of (tier_bounds res) t (b_start a, b_end a).
Proof using All. intros Ha Ht. by eapply (bounds_same _ _); [exact Ha|]. Qed.

Lemma proper_meet a b t : proper a -> proper b -> b_start a <= t < b_end a -> b_start b <= t < b_end b ->
  b_start a = b_start b /\ b_end a = b_end b.
Proof using All.
  intros Ha Hb Hta Htb. pose proof (bucket_of_unique _ _ _ _ (proper_at a t Ha Hta) (proper_at b t Hb Htb)) as [= -> ->]. done.
Qed.

Lemma proper_sorted l :
  Forall proper l -> by_start l ->
  StronglySorted (fun a b => b_start a < b_end a /\ b_end a <= b_start b /\ b_start b < b_end b) l.
Proof using All.
  intros Hp Hs. induction Hs as [|a l _ IH Ha]; [constructor|]. apply Forall_cons in Hp as [Hpa Hp].
  constructor; [by apply IH|]. rewrite Forall_forall in Ha, Hp |- *. intros b Hb. specialize (Ha b Hb). specialize (Hp b Hb).
  pose proof (proper_positive a Hpa). pose proof (proper_positive b Hp). split; [done|]. split; [|done].
  destruct (decide (b_end a <= b_start b)); [done|]. destruct (proper_meet a b (b_start b) Hpa Hp); lia.
Qed.

Lemma materialize_whole points max_gap full :
  materialize points res max_gap = Ok full -> Forall (fun p => is_i64 (valid_time p)) points ->
  Forall proper full /\ by_start full.
Proof using All.
  rewrite materialize_build. intros ([] & Hc & Hb)%bind_Ok Ht. apply bind_Ok in Hb as (m & Hb & [= <-]).
  pose proof (tier_build_wf res minimum _ _ _ Hb Ht) as Hw.
  assert (Hf : Forall (fun x => b_start x.2 = x.1 /\ proper x.2) (btree_to_list m)).
  { apply Forall_forall. intros [k b] Hx%elem_of_btree_to_list. destruct (Hw _ _ Hx) as [Es Hk]. cbn.
    split; [done|]. unfold proper. by rewrite Es. }
  split.
  - unfold btree_values. rewrite Forall_fmap. eapply Forall_impl; [exact Hf|]. by intros x [_ Hx].
  - unfold btree_values. pose proof (btree_to_list_sorted m) as Hs. clear Hb Hw.
    induction Hs as [|x l _ IH Hx]; cbn; [constructor|]. apply Forall_cons in Hf as [[Ex _] Hf].
    constructor; [by apply IH|]. rewrite Forall_fmap. rewrite Forall_forall in Hx, Hf |- *. intros y Hy. cbn.
    destruct (Hf y Hy) as [-> _]. rewrite Ex. by apply Hx.
Qed.

(** The envelope of a window: buckets overlap the window exactly when they
    lie inside it. *)
Lemma envelope_exact start stop lo e1 s2 hi b :
  start < stop -> bucket_of (tier_bounds res) start (lo, e1) -> bucket_of (tier_bounds res) (stop - 1) (s2, hi) ->
  proper b -> overlaps_window start stop b = inside lo hi b.
Proof using All.
  intros Hs H1 H2 Hb. pose proof (proper_positive b Hb).
  pose proof (bounds_contains _ _ _ _ _ H1). pose proof (bounds_contains _ _ _ _ _ H2).
  assert (Hin : forall t s e, bucket_of (tier_bounds res) t (s, e) -> s <= b_start b < e \/ b_start b <= s < b_end b ->
    b_start b = s /\ b_end b = e).
  { intros t s e Ht Hor. pose proof (bounds_contains _ _ _ _ _ Ht).
    assert (Hx : exists x, s <= x < e /\ b_start b <= x < b_end b) by (destruct Hor; [exists (b_start b)|exists s]; lia).
    destruct Hx as (x & Hx1 & Hx2). pose proof (bounds_same _ _ _ _ _ x Ht Hx1) as Hy.
    pose proof (bucket_of_unique _ _ _ _ (proper_at b x Hb Hx2) Hy) as [= -> ->]. done. }
  pose proof (Hin _ _ _ H1). pose proof (Hin _ _ _ H2). unfold overlaps_window, inside.
  destruct (Z.ltb_spec start (b_end b)), (Z.ltb_spec (b_start b) stop), (Z.leb_spec lo (b_start b)), (Z.leb_spec (b_end b) hi);
    cbn; try done; exfalso; lia.
Qed.
End Tier.

(** ** Putting pieces together *)

(** Lists filtered by predicates that exclude each other on [l]. *)
Definition exclusive {A} (l : list A) (ps : list (A -> bool)) : Prop :=
  forall x i j p q, x ∈ l -> ps !! i = Some p -> ps !! j = Some q -> p x = true -> q x = true -> i = j.

Lemma filter_or_perm {A} (p q : A -> bool) l :
  (forall x, x ∈ l -> p x = true -> q x = false) ->
  List.filter p l ++ List.filter q l ≡ₚ List.filter (fun x => p x || q x) l.
Proof.
  induction l as [|x l IH]; intros Hx; [done|]. cbn. specialize (IH ltac:(set_solver)).
  destruct (p x) eqn:Ep; cbn.
  - rewrite (Hx x ltac:(set_solver) Ep). by constructor.
  - destruct (q x); cbn; [|done]. rewrite <- Permutation_middle. by constructor.
Qed.

Lemma pieces_perm {A} (l : list A) ps (whole : A -> bool) :
  exclusive l ps -> (forall x, x ∈ l -> whole x = existsb (fun p => p x) ps) ->
  concat (map (fun p => List.filter p l) ps) ≡ₚ List.filter whole l.
Proof.
  intros Hex Hw. transitivity (List.filter (fun x => existsb (fun p => p x) ps) l); cycle 1.
  { rewrite (filter_ext_in whole (fun x => existsb (fun p => p x) ps)); [done|]. intros x Hx. by apply Hw, list_elem_of_In. }
  clear Hw. induction ps as [|p ps IH]; cbn; [by rewrite filter_none by (by apply Forall_forall)|].
  rewrite IH by (intros x i j q r Hx Hi Hj Hq Hr; specialize (Hex x (S i) (S j) q r Hx Hi Hj Hq Hr); lia).
  apply filter_or_perm. intros x Hx Hp. destruct (existsb _ ps) eqn:E; [|done]. exfalso.
  apply existsb_exists in E as (q & Hq & Eq). apply list_elem_of_In, list_elem_of_lookup in Hq as [j Hj].
  specialize (Hex x 0%nat (S j) p q Hx eq_refl Hj Hp Eq). lia.
Qed.

Lemma sort_strict (l k : list GaugeBucket) :
  l ≡ₚ k -> StronglySorted (fun a b => b_start a < b_start b) k -> stable_sort start_leb l = k.
Proof.
  intros Hp Hk.
  assert (Ht : forall a b, start_leb a b = true \/ start_leb b a = true) by (intros; unfold start_leb; rewrite !Z.leb_le; lia).
  assert (Htr : forall a b c, start_leb a b = true -> start_leb b c = true -> start_leb a c = true)
    by (intros a b c; unfold start_leb; rewrite !Z.leb_le; lia).
  apply (strict_unique b_start); [|done|intros x; by rewrite stable_sort_perm, Hp].
  assert (Hnd : NoDup (map b_start (stable_sort start_leb l))).
  { rewrite stable_sort_perm, Hp. clear -Hk. induction Hk as [|x k _ IH Hx]; [constructor|]. cbn. constructor; [|done].
    intros (y & Ey & Hy)%list_elem_of_In%in_map_iff. rewrite Forall_forall in Hx. apply list_elem_of_In in Hy.
    specialize (Hx y Hy). lia. }
  pose proof (stable_sort_sorted start_leb Ht Htr l) as Hs. clear -Hs Hnd.
  induction Hs as [|x m Hs IH Hx]; [constructor|]. cbn in Hnd. apply NoDup_cons in Hnd as [Hn Hnd].
  constructor; [by apply IH|]. rewrite Forall_forall in Hx |- *. intros y Hy. specialize (Hx y Hy). unfold start_leb in Hx. zbool.
  destruct (decide (b_start x = b_start y)) as [E|]; [|lia]. exfalso. apply Hn. rewrite E. apply list_elem_of_In, in_map.
  by apply list_elem_of_In.
Qed.

(** A descriptor whose range no bucket straddles, and another list of such
    descriptors that do not overlap. *)
Definition aligned (full : list GaugeBucket) (r : RollupDescriptor) : Prop :=
  rd_start r < rd_end r
  /\ forall b, b ∈ full -> overlaps_window (rd_start r) (rd_end r) b = true -> inside (rd_start r) (rd_end r) b = true.
Definition disjoint_ranges (l : list RollupDescriptor) : Prop :=
  forall a b t, a ∈ l -> b ∈ l -> covers t a -> covers t b -> a = b.

Lemma list_sorted_lookup {A} (R : A -> A -> Prop) l i j x y :
  StronglySorted R l -> l !! i = Some x -> l !! j = Some y -> (i < j)%nat -> R x y.
Proof.
  intros Hs. revert i j. induction Hs as [|a l _ IH Ha]; intros i j Hi Hj Hij; [done|].
  destruct i as [|i], j as [|j]; try lia; cbn in *.
  - injection Hi as <-. rewrite Forall_forall in Ha. apply Ha. by eapply list_elem_of_lookup_2.
  - eapply IH; [done|done|lia].
Qed.

Section Pieces.
Context `{TimeZones} (res : RollupResolution) (minimum : Z) `{!Partition (tier_bounds res) minimum}.
Context (full : list GaugeBucket) (candidates : list RollupDescriptor) (start stop lo e1 s2 hi : Z).
Context (ds : list RollupDescriptor) (gs : list (Z * Z)).
Context (Hproper : Forall (proper res) full) (Hwindow : start < stop).
Context (Hlo : bucket_of (tier_bounds res) start (lo, e1)) (Hhi : bucket_of (tier_bounds res) (stop - 1) (s2, hi)).
Context (Haligned : Forall (aligned full) candidates) (Hdisjoint : disjoint_ranges candidates).
Context (Hsplits : splits candidates lo hi ds gs).

(** What a descriptor and a gap contribute. *)
Definition piece_of (r : RollupDescriptor) (b : GaugeBucket) : bool :=
  overlaps_window start stop b && inside (rd_start r) (rd_end r) b.
Definition gap_piece (g : Z * Z) (b : GaugeBucket) : bool := inside g.1 g.2 b.
Abbreviation pieces := (map piece_of ds ++ map gap_piece gs).

Lemma full_positive b : b ∈ full -> b_start b < b_end b.
Proof using All. intros Hb. rewrite Forall_forall in Hproper. by eapply proper_positive, Hproper. Qed.

Lemma window_envelope b : b ∈ full -> overlaps_window start stop b = inside lo hi b.
Proof using All. intros Hb. rewrite Forall_forall in Hproper. by eapply envelope_exact; eauto. Qed.

(** Which piece holds a bucket. *)
Lemma piece_cases b k p :
  b ∈ full -> pieces !! k = Some p -> p b = true ->
  (exists r, ds !! k = Some r /\ covers (b_start b) r /\ r ∈ candidates /\ lo <= b_start b < hi)
  \/ (exists g k', gs !! k' = Some g /\ k = (length ds + k')%nat /\ in_range (b_start b) g /\ lo <= b_start b < hi).
Proof using All.
  intros Hb Hk Hpb. pose proof (full_positive b Hb) as Hpos.
  apply lookup_app_Some in Hk as [Hk|[Hle Hk]]; rewrite list_lookup_fmap in Hk; apply fmap_Some in Hk as (x & Hx & ->).
  - left. exists x. unfold piece_of in Hpb. rewrite window_envelope in Hpb by done. unfold inside, covers in *. zbool.
    split; [done|]. split; [lia|]. split; [|lia]. eapply (splits_from _ _ _ _ _ Hsplits), list_elem_of_lookup_2, Hx.
  - right. rewrite length_map in Hx, Hle. exists x, (k - length ds)%nat. split; [done|]. split; [lia|].
    pose proof (splits_within _ _ _ _ _ Hsplits) as Hw. rewrite Forall_forall in Hw.
    specialize (Hw x ltac:(by eapply list_elem_of_lookup_2)). unfold gap_piece, inside, in_range in *. zbool. lia.
Qed.

Lemma gap_uncovered g k t : gs !! k = Some g -> in_range t g -> lo <= t < hi -> ~ Exists (covers t) candidates.
Proof using All.
  intros Hk Hin Ht. apply (splits_gap _ _ _ _ _ Hsplits); [done|]. apply Exists_exists. exists g.
  split; [by eapply list_elem_of_lookup_2|done].
Qed.

Lemma same_index {A} (R : A -> A -> Prop) l i j x y :
  StronglySorted R l -> l !! i = Some x -> l !! j = Some y -> ~ R x y -> ~ R y x -> i = j.
Proof using Type.
  intros Hs Hi Hj H1 H2. destruct (Nat.lt_trichotomy i j) as [Hlt|[->|Hlt]]; [|done|].
  - by destruct H1; eapply list_sorted_lookup.
  - by destruct H2; eapply list_sorted_lookup.
Qed.

Lemma pieces_exclusive : exclusive full pieces.
Proof using All.
  intros b i j p q Hb Hi Hj Hpb Hqb.
  destruct (piece_cases b i p Hb Hi Hpb) as [(r & Hr & Hc & Hrc & Ht)|(g & i' & Hgi & -> & Hin & Ht)];
    destruct (piece_cases b j q Hb Hj Hqb) as [(r' & Hr' & Hc' & Hrc' & _)|(g' & j' & Hgj & -> & Hin' & _)].
  - assert (r' = r) as -> by (by apply (Hdisjoint r' r (b_start b))).
    eapply same_index; [exact (splits_ordered _ _ _ _ _ Hsplits)|exact Hr|exact Hr'|cbn; lia..].
  - exfalso. eapply gap_uncovered; [exact Hgj|done|done|]. apply Exists_exists. by exists r.
  - exfalso. eapply gap_uncovered; [exact Hgi|done|done|]. apply Exists_exists. by exists r'.
  - f_equal. unfold in_range in *.
    eapply same_index; [exact (splits_disjoint _ _ _ _ _ Hsplits)|exact Hgi|exact Hgj|cbn; lia..].
Qed.

Lemma aligned_meet b r :
  b ∈ full -> r ∈ candidates -> rd_start r < b_end b -> b_start b < rd_end r -> inside (rd_start r) (rd_end r) b = true.
Proof using Haligned.
  intros Hb Hr H1 H2. rewrite Forall_forall in Haligned. apply (Haligned r Hr); [done|]. unfold overlaps_window.
  apply andb_true_iff. rewrite !Z.ltb_lt. lia.
Qed.

Lemma pieces_cover b : b ∈ full -> inside lo hi b = true -> exists p, In p pieces /\ p b = true.
Proof using All.
  intros Hb Hin. pose proof (full_positive b Hb) as Hpos.
  assert (Ht : lo <= b_start b < hi) by (unfold inside in Hin; zbool; lia).
  destruct (decide (Exists (covers (b_start b)) candidates)) as [Hc|Hc].
  - apply (splits_covered _ _ _ _ _ Hsplits) in Hc; [|done]. apply Exists_exists in Hc as (r & Hr & Hc).
    exists (piece_of r). split; [apply in_app_iff; left; apply in_map, list_elem_of_In, Hr|]. unfold piece_of.
    rewrite window_envelope, Hin by done. cbn. unfold covers in Hc.
    apply aligned_meet; [done|by apply (splits_from _ _ _ _ _ Hsplits)|lia|lia].
  - apply (splits_gap _ _ _ _ _ Hsplits) in Hc; [|done]. apply Exists_exists in Hc as (g & Hgi & Hr).
    exists (gap_piece g). split; [apply in_app_iff; right; apply in_map, list_elem_of_In, Hgi|].
    unfold gap_piece, in_range in *. pose proof (splits_maximal _ _ _ _ _ Hsplits) as Hmx. rewrite Forall_forall in Hmx.
    destruct (decide (b_end b <= g.2)) as [|Hgt]; [unfold inside; apply andb_true_iff; rewrite !Z.leb_le; lia|]. exfalso.
    destruct (Hmx g Hgi) as [E|(r & Hrc & E)]; [unfold inside in Hin; zbool; lia|].
    assert (rd_start r < rd_end r) by (rewrite Forall_forall in Haligned; by apply Haligned).
    assert (Hi : inside (rd_start r) (rd_end r) b = true) by (apply aligned_meet; [done|done|lia|lia]).
    unfold inside in Hi. zbool. lia.
Qed.

Lemma pieces_within b p : b ∈ full -> In p pieces -> p b = true -> inside lo hi b = true.
Proof using All.
  intros Hb Hpm Hpb. apply in_app_iff in Hpm as [Hpm|Hpm]; apply in_map_iff in Hpm as (x & <- & Hx).
  - unfold piece_of in Hpb. rewrite window_envelope in Hpb by done. by apply andb_true_iff in Hpb as [? _].
  - pose proof (splits_within _ _ _ _ _ Hsplits) as Hw. rewrite Forall_forall in Hw.
    specialize (Hw x ltac:(by apply list_elem_of_In)). unfold gap_piece, inside in *. zbool. apply andb_true_iff.
    rewrite !Z.leb_le. lia.
Qed.

(** The pieces of a plan partition the buckets of the envelope. *)
Lemma plan_pieces :
  concat (map (fun r => List.filter (overlaps_window start stop) (List.filter (inside (rd_start r) (rd_end r)) full)) ds)
  ++ concat (map (fun g => List.filter (inside g.1 g.2) full) gs)
  ≡ₚ List.filter (inside lo hi) full.
Proof using All.
  rewrite (map_ext _ (fun r => List.filter (piece_of r) full))
    by (intros r; rewrite filter_filter; apply List.filter_ext; intros; apply andb_comm).
  change (map (fun g => List.filter (inside g.1 g.2) full) gs) with (map (fun g => List.filter (gap_piece g) full) gs).
  rewrite <- (map_map piece_of (fun p => List.filter p full)), <- (map_map gap_piece (fun p => List.filter p full)),
    <- concat_app, <- map_app.
  apply pieces_perm; [apply pieces_exclusive|]. intros b Hb. apply eq_iff_eq_true. rewrite existsb_exists. split.
  - by apply pieces_cover.
  - intros (p & Hp & Hpb). by eapply pieces_within.
Qed.
End Pieces.

(** ** Reading the rollup files *)

(** No input or output fails. *)
Definition quiet (s : Store) : Prop := faults (file (database s)) = [] /\ dir_faults (rollup_directory s) = [].

Section Reading.
Context `{Crc} `{RecordCodec} `{IndexCodec} `{TimeZones} `{Lz4} `{MapOrder} `{ManifestCodec} `{ReadDir} `{CacheOrder}.

(** The points the store accounts for. *)
Definition source_points (d : Database Segment) : Z := u64_saturating_add (points (state d)) (sealed_points d).

Lemma stats_quiet s : quiet s -> exists st, on_database stats s = (s, Ok st) /\ st_points st = source_points (database s).
Proof.
  intros [Hf _]. destruct s as [? ? ? [[] ? ? ? ? ? ? ? ? ? ?]]. cbn in Hf. subst. by eexists.
Qed.

(** What the store would read for a descriptor: the cached file or the file. *)
Definition rollup_of (s : Store) (r : RollupDescriptor) (g : RollupSegment) : Prop :=
  match rollup_cache s !! rd_file r with
  | Some g' => g' = g
  | None => exists b, Directory.visible (dir_state (rollup_directory s)) !! rd_file r = Some b /\ RollupSegment_open b = Ok g
  end.

Lemma open_in_quiet s r g :
  dir_faults (rollup_directory s) = [] -> rollup_cache s !! rd_file r = None -> rollup_of s r g ->
  on_rollups (RollupSegment_open_in (rd_file r)) s = (s, Ok g).
Proof.
  intros Hf Hc Hr. unfold rollup_of in Hr. rewrite Hc in Hr. destruct Hr as (b & Hb & Ho).
  unfold on_rollups, st_zoom, RollupSegment_open_in, d_read, dir_call, st_bind. rewrite Hf, Hb. cbn.
  unfold st_lift. rewrite Ho. by destruct s.
Qed.

(** Every descriptor of [ds] with what is read for it. *)
Definition all_read (s : Store) (ds : list RollupDescriptor) (read : RollupDescriptor -> RollupSegment) : Prop :=
  forall r, r ∈ ds -> rollup_of s r (read r).

Lemma open_missing s ds read :
  dir_faults (rollup_directory s) = [] -> all_read s ds read ->
  st_map (fun r => let* g := on_rollups (RollupSegment_open_in (rd_file r)) in st_ret (rd_file r, g))
    (List.filter (fun r => negb (is_cached (rollup_cache s) r)) ds) s
  = (s, Ok (map (fun r => (rd_file r, read r)) (List.filter (fun r => negb (is_cached (rollup_cache s) r)) ds))).
Proof.
  intros Hf. induction ds as [|r ds IH]; intros Hr; [done|]. cbn [List.filter].
  assert (Hr' : all_read s ds read) by (intros x Hx; apply Hr; set_solver).
  destruct (is_cached (rollup_cache s) r) eqn:Hb; cbn [negb]; [by apply IH|].
  assert (Hc : rollup_cache s !! rd_file r = None) by (unfold is_cached in Hb; by destruct (rollup_cache s !! rd_file r)).
  cbn [st_map map].
  rewrite (st_bind_run _ _ s s (rd_file r, read r)).
  - by rewrite (st_bind_run _ _ s s _ (IH Hr')).
  - rewrite (st_bind_run _ _ s s (read r)); [done|]. apply open_in_quiet; [done|done|apply Hr; set_solver].
Qed.

Lemma cache_opened_kept (cache : gmap rstring RollupSegment) l name g :
  cache !! name = Some g -> foldl cache_opened cache l !! name = Some g.
Proof.
  revert cache. induction l as [|[n x] l IH]; intros cache Hc; cbn; [done|]. apply IH. unfold cache_opened. cbn.
  destruct (cache !! n) eqn:E; [done|]. rewrite lookup_insert_ne; [done|]. congruence.
Qed.

Lemma cache_opened_new (cache : gmap rstring RollupSegment) l name g :
  cache !! name = None -> (name, g) ∈ l -> (forall g', (name, g') ∈ l -> g' = g) ->
  foldl cache_opened cache l !! name = Some g.
Proof.
  revert cache. induction l as [|[n x] l IH]; intros cache Hc Hin Huniq; [by apply not_elem_of_nil in Hin|]. cbn.
  unfold cache_opened at 2. cbn. destruct (decide (n = name)) as [->|Hne].
  - rewrite Hc. apply cache_opened_kept. rewrite lookup_insert_eq. f_equal. apply Huniq. set_solver.
  - apply IH; [|set_solver..]. destruct (cache !! n); [done|]. by rewrite lookup_insert_ne.
Qed.

(** [cached_rollup_buckets] answers from every file, cached or not. *)
Lemma cached_rollup_buckets_quiet s ds read start stop :
  dir_faults (rollup_directory s) = [] -> all_read s ds read ->
  exists s', cached_rollup_buckets ds start stop s = (s', Ok (concat (map (fun r => rollup_query (read r) start stop) ds)))
    /\ database s' = database s /\ manifest s' = manifest s.
Proof.
  intros Hf Hr. unfold cached_rollup_buckets, st_bind at 1, st_get.
  destruct (forallb (is_cached (rollup_cache s)) ds) eqn:Hall.
  - exists s. split; [|done]. unfold st_ret. do 3 f_equal. apply map_ext_in. intros r Hin.
    rewrite forallb_forall in Hall. specialize (Hall r Hin). apply list_elem_of_In in Hin. specialize (Hr r Hin).
    unfold rollup_of in Hr. unfold cached_query. unfold is_cached in Hall. destruct (rollup_cache s !! rd_file r); [by subst|done].
  - rewrite (st_bind_run _ _ _ _ _ (open_missing s ds read Hf Hr)). unfold st_bind, st_modify, st_ret.
    match goal with |- exists _, (?a, _) = _ /\ _ => exists a end. split; [|done]. do 3 f_equal. apply map_ext_in. intros r Hin.
    apply list_elem_of_In in Hin. pose proof (Hr r Hin) as Hg. unfold cached_query.
    destruct (rollup_cache s !! rd_file r) as [g|] eqn:Hc.
    + rewrite (cache_opened_kept _ _ _ g) by done. unfold rollup_of in Hg. rewrite Hc in Hg. by subst.
    + rewrite (cache_opened_new _ _ _ (read r)); [done|done| |].
      * apply list_elem_of_In, in_map_iff. exists r. split; [done|]. apply filter_In. split; [by apply list_elem_of_In|].
        unfold is_cached. by rewrite Hc.
      * intros g' Hg'. apply list_elem_of_In, in_map_iff in Hg' as (r' & [= E <-] & Hin').
        apply filter_In in Hin' as [Hin' _]. apply list_elem_of_In in Hin'. specialize (Hr r' Hin').
        unfold rollup_of in Hr, Hg. rewrite E, Hc in *. destruct Hr as (b & Hb & Ho), Hg as (b' & Hb' & Ho'). congruence.
Qed.
End Reading.

(** ** Gauge queries *)

Section Gauge.
Context `{Crc} `{RecordCodec} `{IndexCodec} `{TimeZones} `{Lz4} `{MapOrder} `{ManifestCodec} `{ReadDir} `{CacheOrder}.

(** The rollup of everything the series holds: the reference every answer is
    compared with. *)
Definition whole_rollup (d : Database Segment) (series : Z) (res : RollupResolution) (max_gap : Z) : Result (list GaugeBucket) :=
  let? points := query_latest (sealed d) (index (state d)) series i64_min i64_max in materialize points res max_gap.

(** The database whose sealed segments are intact and whose index is in
    order, with times in range. *)
Record sound_database (d : Database Segment) : Prop := {
  sound_sealed : Forall seg_intact (sealed d);
  sound_index : wf_index (index (state d));
}.

(** A descriptor whose file holds exactly the buckets of its range. *)
Definition exact_rollup (s : Store) (full : list GaugeBucket) (r : RollupDescriptor) : Prop :=
  aligned full r /\ exists g, rollup_of s r g /\ rollup_buckets g = List.filter (inside (rd_start r) (rd_end r)) full.

Lemma query_latest_i64 d series lo hi W :
  sound_database d -> i64_min <= lo -> hi <= i64_max -> query_latest (sealed d) (index (state d)) series lo hi = Ok W ->
  Forall (fun p => is_i64 (valid_time p)) W.
Proof.
  intros [Hg Hi] Hlo Hhi HW. pose proof (query_latest_window _ _ _ lo hi lo hi W Hg Hi ltac:(lia) ltac:(lia) HW) as HW'.
  rewrite HW in HW'. injection HW' as E. rewrite E. apply Forall_forall. intros p Hp.
  apply list_elem_of_In, filter_In in Hp as [_ Hp]. unfold within in Hp. unfold is_i64, i64_min, i64_max in *. zbool. lia.
Qed.

(** A range of buckets is what the whole rollup has there. *)
Lemma raw_range_exact d series res minimum `{!Partition (tier_bounds res) minimum} max_gap full lo hi :
  sound_database d -> whole_rollup d series res max_gap = Ok full -> lo <= hi -> is_i64 lo ->
  hi + Z.max max_gap 1 <= i64_max ->
  materialize_raw_range d series lo hi res max_gap = Ok (List.filter (inside lo hi) full).
Proof.
  intros Hd Hw Hr Hlo Hhi. unfold whole_rollup in Hw. apply bind_Ok in Hw as (W & HW & Hm).
  pose proof (query_latest_i64 d series i64_min i64_max W Hd (Z.le_refl _) (Z.le_refl _) HW) as Ht.
  assert (Hg : 0 <= max_gap) by (rewrite materialize_build in Hm; apply bind_Ok in Hm as ([] & Hc & _); by eapply tier_check_Ok).
  unfold materialize_raw_range. cbv zeta.
  rewrite (query_latest_window _ _ _ i64_min i64_max _ _ W) by
    (try apply Hd; try done; unfold i64_saturating_sub, i64_saturating_add, is_i64, i64_min, i64_max in *; lia).
  cbn [bind]. destruct (materialize_local res minimum max_gap W lo hi full Hm Ht Hr Hhi) as (near & Hn & E).
  change (List.filter (within _ _) W) with (List.filter (context lo hi max_gap) W). rewrite Hn. cbn [bind].
  f_equal. exact E.
Qed.

Lemma envelope_of_bounds res start stop lo e1 s2 hi max_gap points full :
  materialize points res max_gap = Ok full -> is_i64 start -> is_i64 stop -> start < stop ->
  tier_bounds res start = Ok (lo, e1) -> tier_bounds res (stop - 1) = Ok (s2, hi) -> query_envelope start stop res = Ok (lo, hi).
Proof.
  rewrite materialize_build. intros ([] & Hc & _)%bind_Ok Hs He Hlt H1' H2'. unfold query_envelope.
  replace (i64_saturating_sub stop 1) with (stop - 1)
    by (unfold i64_saturating_sub, is_i64, i64_min, i64_max in *; lia).
  destruct res as [micros|unit tz]; cbn [tier_bounds] in *.
  - unfold tier_check in Hc. apply bind_Ok in Hc as ([] & Hc & _). apply reject_Ok in Hc. zbool.
    destruct (Z.ltb_spec 0 micros); [|lia]. unfold fixed_bounds in *. apply bind_Ok in H1' as (x & _ & [= <- <-]).
    apply bind_Ok in H2' as (y & Hy & [= <- <-]). apply ok_or_Ok, i64_checked_Some in Hy as [-> Hy].
    f_equal. f_equal. unfold i64_saturating_add, is_i64, i64_min, i64_max in *. lia.
  - rewrite H1'. cbn [bind]. rewrite H2'. done.
Qed.

(** The file a descriptor names, as a function. *)
Definition read_rollup (s : Store) (r : RollupDescriptor) : RollupSegment :=
  let none := mkRollupSegment [] (mkRollupStats 0 0 0 None None) in
  match rollup_cache s !! rd_file r with
  | Some g => g
  | None => match Directory.visible (dir_state (rollup_directory s)) !! rd_file r with
            | Some b => match RollupSegment_open b with Ok g => g | Err _ => none end
            | None => none
            end
  end.

Lemma read_rollup_of s r g : rollup_of s r g -> read_rollup s r = g.
Proof.
  unfold rollup_of, read_rollup. destruct (rollup_cache s !! rd_file r); [done|]. intros (b & -> & E). cbn. by rewrite E.
Qed.

Lemma gap_ranges d series res minimum `{!Partition (tier_bounds res) minimum} max_gap full lo hi gs (s : Store) :
  sound_database d -> whole_rollup d series res max_gap = Ok full -> is_i64 lo -> hi + Z.max max_gap 1 <= i64_max ->
  Forall (fun g => lo <= g.1 < g.2 /\ g.2 <= hi) gs ->
  st_map (fun g => st_lift (materialize_raw_range d series g.1 g.2 res max_gap)) gs s
  = (s, Ok (map (fun g => List.filter (inside g.1 g.2) full) gs)).
Proof.
  intros Hd Hw Hlo Hhi. induction 1 as [|g gs Hg _ IH]; [done|]. cbn [st_map map].
  rewrite (st_bind_run _ _ s s (List.filter (inside g.1 g.2) full)).
  - by rewrite (st_bind_run _ _ s s _ IH).
  - unfold st_lift. f_equal. eapply raw_range_exact; [done|done|done|lia| |lia].
    unfold is_i64, i64_max in *. lia.
Qed.

Lemma stored_answer s (full : list GaugeBucket) res minimum `{!Partition (tier_bounds res) minimum} start stop ds :
  Forall (proper res) full -> StronglySorted (fun a b => b_start a < b_start b) full ->
  (forall r, r ∈ ds -> exact_rollup s full r) ->
  concat (map (fun r => rollup_query (read_rollup s r) start stop) ds)
  = concat (map (fun r => List.filter (overlaps_window start stop) (List.filter (inside (rd_start r) (rd_end r)) full)) ds).
Proof.
  intros Hp Hs Hex. f_equal. apply map_ext_in. intros r Hr. apply list_elem_of_In in Hr.
  destruct (Hex r Hr) as (_ & g & Hg & E). rewrite (read_rollup_of _ _ _ Hg). destruct g as [l st]. cbn in E. subst l.
  apply rollup_query_ordered. eapply (proper_sorted res minimum); [|by apply StronglySorted_filter].
  apply Forall_forall. intros b Hb. apply list_elem_of_In, filter_In in Hb as [Hb _]. rewrite Forall_forall in Hp.
  apply Hp. by apply list_elem_of_In.
Qed.

(** [query_gauge] returns exactly the buckets of the whole rollup that overlap
    the window, whichever mix of files and raw points answers. *)
Lemma query_gauge_exact s series definition res minimum `{!Partition (tier_bounds res) minimum} full start stop lo e1 s2 hi :
  let max_gap := default 0 (series_maximum_gap_micros definition) in
  quiet s -> store_poisoned s = false -> sound_database (database s) ->
  series_map (catalog (state (database s))) !! series = Some definition -> is_gauge definition = true ->
  whole_rollup (database s) series res max_gap = Ok full ->
  is_i64 start -> is_i64 stop -> start < stop ->
  tier_bounds res start = Ok (lo, e1) -> tier_bounds res (stop - 1) = Ok (s2, hi) -> is_i64 lo ->
  hi + Z.max max_gap 1 <= i64_max ->
  let usable := List.filter (fun r => active_for series res r && (rd_source_points r =? source_points (database s)))
                  (rollups (manifest s)) in
  (forall r, r ∈ usable -> exact_rollup s full r) -> disjoint_ranges usable ->
  exists s' source, query_gauge series start stop res s
      = (s', Ok (mkRollupQuery (List.filter (overlaps_window start stop) full) source (generation (manifest s))))
    /\ database s' = database s /\ manifest s' = manifest s.
Proof.
  intros max_gap Hq Hpo Hd Hdef Hga Hw Hs He Hlt H1' H2' Hlo Hhi usable Hex Hdis.
  assert (Hb1 : bucket_of (tier_bounds res) start (lo, e1)) by done.
  assert (Hb2 : bucket_of (tier_bounds res) (stop - 1) (s2, hi)) by (split; [unfold is_i64 in *; lia|done]).
  pose proof (bounds_contains _ minimum _ _ _ Hb1). pose proof (bounds_contains _ minimum _ _ _ Hb2).
  assert (Hw' := Hw). unfold whole_rollup in Hw'. apply bind_Ok in Hw' as (W & HW & Hm).
  pose proof (query_latest_i64 _ series i64_min i64_max W Hd (Z.le_refl _) (Z.le_refl _) HW) as Ht.
  destruct (materialize_whole res minimum _ _ _ Hm Ht) as [Hp Hsorted].
  assert (Hwin : List.filter (overlaps_window start stop) full = List.filter (inside lo hi) full).
  { apply filter_ext_in. intros b Hb. rewrite Forall_forall in Hp.
    eapply (envelope_exact res minimum); eauto. apply Hp. by apply list_elem_of_In. }
  rewrite Hwin. unfold query_gauge.
  rewrite (st_bind_run _ _ s s tt) by (unfold ensure_healthy, st_bind, st_get, st_reject, st_lift; by rewrite Hpo).
  rewrite (st_bind_run _ _ s s tt) by (unfold st_reject, st_lift, reject; by destruct (Z.leb_spec stop start); [lia|]).
  rewrite (st_bind_run _ _ s s s) by done.
  rewrite (st_bind_run _ _ s s definition) by (unfold st_lift; by rewrite Hdef).
  rewrite (st_bind_run _ _ s s tt) by (unfold st_reject, st_lift; by rewrite Hga).
  rewrite (st_bind_run _ _ s s (lo, hi)) by (unfold st_lift; f_equal; by eapply envelope_of_bounds).
  destruct (stats_quiet s Hq) as (st & Est & Epts). cbv beta iota.
  rewrite (st_bind_run _ _ s s st Est). rewrite (st_bind_run _ _ s s s) by done. cbv zeta. rewrite Epts. fold max_gap.
  set (cands := query_candidates _ _ _ _ _ _).
  assert (Hcu : forall r, r ∈ cands -> r ∈ usable).
  { intros r Hr. apply list_elem_of_In, filter_In in Hr as [Hr Hc]. apply list_elem_of_In, filter_In.
    split; [done|]. by apply andb_true_iff in Hc as [-> _]. }
  pose proof (coverage_plan_splits cands lo hi) as Hsp. set (plan := coverage_plan cands lo hi) in *.
  assert (Hgaps : Forall (fun g => lo <= g.1 < g.2 /\ g.2 <= hi) (gaps plan)) by apply (splits_within _ _ _ _ _ Hsp).
  destruct (descriptors plan) as [|r0 ds0] eqn:Eds.
  - rewrite (st_bind_run _ _ s s (List.filter (inside lo hi) full)).
    + by eexists s, Raw.
    + unfold st_lift. f_equal. by eapply raw_range_exact; eauto; lia.
  - rewrite <- Eds in *. clear Eds r0 ds0.
    assert (Hfrom : forall r, r ∈ descriptors plan -> exact_rollup s full r)
      by (intros r Hr; by apply Hex, Hcu, (splits_from _ _ _ _ _ Hsp)).
    destruct (cached_rollup_buckets_quiet s (descriptors plan) (read_rollup s) start stop) as (s' & Ec & Edb & Em).
    { apply Hq. }
    { intros r Hr. destruct (Hfrom r Hr) as (_ & g & Hg & _). by rewrite (read_rollup_of _ _ _ Hg). }
    rewrite (st_bind_run _ _ _ _ _ Ec).
    rewrite (st_bind_run _ _ _ _ _ (gap_ranges (database s) series res minimum max_gap full lo hi (gaps plan) s' Hd Hw Hlo Hhi Hgaps)).
    exists s', (match gaps plan with [] => Materialized | _ => Hybrid end). split; [|done]. unfold st_ret. do 3 f_equal.
    apply sort_strict; [|by apply StronglySorted_filter]. rewrite (stored_answer s full res minimum) by done.
    eapply (plan_pieces res minimum full cands start stop lo e1 s2 hi); try done.
    + apply Forall_forall. intros r Hr. by apply Hex, Hcu.
    + intros a b t Ha Hb. by apply Hdis; apply Hcu.
Qed.
End Gauge.
