(* ===== verification/Shards.v ===== *)
(** * Shards: what maintenance materializes

    Materialized buckets fit the rollup file format, and the shards they are
    grouped into hold exactly the buckets of their ranges. *)
From S2P Require Import Prelude Errors Bytes Float64 Model Transaction Query Aggregate Rollup Codec.
From S2P Require Import Segment RollupSegment Manifest Planner PlannerInv Locality Store StoreInv.

(** ** Buckets that fit the file format *)

(** The values of a bucket that counts at most [n] samples. *)
Definition fine (n : Z) (b : GaugeBucket) : Prop :=
  0 <= b_count b <= n /\ is_f64 (b_sum b) /\ from_option is_f64 True (b_min b) /\ from_option is_f64 True (b_max b)
  /\ from_option typed_sample True (b_first b) /\ from_option typed_sample True (b_last b)
  /\ is_f64 (b_integral_value_micros b).

Lemma zero_typed : is_f64 f64_zero.
Proof. unfold is_f64, is_u64, f64_zero. lia. Qed.
#[local] Hint Resolve zero_typed : ftw.

Lemma fold_opt_typed f o v :
  (forall a b, is_f64 a -> is_f64 b -> is_f64 (f a b)) -> from_option is_f64 True o -> is_f64 v -> is_f64 (fold_opt f o v).
Proof. intros Hf Ho Hv. destruct o; cbn in *; auto. Qed.

Lemma fine_empty n s e : 0 <= n -> fine n (bucket_empty s e).
Proof. intros. unfold fine, bucket_empty. cbn. split_and!; auto with ftw; lia. Qed.

Lemma fine_sample n b s : fine n b -> typed_sample s -> fine (n + 1) (add_sample b s).
Proof.
  intros (Hc & Hs & Hmin & Hmax & Hf & Hl & Hi) Ht. unfold fine, add_sample. cbn. pose proof (proj2 Ht) as Hv.
  split_and!; auto with ftw; try lia; try (by apply fold_opt_typed; auto with ftw). by destruct (b_first b).
Qed.

Lemma fine_interval n b v d : fine n b -> is_f64 v -> fine n (add_covered_interval b v d).
Proof.
  intros (Hc & Hs & Hmin & Hmax & Hf & Hl & Hi) Hv. unfold fine, add_covered_interval. cbn.
  split_and!; auto with ftw; try lia; by apply fold_opt_typed; auto with ftw.
Qed.

Definition all_fine (n : Z) (m : gmap Z GaugeBucket) : Prop := forall k b, m !! k = Some b -> fine n b.

Lemma fine_mono n n' b : n <= n' -> fine n b -> fine n' b.
Proof. intros Hn (Hc & Hr). split; [lia|done]. Qed.

Lemma update_fine n n' m bk f :
  0 <= n <= n' -> all_fine n m -> (forall b, fine n b -> fine n' (f b)) -> all_fine n' (update_bucket m bk f).
Proof.
  intros Hn Hm Hf k b. unfold update_bucket. intros [[<- <-]|[_ Hk]]%lookup_insert_Some.
  - apply Hf. destruct (m !! bk.1) as [x|] eqn:E; cbn; [by eapply Hm|apply fine_empty; lia].
  - eapply fine_mono; [|by eapply Hm]. lia.
Qed.

Lemma typed_point_sample p : typed_point p -> typed_sample (mkSample (valid_time p) (value p)).
Proof. unfold typed_point, typed_sample. cbn. tauto. Qed.

Section BuildFine.
Context (bounds : Z -> Result (Z * Z)) (coverage_error gap_error : string) (fuel : Z -> nat) (max_gap : Z).

Lemma add_points_fine l : forall n m m',
  0 <= n -> all_fine n m -> Forall typed_point l -> try_fold (add_point bounds) m l = Ok m' -> all_fine (n + len l) m'.
Proof.
  induction l as [|p l IH]; intros n m m' Hn Hm Hl; cbn [try_fold].
  - intros [= <-]. unfold zlen. cbn. by rewrite Z.add_0_r.
  - intros (m1 & (b & _ & [= <-])%bind_Ok & E)%bind_Ok. apply Forall_cons in Hl as [Hp Hl].
    replace (n + len (p :: l)) with (n + 1 + len l) by (unfold zlen; cbn [length]; lia).
    eapply IH; [lia| |done|exact E]. apply (update_fine n); [lia|done|]. intros x Hx. by apply fine_sample, typed_point_sample.
Qed.

Lemma add_interval_fine n k : forall m start stop v m',
  0 <= n -> is_f64 v -> all_fine n m -> add_interval bounds coverage_error k m start stop v = Ok m' -> all_fine n m'.
Proof.
  induction k as [|k IH]; intros m start stop v m' Hn Hv Hm; cbn [add_interval]; destruct (start <? stop);
    [done|by intros [= <-]| |by intros [= <-]].
  intros (b & _ & (d & _ & E)%bind_Ok)%bind_Ok. eapply IH; [done|done| |exact E].
  apply (update_fine n); [lia|done|]. intros x Hx. by apply fine_interval.
Qed.

Lemma add_pairs_fine n l : forall m m',
  0 <= n -> all_fine n m -> Forall (fun pr => typed_point pr.1) l ->
  try_fold (add_pair bounds coverage_error gap_error fuel max_gap) m l = Ok m' -> all_fine n m'.
Proof.
  induction l as [|[p q] l IH]; intros m m' Hn Hm Hl; cbn [try_fold]; [by intros [= <-]|].
  intros (m1 & E1 & E2)%bind_Ok. apply Forall_cons in Hl as [Hp Hl]. eapply IH; [done| |done|exact E2].
  unfold add_pair in E1. destruct (i64_checked_sub _ _); [|done]. destruct (_ || _); [by injection E1 as <-|].
  eapply add_interval_fine; [done| |done|exact E1]. unfold typed_point in Hp. cbn in Hp. tauto.
Qed.
End BuildFine.

Section TierFine.
Context `{TimeZones}.

Lemma materialize_fine points res max_gap l :
  materialize points res max_gap = Ok l -> Forall typed_point points -> Forall (fine (len points)) l.
Proof.
  rewrite materialize_build. intros ([] & _ & E)%bind_Ok Ht. apply bind_Ok in E as (m & E & [= <-]).
  unfold tier_build, build in E. apply bind_Ok in E as (m1 & E1 & E2).
  assert (Hp : sort_by_valid_time points ≡ₚ points) by apply stable_sort_perm.
  assert (Hs : Forall typed_point (sort_by_valid_time points)) by (by rewrite Hp).
  apply (add_points_fine _ _ 0) in E1; [|lia|intros k b Hk; by rewrite lookup_empty in Hk|done].
  rewrite Z.add_0_l in E1. unfold zlen in E1. rewrite Hp in E1.
  apply (add_pairs_fine _ _ _ _ _ (len points)) in E2; [|unfold zlen; lia|done|].
  - apply Forall_forall. intros b (k & Hk)%elem_of_btree_values. by eapply E2.
  - apply Forall_forall. intros pr [Hpr _]%windows2_elem. rewrite Forall_forall in Hs. by apply Hs.
Qed.

(** What the writer of a rollup file checked of a bucket. *)
Lemma validate_from_width o l : forall i prev,
  validate_from o i prev l = Ok tt ->
  Forall (fun b => 0 <= b_covered_micros b <= b_end b - b_start b /\ is_i64 (b_end b - b_start b)) l.
Proof.
  induction l as [|b l IH]; intros i prev Hv; [constructor|]. cbn [validate_from] in Hv.
  apply bind_Ok in Hv as ([] & Hb & Hv). constructor; [|by eapply IH].
  unfold validate_bucket in Hb. guards_in Hb. apply bind_Ok in Hb as (d & Hd & Hb).
  apply ok_or_Ok, i64_checked_Some in Hd as [-> Hd]. guards_in Hb. zbool. split; [lia|done].
Qed.
End TierFine.

(** ** Shards *)

(** Multiples of the resolution bound unions of buckets. *)
Lemma fixed_aligned `{TimeZones} micros start stop t a b :
  0 < micros -> is_i64 micros -> start mod micros = 0 -> stop mod micros = 0 ->
  bucket_of (tier_bounds (FixedMicros micros)) t (a, b) -> a < stop -> start < b -> start <= a /\ b <= stop.
Proof.
  intros Hm Hi Hs He [Ht Hb] Ha Hb'. cbn [tier_bounds] in Hb. apply fixed_bounds_Ok in Hb as (Ea & Eb & _); [|done..].
  pose proof (Z.div_mod start micros ltac:(lia)). pose proof (Z.div_mod stop micros ltac:(lia)).
  assert (t / micros < stop / micros) by nia. assert (start / micros <= t / micros) by nia. nia.
Qed.


(** Grouping keeps the order inside a group. *)
Definition grouped_into (w now k : Z) (b : GaugeBucket) : bool :=
  (bucket_start (b_start b) w =? k) && (i64_saturating_add (bucket_start (b_start b) w) w <=? now).

Lemma group_lookup w now l : forall m k,
  foldl (group_bucket w now) m l !! k
  = match List.filter (grouped_into w now k) l with [] => m !! k | xs => Some (default [] (m !! k) ++ xs) end.
Proof.
  induction l as [|b l IH]; intros m k; cbn [foldl List.filter]; [done|]. rewrite IH.
  unfold grouped_into at 2, group_bucket. set (s := bucket_start (b_start b) w).
  destruct (i64_saturating_add s w <=? now); [|by rewrite andb_false_r]. rewrite andb_true_r.
  destruct (Z.eqb_spec s k) as [->|Hne]; [|by rewrite !lookup_insert_ne by done].
  rewrite lookup_insert_eq. cbn. destruct (List.filter _ l); [done|]. by rewrite <- app_assoc.
Qed.

Lemma shard_width_spec micros :
  0 < micros -> is_i64 micros -> 0 < shard_width micros /\ is_i64 (shard_width micros) /\ shard_width micros mod micros = 0.
Proof.
  intros Hm Hi. unfold shard_width. destruct (_ && _) eqn:E; [|rewrite Z_mod_same_full; done].
  zbool. split; [unfold UTC_DAY_MICROS; lia|]. split; [|done]. unfold is_i64, UTC_DAY_MICROS. lia.
Qed.

Lemma wrap_i64_typed z : is_i64 (wrap_i64 z).
Proof.
  unfold wrap_i64, to_signed, is_i64. pose proof (Z.mod_pos_bound z (2 ^ 64) ltac:(lia)).
  destruct (Z.ltb_spec (z mod 2 ^ 64) (2 ^ (64 - 1))); lia.
Qed.

(** A group that ends in the representable past begins where division says. *)
Lemma bucket_start_plain t w now :
  is_i64 t -> 0 < w -> is_i64 w -> now < i64_max -> i64_saturating_add (bucket_start t w) w <= now ->
  bucket_start t w = t / w * w /\ i64_saturating_add (bucket_start t w) w = t / w * w + w.
Proof.
  intros Ht Hw Hiw Hn. unfold bucket_start, wrap_i64.
  pose proof (Z.div_mod t w ltac:(lia)). pose proof (Z.mod_pos_bound t w ltac:(lia)).
  assert (Hz : t - w < t / w * w <= t) by lia. generalize dependent (t / w * w). intros z Hz.
  unfold i64_saturating_add, is_i64, i64_max, i64_min in *. destruct (decide (- 2 ^ 63 <= z)) as [Hlow|Hlow].
  - rewrite to_signed_mod by lia. lia.
  - rewrite <- (Z_mod_plus_full z 1 (2 ^ 64)), Z.mul_1_l, Z.mod_small by lia. unfold to_signed.
    destruct (Z.ltb_spec (z + 2 ^ 64) (2 ^ (64 - 1))); lia.
Qed.

Section ShardExact.
Context `{TimeZones}.

(** A resolution whose number of microseconds is an [i64]. *)
Definition typed_resolution (res : RollupResolution) : Prop :=
  match res with FixedMicros micros => is_i64 micros | Calendar _ _ => True end.

Lemma regular_typed res : regular_tier res -> typed_resolution res.
Proof. destruct res; cbn; [by intros [_ ?]|done]. Qed.

(** A range that is a union of buckets. *)
Definition whole_buckets (res : RollupResolution) (lo hi : Z) : Prop :=
  forall t a b, bucket_of (tier_bounds res) t (a, b) -> a < hi -> lo < b -> lo <= a /\ b <= hi.

Record exact_shard (res : RollupResolution) (now : Z) (buckets : list GaugeBucket) (sh : RollupShard) : Prop := {
  sh_range : shard_start sh < shard_end sh <= now;
  sh_i64 : is_i64 (shard_start sh);
  sh_whole : whole_buckets res (shard_start sh) (shard_end sh);
  sh_buckets : shard_buckets sh = List.filter (inside (shard_start sh) (shard_end sh)) buckets;
}.

Lemma fixed_shards_exact micros now buckets shards sh :
  is_i64 micros -> now < i64_max -> Forall (proper (FixedMicros micros)) buckets ->
  rollup_shards buckets (FixedMicros micros) now = Ok shards -> sh ∈ shards -> exact_shard (FixedMicros micros) now buckets sh.
Proof.
  intros Hi Hn Hp E Hsh. unfold rollup_shards in E. destruct (Z.ltb_spec 0 micros) as [Hm|]; [|done]. injection E as <-.
  destruct (shard_width_spec micros Hm Hi) as (Hw & Hwi & Hdiv). set (w := shard_width micros) in *.
  apply list_elem_of_In, in_map_iff in Hsh as ([k l] & <- & Hin). apply list_elem_of_In, elem_of_btree_to_list in Hin.
  rewrite group_lookup, lookup_empty in Hin. cbn [from_option id] in Hin.
  assert (El : l = List.filter (grouped_into w now k) buckets) by (destruct (List.filter _ buckets); [done|by injection Hin]).
  assert (Hb0 : exists b0, b0 ∈ buckets /\ grouped_into w now k b0 = true).
  { destruct (List.filter (grouped_into w now k) buckets) as [|b0 r] eqn:Ef; [done|]. exists b0.
    assert (In b0 (List.filter (grouped_into w now k) buckets)) as [? ?]%filter_In by (rewrite Ef; by left).
    split; [by apply list_elem_of_In|done]. }
  assert (Hbk : forall b, b ∈ buckets -> is_i64 (b_start b) /\ b_start b = b_start b / micros * micros /\ b_end b = b_start b + micros).
  { intros b Hb. rewrite Forall_forall in Hp. destruct (Hp b Hb) as [Ht Eb]. cbn [tier_bounds] in Eb.
    apply fixed_bounds_Ok in Eb as (E1 & E2 & _); done. }
  assert (Hk : is_i64 k /\ k mod w = 0 /\ i64_saturating_add k w = k + w /\ k + w <= now).
  { destruct Hb0 as (b0 & Hb & Hg). destruct (Hbk b0 Hb) as (Ht & _). unfold grouped_into in Hg. zbool.
    destruct (bucket_start_plain (b_start b0) w now) as [E1 E2]; [done..|lia|]. subst k. rewrite E1 in *. rewrite E2 in *.
    split; [|split; [apply Z_mod_mult|split; [done|lia]]].
    rewrite <- E1. apply wrap_i64_typed. }
  destruct Hk as (Hki & Hkm & Ekw & Hkn).
  pose proof (Z.div_mod k w ltac:(lia)) as Dk. pose proof (Z.div_mod w micros ltac:(lia)) as Dw.
  assert (Hkmic : k mod micros = 0) by (rewrite Dk, Hkm, Dw, Hdiv, !Z.add_0_r, <- Z.mul_assoc, Z.mul_comm; apply Z_mod_mult).
  assert (Hwmic : (k + w) mod micros = 0) by (rewrite Z.add_mod, Hkmic, Hdiv by lia; apply Z.mod_0_l; lia).
  split; cbn; rewrite ?Ekw; [lia|done|intros t a b; by apply fixed_aligned|].
  rewrite El. apply filter_ext_in. intros b Hb%list_elem_of_In. destruct (Hbk b Hb) as (Hbi & Eb & Ee).
  apply eq_iff_eq_true. unfold grouped_into, inside. rewrite !andb_true_iff, Z.eqb_eq, !Z.leb_le.
  pose proof (Z.div_mod (b_start b) w ltac:(lia)). pose proof (Z.mod_pos_bound (b_start b) w ltac:(lia)). split.
  - intros [Ek Hle]. destruct (bucket_start_plain (b_start b) w now) as [E1 E2]; [done..|]. rewrite E1 in *.
    assert (Ha : k <= b_start b /\ b_end b <= k + w); [|lia].
    destruct (fixed_aligned micros k (k + w) (b_start b) (b_start b) (b_end b)) as [? ?]; try done; try lia.
    rewrite Forall_forall in Hp. by apply Hp.
  - intros [Hlo Hhi]. assert (Eq : b_start b / w = k / w).
    { symmetry. apply Z.div_unique with (b_start b - k); lia. }
    assert (Es : bucket_start (b_start b) w = k); [|by rewrite Es, Ekw].
    unfold bucket_start, wrap_i64. rewrite Eq. replace (k / w * w) with k by lia. apply to_signed_mod; [lia|].
    unfold is_i64 in Hki. lia.
Qed.

Lemma calendar_shards_exact unit tz minimum `{!Partition (tier_bounds (Calendar unit tz)) minimum} now buckets shards sh :
  Forall (proper (Calendar unit tz)) buckets -> StronglySorted (fun a b => b_start a < b_start b) buckets ->
  rollup_shards buckets (Calendar unit tz) now = Ok shards -> sh ∈ shards -> exact_shard (Calendar unit tz) now buckets sh.
Proof.
  intros Hp Hs [= <-] Hsh. apply list_elem_of_In, in_map_iff in Hsh as (b & <- & Hin).
  apply filter_In in Hin as [Hin Hend]. apply list_elem_of_In in Hin. zbool. rewrite Forall_forall in Hp.
  pose proof (Hp b Hin) as Hb. pose proof (proper_positive _ minimum b Hb) as Hpos.
  assert (Hmeet : forall t a e, bucket_of (tier_bounds (Calendar unit tz)) t (a, e) -> a < b_end b -> b_start b < e ->
    a = b_start b /\ e = b_end b).
  { intros t a e Ht Ha He. pose proof (bounds_contains _ minimum _ _ _ Ht).
    set (x := mkBucket a e 0 0 None None None None 0 0).
    destruct (proper_meet _ minimum x b (Z.max a (b_start b))); try done; [|cbn; lia..].
    unfold proper. cbn. by eapply (bounds_start _ minimum). }
  split; cbn.
  - lia.
  - apply Hb.
  - intros t a e Ht Ha He. destruct (Hmeet t a e Ht Ha He). lia.
  - apply (strict_unique b_start); [repeat constructor|by apply StronglySorted_filter|]. intros x.
    rewrite list_elem_of_singleton, list_elem_of_In, filter_In, <- list_elem_of_In. unfold inside.
    rewrite andb_true_iff, !Z.leb_le. split; [intros ->; split; [done|lia]|]. intros [Hx [H1 H2]].
    pose proof (proper_positive _ minimum x (Hp x Hx)). destruct (Hmeet _ _ _ (Hp x Hx)) as [E _]; [lia..|].
    clear -Hs Hx Hin E. induction Hs as [|y l _ IH Hy]; [by apply not_elem_of_nil in Hx|].
    rewrite Forall_forall in Hy. apply elem_of_cons in Hx as [->|Hx], Hin as [->|Hin]; [done| | |by apply IH].
    + specialize (Hy b Hin). lia.
    + specialize (Hy x Hx). lia.
Qed.

(** Every shard holds the buckets of its range. *)
Lemma rollup_shards_exact res minimum `{!Partition (tier_bounds res) minimum} now buckets shards sh :
  typed_resolution res -> now < i64_max -> Forall (proper res) buckets ->
  StronglySorted (fun a b => b_start a < b_start b) buckets ->
  rollup_shards buckets res now = Ok shards -> sh ∈ shards -> exact_shard res now buckets sh.
Proof.
  destruct res as [micros|unit tz]; cbn [typed_resolution]; intros Hi Hn Hp Hs E Hsh.
  - by eapply fixed_shards_exact.
  - by eapply calendar_shards_exact.
Qed.
End ShardExact.
