(* ===== verification/StoreSweep.v ===== *)
(** * StoreSweep: what the reclamation of space leaves alone

    The sweep of [remove_unreferenced_files] only removes names outside the
    referenced set: every file the loaded manifest or one of the newest
    generations names stays as it was, at every moment and after every power
    loss, whichever calls fail. *)
From S2P Require Import Prelude Errors Bytes Float64 Model Transaction Catalog Query Aggregate Rollup Codec Effects.
From S2P Require Import Segment RollupSegment Directory Manifest ManifestInv Planner Scan Database Store.

(** ** Directories that keep some names *)

(** From [s0] to [s] the names of [P] and their files did not change. *)
Record keeps (P : rstring -> Prop) (s0 s : DirState) : Prop := {
  keeps_files : fs_files s = fs_files s0;
  keeps_now : forall n, P n -> fs_now s !! n = fs_now s0 !! n;
  keeps_next : fs_next s = fs_next s0;
  keeps_names : forall m, m ∈ fs_names s -> exists m0, m0 ∈ fs_names s0 /\ forall n, P n -> m !! n = m0 !! n;
  keeps_current : fs_now s ∈ fs_names s;
  keeps_gone : forall n i, fs_now s !! n = Some i -> fs_now s0 !! n = Some i;
}.

Lemma keeps_self P s : fs_now s ∈ fs_names s -> keeps P s s.
Proof. split; eauto. Qed.

Lemma keeps_impl (P Q : rstring -> Prop) s0 s : (forall n, Q n -> P n) -> keeps P s0 s -> keeps Q s0 s.
Proof.
  intros Hi [? ? ? Hn ? ?]. split; eauto. intros m Hm. destruct (Hn m Hm) as (m0 & ? & ?). eauto.
Qed.

Lemma keeps_visible P s0 s n : keeps P s0 s -> P n -> visible s !! n = visible s0 !! n.
Proof. intros Hk Hn. unfold visible. by rewrite !lookup_omap, (keeps_now _ _ _ Hk), (keeps_files _ _ _ Hk). Qed.

Lemma keeps_survive P s0 s n v : keeps P s0 s -> P n -> may_survive s n v -> may_survive s0 n v.
Proof.
  intros Hk Hn (m & Hm & Hv). destruct (keeps_names _ _ _ Hk m Hm) as (m0 & Hm0 & E).
  exists m0. split; [done|]. rewrite <- E by done. by rewrite <- (keeps_files _ _ _ Hk).
Qed.

Lemma keeps_wf P s0 s : wf_dir s0 -> keeps P s0 s -> (forall m n i, m ∈ fs_names s -> m !! n = Some i -> (i < fs_next s0)%nat) ->
  wf_dir s.
Proof. intros Hw Hk Hn. split; [apply Hk|]. intros m n i Hm Hi. rewrite (keeps_next _ _ _ Hk). eauto. Qed.

(** One call at a time. *)
Section Calls.
Context (P : rstring -> Prop) (s0 : DirState).
Abbreviation K := (keeps P s0).

Lemma keeps_remove n : ~ P n -> dtriple K K (d_remove_file n) (fun _ => K).
Proof.
  intros Hn. apply dtriple_call. intros f d Hd. destruct f as [fault|[]]; cbn; [by split; [apply passes_refl|]|].
  destruct (fs_now (dir_state d) !! n) as [i|]; cbn; [|by split; [apply passes_refl|]].
  assert (Hk : K (set_names (delete n (fs_now (dir_state d))) (dir_state d))).
  { destruct Hd as [Hf Hnow Hx Hm Hc Hg].
    assert (Hdel : forall k, P k -> delete n (fs_now (dir_state d)) !! k = fs_now (dir_state d) !! k)
      by (intros k Hp; rewrite lookup_delete_ne; [done|by intros ->]).
    split; cbn; [done|intros k Hp; rewrite Hdel; auto|done| |by left|].
    - intros m [->|H]%elem_of_cons; [|by apply Hm]. destruct (Hm _ Hc) as (m0 & H0 & E). exists m0.
      split; [done|]. intros k Hp. rewrite Hdel; auto.
    - intros k j [_ Hj]%lookup_delete_Some. by apply Hg. }
  split; [by apply passes_step|done].
Qed.

Lemma keeps_sync : dtriple K K d_sync_dir (fun _ => K).
Proof.
  apply dtriple_call. intros f d Hd. destruct f as [fault|[]]; cbn; [by split; [apply passes_refl|]|].
  assert (Hk : K (mkDirState (fs_now (dir_state d)) [fs_now (dir_state d)] (fs_files (dir_state d)) (fs_next (dir_state d)))).
  { destruct Hd as [Hf Hnow Hx Hm Hc Hg]. split; cbn; [done|done|done| |by left|done].
    intros m ->%list_elem_of_singleton. by apply Hm. }
  split; [by apply passes_step|done].
Qed.

Lemma attempt_triple {A} (I Q : DirState -> Prop) (op : ST Dir A) :
  dtriple I Q op (fun _ => I) -> dtriple I Q (attempt op) (fun _ => I).
Proof.
  intros Hop d d' r HI E. unfold attempt in E. destruct (op d) as [d1 [a|e]] eqn:Eo; injection E as <- <-;
    destruct (Hop _ _ _ HI Eo) as [Hp _]; split; try done; by destruct Hp as (l & _ & _ & ?).
Qed.

Lemma keeps_sweep_names names b : Forall (fun n => ~ P n) names -> dtriple K K (sweep_names names b) (fun _ => K).
Proof.
  intros Hn. revert b. induction Hn as [|n names Hn _ IH]; intros b; cbn [sweep_names].
  - intros d d' r HP [= <- <-]. split; [by apply passes_refl|done].
  - eapply dtriple_bind; [by apply attempt_triple, keeps_remove|]. intros a. apply IH.
Qed.
End Calls.

(** ** One directory *)

Section Sweep.
Context `{ReadDir}.

Lemma keeps_sweep (extension : rstring) (referenced : gset rstring) s0 :
  dtriple (keeps (fun n => n ∈ referenced) s0) (keeps (fun n => n ∈ referenced) s0) (sweep extension referenced)
    (fun _ => keeps (fun n => n ∈ referenced) s0).
Proof.
  unfold sweep. eapply dtriple_bind.
  - apply attempt_triple, dtriple_call. intros f d Hd. destruct f as [fault|[]]; cbn; by split; [apply passes_refl|].
  - intros [entries|]; [|intros d d' r HP [= <- <-]; by split; [apply passes_refl|]].
    eapply dtriple_bind.
    + apply keeps_sweep_names. apply Forall_forall. intros n [_ Hn]%list_elem_of_In%filter_In.
      apply andb_true_iff in Hn as [_ Hn]. apply negb_true_iff, bool_decide_eq_false in Hn. done.
    + intros removed. eapply (dtriple_bind _ _ _ _ (fun _ => keeps (fun n => n ∈ referenced) s0)).
      * destruct removed; [apply ignore_triple, keeps_sync|]. intros d d' r HP [= <- <-]. by split; [apply passes_refl|].
      * intros [] d d' r HP [= <- <-]. by split; [apply passes_refl|].
Qed.

Lemma sweep_run (extension : rstring) (referenced : gset rstring) d d' r :
  fs_now (dir_state d) ∈ fs_names (dir_state d) -> sweep extension referenced d = (d', r) ->
  passes (keeps (fun n => n ∈ referenced) (dir_state d)) d d' /\ is_ok r = true.
Proof.
  intros Hc E. split; [by eapply (keeps_sweep extension referenced (dir_state d)); [by apply keeps_self|]|].
  clear Hc. unfold sweep, attempt, st_bind at 1 in E. destruct (d_read_dir d) as [d1 [e|e]]; [|by injection E as <- <-].
  assert (Hs : forall l b x, exists x' b', sweep_names l b x = (x', Ok b')).
  { clear. intros l. induction l as [|n l IH]; intros b x; cbn [sweep_names]; [by eexists _, _|].
    unfold st_bind, attempt. destruct (d_remove_file n x) as [x1 [[]|]]; apply IH. }
  unfold st_bind at 1 in E. match type of E with context[sweep_names ?l false d1] => destruct (Hs l false d1) as (d2 & b & E2) end.
  rewrite E2 in E.
  unfold st_bind, ignore in E. destruct b; [destruct (d_sync_dir d2)|]; by injection E as <- <-.
Qed.
End Sweep.

(** ** The store *)

Section Removal.
Context `{Crc} `{RecordCodec} `{IndexCodec} `{TimeZones} `{Lz4} `{MapOrder} `{ManifestCodec} `{ReadDir} `{CacheOrder}.

(** The newest generations, which recovery falls back to, and their manifests. *)
Definition newest (dir : gmap rstring bytes) : list Candidate := take (1 + RETAINED_FALLBACK_GENERATIONS) (generation_candidates dir).
Definition fallback (s : Store) (m : Manifest) : Prop :=
  exists c, c ∈ newest (visible (dir_state (manifest_directory s)))
    /\ read_manifest (cand_file c) (cand_generation c) = Ok m.
Definition protected_rollup (s : Store) (n : rstring) : Prop :=
  exists m, (m = manifest s \/ fallback s m) /\ n ∈ map rd_file (rollups m).
Definition protected_segment (s : Store) (n : rstring) : Prop :=
  exists m, (m = manifest s \/ fallback s m) /\ n ∈ map sd_file (segments m).

(** A pass over the retained generations reads them all or fails; it changes
    nothing in the directory. *)
Lemma d_read_spec name d d' r :
  d_read name d = (d', r) ->
  dir_past d' = dir_past d /\ dir_state d' = dir_state d /\ forall file, r = Ok file -> visible (dir_state d) !! name = Some file.
Proof.
  unfold d_read, dir_call. destruct (dir_faults d) as [|[f|] rest]; intros [= <- <-]; split_and!; try done; by intros ? ?%ok_or_Ok.
Qed.

Lemma referenced_all (files : Manifest -> list rstring) retained : forall (acc : gset rstring) d d' r,
  st_fold (fun acc c => let* m := read_manifest_in c in st_ret (acc ∪ list_to_set (files m))) acc retained d = (d', r) ->
  dir_past d' = dir_past d /\ dir_state d' = dir_state d
  /\ forall names, r = Ok names ->
       acc ⊆ names
       /\ forall c, c ∈ retained -> exists file m, visible (dir_state d) !! cand_name c = Some file
            /\ read_manifest file (cand_generation c) = Ok m /\ (list_to_set (files m) : gset rstring) ⊆ names.
Proof.
  induction retained as [|c l IH]; intros acc d d' r; cbn [st_fold].
  - intros [= <- <-]. split_and!; [done..|]. intros names [= <-]. split; [done|]. by intros c ?%elem_of_nil.
  - unfold st_bind at 1 2. unfold read_manifest_in at 1. unfold st_bind at 1.
    destruct (d_read (cand_name c) d) as [d1 r1] eqn:E1. apply d_read_spec in E1 as (P1 & S1 & R1).
    destruct r1 as [file|e]; [|by intros [= <- <-]]. unfold st_lift.
    destruct (read_manifest file (cand_generation c)) as [m|e] eqn:Em; [|by intros [= <- <-]].
    intros E. apply IH in E as (P2 & S2 & R2). split_and!; [congruence..|]. intros names En. destruct (R2 _ En) as [Ha Hl].
    split; [set_solver|]. intros x [->|Hx]%elem_of_cons; [|rewrite <- S1; by apply Hl].
    exists file, m. split_and!; [by apply R1|done|set_solver].
Qed.

Lemma take_min_length {A} n (l : list A) : take (Nat.min n (length l)) l = take n l.
Proof. destruct (Nat.min_spec n (length l)) as [[_ ->]|[? ->]]; [done|]. by rewrite !take_ge by lia. Qed.

Lemma candidate_names dir c c' :
  c ∈ generation_candidates dir -> c' ∈ generation_candidates dir -> cand_name c = cand_name c' -> c = c'.
Proof.
  rewrite !candidates_elem. intros [G1 F1] [G2 F2] E. rewrite E in G1, F1. destruct c as [g n f], c' as [g' n' f']. cbn in *. congruence.
Qed.

Lemma removals_visible name l : forall d d' r,
  Forall (fun c => cand_name c <> name) l -> st_for_each (fun c => ignore (d_remove_file (cand_name c))) l d = (d', r) ->
  visible (dir_state d') !! name = visible (dir_state d) !! name.
Proof.
  induction l as [|c l IH]; intros d d' r Hl; cbn [st_for_each]; [by intros [= <- _]|]. apply Forall_cons in Hl as [Hc Hl].
  unfold st_bind, ignore at 1. destruct (d_remove_file (cand_name c) d) as [d1 r1] eqn:E1. intros E. rewrite (IH _ _ _ Hl E).
  unfold d_remove_file, dir_call in E1. destruct (dir_faults d) as [|[f|] rest]; cbn in E1; [|by injection E1 as <- _|];
    (destruct (fs_now (dir_state d) !! cand_name c); injection E1 as <- _; [|done];
     unfold visible; rewrite !lookup_omap; cbn; by rewrite lookup_delete_ne).
Qed.

Lemma sync_visible d d' r : d_sync_dir d = (d', r) -> visible (dir_state d') = visible (dir_state d).
Proof. unfold d_sync_dir, dir_call. destruct (dir_faults d) as [|[f|] rest]; by intros [= <- _]. Qed.

(** Pruning keeps the newest generations, with their files. *)
Lemma prune_returns g d d' r :
  prune_generations g d = (d', r) ->
  forall kept, r = Ok kept -> forall c, c ∈ newest (visible (dir_state d)) ->
    c ∈ kept /\ visible (dir_state d') !! cand_name c = Some (cand_file c).
Proof.
  intros E kept ->. unfold prune_generations in E. unfold st_bind at 1 in E. destruct (d_read_dir d) as [d0 r0] eqn:E0.
  apply d_read_dir_spec in E0 as (_ & S0 & R0). destruct r0 as [entries|]; [|done]. rewrite (R0 _ eq_refl) in E. clear R0 entries.
  cbv zeta in E. fold (generation_candidates (visible (dir_state d))) in E. set (cs := generation_candidates _) in *.
  set (w := Nat.min _ _) in *. destruct (prune_tail g (drop w cs)) as [tail gone] eqn:Et. pose proof (prune_tail_spec _ _ _ _ Et) as Hg.
  unfold st_bind at 1 in E.
  destruct (st_for_each (fun c => ignore (d_remove_file (cand_name c))) gone d0) as [d1 r1] eqn:E1. destruct r1 as [[]|]; [|done].
  unfold st_bind, ignore in E. destruct (d_sync_dir d1) as [d2 r2] eqn:E2. injection E as <- <-.
  intros c Hc. unfold newest in Hc. fold cs in Hc. rewrite <- (take_min_length _ cs) in Hc. fold w in Hc. split; [apply elem_of_app; by left|].
  assert (Hin : c ∈ cs) by (rewrite <- (take_drop w cs); apply elem_of_app; by left).
  assert (V2 : visible (dir_state d2) !! cand_name c = visible (dir_state d1) !! cand_name c) by (by rewrite (sync_visible _ _ _ E2)).
  assert (V1 : visible (dir_state d1) !! cand_name c = visible (dir_state d0) !! cand_name c).
  { eapply removals_visible; [|exact E1]. apply Forall_forall. intros x Hx Hp. apply Hg in Hx as [Hx _].
    assert (x = c) as ->.
    { apply (candidate_names (visible (dir_state d))); [|done|done]. fold cs. rewrite <- (take_drop w cs). apply elem_of_app. by right. }
    pose proof (candidates_NoDup (visible (dir_state d))) as Hnd. fold cs in Hnd. rewrite <- (take_drop w cs) in Hnd.
    apply NoDup_app in Hnd as (_ & Hnd & _). by apply (Hnd c). }
  rewrite V2, V1, S0. by apply candidates_elem in Hin as [_ ?].
Qed.

(** What [remove_unreferenced_files] may change. *)
Record swept (s s' : Store) : Prop := {
  swept_manifests : exists dm x, prune_generations (generation (manifest s)) (manifest_directory s) = (dm, x)
                      /\ dir_state (manifest_directory s') = dir_state dm;
  swept_rest : s' = set_segment_directory (segment_directory s')
                      (set_rollup_directory (rollup_directory s') (set_manifest_directory (manifest_directory s') s));
  swept_rollups : passes (keeps (protected_rollup s) (dir_state (rollup_directory s))) (rollup_directory s) (rollup_directory s');
  swept_segments : passes (keeps (protected_segment s) (dir_state (segment_directory s))) (segment_directory s)
                     (segment_directory s');
  (** Nothing is swept when one of the newest generations cannot be read. *)
  swept_readable :
    (rollup_directory s' = rollup_directory s /\ segment_directory s' = segment_directory s)
    \/ forall c, c ∈ newest (visible (dir_state (manifest_directory s))) ->
         is_ok (read_manifest (cand_file c) (cand_generation c)) = true;
}.

Lemma passes_impl (I J : DirState -> Prop) d d' : (forall s, I s -> J s) -> passes I d d' -> passes J d d'.
Proof. intros Hi (l & E & Hl & Hd). exists l. split; [done|]. split; [by eapply Forall_impl|auto]. Qed.

(** It always succeeds, and keeps what the manifests name. *)
Lemma removal_run s s' r :
  fs_now (dir_state (rollup_directory s)) ∈ fs_names (dir_state (rollup_directory s)) ->
  fs_now (dir_state (segment_directory s)) ∈ fs_names (dir_state (segment_directory s)) ->
  remove_unreferenced_files s = (s', r) -> r = Ok tt /\ swept s s'.
Proof.
  intros Hr Hg E. unfold remove_unreferenced_files in E. rewrite (st_bind_run _ _ s s s eq_refl) in E.
  unfold attempt at 1, st_bind at 1, on_manifests at 1, st_zoom in E.
  destruct (prune_generations _ _) as [dm x] eqn:Ep. pose proof (prune_returns _ _ _ _ Ep) as Hk.
  pose proof (keeps_self (protected_rollup s) _ Hr) as Kr. pose proof (keeps_self (protected_segment s) _ Hg) as Kg.
  assert (Hstop : forall dm', dir_state dm' = dir_state dm -> (set_manifest_directory dm' s, Ok tt) = (s', r) -> r = Ok tt /\ swept s s').
  { intros dm' Ed [= <- <-]. split; [done|]. split; [by exists dm, x|by destruct s|by apply passes_refl..|by left]. }
  destruct x as [kept|]; [|by apply (Hstop dm)]. specialize (Hk kept eq_refl).
  unfold attempt at 1, st_bind at 1, on_manifests at 1, st_zoom in E. cbn [manifest_directory set_manifest_directory] in E.
  destruct (referenced_rollup_files kept dm) as [dm1 x1] eqn:Ers. apply (referenced_all (fun m => map rd_file (rollups m))) in Ers as (_ & S1 & Hrs).
  destruct x1 as [rs|]; [|by apply (Hstop dm1)]. destruct (Hrs _ eq_refl) as [_ Hrs'].
  unfold attempt at 1, st_bind at 1, on_manifests at 1, st_zoom in E. cbn [manifest_directory set_manifest_directory] in E.
  destruct (referenced_segment_files kept dm1) as [dm2 x2] eqn:Egs.
  apply (referenced_all (fun m => map sd_file (segments m))) in Egs as (_ & S2 & Hgs). rewrite S1 in S2, Hgs.
  destruct x2 as [gs|]; [|by apply (Hstop dm2)]. destruct (Hgs _ eq_refl) as [_ Hgs']. clear Hstop Hrs Hgs.
  assert (Hread : forall c, c ∈ newest (visible (dir_state (manifest_directory s))) -> is_ok (read_manifest (cand_file c) (cand_generation c)) = true).
  { intros c Hc. destruct (Hk c Hc) as [Hc1 Hc2]. destruct (Hrs' c Hc1) as (file & m & Hf & Hm' & _). rewrite Hf in Hc2.
    injection Hc2 as <-. by rewrite Hm'. }
  unfold st_bind at 1, on_rollups, st_zoom in E. destruct (sweep (str ".rseg") _ _) as [dr b] eqn:Er.
  pose proof (sweep_run _ _ _ _ _ Hr Er) as [Pr Hb]. destruct b as [b|]; [|done].
  assert (Pr' : passes (keeps (protected_rollup s) (dir_state (rollup_directory s))) (rollup_directory s) dr).
  { eapply passes_impl; [|exact Pr]. intros x. apply keeps_impl. intros n (m & [->|(c & Hc & Hcm)] & Hn).
    - apply elem_of_union. right. by apply elem_of_list_to_set.
    - apply elem_of_union. left. destruct (Hk c Hc) as [Hc1 Hc2]. destruct (Hrs' c Hc1) as (file & m' & Hf & Hm' & Hin).
      rewrite Hf in Hc2. injection Hc2 as ->. rewrite Hcm in Hm'. injection Hm' as <-. by apply Hin, elem_of_list_to_set. }
  destruct b; cycle 1.
  { injection E as <- <-. split; [done|]. split; [by exists dm, (Ok kept)|by destruct s|done|by apply passes_refl|by right]. }
  unfold st_bind, on_segments, st_zoom in E. destruct (sweep (str ".wseg") _ _) as [ds b] eqn:Eg.
  pose proof (sweep_run _ _ _ _ _ Hg Eg) as [Pg Hb']. destruct b as [b|]; [|done]. injection E as <- <-.
  split; [done|]. split; [by exists dm, (Ok kept)|by destruct s|done| |by right].
  eapply passes_impl; [|exact Pg]. intros x. apply keeps_impl. intros n (m & [->|(c & Hc & Hcm)] & Hn).
  - apply elem_of_union. right. by apply elem_of_list_to_set.
  - apply elem_of_union. left. destruct (Hk c Hc) as [Hc1 Hc2]. destruct (Hgs' c Hc1) as (file & m' & Hf & Hm' & Hin).
    rewrite Hf in Hc2. injection Hc2 as ->. rewrite Hcm in Hm'. injection Hm' as <-. by apply Hin, elem_of_list_to_set.
Qed.
End Removal.
