(* ===== verification/Refine.v ===== *)
(** * Refine: the log on disk and the state in memory

    The writer updates its state incrementally; recovery rebuilds a state from
    the bytes of the log.  This file relates the two: every frame a writer
    method emits replays to the state the method left in memory. *)
From S2P Require Import Prelude Errors Bytes Float64 Model Transaction Catalog Query Codec Effects Scan Database.

(** ** The simulation relation *)

(** A recovered receipt does not carry the durability flag of the writer. *)
Definition clear_commit (c : Commit) : Commit := set_commit_durable false c.
Definition clear_ingress (r : StoredIngressReceipt) : StoredIngressReceipt := set_receipt_durable false r.
Definition clear_identified (r : StoredIdentifiedReceipt) : StoredIdentifiedReceipt :=
  mkIdentifiedReceipt (dr_payload_offset r) (dr_payload_len r) (dr_payload_crc32 r)
    (dr_compact_payload r) (clear_commit (dr_commit r)).

(** [sim s d]: the state [s] a scan rebuilt stands for the state [d] of a
    handle.  The scan sorts each series at the end; durability flags differ. *)
Record sim (s d : LogState) : Prop := mkSim {
  sim_index : sort_series <$> index s = index d;
  sim_catalog : catalog s = catalog d;
  sim_commit_ids : commit_ids s = commit_ids d;
  sim_identified : clear_identified <$> identified_receipts s = clear_identified <$> identified_receipts d;
  sim_ingress : clear_ingress <$> ingress_receipts s = clear_ingress <$> ingress_receipts d;
  sim_ingress_commit_ids : ingress_commit_ids s = ingress_commit_ids d;
  sim_last_sequences : ingress_last_sequences s = ingress_last_sequences d;
  sim_commits : commits s = commits d;
  sim_points : points s = points d;
  sim_catalog_records : catalog_records s = catalog_records d;
  sim_pending : pending_reclaim s = pending_reclaim d;
}.

Lemma sim_sort_index s : sim s (sort_index s).
Proof. by constructor. Qed.

Lemma clear_receipts_durable (m : gmap IngressKey StoredIngressReceipt) :
  clear_ingress <$> (set_receipt_durable true <$> m) = clear_ingress <$> m.
Proof. rewrite <- map_fmap_compose. by apply map_fmap_ext. Qed.

Lemma sim_receipts_durable s d : sim s d -> sim s (receipts_durable d).
Proof.
  intros []. constructor; simpl; try done. by rewrite clear_receipts_durable.
Qed.

Lemma sim_ingress_lookup s d k :
  sim s d -> is_some (ingress_receipts s !! k) = is_some (ingress_receipts d !! k).
Proof.
  intros Hs. pose proof (sim_ingress _ _ Hs) as E.
  apply (f_equal (fun m => m !! k)) in E. rewrite !lookup_fmap in E.
  destruct (ingress_receipts s !! k), (ingress_receipts d !! k); done.
Qed.

(** ** What replaying records does *)

Lemma replay_records_fold s rs :
  foldl replay_record s rs
  = set_index (foldl push_indexed_point (index s) (records_points rs))
      (set_points (points s + records_point_count rs)
         (set_catalog_records (catalog_records s + metadata_count rs) s)).
Proof.
  revert s. induction rs as [|r rs IH]; intros s.
  - simpl. destruct s. unfold set_index, set_points, set_catalog_records, metadata_count, zlen. simpl.
    f_equal; lia.
  - cbn [foldl]. rewrite IH. unfold records_points. cbn [map concat]. rewrite foldl_app.
    assert (Hm : metadata_count (r :: rs)
                 = (match r with RPoints _ => 0 | _ => 1 end) + metadata_count rs).
    { unfold metadata_count, zlen. destruct r; cbn [List.filter is_points length]; lia. }
    rewrite Hm. destruct s. unfold set_index, set_points, set_catalog_records.
    destruct r; cbn -[metadata_count push_indexed_point zlen]; f_equal;
      change (zlen (@nil Point)) with 0; fold (records_point_count rs); lia.
Qed.

Lemma index_records_fold {Seg : Type} s rs :
  index_records rs s = set_index (foldl insert_indexed_point (index s) (records_points rs)) s.
Proof.
  unfold index_records. revert s. induction rs as [|r rs IH]; intros s; [by destruct s|].
  cbn [foldl]. rewrite IH. unfold records_points. cbn [map concat]. rewrite foldl_app.
  by destruct r.
Qed.

Definition typed_transaction (t : Transaction) : Prop :=
  Forall typed_record (records t)
  /\ typed_opt is_u128 (tx_commit_id t)
  /\ match tx_ingress_identity t with Some i => typed_identity i | None => True end.

(** ** Every frame the writer emits replays to the state it keeps *)

Section FrameReplay.
Context `{Crc} `{RecordCodecLaws} `{IndexCodec} `{TimeZones}.

Lemma upd_eq f s : upd f s = (mkScanState (f (log s)) (stop_reason s), Ok tt).
Proof. reflexivity. Qed.

Lemma replay_frame_ok cfg offset f s s1 :
  (forall t, check_frame_kind cfg offset (fr_kind f) (fr_items f) (len (fr_payload f)) t = (t, Ok tt)) ->
  apply_payload cfg offset
    (mkFrameHeader (fr_kind f) (fr_items f) (len (fr_payload f)) (hash (fr_payload f)))
    (fr_payload f) s = (s1, Ok tt) ->
  replay_frame cfg offset f s
  = (mkScanState (set_commits (commits (log s1) + 1) (log s1)) (stop_reason s1), Ok tt).
Proof. intros Hc Ha. unfold replay_frame, st_bind. by rewrite Hc, Ha. Qed.

(** [append]: a legacy point frame. *)
Lemma replay_points_frame cfg offset ps s d :
  sim (log s) d -> Forall typed_point ps -> validate_point_intervals ps = Ok tt ->
  len ps <= max_batch_points cfg -> is_u32 (len ps) ->
  exists s', replay_frame cfg offset (mkFrame FRAME_KIND_LEGACY_POINTS (len ps) (encode_points ps)) s
      = (s', Ok tt)
    /\ sim (log s') (set_points (points d + len ps) (set_commits (commits d + 1) (insert_points ps d))).
Proof.
  intros Hs Ht Hv Hmax Hn. eexists. split.
  - apply replay_frame_ok.
    + intros t. cbn [fr_kind fr_items fr_payload]. unfold check_frame_kind. simpl.
      unfold u64_checked_mul. rewrite u64_checked_ok by (unfold is_u32, is_u64 in *; lia).
      assert (Hl : len (encode_points ps) = len ps * 72).
      { unfold zlen. rewrite length_encode_points. unfold POINT_BYTES. lia. }
      rewrite Hl, Z.eqb_refl, orb_false_r.
      destruct (Z.ltb_spec (max_batch_points cfg) (len ps)); [lia|done].
    + unfold apply_payload. cbn [fr_kind fr_items fr_payload frame_kind item_count Z.eqb].
      rewrite decode_encode_points, Hv by done. reflexivity.
  - destruct Hs. constructor; simpl; try done; try congruence.
    by rewrite push_then_sort_insert, sim_index0.
Qed.

Lemma apply_recovered_Ok c rs offset r :
  apply_records c rs = Ok r -> apply_recovered c rs offset = Ok (default c r).
Proof. unfold apply_recovered. intros ->. by destruct r. Qed.

Lemma apply_records_frame_ok cfg offset t canonical s c :
  Forall typed_record (records t) -> encode_canonical_transaction t = Ok canonical ->
  is_u64 (len canonical) -> apply_records (catalog (log s)) (records t) = Ok c ->
  point_count t <= max_batch_points cfg ->
  apply_records_frame cfg offset canonical (record_count t) s
  = (mkScanState (foldl replay_record (set_catalog (default (catalog (log s)) c) (log s)) (records t))
       (stop_reason s), Ok (records t)).
Proof.
  intros Ht He Hl Ha Hp. unfold apply_records_frame.
  rewrite (decode_encode_transaction t canonical offset) by done.
  unfold st_bind at 1. cbn [halt_on st_ret]. unfold st_bind at 1. cbn [st_get].
  rewrite (apply_recovered_Ok _ _ _ _ Ha). unfold st_bind at 1. cbn [halt_on st_ret].
  unfold st_bind at 1. rewrite upd_eq. unfold point_count in Hp. unfold st_bind at 1.
  destruct (Z.ltb_spec (max_batch_points cfg) (records_point_count (records t))); [lia|]. reflexivity.
Qed.

(** The state after the records of a transaction, on both sides. *)
Lemma sim_transaction s d t c :
  sim s d ->
  sim (foldl replay_record (set_catalog (default (catalog s) c) s) (records t))
    (set_commits (commits d) (count_transaction t (install_catalog c (index_records (records t) d)))).
Proof.
  intros []. rewrite replay_records_fold, (index_records_fold (Seg := unit)).
  constructor; destruct c; simpl; try done; try congruence;
    rewrite ?push_then_sort_insert, ?sim_index0, ?sim_points0; done.
Qed.

Lemma sim_count s d t c rs :
  sim s (set_commits (commits d) (count_transaction t (install_catalog c (index_records rs d)))) ->
  sim (set_commits (commits s + 1) s) (count_transaction t (install_catalog c (index_records rs d))).
Proof.
  rewrite (index_records_fold (Seg := unit)). intros []. simpl in *.
  constructor; simpl; try done. destruct c; simpl in *; lia.
Qed.

Lemma check_transaction_kind cfg offset k n l t :
  k = FRAME_KIND_TRANSACTION \/ (k = FRAME_KIND_IDENTIFIED_TRANSACTION /\ 16 <= l)
    \/ (k = FRAME_KIND_INGRESS_TRANSACTION /\ 40 <= l) ->
  l <= max_transaction_bytes cfg ->
  check_frame_kind cfg offset k n l t = (t, Ok tt).
Proof.
  intros Hk Hl. unfold check_frame_kind.
  destruct (Z.ltb_spec (max_transaction_bytes cfg) l); [lia|].
  destruct Hk as [->|[[-> Hk]|[-> Hk]]]; simpl; unfold st_bind; simpl; [done| |].
  - destruct (Z.ltb_spec l 16); [lia|done].
  - destruct (Z.ltb_spec l 40); [lia|done].
Qed.

(** A kind-1 frame. *)
Lemma replay_transaction_frame cfg offset t canonical s d c :
  sim (log s) d -> Forall typed_record (records t) ->
  encode_canonical_transaction t = Ok canonical ->
  is_u64 (len canonical) -> len canonical <= max_transaction_bytes cfg ->
  apply_records (catalog d) (records t) = Ok c -> point_count t <= max_batch_points cfg ->
  exists s', replay_frame cfg offset (mkFrame FRAME_KIND_TRANSACTION (record_count t) canonical) s
      = (s', Ok tt)
    /\ sim (log s') (count_transaction t (install_catalog c (index_records (records t) d))).
Proof.
  intros Hs Ht He Hl Hmax Ha Hp. eexists. split.
  - apply replay_frame_ok; [intros; apply check_transaction_kind; auto|].
    unfold apply_payload. cbn [fr_kind fr_items fr_payload frame_kind item_count Z.eqb Pos.eqb
      FRAME_KIND_TRANSACTION FRAME_KIND_LEGACY_POINTS FRAME_KIND_SEAL_CHECKPOINT
      FRAME_KIND_IDENTITY_INDEX FRAME_KIND_IDENTIFIED_TRANSACTION FRAME_KIND_INGRESS_TRANSACTION].
    unfold st_bind. rewrite (apply_records_frame_ok cfg offset t canonical s c)
      by (done || by rewrite (sim_catalog _ _ Hs)). reflexivity.
  - apply sim_count, sim_transaction, Hs.
Qed.

Lemma sim_add_commit_id id s d : sim s d -> sim (add_commit_id id s) (add_commit_id id d).
Proof. intros []. constructor; simpl; congruence. Qed.

Lemma sim_insert_identified id r r' s d :
  clear_identified r = clear_identified r' ->
  sim s d -> sim (insert_identified id r s) (insert_identified id r' d).
Proof. intros Hr []. constructor; simpl; try done. rewrite !fmap_insert. congruence. Qed.

Lemma sim_insert_ingress i r r' s d :
  clear_ingress r = clear_ingress r' -> sim s d -> sim (insert_ingress i r s) (insert_ingress i r' d).
Proof. intros Hr []. constructor; simpl; try congruence. rewrite !fmap_insert. congruence. Qed.

Lemma sim_commit_bump s d : sim s d -> sim (set_commits (commits s + 1) s) (set_commits (commits d + 1) d).
Proof. intros []. constructor; simpl; congruence. Qed.

Lemma insert_commit_id_ok id offset r s :
  id ∉ commit_ids (log s) ->
  insert_commit_id id offset r s = (mkScanState (add_commit_id id (log s)) (stop_reason s), Ok tt).
Proof.
  intros Hid. unfold insert_commit_id, st_bind. cbn [st_get]. rewrite bool_decide_false by done. done.
Qed.

(** A kind-2 frame. *)
Lemma replay_identified_frame cfg offset t id canonical s d c durable :
  sim (log s) d -> Forall typed_record (records t) -> is_u128 id ->
  encode_canonical_transaction t = Ok canonical -> is_u64 (len canonical) ->
  16 + len canonical <= max_transaction_bytes cfg ->
  apply_records (catalog d) (records t) = Ok c -> point_count t <= max_batch_points cfg ->
  id ∉ commit_ids d ->
  let payload := to_le 16 id ++ canonical in
  exists s', replay_frame cfg offset
        (mkFrame FRAME_KIND_IDENTIFIED_TRANSACTION (record_count t) payload) s = (s', Ok tt)
    /\ sim (log s') (count_transaction t (insert_identified id
           (mkIdentifiedReceipt (offset + 24) (len payload) (hash payload) None
              (mkCommit offset (point_count t) (record_count t) (24 + len payload) durable false))
           (add_commit_id id (install_catalog c (index_records (records t) d))))).
Proof.
  intros Hs Ht Hid He Hl Hmax Ha Hp Hnew payload.
  assert (Hpl : len payload = 16 + len canonical)
    by (unfold payload, zlen; rewrite length_app, length_to_le; lia).
  assert (Hslice : from_le (slice 0 16 payload) = id) by (unfold payload; slices; by apply from_to_le_u128).
  assert (Hdrop : drop COMMIT_ID_BYTES payload = canonical)
    by (unfold payload; apply drop_app_length'; by rewrite length_to_le).
  pose proof (zlen_nonneg canonical). clearbody payload. eexists. split.
  - apply replay_frame_ok; [intros; apply check_transaction_kind; cbn; [right; left; split; [done|lia]|lia]|].
    unfold apply_payload. cbn [fr_kind fr_items fr_payload frame_kind item_count Z.eqb Pos.eqb
      FRAME_KIND_LEGACY_POINTS FRAME_KIND_SEAL_CHECKPOINT
      FRAME_KIND_IDENTITY_INDEX FRAME_KIND_IDENTIFIED_TRANSACTION FRAME_KIND_INGRESS_TRANSACTION].
    rewrite Hslice, Hdrop. unfold st_bind at 1.
    rewrite insert_commit_id_ok by (by rewrite (sim_commit_ids _ _ Hs)).
    unfold st_bind. rewrite (apply_records_frame_ok cfg offset t canonical _ c)
      by (done || cbn [log]; simpl; by rewrite (sim_catalog _ _ Hs)).
    rewrite upd_eq. reflexivity.
  - cbn [log stop_reason].
    match goal with |- sim _ (count_transaction t (insert_identified id ?r _)) =>
      replace (count_transaction _ _) with
        (let X := insert_identified id r (set_commits (commits d) (count_transaction t
                    (install_catalog c (index_records (records t) (add_commit_id id d))))) in
         set_commits (commits X + 1) X)
        by (rewrite !(index_records_fold (Seg := unit)); by destruct c)
    end.
    apply sim_commit_bump, sim_insert_identified; [done|]. by apply (sim_transaction _ (add_commit_id id d)), sim_add_commit_id.
Qed.

(** The checks of an ingress identity, in a state that admits it. *)
Lemma check_ingress_identity_ok i offset a b c e s :
  source_id i <> 0 -> ingress_receipts (log s) !! key_of i = None ->
  commit_id i ∉ commit_ids (log s) ->
  is_some_and (ingress_last_sequences (log s) !! source_id i) (fun last => sequence i <=? last) = false ->
  check_ingress_identity i offset a b c e s
  = (mkScanState (add_commit_id (commit_id i) (log s)) (stop_reason s), Ok tt).
Proof.
  intros H0' H1' H2' H3'. unfold check_ingress_identity.
  destruct (Z.eqb_spec (source_id i) 0); [done|]. unfold st_bind at 1. cbn [stop_if st_ret].
  unfold st_bind at 1. cbn [st_get]. rewrite H1', H3'. unfold st_bind at 1. cbn [is_some stop_if st_ret].
  unfold st_bind. rewrite insert_commit_id_ok by done. done.
Qed.

Lemma length_encode_identity i : length (encode_identity i) = 40%nat.
Proof. unfold encode_identity. by rewrite !length_app, !length_to_le. Qed.

Lemma decode_encode_identity i rest :
  typed_identity i -> decode_ingress_identity (encode_identity i ++ rest) = i.
Proof.
  intros (Hi1 & Hi2 & Hi3). unfold decode_ingress_identity, encode_identity. rewrite <- !app_assoc. slices.
  rewrite !from_to_le_u128, from_to_le_u64 by done. by destruct i.
Qed.

(** A kind-3 frame. *)
Lemma replay_ingress_frame cfg offset t i canonical s d c durable :
  sim (log s) d -> Forall typed_record (records t) -> typed_identity i ->
  encode_canonical_transaction t = Ok canonical -> is_u64 (len canonical) ->
  40 + len canonical <= max_transaction_bytes cfg ->
  apply_records (catalog d) (records t) = Ok c -> point_count t <= max_batch_points cfg ->
  source_id i <> 0 -> ingress_receipts d !! key_of i = None -> commit_id i ∉ commit_ids d ->
  is_some_and (ingress_last_sequences d !! source_id i) (fun last => sequence i <=? last) = false ->
  let payload := encode_identity i ++ canonical in
  exists s', replay_frame cfg offset
        (mkFrame FRAME_KIND_INGRESS_TRANSACTION (record_count t) payload) s = (s', Ok tt)
    /\ sim (log s') (insert_ingress i
           (mkIngressReceipt i (offset + 24 + 40) (len canonical) (hash canonical) None
              (mkCommit offset (point_count t) (record_count t) (24 + len payload) durable false))
           (add_commit_id (commit_id i)
              (count_transaction t (install_catalog c (index_records (records t) d))))).
Proof.
  intros Hs Ht Hi He Hl Hmax Ha Hp Hsrc Hkey Hnew Hord payload.
  assert (Hpl : len payload = 40 + len canonical)
    by (unfold payload, zlen; rewrite length_app, length_encode_identity; lia).
  assert (Hid : decode_ingress_identity payload = i) by (by apply decode_encode_identity).
  assert (Hdrop : drop INGRESS_IDENTITY_BYTES payload = canonical)
    by (unfold payload; apply drop_app_length'; by rewrite length_encode_identity).
  assert (Hkey' : ingress_receipts (log s) !! key_of i = None).
  { pose proof (sim_ingress_lookup _ _ (key_of i) Hs) as E. rewrite Hkey in E.
    by destruct (ingress_receipts (log s) !! key_of i). }
  pose proof (zlen_nonneg canonical). clearbody payload. eexists. split.
  - apply replay_frame_ok; [intros; apply check_transaction_kind; cbn; [right; right; split; [done|lia]|lia]|].
    unfold apply_payload. cbn [fr_kind fr_items fr_payload frame_kind item_count Z.eqb Pos.eqb
      FRAME_KIND_LEGACY_POINTS FRAME_KIND_SEAL_CHECKPOINT
      FRAME_KIND_IDENTITY_INDEX FRAME_KIND_IDENTIFIED_TRANSACTION FRAME_KIND_INGRESS_TRANSACTION].
    rewrite Hid, Hdrop. unfold st_bind at 1.
    rewrite check_ingress_identity_ok by (rewrite ?(sim_commit_ids _ _ Hs), ?(sim_last_sequences _ _ Hs); done).
    unfold st_bind. rewrite (apply_records_frame_ok cfg offset t canonical _ c)
      by (done || cbn [log]; simpl; by rewrite (sim_catalog _ _ Hs)).
    rewrite upd_eq. reflexivity.
  - cbn [log stop_reason].
    match goal with |- sim _ (insert_ingress i ?r _) =>
      replace (insert_ingress i r _) with
        (let X := insert_ingress i r (set_commits (commits d) (count_transaction t
                    (install_catalog c (index_records (records t) (add_commit_id (commit_id i) d))))) in
         set_commits (commits X + 1) X)
        by (rewrite !(index_records_fold (Seg := unit)); by destruct c)
    end.
    apply sim_commit_bump, sim_insert_ingress; [done|].
    by apply (sim_transaction _ (add_commit_id (commit_id i) d)), sim_add_commit_id.
Qed.

(** A seal checkpoint: the frame counts the live points, and a scan that
    knows its generation as published drops them. *)
Lemma replay_seal_frame cfg offset generation n s d :
  sim (log s) d -> is_u64 generation -> is_u64 n -> generation <> 0 -> n = points d ->
  exists s', replay_frame cfg offset
        (mkFrame FRAME_KIND_SEAL_CHECKPOINT 0 (to_le 8 generation ++ to_le 8 n)) s = (s', Ok tt)
    /\ sim (log s') (let d' := set_commits (commits d + 1) d in
                     if bool_decide (generation ∈ published_seals cfg)
                     then set_pending_reclaim true (set_points 0 (set_index ∅ d')) else d').
Proof.
  intros Hs Hg Hn Hg0 ->. set (payload := to_le 8 generation ++ to_le 8 (points d)).
  assert (Hpl : len payload = 16) by (unfold payload, zlen; by rewrite length_app, !length_to_le).
  assert (E1 : from_le (slice 0 8 payload) = generation) by (unfold payload; slices; by apply from_to_le_u64).
  assert (E2 : from_le (slice 8 16 payload) = points d) by (unfold payload; slices; by apply from_to_le_u64).
  clearbody payload.
  exists (let l := set_commits (commits (log s) + 1) (log s) in
    mkScanState (if bool_decide (generation ∈ published_seals cfg)
                 then set_pending_reclaim true (set_points 0 (set_index ∅ l)) else l) (stop_reason s)).
  split.
  - unfold replay_frame, st_bind at 1. unfold check_frame_kind. cbn [fr_kind fr_items fr_payload].
    rewrite Hpl. simpl. unfold apply_payload. simpl. rewrite E1, E2. unfold st_bind. simpl.
    rewrite (sim_points _ _ Hs), Z.eqb_refl. destruct (Z.eqb_spec generation 0); [done|]. simpl.
    destruct (bool_decide _); done.
  - destruct Hs. destruct (bool_decide _); constructor; simpl; rewrite ?fmap_empty; congruence.
Qed.
End FrameReplay.
