(* ===== verification/Durable.v ===== *)
(** * Durable: the handle invariant, crashes and reopening

    The file of a handle always holds the frames that rebuild its state, the
    synced part of the file ends at a frame boundary and determines the durable
    watermarks, and whatever a power loss leaves of the file reopens to a state
    between the synced one and the current one. *)
From S2P Require Import Prelude Errors Bytes Float64 Model Transaction Catalog Query Codec Effects Scan Database Refine.

(** ** Hoare triples for the methods of a handle

    [Q] describes the state after success, [E] the state after an error. *)
Definition triple {S A} (P : S -> Prop) (m : ST S A) (Q : A -> S -> Prop) (E : S -> Prop) : Prop :=
  forall s s' r, P s -> m s = (s', r) ->
    match r with Ok a => Q a s' | Err _ => E s' end.

Section Triples.
Context {S A B : Type}.
Implicit Types (P : S -> Prop) (E : S -> Prop).

Lemma triple_bind P (m : ST S A) (k : A -> ST S B) R Q E :
  triple P m R E -> (forall a, triple (R a) (k a) Q E) -> triple P (st_bind m k) Q E.
Proof.
  intros Hm Hk s s' r HP. unfold st_bind. destruct (m s) as [s1 [a|e]] eqn:Em.
  - intros Hr. eapply Hk; [|exact Hr]. exact (Hm _ _ _ HP Em).
  - intros [= <- <-]. exact (Hm _ _ _ HP Em).
Qed.

Lemma triple_lift P (r : Result A) (k : A -> ST S B) Q E :
  (forall s, P s -> E s) -> (forall a, r = Ok a -> triple P (k a) Q E) ->
  triple P (st_bind (st_lift r) k) Q E.
Proof.
  intros HE Hk s s' q HP. unfold st_bind, st_lift. destruct r as [a|e].
  - by apply Hk.
  - intros [= <- <-]. by apply HE.
Qed.

Lemma triple_get P (k : S -> ST S B) Q E :
  (forall s, P s -> triple (fun t => t = s) (k s) Q E) -> triple P (st_bind st_get k) Q E.
Proof. intros Hk s s' r HP. unfold st_bind, st_get. by apply Hk. Qed.

Lemma triple_ret P (a : A) (Q : A -> S -> Prop) E : (forall s, P s -> Q a s) -> triple P (st_ret a) Q E.
Proof. intros HQ s s' r HP [= <- <-]. by apply HQ. Qed.

Lemma triple_err P (Q : A -> S -> Prop) E e : (forall s, P s -> E s) -> triple P (st_err e) Q E.
Proof. intros HE s s' r HP [= <- <-]. by apply HE. Qed.

Lemma triple_weaken P P' (m : ST S A) Q Q' E E' :
  (forall s, P s -> P' s) -> (forall a s, Q' a s -> Q a s) -> (forall s, E' s -> E s) ->
  triple P' m Q' E' -> triple P m Q E.
Proof. intros HP HQ HE Hm s s' r Hs Hr. specialize (Hm s s' r (HP _ Hs) Hr). destruct r; auto. Qed.
End Triples.

Lemma triple_reject {S B} (P : S -> Prop) c e (k : unit -> ST S B) Q E :
  (forall s, P s -> E s) -> (c = false -> triple P (k tt) Q E) ->
  triple P (st_bind (st_reject c e) k) Q E.
Proof.
  intros HE Hk. apply triple_lift; [done|]. intros [] Hc%reject_Ok. by apply Hk.
Qed.

(** ** File calls *)

(** Two files that differ only in the I/O outcomes still to come. *)
Definition same_file (f g : File) : Prop := contents f = contents g /\ synced f = synced g.

Lemma next_fault_same f : same_file (next_fault f).2 f.
Proof. unfold next_fault. by destruct (faults f). Qed.

Lemma f_len_spec f f' r :
  f_len f = (f', r) -> same_file f' f /\ (r = Ok (len (contents f)) \/ exists k, r = Err (Io k)).
Proof.
  unfold f_len, f_call. pose proof (next_fault_same f) as Hn. destruct (next_fault f) as [[flt|] f1]; simpl in *.
  - intros [= <- <-]. eauto.
  - intros [= <- <-]. split; [done|]. left. by destruct Hn as [-> _].
Qed.

Lemma f_write_all_spec data f f' r :
  f_write_all data f = (f', r) ->
  synced f' = synced f /\
  match r with
  | Ok _ => contents f' = contents f ++ data
  | Err _ => exists k, contents f' = contents f ++ take k data
  end.
Proof.
  unfold f_write_all. pose proof (next_fault_same f) as [Hc Hs]. destruct (next_fault f) as [[flt|] f1]; simpl in *.
  - intros [= <- <-]. simpl. split; [done|]. rewrite Hc. eauto.
  - intros [= <- <-]. simpl. by rewrite Hc.
Qed.

Lemma f_sync_spec f f' r :
  f_sync f = (f', r) ->
  contents f' = contents f /\
  synced f' = match r with Ok _ => length (contents f) | Err _ => synced f end.
Proof.
  unfold f_sync, f_call. pose proof (next_fault_same f) as [Hc Hs]. destruct (next_fault f) as [[flt|] f1]; simpl in *.
  - intros [= <- <-]. done.
  - intros [= <- <-]. simpl. by rewrite Hc.
Qed.

(** ** Writing one frame *)

Section WriteFrame.
Context `{Crc} {Seg : Type}.
Abbreviation Db := (Database Seg).

(** Everything but the file, the dirty counter and the watermarks. *)
Definition same_handle (d d' : Db) : Prop :=
  config d' = config d /\ read_only d' = read_only d /\ state d' = state d
  /\ sealed d' = sealed d /\ sealed_points d' = sealed_points d
  /\ tail_bytes d' = tail_bytes d /\ tail d' = tail d.

Definition frame_written (d : Db) (frame : bytes) (n : Z) (durable : bool) (d' : Db) : Prop :=
  same_handle d d' /\ poisoned d' = poisoned d
  /\ contents (file d') = contents (file d) ++ frame
  /\ synced (file d') = (if durable then length (contents (file d')) else synced (file d))
  /\ bytes_since_sync d' = (if durable then 0 else bytes_since_sync d + n)
  /\ ingress_durable_sequences d'
     = if durable then ingress_last_sequences (state d) else ingress_durable_sequences d.

Definition frame_failed (d : Db) (frame : bytes) (d' : Db) : Prop :=
  same_handle d d' /\ poisoned d' = true
  /\ (exists k, contents (file d') = contents (file d) ++ take k frame)
  /\ synced (file d') = synced (file d)
  /\ ingress_durable_sequences d' = ingress_durable_sequences d.

Lemma write_frame_spec d hd pl n :
  triple (fun s => s = d) (write_frame hd pl n)
    (fun durable d' => frame_written d (hd ++ pl) n durable d') (frame_failed d (hd ++ pl)).
Proof.
  intros s s' r ->. unfold write_frame, st_bind at 1, poison_on_error, write_and_sync, on_file, st_zoom.
  unfold st_bind at 1. destruct (f_write_all hd (file d)) as [f1 r1] eqn:E1.
  apply f_write_all_spec in E1 as [Hs1 Hc1]. destruct r1 as [[]|e1].
  2: { intros [= <- <-]. destruct Hc1 as [k Hk]. split; [done|]. split_and!; try done.
       simpl. rewrite Hk. destruct (decide (k <= length hd)%nat).
       - exists k. by rewrite take_app_le by lia.
       - exists (length hd). by rewrite take_app_length, take_ge by lia. }
  unfold st_bind at 1. simpl (file _). destruct (f_write_all pl f1) as [f2 r2] eqn:E2.
  apply f_write_all_spec in E2 as [Hs2 Hc2]. destruct r2 as [[]|e2].
  2: { intros [= <- <-]. destruct Hc2 as [k Hk]. split; [done|]. split_and!; try done.
       - exists (length hd + k)%nat. simpl. by rewrite Hk, Hc1, take_app_add, <- app_assoc.
       - simpl. congruence. }
  assert (Hc : contents f2 = contents (file d) ++ hd ++ pl) by (by rewrite Hc2, Hc1, <- app_assoc).
  unfold modify, st_modify, st_bind, st_get. simpl.
  destruct (should_sync _ _).
  - destruct (f_sync (file _)) as [f3 r3] eqn:E3. change (f_sync f2 = (f3, r3)) in E3. apply f_sync_spec in E3 as [Hc3 Hs3]. destruct r3 as [[]|e3].
    + intros [= <- <-]. simpl. split; [done|]. split_and!; try done; simpl; congruence.
    + intros [= <- <-]. split; [done|]. split_and!; try done; simpl; [|congruence].
      exists (length (hd ++ pl)). rewrite take_ge by lia. congruence.
  - intros [= <- <-]. simpl. split; [done|]. split_and!; try done; simpl; congruence.
Qed.
End WriteFrame.

(** ** The handle invariant *)

Section HandleInv.
Context `{Crc} `{RecordCodec} `{IndexCodec} `{TimeZones} {Seg : Type}.
Abbreviation Db := (Database Seg).

Definition init_scan : ScanState := mkScanState LogState_empty None.

(** The file holds the frames [fs0 ++ fs1]; [fs0] is synced, and a handle
    that failed during a write may have part of one more frame [pend]. *)
Record disk_inv (seals : gset Z) (d : Db) (fs0 fs1 pend : list Frame) (s0 s1 s2 : ScanState) : Prop := {
  di_writer : read_only d = false;
  di_typed : Forall typed_frame (fs0 ++ fs1 ++ pend);
  di_replay0 : replay_frames (scan_config (config d) seals) 16 fs0 init_scan = (s0, Ok tt);
  di_replay1 : replay_frames (scan_config (config d) seals) (16 + len (frames_bytes fs0)) fs1 s0
               = (s1, Ok tt);
  di_replay2 : replay_frames (scan_config (config d) seals)
                 (16 + len (frames_bytes (fs0 ++ fs1))) pend s1 = (s2, Ok tt);
  di_contents : exists k, contents (file d)
                 = database_header ++ frames_bytes (fs0 ++ fs1) ++ take k (frames_bytes pend);
  di_synced : (16 + length (frames_bytes fs0) <= synced (file d) <= length (contents (file d)))%nat;
  di_boundary : synced (file d) = (16 + length (frames_bytes fs0))%nat
    \/ contents (file d) = database_header ++ frames_bytes (fs0 ++ fs1 ++ pend) /\ synced (file d) = length (contents (file d));
  di_sim : sim (log s1) (state d);
  di_durable : ingress_durable_sequences d = ingress_last_sequences (log s0);
  di_clean : poisoned d = false ->
    pend = [] /\ synced (file d) = (16 + length (frames_bytes fs0))%nat
    /\ bytes_since_sync d = len (frames_bytes fs1);
}.

Definition handle_inv (seals : gset Z) (d : Db) : Prop :=
  exists fs0 fs1 pend s0 s1 s2, disk_inv seals d fs0 fs1 pend s0 s1 s2.

Lemma length_database_header : length database_header = 16%nat.
Proof. unfold database_header, database_header_prefix. by rewrite !length_app, !length_to_le. Qed.

Lemma frames_bytes_app a b : frames_bytes (a ++ b) = frames_bytes a ++ frames_bytes b.
Proof. unfold frames_bytes. by rewrite map_app, concat_app. Qed.

Lemma len_frames_cons f fs : len (frames_bytes (f :: fs)) = frame_size f + len (frames_bytes fs).
Proof. rewrite frames_bytes_cons. unfold frame_size, zlen. rewrite length_app, length_frame_bytes. lia. Qed.

Lemma replay_frames_app cfg offset a b s :
  replay_frames cfg offset (a ++ b) s
  = (replay_frames cfg offset a ;* replay_frames cfg (offset + len (frames_bytes a)) b) s.
Proof.
  revert offset s. induction a as [|f a IH]; intros offset s.
  - simpl. unfold st_bind. simpl. f_equal. unfold zlen. simpl. lia.
  - cbn [app replay_frames]. rewrite len_frames_cons. unfold st_bind in *.
    destruct (replay_frame cfg offset f s) as [s1 [[]|e]]; [|done]. rewrite IH.
    destruct (replay_frames cfg (offset + frame_size f) a s1) as [s2 [[]|e]]; [|done]. f_equal. lia.
Qed.

Lemma replay_frames_snoc cfg offset a f s s1 s2 :
  replay_frames cfg offset a s = (s1, Ok tt) ->
  replay_frame cfg (offset + len (frames_bytes a)) f s1 = (s2, Ok tt) ->
  replay_frames cfg offset (a ++ [f]) s = (s2, Ok tt).
Proof.
  intros Ha Hf. rewrite replay_frames_app. unfold st_bind. rewrite Ha. simpl. unfold st_bind. by rewrite Hf.
Qed.

Lemma disk_inv_clean seals d fs0 fs1 pend s0 s1 s2 :
  disk_inv seals d fs0 fs1 pend s0 s1 s2 -> poisoned d = false ->
  contents (file d) = database_header ++ frames_bytes (fs0 ++ fs1)
  /\ len (contents (file d)) = 16 + len (frames_bytes (fs0 ++ fs1)).
Proof.
  intros Hd Hp. destruct (di_clean _ _ _ _ _ _ _ _ Hd Hp) as (-> & _ & _).
  destruct (di_contents _ _ _ _ _ _ _ _ Hd) as [k Hk].
  change (frames_bytes []) with (@nil Z) in Hk. rewrite take_nil, app_nil_r in Hk. rewrite Hk. split; [done|]. rewrite zlen_app. unfold zlen. by rewrite length_database_header.
Qed.

Lemma frames_single f : frames_bytes [f] = frame_bytes f.
Proof. unfold frames_bytes. cbn [map concat]. apply app_nil_r. Qed.

Lemma len_frame_bytes f : len (frame_bytes f) = frame_size f.
Proof. unfold zlen, frame_size, zlen. rewrite length_frame_bytes. lia. Qed.

(** A frame that could not be written completely. *)
Lemma inv_frame_failed seals d f d' fs0 fs1 pend s0 s1 s2 s' :
  disk_inv seals d fs0 fs1 pend s0 s1 s2 -> poisoned d = false -> typed_frame f ->
  replay_frame (scan_config (config d) seals) (len (contents (file d))) f s1 = (s', Ok tt) ->
  frame_failed d (frame_bytes f) d' -> handle_inv seals d'.
Proof.
  intros Hd Hp Hf Hr ((Hcfg & Hro & Hst & _) & Hpo & (k & Hk) & Hsy & Hdu).
  destruct (disk_inv_clean _ _ _ _ _ _ _ _ Hd Hp) as [Hc Hlen]. rewrite Hlen in Hr.
  destruct (di_clean _ _ _ _ _ _ _ _ Hd Hp) as (-> & Hsy0 & _). destruct Hd as [Hw Ht H0' H1' _ _ Hs _ Hsim Hdur _].
  rewrite app_nil_r in Ht. exists fs0, fs1, [f], s0, s1, s'. constructor; rewrite ?Hcfg, ?Hst; try done.
  - by rewrite Hro.
  - rewrite app_assoc. apply Forall_app. split; [done|by constructor].
  - simpl. unfold st_bind. by rewrite Hr.
  - exists k. by rewrite Hk, Hc, frames_single, <- app_assoc.
  - rewrite Hsy, Hk, length_app. lia.
  - left. congruence.
  - congruence.
  - congruence.
Qed.

(** A frame that was written: [d'] is the handle after the in-memory update
    that goes with it. *)
Lemma inv_frame_written seals d f durable dw d' fs0 fs1 pend s0 s1 s2 s' :
  disk_inv seals d fs0 fs1 pend s0 s1 s2 -> poisoned d = false -> typed_frame f ->
  replay_frame (scan_config (config d) seals) (len (contents (file d))) f s1 = (s', Ok tt) ->
  frame_written d (frame_bytes f) (frame_size f) durable dw ->
  file d' = file dw -> config d' = config dw -> read_only d' = read_only dw ->
  poisoned d' = poisoned dw -> bytes_since_sync d' = bytes_since_sync dw ->
  sim (log s') (state d') ->
  ingress_durable_sequences d'
    = (if durable then ingress_last_sequences (state d') else ingress_durable_sequences d) ->
  handle_inv seals d'.
Proof.
  intros Hd Hp Hf Hr ((Hcfg & Hro & _) & Hpo & Hk & Hsy & Hby & _) Ef Ec Er Ep Eb Hsim' Hdu.
  destruct (disk_inv_clean _ _ _ _ _ _ _ _ Hd Hp) as [Hc Hlen]. rewrite Hlen in Hr.
  destruct (di_clean _ _ _ _ _ _ _ _ Hd Hp) as (-> & Hsy0 & Hby0). destruct Hd as [Hw Ht H0' H1' _ _ Hs _ Hsim Hdur _].
  rewrite app_nil_r in Ht.
  assert (Htf : Forall typed_frame ((fs0 ++ fs1) ++ [f])) by (apply Forall_app; split; [done|by constructor]).
  assert (Hcc : contents (file d') = database_header ++ frames_bytes ((fs0 ++ fs1) ++ [f])).
  { by rewrite Ef, Hk, Hc, (frames_bytes_app (fs0 ++ fs1)), frames_single, <- app_assoc. }
  assert (Hl : length (contents (file d')) = (16 + length (frames_bytes ((fs0 ++ fs1) ++ [f])))%nat)
    by (by rewrite Hcc, length_app, length_database_header).
  rewrite Ef, Hk in Hl. destruct durable.
  - exists ((fs0 ++ fs1) ++ [f]), [], [], s', s', s'.
    constructor; rewrite ?Ef, ?Ec, ?Er, ?Ep, ?Eb, ?app_nil_r; try done.
    + congruence.
    + rewrite Hcfg. eapply replay_frames_snoc; [|exact Hr].
      rewrite replay_frames_app. unfold st_bind. by rewrite H0'.
    + exists 0%nat. by rewrite take_0, app_nil_r, <- Ef.
    + rewrite Hsy, Hk. lia.
    + left. rewrite Hsy, Hk. lia.
    + rewrite Hdu. symmetry. apply (sim_last_sequences _ _ Hsim').
    + intros _. split_and!; [done| |done]. rewrite Hsy, Hk. lia.
  - exists fs0, (fs1 ++ [f]), [], s0, s', s'.
    constructor; rewrite ?Ef, ?Ec, ?Er, ?Ep, ?Eb, ?app_nil_r, ?(app_assoc fs0); try done.
    + congruence.
    + by rewrite Hcfg.
    + rewrite Hcfg. eapply replay_frames_snoc; [exact H1'|].
      rewrite frames_bytes_app, zlen_app in Hr. by rewrite <- Z.add_assoc.
    + exists 0%nat. by rewrite take_0, app_nil_r, <- Ef.
    + rewrite Hsy, Hk, length_app. lia.
    + left. congruence.
    + by rewrite Hdu.
    + intros _. split_and!; [done|by rewrite Hsy|].
      rewrite Hby, Hby0, frames_bytes_app, frames_single, zlen_app, len_frame_bytes. lia.
Qed.
End HandleInv.

(** ** Reads do not disturb the handle *)

Definition reading {A} (m : ST File A) : Prop := forall f f' r, m f = (f', r) -> same_file f' f.

Lemma same_file_refl f : same_file f f.
Proof. done. Qed.
Lemma same_file_trans f g h : same_file f g -> same_file g h -> same_file f h.
Proof. unfold same_file. intuition congruence. Qed.

Lemma reading_bind {A B} (m : ST File A) (k : A -> ST File B) :
  reading m -> (forall a, reading (k a)) -> reading (st_bind m k).
Proof.
  intros Hm Hk f f' r. unfold st_bind. destruct (m f) as [f1 [a|e]] eqn:E.
  - intros Hr. eapply same_file_trans; [by eapply Hk|by eapply Hm].
  - intros [= <- <-]. by eapply Hm.
Qed.
Lemma reading_ret {A} (a : A) : reading (st_ret a).
Proof. by intros f f' r [= <- <-]. Qed.
Lemma reading_err {A} e : reading (@st_err File A e).
Proof. by intros f f' r [= <- <-]. Qed.
Lemma reading_lift {A} (x : Result A) : reading (st_lift x).
Proof. by intros f f' r [= <- <-]. Qed.
Lemma reading_len : reading f_len.
Proof. by intros f f' r [? _]%f_len_spec. Qed.
Lemma reading_read n o : reading (f_read_exact_at n o).
Proof.
  intros f f' r. unfold f_read_exact_at, f_call. pose proof (next_fault_same f) as Hn.
  destruct (next_fault f) as [[flt|] f1]; simpl in Hn; [by intros [= <- <-]|].
  destruct (_ <? _); by intros [= <- <-].
Qed.

Ltac reading_tac :=
  repeat first
    [ apply reading_ret | apply reading_err | apply reading_lift | apply reading_len
    | apply reading_read | apply reading_bind | progress intros
    | match goal with |- reading (if ?c then _ else _) => destruct c end
    | match goal with |- reading (match ?x with pair _ _ => _ end) => destruct x end ].

Section Reads.
Context `{Crc} {Seg : Type}.
Abbreviation Db := (Database Seg).

Lemma reading_compare fuel po fo c co : reading (compare_chunks fuel po fo c co).
Proof. revert co. induction fuel; intros co; simpl; reading_tac. apply IHfuel. Qed.

Lemma reading_chunks fuel po c co acc eq : reading (read_chunks fuel po c co acc eq).
Proof. revert co acc eq. induction fuel; intros co acc eq; simpl; reading_tac. apply IHfuel. Qed.

Lemma reading_identified r c : reading (identified_payload_matches_at r c).
Proof. unfold identified_payload_matches_at. reading_tac. apply reading_compare. Qed.

Lemma reading_ingress r c : reading (ingress_payload_matches_at r c).
Proof. unfold ingress_payload_matches_at. reading_tac; apply reading_chunks. Qed.

(** The handle after a read: only I/O outcomes were consumed. *)
Definition near (d d' : Db) : Prop := exists g, same_file g (file d) /\ d' = set_file g d.

Lemma near_refl d : near d d.
Proof. exists (file d). split; [done|]. by destruct d. Qed.

Lemma on_file_reading {A} (m : ST File A) d :
  reading m -> triple (fun s => s = d) (on_file m) (fun _ => near d) (near d).
Proof.
  intros Hm s s' r ->. unfold on_file, st_zoom. destruct (m (file d)) as [g x] eqn:E.
  apply Hm in E. intros [= <- <-]. destruct x; exists g; done.
Qed.

Lemma f_len_near d :
  triple (fun s => s = d) (on_file f_len)
    (fun n d' => n = len (contents (file d)) /\ near d d') (near d).
Proof.
  intros s s' r ->. unfold on_file, st_zoom. destruct (f_len (file d)) as [g x] eqn:E.
  apply f_len_spec in E as [Hg Hx]. intros [= <- <-].
  destruct Hx as [-> |[k ->]]; [split; [done|]|]; exists g; done.
Qed.
End Reads.

Section OpsInv.
Context `{Crc} `{RecordCodecLaws} `{IndexCodec} `{TimeZones} {Seg : Type}.
Abbreviation Db := (Database Seg).
Implicit Types d dw : Db.

Lemma near_disk_inv seals (d d' : Db) fs0 fs1 pend s0 s1 s2 :
  near d d' -> disk_inv seals d fs0 fs1 pend s0 s1 s2 -> disk_inv seals d' fs0 fs1 pend s0 s1 s2.
Proof.
  intros (g & [Hg1 Hg2] & ->) []. constructor; simpl; rewrite ?Hg1, ?Hg2; done.
Qed.

Lemma near_inv seals (d d' : Db) : near d d' -> handle_inv seals d -> handle_inv seals d'.
Proof.
  intros Hn (fs0 & fs1 & pend & s0 & s1 & s2 & Hd). exists fs0, fs1, pend, s0, s1, s2.
  by eapply near_disk_inv.
Qed.

Lemma check_writable_triple (d : Db) (k : ST Db Commit) Q E :
  E d -> (read_only d = false -> poisoned d = false -> triple (fun s => s = d) k Q E) ->
  triple (fun s => s = d) (check_writable ;* k) Q E.
Proof.
  intros HE Hk s s' r ->. unfold check_writable, st_bind, st_get, st_reject, st_lift, reject.
  destruct (read_only d), (poisoned d); try (by intros [= <- <-]).
  by apply Hk.
Qed.

Lemma len_encode_points ps : len (encode_points ps) = len ps * 72.
Proof. unfold zlen. rewrite length_encode_points. unfold POINT_BYTES. lia. Qed.

(** The tail of every writer method: find the end, write the frame, update
    the memory.  [upd durable offset] is the in-memory update. *)
Lemma write_and_update_inv seals (d : Db) f (k : Z -> bool -> ST Db Commit) :
  handle_inv seals d -> poisoned d = false -> typed_frame f ->
  (forall s, sim (log s) (state d) -> forall durable, exists s',
     replay_frame (scan_config (config d) seals) (len (contents (file d))) f s = (s', Ok tt)
     /\ forall dw, frame_written d (frame_bytes f) (frame_size f) durable dw ->
        exists d' c, k (len (contents (file d))) durable dw = (d', Ok c)
          /\ file d' = file dw /\ config d' = config dw /\ read_only d' = read_only dw
          /\ poisoned d' = poisoned dw /\ bytes_since_sync d' = bytes_since_sync dw
          /\ sim (log s') (state d')
          /\ ingress_durable_sequences d'
             = (if durable then ingress_last_sequences (state d') else ingress_durable_sequences d)) ->
  triple (fun s => s = d)
    (let* offset := on_file f_len in
     let* durable := write_frame (encode_frame_header (fr_kind f) (fr_items f)
         (len (fr_payload f)) (hash (fr_payload f))) (fr_payload f) (frame_size f) in
     k offset durable)
    (fun _ => handle_inv seals) (handle_inv seals).
Proof.
  intros (fs0 & fs1 & pend & s0 & s1 & s2 & Hd) Hp Hf Hk.
  apply triple_bind with (R := fun n d' => n = len (contents (file d)) /\ near d d').
  { eapply triple_weaken; [intros s Es; exact Es|intros a s Ha; exact Ha| |apply f_len_near].
    intros s Hs. eapply near_inv; [exact Hs|]. by exists fs0, fs1, pend, s0, s1, s2. }
  intros offset s s' r (-> & Hn) Hr. pose proof Hn as (g & [Hg1 Hg2] & ->).
  pose proof (near_disk_inv _ _ _ _ _ _ _ _ _ Hn Hd) as Hd'.
  unfold st_bind in Hr.
  destruct (write_frame _ _ _ _) as [dw rw] eqn:Ew. pose proof (write_frame_spec _ _ _ _ _ _ _ eq_refl Ew) as Hw.
  pose proof (di_sim _ _ _ _ _ _ _ _ Hd) as Hsim.
  change (_ ++ fr_payload f) with (frame_bytes f) in Hw.
  destruct rw as [durable|e].
  - destruct (Hk s1 Hsim durable) as (t & Ht & Hupd).
    assert (Hw' : frame_written d (frame_bytes f) (frame_size f) durable dw).
    { destruct Hw as (Hw1 & Hw2 & Hw3 & Hw4 & Hw5 & Hw6). simpl in *. rewrite Hg1 in Hw3. rewrite Hg2 in Hw4. done. }
    destruct (Hupd dw Hw') as (d' & c & Hkd & Ef & Ec & Er & Ep & Eb & Es & Ed).
    rewrite Hkd in Hr. injection Hr as <- <-.
    eapply inv_frame_written; [exact Hd'|done|exact Hf| |exact Hw|..]; try done; simpl; by rewrite ?Hg1.
  - injection Hr as <- <-. destruct (Hk s1 Hsim true) as (t & Ht & _).
    eapply inv_frame_failed; [exact Hd'|done|exact Hf| |exact Hw]. simpl. rewrite Hg1. exact Ht.
Qed.

Lemma empty_commit_inv seals (d : Db) b :
  handle_inv seals d ->
  triple (fun s => s = d) (empty_commit b) (fun _ => handle_inv seals) (handle_inv seals).
Proof.
  intros Hi. unfold empty_commit.
  apply triple_bind with (R := fun n d' => near d d').
  { eapply triple_weaken; [| | |apply (f_len_near d)]; [done|by intros a s [_ Ha]|].
    intros s Hs. by eapply near_inv. }
  intros n. apply triple_get. intros s Hs. apply triple_ret. intros ? ->. by eapply near_inv.
Qed.

(** [append] keeps the invariant, whatever it returns. *)
Lemma append_inv seals (d : Db) ps :
  handle_inv seals d -> Forall typed_point ps ->
  triple (fun s => s = d) (append ps) (fun _ => handle_inv seals) (handle_inv seals).
Proof.
  intros Hi Ht. unfold append. apply check_writable_triple; [done|]. intros Hro Hp.
  apply triple_get. intros s ->.
  apply triple_reject; [by intros ? ->|]. intros Hmax.
  apply triple_lift; [by intros ? ->|]. intros [] Hv.
  destruct ps as [|p ps']; [by apply empty_commit_inv|]. set (ps := p :: ps') in *.
  apply triple_lift; [by intros ? ->|]. intros n Hn%ok_or_Ok.
  apply triple_lift; [by intros ? ->|]. intros n32 Hn32%ok_or_Ok%u32_try_from_Some.
  apply triple_lift; [by intros ? ->|]. intros c Hc%ok_or_Ok%u32_try_from_Some.
  destruct Hn32 as [-> Hn32], Hc as [-> Hc].
  unfold u64_checked_mul in Hn. rewrite u64_checked_ok in Hn by (unfold is_u32, is_u64 in *; lia).
  injection Hn as <-. rewrite <- len_encode_points in Hn32 |- *.
  apply (write_and_update_inv seals d (mkFrame FRAME_KIND_LEGACY_POINTS (len ps) (encode_points ps))
           (fun offset durable => upd_log (insert_points ps) ;*
              upd_log (fun s => set_points (points s + len ps) (set_commits (commits s + 1) s)) ;*
              st_ret (mkCommit offset (len ps) 1 (24 + len (encode_points ps)) durable false)));
    try done.
  { split_and!; try done. apply encode_points_bytes. }
  intros s Hs durable.
  destruct (replay_points_frame (scan_config (config d) seals) (len (contents (file d))) ps s _ Hs Ht Hv)
    as (s' & Hr & Hsim); [simpl; zlia|done|].
  exists s'. split; [exact Hr|]. intros dw (Hsame & Hpo & _ & _ & _ & Hdu).
  eexists _, _. split; [reflexivity|]. destruct Hsame as (_ & _ & Est & _). simpl. rewrite Est.
  split_and!; done.
Qed.

Lemma encode_transaction_Ok t payload :
  encode_transaction t = Ok payload ->
  exists canonical, encode_canonical_transaction t = Ok canonical
    /\ payload = (match tx_commit_id t with Some id => to_le 16 id | None => [] end) ++ canonical.
Proof. unfold encode_transaction. intros (c & Hc & <-%Ok_inj)%bind_Ok. eauto. Qed.

Lemma encode_transaction_bytes t payload : encode_transaction t = Ok payload -> is_bytes payload.
Proof.
  intros (c & Hc & ->)%encode_transaction_Ok. apply is_bytes_app.
  split; [destruct (tx_commit_id t); [apply to_le_bytes|constructor]|by eapply encode_canonical_bytes].
Qed.

Lemma encode_identity_bytes i : is_bytes (encode_identity i).
Proof. unfold encode_identity. rewrite !is_bytes_app. split_and!; apply to_le_bytes. Qed.

(** The frame a plain commit writes, and its replay. *)
Lemma plain_frame_replay seals (d : Db) t payload c s durable :
  sim (log s) (state d) -> typed_transaction t -> encode_transaction t = Ok payload ->
  is_u32 (len payload) -> len payload <= cfg_max_transaction_bytes (config d) ->
  apply_records (catalog (state d)) (records t) = Ok c ->
  point_count t <= cfg_max_batch_points (config d) ->
  (forall id, tx_commit_id t = Some id -> id ∉ commit_ids (state d)) ->
  let kind := if is_some (tx_commit_id t) then FRAME_KIND_IDENTIFIED_TRANSACTION
              else FRAME_KIND_TRANSACTION in
  let offset := len (contents (file d)) in
  exists s', replay_frame (scan_config (config d) seals) offset
      (mkFrame kind (record_count t) payload) s = (s', Ok tt)
    /\ sim (log s') (count_transaction t
         (let x := install_catalog c (index_records (records t) (state d)) in
          match tx_commit_id t with
          | Some id => insert_identified id
              (mkIdentifiedReceipt (offset + 24) (len payload) (hash payload) None
                 (mkCommit offset (point_count t) (record_count t) (24 + len payload) durable false))
              (add_commit_id id x)
          | None => x
          end)).
Proof.
  intros Hs (Ht & Hid & _) He Hl Hmax Ha Hp Hnew kind offset.
  destruct (encode_transaction_Ok _ _ He) as (canonical & Hcan & ->).
  rewrite zlen_app in Hl, Hmax. subst kind. destruct (tx_commit_id t) as [id|] eqn:Eid; cbn [is_some].
  - assert (H16 : len (to_le 16 id) = 16) by (unfold zlen; by rewrite length_to_le).
    rewrite H16 in *. pose proof (zlen_nonneg canonical). unfold is_u32 in Hl.
    apply (replay_identified_frame (scan_config (config d) seals) offset t id canonical s); try done.
    + unfold is_u64. lia.
    + by apply Hnew.
  - change (len (@nil Z)) with 0 in *. unfold is_u32 in Hl.
    apply (replay_transaction_frame (scan_config (config d) seals) offset t canonical s); try done.
    unfold is_u64. lia.
Qed.

Lemma commit_plain_inv seals (d : Db) t :
  handle_inv seals d -> poisoned d = false -> typed_transaction t ->
  (forall id, tx_commit_id t = Some id -> id ∉ commit_ids (state d)) ->
  triple (fun s => s = d) (commit_plain t) (fun _ => handle_inv seals) (handle_inv seals).
Proof.
  intros Hi Hp Ht Hnew. unfold commit_plain. apply triple_get. intros s ->.
  destruct (is_empty t); [by apply empty_commit_inv|].
  apply triple_reject; [by intros ? ->|]. intros Hmax.
  apply triple_lift; [by intros ? ->|]. intros c Ha.
  apply triple_lift; [by intros ? ->|]. intros payload He.
  apply triple_reject; [by intros ? ->|]. intros Hbytes.
  apply triple_lift; [by intros ? ->|]. intros n32 Hn32%ok_or_Ok%u32_try_from_Some.
  apply triple_lift; [by intros ? ->|]. intros cnt Hcnt%ok_or_Ok%u32_try_from_Some.
  destruct Hn32 as [-> Hn32], Hcnt as [-> Hcnt].
  set (kind := if is_some (tx_commit_id t) then _ else _).
  eapply (write_and_update_inv seals d (mkFrame kind (record_count t) payload)); try done.
  { split_and!; try done; [unfold kind; by destruct (is_some _)|by eapply encode_transaction_bytes]. }
  intros s Hs durable. cbn [fr_kind fr_items fr_payload].
  destruct (plain_frame_replay seals d t payload c s durable Hs Ht He Hn32 ltac:(zlia) Ha ltac:(zlia) Hnew)
    as (s' & Hr & Hsim). exists s'. split; [exact Hr|].
  intros dw (Hsame & Hpo & _ & _ & _ & Hdu). destruct Hsame as (_ & _ & Est & _).
  assert (Hlast : forall l, ingress_last_sequences (count_transaction t
      (let x := install_catalog c (index_records (records t) l) in
       match tx_commit_id t with
       | Some id => insert_identified id
           (mkIdentifiedReceipt (len (contents (file d)) + 24) (len payload) (hash payload) None
              (mkCommit (len (contents (file d))) (point_count t) (record_count t) (24 + len payload) durable false))
           (add_commit_id id x)
       | None => x
       end)) = ingress_last_sequences l).
  { intros l. rewrite (index_records_fold (Seg := unit)). destruct c, (tx_commit_id t); done. }
  specialize (Hlast (state d)). destruct (tx_commit_id t); eexists _, _;
    (split; [reflexivity|]); simpl; rewrite Est; split_and!; try done; rewrite Hdu; by destruct durable.
Qed.

(** A retry check only reads, and may poison the handle. *)
Lemma poisoned_inv seals (d : Db) : handle_inv seals d -> handle_inv seals (set_poisoned true d).
Proof.
  intros (fs0 & fs1 & pend & s0 & s1 & s2 & []). exists fs0, fs1, pend, s0, s1, s2.
  constructor; simpl; try done.
Qed.

Lemma poison_if_broken_inv seals (d : Db) (m : ST File bool) :
  handle_inv seals d -> reading m ->
  triple (fun s => s = d) (poison_if_broken (on_file m)) (fun _ => near d) (handle_inv seals).
Proof.
  intros Hi Hm s s' r -> . unfold poison_if_broken.
  destruct (on_file m d) as [d1 r1] eqn:E.
  pose proof (on_file_reading m d Hm d d1 r1 eq_refl E) as Hn.
  destruct r1 as [b|e]; intros [= <- <-]; [done|].
  destruct (poisons e); [apply poisoned_inv|]; by eapply near_inv.
Qed.

Lemma replay_ingress_inv seals (d : Db) i canonical receipt :
  handle_inv seals d ->
  triple (fun s => s = d) (replay_ingress i canonical receipt) (fun _ => handle_inv seals) (handle_inv seals).
Proof.
  intros Hi. unfold replay_ingress. apply triple_reject; [by intros ? ->|]. intros _.
  eapply triple_bind; [apply poison_if_broken_inv; [done|apply reading_ingress]|].
  intros matched. apply triple_reject; [intros s Hs; by eapply near_inv|]. intros _.
  apply triple_get. intros s Hs. apply triple_ret. intros ? ->. by eapply near_inv.
Qed.

Lemma check_cursor_Ok i l u :
  check_cursor i l = Ok u ->
  is_some_and (ingress_last_sequences l !! source_id i) (fun last => sequence i <=? last) = false.
Proof.
  unfold check_cursor. destruct (ingress_last_sequences l !! source_id i); [|done].
  by intros E%reject_Ok.
Qed.

Lemma append_ingress_inv seals (d : Db) i canonical t :
  handle_inv seals d -> poisoned d = false -> Forall typed_record (records t) -> typed_identity i ->
  encode_canonical_transaction t = Ok canonical -> source_id i <> 0 ->
  ingress_receipts (state d) !! key_of i = None ->
  triple (fun s => s = d) (append_ingress i canonical t) (fun _ => handle_inv seals) (handle_inv seals).
Proof.
  intros Hi Hp Ht Hti Hcan Hsrc Ekey. unfold append_ingress. apply triple_get. intros s ->.
  apply triple_reject; [by intros ? ->|]. intros Hnew%bool_decide_eq_false.
  apply triple_lift; [by intros ? ->|]. intros [] Hord%check_cursor_Ok.
  apply triple_reject; [by intros ? ->|]. intros Hmax.
  apply triple_lift; [by intros ? ->|]. intros n Hn%ok_or_Ok.
  apply triple_reject; [by intros ? ->|]. intros Hbytes.
  apply triple_lift; [by intros ? ->|]. intros c Ha.
  apply triple_lift; [by intros ? ->|]. intros n32 [-> Hn32]%ok_or_Ok%u32_try_from_Some.
  apply triple_lift; [by intros ? ->|]. intros c32 [-> Hc32]%ok_or_Ok%u32_try_from_Some.
  apply triple_lift; [by intros ? ->|]. intros cnt [-> Hcnt]%ok_or_Ok%u32_try_from_Some.
  assert (n = 40 + len canonical) as ->.
  { unfold u64_checked_add, u64_checked in Hn. destruct (in_u64 _); congruence. }
  set (payload := encode_identity i ++ canonical).
  assert (Hpl : len payload = 40 + len canonical)
    by (unfold payload, zlen; rewrite length_app, length_encode_identity; lia).
  rewrite <- Hpl in *.
  eapply (write_and_update_inv seals d (mkFrame FRAME_KIND_INGRESS_TRANSACTION (record_count t) payload)); try done.
  { split_and!; try done. apply is_bytes_app. split; [apply encode_identity_bytes|].
    by eapply encode_canonical_bytes. }
  intros s Hs durable. cbn [fr_kind fr_items fr_payload].
  destruct (replay_ingress_frame (scan_config (config d) seals) (len (contents (file d))) t i canonical s
              (state d) c durable) as (s' & Hr & Hsim); try done.
  { unfold is_u32, is_u64 in *. lia. } { simpl. zlia. } { simpl. zlia. }
  exists s'. split; [exact Hr|]. fold payload in Hsim.
  intros dw (Hsame & Hpo & _ & _ & _ & Hdu). destruct Hsame as (_ & _ & Est & _).
  assert (Hlast : ingress_last_sequences (count_transaction t (install_catalog c
      (index_records (records t) (state d)))) = ingress_last_sequences (state d)).
  { rewrite (index_records_fold (Seg := unit)). by destruct c. }
  destruct durable; eexists _, _; (split; [reflexivity|]); simpl in *; rewrite Est;
    split_and!; try done. by rewrite Hdu, Hlast.
Qed.

Lemma commit_ordered_ingress_inv seals (d : Db) i t :
  handle_inv seals d -> poisoned d = false -> typed_transaction t -> typed_identity i ->
  triple (fun s => s = d) (commit_ordered_ingress i t) (fun _ => handle_inv seals) (handle_inv seals).
Proof.
  intros Hi Hp (Ht & _ & _) Hti. unfold commit_ordered_ingress.
  apply triple_reject; [by intros ? ->|]. intros Hsrc%Z.eqb_neq.
  apply triple_lift; [by intros ? ->|]. intros canonical Hcan.
  apply triple_get. intros s ->.
  destruct (ingress_receipts (state d) !! key_of i) as [receipt|] eqn:Ekey;
    [by apply replay_ingress_inv|by apply append_ingress_inv].
Qed.

(** [commit] keeps the invariant, whatever it returns. *)
Lemma commit_inv seals (d : Db) t :
  handle_inv seals d -> typed_transaction t ->
  triple (fun s => s = d) (commit t) (fun _ => handle_inv seals) (handle_inv seals).
Proof.
  intros Hi Ht. unfold commit. apply check_writable_triple; [done|]. intros Hro Hp.
  pose proof Ht as (_ & _ & Hti).
  destruct (tx_ingress_identity t) as [i|]; [by apply commit_ordered_ingress_inv|].
  apply triple_get. intros s ->. destruct (tx_commit_id t) as [id|] eqn:Eid.
  2: { apply commit_plain_inv; try done. congruence. }
  apply triple_reject; [by intros ? ->|]. intros _.
  destruct (bool_decide (id ∈ commit_ids (state d))) eqn:Ein.
  - apply triple_lift; [by intros ? ->|]. intros payload _.
    destruct (identified_receipts (state d) !! id) as [receipt|]; [|apply triple_err; by intros ? ->].
    eapply triple_bind; [apply poison_if_broken_inv; [done|apply reading_identified]|].
    intros matched. apply triple_reject; [intros s Hs; by eapply near_inv|]. intros _.
    intros s s' r Hs. apply (empty_commit_inv seals s true); [by eapply near_inv|done].
  - apply commit_plain_inv; try done. intros id' E. rewrite Eid in E. injection E as <-.
    by apply bool_decide_eq_false in Ein.
Qed.
End OpsInv.
