(* ===== verification/Recovery.v ===== *)
(** * Recovery: opening a log, crashes and reachable handles

    Every handle that a sequence of calls can reach satisfies the invariant of
    [Durable]; whatever a power loss leaves of its file opens again, to a state
    that contains everything the handle had reported durable. *)
From S2P Require Import Prelude Errors Bytes Float64 Model Transaction Catalog Query Codec Effects Scan LogInv Database Refine Durable.

Section Header.
Context `{Crc}.

Lemma check_database_header_ok rest : check_database_header (database_header ++ rest) = Ok tt.
Proof.
  unfold check_database_header. pose proof length_database_header as Hl.
  destruct (Z.ltb_spec (len (database_header ++ rest)) (Z.of_nat DATABASE_HEADER_BYTES)) as [Hx|_].
  { exfalso. unfold zlen, DATABASE_HEADER_BYTES in Hx. rewrite length_app in Hx. lia. }
  assert (Hpre : length database_header_prefix = 12%nat) by done.
  assert (E12 : slice 0 12 (database_header ++ rest) = database_header_prefix)
    by (unfold database_header; rewrite <- app_assoc; by apply slice_app_l).
  assert (E16 : slice 12 16 (database_header ++ rest) = to_le 4 (hash database_header_prefix)).
  { unfold database_header. rewrite <- app_assoc, slice_app_r by (rewrite Hpre; lia). rewrite Hpre.
    apply slice_app_l, length_to_le. }
  rewrite E12, E16, from_to_le_u32 by apply hash_u32.
  unfold database_header, database_header_prefix. rewrite <- !app_assoc. slices.
  by rewrite !bytes_eqb_refl, !Z.eqb_refl.
Qed.

Lemma check_database_header_inv c :
  is_bytes c -> check_database_header c = Ok tt -> c = database_header ++ drop 16 c.
Proof.
  intros Hb. unfold check_database_header.
  destruct (Z.ltb_spec (len c) (Z.of_nat DATABASE_HEADER_BYTES)) as [|Hlen]; [done|].
  destruct (bytes_eqb (slice 0 8 c) DATABASE_MAGIC) eqn:E1; [|done].
  destruct (from_le (slice 8 10 c) =? DATABASE_VERSION) eqn:E2; [|done].
  destruct (hash (slice 0 12 c) =? from_le (slice 12 16 c)) eqn:E3; [|done].
  destruct (bytes_eqb (slice 10 12 c) [0; 0]) eqn:E4; [|done]. intros _.
  apply bytes_eqb_true in E1, E4. apply Z.eqb_eq in E2, E3.
  assert (Hl : (16 <= length c)%nat) by (unfold zlen, DATABASE_HEADER_BYTES in Hlen; lia).
  assert (Hpre : database_header_prefix = slice 0 12 c).
  { unfold database_header_prefix. rewrite <- E1, <- E2, <- E4, to_le_slice by (done || lia).
    by rewrite !slice_slice_app by lia. }
  unfold database_header. rewrite Hpre, E3, to_le_slice by (done || lia).
  rewrite slice_slice_app by lia. unfold slice. by rewrite drop_0, take_drop.
Qed.
End Header.

Lemma frames_bytes_bytes `{Crc} fs c : is_bytes (frames_bytes fs ++ c) -> is_bytes (frames_bytes fs).
Proof. by intros [? _]%is_bytes_app. Qed.

Lemma f_set_len_spec n f f' u :
  f_set_len n f = (f', Ok u) -> contents f' = take (Z.to_nat n) (contents f).
Proof.
  unfold f_set_len, f_call. pose proof (next_fault_same f) as [Hc _].
  destruct (next_fault f) as [[flt|] f1]; simpl in Hc; [done|]. intros [= <-]. simpl. by rewrite Hc.
Qed.

Section Open.
Context `{Crc} `{RecordCodecLaws} `{IndexCodec} `{TimeZones} {Seg : Type}.
Abbreviation Db := (Database Seg).

(** A log that scans: header, frames that replay, and a torn rest. *)
Definition scans (cfg : ScanConfig) (c : bytes) (fs : list Frame) (s : ScanState) (left : bytes) : Prop :=
  c = database_header ++ frames_bytes fs ++ left /\ Forall typed_frame fs
  /\ replay_frames cfg 16 fs init_scan = (s, Ok tt).

(** A successful recovery accepted a list of intact frames and, when it may
    write, cut the file right behind them. *)
Lemma scan_log_sound cfg ro f f' scan :
  is_bytes (contents f) -> scan_log cfg (Recover ro) f = (f', Ok scan) ->
  exists fs s left, scans cfg (contents f) fs s left
    /\ scan_state scan = sort_index (log s)
    /\ recovered_tail_bytes scan = len left
    /\ (recovered_tail scan = TailNone <-> left = [])
    /\ contents f' = (if ro then contents f else database_header ++ frames_bytes fs).
Proof.
  intros Hb. unfold scan_log, f_read_all, f_call, st_bind.
  pose proof (next_fault_same f) as [Hc _]. destruct (next_fault f) as [[flt|] f1]; simpl in Hc; [done|].
  unfold st_lift. rewrite Hc. destruct (check_database_header (contents f)) as [[]|e] eqn:Eh; [|done].
  apply check_database_header_inv in Eh; [|done].
  destruct (scan_file cfg (contents f)) as [[s off] stop] eqn:Es. unfold scan_file in Es.
  assert (Hb' : is_bytes (drop 16 (contents f))) by (by apply Forall_drop).
  assert (Hf : (length (drop 16 (contents f)) < S (length (contents f)))%nat) by (rewrite length_drop; lia).
  pose proof (scan_frames_sound _ _ _ _ _ _ _ _ Hb' Hf Es) as Hsound.
  destruct stop as [|tl n|e]; [| |done];
    destruct (Hsound eq_refl) as (fs & left & s1 & Hd & Ht & Hr & Ho & Hlog & Hn); rewrite Hd in Eh.
  - subst left. intros [= <- <-]. exists fs, s1, []. simpl. rewrite Hlog. split_and!; try done.
    rewrite app_nil_r in Eh. destruct ro; rewrite Hc; done.
  - destruct Hn as (Hn & Hpos & Htl).
    assert (Hleft : tl = TailNone <-> left = []).
    { split; [done|]. intros ->. unfold zlen in Hn. simpl in Hn. lia. }
    destruct ro; [intros [= <- <-]; exists fs, s1, left; simpl; rewrite Hlog; split_and!; done|].
    unfold st_bind. destruct (f_set_len off f1) as [f2 [[]|e]] eqn:Ef2; [|done].
    destruct (f_sync f2) as [f3 [[]|e]] eqn:Ef3; [|done].
    intros [= <- <-]. exists fs, s1, left. simpl. rewrite Hlog. split_and!; try done.
    apply f_sync_spec in Ef3 as [-> _]. apply f_set_len_spec in Ef2 as ->.
    rewrite Hc, Eh, app_assoc.
    replace (Z.to_nat off) with (length (database_header ++ frames_bytes fs)); [apply take_app_length|].
    rewrite Ho, length_app, length_database_header. unfold zlen. lia.
Qed.

(** The handle a writable open builds from a recovered log. *)
Definition opened (d : Db) (cfg : Config) (seals : gset Z) (fs : list Frame) (s : ScanState) : Prop :=
  replay_frames (scan_config cfg seals) 16 fs init_scan = (s, Ok tt) /\ Forall typed_frame fs
  /\ contents (file d) = database_header ++ frames_bytes fs
  /\ synced (file d) = length (contents (file d))
  /\ config d = cfg /\ read_only d = false /\ poisoned d = false /\ bytes_since_sync d = 0
  /\ state d = receipts_durable (sort_index (log s))
  /\ ingress_durable_sequences d = ingress_last_sequences (log s).

Lemma opened_inv d cfg seals fs s : opened d cfg seals fs s -> handle_inv seals d.
Proof.
  intros (Hr & Ht & Hc & Hs & Hcfg & Hro & Hp & Hb & Hst & Hdu).
  assert (Hl : length (contents (file d)) = (16 + length (frames_bytes fs))%nat)
    by (by rewrite Hc, length_app, length_database_header).
  exists fs, [], [], s, s, s. constructor; rewrite ?app_nil_r, ?Hcfg; try done.
  - exists 0%nat. by rewrite take_0, app_nil_r.
  - rewrite Hs, Hl. lia.
  - left. by rewrite Hs.
  - rewrite Hst. apply sim_receipts_durable, sim_sort_index.
  - intros _. by rewrite Hs.
Qed.

(** The second half of a writable open, behind the header. *)
Definition open_rest (cfg : Config) (seals : gset Z) : ST File Db :=
  let* scan := scan_log (scan_config cfg seals) (Recover false) in
  let* log_durable :=
    (f_sync ;* st_ret (receipts_durable (scan_state scan), ingress_last_sequences (scan_state scan))) in
  let* f := st_get in
  st_ret (mkDb Seg f cfg false log_durable.1 [] 0 log_durable.2
            (recovered_tail_bytes scan) (recovered_tail scan) 0 false None).

Lemma open_rest_sound cfg seals f f' d :
  is_bytes (contents f) -> open_rest cfg seals f = (f', Ok d) ->
  exists fs s left, scans (scan_config cfg seals) (contents f) fs s left /\ opened d cfg seals fs s
    /\ tail_bytes d = len left /\ file d = f'.
Proof.
  intros Hb. unfold open_rest. intros (scan & f1 & Hscan & E)%st_bind_Ok.
  apply (scan_log_sound _ _ _ _ _ Hb) in Hscan as (fs & s & left & Hsc & Hst & Htb & _ & Hc).
  apply st_bind_Ok in E as (ld & f2 & E1 & E). apply st_bind_Ok in E1 as ([] & f3 & Hsync & [= <- <-]).
  apply st_bind_Ok in E as (g & f4 & [= -> ->] & [= <- <-]).
  apply f_sync_spec in Hsync as [Hc2 Hs2].
  exists fs, s, left. split; [done|]. split; [|by rewrite <- Htb]. destruct Hsc as (_ & Ht & Hr).
  split_and!; simpl; rewrite ?Hc2, ?Hst; done.
Qed.

(** A writable open that succeeds yields a handle that satisfies the
    invariant, on any file. *)
Lemma open_file_sound lock cfg seals f f' d :
  is_bytes (contents f) -> open_file lock cfg false seals f = (f', Ok d) ->
  handle_inv seals d /\ config d = cfg /\ exists fs s, opened d cfg seals fs s
    /\ (contents f = [] /\ fs = [] \/ exists left, scans (scan_config cfg seals) (contents f) fs s left).
Proof.
  intros Hb. unfold open_file. destruct lock; [|done|done].
  intros (n & f1 & Hn & E)%st_bind_Ok. apply f_len_spec in Hn as [[Hc1 _] [[= ->]|[k [=]]]].
  apply st_bind_Ok in E as ([] & f2 & Hhd & E).
  assert (Hf2 : contents f = [] /\ contents f2 = database_header \/ contents f2 = contents f).
  { destruct (Z.eqb_spec (len (contents f)) 0) as [E0|].
    - left. split; [by destruct (contents f)|]. unfold write_database_header in Hhd.
      apply st_bind_Ok in Hhd as ([] & f4 & Hhd & Hpar).
      apply st_bind_Ok in Hhd as ([] & f5 & Hseek & Hhd).
      apply st_bind_Ok in Hhd as ([] & f6 & Hw & Hs).
      unfold sync_parent_directory, f_call in Hseek, Hpar.
      pose proof (next_fault_same f1) as [Ha _]. destruct (next_fault f1) as [[?|] g1]; [done|].
      injection Hseek as <-. apply f_write_all_spec in Hw as [_ Hw]. apply f_sync_spec in Hs as [Hs _].
      pose proof (next_fault_same f4) as [Hb4 _]. destruct (next_fault f4) as [[?|] g4]; [done|].
      injection Hpar as <-. simpl in *. rewrite Hb4, Hs, Hw, Ha, Hc1. by destruct (contents f).
    - injection Hhd as <-. by right. }
  change (open_rest cfg seals f2 = (f', Ok d)) in E.
  assert (Hb2 : is_bytes (contents f2)).
  { destruct Hf2 as [[_ ->]| ->]; [|done]. unfold database_header.
    apply is_bytes_app. split; [|apply to_le_bytes]. unfold database_header_prefix.
    rewrite !is_bytes_app. split_and!; [|apply to_le_bytes|]; by repeat constructor. }
  apply open_rest_sound in E as (fs & s & left & Hsc & Hop & _ & _); [|done].
  split; [by eapply opened_inv|]. split; [by apply Hop|]. exists fs, s. split; [done|].
  destruct Hf2 as [[He Hh]|He]; [left|right; exists left; by rewrite <- He].
  split; [done|]. destruct Hsc as (Hsc & _ & _). rewrite Hh in Hsc.
  apply (f_equal length) in Hsc. rewrite !length_app in Hsc. destruct fs as [|fr fs]; [done|].
  rewrite frames_bytes_cons, length_app, length_frame_bytes in Hsc. lia.
Qed.

(** A log cut anywhere behind its header opens again, with the frames that
    are complete before the cut and no other. *)
Lemma scan_log_cut cfg fs s n f :
  faults f = [] -> contents f = take n (database_header ++ frames_bytes fs) -> (16 <= n)%nat ->
  Forall typed_frame fs -> replay_frames cfg 16 fs init_scan = (s, Ok tt) ->
  exists fs1 fs2 s1 scan f', scan_log cfg (Recover false) f = (f', Ok scan)
    /\ fs = fs1 ++ fs2 /\ replay_frames cfg 16 fs1 init_scan = (s1, Ok tt)
    /\ scan_state scan = sort_index (log s1)
    /\ contents f' = database_header ++ frames_bytes fs1 /\ faults f' = []
    /\ (forall fr rest, fs2 = fr :: rest -> (n < 16 + length (frames_bytes (fs1 ++ [fr])))%nat).
Proof.
  intros Hflt Hc Hn Ht Hr. pose proof length_database_header as Hh.
  rewrite take_app_ge, Hh in Hc by lia.
  set (m := Nat.min (n - 16) (length (frames_bytes fs))).
  assert (Hm : take (n - 16) (frames_bytes fs) = take m (frames_bytes fs)).
  { unfold m. destruct (Nat.min_spec (n - 16) (length (frames_bytes fs))) as [[? ->]|[? ->]]; [done|].
    by rewrite !take_ge by lia. }
  rewrite Hm in Hc. unfold scan_log, st_bind, f_read_all, f_call, next_fault. rewrite Hflt. unfold st_lift. cbv beta iota.
  rewrite Hc, check_database_header_ok. unfold scan_file.
  rewrite drop_app_length' by done.
  assert (Hlen : length (take m (frames_bytes fs)) = m) by (rewrite length_take; unfold m; lia).
  destruct (scan_prefix (S (length (database_header ++ take m (frames_bytes fs)))) cfg fs 16 init_scan s m Ht Hr)
    as (fs1 & fs2 & s1 & s1' & stop & Hfs & Hr1 & Hscan & Hlog & Hle & Hstop).
  { unfold m; lia. } { rewrite length_app; lia. }
  unfold init_scan in Hscan at 1. rewrite Hscan.
  assert (Hnext : forall fr rest, fs2 = fr :: rest -> (n < 16 + length (frames_bytes (fs1 ++ [fr])))%nat).
  { intros fr rest ->. assert (length (frames_bytes (fs1 ++ [fr])) <= length (frames_bytes fs))%nat.
    { rewrite Hfs, !frames_bytes_app, frames_single, frames_bytes_cons, !length_app. lia. }
    destruct Hstop as [[-> Hm']|(f1 & rest' & [= <- <-] & Hlt & ->)]; [|unfold m in Hlt; lia].
    rewrite frames_bytes_app, frames_single, length_app, length_frame_bytes in *. unfold m in Hm'. lia. }
  assert (Hcut : take (Z.to_nat (16 + len (frames_bytes fs1))) (database_header ++ take m (frames_bytes fs))
                 = database_header ++ frames_bytes fs1).
  { rewrite take_app_ge by (rewrite Hh; unfold zlen; lia). rewrite Hh, take_take, Hfs, frames_bytes_app.
    f_equal. apply take_app_length'. unfold zlen. lia. }
  destruct Hstop as [[-> Hm']|(f1 & rest' & _ & Hlt & ->)].
  - eexists fs1, fs2, s1, _, _. split; [reflexivity|]. simpl. rewrite Hlog. split_and!; try done.
    by rewrite Hc, Hm', Hfs, frames_bytes_app, take_app_length.
  - unfold f_set_len, f_sync, f_call, next_fault. rewrite Hflt. simpl. rewrite ?Hflt.
    eexists fs1, fs2, s1, _, _. split; [reflexivity|]. simpl. rewrite Hlog, Hc. by split_and!.
Qed.
End Open.

(** ** Crashes *)

Section Crash.
Context `{Crc} `{RecordCodecLaws} `{IndexCodec} `{TimeZones} {Seg : Type}.
Abbreviation Db := (Database Seg).

(** A writable open of a cut log. *)
Lemma open_cut cfg seals fs s n f :
  faults f = [] -> contents f = take n (database_header ++ frames_bytes fs) -> (16 <= n)%nat ->
  Forall typed_frame fs -> replay_frames (scan_config cfg seals) 16 fs init_scan = (s, Ok tt) ->
  exists fs1 fs2 s1 (d : Db), open_file LockAcquired cfg false seals f = (file d, Ok d)
    /\ fs = fs1 ++ fs2 /\ opened d cfg seals fs1 s1
    /\ (forall fr rest, fs2 = fr :: rest -> (n < 16 + length (frames_bytes (fs1 ++ [fr])))%nat).
Proof.
  intros Hflt Hc Hn Ht Hr.
  destruct (scan_log_cut _ _ _ _ _ Hflt Hc Hn Ht Hr)
    as (fs1 & fs2 & s1 & scan & f' & Hscan & Hfs & Hr1 & Hst & Hcf & Hff & Hnext).
  assert (Hlen : len (contents f) <> 0).
  { rewrite Hc. unfold zlen. rewrite length_take, length_app, length_database_header. lia. }
  assert (Ht1 : Forall typed_frame fs1) by (rewrite Hfs in Ht; by apply Forall_app in Ht as [? _]).
  exists fs1, fs2, s1. unfold open_file, st_bind at 1, f_len, f_call, next_fault. rewrite Hflt.
  destruct (Z.eqb_spec (len (contents f)) 0); [done|]. unfold st_bind at 1. cbn [st_ret].
  unfold st_bind at 1. rewrite Hscan. unfold st_bind, f_sync, f_call, next_fault. rewrite Hff.
  exists (mkDb Seg (set_synced (length (contents f')) f') cfg false (receipts_durable (scan_state scan))
            [] 0 (ingress_last_sequences (scan_state scan)) (recovered_tail_bytes scan)
            (recovered_tail scan) 0 false None).
  split; [done|]. split; [done|]. split; [|done].
  split_and!; simpl; rewrite ?Hcf, ?Hst; done.
Qed.

(** A frame list that is cut behind the bytes of its prefix [fs0] keeps it. *)
Lemma prefix_kept fs0 x a b :
  fs0 ++ x = a ++ b ->
  (forall fr rest, b = fr :: rest ->
     (length (frames_bytes fs0) < length (frames_bytes (a ++ [fr])))%nat) ->
  exists y, a = fs0 ++ y /\ x = y ++ b.
Proof.
  intros E Hb. apply app_eq_inv in E as [(y & -> & ->)|(y & -> & ->)].
  - destruct y as [|fr y]; [exists []; by rewrite !app_nil_r|]. exfalso.
    specialize (Hb fr (y ++ x) eq_refl).
    rewrite !frames_bytes_app, frames_single, frames_bytes_cons, !length_app in Hb. lia.
  - by exists y.
Qed.

(** What a power loss leaves of the file of a handle opens again; the
    recovered state is the one after a prefix of the frames written, and
    that prefix contains every synced frame. *)
Lemma crash_open seals (d : Db) fs0 fs1 pend s0 s1 s2 left m :
  disk_inv seals d fs0 fs1 pend s0 s1 s2 -> crash (file d) left ->
  exists (d' : Db) fs' rest s',
    open_file LockAcquired (config d) false seals (mkFile left m []) = (file d', Ok d')
    /\ fs1 ++ pend = fs' ++ rest
    /\ replay_frames (scan_config (config d) seals) (16 + len (frames_bytes fs0)) fs' s0 = (s', Ok tt)
    /\ opened d' (config d) seals (fs0 ++ fs') s'
    /\ (left = contents (file d) -> poisoned d = false -> fs' = fs1 /\ s' = s1)
    /\ (left = database_header ++ frames_bytes (fs0 ++ fs1 ++ pend) -> rest = []).
Proof.
  intros Hd (n & Hn & ->). pose proof Hd as [Hw Ht H0' H1' H2' (k & Hk) Hs _ Hsim Hdu Hcl].
  set (all := fs0 ++ fs1 ++ pend) in *.
  assert (Hall : replay_frames (scan_config (config d) seals) 16 all init_scan = (s2, Ok tt)).
  { unfold all. rewrite (app_assoc fs0), replay_frames_app. unfold st_bind.
    rewrite replay_frames_app. unfold st_bind. by rewrite H0', H1', H2'. }
  pose proof length_database_header as Hh.
  set (m1 := (16 + length (frames_bytes (fs0 ++ fs1)) + Nat.min k (length (frames_bytes pend)))%nat).
  assert (Hcm : contents (file d) = take m1 (database_header ++ frames_bytes all)).
  { rewrite Hk. unfold all, m1. rewrite (app_assoc fs0), (frames_bytes_app (fs0 ++ fs1)).
    rewrite take_app_ge by (rewrite Hh; lia). f_equal. rewrite take_app_ge by (rewrite Hh; lia). f_equal.
    rewrite Hh. destruct (Nat.min_spec k (length (frames_bytes pend))) as [[? ->]|[? ->]]; [f_equal; lia|].
    rewrite !take_ge by lia. done. }
  assert (Hlc : length (contents (file d)) = m1).
  { rewrite Hk, !length_app, length_take, Hh. unfold m1. lia. }
  destruct (open_cut (config d) seals all s2 (Nat.min n m1) (mkFile (take n (contents (file d))) m []))
    as (a & b & sa & d' & Hopen & Hab & Hop & Hnext); try done.
  { simpl. by rewrite Hcm, take_take. } { lia. }
  destruct (prefix_kept fs0 (fs1 ++ pend) a b Hab) as (fs' & -> & Hx).
  { intros fr rest E. specialize (Hnext fr rest E). lia. }
  pose proof Hop as (Hra & _). rewrite replay_frames_app in Hra. unfold st_bind in Hra. rewrite H0' in Hra.
  exists d', fs', b, sa. split_and!; try done.
  2: { intros Hfull. destruct b as [|fr b]; [done|]. exfalso. specialize (Hnext fr b eq_refl).
       apply (f_equal length) in Hfull. rewrite length_take, Hlc, length_app, Hh in Hfull. fold all in Hfull.
       assert (El : length (frames_bytes all) = (length (frames_bytes ((fs0 ++ fs') ++ [fr])) + length (frames_bytes b))%nat).
       { rewrite Hab, !frames_bytes_app, frames_single, frames_bytes_cons, !length_app. lia. }
       lia. }
  intros Hfull Hp. destruct (Hcl Hp) as (-> & _ & _).
  rewrite app_nil_r in Hx. destruct b as [|fr b].
  - rewrite app_nil_r in Hx. subst fs'. split; [done|]. congruence.
  - exfalso. specialize (Hnext fr b eq_refl).
    apply (f_equal length) in Hfull. rewrite length_take, Hlc in Hfull.
    assert (El : length (frames_bytes (fs0 ++ fs1)) = (length (frames_bytes ((fs0 ++ fs') ++ [fr]))
                  + length (frames_bytes b))%nat).
    { rewrite Hx, !frames_bytes_app, frames_single, frames_bytes_cons, !length_app. lia. }
    unfold m1 in *. lia.
Qed.
End Crash.

(** ** Flush, seal checkpoints and reachable handles *)

Section Steps.
Context `{Crc} `{RecordCodecLaws} `{IndexCodec} `{TimeZones} {Seg : Type}.
Abbreviation Db := (Database Seg).

(** A sync moves every frame into the durable part. *)
Lemma disk_inv_synced seals (d d' : Db) fs0 fs1 pend s0 s1 s2 :
  disk_inv seals d fs0 fs1 pend s0 s1 s2 -> poisoned d = false ->
  contents (file d') = contents (file d) -> synced (file d') = length (contents (file d)) ->
  config d' = config d -> read_only d' = read_only d -> state d' = state d -> poisoned d' = false ->
  bytes_since_sync d' = 0 -> ingress_durable_sequences d' = ingress_last_sequences (state d) ->
  disk_inv seals d' (fs0 ++ fs1) [] [] s1 s1 s1.
Proof.
  intros Hd Hp Ec Es Ecfg Ero Est Ep Eb Edu.
  destruct (disk_inv_clean _ _ _ _ _ _ _ _ Hd Hp) as [Hc Hlen].
  destruct (di_clean _ _ _ _ _ _ _ _ Hd Hp) as (-> & _ & _). destruct Hd as [Hw Ht H0' H1' _ _ Hs _ Hsim Hdur _].
  assert (Hl : length (contents (file d)) = (16 + length (frames_bytes (fs0 ++ fs1)))%nat)
    by (by rewrite Hc, length_app, length_database_header).
  rewrite app_nil_r in Ht. constructor; rewrite ?app_nil_r, ?Ec, ?Es, ?Ecfg, ?Ero, ?Est; try done.
  - rewrite replay_frames_app. unfold st_bind. by rewrite H0'.
  - exists 0%nat. by rewrite take_0, app_nil_r.
  - lia.
  - by left.
  - rewrite Edu. symmetry. apply (sim_last_sequences _ _ Hsim).
Qed.

Lemma near_set_poisoned seals (d d' : Db) :
  near d d' -> handle_inv seals d -> handle_inv seals (set_poisoned true d').
Proof. intros Hn Hi. apply poisoned_inv. by eapply near_inv. Qed.

Lemma f_sync_near (d : Db) :
  triple (fun s => s = d) (poison_on_error (on_file f_sync))
    (fun _ d' => d' = set_file (file d') d /\ contents (file d') = contents (file d)
                 /\ synced (file d') = length (contents (file d)))
    (fun d' => exists d1, near d d1 /\ d' = set_poisoned true d1).
Proof.
  intros s s' r ->. unfold poison_on_error, on_file, st_zoom.
  destruct (f_sync (file d)) as [f1 [[]|e]] eqn:E; apply f_sync_spec in E as [Hc Hs]; intros [= <- <-].
  - done.
  - exists (set_file f1 d). split; [|done]. exists f1. done.
Qed.

(** [flush] keeps the invariant; when it succeeds everything is durable. *)
Lemma flush_inv seals (d : Db) :
  handle_inv seals d ->
  triple (fun s => s = d) flush
    (fun _ d' => handle_inv seals d' /\ state d' = state d /\ contents (file d') = contents (file d)
       /\ synced (file d') = length (contents (file d')) /\ bytes_since_sync d' = 0
       /\ ingress_durable_sequences d' = ingress_last_sequences (state d'))
    (handle_inv seals).
Proof.
  intros Hi s s' r -> E. unfold flush, check_writable in E.
  unfold st_bind at 1 2, st_get, st_reject, st_lift, reject in E.
  destruct (read_only d) eqn:Hro; [by injection E as <- <-|]. unfold st_bind at 1 in E.
  destruct (poisoned d) eqn:Hp; [by injection E as <- <-|]. unfold st_bind at 1 in E.
  destruct (poison_on_error (on_file f_sync) d) as [d1 r1] eqn:E1.
  pose proof (f_sync_near d d d1 r1 eq_refl E1) as Hsync.
  destruct r1 as [[]|e].
  - destruct Hsync as (Hd1 & Hc & Hs). injection E as <- <-. rewrite Hd1.
    destruct Hi as (fs0 & fs1 & pend & s0 & s1 & s2 & Hd).
    split_and!; try done; simpl; [|by rewrite Hs, Hc].
    exists (fs0 ++ fs1), [], [], s1, s1, s1. by eapply disk_inv_synced.
  - injection E as <- <-. destruct Hsync as (d2 & Hn & ->). by eapply near_set_poisoned.
Qed.

(** A handle whose frame is on disk but whose update did not happen. *)
Lemma inv_frame_pending seals d f durable dw d' fs0 fs1 pend s0 s1 s2 s' :
  disk_inv seals d fs0 fs1 pend s0 s1 s2 -> poisoned d = false -> typed_frame f ->
  replay_frame (scan_config (config d) seals) (len (contents (file d))) f s1 = (s', Ok tt) ->
  frame_written d (frame_bytes f) (frame_size f) durable dw -> near dw d' ->
  handle_inv seals (set_poisoned true d' : Db).
Proof.
  intros Hd Hp Hf Hr ((Hcfg & Hro & Hst & _) & Hpo & Hk & Hsy & _ & Hdu) (g & [Eg1 Eg2] & ->).
  destruct (disk_inv_clean _ _ _ _ _ _ _ _ Hd Hp) as [Hc Hlen]. rewrite Hlen in Hr.
  destruct (di_clean _ _ _ _ _ _ _ _ Hd Hp) as (-> & Hsy0 & _). destruct Hd as [Hw Ht H0' H1' _ _ Hs _ Hsim Hdur _].
  rewrite app_nil_r in Ht. pose proof length_database_header as Hh.
  assert (Htf : Forall typed_frame ((fs0 ++ fs1) ++ [f])) by (apply Forall_app; split; [done|by constructor]).
  assert (Hcc : contents g = database_header ++ frames_bytes (fs0 ++ fs1) ++ frame_bytes f)
    by (by rewrite Eg1, Hk, Hc, <- app_assoc).
  destruct durable.
  - exists (fs0 ++ fs1), [], [f], s1, s1, s'. constructor; simpl; rewrite ?app_nil_r, ?Hcfg, ?Hst; try done.
    + congruence.
    + rewrite replay_frames_app. unfold st_bind. by rewrite H0'.
    + unfold st_bind. by rewrite Hr.
    + exists (length (frame_bytes f)). rewrite frames_single, take_ge by lia. done.
    + rewrite Eg2, Hsy, <- Eg1, Hcc, !length_app, Hh. lia.
    + right. rewrite (frames_bytes_app (fs0 ++ fs1)), frames_single, Hcc. split; [done|]. by rewrite Eg2, Hsy, <- Eg1, Hcc.
    + rewrite Hdu. symmetry. apply (sim_last_sequences _ _ Hsim).
  - exists fs0, fs1, [f], s0, s1, s'. constructor; simpl; rewrite ?Hcfg, ?Hst; try done.
    + congruence.
    + by rewrite app_assoc.
    + unfold st_bind. by rewrite Hr.
    + exists (length (frame_bytes f)). rewrite frames_single, take_ge by lia. done.
    + rewrite Eg2, Hsy, Hsy0, Hcc, !length_app, Hh, frames_bytes_app, length_app. lia.
    + left. by rewrite Eg2, Hsy.
    + congruence.
Qed.

Definition seal_frame (generation n : Z) : Frame :=
  mkFrame FRAME_KIND_SEAL_CHECKPOINT 0 (to_le 8 generation ++ to_le 8 n).

Lemma typed_seal_frame generation n : typed_frame (seal_frame generation n).
Proof.
  split_and!; try done. cbn [fr_payload seal_frame]. apply is_bytes_app. split; apply to_le_bytes.
Qed.

(** The handle right after the checkpoint frame and its flush. *)
Lemma write_seal_checkpoint_split generation n (d d' : Db) r :
  write_seal_checkpoint generation n d = (d', r) -> read_only d = false -> poisoned d = false ->
  exists d1, near d d1 /\
    ((d' = d1 /\ is_ok r = false) \/
     exists dw, frame_failed d1 (frame_bytes (seal_frame generation n)) dw /\ d' = dw /\ is_ok r = false \/
     exists durable, frame_written d1 (frame_bytes (seal_frame generation n))
         (frame_size (seal_frame generation n)) durable dw /\
       ((exists d2, near dw d2 /\ d' = set_poisoned true d2 /\ is_ok r = false) \/
        (r = Ok tt /\ exists f, contents f = contents (file dw) /\ synced f = length (contents (file dw)) /\
           d' = set_state (set_commits (commits (state d) + 1) (state d))
                  (mark_ingress_durable (set_bytes_since_sync 0 (set_file f dw)))))).
Proof.
  unfold write_seal_checkpoint. intros E Hro Hp. unfold check_writable in E.
  unfold st_bind at 1 2, st_get, st_reject, st_lift, reject in E. rewrite Hro in E. unfold st_bind at 1 in E.
  rewrite Hp in E. unfold st_bind at 1 in E.
  assert (El : len (to_le 8 generation ++ to_le 8 n) = 16)
    by (unfold zlen; by rewrite length_app, !length_to_le).
  rewrite El in E. cbn [ok_or u32_try_from] in E. change (u32_try_from 16) with (Some 16) in E. cbn [ok_or] in E.
  unfold st_bind at 1 in E. destruct (on_file f_len d) as [d1 r1] eqn:E1.
  pose proof (f_len_near d d d1 r1 eq_refl E1) as Hn1. destruct r1 as [off|e].
  2: { injection E as <- <-. exists d1. split; [done|]. by left. }
  destruct Hn1 as [_ Hn1]. exists d1. split; [done|]. right.
  unfold st_bind at 1 in E. destruct (write_frame _ _ _ d1) as [dw rw] eqn:Ew.
  pose proof (write_frame_spec d1 _ _ _ d1 dw rw eq_refl Ew) as Hw. exists dw.
  rewrite <- El in Hw. change (_ ++ _ ++ to_le 8 n) with (frame_bytes (seal_frame generation n)) in Hw.
  destruct rw as [durable|e]; [right|left; by injection E as <- <-]. exists durable. split; [done|].
  destruct Hn1 as (g & _ & ->). destruct Hw as ((Hcfg & Hro' & Hst & _) & Hpo & _).
  simpl in Hro', Hpo, Hst. rewrite Hro in Hro'. rewrite Hp in Hpo.
  unfold st_bind at 1, flush, check_writable in E. unfold st_bind at 1 2, st_get, st_reject, st_lift, reject in E.
  rewrite Hro' in E. unfold st_bind at 1 in E. rewrite Hpo in E. unfold st_bind at 1 in E.
  destruct (poison_on_error (on_file f_sync) dw) as [d2 r2] eqn:E2.
  pose proof (f_sync_near dw dw d2 r2 eq_refl E2) as Hsync. destruct r2 as [[]|e].
  - right. destruct Hsync as (Hd2 & Hc & Hs). injection E as <- <-. split; [done|].
    exists (file d2). split_and!; try done. rewrite Hd2. simpl. by rewrite Hst.
  - left. injection E as <- <-. destruct Hsync as (d3 & Hn & ->). eauto.
Qed.

Lemma handle_writer seals (d : Db) : handle_inv seals d -> read_only d = false.
Proof. intros (? & ? & ? & ? & ? & ? & Hd). apply (di_writer _ _ _ _ _ _ _ _ Hd). Qed.

(** The state a published checkpoint leaves: an empty live index. *)
Definition cleared (s : LogState) : LogState := set_pending_reclaim true (set_points 0 (set_index ∅ s)).

(** A successful checkpoint, under any set of seals the frames before it
    replay under: [seals'] decides whether the checkpoint is published. *)
Lemma seal_written_inv seals seals' generation (d dw d' : Db) durable f fs0 fs1 pend s0 s1 s2 :
  disk_inv seals d fs0 fs1 pend s0 s1 s2 -> poisoned d = false ->
  replay_frames (scan_config (config d) seals') 16 (fs0 ++ fs1) init_scan = (s1, Ok tt) ->
  is_u64 generation -> generation <> 0 -> is_u64 (points (state d)) ->
  frame_written d (frame_bytes (seal_frame generation (points (state d))))
    (frame_size (seal_frame generation (points (state d)))) durable dw ->
  contents f = contents (file dw) -> synced f = length (contents (file dw)) ->
  d' = set_state (let l := set_commits (commits (state d) + 1) (state d) in
                  if bool_decide (generation ∈ seals') then cleared l else l)
         (mark_ingress_durable (set_bytes_since_sync 0 (set_file f dw))) ->
  handle_inv seals' d'.
Proof.
  intros Hd Hp Hr' Hg Hg0 Hn ((Hcfg & Hro & Hst & _) & Hpo & Hk & _) Ec Es ->.
  destruct (disk_inv_clean _ _ _ _ _ _ _ _ Hd Hp) as [Hc Hlen].
  destruct (di_clean _ _ _ _ _ _ _ _ Hd Hp) as (-> & _ & _). destruct Hd as [Hw Ht _ _ _ _ _ _ Hsim _ _].
  rewrite app_nil_r in Ht. set (fr := seal_frame generation (points (state d))) in *.
  destruct (replay_seal_frame (scan_config (config d) seals') (16 + len (frames_bytes (fs0 ++ fs1)))
              generation (points (state d)) s1 (state d) Hsim Hg Hn Hg0 eq_refl) as (s' & Hr & Hsim').
  assert (Hcc : contents f = database_header ++ frames_bytes ((fs0 ++ fs1) ++ [fr])).
  { by rewrite Ec, Hk, Hc, (frames_bytes_app (fs0 ++ fs1)), frames_single, <- app_assoc. }
  assert (Hl : length (contents (file dw)) = (16 + length (frames_bytes ((fs0 ++ fs1) ++ [fr])))%nat)
    by (rewrite <- Ec, Hcc, length_app, length_database_header; done).
  exists ((fs0 ++ fs1) ++ [fr]), [], [], s', s', s'.
  constructor; simpl; rewrite ?app_nil_r, ?Hcfg; try done.
  - congruence.
  - apply Forall_app. split; [done|]. constructor; [apply typed_seal_frame|constructor].
  - by eapply replay_frames_snoc.
  - exists 0%nat. by rewrite take_0, app_nil_r.
  - rewrite Es, Ec, Hl. lia.
  - left. by rewrite Es, Hl.
  - rewrite Hst. rewrite (sim_last_sequences _ _ Hsim'). by destruct (bool_decide _).
  - intros _. by rewrite Es, Hl.
Qed.

Lemma near_fields (d d1 : Db) : near d d1 ->
  contents (file d1) = contents (file d) /\ config d1 = config d /\ state d1 = state d
  /\ poisoned d1 = poisoned d.
Proof. intros (g & [Hg _] & ->). done. Qed.

(** [write_seal_checkpoint] keeps the invariant, whatever it returns. *)
Lemma write_seal_checkpoint_inv seals generation (d : Db) :
  handle_inv seals d -> is_u64 generation -> generation <> 0 -> is_u64 (points (state d)) ->
  generation ∉ seals ->
  triple (fun s => s = d) (write_seal_checkpoint generation (points (state d)))
    (fun _ => handle_inv seals) (handle_inv seals).
Proof.
  intros Hi Hg Hg0 Hn Hnew s d' r -> E. pose proof (handle_writer _ _ Hi) as Hro.
  enough (Hgoal : handle_inv seals d') by (by destruct r).
  destruct (poisoned d) eqn:Hp.
  { unfold write_seal_checkpoint, check_writable in E.
    unfold st_bind, st_get, st_reject, st_lift, reject in E. rewrite Hro, Hp in E. by injection E as <- <-. }
  destruct (write_seal_checkpoint_split _ _ _ _ _ E Hro Hp) as (d1 & Hn1 & Hcase).
  pose proof (near_fields _ _ Hn1) as (Ec & Ecfg & Est & Epo).
  destruct Hi as (fs0 & fs1 & pend & s0 & s1 & s2 & Hd). pose proof (near_disk_inv _ _ _ _ _ _ _ _ _ Hn1 Hd) as Hd1.
  rewrite Hp in Epo. rewrite <- Est in *.
  destruct (disk_inv_clean _ _ _ _ _ _ _ _ Hd1 Epo) as [_ Hlen].
  pose proof (di_sim _ _ _ _ _ _ _ _ Hd1) as Hsim.
  destruct (replay_seal_frame (scan_config (config d1) seals) (len (contents (file d1))) generation
              (points (state d1)) s1 (state d1) Hsim Hg Hn Hg0 eq_refl) as (s' & Hr & _).
  destruct Hcase as [[-> _]|(dw & [(Hf & -> & _)|(durable & Hw & [(d2 & Hn2 & -> & _)|(_ & f & Hfc & Hfs & ->)])])].
  - by exists fs0, fs1, pend, s0, s1, s2.
  - by eapply inv_frame_failed; [exact Hd1|exact Epo|apply typed_seal_frame|exact Hr|exact Hf].
  - by eapply inv_frame_pending; [exact Hd1|exact Epo|apply typed_seal_frame|exact Hr|exact Hw|exact Hn2].
  - eapply (seal_written_inv seals seals generation d1 dw); try done.
    + rewrite replay_frames_app. unfold st_bind.
      rewrite (di_replay0 _ _ _ _ _ _ _ _ Hd1). apply (di_replay1 _ _ _ _ _ _ _ _ Hd1).
    + by rewrite bool_decide_false.
Qed.

(** ** Reachable handles *)

(** One call on an open handle, with its state afterwards. *)
Inductive call (seals : gset Z) : Db -> Db -> Prop :=
  | call_append d ps d' r : Forall typed_point ps -> append ps d = (d', r) -> call seals d d'
  | call_commit d t d' r : typed_transaction t -> commit t d = (d', r) -> call seals d d'
  | call_commit_ingress d i t d' r :
      typed_transaction t -> typed_identity i -> commit_ingress i t d = (d', r) -> call seals d d'
  | call_flush d d' r : flush d = (d', r) -> call seals d d'
  | call_verify d i t d' r : verify_ingress_payload i t d = (d', r) -> call seals d d'
  | call_seal d generation d' r :
      is_u64 generation -> generation <> 0 -> is_u64 (points (state d)) -> generation ∉ seals ->
      write_seal_checkpoint generation (points (state d)) d = (d', r) -> call seals d d'
  | call_attach d segments n : call seals d (set_sealed segments n d).

Lemma typed_with_ingress i t :
  typed_transaction t -> typed_identity i -> typed_transaction (with_ingress_identity i t).
Proof. intros (Ht & _ & _) Hi. split_and!; simpl; [done|apply Hi|done]. Qed.

Lemma call_inv seals d d' : call seals d d' -> handle_inv seals d -> handle_inv seals d'.
Proof.
  intros Hc Hi. destruct Hc as [d ps d' r Ht E|d t d' r Ht E|d i t d' r Ht Hti E|d d' r E|d i t d' r E
                               |d g d' r H1' H2' H3' H4' E|d segments n].
  - pose proof (append_inv seals d ps Hi Ht d d' r eq_refl E). by destruct r.
  - pose proof (commit_inv seals d t Hi Ht d d' r eq_refl E). by destruct r.
  - pose proof (commit_inv seals d _ Hi (typed_with_ingress _ _ Ht Hti) d d' r eq_refl E). by destruct r.
  - pose proof (flush_inv seals d Hi d d' r eq_refl E) as Hf. destruct r; [by destruct Hf|done].
  - assert (Hn : near d d'); [|by eapply near_inv].
    revert E. unfold verify_ingress_payload, st_bind at 1, st_get.
    destruct (ingress_receipts (state d) !! key_of i); [|intros [= <- <-]; apply near_refl].
    destruct (negb _); [intros [= <- <-]; apply near_refl|].
    unfold st_bind at 1, st_lift. destruct (encode_canonical_transaction t) as [c|]; [|intros [= <- <-]; apply near_refl].
    unfold st_bind. destruct (on_file _ d) as [d1 r1] eqn:E1.
    pose proof (on_file_reading _ d (reading_ingress _ _) d d1 r1 eq_refl E1) as Hn.
    destruct r1; intros [= <- <-]; done.
  - pose proof (write_seal_checkpoint_inv seals g d Hi H1' H2' H3' H4' d d' r eq_refl E). by destruct r.
  - destruct Hi as (fs0 & fs1 & pend & s0 & s1 & s2 & []). exists fs0, fs1, pend, s0, s1, s2. by constructor.
Qed.

(** Handles reached from a successful writable open by any calls. *)
Inductive reachable (seals : gset Z) (cfg : Config) : Db -> Prop :=
  | reach_open path f d : (forall g, path = Some g -> is_bytes (contents g)) ->
      open_mode LockAcquired cfg false seals path = (f, Ok d) -> reachable seals cfg d
  | reach_call d d' : reachable seals cfg d -> call seals d d' -> reachable seals cfg d'.

Lemma reachable_inv seals cfg d : reachable seals cfg d -> handle_inv seals d.
Proof.
  induction 1 as [path f d Hb E|d d' _ IH Hc]; [|by eapply call_inv].
  unfold open_mode in E. destruct (validate_config cfg); [|done].
  destruct (open_file LockAcquired cfg false seals (default (mkFile [] 0 []) path)) as [f' r] eqn:Eo.
  injection E as <- ->. apply open_file_sound in Eo as [Hi _]; [done|].
  destruct path; [by apply Hb|constructor].
Qed.
End Steps.

(** ** What clients rely on *)

Section Guarantees.
Context `{Crc} `{RecordCodecLaws} `{IndexCodec} `{TimeZones} {Seg : Type}.
Abbreviation Db := (Database Seg).

Lemma sim_receipt s d k r :
  sim s d -> ingress_receipts d !! k = Some r ->
  exists r', ingress_receipts s !! k = Some r' /\ clear_ingress r' = clear_ingress r.
Proof.
  intros Hs Hr. pose proof (f_equal (fun m => m !! k) (sim_ingress _ _ Hs)) as E. simpl in E.
  rewrite !lookup_fmap, Hr in E. destruct (ingress_receipts s !! k) as [r'|]; [|done].
  exists r'. split; [done|]. simpl in E. congruence.
Qed.

Lemma sim_receipt_rev s d k r :
  sim s d -> ingress_receipts s !! k = Some r ->
  exists r', ingress_receipts d !! k = Some r' /\ clear_ingress r' = clear_ingress r.
Proof.
  intros Hs Hr. pose proof (f_equal (fun m => m !! k) (sim_ingress _ _ Hs)) as E. simpl in E.
  rewrite !lookup_fmap, Hr in E. destruct (ingress_receipts d !! k) as [r'|]; [|done].
  exists r'. split; [done|]. simpl in E. congruence.
Qed.

Lemma sim_identified_some s d c :
  sim s d -> is_Some (identified_receipts d !! c) <-> is_Some (identified_receipts s !! c).
Proof.
  intros Hs. pose proof (f_equal (fun m => m !! c) (sim_identified _ _ Hs)) as E. simpl in E.
  rewrite !lookup_fmap in E. destruct (identified_receipts d !! c), (identified_receipts s !! c); done.
Qed.

Lemma clear_identity r r' : clear_ingress r = clear_ingress r' -> ir_identity r = ir_identity r'.
Proof. intros E. exact (f_equal ir_identity E). Qed.

Lemma sim_wf_ingress s d : sim s d -> wf_ingress s -> wf_ingress d.
Proof.
  intros Hs [W1 W2 W3 W4 W5 W6].
  pose proof (sim_last_sequences _ _ Hs) as El. pose proof (sim_ingress_commit_ids _ _ Hs) as Ec.
  pose proof (sim_commit_ids _ _ Hs) as Ei. constructor; rewrite <- ?El, <- ?Ec, <- ?Ei.
  - intros k r Hr. destruct (sim_receipt _ _ _ _ Hs Hr) as (r' & Hr' & E).
    rewrite <- (clear_identity _ _ E). by apply W1.
  - intros k r Hr. destruct (sim_receipt _ _ _ _ Hs Hr) as (r' & Hr' & E). by eapply W2.
  - intros src n Hn. destruct (W3 _ _ Hn) as [r Hr].
    destruct (sim_receipt_rev _ _ _ _ Hs Hr) as (r' & Hr' & _). eauto.
  - intros c k. rewrite W4. split; intros (r & Hr & Hc).
    + destruct (sim_receipt_rev _ _ _ _ Hs Hr) as (r' & Hr' & E). exists r'.
      by rewrite (clear_identity _ _ E).
    + destruct (sim_receipt _ _ _ _ Hs Hr) as (r' & Hr' & E). exists r'.
      by rewrite (clear_identity _ _ E).
  - intros c. rewrite W5. by rewrite (sim_identified_some _ _ c Hs).
  - intros c Hc. apply W6. by apply (sim_identified_some _ _ c Hs).
Qed.

Lemma sim_wf_index s d : sim s d -> index_keyed (index s) -> wf_index (index d).
Proof.
  intros Hs Hk. rewrite <- (sim_index _ _ Hs). split; intros k l; rewrite lookup_fmap;
    destruct (index s !! k) as [l'|] eqn:E; simpl; try done; intros [= <-].
  - apply stable_sort_sorted; eauto with ftw.
  - unfold sort_series. rewrite stable_sort_perm. by eapply Hk.
Qed.

(** The state of every handle satisfies the log invariants. *)
Lemma handle_wf seals (d : Db) :
  handle_inv seals d ->
  wf_catalog (catalog (state d)) /\ wf_index (index (state d)) /\ wf_ingress (state d).
Proof.
  intros (fs0 & fs1 & pend & s0 & s1 & s2 & Hd).
  destruct (replay_frames_evolves _ _ _ _ _ (di_replay0 _ _ _ _ _ _ _ _ Hd)) as [_ H0'].
  destruct (replay_frames_evolves _ _ _ _ _ (di_replay1 _ _ _ _ _ _ _ _ Hd)) as [_ H1'].
  destruct (H1' (H0' wf_log_empty)) as (Wc & Wi & Wg).
  pose proof (di_sim _ _ _ _ _ _ _ _ Hd) as Hs. split_and!.
  - by rewrite <- (sim_catalog _ _ Hs).
  - by eapply sim_wf_index.
  - by eapply sim_wf_ingress.
Qed.

(** The durable watermark of a source never passes its accepted one. *)
Lemma durable_le_accepted seals (d : Db) src n :
  handle_inv seals d -> durable_through (ingress_watermarks src d) = Some n ->
  exists m, accepted_through (ingress_watermarks src d) = Some m /\ n <= m.
Proof.
  intros (fs0 & fs1 & pend & s0 & s1 & s2 & Hd) Hn. simpl in *.
  rewrite (di_durable _ _ _ _ _ _ _ _ Hd) in Hn.
  destruct (replay_frames_evolves _ _ _ _ _ (di_replay1 _ _ _ _ _ _ _ _ Hd)) as [Hg _].
  rewrite <- (sim_last_sequences _ _ (di_sim _ _ _ _ _ _ _ _ Hd)). by apply (gr_last _ _ Hg).
Qed.

(** A receipt reported durable is the receipt of a synced frame. *)
Lemma durable_receipt_synced seals (d : Db) fs0 fs1 pend s0 s1 s2 src seq r :
  disk_inv seals d fs0 fs1 pend s0 s1 s2 -> ingress_receipts (state d) !! (src, seq) = Some r ->
  is_some_and (ingress_durable_sequences d !! src) (fun durable => seq <=? durable) = true ->
  exists r0, ingress_receipts (log s0) !! (src, seq) = Some r0 /\ clear_ingress r0 = clear_ingress r.
Proof.
  intros Hd Hr Hdu. destruct (sim_receipt _ _ _ _ (di_sim _ _ _ _ _ _ _ _ Hd) Hr) as (r1 & Hr1 & E).
  destruct (replay_frames_evolves _ _ _ _ _ (di_replay1 _ _ _ _ _ _ _ _ Hd)) as [Hg _].
  destruct (gr_new _ _ Hg _ _ Hr1) as [H0'|Hnew]; [eauto|]. exfalso.
  rewrite (di_durable _ _ _ _ _ _ _ _ Hd) in Hdu.
  destruct (ingress_last_sequences (log s0) !! src) as [n|] eqn:En; [|done]. simpl in Hdu.
  specialize (Hnew n En). simpl in Hnew. zlia.
Qed.

(** A stored receipt that is durable survives any power loss. *)
Lemma durable_stored_survives seals (d : Db) left m src seq x :
  handle_inv seals d -> crash (file d) left -> ingress_receipts (state d) !! (src, seq) = Some x ->
  is_some_and (ingress_durable_sequences d !! src) (fun durable => seq <=? durable) = true ->
  exists (d' : Db) x', open_file LockAcquired (config d) false seals (mkFile left m []) = (file d', Ok d')
    /\ handle_inv seals d' /\ ingress_receipts (state d') !! (src, seq) = Some x' /\ clear_ingress x' = clear_ingress x
    /\ is_some_and (ingress_durable_sequences d' !! src) (fun durable => seq <=? durable) = true.
Proof.
  intros (fs0 & fs1 & pend & s0 & s1 & s2 & Hd) Hcr Ex Hdu.
  destruct (crash_open _ _ _ _ _ _ _ _ _ m Hd Hcr) as (d' & fs' & rest & s' & Ho & _ & Hrep & Hop & _).
  destruct (durable_receipt_synced _ _ _ _ _ _ _ _ _ _ _ Hd Ex Hdu) as (x0 & Hx0 & E0).
  exists d', (set_receipt_durable true x0). split; [done|]. split; [by eapply opened_inv|].
  destruct (replay_frames_evolves _ _ _ _ _ Hrep) as [Hg _]. pose proof (gr_receipts _ _ Hg _ _ Hx0) as Hx'.
  rewrite (di_durable _ _ _ _ _ _ _ _ Hd) in Hdu.
  destruct (ingress_last_sequences (log s0) !! src) as [n|] eqn:En; [|done]. simpl in Hdu.
  destruct (gr_last _ _ Hg _ _ En) as (n' & En' & Hle).
  destruct Hop as (_ & _ & _ & _ & _ & _ & _ & _ & Hst & Hdu'). split_and!.
  - rewrite Hst. unfold receipts_durable, set_ingress_receipts, sort_index, set_index.
    cbn [ingress_receipts]. by rewrite lookup_fmap, Hx'.
  - by rewrite <- E0.
  - rewrite Hdu', En'. simpl. zlia.
Qed.

(** Every receipt reported durable survives any power loss, still durable. *)
Lemma durable_receipt_survives seals (d : Db) left m src seq r :
  handle_inv seals d -> crash (file d) left ->
  ingress_receipt src seq d = Some r -> rc_durable r = true ->
  exists d' : Db, open_file LockAcquired (config d) false seals (mkFile left m []) = (file d', Ok d')
    /\ handle_inv seals d' /\ ingress_receipt src seq d' = Some r.
Proof.
  intros Hi Hcr Hr Hdu. unfold ingress_receipt in Hr.
  destruct (ingress_receipts (state d) !! (src, seq)) as [x|] eqn:Ex; [|done]. injection Hr as <-. simpl in Hdu.
  destruct (durable_stored_survives _ _ _ m _ _ _ Hi Hcr Ex Hdu) as (d' & x' & Ho & Hi' & Ex' & E & Hdu').
  exists d'. split; [done|]. split; [done|]. unfold ingress_receipt. rewrite Ex', Hdu, Hdu'.
  destruct x' as [i0 o0 l0 c0 p0 [? ? ? ? ? ?]], x as [i1 o1 l1 c1 p1 [? ? ? ? ? ?]].
  injection E as -> -> -> -> -> -> -> -> -> ->. done.
Qed.

(** Reopening the intact file of a healthy handle rebuilds its state. *)
Lemma reopen_same seals (d : Db) m :
  handle_inv seals d -> poisoned d = false ->
  exists d' : Db, open_file LockAcquired (config d) false seals (mkFile (contents (file d)) m [])
      = (file d', Ok d')
    /\ handle_inv seals d' /\ contents (file d') = contents (file d)
    /\ index (state d') = index (state d) /\ catalog (state d') = catalog (state d)
    /\ commit_ids (state d') = commit_ids (state d)
    /\ ingress_commit_ids (state d') = ingress_commit_ids (state d)
    /\ ingress_last_sequences (state d') = ingress_last_sequences (state d)
    /\ clear_identified <$> identified_receipts (state d') = clear_identified <$> identified_receipts (state d)
    /\ clear_ingress <$> ingress_receipts (state d') = clear_ingress <$> ingress_receipts (state d)
    /\ (commits (state d'), points (state d'), catalog_records (state d'))
       = (commits (state d), points (state d), catalog_records (state d)).
Proof.
  intros (fs0 & fs1 & pend & s0 & s1 & s2 & Hd) Hp.
  assert (Hcr : crash (file d) (contents (file d))).
  { exists (length (contents (file d))). split; [apply (di_synced _ _ _ _ _ _ _ _ Hd)|]. by rewrite take_ge by lia. }
  destruct (crash_open _ _ _ _ _ _ _ _ _ m Hd Hcr) as (d' & fs' & rest & s' & Ho & _ & Hrep & Hop & Hfull & _).
  destruct (Hfull eq_refl Hp) as [-> ->]. exists d'. split; [done|]. split; [by eapply opened_inv|].
  destruct (disk_inv_clean _ _ _ _ _ _ _ _ Hd Hp) as [Hc _].
  destruct Hop as (_ & _ & Hc' & _ & _ & _ & _ & _ & Hst & _). rewrite Hst, Hc', Hc.
  destruct (di_sim _ _ _ _ _ _ _ _ Hd). simpl. rewrite clear_receipts_durable. split_and!; try done; congruence.
Qed.
End Guarantees.

(** ** What a power loss leaves *)

Section Facts.
Context `{Crc} `{RecordCodecLaws} `{IndexCodec} `{TimeZones} {Seg : Type}.
Abbreviation Db := (Database Seg).

Lemma database_header_bytes : is_bytes database_header.
Proof.
  unfold database_header, database_header_prefix. rewrite !is_bytes_app.
  split_and!; try apply to_le_bytes; by repeat constructor.
Qed.

Lemma frame_bytes_bytes f : typed_frame f -> is_bytes (frame_bytes f).
Proof.
  intros (_ & _ & _ & Hp). unfold frame_bytes, encode_frame, encode_frame_header, frame_header_prefix.
  rewrite !is_bytes_app. split_and!; try apply to_le_bytes; try done; by repeat constructor.
Qed.

Lemma typed_frames_bytes fs : Forall typed_frame fs -> is_bytes (frames_bytes fs).
Proof.
  induction 1 as [|f fs Hf _ IH]; [constructor|]. rewrite frames_bytes_cons. apply is_bytes_app.
  split; [by apply frame_bytes_bytes|done].
Qed.

(** The file of a handle is a byte string. *)
Lemma handle_bytes seals (d : Db) : handle_inv seals d -> is_bytes (contents (file d)).
Proof.
  intros (fs0 & fs1 & pend & s0 & s1 & s2 & Hd). destruct (di_contents _ _ _ _ _ _ _ _ Hd) as [k ->].
  pose proof (di_typed _ _ _ _ _ _ _ _ Hd) as Ht. rewrite app_assoc in Ht. apply Forall_app in Ht as [Ht1 Ht2].
  rewrite !is_bytes_app. split_and!; [apply database_header_bytes|by apply typed_frames_bytes|].
  apply Forall_take. by apply typed_frames_bytes.
Qed.

(** A recovered file keeps what was synced and adds nothing. *)
Lemma crash_open_prefix seals (d : Db) left m :
  handle_inv seals d -> crash (file d) left ->
  exists (d' : Db) fs s,
    open_file LockAcquired (config d) false seals (mkFile left m []) = (file d', Ok d')
    /\ opened d' (config d) seals fs s
    /\ contents (file d') `prefix_of` left
    /\ take (synced (file d)) (contents (file d)) `prefix_of` contents (file d').
Proof.
  intros Hi Hcr. pose proof (handle_bytes _ _ Hi) as Hb.
  destruct Hi as (fs0 & fs1 & pend & s0 & s1 & s2 & Hd).
  destruct (crash_open _ _ _ _ _ _ _ _ _ m Hd Hcr) as (d' & fs' & rest & s' & Ho & Hsp & _ & Hop & _ & Hall).
  exists d', (fs0 ++ fs'), s'. split; [done|]. split; [done|].
  assert (Hbl : is_bytes left) by (destruct Hcr as (n & _ & ->); by apply Forall_take).
  pose proof Hop as (_ & _ & Hc' & _). split.
  - destruct (open_file_sound _ _ _ (mkFile left m []) _ _ Hbl Ho) as (_ & _ & fs2 & s3 & Hop2 & Hcase).
    pose proof Hop2 as (_ & _ & Hc2 & _). rewrite Hc2.
    destruct Hcase as [[Hnil ->]|(t & Hs & _)].
    + simpl in Hnil. subst left. destruct Hcr as (n & Hn & Hnil). exfalso.
      apply (f_equal length) in Hnil. rewrite length_take in Hnil.
      pose proof (di_synced _ _ _ _ _ _ _ _ Hd). simpl in Hnil. lia.
    + simpl in Hs. rewrite Hs. exists t. by rewrite app_assoc.
  - destruct (di_boundary _ _ _ _ _ _ _ _ Hd) as [Hsy|[Hfull Hsy]].
    + destruct (di_contents _ _ _ _ _ _ _ _ Hd) as [k Hc]. rewrite Hc', Hc, Hsy, !frames_bytes_app, <- app_assoc, !(app_assoc database_header).
      assert (Hl : length (database_header ++ frames_bytes fs0) = (16 + length (frames_bytes fs0))%nat)
        by (rewrite length_app, length_database_header; lia).
      rewrite <- Hl, take_app_length. by eexists.
    + destruct Hcr as (n & Hn & ->). rewrite Hsy in Hn. rewrite take_ge in Hall by done. rewrite (Hall Hfull), app_nil_r in Hsp.
      rewrite Hc', <- Hsp, <- Hfull, take_ge by lia. done.
Qed.
End Facts.
