(* ===== verification/Retry.v ===== *)
(** * Retry: exact replay of ordered ingress transactions

    A retry is recognised by comparing its bytes with the bytes the log stores,
    never by a checksum alone: an exact retry returns the original receipt and
    writes nothing, any other transaction under a used key is a conflict. *)
From S2P Require Import Prelude Errors Bytes Float64 Model Transaction Catalog Query Codec Effects Scan LogInv Database Refine Durable Recovery.

(** A checksum of a concatenation is determined by the prefix and by the
    checksum and length of the rest: what [crc32fast::Hasher::combine] computes. *)
Class CrcCombine `{Crc} := {
  hash_app : forall a b b', length b = length b' -> hash b = hash b' -> hash (a ++ b) = hash (a ++ b');
}.

(** ** Reading stored bytes back *)

Section Chunks.
Context (f : File).
Hypothesis Hflt : faults f = [].

Lemma read_ok n off :
  0 <= off -> 0 <= n -> off + n <= len (contents f) ->
  f_read_exact_at n off f = (f, Ok (slice (Z.to_nat off) (Z.to_nat (off + n)) (contents f))).
Proof using Hflt.
  intros. unfold f_read_exact_at, f_call, next_fault. rewrite Hflt.
  destruct (Z.ltb_spec (len (contents f)) (off + n)); [lia|done].
Qed.

Lemma slice_cut {A} (l : list A) a b c :
  (a <= b)%nat -> (b <= c)%nat -> slice a c l = slice a b l ++ slice b c l.
Proof using. intros. by rewrite slice_slice_app. Qed.

(** Equality of a stored range with the rest of the candidate splits at a
    chunk boundary. *)
Lemma chunk_eq (l c : bytes) (a co k : nat) :
  (co + k <= length c)%nat -> (a + (length c - co) <= length l)%nat ->
  bool_decide (slice a (a + (length c - co)) l = drop co c)
  = bytes_eqb (slice a (a + k) l) (slice co (co + k) c)
    && bool_decide (slice (a + k) (a + k + (length c - (co + k))) l = drop (co + k) c).
Proof using.
  intros Hk Hl. rewrite (slice_cut l a (a + k)) by lia.
  replace (a + k + (length c - (co + k)))%nat with (a + (length c - co))%nat by lia.
  assert (Hd : drop co c = slice co (co + k) c ++ drop (co + k) c).
  { unfold slice. replace (co + k - co)%nat with k by lia.
    rewrite <- drop_drop. by rewrite take_drop. }
  rewrite Hd. unfold bytes_eqb.
  assert (Hlen : length (slice a (a + k) l) = length (slice co (co + k) c))
    by (rewrite !length_slice by lia; lia).
  destruct (bool_decide (slice a (a + k) l = slice co (co + k) c)) eqn:E1; simpl.
  - apply bool_decide_eq_true in E1. rewrite E1. apply bool_decide_ext. split; [apply app_inv_head|congruence].
  - apply bool_decide_eq_false in E1. apply bool_decide_eq_false. intros E. apply E1.
    by apply app_inj_1 in E as [? _].
Qed.

Lemma read_chunks_ok fuel po c co acc eq :
  0 <= po -> (co <= length c)%nat -> po + len c <= len (contents f) -> is_u64 (len (contents f)) ->
  (length c - co < fuel)%nat ->
  read_chunks fuel po c (Z.of_nat co) acc eq f
  = (f, Ok (acc ++ slice (Z.to_nat po + co) (Z.to_nat po + length c) (contents f),
            eq && bool_decide (slice (Z.to_nat po + co) (Z.to_nat po + length c) (contents f)
                               = drop co c))).
Proof using Hflt.
  intros Hpo. revert co acc eq. induction fuel as [|fuel IH]; intros co acc eq Hco Hfit Hu Hf; [lia|].
  cbn [read_chunks]. destruct (Z.ltb_spec (Z.of_nat co) (len c)) as [Hlt|Hge].
  - set (k := Z.to_nat (Z.min 8192 (len c - Z.of_nat co))).
    assert (Hk : Z.min 8192 (len c - Z.of_nat co) = Z.of_nat k) by (unfold k; lia). rewrite Hk.
    assert (Hkb : (0 < k <= length c - co)%nat) by (unfold zlen in *; lia). clearbody k.
    unfold st_bind, st_lift, u64_checked_add. unfold is_u64, zlen in *.
    rewrite u64_checked_ok by (unfold is_u64; lia). cbn [ok_or].
    rewrite read_ok by (unfold zlen; lia).
    replace (Z.to_nat (po + Z.of_nat co)) with (Z.to_nat po + co)%nat by lia.
    replace (Z.to_nat (po + Z.of_nat co + Z.of_nat k)) with (Z.to_nat po + co + k)%nat by lia.
    replace (Z.of_nat co + Z.of_nat k) with (Z.of_nat (co + k)) by lia.
    rewrite !Nat2Z.id. rewrite IH by (unfold zlen; lia).
    replace (Z.to_nat po + length c)%nat with (Z.to_nat po + co + (length c - co))%nat by lia.
    rewrite (chunk_eq _ c (Z.to_nat po + co) co k) by lia.
    replace (Z.to_nat po + (co + k))%nat with (Z.to_nat po + co + k)%nat by lia.
    replace (Z.to_nat po + co + k + (length c - (co + k)))%nat
      with (Z.to_nat po + co + (length c - co))%nat by lia.
    rewrite <- app_assoc, <- slice_cut by lia. by rewrite andb_assoc.
  - assert (co = length c) as -> by (unfold zlen in Hge; lia).
    assert (E : slice (Z.to_nat po + length c) (Z.to_nat po + length c) (contents f) = []).
    { unfold slice. by rewrite Nat.sub_diag. }
    rewrite E, app_nil_r, drop_all. rewrite bool_decide_true, andb_true_r by done. done.
Qed.
End Chunks.

(** ** Where the bytes of a receipt are *)

Section Located.
Context `{Crc}.

Definition ingress_frame (i : IngressIdentity) (items : Z) (canonical : bytes) : Frame :=
  mkFrame FRAME_KIND_INGRESS_TRANSACTION items (encode_identity i ++ canonical).

(** The frame of a live receipt is at its recorded offset. *)
Definition located (c : bytes) (r : StoredIngressReceipt) (canonical : bytes) : Prop :=
  exists pre post, c = pre ++ frame_bytes (ingress_frame (ir_identity r) (cm_records (ir_commit r)) canonical) ++ post
    /\ cm_frame_offset (ir_commit r) = len pre /\ (16 <= length pre)%nat
    /\ ir_canonical_payload_offset r = len pre + 64
    /\ ir_canonical_payload_len r = len canonical /\ ir_canonical_payload_crc32 r = hash canonical
    /\ is_u32 (40 + len canonical) /\ is_u32 (cm_records (ir_commit r)).

(** A compact receipt carries its bytes, or none at all. *)
Definition compacted (r : StoredIngressReceipt) : Prop :=
  ir_canonical_payload_offset r = 0 /\
  forall p, ir_compact_payload r = Some p ->
    ir_canonical_payload_len r = len p /\ ir_canonical_payload_crc32 r = hash p.

Definition receipt_ok (c : bytes) (r : StoredIngressReceipt) : Prop :=
  compacted r \/ exists canonical, located c r canonical.

(** The canonical bytes a handle can compare a retry with. *)
Definition stored_payload (c : bytes) (r : StoredIngressReceipt) : option bytes :=
  if ir_canonical_payload_offset r =? 0 then ir_compact_payload r
  else Some (slice (Z.to_nat (ir_canonical_payload_offset r))
               (Z.to_nat (ir_canonical_payload_offset r + ir_canonical_payload_len r)) c).

Lemma len_encode_identity i : len (encode_identity i) = 40.
Proof. unfold zlen. by rewrite length_encode_identity. Qed.

Lemma slice_at (pre x post : bytes) n : n = (length pre + length x)%nat -> slice (length pre) n (pre ++ x ++ post) = x.
Proof. intros ->. by apply slice_app_at. Qed.

(** The three ranges a retry reads. *)
Lemma located_ranges pre i items canonical post :
  let c := pre ++ frame_bytes (ingress_frame i items canonical) ++ post in
  slice (length pre) (length pre + 24) c
    = encode_frame_header FRAME_KIND_INGRESS_TRANSACTION items (40 + len canonical)
        (hash (encode_identity i ++ canonical))
  /\ slice (length pre + 24) (length pre + 64) c = encode_identity i
  /\ slice (length pre + 64) (length pre + 64 + length canonical) c = canonical
  /\ len c = len pre + 64 + len canonical + len post.
Proof.
  intros c. unfold c, frame_bytes, encode_frame, ingress_frame. cbn [fr_kind fr_items fr_payload].
  rewrite zlen_app, len_encode_identity.
  set (h := encode_frame_header _ _ _ _). assert (Hh : length h = 24%nat) by apply length_frame_header.
  pose proof (length_encode_identity i) as Hi. split_and!.
  - rewrite <- !app_assoc. apply slice_at. lia.
  - rewrite <- !app_assoc, (app_assoc pre).
    replace (length pre + 24)%nat with (length (pre ++ h)) by (rewrite length_app; lia).
    apply slice_at. rewrite length_app. lia.
  - rewrite <- !app_assoc, (app_assoc pre), (app_assoc (pre ++ h)).
    replace (length pre + 64)%nat with (length ((pre ++ h) ++ encode_identity i)) by (rewrite !length_app; lia).
    by apply slice_at.
  - unfold zlen. rewrite !length_app, Hh, Hi. lia.
Qed.

Lemma located_stored c r canonical : located c r canonical -> stored_payload c r = Some canonical.
Proof.
  intros (pre & post & -> & Hoff & H16 & Hpo & Hlen & Hcrc & _). unfold stored_payload. rewrite Hpo, Hlen.
  destruct (located_ranges pre (ir_identity r) (cm_records (ir_commit r)) canonical post) as (_ & _ & E & _).
  destruct (Z.eqb_spec (len pre + 64) 0); [unfold zlen in *; lia|].
  replace (Z.to_nat (len pre + 64)) with (length pre + 64)%nat by (unfold zlen; lia).
  replace (Z.to_nat (len pre + 64 + len canonical)) with (length pre + 64 + length canonical)%nat
    by (unfold zlen; lia).
  by rewrite E.
Qed.

(** Reading a live frame back against a candidate of the same length and
    checksum. *)
Lemma located_matches `{!CrcCombine} f r candidate canonical :
  faults f = [] -> is_u64 (len (contents f)) -> located (contents f) r canonical ->
  len candidate = len canonical -> hash candidate = hash canonical ->
  ingress_payload_matches_at r candidate f = (f, Ok (bool_decide (canonical = candidate))).
Proof.
  intros Hflt Hu (pre & post & Hcont & Hoff & H16 & Hpo & Hlen & Hcrc & H32 & Hrec) E1 E2.
  destruct (located_ranges pre (ir_identity r) (cm_records (ir_commit r)) canonical post) as (R1 & R2 & R3 & R4).
  rewrite <- Hcont in R1, R2, R3, R4.
  pose proof (zlen_nonneg canonical). pose proof (zlen_nonneg post). pose proof (zlen_nonneg pre).
  unfold ingress_payload_matches_at. rewrite Hlen, Hcrc, E1, E2, !Z.eqb_refl. cbn [negb orb].
  unfold is_u64 in Hu. rewrite Hpo, Hoff. destruct (Z.eqb_spec (len pre + 64) 0); [lia|].
  unfold u64_checked_add. unfold st_bind at 1, st_lift. rewrite u64_checked_ok by (unfold is_u64; lia). cbn [ok_or].
  rewrite Z.eqb_refl. cbn [negb]. unfold st_bind at 1.
  rewrite (proj2 (u32_try_from_Some (40 + len canonical) _)) by done. cbn [ok_or].
  unfold st_bind at 1. rewrite (proj2 (u32_try_from_Some (cm_records (ir_commit r)) _)) by done. cbn [ok_or].
  unfold st_bind at 1. rewrite read_ok by (done || lia).
  rewrite zlen_nat. replace (Z.to_nat (len pre + 24)) with (length pre + 24)%nat by (unfold zlen; lia).
  rewrite R1, (hash_app (encode_identity (ir_identity r)) canonical candidate), bytes_eqb_refl
    by (unfold zlen in *; lia || done). cbn [negb].
  unfold st_bind at 1. rewrite u64_checked_ok by (unfold is_u64; lia). cbn [ok_or]. unfold st_bind at 1.
  rewrite read_ok by (done || lia). replace (Z.to_nat (len pre + 24)) with (length pre + 24)%nat by (unfold zlen; lia).
  replace (Z.to_nat (len pre + 24 + 40)) with (length pre + 64)%nat by (unfold zlen; lia).
  rewrite R2, bytes_eqb_refl. cbn [negb]. unfold st_bind. change 0 with (Z.of_nat 0).
  rewrite read_chunks_ok by (done || (unfold is_u64; unfold zlen in *; lia)).
  replace (Z.to_nat (len pre + 64) + 0)%nat with (length pre + 64)%nat by (unfold zlen; lia).
  replace (Z.to_nat (len pre + 64) + length candidate)%nat with (length pre + 64 + length canonical)%nat
    by (unfold zlen in *; lia).
  rewrite R3. cbn [app]. rewrite Z.eqb_refl. cbn [negb andb]. unfold st_ret. by rewrite drop_0.
Qed.

(** The byte comparison decides equality with the stored payload. *)
Lemma ingress_payload_matches_ok `{!CrcCombine} f r candidate :
  faults f = [] -> is_u64 (len (contents f)) -> receipt_ok (contents f) r ->
  ingress_payload_matches_at r candidate f
  = (f, Ok (bool_decide (stored_payload (contents f) r = Some candidate))).
Proof.
  intros Hflt Hu [[Hz Hc]|[canonical Hloc]].
  - unfold ingress_payload_matches_at, stored_payload. rewrite Hz. cbn [Z.eqb].
    destruct (len candidate =? ir_canonical_payload_len r) eqn:E1; cbn [negb orb].
    2: { rewrite bool_decide_false; [done|]. intros [El _]%Hc. zlia. }
    destruct (hash candidate =? ir_canonical_payload_crc32 r) eqn:E2; cbn [negb]; [done|].
    rewrite bool_decide_false; [done|]. intros [_ El]%Hc. zlia.
  - rewrite (located_stored _ _ _ Hloc).
    destruct (decide (len candidate = len canonical /\ hash candidate = hash canonical)) as [[E1 E2]|Hne].
    + rewrite (located_matches f r candidate canonical) by done. do 2 f_equal.
      apply bool_decide_ext. split; congruence.
    + rewrite bool_decide_false by (intros [= ->]; tauto).
      destruct Hloc as (? & ? & _ & _ & _ & _ & E1 & E2 & _). unfold ingress_payload_matches_at.
      rewrite E1, E2. destruct (Z.eqb_spec (len candidate) (len canonical)); [|done].
      destruct (Z.eqb_spec (hash candidate) (hash canonical)); [tauto|done].
Qed.
End Located.

(** ** Every receipt of a replayed log is backed by its bytes *)

Section ReceiptsOk.
Context `{Crc} `{RecordCodec} `{IndexCodec} `{TimeZones}.

Definition receipts_ok (c : bytes) (s : LogState) : Prop :=
  forall k r, ingress_receipts s !! k = Some r -> receipt_ok c r.

Lemma receipts_ok_insert c s i r :
  receipts_ok c s -> receipt_ok c r -> receipts_ok c (insert_ingress i r s).
Proof.
  intros Hs Hr k r'. simpl. destruct (decide (k = key_of i)) as [->|].
  - rewrite lookup_insert_eq. by intros [= <-].
  - rewrite lookup_insert_ne by done. apply Hs.
Qed.

Lemma receipts_ok_same c s s' : ingress_receipts s' = ingress_receipts s -> receipts_ok c s -> receipts_ok c s'.
Proof. unfold receipts_ok. by intros ->. Qed.

Lemma compact_ingress_ok c offset r s s' :
  apply_compact_ingress offset r s = (s', Ok tt) -> receipts_ok c (log s) -> receipts_ok c (log s').
Proof.
  unfold apply_compact_ingress. intros ([] & s1 & [-> _]%stop_if_Ok & E)%st_bind_Ok Hs.
  apply st_bind_Ok in E as (pn & s2 & [-> _]%halt_on_Ok & E).
  apply st_bind_Ok in E as (rn & s3 & [-> _]%halt_on_Ok & E).
  apply st_bind_Ok in E as (cp & s4 & Hcp & E).
  assert (Hok : s4 = s /\ forall p, cp = Some p ->
    cin_canonical_payload_len r = len p /\ cin_canonical_payload_crc32 r = hash p).
  { destruct (cin_canonical_payload r) as [|b l]; [by injection Hcp as <- <-|].
    apply st_bind_Ok in Hcp as ([] & s5 & [-> Hck]%stop_if_Ok & Hcp).
    apply st_bind_Ok in Hcp as ([] & s6 & [-> _]%halt_on_Ok & [= <- <-]).
    split; [done|]. intros p [= <-]. zbool. done. }
  destruct Hok as [-> Hok].
  apply st_bind_Ok in E as ([] & s5 & [_ Hlog]%check_ingress_identity_Ok & [= <-]).
  apply receipts_ok_insert; [|by left]. rewrite Hlog. by eapply receipts_ok_same.
Qed.

Lemma compact_identified_same offset r s s' :
  apply_compact_identified offset r s = (s', Ok tt) -> ingress_receipts (log s') = ingress_receipts (log s).
Proof.
  unfold apply_compact_identified. intros ([] & s1 & [-> _]%stop_if_Ok & E)%st_bind_Ok.
  apply st_bind_Ok in E as (pn & s2 & [-> _]%halt_on_Ok & E).
  apply st_bind_Ok in E as (rn & s3 & [-> _]%halt_on_Ok & E).
  apply st_bind_Ok in E as (cp & s4 & Hcp & E).
  assert (s4 = s) as ->.
  { destruct (cid_payload r); [by injection Hcp as <-|].
    apply st_bind_Ok in Hcp as ([] & s5 & [-> _]%stop_if_Ok & Hcp).
    apply st_bind_Ok in Hcp as ([] & s6 & [-> _]%halt_on_Ok & [= <- _]). done. }
  apply st_bind_Ok in E as ([] & s5 & [_ Hlog]%insert_commit_id_Ok & [= <-]). simpl. by rewrite Hlog.
Qed.

Lemma st_for_each_pres {A} (P : LogState -> Prop) (f : A -> Scanner unit) l s s' :
  (forall x s s', f x s = (s', Ok tt) -> P (log s) -> P (log s')) ->
  st_for_each f l s = (s', Ok tt) -> P (log s) -> P (log s').
Proof.
  intros Hf. revert s. induction l as [|x l IH]; intros s E Hs; simpl in E.
  - by injection E as <-.
  - apply st_bind_Ok in E as ([] & s1 & E1 & E2). eapply IH; [exact E2|]. by eapply Hf.
Qed.

Lemma check_kind_ingress_len cfg offset n l s :
  check_frame_kind cfg offset FRAME_KIND_INGRESS_TRANSACTION n l s = (s, Ok tt) -> 40 <= l.
Proof.
  intros E. destruct (Z.ltb_spec l 40) as [Hl|]; [|lia]. exfalso. revert E.
  apply Z.ltb_lt in Hl. unfold check_frame_kind. simpl. unfold st_bind. rewrite Hl.
  by destruct (max_transaction_bytes cfg <? l).
Qed.

Lemma encode_decode_identity p :
  is_bytes p -> 40 <= len p -> encode_identity (decode_ingress_identity p) ++ drop 40 p = p.
Proof.
  intros Hb Hl. unfold encode_identity, decode_ingress_identity. cbn [source_id sequence commit_id].
  rewrite !to_le_slice by (done || unfold zlen in Hl; lia).
  rewrite !slice_slice_app by lia. unfold slice. by rewrite drop_0, take_drop.
Qed.

(** An intact ingress frame adds a receipt that points at it. *)
Lemma replay_ingress_located cfg pre f post s s' :
  typed_frame f -> fr_kind f = FRAME_KIND_INGRESS_TRANSACTION -> (16 <= length pre)%nat ->
  let c := pre ++ frame_bytes f ++ post in
  replay_frame cfg (len pre) f s = (s', Ok tt) -> receipts_ok c (log s) -> receipts_ok c (log s').
Proof.
  intros (_ & Hit & Hlen & Hb) Hk H16 c E Hs. unfold replay_frame in E.
  apply st_bind_Ok in E as ([] & s1 & Hck & E).
  apply pure_check_Ok in Hck as [-> Hck]; [|apply check_frame_kind_pure].
  specialize (Hck s). rewrite Hk in Hck, E. apply check_kind_ingress_len in Hck.
  apply st_bind_Ok in E as ([] & s2 & E & [= <-]). unfold apply_payload in E.
  cbn [frame_kind item_count payload_len payload_checksum Z.eqb Pos.eqb FRAME_KIND_LEGACY_POINTS
       FRAME_KIND_SEAL_CHECKPOINT FRAME_KIND_IDENTITY_INDEX FRAME_KIND_IDENTIFIED_TRANSACTION
       FRAME_KIND_INGRESS_TRANSACTION] in E.
  apply st_bind_Ok in E as ([] & s3 & [_ Hlog]%check_ingress_identity_Ok & E).
  apply st_bind_Ok in E as (rs & s4 & Ef & [= <-]). cbn [log].
  assert (Hrs : fr_items f = len rs).
  { unfold apply_records_frame in Ef. apply st_bind_Ok in Ef as (rs' & s5 & [-> Hd]%halt_on_Ok & Ef).
    assert (rs' = rs) as ->.
    { clear -Ef. st_inv. done. }
    apply decode_transaction_count in Hd; [done|]. unfold is_u32 in Hit. lia. }
  apply apply_records_frame_Ok in Ef as (Hsame & _ & _).
  apply receipts_ok_insert.
  { eapply receipts_ok_same; [apply (sd_receipts _ _ Hsame)|]. rewrite Hlog. by eapply receipts_ok_same. }
  right. exists (drop 40 (fr_payload f)). exists pre, post. cbn [ir_identity ir_commit cm_records cm_frame_offset].
  rewrite <- Hrs. split_and!; try done.
  - unfold c, ingress_frame. rewrite encode_decode_identity by done. by destruct f; simpl in Hk; subst.
  - cbn. unfold FRAME_HEADER_BYTES, INGRESS_IDENTITY_BYTES. lia.
  - unfold is_u32, zlen in *. rewrite length_drop. lia.
Qed.

Lemma replay_frame_receipts cfg pre f post s s' :
  typed_frame f -> (16 <= length pre)%nat ->
  let c := pre ++ frame_bytes f ++ post in
  replay_frame cfg (len pre) f s = (s', Ok tt) -> receipts_ok c (log s) -> receipts_ok c (log s').
Proof.
  intros Ht H16 c E Hs.
  destruct (decide (fr_kind f = FRAME_KIND_INGRESS_TRANSACTION)) as [Hk|Hk]; [by eapply replay_ingress_located|].
  unfold replay_frame in E. apply st_bind_Ok in E as ([] & s1 & Hck & E).
  apply pure_check_Ok in Hck as [-> _]; [|apply check_frame_kind_pure].
  apply st_bind_Ok in E as ([] & s2 & E & [= <-]).
  enough (receipts_ok c (log s2)) by (by eapply receipts_ok_same).
  unfold apply_payload in E. cbn [frame_kind item_count] in E. destruct (_ =? _).
  { apply st_bind_Ok in E as ([] & s3 & [-> _]%stop_if_Ok & [= <-]). by eapply receipts_ok_same. }
  destruct (_ =? _).
  { apply st_bind_Ok in E as (t & s3 & [= -> ->] & E).
    apply st_bind_Ok in E as ([] & s4 & [-> _]%stop_if_Ok & E).
    destruct (bool_decide _); injection E as <-; [by eapply receipts_ok_same|done]. }
  destruct (_ =? _).
  { unfold apply_identity_index in E. apply st_bind_Ok in E as (i & s3 & [-> _]%halt_on_Ok & E).
    apply st_bind_Ok in E as ([] & s4 & E1 & E2).
    eapply (st_for_each_pres (receipts_ok c)); [|exact E2|]; [intros; by eapply compact_ingress_ok|].
    eapply (st_for_each_pres (receipts_ok c)); [|exact E1|done].
    intros x t t' Et. apply receipts_ok_same. by eapply compact_identified_same. }
  destruct (_ =? _).
  { apply st_bind_Ok in E as ([] & s3 & [_ Hlog]%insert_commit_id_Ok & E).
    apply st_bind_Ok in E as (rs & s4 & (Hsame & _)%apply_records_frame_Ok & [= <-]).
    eapply receipts_ok_same; [apply (sd_receipts _ _ Hsame)|]. rewrite Hlog. by eapply receipts_ok_same. }
  destruct (Z.eqb_spec (fr_kind f) FRAME_KIND_INGRESS_TRANSACTION); [done|].
  apply st_bind_Ok in E as (rs & s4 & (Hsame & _)%apply_records_frame_Ok & [= <-]).
  eapply receipts_ok_same; [apply (sd_receipts _ _ Hsame)|done].
Qed.

Lemma replay_frames_receipts cfg pre fs post s s' :
  Forall typed_frame fs -> (16 <= length pre)%nat ->
  let c := pre ++ frames_bytes fs ++ post in
  replay_frames cfg (len pre) fs s = (s', Ok tt) -> receipts_ok c (log s) -> receipts_ok c (log s').
Proof.
  intros Ht. revert pre s. induction Ht as [|f fs Hf _ IH]; intros pre s H16 c E Hs; simpl in E.
  - by injection E as <-.
  - apply st_bind_Ok in E as ([] & s1 & E1 & E2). unfold c in *. rewrite frames_bytes_cons, <- app_assoc in *.
    assert (Hs1 : receipts_ok (pre ++ frame_bytes f ++ frames_bytes fs ++ post) (log s1))
      by (eapply replay_frame_receipts; eauto).
    rewrite app_assoc in *. rewrite <- len_frame_bytes, <- zlen_app in E2.
    eapply IH; [rewrite length_app; lia|exact E2|done].
Qed.
End ReceiptsOk.

(** ** Exact retries on a reachable handle *)

Section ExactRetry.
Context `{Crc} `{!CrcCombine} `{RecordCodecLaws} `{IndexCodec} `{TimeZones} {Seg : Type}.
Abbreviation Db := (Database Seg).

Lemma receipt_ok_clear c r r' : clear_ingress r = clear_ingress r' -> receipt_ok c r -> receipt_ok c r'.
Proof.
  destruct r as [i o l k p [? ? ? ? ? ?]], r' as [i' o' l' k' p' [? ? ? ? ? ?]].
  intros [= -> -> -> -> -> -> -> -> -> ->]. done.
Qed.

Lemma handle_receipts_ok seals (d : Db) k r :
  handle_inv seals d -> ingress_receipts (state d) !! k = Some r -> receipt_ok (contents (file d)) r.
Proof.
  intros (fs0 & fs1 & pend & s0 & s1 & s2 & Hd) Hr.
  destruct (sim_receipt _ _ _ _ (di_sim _ _ _ _ _ _ _ _ Hd) Hr) as (r1 & Hr1 & E).
  eapply receipt_ok_clear; [exact E|]. destruct (di_contents _ _ _ _ _ _ _ _ Hd) as [n Hc]. rewrite Hc.
  assert (Ht : Forall typed_frame (fs0 ++ fs1)).
  { pose proof (di_typed _ _ _ _ _ _ _ _ Hd) as Ht. rewrite app_assoc in Ht. by apply Forall_app in Ht as [? _]. }
  assert (Hrep : replay_frames (scan_config (config d) seals) (len database_header) (fs0 ++ fs1) init_scan
                 = (s1, Ok tt)).
  { unfold zlen. rewrite length_database_header, replay_frames_app. unfold st_bind.
    change (Z.of_nat 16) with 16. rewrite (di_replay0 _ _ _ _ _ _ _ _ Hd). apply (di_replay1 _ _ _ _ _ _ _ _ Hd). }
  apply (replay_frames_receipts (scan_config (config d) seals) database_header (fs0 ++ fs1)
           (take n (frames_bytes pend)) init_scan s1 Ht ltac:(by rewrite length_database_header) Hrep) with k; [|done].
  intros k' r' E'. cbn in E'. by rewrite lookup_empty in E'.
Qed.

(** A transaction under a key that already has a receipt: the original
    receipt if its canonical bytes are exactly the stored ones, a conflict
    otherwise; the handle and its file do not change. *)
Lemma ingress_retry seals (d : Db) i t canonical r :
  handle_inv seals d -> poisoned d = false -> faults (file d) = [] -> is_u64 (len (contents (file d))) ->
  ingress_receipts (state d) !! key_of i = Some r -> encode_canonical_transaction t = Ok canonical ->
  commit_ingress i t d
  = (d, if bool_decide (commit_id (ir_identity r) = commit_id i
                        /\ stored_payload (contents (file d)) r = Some canonical)
        then Ok (mkCommit (cm_frame_offset (ir_commit r)) (cm_points (ir_commit r))
                   (cm_records (ir_commit r)) (cm_bytes_written (ir_commit r))
                   (is_some_and (ingress_durable_sequences d !! source_id i)
                      (fun durable => sequence i <=? durable)) true)
        else Err (IngressSourceSequenceConflict (source_id i) (sequence i))).
Proof.
  intros Hi Hp Hflt Hu Hr Hcan. pose proof (handle_writer _ _ Hi) as Hro.
  pose proof (handle_receipts_ok _ _ _ _ Hi Hr) as Hok.
  destruct (handle_wf _ _ Hi) as (_ & _ & Hwf). destruct (wi_key _ Hwf _ _ Hr) as [Hkey Hsrc].
  injection Hkey as Ek1 Ek2.
  unfold commit_ingress, commit, check_writable. unfold st_bind at 1 2, st_get, st_reject, st_lift, reject.
  rewrite Hro. unfold st_bind at 1. rewrite Hp. cbn [with_ingress_identity tx_ingress_identity].
  unfold commit_ordered_ingress. unfold st_bind at 1, st_reject, st_lift, reject.
  destruct (Z.eqb_spec (source_id i) 0); [congruence|]. unfold st_bind at 1.
  change (encode_canonical_transaction (with_ingress_identity i t)) with (encode_canonical_transaction t).
  rewrite Hcan. unfold st_bind at 1, st_get. rewrite Hr.
  unfold replay_ingress. unfold st_bind at 1, st_reject, st_lift, reject.
  destruct (Z.eqb_spec (commit_id (ir_identity r)) (commit_id i)) as [Hid|Hid]; cbn [negb].
  2: { rewrite bool_decide_false by tauto. done. }
  unfold st_bind at 1, ingress_payload_matches, poison_if_broken, on_file, st_zoom.
  rewrite ingress_payload_matches_ok by done.
  assert (Hset : set_file (file d) d = d) by (by destruct d). rewrite Hset.
  destruct (decide (stored_payload (contents (file d)) r = Some canonical)) as [Hs|Hs].
  - rewrite (bool_decide_true _ Hs), bool_decide_true by done. done.
  - rewrite (bool_decide_false _ Hs), bool_decide_false by tauto. done.
Qed.
End ExactRetry.
