(* ===== verification/ReclaimInv.v ===== *)
(** * ReclaimInv: a reclaimed log stands for the log it replaces

    [reclaim_live_log] ([src/src/storage.rs]) writes the catalog, the receipts
    with their payloads and the live points into a new log, scans it and
    renames it over the old one.  This file shows that the scan rebuilds the
    state the handle had. *)
From S2P Require Import Prelude Errors Bytes Float64 Model Transaction Graph Catalog Query Codec Effects Scan LogInv Database Refine Durable Recovery Retry.

(** ** What the compact index holds *)

Section Compact.
Context `{Crc} `{RecordCodec} `{IndexCodec} `{TimeZones}.

(** The payload bytes a handle can compare an identified retry with. *)
Definition stored_identified (c : bytes) (r : StoredIdentifiedReceipt) : option bytes :=
  if dr_payload_offset r =? 0 then dr_compact_payload r
  else Some (slice (Z.to_nat (dr_payload_offset r)) (Z.to_nat (dr_payload_offset r + dr_payload_len r)) c).

Definition compact_id (c : bytes) (entry : Z * StoredIdentifiedReceipt) : CompactIdentifiedReceipt :=
  let '(id, r) := entry in
  mkCompactIdentified id (dr_payload_len r) (dr_payload_crc32 r) (cm_points (dr_commit r)) (cm_records (dr_commit r))
    (default [] (stored_identified c r)).

Definition compact_in (c : bytes) (r : StoredIngressReceipt) : CompactIngressReceipt :=
  let i := ir_identity r in
  mkCompactIngress (source_id i) (sequence i) (commit_id i) (ir_canonical_payload_len r) (ir_canonical_payload_crc32 r)
    (cm_points (ir_commit r)) (cm_records (ir_commit r)) (default [] (stored_payload c r)) (cm_frame_offset (ir_commit r))
    (cm_bytes_written (ir_commit r)).

Lemma f_read_exact_at_Ok n o f f' b :
  f_read_exact_at n o f = (f', Ok b) -> same_file f' f /\ b = slice (Z.to_nat o) (Z.to_nat (o + n)) (contents f).
Proof.
  intros E. split; [by eapply reading_read|]. revert E. unfold f_read_exact_at, f_call.
  pose proof (next_fault_same f) as [Hc _]. destruct (next_fault f) as [[?|] g]; [done|]. cbn in Hc. rewrite Hc.
  destruct (_ <? _); [done|]. by intros [= _ <-].
Qed.

Lemma compact_identified_Ok e f f' y :
  compact_identified e f = (f', Ok y) -> same_file f' f /\ y = compact_id (contents f) e.
Proof.
  destruct e as [id r]. unfold compact_identified, compact_id, stored_identified.
  intros (p & f1 & E & [= <- <-])%st_bind_Ok. destruct (_ =? 0); [by injection E as <- <-|].
  apply st_bind_Ok in E as (b & f2 & [Hs ->]%f_read_exact_at_Ok & E).
  apply st_bind_Ok in E as (m & f3 & Hm%reading_identified & E).
  destruct (negb m); [unfold st_lift, corruption in E; done|]. injection E as <- <-. split; [by eapply same_file_trans|done].
Qed.

Lemma compact_ingress_Ok r f f' y :
  compact_ingress r f = (f', Ok y) -> same_file f' f /\ y = compact_in (contents f) r.
Proof.
  unfold compact_ingress, compact_in, stored_payload.
  intros (p & f1 & E & [= <- <-])%st_bind_Ok. destruct (_ =? 0); [by injection E as <- <-|].
  apply st_bind_Ok in E as (b & f2 & [Hs ->]%f_read_exact_at_Ok & E).
  apply st_bind_Ok in E as (m & f3 & Hm%reading_ingress & E).
  destruct (negb m); [unfold st_lift, corruption in E; done|]. injection E as <- <-. split; [by eapply same_file_trans|done].
Qed.

Lemma st_map_reading {A B} (g : A -> ST File B) (h : bytes -> A -> B) l :
  (forall x f f' y, g x f = (f', Ok y) -> same_file f' f /\ y = h (contents f) x) ->
  forall f f' ys, st_map g l f = (f', Ok ys) -> same_file f' f /\ ys = map (h (contents f)) l.
Proof.
  intros Hg. induction l as [|x l IH]; intros f f' ys E; cbn in E; [by injection E as <- <-|].
  apply st_bind_Ok in E as (y & f1 & [Hs ->]%Hg & E). apply st_bind_Ok in E as (t & f2 & [Hs' ->]%IH & [= <- <-]).
  split; [by eapply same_file_trans|]. cbn. by destruct Hs as [-> _].
Qed.

Lemma compact_identity_index_Ok s f f' i :
  compact_identity_index s f = (f', Ok i) ->
  same_file f' f
  /\ identified i ≡ₚ map (compact_id (contents f)) (map_to_list (identified_receipts s))
  /\ ingress i ≡ₚ map (compact_in (contents f)) (map_to_list (ingress_receipts s)).*2.
Proof.
  unfold compact_identity_index. intros (ids & f1 & [Hs ->]%(st_map_reading _ _ _ compact_identified_Ok) & E)%st_bind_Ok.
  apply st_bind_Ok in E as (ins & f2 & [Hs' ->]%(st_map_reading _ _ _ compact_ingress_Ok) & [= <- <-]).
  split; [by eapply same_file_trans|]. cbn. rewrite !stable_sort_perm. by destruct Hs as [-> _].
Qed.
End Compact.

(** ** The frames of a compact log *)

Section Frames.
Context `{Crc} `{RecordCodecLaws} `{IndexCodecLaws} `{TimeZones} `{MapOrder}.

(** [f] is the frame of the index [c]. *)
Definition index_frame (c : CompactIdentityIndex) (f : Frame) : Prop :=
  exists p, encoded_identity_index c = Ok p /\ f = mkFrame FRAME_KIND_IDENTITY_INDEX 0 p /\ is_u32 (len p).

(** [f] is the frame of the plain transaction [t]. *)
Definition transaction_frame (t : Transaction) (f : Frame) : Prop :=
  exists p, encode_canonical_transaction t = Ok p /\ f = mkFrame FRAME_KIND_TRANSACTION (record_count t) p
    /\ is_u32 (len p) /\ is_u32 (record_count t).

Lemma index_frame_typed c f : index_frame c f -> typed_frame f.
Proof.
  intros (p & Hp & -> & Hl). split_and!; try done. cbn. revert Hp. unfold encoded_identity_index.
  intros (e & He%ok_or_Ok & <-%Ok_inj)%bind_Ok. apply is_bytes_app. split; [by repeat constructor|by eapply to_stdvec_bytes].
Qed.

Lemma transaction_frame_typed t f : transaction_frame t f -> typed_frame f.
Proof. intros (p & Hp & -> & Hl & Hn). split_and!; try done. by eapply encode_canonical_bytes. Qed.

(** [m] appends the frames [fs]. *)
Definition appended (f f' : File) (fs : list Frame) : Prop := contents f' = contents f ++ frames_bytes fs.

Lemma appended_nil f : appended f f [].
Proof. unfold appended, frames_bytes. cbn. by rewrite app_nil_r. Qed.

Lemma appended_trans f g h a b : appended f g a -> appended g h b -> appended f h (a ++ b).
Proof. unfold appended. intros -> ->. by rewrite frames_bytes_app, app_assoc. Qed.

Lemma appended_frame f f1 f2 k n p c :
  c = hash p -> f_write_all (encode_frame_header k n (len p) c) f = (f1, Ok tt) -> f_write_all p f1 = (f2, Ok tt) ->
  appended f f2 [mkFrame k n p].
Proof.
  intros -> [_ Ha]%f_write_all_spec [_ Hb]%f_write_all_spec. unfold appended. rewrite frames_single, Hb, Ha, <- app_assoc. done.
Qed.

Lemma write_identity_index_frame_Ok i limit f f' :
  write_identity_index_frame i limit f = (f', Ok tt) -> exists fr, index_frame i fr /\ appended f f' [fr].
Proof.
  unfold write_identity_index_frame. intros (p & f1 & Hp & E)%st_bind_Ok. unfold st_lift in Hp. injection Hp as <- Hp.
  apply st_bind_Ok in E as ([] & f2 & Hr & E). unfold st_reject in Hr. destruct (limit <? len p); [done|]. injection Hr as <-.
  apply st_bind_Ok in E as (n & f3 & Hn & E). unfold st_lift in Hn. injection Hn as <- Hn.
  apply ok_or_Ok, u32_try_from_Some in Hn as [-> Hn]. apply st_bind_Ok in E as ([] & f4 & E1 & E2).
  eexists. split; [by exists p|]. by eapply appended_frame.
Qed.

Lemma write_standalone_transaction_Ok t limit f f' :
  tx_commit_id t = None -> write_standalone_transaction t limit f = (f', Ok tt) ->
  exists fr, transaction_frame t fr /\ appended f f' [fr].
Proof.
  intros Hid. unfold write_standalone_transaction. intros (p & f1 & Hp & E)%st_bind_Ok. unfold st_lift in Hp. injection Hp as <- Hp.
  apply encode_transaction_Ok in Hp as (canonical & Hp & ->). rewrite Hid in *. cbn [app] in *.
  apply st_bind_Ok in E as ([] & f2 & Hr & E). unfold st_reject in Hr. destruct (limit <? len canonical); [done|]. injection Hr as <-.
  apply st_bind_Ok in E as (n & f3 & Hn & E). unfold st_lift in Hn. injection Hn as <- Hn.
  apply ok_or_Ok, u32_try_from_Some in Hn as [-> Hn]. apply st_bind_Ok in E as (k & f4 & Hk & E). unfold st_lift in Hk. injection Hk as <- Hk.
  apply ok_or_Ok, u32_try_from_Some in Hk as [-> Hk]. apply st_bind_Ok in E as ([] & f5 & E1 & E2).
  eexists. split; [by exists canonical|]. by eapply appended_frame.
Qed.

(** The chunks written between two states of the loop. *)
Definition chunked (f f' : File) (c c' : Chunk) (ids : list CompactIdentifiedReceipt) (ins : list CompactIngressReceipt) : Prop :=
  exists cs fs, Forall2 index_frame cs fs /\ appended f f' fs
    /\ concat (map identified cs) ++ identified (chunk c') = identified (chunk c) ++ ids
    /\ concat (map ingress cs) ++ ingress (chunk c') = ingress (chunk c) ++ ins.

Lemma chunked_nil f c : chunked f f c c [] [].
Proof. exists [], []. split_and!; [constructor|apply appended_nil|by rewrite app_nil_r..]. Qed.

Lemma chunked_trans f g h a b c ids ids' ins ins' :
  chunked f g a b ids ins -> chunked g h b c ids' ins' -> chunked f h a c (ids ++ ids') (ins ++ ins').
Proof.
  intros (cs & fs & H1' & H2' & H3' & H4') (cs' & fs' & H5' & H6' & H7' & H8'). exists (cs ++ cs'), (fs ++ fs').
  split_and!; [by apply Forall2_app|by eapply appended_trans|..].
  - rewrite map_app, concat_app, <- app_assoc, H7', !app_assoc. by f_equal.
  - rewrite map_app, concat_app, <- app_assoc, H8', !app_assoc. by f_equal.
Qed.

Lemma chunk_receipt_Ok limit msg single add c f f' c' ids ins :
  (forall i, identified (add i) = identified i ++ ids /\ ingress (add i) = ingress i ++ ins) ->
  chunk_receipt limit msg single add c f = (f', Ok c') -> chunked f f' c c' ids ins.
Proof.
  intros Ha. unfold chunk_receipt. intros (e & f1 & Hp & E)%st_bind_Ok. unfold st_lift in Hp. injection Hp as <- Hp.
  apply st_bind_Ok in E as ([] & f2 & Hr & E). unfold st_reject in Hr. destruct (limit <? len e); [done|]. injection Hr as <-.
  apply st_bind_Ok in E as (c1 & f3 & E1 & [= <- <-]). unfold chunked. cbn [chunk]. destruct (Ha (chunk c1)) as [-> ->].
  destruct (_ && _); [|injection E1 as <- <-; exists [], []; split_and!; [constructor|apply appended_nil|done..]].
  apply st_bind_Ok in E1 as ([] & f4 & (fr & Hfr & Hap)%write_identity_index_frame_Ok & [= <- <-]).
  exists [chunk c], [fr]. split_and!; [by repeat constructor|done|cbn; by rewrite app_nil_r..].
Qed.

Lemma chunk_identified_Ok limit l : forall c f f' c',
  chunk_identified limit l c f = (f', Ok c') -> chunked f f' c c' l [].
Proof.
  induction l as [|r l IH]; intros c f f' c' E; cbn in E; [injection E as <- <-; apply chunked_nil|].
  apply st_bind_Ok in E as (c1 & f1 & E1 & E). apply (chunk_receipt_Ok _ _ _ _ _ _ _ _ [r] []) in E1; [|by intros i; rewrite app_nil_r].
  exact (chunked_trans _ _ _ _ _ _ _ _ _ _ E1 (IH _ _ _ _ E)).
Qed.

Lemma chunk_ingress_Ok limit l : forall c f f' c',
  chunk_ingress limit l c f = (f', Ok c') -> chunked f f' c c' [] l.
Proof.
  induction l as [|r l IH]; intros c f f' c' E; cbn in E; [injection E as <- <-; apply chunked_nil|].
  apply st_bind_Ok in E as (c1 & f1 & E1 & E). apply (chunk_receipt_Ok _ _ _ _ _ _ _ _ [] [r]) in E1; [|by intros i; rewrite app_nil_r].
  exact (chunked_trans _ _ _ _ _ _ _ _ _ _ E1 (IH _ _ _ _ E)).
Qed.

(** The index frames together hold the index. *)
Definition index_frames (i : CompactIdentityIndex) (fs : list Frame) : Prop :=
  exists cs, Forall2 index_frame cs fs /\ concat (map identified cs) = identified i /\ concat (map ingress cs) = ingress i.

Lemma write_identity_index_frames_Ok i limit f f' :
  write_identity_index_frames i limit f = (f', Ok tt) -> exists fs, index_frames i fs /\ appended f f' fs.
Proof.
  unfold write_identity_index_frames. intros (c1 & f1 & E1%chunk_identified_Ok & E)%st_bind_Ok.
  apply st_bind_Ok in E as (c2 & f2 & E2%chunk_ingress_Ok & E).
  destruct (chunked_trans _ _ _ _ _ _ _ _ _ _ E1 E2) as (cs & fs & H1' & H2' & H3' & H4'). cbn [chunk chunk_empty identified ingress app] in *.
  rewrite app_nil_r in H3'. destruct (index_is_empty (chunk c2)) eqn:Ee.
  - injection E as <-. exists fs. split; [|done]. exists cs. unfold index_is_empty in Ee.
    destruct (identified (chunk c2)), (ingress (chunk c2)); try done. by rewrite !app_nil_r in *.
  - apply write_identity_index_frame_Ok in E as (fr & Hfr & Hap). exists (fs ++ [fr]). split; [|by eapply appended_trans].
    exists (cs ++ [chunk c2]). rewrite !map_app, !concat_app. cbn. rewrite !app_nil_r. split; [by apply Forall2_app; [|repeat constructor]|done].
Qed.

(** The frame of [t], or none when it has no records. *)
Definition frame_unless_empty (t : Transaction) (fs : list Frame) : Prop :=
  records t = [] /\ fs = [] \/ exists f, fs = [f] /\ transaction_frame t f.

Definition points_transaction (ps : list Point) : Transaction :=
  mkTransaction (match ps with [] => [] | _ => [RPoints ps] end) None None.

(** The frames of a compact log: catalog, receipts, live points. *)
Definition compact_frames (c : Catalog) (i : CompactIdentityIndex) (live : Index) (fs : list Frame) : Prop :=
  exists rs a b t, snapshot_records c = Ok rs /\ fs = a ++ b ++ t /\ frame_unless_empty (mkTransaction rs None None) a
    /\ index_frames i b /\ frame_unless_empty (points_transaction (concat (index_values live))) t.

Lemma write_database_header_Ok f f' :
  write_database_header f = (f', Ok tt) -> contents f' = contents f ++ database_header.
Proof.
  unfold write_database_header. intros ([] & f1 & E1 & E)%st_bind_Ok. unfold f_call in E1.
  pose proof (next_fault_same f) as [Hc _]. destruct (next_fault f) as [[?|] g]; [done|]. injection E1 as <-. cbn in Hc.
  apply st_bind_Ok in E as ([] & f2 & [_ E2]%f_write_all_spec & [E3 _]%f_sync_spec). by rewrite E3, E2, Hc.
Qed.

Lemma write_compact_log_Ok c i live n m f f' :
  contents f = [] -> write_compact_log c i live n m f = (f', Ok tt) ->
  exists fs, compact_frames c i live fs /\ contents f' = database_header ++ frames_bytes fs
    /\ synced f' = length (contents f').
Proof.
  intros Hf. unfold write_compact_log. intros ([] & f1 & E1%write_database_header_Ok & E)%st_bind_Ok. rewrite Hf in E1.
  apply st_bind_Ok in E as (rs & f2 & Hrs & E). unfold st_lift in Hrs. injection Hrs as <- Hrs.
  apply st_bind_Ok in E as ([] & f3 & E3 & E).
  assert (Ha : exists a, frame_unless_empty (mkTransaction rs None None) a /\ appended f1 f3 a).
  { destruct rs as [|r rs]; [injection E3 as <-; exists []; split; [by left|apply appended_nil]|].
    apply write_standalone_transaction_Ok in E3 as (fr & Hfr & Hap); [|done]. exists [fr]. split; [right; by exists fr|done]. }
  apply st_bind_Ok in E as ([] & f4 & E4 & E).
  assert (Hb : exists b, index_frames i b /\ appended f3 f4 b).
  { destruct (index_is_empty i) eqn:Ei.
    - injection E4 as <-. exists []. split; [|apply appended_nil]. exists []. unfold index_is_empty in Ei.
      by destruct (identified i), (ingress i).
    - by apply write_identity_index_frames_Ok in E4. }
  apply st_bind_Ok in E as ([] & f5 & E5 & E). unfold st_reject in E5. destruct (_ <? _); [done|]. injection E5 as <-.
  apply st_bind_Ok in E as ([] & f6 & E6 & E).
  assert (Ht : exists t, frame_unless_empty (points_transaction (concat (index_values live))) t /\ appended f4 f6 t).
  { destruct (concat (index_values live)) as [|p ps]; [injection E6 as <-; exists []; split; [by left|apply appended_nil]|].
    apply write_standalone_transaction_Ok in E6 as (fr & Hfr & Hap); [|done]. exists [fr]. split; [right; by exists fr|done]. }
  apply f_sync_spec in E as [Ec Es]. destruct Ha as (a & Ha & Ha'), Hb as (b & Hb & Hb'), Ht as (t & Ht & Ht').
  exists (a ++ b ++ t). split; [by exists rs, a, b, t|]. rewrite Es, Ec. split; [|done].
  pose proof (appended_trans _ _ _ _ _ Ha' (appended_trans _ _ _ _ _ Hb' Ht')) as Hall. unfold appended in Hall.
  by rewrite Hall, E1.
Qed.

Lemma compact_frames_typed c i live fs : compact_frames c i live fs -> Forall typed_frame fs.
Proof.
  intros (rs & a & b & t & _ & -> & Ha & (cs & Hcs & _) & Ht).
  assert (Hu : forall t l, frame_unless_empty t l -> Forall typed_frame l).
  { intros ? l [[_ ->]|(fr & -> & Hfr)]; [done|]. by repeat constructor; eapply transaction_frame_typed. }
  rewrite !Forall_app. split_and!; [by eapply Hu| |by eapply Hu].
  induction Hcs as [|? ? ? ? Hx _ IH]; [by constructor|]. constructor; [by eapply index_frame_typed|exact IH].
Qed.
End Frames.

(** ** Scanning exactly the frames that were written *)

Section Scanned.
Context `{Crc} `{RecordCodecLaws} `{IndexCodec} `{TimeZones}.

Lemma scan_all_frames cfg fs : forall fuel offset s,
  Forall typed_frame fs -> (length (frames_bytes fs) < fuel)%nat ->
  match replay_frames cfg offset fs s with
  | (s', Ok _) => exists o, scan_frames fuel cfg (frames_bytes fs) offset s = (s', o, EndOfLog)
  | (_, Err _) => exists s' o e, scan_frames fuel cfg (frames_bytes fs) offset s = (s', o, EndError e)
  end.
Proof.
  induction fs as [|f fs IH]; intros fuel offset s Ht Hf; (destruct fuel as [|fuel]; [lia|]); [by exists offset|].
  apply Forall_cons in Ht as [Hty Ht]. rewrite frames_bytes_cons, length_app, length_frame_bytes in Hf.
  rewrite frames_bytes_cons, scan_frame_step by done. cbn [replay_frames]. unfold st_bind.
  destruct (replay_frame cfg offset f s) as [s1 [[]|e]]; [|by eexists _, _, _]. apply IH; [done|lia].
Qed.

Lemma scan_log_frames cfg f f' fs scan :
  contents f = database_header ++ frames_bytes fs -> Forall typed_frame fs ->
  scan_log cfg (Recover false) f = (f', Ok scan) ->
  exists s, replay_frames cfg 16 fs init_scan = (s, Ok tt) /\ scan_state scan = sort_index (log s) /\ same_file f' f.
Proof.
  intros Hc Ht. unfold scan_log, f_read_all, f_call, st_bind. pose proof (next_fault_same f) as Hn.
  destruct (next_fault f) as [[?|] f1]; [done|]. cbn in Hn. destruct Hn as [Hn1 Hn2]. unfold st_lift. rewrite Hn1, Hc.
  rewrite check_database_header_ok. unfold scan_file.
  replace (drop DATABASE_HEADER_BYTES (database_header ++ frames_bytes fs)) with (frames_bytes fs)
    by (symmetry; apply drop_app_length'; by rewrite length_database_header).
  pose proof (scan_all_frames cfg fs (S (length (database_header ++ frames_bytes fs))) 16 init_scan Ht
    ltac:(rewrite length_app; lia)) as Hs. change (mkScanState LogState_empty None) with init_scan.
  destruct (replay_frames cfg 16 fs init_scan) as [s [[]|e]].
  - destruct Hs as [o ->]. intros [= <- <-]. exists s. split_and!; try done.
  - destruct Hs as (s' & o & e' & ->). done.
Qed.
End Scanned.

(** ** What the index frames rebuild *)

Section Rebuilt.
Context `{Crc} `{RecordCodecLaws} `{IndexCodecLaws} `{TimeZones}.

Definition some_bytes (p : bytes) : option bytes := match p with [] => None | _ => Some p end.

Lemma default_some_bytes p : default [] (some_bytes p) = p.
Proof. by destruct p. Qed.

(** The receipts the scan makes of compact ones. *)
Definition identified_of (offset : Z) (y : CompactIdentifiedReceipt) : StoredIdentifiedReceipt :=
  mkIdentifiedReceipt 0 (cid_payload_len y) (cid_payload_crc32 y) (some_bytes (cid_payload y))
    (mkCommit offset (cid_points y) (cid_records y) 0 false false).
Definition ingress_of (y : CompactIngressReceipt) : StoredIngressReceipt :=
  mkIngressReceipt (mkIdentity (cin_source_id y) (cin_sequence y) (cin_commit_id y)) 0 (cin_canonical_payload_len y)
    (cin_canonical_payload_crc32 y) (some_bytes (cin_canonical_payload y))
    (mkCommit (cin_frame_offset y) (cin_points y) (cin_records y) (cin_bytes_written y) false false).
(** An identified receipt without the place of its frame. *)
Definition unplaced (r : StoredIdentifiedReceipt) : StoredIdentifiedReceipt :=
  mkIdentifiedReceipt (dr_payload_offset r) (dr_payload_len r) (dr_payload_crc32 r) (dr_compact_payload r)
    (mkCommit 0 (cm_points (dr_commit r)) (cm_records (dr_commit r)) (cm_bytes_written (dr_commit r))
       (cm_durable (dr_commit r)) (cm_deduplicated (dr_commit r))).

(** The part of the state that receipts do not touch. *)
Definition same_data (s s' : LogState) : Prop := index s' = index s /\ catalog s' = catalog s /\ pending_reclaim s' = pending_reclaim s.

(** The receipts of [s] are those of the compact lists. *)
Record holds (ids : list CompactIdentifiedReceipt) (ins : list CompactIngressReceipt) (s : LogState) : Prop := {
  ho_wf : wf_log s;
  ho_identified : forall id v, unplaced <$> identified_receipts s !! id = Some v <->
    exists y, y ∈ ids /\ cid_commit_id y = id /\ identified_of 0 y = v;
  ho_ingress : forall k v, ingress_receipts s !! k = Some v <->
    exists y, y ∈ ins /\ key_of (ir_identity (ingress_of y)) = k /\ ingress_of y = v;
}.

Lemma usize_Ok z e n : ok_or (usize_try_from z) e = Ok n -> n = z.
Proof. unfold usize_try_from. destruct (_ <=? _); by intros [= <-]. Qed.

Lemma apply_compact_identified_holds offset y s s' ids ins :
  apply_compact_identified offset y s = (s', Ok tt) -> holds ids ins (log s) ->
  holds (ids ++ [y]) ins (log s') /\ same_data (log s) (log s').
Proof.
  intros E [Hw Hid Hin]. pose proof (apply_compact_identified_evolves _ _ _ _ E) as [_ Hw']. specialize (Hw' Hw).
  revert E. unfold apply_compact_identified. intros ([] & s1 & [-> _]%stop_if_Ok & E)%st_bind_Ok.
  apply st_bind_Ok in E as (pn & s2 & [-> Hpn%usize_Ok]%halt_on_Ok & E).
  apply st_bind_Ok in E as (rn & s3 & [-> Hrn%usize_Ok]%halt_on_Ok & E).
  apply st_bind_Ok in E as (cp & s4 & Hcp & E).
  assert (s4 = s /\ cp = some_bytes (cid_payload y)) as [-> ->].
  { destruct (cid_payload y); [by injection Hcp as <- <-|].
    apply st_bind_Ok in Hcp as ([] & s5 & [-> _]%stop_if_Ok & Hcp).
    apply st_bind_Ok in Hcp as ([] & s6 & [-> _]%halt_on_Ok & [= <- <-]). done. }
  apply st_bind_Ok in E as ([] & s5 & [Hnew Hlog]%insert_commit_id_Ok & [= <-]). cbn [log] in *. rewrite Hlog in *. subst pn rn.
  split; [|done]. split; [done| |done]. cbn [identified_receipts insert_identified add_commit_id set_commit_ids].
  assert (Hn : identified_receipts (log s) !! cid_commit_id y = None).
  { destruct (identified_receipts (log s) !! cid_commit_id y) eqn:E; [|done]. exfalso. apply Hnew.
    apply (wi_ids _ (proj2 (proj2 Hw))). left. by rewrite E. }
  intros id v. setoid_rewrite elem_of_app. setoid_rewrite list_elem_of_singleton.
  destruct (decide (id = cid_commit_id y)) as [->|Hne].
  - rewrite lookup_insert_eq. cbn. split.
    + intros [= <-]. exists y. split; [by right|done].
    + intros (y' & [Hy'| ->] & Ey & <-); [|done]. exfalso.
      assert (Hs : unplaced <$> identified_receipts (log s) !! cid_commit_id y = Some (identified_of 0 y')) by (apply Hid; eauto).
      by rewrite Hn in Hs.
  - rewrite lookup_insert_ne by done. rewrite Hid. split; [intros (y' & ? & ?); exists y'; split; [by left|done]|].
    intros (y' & [Hy'| ->] & Ey & <-); [eauto|congruence].
Qed.

Lemma apply_compact_ingress_holds offset y s s' ids ins :
  apply_compact_ingress offset y s = (s', Ok tt) -> holds ids ins (log s) ->
  holds ids (ins ++ [y]) (log s') /\ same_data (log s) (log s').
Proof.
  intros E [Hw Hid Hin]. pose proof (apply_compact_ingress_evolves _ _ _ _ E) as [_ Hw']. specialize (Hw' Hw).
  revert E. unfold apply_compact_ingress. intros ([] & s1 & [-> _]%stop_if_Ok & E)%st_bind_Ok.
  apply st_bind_Ok in E as (pn & s2 & [-> Hpn%usize_Ok]%halt_on_Ok & E).
  apply st_bind_Ok in E as (rn & s3 & [-> Hrn%usize_Ok]%halt_on_Ok & E).
  apply st_bind_Ok in E as (cp & s4 & Hcp & E).
  assert (s4 = s /\ cp = some_bytes (cin_canonical_payload y)) as [-> ->].
  { destruct (cin_canonical_payload y); [by injection Hcp as <- <-|].
    apply st_bind_Ok in Hcp as ([] & s5 & [-> _]%stop_if_Ok & Hcp).
    apply st_bind_Ok in Hcp as ([] & s6 & [-> _]%halt_on_Ok & [= <- <-]). done. }
  apply st_bind_Ok in E as ([] & s5 & [Had Hlog]%check_ingress_identity_Ok & [= <-]). cbn [log] in *. rewrite Hlog in *. subst pn rn.
  split; [|done]. split; [done|done|]. destruct Had as (_ & Hn & _).
  cbn [ingress_receipts insert_ingress add_commit_id set_commit_ids].
  intros k v. setoid_rewrite elem_of_app. setoid_rewrite list_elem_of_singleton.
  destruct (decide (k = key_of (ir_identity (ingress_of y)))) as [->|Hne].
  - rewrite lookup_insert_eq. split.
    + intros [= <-]. exists y. split; [by right|done].
    + intros (y' & [Hy'| ->] & Ey & <-); [|done]. exfalso.
      assert (Hs : ingress_receipts (log s) !! key_of (ir_identity (ingress_of y)) = Some (ingress_of y')) by (apply Hin; eauto).
      cbn in Hn, Hs. by rewrite Hn in Hs.
  - rewrite lookup_insert_ne by done. rewrite Hin. split; [intros (y' & ? & ?); exists y'; split; [by left|done]|].
    intros (y' & [Hy'| ->] & Ey & <-); [eauto|congruence].
Qed.

Lemma same_data_chain a b c : same_data a b -> same_data b c -> same_data a c.
Proof. unfold same_data. intuition congruence. Qed.

Lemma for_each_identified offset l : forall s s' ids ins,
  st_for_each (apply_compact_identified offset) l s = (s', Ok tt) -> holds ids ins (log s) ->
  holds (ids ++ l) ins (log s') /\ same_data (log s) (log s').
Proof.
  induction l as [|y l IH]; intros s s' ids ins E Hh; cbn in E; [injection E as <-; by rewrite app_nil_r|].
  apply st_bind_Ok in E as ([] & s1 & E1 & E2). destruct (apply_compact_identified_holds _ _ _ _ _ _ E1 Hh) as [Hh1 Hs1].
  destruct (IH _ _ _ _ E2 Hh1) as [Hh2 Hs2]. rewrite <- app_assoc in Hh2. split; [done|by eapply same_data_chain].
Qed.

Lemma for_each_ingress offset l : forall s s' ids ins,
  st_for_each (apply_compact_ingress offset) l s = (s', Ok tt) -> holds ids ins (log s) ->
  holds ids (ins ++ l) (log s') /\ same_data (log s) (log s').
Proof.
  induction l as [|y l IH]; intros s s' ids ins E Hh; cbn in E; [injection E as <-; by rewrite app_nil_r|].
  apply st_bind_Ok in E as ([] & s1 & E1 & E2). destruct (apply_compact_ingress_holds _ _ _ _ _ _ E1 Hh) as [Hh1 Hs1].
  destruct (IH _ _ _ _ E2 Hh1) as [Hh2 Hs2]. rewrite <- app_assoc in Hh2. split; [done|by eapply same_data_chain].
Qed.

Lemma holds_data ids ins s s' :
  wf_log s' -> ingress_receipts s' = ingress_receipts s -> identified_receipts s' = identified_receipts s ->
  holds ids ins s -> holds ids ins s'.
Proof. intros Hw E1 E2 []. split; rewrite ?E1, ?E2; done. Qed.

(** A frame whose replay succeeded. *)
Lemma replay_frame_inv cfg offset f s s' :
  replay_frame cfg offset f s = (s', Ok tt) ->
  exists s1, apply_payload cfg offset (mkFrameHeader (fr_kind f) (fr_items f) (len (fr_payload f)) (hash (fr_payload f)))
      (fr_payload f) s = (s1, Ok tt)
    /\ log s' = set_commits (commits (log s1) + 1) (log s1).
Proof.
  intros E. pose proof (replay_frame_check _ _ _ _ _ E) as Hc. revert E. unfold replay_frame, st_bind. rewrite Hc.
  destruct (apply_payload _ _ _ _ s) as [s1 [[]|e]]; [|done]. intros [= <-]. by exists s1.
Qed.

Lemma replay_index_frame cfg offset c f s s' ids ins :
  typed_identity_index c -> index_frame c f -> replay_frame cfg offset f s = (s', Ok tt) -> holds ids ins (log s) ->
  holds (ids ++ identified c) (ins ++ ingress c) (log s') /\ same_data (log s) (log s').
Proof.
  intros Ht (p & Hp & -> & _) E Hh. pose proof (replay_frame_evolves _ _ _ _ _ E) as [_ Hw]. specialize (Hw (ho_wf _ _ _ Hh)).
  apply replay_frame_inv in E as (s1 & E & Hlog). cbn [fr_kind fr_items fr_payload] in E.
  change (apply_identity_index p offset s = (s1, Ok tt)) in E. revert E. unfold apply_identity_index.
  rewrite (decode_encoded_identity_index c p offset Ht Hp). intros (i & s2 & [-> [= <-]]%halt_on_Ok & E)%st_bind_Ok.
  apply st_bind_Ok in E as ([] & s3 & E1 & E2). destruct (for_each_identified _ _ _ _ _ _ E1 Hh) as [Hh1 Hs1].
  destruct (for_each_ingress _ _ _ _ _ _ E2 Hh1) as [Hh2 Hs2]. pose proof (same_data_chain _ _ _ Hs1 Hs2) as Hs.
  rewrite Hlog in *. split; [|done]. by apply (holds_data _ _ (log s1)).
Qed.

Lemma replay_index_frames cfg cs fs : Forall2 index_frame cs fs ->
  Forall typed_identity_index cs -> forall offset s s' ids ins,
  replay_frames cfg offset fs s = (s', Ok tt) -> holds ids ins (log s) ->
  holds (ids ++ concat (map identified cs)) (ins ++ concat (map ingress cs)) (log s') /\ same_data (log s) (log s').
Proof.
  induction 1 as [|c f cs fs Hf _ IH]; intros Ht offset s s' ids ins E Hh; cbn in E.
  - injection E as <-. cbn. by rewrite !app_nil_r.
  - apply Forall_cons in Ht as [Htc Ht]. apply st_bind_Ok in E as ([] & s1 & E1 & E2).
    destruct (replay_index_frame _ _ _ _ _ _ _ _ Htc Hf E1 Hh) as [Hh1 Hs1].
    destruct (IH Ht _ _ _ _ _ E2 Hh1) as [Hh2 Hs2]. cbn. rewrite <- !app_assoc in Hh2. split; [done|by eapply same_data_chain].
Qed.

(** The transaction frames around them. *)
Lemma replay_transaction_inv cfg offset t f s s' ids ins :
  Forall typed_record (records t) -> transaction_frame t f -> replay_frame cfg offset f s = (s', Ok tt) ->
  holds ids ins (log s) ->
  holds ids ins (log s') /\ pending_reclaim (log s') = pending_reclaim (log s)
  /\ index (log s') = foldl push_indexed_point (index (log s)) (records_points (records t))
  /\ exists c, apply_records (catalog (log s)) (records t) = Ok c /\ catalog (log s') = default (catalog (log s)) c.
Proof.
  intros Ht (p & Hp & -> & Hl & _) E Hh. pose proof (replay_frame_evolves _ _ _ _ _ E) as [_ Hw]. specialize (Hw (ho_wf _ _ _ Hh)).
  apply replay_frame_inv in E as (s1 & E & Hlog). cbn [fr_kind fr_items fr_payload] in E.
  change ((let* _ := apply_records_frame cfg offset p (record_count t) in st_ret tt) s = (s1, Ok tt)) in E.
  apply st_bind_Ok in E as (rs & s2 & E & [= ->]). revert E. unfold apply_records_frame.
  rewrite (decode_encode_transaction t p offset) by (done || (unfold is_u32, is_u64 in *; lia)).
  intros (rs' & s3 & [-> [= <-]]%halt_on_Ok & E)%st_bind_Ok. apply st_bind_Ok in E as (u & s4 & [= -> ->] & E).
  apply st_bind_Ok in E as (c & s5 & [-> Hc]%halt_on_Ok & E). apply st_bind_Ok in E as ([] & s6 & [= <-] & E).
  apply st_bind_Ok in E as ([] & s7 & [-> _]%stop_if_Ok & E). apply st_bind_Ok in E as ([] & s8 & [= <-] & [= <- <-]).
  cbn [log] in Hlog. rewrite replay_records_fold in Hlog. rewrite Hlog in *. cbn. split_and!; try done.
  - by apply (holds_data _ _ (log u)).
  - revert Hc. unfold apply_recovered. destruct (apply_records _ _) as [[x|]|]; intros [= <-]; by eexists.
Qed.
End Rebuilt.

(** ** The live points *)

Section Points.
Context `{MapOrder}.

Lemma pushed_series ps : forall m k,
  series_points (foldl push_indexed_point m ps) k = series_points m k ++ List.filter (fun p => series p =? k) ps.
Proof.
  induction ps as [|p ps IH]; intros m k; cbn [foldl List.filter]; [by rewrite app_nil_r|]. rewrite IH.
  unfold push_indexed_point, series_points. destruct (Z.eqb_spec (series p) k) as [<-|Hne].
  - rewrite lookup_insert_eq. cbn. by rewrite <- app_assoc.
  - by rewrite lookup_insert_ne.
Qed.

Lemma filter_concat_nil {A} (f : A -> bool) (ls : list (list A)) :
  (forall l x, l ∈ ls -> x ∈ l -> f x = false) -> List.filter f (concat ls) = [].
Proof.
  intros Hf. induction ls as [|l ls IH]; [done|]. cbn. rewrite List.filter_app, IH by (intros; eapply Hf; [by right|done]).
  rewrite app_nil_r. assert (Hl : forall x, x ∈ l -> f x = false) by (intros; eapply Hf; [left|done]).
  clear -Hl. induction l as [|x l IH]; [done|]. cbn. rewrite Hl by left. apply IH. intros. apply Hl. by right.
Qed.

Lemma filter_true {A} (f : A -> bool) l : Forall (fun x => f x = true) l -> List.filter f l = l.
Proof. induction 1 as [|x l Hx _ IH]; [done|]. cbn. by rewrite Hx, IH. Qed.

(** Visited in any order, the points of a series stay in theirs. *)
Lemma live_series (m : Index) k :
  index_keyed m -> List.filter (fun p => series p =? k) (concat (index_values m)) = series_points m k.
Proof.
  intros Hk. pose proof (index_values_perm m) as Hp. unfold series_points.
  assert (Hother : forall l x, l ∈ (map_to_list (delete k m)).*2 -> x ∈ l -> (series x =? k) = false).
  { intros l x Hl Hx. apply list_elem_of_fmap in Hl as ([j l'] & -> & Hj%elem_of_map_to_list).
    apply lookup_delete_Some in Hj as [Hne Hj]. specialize (Hk _ _ Hj). rewrite Forall_forall in Hk.
    apply Z.eqb_neq. rewrite (Hk x Hx). done. }
  destruct (m !! k) as [l|] eqn:E; cbn.
  - assert (Hp' : index_values m ≡ₚ l :: (map_to_list (delete k m)).*2).
    { rewrite Hp. by rewrite <- (map_to_list_delete m k l E). }
    assert (Hin : l ∈ index_values m) by (rewrite Hp'; left). apply list_elem_of_split in Hin as (a & b & Eab).
    rewrite Eab in Hp'. symmetry in Hp'. apply Permutation_cons_app_inv in Hp' as Hr.
    rewrite Eab, concat_app, List.filter_app. cbn. rewrite List.filter_app.
    rewrite (filter_concat_nil _ a), (filter_concat_nil _ b), app_nil_r; cbn.
    + apply filter_true. eapply Forall_impl; [by eapply Hk|]. intros x <-. apply Z.eqb_refl.
    + intros l' x Hl' Hx. apply (Hother l'); [|done]. rewrite Hr. apply elem_of_app. by right.
    + intros l' x Hl' Hx. apply (Hother l'); [|done]. rewrite Hr. apply elem_of_app. by left.
  - apply filter_concat_nil. intros l x Hl Hx. apply (Hother l); [|done]. rewrite delete_id by done. by rewrite <- Hp.
Qed.

Lemma live_rebuilt (m : Index) k :
  wf_index m -> series_points (sort_series <$> foldl push_indexed_point ∅ (concat (index_values m))) k = series_points m k.
Proof.
  intros [Hs Hk]. pose proof (pushed_series (concat (index_values m)) ∅ k) as E. rewrite live_series in E by done.
  unfold series_points in *. rewrite lookup_empty in E. cbn in E. rewrite lookup_fmap.
  destruct (foldl _ _ _ !! k) as [l|]; cbn in *; [|exact E]. rewrite E. apply stable_sort_sorted_id.
  destruct (m !! k) eqn:Em; cbn; [by eapply Hs|constructor].
Qed.
End Points.

(** ** The reclaimed handle *)

Section Reclaimed.
Context `{Crc} `{RecordCodecLaws} `{IndexCodecLaws} `{TimeZones} `{MapOrder} {Seg : Type}.
Abbreviation Db := (Database Seg).

Definition typed_catalog (c : Catalog) : Prop :=
  map_Forall (fun _ => typed_entity) (entities c) /\ map_Forall (fun _ => typed_relation) (relations c)
  /\ map_Forall (fun _ => typed_series) (series_map c) /\ map_Forall (fun _ => typed_run) (runs c)
  /\ map_Forall (fun _ => typed_plan) (plans c).

Lemma snapshot_typed c rs : typed_catalog c -> snapshot_records c = Ok rs -> Forall typed_record rs.
Proof.
  intros (T1 & T2 & T3 & T4 & T5). unfold snapshot_records. intros ([] & _ & E)%bind_Ok.
  apply bind_Ok in E as (es & _ & E). apply bind_Ok in E as (rs' & _ & E). apply bind_Ok in E as (ps & _ & <-%Ok_inj).
  rewrite !Forall_app. split_and!; apply Forall_fmap; apply Forall_forall; intros x Hx.
  - apply elem_of_lookup_all in Hx as (k & _ & Hk). exact (T1 k x Hk).
  - apply elem_of_btree_values in Hx as (k & Hk). exact (T2 k x Hk).
  - apply elem_of_btree_values in Hx as (k & Hk). exact (T3 k x Hk).
  - apply elem_of_lookup_all in Hx as (k & _ & Hk). exact (T4 k x Hk).
  - apply elem_of_lookup_all in Hx as (k & _ & Hk). exact (T5 k x Hk).
Qed.

#[export] Instance typed_property_dec v : Decision (typed_property v).
Proof. destruct v; cbn; apply _. Defined.
#[export] Instance typed_properties_dec m : Decision (typed_properties m).
Proof. unfold typed_properties. apply _. Defined.
#[export] Instance typed_opt_dec P o : (forall z, Decision (P z)) -> Decision (typed_opt P o).
Proof. intros. destruct o; cbn; apply _. Defined.
#[export] Instance typed_resolution_dec r : Decision (typed_resolution r).
Proof. destruct r; cbn; apply _. Defined.
#[export] Instance typed_catalog_dec c : Decision (typed_catalog c).
Proof. unfold typed_catalog, typed_entity, typed_relation, typed_series, typed_tier, typed_run, typed_plan. apply _. Defined.

(** The state fits the machine types of its fields; [c] is the log. *)
Record typed_log (c : bytes) (s : LogState) : Prop := {
  ty_catalog : typed_catalog (catalog s);
  ty_points : map_Forall (fun _ => Forall typed_point) (index s);
  ty_identified : forall id r, identified_receipts s !! id = Some r -> typed_compact_identified (compact_id c (id, r));
  ty_ingress : forall k r, ingress_receipts s !! k = Some r -> typed_compact_ingress (compact_in c r);
}.

#[export] Instance typed_point_dec p : Decision (typed_point p).
Proof. unfold typed_point. apply _. Defined.
#[export] Instance typed_compact_identified_dec y : Decision (typed_compact_identified y).
Proof. unfold typed_compact_identified. apply _. Defined.
#[export] Instance typed_compact_ingress_dec y : Decision (typed_compact_ingress y).
Proof. unfold typed_compact_ingress. apply _. Defined.
#[export] Instance typed_log_dec c s : Decision (typed_log c s).
Proof.
  destruct (decide (typed_catalog (catalog s) /\ map_Forall (fun _ => Forall typed_point) (index s)
    /\ map_Forall (fun id r => typed_compact_identified (compact_id c (id, r))) (identified_receipts s)
    /\ map_Forall (fun _ r => typed_compact_ingress (compact_in c r)) (ingress_receipts s))) as [Ht|Hn].
  - left. abstract (destruct Ht as (T1 & T2 & T3 & T4); by split).
  - right. abstract (by intros []; apply Hn).
Defined.

Lemma live_typed (m : Index) : map_Forall (fun _ => Forall typed_point) m -> Forall typed_point (concat (index_values m)).
Proof.
  intros Hm. apply Forall_concat. rewrite index_values_perm. apply Forall_fmap, Forall_forall. intros [k l] Hl%elem_of_map_to_list.
  exact (Hm k l Hl).
Qed.

Lemma holds_empty : holds [] [] LogState_empty.
Proof.
  split; [apply wf_log_empty|..]; intros k v; cbn; rewrite lookup_empty; cbn; split; try done; by intros (y & Hy%elem_of_nil & _).
Qed.

Lemma index_chunks_typed c (s : LogState) i cs :
  typed_log c s -> identified i ≡ₚ map (compact_id c) (map_to_list (identified_receipts s)) ->
  ingress i ≡ₚ map (compact_in c) (map_to_list (ingress_receipts s)).*2 ->
  concat (map identified cs) = identified i -> concat (map ingress cs) = ingress i -> Forall typed_identity_index cs.
Proof.
  intros Ht Hi1 Hi2 E1 E2. apply Forall_forall. intros x Hx.
  assert (T1 : Forall typed_compact_identified (identified i)).
  { rewrite Hi1. apply Forall_fmap, Forall_forall. intros [id r] Hr%elem_of_map_to_list. by apply (ty_identified _ _ Ht). }
  assert (T2 : Forall typed_compact_ingress (ingress i)).
  { rewrite Hi2. apply Forall_fmap, Forall_fmap, Forall_forall. intros [k r] Hr%elem_of_map_to_list. by apply (ty_ingress _ _ Ht k). }
  rewrite <- E1, Forall_concat in T1. rewrite <- E2, Forall_concat in T2.
  split; [eapply (proj1 (Forall_forall _ _) T1)|eapply (proj1 (Forall_forall _ _) T2)]; by apply list_elem_of_fmap_2.
Qed.

Lemma no_points_of rs : (forall r, r ∈ rs -> is_points r = false) -> records_points rs = [].
Proof.
  induction rs as [|r rs IH]; intros Hn; [done|]. unfold records_points in *. cbn. rewrite IH by (intros; apply Hn; by right).
  specialize (Hn r ltac:(left)). by destruct r.
Qed.

(** Replaying a compact log rebuilds catalog, receipts and live points. *)
Lemma compact_log_rebuilds cfg c (s0 : LogState) i fs s :
  wf_catalog (catalog s0) -> typed_log c s0 ->
  identified i ≡ₚ map (compact_id c) (map_to_list (identified_receipts s0)) ->
  ingress i ≡ₚ map (compact_in c) (map_to_list (ingress_receipts s0)).*2 ->
  compact_frames (catalog s0) i (index s0) fs -> replay_frames cfg 16 fs init_scan = (s, Ok tt) ->
  holds (identified i) (ingress i) (log s) /\ catalog (log s) = catalog s0 /\ pending_reclaim (log s) = false
  /\ index (log s) = foldl push_indexed_point ∅ (concat (index_values (index s0))).
Proof.
  intros Hwc Ht Hi1 Hi2 (rs & a & b & t & Hrs & -> & Ha & (cs & Hcs & E1 & E2) & Htl) Hr.
  rewrite replay_frames_app in Hr. apply st_bind_Ok in Hr as ([] & s1 & Hr1 & Hr).
  rewrite replay_frames_app in Hr. apply st_bind_Ok in Hr as ([] & s2 & Hr2 & Hr3).
  pose proof (snapshot_typed _ _ (ty_catalog _ _ Ht) Hrs) as Htr.
  destruct (snapshot_replay _ Hwc) as (rs' & Hrs' & Hfold & Hnp). rewrite Hrs in Hrs'. injection Hrs' as <-.
  assert (H1' : holds [] [] (log s1) /\ catalog (log s1) = catalog s0 /\ pending_reclaim (log s1) = false /\ index (log s1) = ∅).
  { destruct Ha as [[Hn ->]|(f & -> & Hf)].
    - injection Hr1 as <-. cbn in Hn. subst rs. injection Hfold as <-. split; [apply holds_empty|done].
    - cbn in Hr1. apply st_bind_Ok in Hr1 as ([] & s1' & Hr1 & [= <-]).
      destruct (replay_transaction_inv _ _ (mkTransaction rs None None) _ _ _ _ _ Htr Hf Hr1 holds_empty) as (Hh & Hpe & Hix & x & Hx & Hcat).
      split; [done|]. cbn in Hcat, Hx, Hpe. split_and!; [|done|].
      + revert Hx. unfold apply_records. cbn [records].
        assert (Hv : validate_and_apply Catalog_default rs = Ok (catalog s0)).
        { destruct (snapshot_records_roundtrip _ Hwc) as (rs' & Hrs' & Hv). rewrite Hrs in Hrs'. by injection Hrs' as <-. }
        destruct (forallb is_points rs) eqn:Ef.
        * destruct rs as [|r rs]; [intros [= <-]; cbn in Hcat; rewrite Hcat; by injection Hfold|].
          exfalso. cbn in Ef. rewrite (Hnp r) in Ef by left. done.
        * rewrite Hv. intros [= <-]. done.
      + rewrite Hix. cbn [records]. by rewrite (no_points_of rs Hnp). }
  destruct H1' as (Hh1 & Hc1 & Hp1 & Hx1).
  destruct (replay_index_frames _ _ _ Hcs (index_chunks_typed _ _ _ _ Ht Hi1 Hi2 E1 E2) _ _ _ _ _ Hr2 Hh1) as [Hh2 (Hx2 & Hc2 & Hp2)].
  cbn [app] in Hh2. rewrite E1, E2 in Hh2. pose proof (live_typed _ (ty_points _ _ Ht)) as Htp.
  destruct Htl as [[Hn ->]|(f & -> & Hf)].
  - injection Hr3 as <-. split; [done|]. rewrite Hc2, Hp2, Hx2. split_and!; try done. rewrite Hx1.
    by destruct (concat (index_values (index s0))).
  - cbn in Hr3. apply st_bind_Ok in Hr3 as ([] & s3 & Hr3 & [= <-]).
    set (ps := concat (index_values (index s0))) in *.
    assert (Hty : Forall typed_record (records (points_transaction ps))).
    { unfold points_transaction. cbn. destruct ps; constructor; [done|constructor]. }
    destruct (replay_transaction_inv _ _ _ _ _ _ _ _ Hty Hf Hr3 Hh2) as (Hh & Hpe & Hix & x & Hx & Hcat).
    split; [done|]. assert (Hx0 : x = None).
    { revert Hx. unfold points_transaction, apply_records. cbn. destruct ps; cbn; [by intros [= <-]|].
      by intros ([] & _ & [= <-])%bind_Ok. }
    rewrite Hcat, Hpe, Hix, Hx0, Hx2, Hx1. cbn [default]. split_and!; [congruence|congruence|]. f_equal.
    unfold points_transaction, records_points. cbn. destruct ps; [done|]. cbn. by rewrite app_nil_r.
Qed.

(** ** What is kept *)

Definition same_ingress (c c' : bytes) (r r' : StoredIngressReceipt) : Prop :=
  ir_identity r' = ir_identity r /\ ir_canonical_payload_len r' = ir_canonical_payload_len r
  /\ ir_canonical_payload_crc32 r' = ir_canonical_payload_crc32 r
  /\ default [] (stored_payload c' r') = default [] (stored_payload c r)
  /\ ir_commit r' = mkCommit (cm_frame_offset (ir_commit r)) (cm_points (ir_commit r)) (cm_records (ir_commit r))
                       (cm_bytes_written (ir_commit r)) true false.

Definition same_identified (c c' : bytes) (r r' : StoredIdentifiedReceipt) : Prop :=
  dr_payload_len r' = dr_payload_len r /\ dr_payload_crc32 r' = dr_payload_crc32 r
  /\ default [] (stored_identified c' r') = default [] (stored_identified c r)
  /\ cm_points (dr_commit r') = cm_points (dr_commit r) /\ cm_records (dr_commit r') = cm_records (dr_commit r).

Record kept (c c' : bytes) (s s' : LogState) : Prop := {
  kp_catalog : catalog s' = catalog s;
  kp_points : forall k, series_points (index s') k = series_points (index s) k;
  kp_ingress : forall k, option_Forall2 (same_ingress c c') (ingress_receipts s !! k) (ingress_receipts s' !! k);
  kp_identified : forall id, option_Forall2 (same_identified c c') (identified_receipts s !! id) (identified_receipts s' !! id);
  kp_last : ingress_last_sequences s' = ingress_last_sequences s;
  kp_commit : ingress_commit_ids s' = ingress_commit_ids s;
  kp_ids : commit_ids s' = commit_ids s;
}.

(** Cursors and identifiers follow from the receipts. *)
Lemma receipts_determine s s' :
  wf_ingress s -> wf_ingress s' ->
  (forall k, option_Forall2 (fun r r' => ir_identity r' = ir_identity r) (ingress_receipts s !! k) (ingress_receipts s' !! k)) ->
  (forall id, is_Some (identified_receipts s !! id) <-> is_Some (identified_receipts s' !! id)) ->
  ingress_last_sequences s' = ingress_last_sequences s /\ ingress_commit_ids s' = ingress_commit_ids s /\ commit_ids s' = commit_ids s.
Proof.
  intros W W' Hi Hd.
  assert (Hsome : forall k, is_Some (ingress_receipts s !! k) <-> is_Some (ingress_receipts s' !! k)).
  { intros k. destruct (Hi k); split; intros [? ?]; eauto; done. }
  assert (Hlast : forall s s', wf_ingress s -> wf_ingress s' ->
    (forall k, is_Some (ingress_receipts s !! k) -> is_Some (ingress_receipts s' !! k)) ->
    forall src n, ingress_last_sequences s !! src = Some n -> exists m, ingress_last_sequences s' !! src = Some m /\ n <= m).
  { intros t t' Wt Wt' Hs src n Hn. destruct (Hs _ (wi_last _ Wt _ _ Hn)) as [r Hr]. exact (wi_bound _ Wt' _ _ Hr). }
  assert (E1 : ingress_last_sequences s' = ingress_last_sequences s).
  { apply map_eq. intros src. pose proof (Hlast s s' W W' (fun k => proj1 (Hsome k)) src) as A.
    pose proof (Hlast s' s W' W (fun k => proj2 (Hsome k)) src) as B.
    destruct (ingress_last_sequences s !! src) as [n|], (ingress_last_sequences s' !! src) as [m|].
    - destruct (A n eq_refl) as (? & [= <-] & ?), (B m eq_refl) as (? & [= <-] & ?). f_equal. lia.
    - by destruct (A n eq_refl) as (? & ? & ?).
    - by destruct (B m eq_refl) as (? & ? & ?).
    - done. }
  assert (E2 : ingress_commit_ids s' = ingress_commit_ids s).
  { apply map_eq. intros c. apply option_eq. intros k. rewrite (wi_commit _ W), (wi_commit _ W').
    specialize (Hi k). split; intros (r & Hr & Hc); rewrite Hr in Hi; inversion Hi as [? ? Hii|]; subst; eexists; (split; [by symmetry|congruence]). }
  split_and!; [done|done|]. apply set_eq. intros c. rewrite (wi_ids _ W), (wi_ids _ W'), E2. by rewrite Hd.
Qed.

(** The rebuilt receipts are the ones that were compacted. *)
Lemma rebuilt_kept c c' (s0 : LogState) i s :
  wf_index (index s0) -> wf_ingress s0 -> holds (identified i) (ingress i) s ->
  identified i ≡ₚ map (compact_id c) (map_to_list (identified_receipts s0)) ->
  ingress i ≡ₚ map (compact_in c) (map_to_list (ingress_receipts s0)).*2 ->
  catalog s = catalog s0 -> index s = foldl push_indexed_point ∅ (concat (index_values (index s0))) ->
  kept c c' s0 (receipts_durable (sort_index s)).
Proof.
  intros Wi W Hh Hi1 Hi2 Hc Hx. destruct Hh as [Hw Hid Hin].
  assert (K1 : forall k, option_Forall2 (same_ingress c c') (ingress_receipts s0 !! k) (set_receipt_durable true <$> ingress_receipts s !! k)).
  { intros k. destruct (ingress_receipts s0 !! k) as [r|] eqn:Er.
    - assert (Es : ingress_receipts s !! k = Some (ingress_of (compact_in c r))).
      { apply Hin. exists (compact_in c r). split; [|split; [|done]].
        - rewrite Hi2. apply list_elem_of_fmap. exists r. split; [done|]. apply list_elem_of_fmap. exists (k, r).
          split; [done|]. by apply elem_of_map_to_list.
        - cbn. destruct (wi_key _ W _ _ Er) as [<- _]. by destruct (ir_identity r). }
      rewrite Es. constructor. split_and!; cbn; try done; [by destruct (ir_identity r)|]. unfold stored_payload at 1. cbn.
      apply default_some_bytes.
    - destruct (ingress_receipts s !! k) as [v|] eqn:Es; [|constructor]. exfalso.
      apply Hin in Es as (y & Hy & Ek & _). rewrite Hi2 in Hy. apply list_elem_of_fmap in Hy as (r & -> & Hr).
      apply list_elem_of_fmap in Hr as ([k' r'] & -> & Hr%elem_of_map_to_list). cbn in Ek.
      destruct (wi_key _ W _ _ Hr) as [Hk' _]. destruct (ir_identity r') as [? ? ?]. cbn in *. congruence. }
  assert (K2 : forall id, option_Forall2 (same_identified c c') (identified_receipts s0 !! id) (identified_receipts s !! id)).
  { intros id. destruct (identified_receipts s0 !! id) as [r|] eqn:Er.
    - assert (Es : unplaced <$> identified_receipts s !! id = Some (identified_of 0 (compact_id c (id, r)))).
      { apply Hid. exists (compact_id c (id, r)). split; [|done]. rewrite Hi1. apply list_elem_of_fmap. exists (id, r).
        split; [done|]. by apply elem_of_map_to_list. }
      destruct (identified_receipts s !! id) as [v|]; [|done]. cbn in Es. constructor.
      destruct v as [o n k p [? ? ? ? ? ?]]. unfold unplaced, identified_of in Es. cbn in Es. injection Es as -> -> -> -> -> -> _ _ _.
      split_and!; cbn; try done. unfold stored_identified at 1. cbn. apply default_some_bytes.
    - destruct (identified_receipts s !! id) as [v|] eqn:Es; [|constructor]. exfalso.
      assert (Es' : unplaced <$> identified_receipts s !! id = Some (unplaced v)) by (by rewrite Es).
      apply Hid in Es' as (y & Hy & Ek & _). rewrite Hi1 in Hy. apply list_elem_of_fmap in Hy as ([id' r'] & -> & Hr%elem_of_map_to_list).
      cbn in Ek. congruence. }
  destruct (receipts_determine s0 s W (proj2 (proj2 Hw))) as (E1 & E2 & E3).
  { intros k. specialize (K1 k). destruct (ingress_receipts s0 !! k), (ingress_receipts s !! k); cbn in K1; inversion K1 as [? ? Hs|]; subst;
      constructor. apply Hs. }
  { intros id. specialize (K2 id). destruct K2; split; intros [? ?]; eauto; done. }
  split; cbn; try done.
  - intros k. rewrite Hx. by apply live_rebuilt.
  - intros k. rewrite lookup_fmap. apply K1.
Qed.

(** ** The call *)

(** An intact log opens, with three calls of the file system, to its replay. *)
Definition reopened (cfg : Config) (f : File) (s : ScanState) : Db :=
  mkDb Seg f cfg false (receipts_durable (sort_index (log s))) [] 0 (ingress_last_sequences (log s)) 0 TailNone 0 false None.

Lemma open_intact cfg seals fs s c m flts :
  c = database_header ++ frames_bytes fs -> Forall typed_frame fs ->
  replay_frames (scan_config cfg seals) 16 fs init_scan = (s, Ok tt) ->
  open_file LockAcquired cfg false seals (mkFile c m (None :: None :: None :: flts))
  = (mkFile c (length c) flts, Ok (reopened cfg (mkFile c (length c) flts) s)).
Proof.
  intros Hc Ht Hr. unfold open_file, f_len, f_call, st_bind, next_fault. cbn [faults contents synced].
  assert (Hn : (len c =? 0) = false).
  { apply Z.eqb_neq. rewrite Hc. unfold zlen. rewrite length_app, length_database_header. lia. }
  rewrite Hn. unfold st_ret at 1. unfold scan_log, f_read_all, f_call, st_bind, next_fault, st_lift. cbn [faults contents synced].
  rewrite Hc, check_database_header_ok. unfold scan_file.
  replace (drop DATABASE_HEADER_BYTES (database_header ++ frames_bytes fs)) with (frames_bytes fs)
    by (symmetry; apply drop_app_length'; by rewrite length_database_header).
  pose proof (scan_all_frames (scan_config cfg seals) fs (S (length (database_header ++ frames_bytes fs))) 16 init_scan Ht
    ltac:(rewrite length_app; lia)) as Hs. change (mkScanState LogState_empty None) with init_scan. rewrite Hr in Hs.
  destruct Hs as [o ->]. reflexivity.
Qed.

(** Published seals do not matter to a log without seal frames. *)
Lemma replay_compact_seals cfg seals seals' c i live fs offset s :
  compact_frames c i live fs ->
  replay_frames (scan_config cfg seals) offset fs s = replay_frames (scan_config cfg seals') offset fs s.
Proof.
  intros Hf. assert (Hk : Forall (fun f => fr_kind f <> FRAME_KIND_SEAL_CHECKPOINT) fs).
  { destruct Hf as (rs & a & b & t & _ & -> & Ha & (cs & Hcs & _) & Ht).
    assert (Hu : forall t l, frame_unless_empty t l -> Forall (fun f => fr_kind f <> FRAME_KIND_SEAL_CHECKPOINT) l).
    { intros ? l [[_ ->]|(fr & -> & (p & _ & -> & _))]; [constructor|]. by repeat constructor. }
    rewrite !Forall_app. split_and!; [by eapply Hu| |by eapply Hu].
    induction Hcs as [|? ? ? ? (p & _ & -> & _) _ IH]; [constructor|]. constructor; [done|exact IH]. }
  clear Hf. revert offset s. induction Hk as [|f fs Hf _ IH]; intros offset s; cbn [replay_frames]; [done|].
  assert (E : replay_frame (scan_config cfg seals) offset f = replay_frame (scan_config cfg seals') offset f).
  { unfold replay_frame, apply_payload. cbn [frame_kind]. destruct (Z.eqb_spec (fr_kind f) FRAME_KIND_SEAL_CHECKPOINT); [done|].
    reflexivity. }
  rewrite E. unfold st_bind. destruct (replay_frame _ _ f s) as [s1 [[]|e]]; [apply IH|done].
Qed.

Lemma flush_near (d d' : Db) :
  flush d = (d', Ok tt) -> exists g, d' = set_durable (ingress_last_sequences (state d)) (set_bytes_since_sync 0 (set_file g d))
    /\ contents g = contents (file d).
Proof.
  unfold flush. intros ([] & d1 & E1 & E)%st_bind_Ok.
  assert (d1 = d) as ->.
  { revert E1. unfold check_writable, st_bind, st_get, st_reject, st_lift, reject. destruct (read_only d), (poisoned d); by intros [= <-]. }
  apply st_bind_Ok in E as ([] & d2 & E2 & E). apply (f_sync_near d d d2 (Ok tt) eq_refl) in E2 as (E2 & Hc & _).
  exists (file d2). split; [|done]. rewrite E2 in E. by injection E as <-.
Qed.

Lemma check_writable_Ok (d d' : Db) : check_writable d = (d', Ok tt) -> d' = d /\ read_only d = false /\ poisoned d = false.
Proof.
  unfold check_writable, st_bind, st_get, st_reject, st_lift, reject. destruct (read_only d), (poisoned d); by intros [= <-].
Qed.

Lemma handle_ext (d d' : Db) :
  file d = file d' -> config d = config d' -> read_only d = read_only d' -> state d = state d' -> sealed d = sealed d' ->
  sealed_points d = sealed_points d' -> ingress_durable_sequences d = ingress_durable_sequences d' -> tail_bytes d = tail_bytes d' ->
  tail d = tail d' -> bytes_since_sync d = bytes_since_sync d' -> poisoned d = poisoned d' ->
  renamed_log d = renamed_log d' -> d = d'.
Proof. destruct d, d'. cbn. congruence. Qed.

(** The compact log, once written, scanned and synced, holds what the handle
    holds. *)
Definition compact_of (d : Db) (g : File) (fs : list Frame) (s : ScanState) : Prop :=
  Forall typed_frame fs
  /\ (forall seals', replay_frames (scan_config (config d) seals') 16 fs init_scan = (s, Ok tt))
  /\ contents g = database_header ++ frames_bytes fs /\ synced g = length (contents g)
  /\ kept (contents (file d)) (contents g) (state d) (receipts_durable (sort_index (log s))).

Lemma compact_log_written env seals (d d1 d2 : Db) i f1 f2 f3 scan :
  handle_inv seals d -> typed_log (contents (file d)) (state d) ->
  flush d = (d1, Ok tt) -> on_file (compact_identity_index (state d1)) d1 = (d2, Ok i) ->
  write_compact_log (catalog (state d1)) i (index (state d1)) (cfg_max_batch_points (config d1)) (cfg_max_transaction_bytes (config d1))
    (mkFile [] 0 (compact_faults env)) = (f1, Ok tt) ->
  scan_log (scan_config (config d1) ∅) (Recover false) f1 = (f2, Ok scan) -> f_sync f2 = (f3, Ok tt) ->
  exists fs s, compact_of d f3 fs s /\ scan_state scan = sort_index (log s) /\ pending_reclaim (log s) = false
    /\ exists g, d2 = set_durable (ingress_last_sequences (state d)) (set_bytes_since_sync 0 (set_file g d)).
Proof.
  intros Hi Ht (g1 & Hd1 & Hg1)%flush_near E2 Ew Es Ef3. unfold on_file, st_zoom in E2.
  destruct (compact_identity_index (state d1) (file d1)) as [g2 [j|]] eqn:Ei; [|done]. injection E2 as <- <-.
  apply compact_identity_index_Ok in Ei as (Hg2 & Hi1 & Hi2). rewrite Hd1 in Hi1, Hi2. cbn [file state set_durable set_bytes_since_sync set_file] in Hi1, Hi2.
  rewrite Hg1 in Hi1, Hi2. apply write_compact_log_Ok in Ew as (fs & Hfs & Hc1 & Hs1); [|done].
  apply (scan_log_frames _ _ _ _ _ Hc1 (compact_frames_typed _ _ _ _ Hfs)) in Es as (s & Hr & Hst & Hf2).
  apply f_sync_spec in Ef3 as [Hc3 Hs3]. destruct Hf2 as [Hc2 _]. rewrite Hc2 in Hc3, Hs3.
  rewrite Hd1 in Hfs, Hr. cbn [file state config set_durable set_bytes_since_sync set_file] in Hfs, Hr.
  destruct (handle_wf _ _ Hi) as (Wc & Wx & Wg).
  destruct (compact_log_rebuilds _ _ _ _ _ _ Wc Ht Hi1 Hi2 Hfs Hr) as (Hh & Hcat & Hpe & Hix).
  exists fs, s. rewrite Hd1. split_and!; [|done..|by exists g2]. unfold compact_of. rewrite Hc3, Hs3. split_and!; try done.
  - by eapply compact_frames_typed.
  - intros seals'. rewrite <- Hr. by eapply replay_compact_seals.
  - by eapply rebuilt_kept.
Qed.

Lemma reclaim_live_log_Ok env seals (d d' : Db) :
  handle_inv seals d -> typed_log (contents (file d)) (state d) -> reclaim_live_log env d = (d', Ok tt) ->
  exists fs s, Forall typed_frame fs
    /\ (forall seals', replay_frames (scan_config (config d) seals') 16 fs init_scan = (s, Ok tt))
    /\ contents (file d') = database_header ++ frames_bytes fs /\ synced (file d') = length (contents (file d'))
    /\ d' = set_sealed (sealed d) (sealed_points d) (reopened (config d) (file d') s)
    /\ kept (contents (file d)) (contents (file d')) (state d) (state d').
Proof.
  intros Hi Ht. unfold reclaim_live_log. intros ([] & d0 & (-> & Hro & Hpo)%check_writable_Ok & E)%st_bind_Ok.
  apply st_bind_Ok in E as ([] & d1 & E1 & E). apply st_bind_Ok in E as (dx & dy & [= <- <-] & E).
  apply st_bind_Ok in E as (i & d2 & E2 & E).
  destruct (write_compact_log _ _ _ _ _ _) as [f1 written] eqn:Ew. apply st_bind_Ok in E as ([] & d3 & Hw & E).
  unfold st_lift in Hw. injection Hw as <- ->. destruct (compact_lock env); [|done|done].
  destruct (scan_log _ _ f1) as [f2 scanned] eqn:Es. apply st_bind_Ok in E as (scan & d4 & Hsc & E).
  unfold st_lift in Hsc. injection Hsc as <- ->.
  destruct (f_sync f2) as [f3 synced_] eqn:Ef3. apply st_bind_Ok in E as ([] & d5 & Hsy & E).
  unfold poison_on_error, st_lift in Hsy. destruct synced_ as [[]|]; [|done]. injection Hsy as <-.
  apply st_bind_Ok in E as ([] & d6 & Hrn & E). unfold poison_on_error, st_lift in Hrn. destruct (rename_fault env); [done|]. injection Hrn as <-.
  apply st_bind_Ok in E as ([] & d6 & [= <-] & E).
  apply st_bind_Ok in E as ([] & d7 & Hpa & E). unfold poison_on_error, st_lift in Hpa. destruct (parent_fault env); [done|]. injection Hpa as <-.
  destruct (compact_log_written _ _ _ _ _ _ _ _ _ _ Hi Ht E1 E2 Ew Es Ef3) as (fs & s & (Hty & Hr & Hc & Hs & Hk) & Hst & Hpe & g & ->).
  assert (Est : set_pending_reclaim false (receipts_durable (scan_state scan)) = receipts_durable (sort_index (log s))).
  { rewrite Hst. unfold set_pending_reclaim, receipts_durable, set_ingress_receipts, sort_index, set_index. cbn. by rewrite Hpe. }
  exists fs, s. injection E as <-. cbn. rewrite Est, Hst. split_and!; try done. by apply handle_ext.
Qed.

(** ** The reclaimed handle is one an open could have returned *)

(** Calls keep the configuration. *)
Definition keeps_config {A} (m : ST Db A) : Prop := forall d d' r, m d = (d', r) -> config d' = config d.

Lemma keeps_bind {A B} (m : ST Db A) (k : A -> ST Db B) : keeps_config m -> (forall a, keeps_config (k a)) -> keeps_config (st_bind m k).
Proof.
  intros Hm Hk d d' r. unfold st_bind. destruct (m d) as [d1 [a|e]] eqn:E; [|intros [= <- <-]; by eapply Hm].
  intros E'. rewrite (Hk _ _ _ _ E'). by eapply Hm.
Qed.
Lemma keeps_ret {A} (a : A) : keeps_config (st_ret a).
Proof. by intros d d' r [= <- <-]. Qed.
Lemma keeps_err {A} e : keeps_config (@st_err Db A e).
Proof. by intros d d' r [= <- <-]. Qed.
Lemma keeps_get : keeps_config st_get.
Proof. by intros d d' r [= <- <-]. Qed.
Lemma keeps_lift {A} (x : Result A) : keeps_config (st_lift x).
Proof. by intros d d' r [= <- <-]. Qed.
Lemma keeps_on_file {A} (m : ST File A) : keeps_config (on_file m).
Proof. intros d d' r. unfold on_file, st_zoom. destruct (m (file d)). by intros [= <- <-]. Qed.
Lemma keeps_modify (f : Db -> Db) : (forall d, config (f d) = config d) -> keeps_config (modify f).
Proof. by intros Hf d d' r [= <- <-]. Qed.
Lemma keeps_upd_log f : keeps_config (upd_log (Seg := Seg) f).
Proof. by intros d d' r [= <- <-]. Qed.
Lemma keeps_poison {A} (m : ST Db A) : keeps_config m -> keeps_config (poison_on_error m).
Proof. intros Hm d d' r. unfold poison_on_error. destruct (m d) as [d1 [a|e]] eqn:E; intros [= <- <-]; by apply Hm in E. Qed.
Lemma keeps_poison_if (m : ST Db bool) : keeps_config m -> keeps_config (poison_if_broken m).
Proof.
  intros Hm d d' r. unfold poison_if_broken. destruct (m d) as [d1 [a|e]] eqn:E; intros [= <- <-]; apply Hm in E; [done|].
  by destruct (poisons e).
Qed.

Ltac keeps_config_tac :=
  repeat first
    [ apply keeps_bind; [|intros ?] | apply keeps_ret | apply keeps_err | apply keeps_get | apply keeps_lift | apply keeps_on_file
    | apply keeps_upd_log | apply keeps_poison | apply keeps_poison_if | apply keeps_modify; done
    | progress (unfold st_reject, check_writable, write_frame, write_and_sync, empty_commit, identified_payload_matches,
        ingress_payload_matches)
    | match goal with
      | |- keeps_config (match ?x with _ => _ end) => destruct x
      | |- keeps_config (if ?x then _ else _) => destruct x
      | |- keeps_config (let '(_, _) := ?x in _) => destruct x
      end ].

Lemma keeps_append ps : keeps_config (append (Seg := Seg) ps).
Proof. unfold append. keeps_config_tac. Qed.
Lemma keeps_flush : keeps_config (flush (Seg := Seg)).
Proof. unfold flush. keeps_config_tac. Qed.
Lemma keeps_commit t : keeps_config (commit (Seg := Seg) t).
Proof. unfold commit, commit_plain, commit_ordered_ingress, append_ingress, replay_ingress. keeps_config_tac. Qed.
Lemma keeps_commit_ingress i t : keeps_config (commit_ingress (Seg := Seg) i t).
Proof. unfold commit_ingress. keeps_config_tac. Qed.
Lemma keeps_verify i t : keeps_config (verify_ingress_payload (Seg := Seg) i t).
Proof. unfold verify_ingress_payload. keeps_config_tac. Qed.
Lemma keeps_seal g n : keeps_config (write_seal_checkpoint (Seg := Seg) g n).
Proof. unfold write_seal_checkpoint, flush. keeps_config_tac. Qed.

Lemma call_config seals (d d' : Db) : call seals d d' -> config d' = config d.
Proof.
  destruct 1; [by eapply keeps_append|by eapply keeps_commit|by eapply keeps_commit_ingress|by eapply keeps_flush|by eapply keeps_verify
              |by eapply keeps_seal|done].
Qed.

Lemma reachable_config seals cfg (d : Db) : reachable seals cfg d -> config d = cfg /\ validate_config cfg = Ok tt.
Proof.
  induction 1 as [path f d Hb E|d d' _ [IH1 IH2] Hc]; [|by rewrite (call_config _ _ _ Hc)].
  unfold open_mode in E. destruct (validate_config cfg) as [[]|]; [|done].
  destruct (open_file LockAcquired cfg false seals (default (mkFile [] 0 []) path)) as [f' r] eqn:Eo.
  injection E as <- ->. apply open_file_sound in Eo as (_ & Hc & _); [done|]. destruct path; [by apply Hb|constructor].
Qed.

(** A successful reclaim leaves a handle that an open returns, with everything
    the old one had. *)
Lemma reclaim_reachable env seals cfg (d d' : Db) :
  reachable seals cfg d -> typed_log (contents (file d)) (state d) -> reclaim_live_log env d = (d', Ok tt) ->
  reachable seals cfg d' /\ kept (contents (file d)) (contents (file d')) (state d) (state d').
Proof.
  intros Hd Ht E. destruct (reachable_config _ _ _ Hd) as [Ec Hv].
  destruct (reclaim_live_log_Ok _ _ _ _ (reachable_inv _ _ _ Hd) Ht E) as (fs & s & Hty & Hr & Hc & Hs & Ed & Hk). split; [|done].
  rewrite Ed, Ec. eapply reach_call; [|apply call_attach].
  destruct (file d') as [c n flts] eqn:Ef. cbn in Hc, Hs. subst n. rewrite Ec in Hr.
  pose proof (open_intact cfg seals fs s c 0 flts Hc Hty (Hr seals)) as Ho.
  eapply (reach_open _ _ (Some (mkFile c 0 (None :: None :: None :: flts)))).
  - intros g [= <-]. cbn. rewrite Hc. apply is_bytes_app. split; [apply database_header_bytes|by apply typed_frames_bytes].
  - unfold open_mode. rewrite Hv. cbn -[open_file]. rewrite Ho. reflexivity.
Qed.

(** ** A reclaim that fails *)

Lemma reading_map {A B} (g : A -> ST File B) l : (forall x, reading (g x)) -> reading (st_map g l).
Proof.
  intros Hg. induction l as [|x l IH]; cbn; [apply reading_ret|]. apply reading_bind; [done|]. intros y.
  apply reading_bind; [done|]. intros ys. apply reading_ret.
Qed.

Lemma reading_compact s : reading (compact_identity_index s).
Proof.
  unfold compact_identity_index. apply reading_bind; [apply reading_map; intros [id r]|intros ids].
  - unfold compact_identified. reading_tac. apply reading_identified.
  - apply reading_bind; [apply reading_map; intros r|intros; apply reading_ret].
    unfold compact_ingress. reading_tac. apply reading_ingress.
Qed.

Definition as_before (d d' : Db) : Prop := state d' = state d /\ contents (file d') = contents (file d) /\ sealed d' = sealed d.

Lemma flush_Err (d d' : Db) e : flush d = (d', Err e) -> as_before d d'.
Proof.
  unfold flush, check_writable, st_bind, st_get, st_reject, st_lift, reject.
  destruct (read_only d); [by intros [= <- _]|]. destruct (poisoned d); [by intros [= <- _]|].
  destruct (poison_on_error (on_file f_sync) d) as [d1 [[]|e1]] eqn:E; [done|]. intros [= <- _].
  apply (f_sync_near d d d1 (Err e1) eq_refl) in E as (d2 & (g & [Hg _] & ->) & ->). done.
Qed.

(** What the path of the log names after a failed reclaim: the file it named
    before, or the compact log, when the rename was done and the sync of the
    directory failed. *)
Definition path_after (env : ReclaimEnv) (d d' : Db) : Prop :=
  renamed_log d' = renamed_log d
  \/ (rename_fault env = None /\ poisoned d' = true /\ exists g fs s, renamed_log d' = Some g /\ compact_of d g fs s).

Lemma near_renamed (d d' : Db) : near d d' -> renamed_log d' = renamed_log d.
Proof. by intros (g & _ & ->). Qed.

Lemma flush_renamed (d d' : Db) r : flush d = (d', r) -> renamed_log d' = renamed_log d.
Proof.
  unfold flush, check_writable, st_bind, st_get, st_reject, st_lift, reject.
  destruct (read_only d); [by intros [= <- _]|]. destruct (poisoned d); [by intros [= <- _]|].
  unfold poison_on_error, on_file, st_zoom. destruct (f_sync (file d)) as [f [[]|e]]; by intros [= <- _].
Qed.

Lemma renamed_inv seals (d : Db) v : handle_inv seals d -> handle_inv seals (set_renamed_log v d).
Proof. intros (fs0 & fs1 & pend & s0 & s1 & s2 & []). exists fs0, fs1, pend, s0, s1, s2. by constructor. Qed.

(** A failed reclaim leaves the state and the handle's file as they were. *)
Lemma reclaim_live_log_Err env seals (d d' : Db) e :
  handle_inv seals d -> typed_log (contents (file d)) (state d) -> reclaim_live_log env d = (d', Err e) ->
  handle_inv seals d' /\ as_before d d' /\ path_after env d d'.
Proof.
  intros Hi Ht. unfold reclaim_live_log. unfold st_bind at 1.
  destruct (check_writable d) as [d0 [[]|e0]] eqn:Ec.
  2: { revert Ec. unfold check_writable, st_bind, st_get, st_reject, st_lift, reject.
       destruct (read_only d), (poisoned d); intros [= <- _] [= <- _]; split_and!; try done; by left. }
  apply check_writable_Ok in Ec as (-> & _). unfold st_bind at 1. destruct (flush d) as [d1 r1] eqn:Ef.
  pose proof (flush_renamed _ _ _ Ef) as Hn1. destruct r1 as [[]|e1].
  2: { intros [= <- _]. pose proof (flush_inv seals d Hi d d1 (Err e1) eq_refl Ef). split_and!; [done|by eapply flush_Err|by left]. }
  pose proof (flush_inv seals d Hi d d1 (Ok tt) eq_refl Ef) as (Hi1 & _). pose proof Ef as Ef1.
  apply flush_near in Ef1 as (g1 & Hd1 & Hg1).
  assert (Hb1 : as_before d d1) by (rewrite Hd1; done). clear Hd1.
  unfold st_bind at 1, st_get. unfold st_bind at 1. destruct (on_file _ d1) as [d2 r2] eqn:E2.
  assert (Hn : near d1 d2).
  { pose proof (on_file_reading _ d1 (reading_compact _) d1 d2 r2 eq_refl E2) as Hn. by destruct r2. }
  assert (Hb2 : as_before d d2).
  { destruct Hn as (g & [Hg _] & ->). destruct Hb1 as (A & B & C). split_and!; cbn; [done|by rewrite Hg|done]. }
  assert (Hi2 : handle_inv seals d2) by (by eapply near_inv).
  assert (Hn2 : renamed_log d2 = renamed_log d) by (by rewrite (near_renamed _ _ Hn)).
  assert (Hq : handle_inv seals d2 /\ as_before d d2 /\ path_after env d d2) by (split_and!; [done..|by left]).
  destruct r2 as [i|e2]; [|by intros [= <- _]].
  assert (Hp : handle_inv seals (set_poisoned true d2) /\ as_before d (set_poisoned true d2) /\ path_after env d (set_poisoned true d2))
    by (split_and!; [by apply poisoned_inv|done|by left]).
  destruct (write_compact_log _ _ _ _ _ _) as [f1 written] eqn:Ew. unfold st_bind at 1, st_lift.
  destruct written as [[]|]; [|by intros [= <- _]]. destruct (compact_lock env); [|by intros [= <- _]..].
  destruct (scan_log _ _ f1) as [f2 scanned] eqn:Es. unfold st_bind at 1, st_lift. destruct scanned; [|by intros [= <- _]].
  destruct (f_sync f2) as [f3 synced_] eqn:Ef3. unfold st_bind at 1, poison_on_error at 1, st_lift.
  destruct synced_ as [[]|]; [|by intros [= <- _]]. unfold st_bind at 1, poison_on_error at 1, st_lift.
  destruct (rename_fault env) eqn:Ern; [by intros [= <- _]|]. unfold st_bind at 1, modify, st_modify. unfold st_bind at 1, poison_on_error at 1, st_lift.
  destruct (parent_fault env); [|done]. intros [= <- _].
  destruct (compact_log_written _ _ _ _ _ _ _ _ _ _ Hi Ht Ef E2 Ew Es Ef3) as (fs & sc & Hco & _).
  split_and!; [by apply poisoned_inv, renamed_inv|exact (proj1 (proj2 Hp))|]. right. split_and!; [done..|]. by exists f3, fs, sc.
Qed.

(** The compact log that the path names opens to a handle with everything. *)
Lemma renamed_log_opens seals cfg (d d' : Db) g fs s flts :
  reachable seals cfg d -> renamed_log d' = Some g -> compact_of d g fs s ->
  let f := log_at_path d' in
  let d2 := reopened cfg (mkFile (contents f) (length (contents f)) flts) s in
  open_mode LockAcquired cfg false seals (Some (mkFile (contents f) (synced f) (None :: None :: None :: flts))) = (Some (file d2), Ok d2)
  /\ reachable seals cfg d2 /\ kept (contents (file d)) (contents (file d2)) (state d) (state d2).
Proof.
  intros Hd Hg (Hty & Hr & Hc & Hs & Hk). cbn zeta. unfold log_at_path. rewrite Hg. cbn [default from_option].
  destruct (reachable_config _ _ _ Hd) as [Ec Hv]. rewrite Ec in Hr.
  pose proof (open_intact cfg seals fs s (contents g) (synced g) flts Hc Hty (Hr seals)) as Ho.
  assert (Eo : open_mode LockAcquired cfg false seals (Some (mkFile (contents g) (synced g) (None :: None :: None :: flts)))
    = (Some (mkFile (contents g) (length (contents g)) flts), Ok (reopened cfg (mkFile (contents g) (length (contents g)) flts) s))).
  { unfold open_mode. rewrite Hv. cbn -[open_file]. rewrite Ho. reflexivity. }
  split_and!; [exact Eo| |exact Hk]. eapply reach_open; [|exact Eo].
  intros h [= <-]. cbn. rewrite Hc. apply is_bytes_app. split; [apply database_header_bytes|by apply typed_frames_bytes].
Qed.
End Reclaimed.
