(* ===== verification/Salvage.v ===== *)
(** * Salvage: [SalvageSource::open] of [src/src/storage.rs]

    A salvage reads a damaged log, which it never changes, and reports the
    longest prefix it validated and why it stopped.  The identity checks of the
    directory entry are file-system calls and are left out. *)
From S2P Require Import Prelude Errors Bytes Float64 Model Transaction Catalog Query Codec Effects Scan Database Durable Recovery.

Record SalvageSource := mkSalvage {
  source_bytes : Z;
  recovered_prefix_bytes : Z;
  recovered_commits : Z;
  recovered_points : Z;
  salvage_reason : SalvageStopReason;
}.

Section Open.
Context `{Crc} `{RecordCodec} `{IndexCodec} `{TimeZones}.

Definition SalvageSource_open (lock : LockResult) (seals : gset Z) : ST File SalvageSource :=
  match lock with
  | LockWouldBlock => st_err Locked
  | LockFailed kind => st_err (Io kind)
  | LockAcquired =>
      let* length := f_len in
      st_reject (length <? Z.of_nat DATABASE_HEADER_BYTES) InvalidHeader ;*
      let* scan := scan_log (scan_config Config_default seals) Salvage in
      let* reason := st_lift (ok_or (salvage_stop_reason scan) (Panic "unwrap")) in
      st_ret (mkSalvage length (validated_bytes scan) (commits (scan_state scan))
                (points (scan_state scan)) reason)
  end.
End Open.

(** ** A scan that stops early names its reason and its place *)

(** Decoders report damage at the offset they are given, and nothing else. *)
Definition corrupt_at {A} (o : Z) (r : Result A) : Prop :=
  match r with Err e => exists m, e = Corruption o m | Ok _ => True end.

Section CorruptAt.
Lemma corrupt_bind {A B} o (m : Result A) (k : A -> Result B) :
  corrupt_at o m -> (forall a, corrupt_at o (k a)) -> corrupt_at o (bind m k).
Proof. destruct m; simpl; auto. Qed.
Lemma corrupt_ok {A} o (a : A) : corrupt_at o (Ok a).
Proof. done. Qed.
Lemma corrupt_err {A} o m : corrupt_at o (@Err A (Corruption o m)).
Proof. simpl. eauto. Qed.
Lemma corrupt_ok_or {A} o (x : option A) m : corrupt_at o (ok_or x (Corruption o m)).
Proof. destruct x; simpl; eauto. Qed.
Lemma corrupt_for_each {A} o (f : A -> Result unit) l :
  (forall a, corrupt_at o (f a)) -> corrupt_at o (for_each f l).
Proof. intros Hf. induction l; simpl; [done|]. apply corrupt_bind; auto. Qed.
End CorruptAt.

Ltac corrupt_tac :=
  repeat first
    [ progress intros
    | apply corrupt_bind | apply corrupt_ok | apply corrupt_err | apply corrupt_ok_or | apply corrupt_for_each
    | match goal with |- corrupt_at _ (match ?x with _ => _ end) => destruct x end ].

Definition halts {A} (o : Z) (m : Scanner A) : Prop :=
  forall s s' e, m s = (s', Err e) ->
    (exists r, stop_reason s' = Some r /\ r <> CleanEof) /\ (exists r, e = Corruption o r).

Section Halts.
Context (o : Z).
Lemma halts_bind {A B} (m : Scanner A) (k : A -> Scanner B) :
  halts o m -> (forall a, halts o (k a)) -> halts o (st_bind m k).
Proof.
  intros Hm Hk s s' e. unfold st_bind. destruct (m s) as [s1 [a|e1]] eqn:E; [by apply Hk|].
  intros [= <- <-]. by eapply Hm.
Qed.
Lemma halts_ret {A} (a : A) : halts o (st_ret a).
Proof. by intros s s' e [=]. Qed.
Lemma halts_get : halts o st_get.
Proof. by intros s s' e [=]. Qed.
Lemma halts_upd f : halts o (upd f).
Proof. by intros s s' e [=]. Qed.
Lemma halts_stop {A} r m : r <> CleanEof -> halts o (@stop_or_corruption A o r m).
Proof. intros Hr s s' e' [= <- <-]. simpl. eauto. Qed.
Lemma halts_stop_if c r m : r <> CleanEof -> halts o (stop_if c o r m).
Proof. destruct c; [apply halts_stop|intros _; apply halts_ret]. Qed.
Lemma halts_halt_on {A} r (x : Result A) : r <> CleanEof -> corrupt_at o x -> halts o (halt_on r x).
Proof.
  intros Hr Hx. destruct x as [a|e]; [apply halts_ret|]. intros s s' e' [= <- <-].
  destruct Hx as [m ->]. simpl. eauto.
Qed.
Lemma halts_for_each {A} (f : A -> Scanner unit) l : (forall a, halts o (f a)) -> halts o (st_for_each f l).
Proof. intros Hf. induction l; simpl; [apply halts_ret|]. apply halts_bind; auto. Qed.
End Halts.

Ltac halts_tac :=
  repeat first
    [ progress intros
    | apply halts_bind | apply halts_stop_if; [done] | apply halts_stop; [done]
    | apply halts_halt_on; [done|] | apply corrupt_ok_or
    | apply halts_ret | apply halts_get | apply halts_upd | apply halts_for_each
    | match goal with |- halts _ (match ?x with _ => _ end) => destruct x end ].

Section Reasons.
Context `{Crc} `{RecordCodec} `{IndexCodec} `{TimeZones}.

Lemma decode_records_corrupt n payload cursor o : corrupt_at o (decode_records n payload cursor o).
Proof.
  revert cursor. induction n as [|n IH]; intros cursor; [done|]. cbn [decode_records].
  unfold decode_record, decode_record_body, decode_point_record, deserialize, corruption. corrupt_tac.
  apply IH.
Qed.

Lemma decode_transaction_corrupt payload n o : corrupt_at o (decode_transaction payload n o).
Proof. unfold decode_transaction, corruption. corrupt_tac. apply decode_records_corrupt. Qed.

Lemma validate_compact_corrupt payload n p o : corrupt_at o (validate_compact_transaction payload n p o).
Proof. unfold validate_compact_transaction, corruption. corrupt_tac. apply decode_transaction_corrupt. Qed.

Lemma decode_identity_index_corrupt payload o : corrupt_at o (decode_identity_index payload o).
Proof. unfold decode_identity_index, corruption. corrupt_tac. Qed.

Lemma apply_recovered_corrupt c rs o : corrupt_at o (apply_recovered c rs o).
Proof. unfold apply_recovered. destruct (apply_records c rs) as [[]|]; corrupt_tac. Qed.

Lemma check_frame_header_halts cfg o hd : halts o (check_frame_header cfg o hd).
Proof. unfold check_frame_header, check_frame_kind. halts_tac. Qed.

Lemma apply_payload_halts cfg o h p : halts o (apply_payload cfg o h p).
Proof.
  unfold apply_payload, apply_identity_index, apply_compact_identified, apply_compact_ingress,
    index_check, check_ingress_identity, insert_commit_id, apply_records_frame.
  halts_tac; auto using decode_transaction_corrupt, validate_compact_corrupt,
    decode_identity_index_corrupt, apply_recovered_corrupt.
Qed.

(** Why and where the loop stopped. *)
Lemma scan_frames_reason fuel cfg rest offset s s' offset' stop :
  is_bytes rest -> (length rest < fuel)%nat -> scan_frames fuel cfg rest offset s = (s', offset', stop) ->
  stop <> EndOfLog ->
  (exists r, stop_reason s' = Some r /\ r <> CleanEof)
  /\ forall e, stop = EndError e -> exists m, e = Corruption offset' m.
Proof.
  revert rest offset s. induction fuel as [|fuel IH]; intros rest offset s Hb Hf E Hne; [lia|].
  cbn [scan_frames] in E. destruct (len rest =? 0) eqn:E0; [by injection E as <- <- <-|].
  destruct (len rest <? _) eqn:E1; [injection E as <- <- <-; simpl; split; [by eexists|done]|].
  destruct (check_frame_header cfg offset _ s) as [s1 [h|e]] eqn:Eh.
  2: { injection E as <- <- <-. destruct (check_frame_header_halts _ _ _ _ _ _ Eh) as [Hr [m ->]].
       split; [done|]. intros ? [= <-]. eauto. }
  destruct (len rest <? _ + payload_len h) eqn:E2; [injection E as <- <- <-; simpl; split; [by eexists|done]|].
  match type of E with context [match ?m s1 with _ => _ end] => assert (Hm : halts offset m);
    [|destruct (m s1) as [s2 [u|e]] eqn:Es] end.
  { halts_tac. apply apply_payload_halts. }
  - eapply (IH (drop (Z.to_nat (Z.of_nat FRAME_HEADER_BYTES + payload_len h)) rest)); try done.
    { by apply Forall_drop. }
    destruct (frame_len_bounds _ _ _ _ _ _ Hb Eh) as (_ & _ & Hp). rewrite length_drop.
    unfold FRAME_HEADER_BYTES, zlen in *. zlia.
  - injection E as <- <- <-. destruct (Hm _ _ _ Es) as [Hr [m ->]].
    split; [done|]. intros ? [= <-]. eauto.
Qed.
End Reasons.

(** ** What a salvage recovers *)

Section Salvaged.
Context `{Crc} `{RecordCodec} `{IndexCodec} `{TimeZones}.

Lemma f_len_ok f : faults f = [] -> f_len f = (f, Ok (len (contents f))).
Proof. intros Hf. unfold f_len, f_call, next_fault. by rewrite Hf. Qed.

Lemma f_read_all_ok f : faults f = [] -> f_read_all f = (f, Ok (contents f)).
Proof. intros Hf. unfold f_read_all, f_call, next_fault. by rewrite Hf. Qed.

Lemma check_database_header_len c : check_database_header c = Ok tt -> 16 <= len c.
Proof.
  unfold check_database_header. change (Z.of_nat DATABASE_HEADER_BYTES) with 16.
  destruct (Z.ltb_spec (len c) 16); [done|]. lia.
Qed.

Lemma check_database_header_take c n :
  (16 <= n)%nat -> check_database_header c = Ok tt -> check_database_header (take n c) = Ok tt.
Proof.
  intros Hn Hc. pose proof (check_database_header_len _ Hc) as Hl. revert Hc. unfold check_database_header.
  rewrite !slice_take by lia. change (Z.of_nat DATABASE_HEADER_BYTES) with 16.
  destruct (Z.ltb_spec (len c) 16); [done|].
  destruct (Z.ltb_spec (len (take n c)) 16) as [Hx|]; [|done].
  unfold zlen in *. rewrite length_take in Hx. lia.
Qed.

(** The loop reads to the end exactly when it reports the end. *)
Lemma scan_stops_short fuel cfg rest offset s s' offset' stop :
  is_bytes rest -> (length rest < fuel)%nat -> scan_frames fuel cfg rest offset s = (s', offset', stop) ->
  (stop = EndOfLog <-> offset' = offset + len rest).
Proof.
  revert rest offset s. induction fuel as [|fuel IH]; intros rest offset s Hb Hf E; [lia|].
  destruct (scan_frames_cases fuel cfg rest offset s Hb) as [(s1 & st & E1 & _ & _ & Hst)|(flen & s2 & Ha)].
  - rewrite E1 in E. injection E as <- <- <-. pose proof (zlen_nonneg rest). split.
    + intros ->. subst rest. change (len (@nil Z)) with 0. lia.
    + intros Hl. assert (Hr : len rest = 0) by lia. cbn [scan_frames] in E1. rewrite Hr in E1.
      by injection E1 as _ <-.
  - rewrite (scan_frames_accepted fuel _ _ _ _ _ _ Ha) in E. pose proof (proj1 Ha) as Hlen.
    apply IH in E; [|by apply Forall_drop|rewrite length_drop; unfold zlen in *; lia].
    rewrite E. unfold zlen in *. rewrite length_drop. lia.
Qed.

(** The scan of a whole file and of the prefix it validated. *)
Lemma scan_file_prefix cfg c s offset stop :
  is_bytes c -> 16 <= len c -> scan_file cfg c = (s, offset, stop) ->
  16 <= offset <= len c /\ (stop = EndOfLog <-> offset = len c) /\
  exists s1, scan_file cfg (take (Z.to_nat offset) c) = (s1, offset, EndOfLog) /\ counters s1 = counters s.
Proof.
  intros Hb Hlen E. unfold scan_file in *. set (rest := drop DATABASE_HEADER_BYTES c) in *.
  set (s0 := mkScanState LogState_empty None) in *.
  assert (Hrest : is_bytes rest) by (by apply Forall_drop).
  assert (Hrl : len rest = len c - 16)
    by (unfold rest, DATABASE_HEADER_BYTES, zlen in *; rewrite length_drop; lia).
  assert (Hfuel : (length rest < S (length c))%nat) by (unfold zlen in *; lia).
  pose proof (scan_frames_clean_prefix _ cfg rest 16 s0 Hrest Hfuel) as Hclean.
  pose proof (scan_stops_short _ cfg rest 16 s0 s offset stop Hrest Hfuel E) as Hshort.
  rewrite E in Hclean. destruct Hclean as (Hoff & s1 & Hs1 & Hcnt & _).
  split; [lia|]. split; [rewrite Hshort; lia|]. exists s1. split; [|done].
  assert (Hd : drop DATABASE_HEADER_BYTES (take (Z.to_nat offset) c) = take (Z.to_nat (offset - 16)) rest).
  { unfold rest, DATABASE_HEADER_BYTES. rewrite take_drop_commute. do 2 f_equal. lia. }
  rewrite Hd, <- Hs1. apply scan_frames_fuel; [by apply Forall_take|rewrite !length_take; lia..].
Qed.

(** Every log with a valid header can be salvaged: the source is left as it
    is, a reason is reported, the reported prefix is a log that recovers
    without damage to the reported counters, and the whole file was validated
    exactly when the reason is a clean end. *)
Lemma salvage_open_ok seals f m :
  faults f = [] -> is_bytes (contents f) -> check_database_header (contents f) = Ok tt ->
  let cfg := scan_config Config_default seals in
  exists src, SalvageSource_open LockAcquired seals f = (f, Ok src)
    /\ source_bytes src = len (contents f)
    /\ 16 <= recovered_prefix_bytes src <= source_bytes src
    /\ (salvage_reason src = CleanEof <-> recovered_prefix_bytes src = source_bytes src)
    /\ let g := mkFile (take (Z.to_nat (recovered_prefix_bytes src)) (contents f)) m [] in
       exists scan, scan_log cfg (Recover false) g = (g, Ok scan)
         /\ recovered_tail scan = TailNone
         /\ commits (scan_state scan) = recovered_commits src
         /\ points (scan_state scan) = recovered_points src.
Proof.
  intros Hf Hb Hh cfg. pose proof (check_database_header_len _ Hh) as Hlen.
  unfold SalvageSource_open, scan_log, st_bind, st_reject, st_lift, reject. rewrite f_len_ok by done.
  change (Z.of_nat DATABASE_HEADER_BYTES) with 16. destruct (Z.ltb_spec (len (contents f)) 16); [lia|].
  rewrite f_read_all_ok, Hh by done. fold cfg.
  destruct (scan_file cfg (contents f)) as [[s offset] stop] eqn:E.
  destruct (scan_file_prefix cfg _ _ _ _ Hb Hlen E) as (Hoff & Hend & s1 & Hs1 & Hcnt).
  assert (Hre : stop <> EndOfLog -> exists r, stop_reason s = Some r /\ r <> CleanEof).
  { intros Hne. eapply (scan_frames_reason _ cfg _ 16); [apply Forall_drop, Hb| |exact E|exact Hne].
    rewrite length_drop. lia. }
  assert (Hscan : exists r, (stop = EndOfLog <-> r = CleanEof) /\
    match stop with
    | EndOfLog => st_ret (mkScan (sort_index (log s)) 0 TailNone offset (Some CleanEof))
    | _ => st_ret (mkScan (sort_index (log s)) 0 TailNone offset (stop_reason s))
    end f = (f, Ok (mkScan (sort_index (log s)) 0 TailNone offset (Some r)))).
  { destruct stop as [| |]; [by exists CleanEof|..]; destruct (Hre ltac:(done)) as (r & -> & Hr); by exists r. }
  destruct Hscan as (r & Hr & ->). cbn [ok_or salvage_stop_reason].
  eexists. split; [reflexivity|]. cbn [source_bytes recovered_prefix_bytes salvage_reason validated_bytes].
  split_and!; [done|lia|lia|rewrite <- Hr; exact Hend|].
  unfold scan_log, st_bind, st_lift. rewrite f_read_all_ok by done.
  cbn [contents]. rewrite check_database_header_take, Hs1 by (lia || done).
  eexists. split; [reflexivity|]. split; [done|]. unfold counters in Hcnt. by injection Hcnt as Hc1 Hc2.
Qed.
End Salvaged.

(** ** Damage is reported, not repaired *)

Section Damage.
Context `{Crc} `{RecordCodec} `{IndexCodec} `{TimeZones}.

(** A complete frame whose payload does not match its checksum. *)
Lemma scan_bad_checksum fuel cfg k n payload crc rest offset s :
  is_u16 k -> is_u32 n -> is_u32 (len payload) -> is_u32 crc -> hash payload <> crc ->
  exists s' m,
    scan_frames (S fuel) cfg (encode_frame_header k n (len payload) crc ++ payload ++ rest) offset s
    = (s', offset, EndError (Corruption offset m)).
Proof.
  intros Hk Hn Hl Hc Hne. set (hd := encode_frame_header k n (len payload) crc).
  assert (Hh : length hd = 24%nat) by apply length_frame_header.
  assert (Hrem : len (hd ++ payload ++ rest) = 24 + len payload + len rest)
    by (unfold zlen; rewrite !length_app; lia).
  pose proof (zlen_nonneg rest). pose proof (zlen_nonneg payload).
  cbn [scan_frames]. rewrite Hrem. change (Z.of_nat FRAME_HEADER_BYTES) with 24.
  destruct (Z.eqb_spec (24 + len payload + len rest) 0); [lia|].
  destruct (Z.ltb_spec (24 + len payload + len rest) 24); [lia|].
  rewrite (take_app_length' hd) by done. unfold hd at 1. rewrite check_frame_header_layout by done.
  unfold st_bind at 1.
  destruct (check_frame_kind cfg offset k n (len payload) s) as [s1 [[]|e]] eqn:Ek.
  2: { assert (Hcp : halts offset (check_frame_kind cfg offset k n (len payload)))
         by (unfold check_frame_kind; halts_tac).
       destruct (Hcp _ _ _ Ek) as [_ [m ->]]. eauto. }
  cbn [st_ret payload_len payload_checksum].
  destruct (Z.ltb_spec (24 + len payload + len rest) (24 + len payload)); [lia|].
  assert (Hsl : slice FRAME_HEADER_BYTES (Z.to_nat (24 + len payload)) (hd ++ payload ++ rest) = payload).
  { replace (Z.to_nat (24 + len payload)) with (24 + length payload)%nat by (unfold zlen; lia).
    unfold FRAME_HEADER_BYTES. rewrite <- Hh. by apply slice_app_at. }
  rewrite Hsl. unfold st_bind at 1. destruct (Z.eqb_spec (hash payload) crc); [done|]. cbn [negb stop_if].
  unfold stop_or_corruption, halt. eauto.
Qed.

(** A log with such a frame, at any place, does not open: recovery reports
    the frame's offset and leaves the file as it is. *)
Lemma recover_bad_checksum cfg ro fs k n payload crc rest s f :
  faults f = [] -> Forall typed_frame fs -> replay_frames cfg 16 fs init_scan = (s, Ok tt) ->
  is_u16 k -> is_u32 n -> is_u32 (len payload) -> is_u32 crc -> hash payload <> crc ->
  contents f = database_header ++ frames_bytes fs ++ encode_frame_header k n (len payload) crc ++ payload ++ rest ->
  exists m, scan_log cfg (Recover ro) f = (f, Err (Corruption (16 + len (frames_bytes fs)) m)).
Proof.
  intros Hf Ht Hr Hk Hn Hl Hc Hne Hcont. set (bad := encode_frame_header k n (len payload) crc) in *.
  unfold scan_log, st_bind at 1. rewrite f_read_all_ok, Hcont by done.
  unfold st_bind, st_lift. rewrite check_database_header_ok. unfold scan_file.
  assert (Hdrop : drop DATABASE_HEADER_BYTES (database_header ++ frames_bytes fs ++ bad ++ payload ++ rest)
                  = frames_bytes fs ++ bad ++ payload ++ rest)
    by (apply drop_app_length'; by rewrite length_database_header).
  rewrite Hdrop. set (tail := bad ++ payload ++ rest).
  assert (Hbl : length bad = 24%nat) by apply length_frame_header.
  assert (Hfs : (length fs <= length (frames_bytes fs))%nat).
  { clear. induction fs as [|g fs IH]; [done|]. rewrite frames_bytes_cons, length_app, length_frame_bytes. simpl. lia. }
  replace (S (length (database_header ++ frames_bytes fs ++ tail)))
    with (length fs + S (length (database_header ++ frames_bytes fs ++ tail) - length fs))%nat
    by (rewrite !length_app; lia).
  rewrite (scan_frames_app _ cfg fs tail 16 _ s Ht Hr).
  destruct (scan_bad_checksum (length (database_header ++ frames_bytes fs ++ tail) - length fs) cfg k n payload crc
              rest (16 + len (frames_bytes fs)) s Hk Hn Hl Hc Hne) as (s' & m & Hs).
  fold bad in Hs. fold tail in Hs. rewrite Hs. eauto.
Qed.

(** Recovery of any file with a valid header ends, and either succeeds or
    reports corruption at an offset inside the file, which it leaves alone. *)
Lemma recover_total cfg ro f :
  faults f = [] -> is_bytes (contents f) -> check_database_header (contents f) = Ok tt ->
  (exists f' scan, scan_log cfg (Recover ro) f = (f', Ok scan)) \/
  (exists o m, scan_log cfg (Recover ro) f = (f, Err (Corruption o m)) /\ 16 <= o < len (contents f)).
Proof.
  intros Hf Hb Hh. pose proof (check_database_header_len _ Hh) as Hlen.
  unfold scan_log, st_bind, st_lift. rewrite f_read_all_ok, Hh by done.
  destruct (scan_file cfg (contents f)) as [[s offset] stop] eqn:E.
  destruct (scan_file_prefix cfg _ _ _ _ Hb Hlen E) as (Hoff & Hend & _).
  destruct stop as [|tail n|e].
  - left. by eexists _, _.
  - left. destruct ro; [by eexists _, _|]. unfold f_set_len, f_sync, f_call, next_fault, st_bind.
    rewrite Hf. simpl. rewrite Hf. by eexists _, _.
  - right. destruct (scan_frames_reason (S (length (contents f))) cfg (drop DATABASE_HEADER_BYTES (contents f)) 16 _ s offset (EndError e)
      ltac:(by apply Forall_drop) ltac:(rewrite length_drop; lia) E ltac:(done)) as [_ He].
    destruct (He e eq_refl) as [m ->]. exists offset, m. split; [reflexivity|].
    assert (offset <> len (contents f)) by (intros Heq; by apply Hend in Heq). lia.
Qed.
End Damage.
