(* ===== verification/Commits.v ===== *)
(** * Commits: what the writer methods do on every outcome

    Refusals of closed handles, atomicity of failed calls, and the exact effect
    of a new ordered commit and of a flush. *)
From S2P Require Import Prelude Errors Bytes Float64 Model Transaction Catalog Query Codec Effects Scan LogInv Database Refine Durable Recovery.

(** ** Refusals *)

Section Refusals.
Context `{Crc} `{RecordCodec} `{IndexCodec} `{TimeZones} {Seg : Type}.
Abbreviation Db := (Database Seg).

(** What the guards of a writer method answer. *)
Definition refusal (d : Db) : option Error :=
  if read_only d then Some ReadOnly else if poisoned d then Some Poisoned else None.

Lemma check_writable_refuses (d : Db) e : refusal d = Some e -> check_writable d = (d, Err e).
Proof.
  unfold refusal, check_writable, st_bind, st_get, st_reject, st_lift, reject.
  destruct (read_only d); [by intros [= <-]|]. destruct (poisoned d); [by intros [= <-]|done].
Qed.

Lemma refused {A} (m : ST Db A) (d : Db) e :
  refusal d = Some e -> (check_writable ;* m) d = (d, Err e).
Proof. intros Hr. unfold st_bind. by rewrite (check_writable_refuses _ e). Qed.
End Refusals.

(** ** Failed calls *)

Section Atomic.
Context `{Crc} `{RecordCodec} `{IndexCodec} `{TimeZones} {Seg : Type}.
Abbreviation Db := (Database Seg).

(** After a failed call: the memory is as before, and so is the file, unless
    the handle is poisoned, in which case at most an unsynced tail was added. *)
Definition rolled_back (d d' : Db) : Prop :=
  state d' = state d /\ config d' = config d /\ sealed d' = sealed d
  /\ ingress_durable_sequences d' = ingress_durable_sequences d
  /\ synced (file d') = synced (file d)
  /\ (contents (file d') = contents (file d)
      \/ poisoned d' = true /\ exists tail, contents (file d') = contents (file d) ++ tail).

Lemma near_rolled_back d d' : near d d' -> rolled_back d d'.
Proof. intros (g & [Hg1 Hg2] & ->). split_and!; try done. by left. Qed.

Lemma refl_rolled_back d : rolled_back d d.
Proof. apply near_rolled_back, near_refl. Qed.

Lemma poison_rolled_back d d' : near d d' -> rolled_back d (set_poisoned true d').
Proof. intros (g & [Hg1 Hg2] & ->). split_and!; try done. by left. Qed.

Lemma failed_rolled_back d d1 bs d' : near d d1 -> frame_failed d1 bs d' -> rolled_back d d'.
Proof.
  intros (g & [Hg1 Hg2] & ->) ((Hcfg & _ & Hst & Hse & _) & Hpo & [k Hk] & Hsy & Hdu). simpl in *.
  split_and!; try congruence. right. split; [done|]. rewrite Hk, Hg1. eauto.
Qed.

(** Locate the end, write the frame, then an update that cannot fail. *)
Lemma write_rolled_back d hd pl n (k : Z -> bool -> ST Db Commit) :
  (forall offset durable dw, exists d' c, k offset durable dw = (d', Ok c)) ->
  triple (fun s => s = d)
    (let* offset := on_file f_len in let* durable := write_frame hd pl n in k offset durable)
    (fun _ _ => True) (rolled_back d).
Proof.
  intros Hk. eapply triple_bind with (R := fun _ => near d).
  { eapply triple_weaken; [| | |apply (f_len_near d)]; [done|by intros ? ? [_ ?]|apply near_rolled_back]. }
  intros offset d1 d' r Hn E. unfold st_bind in E.
  destruct (write_frame hd pl n d1) as [dw rw] eqn:Ew.
  pose proof (write_frame_spec d1 hd pl n d1 dw rw eq_refl Ew) as Hw. destruct rw as [durable|e].
  - destruct (Hk offset durable dw) as (d2 & c & Hk'). rewrite Hk' in E. by injection E as <- <-.
  - injection E as <- <-. by eapply failed_rolled_back.
Qed.

Lemma empty_commit_rolled_back d b :
  triple (fun s => near d s) (empty_commit b) (fun _ _ => True) (rolled_back d).
Proof.
  intros d1 d' r Hn E. unfold empty_commit, st_bind in E.
  destruct (on_file f_len d1) as [d2 r2] eqn:El.
  pose proof (f_len_near d1 d1 d2 r2 eq_refl El) as Hn2.
  destruct r2 as [n|e]; injection E as <- <-; [done|].
  apply near_rolled_back. destruct Hn as (g & Hg & ->), Hn2 as (g2 & Hg2 & ->).
  exists g2. split; [|done]. by eapply same_file_trans.
Qed.

Lemma append_rolled_back d ps :
  triple (fun s => s = d) (append ps) (fun _ _ => True) (rolled_back d).
Proof.
  pose proof (refl_rolled_back d) as Hd. unfold append.
  apply check_writable_triple; [done|]. intros _ _. apply triple_get. intros ? ->.
  apply triple_reject; [by intros ? ->|]. intros _. apply triple_lift; [by intros ? ->|]. intros [] _.
  destruct ps as [|p ps]; [intros s ? ? ->; apply (empty_commit_rolled_back d); apply near_refl|].
  do 3 (apply triple_lift; [by intros ? ->|]; intros ? _).
  apply write_rolled_back. intros. by eexists _, _.
Qed.

Lemma payload_check_rolled_back d (m : ST File bool) (k : bool -> ST Db Commit) :
  reading m -> (forall b, triple (near d) (k b) (fun _ _ => True) (rolled_back d)) ->
  triple (fun s => s = d) (st_bind (poison_if_broken (on_file m)) k) (fun _ _ => True) (rolled_back d).
Proof.
  intros Hm Hk. apply triple_bind with (R := fun _ => near d); [|done].
  intros s s' r ->. unfold poison_if_broken. destruct (on_file m d) as [d1 r1] eqn:E.
  pose proof (on_file_reading m d Hm d d1 r1 eq_refl E) as Hn.
  destruct r1 as [b|e]; intros [= <- <-]; [done|].
  destruct (poisons e); [by apply poison_rolled_back|by apply near_rolled_back].
Qed.

Lemma commit_plain_rolled_back d t :
  triple (fun s => s = d) (commit_plain t) (fun _ _ => True) (rolled_back d).
Proof.
  pose proof (refl_rolled_back d) as Hd. unfold commit_plain. apply triple_get. intros ? ->.
  destruct (is_empty t); [intros s ? ? ->; apply (empty_commit_rolled_back d); apply near_refl|].
  apply triple_reject; [by intros ? ->|]. intros _.
  do 2 (apply triple_lift; [by intros ? ->|]; intros ? _).
  apply triple_reject; [by intros ? ->|]. intros _.
  do 2 (apply triple_lift; [by intros ? ->|]; intros ? _).
  apply write_rolled_back. intros. destruct (tx_commit_id t); by eexists _, _.
Qed.

Lemma append_ingress_rolled_back d i canonical t :
  triple (fun s => s = d) (append_ingress i canonical t) (fun _ _ => True) (rolled_back d).
Proof.
  pose proof (refl_rolled_back d) as Hd. unfold append_ingress. apply triple_get. intros ? ->.
  apply triple_reject; [by intros ? ->|]. intros _. apply triple_lift; [by intros ? ->|]. intros ? _.
  apply triple_reject; [by intros ? ->|]. intros _. apply triple_lift; [by intros ? ->|]. intros ? _.
  apply triple_reject; [by intros ? ->|]. intros _.
  do 4 (apply triple_lift; [by intros ? ->|]; intros ? _).
  apply write_rolled_back. intros ? [] ?; by eexists _, _.
Qed.

Lemma replay_ingress_rolled_back d i canonical r :
  triple (fun s => s = d) (replay_ingress i canonical r) (fun _ _ => True) (rolled_back d).
Proof.
  pose proof (refl_rolled_back d) as Hd. unfold replay_ingress.
  apply triple_reject; [by intros ? ->|]. intros _.
  apply payload_check_rolled_back; [apply reading_ingress|]. intros b.
  apply triple_reject; [apply near_rolled_back|]. intros _. apply triple_get. intros s _.
  by apply triple_ret.
Qed.

Lemma commit_rolled_back d t :
  triple (fun s => s = d) (commit t) (fun _ _ => True) (rolled_back d).
Proof.
  pose proof (refl_rolled_back d) as Hd. unfold commit. apply check_writable_triple; [done|]. intros _ _.
  destruct (tx_ingress_identity t) as [i|].
  { unfold commit_ordered_ingress. apply triple_reject; [by intros ? ->|]. intros _.
    apply triple_lift; [by intros ? ->|]. intros canonical _. apply triple_get. intros ? ->.
    destruct (ingress_receipts _ !! _); [apply replay_ingress_rolled_back|apply append_ingress_rolled_back]. }
  apply triple_get. intros ? ->. destruct (tx_commit_id t) as [id|]; [|apply commit_plain_rolled_back].
  apply triple_reject; [by intros ? ->|]. intros _. destruct (bool_decide _); [|apply commit_plain_rolled_back].
  apply triple_lift; [by intros ? ->|]. intros payload _.
  destruct (identified_receipts _ !! _); [|apply triple_err; by intros ? ->].
  apply payload_check_rolled_back; [apply reading_identified|]. intros b.
  apply triple_reject; [apply near_rolled_back|]. intros _. apply empty_commit_rolled_back.
Qed.

Lemma flush_rolled_back d : triple (fun s => s = d) flush (fun _ _ => True) (rolled_back d).
Proof.
  intros s s' r -> E. unfold flush, check_writable in E.
  unfold st_bind at 1 2, st_get, st_reject, st_lift, reject in E.
  destruct (read_only d); [injection E as <- <-; apply refl_rolled_back|]. unfold st_bind at 1 in E.
  destruct (poisoned d); [injection E as <- <-; apply refl_rolled_back|].
  unfold st_bind at 1 in E. destruct (poison_on_error (on_file f_sync) d) as [d1 r1] eqn:E1.
  destruct r1 as [[]|e]; [by injection E as <- <-|]. injection E as <- <-.
  pose proof (f_sync_near d d d1 (Err e) eq_refl E1) as (d2 & Hn & ->). by apply poison_rolled_back.
Qed.
End Atomic.

(** ** A new ordered commit *)

Section NewIngress.
Context `{Crc} `{RecordCodecLaws} `{IndexCodec} `{TimeZones} {Seg : Type}.
Abbreviation Db := (Database Seg).

(** The sync decision of a frame write. *)
Lemma write_frame_durable (d d' : Db) hd pl n durable :
  write_frame hd pl n d = (d', Ok durable) ->
  durable = should_sync (durability (config d)) (bytes_since_sync d + n).
Proof.
  unfold write_frame, poison_on_error. intros (b & s1 & E & E')%st_bind_Ok.
  destruct (write_and_sync hd pl n d) as [d1 [b1|e]] eqn:Ew; [|done]. injection E as <- <-.
  assert (durable = b1) as ->.
  { apply st_bind_Ok in E' as ([] & s2 & _ & [= _ <-]). done. }
  unfold write_and_sync in Ew. apply st_bind_Ok in Ew as ([] & s2 & E1 & Ew).
  apply st_bind_Ok in Ew as ([] & s3 & E2 & Ew). apply st_bind_Ok in Ew as ([] & s4 & [= <-] & Ew).
  apply st_bind_Ok in Ew as (d4 & s5 & [= <- <-] & Ew).
  apply st_bind_Ok in Ew as ([] & s6 & _ & [= _ <-]). unfold on_file, st_zoom in E1, E2.
  destruct (f_write_all hd (file d)) as [f1 r1]. injection E1 as <- ->.
  destruct (f_write_all pl _) as [f2 r2]. injection E2 as <- ->. done.
Qed.

(** What the in-memory state of a handle becomes. *)
Definition ingress_committed (i : IngressIdentity) (t : Transaction) (canonical : bytes)
    (cat : option Catalog) (c : Commit) (s : LogState) : LogState :=
  insert_ingress i (mkIngressReceipt i (cm_frame_offset c + 24 + 40) (len canonical) (hash canonical) None c)
    (add_commit_id (commit_id i) (count_transaction t (install_catalog cat (index_records (records t) s)))).

(** A successful commit under a key that has no receipt. *)
Lemma append_ingress_ok (d : Db) i canonical t :
  triple (fun s => s = d) (append_ingress i canonical t)
    (fun c d' => exists cat,
       (commit_id i ∉ commit_ids (state d))
       /\ is_some_and (ingress_last_sequences (state d) !! source_id i) (fun last => sequence i <=? last) = false
       /\ apply_records (catalog (state d)) (records t) = Ok cat
       /\ point_count t <= cfg_max_batch_points (config d)
       /\ 40 + len canonical <= cfg_max_transaction_bytes (config d)
       /\ contents (file d') = contents (file d)
            ++ frame_bytes (mkFrame FRAME_KIND_INGRESS_TRANSACTION (record_count t) (encode_identity i ++ canonical))
       /\ c = mkCommit (len (contents (file d))) (point_count t) (record_count t)
                (64 + len canonical)
                (should_sync (durability (config d)) (bytes_since_sync d + (64 + len canonical))) false
       /\ state d' = ingress_committed i t canonical cat c (state d)
       /\ ingress_durable_sequences d'
          = (if cm_durable c then <[source_id i := sequence i]> (ingress_last_sequences (state d))
             else ingress_durable_sequences d))
    (fun _ => True).
Proof.
  unfold append_ingress. apply triple_get. intros ? ->.
  apply triple_reject; [done|]. intros Hnew%bool_decide_eq_false.
  apply triple_lift; [done|]. intros [] Hcur%check_cursor_Ok.
  apply triple_reject; [done|]. intros Hmax. apply triple_lift; [done|]. intros n Hn%ok_or_Ok.
  apply triple_reject; [done|]. intros Hbytes. apply triple_lift; [done|]. intros cat Hcat.
  apply triple_lift; [done|]. intros n32 [-> Hn32]%ok_or_Ok%u32_try_from_Some.
  apply triple_lift; [done|]. intros c32 [-> Hc32]%ok_or_Ok%u32_try_from_Some.
  apply triple_lift; [done|]. intros cnt [-> Hcnt]%ok_or_Ok%u32_try_from_Some.
  assert (n = 40 + len canonical) as ->.
  { unfold u64_checked_add, u64_checked in Hn. destruct (in_u64 _); congruence. }
  set (payload := encode_identity i ++ canonical).
  assert (Hpl : len payload = 40 + len canonical)
    by (unfold payload, zlen; rewrite length_app, length_encode_identity; lia).
  apply triple_bind with (R := fun n d' => n = len (contents (file d)) /\ near d d').
  { eapply triple_weaken; [| | |apply (f_len_near d)]; done. }
  intros offset d1 d' r (-> & g & [Hg1 Hg2] & ->) E. unfold st_bind at 1 in E.
  destruct (write_frame _ _ _ _) as [dw rw] eqn:Ew. destruct rw as [durable|e]; [|by injection E as <- <-].
  pose proof (write_frame_durable _ _ _ _ _ _ Ew) as Hdur.
  pose proof (write_frame_spec _ _ _ _ _ _ _ eq_refl Ew) as ((_ & _ & Hst & _) & _ & Hk & _ & _ & Hdu).
  cbn [set_file file config bytes_since_sync state ingress_durable_sequences] in Hdur, Hst, Hk, Hdu.
  rewrite Hg1 in Hk.
  change (Z.of_nat FRAME_HEADER_BYTES) with 24 in *.
  assert (H64 : 24 + len payload = 64 + len canonical) by lia. rewrite H64 in *.
  assert (Hf : frame_bytes (mkFrame FRAME_KIND_INGRESS_TRANSACTION (record_count t) payload)
    = encode_frame_header FRAME_KIND_INGRESS_TRANSACTION (record_count t) (40 + len canonical) (hash payload) ++ payload)
    by (rewrite <- Hpl; reflexivity).
  rewrite <- Hf in Hk. rewrite <- Hdur. clear Hdur.
  destruct durable; injection E as <- <-; exists cat; cbn [state file set_state set_durable
    ingress_durable_sequences cm_durable]; rewrite ?Hst, ?Hdu, ?Hk; split_and!; try done; zlia.
Qed.
End NewIngress.

(** ** The whole call on a reachable handle *)

Section CommitIngress.
Context `{Crc} `{RecordCodecLaws} `{IndexCodec} `{TimeZones} {Seg : Type}.
Abbreviation Db := (Database Seg).

Lemma commit_ingress_new_Ok (d d' : Db) i t c :
  ingress_receipts (state d) !! key_of i = None -> commit_ingress i t d = (d', Ok c) ->
  exists canonical, encode_canonical_transaction t = Ok canonical /\ source_id i <> 0
    /\ append_ingress i canonical (with_ingress_identity i t) d = (d', Ok c).
Proof.
  intros Hk E. unfold commit_ingress, commit, commit_ordered_ingress in E.
  apply st_bind_Ok in E as ([] & d1 & Ew & E).
  assert (d1 = d) as ->.
  { unfold check_writable in Ew. apply st_bind_Ok in Ew as (? & ? & [= <- <-] & Ew).
    apply st_bind_Ok in Ew as ([] & ? & [-> _]%st_reject_Ok & [-> _]%st_reject_Ok). done. }
  cbn [with_ingress_identity tx_ingress_identity] in E.
  apply st_bind_Ok in E as ([] & ? & [-> Hs]%st_reject_Ok & E).
  apply st_bind_Ok in E as (canonical & ? & [-> Hc]%st_lift_Ok & E).
  apply st_bind_Ok in E as (? & ? & [= <- <-] & E). rewrite Hk in E.
  exists canonical. split; [exact Hc|]. split; [zlia|exact E].
Qed.

(** The receipt of the key a commit just wrote. *)
Lemma committed_receipt seals (d d' : Db) i t canonical cat c :
  handle_inv seals d -> state d' = ingress_committed i t canonical cat c (state d) ->
  is_some_and (ingress_last_sequences (state d) !! source_id i) (fun last => sequence i <=? last) = false ->
  ingress_durable_sequences d'
    = (if cm_durable c then <[source_id i := sequence i]> (ingress_last_sequences (state d))
       else ingress_durable_sequences d) ->
  ingress_receipt (source_id i) (sequence i) d'
  = Some (mkReceipt i (cm_frame_offset c) (cm_records c) (cm_points c) (cm_bytes_written c) (cm_durable c)).
Proof.
  intros Hi Hst Hcur Hdu. unfold ingress_receipt. rewrite Hst, Hdu. unfold ingress_committed, insert_ingress.
  cbn [ingress_receipts]. change (source_id i, sequence i) with (key_of i). rewrite lookup_insert_eq.
  f_equal. cbn [ir_identity ir_commit]. f_equal. destruct (cm_durable c) eqn:Ec.
  - rewrite lookup_insert_eq. simpl. zlia.
  - destruct (ingress_durable_sequences d !! source_id i) as [n|] eqn:En; [|done]. simpl.
    destruct (durable_le_accepted seals d (source_id i) n Hi En) as (m & Hm & Hle).
    simpl in Hm. rewrite Hm in Hcur. simpl in Hcur. zlia.
Qed.
End CommitIngress.
