(* ===== verification/StoreExact.v ===== *)
(** * StoreExact: the operations of the store keep its rollups exact

    Every active rollup file holds what the raw points of its range give.
    Appending keeps this when the points a rollup depends on are not among the
    appended ones; maintenance writes files for which it holds. *)
From S2P Require Import Prelude Errors Bytes Float64 Model Transaction Catalog Query Aggregate Rollup Codec Effects.
From S2P Require Import Segment SegmentInv RollupSegment Directory Manifest ManifestInv Planner PlannerInv Locality.
From S2P Require Import Scan LogInv Database Store StoreInv Shards StoreSweep Refine Durable Commits.

(** ** Points outside a window *)

Lemma filter_insert_rejected {A} (leb : A -> A -> bool) (f : A -> bool) x l :
  f x = false -> List.filter f (sorted_insert leb x l) = List.filter f l.
Proof.
  intros Hx. induction l as [|y l IH]; cbn; [by rewrite Hx|].
  destruct (leb y x); cbn; [by rewrite IH|by rewrite Hx].
Qed.

Lemma insert_outside index ps s lo hi :
  wf_index index -> Forall (fun p => in_window s lo hi p = false) ps ->
  List.filter (in_window s lo hi) (series_points (foldl insert_indexed_point index ps) s)
  = List.filter (in_window s lo hi) (series_points index s).
Proof.
  intros Hi Hp. revert index Hi. induction Hp as [|p ps Hp _ IH]; intros index Hi; cbn [foldl]; [done|].
  rewrite IH by (by apply insert_indexed_point_keyed). rewrite insert_indexed_point_sorted by apply Hi.
  unfold series_points at 1. destruct (decide (series p = s)) as [<-|Hne].
  - rewrite lookup_insert_eq. cbn. by apply filter_insert_rejected.
  - by rewrite lookup_insert_ne.
Qed.

Lemma foldl_insert_wf index ps : wf_index index -> wf_index (foldl insert_indexed_point index ps).
Proof. revert index. induction ps as [|p ps IH]; intros index Hi; cbn; [done|]. by apply IH, insert_indexed_point_keyed. Qed.

Section Outside.
Context {Seg : Type} `{SegmentSpec Seg}.

(** New points outside the window do not change its latest revisions. *)
Lemma query_latest_outside sealed index ps s lo hi :
  Forall seg_intact sealed -> wf_index index -> Forall (fun p => in_window s lo hi p = false) ps ->
  query_latest sealed (foldl insert_indexed_point index ps) s lo hi = query_latest sealed index s lo hi.
Proof.
  intros Hg Hi Hp. unfold query_latest.
  destruct (query_with_cutoffs_ok sealed index s lo hi None None Hg Hi) as (W1 & E1 & S1 & F1).
  destruct (query_with_cutoffs_ok sealed _ s lo hi None None Hg (foldl_insert_wf _ ps Hi)) as (W2 & E2 & S2 & F2).
  rewrite E1, E2. f_equal. apply time_strict_ext; [done|done|]. intros t. rewrite F1, F2. do 3 f_equal.
  unfold stored. rewrite !List.filter_app. f_equal.
  assert (E : forall l, List.filter (fun p => in_window s lo hi p && Query.visible None None p && at_time t p) l
    = List.filter (fun p => Query.visible None None p && at_time t p) (List.filter (in_window s lo hi) l)).
  { intros l. rewrite filter_filter. apply List.filter_ext. intros p. by rewrite andb_assoc. }
  by rewrite !E, insert_outside.
Qed.
End Outside.

(** ** What the handle's operations do to its data *)

Section Handle.
Context `{Crc} `{RecordCodec} `{IndexCodec} `{TimeZones} {Seg : Type} `{SegmentOps Seg}.
Abbreviation Db := (Database Seg).

Definition same_data (d d' : Db) : Prop := state d' = state d /\ sealed d' = sealed d.

Lemma same_data_trans d1 d2 d3 : same_data d1 d2 -> same_data d2 d3 -> same_data d1 d3.
Proof. intros [? ?] [? ?]. split; congruence. Qed.

Lemma on_file_data {A} (m : ST File A) (d d' : Db) r : on_file m d = (d', r) -> same_data d d'.
Proof. unfold on_file, st_zoom. destruct (m (file d)). by intros [= <- _]. Qed.

Lemma check_writable_same (d d' : Db) r : check_writable d = (d', r) -> d' = d.
Proof.
  unfold check_writable, st_bind, st_get, st_reject, st_lift. destruct (reject (read_only d) _); by intros [= <- _].
Qed.

Lemma stats_data (d d' : Db) r : stats d = (d', r) -> same_data d d'.
Proof.
  unfold stats, st_bind at 1. destruct (on_file f_len d) as [d1 [n|e]] eqn:E; apply on_file_data in E; by intros [= <- _].
Qed.

Lemma flush_data (d d' : Db) r : flush d = (d', r) -> same_data d d'.
Proof.
  unfold flush, st_bind at 1. destruct (check_writable d) as [d1 [[]|e]] eqn:E1; apply check_writable_same in E1 as ->;
    [|by intros [= <- _]]. unfold st_bind at 1, poison_on_error. destruct (on_file f_sync d) as [d2 [[]|e]] eqn:E2;
    apply on_file_data in E2; by intros [= <- _].
Qed.

Lemma write_frame_data (d d' : Db) hd pl n b : write_frame hd pl n d = (d', Ok b) -> same_data d d'.
Proof. intros E. apply (write_frame_spec d hd pl n d d' (Ok b) eq_refl) in E as ((_ & _ & ? & ? & _) & _). done. Qed.

Lemma append_data (d d' : Db) ps c :
  append ps d = (d', Ok c) ->
  sealed d' = sealed d /\ catalog (state d') = catalog (state d)
  /\ index (state d') = foldl insert_indexed_point (index (state d)) ps.
Proof.
  unfold append. intros ([] & d1 & E1 & E)%st_bind_Ok. apply check_writable_same in E1 as ->.
  apply st_bind_Ok in E as (? & ? & [= <- <-] & E).
  apply st_bind_Ok in E as ([] & ? & [= <- _] & E). apply st_bind_Ok in E as ([] & ? & [= <- _] & E).
  destruct ps as [|p ps].
  - unfold empty_commit in E. apply st_bind_Ok in E as (n & d2 & E & E'). apply on_file_data in E as [Es Eg].
    apply st_bind_Ok in E' as (? & ? & [= <- <-] & [= <- _]). by rewrite Es, Eg.
  - do 3 apply st_bind_Ok in E as (? & ? & [= <- _] & E).
    apply st_bind_Ok in E as (n & d2 & Ef & E). apply on_file_data in Ef as [Es Eg].
    apply st_bind_Ok in E as (b & d3 & Ew & E). apply write_frame_data in Ew as [Es' Eg'].
    injection E as <- _. cbn. rewrite Es', Eg', Es, Eg. done.
Qed.
End Handle.

(** ** Publication *)

Section Exact.
Context `{Crc} `{RecordCodec} `{IndexCodec} `{TimeZones} `{Lz4} `{MapOrder} `{ManifestCodec} `{ReadDir} `{CacheOrder}.
Context (suffix : rstring -> rstring).

(** The current names are among those that can survive, refer to files that
    exist, and cover everything cached. *)
Record wf_dirs (s : Store) : Prop := {
  wfd_rollups : fs_now (dir_state (rollup_directory s)) ∈ fs_names (dir_state (rollup_directory s));
  wfd_segments : fs_now (dir_state (segment_directory s)) ∈ fs_names (dir_state (segment_directory s));
  wfd_numbers : forall n i, fs_now (dir_state (rollup_directory s)) !! n = Some i -> (i < fs_next (dir_state (rollup_directory s)))%nat;
  wfd_cache : forall n, is_Some (rollup_cache s !! n) -> is_Some (fs_now (dir_state (rollup_directory s)) !! n);
}.

(** [s'] has the manifest [m], and answers from the files [m] names as [s] does. *)
Record moved_to (m : Manifest) (s s' : Store) : Prop := {
  moved_manifest : manifest s' = m;
  moved_database : database s' = database s;
  moved_poison : store_poisoned s' = store_poisoned s;
  moved_dirs : wf_dirs s';
  moved_files : forall r g, r ∈ rollups m -> rollup_of s r g -> rollup_of s' r g;
}.

Lemma publish_moves next s s' :
  wf_dirs s -> publish_or_poison suffix next s = (s', Ok tt) ->
  moved_to (set_rollups (List.filter rd_active (rollups next)) next) s s'.
Proof.
  intros Hw E. unfold publish_or_poison in E. set (m := set_rollups _ next) in *.
  apply st_bind_Ok in E as ([] & s1 & E1 & E). unfold on_error, on_manifests, st_zoom in E1.
  destruct (Manifest_publish _ _ _) as [dm [[]|]]; [|done]. injection E1 as <-.
  apply st_bind_Ok in E as ([] & ? & [= <-] & E). apply st_bind_Ok in E as ([] & ? & [= <-] & E).
  match type of E with remove_unreferenced_files ?x = _ => set (s2 := x) in * end.
  destruct Hw as [Hr Hg Hnum Hcache]. destruct (removal_run s2 s' (Ok tt) Hr Hg E) as (_ & [_ Hrest Hrs Hgs Hread]).
  destruct Hrs as (_ & _ & _ & Kr), Hgs as (_ & _ & _ & Kg). rewrite Hrest. split; try done.
  - split; [apply (keeps_current _ _ _ Kr)|apply (keeps_current _ _ _ Kg)| |]; cbn [rollup_directory set_segment_directory set_rollup_directory].
    + intros n k Hk. rewrite (keeps_next _ _ _ Kr). apply (keeps_gone _ _ _ Kr) in Hk. by eapply Hnum.
    + intros n [x Hx]. cbn in Hx. apply map_lookup_filter_Some in Hx as [Hx Hin]. cbn in Hin.
      rewrite (keeps_now _ _ _ Kr); [apply Hcache; by eexists|]. exists m. split; [by left|].
      apply elem_of_list_to_set in Hin. cbn [rollups m set_rollups] in Hin.
      apply list_elem_of_In, in_map_iff in Hin as (r & <- & Hr'). apply filter_In in Hr' as [Hr' _]. by apply list_elem_of_In, in_map.
  - intros r g Hin Hof. unfold rollup_of in *. cbn.
    match goal with |- match ?x !! _ with _ => _ end => assert (Hact : x !! rd_file r = rollup_cache s !! rd_file r) end.
    { apply option_eq. intros x. rewrite map_lookup_filter_Some. cbn. split; [by intros [? _]|]. intros Hx. split; [done|].
      apply elem_of_list_to_set, list_elem_of_In, in_map, filter_In. apply list_elem_of_In in Hin. split; [done|].
      unfold m, set_rollups in Hin. cbn in Hin. by apply filter_In in Hin as [_ ?]. }
    rewrite Hact. destruct (rollup_cache s !! rd_file r); [done|]. destruct Hof as (b & Hb & Ho). exists b. split; [|done].
    rewrite (keeps_visible _ _ _ _ Kr); [done|]. exists m. split; [by left|]. by apply list_elem_of_In, in_map, list_elem_of_In.
Qed.

(** ** Exact stores *)

(** The range of a rollup is a union of buckets, and its file holds what the
    raw points give for it. *)
Record current_rollup (s : Store) (r : RollupDescriptor) : Prop := {
  cur_range : rd_start r < rd_end r;
  cur_aligned : forall t a b, bucket_of (tier_bounds (rd_resolution r)) t (a, b) -> a < rd_end r -> rd_start r < b ->
    rd_start r <= a /\ b <= rd_end r;
  cur_start : is_i64 (rd_start r);
  cur_end : rd_end r + Z.max (gap_of (catalog (state (database s))) (rd_series r)) 1 <= i64_max;
  cur_buckets : exists g, rollup_of s r g
    /\ materialize_raw_range (database s) (rd_series r) (rd_start r) (rd_end r) (rd_resolution r)
         (gap_of (catalog (state (database s))) (rd_series r)) = Ok (rollup_buckets g);
}.

Definition same_tier (a b : RollupDescriptor) : Prop := rd_series a = rd_series b /\ rd_resolution a = rd_resolution b.

Record exact_store (s : Store) : Prop := {
  exact_dirs : wf_dirs s;
  exact_database : sound_database (database s);
  exact_current : forall r, r ∈ rollups (manifest s) -> rd_active r = true -> current_rollup s r;
  exact_disjoint : forall a b t, a ∈ rollups (manifest s) -> b ∈ rollups (manifest s) ->
    rd_active a = true -> rd_active b = true -> same_tier a b -> covers t a -> covers t b -> a = b;
}.

Lemma active_for_spec series res r :
  active_for series res r = true <-> rd_active r = true /\ rd_series r = series /\ rd_resolution r = res.
Proof. unfold active_for. rewrite !andb_true_iff, Z.eqb_eq, bool_decide_eq_true. tauto. Qed.

(** A current file holds its part of the whole rollup. *)
Lemma current_exact s r minimum `{!Partition (tier_bounds (rd_resolution r)) minimum} full :
  sound_database (database s) -> current_rollup s r ->
  whole_rollup (database s) (rd_series r) (rd_resolution r) (gap_of (catalog (state (database s))) (rd_series r)) = Ok full ->
  exact_rollup s full r.
Proof.
  intros Hd [Hr Ha Hs He (g & Hg & Eg)] Hw. split.
  - split; [done|]. intros b Hb Ho. unfold whole_rollup in Hw. apply bind_Ok in Hw as (W & HW & Hm).
    pose proof (query_latest_i64 _ _ i64_min i64_max W Hd (Z.le_refl _) (Z.le_refl _) HW) as Ht.
    destruct (materialize_whole _ minimum _ _ _ Hm Ht) as [Hp _]. rewrite Forall_forall in Hp. specialize (Hp b Hb).
    unfold overlaps_window, inside in *. zbool. destruct (Ha _ _ _ Hp); [lia..|]. apply andb_true_iff. rewrite !Z.leb_le. lia.
  - exists g. split; [done|].
    rewrite (raw_range_exact _ _ _ minimum _ full) in Eg by (done || lia). by injection Eg as <-.
Qed.
(** Gauge queries of an exact store. *)
Lemma exact_store_query s series definition res minimum `{!Partition (tier_bounds res) minimum} full start stop lo e1 s2 hi :
  let max_gap := gap_of (catalog (state (database s))) series in
  exact_store s -> quiet s -> store_poisoned s = false ->
  series_map (catalog (state (database s))) !! series = Some definition -> is_gauge definition = true ->
  whole_rollup (database s) series res max_gap = Ok full -> is_i64 start -> is_i64 stop -> start < stop ->
  tier_bounds res start = Ok (lo, e1) -> tier_bounds res (stop - 1) = Ok (s2, hi) -> is_i64 lo ->
  hi + Z.max max_gap 1 <= i64_max ->
  exists s' source, query_gauge series start stop res s
      = (s', Ok (mkRollupQuery (List.filter (overlaps_window start stop) full) source (generation (manifest s))))
    /\ database s' = database s /\ manifest s' = manifest s.
Proof.
  intros max_gap [_ Hd Hc Hdis] Hq Hp Hdef Hg Hw Hs He Hlt H1' H2' Hlo Hhi.
  assert (Egap : max_gap = default 0 (series_maximum_gap_micros definition)) by (unfold max_gap, gap_of; by rewrite Hdef).
  assert (Hu : forall r, r ∈ List.filter (fun r => active_for series res r && (rd_source_points r =? source_points (database s)))
                       (rollups (manifest s)) ->
    r ∈ rollups (manifest s) /\ rd_active r = true /\ rd_series r = series /\ rd_resolution r = res).
  { intros r [Hin Hr]%list_elem_of_In%filter_In. apply andb_true_iff in Hr as [Hr _]. apply active_for_spec in Hr.
    split; [by apply list_elem_of_In|done]. }
  eapply (query_gauge_exact s series definition res minimum full start stop lo e1 s2 hi); rewrite <- ?Egap; try done.
  - intros r (Hin & Ha & Es & Er)%Hu. subst series res. by eapply current_exact; eauto.
  - intros a b t (Ha & Haa & Eas & Ear)%Hu (Hb & Hba & Ebs & Ebr)%Hu. eapply Hdis; try done. split; congruence.
Qed.

(** ** Appending *)

(** No point lies after a rollup and within the gap that still reaches it. *)
Definition clear_of_tail (c : Catalog) (ps : list Point) (r : RollupDescriptor) : Prop :=
  Forall (fun p => series p = rd_series r -> rd_end r < valid_time p ->
                   rd_end r + Z.max (gap_of c (rd_series r)) 1 <= valid_time p) ps.

Lemma unaffected_outside c ps r :
  i64_min <= rd_end r -> affected c ps r = false -> clear_of_tail c ps r ->
  Forall (fun p => in_window (rd_series r) (i64_saturating_sub (rd_start r) (gap_of c (rd_series r)))
                     (i64_saturating_add (rd_end r) (Z.max (gap_of c (rd_series r)) 1)) p = false) ps.
Proof.
  intros Hmin Ha Ht. unfold clear_of_tail in Ht. rewrite Forall_forall in Ht. apply Forall_forall. intros p Hp. specialize (Ht p Hp).
  assert (Hn : (series p =? rd_series r) && (i64_saturating_sub (rd_start r) (gap_of c (rd_series r)) <=? valid_time p)
               && (valid_time p <=? rd_end r) = false).
  { destruct (_ && _ && _) eqn:E; [|done]. exfalso. unfold affected in Ha.
    assert (Hx : existsb (fun p => (series p =? rd_series r)
      && (i64_saturating_sub (rd_start r) (gap_of c (rd_series r)) <=? valid_time p) && (valid_time p <=? rd_end r)) ps = true)
      by (apply existsb_exists; exists p; split; [by apply list_elem_of_In|done]). congruence. }
  unfold in_window. destruct (Z.eqb_spec (series p) (rd_series r)) as [E|]; [|done]. cbn in *.
  destruct (i64_saturating_sub _ _ <=? valid_time p); [|done]. cbn in *. apply Z.leb_gt in Hn.
  specialize (Ht E ltac:(lia)). apply Z.ltb_ge. unfold i64_saturating_add. lia.
Qed.

(** Everything but the provenance and the activity of a rollup. *)
Definition same_rollup (r r' : RollupDescriptor) : Prop :=
  rd_file r' = rd_file r /\ rd_series r' = rd_series r /\ rd_resolution r' = rd_resolution r
  /\ rd_start r' = rd_start r /\ rd_end r' = rd_end r.

Lemma rollup_of_same s s' r r' g :
  rd_file r' = rd_file r -> rollup_cache s' = rollup_cache s -> rollup_directory s' = rollup_directory s ->
  rollup_of s r g -> rollup_of s' r' g.
Proof. unfold rollup_of. by intros -> -> ->. Qed.

Lemma current_after s s' r r' ps :
  same_rollup r r' -> sound_database (database s) -> sealed (database s') = sealed (database s) ->
  index (state (database s')) = foldl insert_indexed_point (index (state (database s))) ps ->
  gap_of (catalog (state (database s'))) (rd_series r) = gap_of (catalog (state (database s))) (rd_series r) ->
  (forall g, rollup_of s r g -> rollup_of s' r' g) ->
  affected (catalog (state (database s))) ps r = false -> clear_of_tail (catalog (state (database s))) ps r ->
  current_rollup s r -> current_rollup s' r'.
Proof.
  intros (Ef & Es & Er & E1 & E2) [Hg Hi] Eg Ei Egap Hof Ha Ht [Hr Hal Hs He (g & Hrg & Eb)].
  split; rewrite ?Es, ?Er, ?E1, ?E2, ?Egap; try done. exists g. split; [by apply Hof|].
  unfold materialize_raw_range in *. cbv zeta in *. rewrite Eg, Ei.
  rewrite query_latest_outside; [exact Eb|done|done|]. apply unaffected_outside; [|done|done].
  unfold is_i64, i64_min in *. lia.
Qed.

Lemma on_database_run {A} (m : ST (Database Segment) A) s s' r :
  on_database m s = (s', r) -> exists d, m (database s) = (d, r) /\ s' = set_database d s.
Proof. unfold on_database, st_zoom. destruct (m (database s)) as [d x]. intros [= <- <-]. by exists d. Qed.

Lemma set_database_twice d d' s : set_database d (set_database d' s) = set_database d s.
Proof. done. Qed.

Lemma wf_dirs_database s d : wf_dirs s -> wf_dirs (set_database d s).
Proof. intros [? ? ? ?]. by split. Qed.

Lemma any_active_false m r : any_active m = false -> r ∈ rollups m -> rd_active r = false.
Proof.
  intros Hn Hr. destruct (rd_active r) eqn:E; [|done]. unfold any_active in Hn.
  assert (Hx : existsb rd_active (rollups m) = true) by (apply existsb_exists; exists r; split; [by apply list_elem_of_In|done]).
  congruence.
Qed.

(** The data of a handle after the points [ps]. *)
Definition extended (d d' : Database Segment) (ps : list Point) : Prop :=
  sealed d' = sealed d /\ index (state d') = foldl insert_indexed_point (index (state d)) ps.

Lemma extended_sound d d' ps : extended d d' ps -> sound_database d -> sound_database d'.
Proof. intros [Eg Ei] [Hg Hi]. split; [by rewrite Eg|rewrite Ei; by apply foldl_insert_wf]. Qed.

Lemma inactive_exact s d ps :
  exact_store s -> extended (database s) d ps -> any_active (manifest s) = false -> exact_store (set_database d s).
Proof.
  intros [Hw Hd Hc Hx] He Hn. split; [by apply wf_dirs_database|by eapply extended_sound| |].
  - intros r Hr Ha. cbn in Hr. rewrite (any_active_false _ r Hn Hr) in Ha. done.
  - intros a b t Ha Hb Haa. cbn in Ha. rewrite (any_active_false _ a Hn Ha) in Haa. done.
Qed.

Lemma advance_one_active c st ps r :
  rd_active (advance_one c st ps r) = true ->
  rd_active r = true /\ affected c ps r = false /\ same_rollup r (advance_one c st ps r).
Proof.
  unfold advance_one. destruct (rd_active r) eqn:E; cbn; [|congruence]. by destruct (affected c ps r).
Qed.

Lemma advance_exact s d s' ps :
  exact_store s -> extended (database s) d ps ->
  (forall r, r ∈ rollups (manifest s) -> rd_active r = true ->
    gap_of (catalog (state d)) (rd_series r) = gap_of (catalog (state (database s))) (rd_series r)
    /\ clear_of_tail (catalog (state (database s))) ps r) ->
  advance_after_points suffix ps (set_database d s) = (s', Ok tt) -> exact_store s'.
Proof.
  intros Hex He Hactive E. unfold advance_after_points in E. apply st_bind_Ok in E as (st & s1 & E1 & E).
  apply on_database_run in E1 as (d1 & E1 & ->). apply stats_data in E1 as [Es1 Eg1]. cbn [database set_database] in Es1, Eg1.
  apply st_bind_Ok in E as (? & ? & [= <- <-] & E). cbn [manifest set_database database] in E.
  assert (He1 : extended (database s) d1 ps) by (destruct He; split; congruence).
  rewrite set_database_twice in E. destruct (any_active (manifest s)) eqn:Hn; cycle 1.
  { injection E as <-. by eapply inactive_exact. }
  destruct Hex as [Hw Hd Hc Hx].
  apply publish_moves in E as [Em Edb _ Hw' Hf]; [|by apply wf_dirs_database]. cbn [database set_database] in Edb.
  assert (Hin : forall r', r' ∈ rollups (manifest s') -> exists r, r ∈ rollups (manifest s) /\ rd_active r = true
     /\ affected (catalog (state d1)) ps r = false /\ same_rollup r r' /\ r' = advance_one (catalog (state d1)) st ps r).
  { intros r' Hr'. rewrite Em in Hr'. cbn in Hr'. apply list_elem_of_In, filter_In in Hr' as [Hr' Ha'].
    apply in_map_iff in Hr' as (r & <- & Hr). apply advance_one_active in Ha' as (Ha & Haf & Hsame).
    exists r. split; [by apply list_elem_of_In|done]. }
  split; [done|rewrite Edb; by eapply extended_sound| |].
  - intros r' Hr' _. destruct (Hin r' Hr') as (r & Hr & Ha & Haf & Hsame & Er). destruct (Hactive r Hr Ha) as [Egap Ht].
    destruct He1 as [Eg Ei].
    assert (Haf' : affected (catalog (state (database s))) ps r = false)
      by (unfold affected in *; rewrite Es1, Egap in Haf; exact Haf).
    eapply (current_after s s' r r' ps); rewrite ?Edb; try done; [by rewrite Es1| |by apply Hc].
    intros g Hof. apply Hf; [by rewrite <- Em|]. eapply rollup_of_same; [|done|done|exact Hof]. apply Hsame.
  - intros a b t Ha Hb _ _ Hs Hca Hcb. destruct (Hin a Ha) as (a0 & Ha0 & Haa & _ & (F1 & F2 & F3 & F4 & F5) & ->).
    destruct (Hin b Hb) as (b0 & Hb0 & Hba & _ & (G1 & G2 & G3 & G4 & G5) & ->). f_equal.
    unfold same_tier, covers in *. apply (Hx a0 b0 t); try done; unfold same_tier, covers; [|lia..].
    rewrite <- F2, <- F3, <- G2, <- G3. done.
Qed.

Lemma durable_exact s d s' ps c c' :
  exact_store s -> extended (database s) d ps ->
  (forall r, r ∈ rollups (manifest s) -> rd_active r = true ->
    gap_of (catalog (state d)) (rd_series r) = gap_of (catalog (state (database s))) (rd_series r)
    /\ clear_of_tail (catalog (state (database s))) ps r) ->
  make_durable_and_advance suffix ps c (set_database d s) = (s', Ok c') -> exact_store s'.
Proof.
  intros Hex He Hactive E. unfold make_durable_and_advance in E. apply st_bind_Ok in E as (c1 & s1 & E1 & E).
  assert (Hd1 : exists d1, s1 = set_database d1 s /\ state d1 = state d /\ sealed d1 = sealed d).
  { destruct (cm_durable c); [injection E1 as <- <-; by exists d|]. apply st_bind_Ok in E1 as ([] & s2 & E1 & [= <- <-]).
    apply on_database_run in E1 as (d1 & E1 & ->). apply flush_data in E1 as [Ea Eb]. exists d1. by rewrite set_database_twice. }
  destruct Hd1 as (d1 & -> & Ea & Eb). apply st_bind_Ok in E as ([] & s3 & E & [= <- _]).
  eapply (advance_exact s d1 s3 ps); [done| | |exact E].
  - destruct He. split; congruence.
  - by rewrite Ea.
Qed.

(** Appending keeps the store exact, unless an appended point is in the tail of
    a rollup. *)
Lemma append_keeps_exact s s' ps c :
  exact_store s -> Store_append suffix ps s = (s', Ok c) ->
  (forall r, r ∈ rollups (manifest s) -> rd_active r = true -> clear_of_tail (catalog (state (database s))) ps r) ->
  exact_store s'.
Proof.
  intros Hex E Ht. unfold Store_append in E. apply st_bind_Ok in E as ([] & s0 & E0 & E).
  assert (s0 = s) as ->.
  { unfold ensure_writable, ensure_healthy, st_bind, st_get, st_reject, st_lift in E0.
    destruct (reject (store_read_only s) _) as [[]|]; [|done]. by injection E0 as <- _. }
  apply st_bind_Ok in E as (c1 & s1 & E1 & E). apply on_database_run in E1 as (d & E1 & ->).
  apply append_data in E1 as (Eg & Ec & Ei). apply st_bind_Ok in E as (? & ? & [= <- <-] & E).
  cbn [manifest set_database] in E. assert (He : extended (database s) d ps) by done.
  destruct ps as [|p ps].
  - injection E as <- _. destruct (any_active (manifest s)) eqn:Hn; [|by eapply inactive_exact].
    destruct Hex as [Hw Hd Hc Hx]. split; [by apply wf_dirs_database|by eapply extended_sound| |done].
    intros r Hr Ha. eapply (current_after s _ r r []); cbn [database set_database]; try done; [by rewrite Ec| |by apply Hc].
    constructor.
  - destruct (any_active (manifest s)) eqn:Hn; [|injection E as <- _; by eapply inactive_exact].
    eapply (durable_exact s d s' (p :: ps)); [done|done| |exact E]. intros r Hr Ha. rewrite Ec. split; [done|by apply Ht].
Qed.
End Exact.
