(* ===== verification/StoreMaintain.v ===== *)
(** * StoreMaintain: maintenance writes exact rollups

    Every file [maintain] writes holds what the raw points of its range give,
    the files of the rollups it keeps stay as they are, and overlapping rollups
    are dropped: the store stays exact. *)
From S2P Require Import Prelude Errors Bytes Float64 Model Transaction Catalog Query Aggregate Rollup Codec Effects.
From S2P Require Import Segment SegmentInv RollupSegment Directory Manifest ManifestInv Planner PlannerInv Locality.
From S2P Require Import Scan LogInv Database Store StoreInv Shards StoreSweep Refine Durable Commits StoreExact.

(** ** Creating a file *)

Section Create.

Lemma dir_call_Ok {A} (op : Fault + unit -> Dir -> Dir * Result A) d d' a :
  dir_call op d = (d', Ok a) -> exists f d0, dir_state d0 = dir_state d /\ op f d0 = (d', Ok a).
Proof.
  unfold dir_call. destruct (dir_faults d) as [|[f|] rest]; intros E.
  - by exists (inr tt), d.
  - by exists (inl f), (mkDir (dir_state d) (dir_past d) rest).
  - by exists (inr tt), (mkDir (dir_state d) (dir_past d) rest).
Qed.

Lemma create_new_Ok name d d' i :
  d_create_new name d = (d', Ok i) ->
  let s := dir_state d in
  fs_now s !! name = None /\ i = fs_next s
  /\ dir_state d' = mkDirState (<[name := i]> (fs_now s)) (<[name := i]> (fs_now s) :: fs_names s)
                      (<[i := ([], false)]> (fs_files s)) (S i).
Proof.
  intros (f & d0 & <- & E)%dir_call_Ok. cbv beta zeta in E. destruct f; [done|]. destruct (fs_now (dir_state d0) !! name) eqn:En; [done|].
  by injection E as <- <-.
Qed.

Lemma write_all_Ok i data d d' :
  d_write_all i data d = (d', Ok tt) ->
  dir_state d' = Directory.set_file i (default [] (fst <$> fs_files (dir_state d) !! i) ++ data, false) (dir_state d).
Proof. intros (f & d0 & <- & E)%dir_call_Ok. cbv beta zeta in E. destruct f; [done|]. by injection E as <-. Qed.

Lemma sync_file_Ok i d d' :
  d_sync_file i d = (d', Ok tt) ->
  dir_state d' = Directory.set_file i (default [] (fst <$> fs_files (dir_state d) !! i), true) (dir_state d).
Proof. intros (f & d0 & <- & E)%dir_call_Ok. cbv beta zeta in E. destruct f; [done|]. by injection E as <-. Qed.

Lemma hard_link_Ok source target d d' :
  d_hard_link source target d = (d', Ok tt) ->
  exists i, fs_now (dir_state d) !! source = Some i /\ fs_now (dir_state d) !! target = None
    /\ dir_state d' = set_names (<[target := i]> (fs_now (dir_state d))) (dir_state d).
Proof.
  intros (f & d0 & <- & E)%dir_call_Ok. cbv beta zeta in E. destruct f; [done|].
  destruct (fs_now (dir_state d0) !! source) as [i|] eqn:E1; [|done].
  destruct (fs_now (dir_state d0) !! target) eqn:E2; [done|]. injection E as <-. by exists i.
Qed.

Lemma remove_file_Ok name d d' :
  d_remove_file name d = (d', Ok tt) -> dir_state d' = set_names (delete name (fs_now (dir_state d))) (dir_state d).
Proof.
  intros (f & d0 & <- & E)%dir_call_Ok. cbv beta zeta in E. destruct f; [done|]. destruct (fs_now (dir_state d0) !! name); [|done].
  by injection E as <-.
Qed.

Lemma sync_dir_Ok d d' :
  d_sync_dir d = (d', Ok tt) ->
  dir_state d' = mkDirState (fs_now (dir_state d)) [fs_now (dir_state d)] (fs_files (dir_state d)) (fs_next (dir_state d)).
Proof. intros (f & d0 & <- & E)%dir_call_Ok. cbv beta zeta in E. destruct f; [done|]. by injection E as <-. Qed.

Lemma on_error_Ok {S A} (op : ST S A) h s s' a : on_error op h s = (s', Ok a) -> op s = (s', Ok a).
Proof. unfold on_error. destruct (op s) as [s1 [x|e]]; [done|]. by destruct (h s1). Qed.

(** What a successful publication of one chunk leaves. *)
Record published_file (target : rstring) (file : bytes) (s s' : DirState) : Prop := {
  pub_absent : fs_now s !! target = None;
  pub_target : visible s' !! target = Some file;
  pub_others : forall n, n <> target -> visible s' !! n = visible s !! n;
  pub_names : forall n, n <> target -> fs_now s' !! n = fs_now s !! n;
  pub_named : is_Some (fs_now s' !! target);
  pub_current : fs_now s' ∈ fs_names s';
  pub_numbers : forall n i, fs_now s' !! n = Some i -> (i < fs_next s')%nat;
}.

Lemma publish_new_Ok temporary target file d d' :
  temporary <> target -> (forall n i, fs_now (dir_state d) !! n = Some i -> (i < fs_next (dir_state d))%nat) ->
  publish_new temporary target [file] d = (d', Ok tt) -> published_file target file (dir_state d) (dir_state d').
Proof.
  intros Hne Hnum E. unfold publish_new in E. apply st_bind_Ok in E as ([] & d1 & E1%on_error_Ok & E).
  unfold write_synced in E1. apply st_bind_Ok in E1 as (i & d2 & (Hfresh & Ei & S2)%create_new_Ok & E1).
  apply st_bind_Ok in E1 as ([] & d3 & E3 & S1%sync_file_Ok). cbn [st_for_each] in E3.
  apply st_bind_Ok in E3 as ([] & d4 & S4%write_all_Ok & [= <-]).
  apply st_bind_Ok in E as ([] & d5 & (j & Hj & Ht & S5)%on_error_Ok%hard_link_Ok & E).
  apply st_bind_Ok in E as ([] & d6 & S6%sync_dir_Ok & E). apply st_bind_Ok in E as ([] & d7 & S7%remove_file_Ok & S8%sync_dir_Ok).
  destruct (dir_state d) as [now names files next] eqn:Ed. cbn in *. subst i.
  rewrite S2 in S4. cbn in S4. rewrite lookup_insert_eq in S4. cbn in S4.
  rewrite S4 in S1. cbn in S1. rewrite lookup_insert_eq in S1. cbn in S1. rewrite S1 in *. cbn in *.
  rewrite lookup_insert_eq in Hj. injection Hj as <-. rewrite lookup_insert_ne in Ht by done.
  rewrite S5 in S6. cbn in S6. rewrite S6 in S7. cbn in S7. rewrite S7 in S8. cbn in S8. rewrite S8.
  set (now' := delete temporary (<[target:=next]> (<[temporary:=next]> now))).
  assert (Hother : forall n, n <> target -> now' !! n = now !! n).
  { intros n Hn. unfold now'. destruct (decide (n = temporary)) as [->|Hnt]; [by rewrite lookup_delete_eq|].
    by rewrite lookup_delete_ne, !lookup_insert_ne by done. }
  assert (Htarget : now' !! target = Some next) by (unfold now'; by rewrite lookup_delete_ne, lookup_insert_eq).
  split; cbn; try done.
  - unfold visible. rewrite lookup_omap. cbn. rewrite Htarget. cbn. by rewrite lookup_insert_eq.
  - intros n Hn. unfold visible. rewrite !lookup_omap. cbn. rewrite Hother by done.
    destruct (now !! n) as [k|] eqn:Ek; [|done]. cbn. specialize (Hnum n k Ek). by rewrite !lookup_insert_ne by lia.
  - by apply list_elem_of_singleton.
  - intros n k Hk. destruct (decide (n = target)) as [->|Hn]; [rewrite Htarget in Hk; injection Hk; lia|].
    rewrite Hother in Hk by done. specialize (Hnum n k Hk). lia.
Qed.
End Create.

Section Maintain.
Context `{Crc} `{RecordCodec} `{IndexCodec} `{TimeZones} `{Lz4} `{!Lz4Laws} `{MapOrder} `{ManifestCodec} `{ReadDir} `{CacheOrder}.
Context (suffix : rstring -> rstring).

Lemma temporary_distinct target t : temporary_name target t <> target.
Proof.
  intros E. apply (f_equal length) in E. unfold temporary_name in E. rewrite !length_app in E. cbn in E. lia.
Qed.

(** A rollup file that was created holds its buckets. *)
Lemma create_in_Ok target l st d d' :
  (forall n i, fs_now (dir_state d) !! n = Some i -> (i < fs_next (dir_state d))%nat) ->
  RollupSegment_create_in suffix target l d = (d', Ok st) -> (validate_buckets l 0 = Ok tt -> Forall typed_bucket l) ->
  exists file, published_file target file (dir_state d) (dir_state d') /\ RollupSegment_open file = Ok (mkRollupSegment l st).
Proof.
  intros Hnum E Htyped. unfold RollupSegment_create_in in E.
  apply st_bind_Ok in E as ([] & ? & E0 & E). unfold st_reject, st_lift in E0. injection E0 as <- E0.
  apply st_bind_Ok in E as ([] & ? & E1 & E). unfold st_lift in E1. injection E1 as <- E1.
  apply st_bind_Ok in E as (? & ? & [= <- <-] & E). apply st_bind_Ok in E as ([] & ? & E2 & E).
  unfold st_reject, st_lift in E2. injection E2 as <- E2.
  destruct (write_temporary l) as [[file st']|e] eqn:Ew.
  - apply st_bind_Ok in E as ([] & d1 & E & [= <- <-]). exists file. split.
    + eapply publish_new_Ok; [apply temporary_distinct|done|exact E].
    + apply (rollup_create_open (d_exists target d)); [|by apply Htyped]. unfold RollupSegment_create.
      rewrite E0, E1. cbn [bind]. rewrite E2. cbn [bind]. exact Ew.
  - apply on_error_Ok in E. done.
Qed.

(** ** One file *)

(** What maintenance has so far: [s] is the store, [l] the rollups of the next
    manifest, [s0] where it began. *)
Record progressing (s0 s : Store) (l : list RollupDescriptor) : Prop := {
  prog_dirs : wf_dirs s;
  prog_database : database s = database s0;
  prog_manifest : manifest s = manifest s0;
  prog_files : forall r g, rollup_of s0 r g -> rollup_of s r g;
  prog_current : forall r, r ∈ l -> rd_active r = true -> current_rollup s r;
  prog_disjoint : forall a b t, a ∈ l -> b ∈ l -> rd_active a = true -> rd_active b = true -> same_tier a b ->
    covers t a -> covers t b -> a = b;
}.

Lemma current_moves s s' r :
  database s' = database s -> (forall g, rollup_of s r g -> rollup_of s' r g) -> current_rollup s r -> current_rollup s' r.
Proof.
  intros Ed Hf [Hr Ha Hs He (g & Hg & Eg)]. split; rewrite ?Ed; try done. exists g. split; [by apply Hf|done].
Qed.

(** A new file does not disturb what is read for the others. *)
Lemma created_keeps s d' target file :
  wf_dirs s -> published_file target file (dir_state (rollup_directory s)) (dir_state d') ->
  wf_dirs (set_rollup_directory d' s) /\ forall r g, rollup_of s r g -> rollup_of (set_rollup_directory d' s) r g.
Proof.
  intros [Hr Hg Hn Hc] Hp. split.
  - split; cbn; [apply Hp|done|apply Hp|]. intros n Hin. destruct (decide (n = target)) as [->|Hne]; [apply Hp|].
    rewrite (pub_names _ _ _ _ Hp) by done. by apply Hc.
  - intros r g. unfold rollup_of. cbn. destruct (rollup_cache s !! rd_file r); [done|]. intros (b & Hb & Eb). exists b.
    split; [|done]. rewrite (pub_others _ _ _ _ Hp); [done|]. intros E. rewrite E in Hb. unfold visible in Hb.
    by rewrite lookup_omap, (pub_absent _ _ _ _ Hp) in Hb.
Qed.

Lemma update_where_active hit l r :
  r ∈ (update_where hit (set_active false) l).1 -> rd_active r = true -> r ∈ l /\ hit r = false.
Proof.
  unfold update_where. cbn. intros (x & <- & Hx)%list_elem_of_In%in_map_iff. destruct (hit x) eqn:E; [done|].
  intros _. split; [by apply list_elem_of_In|done].
Qed.

(** A shard that is ready to be written. *)
Record good_shard (d : Database Segment) (series : Z) (res : RollupResolution) (max_gap : Z) (sh : RollupShard) : Prop := {
  gs_range : shard_start sh < shard_end sh;
  gs_whole : whole_buckets res (shard_start sh) (shard_end sh);
  gs_start : is_i64 (shard_start sh);
  gs_end : shard_end sh + Z.max max_gap 1 <= i64_max;
  gs_raw : materialize_raw_range d series (shard_start sh) (shard_end sh) res max_gap = Ok (shard_buckets sh);
  gs_typed : validate_buckets (shard_buckets sh) 0 = Ok tt -> Forall typed_bucket (shard_buckets sh);
}.

Lemma maintain_shard_progress s0 s s' p p' definition res sh nonce gen st :
  progressing s0 s (rollups (next p)) ->
  good_shard (database s) (series_id definition) res (gap_of (catalog (state (database s))) (series_id definition)) sh ->
  maintain_shard suffix nonce gen st definition res p sh s = (s', Ok p') -> progressing s0 s' (rollups (next p')).
Proof.
  intros [Hw Hd Hm Hf Hc Hx] [Hr Hwh Hs He Hraw Ht] E. unfold maintain_shard in E.
  destruct (existsb _ (rollups (next p))) in E; [by injection E as <- <-|].
  set (hit := fun r => active_for (series_id definition) res r && _) in E. 
  destruct (update_where hit _ _) as [rest b] eqn:Eu.
  apply st_bind_Ok in E as (written & s1 & E1 & [= <- <-]). cbn [next set_rollups rollups].
  set (file := rollup_file_name _ _ _ _ _) in *. clearbody file. unfold on_rollups, st_zoom in E1.
  destruct (RollupSegment_create_in _ _ _ _) as [d' x] eqn:Ec. injection E1 as <- ->.
  apply create_in_Ok in Ec as (bytes & Hp & Ho); [|apply Hw|done].
  destruct (created_keeps s d' file bytes Hw Hp) as [Hw' Hk].
  set (new := mkRollupDescriptor file _ _ _ _ _ _ _).
  assert (Hin : forall r, r ∈ rest ++ [new] -> rd_active r = true -> (r ∈ rollups (next p) /\ hit r = false) \/ r = new).
  { intros r [Hr'| ->%list_elem_of_singleton]%elem_of_app Ha; [left|by right].
    eapply update_where_active; [|done]. by rewrite Eu. }
  split; [done|done|done|by intros r g Hg; apply Hk, Hf| |].
  - intros r Hr' Ha. destruct (Hin r Hr' Ha) as [[Hold _]| ->].
    + eapply current_moves; [|by apply Hk|by apply Hc]. done.
    + split; cbn; try done. exists (mkRollupSegment (shard_buckets sh) written). split; [|exact Hraw]. unfold rollup_of. cbn.
      assert (Eg : rollup_cache s !! file = None).
      { destruct (rollup_cache s !! file) as [g|] eqn:Eg; [|done]. exfalso.
        destruct (wfd_cache _ Hw file) as [i Hi]; [by eexists|]. by rewrite (pub_absent _ _ _ _ Hp) in Hi. }
      rewrite Eg. exists bytes. split; [apply Hp|exact Ho].
  - assert (Hnew : forall a t, hit a = false -> rd_active a = true -> same_tier a new -> covers t a -> covers t new -> False).
    { intros a t Hh Ha [E1 E2] Ca Cn. unfold covers in *. cbn in *. unfold hit, active_for, ranges_overlap in Hh.
      rewrite Ha, E1, E2, Z.eqb_refl, bool_decide_true in Hh by done. cbn in Hh.
      apply andb_false_iff in Hh as [Hh|Hh]; zbool; lia. }
    intros a c t Ha Hc' Haa Hca Hst Cva Cvc.
    destruct (Hin a Ha Haa) as [[Ha' Hha]| ->], (Hin c Hc' Hca) as [[Hc'' Hhc]| ->]; [by eapply Hx| | |done].
    + exfalso. by eapply (Hnew a t).
    + exfalso. eapply (Hnew c t); try done. by destruct Hst.
Qed.

(** ** One tier *)

(** The points of a database are typed. *)
Definition typed_points (d : Database Segment) : Prop :=
  forall series, Forall typed_point (stored (sealed d) (index (state d)) series).

Lemma strict_times_bound W lo hi :
  time_strict W -> Forall (fun p => lo <= valid_time p < hi) W -> len W <= Z.max 0 (hi - lo).
Proof.
  intros Hs. revert lo. induction Hs as [|p W Hs IH Hp]; intros lo Hw; [unfold zlen; cbn; lia|].
  apply Forall_cons in Hw as [Hw1 Hw]. specialize (IH (valid_time p + 1)).
  rewrite Forall_forall in Hp, Hw, IH. assert (len W <= Z.max 0 (hi - (valid_time p + 1))).
  { apply IH. intros q Hq. specialize (Hp q Hq). specialize (Hw q Hq). lia. }
  unfold zlen in *. cbn [length]. lia.
Qed.

(** So there are fewer than [2^64] latest revisions. *)
Lemma typed_latest d series lo hi W :
  sound_database d -> typed_points d -> hi <= i64_max -> query_latest (sealed d) (index (state d)) series lo hi = Ok W ->
  Forall typed_point W /\ len W <= u64_max.
Proof.
  intros Hd Ht Hhi E. destruct (query_latest_stored _ _ _ _ _ _ (sound_sealed _ Hd) (sound_index _ Hd) E) as [Hs Hw].
  assert (HW : Forall typed_point W).
  { apply Forall_forall. intros p Hp. specialize (Ht series). rewrite Forall_forall in Ht. apply Ht. by apply Hw. }
  split; [done|]. enough (len W <= i64_max - i64_min) by (unfold i64_max, i64_min, u64_max in *; lia).
  eapply Z.le_trans; [apply (strict_times_bound W i64_min i64_max); [done|]|unfold i64_max, i64_min; lia].
  apply Forall_forall. intros p Hp. rewrite Forall_forall in HW. specialize (HW p Hp). apply typed_point_sample in HW as [Hv _].
  change (is_i64 (valid_time p)) in Hv. unfold is_i64 in Hv. destruct (Hw p Hp) as [_ ?]. unfold i64_max, i64_min in *. lia.
Qed.

Lemma shard_good d series res minimum `{!Partition (tier_bounds res) minimum} max_gap now qs qe points buckets shards sh :
  sound_database d -> typed_points d -> typed_resolution res -> now + Z.max max_gap 1 <= i64_max ->
  query_latest (sealed d) (index (state d)) series qs qe = Ok points -> materialize points res max_gap = Ok buckets ->
  rollup_shards (List.filter (fun b => b_end b <=? now) buckets) res now = Ok shards -> sh ∈ shards ->
  qs <= i64_saturating_sub (shard_start sh) max_gap -> i64_saturating_add (shard_end sh) (Z.max max_gap 1) <= qe <= i64_max ->
  good_shard d series res max_gap sh.
Proof.
  intros Hd Htp Hres Hnow Hq Hm Hsh Hin Hqs [Hqe Hqm]. destruct (typed_latest _ _ _ _ _ Hd Htp Hqm Hq) as [Ht Hlen].
  assert (Hti : Forall (fun p => is_i64 (valid_time p)) points)
    by (eapply Forall_impl; [exact Ht|]; intros p Hp; by destruct (typed_point_sample p Hp)).
  destruct (materialize_whole res minimum _ _ _ Hm Hti) as [Hp Hsort].
  assert (Hg : 0 <= max_gap) by (rewrite materialize_build in Hm; apply bind_Ok in Hm as ([] & Hc & _); by eapply tier_check_Ok).
  assert (Hp' : Forall (proper res) (List.filter (fun b => b_end b <=? now) buckets)).
  { rewrite Forall_forall in Hp |- *. intros b [Hb _]%list_elem_of_In%filter_In. by apply Hp, list_elem_of_In. }
  destruct (rollup_shards_exact res minimum now _ shards sh Hres ltac:(lia) Hp' (StronglySorted_filter _ _ _ Hsort) Hsh Hin)
    as [Hrange Hi64 Hwhole Ebuckets].
  assert (Eb : shard_buckets sh = List.filter (inside (shard_start sh) (shard_end sh)) buckets).
  { rewrite Ebuckets, filter_filter. apply List.filter_ext. intros b. unfold inside.
    destruct (Z.leb_spec (b_end b) now), (Z.leb_spec (b_end b) (shard_end sh)); cbn; rewrite ?andb_true_r, ?andb_false_r; try done; lia. }
  split; [lia|done|done|lia| |].
  - unfold materialize_raw_range. cbv zeta.
    rewrite (query_latest_window _ _ _ qs qe _ _ points) by (try apply Hd; done). cbn [bind].
    destruct (materialize_local res minimum max_gap points (shard_start sh) (shard_end sh) buckets Hm Hti ltac:(lia) ltac:(lia))
      as (near & Hn & En).
    change (List.filter (within _ _) points) with (List.filter (context (shard_start sh) (shard_end sh) max_gap) points).
    rewrite Hn. cbn [bind]. f_equal. rewrite Eb. exact En.
  - intros Hv. apply validate_from_width in Hv. pose proof (materialize_fine _ _ _ _ Hm Ht) as Hf.
    rewrite Forall_forall in Hv, Hf, Hp |- *. intros b Hb. specialize (Hv b Hb).
    assert (Hb' : b ∈ buckets) by (rewrite Eb in Hb; apply list_elem_of_In, filter_In in Hb as [? _]; by apply list_elem_of_In).
    specialize (Hf b Hb'). specialize (Hp b Hb'). destruct Hf as (Hc & F1 & F2 & F3 & F4 & F5 & F6).
    unfold typed_bucket. split_and!; try done.
    + apply Hp.
    + eapply (bounds_i64 _ minimum), Hp.
    + unfold is_u64, u64_max in *. lia.
    + unfold is_i64 in *. lia.
Qed.

Lemma st_fold_progress {A T} (I : T -> Store -> Prop) (f : T -> A -> ST Store T) l : forall acc s acc' s',
  (forall acc x s acc' s', x ∈ l -> I acc s -> f acc x s = (s', Ok acc') -> I acc' s') ->
  I acc s -> st_fold f acc l s = (s', Ok acc') -> I acc' s'.
Proof.
  induction l as [|x l IH]; intros acc s acc' s' Hf HI; cbn [st_fold]; [by intros [= <- <-]|].
  intros (acc1 & s1 & E1 & E2)%st_bind_Ok. eapply IH; [|eapply Hf; [|exact HI|exact E1]; set_solver|exact E2].
  intros. eapply Hf; eauto. set_solver.
Qed.

(** The least of a list is below its members. *)
Lemma least_below l x d : x ∈ l -> default d (least l) <= x.
Proof.
  intros Hx. pose proof (least_spec l) as Hl. destruct (least l); cbn; [by apply Hl|]. subst. by apply not_elem_of_nil in Hx.
Qed.

Lemma maintain_tier_progress s0 s s' p p' definition earliest latest tier minimum
    `{!Partition (tier_bounds (tier_resolution tier)) minimum} nonce now gen st :
  let max_gap := default 0 (series_maximum_gap_micros definition) in
  gap_of (catalog (state (database s0))) (series_id definition) = max_gap ->
  sound_database (database s0) -> typed_points (database s0) -> typed_resolution (tier_resolution tier) ->
  now + Z.max max_gap 1 <= i64_max ->
  progressing s0 s (rollups (next p)) ->
  maintain_tier suffix nonce now gen st definition earliest latest p tier s = (s', Ok p') ->
  progressing s0 s' (rollups (next p')).
Proof.
  intros max_gap Egap Hd Htp Hres Hnow HI E. unfold maintain_tier in E.
  apply st_bind_Ok in E as (needed & ? & E0 & E). unfold st_lift in E0. injection E0 as <- E0. clear E0.
  set (wanted := List.filter _ needed) in E. destruct wanted as [|w0 ws] eqn:Ew; [by injection E as <- <-|].
  rewrite <- Ew in E. clear w0 ws Ew. fold max_gap in E.
  apply st_bind_Ok in E as (? & ? & [= <- <-] & E).
  apply st_bind_Ok in E as (points & ? & E1 & E). unfold st_lift in E1. injection E1 as <- E1.
  apply st_bind_Ok in E as (buckets & ? & E2 & E). unfold st_lift in E2. injection E2 as <- E2.
  apply st_bind_Ok in E as (shards & ? & E3 & E). unfold st_lift in E3. injection E3 as <- E3.
  rewrite (prog_database _ _ _ HI) in E1.
  eapply (st_fold_progress (fun p s => progressing s0 s (rollups (next p)))); [|exact HI|exact E].
  clear dependent s. clear dependent s'. clear p p'. intros p sh s p' s' Hsh HI E.
  apply list_elem_of_In, filter_In in Hsh as [Hsh Hw]. apply list_elem_of_In in Hsh.
  eapply maintain_shard_progress; [exact HI| |exact E]. rewrite (prog_database _ _ _ HI), Egap.
  eapply (shard_good _ _ _ minimum _ now); [done|done|done|done|exact E1|exact E2|exact E3|exact Hsh| |].
  all: apply existsb_exists in Hw as ([a b] & Hin & Hab); cbn in Hab; zbool; subst a b; apply list_elem_of_In in Hin.
  - assert (Hl : default earliest (least wanted.*1) <= shard_start sh)
      by (apply least_below, list_elem_of_In; exact (in_map fst _ _ (proj1 (list_elem_of_In _ _) Hin))).
    unfold i64_saturating_sub. lia.
  - assert (Hl : exists z, least (map Z.opp wanted.*2) = Some z /\ z <= - shard_end sh).
    { pose proof (least_spec (map Z.opp wanted.*2)) as Hl.
      assert (Hm : - shard_end sh ∈ map Z.opp wanted.*2).
      { apply list_elem_of_In, (in_map Z.opp), (in_map snd _ _ (proj1 (list_elem_of_In _ _) Hin)). }
      destruct (least (map Z.opp wanted.*2)) as [z|]; [exists z; split; [done|by apply Hl]|].
      rewrite Hl in Hm. by apply not_elem_of_nil in Hm. }
    destruct Hl as (z & -> & Hz). cbn. unfold i64_saturating_add, i64_max, i64_min. lia.
Qed.

(** ** One series *)

Lemma same_rollup_current s r r' : same_rollup r r' -> current_rollup s r -> current_rollup s r'.
Proof.
  intros (E1 & E2 & E3 & E4 & E5) [Hr Ha Hs He (g & Hg & Eg)]. split; rewrite ?E2, ?E3, ?E4, ?E5; try done.
  exists g. split; [|done]. unfold rollup_of in *. by rewrite E1.
Qed.

(** Dropping rollups keeps the progress. *)
Lemma progressing_map s0 s l (f : RollupDescriptor -> RollupDescriptor) :
  progressing s0 s l -> (forall r, rd_active (f r) = true -> rd_active r = true /\ same_rollup r (f r)) ->
  progressing s0 s (map f l).
Proof.
  intros [Hw Hd Hm Hf Hc Hx] Hs. split; try done.
  - intros r' (r & <- & Hr)%list_elem_of_In%in_map_iff Ha. destruct (Hs r Ha) as [Ha' Hsame].
    eapply same_rollup_current; [exact Hsame|]. by apply Hc; [apply list_elem_of_In|].
  - intros a b t (a0 & <- & Ha0)%list_elem_of_In%in_map_iff (b0 & <- & Hb0)%list_elem_of_In%in_map_iff Ha Hb [T1 T2] Ca Cb.
    destruct (Hs a0 Ha) as [Ha' (_ & A2 & A3 & A4 & A5)], (Hs b0 Hb) as [Hb' (_ & B2 & B3 & B4 & B5)]. f_equal.
    unfold covers in *. apply (Hx a0 b0 t); try done; try (by apply list_elem_of_In); [|unfold covers; lia..].
    split; congruence.
Qed.

Lemma deactivated_progress s0 s m definition now :
  progressing s0 s (rollups m) -> progressing s0 s (rollups (deactivate_expired_rollups m definition now).1).
Proof.
  unfold deactivate_expired_rollups. intros HI.
  assert (Hfold : forall tiers l b, progressing s0 s l ->
    progressing s0 s (foldl (fun '(l, changed) tier => let '(l', hit) := update_where (expired definition now tier) (set_active false) l in
                        (l', changed || hit)) (l, b) tiers).1).
  { clear. induction tiers as [|tier tiers IH]; intros l b HI; [done|]. cbn [foldl]. apply IH.
    apply progressing_map; [done|]. intros r. by destruct (expired _ _ _ r). }
  specialize (Hfold (tiers_of definition) (rollups m) false HI). by destruct (foldl _ _ _).
Qed.

Lemma stamped_progress s0 s m series c n :
  progressing s0 s (rollups m) -> progressing s0 s (rollups (stamp_active_series_source m series c n).1).
Proof. intros HI. apply progressing_map; [done|]. intros r. by case_match. Qed.

(** What a store must satisfy for maintenance at [now]. *)
Record maintainable (d : Database Segment) (now : Z) : Prop := {
  mt_keyed : forall k def, series_map (catalog (state d)) !! k = Some def -> series_id def = k;
  mt_tiers : forall k def tier, series_map (catalog (state d)) !! k = Some def -> tier ∈ tiers_of def ->
    regular_tier (tier_resolution tier);
  mt_now : forall k def, series_map (catalog (state d)) !! k = Some def ->
    now + Z.max (default 0 (series_maximum_gap_micros def)) 1 <= i64_max;
  mt_points : typed_points d;
}.

Lemma maintain_series_progress s0 s s' p p' k definition nonce now gen st :
  maintainable (database s0) now -> sound_database (database s0) ->
  series_map (catalog (state (database s0))) !! k = Some definition ->
  progressing s0 s (rollups (next p)) ->
  maintain_series suffix nonce now gen st p definition s = (s', Ok p') -> progressing s0 s' (rollups (next p')).
Proof.
  intros [Hkey Htiers Hnow Hpts] Hd Hdef HI E. unfold maintain_series in E.
  destruct (negb (is_gauge definition)); [by injection E as <- <-|].
  apply (deactivated_progress _ _ _ definition now) in HI. destruct (deactivate_expired_rollups _ _ _) as [m hit]. cbn [fst] in HI.
  apply st_bind_Ok in E as (? & ? & [= <- <-] & E). apply st_bind_Ok in E as (skip & ? & E0 & E).
  unfold st_lift in E0. injection E0 as <- _. destruct skip.
  { apply (stamped_progress _ _ _ (series_id definition) (st_commits st) (st_points st)) in HI.
    destruct (stamp_active_series_source _ _ _ _) as [m' hit']. injection E as <- <-. exact HI. }
  destruct (series_valid_bounds _ _ _) as [[earliest latest]|]; [|by injection E as <- <-].
  eapply (st_fold_progress (fun p s => progressing s0 s (rollups (next p))) _ _ (set_next m hit p)); [|exact HI|exact E].
  intros p1 tier s1 p2 s2 Htier HI1 E1. pose proof (Htiers k definition tier Hdef Htier) as Hreg. pose proof (regular_typed _ Hreg) as Hres.
  destruct (regular_partition _ Hreg) as [minimum Hpart].
  eapply (maintain_tier_progress _ _ _ _ _ definition earliest latest tier minimum);
    [|exact Hd|exact Hpts|exact Hres|by eapply Hnow|exact HI1|exact E1].
  rewrite (Hkey k definition Hdef). unfold gap_of. by rewrite Hdef.
Qed.

(** ** The whole run *)

Lemma same_data_sound d d' : same_data d d' -> sound_database d -> sound_database d'.
Proof. intros [Es Eg] [Hg Hi]. split; [by rewrite Eg|by rewrite Es]. Qed.

Lemma same_data_query d d' series lo hi :
  same_data d d' -> query_latest (sealed d') (index (state d')) series lo hi = query_latest (sealed d) (index (state d)) series lo hi.
Proof. intros [Es Eg]. by rewrite Es, Eg. Qed.

Lemma current_same_data s d r : same_data (database s) d -> current_rollup s r -> current_rollup (set_database d s) r.
Proof.
  intros Hs [Hr Ha Hs' He (g & Hg & Eg)]. pose proof Hs as [Es _].
  split; cbn [database set_database]; rewrite ?Es; try done. exists g. split; [exact Hg|].
  unfold materialize_raw_range in *. by rewrite (same_data_query _ _ _ _ _ Hs).
Qed.

Lemma exact_same_data s d : same_data (database s) d -> exact_store s -> exact_store (set_database d s).
Proof.
  intros Hs [Hw Hd Hc Hx]. split; [by apply wf_dirs_database|by eapply same_data_sound| |done].
  intros r Hr Ha. by apply current_same_data; [|apply Hc].
Qed.

Lemma same_data_maintainable d d' now : same_data d d' -> maintainable d now -> maintainable d' now.
Proof.
  intros Hs [Hk Ht Hn Hp]. pose proof Hs as [Es Eg]. split; rewrite ?Es; try done.
  intros series. rewrite Es, Eg. apply Hp.
Qed.

Lemma progressing_start s : exact_store s -> progressing s s (rollups (manifest s)).
Proof. intros [Hw Hd Hc Hx]. by split. Qed.

Lemma set_maintained_exact s revisions now : exact_store s -> exact_store (set_maintained revisions now s).
Proof.
  intros [[? ? ? ?] Hd Hc Hx]. split; [by split|done| |done].
  intros r Hr Ha. destruct (Hc r Hr Ha) as [? ? ? ? ?]. by split.
Qed.

Lemma retention_gates_keeps now s s' r : retention_gates now s = (s', r) -> exact_store s -> exact_store s'.
Proof.
  unfold retention_gates, ensure_healthy. intros E Hex. unfold st_bind at 1 2, st_get, st_reject, st_lift in E.
  destruct (reject _ _) as [[]|]; [|by injection E as <- <-]. unfold st_bind in E.
  destruct (on_database stats s) as [s1 [st|e]] eqn:E1; apply on_database_run in E1 as (d & E1 & ->); apply stats_data in E1;
    injection E as <- <-; by apply exact_same_data.
Qed.

Lemma maintain_keeps_exact s s' nonce now report :
  exact_store s -> maintainable (database s) now -> maintain suffix nonce now s = (s', Ok report) -> exact_store s'.
Proof.
  intros Hex Hmt E. unfold maintain in E. apply st_bind_Ok in E as ([] & s0 & E0 & E).
  assert (s0 = s) as ->.
  { unfold ensure_writable, ensure_healthy, st_bind, st_get, st_reject, st_lift in E0.
    destruct (reject (store_read_only s) _) as [[]|]; [|done]. by injection E0 as <- _. }
  apply st_bind_Ok in E as ([] & s1 & E1 & E). apply on_database_run in E1 as (d1 & E1 & ->). apply flush_data in E1.
  apply st_bind_Ok in E as (st & s2 & E2 & E). apply on_database_run in E2 as (d2 & E2 & ->). apply stats_data in E2.
  cbn [database set_database] in E2. rewrite set_database_twice in E. pose proof (same_data_trans _ _ _ E1 E2) as Hsd.
  apply (exact_same_data s d2 Hsd) in Hex. apply (same_data_maintainable _ d2 now Hsd) in Hmt.
  set (s2 := set_database d2 s) in *. change d2 with (database s2) in Hmt. clearbody s2. clear E0 E1 E2 Hsd d1 d2 s.
  apply st_bind_Ok in E as (? & ? & [= <- <-] & E). apply st_bind_Ok in E as (skip & ? & E0' & E).
  unfold st_lift in E0'. injection E0' as <- _. destruct skip.
  - apply st_bind_Ok in E as ([] & s3 & [= <-] & E). apply st_bind_Ok in E as (gates & s4 & E4 & [= <- _]).
    eapply retention_gates_keeps; [exact E4|]. by apply set_maintained_exact.
  - apply st_bind_Ok in E as (p & s3 & E3 & E).
    assert (HI : progressing s2 s3 (rollups (next p))).
    { eapply (st_fold_progress (fun p s => progressing s2 s (rollups (next p))) _ _ (mkProgress (manifest s2) 0 0 0 false));
        [|exact (progressing_start _ Hex)|exact E3].
      intros p1 definition x p2 x' (k & Hk)%elem_of_btree_values HI Ex. eapply maintain_series_progress; try done. apply Hex. }
    apply st_bind_Ok in E as ([] & s4 & E4 & E).
    assert (Hex4 : exact_store s4).
    { destruct HI as [Hw Ed Em Hf Hc Hx]. destruct (changed p).
      - apply publish_moves in E4 as [Em' Edb _ Hw' Hf']; [|done]. split; [done|rewrite Edb, Ed; apply Hex| |]; rewrite Em'; cbn.
        + intros r [Hr _]%list_elem_of_In%filter_In Ha. apply list_elem_of_In in Hr.
          eapply current_moves; [exact Edb| |by apply Hc]. intros g. apply Hf'. cbn. apply list_elem_of_In, filter_In.
          split; [by apply list_elem_of_In|done].
        + intros a b t [Ha _]%list_elem_of_In%filter_In [Hb _]%list_elem_of_In%filter_In.
          apply list_elem_of_In in Ha, Hb. by apply Hx.
      - injection E4 as <-. destruct Hex as [_ Hd Hc0 Hx0]. split; [done|by rewrite Ed| |by rewrite Em].
        rewrite Em. intros r Hr Ha. eapply current_moves; [exact Ed|by apply Hf|by apply Hc0]. }
    apply st_bind_Ok in E as ([] & s5 & [= <-] & E). apply st_bind_Ok in E as (gates & s6 & E6 & E).
    apply st_bind_Ok in E as (? & ? & [= <- <-] & [= <- _]). eapply retention_gates_keeps; [exact E6|].
    by apply set_maintained_exact.
Qed.
End Maintain.
