(* ===== verification/Snapshot.v ===== *)
(** * Snapshot: [src/src/snapshot.rs] and the copies of [src/src/store.rs]

    A backup, a restore and a salvage build a copy of a store in a hidden
    directory beside the destination, check it, rename it to the destination
    without replacing anything, check it again, and take it back when that
    fails.  [World] is the directory that holds destination and stage; every
    call of the file system takes the next entry of [w_faults]. *)
From S2P Require Import Prelude Errors Bytes Float64 Model Utf8 Transaction Catalog Aggregate Rollup Query Codec Effects Segment RollupSegment Directory Manifest Scan Database Planner Store Salvage.

(** ** Checksums of selected files *)

Definition SNAPSHOT_CRC32_DOMAIN : bytes := bstr "FTWDB snapshot CRC32 v1" ++ [0].
Definition STAGE_ATTEMPTS : nat := 64.
Definition ACTIVE_LOG : rstring := str "active.wlog".
Definition MANIFEST_DIRECTORY : rstring := str "manifests".
Definition ROLLUP_DIRECTORY : rstring := str "rollups".
Definition SEGMENT_DIRECTORY : rstring := str "segments".

Record SnapshotDigest := mkDigest { dg_files : Z; dg_bytes : Z; dg_crc32 : Z }.
#[export] Instance SnapshotDigest_eq_dec : EqDecision SnapshotDigest.
Proof. solve_decision. Defined.

(** A file of a copy: its own bytes, or a hard link to a file of the source. *)
Inductive Node := Own (c : bytes) | Linked (c : bytes).
Definition node_bytes (n : Node) : bytes := match n with Own c | Linked c => c end.

(** A store directory: the log and the three directories, where they exist. *)
Record Tree := mkTree {
  tr_log : option Node;
  tr_manifests : option (gmap rstring Node);
  tr_rollups : option (gmap rstring Node);
  tr_segments : option (gmap rstring Node);
}.
Definition tree_empty : Tree := mkTree None None None None.
Definition set_log (n : Node) (t : Tree) : Tree := mkTree (Some n) (tr_manifests t) (tr_rollups t) (tr_segments t).
Definition set_manifests (m : gmap rstring Node) (t : Tree) : Tree := mkTree (tr_log t) (Some m) (tr_rollups t) (tr_segments t).
Definition set_rollup_files (m : gmap rstring Node) (t : Tree) : Tree := mkTree (tr_log t) (tr_manifests t) (Some m) (tr_segments t).
Definition set_segments (m : gmap rstring Node) (t : Tree) : Tree := mkTree (tr_log t) (tr_manifests t) (tr_rollups t) (Some m).
Definition put (name : rstring) (n : Node) (o : option (gmap rstring Node)) : gmap rstring Node := <[name := n]> (default ∅ o).

Definition is_normal (c : Component) : bool := match c with Normal _ => true | _ => false end.

Definition validate_relative_path (relative : rstring) : Result unit :=
  reject (bool_decide (relative = []) || existsb (fun c => negb (is_normal c)) (components relative)
          || bool_decide (head relative = Some 47))
    (InvalidArgument "snapshot path must be a safe relative path").

(** [open_snapshot_file], and reading the file. *)
Definition tree_directory (t : Tree) (name : rstring) : option (gmap rstring Node) :=
  if bool_decide (name = MANIFEST_DIRECTORY) then tr_manifests t
  else if bool_decide (name = ROLLUP_DIRECTORY) then tr_rollups t
  else if bool_decide (name = SEGMENT_DIRECTORY) then tr_segments t
  else None.

Definition open_snapshot_file (t : Tree) (relative : rstring) : Result bytes :=
  if existsb (fun c => negb (is_normal c)) (components relative) then
    Err (InvalidArgument "snapshot path must be a safe relative path")
  else
    match components relative with
    | [] => Err (InvalidArgument "snapshot path must name a regular file")
    | [Normal name] =>
        if bool_decide (name = ACTIVE_LOG) then ok_or (node_bytes <$> tr_log t) (Io "NotFound")
        else match tree_directory t name with Some _ => Err (Io "InvalidData") | None => Err (Io "NotFound") end
    | [Normal directory; Normal name] =>
        match tree_directory t directory with
        | Some m => ok_or (node_bytes <$> m !! name) (Io "NotFound")
        | None => Err (Io "NotFound")
        end
    | _ => Err (Io "NotADirectory")
    end.

(** The loop of the digests; [hashed] is everything the hasher was given. *)
Fixpoint digest_files (file : rstring -> Result bytes) (paths : list rstring) (previous : option rstring) (total : Z) (hashed : bytes)
    : Result (Z * bytes) :=
  match paths with
  | [] => Ok (total, hashed)
  | relative :: rest =>
      validate_relative_path relative ;?
      reject (is_some_and previous (fun p => negb (str_ltb p relative))) (InvalidArgument "snapshot paths must be unique and sorted") ;?
      let path_bytes := as_bytes relative in
      let? path_len := ok_or (u64_checked (len path_bytes)) (Serialization "snapshot path is too long") in
      let? c := file relative in
      let? total := ok_or (u64_checked_add total (len c)) (Serialization "snapshot byte count exceeds u64") in
      digest_files file rest (Some relative) total (hashed ++ to_le 8 path_len ++ path_bytes ++ to_le 8 (len c) ++ c)
  end.

Section Digests.
Context `{Crc}.

Definition snapshot_digest (t : Tree) (paths : list rstring) : Result SnapshotDigest :=
  let? (total, hashed) := digest_files (open_snapshot_file t) paths None 0 SNAPSHOT_CRC32_DOMAIN in
  Ok (mkDigest (len paths) total (hash hashed)).

(** [snapshot_file_prefix_digest], of the open file [c]. *)
Definition snapshot_file_prefix_digest (c : bytes) (relative : rstring) (prefix : Z) : Result SnapshotDigest :=
  validate_relative_path relative ;?
  reject (len c <? prefix) (Io "UnexpectedEof") ;?
  let path_bytes := as_bytes relative in
  let? path_len := ok_or (u64_checked (len path_bytes)) (Serialization "snapshot path is too long") in
  Ok (mkDigest 1 prefix (hash (SNAPSHOT_CRC32_DOMAIN ++ to_le 8 path_len ++ path_bytes ++ to_le 8 prefix ++ take (Z.to_nat prefix) c))).

Definition snapshot_digest_with_open_prefix (t : Tree) (paths : list rstring) (prefix_relative : rstring) (c : bytes) (prefix : Z)
    : Result SnapshotDigest :=
  reject (negb (bool_decide (prefix_relative ∈ paths))) (InvalidArgument "snapshot prefix path must be one of the selected files") ;?
  validate_relative_path prefix_relative ;?
  reject (len c <? prefix) (Io "UnexpectedEof") ;?
  let? (total, hashed) := digest_files
    (fun relative => if bool_decide (relative = prefix_relative) then Ok (take (Z.to_nat prefix) c) else open_snapshot_file t relative)
    paths None 0 SNAPSHOT_CRC32_DOMAIN in
  Ok (mkDigest (len paths) total (hash hashed)).
End Digests.

(** ** The directory around a destination *)

(** [w_entries] maps a name to the identity and the contents of a directory. *)
Record World := mkWorld {
  w_entries : gmap rstring (nat * Tree);
  w_next : nat;
  w_faults : list (option string);
}.
Definition set_entries (v : gmap rstring (nat * Tree)) (w : World) : World := mkWorld v (w_next w) (w_faults w).

Definition w_call {A} (op : ST World A) : ST World A :=
  fun w => match w_faults w with
           | Some kind :: rest => (mkWorld (w_entries w) (w_next w) rest, Err (Io kind))
           | None :: rest => op (mkWorld (w_entries w) (w_next w) rest)
           | [] => op w
           end.
(** A call that changes nothing the model keeps: permissions, syncs. *)
Definition w_touch : ST World unit := w_call (st_ret tt).

Definition reject_existing (destination : rstring) : ST World unit :=
  w_call (fun w => (w, match w_entries w !! destination with Some _ => Err (Io "AlreadyExists") | None => Ok tt end)).

Definition create_directory (name : rstring) : ST World unit :=
  w_call (fun w => match w_entries w !! name with
                   | Some _ => (w, Err (Io "AlreadyExists"))
                   | None => (mkWorld (<[name := (w_next w, tree_empty)]> (w_entries w)) (S (w_next w)) (w_faults w), Ok tt)
                   end).

(** [rename_noreplace]. *)
Definition rename_noreplace (source destination : rstring) : ST World unit :=
  w_call (fun w => match w_entries w !! source, w_entries w !! destination with
                   | None, _ => (w, Err (Io "NotFound"))
                   | _, Some _ => (w, Err (Io "AlreadyExists"))
                   | Some e, None => (set_entries (<[destination := e]> (delete source (w_entries w))) w, Ok tt)
                   end).

Definition remove_dir_all (name : rstring) : ST World unit :=
  w_call (fun w => match w_entries w !! name with
                   | None => (w, Err (Io "NotFound"))
                   | Some _ => (set_entries (delete name (w_entries w)) w, Ok tt)
                   end).

(** [FileIdentity::read]. *)
Definition read_identity (name : rstring) : ST World nat :=
  w_call (fun w => (w, ok_or (fst <$> w_entries w !! name) (Io "NotFound"))).

(** The stage names of one process: [unique] stands for process, time,
    counter and attempt. *)
Definition stage_name (destination operation : rstring) (unique : nat -> rstring) (attempt : nat) : rstring :=
  str "." ++ destination ++ str "." ++ operation ++ str "-" ++ unique attempt.

(** [StagedDirectory::create]. *)
Fixpoint create_attempts (n : nat) (name : nat -> rstring) (attempt : nat) : ST World rstring :=
  match n with
  | O => st_err (Io "AlreadyExists")
  | S n =>
      fun w => match create_directory (name attempt) w with
               | (w, Ok _) => (w_touch ;* st_ret (name attempt)) w
               | (w, Err (Io kind)) => if String.eqb kind "AlreadyExists" then create_attempts n name (S attempt) w else (w, Err (Io kind))
               | (w, Err e) => (w, Err e)
               end
  end.

Definition StagedDirectory_create (destination operation : rstring) (unique : nat -> rstring) : ST World rstring :=
  reject_existing destination ;*
  w_touch ;*
  create_attempts STAGE_ATTEMPTS (stage_name destination operation unique) 0.

(** [Drop for StagedDirectory] before publication. *)
Definition drop_stage (stage : rstring) : ST World unit := ignore (remove_dir_all stage).

Record PublishedDirectory := mkPublished {
  hidden_path : rstring;
  pd_destination : rstring;
  identity : nat;
  at_destination : bool;
}.
Definition taken_back (p : PublishedDirectory) : PublishedDirectory :=
  mkPublished (hidden_path p) (pd_destination p) (identity p) false.

(** [PublishedDirectory::rollback], with the value afterwards. *)
Definition rollback (p : PublishedDirectory) : World -> World * (PublishedDirectory * Result unit) :=
  fun w =>
    if negb (at_destination p) then (w, (p, Ok tt))
    else
      match read_identity (pd_destination p) w with
      | (w, Err e) => (w, (p, Err e))
      | (w, Ok i) =>
          if negb (Nat.eqb i (identity p)) then (w, (p, Err (Io "ResourceBusy")))
          else
            match rename_noreplace (pd_destination p) (hidden_path p) w with
            | (w, Err e) => (w, (p, Err e))
            | (w, Ok _) =>
                let '(w, r) := (w_touch ;* remove_dir_all (hidden_path p) ;* w_touch) w in
                (w, (taken_back p, r))
            end
      end.

(** [rollback_after], and the second attempt when the value is dropped. *)
Definition rollback_after {A} (p : PublishedDirectory) (failure : Error) : ST World A :=
  fun w =>
    let '(w, (p, r)) := rollback p w in
    let '(w, _) := rollback p w in
    (w, Err match r with
            | Ok _ => failure
            | Err _ => SnapshotPublication "operation failed: {failure}; rollback failed: {rollback}"
            end).

(** [StagedDirectory::publish]. *)
Definition publish (stage destination : rstring) : ST World PublishedDirectory :=
  let* p :=
    on_error
      (let* i := read_identity stage in
       rename_noreplace stage destination ;*
       st_ret (mkPublished stage destination i true))
      (drop_stage stage) in
  fun w => match w_touch w with
           | (w, Ok _) => (w, Ok p)
           | (w, Err e) => rollback_after p e w
           end.

(** The end of a copy: post-publication checks, then commit or take back. *)
Definition finish_publication {A} (p : PublishedDirectory) (checked : ST World A) : ST World A :=
  fun w => match checked w with
           | (w, Ok a) => (w, Ok a)
           | (w, Err e) => rollback_after p e w
           end.

(** ** Copies of a store *)

Record BackupReport := mkBackup {
  bk_files : Z;
  bk_bytes : Z;
  bk_manifest_generation : Z;
  linked_files : Z;
  copied_files : Z;
  hard_link_fallbacks : Z;
  hard_link_fallback_error_kinds : list string;
}.
Definition set_bytes (v : Z) (r : BackupReport) : BackupReport :=
  mkBackup (bk_files r) v (bk_manifest_generation r) (linked_files r) (copied_files r) (hard_link_fallbacks r)
    (hard_link_fallback_error_kinds r).

Inductive LinkOrCopy := OutLinked | OutCopied (link_error : string).

Definition record_copy (r : BackupReport) : BackupReport :=
  mkBackup (bk_files r + 1) (bk_bytes r) (bk_manifest_generation r) (linked_files r) (copied_files r + 1) (hard_link_fallbacks r)
    (hard_link_fallback_error_kinds r).
Definition record_link_or_copy (o : LinkOrCopy) (r : BackupReport) : BackupReport :=
  match o with
  | OutLinked => mkBackup (bk_files r + 1) (bk_bytes r) (bk_manifest_generation r) (linked_files r + 1) (copied_files r)
                   (hard_link_fallbacks r) (hard_link_fallback_error_kinds r)
  | OutCopied kind => mkBackup (bk_files r + 1) (bk_bytes r) (bk_manifest_generation r) (linked_files r) (copied_files r + 1)
                        (hard_link_fallbacks r + 1) (hard_link_fallback_error_kinds r ++ [kind])
  end.

Record RestoreReport := mkRestore {
  rr_files : Z;
  rr_bytes : Z;
  rr_manifest_generation : Z;
  rr_raw_commits : Z;
  rr_raw_points : Z;
  source_snapshot_crc32 : Z;
  destination_snapshot_crc32 : Z;
}.

(** [list.sort(); list.dedup()]. *)
Fixpoint dedup (l : list rstring) : list rstring :=
  match l with
  | a :: ((b :: _) as rest) => if bool_decide (a = b) then dedup rest else a :: dedup rest
  | _ => l
  end.
Definition sorted_paths (l : list rstring) : list rstring := dedup (stable_sort str_leb l).
Definition join (directory name : rstring) : rstring := directory ++ str "/" ++ name.
Definition active_rollups (m : Manifest) : list RollupDescriptor := List.filter rd_active (rollups m).

Definition selected_snapshot_paths (m : Manifest) : list rstring :=
  sorted_paths ([ACTIVE_LOG]
    ++ map (fun r => join ROLLUP_DIRECTORY (rd_file r)) (active_rollups m)
    ++ map (fun r => join SEGMENT_DIRECTORY (sd_file r)) (segments m)
    ++ (if 0 <? generation m then [join MANIFEST_DIRECTORY (manifest_name (generation m))] else [])).

(** The directory of an open store. *)
Definition tree_of (s : Store) : Tree :=
  mkTree (Some (Own (contents (log_at_path (database s))))) (Some (Own <$> visible (dir_state (manifest_directory s))))
    (Some (Own <$> visible (dir_state (rollup_directory s)))) (Some (Own <$> visible (dir_state (segment_directory s)))).

(** How the calls end that read a copy. *)
Record TreeIo := mkTreeIo {
  tio_lock : LockResult;
  tio_log : list (option Fault);
  tio_manifests : list (option Fault);
  tio_rollups : list (option Fault);
  tio_segments : list (option Fault);
}.

(** The files of a directory, numbered. *)
Definition dir_of (m : gmap rstring Node) (faults : list (option Fault)) : Dir :=
  let l := map_to_list m in
  let names : gmap rstring nat := list_to_map (zip l.*1 (seq 0 (length l))) in
  mkDir (mkDirState names [names] (list_to_map (zip (seq 0 (length l)) (map (fun n => (node_bytes n, true)) l.*2))) (length l)) [] faults.

Definition tree_files (io : TreeIo) (t : Tree) : StoreFiles :=
  mkStoreFiles ((fun n => mkFile (node_bytes n) (length (node_bytes n)) (tio_log io)) <$> tr_log t)
    (dir_of (default ∅ (tr_manifests t)) (tio_manifests io)) (dir_of (default ∅ (tr_rollups t)) (tio_rollups io))
    (dir_of (default ∅ (tr_segments t)) (tio_segments io)).

(** The sum of [directory_bytes], over the entries a store has: the log and the
    files of its three directories.  A file someone else puts beside them is
    not part of a [Tree]. *)
Definition nodes_bytes (o : option (gmap rstring Node)) : Z :=
  foldr (fun n total => len (node_bytes n) + total) 0 (map_to_list (default ∅ o)).*2.
Definition tree_bytes (t : Tree) : Z :=
  from_option (fun n => len (node_bytes n)) 0 (tr_log t) + nodes_bytes (tr_manifests t) + nodes_bytes (tr_rollups t) + nodes_bytes (tr_segments t).

Definition read_entry (name : rstring) : ST World Tree := fun w => (w, ok_or (snd <$> w_entries w !! name) (Io "NotFound")).

Definition directory_bytes (name : rstring) : ST World Z :=
  w_touch ;*
  let* t := read_entry name in
  st_lift (ok_or (u64_checked (tree_bytes t)) (Serialization "stored byte count exceeds u64")).

Definition change (name : rstring) (f : Tree -> Tree) : ST World unit :=
  w_call (fun w => match w_entries w !! name with
                   | Some (i, t) => (set_entries (<[name := (i, f t)]> (w_entries w)) w, Ok tt)
                   | None => (w, Err (Io "NotFound"))
                   end).

Definition snapshot_mismatch : Error := Corruption 0 (text "snapshot mismatch: {} files={} bytes={} crc32={:08x}, {} files={} bytes={} crc32={:08x}").

Definition require_clean_restore_source (physical_bytes : Z) (r : IntegrityReport) : Result unit :=
  reject (0 <? ig_stale_rollup_files r)
    (Corruption 0 (Msg "restore requires a clean backup; {} active rollup files trail the raw log" [ig_stale_rollup_files r])) ;?
  if (raw_recovered_tail_bytes r =? 0) && match raw_recovered_tail r with TailNone => true | _ => false end then Ok tt
  else Err (Corruption (u64_saturating_sub physical_bytes (raw_recovered_tail_bytes r))
              (Msg "restore requires a recovery-free backup; raw log has {} bytes of {}" [raw_recovered_tail_bytes r])).

Section Copies.
Context `{Crc} `{RecordCodec} `{IndexCodec} `{TimeZones} `{Lz4} `{MapOrder} `{ManifestCodec} `{ReadDir} `{CacheOrder}.
(** What a copy of a file stores, and whether others can read the source. *)
Context (transfer : rstring -> bytes -> bytes) (group_accessible : rstring -> bool).

(** [Store::open_read_only] of a directory. *)
Definition open_tree (io : TreeIo) (t : Tree) : Result Store :=
  match tr_manifests t, tr_rollups t with
  | Some manifests, Some _ =>
      let? m := Manifest_load (node_bytes <$> manifests) in
      reject (negb (bool_decide (segments m = [])) && negb (is_some (tr_segments t))) (Io "NotFound") ;?
      Store_open_read_only (tio_lock io) (tree_files io t)
  | _, _ => Err (Io "NotFound")
  end.

(** Open a copy and check it. *)
Definition check_copy (io : TreeIo) (name : rstring) : ST World IntegrityReport :=
  let* t := read_entry name in
  let* s := st_lift (open_tree io t) in
  st_lift (check_integrity s).2.

Definition copy_and_sync (stage relative : rstring) (source : option bytes) (place : Node -> Tree -> Tree) : ST World unit :=
  let* c := st_lift (ok_or source (Io "NotFound")) in
  change stage (place (Own (transfer relative c))) ;*
  w_touch ;*
  w_touch.

(** The names of a validated manifest are distinct, so nothing is in the way of
    the link. *)
Definition hard_link_or_copy (stage relative : rstring) (source : option bytes) (place : Node -> Tree -> Tree) : ST World LinkOrCopy :=
  let* c := w_call (st_lift (ok_or source (Io "NotFound"))) in
  if group_accessible relative then copy_and_sync stage relative source place ;* st_ret (OutCopied "PermissionDenied")
  else
    fun w => match change stage (place (Linked c)) w with
             | (w, Ok _) => (w, Ok OutLinked)
             | (w, Err (Io kind)) => (copy_and_sync stage relative source place ;* st_ret (OutCopied kind)) w
             | (w, Err e) => (w, Err e)
             end.

Definition put_rollup (name : rstring) (n : Node) (t : Tree) : Tree := set_rollup_files (put name n (tr_rollups t)) t.
Definition put_segment (name : rstring) (n : Node) (t : Tree) : Tree := set_segments (put name n (tr_segments t)) t.
Definition put_manifest (name : rstring) (n : Node) (t : Tree) : Tree := set_manifests (put name n (tr_manifests t)) t.

Definition snapshot_rollup (s : Store) (stage : rstring) (report : BackupReport) (r : RollupDescriptor) : ST World BackupReport :=
  let* o := hard_link_or_copy stage (join ROLLUP_DIRECTORY (rd_file r)) (visible (dir_state (rollup_directory s)) !! rd_file r)
              (put_rollup (rd_file r)) in
  st_ret (record_link_or_copy o report).
Definition snapshot_segment (source : gmap rstring bytes) (stage : rstring) (report : BackupReport) (r : RawSegmentDescriptor)
    : ST World BackupReport :=
  let* o := hard_link_or_copy stage (join SEGMENT_DIRECTORY (sd_file r)) (source !! sd_file r) (put_segment (sd_file r)) in
  st_ret (record_link_or_copy o report).

(** [Store::write_snapshot]. *)
Definition write_snapshot (s : Store) (stage : rstring) : ST World BackupReport :=
  change stage (set_manifests ∅) ;*
  change stage (set_rollup_files ∅) ;*
  change stage (set_segments ∅) ;*
  let m := manifest s in
  copy_and_sync stage ACTIVE_LOG (Some (contents (log_at_path (database s)))) set_log ;*
  let report := record_copy (mkBackup 0 0 (generation m) 0 0 0 []) in
  let* report := st_fold (snapshot_rollup s stage) report (active_rollups m) in
  let* report := st_fold (snapshot_segment (visible (dir_state (segment_directory s))) stage) report (segments m) in
  let* report :=
    if 0 <? generation m then
      let name := manifest_name (generation m) in
      let* o := hard_link_or_copy stage (join MANIFEST_DIRECTORY name) (visible (dir_state (manifest_directory s)) !! name) (put_manifest name) in
      st_ret (record_link_or_copy o report)
    else st_ret report in
  w_touch ;* w_touch ;* w_touch ;* w_touch ;*
  let* bytes := directory_bytes stage in
  st_ret (set_bytes bytes report).

(** The source store and the directory of the destination. *)
Definition on_store {A} : ST Store A -> ST (Store * World) A := st_zoom fst (fun s p => (s, p.2)).
Definition on_world {A} : ST World A -> ST (Store * World) A := st_zoom snd (fun w p => (p.1, w)).

(** [Store::backup_to]. *)
Definition backup_to (destination : rstring) (unique : nat -> rstring) (io_stage io_destination : TreeIo) : ST (Store * World) BackupReport :=
  on_store ensure_healthy ;*
  let* p := st_get in
  (if store_read_only p.1 then st_ret tt else on_store (on_database flush)) ;*
  let* _ := on_store check_integrity in
  let* p := st_get in
  on_world (
    let* stage := StagedDirectory_create destination (str "backup") unique in
    let* report :=
      on_error
        (let* report := write_snapshot p.1 stage in
         let* _ := check_copy io_stage stage in
         st_ret report)
        (drop_stage stage) in
    let* published := publish stage destination in
    finish_publication published
      (let* _ := check_copy io_destination destination in
       let* bytes := directory_bytes destination in
       st_ret (set_bytes bytes report))).

Definition digest_of (name : rstring) (paths : list rstring) : ST World SnapshotDigest :=
  w_touch ;*
  let* t := read_entry name in
  st_lift (snapshot_digest t paths).

(** The length [require_clean_restore_source] asks the file system for. *)
Definition log_length (t : Tree) : Z := from_option (fun n => len (node_bytes n)) 0 (tr_log t).

(** Open a copy, check it and require that it needs no recovery. *)
Definition check_clean_copy (io : TreeIo) (name : rstring) : ST World IntegrityReport :=
  let* integrity := check_copy io name in
  let* t := read_entry name in
  st_lift (require_clean_restore_source (log_length t) integrity) ;*
  st_ret integrity.

(** [Store::restore_to]. *)
Definition restore_to (destination : rstring) (unique : nat -> rstring) (io_stage io_destination : TreeIo)
    : ST (Store * World) RestoreReport :=
  on_store ensure_healthy ;*
  let* source_integrity := on_store check_integrity in
  let* p := st_get in
  let s := p.1 in
  st_lift (require_clean_restore_source (log_length (tree_of s)) source_integrity) ;*
  let paths := selected_snapshot_paths (manifest s) in
  on_world w_touch ;*
  let* source_digest := st_lift (snapshot_digest (tree_of s) paths) in
  on_world (
    let* stage := StagedDirectory_create destination (str "restore") unique in
    on_error
      (let* _ := write_snapshot s stage in
       let* stage_digest := digest_of stage paths in
       st_reject (negb (bool_decide (stage_digest = source_digest))) snapshot_mismatch ;*
       let* _ := check_clean_copy io_stage stage in
       st_ret tt)
      (drop_stage stage) ;*
    let* published := publish stage destination in
    finish_publication published
      (let* integrity := check_clean_copy io_destination destination in
       let* destination_digest := digest_of destination paths in
       st_reject (negb (bool_decide (destination_digest = source_digest))) snapshot_mismatch ;*
       st_reject (negb (raw_commits integrity =? raw_commits source_integrity)
                  || negb (raw_points integrity =? raw_points source_integrity)
                  || negb (ig_manifest_generation integrity =? ig_manifest_generation source_integrity))
         (Corruption 0 (text "restored store counts differ from the checked backup")) ;*
       st_ret (mkRestore (dg_files destination_digest) (dg_bytes destination_digest) (ig_manifest_generation integrity)
                 (raw_commits integrity) (raw_points integrity) (dg_crc32 source_digest) (dg_crc32 destination_digest)))).

(** [Store::restore_from]. *)
Definition restore_from (backup : Tree) (io_backup : TreeIo) (destination : rstring) (unique : nat -> rstring)
    (io_stage io_destination : TreeIo) : ST World RestoreReport :=
  fun w => match open_tree io_backup backup with
           | Err e => (w, Err e)
           | Ok s => let '((_, w), r) := restore_to destination unique io_stage io_destination (s, w) in (w, r)
           end.

(** ** Salvage of a store *)

Inductive SalvageStatus := SalvageClean | SalvagePartial.

Record SalvageReport := mkSalvageReport {
  sv_status : SalvageStatus;
  sv_source_bytes : Z;
  sv_recovered_prefix_bytes : Z;
  sv_discarded_bytes : Z;
  sv_stop_offset : Z;
  sv_stop_reason : SalvageStopReason;
  sv_recovered_commits : Z;
  sv_recovered_points : Z;
  source_prefix_crc32 : Z;
  sv_destination_snapshot_crc32 : Z;
}.

Definition list_wseg_names (t : Tree) : list rstring :=
  stable_sort str_leb (List.filter (ends_with (str ".wseg")) (map_to_list (default ∅ (tr_segments t))).*1).

Definition check_salvage_segment (dir : Dir) (r : RawSegmentDescriptor) : Result unit :=
  match (Segment_open_in (sd_file r) dir).2 with
  | Err _ => Err (Corruption 0 (text "sealed raw segment {} is unreadable: {error}"))
  | Ok g =>
      verify_raw_segment_descriptor g r ;?
      match verify_blocks g with
      | Err _ => Err (Corruption 0 (text "sealed raw segment {} failed block verification: {error}"))
      | Ok _ => Ok tt
      end
  end.

(** [plan_sealed_salvage]: the manifest that the salvage keeps. *)
Definition plan_sealed_salvage (io : TreeIo) (drop_orphan_segments : bool) (t : Tree) : Result Manifest :=
  let on_disk := list_wseg_names t in
  let? loaded :=
    match tr_manifests t with
    | Some manifests =>
        match Manifest_load (node_bytes <$> manifests) with
        | Ok m => Ok m
        | Err e => if bool_decide (on_disk = []) then Ok Manifest_default else Err e
        end
    | None => if bool_decide (on_disk = []) then Ok Manifest_default
              else corruption 0 "salvage found sealed raw segments but no readable manifest descriptors"
    end in
  (if bool_decide (segments loaded = []) && negb (bool_decide (on_disk = [])) then
     corruption 0 "salvage found sealed raw segments but no manifest descriptors"
   else Ok tt) ;?
  for_each (fun name =>
    if bool_decide (name ∈ map sd_file (segments loaded)) || drop_orphan_segments then Ok tt
    else corruption 0 "salvage found sealed segment {name} not named by the recovered manifest") on_disk ;?
  for_each (check_salvage_segment (dir_of (default ∅ (tr_segments t)) (tio_segments io))) (segments loaded) ;?
  Ok (mkManifest (generation loaded) [] (segments loaded)).

(** [SealedSalvagePlan::sealed_points], with the wrap-around of [sum]. *)
Definition plan_points (m : Manifest) : Z := foldr (fun r n => (sd_points r + n) mod 2 ^ 64) 0 (segments m).

Definition salvage_snapshot_paths (m : Manifest) : list rstring :=
  sorted_paths ([ACTIVE_LOG] ++ map (fun r => join SEGMENT_DIRECTORY (sd_file r)) (segments m)).

(** [salvage_manifest.publish] in the stage. *)
Definition publish_salvage_manifest (suffix : rstring) (m : Manifest) (stage : rstring) : ST World unit :=
  let* t := read_entry stage in
  let '(d, r) := Manifest_publish m suffix (dir_of (default ∅ (tr_manifests t)) []) in
  change stage (set_manifests (Own <$> visible (dir_state d))) ;*
  st_lift r.

(** [write_salvage_stage]. *)
Definition write_salvage_stage (suffix : rstring) (damaged : Tree) (log : bytes) (source : SalvageSource) (plan : Manifest) (stage : rstring)
    : ST World unit :=
  change stage (set_manifests ∅) ;*
  change stage (set_rollup_files ∅) ;*
  (if bool_decide (segments plan = []) then st_ret tt else change stage (set_segments ∅)) ;*
  change stage (set_log (Own (transfer ACTIVE_LOG (take (Z.to_nat (recovered_prefix_bytes source)) log)))) ;*
  w_touch ;*
  let* _ := st_fold (snapshot_segment (node_bytes <$> default ∅ (tr_segments damaged)) stage) (mkBackup 0 0 0 0 0 0 []) (segments plan) in
  (if bool_decide (segments plan = []) then st_ret tt
   else publish_salvage_manifest suffix (if generation plan =? 0 then set_generation 1 plan else plan) stage) ;*
  w_touch ;* w_touch ;* w_touch ;*
  (if bool_decide (segments plan = []) then st_ret tt else w_touch) ;*
  w_touch.

(** [Store::salvage_from_with_options]. *)
Definition salvage_from_with_options (suffix : rstring) (damaged : Tree) (io_source : TreeIo) (drop_orphan_segments : bool)
    (destination : rstring) (unique : nat -> rstring) (io_stage io_destination : TreeIo) : ST World SalvageReport :=
  let* plan := st_lift (plan_sealed_salvage io_source drop_orphan_segments damaged) in
  let* log := st_lift (ok_or (node_bytes <$> tr_log damaged) (Io "NotFound")) in
  let* source := st_lift (SalvageSource_open (tio_lock io_source) (published_seal_generations plan)
                            (mkFile log (length log) (tio_log io_source))).2 in
  let paths := salvage_snapshot_paths plan in
  let* source_digest := st_lift (
    if bool_decide (segments plan = []) then snapshot_file_prefix_digest log ACTIVE_LOG (recovered_prefix_bytes source)
    else snapshot_digest_with_open_prefix damaged paths ACTIVE_LOG log (recovered_prefix_bytes source)) in
  w_touch ;*
  let expected_points := u64_saturating_add (recovered_points source) (plan_points plan) in
  let counts_differ integrity :=
    negb (raw_commits integrity =? recovered_commits source) || negb (raw_points integrity =? expected_points) in
  let* stage := StagedDirectory_create destination (str "salvage") unique in
  on_error
    (write_salvage_stage suffix damaged log source plan stage ;*
     let* stage_digest := digest_of stage paths in
     st_reject (negb (bool_decide (stage_digest = source_digest))) snapshot_mismatch ;*
     let* integrity := check_clean_copy io_stage stage in
     st_reject (counts_differ integrity) (Corruption 0 (text "salvage stage counts differ from the validated source prefix")))
    (drop_stage stage) ;*
  let* published := publish stage destination in
  finish_publication published
    (let* integrity := check_clean_copy io_destination destination in
     let* destination_digest := digest_of destination paths in
     st_reject (negb (bool_decide (destination_digest = source_digest))) snapshot_mismatch ;*
     st_reject (counts_differ integrity) (Corruption 0 (text "salvaged store counts differ from the validated source prefix")) ;*
     w_touch ;*
     st_reject (source_bytes source <? recovered_prefix_bytes source) SourceChanged ;*
     st_ret (mkSalvageReport
       (match salvage_reason source with CleanEof => SalvageClean | _ => SalvagePartial end)
       (source_bytes source) (recovered_prefix_bytes source) (source_bytes source - recovered_prefix_bytes source)
       (recovered_prefix_bytes source) (salvage_reason source) (raw_commits integrity) (raw_points integrity)
       (dg_crc32 source_digest) (dg_crc32 destination_digest))).
End Copies.
