(* ===== verification/SnapshotInv.v ===== *)
(** * SnapshotInv: copies appear whole or not at all

    The protocol of backup, restore and salvage, whatever calls fail; what a
    copy holds; and what the snapshot checksum covers. *)
From S2P Require Import Prelude Errors Bytes Float64 Model Utf8 Transaction Catalog Aggregate Rollup Query Codec Effects Segment RollupSegment Directory Manifest Scan Database Planner Store Salvage Snapshot.

(** ** Calls and the entries they touch *)

(** [m] changes at most the entries in [P], and keeps identities. *)
Definition touches {A} (P : rstring -> Prop) (m : ST World A) : Prop :=
  forall w w' r, m w = (w', r) -> forall n, ~ P n -> w_entries w' !! n = w_entries w !! n.

Definition quiet_world {A} (m : ST World A) : Prop := forall w w' r, m w = (w', r) -> w_entries w' = w_entries w.

(** [m] works inside the directory [stage]. *)
Definition inside {A} (stage : rstring) (m : ST World A) : Prop :=
  forall w w' r, m w = (w', r) ->
    (forall n, n <> stage -> w_entries w' !! n = w_entries w !! n)
    /\ fst <$> w_entries w' !! stage = fst <$> w_entries w !! stage.

Lemma quiet_inside {A} stage (m : ST World A) : quiet_world m -> inside stage m.
Proof. intros Hq w w' r E. by rewrite (Hq _ _ _ E). Qed.

Lemma inside_bind {A B} stage (m : ST World A) (k : A -> ST World B) :
  inside stage m -> (forall a, inside stage (k a)) -> inside stage (st_bind m k).
Proof.
  intros Hm Hk w w' r E. unfold st_bind in E. destruct (m w) as [w1 [a|e]] eqn:E1; [|injection E as <- <-; by eapply Hm].
  destruct (Hm _ _ _ E1) as [A1 A2], (Hk a _ _ _ E) as [B1 B2]. split; [intros n Hn; by rewrite B1, A1|congruence].
Qed.

Lemma quiet_world_bind {A B} (m : ST World A) (k : A -> ST World B) :
  quiet_world m -> (forall a, quiet_world (k a)) -> quiet_world (st_bind m k).
Proof.
  intros Hm Hk w w' r E. unfold st_bind in E. destruct (m w) as [w1 [a|e]] eqn:E1; [|injection E as <- <-; by eapply Hm].
  rewrite (Hk a _ _ _ E). by eapply Hm.
Qed.

Lemma quiet_world_ret {A} (a : A) : quiet_world (st_ret a).
Proof. by intros w w' r [= <- <-]. Qed.
Lemma quiet_world_err {A} e : quiet_world (@st_err World A e).
Proof. by intros w w' r [= <- <-]. Qed.
Lemma quiet_world_lift {A} (x : Result A) : quiet_world (st_lift x).
Proof. by intros w w' r [= <- <-]. Qed.
Lemma quiet_world_call {A} (op : ST World A) : quiet_world op -> quiet_world (w_call op).
Proof.
  intros Hq w w' r. unfold w_call. destruct (w_faults w) as [|[k|] rest]; intros E; [by eapply Hq|by injection E as <- <-|by apply Hq in E].
Qed.
Lemma quiet_touch : quiet_world w_touch.
Proof. apply quiet_world_call, quiet_world_ret. Qed.
Lemma quiet_read_entry name : quiet_world (read_entry name).
Proof. by intros w w' r [= <- <-]. Qed.
Lemma quiet_read_identity name : quiet_world (read_identity name).
Proof. apply quiet_world_call. by intros w w' r [= <- <-]. Qed.

Ltac quiet_tac :=
  repeat first [ apply quiet_world_ret | apply quiet_world_err | apply quiet_world_lift | apply quiet_touch | apply quiet_read_entry
               | apply quiet_read_identity | apply quiet_world_bind; [|intros ?]
               | progress (unfold st_reject, directory_bytes, digest_of, check_clean_copy, check_copy) ].

Lemma quiet_bytes name : quiet_world (directory_bytes name).
Proof. quiet_tac. Qed.
Lemma quiet_check_copy `{Crc} `{RecordCodec} `{IndexCodec} `{TimeZones} `{Lz4} `{MapOrder} `{ManifestCodec} `{ReadDir} `{CacheOrder} io name :
  quiet_world (check_copy io name).
Proof. quiet_tac. Qed.

Lemma inside_change stage f : inside stage (change stage f).
Proof.
  intros w w' r. unfold change, w_call.
  assert (Hop : forall w : World, forall w' r, match w_entries w !! stage with
      | Some (i, t) => (set_entries (<[stage := (i, f t)]> (w_entries w)) w, Ok tt) | None => (w, Err (Io "NotFound")) end = (w', r) ->
      (forall n, n <> stage -> w_entries w' !! n = w_entries w !! n) /\ fst <$> w_entries w' !! stage = fst <$> w_entries w !! stage).
  { clear. intros w w' r. destruct (w_entries w !! stage) as [[i t]|] eqn:E; intros [= <- <-]; [|by rewrite E]. cbn.
    split; [intros n Hn; by rewrite lookup_insert_ne|by rewrite lookup_insert_eq]. }
  destruct (w_faults w) as [|[k|] rest]; [apply Hop|by intros [= <- <-]|]. intros E. by apply Hop in E.
Qed.

Ltac inside_tac :=
  repeat first [ apply inside_change | apply quiet_inside; quiet_tac; fail | apply inside_bind; [|intros ?]
               | match goal with |- inside _ (if ?c then _ else _) => destruct c end ].

(** ** The stage *)

Lemma w_call_run {A} (op : ST World A) w w' r :
  w_call op w = (w', r) ->
  (exists k, r = Err (Io k)) /\ w_entries w' = w_entries w \/ exists w0, w_entries w0 = w_entries w /\ w_next w0 = w_next w /\ op w0 = (w', r).
Proof.
  unfold w_call. destruct (w_faults w) as [|[k|] rest].
  - intros E. right. by exists w.
  - intros [= <- <-]. left. split; [by exists k|done].
  - intros E. right. eexists. split; [|split; [|exact E]]; done.
Qed.

Definition is_stage (destination operation : rstring) (unique : nat -> rstring) (n : rstring) : Prop :=
  exists a, n = stage_name destination operation unique a.

Lemma stage_not_destination destination operation unique n : is_stage destination operation unique n -> n <> destination.
Proof.
  intros [a ->] E. apply (f_equal length) in E. unfold stage_name in E. rewrite !length_app in E. cbn in E. lia.
Qed.

Lemma create_attempts_spec n name : forall a w w' r,
  create_attempts n name a w = (w', r) ->
  match r with
  | Ok stage => (exists b, stage = name b) /\ w_entries w !! stage = None
                /\ exists i, w_entries w' = <[stage := (i, tree_empty)]> (w_entries w)
  | Err _ => forall m, (forall b, m <> name b) -> w_entries w' !! m = w_entries w !! m
  end.
Proof.
  induction n as [|n IH]; intros a w w' r E; cbn in E; [by injection E as <- <-|].
  destruct (create_directory (name a) w) as [w1 r1] eqn:E1. unfold create_directory in E1.
  apply w_call_run in E1 as [[[k ->] Ew]|(w0 & Ew & _ & E1)].
  - destruct (String.eqb k "AlreadyExists"); [|injection E as <- <-; by rewrite Ew]. apply IH in E. destruct r; by rewrite Ew in E.
  - rewrite <- Ew. destruct (w_entries w0 !! name a) as [[i0 t0]|] eqn:Ea; injection E1 as <- <-.
    + cbn in E. apply IH in E. by destruct r.
    + unfold st_bind in E. destruct (w_touch _) as [w2 [[]|e]] eqn:Et; apply quiet_touch in Et; injection E as <- <-; cbn in Et.
      * split; [by exists a|]. split; [done|]. by exists (w_next w0).
      * intros m Hm. rewrite Et, lookup_insert_ne; [done|]. by apply not_eq_sym.
Qed.

Lemma create_spec destination operation unique w w' r :
  StagedDirectory_create destination operation unique w = (w', r) ->
  match r with
  | Ok stage => is_stage destination operation unique stage /\ w_entries w !! stage = None /\ w_entries w !! destination = None
                /\ exists i, w_entries w' = <[stage := (i, tree_empty)]> (w_entries w)
  | Err _ => forall n, ~ is_stage destination operation unique n -> w_entries w' !! n = w_entries w !! n
  end.
Proof.
  unfold StagedDirectory_create. unfold st_bind at 1. destruct (reject_existing destination w) as [w1 r1] eqn:E1.
  assert (H1 : w_entries w1 = w_entries w /\ (r1 = Ok tt -> w_entries w !! destination = None)).
  { unfold reject_existing in E1. apply w_call_run in E1 as [[[k ->] Ew]|(w0 & Ew & _ & [= <- <-])]; [done|].
    split; [done|]. rewrite <- Ew. by destruct (w_entries w0 !! destination). }
  destruct H1 as [Ew1 Hd]. destruct r1 as [[]|e]; [|intros [= <- <-]; by rewrite Ew1].
  unfold st_bind at 1. destruct (w_touch w1) as [w2 [[]|e]] eqn:E2; apply quiet_touch in E2; [|intros [= <- <-]; by rewrite E2, Ew1].
  intros E%create_attempts_spec. rewrite E2, Ew1 in E. destruct r as [stage|e].
  - destruct E as ((b & ->) & Hn & i & Hi). split; [by exists b|]. split_and!; [done|by apply Hd|by exists i].
  - intros n Hn. apply E. intros b ->. apply Hn. by exists b.
Qed.

(** ** Taking a publication back *)

Section Rollback.
Context (stage destination : rstring) (i : nat) (t : Tree).
Context (Hne : stage <> destination).
Abbreviation p := (mkPublished stage destination i true).

(** Everything but stage and destination is as in [w]; the destination holds
    the whole copy or nothing. *)
Definition contained (w w' : World) : Prop :=
  (forall n, n <> stage -> n <> destination -> w_entries w' !! n = w_entries w !! n)
  /\ (w_entries w' !! destination = None \/ w_entries w' !! destination = Some (i, t)).

Lemma contained_hidden w w' :
  w_entries w' = <[stage := (i, t)]> (delete destination (w_entries w)) -> contained w w'.
Proof using Hne.
  intros Ew. unfold contained. rewrite Ew. split; [intros n Hn1 Hn2; by rewrite lookup_insert_ne, lookup_delete_ne|].
  left. by rewrite lookup_insert_ne, lookup_delete_eq.
Qed.
Lemma contained_gone w w' : w_entries w' = delete destination (w_entries w) -> contained w w'.
Proof. intros Ew. unfold contained. rewrite Ew. split; [intros n Hn1 Hn2; by rewrite lookup_delete_ne|]. left. apply lookup_delete_eq. Qed.

Lemma rollback_spec w w' p' r :
  w_entries w !! destination = Some (i, t) -> w_entries w !! stage = None ->
  rollback p w = (w', (p', r)) ->
  r = Ok tt /\ p' = taken_back p /\ w_entries w' = delete destination (w_entries w)
  \/ (exists e, r = Err e)
     /\ (p' = p /\ w_entries w' = w_entries w \/ p' = taken_back p /\ contained w w').
Proof using Hne.
  intros Hd Hs. unfold rollback. cbn [at_destination negb pd_destination hidden_path identity].
  destruct (read_identity destination w) as [w1 r1] eqn:E1. pose proof (quiet_read_identity _ _ _ _ E1) as Ew1.
  destruct r1 as [j|e]; [|intros [= <- <- <-]; right; split; [by eexists|by left]].
  destruct (Nat.eqb j i); cbn [negb]; [|intros [= <- <- <-]; right; split; [by eexists|by left]].
  destruct (rename_noreplace destination stage w1) as [w2 r2] eqn:E2. unfold rename_noreplace in E2.
  apply w_call_run in E2 as [[[k ->] Ew2]|(w0 & Ew0 & _ & E2)].
  { intros [= <- <- <-]. right. split; [by eexists|]. left. split; [done|congruence]. }
  rewrite Ew0, Ew1, Hd, Hs in E2. injection E2 as <- <-.
  set (m2 := <[stage := (i, t)]> (delete destination (w_entries w))).
  set (w2' := set_entries _ w0). assert (Em : w_entries w2' = m2) by (unfold w2', m2; cbn; congruence). clearbody w2'.
  unfold st_bind at 1. destruct (w_touch w2') as [w3 [[]|e]] eqn:E3; apply quiet_touch in E3.
  2: { intros [= <- <- <-]. right. split; [by eexists|]. right. split; [done|]. apply contained_hidden. rewrite E3. exact Em. }
  unfold st_bind at 1. destruct (remove_dir_all stage w3) as [w4 r4] eqn:E4. unfold remove_dir_all in E4.
  assert (H4 : r4 = Ok tt /\ w_entries w4 = delete destination (w_entries w) \/ (exists e, r4 = Err e) /\ contained w w4).
  { apply w_call_run in E4 as [[[k ->] Ew4]|(w0' & Ew0' & _ & E4)].
    - right. split; [by eexists|]. apply contained_hidden. rewrite Ew4, E3. exact Em.
    - rewrite Ew0', E3, Em in E4. unfold m2 in E4 at 1. rewrite lookup_insert_eq in E4. injection E4 as <- <-. left. split; [done|]. cbn.
      unfold m2. rewrite delete_insert_eq, delete_id; [done|]. by rewrite lookup_delete_ne. }
  destruct r4 as [[]|e4].
  - destruct H4 as [[_ Ew4]|[[? ?] _]]; [|done]. destruct (w_touch w4) as [w5 r5] eqn:E5. apply quiet_touch in E5.
    intros [= <- <- <-]. destruct r5 as [[]|e5]; [left; split_and!; [done|done|congruence]|].
    right. split; [by eexists|]. right. split; [done|]. apply contained_gone. congruence.
  - destruct H4 as [[? _]|[_ Hk]]; [done|]. intros [= <- <- <-]. right. split; [by eexists|]. by right.
Qed.

Lemma rollback_after_spec {A} w w' e (r : Result A) :
  w_entries w !! destination = Some (i, t) -> w_entries w !! stage = None ->
  rollback_after p e w = (w', r) ->
  r = Err e /\ w_entries w' = delete destination (w_entries w)
  \/ (exists s, r = Err (SnapshotPublication s)) /\ contained w w'.
Proof using Hne.
  intros Hd Hs. unfold rollback_after. destruct (rollback p w) as [w1 [p1 r1]] eqn:E1.
  destruct (rollback p1 w1) as [w2 [p2 r2]] eqn:E2. intros [= <- <-].
  destruct (rollback_spec _ _ _ _ Hd Hs E1) as [(-> & -> & Ew)|[[e1 ->] [[-> Ew]|[-> Hk]]]].
  - left. cbn in E2. injection E2 as <- _ _. done.
  - right. split; [by eexists|]. pose proof Hd as Hd'. rewrite <- Ew in Hd, Hs.
    destruct (rollback_spec _ _ _ _ Hd Hs E2) as [(_ & _ & Ew2)|[_ [[_ Ew2]|[_ [Hk Hdest]]]]].
    + apply contained_gone. congruence.
    + split; [intros n _ _|right]; congruence.
    + split; [intros n Hn1 Hn2; rewrite Hk by done|]; congruence.
  - right. split; [by eexists|]. cbn in E2. injection E2 as <- _ _. done.
Qed.
End Rollback.

(** ** The protocol of the three copies *)

Definition copy_protocol {A B} (destination operation : rstring) (unique : nat -> rstring) (build : rstring -> ST World A)
    (after : A -> ST World B) : ST World B :=
  let* stage := StagedDirectory_create destination operation unique in
  let* a := on_error (build stage) (drop_stage stage) in
  let* published := publish stage destination in
  finish_publication published (after a).

(** Nothing outside the stages changed, and nothing at the destination. *)
Definition unpublished (stages : rstring -> Prop) (w w' : World) : Prop :=
  forall n, ~ stages n -> w_entries w' !! n = w_entries w !! n.

Lemma drop_stage_spec stage w w' r : drop_stage stage w = (w', r) -> forall n, n <> stage -> w_entries w' !! n = w_entries w !! n.
Proof.
  unfold drop_stage, ignore. destruct (remove_dir_all stage w) as [w1 r1] eqn:E1. intros [= <- <-] n Hn.
  unfold remove_dir_all in E1. apply w_call_run in E1 as [[_ Ew]|(w0 & Ew & _ & E1)]; [by rewrite Ew|].
  rewrite <- Ew. destruct (w_entries w0 !! stage); injection E1 as <- <-; [|done]. cbn. by rewrite lookup_delete_ne.
Qed.

Section Protocol.
Context (stage destination : rstring) (i : nat) (t : Tree).
Context (Hne : stage <> destination).

Definition published_entries (w w' : World) : Prop := w_entries w' = <[destination := (i, t)]> (delete stage (w_entries w)).

Lemma rolled_back {A} w w1 w' e (r : Result A) :
  w_entries w !! destination = None -> published_entries w w1 ->
  rollback_after (mkPublished stage destination i true) e w1 = (w', r) ->
  r = Err e /\ (forall n, n <> stage -> w_entries w' !! n = w_entries w !! n)
  \/ (exists s, r = Err (SnapshotPublication s)) /\ contained stage destination i t w w'.
Proof using Hne.
  intros Hd Hp E. eapply (rollback_after_spec stage destination i t) in E as [[-> Ew]|[Hs [Hk Hw]]]; [| |done|..].
  - left. split; [done|]. intros n Hn. rewrite Ew, Hp, delete_insert_id by (by rewrite lookup_delete_ne). by rewrite lookup_delete_ne.
  - right. split; [done|]. split; [|done]. intros n Hn1 Hn2. rewrite Hk, Hp by done. by rewrite lookup_insert_ne, lookup_delete_ne.
  - rewrite Hp. apply lookup_insert_eq.
  - rewrite Hp. rewrite lookup_insert_ne by done. apply lookup_delete_eq.
Qed.

Lemma rename_spec w w' r :
  w_entries w !! stage = Some (i, t) -> w_entries w !! destination = None ->
  rename_noreplace stage destination w = (w', r) ->
  match r with Ok _ => published_entries w w' | Err _ => w_entries w' = w_entries w end.
Proof.
  intros Hs Hd E. unfold rename_noreplace in E. apply w_call_run in E as [[[k ->] Ew]|(w0 & Ew & _ & E)]; [done|].
  rewrite Ew, Hs, Hd in E. injection E as <- <-. unfold published_entries. cbn. congruence.
Qed.

Lemma move_spec w w' r :
  w_entries w !! stage = Some (i, t) -> w_entries w !! destination = None ->
  (let* j := read_identity stage in rename_noreplace stage destination ;* st_ret (mkPublished stage destination j true)) w = (w', r) ->
  match r with
  | Ok p => p = mkPublished stage destination i true /\ published_entries w w'
  | Err _ => w_entries w' = w_entries w
  end.
Proof.
  intros Hs Hd. unfold st_bind at 1. destruct (read_identity stage w) as [w1 r1] eqn:E1. pose proof (quiet_read_identity _ _ _ _ E1) as Ew1.
  destruct r1 as [j|e]; [|by intros [= <- <-]].
  unfold read_identity in E1. apply w_call_run in E1 as [[[k ?] _]|(w0 & Ew0 & _ & [= _ Ej])]; [done|]. rewrite Ew0, Hs in Ej. injection Ej as <-.
  unfold st_bind. destruct (rename_noreplace stage destination w1) as [w2 r2] eqn:E2.
  apply rename_spec in E2; [|by rewrite Ew1..]. unfold published_entries in *. rewrite Ew1 in E2.
  destruct r2 as [[]|e]; intros [= <- <-]; done.
Qed.

Lemma publish_spec w w' r :
  w_entries w !! stage = Some (i, t) -> w_entries w !! destination = None ->
  publish stage destination w = (w', r) ->
  match r with
  | Ok p => p = mkPublished stage destination i true /\ published_entries w w'
  | Err e => (forall n, n <> stage -> w_entries w' !! n = w_entries w !! n)
             \/ (exists s, e = SnapshotPublication s) /\ contained stage destination i t w w'
  end.
Proof using Hne.
  intros Hs Hd. unfold publish. unfold st_bind at 1, on_error.
  destruct (st_bind (read_identity stage) _ w) as [w1 r1] eqn:E1. apply move_spec in E1; [|done..].
  destruct r1 as [p|e].
  - destruct E1 as [-> Hp]. destruct (w_touch w1) as [w2 [[]|e]] eqn:E2; apply quiet_touch in E2.
    + intros [= <- <-]. split; [done|]. unfold published_entries. by rewrite E2.
    + intros E. eapply rolled_back in E as [[-> Hk]|[[s ->] Hc]]; [by left|right; split; [by exists s|done]|done|].
      unfold published_entries. by rewrite E2.
  - destruct (drop_stage stage w1) as [w2 r2] eqn:E2. intros [= <- <-]. left. intros n Hn. by rewrite (drop_stage_spec _ _ _ _ E2), E1.
Qed.
End Protocol.

(** Ok: the destination is new and holds the copy that was built and passed
    [after].  An error leaves everything but stages as it was, unless taking
    the copy back failed too: then the destination holds nothing or a whole
    copy. *)
Definition copied {A B} (destination operation : rstring) (unique : nat -> rstring) (build : rstring -> ST World A) (after : A -> ST World B)
    (w w' : World) (r : Result B) : Prop :=
  match r with
  | Ok b => w_entries w !! destination = None /\ exists stage i t a w1 w2 w3,
      is_stage destination operation unique stage
      /\ w_entries w1 !! stage = Some (i, tree_empty) /\ build stage w1 = (w2, Ok a) /\ w_entries w2 !! stage = Some (i, t)
      /\ w_entries w3 !! destination = Some (i, t) /\ after a w3 = (w', Ok b)
      /\ w_entries w' = <[destination := (i, t)]> (w_entries w)
  | Err e =>
      unpublished (is_stage destination operation unique) w w'
      \/ (exists s, e = SnapshotPublication s)
         /\ unpublished (fun n => is_stage destination operation unique n \/ n = destination) w w'
         /\ (w_entries w' !! destination = None \/ exists stage i t a w1 w2,
               w_entries w1 !! stage = Some (i, tree_empty) /\ build stage w1 = (w2, Ok a) /\ w_entries w2 !! stage = Some (i, t) /\ w_entries w' !! destination = Some (i, t))
  end.

Lemma copy_protocol_spec {A B} destination operation unique (build : rstring -> ST World A) (after : A -> ST World B) w w' r :
  (forall stage, inside stage (build stage)) -> (forall a, quiet_world (after a)) ->
  copy_protocol destination operation unique build after w = (w', r) ->
  copied destination operation unique build after w w' r.
Proof.
  intros Hb Ha. unfold copy_protocol. unfold st_bind at 1.
  destruct (StagedDirectory_create destination operation unique w) as [w1 r1] eqn:E1. apply create_spec in E1.
  destruct r1 as [stage|e]; [|intros [= <- <-]; by left]. destruct E1 as (Hst & Hn & Hd & i & Ew1).
  assert (Hne : stage <> destination) by (by eapply stage_not_destination).
  unfold st_bind at 1, on_error. destruct (build stage w1) as [w2 r2] eqn:E2. destruct (Hb _ _ _ _ E2) as [Hk2 Hi2].
  assert (Hk : forall n, n <> stage -> w_entries w2 !! n = w_entries w !! n).
  { intros n Hn'. rewrite Hk2, Ew1 by done. by rewrite lookup_insert_ne. }
  destruct r2 as [a|e].
  2: { destruct (drop_stage stage w2) as [w3 r3] eqn:E3. intros [= <- <-]. left. intros n Hn'.
       assert (n <> stage) by (by intros ->). rewrite (drop_stage_spec _ _ _ _ E3) by done. by apply Hk. }
  rewrite Ew1, lookup_insert_eq in Hi2. cbn in Hi2. destruct (w_entries w2 !! stage) as [[i' t]|] eqn:Es; [|done]. injection Hi2 as ->.
  assert (Hd2 : w_entries w2 !! destination = None) by (by rewrite Hk).
  assert (Hwide : forall w3, contained stage destination i t w2 w3 ->
            unpublished (fun n => is_stage destination operation unique n \/ n = destination) w w3).
  { intros w3 [Hc _] n Hn'. rewrite Hc, Hk; [done|..]; intros ->; apply Hn'; by eauto. }
  unfold st_bind at 1. destruct (publish stage destination w2) as [w3 r3] eqn:E3. eapply publish_spec in E3; [|done..].
  destruct r3 as [p|e].
  2: { intros [= <- <-]. destruct E3 as [Hk3|[Hs Hc]]; [left|right].
       - intros n Hn'. assert (n <> stage) by (by intros ->). by rewrite Hk3, Hk.
       - split_and!; [done|by apply Hwide|]. destruct Hc as [_ [Hc|Hc]]; [by left|]. right. exists stage, i, t, a, w1, w2. by rewrite Ew1, lookup_insert_eq. }
  destruct E3 as [-> Hp]. unfold finish_publication. destruct (after a w3) as [w4 r4] eqn:E4. pose proof (Ha _ _ _ _ E4) as Ew4.
  assert (Hp4 : published_entries stage destination i t w2 w4) by (unfold published_entries; by rewrite Ew4).
  destruct r4 as [b|e].
  - intros [= <- <-]. split; [done|]. exists stage, i, t, a, w1, w2, w3. split_and!; try done.
    + rewrite Ew1. apply lookup_insert_eq.
    + rewrite Hp. apply lookup_insert_eq.
    + rewrite Hp4. apply map_eq. intros n. destruct (decide (n = destination)) as [->|Hn1]; [by rewrite !lookup_insert_eq|].
      rewrite !(lookup_insert_ne _ destination) by done. destruct (decide (n = stage)) as [->|Hn2]; [by rewrite lookup_delete_eq|].
      rewrite lookup_delete_ne by done. by apply Hk.
  - intros E. eapply rolled_back in E as [[-> Hk3]|[[s ->] Hc]]; [left|right|done..].
    + intros n Hn'. assert (n <> stage) by (by intros ->). by rewrite Hk3, Hk.
    + split_and!; [by exists s|by apply Hwide|]. destruct Hc as [_ [Hc|Hc]]; [by left|]. right. exists stage, i, t, a, w1, w2. by rewrite Ew1, lookup_insert_eq.
Qed.

(** ** The three copies follow it *)

Lemma inside_fold {A B} stage (f : A -> B -> ST World A) a l : (forall a b, inside stage (f a b)) -> inside stage (st_fold f a l).
Proof. intros Hf. revert a. induction l as [|b l IH]; intros a; cbn; [apply quiet_inside, quiet_world_ret|]. apply inside_bind; auto. Qed.

Section Protocols.
Context `{Crc} `{RecordCodec} `{IndexCodec} `{TimeZones} `{Lz4} `{MapOrder} `{ManifestCodec} `{ReadDir} `{CacheOrder}.
Context (transfer : rstring -> bytes -> bytes) (group_accessible : rstring -> bool).

Lemma inside_copy stage relative source place : inside stage (copy_and_sync transfer stage relative source place).
Proof. unfold copy_and_sync. inside_tac. Qed.

Lemma inside_link stage relative source place : inside stage (hard_link_or_copy transfer group_accessible stage relative source place).
Proof.
  unfold hard_link_or_copy. apply inside_bind; [apply quiet_inside, quiet_world_call, quiet_world_lift|intros c].
  destruct (group_accessible relative); [apply inside_bind; [apply inside_copy|intros; inside_tac]|].
  intros w w' r. destruct (change stage (place (Linked c)) w) as [w1 r1] eqn:E1. destruct (inside_change _ _ _ _ _ E1) as [A1 A2].
  assert (Hc : forall k, inside stage (copy_and_sync transfer stage relative source place ;* st_ret (OutCopied k))).
  { intros k. apply inside_bind; [apply inside_copy|intros; inside_tac]. }
  destruct r1 as [[]|e]; [by intros [= <- <-]|].
  destruct e; try (by intros [= <- <-]). intros E. destruct (Hc _ _ _ _ E) as [B1 B2]. split; [intros n Hn; by rewrite B1, A1|congruence].
Qed.

Lemma inside_segments source stage report l : inside stage (st_fold (snapshot_segment transfer group_accessible source stage) report l).
Proof. apply inside_fold. intros a b. apply inside_bind; [apply inside_link|intros; inside_tac]. Qed.

Lemma inside_write_snapshot s stage : inside stage (write_snapshot transfer group_accessible s stage).
Proof.
  unfold write_snapshot. do 3 (apply inside_bind; [apply inside_change|intros _]). apply inside_bind; [apply inside_copy|intros _].
  apply inside_bind; [|intros ?].
  { apply inside_fold. intros a b. apply inside_bind; [apply inside_link|intros; inside_tac]. }
  apply inside_bind; [apply inside_segments|intros ?]. apply inside_bind; [|intros ?; inside_tac].
  destruct (0 <? generation (manifest s)); [apply inside_bind; [apply inside_link|intros; inside_tac]|inside_tac].
Qed.

Lemma inside_salvage_stage suffix damaged log source plan stage :
  inside stage (write_salvage_stage transfer group_accessible suffix damaged log source plan stage).
Proof.
  unfold write_salvage_stage. do 2 (apply inside_bind; [apply inside_change|intros _]).
  apply inside_bind; [inside_tac|intros _]. do 2 (apply inside_bind; [inside_tac|intros _]).
  apply inside_bind; [apply inside_segments|intros _]. apply inside_bind; [|intros _; inside_tac].
  destruct (bool_decide _); [inside_tac|]. unfold publish_salvage_manifest. apply inside_bind; [inside_tac|intros t].
  destruct (Manifest_publish _ _ _) as [d r]. inside_tac.
Qed.

(** ** What a copy holds *)

(** [m] turns a stage that holds [P] into one that holds [Q]. *)
Definition builds {A} (stage : rstring) (P : Tree -> Prop) (m : ST World A) (Q : A -> Tree -> Prop) : Prop :=
  forall w w' a i t, m w = (w', Ok a) -> w_entries w !! stage = Some (i, t) -> P t -> exists t', w_entries w' !! stage = Some (i, t') /\ Q a t'.

Lemma builds_bind {A B} stage P (m : ST World A) Q (k : A -> ST World B) R :
  builds stage P m Q -> (forall a, builds stage (Q a) (k a) R) -> builds stage P (st_bind m k) R.
Proof.
  intros Hm Hk w w' b i t E Hs HP. unfold st_bind in E. destruct (m w) as [w1 [a|]] eqn:E1; [|done].
  destruct (Hm _ _ _ _ _ E1 Hs HP) as (t1 & Hs1 & HQ). by eapply Hk.
Qed.

Lemma builds_quiet {A} stage P (m : ST World A) : quiet_world m -> builds stage P m (fun _ => P).
Proof. intros Hq w w' a i t E Hs HP. exists t. by rewrite (Hq _ _ _ E). Qed.

Lemma builds_ret {A} stage (P : Tree -> Prop) (a : A) Q : (forall t, P t -> Q a t) -> builds stage P (st_ret a) Q.
Proof. intros HQ w w' a' i t [= <- <-] Hs HP. exists t. auto. Qed.

Lemma builds_change stage f (P : Tree -> Prop) (Q : unit -> Tree -> Prop) :
  (forall t, P t -> Q tt (f t)) -> builds stage P (change stage f) Q.
Proof.
  intros HQ w w' [] i t E Hs HP. unfold change in E. apply w_call_run in E as [[[k ?] _]|(w0 & Ew & _ & E)]; [done|].
  rewrite Ew, Hs in E. injection E as <-. exists (f t). cbn. rewrite lookup_insert_eq. auto.
Qed.

Lemma builds_fold {A B} stage (f : A -> B -> ST World A) (P : list B -> Tree -> Prop) : forall l done a,
  (forall a b done, builds stage (P done) (f a b) (fun _ => P (done ++ [b]))) ->
  builds stage (P done) (st_fold f a l) (fun _ => P (done ++ l)).
Proof.
  induction l as [|b l IH]; intros done a Hf; cbn.
  - apply builds_ret. intros t. by rewrite app_nil_r.
  - eapply builds_bind; [apply Hf|]. intros a'. specialize (IH (done ++ [b]) a' Hf). by rewrite <- app_assoc in IH.
Qed.

Lemma builds_copy stage relative source place (P : Tree -> Prop) (Q : unit -> Tree -> Prop) :
  (forall c t, source = Some c -> P t -> Q tt (place (Own (transfer relative c)) t)) ->
  builds stage P (copy_and_sync transfer stage relative source place) Q.
Proof.
  intros HQ w w' a i t E Hs HP. unfold copy_and_sync in E. destruct source as [c|]; [|done].
  change ((change stage (place (Own (transfer relative c))) ;* w_touch ;* w_touch) w = (w', Ok a)) in E.
  revert w w' a i t E Hs HP. apply builds_bind with Q; [apply builds_change; by auto|]. intros [].
  eapply builds_bind; [apply builds_quiet, quiet_touch|]. intros u. destruct u. intros w w' [] i t E Hs HP. exists t. by rewrite (quiet_touch _ _ _ E).
Qed.

Lemma builds_link stage relative source place (P Q : Tree -> Prop) :
  (forall c n t, source = Some c -> n = Linked c \/ n = Own (transfer relative c) -> P t -> Q (place n t)) ->
  builds stage P (hard_link_or_copy transfer group_accessible stage relative source place) (fun _ => Q).
Proof.
  intros HQ. unfold hard_link_or_copy.
  assert (Hc : forall k, builds stage P (copy_and_sync transfer stage relative source place ;* st_ret (OutCopied k)) (fun _ => Q)).
  { intros k. eapply builds_bind; [apply (builds_copy _ _ _ _ P (fun _ => Q)); by eauto|]. intros []. by apply builds_ret. }
  intros w w' o i t E Hs HP. unfold st_bind at 1 in E. destruct (w_call _ w) as [w1 [c|]] eqn:E1; [|done].
  assert (Ec : source = Some c).
  { apply w_call_run in E1 as [[[k ?] _]|(w0 & Ew0 & En0 & E0)]; [done|]. unfold st_lift in E0. destruct source; cbn in E0; congruence. }
  apply quiet_world_call in E1; [|apply quiet_world_lift]. rewrite <- E1 in Hs.
  destruct (group_accessible relative); [by eapply Hc|].
  destruct (change stage (place (Linked c)) w1) as [w2 r2] eqn:E2. destruct r2 as [[]|e].
  - injection E as <- <-. eapply (builds_change stage (place (Linked c)) P (fun _ => Q)) in E2; [by apply E2|by eauto].
  - destruct e; try done. eapply Hc; [exact E| |exact HP]. unfold change in E2. apply w_call_run in E2 as [[_ Ew]|(w0 & Ew & _ & E2)]; [by rewrite Ew|].
    rewrite Ew, Hs in E2. done.
Qed.

(** [o] holds the files [names] of [source], linked or copied, and no other. *)
Definition holds_copies (source : gmap rstring bytes) (directory : rstring) (names : list rstring) (o : option (gmap rstring Node)) : Prop :=
  exists m, o = Some m /\ dom m = list_to_set names /\ forall name n, m !! name = Some n ->
    exists c, source !! name = Some c /\ (n = Linked c \/ n = Own (transfer (join directory name) c)).

Lemma holds_copies_put source directory names o name n c :
  holds_copies source directory names o -> source !! name = Some c -> n = Linked c \/ n = Own (transfer (join directory name) c) ->
  holds_copies source directory (names ++ [name]) (Some (put name n o)).
Proof.
  intros (m & -> & Hd & Hm) Hc Hn. exists (<[name := n]> m). split; [done|]. split; [rewrite dom_insert_L, Hd, list_to_set_app_L; set_solver|].
  intros name' n'. rewrite lookup_insert_Some. intros [[<- <-]|[_ E]]; [by exists c|by apply Hm].
Qed.

Lemma holds_none source directory : holds_copies source directory [] (Some ∅).
Proof. exists ∅. split; [done|]. split; [by rewrite dom_empty_L|]. intros name n. by rewrite lookup_empty. Qed.

(** The copy of the store [s]: its log, never linked, the active rollups, the
    segments and the current manifest. *)
Definition snapshot_of (s : Store) (t : Tree) : Prop :=
  tr_log t = Some (Own (transfer ACTIVE_LOG (contents (log_at_path (database s)))))
  /\ holds_copies (visible (dir_state (rollup_directory s))) ROLLUP_DIRECTORY (map rd_file (active_rollups (manifest s))) (tr_rollups t)
  /\ holds_copies (visible (dir_state (segment_directory s))) SEGMENT_DIRECTORY (map sd_file (segments (manifest s))) (tr_segments t)
  /\ holds_copies (visible (dir_state (manifest_directory s))) MANIFEST_DIRECTORY
       (if 0 <? generation (manifest s) then [manifest_name (generation (manifest s))] else []) (tr_manifests t).

(** How far [write_snapshot] has come. *)
Definition partial_copy (s : Store) (log : option Node) (rollups segments manifests : list rstring) (t : Tree) : Prop :=
  tr_log t = log
  /\ holds_copies (visible (dir_state (rollup_directory s))) ROLLUP_DIRECTORY rollups (tr_rollups t)
  /\ holds_copies (visible (dir_state (segment_directory s))) SEGMENT_DIRECTORY segments (tr_segments t)
  /\ holds_copies (visible (dir_state (manifest_directory s))) MANIFEST_DIRECTORY manifests (tr_manifests t).

Lemma builds_link_then {A} stage relative source place (P Q : Tree -> Prop) (k : LinkOrCopy -> A) :
  (forall c n t, source = Some c -> n = Linked c \/ n = Own (transfer relative c) -> P t -> Q (place n t)) ->
  builds stage P (let* o := hard_link_or_copy transfer group_accessible stage relative source place in st_ret (k o)) (fun _ => Q).
Proof. intros HQ. eapply builds_bind; [by apply builds_link|]. intros o. by apply builds_ret. Qed.

Lemma write_snapshot_builds s stage :
  builds stage (fun t => t = tree_empty) (write_snapshot transfer group_accessible s stage) (fun _ => snapshot_of s).
Proof.
  unfold write_snapshot.
  eapply builds_bind with (Q := fun _ t => t = set_manifests ∅ tree_empty); [apply builds_change; by intros t ->|intros _].
  eapply builds_bind with (Q := fun _ t => t = set_rollup_files ∅ (set_manifests ∅ tree_empty)); [apply builds_change; by intros t ->|intros _].
  eapply builds_bind with (Q := fun _ => partial_copy s None [] [] []).
  { apply builds_change. intros t ->. split_and!; [done|apply holds_none..]. }
  intros _. set (log := Own (transfer ACTIVE_LOG (contents (log_at_path (database s))))).
  eapply builds_bind with (Q := fun _ => partial_copy s (Some log) [] [] []).
  { apply builds_copy. intros c t [= <-] (_ & HA & HB & HC). done. }
  intros _. set (ro := active_rollups (manifest s)). set (se := segments (manifest s)).
  eapply builds_bind with (Q := fun _ => partial_copy s (Some log) (map rd_file ro) [] []).
  { apply (builds_fold _ _ (fun l => partial_copy s (Some log) (map rd_file l) [] []) ro []). intros report r l. unfold snapshot_rollup.
    apply builds_link_then. intros c n t Hc Hn (HL & HA & HB & HC). split_and!; try done. rewrite map_app. by eapply holds_copies_put. }
  intros report. eapply builds_bind with (Q := fun _ => partial_copy s (Some log) (map rd_file ro) (map sd_file se) []).
  { apply (builds_fold _ _ (fun l => partial_copy s (Some log) (map rd_file ro) (map sd_file l) []) se []). intros report' r l. unfold snapshot_segment.
    apply builds_link_then. intros c n t Hc Hn (HL & HA & HB & HC). split_and!; try done. rewrite map_app. by eapply holds_copies_put. }
  clear report. intros report. eapply builds_bind with (Q := fun _ => snapshot_of s); [|intros ?; apply builds_quiet; quiet_tac].
  unfold snapshot_of. destruct (0 <? generation (manifest s)); [|by apply builds_ret].
  apply builds_link_then. intros c n t Hc Hn (HL & HA & HB & HC). split_and!; try done. by apply (holds_copies_put _ _ [] _ _ n c).
Qed.

(** The salvage of [damaged]: the valid prefix of its log, never linked, the
    segments of the plan, a manifest for them, and no rollups. *)
Definition salvage_of (suffix : rstring) (damaged : Tree) (log : bytes) (source : SalvageSource) (plan : Manifest) (t : Tree) : Prop :=
  tr_log t = Some (Own (transfer ACTIVE_LOG (take (Z.to_nat (recovered_prefix_bytes source)) log)))
  /\ tr_rollups t = Some ∅
  /\ if bool_decide (segments plan = []) then tr_segments t = None /\ tr_manifests t = Some ∅
     else holds_copies (node_bytes <$> default ∅ (tr_segments damaged)) SEGMENT_DIRECTORY (map sd_file (segments plan)) (tr_segments t)
          /\ exists d u, Manifest_publish (if generation plan =? 0 then set_generation 1 plan else plan) suffix (dir_of ∅ []) = (d, Ok u)
             /\ tr_manifests t = Some (Own <$> visible (dir_state d)).

(** How far [write_salvage_stage] has come. *)
Definition partial_salvage (damaged : Tree) (log : option Node) (copied : option (list rstring)) (t : Tree) : Prop :=
  tr_log t = log /\ tr_rollups t = Some ∅ /\ tr_manifests t = Some ∅
  /\ match copied with
     | None => tr_segments t = None
     | Some names => holds_copies (node_bytes <$> default ∅ (tr_segments damaged)) SEGMENT_DIRECTORY names (tr_segments t)
     end.

Lemma publish_salvage_builds suffix damaged log names plan m stage :
  m = (if generation plan =? 0 then set_generation 1 plan else plan) ->
  builds stage (partial_salvage damaged log (Some names)) (publish_salvage_manifest suffix m stage)
    (fun _ t => tr_log t = log /\ tr_rollups t = Some ∅
       /\ holds_copies (node_bytes <$> default ∅ (tr_segments damaged)) SEGMENT_DIRECTORY names (tr_segments t)
       /\ exists d u, Manifest_publish m suffix (dir_of ∅ []) = (d, Ok u) /\ tr_manifests t = Some (Own <$> visible (dir_state d))).
Proof.
  intros Hm w w' a i t E Hs (HL & HR & HM & HS). unfold publish_salvage_manifest in E. unfold st_bind at 1 in E. unfold read_entry in E.
  rewrite Hs in E. cbn [fmap option_fmap option_map snd ok_or] in E. rewrite HM in E. cbn [default from_option id] in E.
  destruct (Manifest_publish m suffix (dir_of ∅ [])) as [d [u|]] eqn:Ep; [|by apply st_bind_Ok in E as (? & ? & _ & [_ ?]%st_lift_Ok)].
  apply st_bind_Ok in E as (v & w1 & E1 & [-> _]%st_lift_Ok).
  assert (Hb : builds stage (fun t' => t' = t) (change stage (set_manifests (Own <$> visible (dir_state d))))
                 (fun _ t' => t' = set_manifests (Own <$> visible (dir_state d)) t)) by (apply builds_change; by intros ? ->).
  destruct (Hb _ _ _ _ _ E1 Hs eq_refl) as (t' & Hs' & ->). eexists. split; [exact Hs'|]. split_and!; [done..|]. by exists d, u.
Qed.

Lemma write_salvage_builds suffix damaged log source plan stage :
  builds stage (fun t => t = tree_empty) (write_salvage_stage transfer group_accessible suffix damaged log source plan stage)
    (fun _ => salvage_of suffix damaged log source plan).
Proof.
  unfold write_salvage_stage.
  eapply builds_bind with (Q := fun _ t => t = set_manifests ∅ tree_empty); [apply builds_change; by intros t ->|intros _].
  eapply builds_bind with (Q := fun _ t => t = set_rollup_files ∅ (set_manifests ∅ tree_empty)); [apply builds_change; by intros t ->|intros _].
  set (node := Own (transfer ACTIVE_LOG (take (Z.to_nat (recovered_prefix_bytes source)) log))).
  set (copied := fun l : list RawSegmentDescriptor => if bool_decide (segments plan = []) then None else Some (map sd_file l)).
  eapply builds_bind with (Q := fun _ => partial_salvage damaged None (copied [])).
  { unfold copied. destruct (bool_decide (segments plan = [])); [apply builds_ret|apply builds_change]; intros t ->;
      split_and!; try done. apply holds_none. }
  intros _. eapply builds_bind with (Q := fun _ => partial_salvage damaged (Some node) (copied [])).
  { apply builds_change. intros t (_ & HR & HM & HS). done. }
  intros _. eapply builds_bind with (Q := fun _ => partial_salvage damaged (Some node) (copied [])); [apply builds_quiet, quiet_touch|intros _].
  eapply builds_bind with (Q := fun _ => partial_salvage damaged (Some node) (copied (segments plan))).
  { destruct (decide (segments plan = [])) as [Eseg|Eseg]; [rewrite Eseg; by apply builds_ret|].
    assert (Hc : forall l, copied l = Some (map sd_file l)) by (intros l; unfold copied; by rewrite bool_decide_eq_false_2).
    rewrite !Hc. apply (builds_fold _ _ (fun l => partial_salvage damaged (Some node) (Some (map sd_file l))) (segments plan) []).
    intros report r l. unfold snapshot_segment. apply builds_link_then. intros c n t Hsrc Hn (HL & HR & HM & HS). split_and!; try done.
    rewrite map_app. by eapply holds_copies_put. }
  intros _. eapply builds_bind with (Q := fun _ => salvage_of suffix damaged log source plan); [|intros _; apply builds_quiet].
  - unfold copied, salvage_of. destruct (bool_decide (segments plan = [])); [apply builds_ret; by intros t (HL & HR & HM & HS)|].
    by eapply publish_salvage_builds.
  - destruct (bool_decide _); quiet_tac.
Qed.
End Protocols.
