(* ===== verification/SnapshotCheck.v ===== *)
(** * SnapshotCheck: what the snapshot checksum proves

    The bytes the checksum is taken of determine every selected file; checks
    and read-only opens keep the files of a store; so a restore or a salvage
    that passed its checks holds files with the digest of the source's: the same
    files, unless the CRC32 of exactly these two snapshots collides. *)
From S2P Require Import Prelude Errors Bytes Float64 Model Utf8 Transaction Catalog Aggregate Rollup Query Codec Effects Segment RollupSegment Directory Manifest Scan Database Planner Store Salvage Snapshot SnapshotInv.

(** ** What is hashed *)

Fixpoint digest_frames (paths : list rstring) (cs : list bytes) : bytes :=
  match paths, cs with
  | p :: paths, c :: cs => to_le 8 (len (as_bytes p)) ++ as_bytes p ++ to_le 8 (len c) ++ c ++ digest_frames paths cs
  | _, _ => []
  end.
(** What is hashed of the files [cs] at [paths]. *)
Definition digest_image (paths : list rstring) (cs : list bytes) : bytes := SNAPSHOT_CRC32_DOMAIN ++ digest_frames paths cs.
Definition total_bytes (cs : list bytes) : Z := foldr (fun c n => len c + n) 0 cs.

Lemma u64_checked_same z e n : ok_or (u64_checked z) e = Ok n -> n = z.
Proof. unfold u64_checked. destruct (in_u64 z); cbn; congruence. Qed.

Lemma digest_files_run file : forall paths previous total hashed total' hashed',
  is_u64 total -> digest_files file paths previous total hashed = Ok (total', hashed') ->
  exists cs, Forall2 (fun p c => file p = Ok c) paths cs /\ is_u64 total'
    /\ total' = total + total_bytes cs /\ hashed' = hashed ++ digest_frames paths cs.
Proof.
  induction paths as [|p paths IH]; intros previous total hashed total' hashed' Ht E; cbn in E.
  - injection E as <- <-. exists []. split_and!; [constructor|done|cbn; lia|by rewrite app_nil_r].
  - apply bind_Ok in E as ([] & _ & E). apply bind_Ok in E as ([] & _ & E). apply bind_Ok in E as (n & ->%u64_checked_same & E).
    apply bind_Ok in E as (c & Ec & E). apply bind_Ok in E as (total1 & E1 & E).
    assert (H1 : is_u64 (total + len c)).
    { unfold u64_checked_add, u64_checked in E1. destruct (in_u64 _) eqn:Eb; [|done].
      apply andb_true_iff in Eb as [_ Eb%Z.leb_le]. change u64_max with (2 ^ 64 - 1) in Eb. unfold is_u64 in *. zlia. }
    apply u64_checked_same in E1 as ->. apply IH in E as (cs & HF & HB & Et & ->); [|done].
    exists (c :: cs). split_and!; [by constructor|done|rewrite Et; unfold total_bytes; cbn [foldr]; lia|]. cbn. by rewrite <- !app_assoc.
Qed.

Lemma total_bytes_bound cs : is_u64 (total_bytes cs) -> Forall (fun c => is_u64 (len c)) cs.
Proof.
  assert (Hn : forall cs, 0 <= total_bytes cs) by (clear; intros cs; induction cs as [|c cs IH]; unfold total_bytes in *; cbn [foldr]; zlia).
  induction cs as [|c cs IH]; [constructor|]. unfold is_u64, total_bytes in *. cbn [foldr]. intros Hb. specialize (Hn cs).
  constructor; [zlia|]. apply IH. zlia.
Qed.

Lemma digest_frames_inj paths : forall cs cs',
  length cs = length paths -> length cs' = length paths ->
  Forall (fun c => is_u64 (len c)) cs -> Forall (fun c => is_u64 (len c)) cs' ->
  digest_frames paths cs = digest_frames paths cs' -> cs = cs'.
Proof.
  induction paths as [|p paths IH]; intros [|c cs] [|c' cs']; cbn; try done. intros [= Hl] [= Hl'] [Hc HB]%Forall_cons [Hc' HB']%Forall_cons E.
  apply app_inv_head, app_inv_head in E. apply app_inj_1 in E as [El E]; [|by rewrite !length_to_le].
  assert (Hlen : len c = len c').
  { rewrite <- (from_to_le_u64 _ Hc), <- (from_to_le_u64 _ Hc'). by rewrite El. }
  apply app_inj_1 in E as [-> E]; [|zlia]. f_equal. by apply IH.
Qed.

Lemma length_digest_frames paths : forall cs cs', length cs = length paths -> length cs' = length paths -> total_bytes cs = total_bytes cs' ->
  length (digest_frames paths cs) = length (digest_frames paths cs').
Proof.
  intros cs cs' Hl Hl' Ht. apply Nat2Z.inj.
  assert (Hf : forall cs, length cs = length paths ->
            Z.of_nat (length (digest_frames paths cs)) = total_bytes cs + total_bytes (map as_bytes paths) + 16 * Z.of_nat (length paths)).
  { clear. unfold total_bytes. induction paths as [|p paths IH]; intros [|c cs]; cbn [digest_frames map foldr length]; try done. intros [= Hl].
    rewrite !length_app, !length_to_le. specialize (IH _ Hl). zlia. }
  rewrite !Hf by done. lia.
Qed.

Section Agree.
Context `{Crc}.

(** [d] is the digest of the files [cs] at [paths]. *)
Definition digests (paths : list rstring) (cs : list bytes) (d : SnapshotDigest) : Prop :=
  length cs = length paths /\ d = mkDigest (len paths) (total_bytes cs) (hash (digest_image paths cs)).
Definition digest_of_files (file : rstring -> Result bytes) (paths : list rstring) (d : SnapshotDigest) : Prop :=
  exists cs, Forall2 (fun p c => file p = Ok c) paths cs /\ digests paths cs d.

(** [file] and [file'] passed for each other: at [paths] they have files [cs]
    and [cs'] with the same number of bytes, what is hashed of them is equally
    long and has the same CRC32, and it is only the same when the files are. *)
Definition same_digest (file file' : rstring -> Result bytes) (paths : list rstring) : Prop :=
  exists cs cs', Forall2 (fun p c => file p = Ok c) paths cs /\ Forall2 (fun p c => file' p = Ok c) paths cs'
    /\ total_bytes cs = total_bytes cs'
    /\ length (digest_image paths cs) = length (digest_image paths cs') /\ hash (digest_image paths cs) = hash (digest_image paths cs')
    /\ (digest_image paths cs = digest_image paths cs' -> cs = cs').

Lemma digests_agree paths cs cs' d :
  is_u64 (dg_bytes d) -> digests paths cs d -> digests paths cs' d ->
  total_bytes cs = total_bytes cs' /\ length (digest_image paths cs) = length (digest_image paths cs')
  /\ hash (digest_image paths cs) = hash (digest_image paths cs') /\ (digest_image paths cs = digest_image paths cs' -> cs = cs').
Proof.
  intros Hb (Hl & ->) (Hl' & [= Ht Eh]). cbn in Hb. split_and!; [done|..|done|].
  - unfold digest_image. rewrite !length_app. f_equal. by apply length_digest_frames.
  - intros E%app_inv_head. apply digest_frames_inj in E; [done|done|done|by apply total_bytes_bound|]. apply total_bytes_bound. by rewrite <- Ht.
Qed.

Lemma digest_files_digests file paths d :
  (let? (total, hashed) := digest_files file paths None 0 SNAPSHOT_CRC32_DOMAIN in Ok (mkDigest (len paths) total (hash hashed))) = Ok d ->
  digest_of_files file paths d /\ is_u64 (dg_bytes d).
Proof.
  intros ([total hashed] & E & [= <-])%bind_Ok. apply digest_files_run in E as (cs & HF & HB & -> & ->); [|done].
  split; [|done]. exists cs. split; [done|]. split; [by rewrite (Forall2_length _ _ _ HF)|done].
Qed.

(** Equal digests at the same paths. *)
Lemma digest_files_agree file file' paths d :
  is_u64 (dg_bytes d) -> digest_of_files file paths d -> digest_of_files file' paths d -> same_digest file file' paths.
Proof.
  intros Hb (cs & HF & Hd) (cs' & HF' & Hd'). destruct (digests_agree _ _ _ _ Hb Hd Hd') as (H1 & H2 & H3 & H4). by exists cs, cs'.
Qed.

Lemma same_digest_impl (file1 file2 file' : rstring -> Result bytes) paths :
  (forall p c, file1 p = Ok c -> file2 p = Ok c) -> same_digest file1 file' paths -> same_digest file2 file' paths.
Proof. intros Hi (cs & cs' & HF & Hrest). exists cs, cs'. split; [|done]. eapply Forall2_impl; [exact HF|]. cbn. auto. Qed.

Lemma snapshot_digest_files t paths d : snapshot_digest t paths = Ok d -> digest_of_files (open_snapshot_file t) paths d /\ is_u64 (dg_bytes d).
Proof. apply digest_files_digests. Qed.

(** The files a salvage means to copy: the prefix of the log, the segments. *)
Definition salvage_file (damaged : Tree) (log : bytes) (prefix : Z) (relative : rstring) : Result bytes :=
  if bool_decide (relative = ACTIVE_LOG) then Ok (take (Z.to_nat prefix) log) else open_snapshot_file damaged relative.

Lemma prefix_digest_files damaged log prefix d : is_u64 (dg_bytes d) -> snapshot_file_prefix_digest log ACTIVE_LOG prefix = Ok d ->
  digest_of_files (salvage_file damaged log prefix) [ACTIVE_LOG] d.
Proof.
  intros Hp E. unfold snapshot_file_prefix_digest in E. apply bind_Ok in E as ([] & _ & E). apply bind_Ok in E as ([] & Hlen%reject_Ok & E).
  apply bind_Ok in E as (n & ->%u64_checked_same & [= <-]). apply Z.ltb_ge in Hlen.
  cbn [dg_bytes] in Hp. destruct Hp as [Hp _]. exists [take (Z.to_nat prefix) log]. split; [by constructor|].
  assert (Hl : len (take (Z.to_nat prefix) log) = prefix) by (unfold zlen; rewrite length_take; zlia).
  split; [done|]. unfold total_bytes, digest_image, digest_frames. cbn [foldr]. rewrite Hl, app_nil_r. f_equal. zlia.
Qed.

Lemma open_prefix_digest_files damaged paths log prefix d : snapshot_digest_with_open_prefix damaged paths ACTIVE_LOG log prefix = Ok d ->
  digest_of_files (salvage_file damaged log prefix) paths d.
Proof.
  intros E. unfold snapshot_digest_with_open_prefix in E. apply bind_Ok in E as ([] & _ & E). apply bind_Ok in E as ([] & _ & E).
  apply bind_Ok in E as ([] & _ & E). by apply digest_files_digests in E as [E _].
Qed.
End Agree.

(** ** Reading keeps the files *)

Definition reads {A} (m : ST Store A) : Prop := forall s s' r, m s = (s', r) -> manifest s' = manifest s /\ tree_of s' = tree_of s.

Lemma file_reads_bind {A B} (m : ST Store A) (k : A -> ST Store B) : reads m -> (forall a, reads (k a)) -> reads (st_bind m k).
Proof.
  intros Hm Hk s s' r E. unfold st_bind in E. destruct (m s) as [s1 [a|e]] eqn:E1; [|injection E as <- <-; by eapply Hm].
  destruct (Hm _ _ _ E1) as [A1 A2], (Hk a _ _ _ E) as [B1 B2]. split; congruence.
Qed.
Lemma reads_id {A} (m : ST Store A) : (forall s, (m s).1 = s) -> reads m.
Proof. intros Hi s s' r E. specialize (Hi s). rewrite E in Hi. by cbn in Hi; subst. Qed.
Lemma reads_for_each {A} (f : A -> ST Store unit) l : (forall a, reads (f a)) -> reads (st_for_each f l).
Proof. intros Hf. induction l as [|a l IH]; cbn; [by apply reads_id|]. apply file_reads_bind; auto. Qed.
Lemma reads_fold {A B} (f : A -> B -> ST Store A) a l : (forall a b, reads (f a b)) -> reads (st_fold f a l).
Proof. intros Hf. revert a. induction l as [|b l IH]; intros a; cbn; [by apply reads_id|]. apply file_reads_bind; auto. Qed.
Lemma file_reads_map {A B} (f : A -> ST Store B) l : (forall a, reads (f a)) -> reads (st_map f l).
Proof.
  intros Hf. induction l as [|b l IH]; cbn; [by apply reads_id|]. apply file_reads_bind; [done|]. intros c. apply file_reads_bind; [done|].
  intros cs. by apply reads_id.
Qed.

Definition same_dir {A} (m : ST Dir A) : Prop := forall d d' r, m d = (d', r) -> dir_state d' = dir_state d.
Lemma same_dir_read name : same_dir (d_read name).
Proof. intros d d' r. unfold d_read, dir_call. destruct (dir_faults d) as [|[f|] l]; by intros [= <- _]. Qed.
Lemma same_dir_lift {B} name (f : bytes -> Result B) : same_dir (let* file := d_read name in st_lift (f file)).
Proof. intros d d' r E. unfold st_bind in E. destruct (d_read name d) as [d1 [c|]] eqn:E1; injection E as <- <-; by eapply same_dir_read. Qed.

Section Reading.
Context `{Crc} `{RecordCodec} `{IndexCodec} `{TimeZones} `{Lz4} `{MapOrder} `{ManifestCodec} `{ReadDir} `{CacheOrder}.

Lemma reads_segments {A} (m : ST Dir A) : same_dir m -> reads (on_segments m).
Proof.
  intros Hm s s' r. unfold on_segments, st_zoom. destruct (m (segment_directory s)) as [d r'] eqn:E. intros [= <- <-].
  split; [done|]. unfold tree_of. cbn. by rewrite (Hm _ _ _ E).
Qed.
Lemma reads_rollups {A} (m : ST Dir A) : same_dir m -> reads (on_rollups m).
Proof.
  intros Hm s s' r. unfold on_rollups, st_zoom. destruct (m (rollup_directory s)) as [d r'] eqn:E. intros [= <- <-].
  split; [done|]. unfold tree_of. cbn. by rewrite (Hm _ _ _ E).
Qed.
Lemma reads_database {A} (m : ST (Database Segment) A) :
  (forall d d' r, m d = (d', r) -> contents (log_at_path d') = contents (log_at_path d)) -> reads (on_database m).
Proof.
  intros Hm s s' r. unfold on_database, st_zoom. destruct (m (database s)) as [d r'] eqn:E. intros [= <- <-].
  split; [done|]. unfold tree_of. cbn. by rewrite (Hm _ _ _ E).
Qed.

Lemma f_len_same f f' r : f_len f = (f', r) -> contents f' = contents f.
Proof. unfold f_len, f_call, next_fault. destruct (faults f) as [|[x|] l]; by intros [= <- <-]. Qed.
Lemma reads_stats : reads (on_database stats).
Proof.
  apply reads_database. intros d d' r E. unfold stats, st_bind in E. unfold on_file, st_zoom in E.
  destruct (f_len (file d)) as [f [n|]] eqn:E1; apply f_len_same in E1; injection E as <- <-;
    unfold log_at_path; cbn; by destruct (renamed_log d).
Qed.

Ltac reads_tac :=
  repeat first [ apply reads_stats | apply reads_segments, same_dir_lift | apply reads_rollups, same_dir_lift | by apply reads_id
               | apply file_reads_bind; [|intros ?] | apply reads_for_each; intros ? | apply reads_fold; intros ? ?
               | apply file_reads_map; intros ? ].

Lemma reads_check_integrity : reads check_integrity.
Proof. unfold check_integrity, check_segment_file, check_rollup_file, Segment_open_in, RollupSegment_open_in. reads_tac. Qed.

Lemma reads_verify : reads verify_manifest_read_only.
Proof. unfold verify_manifest_read_only, check_active, RollupSegment_open_in. reads_tac. by intros s s' r [= <- _]. Qed.

Lemma reads_attempt {A} (m : ST Store A) : reads m -> reads (attempt m).
Proof. intros Hm s s' r. unfold attempt. destruct (m s) as [s1 [a|e]] eqn:E; intros [= <- <-]; by eapply Hm. Qed.

Lemma reads_attach : reads attach_published_segments.
Proof.
  unfold attach_published_segments. apply file_reads_bind; [by apply reads_id|intros s0]. apply file_reads_bind.
  - apply file_reads_map. intros r. unfold attach_one. apply file_reads_bind; [apply reads_attempt; unfold Segment_open_in; reads_tac|intros o].
    destruct o; reads_tac.
  - intros l. apply reads_database. by intros d d' r [= <- _].
Qed.

(** ** Opening a copy *)

Lemma open_file_read_only lock cfg seals f f' (d : Database Segment) : open_file lock cfg true seals f = (f', Ok d) -> contents (log_at_path d) = contents f.
Proof.
  unfold open_file. destruct lock; [|done..]. intros E. apply st_bind_Ok in E as (n & f1 & E1%f_len_same & E).
  apply st_bind_Ok in E as ([] & f2 & [-> _]%st_reject_Ok & E). apply st_bind_Ok in E as (scan & f2 & E2 & E).
  assert (Hf2 : contents f2 = contents f1).
  { unfold scan_log in E2. apply st_bind_Ok in E2 as (c & f3 & E3 & E2). apply st_bind_Ok in E2 as ([] & f4 & [-> _]%st_lift_Ok & E2).
    assert (Hf3 : contents f3 = contents f1).
    { unfold f_read_all, f_call, next_fault in E3. destruct (faults f1) as [|[x|] l]; by injection E3 as <- _. }
    destruct (scan_file _ c) as [[sc offset] stop]. destruct stop; [by injection E2 as <- _|by injection E2 as <- _|done]. }
  cbn in E. injection E as _ <-. cbn. congruence.
Qed.

Lemma lookup_list_to_map_zip `{Countable K} {V} (ks : list K) (vs : list V) k key v :
  NoDup ks -> length ks = length vs -> ks !! k = Some key -> vs !! k = Some v -> (list_to_map (zip ks vs) : gmap K V) !! key = Some v.
Proof.
  intros Hnd Hl Hk Hv. apply elem_of_list_to_map_1; [by rewrite fst_zip by lia|].
  apply list_elem_of_lookup. exists k. rewrite lookup_zip_with, Hk. cbn. by rewrite Hv.
Qed.

Lemma visible_dir_of m flts : visible (dir_state (dir_of m flts)) = node_bytes <$> m.
Proof.
  unfold dir_of, visible. cbn [dir_state fs_now fs_files]. set (l := map_to_list m). apply map_eq. intros name.
  rewrite lookup_omap, lookup_fmap. destruct (m !! name) as [n|] eqn:E.
  - apply elem_of_map_to_list in E. fold l in E. apply list_elem_of_lookup in E as [k Hk].
    assert (Hlt : (k < length l)%nat) by (by apply lookup_lt_Some in Hk).
    rewrite (lookup_list_to_map_zip _ _ k name k); [|apply NoDup_fst_map_to_list|by rewrite length_fmap, length_seq|by rewrite list_lookup_fmap, Hk|by rewrite lookup_seq_lt].
    cbn. rewrite (lookup_list_to_map_zip _ _ k k (node_bytes n, true)); [done|apply NoDup_seq|by rewrite length_map, length_fmap, length_seq|by rewrite lookup_seq_lt|].
    change (map ?f ?x) with (f <$> x). by rewrite !list_lookup_fmap, Hk.
  - rewrite not_elem_of_list_to_map_1; [done|]. rewrite fst_zip by (by rewrite length_fmap, length_seq). intros Hin.
    apply list_elem_of_fmap in Hin as ([name' n] & -> & Hin). apply elem_of_map_to_list in Hin. cbn in E. congruence.
Qed.

(** The files of an opened copy are the copy's. *)
Lemma open_tree_files io t s : open_tree io t = Ok s ->
  (exists n, tr_log t = Some n /\ contents (log_at_path (database s)) = node_bytes n)
  /\ (exists m, tr_manifests t = Some m /\ visible (dir_state (manifest_directory s)) = node_bytes <$> m)
  /\ (exists m, tr_rollups t = Some m /\ visible (dir_state (rollup_directory s)) = node_bytes <$> m)
  /\ visible (dir_state (segment_directory s)) = node_bytes <$> default ∅ (tr_segments t).
Proof.
  unfold open_tree. destruct (tr_manifests t) as [mm|] eqn:Em; [|done]. destruct (tr_rollups t) as [mr|] eqn:Er; [|done].
  intros (m & Hm & E)%bind_Ok. apply bind_Ok in E as ([] & _ & E). unfold Store_open_read_only in E.
  apply bind_Ok in E as (m' & Hm' & E). apply bind_Ok in E as (db & Hdb & E).
  destruct (st_bind _ _ _) as [s1 r1] eqn:E1. destruct r1 as [[]|]; [|done]. injection E as <-.
  assert (Hr : reads (attach_published_segments ;* verify_manifest_read_only)) by (apply file_reads_bind; [apply reads_attach|intros; apply reads_verify]).
  destruct (Hr _ _ _ E1) as [_ Ht]. clear Hr E1. unfold tree_of, tree_files in Ht. cbn [database manifest_directory rollup_directory segment_directory sf_manifests sf_rollups sf_segments] in Ht.
  rewrite !visible_dir_of in Ht. injection Ht as El Ea Eb Ec.
  assert (Hinj : forall m1 m2 : gmap rstring bytes, Own <$> m1 = Own <$> m2 -> m1 = m2).
  { intros m1 m2. apply map_fmap_inj. by intros ? ? [=]. }
  apply Hinj in Ea, Eb, Ec. unfold open_mode in Hdb.
  destruct (validate_config Config_default); [|done]. unfold tree_files in Hdb. cbn [sf_log] in Hdb.
  destruct (tr_log t) as [n|]; [|done]. cbn [fmap option_fmap option_map] in Hdb.
  destruct (open_file _ _ _ _ _) as [f' r'] eqn:Eo. cbn [snd] in Hdb. subst r'.
  apply open_file_read_only in Eo. cbn in Eo. rewrite Em in Ea. rewrite Er in Eb.
  split; [exists n; split; [done|congruence]|]. split; [by exists mm|]. split; [by exists mr|exact Ec].
Qed.

Lemma open_tree_snapshot_file io t s relative c :
  open_tree io t = Ok s -> open_snapshot_file (tree_of s) relative = Ok c -> open_snapshot_file t relative = Ok c.
Proof.
  intros ((n & El & Hn) & (mm & Em & Hm) & (mr & Er & Hr) & Hs)%open_tree_files. unfold open_snapshot_file.
  destruct (existsb _ _); [done|]. destruct (components relative) as [|[| | |a] [|[| | |b] [|]]]; try done.
  - destruct (bool_decide (a = ACTIVE_LOG)); [rewrite El; cbn; congruence|]. by destruct (tree_directory _ _).
  - assert (Hown : forall (x : gmap rstring bytes) k, node_bytes <$> (Own <$> x) !! k = x !! k).
    { intros x k. rewrite lookup_fmap. by destruct (x !! k). }
    unfold tree_directory. cbn [tr_manifests tr_rollups tr_segments tree_of].
    destruct (bool_decide (a = MANIFEST_DIRECTORY)); [by rewrite Em, Hown, Hm, lookup_fmap|].
    destruct (bool_decide (a = ROLLUP_DIRECTORY)); [by rewrite Er, Hown, Hr, lookup_fmap|].
    destruct (bool_decide (a = SEGMENT_DIRECTORY)); [|done]. rewrite Hown, Hs, lookup_fmap.
    by destruct (tr_segments t); cbn; rewrite ?lookup_empty.
Qed.

(** ** What passes the checks *)

(** The directory opens read-only and passes the integrity check. *)
Definition opens_with (io : TreeIo) (t : Tree) (integrity : IntegrityReport) : Prop :=
  exists s, open_tree io t = Ok s /\ (check_integrity s).2 = Ok integrity.
Definition opens_clean (io : TreeIo) (t : Tree) (integrity : IntegrityReport) : Prop :=
  opens_with io t integrity /\ require_clean_restore_source (log_length t) integrity = Ok tt.

Lemma read_entry_Ok name w w' t : read_entry name w = (w', Ok t) -> w' = w /\ exists i, w_entries w !! name = Some (i, t).
Proof. intros [= <- E%ok_or_Ok]. split; [done|]. destruct (w_entries w !! name) as [[i t']|]; [|done]. injection E as ->. by exists i. Qed.

Lemma check_copy_Ok io name w w' integrity i t :
  check_copy io name w = (w', Ok integrity) -> w_entries w !! name = Some (i, t) -> w' = w /\ opens_with io t integrity.
Proof.
  intros E Ht. unfold check_copy in E. apply st_bind_Ok in E as (t' & w1 & [-> [i' E1]]%read_entry_Ok & E).
  apply st_bind_Ok in E as (s & w2 & [-> Es]%st_lift_Ok & [-> Ei]%st_lift_Ok).
  split; [done|]. exists s. split; [congruence|done].
Qed.

Lemma check_clean_copy_Ok io name w w' integrity i t :
  check_clean_copy io name w = (w', Ok integrity) -> w_entries w !! name = Some (i, t) -> w' = w /\ opens_clean io t integrity.
Proof.
  intros E Ht. unfold check_clean_copy in E. apply st_bind_Ok in E as (r & w1 & E1 & E). eapply check_copy_Ok in E1 as [-> Hopen]; [|done].
  apply st_bind_Ok in E as (t' & w2 & [-> [i' E2]]%read_entry_Ok & E). apply st_bind_Ok in E as ([] & w3 & [-> E3]%st_lift_Ok & [= <- <-]).
  split; [done|]. split; [done|]. congruence.
Qed.

Lemma digest_of_Ok name paths w w' d i t :
  digest_of name paths w = (w', Ok d) -> w_entries w !! name = Some (i, t) -> w_entries w' = w_entries w /\ snapshot_digest t paths = Ok d.
Proof.
  intros E Ht. unfold digest_of in E. apply st_bind_Ok in E as ([] & w1 & E1%quiet_touch & E).
  apply st_bind_Ok in E as (t' & w2 & [-> [i' E2]]%read_entry_Ok & [-> E3]%st_lift_Ok). split; [done|]. congruence.
Qed.
End Reading.

(** ** The copies, whole or not at all *)

(** Ok: the destination was free and now holds a [whole] copy; nothing else
    changed.  An error leaves the destination, and everything but stages, as
    it was; only when taking a published copy back fails too is the error a
    [SnapshotPublication], and then the destination holds nothing or a
    [whole] copy. *)
Definition appears {A} (destination operation : rstring) (unique : nat -> rstring) (whole : Tree -> Prop) (w w' : World) (r : Result A) : Prop :=
  match r with
  | Ok _ => w_entries w !! destination = None /\ exists i t, whole t /\ w_entries w' = <[destination := (i, t)]> (w_entries w)
  | Err e =>
      unpublished (is_stage destination operation unique) w w'
      \/ (exists s, e = SnapshotPublication s)
         /\ unpublished (fun n => is_stage destination operation unique n \/ n = destination) w w'
         /\ (w_entries w' !! destination = None \/ exists i t, whole t /\ w_entries w' !! destination = Some (i, t))
  end.

Lemma protocol_appears {A B} destination operation unique (build : rstring -> ST World A) (after : A -> ST World B) whole w w' r :
  (forall stage, inside stage (build stage)) -> (forall a, quiet_world (after a)) ->
  (forall stage, builds stage (fun t => t = tree_empty) (build stage) (fun _ => whole)) ->
  copy_protocol destination operation unique build after w = (w', r) -> appears destination operation unique whole w w' r.
Proof.
  intros Hi Hq Hb E. apply copy_protocol_spec in E; [|done..]. destruct r as [b|e].
  - destruct E as (Hd & stage & i & t & a & w1 & w2 & w3 & _ & Hs1 & E2 & Hs2 & _ & _ & Ew). split; [done|]. exists i, t. split; [|done].
    destruct (Hb _ _ _ _ _ _ E2 Hs1 eq_refl) as (t' & Hs' & Hw). by rewrite Hs2 in Hs'; injection Hs' as ->.
  - destruct E as [E|(Hs & Hu & [Hd|(stage & i & t & a & w1 & w2 & Hs1 & E2 & Hs2 & Hd)])]; [by left|right..].
    + by auto.
    + split_and!; [done..|]. right. exists i, t. split; [|done].
      destruct (Hb _ _ _ _ _ _ E2 Hs1 eq_refl) as (t' & Hs' & Hw). by rewrite Hs2 in Hs'; injection Hs' as ->.
Qed.

Lemma quiet_appears {A} destination operation unique whole w w' e : w_entries w' = w_entries w -> appears (A := A) destination operation unique whole w w' (Err e).
Proof. intros Ew. left. intros n _. by rewrite Ew. Qed.

Lemma appears_from {A} destination operation unique whole w0 w w' (r : Result A) :
  w_entries w0 = w_entries w -> appears destination operation unique whole w0 w' r -> appears destination operation unique whole w w' r.
Proof. unfold appears, unpublished. by intros ->. Qed.

Section Whole.
Context `{Crc} `{RecordCodec} `{IndexCodec} `{TimeZones} `{Lz4} `{MapOrder} `{ManifestCodec} `{ReadDir} `{CacheOrder}.
Context (transfer : rstring -> bytes -> bytes) (group_accessible : rstring -> bool).

Lemma on_store_bind {A B} (m : ST Store A) (k : A -> ST (Store * World) B) s w p' r :
  st_bind (on_store m) k (s, w) = (p', r) ->
  (exists s' e, m s = (s', Err e) /\ p' = (s', w) /\ r = Err e) \/ exists s' a, m s = (s', Ok a) /\ k a (s', w) = (p', r).
Proof.
  unfold st_bind, on_store, st_zoom. cbn. destruct (m s) as [s' [a|e]]; [by eauto|]. intros [= <- <-]. left. by exists s', e.
Qed.

(** [Store::backup_to] as an instance of the protocol. *)
Definition backup_build (s : Store) (io_stage : TreeIo) (stage : rstring) : ST World BackupReport :=
  let* report := write_snapshot transfer group_accessible s stage in
  let* _ := check_copy io_stage stage in
  st_ret report.
Definition backup_after (io_destination : TreeIo) (destination : rstring) (report : BackupReport) : ST World BackupReport :=
  let* _ := check_copy io_destination destination in
  let* bytes := directory_bytes destination in
  st_ret (set_bytes bytes report).

Lemma backup_to_run destination unique io_stage io_destination s w s' w' r :
  backup_to transfer group_accessible destination unique io_stage io_destination (s, w) = ((s', w'), r) ->
  w' = w /\ (exists e, r = Err e)
  \/ copy_protocol destination (str "backup") unique (backup_build s' io_stage) (backup_after io_destination destination) w = (w', r).
Proof.
  unfold backup_to. intros E. apply on_store_bind in E as [(s1 & e & _ & [= -> ->] & ->)|(s1 & [] & E1 & E)]; [by eauto|].
  unfold st_bind at 1, st_get at 1 in E. cbn [fst] in E.
  assert (E' : w' = w /\ (exists e, r = Err e) \/ exists s2, (let* _ := on_store check_integrity in let* p := st_get in
      on_world (copy_protocol destination (str "backup") unique (backup_build p.1 io_stage) (backup_after io_destination destination)))
      (s2, w) = ((s', w'), r)).
  { destruct (store_read_only s1); [right; by exists s1|]. apply on_store_bind in E as [(s2 & e & _ & [= -> ->] & ->)|(s2 & [] & E2 & E)]; [left; by eauto|].
    right. by exists s2. }
  clear E. destruct E' as [|[s2 E]]; [by left|]. apply on_store_bind in E as [(s3 & e & _ & [= -> ->] & ->)|(s3 & i & E3 & E)]; [left; by eauto|].
  right. unfold st_bind at 1, st_get at 1, on_world, st_zoom in E. cbn [fst snd] in E.
  destruct (copy_protocol _ _ _ _ _ w) as [w1 r1] eqn:Ec in E. injection E as -> -> ->. exact Ec.
Qed.

(** A whole backup of [s]: its files, opened and checked. *)
Definition backup_whole (s : Store) (io : TreeIo) (t : Tree) : Prop := snapshot_of transfer s t /\ exists integrity, opens_with io t integrity.

Lemma check_copy_builds io stage P :
  builds stage P (check_copy io stage) (fun _ t => P t /\ exists integrity, opens_with io t integrity).
Proof. intros w w' integrity i t E Hs HP. apply (check_copy_Ok _ _ _ _ _ i t) in E as [-> Ho]; [|done]. exists t. by eauto. Qed.
Lemma check_clean_builds io stage P :
  builds stage P (check_clean_copy io stage) (fun integrity t => P t /\ opens_clean io t integrity).
Proof. intros w w' integrity i t E Hs HP. apply (check_clean_copy_Ok _ _ _ _ _ i t) in E as [-> Ho]; [|done]. exists t. by eauto. Qed.
Lemma digest_builds stage paths P :
  builds stage P (digest_of stage paths) (fun d t => P t /\ snapshot_digest t paths = Ok d).
Proof. intros w w' d i t E Hs HP. apply (digest_of_Ok _ _ _ _ _ i t) in E as [Ew Hd]; [|done]. exists t. rewrite Ew. by eauto. Qed.
Lemma reject_builds stage c e (P : Tree -> Prop) : builds stage P (st_reject c e) (fun _ t => P t /\ c = false).
Proof. intros w w' [] i t [-> Hc]%st_reject_Ok Hs HP. by eauto. Qed.

Lemma backup_appears destination unique io_stage io_destination s w s' w' r :
  backup_to transfer group_accessible destination unique io_stage io_destination (s, w) = ((s', w'), r) ->
  appears destination (str "backup") unique (backup_whole s' io_stage) w w' r.
Proof.
  intros [[-> [e ->]]|E]%backup_to_run; [by apply quiet_appears|]. revert E. apply protocol_appears.
  - intros stage. unfold backup_build. apply inside_bind; [apply inside_write_snapshot|intros ?; inside_tac].
  - intros a. unfold backup_after. quiet_tac.
  - intros stage. unfold backup_build. eapply builds_bind; [apply write_snapshot_builds|intros report].
    eapply builds_bind; [apply check_copy_builds|intros i]. by apply builds_ret.
Qed.

(** [Store::restore_to]. *)
Definition restore_build (s : Store) (io_stage : TreeIo) (paths : list rstring) (source_digest : SnapshotDigest) (stage : rstring) : ST World unit :=
  let* _ := write_snapshot transfer group_accessible s stage in
  let* stage_digest := digest_of stage paths in
  st_reject (negb (bool_decide (stage_digest = source_digest))) snapshot_mismatch ;*
  let* _ := check_clean_copy io_stage stage in
  st_ret tt.
Definition restore_after (io_destination : TreeIo) (destination : rstring) (paths : list rstring) (source_digest : SnapshotDigest)
    (source_integrity : IntegrityReport) (_ : unit) : ST World RestoreReport :=
  let* integrity := check_clean_copy io_destination destination in
  let* destination_digest := digest_of destination paths in
  st_reject (negb (bool_decide (destination_digest = source_digest))) snapshot_mismatch ;*
  st_reject (negb (raw_commits integrity =? raw_commits source_integrity)
             || negb (raw_points integrity =? raw_points source_integrity)
             || negb (ig_manifest_generation integrity =? ig_manifest_generation source_integrity))
    (Corruption 0 (text "restored store counts differ from the checked backup")) ;*
  st_ret (mkRestore (dg_files destination_digest) (dg_bytes destination_digest) (ig_manifest_generation integrity)
            (raw_commits integrity) (raw_points integrity) (dg_crc32 source_digest) (dg_crc32 destination_digest)).

Lemma restore_to_run destination unique io_stage io_destination s w s' w' r :
  restore_to transfer group_accessible destination unique io_stage io_destination (s, w) = ((s', w'), r) ->
  manifest s' = manifest s /\ tree_of s' = tree_of s
  /\ (w_entries w' = w_entries w /\ (exists e, r = Err e)
      \/ exists integrity d w1,
         (check_integrity s).2 = Ok integrity /\ snapshot_digest (tree_of s) (selected_snapshot_paths (manifest s)) = Ok d
         /\ w_entries w1 = w_entries w
         /\ copy_protocol destination (str "restore") unique (restore_build s' io_stage (selected_snapshot_paths (manifest s)) d)
              (restore_after io_destination destination (selected_snapshot_paths (manifest s)) d integrity) w1 = (w', r)).
Proof.
  unfold restore_to. intros E. unfold st_bind at 1 in E. destruct (on_store ensure_healthy (s, w)) as [p1 r1] eqn:E1.
  assert (Hp1 : p1 = (s, w)) by (unfold on_store, st_zoom, ensure_healthy, st_bind, st_get, st_reject in E1; cbn in E1; by injection E1 as <- _).
  subst p1. destruct r1 as [[]|e]; [|injection E as <- <- <-; by eauto 10]. clear E1.
  apply on_store_bind in E as [(s2 & e & E2 & [= -> ->] & ->)|(s2 & integrity & E2 & E)]; pose proof (reads_check_integrity _ _ _ E2) as [Hm Ht];
    [by eauto 10|]. unfold st_bind at 1, st_get at 1 in E. cbn [fst] in E.
  unfold st_bind at 1 in E. destruct (require_clean_restore_source _ _) as [[]|e] in E; [|injection E as <- <- <-; by eauto 10].
  cbn [st_lift] in E. unfold st_bind at 1 in E. unfold on_world at 1, st_zoom at 1 in E. cbn [fst snd] in E.
  destruct (w_touch w) as [w1 r1] eqn:Et. apply quiet_touch in Et. destruct r1 as [[]|e]; [|injection E as <- <- <-; by eauto 10].
  unfold st_bind at 1 in E. destruct (snapshot_digest _ _) as [d|e] eqn:Ed in E; [|injection E as <- <- <-; by eauto 10].
  cbn [st_lift] in E.
  change (on_world (copy_protocol destination (str "restore") unique (restore_build s2 io_stage (selected_snapshot_paths (manifest s2)) d)
    (restore_after io_destination destination (selected_snapshot_paths (manifest s2)) d integrity)) (s2, w1) = ((s', w'), r)) in E.
  unfold on_world, st_zoom in E. cbn [fst snd] in E. destruct (copy_protocol _ _ _ _ _ w1) as [w3 r3] eqn:Ec in E. injection E as <- <- <-.
  rewrite Hm, Ht in *. split_and!; [done..|]. right. exists integrity, d, w1. rewrite E2. done.
Qed.

Lemma snapshot_of_same s s' t : manifest s' = manifest s -> tree_of s' = tree_of s -> snapshot_of transfer s' t -> snapshot_of transfer s t.
Proof.
  intros Hm Ht. unfold tree_of in Ht. injection Ht as El Ea Eb Ec.
  assert (Hinj : forall m1 m2 : gmap rstring bytes, Own <$> m1 = Own <$> m2 -> m1 = m2) by (intros m1 m2; apply map_fmap_inj; by intros ? ? [=]).
  apply Hinj in Ea, Eb, Ec. unfold snapshot_of. by rewrite Hm, El, Ea, Eb, Ec.
Qed.

(** A whole restore of the opened backup [s]: its files, with its checksum,
    and no recovery needed. *)
Definition restore_whole (s : Store) (io : TreeIo) (t : Tree) : Prop :=
  snapshot_of transfer s t
  /\ (exists d, snapshot_digest (tree_of s) (selected_snapshot_paths (manifest s)) = Ok d
               /\ snapshot_digest t (selected_snapshot_paths (manifest s)) = Ok d)
  /\ exists integrity, opens_clean io t integrity.

Lemma restore_build_builds s io_stage paths d stage :
  builds stage (fun t => t = tree_empty) (restore_build s io_stage paths d stage)
    (fun _ t => snapshot_of transfer s t /\ snapshot_digest t paths = Ok d /\ exists integrity, opens_clean io_stage t integrity).
Proof.
  unfold restore_build. eapply builds_bind; [apply write_snapshot_builds|intros report]. eapply builds_bind; [apply digest_builds|intros d'].
  eapply builds_bind; [apply reject_builds|intros u]. eapply builds_bind; [apply check_clean_builds|intros integrity].
  apply builds_ret. intros t [[[Hs Hd] Hc] Ho]. apply negb_false_iff, bool_decide_eq_true in Hc as ->. by eauto.
Qed.

Lemma restore_protocol s s' io_stage io_destination destination unique d integrity w w' r :
  let paths := selected_snapshot_paths (manifest s) in
  manifest s' = manifest s -> tree_of s' = tree_of s -> snapshot_digest (tree_of s) paths = Ok d ->
  copy_protocol destination (str "restore") unique (restore_build s' io_stage paths d) (restore_after io_destination destination paths d integrity) w = (w', r) ->
  appears destination (str "restore") unique (restore_whole s io_stage) w w' r.
Proof.
  intros paths Hm Ht Hd. apply protocol_appears.
  - intros stage. unfold restore_build. apply inside_bind; [apply inside_write_snapshot|intros ?; inside_tac].
  - intros a. unfold restore_after. quiet_tac.
  - intros stage w0 w0' a i t E Hs0 Ht0. destruct (restore_build_builds _ _ _ _ _ _ _ _ _ _ E Hs0 Ht0) as (t' & Hs' & HA & HB & HC).
    exists t'. split; [done|]. split; [by eapply snapshot_of_same|]. split; [by exists d|done].
Qed.

Lemma restore_from_appears backup io_backup destination unique io_stage io_destination w w' r :
  restore_from transfer group_accessible backup io_backup destination unique io_stage io_destination w = (w', r) ->
  appears destination (str "restore") unique (fun t => exists s, open_tree io_backup backup = Ok s /\ restore_whole s io_stage t) w w' r.
Proof.
  unfold restore_from. destruct (open_tree io_backup backup) as [s|e] eqn:Eo; [|intros [= <- <-]; by apply quiet_appears].
  destruct (restore_to _ _ _ _ _ _ _) as [[s' w1] r1] eqn:E. intros [= -> ->].
  apply restore_to_run in E as (Hm & Ht & [[Ew [e ->]]|(integrity & d & w2 & _ & Hd & Ew & E)]); [by apply quiet_appears|].
  eapply restore_protocol in E; [|done..]. eapply appears_from; [exact Ew|].
  assert (Himp : forall t, restore_whole s io_stage t -> exists s0, Ok s = Ok s0 /\ restore_whole s0 io_stage t) by eauto.
  unfold appears in *. destruct r as [a|e]; [naive_solver|]. destruct E as [E|(A1 & A2 & [A3|(i & t & A3 & A4)])]; [by left|right..]; eauto 10.
Qed.

(** The restored files have the digest of the backup's. *)
Lemma restore_from_matches backup io_backup destination unique io_stage io_destination w w' report :
  restore_from transfer group_accessible backup io_backup destination unique io_stage io_destination w = (w', Ok report) ->
  exists s i t integrity,
    open_tree io_backup backup = Ok s /\ w_entries w' = <[destination := (i, t)]> (w_entries w)
    /\ opens_clean io_destination t integrity
    /\ same_digest (open_snapshot_file backup) (open_snapshot_file t) (selected_snapshot_paths (manifest s)).
Proof.
  unfold restore_from. destruct (open_tree io_backup backup) as [s|e] eqn:Eo; [|done].
  destruct (restore_to _ _ _ _ _ _ _) as [[s' w1] r1] eqn:E. intros [= -> ->].
  apply restore_to_run in E as (Hm & Ht & [[_ [e ?]]|(integrity & d & w2 & _ & Hd & Ew & E)]); [done|].
  apply copy_protocol_spec in E as (_ & stage & i & t & [] & w3 & w4 & w5 & _ & Hs3 & E4 & Hs4 & Hd5 & E5 & Ew').
  2: { intros stage. unfold restore_build. apply inside_bind; [apply inside_write_snapshot|intros ?; inside_tac]. }
  2: { intros a. unfold restore_after. quiet_tac. }
  unfold restore_after in E5. apply st_bind_Ok in E5 as (integrity' & w6 & E6 & _). eapply check_clean_copy_Ok in E6 as [_ Ho]; [|done].
  destruct (restore_build_builds _ _ _ _ _ _ _ _ _ _ E4 Hs3 eq_refl) as (t' & Hs' & _ & Hdig & _). rewrite Hs4 in Hs'. injection Hs' as <-.
  exists s, i, t, integrity'. split_and!; [done|congruence|done|].
  apply snapshot_digest_files in Hd as [Hd _], Hdig as [Hdig Hb].
  eapply same_digest_impl; [|exact (digest_files_agree _ _ _ _ Hb Hd Hdig)]. intros p c. by eapply open_tree_snapshot_file.
Qed.

(** [Store::salvage_from_with_options]. *)
Section Salvages.
Context (suffix : rstring) (damaged : Tree) (io_source : TreeIo) (drop_orphan_segments : bool).
Context (destination : rstring) (unique : nat -> rstring) (io_stage io_destination : TreeIo).

(** What the salvage found in the source. *)
Record planned (plan : Manifest) (log : bytes) (source : SalvageSource) (d : SnapshotDigest) : Prop := {
  planned_manifest : plan_sealed_salvage io_source drop_orphan_segments damaged = Ok plan;
  planned_log : node_bytes <$> tr_log damaged = Some log;
  planned_source : (SalvageSource_open (tio_lock io_source) (published_seal_generations plan)
                      (mkFile log (length log) (tio_log io_source))).2 = Ok source;
  planned_digest : (if bool_decide (segments plan = []) then snapshot_file_prefix_digest log ACTIVE_LOG (recovered_prefix_bytes source)
    else snapshot_digest_with_open_prefix damaged (salvage_snapshot_paths plan) ACTIVE_LOG log (recovered_prefix_bytes source)) = Ok d;
}.

Definition counts_differ (source : SalvageSource) (plan : Manifest) (integrity : IntegrityReport) : bool :=
  negb (raw_commits integrity =? recovered_commits source)
  || negb (raw_points integrity =? u64_saturating_add (recovered_points source) (plan_points plan)).
Definition salvage_build (plan : Manifest) (log : bytes) (source : SalvageSource) (d : SnapshotDigest) (stage : rstring) : ST World unit :=
  write_salvage_stage transfer group_accessible suffix damaged log source plan stage ;*
  let* stage_digest := digest_of stage (salvage_snapshot_paths plan) in
  st_reject (negb (bool_decide (stage_digest = d))) snapshot_mismatch ;*
  let* integrity := check_clean_copy io_stage stage in
  st_reject (counts_differ source plan integrity) (Corruption 0 (text "salvage stage counts differ from the validated source prefix")).
Definition salvage_after (plan : Manifest) (source : SalvageSource) (d : SnapshotDigest) (_ : unit) : ST World SalvageReport :=
  let* integrity := check_clean_copy io_destination destination in
  let* destination_digest := digest_of destination (salvage_snapshot_paths plan) in
  st_reject (negb (bool_decide (destination_digest = d))) snapshot_mismatch ;*
  st_reject (counts_differ source plan integrity) (Corruption 0 (text "salvaged store counts differ from the validated source prefix")) ;*
  w_touch ;*
  st_reject (source_bytes source <? recovered_prefix_bytes source) SourceChanged ;*
  st_ret (mkSalvageReport
    (match salvage_reason source with CleanEof => SalvageClean | _ => SalvagePartial end)
    (source_bytes source) (recovered_prefix_bytes source) (source_bytes source - recovered_prefix_bytes source)
    (recovered_prefix_bytes source) (salvage_reason source) (raw_commits integrity) (raw_points integrity)
    (dg_crc32 d) (dg_crc32 destination_digest)).

Lemma salvage_run w w' r :
  salvage_from_with_options transfer group_accessible suffix damaged io_source drop_orphan_segments destination unique io_stage io_destination w = (w', r) ->
  w_entries w' = w_entries w /\ (exists e, r = Err e)
  \/ exists plan log source d w1, planned plan log source d /\ w_entries w1 = w_entries w
     /\ copy_protocol destination (str "salvage") unique (salvage_build plan log source d) (salvage_after plan source d) w1 = (w', r).
Proof.
  unfold salvage_from_with_options. intros E.
  unfold st_bind at 1 in E. destruct (plan_sealed_salvage _ _ _) as [plan|e] eqn:Ep; [|injection E as <- <-; by eauto]. cbn [st_lift] in E.
  unfold st_bind at 1 in E. destruct (node_bytes <$> tr_log damaged) as [log|] eqn:El; [|injection E as <- <-; by eauto]. cbn [ok_or st_lift] in E.
  unfold st_bind at 1 in E. destruct (SalvageSource_open _ _ _).2 as [source|e] eqn:Es; [|injection E as <- <-; by eauto]. cbn [st_lift] in E.
  unfold st_bind at 1 in E. unfold st_lift at 1 in E.
  destruct (if bool_decide (segments plan = []) then _ else _) as [d|e] eqn:Ed; [|injection E as <- <-; by eauto].
  unfold st_bind at 1 in E. destruct (w_touch w) as [w1 [[]|e]] eqn:Et; apply quiet_touch in Et; [|injection E as <- <-; by eauto].
  right. exists plan, log, source, d, w1. split; [by constructor|]. split; [done|]. exact E.
Qed.

(** A whole salvage of [damaged]. *)
Definition salvage_whole (t : Tree) : Prop :=
  exists plan log source d integrity, planned plan log source d /\ salvage_of transfer suffix damaged log source plan t
    /\ snapshot_digest t (salvage_snapshot_paths plan) = Ok d /\ opens_clean io_stage t integrity /\ counts_differ source plan integrity = false.

Lemma salvage_build_builds plan log source d stage :
  planned plan log source d ->
  builds stage (fun t => t = tree_empty) (salvage_build plan log source d stage) (fun _ => salvage_whole).
Proof.
  intros Hp. unfold salvage_build. eapply builds_bind; [apply write_salvage_builds|intros u]. eapply builds_bind; [apply digest_builds|intros d'].
  eapply builds_bind; [apply reject_builds|intros u']. eapply builds_bind; [apply check_clean_builds|intros integrity].
  intros w w' [] i t [-> Hc]%st_reject_Ok Hs [[[Ht Hd] Hm] Ho]. apply negb_false_iff, bool_decide_eq_true in Hm as ->.
  exists t. split; [done|]. by exists plan, log, source, d, integrity.
Qed.

Lemma salvage_inside plan log source d stage : inside stage (salvage_build plan log source d stage).
Proof. unfold salvage_build. apply inside_bind; [apply inside_salvage_stage|intros ?; inside_tac]. Qed.
Lemma salvage_quiet plan source d a : quiet_world (salvage_after plan source d a).
Proof. unfold salvage_after. quiet_tac. Qed.

Lemma salvage_appears w w' r :
  salvage_from_with_options transfer group_accessible suffix damaged io_source drop_orphan_segments destination unique io_stage io_destination w = (w', r) ->
  appears destination (str "salvage") unique salvage_whole w w' r.
Proof.
  intros [[Ew [e ->]]|(plan & log & source & d & w1 & Hp & Ew & E)]%salvage_run; [by apply quiet_appears|].
  eapply appears_from; [exact Ew|]. revert E.
  apply protocol_appears; [apply salvage_inside|apply salvage_quiet|intros stage; by apply salvage_build_builds].
Qed.

Lemma planned_files plan log source d : planned plan log source d -> is_u64 (dg_bytes d) ->
  digest_of_files (salvage_file damaged log (recovered_prefix_bytes source)) (salvage_snapshot_paths plan) d.
Proof.
  intros [_ _ _ Hd] Hb. destruct (bool_decide (segments plan = [])) eqn:Es.
  - apply bool_decide_eq_true in Es. unfold salvage_snapshot_paths. rewrite Es. by eapply prefix_digest_files in Hd.
  - by eapply open_prefix_digest_files in Hd.
Qed.

(** The salvaged files have the digest of the validated prefix and the
    segments of the source. *)
Lemma salvage_whole_matches t : salvage_whole t ->
  exists plan log source d integrity, planned plan log source d /\ opens_clean io_stage t integrity
    /\ same_digest (salvage_file damaged log (recovered_prefix_bytes source)) (open_snapshot_file t) (salvage_snapshot_paths plan).
Proof.
  intros (plan & log & source & d & integrity & Hp & _ & [Hd Hb]%snapshot_digest_files & Ho & _).
  exists plan, log, source, d, integrity. split; [done|]. split; [done|].
  eapply digest_files_agree; [exact Hb| |done]. by apply planned_files.
Qed.
End Salvages.
End Whole.
