(* ===== verification/Reconcile.v ===== *)
(** * Reconcile: [src/src/shadow_reconcile.rs], comparing source batches with the store

    The caller supplies the batches of a window.  The report counts receipts,
    catalog objects and points that match, are missing or differ, with a
    bounded list of details.  [report] and the maps of counts are local
    variables of the code and are passed along; the database is only read, but
    reading its file is an I/O call, so the handle is the state. *)
From S2P Require Import Prelude Errors Bytes Float64 Model Transaction Catalog Query Codec Protocol Effects Segment.
From S2P Require Import Scan Database.

Record ShadowReconcileLimits := mkReconcileLimits {
  max_batches : Z;
  max_metadata_records : Z;
  max_expected_points : Z;
  max_observed_points : Z;
  max_scanned_points : Z;
  max_mismatch_details : Z;
}.

Definition ShadowReconcileLimits_default : ShadowReconcileLimits :=
  mkReconcileLimits 65536 1000000 1000000 1000000 1000000 256.

Inductive ReconcileLimit := Batches | MetadataRecords | ExpectedPoints | ObservedPoints | ScannedPoints.

Inductive ShadowReconcileError :=
  | LimitExceeded (limit : ReconcileLimit) (maximum : Z)
  | InvalidIdentity (identity : IngressIdentity)
  | DuplicateSourceSequence (source_id sequence : Z)
  | DuplicateCommitId (commit_id : Z)
  | MaximumTimestamp (series_id : Z)
  | StoreError (error : Error).

Inductive CatalogObjectKind := KindEntity | KindRelation | KindSeries | KindRun | KindPlan.
Inductive CatalogMismatch := Missing | Different.

(** The identity of a point; values compare by their bits. *)
Record ShadowPointKey := mkPointKey {
  pk_series_id : Z;
  pk_valid_time : Z;
  pk_valid_time_end : Z;
  pk_knowledge_time : Z;
  pk_change_time : Z;
  pk_run_id : Z;
  pk_value_bits : Z;
  pk_quality : Z;
  pk_flags : Z;
}.

#[export] Instance ShadowPointKey_eq_dec : EqDecision ShadowPointKey.
Proof. solve_decision. Defined.
#[export] Instance ShadowPointKey_countable : Countable ShadowPointKey.
Proof.
  apply (inj_countable'
    (fun k => (pk_series_id k, pk_valid_time k, pk_valid_time_end k, pk_knowledge_time k, pk_change_time k,
               pk_run_id k, pk_value_bits k, pk_quality k, pk_flags k))
    (fun '(a, b, c, d, e, f, g, h, i) => mkPointKey a b c d e f g h i)).
  by intros [].
Defined.

(** [From<Point>]; [f64::to_bits] is the representation itself. *)
Definition key_of_point (p : Point) : ShadowPointKey :=
  mkPointKey (series p) (valid_time p) (valid_time_end p) (knowledge_time p) (change_time p) (point_run_id p)
    (value p) (quality p) (flags p).

(** The derived [Ord]: the fields in order. *)
Fixpoint lex_leb (a b : list Z) : bool :=
  match a, b with
  | x :: a, y :: b => (x <? y) || ((x =? y) && lex_leb a b)
  | [], _ => true
  | _, [] => false
  end.

Definition key_fields (k : ShadowPointKey) : list Z :=
  [pk_series_id k; pk_valid_time k; pk_valid_time_end k; pk_knowledge_time k; pk_change_time k; pk_run_id k;
   pk_value_bits k; pk_quality k; pk_flags k].

Definition key_leb (a b : ShadowPointKey) : bool := lex_leb (key_fields a) (key_fields b).

Inductive ShadowReconcileDetail :=
  | MissingReceipt (identity : IngressIdentity)
  | ReceiptCommitConflict (expected : IngressIdentity) (actual_commit_id : Z)
  | ReceiptShapeMismatch (identity : IngressIdentity) (expected_records actual_records expected_points actual_points : Z)
  | ReceiptPayloadMismatch (identity : IngressIdentity)
  | CatalogDetail (kind : CatalogObjectKind) (id : Z) (mismatch : CatalogMismatch)
  | PointCount (point : ShadowPointKey) (expected actual : Z).

Record ShadowReconciliationReport := mkReport {
  expected_batches : Z;
  matching_receipts : Z;
  missing_receipts : Z;
  conflicting_receipts : Z;
  receipt_shape_mismatches : Z;
  receipt_payload_mismatches : Z;
  nondurable_receipts : Z;
  expected_catalog_objects : Z;
  matching_catalog_objects : Z;
  missing_catalog_objects : Z;
  different_catalog_objects : Z;
  expected_points : Z;
  scanned_points : Z;
  observed_points : Z;
  matching_points : Z;
  missing_points : Z;
  unexpected_points : Z;
  mismatch_groups : Z;
  mismatch_details : list ShadowReconcileDetail;
  details_truncated : bool;
}.

Definition Report_default : ShadowReconciliationReport := mkReport 0 0 0 0 0 0 0 0 0 0 0 0 0 0 0 0 0 0 [] false.

Definition set_matching_receipts (v : Z) (r : ShadowReconciliationReport) : ShadowReconciliationReport :=
  mkReport (expected_batches r) v (missing_receipts r) (conflicting_receipts r) (receipt_shape_mismatches r)
    (receipt_payload_mismatches r) (nondurable_receipts r) (expected_catalog_objects r) (matching_catalog_objects r)
    (missing_catalog_objects r) (different_catalog_objects r) (expected_points r) (scanned_points r)
    (observed_points r) (matching_points r) (missing_points r) (unexpected_points r) (mismatch_groups r)
    (mismatch_details r) (details_truncated r).
Definition set_missing_receipts (v : Z) (r : ShadowReconciliationReport) : ShadowReconciliationReport :=
  mkReport (expected_batches r) (matching_receipts r) v (conflicting_receipts r) (receipt_shape_mismatches r)
    (receipt_payload_mismatches r) (nondurable_receipts r) (expected_catalog_objects r) (matching_catalog_objects r)
    (missing_catalog_objects r) (different_catalog_objects r) (expected_points r) (scanned_points r)
    (observed_points r) (matching_points r) (missing_points r) (unexpected_points r) (mismatch_groups r)
    (mismatch_details r) (details_truncated r).
Definition set_conflicting_receipts (v : Z) (r : ShadowReconciliationReport) : ShadowReconciliationReport :=
  mkReport (expected_batches r) (matching_receipts r) (missing_receipts r) v (receipt_shape_mismatches r)
    (receipt_payload_mismatches r) (nondurable_receipts r) (expected_catalog_objects r) (matching_catalog_objects r)
    (missing_catalog_objects r) (different_catalog_objects r) (expected_points r) (scanned_points r)
    (observed_points r) (matching_points r) (missing_points r) (unexpected_points r) (mismatch_groups r)
    (mismatch_details r) (details_truncated r).
Definition set_receipt_shape_mismatches (v : Z) (r : ShadowReconciliationReport) : ShadowReconciliationReport :=
  mkReport (expected_batches r) (matching_receipts r) (missing_receipts r) (conflicting_receipts r) v
    (receipt_payload_mismatches r) (nondurable_receipts r) (expected_catalog_objects r) (matching_catalog_objects r)
    (missing_catalog_objects r) (different_catalog_objects r) (expected_points r) (scanned_points r)
    (observed_points r) (matching_points r) (missing_points r) (unexpected_points r) (mismatch_groups r)
    (mismatch_details r) (details_truncated r).
Definition set_receipt_payload_mismatches (v : Z) (r : ShadowReconciliationReport) : ShadowReconciliationReport :=
  mkReport (expected_batches r) (matching_receipts r) (missing_receipts r) (conflicting_receipts r)
    (receipt_shape_mismatches r) v (nondurable_receipts r) (expected_catalog_objects r) (matching_catalog_objects r)
    (missing_catalog_objects r) (different_catalog_objects r) (expected_points r) (scanned_points r)
    (observed_points r) (matching_points r) (missing_points r) (unexpected_points r) (mismatch_groups r)
    (mismatch_details r) (details_truncated r).
Definition set_nondurable_receipts (v : Z) (r : ShadowReconciliationReport) : ShadowReconciliationReport :=
  mkReport (expected_batches r) (matching_receipts r) (missing_receipts r) (conflicting_receipts r)
    (receipt_shape_mismatches r) (receipt_payload_mismatches r) v (expected_catalog_objects r)
    (matching_catalog_objects r) (missing_catalog_objects r) (different_catalog_objects r) (expected_points r)
    (scanned_points r) (observed_points r) (matching_points r) (missing_points r) (unexpected_points r)
    (mismatch_groups r) (mismatch_details r) (details_truncated r).
Definition set_expected_catalog_objects (v : Z) (r : ShadowReconciliationReport) : ShadowReconciliationReport :=
  mkReport (expected_batches r) (matching_receipts r) (missing_receipts r) (conflicting_receipts r)
    (receipt_shape_mismatches r) (receipt_payload_mismatches r) (nondurable_receipts r) v (matching_catalog_objects r)
    (missing_catalog_objects r) (different_catalog_objects r) (expected_points r) (scanned_points r)
    (observed_points r) (matching_points r) (missing_points r) (unexpected_points r) (mismatch_groups r)
    (mismatch_details r) (details_truncated r).
Definition set_matching_catalog_objects (v : Z) (r : ShadowReconciliationReport) : ShadowReconciliationReport :=
  mkReport (expected_batches r) (matching_receipts r) (missing_receipts r) (conflicting_receipts r)
    (receipt_shape_mismatches r) (receipt_payload_mismatches r) (nondurable_receipts r) (expected_catalog_objects r) v
    (missing_catalog_objects r) (different_catalog_objects r) (expected_points r) (scanned_points r)
    (observed_points r) (matching_points r) (missing_points r) (unexpected_points r) (mismatch_groups r)
    (mismatch_details r) (details_truncated r).
Definition set_missing_catalog_objects (v : Z) (r : ShadowReconciliationReport) : ShadowReconciliationReport :=
  mkReport (expected_batches r) (matching_receipts r) (missing_receipts r) (conflicting_receipts r)
    (receipt_shape_mismatches r) (receipt_payload_mismatches r) (nondurable_receipts r) (expected_catalog_objects r)
    (matching_catalog_objects r) v (different_catalog_objects r) (expected_points r) (scanned_points r)
    (observed_points r) (matching_points r) (missing_points r) (unexpected_points r) (mismatch_groups r)
    (mismatch_details r) (details_truncated r).
Definition set_different_catalog_objects (v : Z) (r : ShadowReconciliationReport) : ShadowReconciliationReport :=
  mkReport (expected_batches r) (matching_receipts r) (missing_receipts r) (conflicting_receipts r)
    (receipt_shape_mismatches r) (receipt_payload_mismatches r) (nondurable_receipts r) (expected_catalog_objects r)
    (matching_catalog_objects r) (missing_catalog_objects r) v (expected_points r) (scanned_points r)
    (observed_points r) (matching_points r) (missing_points r) (unexpected_points r) (mismatch_groups r)
    (mismatch_details r) (details_truncated r).
Definition set_scanned_points (v : Z) (r : ShadowReconciliationReport) : ShadowReconciliationReport :=
  mkReport (expected_batches r) (matching_receipts r) (missing_receipts r) (conflicting_receipts r)
    (receipt_shape_mismatches r) (receipt_payload_mismatches r) (nondurable_receipts r) (expected_catalog_objects r)
    (matching_catalog_objects r) (missing_catalog_objects r) (different_catalog_objects r) (expected_points r) v
    (observed_points r) (matching_points r) (missing_points r) (unexpected_points r) (mismatch_groups r)
    (mismatch_details r) (details_truncated r).
Definition set_observed_points (v : Z) (r : ShadowReconciliationReport) : ShadowReconciliationReport :=
  mkReport (expected_batches r) (matching_receipts r) (missing_receipts r) (conflicting_receipts r)
    (receipt_shape_mismatches r) (receipt_payload_mismatches r) (nondurable_receipts r) (expected_catalog_objects r)
    (matching_catalog_objects r) (missing_catalog_objects r) (different_catalog_objects r) (expected_points r)
    (scanned_points r) v (matching_points r) (missing_points r) (unexpected_points r) (mismatch_groups r)
    (mismatch_details r) (details_truncated r).
Definition set_matching_points (v : Z) (r : ShadowReconciliationReport) : ShadowReconciliationReport :=
  mkReport (expected_batches r) (matching_receipts r) (missing_receipts r) (conflicting_receipts r)
    (receipt_shape_mismatches r) (receipt_payload_mismatches r) (nondurable_receipts r) (expected_catalog_objects r)
    (matching_catalog_objects r) (missing_catalog_objects r) (different_catalog_objects r) (expected_points r)
    (scanned_points r) (observed_points r) v (missing_points r) (unexpected_points r) (mismatch_groups r)
    (mismatch_details r) (details_truncated r).
Definition set_missing_points (v : Z) (r : ShadowReconciliationReport) : ShadowReconciliationReport :=
  mkReport (expected_batches r) (matching_receipts r) (missing_receipts r) (conflicting_receipts r)
    (receipt_shape_mismatches r) (receipt_payload_mismatches r) (nondurable_receipts r) (expected_catalog_objects r)
    (matching_catalog_objects r) (missing_catalog_objects r) (different_catalog_objects r) (expected_points r)
    (scanned_points r) (observed_points r) (matching_points r) v (unexpected_points r) (mismatch_groups r)
    (mismatch_details r) (details_truncated r).
Definition set_unexpected_points (v : Z) (r : ShadowReconciliationReport) : ShadowReconciliationReport :=
  mkReport (expected_batches r) (matching_receipts r) (missing_receipts r) (conflicting_receipts r)
    (receipt_shape_mismatches r) (receipt_payload_mismatches r) (nondurable_receipts r) (expected_catalog_objects r)
    (matching_catalog_objects r) (missing_catalog_objects r) (different_catalog_objects r) (expected_points r)
    (scanned_points r) (observed_points r) (matching_points r) (missing_points r) v (mismatch_groups r)
    (mismatch_details r) (details_truncated r).
Definition set_mismatch_groups (v : Z) (r : ShadowReconciliationReport) : ShadowReconciliationReport :=
  mkReport (expected_batches r) (matching_receipts r) (missing_receipts r) (conflicting_receipts r)
    (receipt_shape_mismatches r) (receipt_payload_mismatches r) (nondurable_receipts r) (expected_catalog_objects r)
    (matching_catalog_objects r) (missing_catalog_objects r) (different_catalog_objects r) (expected_points r)
    (scanned_points r) (observed_points r) (matching_points r) (missing_points r) (unexpected_points r) v
    (mismatch_details r) (details_truncated r).
Definition set_mismatch_details (v : list ShadowReconcileDetail) (r : ShadowReconciliationReport) : ShadowReconciliationReport :=
  mkReport (expected_batches r) (matching_receipts r) (missing_receipts r) (conflicting_receipts r)
    (receipt_shape_mismatches r) (receipt_payload_mismatches r) (nondurable_receipts r) (expected_catalog_objects r)
    (matching_catalog_objects r) (missing_catalog_objects r) (different_catalog_objects r) (expected_points r)
    (scanned_points r) (observed_points r) (matching_points r) (missing_points r) (unexpected_points r)
    (mismatch_groups r) v (details_truncated r).
Definition set_details_truncated (v : bool) (r : ShadowReconciliationReport) : ShadowReconciliationReport :=
  mkReport (expected_batches r) (matching_receipts r) (missing_receipts r) (conflicting_receipts r)
    (receipt_shape_mismatches r) (receipt_payload_mismatches r) (nondurable_receipts r) (expected_catalog_objects r)
    (matching_catalog_objects r) (missing_catalog_objects r) (different_catalog_objects r) (expected_points r)
    (scanned_points r) (observed_points r) (matching_points r) (missing_points r) (unexpected_points r)
    (mismatch_groups r) (mismatch_details r) v.

(** [content_matches] and [ready_to_release_source_copy]. *)
Definition content_matches (r : ShadowReconciliationReport) : bool :=
  (missing_receipts r =? 0) && (conflicting_receipts r =? 0) && (receipt_shape_mismatches r =? 0)
  && (receipt_payload_mismatches r =? 0) && (missing_catalog_objects r =? 0) && (different_catalog_objects r =? 0)
  && (missing_points r =? 0) && (unexpected_points r =? 0).

Definition ready_to_release_source_copy (r : ShadowReconciliationReport) : bool :=
  content_matches r && (nondurable_receipts r =? 0).

(** ** Helpers *)

Definition RResult (A : Type) : Type := ShadowReconcileError + A.

Definition check_limit (actual maximum : Z) (limit : ReconcileLimit) : RResult unit :=
  if maximum <? actual then inl (LimitExceeded limit maximum) else inr tt.

(** [checked_add] on [usize], with the limit's error. *)
Definition add_limited (a b maximum : Z) (limit : ReconcileLimit) : RResult Z :=
  match u64_checked_add a b with Some n => inr n | None => inl (LimitExceeded limit maximum) end.

Definition record_detail (limits : ShadowReconcileLimits) (detail : ShadowReconcileDetail)
    (r : ShadowReconciliationReport) : ShadowReconciliationReport :=
  let r := set_mismatch_groups (mismatch_groups r + 1) r in
  if len (mismatch_details r) <? max_mismatch_details limits
  then set_mismatch_details (mismatch_details r ++ [detail]) r else r.

Definition batch_metadata_count (b : CommitBatchRequest) : Z :=
  len (batch_entities b) + len (batch_relations b) + len (batch_series b) + len (batch_runs b) + len (batch_plans b).

Definition batch_identity (b : CommitBatchRequest) : IngressIdentity :=
  mkIdentity (batch_source_id b) (batch_sequence b) (batch_commit_id b).

(** [expected_records] of a batch. *)
Definition batch_records (b : CommitBatchRequest) : Z :=
  batch_metadata_count b + (if bool_decide (batch_points b = []) then 0 else 1).

Section Reconcile.
Context `{Crc} `{RecordCodec} `{IndexCodec} `{Lz4}.
Abbreviation Db := (Database Segment).

(** [Database::visit_history]. *)
Definition visit_history {S E : Type} (from : Error -> E) (d : Db) (series_id start stop : Z)
    (reserve : Z -> EM S E unit) (visit : Point -> EM S E unit) : EM S E unit :=
  em_for_each (fun segment => visit_query from segment series_id start stop reserve visit) (sealed d) ;^
  let live := series_time_slice (series_points (index (state d)) series_id) start stop in
  reserve (len live) ;^
  em_for_each visit live.

(** ** Receipts *)

(** The counters of one receipt. *)
Definition tally_receipt (limits : ShadowReconcileLimits) (batch : CommitBatchRequest) (receipt : IngressReceipt)
    (commit_id_matches payload_matches : bool) (report : ShadowReconciliationReport) : ShadowReconciliationReport :=
  let identity := batch_identity batch in
  let expected_records := batch_records batch in
  let report := if rc_durable receipt then report
                else set_nondurable_receipts (nondurable_receipts report + 1) report in
  let report := if commit_id_matches then report
                else record_detail limits (ReceiptCommitConflict identity (commit_id (rc_identity receipt)))
                       (set_conflicting_receipts (conflicting_receipts report + 1) report) in
  let shape_matches := (rc_records receipt =? expected_records) && (rc_points receipt =? len (batch_points batch)) in
  let report := if shape_matches then report
                else record_detail limits (ReceiptShapeMismatch identity expected_records (rc_records receipt)
                                             (len (batch_points batch)) (rc_points receipt))
                       (set_receipt_shape_mismatches (receipt_shape_mismatches report + 1) report) in
  let report := if payload_matches then report
                else record_detail limits (ReceiptPayloadMismatch identity)
                       (set_receipt_payload_mismatches (receipt_payload_mismatches report + 1) report) in
  if commit_id_matches && shape_matches && payload_matches
  then set_matching_receipts (matching_receipts report + 1) report else report.

(** The loop body of [reconcile_receipts]; the stored bytes are compared only
    when the commit identifier is the expected one. *)
Definition reconcile_receipt (limits : ShadowReconcileLimits) (report : ShadowReconciliationReport)
    (batch : CommitBatchRequest) : EM Db ShadowReconcileError ShadowReconciliationReport :=
  let identity := batch_identity batch in
  let^ d := em_get in
  match ingress_receipt (batch_source_id batch) (batch_sequence batch) d with
  | None => em_ret (record_detail limits (MissingReceipt identity) (set_missing_receipts (missing_receipts report + 1) report))
  | Some receipt =>
      let commit_id_matches := commit_id (rc_identity receipt) =? batch_commit_id batch in
      let^ payload_matches :=
        if commit_id_matches
        then let^ verified := em_from StoreError (verify_ingress_payload identity (transaction_from_batch batch)) in
             em_ret (default false verified)
        else em_ret true in
      em_ret (tally_receipt limits batch receipt commit_id_matches payload_matches report)
  end.

Definition reconcile_receipts (expected : list CommitBatchRequest) (limits : ShadowReconcileLimits)
    (report : ShadowReconciliationReport) : EM Db ShadowReconcileError ShadowReconciliationReport :=
  em_fold (reconcile_receipt limits) report expected.

(** ** Catalog *)

(** [values.extend(batch.values.iter().map(|value| (value.id, value)))]. *)
Definition extend_by {A} (id : A -> Z) (m : gmap Z A) (l : list A) : gmap Z A := foldl (fun m v => <[id v := v]> m) m l.
Definition last_forms {A} (id : A -> Z) (get : CommitBatchRequest -> list A) (expected : list CommitBatchRequest) : gmap Z A :=
  foldl (fun m b => extend_by id m (get b)) ∅ expected.

(** [compare_catalog!]. *)
Definition compare_catalog {A} (limits : ShadowReconcileLimits) (values lookup : gmap Z A) (eqb : A -> A -> bool)
    (kind : CatalogObjectKind) (report : ShadowReconciliationReport) : ShadowReconciliationReport :=
  foldl (fun r '(id, expected) =>
      match lookup !! id with
      | Some actual =>
          if eqb actual expected then set_matching_catalog_objects (matching_catalog_objects r + 1) r
          else record_detail limits (CatalogDetail kind id Different)
                 (set_different_catalog_objects (different_catalog_objects r + 1) r)
      | None => record_detail limits (CatalogDetail kind id Missing)
                  (set_missing_catalog_objects (missing_catalog_objects r + 1) r)
      end)
    report (btree_to_list values).

Definition reconcile_catalog (d : Db) (expected : list CommitBatchRequest) (limits : ShadowReconcileLimits)
    (report : ShadowReconciliationReport) : ShadowReconciliationReport :=
  let es := last_forms entity_id batch_entities expected in
  let rs := last_forms relation_id batch_relations expected in
  let ss := last_forms series_id batch_series expected in
  let us := last_forms run_id batch_runs expected in
  let ps := last_forms plan_id batch_plans expected in
  let c := catalog (state d) in
  let report := set_expected_catalog_objects
    (Z.of_nat (size es) + Z.of_nat (size rs) + Z.of_nat (size ss) + Z.of_nat (size us) + Z.of_nat (size ps)) report in
  let report := compare_catalog limits es (entities c) entity_eqb KindEntity report in
  let report := compare_catalog limits rs (relations c) relation_eqb KindRelation report in
  let report := compare_catalog limits ss (series_map c) series_eqb KindSeries report in
  let report := compare_catalog limits us (runs c) run_eqb KindRun report in
  compare_catalog limits ps (plans c) plan_eqb KindPlan report.

(** ** Points *)

Abbreviation Counts := (gmap ShadowPointKey Z).

(** [entry(key).and_modify(|count| *count += 1).or_insert(1)]. *)
Definition count_point (m : Counts) (p : Point) : Counts :=
  <[key_of_point p := default 0 (m !! key_of_point p) + 1]> m.

Record SeriesSpan := mkSpan { span_start : Z; span_end : Z }.

Definition widen_span (m : gmap Z SeriesSpan) (p : Point) (stop : Z) : gmap Z SeriesSpan :=
  <[series p := match m !! series p with
                | Some span => mkSpan (Z.min (span_start span) (valid_time p)) (Z.max (span_end span) stop)
                | None => mkSpan (valid_time p) stop
                end]> m.

Fixpoint expected_points_of (counts : Counts) (spans : gmap Z SeriesSpan) (points : list Point)
    : RResult (Counts * gmap Z SeriesSpan) :=
  match points with
  | [] => inr (counts, spans)
  | p :: rest =>
      match i64_checked_add (valid_time p) 1 with
      | None => inl (MaximumTimestamp (series p))
      | Some stop => expected_points_of (count_point counts p) (widen_span spans p stop) rest
      end
  end.

(** The closures over the report and the observed counts. *)
Definition reserve_scan (limits : ShadowReconcileLimits) (count : Z)
    : EM (ShadowReconciliationReport * Counts) ShadowReconcileError unit :=
  let^ (report, counts) := em_get in
  let^ n := em_lift (add_limited (scanned_points report) count (max_scanned_points limits) ScannedPoints) in
  em_put (set_scanned_points n report, counts) ;^
  em_lift (check_limit n (max_scanned_points limits) ScannedPoints).

Definition visit_observed (limits : ShadowReconcileLimits) (p : Point)
    : EM (ShadowReconciliationReport * Counts) ShadowReconcileError unit :=
  let^ (report, counts) := em_get in
  let^ n := em_lift (add_limited (observed_points report) 1 (max_observed_points limits) ObservedPoints) in
  em_put (set_observed_points n report, counts) ;^
  em_lift (check_limit n (max_observed_points limits) ObservedPoints) ;^
  em_put (set_observed_points n report, count_point counts p).

Definition compare_point (limits : ShadowReconcileLimits) (expected_counts observed_counts : Counts)
    (r : ShadowReconciliationReport) (point : ShadowPointKey) : ShadowReconciliationReport :=
  let expected := default 0 (expected_counts !! point) in
  let actual := default 0 (observed_counts !! point) in
  let r := set_matching_points (matching_points r + Z.min expected actual) r in
  let r := set_missing_points (missing_points r + Z.max 0 (expected - actual)) r in
  let r := set_unexpected_points (unexpected_points r + Z.max 0 (actual - expected)) r in
  if expected =? actual then r else record_detail limits (PointCount point expected actual) r.

Definition reconcile_points (d : Db) (expected : list CommitBatchRequest) (limits : ShadowReconcileLimits)
    (report : ShadowReconciliationReport) : RResult ShadowReconciliationReport :=
  match expected_points_of ∅ ∅ (flat_map batch_points expected) with
  | inl e => inl e
  | inr (expected_counts, spans) =>
      match em_for_each (fun '(s, span) =>
                visit_history StoreError d s (span_start span) (span_end span) (reserve_scan limits) (visit_observed limits))
              (btree_to_list spans) (report, ∅) with
      | (_, inl e) => inl e
      | ((report, observed_counts), inr _) =>
          let keys := stable_sort key_leb (elements (dom expected_counts ∪ dom observed_counts)) in
          inr (foldl (compare_point limits expected_counts observed_counts) report keys)
      end
  end.

(** ** The whole comparison *)

Record WindowTotals := mkTotals {
  source_sequences : gset (Z * Z);
  seen_commit_ids : gset Z;
  total_metadata : Z;
  total_points : Z;
}.

Definition check_batch (limits : ShadowReconcileLimits) (t : WindowTotals) (batch : CommitBatchRequest) : RResult WindowTotals :=
  let key := (batch_source_id batch, batch_sequence batch) in
  if batch_source_id batch =? 0 then inl (InvalidIdentity (batch_identity batch))
  else if bool_decide (key ∈ source_sequences t) then inl (DuplicateSourceSequence (batch_source_id batch) (batch_sequence batch))
  else if bool_decide (batch_commit_id batch ∈ seen_commit_ids t) then inl (DuplicateCommitId (batch_commit_id batch))
  else match add_limited (total_metadata t) (batch_metadata_count batch) (max_metadata_records limits) MetadataRecords with
       | inl e => inl e
       | inr metadata =>
           match add_limited (total_points t) (len (batch_points batch)) (max_expected_points limits) ExpectedPoints with
           | inl e => inl e
           | inr points =>
               inr (mkTotals ({[key]} ∪ source_sequences t) ({[batch_commit_id batch]} ∪ seen_commit_ids t) metadata points)
           end
       end.

Fixpoint check_window (limits : ShadowReconcileLimits) (t : WindowTotals) (expected : list CommitBatchRequest)
    : RResult WindowTotals :=
  match expected with
  | [] => inr t
  | b :: rest => match check_batch limits t b with inl e => inl e | inr t' => check_window limits t' rest end
  end.

Definition reconcile_shadow_batches (expected : list CommitBatchRequest) (limits : ShadowReconcileLimits)
    : EM Db ShadowReconcileError ShadowReconciliationReport :=
  em_lift (check_limit (len expected) (max_batches limits) Batches) ;^
  let^ totals := em_lift (check_window limits (mkTotals ∅ ∅ 0 0) expected) in
  em_lift (check_limit (total_metadata totals) (max_metadata_records limits) MetadataRecords) ;^
  em_lift (check_limit (total_points totals) (max_expected_points limits) ExpectedPoints) ;^
  let report := mkReport (len expected) 0 0 0 0 0 0 0 0 0 0 (total_points totals) 0 0 0 0 0 0 [] false in
  let^ report := reconcile_receipts expected limits report in
  let^ d := em_get in
  let report := reconcile_catalog d expected limits report in
  let^ report := em_lift (reconcile_points d expected limits report) in
  em_ret (set_details_truncated (len (mismatch_details report) <? mismatch_groups report) report).
End Reconcile.
