(* ===== verification/ReconcileInv.v ===== *)
(** * ReconcileInv: what a reconciliation report says

    The counters of a report are zero exactly when the stored receipts, catalog
    objects and points are the supplied ones. *)
From S2P Require Import Prelude Errors Bytes Float64 Model Transaction Catalog Query Codec Protocol Effects Segment SegmentInv.
From S2P Require Import Scan Database Refine Durable Recovery Retry Reconcile.

(** ** The parts of a report *)

Definition receipts_part (r : ShadowReconciliationReport) :=
  (matching_receipts r, missing_receipts r, conflicting_receipts r, receipt_shape_mismatches r,
   receipt_payload_mismatches r, nondurable_receipts r).
Definition catalog_part (r : ShadowReconciliationReport) :=
  (expected_catalog_objects r, matching_catalog_objects r, missing_catalog_objects r, different_catalog_objects r).
Definition points_part (r : ShadowReconciliationReport) :=
  (scanned_points r, observed_points r, matching_points r, missing_points r, unexpected_points r).
Definition window_part (r : ShadowReconciliationReport) := (expected_batches r, expected_points r).

(** The mismatches of the receipts and of the catalog. *)
Definition bad_receipts (r : ShadowReconciliationReport) : Z :=
  missing_receipts r + conflicting_receipts r + receipt_shape_mismatches r + receipt_payload_mismatches r.
Definition bad_objects (r : ShadowReconciliationReport) : Z := missing_catalog_objects r + different_catalog_objects r.

(** Details are kept up to the limit, and counted beyond it. *)
Definition details_kept (limits : ShadowReconcileLimits) (r : ShadowReconciliationReport) : Prop :=
  0 <= mismatch_groups r /\ len (mismatch_details r) = Z.min (mismatch_groups r) (Z.max 0 (max_mismatch_details limits)).

Lemma record_detail_eq limits x r :
  record_detail limits x r
  = set_mismatch_details (if len (mismatch_details r) <? max_mismatch_details limits then mismatch_details r ++ [x]
                          else mismatch_details r) (set_mismatch_groups (mismatch_groups r + 1) r).
Proof. unfold record_detail. cbn. case_match; by destruct r. Qed.

Lemma details_kept_same limits r r' :
  mismatch_groups r' = mismatch_groups r -> mismatch_details r' = mismatch_details r ->
  details_kept limits r -> details_kept limits r'.
Proof. unfold details_kept. by intros -> ->. Qed.

Lemma details_kept_record limits x r : details_kept limits r -> details_kept limits (record_detail limits x r).
Proof.
  rewrite record_detail_eq. unfold details_kept. cbn. intros [Hg Hl]. split; [lia|].
  destruct (Z.ltb_spec (len (mismatch_details r)) (max_mismatch_details limits)); [|lia].
  unfold zlen in *. rewrite length_app. cbn. lia.
Qed.

(** Evaluates the counters of updated reports. *)
Ltac tally := rewrite ?record_detail_eq; cbn.

(** ** Receipts *)

Section Receipts.
Context `{Crc} `{RecordCodec} `{IndexCodec} `{Lz4} `{!CrcCombine}.
Abbreviation Db := (Database Segment).

(** A batch that is stored: its receipt has its identity and shape, and its
    canonical bytes are those of the batch. *)
Definition batch_stored (d : Db) (b : CommitBatchRequest) : Prop :=
  exists r canonical, ingress_receipts (state d) !! key_of (batch_identity b) = Some r
    /\ ir_identity r = batch_identity b
    /\ cm_records (ir_commit r) = batch_records b /\ cm_points (ir_commit r) = len (batch_points b)
    /\ encode_canonical_transaction (transaction_from_batch b) = Ok canonical
    /\ stored_payload (contents (file d)) r = Some canonical.

Definition batch_durable (d : Db) (b : CommitBatchRequest) : Prop :=
  exists n, ingress_durable_sequences d !! batch_source_id b = Some n /\ batch_sequence b <= n.

(** A handle whose file can be read. *)
Record readable_handle (d : Db) : Prop := {
  readable_faults : faults (file d) = [];
  readable_len : is_u64 (len (contents (file d)));
  readable_receipts : receipts_ok (contents (file d)) (state d);
}.

Lemma verify_runs d i t :
  readable_handle d ->
  verify_ingress_payload i t d
  = (d, match ingress_receipts (state d) !! key_of i with
        | None => Ok None
        | Some r =>
            if bool_decide (ir_identity r = i)
            then let? canonical := encode_canonical_transaction t in
                 Ok (Some (bool_decide (stored_payload (contents (file d)) r = Some canonical)))
            else Ok (Some false)
        end).
Proof.
  intros [Hf Hl Hr]. unfold verify_ingress_payload, st_bind at 1, st_get.
  destruct (ingress_receipts (state d) !! key_of i) as [r|] eqn:E; [|done].
  case_bool_decide; cbn [negb]; [|done]. unfold st_bind at 1, st_lift.
  destruct (encode_canonical_transaction t) as [canonical|e]; cbn [bind]; [|done].
  unfold st_bind, on_file, st_zoom. rewrite ingress_payload_matches_ok by (try done; by eapply Hr).
  by destruct d.
Qed.

Definition nonneg_receipts (r : ShadowReconciliationReport) : Prop :=
  0 <= missing_receipts r /\ 0 <= conflicting_receipts r /\ 0 <= receipt_shape_mismatches r
  /\ 0 <= receipt_payload_mismatches r /\ 0 <= nondurable_receipts r.

(** What a step over the receipts leaves alone. *)
Record receipts_only (limits : ShadowReconcileLimits) (r r' : ShadowReconciliationReport) : Prop := {
  ro_catalog : catalog_part r' = catalog_part r;
  ro_points : points_part r' = points_part r;
  ro_window : window_part r' = window_part r;
  ro_details : details_kept limits r -> details_kept limits r';
  ro_nonneg : nonneg_receipts r -> nonneg_receipts r';
}.

#[local] Instance receipts_only_preorder limits : PreOrder (receipts_only limits).
Proof. split; [by split|]. intros a b c [] []. split; (congruence || auto). Qed.

Lemma receipts_only_step limits (c : bool) f r r' :
  receipts_only limits r r' -> receipts_only limits r' (f r') -> receipts_only limits r (if c then r' else f r').
Proof. destruct c; [done|by etrans]. Qed.

Lemma recorded_only limits x r r' : receipts_only limits r r' -> receipts_only limits r (record_detail limits x r').
Proof.
  intros [H1' H2' H3' H4' H5']. split; try (rewrite record_detail_eq; done).
  intros Hk. by apply details_kept_record, H4'.
Qed.

Lemma tally_receipt_only limits b rc cm pm r : receipts_only limits r (tally_receipt limits b rc cm pm r).
Proof.
  unfold tally_receipt. cbv zeta. set (shape := (_ =? _) && (_ =? _)).
  set (r1 := if rc_durable rc then r else _). assert (Hr1 : receipts_only limits r r1).
  { apply (receipts_only_step _ _ (fun r => set_nondurable_receipts (nondurable_receipts r + 1) r)); [done|].
    split; try done. unfold nonneg_receipts. cbn. lia. }
  set (r2 := if cm then r1 else _). assert (Hr2 : receipts_only limits r r2).
  { apply (receipts_only_step _ _ (fun r => record_detail _ _ (set_conflicting_receipts (conflicting_receipts r + 1) r))); [done|].
    apply recorded_only. split; try done. unfold nonneg_receipts. cbn. lia. }
  set (r3 := if shape then r2 else _). assert (Hr3 : receipts_only limits r r3).
  { apply (receipts_only_step _ _ (fun r => record_detail _ _ (set_receipt_shape_mismatches (receipt_shape_mismatches r + 1) r)));
      [done|]. apply recorded_only. split; try done. unfold nonneg_receipts. cbn. lia. }
  set (r4 := if pm then r3 else _). assert (Hr4 : receipts_only limits r r4).
  { apply (receipts_only_step _ _ (fun r => record_detail _ _ (set_receipt_payload_mismatches (receipt_payload_mismatches r + 1) r)));
      [done|]. apply recorded_only. split; try done. unfold nonneg_receipts. cbn. lia. }
  case_match; [|done]. etrans; [exact Hr4|]. by split.
Qed.

Definition miss (c : bool) : Z := if c then 0 else 1.

Lemma tally_receipt_counts limits b rc cm pm r :
  let shape := (rc_records rc =? batch_records b) && (rc_points rc =? len (batch_points b)) in
  let r' := tally_receipt limits b rc cm pm r in
  bad_receipts r' = bad_receipts r + miss cm + miss shape + miss pm
  /\ matching_receipts r' = matching_receipts r + (if cm && shape && pm then 1 else 0)
  /\ nondurable_receipts r' = nondurable_receipts r + miss (rc_durable rc).
Proof.
  unfold tally_receipt, bad_receipts. cbv zeta. set (shape := (_ =? _) && (_ =? _)). clearbody shape.
  destruct (rc_durable rc), cm, shape, pm; cbn [andb miss]; tally; lia.
Qed.

Lemma reconcile_receipt_spec limits d d' r r' b :
  readable_handle d -> reconcile_receipt limits r b d = (d', inr r') ->
  d' = d /\ receipts_only limits r r'
  /\ nondurable_receipts r <= nondurable_receipts r'
  /\ (nondurable_receipts r' = nondurable_receipts r -> batch_stored d b -> batch_durable d b)
  /\ ((batch_stored d b /\ bad_receipts r' = bad_receipts r /\ matching_receipts r' = matching_receipts r + 1)
      \/ (~ batch_stored d b /\ bad_receipts r < bad_receipts r' /\ matching_receipts r' = matching_receipts r)).
Proof.
  intros Hd E. unfold reconcile_receipt in E. cbv zeta in E. unfold em_bind at 1, em_get, ingress_receipt in E.
  change (batch_source_id b, batch_sequence b) with (key_of (batch_identity b)) in E.
  destruct (ingress_receipts (state d) !! key_of (batch_identity b)) as [rc|] eqn:Er.
  2: { injection E as <- <-. split; [done|]. split; [apply recorded_only; split; try done; unfold nonneg_receipts; cbn; lia|].
       unfold bad_receipts. tally. split; [lia|]. split; [|right; split; [|lia]]; [intros _|]; intros (x & ? & Ex & _); congruence. }
  set (receipt := mkReceipt _ _ _ _ _ _) in E. set (cm := commit_id (rc_identity receipt) =? batch_commit_id b) in E.
  apply em_bind_inr in E as (pm & d1 & E1 & [= <- <-]).
  assert (Hpm : d1 = d /\ ((ir_identity rc = batch_identity b /\
                  exists canonical, encode_canonical_transaction (transaction_from_batch b) = Ok canonical
                    /\ pm = bool_decide (stored_payload (contents (file d)) rc = Some canonical))
                 \/ (commit_id (ir_identity rc) <> batch_commit_id b /\ pm = true)
                 \/ (ir_identity rc <> batch_identity b /\ pm = false))).
  { unfold cm in E1. cbn [rc_identity receipt] in E1. destruct (Z.eqb_spec (commit_id (ir_identity rc)) (batch_commit_id b)) as [Ec|Ec].
    2: { injection E1 as <- <-. auto. }
    unfold em_bind, em_from in E1. rewrite verify_runs, Er in E1 by done. case_bool_decide as Ei.
    2: { injection E1 as <- <-. auto. }
    destruct (encode_canonical_transaction _) as [canonical|]; [|done]. injection E1 as <- <-. split; [done|]. left. eauto. }
  clear E1. destruct Hpm as [-> Hpm]. split; [done|]. split; [apply tally_receipt_only|].
  pose proof (tally_receipt_counts limits b receipt cm pm r) as Hc.
  cbv zeta in Hc. destruct Hc as (Hb & Hm & Hn). rewrite Hn. split; [destruct (rc_durable receipt); cbn; lia|]. split.
  { intros Hz _. destruct (rc_durable receipt) eqn:Hdu; cbn in Hz; [|lia]. cbn in Hdu. unfold batch_durable.
    destruct (ingress_durable_sequences d !! batch_source_id b) as [n|]; [|done]. exists n. split; [done|]. cbn in Hdu. lia. }
  rewrite Hb, Hm. clear Hb Hm Hn. subst cm. cbn [rc_identity rc_records rc_points receipt].
  assert (Hiff : (commit_id (ir_identity rc) =? batch_commit_id b)
                 && ((cm_records (ir_commit rc) =? batch_records b) && (cm_points (ir_commit rc) =? len (batch_points b))) && pm = true
                 <-> batch_stored d b).
  { split.
    - intros [[Hcm [Hrec Hpt]%andb_true_iff]%andb_true_iff Hp]%andb_true_iff. zbool.
      destruct Hpm as [(Ei & canonical & Ec & ->)|[[? _]|[_ ?]]]; [|congruence|congruence].
      apply bool_decide_eq_true in Hp. by exists rc, canonical.
    - intros (rc' & canonical & Er' & Ei & Erec & Ept & Ec & Es). rewrite Er in Er'. injection Er' as <-.
      rewrite Erec, Ept, !Z.eqb_refl, Ei. cbn. rewrite Z.eqb_refl.
      destruct Hpm as [(_ & canonical' & Ec' & ->)|[[Hne _]|[Hne _]]]; [|by rewrite Ei in Hne|done].
      rewrite Ec in Ec'. injection Ec' as <-. by rewrite bool_decide_true. }
  destruct ((commit_id (ir_identity rc) =? batch_commit_id b)
    && ((cm_records (ir_commit rc) =? batch_records b) && (cm_points (ir_commit rc) =? len (batch_points b))) && pm) eqn:Eall.
  - left. split; [by apply Hiff|]. apply andb_true_iff in Eall as [Eall ->]. apply andb_true_iff in Eall as [-> ->]. cbn. lia.
  - right. split; [by rewrite <- Hiff|]. split; [|lia].
    destruct (commit_id (ir_identity rc) =? batch_commit_id b), ((cm_records _ =? _) && _), pm; cbn in *; (done || lia).
Qed.

(** The whole loop. *)
Lemma reconcile_receipts_spec limits d expected : forall d' r r',
  readable_handle d -> reconcile_receipts expected limits r d = (d', inr r') ->
  d' = d /\ receipts_only limits r r'
  /\ nondurable_receipts r <= nondurable_receipts r' /\ bad_receipts r <= bad_receipts r'
  /\ (nondurable_receipts r' = nondurable_receipts r -> Forall (fun b => batch_stored d b -> batch_durable d b) expected)
  /\ (bad_receipts r' = bad_receipts r <-> Forall (batch_stored d) expected).
Proof.
  unfold reconcile_receipts. induction expected as [|b bs IH]; intros d' r r' Hd E; cbn [em_fold] in E.
  - injection E as <- <-. split_and!; try done; try lia.
  - apply em_bind_inr in E as (r1 & d1 & E1 & E2).
    apply reconcile_receipt_spec in E1 as (-> & Ho1 & Hn1 & Hdur1 & Hb1); [|done].
    apply IH in E2 as (-> & Ho2 & Hn2 & Hle2 & Hdur2 & Hb2); [|done].
    assert (Hle1 : bad_receipts r <= bad_receipts r1) by (destruct Hb1 as [(_ & ? & _)|(_ & ? & _)]; lia).
    split; [done|]. split; [by etrans|]. split; [lia|]. split; [lia|]. split.
    + intros Hz. constructor; [apply Hdur1|apply Hdur2]; lia.
    + rewrite Forall_cons. split.
      * intros Hz. destruct Hb1 as [(Hs & _)|(_ & ? & _)]; [|lia]. split; [done|]. apply Hb2. lia.
      * intros [Hs Hall]. destruct Hb1 as [(_ & ? & _)|(Hns & _)]; [|done]. apply Hb2 in Hall. lia.
Qed.
End Receipts.

(** ** Catalog *)

(** What a step over the catalog leaves alone. *)
Record catalog_only (limits : ShadowReconcileLimits) (r r' : ShadowReconciliationReport) : Prop := {
  co_receipts : receipts_part r' = receipts_part r;
  co_points : points_part r' = points_part r;
  co_window : window_part r' = window_part r;
  co_expected : expected_catalog_objects r' = expected_catalog_objects r;
  co_details : details_kept limits r -> details_kept limits r';
  co_missing : missing_catalog_objects r <= missing_catalog_objects r';
  co_different : different_catalog_objects r <= different_catalog_objects r';
}.

#[local] Instance catalog_only_preorder limits : PreOrder (catalog_only limits).
Proof. split; [by split|]. intros a b c [] []. split; (congruence || lia || auto). Qed.

Definition object_total (r : ShadowReconciliationReport) : Z := matching_catalog_objects r + bad_objects r.

(** The supplied objects are stored. *)
Definition objects_stored {A} (values lookup : gmap Z A) (eqb : A -> A -> bool) : Prop :=
  forall id v, values !! id = Some v -> exists a, lookup !! id = Some a /\ eqb a v = true.

Lemma compare_catalog_spec {A} limits (values lookup : gmap Z A) eqb kind r :
  let r' := compare_catalog limits values lookup eqb kind r in
  catalog_only limits r r' /\ object_total r' = object_total r + Z.of_nat (size values)
  /\ (bad_objects r' = bad_objects r <-> objects_stored values lookup eqb).
Proof.
  assert (Hl : Z.of_nat (size values) = len (btree_to_list values)).
  { unfold zlen, btree_to_list. rewrite (Permutation_length (stable_sort_perm _ _)). by rewrite length_map_to_list. }
  assert (Hs : objects_stored values lookup eqb
    <-> Forall (fun '(id, v) => exists a, lookup !! id = Some a /\ eqb a v = true) (btree_to_list values)).
  { rewrite Forall_forall. split.
    - intros Hs [id v] Hin%elem_of_btree_to_list. by apply Hs.
    - intros Hs id v Hin%elem_of_btree_to_list. by apply (Hs _ Hin). }
  cbv zeta. rewrite Hs, Hl. clear Hs Hl. unfold compare_catalog. revert r.
  induction (btree_to_list values) as [|[id v] l IH]; intros r; cbn [foldl].
  { split; [done|]. split; [unfold zlen; cbn; lia|]. done. }
  rewrite Forall_cons. replace (len ((id, v) :: l)) with (len l + 1) by (unfold zlen; cbn [length]; lia).
  set (r1 := match lookup !! id with Some _ => _ | None => _ end). destruct (IH r1) as (Ho & Ht & Hb). clear IH.
  set (r2 := foldl _ r1 l) in *.
  assert (H1 : catalog_only limits r r1 /\ object_total r1 = object_total r + 1
    /\ (((exists a, lookup !! id = Some a /\ eqb a v = true) /\ bad_objects r1 = bad_objects r)
        \/ (~ (exists a, lookup !! id = Some a /\ eqb a v = true) /\ bad_objects r < bad_objects r1))).
  { unfold r1, object_total, bad_objects. destruct (lookup !! id) as [a|] eqn:E; [destruct (eqb a v) eqn:Ev|].
    - split; [split; try done; cbn; lia|]. cbn. split; [lia|]. left. eauto.
    - split; [split; try (by intros; apply details_kept_record); tally; (done || lia)|]. tally. split; [lia|]. right.
      split; [|lia]. intros (a' & [= <-] & ?). congruence.
    - split; [split; try (by intros; apply details_kept_record); tally; (done || lia)|]. tally. split; [lia|]. right.
      split; [|lia]. by intros (a' & [=] & ?). }
  destruct H1 as (Ho1 & Ht1 & Hc). split; [by etrans|]. split; [lia|].
  assert (bad_objects r1 <= bad_objects r2) by (destruct Ho as [_ _ _ _ _ ? ?]; unfold bad_objects; lia).
  split.
  - intros Hz. destruct Hc as [[Hx Hy]|[_ Hy]]; [|lia]. split; [done|]. apply Hb. lia.
  - intros [Hx Hl]. destruct Hc as [[_ Hy]|[Hn _]]; [|done]. apply Hb in Hl. lia.
Qed.

Lemma foldl_flat_map {A B C} (f : C -> B -> C) (get : A -> list B) l : forall m,
  foldl f m (flat_map get l) = foldl (fun m x => foldl f m (get x)) m l.
Proof. induction l as [|x l IH]; intros m; cbn; [done|]. by rewrite foldl_app, IH. Qed.

(** The last supplied form of an object. *)
Lemma last_forms_lookup {A} (id : A -> Z) get expected k :
  last_forms id get expected !! k = last (List.filter (fun v => id v =? k) (flat_map get expected)).
Proof.
  assert (Hx : forall l (m : gmap Z A), extend_by id m l !! k
    = match last (List.filter (fun v => id v =? k) l) with Some v => Some v | None => m !! k end).
  { unfold extend_by. induction l as [|v l IH] using rev_ind; intros m; [done|].
    rewrite foldl_app, List.filter_app. cbn [foldl List.filter app]. destruct (Z.eqb_spec (id v) k) as [<-|Hne].
    - by rewrite lookup_insert_eq, last_snoc.
    - rewrite lookup_insert_ne, app_nil_r by done. apply IH. }
  unfold last_forms. etrans; [|exact (eq_trans (Hx (flat_map get expected) ∅) ltac:(by case_match))].
  unfold extend_by. by rewrite foldl_flat_map.
Qed.

Section Catalog.
Context `{Crc} `{RecordCodec} `{IndexCodec} `{Lz4}.
Abbreviation Db := (Database Segment).

(** Every supplied object is stored in its last form. *)
Definition catalog_stored (c : Catalog) (expected : list CommitBatchRequest) : Prop :=
  objects_stored (last_forms entity_id batch_entities expected) (entities c) entity_eqb
  /\ objects_stored (last_forms relation_id batch_relations expected) (relations c) relation_eqb
  /\ objects_stored (last_forms series_id batch_series expected) (series_map c) series_eqb
  /\ objects_stored (last_forms run_id batch_runs expected) (runs c) run_eqb
  /\ objects_stored (last_forms plan_id batch_plans expected) (plans c) plan_eqb.

Lemma reconcile_catalog_spec limits (d : Db) expected r :
  catalog_part r = (0, 0, 0, 0) ->
  let r' := reconcile_catalog d expected limits r in
  receipts_part r' = receipts_part r /\ points_part r' = points_part r /\ window_part r' = window_part r
  /\ (details_kept limits r -> details_kept limits r')
  /\ 0 <= missing_catalog_objects r' /\ 0 <= different_catalog_objects r'
  /\ expected_catalog_objects r' = matching_catalog_objects r' + missing_catalog_objects r' + different_catalog_objects r'
  /\ (bad_objects r' = 0 <-> catalog_stored (catalog (state d)) expected).
Proof.
  intros [= E1 E2 E3 E4]. unfold reconcile_catalog, catalog_stored. cbv zeta. set (c := catalog (state d)).
  set (es := last_forms entity_id _ _). set (rs := last_forms relation_id _ _). set (ss := last_forms series_id _ _).
  set (us := last_forms run_id _ _). set (ps := last_forms plan_id _ _).
  set (r0 := set_expected_catalog_objects _ r).
  destruct (compare_catalog_spec limits es (entities c) entity_eqb KindEntity r0) as (O1 & T1 & B1). set (r1 := compare_catalog _ es _ _ _ r0) in *.
  destruct (compare_catalog_spec limits rs (relations c) relation_eqb KindRelation r1) as (O2 & T2 & B2). set (r2 := compare_catalog _ rs _ _ _ r1) in *.
  destruct (compare_catalog_spec limits ss (series_map c) series_eqb KindSeries r2) as (O3 & T3 & B3). set (r3 := compare_catalog _ ss _ _ _ r2) in *.
  destruct (compare_catalog_spec limits us (runs c) run_eqb KindRun r3) as (O4 & T4 & B4). set (r4 := compare_catalog _ us _ _ _ r3) in *.
  destruct (compare_catalog_spec limits ps (plans c) plan_eqb KindPlan r4) as (O5 & T5 & B5). set (r5 := compare_catalog _ ps _ _ _ r4) in *.
  pose proof (transitivity O1 (transitivity O2 (transitivity O3 (transitivity O4 O5)))) as [C1 C2 C3 C4 C5 C6 C7].
  assert (Hm : bad_objects r0 <= bad_objects r1 <= bad_objects r2 /\ bad_objects r2 <= bad_objects r3 <= bad_objects r4
               /\ bad_objects r4 <= bad_objects r5).
  { destruct O1, O2, O3, O4, O5. unfold bad_objects. lia. }
  assert (Hr0 : bad_objects r0 = 0 /\ matching_catalog_objects r0 = 0
    /\ expected_catalog_objects r0 = Z.of_nat (size es) + Z.of_nat (size rs) + Z.of_nat (size ss) + Z.of_nat (size us) + Z.of_nat (size ps))
    by (unfold r0, bad_objects; cbn; lia).
  destruct Hr0 as (H0a & H0b & H0c). unfold object_total in *. rewrite H0b in T1.
  assert (Hz : missing_catalog_objects r0 = 0 /\ different_catalog_objects r0 = 0) by (unfold r0; cbn; lia).
  split; [exact C1|]. split; [exact C2|]. split; [exact C3|]. split; [exact C5|]. split; [lia|]. split; [lia|].
  split; [unfold bad_objects in *; lia|]. rewrite <- B1, <- B2, <- B3, <- B4, <- B5. lia.
Qed.
End Catalog.

(** ** Points *)

(** Counting by key is counting occurrences. *)
Lemma key_of_point_inj p q : key_of_point p = key_of_point q -> p = q.
Proof. destruct p, q. unfold key_of_point. cbn. congruence. Qed.

Lemma count_points_lookup l p : forall m,
  default 0 (foldl count_point m l !! key_of_point p)
  = default 0 (m !! key_of_point p) + Z.of_nat (count_occ Point_eq_dec l p).
Proof.
  induction l as [|q l IH]; intros m; cbn [foldl count_occ]; [lia|]. rewrite IH. unfold count_point.
  destruct (Point_eq_dec q p) as [->|Hne]; [rewrite lookup_insert_eq; cbn; lia|].
  rewrite lookup_insert_ne; [lia|]. intros E. by apply key_of_point_inj in E.
Qed.

Lemma count_points_dom l : forall m k,
  k ∈ dom (foldl count_point m l) <-> k ∈ dom m \/ exists p, p ∈ l /\ k = key_of_point p.
Proof.
  induction l as [|q l IH]; intros m k; cbn [foldl]; [set_solver|]. rewrite IH. unfold count_point. set_solver.
Qed.

Definition sum_over (h : ShadowPointKey -> Z) (keys : list ShadowPointKey) : Z := foldr (fun k n => h k + n) 0 keys.

Lemma sum_over_perm h l k : l ≡ₚ k -> sum_over h l = sum_over h k.
Proof. unfold sum_over. induction 1; cbn; lia. Qed.

Lemma sum_over_add (h : ShadowPointKey -> Z) keys k n :
  NoDup keys -> k ∈ keys -> sum_over (fun x => h x + (if decide (x = k) then n else 0)) keys = sum_over h keys + n.
Proof.
  intros Hn. induction Hn as [|x keys Hx Hn IH]; [by intros ?%not_elem_of_nil|]. cbn.
  intros [<-|Hk]%elem_of_cons.
  - rewrite decide_True by done. enough (E : sum_over (fun y => h y + (if decide (y = k) then n else 0)) keys = sum_over h keys) by (unfold sum_over in *; lia).
    clear IH Hn. induction keys as [|y keys IH]; [done|]. cbn. rewrite decide_False by set_solver. unfold sum_over in *.
    rewrite IH by set_solver. lia.
  - rewrite decide_False by set_solver. unfold sum_over in *. rewrite IH by done. lia.
Qed.
(** The counts over enough keys add up to the number of points. *)
Lemma counts_total l keys :
  NoDup keys -> (forall p, p ∈ l -> key_of_point p ∈ keys) ->
  sum_over (fun k => default 0 (foldl count_point ∅ l !! k)) keys = len l.
Proof.
  intros Hn. induction l as [|q l IH] using rev_ind; intros Hk.
  - unfold sum_over, zlen. cbn [foldl length Z.of_nat]. clear. induction keys as [|k keys IH]; [done|]. cbn [foldr].
    by rewrite IH, lookup_empty.
  - rewrite foldl_app. cbn [foldl]. set (m := foldl count_point ∅ l) in *.
    assert (E : forall ks, sum_over (fun k => default 0 (count_point m q !! k)) ks
      = sum_over (fun k => default 0 (m !! k) + (if decide (k = key_of_point q) then 1 else 0)) ks).
    { induction ks as [|k ks IHk]; [done|]. unfold sum_over in *. cbn [foldr]. rewrite IHk. f_equal. unfold count_point.
      destruct (decide (k = key_of_point q)) as [->|]; [by rewrite lookup_insert_eq|]. rewrite lookup_insert_ne by done. lia. }
    rewrite E, sum_over_add, IH; [|set_solver|done|set_solver]. unfold zlen. rewrite length_app. cbn. lia.
Qed.

(** The spans of the supplied points. *)
Definition span_covers (l : list Point) (s : Z) (o : option SeriesSpan) : Prop :=
  match o with
  | None => forall p, p ∈ l -> series p <> s
  | Some sp => (exists a, a ∈ l /\ series a = s /\ valid_time a = span_start sp)
      /\ (exists b, b ∈ l /\ series b = s /\ valid_time b + 1 = span_end sp)
      /\ forall p, p ∈ l -> series p = s -> span_start sp <= valid_time p < span_end sp
  end.

Lemma widen_span_covers l spans p s :
  span_covers l s (spans !! s) -> span_covers (l ++ [p]) s (widen_span spans p (valid_time p + 1) !! s).
Proof.
  unfold widen_span. intros Hs. destruct (decide (series p = s)) as [<-|Hne].
  2: { rewrite lookup_insert_ne by done. destruct (spans !! s) as [sp|]; cbn in *; [|set_solver].
       destruct Hs as ((a & Ha & Ha1 & Ha2) & (b & Hb & Hb1 & Hb2) & Hall). split_and!; set_solver. }
  rewrite lookup_insert_eq. cbn. destruct (spans !! series p) as [sp|]; cbn in *.
  - destruct Hs as ((a & Ha & Ha1 & Ha2) & (b & Hb & Hb1 & Hb2) & Hall). split_and!.
    + destruct (Z.min_spec (span_start sp) (valid_time p)) as [[_ ->]|[_ ->]]; [exists a|exists p]; set_solver.
    + destruct (Z.max_spec (span_end sp) (valid_time p + 1)) as [[_ ->]|[_ ->]]; [exists p|exists b]; set_solver.
    + intros q [Hq| ->%list_elem_of_singleton]%elem_of_app Hser; [specialize (Hall q Hq Hser)|]; lia.
  - split_and!; [exists p; set_solver..|]. intros q [Hq| ->%list_elem_of_singleton]%elem_of_app Hser; [by apply Hs in Hser|lia].
Qed.

Lemma expected_points_of_spec pts : forall l counts spans counts' spans',
  (forall s, span_covers l s (spans !! s)) -> expected_points_of counts spans pts = inr (counts', spans') ->
  counts' = foldl count_point counts pts /\ forall s, span_covers (l ++ pts) s (spans' !! s).
Proof.
  induction pts as [|p pts IH]; intros l counts spans counts' spans' Hs E; cbn [expected_points_of foldl] in *.
  - injection E as <- <-. by rewrite app_nil_r.
  - destruct (i64_checked_add (valid_time p) 1) as [stop|] eqn:Ec; [|done].
    assert (stop = valid_time p + 1) as ->.
    { unfold i64_checked_add, i64_checked in Ec. case_match; congruence. }
    apply (IH (l ++ [p])) in E as [-> Hs']; [|intros s; by apply widen_span_covers].
    split; [done|]. intros s. specialize (Hs' s). by rewrite <- app_assoc in Hs'.
Qed.

(** The points a report is about: those between supplied points of their series. *)
Definition in_span (l : list Point) (p : Point) : Prop :=
  exists a b, a ∈ l /\ b ∈ l /\ series a = series p /\ series b = series p /\ valid_time a <= valid_time p <= valid_time b.

Lemma in_span_spec l (spans : gmap Z SeriesSpan) p :
  (forall s, span_covers l s (spans !! s)) ->
  in_span l p <-> exists sp, spans !! series p = Some sp /\ span_start sp <= valid_time p < span_end sp.
Proof.
  intros Hs. specialize (Hs (series p)). split.
  - intros (a & b & Ha & Hb & Ea & Eb & Ht). destruct (spans !! series p) as [sp|]; [|by apply Hs in Ha].
    destruct Hs as (_ & _ & Hall). exists sp. pose proof (Hall a Ha Ea). pose proof (Hall b Hb Eb). split; [done|lia].
  - intros (sp & E & Ht). rewrite E in Hs. destruct Hs as ((a & Ha & Ea & Ta) & (b & Hb & Eb & Tb) & _).
    exists a, b. split_and!; try done; lia.
Qed.

(** ** Visiting *)

Definition moved (r : ShadowReconciliationReport) (scanned observed : Z) : ShadowReconciliationReport :=
  set_scanned_points (scanned_points r + scanned) (set_observed_points (observed_points r + observed) r).

Lemma moved_moved r a b c d : moved (moved r a b) c d = moved r (a + c) (b + d).
Proof. destruct r. unfold moved, set_scanned_points, set_observed_points. cbn. f_equal; lia. Qed.

Lemma moved_zero r : moved r 0 0 = r.
Proof. destruct r. unfold moved, set_scanned_points, set_observed_points. cbn. f_equal; lia. Qed.

Abbreviation Visit := (EM (ShadowReconciliationReport * gmap ShadowPointKey Z) ShadowReconcileError unit).

(** [m] scans [n] entries and observes [l]. *)
Definition observes (m : Visit) (n : Z) (l : list Point) : Prop :=
  forall r c st, m (r, c) = (st, inr tt) -> st = (moved r n (len l), foldl count_point c l).

Lemma observes_ret : observes (em_ret tt) 0 [].
Proof. intros r c st [= <-]. cbn. by rewrite moved_zero. Qed.

Lemma observes_bind m k n l n' l' : observes m n l -> observes k n' l' -> observes (m ;^ k) (n + n') (l ++ l').
Proof.
  intros Hm Hk r c st ([] & [r1 c1] & E1 & E2)%em_bind_inr. apply Hm in E1 as [= -> ->]. apply Hk in E2 as ->.
  by rewrite moved_moved, foldl_app, zlen_app.
Qed.

Lemma observes_then m k n l : observes m n [] -> observes k 0 l -> observes (m ;^ k) n l.
Proof. intros Hm Hk. rewrite <- (Z.add_0_r n). by apply (observes_bind m k n [] 0 l). Qed.

Lemma observes_each {A} (f : A -> Visit) count points l :
  (forall x, x ∈ l -> observes (f x) (count x) (points x)) ->
  observes (em_for_each f l) (foldr (fun x n => count x + n) 0 l) (concat (map points l)).
Proof.
  induction l as [|x l IH]; intros Hf; cbn [em_for_each foldr map concat]; [apply observes_ret|].
  apply observes_bind; [apply Hf; left|]. apply IH. intros y Hy. apply Hf. by right.
Qed.

Lemma observes_ext m m' n l : (forall st, m st = m' st) -> observes m' n l -> observes m n l.
Proof. intros E Hm r c st. rewrite E. apply Hm. Qed.

Lemma observes_reserve limits n : observes (reserve_scan limits n) n [].
Proof.
  intros r c st E. unfold reserve_scan in E. unfold em_bind at 1, em_get in E. cbn in E. unfold em_bind, em_lift, add_limited in E.
  unfold u64_checked_add, u64_checked in E. destruct (in_u64 _); [|done]. cbn in E. destruct (check_limit _ _ _); [done|].
  injection E as <-. destruct r. unfold moved, set_scanned_points, set_observed_points. cbn. do 2 f_equal; unfold zlen; cbn; lia.
Qed.

Lemma observes_visit limits p : observes (visit_observed limits p) 0 [p].
Proof.
  intros r c st E. unfold visit_observed in E. unfold em_bind at 1, em_get in E. cbn in E. unfold em_bind, em_lift, add_limited in E.
  unfold u64_checked_add, u64_checked in E. destruct (in_u64 _); [|done]. cbn in E. destruct (check_limit _ _ _); [done|].
  injection E as <-. destruct r. unfold moved, set_scanned_points, set_observed_points. cbn. do 2 f_equal; unfold zlen; cbn; lia.
Qed.

Lemma observes_points limits l : observes (em_for_each (visit_observed limits) l) 0 l.
Proof.
  induction l as [|p l IH]; [apply observes_ret|]. change (p :: l) with ([p] ++ l).
  change 0 with (0 + 0). apply observes_bind; [apply observes_visit|done].
Qed.

Section Points.
Context `{Crc} `{RecordCodec} `{IndexCodec} `{Lz4}.
Abbreviation Db := (Database Segment).

(** A segment that was opened and whose blocks can be read. *)
Definition opened_segment (g : Segment) : Prop := exists file, Segment_open file = Ok g /\ verify_blocks g = Ok tt.

Definition query_cost (s lo hi : Z) (g : Segment) : Z :=
  foldr (fun e n => ie_points e + n) 0 (List.filter (entry_matches s lo hi) (seg_index g)).

Lemma observes_query limits g s lo hi :
  opened_segment g ->
  observes (visit_query StoreError g s lo hi (reserve_scan limits) (visit_observed limits)) (query_cost s lo hi g)
    (List.filter (in_window s lo hi) (segment_points g)).
Proof.
  intros (file & Ho & Hv). eapply observes_ext; [by apply (visit_query_runs StoreError file)|].
  apply verify_blocks_readable in Hv. unfold segment_points. rewrite blocks_window by done.
  apply (observes_each _ ie_points). intros e _. apply observes_then; [apply observes_reserve|apply observes_points].
Qed.

(** The points of a series in a window of time, and what finding them scans. *)
Definition history (d : Db) (s lo hi : Z) : list Point :=
  List.filter (in_window s lo hi) (stored (sealed d) (index (state d)) s).
Definition history_cost (d : Db) (s lo hi : Z) : Z :=
  foldr (fun g n => query_cost s lo hi g + n) 0 (sealed d)
  + len (series_time_slice (series_points (index (state d)) s) lo hi).

Lemma observes_history limits (d : Db) s lo hi :
  Forall opened_segment (sealed d) -> wf_index (index (state d)) ->
  observes (visit_history StoreError d s lo hi (reserve_scan limits) (visit_observed limits)) (history_cost d s lo hi)
    (history d s lo hi).
Proof.
  intros Hg Hi. unfold visit_history, history_cost, history, stored. cbv zeta. rewrite live_window by done.
  rewrite List.filter_app. apply observes_bind.
  - rewrite <- concat_filter_map, map_map. apply (observes_each _ (query_cost s lo hi)). intros g Hin.
    rewrite Forall_forall in Hg. by apply observes_query, Hg.
  - apply observes_then; [apply observes_reserve|apply observes_points].
Qed.

Definition observed (d : Db) (spans : gmap Z SeriesSpan) : list Point :=
  concat (map (fun '(s, sp) => history d s (span_start sp) (span_end sp)) (btree_to_list spans)).

Lemma count_occ_filter (f : Point -> bool) l p :
  count_occ Point_eq_dec (List.filter f l) p = if f p then count_occ Point_eq_dec l p else 0%nat.
Proof.
  induction l as [|q l IH]; [by destruct (f p)|]. cbn [List.filter count_occ].
  destruct (Point_eq_dec q p) as [->|Hne]; [destruct (f p) eqn:Ep|destruct (f q)]; rewrite ?count_occ_cons_eq, ?count_occ_cons_neq by done;
    rewrite IH, ?Ep; done.
Qed.

Definition within_span (sp : SeriesSpan) (p : Point) : bool := (span_start sp <=? valid_time p) && (valid_time p <? span_end sp).

Lemma count_history d s sp p :
  count_occ Point_eq_dec (history d s (span_start sp) (span_end sp)) p
  = if (series p =? s) && within_span sp p then count_occ Point_eq_dec (stored (sealed d) (index (state d)) s) p else 0%nat.
Proof. unfold history. rewrite count_occ_filter. unfold in_window, within_span. by rewrite andb_assoc. Qed.

Lemma count_observed d spans p :
  count_occ Point_eq_dec (observed d spans) p
  = match spans !! series p with
    | Some sp => if within_span sp p then count_occ Point_eq_dec (stored (sealed d) (index (state d)) (series p)) p else 0%nat
    | None => 0%nat
    end.
Proof.
  unfold observed. pose proof (NoDup_btree_keys spans) as Hn. unfold btree_keys in Hn.
  pose proof (elem_of_btree_to_list spans) as Hin. set (L := btree_to_list spans) in *. clearbody L.
  assert (Hnone : forall L, (forall sp, (series p, sp) ∉ L) ->
    count_occ Point_eq_dec (concat (map (fun '(s, sp) => history d s (span_start sp) (span_end sp)) L)) p = 0%nat).
  { clear. induction L as [|[s sp] L IH]; intros Hp; cbn [map concat]; [done|]. rewrite count_occ_app, count_history, IH by set_solver.
    destruct (Z.eqb_spec (series p) s) as [<-|]; [|done]. by destruct (Hp sp); left. }
  destruct (spans !! series p) as [sp|] eqn:E.
  2: { apply Hnone. intros sp Hsp%Hin. congruence. }
  apply Hin in E. clear Hin. apply list_elem_of_split in E as (l1 & l2 & ->).
  rewrite fmap_app, fmap_cons, NoDup_app, NoDup_cons in Hn. destruct Hn as (_ & Hd & Hx & _). cbn in Hd, Hx.
  rewrite map_app. cbn [map]. rewrite concat_app. cbn [concat]. rewrite !count_occ_app, count_history, Z.eqb_refl. cbn [andb].
  rewrite !Hnone; [lia| |].
  - intros sp' Hsp. apply Hx. by apply (list_elem_of_fmap_2 fst _ _ Hsp).
  - intros sp' Hsp. apply (Hd (series p)); [by apply (list_elem_of_fmap_2 fst _ _ Hsp)|left].
Qed.

(** ** The comparison of counts *)

Record points_only (limits : ShadowReconcileLimits) (r r' : ShadowReconciliationReport) : Prop := {
  po_receipts : receipts_part r' = receipts_part r;
  po_catalog : catalog_part r' = catalog_part r;
  po_window : window_part r' = window_part r;
  po_details : details_kept limits r -> details_kept limits r';
}.

Lemma compare_points_spec limits ec oc keys : forall r,
  let e k := default 0 (ec !! k) in let o k := default 0 (oc !! k) in
  let r' := foldl (compare_point limits ec oc) r keys in
  points_only limits r r' /\ scanned_points r' = scanned_points r /\ observed_points r' = observed_points r
  /\ matching_points r' = matching_points r + sum_over (fun k => Z.min (e k) (o k)) keys
  /\ missing_points r' = missing_points r + sum_over (fun k => Z.max 0 (e k - o k)) keys
  /\ unexpected_points r' = unexpected_points r + sum_over (fun k => Z.max 0 (o k - e k)) keys.
Proof.
  unfold sum_over. induction keys as [|k keys IH]; intros r; cbv zeta in *; cbn [foldl foldr].
  { rewrite !Z.add_0_r. by split. }
  destruct (IH (compare_point limits ec oc r k)) as ([P1 P2 P3 P4] & Es & Eo & Em & Ei & Eu). clear IH.
  set (r2 := foldl _ _ keys) in *. clearbody r2. rewrite Es, Eo, Em, Ei, Eu. unfold compare_point in *. cbv zeta in *.
  destruct (_ =? _).
  - split; [split; done|]. cbn. split_and!; lia.
  - rewrite !record_detail_eq. cbn. split; [|split_and!; lia]. split; try done.
    + by rewrite P1, record_detail_eq.
    + by rewrite P2, record_detail_eq.
    + by rewrite P3, record_detail_eq.
    + intros Hk. apply P4. by apply details_kept_record.
Qed.

Lemma sum_over_nonneg h keys : (forall k, 0 <= h k) -> 0 <= sum_over h keys.
Proof. intros Hh. unfold sum_over. induction keys as [|k keys IH]; cbn; [|specialize (Hh k)]; lia. Qed.

Lemma sum_over_zero h keys : (forall k, 0 <= h k) -> sum_over h keys = 0 <-> Forall (fun k => h k = 0) keys.
Proof.
  intros Hh. unfold sum_over. induction keys as [|k keys IH]; cbn; [done|]. rewrite Forall_cons, <- IH.
  pose proof (sum_over_nonneg h keys Hh). unfold sum_over in *.
  specialize (Hh k). lia.
Qed.

Lemma sum_over_plus (f g h : ShadowPointKey -> Z) keys :
  (forall k, f k + g k = h k) -> sum_over f keys + sum_over g keys = sum_over h keys.
Proof. intros E. unfold sum_over. induction keys as [|k keys IH]; cbn; [done|]. rewrite <- IH, <- E. lia. Qed.

(** The stored points of the window are the supplied ones, with multiplicity. *)
Definition points_stored (d : Db) (pts : list Point) : Prop :=
  forall p, in_span pts p ->
    count_occ Point_eq_dec pts p = count_occ Point_eq_dec (stored (sealed d) (index (state d)) (series p)) p.

Lemma counts_equal_stored d pts spans :
  (forall s, span_covers pts s (spans !! s)) ->
  (forall p, count_occ Point_eq_dec pts p = count_occ Point_eq_dec (observed d spans) p) <-> points_stored d pts.
Proof.
  intros Hs. split.
  - intros Hc p Hp. rewrite Hc, count_observed. apply (in_span_spec _ spans) in Hp as (sp & -> & Ht); [|done].
    unfold within_span. by rewrite (proj2 (Z.leb_le _ _)), (proj2 (Z.ltb_lt _ _)) by lia.
  - intros Hp p. rewrite count_observed. destruct (spans !! series p) as [sp|] eqn:E.
    + destruct (within_span sp p) eqn:Ew; [apply Hp, (in_span_spec _ spans); [done|]; exists sp; unfold within_span in Ew; zbool; split; [done|lia]|].
      apply count_occ_not_In. intros Hin%list_elem_of_In. specialize (Hs (series p)). rewrite E in Hs. destruct Hs as (_ & _ & Hall).
      specialize (Hall p Hin eq_refl). unfold within_span in Ew. zbool. lia.
    + apply count_occ_not_In. intros Hin%list_elem_of_In. specialize (Hs (series p)). rewrite E in Hs. by apply (Hs p).
Qed.

(** The keys the code compares: all that occur on either side. *)
Definition compared_keys (pts obs : list Point) : list ShadowPointKey :=
  stable_sort key_leb (elements (dom (foldl count_point ∅ pts) ∪ dom (foldl count_point ∅ obs))).

Lemma NoDup_compared_keys pts obs : NoDup (compared_keys pts obs).
Proof. unfold compared_keys. rewrite stable_sort_perm. apply NoDup_elements. Qed.

Lemma elem_of_compared_keys pts obs k :
  k ∈ compared_keys pts obs <-> exists p, (p ∈ pts \/ p ∈ obs) /\ k = key_of_point p.
Proof.
  unfold compared_keys. rewrite stable_sort_perm, elem_of_elements, elem_of_union, !count_points_dom. set_solver.
Qed.

Lemma compared_lists_spec limits pts obs r :
  matching_points r = 0 -> missing_points r = 0 -> unexpected_points r = 0 ->
  let r' := foldl (compare_point limits (foldl count_point ∅ pts) (foldl count_point ∅ obs)) r (compared_keys pts obs) in
  matching_points r' + missing_points r' = len pts /\ matching_points r' + unexpected_points r' = len obs
  /\ 0 <= missing_points r' /\ 0 <= unexpected_points r'
  /\ (missing_points r' + unexpected_points r' = 0
      <-> forall p, count_occ Point_eq_dec pts p = count_occ Point_eq_dec obs p).
Proof.
  intros Z3 Z4 Z5 r'. set (keys := compared_keys pts obs) in *.
  destruct (compare_points_spec limits (foldl count_point ∅ pts) (foldl count_point ∅ obs) keys r) as (_ & _ & _ & Em & Ei & Eu).
  fold r' in Em, Ei, Eu. clearbody r'. pose proof (NoDup_compared_keys pts obs) as Hn. fold keys in Hn.
  pose proof (counts_total pts keys Hn (fun p Hp => proj2 (elem_of_compared_keys _ _ _) (ex_intro _ p (conj (or_introl Hp) eq_refl)))) as Ct.
  pose proof (counts_total obs keys Hn (fun p Hp => proj2 (elem_of_compared_keys _ _ _) (ex_intro _ p (conj (or_intror Hp) eq_refl)))) as Co.
  set (e := fun k => default 0 (foldl count_point ∅ pts !! k)) in *. set (o := fun k => default 0 (foldl count_point ∅ obs !! k)) in *.
  rewrite <- (sum_over_plus (fun k => Z.min (e k) (o k)) (fun k => Z.max 0 (e k - o k))) in Ct by (intros; lia).
  rewrite <- (sum_over_plus (fun k => Z.min (e k) (o k)) (fun k => Z.max 0 (o k - e k))) in Co by (intros; lia).
  rewrite Z3, Z.add_0_l in Em. rewrite Z4, Z.add_0_l in Ei. rewrite Z5, Z.add_0_l in Eu.
  change (matching_points r' = sum_over (fun k => Z.min (e k) (o k)) keys) in Em.
  change (missing_points r' = sum_over (fun k => Z.max 0 (e k - o k)) keys) in Ei.
  change (unexpected_points r' = sum_over (fun k => Z.max 0 (o k - e k)) keys) in Eu.
  pose proof (sum_over_nonneg (fun k => Z.max 0 (e k - o k)) keys ltac:(intros; lia)) as P1.
  pose proof (sum_over_nonneg (fun k => Z.max 0 (o k - e k)) keys ltac:(intros; lia)) as P2.
  split; [lia|]. split; [lia|]. split; [lia|]. split; [lia|]. rewrite Ei, Eu, (sum_over_plus _ _ (fun k => Z.abs (e k - o k))) by (intros; lia).
  rewrite sum_over_zero, Forall_forall by (intros; lia).
  assert (Eq : forall p, e (key_of_point p) - o (key_of_point p)
                 = Z.of_nat (count_occ Point_eq_dec pts p) - Z.of_nat (count_occ Point_eq_dec obs p))
    by (intros p; unfold e, o; rewrite !count_points_lookup, lookup_empty; done).
  split.
  - intros Hall p. destruct (decide (p ∈ pts \/ p ∈ obs)) as [Hp|Hp].
    + specialize (Hall _ (proj2 (elem_of_compared_keys _ _ _) (ex_intro _ p (conj Hp eq_refl)))). rewrite Eq in Hall. lia.
    + rewrite !(proj1 (count_occ_not_In Point_eq_dec _ _)) by (rewrite <- list_elem_of_In; tauto). done.
  - intros Hall k (p & _ & ->)%elem_of_compared_keys. rewrite Eq, Hall. lia.
Qed.

Lemma reconcile_points_spec limits d expected r r' :
  Forall opened_segment (sealed d) -> wf_index (index (state d)) -> points_part r = (0, 0, 0, 0, 0) ->
  reconcile_points d expected limits r = inr r' ->
  let pts := flat_map batch_points expected in
  points_only limits r r'
  /\ matching_points r' + missing_points r' = len pts /\ matching_points r' + unexpected_points r' = observed_points r'
  /\ 0 <= missing_points r' /\ 0 <= unexpected_points r'
  /\ (missing_points r' + unexpected_points r' = 0 <-> points_stored d pts).
Proof.
  intros Hg Hi [= Z1 Z2 Z3 Z4 Z5] E pts. unfold reconcile_points in E. fold pts in E.
  destruct (expected_points_of ∅ ∅ pts) as [|[ec spans]] eqn:Ex; [done|].
  apply (expected_points_of_spec pts []) in Ex as [-> Hs]; [|intros s; rewrite lookup_empty; cbn; set_solver]. cbn [app] in Hs.
  destruct (em_for_each _ _ _) as [[r1 oc] [|[]]] eqn:Ev; [done|].
  eapply (observes_each _ (fun '(s, sp) => history_cost d s (span_start sp) (span_end sp))
            (fun '(s, sp) => history d s (span_start sp) (span_end sp))) in Ev;
    [|intros [s sp] _; by apply observes_history].
  injection Ev as -> ->. fold (observed d spans) in E. set (cost := foldr _ 0 (btree_to_list spans)) in E.
  set (obs := observed d spans) in *. fold (compared_keys pts obs) in E. injection E as <-. set (r1 := moved r cost (len obs)).
  destruct (compare_points_spec limits (foldl count_point ∅ pts) (foldl count_point ∅ obs) (compared_keys pts obs) r1) as (HP & _ & Eo & _).
  destruct (compared_lists_spec limits pts obs r1 Z3 Z4 Z5) as (C1 & C2 & C3 & C4 & C5).
  split; [by destruct HP; split|]. rewrite Eo. split; [done|].
  split; [cbn; rewrite Z2; exact C2|]. split; [done|]. split; [done|]. by rewrite C5, <- (counts_equal_stored d pts spans).
Qed.
End Points.

(** ** The report *)

Section Report.
Context `{Crc} `{RecordCodec} `{IndexCodec} `{Lz4} `{!CrcCombine}.
Abbreviation Db := (Database Segment).

(** The window is stored: its batches, the last forms of its catalog objects
    and, between its points, exactly its points. *)
Definition window_stored (d : Db) (expected : list CommitBatchRequest) : Prop :=
  Forall (batch_stored d) expected /\ catalog_stored (catalog (state d)) expected
  /\ points_stored d (flat_map batch_points expected).

Lemma check_window_points limits expected : forall t t',
  check_window limits t expected = inr t' -> total_points t' = total_points t + len (flat_map batch_points expected).
Proof.
  induction expected as [|b bs IH]; intros t t'; cbn [check_window flat_map]; [intros [= <-]; unfold zlen; cbn; lia|].
  destruct (check_batch limits t b) as [|t1] eqn:Eb; [done|]. intros Et%IH. rewrite Et, zlen_app.
  unfold check_batch, add_limited, u64_checked_add, u64_checked in Eb.
  repeat (case_match; simplify_eq); cbn; lia.
Qed.

(** What a finished report says. *)
Record report_exact (d : Db) (limits : ShadowReconcileLimits) (expected : list CommitBatchRequest)
    (r : ShadowReconciliationReport) : Prop := {
  re_content : content_matches r = true <-> window_stored d expected;
  re_release : ready_to_release_source_copy r = true -> window_stored d expected /\ Forall (batch_durable d) expected;
  re_batches : expected_batches r = len expected;
  re_points : expected_points r = len (flat_map batch_points expected);
  re_matching : matching_points r + missing_points r = expected_points r;
  re_observed : matching_points r + unexpected_points r = observed_points r;
  re_objects : matching_catalog_objects r + missing_catalog_objects r + different_catalog_objects r = expected_catalog_objects r;
  re_details : len (mismatch_details r) = Z.min (mismatch_groups r) (Z.max 0 (max_mismatch_details limits));
  re_truncated : details_truncated r = true <-> max_mismatch_details limits < mismatch_groups r /\ 0 < mismatch_groups r;
}.

Lemma reconcile_spec limits d d' expected r :
  readable_handle d -> Forall opened_segment (sealed d) -> wf_index (index (state d)) ->
  reconcile_shadow_batches expected limits d = (d', inr r) -> d' = d /\ report_exact d limits expected r.
Proof.
  intros Hd Hg Hi E. unfold reconcile_shadow_batches in E.
  apply em_bind_inr in E as ([] & ? & [= <- _] & E). apply em_bind_inr in E as (t & ? & [= <- Et] & E).
  apply em_bind_inr in E as ([] & ? & [= <- _] & E). apply em_bind_inr in E as ([] & ? & [= <- _] & E).
  cbv zeta in E. set (r0 := mkReport _ _ _ _ _ _ _ _ _ _ _ _ _ _ _ _ _ _ _ _) in E.
  apply em_bind_inr in E as (r1 & d1 & E1 & E). apply reconcile_receipts_spec in E1 as (-> & [A1 A2 A3 A4 A5] & An & Ab & Adur & Aiff); [|done].
  apply em_bind_inr in E as (d2 & ? & [= <- <-] & E). apply em_bind_inr in E as (r3 & ? & [= <- E3] & [= <- <-]).
  destruct (reconcile_catalog_spec limits d expected r1 A1) as (B1 & B2 & B3 & B4 & B5 & B6 & B7 & B8).
  set (r2 := reconcile_catalog _ _ _ r1) in *. clearbody r2.
  apply reconcile_points_spec in E3 as ([C1 C2 C3 C4] & C5 & C6 & C7 & C8 & C9); [|done|done|by rewrite B2, A2].
  apply check_window_points in Et. cbn in Et. split; [done|].
  assert (Hk : details_kept limits r3) by (apply C4, B4, A4; unfold details_kept, zlen; cbn; lia).
  specialize (A5 ltac:(unfold nonneg_receipts; cbn; lia)).
  rewrite B1 in C1. rewrite B3, A3 in C3. unfold receipts_part in C1. unfold catalog_part in C2. unfold window_part in C3.
  unfold bad_receipts, bad_objects, nonneg_receipts in *. cbn in Aiff, Adur, C3. injection C1 as G1 G2 G3 G4 G5 G6.
  injection C2 as G7 G8 G9 G10. injection C3 as G11 G12. cbn in An, Ab.
  assert (Hc : content_matches (set_details_truncated (len (mismatch_details r3) <? mismatch_groups r3) r3) = true
               <-> window_stored d expected).
  { unfold content_matches, window_stored. cbn. rewrite !andb_true_iff, !Z.eqb_eq, <- Aiff, <- B8, <- C9. lia. }
  destruct Hk as [Hk1 Hk2]. split; cbn; try (done || lia).
  - unfold ready_to_release_source_copy. rewrite andb_true_iff, Hc, Z.eqb_eq. cbn. intros [Hw Hz]. split; [done|].
    destruct Hw as [Hst _]. rewrite Forall_forall in Hst |- *. specialize (Adur ltac:(lia)). rewrite Forall_forall in Adur.
    intros b Hb. apply Adur; auto.
Qed.
End Report.

(** ** Reconciliation returns *)

(** [m] succeeds from states that can afford [n] scanned entries and the
    points [l]. *)
Definition affords (limits : ShadowReconcileLimits) (m : Visit) (n : Z) (l : list Point) : Prop :=
  0 <= n /\ forall r c, 0 <= scanned_points r -> 0 <= observed_points r ->
    scanned_points r + n <= max_scanned_points limits -> observed_points r + len l <= max_observed_points limits ->
    exists st, m (r, c) = (st, inr tt).

(** Limits are [usize] values. *)
Record typed_limits (limits : ShadowReconcileLimits) : Prop := {
  tl_batches : is_u64 (max_batches limits);
  tl_metadata : is_u64 (max_metadata_records limits);
  tl_expected : is_u64 (max_expected_points limits);
  tl_observed : is_u64 (max_observed_points limits);
  tl_scanned : is_u64 (max_scanned_points limits);
}.

Lemma add_limited_ok a b maximum limit : 0 <= a + b -> a + b <= maximum -> is_u64 maximum -> add_limited a b maximum limit = inr (a + b).
Proof.
  intros Hp Hm Hu. unfold add_limited, u64_checked_add. unfold is_u64 in Hu.
  by rewrite u64_checked_ok by (unfold is_u64; lia).
Qed.

Lemma check_limit_ok a maximum limit : a <= maximum -> check_limit a maximum limit = inr tt.
Proof. intros Hm. unfold check_limit. by rewrite (proj2 (Z.ltb_ge _ _)). Qed.

Section Afford.
Context (limits : ShadowReconcileLimits) (Htl : typed_limits limits).

Lemma affords_ret : affords limits (em_ret tt) 0 [].
Proof. split; [lia|]. intros. by eexists. Qed.

Lemma affords_bind m k n l n' l' :
  observes m n l -> affords limits m n l -> affords limits k n' l' -> affords limits (m ;^ k) (n + n') (l ++ l').
Proof.
  intros Ho [Hn Hm] [Hn' Hk]. split; [lia|]. intros r c Hs Hob H1 H2. rewrite zlen_app in H2.
  pose proof (zlen_nonneg l). pose proof (zlen_nonneg l').
  destruct (Hm r c) as [st Em]; [lia..|]. pose proof (Ho _ _ _ Em) as ->. rewrite (em_bind_run _ _ _ _ _ Em).
  apply Hk; unfold moved; cbn; lia.
Qed.

Lemma affords_then m k n l : observes m n [] -> affords limits m n [] -> affords limits k 0 l -> affords limits (m ;^ k) n l.
Proof. intros Ho Hm Hk. rewrite <- (Z.add_0_r n). by apply (affords_bind m k n [] 0 l). Qed.

Lemma affords_each {A} (f : A -> Visit) count points l :
  (forall x, x ∈ l -> observes (f x) (count x) (points x)) -> (forall x, x ∈ l -> affords limits (f x) (count x) (points x)) ->
  affords limits (em_for_each f l) (foldr (fun x n => count x + n) 0 l) (concat (map points l)).
Proof.
  induction l as [|x l IH]; intros Ho Hf; cbn [em_for_each foldr map concat]; [apply affords_ret|].
  apply affords_bind; [apply Ho; left|apply Hf; left|]. apply IH; intros y Hy; [apply Ho|apply Hf]; by right.
Qed.

Lemma affords_reserve n : 0 <= n -> affords limits (reserve_scan limits n) n [].
Proof.
  intros Hn. split; [done|]. intros r c Hs Ho H1 _. unfold reserve_scan. unfold em_bind at 1, em_get. cbn [fst snd].
  unfold em_bind at 1, em_lift. rewrite add_limited_ok by (lia || apply Htl). unfold em_bind, em_put.
  rewrite check_limit_ok by lia. by eexists.
Qed.

Lemma affords_visit p : affords limits (visit_observed limits p) 0 [p].
Proof.
  split; [done|]. intros r c Hs Ho _ H2. unfold zlen in H2. cbn in H2. unfold visit_observed. unfold em_bind at 1, em_get.
  unfold em_bind at 1, em_lift. rewrite add_limited_ok by (lia || apply Htl). unfold em_bind, em_put.
  rewrite check_limit_ok by lia. by eexists.
Qed.

Lemma affords_points l : affords limits (em_for_each (visit_observed limits) l) 0 l.
Proof.
  induction l as [|p l IH]; [apply affords_ret|]. change (p :: l) with ([p] ++ l). change 0 with (0 + 0).
  apply affords_bind; [apply observes_visit|apply affords_visit|done].
Qed.
End Afford.

Section Total.
Context `{Crc} `{RecordCodec} `{IndexCodec} `{Lz4} `{!CrcCombine}.
Abbreviation Db := (Database Segment).

Definition typed_segment (g : Segment) : Prop := exists file, is_bytes file /\ Segment_open file = Ok g /\ verify_blocks g = Ok tt.

Lemma typed_opened g : typed_segment g -> opened_segment g.
Proof. intros (file & _ & Ho & Hv). by exists file. Qed.

Lemma affords_query limits g s lo hi :
  typed_limits limits -> typed_segment g ->
  affords limits (visit_query StoreError g s lo hi (reserve_scan limits) (visit_observed limits)) (query_cost s lo hi g)
    (List.filter (in_window s lo hi) (segment_points g)).
Proof.
  intros Htl (file & Hb & Ho & Hv). pose proof (open_counts _ _ Hb Ho) as Hc. rewrite Forall_forall in Hc.
  assert (Hr := verify_blocks_readable g). unfold segment_points. rewrite blocks_window by (by apply Hr).
  unfold query_cost. destruct (affords_each limits (fun e => reserve_scan limits (ie_points e) ;^
      em_for_each (visit_observed limits) (List.filter (point_in lo hi) (block_points (seg_file g) e))) ie_points
      (fun e => List.filter (point_in lo hi) (block_points (seg_file g) e))
      (List.filter (entry_matches s lo hi) (seg_index g))) as [Hn Hm].
  - intros e _. apply observes_then; [apply observes_reserve|apply observes_points].
  - intros e [He _]%list_elem_of_In%filter_In. apply list_elem_of_In, Hc in He.
    apply affords_then; [apply observes_reserve|by apply affords_reserve|by apply affords_points].
  - split; [done|]. intros r c. rewrite (visit_query_runs StoreError file) by done. apply Hm.
Qed.

Lemma affords_history limits (d : Db) s lo hi :
  typed_limits limits -> Forall typed_segment (sealed d) -> wf_index (index (state d)) ->
  affords limits (visit_history StoreError d s lo hi (reserve_scan limits) (visit_observed limits)) (history_cost d s lo hi)
    (history d s lo hi).
Proof.
  intros Htl Hg Hi. unfold visit_history, history_cost, history, stored. cbv zeta. rewrite live_window by done.
  rewrite Forall_forall in Hg. rewrite List.filter_app, <- concat_filter_map, map_map. apply affords_bind.
  - apply (observes_each _ (query_cost s lo hi)). intros g Hin. by apply observes_query, typed_opened, Hg.
  - apply (affords_each _ _ (query_cost s lo hi)); intros g Hin; [apply observes_query, typed_opened|apply affords_query]; auto.
  - apply affords_then; [apply observes_reserve|apply affords_reserve; [done|apply zlen_nonneg]|by apply affords_points].
Qed.

(** What the points of a window cost. *)
Definition window_spans (pts : list Point) : gmap Z SeriesSpan :=
  match expected_points_of ∅ ∅ pts with inr (_, spans) => spans | inl _ => ∅ end.
Definition window_cost (d : Db) (pts : list Point) : Z :=
  foldr (fun '(s, sp) n => history_cost d s (span_start sp) (span_end sp) + n) 0 (btree_to_list (window_spans pts)).

Record reconcilable (d : Db) (limits : ShadowReconcileLimits) (expected : list CommitBatchRequest) : Prop := {
  rb_limits : typed_limits limits;
  rb_batches : len expected <= max_batches limits;
  rb_sources : Forall (fun b => batch_source_id b <> 0) expected;
  rb_keys : NoDup (map (fun b => (batch_source_id b, batch_sequence b)) expected);
  rb_commit_ids : NoDup (map batch_commit_id expected);
  rb_metadata : foldr (fun b n => batch_metadata_count b + n) 0 expected <= max_metadata_records limits;
  rb_points : len (flat_map batch_points expected) <= max_expected_points limits;
  rb_times : Forall (fun p => i64_min <= valid_time p < i64_max) (flat_map batch_points expected);
  rb_encoded : Forall (fun b => exists c, encode_canonical_transaction (transaction_from_batch b) = Ok c) expected;
  rb_observed : len (observed d (window_spans (flat_map batch_points expected))) <= max_observed_points limits;
  rb_scanned : window_cost d (flat_map batch_points expected) <= max_scanned_points limits;
}.

Lemma expected_points_total pts : forall counts spans,
  Forall (fun p => i64_min <= valid_time p < i64_max) pts -> exists r, expected_points_of counts spans pts = inr r.
Proof.
  induction pts as [|p pts IH]; intros counts spans Hp; cbn [expected_points_of]; [by eexists|].
  apply Forall_cons in Hp as [Hp Hps]. unfold i64_checked_add. rewrite i64_checked_ok by (unfold is_i64, i64_min, i64_max in *; lia).
  by apply IH.
Qed.

Lemma reconcile_points_total limits d expected r :
  Forall typed_segment (sealed d) -> wf_index (index (state d)) -> reconcilable d limits expected ->
  scanned_points r = 0 -> observed_points r = 0 -> exists r', reconcile_points d expected limits r = inr r'.
Proof.
  intros Hg Hi [Htl _ _ _ _ _ _ Ht _ Hob Hsc] Es Eo. unfold reconcile_points. set (pts := flat_map batch_points expected) in *.
  destruct (expected_points_total pts ∅ ∅ Ht) as [[ec spans] Ex]. rewrite Ex. unfold window_cost, window_spans in *. rewrite Ex in Hob, Hsc.
  destruct (affords_each limits (fun '(s, sp) => visit_history StoreError d s (span_start sp) (span_end sp) (reserve_scan limits) (visit_observed limits))
     (fun '(s, sp) => history_cost d s (span_start sp) (span_end sp)) (fun '(s, sp) => history d s (span_start sp) (span_end sp))
     (btree_to_list spans)) as [_ Hm].
  - intros [s sp] _. apply observes_history; [|done]. eapply Forall_impl; [exact Hg|]. apply typed_opened.
  - intros [s sp] _. by apply affords_history.
  - destruct (Hm r ∅) as [[r1 oc] ->]; [lia|lia| |rewrite Eo; exact Hob|by eexists].
    rewrite Es. etrans; [|exact Hsc]. clear. induction (btree_to_list spans) as [|[s sp] l IH]; cbn; lia.
Qed.

Lemma reconcile_receipts_total limits d expected : forall r,
  readable_handle d -> Forall (fun b => exists c, encode_canonical_transaction (transaction_from_batch b) = Ok c) expected ->
  exists r', reconcile_receipts expected limits r d = (d, inr r').
Proof.
  unfold reconcile_receipts. induction expected as [|b bs IH]; intros r Hd He; cbn [em_fold]; [by eexists|].
  apply Forall_cons in He as [(canonical & Ec) He].
  assert (E1 : exists r1, reconcile_receipt limits r b d = (d, inr r1)).
  { unfold reconcile_receipt. cbv zeta. unfold em_bind at 1, em_get. destruct (ingress_receipt _ _ d) as [rc|]; [|by eexists].
    destruct (_ =? _); [|by eexists]. unfold em_bind, em_from. rewrite verify_runs by done.
    destruct (ingress_receipts (state d) !! _) as [x|]; [|by eexists]. case_bool_decide; [|by eexists]. rewrite Ec. by eexists. }
  destruct E1 as [r1 E1]. rewrite (em_bind_run _ _ _ _ _ E1). by apply IH.
Qed.

Lemma check_window_total limits expected : forall t,
  typed_limits limits -> Forall (fun b => batch_source_id b <> 0) expected ->
  NoDup (map (fun b => (batch_source_id b, batch_sequence b)) expected) ->
  (forall b, b ∈ expected -> (batch_source_id b, batch_sequence b) ∉ source_sequences t) ->
  NoDup (map batch_commit_id expected) -> (forall b, b ∈ expected -> batch_commit_id b ∉ seen_commit_ids t) ->
  0 <= total_metadata t -> 0 <= total_points t ->
  total_metadata t + foldr (fun b n => batch_metadata_count b + n) 0 expected <= max_metadata_records limits ->
  total_points t + len (flat_map batch_points expected) <= max_expected_points limits ->
  exists t', check_window limits t expected = inr t' /\ total_metadata t' <= max_metadata_records limits
    /\ total_points t' <= max_expected_points limits.
Proof.
  intros t Htl. revert t. induction expected as [|b bs IH]; intros t Hs Hk Hkt Hc Hct Hm Hp Hmm Hpm; cbn [check_window].
  { exists t. cbn in Hmm. unfold zlen in Hpm. cbn in Hpm. split; [done|lia]. }
  apply Forall_cons in Hs as [Hb Hs]. cbn [map] in Hk, Hc. apply NoDup_cons in Hk as [Hkb Hk]. apply NoDup_cons in Hc as [Hcb Hc].
  cbn [foldr] in Hmm. cbn [flat_map] in Hpm. rewrite zlen_app in Hpm.
  assert (Hn : 0 <= batch_metadata_count b) by (unfold batch_metadata_count, zlen; lia).
  assert (Hf : 0 <= foldr (fun b n => batch_metadata_count b + n) 0 bs)
    by (clear; induction bs as [|x l IHl]; cbn; [lia|]; unfold batch_metadata_count, zlen in *; lia).
  pose proof (zlen_nonneg (batch_points b)). pose proof (zlen_nonneg (flat_map batch_points bs)).
  unfold check_batch. cbv zeta. rewrite (proj2 (Z.eqb_neq _ _)) by done. rewrite !bool_decide_false; [|by apply Hct; left|by apply Hkt; left].
  rewrite !add_limited_ok by (lia || apply Htl). apply IH; cbn; try done; try lia.
  - intros x Hx [Hin%elem_of_singleton|Hin]%elem_of_union; [|by apply (Hkt x); [right|]].
    apply Hkb. apply list_elem_of_fmap. by exists x.
  - intros x Hx [Hin%elem_of_singleton|Hin]%elem_of_union; [|by apply (Hct x); [right|]].
    apply Hcb. apply list_elem_of_fmap. by exists x.
Qed.

Lemma reconcile_total limits d expected :
  readable_handle d -> Forall typed_segment (sealed d) -> wf_index (index (state d)) -> reconcilable d limits expected ->
  exists r, reconcile_shadow_batches expected limits d = (d, inr r) /\ report_exact d limits expected r.
Proof.
  intros Hd Hg Hi Hrc. pose proof Hrc as [Htl Hb Hs Hk Hc Hm Hp Ht He Hob Hsc].
  assert (Hw : exists t, check_window limits (mkTotals ∅ ∅ 0 0) expected = inr t /\ total_metadata t <= max_metadata_records limits
                 /\ total_points t <= max_expected_points limits) by (apply check_window_total; cbn; (done || lia || set_solver)).
  destruct Hw as (t & Et & Hm' & Hp').
  enough (E : exists r, reconcile_shadow_batches expected limits d = (d, inr r)).
  { destruct E as [r E]. exists r. split; [done|]. eapply reconcile_spec; [done| |done|exact E].
    eapply Forall_impl; [exact Hg|]. apply typed_opened. }
  unfold reconcile_shadow_batches. unfold em_bind at 1, em_lift at 1. rewrite check_limit_ok by done.
  unfold em_bind at 1, em_lift at 1. rewrite Et. unfold em_bind at 1, em_lift at 1. rewrite check_limit_ok by done.
  unfold em_bind at 1, em_lift at 1. rewrite check_limit_ok by done. cbv zeta. set (r0 := mkReport _ _ _ _ _ _ _ _ _ _ _ _ _ _ _ _ _ _ _ _).
  destruct (reconcile_receipts_total limits d expected r0 Hd He) as [r1 E1]. rewrite (em_bind_run _ _ _ _ _ E1).
  apply reconcile_receipts_spec in E1 as (_ & [A1 A2 A3 _ _] & _); [|done].
  unfold em_bind at 1, em_get. destruct (reconcile_catalog_spec limits d expected r1 A1) as (_ & B2 & _).
  rewrite A2 in B2. injection B2 as B2 B3 _ _ _.
  destruct (reconcile_points_total limits d expected (reconcile_catalog d expected limits r1) Hg Hi Hrc B2 B3) as [r3 E3].
  unfold em_bind at 1, em_lift. rewrite E3. by eexists.
Qed.
End Total.

(** ** Released batches survive *)

Section Release.
Context `{Crc} `{!CrcCombine} `{RecordCodecLaws} `{IndexCodec} `{TimeZones} `{Lz4}.
Abbreviation Db := (Database Segment).

Lemma stored_payload_clear c r r' : clear_ingress r = clear_ingress r' -> stored_payload c r = stored_payload c r'.
Proof.
  destruct r as [i o l k p [? ? ? ? ? ?]], r' as [i' o' l' k' p' [? ? ? ? ? ?]]. by intros [= -> -> -> -> -> -> -> -> -> ->].
Qed.

(** A longer file holds the same payload. *)
Lemma stored_payload_prefix c c' r : c `prefix_of` c' -> receipt_ok c r -> stored_payload c' r = stored_payload c r.
Proof.
  intros [rest ->] [[Hz _]|(canonical & Hl)]; [unfold stored_payload; by rewrite Hz|].
  rewrite (located_stored _ _ _ Hl). apply located_stored. destruct Hl as (pre & post & -> & Hrest).
  exists pre, (post ++ rest). split; [by rewrite <- !app_assoc|done].
Qed.

Lemma readable_reachable seals cfg (d : Db) :
  reachable seals cfg d -> faults (file d) = [] -> is_u64 (len (contents (file d))) -> readable_handle d.
Proof. intros Hr Hf Hl. split; [done|done|]. intros k r. eapply handle_receipts_ok. by eapply reachable_inv. Qed.

Lemma batch_survives seals (d d' : Db) left m b :
  handle_inv seals d -> crash (file d) left ->
  open_file LockAcquired (config d) false seals (mkFile left m []) = (file d', Ok d') ->
  contents (file d') `prefix_of` left -> batch_stored d b -> batch_durable d b -> batch_stored d' b /\ batch_durable d' b.
Proof.
  intros Hi Hcr Ho Hpre (x & canonical & Ex & Ei & Erec & Ept & Ec & Es) (n & En & Hn).
  destruct (durable_stored_survives seals d left m _ _ x Hi Hcr Ex) as (d1 & x' & Ho' & Hi' & Ex' & E & Hdu').
  { cbn. rewrite En. cbn. lia. }
  rewrite Ho in Ho'. injection Ho' as _ <-. split.
  - exists x', canonical. pose proof (handle_receipts_ok _ _ _ _ Hi' Ex') as Hok. split; [exact Ex'|].
    assert (Hs : stored_payload (contents (file d')) x' = Some canonical).
    { rewrite <- (stored_payload_prefix _ (contents (file d)) x'), (stored_payload_clear _ _ _ E); [done| |done].
      etrans; [exact Hpre|]. destruct Hcr as (k & _ & ->). apply prefix_take. }
    destruct x' as [i0 o0 l0 c0 p0 [? ? ? ? ? ?]], x as [i1 o1 l1 c1 p1 [? ? ? ? ? ?]].
    injection E as -> -> -> -> -> -> -> -> -> ->. done.
  - unfold batch_durable. cbn in Hdu'. destruct (ingress_durable_sequences d' !! batch_source_id b) as [n'|]; [|done].
    exists n'. cbn in Hdu'. split; [done|lia].
Qed.

Lemma release_survives seals cfg limits (d d' : Db) expected r left m :
  reachable seals cfg d -> faults (file d) = [] -> is_u64 (len (contents (file d))) -> Forall opened_segment (sealed d) ->
  reconcile_shadow_batches expected limits d = (d', inr r) -> ready_to_release_source_copy r = true -> crash (file d) left ->
  exists d2 : Db, open_file LockAcquired (config d) false seals (mkFile left m []) = (file d2, Ok d2)
    /\ Forall (fun b => batch_stored d2 b /\ batch_durable d2 b) expected.
Proof.
  intros Hr Hf Hl Hg E Hready Hcr. pose proof (reachable_inv _ _ _ Hr) as Hi.
  destruct (handle_wf _ _ Hi) as (_ & Hix & _).
  apply reconcile_spec in E as [_ Hx]; [|by eapply readable_reachable|done|done].
  destruct (re_release _ _ _ _ Hx Hready) as ((Hst & _) & Hdu).
  destruct (crash_open_prefix _ _ _ m Hi Hcr) as (d2 & fs & s & Ho & _ & Hpre & _). exists d2. split; [done|].
  rewrite Forall_forall in Hst, Hdu |- *. intros b Hb. eapply batch_survives; eauto.
Qed.
End Release.
