(* ===== verification/Instances.v ===== *)
(** * Instances: concrete stand-ins for the third-party code

    The development takes checksum, serializer and calendar as parameters.
    Here each of them is given as a concrete function that satisfies the laws
    the theorems assume, so that the theorems can be evaluated: the CRC-32 of
    [crc32fast] bit by bit, a serializer through the enumeration of the type,
    a compressor that drops trailing zeros, a directory listing in key order
    and a calendar that knows UTC days. *)
From S2P Require Import Prelude Errors Bytes Float64 Model Transaction Rollup Query Codec Segment Manifest Scan Database Retry Store.

(** ** CRC-32 (IEEE 802.3, reflected) *)

Definition crc_poly : Z := 3988292384.

Definition crc_bit (s : Z) : Z :=
  Z.lxor (Z.shiftr s 1) (if Z.odd s then crc_poly else 0).

Definition crc_bits8 (s : Z) : Z := Nat.iter 8 crc_bit s.

Definition crc_byte (s b : Z) : Z := crc_bits8 (Z.lxor s (Z.land b 255)).

Definition crc_run (s : Z) (l : bytes) : Z := foldl crc_byte s l.

Definition crc32 (l : bytes) : Z := Z.lxor (crc_run u32_max l) u32_max.

(** The register is 32 bits wide. *)
Lemma is_u32_land z : is_u32 z <-> Z.land z (Z.ones 32) = z.
Proof.
  unfold is_u32. rewrite Z.land_ones by lia. split.
  - intros. by apply Z.mod_small.
  - intros <-. apply Z.mod_pos_bound. lia.
Qed.

Lemma lxor_u32 a b : is_u32 a -> is_u32 b -> is_u32 (Z.lxor a b).
Proof.
  rewrite !is_u32_land. intros Ha Hb. apply Z.bits_inj'. intros n Hn.
  rewrite <- Ha, <- Hb at 2. rewrite !Z.land_spec, !Z.lxor_spec, !Z.land_spec.
  destruct (Z.testbit a n), (Z.testbit b n), (Z.testbit (Z.ones 32) n); done.
Qed.

Lemma crc_bit_u32 s : is_u32 s -> is_u32 (crc_bit s).
Proof.
  intros Hs. apply lxor_u32; [|by destruct (Z.odd s)].
  unfold is_u32 in *. rewrite Z.shiftr_div_pow2 by lia. change (2 ^ 1) with 2.
  pose proof (Z.div_pos s 2). pose proof (Z.div_le_upper_bound s 2 s). lia.
Qed.

Lemma crc_run_u32 s l : is_u32 s -> is_u32 (crc_run s l).
Proof.
  revert s. induction l as [|b l IH]; intros s Hs; [done|]. apply IH. unfold crc_byte, crc_bits8.
  assert (Hx : is_u32 (Z.lxor s (Z.land b 255))).
  { apply lxor_u32; [done|]. change 255 with (Z.ones 8). rewrite Z.land_ones by lia. unfold is_u32.
    pose proof (Z.mod_pos_bound b (2 ^ 8) ltac:(lia)). lia. }
  simpl. by repeat apply crc_bit_u32.
Qed.

Lemma crc32_u32 l : is_u32 (crc32 l).
Proof. apply lxor_u32; [apply crc_run_u32|]; done. Qed.

Lemma crc_bit_lxor a b : crc_bit (Z.lxor a b) = Z.lxor (crc_bit a) (crc_bit b).
Proof.
  unfold crc_bit. rewrite Z.shiftr_lxor.
  assert (Ho : Z.odd (Z.lxor a b) = xorb (Z.odd a) (Z.odd b)) by (by rewrite <- !Z.bit0_odd, Z.lxor_spec).
  rewrite Ho. apply Z.bits_inj'. intros n Hn. rewrite !Z.lxor_spec.
  destruct (Z.odd a), (Z.odd b); cbn [xorb]; rewrite ?Z.bits_0;
    destruct (Z.testbit (Z.shiftr a 1) n), (Z.testbit (Z.shiftr b 1) n), (Z.testbit crc_poly n); done.
Qed.

Lemma crc_bits8_lxor a b : crc_bits8 (Z.lxor a b) = Z.lxor (crc_bits8 a) (crc_bits8 b).
Proof. unfold crc_bits8. simpl. by rewrite !crc_bit_lxor. Qed.

(** The register after a block, from two different starts, differs by what a
    block of zeros of the same length makes of the difference. *)
Lemma crc_run_lxor s d l :
  crc_run (Z.lxor s d) l = Z.lxor (crc_run s l) (crc_run d (replicate (length l) 0)).
Proof.
  revert s d. induction l as [|b l IH]; intros s d; [done|]. cbn [crc_run foldl length replicate].
  unfold crc_run in *. rewrite <- IH. f_equal. unfold crc_byte.
  rewrite Z.land_0_l, Z.lxor_0_r, <- crc_bits8_lxor. f_equal.
  rewrite !Z.lxor_assoc. f_equal. apply Z.lxor_comm.
Qed.

Lemma crc32_app a b b' :
  length b = length b' -> crc32 b = crc32 b' -> crc32 (a ++ b) = crc32 (a ++ b').
Proof.
  unfold crc32. intros Hl E. f_equal. unfold crc_run. rewrite !foldl_app. fold (crc_run u32_max a).
  set (s := crc_run u32_max a).
  assert (E' : crc_run u32_max b = crc_run u32_max b').
  { rewrite <- (Z.lxor_0_r (crc_run u32_max b)), <- (Z.lxor_0_r (crc_run u32_max b')).
    rewrite <- (Z.lxor_nilpotent u32_max), <- !Z.lxor_assoc. by rewrite E. }
  assert (Es : s = Z.lxor u32_max (Z.lxor u32_max s)).
  { by rewrite <- Z.lxor_assoc, Z.lxor_nilpotent, Z.lxor_0_l. }
  rewrite Es. fold (crc_run (Z.lxor u32_max (Z.lxor u32_max s)) b).
  fold (crc_run (Z.lxor u32_max (Z.lxor u32_max s)) b'). by rewrite !crc_run_lxor, E', Hl.
Qed.

#[export] Instance crc32_Crc : Crc := {| hash := crc32; hash_u32 := crc32_u32 |}.
#[export] Instance crc32_CrcCombine : CrcCombine := {| hash_app := crc32_app |}.

(** ** A serializer by enumeration

    A countable value is written as the bits of its number, eight to a byte. *)

Fixpoint bits_of (p : positive) : list bool :=
  match p with
  | xH => [true]
  | xO p => false :: bits_of p
  | xI p => true :: bits_of p
  end.

Fixpoint of_bits (l : list bool) : option positive :=
  match l with
  | [] => None
  | b :: t => match of_bits t with
              | Some p => Some (if b then xI p else xO p)
              | None => if b then Some xH else None
              end
  end.

Definition pack8 (a b c d e f g h : bool) : Z :=
  Z.b2z a + 2 * (Z.b2z b + 2 * (Z.b2z c + 2 * (Z.b2z d + 2 * (Z.b2z e + 2 * (Z.b2z f + 2 * (Z.b2z g + 2 * Z.b2z h)))))).
Definition unpack8 (z : Z) : list bool := map (Z.testbit z) [0; 1; 2; 3; 4; 5; 6; 7].

Fixpoint pack (l : list bool) : bytes :=
  match l with
  | [] => []
  | a :: b :: c :: d :: e :: f :: g :: h :: t => pack8 a b c d e f g h :: pack t
  | a :: b :: c :: d :: e :: f :: g :: _ => [pack8 a b c d e f g false]
  | a :: b :: c :: d :: e :: f :: _ => [pack8 a b c d e f false false]
  | a :: b :: c :: d :: e :: _ => [pack8 a b c d e false false false]
  | a :: b :: c :: d :: _ => [pack8 a b c d false false false false]
  | a :: b :: c :: _ => [pack8 a b c false false false false false]
  | a :: b :: _ => [pack8 a b false false false false false false]
  | a :: _ => [pack8 a false false false false false false false]
  end.

Lemma unpack_pack8 a b c d e f g h : unpack8 (pack8 a b c d e f g h) = [a; b; c; d; e; f; g; h].
Proof. by destruct a, b, c, d, e, f, g, h. Qed.
Lemma pack8_byte a b c d e f g h : 0 <= pack8 a b c d e f g h < 256.
Proof. by destruct a, b, c, d, e, f, g, h. Qed.

(** Packing adds zeros at the end, which do not count. *)
Lemma unpack_pack_below n l : (length l < n)%nat -> exists k, concat (map unpack8 (pack l)) = l ++ replicate k false.
Proof.
  revert l. induction n as [|n IH]; intros l Hl; [lia|].
  destruct l as [|a [|b [|c [|d [|e [|f [|g [|h t]]]]]]]]; cbn [pack map concat]; rewrite ?unpack_pack8, ?app_nil_r.
  all: try (by exists 0%nat); try (by exists 1%nat); try (by exists 2%nat); try (by exists 3%nat);
    try (by exists 4%nat); try (by exists 5%nat); try (by exists 6%nat); try (by exists 7%nat).
  destruct (IH t) as [k ->]; [cbn in Hl; lia|]. by exists k.
Qed.

Lemma pack_bytes_below n l : (length l < n)%nat -> is_bytes (pack l).
Proof.
  revert l. induction n as [|n IH]; intros l Hl; [lia|].
  destruct l as [|a [|b [|c [|d [|e [|f [|g [|h t]]]]]]]]; cbn [pack]; repeat constructor; try apply pack8_byte.
  apply IH. cbn in Hl. lia.
Qed.

Lemma of_bits_zeros k : of_bits (replicate k false) = None.
Proof. induction k as [|k IH]; cbn; by rewrite ?IH. Qed.
Lemma of_bits_of p k : of_bits (bits_of p ++ replicate k false) = Some p.
Proof. induction p as [p IH|p IH|]; cbn; by rewrite ?IH, ?of_bits_zeros. Qed.

Definition countable_postcard (T : Type) `{Countable T} : Postcard T := {|
  to_stdvec x := Some (pack (bits_of (encode x)));
  from_bytes b := p ← of_bits (concat (map unpack8 b)); decode p;
|}.

Lemma countable_laws (T : Type) `{Countable T} (typed : T -> Prop) :
  @PostcardLaws T (countable_postcard T) typed.
Proof.
  constructor.
  - intros x b [= <-]. exact (pack_bytes_below _ _ (Nat.lt_succ_diag_r _)).
  - intros x b _ [= <-]. cbn [from_bytes countable_postcard].
    destruct (unpack_pack_below _ (bits_of (encode x)) (Nat.lt_succ_diag_r _)) as [k ->].
    rewrite of_bits_of. cbn. apply decode_encode.
Qed.

(** Records as tuples of their fields. *)
#[export] Instance PropertyValue_countable : Countable PropertyValue.
Proof.
  apply (inj_countable'
    (fun v => match v with
              | PvNull => inl tt
              | PvBool b => inr (inl b)
              | PvInteger z => inr (inr (inl z))
              | PvFloat x => inr (inr (inr (inl (x : Z))))
              | PvText s => inr (inr (inr (inr s)))
              end)
    (fun t => match t with
              | inl _ => PvNull
              | inr (inl b) => PvBool b
              | inr (inr (inl z)) => PvInteger z
              | inr (inr (inr (inl x))) => PvFloat x
              | inr (inr (inr (inr s))) => PvText s
              end)).
  by intros [].
Defined.

#[export] Instance Entity_eq_dec : EqDecision Entity.
Proof. solve_decision. Defined.
#[export] Instance Entity_countable : Countable Entity.
Proof.
  apply (inj_countable'
    (fun e => (entity_id e, entity_kind e, entity_name e, entity_parent e, entity_valid_from e,
               entity_valid_to e, entity_properties e))
    (fun '(a, b, c, d, e, f, g) => mkEntity a b c d e f g)). by intros [].
Defined.

#[export] Instance Relation_eq_dec : EqDecision Relation.
Proof. solve_decision. Defined.
#[export] Instance Relation_countable : Countable Relation.
Proof.
  apply (inj_countable'
    (fun e => (relation_id e, relation_kind e, relation_source e, relation_target e,
               relation_valid_from e, relation_valid_to e, relation_properties e))
    (fun '(a, b, c, d, e, f, g) => mkRelation a b c d e f g)). by intros [].
Defined.

#[export] Instance SeriesSemantics_countable : Countable SeriesSemantics.
Proof.
  apply (inj_countable
    (fun s => match s with Gauge => 0 | IntervalTotal => 1 | Counter => 2 | State => 3 | Event => 4 end)
    (fun z => match z with 0 => Some Gauge | 1 => Some IntervalTotal | 2 => Some Counter
                      | 3 => Some State | 4 => Some Event | _ => None end)). by intros [].
Defined.

#[export] Instance CalendarUnit_countable : Countable CalendarUnit.
Proof.
  apply (inj_countable (fun s => match s with Day => 0 | Month => 1 | Year => 2 end)
    (fun z => match z with 0 => Some Day | 1 => Some Month | 2 => Some Year | _ => None end)).
  by intros [].
Defined.

#[export] Instance RollupTier_countable : Countable RollupTier.
Proof.
  apply (inj_countable'
    (fun t => (match tier_resolution t with FixedMicros m => inl m | Calendar u z => inr (u, z) end,
               tier_retain_for_micros t))
    (fun '(r, k) => mkTier (match r with inl m => FixedMicros m | inr (u, z) => Calendar u z end) k)).
  by intros [[]].
Defined.

#[export] Instance SeriesDefinition_countable : Countable SeriesDefinition.
Proof.
  apply (inj_countable'
    (fun s => (series_id s, series_owner_entity s, series_owner_relation s, series_name s,
               series_physical_quantity s, series_canonical_unit s, series_semantics s,
               series_maximum_gap_micros s,
               (policy_raw_retain_for_micros (series_rollup_policy s), policy_tiers (series_rollup_policy s))))
    (fun '(a, b, c, d, e, f, g, h, (i, j)) => mkSeries a b c d e f g h (mkPolicy i j))).
  by intros [????????[]].
Defined.

#[export] Instance RunKind_countable : Countable RunKind.
Proof.
  apply (inj_countable
    (fun s => match s with Forecast => 0 | Optimization => 1 | Import => 2 | Control => 3
                      | Reconciliation => 4 end)
    (fun z => match z with 0 => Some Forecast | 1 => Some Optimization | 2 => Some Import
                      | 3 => Some Control | 4 => Some Reconciliation | _ => None end)). by intros [].
Defined.

#[export] Instance RunStatus_countable : Countable RunStatus.
Proof.
  apply (inj_countable
    (fun s => match s with Pending => 0 | Running => 1 | Succeeded => 2 | Failed => 3 | RunCancelled => 4 end)
    (fun z => match z with 0 => Some Pending | 1 => Some Running | 2 => Some Succeeded
                      | 3 => Some Failed | 4 => Some RunCancelled | _ => None end)). by intros [].
Defined.

#[export] Instance Run_eq_dec : EqDecision Run.
Proof. solve_decision. Defined.
#[export] Instance Run_countable : Countable Run.
Proof.
  apply (inj_countable'
    (fun r => (run_id r, run_kind r, run_status r, run_created_at r, run_knowledge_time r,
               run_workflow r, run_model r, run_model_version r, run_parent_run r,
               run_input_snapshot r, run_attributes r))
    (fun '(a, b, c, d, e, f, g, h, i, j, k) => mkRun a b c d e f g h i j k)). by intros [].
Defined.

#[export] Instance PlanStatus_countable : Countable PlanStatus.
Proof.
  apply (inj_countable
    (fun s => match s with Model.Candidate => 0 | Approved => 1 | Deployed => 2 | Superseded => 3
                      | PlanCancelled => 4 end)
    (fun z => match z with 0 => Some Model.Candidate | 1 => Some Approved | 2 => Some Deployed
                      | 3 => Some Superseded | 4 => Some PlanCancelled | _ => None end)). by intros [].
Defined.

#[export] Instance Plan_eq_dec : EqDecision Plan.
Proof. unfold EqDecision, Decision. decide equality; apply decide; try apply _; solve_decision. Defined.
#[export] Instance Plan_countable : Countable Plan.
Proof.
  apply (inj_countable'
    (fun p => (plan_id p, plan_run_id p, plan_status p, plan_horizon_start p, plan_horizon_end p,
               plan_resolution_micros p, plan_scenario p,
               (plan_objective_terms p : gmap (list Z) Z), (plan_objective_value p : option Z),
               plan_supersedes p, plan_attributes p))
    (fun '(a, b, c, d, e, f, g, h, i, j, k) => mkPlan a b c d e f g h i j k)). by intros [].
Defined.

#[export] Instance CompactIdentified_eq_dec : EqDecision CompactIdentifiedReceipt.
Proof. solve_decision. Defined.
#[export] Instance CompactIdentified_countable : Countable CompactIdentifiedReceipt.
Proof.
  apply (inj_countable'
    (fun r => (cid_commit_id r, cid_payload_len r, cid_payload_crc32 r, cid_points r, cid_records r,
               cid_payload r))
    (fun '(a, b, c, d, e, f) => mkCompactIdentified a b c d e f)). by intros [].
Defined.

#[export] Instance CompactIngress_eq_dec : EqDecision CompactIngressReceipt.
Proof. solve_decision. Defined.
#[export] Instance CompactIngress_countable : Countable CompactIngressReceipt.
Proof.
  apply (inj_countable'
    (fun r => (cin_source_id r, cin_sequence r, cin_commit_id r, cin_canonical_payload_len r,
               cin_canonical_payload_crc32 r, cin_points r, cin_records r, cin_canonical_payload r,
               cin_frame_offset r, cin_bytes_written r))
    (fun '(a, b, c, d, e, f, g, h, i, j) => mkCompactIngress a b c d e f g h i j)). by intros [].
Defined.

#[export] Instance CompactIdentityIndex_eq_dec : EqDecision CompactIdentityIndex.
Proof. solve_decision. Defined.
#[export] Instance CompactIdentityIndex_countable : Countable CompactIdentityIndex.
Proof.
  apply (inj_countable' (fun i => (identified i, ingress i)) (fun '(a, b) => mkIdentityIndex a b)).
  by intros [].
Defined.

#[export] Instance enum_RecordCodec : RecordCodec := {|
  codec_entity := countable_postcard Entity;
  codec_relation := countable_postcard Relation;
  codec_series := countable_postcard SeriesDefinition;
  codec_run := countable_postcard Run;
  codec_plan := countable_postcard Plan;
|}.
#[export] Instance enum_RecordCodecLaws : RecordCodecLaws.
Proof. constructor; apply countable_laws. Qed.

#[export] Instance enum_IndexCodec : IndexCodec := {|
  codec_index := countable_postcard CompactIdentityIndex;
  legacy_from_bytes _ := None;
|}.
#[export] Instance enum_IndexCodecLaws : IndexCodecLaws.
Proof. constructor; apply countable_laws. Qed.

(** ** A calendar with UTC days, a live index in key order, segments in memory *)

Definition day_micros : Z := 86400000000.

(** The range of the calendar library, in microseconds. *)
Definition zoned_range (t : Z) : option Z :=
  if (-377705023201000000 <=? t) && (t <=? 253402207200999999) then Some t else None.

#[export] Instance utc_days : TimeZones := {|
  tz_exists name := bool_decide (name = str "UTC");
  Zoned := Z;
  in_tz t name := if bool_decide (name = str "UTC") then zoned_range t else None;
  start_of_day z := zoned_range (z / day_micros * day_micros);
  first_of_month z := None;
  first_of_year z := None;
  checked_add_one unit z := match unit with Day => zoned_range (z + day_micros) | _ => None end;
  zoned_micros z := z;
|}.

Lemma zoned_range_Some t z : zoned_range t = Some z -> z = t /\ -377705023201000000 <= t <= 253402207200999999.
Proof. unfold zoned_range. destruct (_ && _) eqn:E; [|done]. intros [= <-]. zbool. lia. Qed.
Lemma zoned_range_in t : -377705023201000000 <= t <= 253402207200999999 -> zoned_range t = Some t.
Proof. intros Ht. unfold zoned_range. by rewrite (proj2 (Z.leb_le _ _)), (proj2 (Z.leb_le _ _)) by lia. Qed.

(** Its days are regular. *)
#[export] Instance utc_day_zone : CalendarZone Day (str "UTC").
Proof.
  assert (Hd : forall z, z / day_micros * day_micros <= z < (z / day_micros + 1) * day_micros).
  { intros z. pose proof (Z.div_mod z day_micros ltac:(done)). pose proof (Z.mod_pos_bound z day_micros ltac:(done)). lia. }
  refine {| local z := -377705023201000000 <= z <= 253402207200999999; day_of z := z / day_micros; midnight d := d * day_micros;
            first_day d := d; next_day d := d + 1 |}; cbn; try done.
  - intros t z Ht. destruct (bool_decide _); [|done]. apply zoned_range_Some in Ht as [-> Ht]. done.
  - intros z Hz. unfold is_i64. lia.
  - intros a b t Ha Hb Ht. rewrite bool_decide_true by done. exists t. apply zoned_range_in. lia.
  - intros z s _ [-> Hs]%zoned_range_Some. done.
  - intros z z' _ _ ->. done.
  - intros d. lia.
  - intros d d' Hd'. lia.
  - intros d. unfold day_micros. lia.
  - intros z _. unfold hour_micros, day_micros. lia.
  - intros d s e _ -> [-> He]%zoned_range_Some. split; [done|]. lia.
Defined.

#[export] Instance key_order : MapOrder :=
  {| index_values m := (map_to_list m).*2; index_values_perm m := reflexivity _ |}.

#[export] Instance memory_segment : SegmentOps (list Point) := {|
  seg_overlaps g s start stop := existsb (in_window s start stop) g;
  seg_query g s start stop := Ok (List.filter (in_window s start stop) g);
  seg_series_point_count g s := len (List.filter (fun p => series p =? s) g);
  seg_series_bounds g s :=
    match List.filter (fun p => series p =? s) g with
    | [] => None
    | p :: l => Some (foldr (fun q m => Z.min (valid_time q) m) (valid_time p) l,
                      foldr (fun q m => Z.max (valid_time q) m) (valid_time p) l)
    end;
  seg_series_ids g := map series g;
|}.

#[export] Instance memory_segment_spec : SegmentSpec (list Point).
Proof.
  refine {| seg_points g := g; seg_intact _ := True |}; [done|].
  intros g s start stop _. simpl. induction g as [|p g IH]; simpl; [done|].
  destruct (in_window s start stop p); [done|]. by apply IH.
Defined.

(** ** A compressor

    The stream is the number of zero bytes dropped at the end, at most 254,
    and what comes before them. *)

Fixpoint leading_zeros (bound : nat) (l : bytes) : nat :=
  match bound, l with
  | S bound, b :: t => if b =? 0 then S (leading_zeros bound t) else O
  | _, _ => O
  end.

Definition zero_stream (x : bytes) : bytes :=
  let k := leading_zeros 254 (rev x) in Z.of_nat k :: take (length x - k) x.

Definition zero_decompress (s : bytes) (n : Z) : option bytes :=
  match s with
  | [] => None
  | k :: t => let x := t ++ replicate (Z.to_nat k) 0 in if len x =? n then Some x else None
  end.

Lemma leading_zeros_spec bound : forall l,
  (leading_zeros bound l <= bound)%nat /\ (leading_zeros bound l <= length l)%nat
  /\ take (leading_zeros bound l) l = replicate (leading_zeros bound l) 0.
Proof.
  induction bound as [|n IH]; intros l; [cbn; split; [lia|]; split; [lia|done]|]. destruct l as [|b t]; cbn [leading_zeros length].
  - cbn. split; [lia|]. by split; [lia|].
  - destruct (Z.eqb_spec b 0) as [->|]; [|cbn; split; [lia|]; by split; [lia|]].
    destruct (IH t) as (H1 & H2 & H3). split; [lia|]. split; [lia|]. cbn. by rewrite H3.
Qed.

Lemma zero_split x (k := leading_zeros 254 (rev x)) : x = take (length x - k) x ++ replicate k 0.
Proof.
  destruct (leading_zeros_spec 254 (rev x)) as (_ & H2 & H3). fold k in H2, H3. rewrite length_rev in H2.
  rewrite <- (take_drop (length x - k) x) at 1. f_equal.
  rewrite firstn_rev in H3. apply (f_equal (@rev Z)) in H3. rewrite rev_involutive in H3. rewrite H3.
  rewrite rev_alt. apply reverse_replicate.
Qed.

#[export] Instance zero_Lz4 : Lz4 := {|
  compress_prepend_size x := to_le 4 (len x) ++ zero_stream x;
  lz4_decompress := zero_decompress;
|}.
#[export] Instance zero_Lz4Laws : Lz4Laws.
Proof.
  refine {| lz4_stream := zero_stream |}; [done|..]; intros x; pose proof (zero_split x) as Hx; cbv zeta in Hx;
    destruct (leading_zeros_spec 254 (rev x)) as (H1 & H2 & _); unfold zero_stream; cbv zeta; set (k := leading_zeros 254 (rev x)) in *.
  - cbn [lz4_decompress zero_Lz4 zero_decompress]. rewrite Nat2Z.id, <- Hx. by rewrite Z.eqb_refl.
  - apply (f_equal length) in Hx. rewrite length_app, length_replicate in Hx. unfold zlen. cbn [length]. lia.
Defined.

(** ** Manifests *)

#[export] Instance RollupDescriptor_eq_dec : EqDecision RollupDescriptor.
Proof. solve_decision. Defined.
#[export] Instance RollupDescriptor_countable : Countable RollupDescriptor.
Proof.
  apply (inj_countable
    (fun r => [rd_file r; [rd_series r; rd_start r; rd_end r; rd_source_commit r; rd_source_points r; Z.b2z (rd_active r)];
               match rd_resolution r with
               | FixedMicros m => [m]
               | Calendar u z => 0 :: match u with Day => 0 | Month => 1 | Year => 2 end :: z
               end])
    (fun l => match l with
              | [file; [s; a; b; c; n; act]; res] =>
                  let mk res := Some (mkRollupDescriptor file s res a b c n (act =? 1)) in
                  match res with
                  | [m] => mk (FixedMicros m)
                  | _ :: u :: z => mk (Calendar (if u =? 0 then Day else if u =? 1 then Month else Year) z)
                  | _ => None
                  end
              | _ => None
              end)).
  by intros [? ? [|[]] ? ? ? ? []].
Defined.

#[export] Instance RawSegmentDescriptor_eq_dec : EqDecision RawSegmentDescriptor.
Proof. solve_decision. Defined.
#[export] Instance RawSegmentDescriptor_countable : Countable RawSegmentDescriptor.
Proof.
  apply (inj_countable
    (fun r => [sd_file r; [sd_generation r; sd_points r; sd_source_commit r; sd_source_points r; sd_min_valid_time r;
               sd_max_valid_time r; sd_content_crc32 r]])
    (fun l => match l with
              | [file; [b; c; d; e; f; g; h]] => Some (mkRawDescriptor file b c d e f g h)
              | _ => None
              end)). by intros [].
Defined.

#[export] Instance Manifest_eq_dec : EqDecision Manifest.
Proof. solve_decision. Defined.
#[export] Instance Manifest_countable : Countable Manifest.
Proof.
  apply (inj_countable' (fun m => (generation m, rollups m, segments m)) (fun '(a, b, c) => mkManifest a b c)).
  by intros [].
Defined.

#[export] Instance enum_ManifestCodec : ManifestCodec := {|
  codec_manifest := countable_postcard Manifest;
  v1_from_bytes _ := None;
  v2_from_bytes _ := None;
|}.
#[export] Instance enum_ManifestCodecLaws : ManifestCodecLaws.
Proof. constructor. apply countable_laws. Qed.

#[export] Instance listed_in_key_order : ReadDir :=
  {| read_dir m := map_to_list m; read_dir_perm m := reflexivity _ |}.

(** The rollup cache is visited in key order. *)
#[export] Instance cached_in_key_order : CacheOrder :=
  {| cache_keys m := (map_to_list m).*1; cache_keys_perm m := Permutation_refl _ |}.
