(* ===== verification/Demo.v ===== *)
(** * Demo: a small database, for the examples of the properties

    One source commits an entity, a series and points, flushes, commits more
    points and appends a batch; every handle on the way is reachable. *)
From S2P Require Import Prelude Errors Bytes Float64 Model Transaction Catalog Query Codec Effects Scan Database Refine Durable Recovery Retry Instances.

Definition demo_config : Config := mkConfig Manual 16 65536.

Definition closed_db : Database (list Point) :=
  mkDb _ (mkFile [] 0 []) demo_config true LogState_empty [] 0 ∅ 0 TailNone 0 true None.

Definition opened_db (x : option File * Result (Database (list Point))) : Database (list Point) :=
  match x.2 with Ok d => d | Err _ => closed_db end.

Definition demo_open : Database (list Point) := opened_db (open_mode LockAcquired demo_config false ∅ None).

Definition demo_entity : Entity := mkEntity 5 (str "site") (str "A") None 0 None ∅.
Definition demo_series : SeriesDefinition :=
  mkSeries 1 (Some 5) None (str "p") (str "power") (str "W") Gauge None (mkPolicy None []).
(** One and two, as IEEE bit patterns. *)
Definition one64 : f64 := 4607182418800017408.
Definition two64 : f64 := 4611686018427387904.
Definition demo_points : list Point := [Point_actual 1 10 one64; Point_actual 1 20 two64].

Definition demo_tx : Transaction :=
  append_points demo_points (define_series demo_series (upsert_entity demo_entity Transaction_new)).
Definition demo_tx2 : Transaction := append_points [Point_actual 1 15 0] Transaction_new.

Definition demo_id : IngressIdentity := mkIdentity 7 1 99.
Definition demo_id2 : IngressIdentity := mkIdentity 7 2 100.

Definition demo_1 := (commit_ingress demo_id demo_tx demo_open).1.
Definition demo_2 := (flush demo_1).1.
Definition demo_3 := (commit_ingress demo_id2 demo_tx2 demo_2).1.
Definition demo_4 := (append [Point_actual 1 5 0] demo_3).1.

Ltac typed_tac :=
  repeat first
    [ done | split | constructor
    | progress (unfold typed_transaction, typed_identity, typed_record, typed_entity, typed_series, typed_point,
        typed_string, typed_properties, typed_opt, is_u64, is_u128, is_i64, is_u32, is_f64 in *; cbn) | lia ].

Lemma demo_tx_typed : typed_transaction demo_tx.
Proof. typed_tac. Qed.
Lemma demo_tx2_typed : typed_transaction demo_tx2.
Proof. typed_tac. Qed.
Lemma demo_id_typed : typed_identity demo_id.
Proof. typed_tac. Qed.
Lemma demo_id2_typed : typed_identity demo_id2.
Proof. typed_tac. Qed.

Lemma demo_open_reachable : reachable ∅ demo_config demo_open.
Proof.
  apply (reach_open _ _ None (Some (file demo_open))); [done|].
  vm_compute. reflexivity.
Qed.
Lemma demo_1_reachable : reachable ∅ demo_config demo_1.
Proof.
  eapply reach_call; [apply demo_open_reachable|].
  eapply call_commit_ingress; [apply demo_tx_typed|apply demo_id_typed|]. apply surjective_pairing.
Qed.
Lemma demo_2_reachable : reachable ∅ demo_config demo_2.
Proof. eapply reach_call; [apply demo_1_reachable|]. eapply call_flush. apply surjective_pairing. Qed.
Lemma demo_3_reachable : reachable ∅ demo_config demo_3.
Proof.
  eapply reach_call; [apply demo_2_reachable|].
  eapply call_commit_ingress; [apply demo_tx2_typed|apply demo_id2_typed|]. apply surjective_pairing.
Qed.
Lemma demo_4_reachable : reachable ∅ demo_config demo_4.
Proof.
  eapply reach_call; [apply demo_3_reachable|]. eapply call_append; [|apply surjective_pairing]. typed_tac.
Qed.

(** The run is what it seems. *)
Example demo_4_watermarks : ingress_watermarks 7 demo_4 = mkWatermarks (Some 2) (Some 1).
Proof. vm_compute. reflexivity. Qed.
Example demo_4_index : map valid_time (series_points (index (state demo_4)) 1) = [5; 10; 15; 20].
Proof. vm_compute. reflexivity. Qed.
