(* ===== verification/StoreDemo.v ===== *)
(** * StoreDemo: a small store, for the examples of the properties

    A gauge series with a maximum gap of one hundred microseconds and buckets
    of seven gets one sample, is maintained, and then gets the next sample. *)
From S2P Require Import Prelude Errors Bytes Float64 Model Transaction Catalog Query Aggregate Rollup Codec Effects.
From S2P Require Import Segment RollupSegment Directory Manifest Planner Scan Database Store Instances Demo.

Definition empty_dir : Dir := mkDir (mkDirState ∅ [∅] ∅ 0) [] [].
Definition empty_disk : StoreFiles := mkStoreFiles None empty_dir empty_dir empty_dir.
Definition quiet_env : ReclaimEnv := mkReclaimEnv [] LockAcquired None None.
Definition no_store : Store :=
  mkStore empty_dir empty_dir empty_dir (mkDb _ (mkFile [] 0 []) demo_config true LogState_empty [] 0 ∅ 0 TailNone 0 true None)
    Manifest_default ∅ true true 0 ∅ None.
Definition opened_store (x : StoreFiles * Result Store) : Store := match x.2 with Ok s => s | Err _ => no_store end.

Definition demo_suffix (target : rstring) : rstring := str "1-1".
Definition demo_nonce (ordinal : Z) : rstring := str "1".

Definition demo_gauge : SeriesDefinition :=
  mkSeries 1 (Some 5) None (str "p") (str "power") (str "W") Gauge (Some 100) (mkPolicy None [mkTier (FixedMicros 7) None]).
Definition demo_store_tx : Transaction :=
  append_points [Point_actual 1 5 one64] (define_series demo_gauge (upsert_entity demo_entity Transaction_new)).

Definition store_0 : Store := opened_store (Store_open_with demo_suffix LockAcquired demo_config quiet_env empty_disk).
Definition store_1 : Store := (Store_commit demo_suffix demo_store_tx store_0).1.
Definition store_2 : Store := (maintain demo_suffix demo_nonce 8 store_1).1.
Definition store_3 : Store := (Store_append demo_suffix [Point_actual 1 9 two64] store_2).1.

(** The next sample after a long gap. *)
Definition store_late : Store := (Store_append demo_suffix [Point_actual 1 200 two64] store_2).1.

(** Two samples that the maximum gap joins, and the series redefined with a
    smaller one. *)
Definition store_joined : Store :=
  (maintain demo_suffix demo_nonce 8 (Store_append demo_suffix [Point_actual 1 1 one64] store_1).1).1.
Definition narrow_gauge : SeriesDefinition :=
  mkSeries 1 (Some 5) None (str "p") (str "power") (str "W") Gauge (Some 2) (mkPolicy None [mkTier (FixedMicros 7) None]).
Definition store_narrow : Store := (Store_commit demo_suffix (define_series narrow_gauge Transaction_new) store_joined).1.

(** A series with calendar days, and its sample. *)
Definition daily : RollupResolution := Calendar Day (str "UTC").
Definition daily_gauge : SeriesDefinition :=
  mkSeries 1 (Some 5) None (str "p") (str "power") (str "W") Gauge (Some 100) (mkPolicy None [mkTier daily None]).
Definition store_daily : Store :=
  (Store_commit demo_suffix
     (append_points [Point_actual 1 5 one64] (define_series daily_gauge (upsert_entity demo_entity Transaction_new))) store_0).1.
