(* ===== verification/Runtime.v ===== *)
(** * Runtime: the single-writer queue of [src/src/shadow_runtime.rs]

    Producers put writes and flushes into a bounded channel; one worker owns
    the storage and answers the commands in queue order.

    Every atomic action of a thread (a section under a mutex, a channel
    operation, a storage call) is a function on the system state, and [step]
    lets any thread take its next action.  The producers are serialised by the
    send gate, so that at most one of them is inside a call. *)
From S2P Require Import Prelude Errors Bytes Model Transaction Query Codec Effects Scan Database.

Record ShadowStorageLimits := mkLimits { max_store_bytes : Z; minimum_free_bytes : Z }.

Record ShadowRuntimeConfig := mkRuntimeConfig {
  queue_capacity : Z;
  max_queued_points : Z;
  maintenance_interval : option Z;
  seal_log_bytes_threshold : option Z;
  storage_limits : option ShadowStorageLimits;
}.

Definition ShadowRuntimeConfig_default : ShadowRuntimeConfig := mkRuntimeConfig 64 1048576 None None None.

Record ShadowWrite := mkWrite { write_identity : IngressIdentity; write_transaction : Transaction }.

(** [ShadowWrite::identified] and [from_identified]. *)
Definition identified_write (i : IngressIdentity) (t : Transaction) : ShadowWrite :=
  mkWrite i (with_ingress_identity i t).
Definition from_identified (t : Transaction) : Transaction + ShadowWrite :=
  match tx_ingress_identity t with None => inl t | Some i => inr (mkWrite i t) end.

Record ShadowAck := mkShadowAck {
  sa_identity : IngressIdentity;
  sa_accepted_through : option Z;
  sa_durable_through : option Z;
  sa_commit : Commit;
}.

(** The text of an error or of a panic. *)
Inductive Cause := CauseError (e : Error) | CausePanic (message : string).

Inductive ShadowWriteFailure :=
  | WriteRejected (e : Error)
  | WriteWriter (e : Error)
  | WritePoisoned (cause : Cause)
  | WriteWriterPanicked (cause : Cause)
  | WriteWorkerStopped.

Record ShadowFlushAck := mkFlushAck {
  fa_source_id : Z;
  fa_through_sequence : Z;
  fa_accepted_through : option Z;
  fa_durable_through : option Z;
}.

Inductive ShadowFlushFailure :=
  | FlushNotAccepted (source through : Z) (accepted : option Z)
  | FlushRejected (e : Error)
  | FlushWriter (e : Error)
  | FlushPoisoned (cause : Cause)
  | FlushWriterPanicked (cause : Cause)
  | FlushWorkerStopped.

Inductive SubmitError :=
  | SubmitOverloaded (w : ShadowWrite)
  | SubmitPointBudgetExhausted (w : ShadowWrite)
  | SubmitDeadlineExceeded (w : ShadowWrite)
  | SubmitClosed (w : ShadowWrite)
  | SubmitPoisoned (w : ShadowWrite) (cause : option Cause).

Inductive FlushSubmitError :=
  | FlushSubmitOverloaded
  | FlushSubmitDeadlineExceeded
  | FlushSubmitClosed
  | FlushSubmitPoisoned (cause : option Cause).

Inductive RuntimeState := StRunning | StPoisoned | StClosing | StClosed.
#[export] Instance RuntimeState_eq_dec : EqDecision RuntimeState.
Proof. solve_decision. Defined.

Record StoreOpsSnapshot := mkSnapshot {
  so_bytes : Z;
  so_points : Z;
  so_commits : Z;
  so_recovered_tail_bytes : Z;
  so_durability : Durability;
  so_last_ack_durable : bool;
}.

Definition StoreOpsSnapshot_default : StoreOpsSnapshot := mkSnapshot 0 0 0 0 Always false.
Definition set_last_ack_durable (b : bool) (s : StoreOpsSnapshot) : StoreOpsSnapshot :=
  mkSnapshot (so_bytes s) (so_points s) (so_commits s) (so_recovered_tail_bytes s) (so_durability s) b.

Record HealthState := mkHealthState {
  hs_state : RuntimeState;
  hs_accepted : Z;
  hs_acknowledged : Z;
  hs_failed : Z;
  hs_source_watermarks : gmap Z IngressWatermarks;
  hs_last_error : option Cause;
  hs_resource_limit : option string;
  hs_store : StoreOpsSnapshot;
}.

Definition set_runtime_state (v : RuntimeState) (h : HealthState) : HealthState :=
  mkHealthState v (hs_accepted h) (hs_acknowledged h) (hs_failed h) (hs_source_watermarks h) (hs_last_error h)
    (hs_resource_limit h) (hs_store h).
Definition add_accepted (n : Z) (h : HealthState) : HealthState :=
  mkHealthState (hs_state h) (hs_accepted h + n) (hs_acknowledged h) (hs_failed h) (hs_source_watermarks h)
    (hs_last_error h) (hs_resource_limit h) (hs_store h).
Definition add_acknowledged (h : HealthState) : HealthState :=
  mkHealthState (hs_state h) (hs_accepted h) (hs_acknowledged h + 1) (hs_failed h) (hs_source_watermarks h)
    (hs_last_error h) (hs_resource_limit h) (hs_store h).
Definition add_failed (h : HealthState) : HealthState :=
  mkHealthState (hs_state h) (hs_accepted h) (hs_acknowledged h) (hs_failed h + 1) (hs_source_watermarks h)
    (hs_last_error h) (hs_resource_limit h) (hs_store h).
Definition set_watermarks (m : gmap Z IngressWatermarks) (h : HealthState) : HealthState :=
  mkHealthState (hs_state h) (hs_accepted h) (hs_acknowledged h) (hs_failed h) m (hs_last_error h)
    (hs_resource_limit h) (hs_store h).
Definition set_last_error (c : option Cause) (h : HealthState) : HealthState :=
  mkHealthState (hs_state h) (hs_accepted h) (hs_acknowledged h) (hs_failed h) (hs_source_watermarks h) c
    (hs_resource_limit h) (hs_store h).
Definition set_resource_limit (r : option string) (h : HealthState) : HealthState :=
  mkHealthState (hs_state h) (hs_accepted h) (hs_acknowledged h) (hs_failed h) (hs_source_watermarks h)
    (hs_last_error h) r (hs_store h).
Definition set_store (s : StoreOpsSnapshot) (h : HealthState) : HealthState :=
  mkHealthState (hs_state h) (hs_accepted h) (hs_acknowledged h) (hs_failed h) (hs_source_watermarks h)
    (hs_last_error h) (hs_resource_limit h) s.

(** ** Queue usage *)

Record QueueUsage := mkUsage { queued : Z; queued_points : Z }.
Definition QueueUsage_default : QueueUsage := mkUsage 0 0.

Inductive QueueReservationError := Entries | Points.

(** [QueueUsage::reserve]. *)
Definition reserve (u : QueueUsage) (capacity max_points points : Z) : QueueReservationError + QueueUsage :=
  if usize_max <? queued u + 1 then inl Entries
  else if capacity <? queued u + 1 then inl Entries
  else if usize_max <? queued_points u + points then inl Points
  else if max_points <? queued_points u + points then inl Points
  else inr (mkUsage (queued u + 1) (queued_points u + points)).

(** [QueueUsage::release]. *)
Definition release (u : QueueUsage) (points : Z) : QueueUsage :=
  mkUsage (Z.max 0 (queued u - 1)) (Z.max 0 (queued_points u - points)).

(** ** The storage behind the worker *)

(** [trait WriterBackend].  A panic is the error [Panic]. *)
Class WriterBackend (B : Type) := {
  b_commit_ingress : IngressIdentity -> Transaction -> ST B Commit;
  b_ingress_watermarks : Z -> B -> IngressWatermarks;
  b_all_ingress_watermarks : B -> gmap Z IngressWatermarks;
  b_flush : ST B unit;
  b_close : ST B (gmap Z IngressWatermarks);
  b_background_maintenance : Z -> ShadowRuntimeConfig -> ST B unit;
  b_store_snapshot : ST B StoreOpsSnapshot;
}.

(** [impl WriterBackend for Database]. *)
#[export] Instance database_backend `{Crc} `{RecordCodec} `{IndexCodec} `{TimeZones} {Seg} `{SegmentOps Seg} :
    WriterBackend (Database Seg) := {|
  b_commit_ingress := commit_ingress;
  b_ingress_watermarks := ingress_watermarks;
  b_all_ingress_watermarks d := list_to_map (all_ingress_watermarks d);
  b_flush := flush;
  b_close := flush ;* (let* d := st_get in st_ret (list_to_map (all_ingress_watermarks d)));
  b_background_maintenance _ _ := st_ret tt;
  b_store_snapshot :=
    let* s := stats in
    let* d := st_get in
    st_ret (mkSnapshot (st_file_bytes s) (st_points s) (st_commits s) (st_recovered_tail_bytes s)
              (durability (config d)) false);
|}.

(** ** The worker *)

Inductive WorkerPoison := PoisonError (c : Cause) | PoisonPanic (c : Cause).

(** What the worker thread works on: the storage, the shared health, its poison
    and the time of its last maintenance. *)
Record Work {B : Type} := mkWork {
  wk_backend : B;
  wk_health : HealthState;
  wk_poison : option WorkerPoison;
  wk_last_maintenance : option Z;
}.
Arguments Work : clear implicits.

Section Worker.
Context {B : Type} `{WriterBackend B}.
Abbreviation W := (Work B).

Definition set_backend (b : B) (w : W) : W := mkWork _ b (wk_health w) (wk_poison w) (wk_last_maintenance w).
Definition on_health (f : HealthState -> HealthState) (w : W) : W :=
  mkWork _ (wk_backend w) (f (wk_health w)) (wk_poison w) (wk_last_maintenance w).
Definition set_poison (p : WorkerPoison) (w : W) : W :=
  mkWork _ (wk_backend w) (wk_health w) (Some p) (wk_last_maintenance w).
Definition set_last_maintenance (t : Z) (w : W) : W :=
  mkWork _ (wk_backend w) (wk_health w) (wk_poison w) (Some t).

Definition writer_error_requires_poison (e : Error) : bool :=
  match e with
  | Io _ | InvalidHeader | UnsupportedVersion _ | Corruption _ _ | Poisoned | SnapshotPublication _ => true
  | _ => false
  end.

(** [std::panic::catch_unwind]. *)
Definition catch_unwind {A} (r : Result A) : string + Result A :=
  match r with Err (Panic m) => inl m | _ => inr r end.

Definition observe_source (source : Z) (w : W) : W * IngressWatermarks :=
  let marks := b_ingress_watermarks source (wk_backend w) in
  (on_health (fun h => set_watermarks (<[source := marks]> (hs_source_watermarks h)) h) w, marks).

Definition refresh_store_snapshot (last_ack_durable : bool) (w : W) : W :=
  let '(b, r) := b_store_snapshot (wk_backend w) in
  let w := set_backend b w in
  match r with
  | Ok snapshot => on_health (set_store (set_last_ack_durable last_ack_durable snapshot)) w
  | Err _ => on_health (fun h => set_store (set_last_ack_durable last_ack_durable (hs_store h)) h) w
  end.

(** The writer failed for good: [cause] poisons it and is shown. *)
Definition poison_with (p : WorkerPoison) (cause : Cause) (count_failure : bool) (w : W) : W :=
  on_health (fun h => set_last_error (Some cause)
                        ((if count_failure then add_failed else id) (set_runtime_state StPoisoned h)))
    (set_poison p w).

(** [maybe_run_background_maintenance]; [now] and [now_micros] are the clocks.
    The source does not catch a panic here, which ends the thread: [false]. *)
Definition maybe_run_background_maintenance (config : ShadowRuntimeConfig) (now now_micros : Z) (w : W) : W * bool :=
  match maintenance_interval config with
  | None => (w, true)
  | Some interval =>
      if is_some_and (wk_last_maintenance w) (fun previous => now - previous <? interval) then (w, true)
      else
        let '(b, r) := b_background_maintenance now_micros config (wk_backend w) in
        let w := set_backend b w in
        match r with
        | Ok _ => (set_last_maintenance now w, true)
        | Err (Panic _) => (w, false)
        | Err e =>
            if writer_error_requires_poison e then (poison_with (PoisonError (CauseError e)) (CauseError e) false w, true)
            else (set_last_maintenance now w, true)
        end
  end.

Definition process_write (write : ShadowWrite) (w : W) : W * (ShadowWriteFailure + ShadowAck) :=
  match wk_poison w with
  | Some p =>
      (on_health add_failed w,
       inl (match p with PoisonError c => WritePoisoned c | PoisonPanic c => WriteWriterPanicked c end))
  | None =>
      let identity := write_identity write in
      let '(b, r) := b_commit_ingress identity (write_transaction write) (wk_backend w) in
      let w := set_backend b w in
      match catch_unwind r with
      | inr (Ok commit) =>
          let '(w, marks) := observe_source (source_id identity) w in
          let w := refresh_store_snapshot (cm_durable commit) w in
          let w := on_health (fun h => (if cm_deduplicated commit then id else set_resource_limit None)
                                         (add_acknowledged h)) w in
          (w, inr (mkShadowAck identity (accepted_through marks) (durable_through marks) commit))
      | inr (Err e) =>
          let '(w, _) := observe_source (source_id identity) w in
          if negb (writer_error_requires_poison e) then
            (on_health (fun h =>
               let h := add_failed h in
               match e with ResourceLimit reason => set_resource_limit (Some reason) h | _ => h end) w,
             inl (WriteRejected e))
          else (poison_with (PoisonError (CauseError e)) (CauseError e) true w, inl (WriteWriter e))
      | inl m =>
          (poison_with (PoisonPanic (CausePanic m)) (CausePanic m) true w, inl (WriteWriterPanicked (CausePanic m)))
      end
  end.

Definition process_flush (source through : Z) (w : W) : W * (ShadowFlushFailure + ShadowFlushAck) :=
  match wk_poison w with
  | Some p =>
      (on_health add_failed w,
       inl (match p with PoisonError c => FlushPoisoned c | PoisonPanic c => FlushWriterPanicked c end))
  | None =>
      let '(w, before) := observe_source source w in
      if is_none_or (accepted_through before) (fun accepted => accepted <? through) then
        (on_health add_failed w, inl (FlushNotAccepted source through (accepted_through before)))
      else
        let '(b, r) := b_flush (wk_backend w) in
        let w := set_backend b w in
        match catch_unwind r with
        | inr (Ok _) =>
            let sources := btree_keys (hs_source_watermarks (wk_health w)) in
            let w := foldl (fun w s => (observe_source s w).1) w sources in
            let marks := b_ingress_watermarks source (wk_backend w) in
            let w := refresh_store_snapshot true w in
            (w, inr (mkFlushAck source through (accepted_through marks) (durable_through marks)))
        | inr (Err e) =>
            if negb (writer_error_requires_poison e) then (on_health add_failed w, inl (FlushRejected e))
            else (poison_with (PoisonError (CauseError e)) (CauseError e) true w, inl (FlushWriter e))
        | inl m =>
            (poison_with (PoisonPanic (CausePanic m)) (CausePanic m) true w, inl (FlushWriterPanicked (CausePanic m)))
        end
  end.

(** The health a [ShutdownReport] shows is the one at the end. *)
Inductive ShutdownError :=
  | ShutWriterPoisoned (c : Cause)
  | ShutClose (e : Error)
  | ShutWriterPanicked (c : Cause).

Definition close_worker (w : W) : W * (ShutdownError + unit) :=
  match wk_poison w with
  | Some p =>
      (on_health (set_runtime_state StClosed) w,
       inl (match p with PoisonError c => ShutWriterPoisoned c | PoisonPanic c => ShutWriterPanicked c end))
  | None =>
      let '(b, r) := b_close (wk_backend w) in
      let w := set_backend b w in
      match catch_unwind r with
      | inr (Ok marks) => (on_health (fun h => set_runtime_state StClosed (set_watermarks marks h)) w, inr tt)
      | inr (Err e) =>
          (on_health (fun h => set_last_error (Some (CauseError e)) (add_failed (set_runtime_state StClosed h))) w,
           inl (ShutClose e))
      | inl m =>
          (on_health (fun h => set_last_error (Some (CausePanic m)) (add_failed (set_runtime_state StClosed h))) w,
           inl (ShutWriterPanicked (CausePanic m)))
      end
  end.

End Worker.

(** ** Commands and threads *)

(** The reply channel of a command is known by its ticket. *)
Inductive Command :=
  | CmdWrite (write : ShadowWrite) (ticket : nat)
  | CmdFlush (source through : Z) (ticket : nat)
  | CmdShutdown (ticket : nat).

Inductive Reply :=
  | ReplyWrite (r : ShadowWriteFailure + ShadowAck)
  | ReplyFlush (r : ShadowFlushFailure + ShadowFlushAck)
  | ReplyShutdown (r : ShutdownError + unit).

Definition ticket_of (c : Command) : nat :=
  match c with CmdWrite _ t => t | CmdFlush _ _ t => t | CmdShutdown t => t end.
Definition write_points (w : ShadowWrite) : Z := point_count (write_transaction w).
Definition cmd_points (c : Command) : Z := match c with CmdWrite w _ => write_points w | _ => 0 end.
Definition is_shutdown (c : Command) : bool := match c with CmdShutdown _ => true | _ => false end.

(** The producer that holds the send gate, and where it is. *)
Inductive Producer :=
  | GateFree
  | SubmitChecking (write : ShadowWrite)
  | SubmitReserving (write : ShadowWrite)
  | SubmitCounting (write : ShadowWrite)
  | SubmitSending (write : ShadowWrite)
  | FlushChecking (source through : Z)
  | FlushReserving (source through : Z)
  | FlushSending (source through : Z)
  | ShutdownSending.

Inductive WorkerAt :=
  | Receiving
  | Received (c : Command)
  | Released (c : Command)
  | Served (c : Command) (r : Reply)
  | Stopped
  | Crashed (c : Command).

(** What a producer's call returned. *)
Inductive Outcome :=
  | Submitted (ticket : nat) (identity : IngressIdentity)
  | NotSubmitted (e : SubmitError)
  | FlushSubmitted (ticket : nat)
  | FlushNotSubmitted (e : FlushSubmitError)
  | ShutdownSent (ticket : nat)
  | ShutdownNotSent.

(** The whole runtime.  [sys_sent] and [sys_replies] keep the history of the
    channel and of the reply channels, newest first. *)
Record Sys {B : Type} := mkSys {
  sys_work : Work B;
  sys_usage : QueueUsage;
  sys_chan : list Command;
  sys_gate : Producer;
  sys_worker : WorkerAt;
  sys_join_taken : bool;
  sys_senders : bool;
  sys_tickets : nat;
  sys_sent : list Command;
  sys_replies : list (nat * Reply);
  sys_outcomes : list Outcome;
}.
Arguments Sys : clear implicits.

Section System.
Context {B : Type} `{WriterBackend B} (config : ShadowRuntimeConfig).
Abbreviation S := (Sys B).

Definition set_work (v : Work B) (s : S) : S :=
  mkSys _ v (sys_usage s) (sys_chan s) (sys_gate s) (sys_worker s) (sys_join_taken s) (sys_senders s) (sys_tickets s)
    (sys_sent s) (sys_replies s) (sys_outcomes s).
Definition set_usage (v : QueueUsage) (s : S) : S :=
  mkSys _ (sys_work s) v (sys_chan s) (sys_gate s) (sys_worker s) (sys_join_taken s) (sys_senders s) (sys_tickets s)
    (sys_sent s) (sys_replies s) (sys_outcomes s).
Definition set_gate (v : Producer) (s : S) : S :=
  mkSys _ (sys_work s) (sys_usage s) (sys_chan s) v (sys_worker s) (sys_join_taken s) (sys_senders s) (sys_tickets s)
    (sys_sent s) (sys_replies s) (sys_outcomes s).
Definition set_chan (v : list Command) (s : S) : S :=
  mkSys _ (sys_work s) (sys_usage s) v (sys_gate s) (sys_worker s) (sys_join_taken s) (sys_senders s) (sys_tickets s)
    (sys_sent s) (sys_replies s) (sys_outcomes s).
Definition set_worker (v : WorkerAt) (s : S) : S :=
  mkSys _ (sys_work s) (sys_usage s) (sys_chan s) (sys_gate s) v (sys_join_taken s) (sys_senders s) (sys_tickets s)
    (sys_sent s) (sys_replies s) (sys_outcomes s).
Definition set_join_taken (s : S) : S :=
  mkSys _ (sys_work s) (sys_usage s) (sys_chan s) (sys_gate s) (sys_worker s) true (sys_senders s) (sys_tickets s)
    (sys_sent s) (sys_replies s) (sys_outcomes s).
Definition set_senders (v : bool) (s : S) : S :=
  mkSys _ (sys_work s) (sys_usage s) (sys_chan s) (sys_gate s) (sys_worker s) (sys_join_taken s) v (sys_tickets s)
    (sys_sent s) (sys_replies s) (sys_outcomes s).
Definition add_reply (t : nat) (r : Reply) (s : S) : S :=
  mkSys _ (sys_work s) (sys_usage s) (sys_chan s) (sys_gate s) (sys_worker s) (sys_join_taken s) (sys_senders s)
    (sys_tickets s) (sys_sent s) ((t, r) :: sys_replies s) (sys_outcomes s).

Definition sys_health (s : S) : HealthState := wk_health (sys_work s).

(** The call ends: the gate is released. *)
Definition finish_call (o : Outcome) (s : S) : S :=
  mkSys _ (sys_work s) (sys_usage s) (sys_chan s) GateFree (sys_worker s) (sys_join_taken s) (sys_senders s)
    (sys_tickets s) (sys_sent s) (sys_replies s) (o :: sys_outcomes s).

(** A call that finds the gate taken returns at once. *)
Definition busy (o : Outcome) (s : S) : S :=
  mkSys _ (sys_work s) (sys_usage s) (sys_chan s) (sys_gate s) (sys_worker s) (sys_join_taken s) (sys_senders s)
    (sys_tickets s) (sys_sent s) (sys_replies s) (o :: sys_outcomes s).

(** A command enters the channel. *)
Definition push (c : Command) (s : S) : S :=
  mkSys _ (sys_work s) (sys_usage s) (sys_chan s ++ [c]) (sys_gate s) (sys_worker s) (sys_join_taken s) (sys_senders s)
    (Datatypes.S (sys_tickets s)) (c :: sys_sent s) (sys_replies s) (sys_outcomes s).

Definition receiver_alive (s : S) : bool := match sys_worker s with Stopped | Crashed _ => false | _ => true end.
Definition channel_full (s : S) : bool := queue_capacity config <=? len (sys_chan s).

(** ** [try_submit_inner], one action at a time *)

Definition submit_check (write : ShadowWrite) (s : S) : S :=
  match hs_state (sys_health s) with
  | StRunning => set_gate (SubmitReserving write) s
  | StPoisoned => finish_call (NotSubmitted (SubmitPoisoned write (hs_last_error (sys_health s)))) s
  | StClosing | StClosed => finish_call (NotSubmitted (SubmitClosed write)) s
  end.

Definition submit_reserve (write : ShadowWrite) (s : S) : S :=
  match reserve (sys_usage s) (queue_capacity config) (max_queued_points config) (write_points write) with
  | inr u => set_gate (SubmitCounting write) (set_usage u s)
  | inl Entries => finish_call (NotSubmitted (SubmitOverloaded write)) s
  | inl Points => finish_call (NotSubmitted (SubmitPointBudgetExhausted write)) s
  end.

Definition submit_count (write : ShadowWrite) (s : S) : S :=
  set_gate (SubmitSending write) (set_work (on_health (add_accepted 1) (sys_work s)) s).

Definition submit_send (write : ShadowWrite) (s : S) : S :=
  let undo s := set_work (on_health (add_accepted (-1)) (sys_work s))
                  (set_usage (release (sys_usage s) (write_points write)) s) in
  if negb (receiver_alive s) then finish_call (NotSubmitted (SubmitClosed write)) (undo s)
  else if channel_full s then finish_call (NotSubmitted (SubmitOverloaded write)) (undo s)
  else finish_call (Submitted (sys_tickets s) (write_identity write)) (push (CmdWrite write (sys_tickets s)) s).

(** ** [try_flush] *)

Definition flush_check (source through : Z) (s : S) : S :=
  match hs_state (sys_health s) with
  | StRunning => set_gate (FlushReserving source through) s
  | StPoisoned => finish_call (FlushNotSubmitted (FlushSubmitPoisoned (hs_last_error (sys_health s)))) s
  | StClosing | StClosed => finish_call (FlushNotSubmitted FlushSubmitClosed) s
  end.

Definition flush_reserve (source through : Z) (s : S) : S :=
  match reserve (sys_usage s) (queue_capacity config) (max_queued_points config) 0 with
  | inr u => set_gate (FlushSending source through) (set_usage u s)
  | inl _ => finish_call (FlushNotSubmitted FlushSubmitOverloaded) s
  end.

Definition flush_send (source through : Z) (s : S) : S :=
  let undo s := set_usage (release (sys_usage s) 0) s in
  if negb (receiver_alive s) then finish_call (FlushNotSubmitted FlushSubmitClosed) (undo s)
  else if channel_full s then finish_call (FlushNotSubmitted FlushSubmitOverloaded) (undo s)
  else finish_call (FlushSubmitted (sys_tickets s)) (push (CmdFlush source through (sys_tickets s)) s).

(** ** [shutdown_inner]: the section under the gate *)

Definition shutdown_begin (s : S) : S :=
  let closing h := if bool_decide (hs_state h = StRunning) then set_runtime_state StClosing h else h in
  set_gate ShutdownSending (set_work (on_health closing (sys_work s)) (set_join_taken s)).

(** [sender.send] waits while the channel is full. *)
Definition shutdown_send (s : S) : S :=
  if negb (receiver_alive s) then finish_call ShutdownNotSent s
  else finish_call (ShutdownSent (sys_tickets s)) (push (CmdShutdown (sys_tickets s)) s).

(** The next action of the producer inside the gate, and the calls without
    interruption. *)
Definition producer_turn (s : S) : S :=
  match sys_gate s with
  | GateFree => s
  | SubmitChecking w => submit_check w s
  | SubmitReserving w => submit_reserve w s
  | SubmitCounting w => submit_count w s
  | SubmitSending w => submit_send w s
  | FlushChecking src n => flush_check src n s
  | FlushReserving src n => flush_reserve src n s
  | FlushSending src n => flush_send src n s
  | ShutdownSending => if channel_full s && receiver_alive s then s else shutdown_send s
  end.

Definition try_submit (w : ShadowWrite) (s : S) : S := Nat.iter 4 producer_turn (set_gate (SubmitChecking w) s).
Definition try_flush (src n : Z) (s : S) : S := Nat.iter 3 producer_turn (set_gate (FlushChecking src n) s).
Definition shutdown (s : S) : S := producer_turn (shutdown_begin s).

(** ** [worker_loop], one action at a time *)

Definition worker_receive (s : S) : S :=
  match sys_chan s with
  | c :: rest => set_worker (match c with CmdShutdown _ => Released c | _ => Received c end) (set_chan rest s)
  | [] => s
  end.

(** [receiver.recv()] fails: every sender is gone and the channel is empty. *)
Definition worker_disconnected (s : S) : S :=
  set_worker Stopped (set_work (on_health (set_runtime_state StClosed) (sys_work s)) s).

Definition worker_release (c : Command) (s : S) : S :=
  set_worker (Released c) (set_usage (release (sys_usage s) (cmd_points c)) s).

(** The body of the loop for one command; [now] and [now_micros] are the clocks. *)
Definition serve (now now_micros : Z) (c : Command) (w : Work B) : Work B * option Reply :=
  match c with
  | CmdWrite write _ =>
      let '(w, r) := process_write write w in
      match r with
      | inr _ =>
          let '(w, alive) := maybe_run_background_maintenance config now now_micros w in
          (w, if alive then Some (ReplyWrite r) else None)
      | inl _ => (w, Some (ReplyWrite r))
      end
  | CmdFlush source through _ => let '(w, r) := process_flush source through w in (w, Some (ReplyFlush r))
  | CmdShutdown _ => let '(w, r) := close_worker w in (w, Some (ReplyShutdown r))
  end.

Definition worker_serve (now now_micros : Z) (c : Command) (s : S) : S :=
  let '(w, r) := serve now now_micros c (sys_work s) in
  set_worker (match r with Some r => Served c r | None => Crashed c end) (set_work w s).

Definition worker_reply (c : Command) (r : Reply) (s : S) : S :=
  set_worker (if is_shutdown c then Stopped else Receiving) (add_reply (ticket_of c) r s).

(** ** Start *)

Inductive ShadowStartError := ZeroQueueCapacity | ReadOnlyBackend | InvalidStorageLimits | SpawnFailed (kind : string).

Definition start_backend (spawn : option string) (b : B) : ShadowStartError + S :=
  if queue_capacity config =? 0 then inl ZeroQueueCapacity
  else
    let marks := b_all_ingress_watermarks b in
    let '(b, snapshot) := b_store_snapshot b in
    let store := match snapshot with Ok v => v | Err _ => StoreOpsSnapshot_default end in
    match spawn with
    | Some kind => inl (SpawnFailed kind)
    | None =>
        inr (mkSys _ (mkWork _ b (mkHealthState StRunning 0 0 0 marks None None store) None None)
               QueueUsage_default [] GateFree Receiving false true 0 [] [] [])
    end.

(** ** Interleavings *)

Inductive step : S -> S -> Prop :=
  (* a producer takes the gate, or finds it taken *)
  | step_submit s w : sys_senders s = true -> sys_gate s = GateFree -> step s (set_gate (SubmitChecking w) s)
  | step_flush s src n : sys_senders s = true -> sys_gate s = GateFree -> step s (set_gate (FlushChecking src n) s)
  | step_shutdown s : sys_senders s = true -> sys_gate s = GateFree -> sys_join_taken s = false -> step s (shutdown_begin s)
  | step_submit_busy s w : sys_gate s <> GateFree -> step s (busy (NotSubmitted (SubmitOverloaded w)) s)
  | step_flush_busy s : sys_gate s <> GateFree -> step s (busy (FlushNotSubmitted FlushSubmitOverloaded) s)
  (* the producer inside the gate goes on *)
  | step_submit_check s w : sys_gate s = SubmitChecking w -> step s (submit_check w s)
  | step_submit_reserve s w : sys_gate s = SubmitReserving w -> step s (submit_reserve w s)
  | step_submit_count s w : sys_gate s = SubmitCounting w -> step s (submit_count w s)
  | step_submit_send s w : sys_gate s = SubmitSending w -> step s (submit_send w s)
  | step_flush_check s src n : sys_gate s = FlushChecking src n -> step s (flush_check src n s)
  | step_flush_reserve s src n : sys_gate s = FlushReserving src n -> step s (flush_reserve src n s)
  | step_flush_send s src n : sys_gate s = FlushSending src n -> step s (flush_send src n s)
  | step_shutdown_send s :
      sys_gate s = ShutdownSending -> channel_full s = false \/ receiver_alive s = false -> step s (shutdown_send s)
  (* the last submitter is dropped *)
  | step_hang_up s : sys_gate s = GateFree -> step s (set_senders false s)
  (* the worker goes on *)
  | step_receive s : sys_worker s = Receiving -> sys_chan s <> [] -> step s (worker_receive s)
  | step_disconnected s :
      sys_worker s = Receiving -> sys_chan s = [] -> sys_senders s = false -> step s (worker_disconnected s)
  | step_release s c : sys_worker s = Received c -> step s (worker_release c s)
  | step_serve s c now now_micros : sys_worker s = Released c -> step s (worker_serve now now_micros c s)
  | step_reply s c r : sys_worker s = Served c r -> step s (worker_reply c r s).

Inductive runs (s0 : S) : S -> Prop :=
  | runs_start : runs s0 s0
  | runs_step s s' : runs s0 s -> step s s' -> runs s0 s'.

End System.

(** [ShadowRuntime::start_database]. *)
Definition start_database `{Crc} `{RecordCodec} `{IndexCodec} `{TimeZones} {Seg} `{SegmentOps Seg}
    (config : ShadowRuntimeConfig) (spawn : option string) (d : Database Seg) : ShadowStartError + Sys (Database Seg) :=
  if read_only d then inl ReadOnlyBackend
  else if is_some (storage_limits config) then inl InvalidStorageLimits
  else start_backend config spawn d.
