(* ===== verification/RuntimeInv.v ===== *)
(** * RuntimeInv: what the shadow runtime guarantees

    Invariants of every interleaving: the queue stays within its limits, every
    command is answered once and in order, the storage is what a sequential
    execution of the commands makes of it, and the worker alone answers all. *)
From S2P Require Import Prelude Errors Bytes Model Transaction Query Codec Effects Scan Database Runtime.

Section Invariants.
Context {B : Type} `{WriterBackend B} (config : ShadowRuntimeConfig).
Abbreviation S := (Sys B).

(** ** Queue usage *)

Definition gate_slots (p : Producer) : Z :=
  match p with SubmitCounting _ | SubmitSending _ | FlushSending _ _ => 1 | _ => 0 end.
Definition gate_points (p : Producer) : Z :=
  match p with SubmitCounting w | SubmitSending w => write_points w | _ => 0 end.
Definition worker_slots (w : WorkerAt) : Z := match w with Received _ => 1 | _ => 0 end.
Definition worker_points (w : WorkerAt) : Z := match w with Received c => cmd_points c | _ => 0 end.

Definition slots (l : list Command) : Z := len (List.filter (fun c => negb (is_shutdown c)) l).
Definition chan_points (l : list Command) : Z := foldr (fun c n => cmd_points c + n) 0 l.

#[local] Arguments slots : simpl never.
#[local] Arguments chan_points : simpl never.

Lemma slots_app a b : slots (a ++ b) = slots a + slots b.
Proof. unfold slots. by rewrite List.filter_app, zlen_app. Qed.
Lemma slots_cons c l : slots (c :: l) = (if is_shutdown c then 0 else 1) + slots l.
Proof. unfold slots, zlen. cbn. destruct (is_shutdown c); cbn [negb length]; lia. Qed.
Lemma chan_points_cons c l : chan_points (c :: l) = cmd_points c + chan_points l.
Proof. done. Qed.
Lemma slots_nonneg l : 0 <= slots l.
Proof. apply zlen_nonneg. Qed.
Lemma chan_points_app a b : chan_points (a ++ b) = chan_points a + chan_points b.
Proof. unfold chan_points. induction a as [|c a IH]; [done|]. cbn [app foldr]. rewrite IH. lia. Qed.

Lemma write_points_nonneg w : 0 <= write_points w.
Proof. unfold write_points, point_count. rewrite records_point_count_len. apply zlen_nonneg. Qed.
Lemma cmd_points_nonneg c : 0 <= cmd_points c.
Proof. destruct c; cbn; [apply write_points_nonneg|lia|lia]. Qed.
Lemma chan_points_nonneg l : 0 <= chan_points l.
Proof. unfold chan_points. induction l as [|c l IH]; cbn; [lia|]. pose proof (cmd_points_nonneg c). lia. Qed.
Lemma gate_points_nonneg p : 0 <= gate_points p.
Proof. destruct p; cbn; try lia; apply write_points_nonneg. Qed.
Lemma worker_points_nonneg w : 0 <= worker_points w.
Proof. destruct w; cbn; try lia. apply cmd_points_nonneg. Qed.

(** A command the worker has in hand. *)
Definition held (w : WorkerAt) : list Command :=
  match w with Received c | Released c | Served c _ | Crashed c => [c] | Receiving | Stopped => [] end.

(** The producer passed the check of the state. *)
Definition past_check (p : Producer) : bool :=
  match p with
  | SubmitReserving _ | SubmitCounting _ | SubmitSending _ | FlushReserving _ _ | FlushSending _ _ => true
  | _ => false
  end.

Definition no_shutdown (l : list Command) : Prop := Forall (fun c => is_shutdown c = false) l.

(** A shutdown is the last command of all. *)
Definition shutdown_last (s : S) : Prop :=
  match sys_worker s with
  | Released (CmdShutdown _) | Served (CmdShutdown _) _ | Stopped => sys_chan s = []
  | _ => no_shutdown (sys_chan s) \/ exists pre t, sys_chan s = pre ++ [CmdShutdown t] /\ no_shutdown pre
  end.

Record inv (s : S) : Prop := {
  inv_slots : queued (sys_usage s) = slots (sys_chan s) + gate_slots (sys_gate s) + worker_slots (sys_worker s);
  inv_points : queued_points (sys_usage s)
               = chan_points (sys_chan s) + gate_points (sys_gate s) + worker_points (sys_worker s);
  inv_limit_slots : queued (sys_usage s) <= queue_capacity config;
  inv_limit_points : queued_points (sys_usage s) <= max_queued_points config;
  inv_chan : len (sys_chan s) <= queue_capacity config;
  inv_join : sys_join_taken s = true -> hs_state (sys_health s) <> StRunning /\ past_check (sys_gate s) = false;
  inv_running : sys_join_taken s = false -> no_shutdown (sys_chan s ++ held (sys_worker s)) /\ sys_gate s <> ShutdownSending;
  inv_sending : sys_gate s = ShutdownSending -> no_shutdown (sys_chan s ++ held (sys_worker s));
  inv_last : shutdown_last s;
  inv_received : forall c, sys_worker s = Received c -> is_shutdown c = false;
  inv_tickets : map ticket_of (rev (sys_sent s)) = seq 0 (sys_tickets s);
  inv_order : map ticket_of (rev (sys_sent s))
              = map fst (rev (sys_replies s)) ++ map ticket_of (held (sys_worker s) ++ sys_chan s);
}.

(** ** Serving a command *)

Lemma observe_backend src (w : Work B) :
  wk_backend (observe_source src w).1 = wk_backend w /\ wk_poison (observe_source src w).1 = wk_poison w
  /\ wk_last_maintenance (observe_source src w).1 = wk_last_maintenance w
  /\ hs_state (wk_health (observe_source src w).1) = hs_state (wk_health w).
Proof. done. Qed.

Lemma observe_all_backend l : forall w : Work B,
  let w' := foldl (fun w s => (observe_source s w).1) w l in
  wk_backend w' = wk_backend w /\ wk_poison w' = wk_poison w /\ wk_last_maintenance w' = wk_last_maintenance w
  /\ hs_state (wk_health w') = hs_state (wk_health w).
Proof. induction l as [|x l IH]; intros w; [done|]. exact (IH (observe_source x w).1). Qed.

Lemma refresh_state b (w : Work B) : hs_state (wk_health (refresh_store_snapshot b w)) = hs_state (wk_health w).
Proof. unfold refresh_store_snapshot. destruct (b_store_snapshot _) as [b' [|]]; done. Qed.

(** The state a runtime can move to by serving. *)
Definition later (a b : RuntimeState) : Prop := b = a \/ b = StPoisoned \/ b = StClosed.

Lemma maintenance_state now micros (w : Work B) :
  later (hs_state (wk_health w)) (hs_state (wk_health (maybe_run_background_maintenance config now micros w).1)).
Proof.
  unfold maybe_run_background_maintenance, later. destruct (maintenance_interval config); [|by left].
  destruct (is_some_and _ _); [by left|]. destruct (b_background_maintenance _ _ _) as [b [|e]]; [by left|].
  destruct e; cbn; auto.
Qed.

Lemma process_write_state write (w : Work B) :
  later (hs_state (wk_health w)) (hs_state (wk_health (process_write write w).1)).
Proof.
  unfold process_write, later. destruct (wk_poison w); [by left|]. destruct (b_commit_ingress _ _ _) as [b r].
  destruct (catch_unwind r) as [m|[c|e]]; cbn [fst snd]; [by right; left| |].
  - cbn. destruct (cm_deduplicated c); cbn; rewrite refresh_state; by left.
  - destruct (negb _); cbn; [|by right; left]. left. by destruct e.
Qed.

Lemma process_flush_state src n (w : Work B) :
  later (hs_state (wk_health w)) (hs_state (wk_health (process_flush src n w).1)).
Proof.
  unfold process_flush, later. destruct (wk_poison w); [by left|]. cbn [observe_source].
  destruct (is_none_or _ _); [by left|]. destruct (b_flush _) as [b r].
  destruct (catch_unwind r) as [m|[u|e]]; cbn [fst snd]; [by right; left| |].
  - left. rewrite refresh_state. by rewrite (proj2 (proj2 (proj2 (observe_all_backend _ _)))).
  - destruct (negb _); cbn; [by left|by right; left].
Qed.

Lemma close_state (w : Work B) : hs_state (wk_health (close_worker w).1) = StClosed.
Proof.
  unfold close_worker. destruct (wk_poison w); [done|]. destruct (b_close _) as [b r].
  by destruct (catch_unwind r) as [m|[u|e]].
Qed.

Lemma serve_state now micros c (w : Work B) :
  later (hs_state (wk_health w)) (hs_state (wk_health (serve config now micros c w).1)).
Proof.
  destruct c as [write t|src n t|t]; cbn [serve].
  - pose proof (process_write_state write w) as Hp. destruct (process_write write w) as [w1 [f|a]]; [done|].
    pose proof (maintenance_state now micros w1) as Hm. destruct (maybe_run_background_maintenance _ _ _ _) as [w2 alive].
    cbn in *. unfold later in *. intuition congruence.
  - pose proof (process_flush_state src n w) as Hp. by destruct (process_flush src n w).
  - pose proof (close_state w) as Hc. destruct (close_worker w) as [w1 r]. cbn in *. unfold later. auto.
Qed.

Lemma serve_not_running now micros c (w : Work B) :
  hs_state (wk_health w) <> StRunning -> hs_state (wk_health (serve config now micros c w).1) <> StRunning.
Proof. intros Hs. destruct (serve_state now micros c w) as [->|[->| ->]]; done. Qed.

(** ** Preservation *)

Lemma reserve_Ok u capacity max_points points u' :
  reserve u capacity max_points points = inr u' ->
  queued u' = queued u + 1 /\ queued_points u' = queued_points u + points
  /\ queued u' <= capacity /\ queued_points u' <= max_points.
Proof.
  unfold reserve. intros Hr. destruct (_ <? queued u + 1); [done|]. destruct (capacity <? _) eqn:E1; [done|].
  destruct (_ <? queued_points u + points); [done|]. destruct (max_points <? _) eqn:E2; [done|]. injection Hr as <-.
  zbool. cbn. lia.
Qed.

Lemma inv_start spawn b s : start_backend config spawn b = inr s -> 0 <= queue_capacity config -> 0 <= max_queued_points config -> inv s.
Proof.
  unfold start_backend. destruct (_ =? 0); [done|]. destruct (b_store_snapshot b) as [b' r]. destruct spawn; [done|].
  intros [= <-] Hc Hm. constructor; cbn; try done.
  - split; [constructor|done].
  - left. constructor.
Qed.

Ltac inv_same :=
  try first [ done | lia
            | match goal with X : _ -> _ /\ _ |- _ -> _ => intros Hj; by destruct (X Hj) end
            | match goal with X : shutdown_last _ |- _ => exact X end ].

(** The channel and everything counted in it is as before, or the gate
    reservation turned into a command. *)
Lemma inv_finish (s : S) o :
  inv s -> gate_slots (sys_gate s) = 0 -> gate_points (sys_gate s) = 0 -> inv (finish_call o s).
Proof.
  intros [] Hs Hp. constructor; cbn in *; inv_same.
Qed.

Lemma inv_gate (s : S) p :
  inv s -> gate_slots (sys_gate s) = gate_slots p -> gate_points (sys_gate s) = gate_points p -> p <> ShutdownSending ->
  (past_check p = true -> sys_join_taken s = false) -> inv (set_gate p s).
Proof.
  intros [] Hs Hp Hn Hc. constructor; cbn in *; inv_same.
  intros Hj. destruct (inv_join0 Hj) as [? _]. split; [done|]. destruct (past_check p); [|done].
  by rewrite (Hc eq_refl) in Hj.
Qed.

Lemma inv_undo (s : S) w' p o :
  inv s -> sys_gate s = p -> gate_slots p = 1 -> hs_state (wk_health w') = hs_state (sys_health s) ->
  inv (finish_call o (set_work w' (set_usage (release (sys_usage s) (gate_points p)) s))).
Proof.
  intros [] Hg Hs Hw. pose proof (slots_nonneg (sys_chan s)). pose proof (chan_points_nonneg (sys_chan s)).
  pose proof (gate_points_nonneg p). pose proof (worker_points_nonneg (sys_worker s)).
  assert (0 <= worker_slots (sys_worker s)) by (by destruct (sys_worker s)). rewrite Hg in *.
  constructor; cbn in *; inv_same.
  intros Hj. unfold sys_health. cbn. rewrite Hw. by destruct (inv_join0 Hj).
Qed.

Lemma inv_push (s : S) c o :
  inv s -> past_check (sys_gate s) = true -> is_shutdown c = false -> gate_slots (sys_gate s) = 1 ->
  gate_points (sys_gate s) = cmd_points c -> ticket_of c = sys_tickets s -> channel_full config s = false ->
  receiver_alive s = true -> inv (finish_call o (push c s)).
Proof.
  intros [] Hp Hc Hs Hpt Ht Hf Ha. unfold channel_full in Hf. apply Z.leb_gt in Hf.
  assert (Hj : sys_join_taken s = false).
  { destruct (sys_join_taken s) eqn:E; [|done]. destruct (inv_join0 eq_refl) as [_ Hx]. congruence. }
  destruct (inv_running0 Hj) as [Hn _]. apply Forall_app in Hn as [Hn1 Hn2].
  assert (Hn' : no_shutdown ((sys_chan s ++ [c]) ++ held (sys_worker s))).
  { apply Forall_app. split; [|done]. apply Forall_app. by split; [|constructor]. }
  constructor; cbn in *; try done; rewrite ?slots_app, ?chan_points_app.
  - rewrite slots_cons, Hc. change (slots []) with 0. lia.
  - rewrite chan_points_cons. change (chan_points []) with 0. lia.
  - rewrite zlen_app. change (len [c]) with 1. lia.
  - congruence.
  - unfold shutdown_last. cbn. destruct (sys_worker s) as [|c0|c0|c0 r0| |c0] eqn:Ew; try done; try (left; by apply Forall_app in Hn' as [? _]).
    + destruct c0; [left; by apply Forall_app in Hn' as [? _]..|]. apply Forall_cons in Hn2 as [? _]. done.
    + destruct c0; [left; by apply Forall_app in Hn' as [? _]..|]. apply Forall_cons in Hn2 as [? _]. done.
    + unfold receiver_alive in Ha. by rewrite Ew in Ha.
  - change (map ticket_of (rev (sys_sent s) ++ [c]) = seq 0 (Datatypes.S (sys_tickets s))).
    rewrite map_app, inv_tickets0, seq_S. cbn. by rewrite Ht.
  - rewrite map_app, inv_order0. cbn [map]. rewrite !map_app. cbn [map]. by rewrite !app_assoc.
Qed.

(** A producer with a reservation finds room in the channel. *)
Lemma reserved_has_room (s : S) :
  inv s -> past_check (sys_gate s) = true -> gate_slots (sys_gate s) = 1 -> channel_full config s = false.
Proof.
  intros [] Hp Hs. unfold channel_full. apply Z.leb_gt.
  assert (Hj : sys_join_taken s = false).
  { destruct (sys_join_taken s) eqn:E; [|done]. destruct (inv_join0 eq_refl) as [_ Hx]. congruence. }
  destruct (inv_running0 Hj) as [Hn _]. apply Forall_app in Hn as [Hn _].
  assert (Hl : slots (sys_chan s) = len (sys_chan s)).
  { clear - Hn. induction Hn as [|c l Hc _ IH]; [done|]. rewrite slots_cons, Hc, IH. unfold zlen. cbn [length]. lia. }
  assert (0 <= worker_slots (sys_worker s)) by (by destruct (sys_worker s)). lia.
Qed.

Lemma inv_receive (s : S) : inv s -> sys_worker s = Receiving -> sys_chan s <> [] -> inv (worker_receive s).
Proof.
  intros [] Hw Hne. unfold worker_receive. destruct (sys_chan s) as [|c rest] eqn:Ec; [done|].
  rewrite Hw in *. unfold shutdown_last in inv_last0. rewrite Hw, Ec in inv_last0.
  rewrite slots_cons in *. rewrite chan_points_cons in *. unfold zlen in *. cbn [length held app] in *.
  assert (Hrest : match c with CmdShutdown _ => rest = [] | _ => no_shutdown rest \/ exists pre t, rest = pre ++ [CmdShutdown t] /\ no_shutdown pre end).
  { destruct inv_last0 as [Hn|(pre & t & E & Hn)].
    - apply Forall_cons in Hn as [Hc Hn]. destruct c; [by left..|done].
    - destruct pre as [|c0 pre]; [by injection E as -> ->|]. injection E as <- ->. apply Forall_cons in Hn as [Hc Hn].
      destruct c; [right; eauto..|done]. }
  assert (Hmove : no_shutdown (c :: rest ++ []) -> no_shutdown (rest ++ [c])).
  { rewrite app_nil_r. intros Hn. apply Forall_cons in Hn as [Hc Hn]. apply Forall_app. by split; [|constructor]. }
  destruct c as [w t|src n t|t]; constructor; cbn in *; inv_same;
    try (intros Hj; destruct (inv_running0 Hj) as [Hn Hg]; split; [by apply Hmove|done]);
    try (intros Hg; by apply Hmove, inv_sending0); try (by unfold zlen; lia); try (by intros c [= <-]).
Qed.

Lemma inv_release (s : S) c : inv s -> sys_worker s = Received c -> inv (worker_release c s).
Proof.
  intros [] Hw. rewrite Hw in *. pose proof (slots_nonneg (sys_chan s)). pose proof (chan_points_nonneg (sys_chan s)).
  pose proof (gate_points_nonneg (sys_gate s)). pose proof (cmd_points_nonneg c).
  assert (0 <= gate_slots (sys_gate s)) by (by destruct (sys_gate s)).
  unfold shutdown_last in *. rewrite Hw in *.
  specialize (inv_received0 c eq_refl).
  constructor; cbn in *; inv_same; try lia. unfold shutdown_last. cbn. by destruct c.
Qed.


Lemma inv_serve (s : S) c now micros :
  inv s -> sys_worker s = Released c -> inv (worker_serve config now micros c s).
Proof.
  intros [] Hw. unfold worker_serve. pose proof (serve_not_running now micros c (sys_work s)) as Hs.
  assert (Hc : (serve config now micros c (sys_work s)).2 = None -> is_shutdown c = false).
  { destruct c as [w t|src n t|t]; [done..|]. cbn [serve]. by destruct (close_worker _). }
  destruct (serve config now micros c (sys_work s)) as [w' r]. cbn [fst snd] in *. rewrite Hw in *.
  unfold shutdown_last in inv_last0. rewrite Hw in inv_last0.
  destruct r as [r|]; [|specialize (Hc eq_refl)]; constructor; cbn in *; inv_same;
    try (intros Hj; destruct (inv_join0 Hj) as [? ?]; split; [by apply Hs|done]).
  unfold shutdown_last. cbn. by destruct c.
Qed.

Lemma inv_reply (s : S) c r : inv s -> sys_worker s = Served c r -> inv (worker_reply c r s).
Proof.
  intros [] Hw. rewrite Hw in *. unfold shutdown_last in inv_last0. rewrite Hw in inv_last0.
  assert (Hn : no_shutdown (sys_chan s ++ [c]) -> no_shutdown (sys_chan s ++ held (if is_shutdown c then Stopped else Receiving))).
  { intros Hn. apply Forall_app in Hn as [Hn _]. apply Forall_app. split; [done|]. by destruct (is_shutdown c). }
  constructor; cbn in *; inv_same.
  - destruct (is_shutdown c); cbn; lia.
  - destruct (is_shutdown c); cbn; lia.
  - intros Hj. destruct (inv_running0 Hj) as [? ?]. auto.
  - intros Hg. auto.
  - unfold shutdown_last. cbn. by destruct c.
  - intros c0. by destruct (is_shutdown c).
  - rewrite inv_order0. rewrite map_app. cbn. rewrite <- !app_assoc. cbn. do 2 f_equal. by destruct (is_shutdown c).
Qed.

Lemma inv_disconnected (s : S) : inv s -> sys_worker s = Receiving -> sys_chan s = [] -> inv (worker_disconnected s).
Proof.
  intros [] Hw Hc. rewrite Hw, Hc in *. constructor; cbn in *; rewrite ?Hc; inv_same.
Qed.

Lemma inv_shutdown_begin (s : S) : inv s -> sys_gate s = GateFree -> sys_join_taken s = false -> inv (shutdown_begin s).
Proof.
  intros [] Hg Hj. destruct (inv_running0 Hj) as [Hn _]. rewrite Hg in *. constructor; cbn in *; inv_same.
  - intros _. split; [|done]. unfold sys_health. cbn. destruct (decide (hs_state (wk_health (sys_work s)) = StRunning)) as [E|E].
    + by rewrite bool_decide_true.
    + by rewrite bool_decide_false.
Qed.

Lemma inv_shutdown_send (s : S) :
  inv s -> sys_gate s = ShutdownSending -> channel_full config s = false \/ receiver_alive s = false -> inv (shutdown_send s).
Proof.
  intros Hi Hg Hf. unfold shutdown_send. destruct (receiver_alive s) eqn:Ha; cbn [negb]; [|apply inv_finish; [done|by rewrite Hg..]].
  destruct Hf as [Hf|?]; [|done]. destruct Hi as []. unfold channel_full in Hf. apply Z.leb_gt in Hf. rewrite Hg in *.
  assert (Hj : sys_join_taken s = true).
  { destruct (sys_join_taken s) eqn:E; [done|]. by destruct (inv_running0 eq_refl). }
  specialize (inv_sending0 eq_refl). apply Forall_app in inv_sending0 as [Hn Hh].
  constructor; cbn in *; inv_same; rewrite ?slots_app, ?chan_points_app.
  - change (slots [CmdShutdown (sys_tickets s)]) with 0. lia.
  - change (chan_points [CmdShutdown (sys_tickets s)]) with 0. lia.
  - rewrite zlen_app. change (len [CmdShutdown (sys_tickets s)]) with 1. lia.
  - intros ?. congruence.
  - unfold shutdown_last in *. cbn. unfold receiver_alive in Ha.
    destruct (sys_worker s) as [|c0|c0|c0 r0| |c0]; try done; try (by right; eauto).
    + destruct c0; [by right; eauto..|]. by apply Forall_cons in Hh as [? _].
    + destruct c0; [by right; eauto..|]. by apply Forall_cons in Hh as [? _].
  - change (map ticket_of (rev (sys_sent s) ++ [CmdShutdown (sys_tickets s)]) = seq 0 (Datatypes.S (sys_tickets s))).
    rewrite map_app, inv_tickets0, seq_S. done.
  - rewrite map_app, inv_order0. cbn [map]. rewrite !map_app. cbn [map]. by rewrite !app_assoc.
Qed.


Lemma inv_reserve (s : S) p q points u :
  inv s -> sys_gate s = p -> gate_slots p = 0 -> gate_points p = 0 -> past_check p = true ->
  gate_slots q = 1 -> gate_points q = points -> q <> ShutdownSending ->
  reserve (sys_usage s) (queue_capacity config) (max_queued_points config) points = inr u ->
  inv (set_gate q (set_usage u s)).
Proof.
  intros [] Hg Hs Hp Hpc Hs' Hp' Hq Hr. apply reserve_Ok in Hr as (R1 & R2 & R3 & R4). rewrite Hg in *.
  constructor; cbn in *; inv_same. intros Hj. destruct (inv_join0 Hj) as [_ Hx]. congruence.
Qed.

Lemma inv_work (s : S) w' p :
  inv s -> hs_state (wk_health w') = hs_state (sys_health s) -> gate_slots (sys_gate s) = gate_slots p ->
  gate_points (sys_gate s) = gate_points p -> past_check (sys_gate s) = true -> p <> ShutdownSending ->
  inv (set_gate p (set_work w' s)).
Proof.
  intros [] Hw Hs Hp Hpc Hq. constructor; cbn in *; inv_same. intros Hj. destruct (inv_join0 Hj) as [_ Hx]. congruence.
Qed.

Lemma running_not_joined (s : S) : inv s -> hs_state (sys_health s) = StRunning -> sys_join_taken s = false.
Proof. intros [] Hs. destruct (sys_join_taken s); [|done]. by destruct (inv_join0 eq_refl). Qed.

Lemma step_inv (s s' : S) : step config s s' -> inv s -> inv s'.
Proof.
  intros Hst Hi. destruct Hst as [s w Hsn Hg|s src n Hsn Hg|s Hsn Hg Hj|s w Hg|s Hg|s w Hg|s w Hg|s w Hg|s w Hg|s src n Hg|s src n Hg|s src n Hg
    |s Hg Hf|s Hg|s Hw Hc|s Hw Hc Hsn|s c Hw|s c now micros Hw|s c r Hw].
  - apply inv_gate; rewrite ?Hg; done.
  - apply inv_gate; rewrite ?Hg; done.
  - by apply inv_shutdown_begin.
  - destruct Hi as []. by constructor.
  - destruct Hi as []. by constructor.
  - unfold submit_check. destruct (hs_state (sys_health s)) eqn:E.
    + apply inv_gate; rewrite ?Hg; try done. intros _. by apply running_not_joined.
    + apply inv_finish; by rewrite ?Hg.
    + apply inv_finish; by rewrite ?Hg.
    + apply inv_finish; by rewrite ?Hg.
  - unfold submit_reserve. destruct (reserve _ _ _ _) as [[|]|u] eqn:E; [apply inv_finish; by rewrite ?Hg..|].
    by apply (inv_reserve s (SubmitReserving w) (SubmitCounting w) (write_points w)).
  - unfold submit_count. apply inv_work; by rewrite ?Hg.
  - unfold submit_send. destruct (receiver_alive s) eqn:Ha; cbn [negb].
    2: { exact (inv_undo s (on_health (add_accepted (-1)) (sys_work s)) (SubmitSending w) _ Hi Hg eq_refl eq_refl). }
    rewrite (reserved_has_room s Hi) by (by rewrite Hg). apply inv_push; try (by rewrite ?Hg); try done.
    by rewrite (reserved_has_room s Hi) by (by rewrite Hg).
  - unfold flush_check. destruct (hs_state (sys_health s)) eqn:E.
    + apply inv_gate; rewrite ?Hg; try done. intros _. by apply running_not_joined.
    + apply inv_finish; by rewrite ?Hg.
    + apply inv_finish; by rewrite ?Hg.
    + apply inv_finish; by rewrite ?Hg.
  - unfold flush_reserve. destruct (reserve _ _ _ _) as [[|]|u] eqn:E; [apply inv_finish; by rewrite ?Hg..|].
    by apply (inv_reserve s (FlushReserving src n) (FlushSending src n) 0).
  - unfold flush_send. destruct (receiver_alive s) eqn:Ha; cbn [negb].
    2: { exact (inv_undo s (sys_work s) (FlushSending src n) _ Hi Hg eq_refl eq_refl). }
    rewrite (reserved_has_room s Hi) by (by rewrite Hg). apply inv_push; try (by rewrite ?Hg); try done.
    by rewrite (reserved_has_room s Hi) by (by rewrite Hg).
  - by apply inv_shutdown_send.
  - destruct Hi as []. by constructor.
  - by apply inv_receive.
  - by apply inv_disconnected.
  - by apply inv_release.
  - by apply inv_serve.
  - by apply inv_reply.
Qed.

Lemma runs_inv (s0 s : S) : inv s0 -> runs config s0 s -> inv s.
Proof. intros H0. induction 1 as [|s s' _ IH Hst]; [done|]. by apply (step_inv s). Qed.


(** ** The storage sees one command after another *)

(** What serving a command depends on and changes, apart from the health. *)
Definition core (w : Work B) : B * option WorkerPoison * option Z :=
  (wk_backend w, wk_poison w, wk_last_maintenance w).

Lemma core_eq (w w' : Work B) :
  core w = core w' ->
  wk_backend w = wk_backend w' /\ wk_poison w = wk_poison w' /\ wk_last_maintenance w = wk_last_maintenance w'.
Proof. by intros [= -> -> ->]. Qed.

Lemma refresh_core b (w w' : Work B) :
  core w = core w' -> core (refresh_store_snapshot b w) = core (refresh_store_snapshot b w').
Proof.
  intros (E1 & E2 & E3)%core_eq. unfold refresh_store_snapshot. rewrite E1.
  destruct (b_store_snapshot _) as [b' [|]]; cbn; unfold core; cbn; by rewrite E2, E3.
Qed.

Lemma maintenance_core now micros (w w' : Work B) :
  core w = core w' ->
  core (maybe_run_background_maintenance config now micros w).1
    = core (maybe_run_background_maintenance config now micros w').1
  /\ (maybe_run_background_maintenance config now micros w).2
    = (maybe_run_background_maintenance config now micros w').2.
Proof.
  intros E. pose proof (core_eq _ _ E) as (E1 & E2 & E3). unfold maybe_run_background_maintenance.
  destruct (maintenance_interval config); [|done]. rewrite E3. destruct (is_some_and _ _); [done|]. rewrite E1.
  destruct (b_background_maintenance _ _ _) as [b [u|e]]; [by unfold core; cbn; rewrite E2|].
  destruct e; unfold core; cbn; by rewrite ?E2, ?E3.
Qed.

Lemma process_write_core write (w w' : Work B) :
  core w = core w' ->
  core (process_write write w).1 = core (process_write write w').1 /\ (process_write write w).2 = (process_write write w').2.
Proof.
  intros E. pose proof (core_eq _ _ E) as (E1 & E2 & E3). unfold process_write. rewrite <- E2.
  destruct (wk_poison w) as [p|]; [split; [exact E|done]|].
  pose proof (core_eq _ _ E) as (_ & F2 & _). rewrite <- E1.
  destruct (b_commit_ingress _ _ _) as [b r].
  destruct (catch_unwind r) as [m|[c|e]]; cbn [observe_source fst snd].
  - unfold core. cbn. by rewrite ?E3.
  - split; [|done].
    pose proof (refresh_core (cm_durable c) (observe_source (source_id (write_identity write)) (set_backend b w)).1
      (observe_source (source_id (write_identity write)) (set_backend b w')).1) as Hr.
    unfold core in *. cbn in *. apply Hr. by rewrite ?F2, ?E3.
  - destruct (negb _); unfold core; cbn; by rewrite ?F2, ?E3.
Qed.

Lemma process_flush_core src n (w w' : Work B) :
  core w = core w' ->
  core (process_flush src n w).1 = core (process_flush src n w').1 /\ (process_flush src n w).2 = (process_flush src n w').2.
Proof.
  intros E. pose proof (core_eq _ _ E) as (E1 & E2 & E3). unfold process_flush. rewrite <- E2.
  destruct (wk_poison w) as [p|]; [split; [exact E|done]|].
  pose proof (core_eq _ _ E) as (_ & F2 & _). cbn [observe_source]. rewrite <- E1.
  destruct (is_none_or _ _); [by unfold core; cbn; rewrite E1, F2, E3|]. cbn [on_health wk_backend]. rewrite <- E1.
  destruct (b_flush _) as [b r]. destruct (catch_unwind r) as [m|[u|e]]; cbn [fst snd].
  - unfold core. cbn. by rewrite ?E3.
  - set (x := set_backend b _). set (y := set_backend b (on_health _ w')).
    destruct (observe_all_backend (btree_keys (hs_source_watermarks (wk_health x))) x) as (X1 & X2 & X3 & _).
    destruct (observe_all_backend (btree_keys (hs_source_watermarks (wk_health y))) y) as (Y1 & Y2 & Y3 & _).
    split.
    + apply refresh_core. unfold core. rewrite X1, X2, X3, Y1, Y2, Y3. cbn. by rewrite ?F2, ?E3.
    + rewrite X1, Y1. done.
  - destruct (negb _); unfold core; cbn; by rewrite ?F2, ?E3.
Qed.

Lemma close_core (w w' : Work B) :
  core w = core w' -> core (close_worker w).1 = core (close_worker w').1 /\ (close_worker w).2 = (close_worker w').2.
Proof.
  intros E. pose proof (core_eq _ _ E) as (E1 & E2 & E3). unfold close_worker. rewrite <- E2.
  destruct (wk_poison w) as [p|]; [split; [exact E|done]|].
  pose proof (core_eq _ _ E) as (_ & F2 & _). rewrite <- E1.
  destruct (b_close _) as [b r]. destruct (catch_unwind r) as [m|[u|e]]; unfold core; cbn; by rewrite ?F2, ?E3.
Qed.

Lemma serve_core now micros c (w w' : Work B) :
  core w = core w' ->
  core (serve config now micros c w).1 = core (serve config now micros c w').1
  /\ (serve config now micros c w).2 = (serve config now micros c w').2.
Proof.
  intros E. destruct c as [write t|src n t|t]; cbn [serve].
  - destruct (process_write_core write w w' E) as [Ec Er].
    destruct (process_write write w) as [w1 r1], (process_write write w') as [w1' r1']. cbn [fst snd] in *. subst r1'.
    destruct r1 as [f|a]; [done|]. destruct (maintenance_core now micros w1 w1' Ec) as [Em Ea].
    destruct (maybe_run_background_maintenance _ _ _ w1), (maybe_run_background_maintenance _ _ _ w1'). cbn [fst snd] in *. by subst.
  - destruct (process_flush_core src n w w' E) as [Ec Er].
    destruct (process_flush src n w), (process_flush src n w'). cbn [fst snd] in *. by subst.
  - destruct (close_core w w' E) as [Ec Er]. destruct (close_worker w), (close_worker w'). cbn [fst snd] in *. by subst.
Qed.


(** The commands one after the other, each with the clocks it was served at. *)
Fixpoint serial (w : Work B) (l : list (Z * Z * Command)) : Work B * list (option Reply) :=
  match l with
  | [] => (w, [])
  | (now, micros, c) :: l =>
      let '(w, r) := serve config now micros c w in
      let '(w, rs) := serial w l in (w, r :: rs)
  end.

Lemma serial_snoc l : forall w now micros c,
  serial w (l ++ [(now, micros, c)])
  = ((serve config now micros c (serial w l).1).1, (serial w l).2 ++ [(serve config now micros c (serial w l).1).2]).
Proof.
  induction l as [|[[n m] c0] l IH]; intros w now micros c; cbn [serial app].
  - cbn. by destruct (serve config now micros c w).
  - destruct (serve config n m c0 w) as [w1 r1]. rewrite IH. by destruct (serial w1 l).
Qed.

(** Commands not served yet, and the reply that is not sent yet. *)
Definition unserved (s : S) : list Command :=
  match sys_worker s with Received c | Released c => [c] | _ => [] end ++ sys_chan s.
Definition unsent (w : WorkerAt) : list (option Reply) :=
  match w with Served _ r => [Some r] | Crashed _ => [None] | _ => [] end.

Definition refines (w0 : Work B) (s : S) : Prop :=
  exists l, map snd l ++ unserved s = rev (sys_sent s)
    /\ core (sys_work s) = core (serial w0 l).1
    /\ (serial w0 l).2 = map (fun x => Some x.2) (rev (sys_replies s)) ++ unsent (sys_worker s).

(** Nothing the worker did or will do changes. *)
Lemma refines_same w0 (s s' : S) :
  refines w0 s -> unserved s' = unserved s -> sys_sent s' = sys_sent s -> core (sys_work s') = core (sys_work s) ->
  sys_replies s' = sys_replies s -> unsent (sys_worker s') = unsent (sys_worker s) -> refines w0 s'.
Proof. intros (l & E1 & E2 & E3) Hu Hs Hc Hr Hw. exists l. rewrite Hu, Hs, Hc, Hr, Hw. done. Qed.

Lemma refines_push w0 (s s' : S) c :
  refines w0 s -> unserved s' = unserved s ++ [c] -> sys_sent s' = c :: sys_sent s -> core (sys_work s') = core (sys_work s) ->
  sys_replies s' = sys_replies s -> unsent (sys_worker s') = unsent (sys_worker s) -> refines w0 s'.
Proof.
  intros (l & E1 & E2 & E3) Hu Hs Hc Hr Hw. exists l. rewrite Hu, Hs, Hc, Hr, Hw. cbn [rev].
  by rewrite app_assoc, E1.
Qed.

Lemma step_refines w0 (s s' : S) : step config s s' -> refines w0 s -> refines w0 s'.
Proof.
  intros Hst Hr. destruct Hst as [s w Hsn Hg|s src n Hsn Hg|s Hsn Hg Hj|s w Hg|s Hg|s w Hg|s w Hg|s w Hg|s w Hg|s src n Hg|s src n Hg|s src n Hg
    |s Hg Hf|s Hg|s Hw Hc|s Hw Hc Hsn|s c Hw|s c now micros Hw|s c r Hw].
  1-5, 8, 14: by apply (refines_same w0 s).
  - unfold submit_check. destruct (hs_state _); by apply (refines_same w0 s).
  - unfold submit_reserve. destruct (reserve _ _ _ _) as [[|]|u]; by apply (refines_same w0 s).
  - unfold submit_send. destruct (negb _); [by apply (refines_same w0 s)|]. destruct (channel_full _ _); [by apply (refines_same w0 s)|].
    apply (refines_push w0 s _ (CmdWrite w (sys_tickets s))); try done. unfold unserved. cbn. by rewrite app_assoc.
  - unfold flush_check. destruct (hs_state _); by apply (refines_same w0 s).
  - unfold flush_reserve. destruct (reserve _ _ _ _) as [[|]|u]; by apply (refines_same w0 s).
  - unfold flush_send. destruct (negb _); [by apply (refines_same w0 s)|]. destruct (channel_full _ _); [by apply (refines_same w0 s)|].
    apply (refines_push w0 s _ (CmdFlush src n (sys_tickets s))); try done. unfold unserved. cbn. by rewrite app_assoc.
  - unfold shutdown_send. destruct (negb _); [by apply (refines_same w0 s)|].
    apply (refines_push w0 s _ (CmdShutdown (sys_tickets s))); try done. unfold unserved. cbn. by rewrite app_assoc.
  - apply (refines_same w0 s); try done; unfold worker_receive, unserved; rewrite ?Hw;
      (destruct (sys_chan s) as [|[| |] rest]; [done|..]; cbn; by rewrite ?Hw).
  - apply (refines_same w0 s); try done; unfold unserved; cbn; by rewrite ?Hw.
  - apply (refines_same w0 s); try done; unfold unserved; cbn; by rewrite ?Hw.
  - destruct Hr as (l & E1 & E2 & E3). exists (l ++ [(now, micros, c)]).
    destruct (serve_core now micros c _ _ E2) as [Ec Er]. rewrite serial_snoc. cbn [fst snd].
    unfold worker_serve, unserved in *. rewrite Hw in *. cbn [unsent] in E3. rewrite app_nil_r in E3.
    destruct (serve config now micros c (sys_work s)) as [w' r]. cbn [fst snd] in *. rewrite <- Er, E3, <- Ec.
    split; [|by destruct r]. cbn [sys_sent set_worker set_work]. rewrite map_app, <- app_assoc, <- E1. by destruct r.
  - destruct Hr as (l & E1 & E2 & E3). exists l. unfold unserved in *. rewrite Hw in *. cbn in *.
    split; [by destruct (is_shutdown c)|]. split; [done|]. rewrite E3, map_app. cbn.
    by destruct (is_shutdown c); rewrite <- app_assoc.
Qed.

Lemma runs_refines (s0 s : S) :
  sys_sent s0 = [] -> sys_chan s0 = [] -> sys_worker s0 = Receiving -> sys_replies s0 = [] ->
  runs config s0 s -> refines (sys_work s0) s.
Proof.
  intros E1 E2 E3 E4. induction 1 as [|s s' _ IH Hst]; [|by apply (step_refines _ s)].
  exists []. unfold unserved. by rewrite E1, E2, E3, E4.
Qed.


(** ** Every command is answered *)

(** The next action of the worker, if it has one. *)
Definition turn (now micros : Z) (s : S) : S :=
  match sys_worker s with
  | Receiving => worker_receive s
  | Received c => worker_release c s
  | Released c => worker_serve config now micros c s
  | Served c r => worker_reply c r s
  | Stopped | Crashed _ => s
  end.

(** The worker died in a maintenance call; then the command it served and the
    commands still in the channel get no answer. *)
Definition crashed (s : S) : bool := match sys_worker s with Crashed _ => true | _ => false end.
Definition abandoned (s : S) : list nat :=
  match sys_worker s with Crashed c => ticket_of c :: map ticket_of (sys_chan s) | _ => [] end.

(** A maintenance call of the backend panics. *)
Definition maintenance_panics : Prop :=
  exists interval micros b m, maintenance_interval config = Some interval /\ (b_background_maintenance micros config b).2 = Err (Panic m).

Definition left_to_do (s : S) : nat :=
  (4 * length (sys_chan s)
   + match sys_worker s with Received _ => 3 | Released _ => 2 | Served _ _ => 1 | _ => 0 end)%nat.

Lemma turn_step now micros (s : S) : turn now micros s = s \/ step config s (turn now micros s).
Proof.
  unfold turn. destruct (sys_worker s) as [|c|c|c r| |c] eqn:Ew; [|right; by econstructor..|by left|by left].
  destruct (sys_chan s) eqn:Ec; [left; unfold worker_receive; by rewrite Ec|]. right. apply step_receive; [done|]. by rewrite Ec.
Qed.

Lemma serve_None now micros c w : (serve config now micros c w).2 = None -> maintenance_panics.
Proof.
  destruct c as [write t|src n t|t]; cbn [serve];
    [|by destruct (process_flush src n w)|by destruct (close_worker w)].
  destruct (process_write write w) as [w1 [f|a]]; [done|]. unfold maybe_run_background_maintenance.
  destruct (maintenance_interval config) as [interval|] eqn:Ei; [|done]. destruct (is_some_and _ _); [done|].
  destruct (b_background_maintenance micros config (wk_backend w1)) as [b r] eqn:E. destruct r as [[]|e]; [done|].
  destruct e; try (by destruct (writer_error_requires_poison _)). intros _. eexists interval, micros, _, _. split; [done|]. by rewrite E.
Qed.

Lemma step_crashed (s s' : S) : step config s s' -> crashed s' = true -> crashed s = true \/ maintenance_panics.
Proof.
  intros Hst. unfold crashed. destruct Hst as [s w Hsn Hg|s src n Hsn Hg|s Hsn Hg Hj|s w Hg|s Hg|s w Hg|s w Hg|s w Hg|s w Hg|s src n Hg|s src n Hg
    |s src n Hg|s Hg Hf|s Hg|s Hw Hc|s Hw Hc Hsn|s c Hw|s c now micros Hw|s c r Hw]; try (by left).
  - unfold submit_check. destruct (hs_state _); by left.
  - unfold submit_reserve. destruct (reserve _ _ _ _) as [[|]|u]; by left.
  - unfold submit_send. destruct (negb _); [by left|]. destruct (channel_full _ _); by left.
  - unfold flush_check. destruct (hs_state _); by left.
  - unfold flush_reserve. destruct (reserve _ _ _ _) as [[|]|u]; by left.
  - unfold flush_send. destruct (negb _); [by left|]. destruct (channel_full _ _); by left.
  - unfold shutdown_send. destruct (negb _); by left.
  - unfold worker_receive. destruct (sys_chan s) as [|[| |] rest]; cbn; by rewrite ?Hw.
  - unfold worker_serve. pose proof (serve_None now micros c (sys_work s)) as Hn.
    destruct (serve config now micros c (sys_work s)) as [w [r|]]; [done|]. intros _. right. by apply Hn.
  - cbn. by destruct (is_shutdown c).
Qed.

Lemma runs_crashed (s0 s : S) : runs config s0 s -> crashed s = true -> crashed s0 = true \/ maintenance_panics.
Proof.
  induction 1 as [|s s' _ IH Hst]; [by left|]. intros Hc. destruct (step_crashed _ _ Hst Hc) as [Hs|Hp]; [by apply IH|by right].
Qed.

Lemma turn_progress now micros (s : S) :
  inv s -> crashed s = false -> left_to_do s <> 0%nat ->
  (left_to_do (turn now micros s) < left_to_do s)%nat /\ sys_tickets (turn now micros s) = sys_tickets s.
Proof.
  intros Hi Hcr Hl. unfold turn, left_to_do, crashed in *.
  destruct (sys_worker s) as [|c|c|c r| |c] eqn:Ew.
  - unfold worker_receive. destruct (sys_chan s) as [|c rest] eqn:Ec; [cbn in Hl; lia|]. cbn.
    destruct c; cbn; split; [lia|done|lia|done|lia|done].
  - cbn. split; [lia|done].
  - unfold worker_serve. destruct (serve config now micros c (sys_work s)) as [w [r|]]; cbn; split; [lia|done|lia|done].
  - cbn. destruct (is_shutdown c); cbn; split; [lia|done|lia|done].
  - pose proof (inv_last s Hi) as Hx. unfold shutdown_last in Hx. rewrite Ew in Hx. rewrite Hx in Hl. cbn in Hl. lia.
  - done.
Qed.

Lemma done_answered (s : S) :
  inv s -> crashed s = true \/ left_to_do s = 0%nat -> map fst (rev (sys_replies s)) ++ abandoned s = seq 0 (sys_tickets s).
Proof.
  intros Hi Hl. pose proof (inv_order s Hi) as Ho. rewrite (inv_tickets s Hi) in Ho. unfold left_to_do, crashed, abandoned in *.
  rewrite Ho. destruct Hl as [Hl|Hl]; [by destruct (sys_worker s)|].
  destruct (sys_worker s), (sys_chan s); cbn in *; try done; try lia.
Qed.

Lemma turn_stays now micros (s : S) : crashed s = true \/ left_to_do s = 0%nat -> turn now micros s = s.
Proof.
  unfold turn, left_to_do, crashed. intros [Hc|Hz]; [by destruct (sys_worker s)|]. destruct (sys_worker s); try lia; [|done|done].
  unfold worker_receive. destruct (sys_chan s); [done|cbn in Hz; lia].
Qed.

(** Enough turns end in the last answer or in the death of the worker. *)
Lemma worker_answers now micros n : forall s : S,
  inv s -> (left_to_do s <= n)%nat ->
  let s' := Nat.iter n (turn now micros) s in
  runs config s s' /\ sys_tickets s' = sys_tickets s /\ map fst (rev (sys_replies s')) ++ abandoned s' = seq 0 (sys_tickets s).
Proof.
  cut (forall s : S, inv s -> (left_to_do s <= n)%nat ->
    let s' := Nat.iter n (turn now micros) s in
    runs config s s' /\ sys_tickets s' = sys_tickets s /\ (crashed s' = true \/ left_to_do s' = 0%nat)).
  { intros Hcut s Hi Hl. destruct (Hcut s Hi Hl) as (Hr & Ht & Hz). cbv zeta.
    split; [done|]. split; [done|]. rewrite <- Ht. apply done_answered; [|done]. by apply (runs_inv s). }
  assert (Hiter : forall k (s : S), Nat.iter (Datatypes.S k) (turn now micros) s = Nat.iter k (turn now micros) (turn now micros s)).
  { intros k s. by rewrite Nat.iter_succ_r. }
  induction n as [|n IH]; intros s Hi Hl; cbv zeta.
  - change (Nat.iter 0 (turn now micros) s) with s. split; [constructor|]. split; [done|]. right. lia.
  - rewrite Hiter. assert (Hdec : crashed s = true \/ left_to_do s = 0%nat \/ (crashed s = false /\ left_to_do s <> 0%nat)).
    { destruct (crashed s); [by left|right]. destruct (decide (left_to_do s = 0%nat)); [by left|by right]. }
    destruct Hdec as [Hz|[Hz|[Hcr Hz]]].
    + assert (Hstay : Nat.iter n (turn now micros) s = s).
      { clear -Hz. induction n as [|n IH]; [done|]. rewrite Nat.iter_succ, IH. apply turn_stays. by left. }
      rewrite (turn_stays now micros s (or_introl Hz)), Hstay. split; [constructor|]. split; [done|by left].
    + rewrite turn_stays by (by right). apply IH; [done|lia].
    + destruct (turn_progress now micros s Hi Hcr Hz) as (Hlt & Ht).
      assert (Hst : step config s (turn now micros s)).
      { destruct (turn_step now micros s) as [E|E]; [rewrite E in Hlt; lia|done]. }
      destruct (IH (turn now micros s) (step_inv _ _ Hst Hi) ltac:(lia)) as (Hr & Ht' & Hz').
      split; [|split; [congruence|done]]. clear -Hst Hr. induction Hr as [|a b _ IHr Hab]; [|by eapply runs_step].
      eapply runs_step; [constructor|done].
Qed.


(** ** Calls as runs *)

Lemma runs_trans (a b c : S) : runs config a b -> runs config b c -> runs config a c.
Proof. intros Hab. induction 1 as [|s s' _ IH Hst]; [done|]. by eapply runs_step. Qed.

Lemma runs_once (a b : S) : step config a b -> runs config a b.
Proof. intros Hst. eapply runs_step; [constructor|done]. Qed.

Lemma producer_turn_runs (s : S) : runs config s (producer_turn config s).
Proof.
  unfold producer_turn. destruct (sys_gate s) eqn:Eg; [constructor|apply runs_once; by constructor..|].
  destruct (channel_full config s) eqn:Ef, (receiver_alive s) eqn:Ea; cbn; [constructor|apply runs_once, step_shutdown_send; auto..].
Qed.

Lemma producer_iter_runs n (s : S) : runs config s (Nat.iter n (producer_turn config) s).
Proof. induction n as [|n IH]; [constructor|]. cbn. eapply runs_trans; [exact IH|apply producer_turn_runs]. Qed.

Lemma try_submit_runs w (s : S) : sys_senders s = true -> sys_gate s = GateFree -> runs config s (try_submit config w s).
Proof. intros Hs Hg. eapply runs_trans; [by apply runs_once, (step_submit config s w)|apply producer_iter_runs]. Qed.

Lemma try_flush_runs src n (s : S) : sys_senders s = true -> sys_gate s = GateFree -> runs config s (try_flush config src n s).
Proof. intros Hs Hg. eapply runs_trans; [by apply runs_once, (step_flush config s src n)|apply producer_iter_runs]. Qed.

Lemma turn_runs now micros n (s : S) : runs config s (Nat.iter n (turn now micros) s).
Proof.
  induction n as [|n IH]; [constructor|]. rewrite Nat.iter_succ. eapply runs_trans; [exact IH|].
  destruct (turn_step now micros (Nat.iter n (turn now micros) s)) as [E|E]; [rewrite E; constructor|by apply runs_once].
Qed.

End Invariants.

(** ** Invariants of the storage *)

Section Storage.
Context {B : Type} `{WriterBackend B} (config : ShadowRuntimeConfig) (I : B -> Prop).
Abbreviation S := (Sys B).
Hypothesis Hcommit : forall i t b b' r, I b -> b_commit_ingress i t b = (b', r) -> I b'.
Hypothesis Hflush : forall b b' r, I b -> b_flush b = (b', r) -> I b'.
Hypothesis Hclose : forall b b' r, I b -> b_close b = (b', r) -> I b'.
Hypothesis Hsnapshot : forall b b' r, I b -> b_store_snapshot b = (b', r) -> I b'.
Hypothesis Hmaintain : forall micros b b' r, maintenance_interval config <> None -> I b -> b_background_maintenance micros config b = (b', r) -> I b'.

Lemma refresh_keeps durable (w : Work B) : I (wk_backend w) -> I (wk_backend (refresh_store_snapshot durable w)).
Proof using Hsnapshot.
  intros Hi. unfold refresh_store_snapshot. destruct (b_store_snapshot (wk_backend w)) as [b r] eqn:E. apply Hsnapshot in E; [|done]. by destruct r.
Qed.

Lemma process_write_keeps write (w : Work B) : I (wk_backend w) -> I (wk_backend (process_write write w).1).
Proof using Hcommit Hsnapshot.
  intros Hi. unfold process_write. destruct (wk_poison w); [done|].
  destruct (b_commit_ingress _ _ (wk_backend w)) as [b r] eqn:E. apply Hcommit in E; [|done].
  destruct (catch_unwind r) as [m|[c|e]]; cbn [fst]; [done| |by destruct (negb _)].
  apply (refresh_keeps (cm_durable c) (observe_source (source_id (write_identity write)) (set_backend b w)).1). exact E.
Qed.

Lemma process_flush_keeps src n (w : Work B) : I (wk_backend w) -> I (wk_backend (process_flush src n w).1).
Proof using Hflush Hsnapshot.
  intros Hi. unfold process_flush. destruct (wk_poison w); [done|]. cbn [observe_source]. destruct (is_none_or _ _); [done|].
  cbn [on_health wk_backend]. destruct (b_flush (wk_backend w)) as [b r] eqn:E. apply Hflush in E; [|done].
  destruct (catch_unwind r) as [m|[c|e]]; cbn [fst]; [done| |by destruct (negb _)].
  apply refresh_keeps. set (x := set_backend b _).
  destruct (observe_all_backend (btree_keys (hs_source_watermarks (wk_health x))) x) as (X1 & _ & _ & _). by rewrite X1.
Qed.

Lemma close_keeps (w : Work B) : I (wk_backend w) -> I (wk_backend (close_worker w).1).
Proof using Hclose.
  intros Hi. unfold close_worker. destruct (wk_poison w); [done|]. destruct (b_close (wk_backend w)) as [b r] eqn:E. apply Hclose in E; [|done].
  by destruct (catch_unwind r) as [m|[c|e]].
Qed.

Lemma maintenance_keeps now micros (w : Work B) :
  I (wk_backend w) -> I (wk_backend (maybe_run_background_maintenance config now micros w).1).
Proof using Hmaintain.
  intros Hi. unfold maybe_run_background_maintenance. destruct (maintenance_interval config) as [interval|] eqn:Em; [|done].
  destruct (is_some_and _ _); [done|]. destruct (b_background_maintenance micros config (wk_backend w)) as [b r] eqn:E.
  apply Hmaintain in E; [|congruence|done]. destruct r as [u|e]; [done|]. destruct e; try done; by destruct (writer_error_requires_poison _).
Qed.

Lemma serve_keeps now micros c (w : Work B) : I (wk_backend w) -> I (wk_backend (serve config now micros c w).1).
Proof using Hcommit Hflush Hclose Hsnapshot Hmaintain.
  intros Hi. destruct c as [write t|src n t|t]; cbn [serve].
  - pose proof (process_write_keeps write w Hi) as Hp. destruct (process_write write w) as [w1 r]. cbn [fst] in Hp. destruct r; [done|].
    pose proof (maintenance_keeps now micros w1 Hp) as Hm. by destruct (maybe_run_background_maintenance _ _ _ _).
  - pose proof (process_flush_keeps src n w Hi) as Hp. by destruct (process_flush src n w).
  - pose proof (close_keeps w Hi) as Hp. by destruct (close_worker w).
Qed.

Lemma step_keeps (s s' : S) : step config s s' -> I (wk_backend (sys_work s)) -> I (wk_backend (sys_work s')).
Proof using Hcommit Hflush Hclose Hsnapshot Hmaintain.
  intros Hs Hi. destruct Hs; try done.
  - unfold submit_check. by destruct (hs_state _).
  - unfold submit_reserve. by destruct (reserve _ _ _ _) as [[]|].
  - unfold submit_send. destruct (negb _); [done|]. by destruct (channel_full _ _).
  - unfold flush_check. by destruct (hs_state _).
  - unfold flush_reserve. by destruct (reserve _ _ _ _) as [[]|].
  - unfold flush_send. destruct (negb _); [done|]. by destruct (channel_full _ _).
  - unfold shutdown_send. by destruct (negb _).
  - unfold worker_receive. by destruct (sys_chan s).
  - unfold worker_serve. pose proof (serve_keeps now now_micros c (sys_work s) Hi) as Hw. destruct (serve _ _ _ _ _) as [w r]. by destruct r.
Qed.

(** What every operation of the backend keeps holds in every reachable state. *)
Lemma runs_keep (s0 s : S) : runs config s0 s -> I (wk_backend (sys_work s0)) -> I (wk_backend (sys_work s)).
Proof using Hcommit Hflush Hclose Hsnapshot Hmaintain. induction 1; [done|]. intros Hi. eapply step_keeps; [done|]. by apply IHruns. Qed.
End Storage.
