(* ===== verification/RuntimeDb.v ===== *)
(** * RuntimeDb: the shadow runtime over a [Database]

    What the worker acknowledged stays true of the database: receipts are
    never lost and durable watermarks never go back, so that acknowledged
    writes and flushes keep the durability of the log. *)
From S2P Require Import Prelude Errors Bytes Model Transaction Query Codec Effects Scan LogInv Database Refine Durable Recovery Retry Commits Runtime RuntimeInv.

Section Over.
Context `{Crc} `{RecordCodecLaws} `{IndexCodec} `{TimeZones} {Seg : Type} `{SegmentOps Seg}.
Abbreviation Db := (Database Seg).

(** Receipts are kept and durable watermarks do not go back. *)
Record keeps (d d' : Db) : Prop := {
  kp_receipts : forall k r, ingress_receipts (state d) !! k = Some r -> ingress_receipts (state d') !! k = Some r;
  kp_durable : forall src n, ingress_durable_sequences d !! src = Some n ->
    exists m, ingress_durable_sequences d' !! src = Some m /\ n <= m;
}.

Lemma keeps_same (d d' : Db) :
  state d' = state d -> ingress_durable_sequences d' = ingress_durable_sequences d -> keeps d d'.
Proof. intros E2 E3. constructor; rewrite ?E2, ?E3; [done|]. intros src n Hn. exists n. split; [done|lia]. Qed.

Lemma keeps_refl (d : Db) : keeps d d.
Proof. by apply keeps_same. Qed.

Lemma keeps_trans (a b c : Db) : keeps a b -> keeps b c -> keeps a c.
Proof.
  intros [R1 D1] [R2 D2]. constructor; [eauto|].
  intros src n Hn. destruct (D1 _ _ Hn) as (m & Hm & ?). destruct (D2 _ _ Hm) as (k & Hk & ?). exists k. split; [done|lia].
Qed.

Lemma near_keeps (d d' : Db) : near d d' -> keeps d d'.
Proof. intros (g & _ & ->). by apply keeps_same. Qed.

Lemma rolled_back_keeps (d d' : Db) : rolled_back d d' -> keeps d d'.
Proof. intros (? & _ & _ & ? & _). by apply keeps_same. Qed.

(** ** Commits *)

Lemma replay_ingress_Ok (d d' : Db) i canonical r c :
  replay_ingress i canonical r d = (d', Ok c) ->
  near d d' /\ commit_id (ir_identity r) = commit_id i
  /\ cm_durable c = is_some_and (ingress_durable_sequences d !! source_id i) (fun durable => sequence i <=? durable).
Proof.
  unfold replay_ingress. intros E. apply st_bind_Ok in E as ([] & d1 & [-> Ec]%st_reject_Ok & E).
  apply st_bind_Ok in E as (matched & d2 & Em & E). unfold ingress_payload_matches, poison_if_broken in Em.
  destruct (on_file _ d) as [d3 r3] eqn:Ef.
  pose proof (on_file_reading _ d (reading_ingress _ _) d d3 r3 eq_refl Ef) as Hn.
  assert (Hd : d2 = d3 /\ near d d3).
  { destruct r3 as [b|e]; [by injection Em as <- <-|]. by destruct (poisons e). }
  destruct Hd as [-> Hn']. apply st_bind_Ok in E as ([] & d4 & [-> _]%st_reject_Ok & E).
  apply st_bind_Ok in E as (d5 & d6 & [= <- <-] & [= <- <-]). split; [done|]. split; [zbool; done|].
  destruct Hn' as (g & _ & ->). done.
Qed.

Definition acked (i : IngressIdentity) (durable : bool) (d : Db) : Prop :=
  exists r, ingress_receipt (source_id i) (sequence i) d = Some r /\ rc_identity r = i
    /\ (durable = true -> rc_durable r = true).

Lemma commit_ingress_spec seals (d d' : Db) i t r :
  handle_inv seals d -> commit_ingress i t d = (d', r) ->
  keeps d d' /\ match r with Ok c => acked i (cm_durable c) d' | Err _ => True end.
Proof.
  intros Hi E. pose proof (commit_rolled_back d (with_ingress_identity i t) d d' r eq_refl E) as Hrb.
  destruct r as [c|e]; [|split; [by apply rolled_back_keeps|done]]. clear Hrb.
  destruct (handle_wf seals d Hi) as (_ & _ & Hw).
  destruct (ingress_receipts (state d) !! key_of i) as [receipt|] eqn:Ek.
  - unfold commit_ingress, commit, commit_ordered_ingress in E.
    apply st_bind_Ok in E as ([] & d1 & Ew & E).
    assert (d1 = d) as ->.
    { unfold check_writable in Ew. apply st_bind_Ok in Ew as (? & ? & [= <- <-] & Ew).
      apply st_bind_Ok in Ew as ([] & ? & [-> _]%st_reject_Ok & [-> _]%st_reject_Ok). done. }
    cbn [with_ingress_identity tx_ingress_identity] in E.
    apply st_bind_Ok in E as ([] & ? & [-> Hs]%st_reject_Ok & E).
    apply st_bind_Ok in E as (canonical & ? & [-> Hc]%st_lift_Ok & E).
    apply st_bind_Ok in E as (? & ? & [= <- <-] & E). rewrite Ek in E.
    apply replay_ingress_Ok in E as (Hn & Hid & Hdu). split; [by apply near_keeps|].
    destruct Hn as (g & _ & ->). unfold acked, ingress_receipt. cbn [state set_file ingress_durable_sequences].
    change (source_id i, sequence i) with (key_of i). rewrite Ek. eexists. split; [done|]. cbn. split; [|by rewrite Hdu].
    destruct (wi_key _ Hw _ _ Ek) as [Hkey _]. destruct (ir_identity receipt) as [a b c0], i as [a' b' c0'].
    cbn in *. unfold key_of in Hkey. cbn in Hkey. congruence.
  - destruct (commit_ingress_new_Ok d d' i t c Ek E) as (canonical & Hc & _ & E').
    destruct (append_ingress_ok d i canonical _ d d' (Ok c) eq_refl E') as (cat & _ & Hcur & _ & _ & _ & _ & _ & Hst & Hdu).
    split.
    + constructor.
      * intros k r Hk. rewrite Hst. unfold ingress_committed, insert_ingress. cbn [ingress_receipts].
        rewrite lookup_insert_ne; [rewrite (index_records_fold (Seg := unit)); by destruct cat|]. intros <-. congruence.
      * intros src n Hn. rewrite Hdu. destruct (cm_durable c); [|exists n; split; [done|lia]].
        destruct (durable_le_accepted seals d src n Hi Hn) as (m & Hm & Hle). cbn in Hm.
        destruct (decide (src = source_id i)) as [->|Hne].
        -- rewrite lookup_insert_eq. exists (sequence i). split; [done|]. rewrite Hm in Hcur. cbn in Hcur. zbool. lia.
        -- rewrite lookup_insert_ne by done. eauto.
    + eexists. split; [by eapply committed_receipt|]. by split.
Qed.

Lemma flush_spec seals (d d' : Db) r :
  handle_inv seals d -> flush d = (d', r) ->
  handle_inv seals d' /\ keeps d d'
  /\ match r with Ok _ => ingress_durable_sequences d' = ingress_last_sequences (state d') | Err _ => True end.
Proof.
  intros Hi E. pose proof (flush_inv seals d Hi d d' r eq_refl E) as Hf. pose proof (flush_rolled_back d d d' r eq_refl E) as Hrb.
  destruct r as [u|e]; [|split; [done|]; split; [by apply rolled_back_keeps|done]].
  destruct Hf as (Hi' & Hst & _ & _ & _ & Hdu). split; [done|]. split; [|done]. constructor; [by rewrite Hst|].
  intros src n Hn. destruct (durable_le_accepted seals d src n Hi Hn) as (m & Hm & Hle). rewrite Hdu, Hst. eauto.
Qed.

Lemma stats_near (d d' : Db) r : stats d = (d', r) -> near d d'.
Proof.
  unfold stats, st_bind at 1. destruct (on_file f_len d) as [d1 r1] eqn:E.
  pose proof (on_file_reading _ d reading_len d d1 r1 eq_refl E) as Hn. destruct r1; intros [= <- <-]; done.
Qed.

Lemma snapshot_near (d d' : Db) r : b_store_snapshot d = (d', r) -> near d d'.
Proof.
  cbn [b_store_snapshot database_backend]. unfold st_bind at 1. destruct (stats d) as [d1 r1] eqn:E.
  apply stats_near in E. destruct r1; intros [= <- <-]; done.
Qed.

(** ** The worker over a database *)

Definition typed_command (c : Command) : Prop :=
  match c with
  | CmdWrite w _ => typed_transaction (write_transaction w) /\ typed_identity (write_identity w)
  | _ => True
  end.

Definition flushed (a : ShadowFlushAck) (d : Db) : Prop :=
  exists m, ingress_durable_sequences d !! fa_source_id a = Some m /\ fa_through_sequence a <= m.

Definition reply_holds (r : option Reply) (d : Db) : Prop :=
  match r with
  | Some (ReplyWrite (inr a)) => acked (sa_identity a) (cm_durable (sa_commit a)) d
  | Some (ReplyFlush (inr a)) => flushed a d
  | _ => True
  end.

Lemma reply_holds_keeps r (d d' : Db) : keeps d d' -> reply_holds r d -> reply_holds r d'.
Proof.
  intros [Hr Hd]. destruct r as [[[f|a]|[f|a]|x]|]; cbn; try done.
  - intros (rc & E & Hi & Hdu). unfold acked, ingress_receipt in *.
    destruct (ingress_receipts (state d) !! _) as [stored|] eqn:Es; [|done]. injection E as <-. rewrite (Hr _ _ Es).
    eexists. split; [done|]. cbn in *. split; [done|]. intros Hc. specialize (Hdu Hc). cbn in Hdu.
    destruct (ingress_durable_sequences d !! source_id (sa_identity a)) as [n|] eqn:En; [|done]. cbn in Hdu.
    destruct (Hd _ _ En) as (m & -> & Hle). cbn. zbool. lia.
  - intros (m & Hm & Hle). destruct (Hd _ _ Hm) as (k & Hk & ?). exists k. split; [done|lia].
Qed.

Definition steady seals (d d' : Db) : Prop := handle_inv seals d' /\ keeps d d'.

Lemma near_steady seals (d d' : Db) : handle_inv seals d -> near d d' -> steady seals d d'.
Proof. intros Hi Hn. split; [by eapply near_inv|by apply near_keeps]. Qed.

Lemma steady_trans seals (a b c : Db) : steady seals a b -> steady seals b c -> steady seals a c.
Proof. intros [_ K1] [I2 K2]. split; [done|by eapply keeps_trans]. Qed.

(** ** The interface of a backend that writes to a log

    What the worker needs of its backend: a database whose log every call keeps
    well formed, whose receipts no call loses, and which the answers are true
    of.  Both implementations of [WriterBackend] discharge it. *)
Class LogBackend (B : Type) `{WriterBackend B} (seals : gset Z) (config : ShadowRuntimeConfig) := {
  log_of : B -> Db;
  lb_inv : B -> Prop;
  lb_handle b : lb_inv b -> handle_inv seals (log_of b);
  lb_watermarks src b : b_ingress_watermarks src b = ingress_watermarks src (log_of b);
  lb_commit i t b b' r :
    lb_inv b -> typed_transaction t -> typed_identity i -> b_commit_ingress i t b = (b', r) ->
    lb_inv b' /\ keeps (log_of b) (log_of b') /\ match r with Ok c => acked i (cm_durable c) (log_of b') | Err _ => True end;
  lb_flush b b' r :
    lb_inv b -> b_flush b = (b', r) ->
    lb_inv b' /\ keeps (log_of b) (log_of b')
    /\ match r with Ok _ => ingress_durable_sequences (log_of b') = ingress_last_sequences (state (log_of b)) | Err _ => True end;
  lb_close b b' r : lb_inv b -> b_close b = (b', r) -> lb_inv b' /\ keeps (log_of b) (log_of b');
  lb_snapshot b b' r : lb_inv b -> b_store_snapshot b = (b', r) -> lb_inv b' /\ keeps (log_of b) (log_of b');
  lb_maintenance now b b' r :
    lb_inv b -> b_background_maintenance now config b = (b', r) -> lb_inv b' /\ keeps (log_of b) (log_of b');
}.

Lemma steady_refl seals (d : Db) : handle_inv seals d -> steady seals d d.
Proof. intros Hi. split; [done|apply keeps_refl]. Qed.

Lemma flush_steady seals (d d' : Db) r :
  handle_inv seals d -> flush d = (d', r) ->
  steady seals d d' /\ match r with Ok _ => ingress_durable_sequences d' = ingress_last_sequences (state d) | Err _ => True end.
Proof.
  intros Hi E. destruct (flush_spec seals d d' r Hi E) as (Hi' & Hk & _). split; [done|]. destruct r; [|done].
  pose proof (flush_inv seals _ Hi _ d' _ eq_refl E) as (_ & Hst & _ & _ & _ & Hd). by rewrite Hd, Hst.
Qed.

Lemma commit_steady seals (d d' : Db) i t r :
  handle_inv seals d -> typed_transaction t -> typed_identity i -> commit_ingress i t d = (d', r) ->
  steady seals d d' /\ match r with Ok c => acked i (cm_durable c) d' | Err _ => True end.
Proof.
  intros Hi Ht Hti E. destruct (commit_ingress_spec seals _ _ _ _ _ Hi E) as [Hk Hr].
  pose proof (commit_inv seals _ _ Hi (typed_with_ingress _ _ Ht Hti) _ d' r eq_refl E) as Hi'. split; [|done]. by destruct r.
Qed.

(** A bare database is one. *)
#[export] Instance database_log_backend seals config : LogBackend (Database Seg) seals config.
Proof.
  refine {| log_of := fun d => d; lb_inv := handle_inv seals |}; [done|done|..].
  - intros i t b b' r Hi Ht Hti E. cbn in E. by destruct (commit_steady _ _ _ _ _ _ Hi Ht Hti E) as [[] ?].
  - intros b b' r Hi E. cbn in E. by destruct (flush_steady _ _ _ _ Hi E) as [[] ?].
  - intros b b' r Hi E. cbn [b_close database_backend] in E. unfold st_bind at 1 in E.
    destruct (flush b) as [b1 r1] eqn:E1. destruct (flush_steady seals _ _ _ Hi E1) as [Hs _]. destruct r1; by injection E as <- _.
  - intros b b' r Hi E%snapshot_near. by apply near_steady.
  - intros now b b' r Hi [= <- _]. by apply steady_refl.
Defined.

(** ** The worker *)

Section Served.
Context {B : Type} `{WriterBackend B} (seals : gset Z) (cfg : ShadowRuntimeConfig) `{!LogBackend B seals cfg}.
Abbreviation inv w := (lb_inv (seals := seals) (config := cfg) (wk_backend w)).
Abbreviation db w := (log_of (seals := seals) (config := cfg) (wk_backend w)).

Lemma refresh_log b (w : Work B) : inv w -> inv (refresh_store_snapshot b w) /\ keeps (db w) (db (refresh_store_snapshot b w)).
Proof.
  intros Hi. unfold refresh_store_snapshot. destruct (b_store_snapshot (wk_backend w)) as [d' r] eqn:E.
  apply lb_snapshot in E; [|done]. by destruct r.
Qed.

Lemma process_write_log write (w : Work B) :
  inv w -> typed_transaction (write_transaction write) -> typed_identity (write_identity write) ->
  inv (process_write write w).1 /\ keeps (db w) (db (process_write write w).1)
  /\ reply_holds (Some (ReplyWrite (process_write write w).2)) (db (process_write write w).1).
Proof.
  intros Hi Ht Hti. unfold process_write. destruct (wk_poison w) as [p|]; [split_and!; [done|apply keeps_refl|done]|].
  destruct (b_commit_ingress (write_identity write) (write_transaction write) (wk_backend w)) as [d' r] eqn:E.
  destruct (lb_commit _ _ _ _ _ Hi Ht Hti E) as (Hi' & Hk & Hr). destruct r as [c|e].
  - cbn [catch_unwind]. set (w1 := (observe_source (source_id (write_identity write)) (set_backend d' w)).1).
    destruct (refresh_log (cm_durable c) w1 Hi') as [Hi3 Hk3].
    split; [exact Hi3|]. split; [by eapply keeps_trans|]. cbn [reply_holds sa_identity sa_commit fst snd].
    by apply (reply_holds_keeps (Some (ReplyWrite (inr (mkShadowAck (write_identity write) None None c)))) (log_of d')).
  - destruct (catch_unwind (Err e)) as [m|[u|e']] eqn:Ec; cbn [fst snd]; [by split_and!|by destruct e|].
    destruct (negb _); by split_and!.
Qed.

Lemma process_flush_log src n (w : Work B) :
  inv w -> inv (process_flush src n w).1 /\ keeps (db w) (db (process_flush src n w).1)
  /\ reply_holds (Some (ReplyFlush (process_flush src n w).2)) (db (process_flush src n w).1).
Proof.
  intros Hi. unfold process_flush. destruct (wk_poison w) as [p|]; [split_and!; [done|apply keeps_refl|done]|].
  cbn [observe_source]. destruct (is_none_or _ _) eqn:En; [split_and!; [done|apply keeps_refl|done]|].
  cbn [on_health wk_backend] in *. rewrite lb_watermarks in En. destruct (b_flush (wk_backend w)) as [d' r] eqn:E.
  destruct (lb_flush _ _ _ Hi E) as (Hi' & Hk & Hr). destruct r as [[]|e].
  - cbn [catch_unwind]. set (x := set_backend d' _).
    destruct (observe_all_backend (btree_keys (hs_source_watermarks (wk_health x))) x) as (X1 & _ & _ & _).
    set (y := foldl _ x _) in *. assert (Hy : wk_backend y = d') by (rewrite X1; done).
    destruct (refresh_log true y) as [Hi3 Hk3]; [by rewrite Hy|]. rewrite Hy in Hk3.
    split; [exact Hi3|]. split; [by eapply keeps_trans|].
    apply (reply_holds_keeps _ (log_of d')); [exact Hk3|]. cbn [reply_holds flushed fa_source_id fa_through_sequence fst snd].
    cbn in En. destruct (ingress_last_sequences (state (db w)) !! src) as [a|] eqn:Ea; [|done].
    exists a. rewrite Hr. split; [done|]. cbn in En |- *. zbool. lia.
  - destruct (catch_unwind (Err e)) as [m|[u|e']] eqn:Ec; cbn [fst snd]; [by split_and!|by destruct e|].
    destruct (negb _); by split_and!.
Qed.

Lemma close_log (w : Work B) : inv w -> inv (close_worker w).1 /\ keeps (db w) (db (close_worker w).1).
Proof.
  intros Hi. unfold close_worker. destruct (wk_poison w) as [p|]; [split; [done|apply keeps_refl]|].
  destruct (b_close (wk_backend w)) as [d' r] eqn:E. apply lb_close in E; [|done].
  destruct r as [u|e]; [done|]. by destruct (catch_unwind (Err e)) as [m|[u|e']].
Qed.

Lemma maintenance_log now micros (w : Work B) :
  inv w -> inv (maybe_run_background_maintenance cfg now micros w).1
  /\ keeps (db w) (db (maybe_run_background_maintenance cfg now micros w).1).
Proof.
  intros Hi. unfold maybe_run_background_maintenance. destruct (maintenance_interval cfg); [|split; [done|apply keeps_refl]].
  destruct (is_some_and _ _); [split; [done|apply keeps_refl]|].
  destruct (b_background_maintenance micros cfg (wk_backend w)) as [b r] eqn:E. apply lb_maintenance in E; [|done].
  destruct r as [[]|e]; [done|]. destruct e; try done; by destruct (writer_error_requires_poison _).
Qed.

Lemma serve_log now micros c (w : Work B) :
  inv w -> typed_command c ->
  inv (serve cfg now micros c w).1 /\ keeps (db w) (db (serve cfg now micros c w).1)
  /\ reply_holds (serve cfg now micros c w).2 (db (serve cfg now micros c w).1).
Proof.
  intros Hi Hc. destruct c as [write t|src n t|t]; cbn [serve].
  - destruct Hc as [Ht Hti]. destruct (process_write_log write w Hi Ht Hti) as (Hi1 & Hk1 & Hr).
    destruct (process_write write w) as [w1 r]. cbn [fst snd] in *. destruct r as [f|a]; [done|].
    destruct (maintenance_log now micros w1 Hi1) as [Hi2 Hk2]. destruct (maybe_run_background_maintenance cfg now micros w1) as [w2 alive].
    cbn [fst snd] in *. split; [done|]. split; [by eapply keeps_trans|]. destruct alive; [|done]. by eapply reply_holds_keeps.
  - destruct (process_flush_log src n w Hi) as (Hi1 & Hk1 & Hr). by destruct (process_flush src n w).
  - destruct (close_log w Hi) as [Hi1 Hk1]. by destruct (close_worker w).
Qed.

Lemma serial_log l : forall w : Work B,
  inv w -> Forall typed_command (map snd l) ->
  inv (serial cfg w l).1 /\ keeps (db w) (db (serial cfg w l).1)
  /\ Forall (fun r => reply_holds r (db (serial cfg w l).1)) (serial cfg w l).2.
Proof.
  induction l as [|[[now micros] c] l IH]; intros w Hi Hl; cbn [serial map].
  - split_and!; [done|apply keeps_refl|constructor].
  - cbn [map snd] in Hl. apply Forall_cons in Hl as [Hc Hl].
    destruct (serve_log now micros c w Hi Hc) as (Hi1 & Hk1 & Hr). destruct (serve cfg now micros c w) as [w1 r]. cbn [fst snd] in *.
    destruct (IH w1 Hi1 Hl) as (Hi2 & Hk2 & Hrs). destruct (serial cfg w1 l) as [w2 rs]. cbn [fst snd] in *.
    split; [done|]. split; [by eapply keeps_trans|]. constructor; [|done]. by eapply reply_holds_keeps.
Qed.

(** Everything the runtime acknowledged holds of its log. *)
Lemma replies_hold (b0 : B) s0 s :
  lb_inv b0 -> start_backend cfg None b0 = inr s0 -> runs cfg s0 s -> Forall typed_command (sys_sent s) ->
  inv (sys_work s)
  /\ forall t r, (t, r) ∈ sys_replies s -> reply_holds (Some r) (db (sys_work s)).
Proof.
  intros Hi Hs Hr Ht. unfold start_backend in Hs. destruct (_ =? 0); [done|].
  destruct (b_store_snapshot b0) as [d1 snap] eqn:Es. injection Hs as Hs. apply lb_snapshot in Es as [Hi1 _]; [|done].
  destruct (runs_refines cfg s0 s) as (l & E1 & E2 & E3); [by subst s0..|done|].
  assert (Hl : Forall typed_command (map snd l)).
  { assert (Hf : Forall typed_command (rev (sys_sent s))) by (by apply Forall_rev). rewrite <- E1 in Hf. by apply Forall_app in Hf as [? _]. }
  destruct (serial_log l (sys_work s0)) as (Hi2 & _ & Hrs); [by subst s0|done|].
  apply core_eq in E2 as (E2 & _ & _). rewrite <- E2 in Hi2, Hrs. split; [done|].
  intros t r Hin. rewrite E3 in Hrs. apply Forall_app in Hrs as [Hrs _].
  eapply Forall_forall in Hrs; [exact Hrs|]. apply list_elem_of_fmap. exists (t, r). split; [done|].
  apply list_elem_of_In, in_rev, list_elem_of_In. by rewrite rev_involutive.
Qed.

(** A write acknowledged as durable, or covered by an acknowledged flush, has
    its receipt in every file a power loss leaves. *)
Lemma answered_write_in_log (b0 : B) s0 s t a left m :
  lb_inv b0 -> start_backend cfg None b0 = inr s0 -> runs cfg s0 s ->
  Forall typed_command (sys_sent s) -> (t, ReplyWrite (inr a)) ∈ sys_replies s ->
  cm_durable (sa_commit a) = true
  \/ (exists t' f, (t', ReplyFlush (inr f)) ∈ sys_replies s /\ fa_source_id f = source_id (sa_identity a)
        /\ sequence (sa_identity a) <= fa_through_sequence f) ->
  crash (file (db (sys_work s))) left ->
  exists (d' : Db) r,
    open_file LockAcquired (Database.config (db (sys_work s))) false seals (mkFile left m []) = (file d', Ok d')
    /\ ingress_receipt (source_id (sa_identity a)) (sequence (sa_identity a)) d' = Some r
    /\ rc_identity r = sa_identity a /\ rc_durable r = true.
Proof.
  intros Hi0 Hs Hr Ht Ha Hdu Hc. destruct (replies_hold b0 s0 s Hi0 Hs Hr Ht) as [Hi Hrep].
  destruct (Hrep _ _ Ha) as (r & Er & Hid & Hrd).
  assert (Hdur : rc_durable r = true).
  { destruct Hdu as [Hdu|(t' & f & Hf & Hsrc & Hle)]; [by apply Hrd|].
    destruct (Hrep _ _ Hf) as (n & Hn & Hn'). unfold ingress_receipt in Er.
    destruct (ingress_receipts _ !! _); [|done]. injection Er as <-. cbn [rc_durable]. rewrite <- Hsrc, Hn. cbn.
    apply Z.leb_le. lia. }
  destruct (durable_receipt_survives seals _ left m _ _ _ (lb_handle _ Hi) Hc Er Hdur) as (d' & Ho & _ & Hr'). exists d', r. done.
Qed.
End Served.

Lemma start_database_backend cfg (d0 : Db) s0 : start_database cfg None d0 = inr s0 -> start_backend cfg None d0 = inr s0.
Proof. unfold start_database. destruct (read_only d0); [done|]. by destruct (is_some _). Qed.

Lemma answered_write_survives (cfg : ShadowRuntimeConfig) seals (d0 : Db) s0 s t a left m :
  handle_inv seals d0 -> start_database cfg None d0 = inr s0 -> runs cfg s0 s ->
  Forall typed_command (sys_sent s) -> (t, ReplyWrite (inr a)) ∈ sys_replies s ->
  cm_durable (sa_commit a) = true
  \/ (exists t' f, (t', ReplyFlush (inr f)) ∈ sys_replies s /\ fa_source_id f = source_id (sa_identity a)
        /\ sequence (sa_identity a) <= fa_through_sequence f) ->
  crash (file (wk_backend (sys_work s))) left ->
  exists (d' : Db) r,
    open_file LockAcquired (Database.config (wk_backend (sys_work s))) false seals (mkFile left m []) = (file d', Ok d')
    /\ ingress_receipt (source_id (sa_identity a)) (sequence (sa_identity a)) d' = Some r
    /\ rc_identity r = sa_identity a /\ rc_durable r = true.
Proof. intros Hi Hs%start_database_backend. exact (answered_write_in_log seals cfg d0 s0 s t a left m Hi Hs). Qed.
End Over.
