(* ===== verification/StoreWriter.v ===== *)
(** * StoreWriter: the store behind the queue of [src/src/shadow_runtime.rs]

    [impl WriterBackend for StoreWriter] with its storage limits, the start of
    a runtime over a store, and the loops that repeat a submission until a
    deadline; and that the limits hold in every interleaving. *)
From S2P Require Import Prelude Errors Bytes Float64 Model Utf8 Transaction Catalog Aggregate Rollup Query Codec Effects Segment RollupSegment Directory Manifest Scan Database Refine Durable Planner Store Snapshot SnapshotInv SnapshotCheck Runtime RuntimeInv.

(** ** The backend *)

(** [statvfs]: the allocation size and the free allocations. *)
Record StatVfs := mkStatVfs { f_frsize : Z; f_bavail : Z }.
(** How the [n]th look at the disk ends: listing the files, and [statvfs]. *)
Record DiskAnswer := mkDiskAnswer { da_listing : option string; da_space : Result StatVfs }.

Record StoreWriter := mkStoreWriter {
  sw_store : Store;
  sw_limits : option ShadowStorageLimits;
  sw_answers : nat -> DiskAnswer;
  sw_looks : nat;
}.
Definition on_sw_store {A} : ST Store A -> ST StoreWriter A :=
  st_zoom sw_store (fun s w => mkStoreWriter s (sw_limits w) (sw_answers w) (sw_looks w)).
Definition look : ST StoreWriter DiskAnswer :=
  fun w => (mkStoreWriter (sw_store w) (sw_limits w) (sw_answers w) (S (sw_looks w)), Ok (sw_answers w (sw_looks w))).

(** [Store::stored_bytes]: the log and every file of the directories. *)
Definition Store_stored_bytes (a : DiskAnswer) (s : Store) : Result Z :=
  match da_listing a with
  | Some kind => Err (Io kind)
  | None => ok_or (u64_checked (tree_bytes (tree_of s))) (Serialization "stored byte count exceeds u64")
  end.

Section Backend.
Context `{Crc} `{RecordCodec} `{IndexCodec} `{TimeZones} `{Lz4} `{MapOrder} `{ManifestCodec} `{ReadDir} `{CacheOrder}.
(** The names a maintenance gives to new files, by the clock. *)
Context (suffix : rstring -> rstring) (nonce : Z -> Z -> rstring) (seal_nonce : Z -> rstring) (reclaim_env : Z -> ReclaimEnv).

(** [u128::div_ceil]. *)
Definition div_ceil (a b : Z) : Z := (a + b - 1) / b.

(** [ShadowStorageLimits::check]. *)
Definition limits_check (l : ShadowStorageLimits) (t : Transaction) : ST StoreWriter unit :=
  let* additional := st_lift (ingress_frame_bytes t) in
  let* answer := look in
  let* w := st_get in
  let* bytes := st_lift (Store_stored_bytes answer (sw_store w)) in
  st_reject (is_none_or (u64_checked_add bytes additional) (fun total => max_store_bytes l <? total))
    (ResourceLimit "store byte limit reached") ;*
  let* space := st_lift (da_space answer) in
  st_reject (f_frsize space =? 0) (Io "Other") ;*
  let available := f_bavail space * f_frsize space in
  let allocated := div_ceil additional (f_frsize space) * f_frsize space in
  st_reject (available <? minimum_free_bytes l + allocated) (ResourceLimit "free disk reserve reached").

Definition sw_commit_ingress (identity : IngressIdentity) (t : Transaction) : ST StoreWriter Commit :=
  let* w := st_get in
  match ingress_receipt (source_id identity) (sequence identity) (database (sw_store w)), sw_limits w with
  | None, Some limits => limits_check limits t
  | _, _ => st_ret tt
  end ;*
  on_sw_store (Store_commit_ingress suffix identity t).

Definition sw_background_maintenance (now_micros : Z) (config : ShadowRuntimeConfig) : ST StoreWriter unit :=
  let* _ := on_sw_store (maintain suffix (nonce now_micros) now_micros) in
  match seal_log_bytes_threshold config with
  | Some threshold =>
      let* st := on_sw_store (on_database stats) in
      if threshold <? st_file_bytes st then
        let* _ := on_sw_store (seal_and_reclaim suffix (seal_nonce now_micros) (reclaim_env now_micros)) in
        st_ret tt
      else st_ret tt
  | None => st_ret tt
  end.

Definition sw_store_snapshot : ST StoreWriter StoreOpsSnapshot :=
  let* st := on_sw_store (on_database stats) in
  let* answer := look in
  let* w := st_get in
  let* bytes := st_lift (Store_stored_bytes answer (sw_store w)) in
  st_ret (mkSnapshot bytes (st_points st) (st_commits st) (st_recovered_tail_bytes st)
            (durability (config (database (sw_store w)))) false).

(** [impl WriterBackend for StoreWriter]. *)
Definition store_backend : WriterBackend StoreWriter := {|
  b_commit_ingress := sw_commit_ingress;
  b_ingress_watermarks source w := ingress_watermarks source (database (sw_store w));
  b_all_ingress_watermarks w := list_to_map (all_ingress_watermarks (database (sw_store w)));
  b_flush := on_sw_store Store_flush;
  b_close := on_sw_store Store_flush ;*
             (let* w := st_get in st_ret (list_to_map (all_ingress_watermarks (database (sw_store w)))));
  b_background_maintenance := sw_background_maintenance;
  b_store_snapshot := sw_store_snapshot;
|}.

(** [ShadowRuntime::start_store]. *)
Definition start_store (config : ShadowRuntimeConfig) (spawn : option string) (answers : nat -> DiskAnswer) (s : Store)
    : ShadowStartError + Sys StoreWriter :=
  if store_read_only s then inl ReadOnlyBackend
  else if is_some (storage_limits config)
          && (any_active (manifest s) || is_some (maintenance_interval config) || is_some (seal_log_bytes_threshold config))
  then inl InvalidStorageLimits
  else start_backend (B := StoreWriter) (H := store_backend) config spawn (mkStoreWriter s (storage_limits config) answers 0).
End Backend.

(** ** Deadlines *)

(** [ShadowSubmitter::submit_until] over the outcomes of its attempts: [Ok] is
    the ticket.  [clock k] is the time after attempt [k]. *)
Fixpoint submit_until {T} (fuel : nat) (attempt : nat -> ShadowWrite -> SubmitError + T) (clock : nat -> Z) (deadline : Z) (k : nat)
    (write : ShadowWrite) : option (SubmitError + T) :=
  match fuel with
  | O => None
  | S fuel =>
      match attempt k write with
      | inr ticket => Some (inr ticket)
      | inl (SubmitOverloaded returned) | inl (SubmitPointBudgetExhausted returned) =>
          if deadline <=? clock k then Some (inl (SubmitDeadlineExceeded returned))
          else submit_until fuel attempt clock deadline (S k) returned
      | inl other => Some (inl other)
      end
  end.

(** [ShadowSubmitter::flush_until]. *)
Fixpoint flush_until {T} (fuel : nat) (attempt : nat -> FlushSubmitError + T) (clock : nat -> Z) (deadline : Z) (k : nat)
    : option (FlushSubmitError + T) :=
  match fuel with
  | O => None
  | S fuel =>
      match attempt k with
      | inr ticket => Some (inr ticket)
      | inl FlushSubmitOverloaded =>
          if deadline <=? clock k then Some (inl FlushSubmitDeadlineExceeded) else flush_until fuel attempt clock deadline (S k)
      | inl other => Some (inl other)
      end
  end.

(** A clock that passes the deadline ends both loops; they give up only then,
    after an attempt, and hand the write back. *)
Lemma submit_until_ends {T} (attempt : nat -> ShadowWrite -> SubmitError + T) clock deadline write n :
  deadline <= clock n -> forall k, (k <= n)%nat -> exists r, submit_until (S n - k) attempt clock deadline k write = Some r.
Proof.
  intros Hn k Hk. remember (S n - k)%nat as fuel eqn:Ef. revert k write Hk Ef. induction fuel as [|fuel IH]; intros k write Hk Ef; [lia|].
  cbn. destruct (attempt k write) as [e|ticket]; [|by eexists]. destruct e as [w|w|w|w|w c]; try by eexists.
  all: destruct (deadline <=? clock k) eqn:Ed; [by eexists|].
  all: assert (k <> n) by (intros ->; zbool; lia); apply IH; lia.
Qed.
Lemma flush_until_ends {T} (attempt : nat -> FlushSubmitError + T) clock deadline n :
  deadline <= clock n -> forall k, (k <= n)%nat -> exists r, flush_until (S n - k) attempt clock deadline k = Some r.
Proof.
  intros Hn k Hk. remember (S n - k)%nat as fuel eqn:Ef. revert k Hk Ef. induction fuel as [|fuel IH]; intros k Hk Ef; [lia|].
  cbn. destruct (attempt k) as [e|ticket]; [|by eexists]. destruct e as [| | |c]; try by eexists.
  destruct (deadline <=? clock k) eqn:Ed; [by eexists|]. assert (k <> n) by (intros ->; zbool; lia). apply IH; lia.
Qed.

(** ** How much a commit writes *)

Section Growth.
Context `{Crc} `{RecordCodec} `{IndexCodec} `{TimeZones} {Seg : Type} `{SegmentOps Seg}.
Abbreviation Db := (Database Seg).

(** The file keeps its contents and gets at most [n] more bytes. *)
Definition grows {A} (n : Z) (m : ST Db A) : Prop :=
  forall d d' r, m d = (d', r) -> exists x, contents (log_at_path d') = contents (log_at_path d) ++ x /\ len x <= n.

Lemma grows_weaken {A} n n' (m : ST Db A) : n <= n' -> grows n m -> grows n' m.
Proof. intros Hn Hm d d' r E. destruct (Hm _ _ _ E) as (x & Hx & Hl). exists x. split; [done|lia]. Qed.
Lemma grows_bind {A B} n k (m : ST Db A) (f : A -> ST Db B) : 0 <= k -> grows n m -> (forall a, grows k (f a)) -> grows (n + k) (st_bind m f).
Proof.
  intros Hk Hm Hf d d' r E. unfold st_bind in E. destruct (m d) as [d1 [a|e]] eqn:E1; destruct (Hm _ _ _ E1) as (x & Hx & Hlx).
  - destruct (Hf a _ _ _ E) as (y & Hy & Hly). exists (x ++ y). rewrite Hy, Hx, <- app_assoc. split; [done|]. rewrite zlen_app. lia.
  - injection E as <- <-. exists x. split; [done|]. lia.
Qed.
Lemma grows_bind0 {A B} k (m : ST Db A) (f : A -> ST Db B) : 0 <= k -> grows 0 m -> (forall a, grows k (f a)) -> grows k (st_bind m f).
Proof. intros Hk Hm Hf. eapply grows_weaken; [|by apply grows_bind]. lia. Qed.

Lemma grows_same {A} (m : ST Db A) : (forall d, contents (log_at_path (m d).1) = contents (log_at_path d)) -> grows 0 m.
Proof. intros Hm d d' r E. exists []. specialize (Hm d). rewrite E in Hm. cbn in Hm. by rewrite app_nil_r. Qed.
Lemma grows_id {A} n (m : ST Db A) : 0 <= n -> (forall d, contents (log_at_path (m d).1) = contents (log_at_path d)) -> grows n m.
Proof. intros Hn Hm. by eapply grows_weaken, grows_same. Qed.

(** A call on the handle's file reaches what the path names, or not at all. *)
Lemma log_at_path_file (d : Db) f n :
  (exists x, contents f = contents (file d) ++ x /\ len x <= n) -> 0 <= n ->
  exists x, contents (log_at_path (set_file f d)) = contents (log_at_path d) ++ x /\ len x <= n.
Proof.
  intros Hx Hn. unfold log_at_path. cbn. destruct (renamed_log d) as [g|]; [|exact Hx]. exists []. by rewrite app_nil_r.
Qed.

Lemma grows_reading {A} (m : ST File A) : reading m -> grows 0 (on_file m).
Proof.
  intros Hm d d' r E. unfold on_file, st_zoom in E. destruct (m (file d)) as [f r'] eqn:Em. destruct (Hm _ _ _ Em) as [Hc _].
  injection E as <- <-. apply log_at_path_file; [|done]. exists []. by rewrite app_nil_r.
Qed.

Lemma grows_write data : grows (len data) (on_file (f_write_all data)).
Proof.
  intros d d' r E. unfold on_file, st_zoom in E. destruct (f_write_all data (file d)) as [f r'] eqn:Em. apply f_write_all_spec in Em as [_ Em].
  injection E as <- <-. apply log_at_path_file; [|apply zlen_nonneg]. destruct r' as [[]|e]; [by exists data|]. destruct Em as [k Ek]. exists (take k data).
  split; [done|]. unfold zlen. rewrite length_take. lia.
Qed.
Lemma grows_sync : grows 0 (on_file f_sync).
Proof.
  intros d d' r E. unfold on_file, st_zoom in E. destruct (f_sync (file d)) as [f r'] eqn:Em. apply f_sync_spec in Em as [Em _].
  injection E as <- <-. apply log_at_path_file; [|done]. exists []. by rewrite app_nil_r.
Qed.
Lemma grows_poison {A} n (m : ST Db A) : grows n m -> grows n (poison_on_error m).
Proof. intros Hm d d' r E. unfold poison_on_error in E. destruct (m d) as [d1 [a|e]] eqn:E1; injection E as <- <-; by apply Hm in E1. Qed.

Lemma grows_write_frame hd payload n : grows (len hd + len payload) (write_frame hd payload n).
Proof.
  pose proof (zlen_nonneg payload) as Hp. unfold write_frame.
  apply grows_weaken with ((len hd + (len payload + 0)) + 0); [lia|]. apply grows_bind; [lia| |].
  - apply grows_poison. unfold write_and_sync. apply grows_bind; [lia|apply grows_write|intros _].
    apply grows_bind; [lia|apply grows_write|intros _]. apply grows_bind0; [lia|by apply grows_same|intros _].
    apply grows_bind0; [lia|by apply grows_same|intros d]. apply grows_bind0; [lia| |intros _; by apply grows_same].
    destruct (should_sync _ _); [|by apply grows_same]. apply grows_bind0; [lia|apply grows_sync|intros _; by apply grows_same].
  - intros durable. apply grows_bind0; [lia| |intros _; by apply grows_same]. by destruct durable; apply grows_same.
Qed.

Lemma grows_append_ingress identity canonical t : grows (24 + (40 + len canonical)) (append_ingress identity canonical t).
Proof.
  pose proof (zlen_nonneg canonical) as Hc. unfold append_ingress. apply grows_bind0; [lia|by apply grows_same|intros d].
  do 2 (apply grows_bind0; [lia|by apply grows_same|intros _]). apply grows_bind0; [lia|by apply grows_same|intros _].
  apply grows_bind0; [lia|by apply grows_same|intros payload_len]. apply grows_bind0; [lia|by apply grows_same|intros _].
  do 4 (apply grows_bind0; [lia|by apply grows_same|intros ?]). apply grows_bind0; [lia|apply grows_reading, reading_len|intros off].
  set (payload := encode_identity identity ++ canonical). set (hd := encode_frame_header _ _ _ _).
  assert (Hl : len hd = 24 /\ len payload = 40 + len canonical).
  { unfold zlen, hd, payload. rewrite length_frame_header, length_app, length_encode_identity. lia. }
  apply grows_weaken with ((len hd + len payload) + 0); [lia|]. apply grows_bind; [lia|apply grows_write_frame|intros durable].
  do 5 (apply grows_bind0; [lia|by apply grows_same|intros _]).
  apply grows_bind0; [lia|by destruct durable; apply grows_same|intros _; by apply grows_same].
Qed.

Lemma grows_replay identity canonical receipt : grows 0 (replay_ingress identity canonical receipt).
Proof.
  unfold replay_ingress. apply grows_bind0; [lia|by apply grows_same|intros _]. apply grows_bind0; [lia| |intros matched].
  - unfold ingress_payload_matches. intros d d' r E. unfold poison_if_broken in E.
    destruct (on_file (ingress_payload_matches_at receipt canonical) d) as [d1 r1] eqn:E1.
    apply (grows_reading _ (reading_ingress _ _)) in E1 as (x & Hx & Hl). exists x. split; [|done]. destruct r1 as [b|e]; [by injection E as <- <-|].
    injection E as <- <-. by destruct (poisons e).
  - do 2 (apply grows_bind0; [lia|by apply grows_same|intros ?]). by apply grows_same.
Qed.

(** A commit under a key with a receipt writes nothing; under a new key at
    most the frame that [ingress_frame_bytes] announced. *)
Definition announced_bytes (t : Transaction) : Z := match ingress_frame_bytes t with Ok n => n | Err _ => 0 end.
Definition may_write (identity : IngressIdentity) (t : Transaction) (s : LogState) : Z :=
  if is_some (ingress_receipts s !! (source_id identity, sequence identity)) then 0 else announced_bytes t.

Lemma may_write_nonneg identity t s : 0 <= may_write identity t s.
Proof.
  unfold may_write, announced_bytes, ingress_frame_bytes. destruct (is_some _); [done|]. destruct (encode_canonical_transaction t) as [c|]; [|done].
  cbn [bind]. pose proof (zlen_nonneg c). lia.
Qed.

Lemma writable_unchanged (d d' : Db) r : check_writable d = (d', r) -> d' = d.
Proof. unfold check_writable, st_bind, st_get, st_reject, st_lift, reject. destruct (read_only d), (poisoned d); by intros [= <- _]. Qed.

Lemma commit_ingress_grows identity t (d d' : Db) r :
  commit (with_ingress_identity identity t) d = (d', r) ->
  exists x, contents (log_at_path d') = contents (log_at_path d) ++ x /\ len x <= may_write identity t (state d).
Proof.
  intros E.
  assert (Hid : exists x, contents (log_at_path d) = contents (log_at_path d) ++ x /\ len x <= may_write identity t (state d)).
  { exists []. rewrite app_nil_r. split; [done|]. apply may_write_nonneg. }
  unfold commit in E. unfold st_bind at 1 in E. destruct (check_writable d) as [d1 r1] eqn:Ew. apply writable_unchanged in Ew as ->.
  destruct r1 as [[]|e]; [|by injection E as <- <-]. cbn [with_ingress_identity tx_ingress_identity] in E.
  unfold commit_ordered_ingress in E. unfold st_bind at 1, st_reject at 1, st_lift at 1, reject in E.
  destruct (source_id identity =? 0); [by injection E as <- <-|]. unfold st_bind at 1, st_lift at 1 in E.
  change (encode_canonical_transaction (with_ingress_identity identity t)) with (encode_canonical_transaction t) in E.
  unfold may_write, announced_bytes, ingress_frame_bytes. unfold may_write, announced_bytes, ingress_frame_bytes in Hid.
  destruct (encode_canonical_transaction t) as [canonical|e]; [|by injection E as <- <-].
  unfold st_bind at 1, st_get at 1 in E. unfold key_of in E.
  destruct (ingress_receipts (state d) !! (source_id identity, sequence identity)) as [receipt|]; cbn [is_some bind].
  - by apply grows_replay in E.
  - apply grows_append_ingress in E. by rewrite Z.add_assoc in E.
Qed.
End Growth.

(** ** The limits hold *)

Section Limits.
Context `{Crc} `{RecordCodec} `{IndexCodec} `{TimeZones} `{Lz4} `{MapOrder} `{ManifestCodec} `{ReadDir} `{CacheOrder}.
Context (suffix : rstring -> rstring) (nonce : Z -> Z -> rstring) (seal_nonce : Z -> rstring) (reclaim_env : Z -> ReclaimEnv).
#[local] Instance the_backend : WriterBackend StoreWriter := store_backend suffix nonce seal_nonce reclaim_env.

Definition store_bytes (w : StoreWriter) : Z := tree_bytes (tree_of (sw_store w)).

(** A writer under the limits [l], with no rollups to invalidate. *)
Record limited (l : ShadowStorageLimits) (w : StoreWriter) : Prop := {
  lim_limits : sw_limits w = Some l;
  lim_inactive : any_active (manifest (sw_store w)) = false;
  lim_bytes : store_bytes w <= max_store_bytes l;
}.

Definition files_bytes (s : Store) : Z :=
  nodes_bytes (tr_manifests (tree_of s)) + nodes_bytes (tr_rollups (tree_of s)) + nodes_bytes (tr_segments (tree_of s)).
Lemma store_bytes_log w : store_bytes w = len (contents (log_at_path (database (sw_store w)))) + files_bytes (sw_store w).
Proof. unfold store_bytes, tree_bytes, files_bytes. cbn [tree_of tr_log from_option node_bytes]. lia. Qed.

(** A commit works on the log of the store only, and adds at most its frame. *)
Lemma store_commit_grows identity t s s' r :
  any_active (manifest s) = false -> Store_commit_ingress suffix identity t s = (s', r) ->
  manifest s' = manifest s /\ files_bytes s' = files_bytes s
  /\ exists x, contents (log_at_path (database s')) = contents (log_at_path (database s)) ++ x /\ len x <= may_write identity t (state (database s)).
Proof.
  intros Ha E. unfold Store_commit_ingress, Store_commit in E. unfold st_bind at 1 in E.
  destruct (ensure_writable s) as [s1 r1] eqn:Ew.
  assert (s1 = s) as ->.
  { unfold ensure_writable, ensure_healthy, st_bind, st_get, st_reject, st_lift, reject in Ew.
    destruct (store_read_only s), (store_poisoned s); by injection Ew as <- _. }
  destruct r1 as [[]|e].
  2: { injection E as <- <-. split_and!; [done..|]. exists []. rewrite app_nil_r. split; [done|]. apply may_write_nonneg. }
  unfold st_bind at 1, st_get at 1 in E. rewrite Ha in E. unfold st_bind at 1 in E. unfold on_database, st_zoom in E.
  destruct (commit (with_ingress_identity identity t) (database s)) as [d' r2] eqn:Ec.
  assert (Hs' : s' = set_database d' s).
  { destruct r2 as [c|e]; [|by injection E as <- _]. destruct (cm_deduplicated c); by injection E as <- _. }
  subst s'. split_and!; [done..|]. by eapply commit_ingress_grows.
Qed.

Definition same_writer (w w' : StoreWriter) : Prop :=
  sw_limits w' = sw_limits w /\ manifest (sw_store w') = manifest (sw_store w) /\ store_bytes w' = store_bytes w.
Lemma same_limited l w w' : same_writer w w' -> limited l w -> limited l w'.
Proof. intros (A1 & A2 & A3) [B1 B2 B3]. constructor; congruence. Qed.

(** The check lets a frame pass that fits below the limit, on a disk that
    keeps the reserve after it. *)
Lemma limits_check_spec l t w w' r :
  limits_check l t w = (w', r) ->
  sw_store w' = sw_store w /\ sw_limits w' = sw_limits w
  /\ (r = Ok tt -> exists n space, ingress_frame_bytes t = Ok n /\ store_bytes w + n <= max_store_bytes l
       /\ da_space (sw_answers w (sw_looks w)) = Ok space /\ f_frsize space <> 0
       /\ minimum_free_bytes l + div_ceil n (f_frsize space) * f_frsize space <= f_bavail space * f_frsize space).
Proof.
  intros E. unfold limits_check in E. unfold st_bind at 1, st_lift at 1 in E.
  destruct (ingress_frame_bytes t) as [n|e] eqn:En; [|by injection E as <- <-].
  unfold st_bind at 1, look at 1 in E. unfold st_bind at 1, st_get at 1 in E. cbn [sw_store] in E. unfold st_bind at 1, st_lift at 1 in E.
  set (a := sw_answers w (sw_looks w)) in *. set (w1 := mkStoreWriter _ _ _ _) in E.
  destruct (Store_stored_bytes a (sw_store w)) as [bytes|e] eqn:Eb; [|by injection E as <- <-].
  assert (Hb : bytes = store_bytes w).
  { unfold Store_stored_bytes in Eb. destruct (da_listing a); [done|]. by apply u64_checked_same in Eb. }
  unfold st_bind at 1, st_reject at 1, st_lift at 1, reject in E.
  destruct (is_none_or _ _) eqn:Ei; [by injection E as <- <-|]. unfold st_bind at 1, st_lift at 1 in E.
  destruct (da_space a) as [space|e] eqn:Es; [|by injection E as <- <-].
  unfold st_bind at 1, st_reject at 1, st_lift at 1, reject in E. destruct (f_frsize space =? 0) eqn:Ef; [by injection E as <- <-|].
  unfold st_reject, st_lift, reject in E. destruct (_ <? _) eqn:El; [by injection E as <- <-|]. injection E as <- <-.
  split_and!; [done..|]. intros _. exists n, space. split_and!; [done| |done|by apply Z.eqb_neq|by apply Z.ltb_ge].
  unfold u64_checked_add, u64_checked in Ei. destruct (in_u64 _); [|done]. cbn in Ei. apply Z.ltb_ge in Ei. lia.
Qed.

Lemma receipt_known source seq (d : Database Segment) : is_some (ingress_receipt source seq d) = is_some (ingress_receipts (state d) !! (source, seq)).
Proof. unfold ingress_receipt. by destruct (_ !! _). Qed.

Lemma sw_commit_limited l identity t w w' r :
  limited l w -> sw_commit_ingress suffix identity t w = (w', r) -> limited l w'.
Proof.
  intros [Hl Ha Hb] E. unfold sw_commit_ingress in E. unfold st_bind at 1, st_get at 1 in E. rewrite Hl in E.
  assert (Hstep : forall w1, sw_store w1 = sw_store w -> sw_limits w1 = Some l ->
            store_bytes w + may_write identity t (state (database (sw_store w))) <= max_store_bytes l ->
            on_sw_store (Store_commit_ingress suffix identity t) w1 = (w', r) -> limited l w').
  { intros w1 Hs1 Hl1 Hroom E1. unfold on_sw_store, st_zoom in E1. rewrite Hs1 in E1.
    destruct (Store_commit_ingress suffix identity t (sw_store w)) as [s' r'] eqn:Ec. injection E1 as <- <-.
    destruct (store_commit_grows _ _ _ _ _ Ha Ec) as (Hm & Hf & x & Hx & Hlen).
    constructor; cbn [sw_limits sw_store]; [done|by rewrite Hm|]. rewrite store_bytes_log in *. cbn [sw_store].
    rewrite Hx, zlen_app, Hf. lia. }
  pose proof (receipt_known (source_id identity) (sequence identity) (database (sw_store w))) as Hk.
  destruct (ingress_receipt _ _ _) as [receipt|]; cbn [is_some] in Hk.
  - apply (Hstep w); [done..| |exact E]. unfold may_write. rewrite <- Hk. lia.
  - unfold st_bind in E. destruct (limits_check l t w) as [w1 r1] eqn:E1. destruct (limits_check_spec _ _ _ _ _ E1) as (Hs1 & Hl1 & Hok).
    destruct r1 as [[]|e]; [|injection E as <- <-; constructor; [congruence|by rewrite Hs1|unfold store_bytes in *; by rewrite Hs1]].
    destruct (Hok eq_refl) as (n & space & Hn & Hroom & _). apply (Hstep w1); [done|congruence| |exact E].
    unfold may_write, announced_bytes. rewrite <- Hk, Hn. exact Hroom.
Qed.

Lemma sw_flush_same w w' r : on_sw_store Store_flush w = (w', r) -> same_writer w w'.
Proof.
  unfold on_sw_store, st_zoom. destruct (Store_flush (sw_store w)) as [s' r'] eqn:E. intros [= <- <-].
  assert (Hs : reads Store_flush).
  { unfold Store_flush, ensure_writable, ensure_healthy. apply file_reads_bind; [|intros _; apply reads_database; intros d d' r0 E0].
    - apply file_reads_bind; [by apply reads_id|intros s]. apply file_reads_bind; [by apply reads_id|intros _].
      apply file_reads_bind; [by apply reads_id|intros s0; by apply reads_id].
    - assert (Hg : grows 0 (flush (Seg := Segment))).
      { unfold flush. apply grows_bind0; [lia| |intros _].
        - apply grows_same. intros d0. destruct (check_writable d0) as [d1 r1] eqn:Ew. by apply writable_unchanged in Ew as ->.
        - apply grows_bind0; [lia|apply grows_poison, grows_sync|intros _]. apply grows_bind0; [lia|by apply grows_same|intros _; by apply grows_same]. }
      destruct (Hg _ _ _ E0) as (x & Hx & Hl). assert (x = []) as -> by (destruct x; [done|unfold zlen in Hl; cbn in Hl; lia]).
      by rewrite app_nil_r in Hx. }
  destruct (Hs _ _ _ E) as [Hm Ht]. split; [done|]. split; [exact Hm|]. unfold store_bytes. cbn [sw_store]. by rewrite Ht.
Qed.

Lemma sw_snapshot_same w w' r : sw_store_snapshot w = (w', r) -> same_writer w w'.
Proof.
  unfold sw_store_snapshot. unfold st_bind at 1, on_sw_store at 1, st_zoom at 1.
  destruct (on_database stats (sw_store w)) as [s1 r1] eqn:E1. destruct (reads_stats _ _ _ E1) as [Hm Ht].
  assert (Hs : forall k, same_writer w (mkStoreWriter s1 (sw_limits w) (sw_answers w) k)).
  { intros k. split; [done|]. split; [exact Hm|]. unfold store_bytes. cbn [sw_store]. by rewrite Ht. }
  destruct r1 as [st|e]; [|intros [= <- <-]; apply Hs]. unfold st_bind, look, st_get, st_lift. cbn [sw_store].
  destruct (Store_stored_bytes _ _); intros [= <- <-]; apply Hs.
Qed.

(** Every reachable state of a runtime started with limits keeps them. *)
Lemma limits_hold config spawn answers s l (s0 s1 : Sys StoreWriter) :
  storage_limits config = Some l -> tree_bytes (tree_of s) <= max_store_bytes l ->
  start_store suffix nonce seal_nonce reclaim_env config spawn answers s = inr s0 -> runs config s0 s1 ->
  limited l (wk_backend (sys_work s1)).
Proof.
  intros Hl Hb Hs Hr. unfold start_store in Hs. destruct (store_read_only s); [done|]. rewrite Hl in Hs. cbn [is_some andb] in Hs.
  destruct (any_active (manifest s)) eqn:Ha; [done|]. destruct (maintenance_interval config) eqn:Em; [done|].
  destruct (seal_log_bytes_threshold config); [done|]. cbn [is_some orb] in Hs.
  unfold start_backend in Hs. destruct (queue_capacity config =? 0); [done|]. destruct (b_store_snapshot _) as [b snapshot] eqn:Eb.
  destruct spawn; [done|]. injection Hs as <-.
  eapply (runs_keep config (limited l)); [..|exact Hr|]; cbn [sys_work wk_backend].
  - intros i t w w' r Hi E. exact (sw_commit_limited l i t w w' r Hi E).
  - intros w w' r Hi E. exact (same_limited l w w' (sw_flush_same w w' r E) Hi).
  - intros w w' r Hi E. cbn [b_close the_backend store_backend] in E. unfold st_bind in E.
    destruct (on_sw_store Store_flush w) as [w1 r1] eqn:E1. apply sw_flush_same in E1. apply (same_limited l) in E1; [|done].
    destruct r1; by injection E as <- _.
  - intros w w' r Hi E. exact (same_limited l w w' (sw_snapshot_same w w' r E) Hi).
  - by rewrite Em.
  - apply (same_limited l _ _ (sw_snapshot_same _ _ _ Eb)). constructor; [reflexivity|exact Ha|exact Hb].
Qed.
End Limits.
