(* ===== verification/StoreLog.v ===== *)
(** * StoreLog: the log of the store behind the queue

    The store backend of [src/src/shadow_runtime.rs] keeps the log of its
    database: no commit, flush, snapshot or rollup maintenance loses a receipt,
    a durable watermark or a segment.  Sealing replaces the log and is left
    out: the backend is an instance of the interface when it is off. *)
From S2P Require Import Prelude Errors Bytes Float64 Model Utf8 Transaction Catalog Aggregate Rollup Query Codec Effects Segment RollupSegment Directory Manifest Scan LogInv Database Refine Durable Recovery Planner Store Snapshot Runtime RuntimeInv RuntimeDb StoreWriter.

Section Kept.
Context `{Crc} `{RecordCodecLaws} `{IndexCodec} `{TimeZones} `{Lz4} `{MapOrder} `{ManifestCodec} `{ReadDir} `{CacheOrder}.
Context (suffix : rstring -> rstring) (seals : gset Z) (segs : list RawSegmentDescriptor).

(** The log is well formed and the manifest has the segments [segs]. *)
Definition log_kept (s : Store) : Prop := handle_inv seals (database s) /\ segments (manifest s) = segs.

(** [m] keeps both and returns something of [Q]. *)
Definition keeping {A} (Q : A -> Prop) (m : ST Store A) : Prop :=
  forall s s' r, log_kept s -> m s = (s', r) ->
    log_kept s' /\ keeps (database s) (database s') /\ match r with Ok a => Q a | Err _ => True end.
Abbreviation any := (fun _ => True).

Lemma keeping_same {A} (Q : A -> Prop) (m : ST Store A) :
  (forall s s' r, log_kept s -> m s = (s', r) ->
     database s' = database s /\ manifest s' = manifest s /\ match r with Ok a => Q a | Err _ => True end) -> keeping Q m.
Proof.
  intros Hm s s' r [Hi Hs] E. destruct (Hm _ _ _ (conj Hi Hs) E) as (Ed & Em & Hr). unfold log_kept. rewrite Ed, Em.
  split_and!; [done..|apply keeps_refl|done].
Qed.
Lemma keeping_bind {A B} (P : A -> Prop) (Q : B -> Prop) (m : ST Store A) (k : A -> ST Store B) :
  keeping P m -> (forall a, P a -> keeping Q (k a)) -> keeping Q (st_bind m k).
Proof.
  intros Hm Hk s s' r Hs. unfold st_bind. destruct (m s) as [s1 r1] eqn:E1. destruct (Hm _ _ _ Hs E1) as (L1 & K1 & R1).
  destruct r1 as [a|e]; [|by intros [= <- <-]]. intros E. destruct (Hk a R1 _ _ _ L1 E) as (L2 & K2 & R2).
  split_and!; [done|by eapply keeps_trans|done].
Qed.
Lemma keeping_weaken {A} (P Q : A -> Prop) (m : ST Store A) : (forall a, P a -> Q a) -> keeping P m -> keeping Q m.
Proof. intros Hi Hm s s' r Hs E. destruct (Hm _ _ _ Hs E) as (? & ? & ?). split_and!; [done..|]. destruct r; [by apply Hi|done]. Qed.
Lemma keeping_ret {A} (Q : A -> Prop) a : Q a -> keeping Q (st_ret a).
Proof. intros Ha. apply keeping_same. by intros s s' r _ [= <- <-]. Qed.
Lemma keeping_get : keeping (fun s => segments (manifest s) = segs) st_get.
Proof. apply keeping_same. by intros s s' r [_ Hs] [= <- <-]. Qed.
Lemma keeping_lift {A} (x : Result A) : keeping any (st_lift x).
Proof. apply keeping_same. intros s s' r _ [= <- <-]. by destruct x. Qed.
Lemma keeping_modify f : (forall s, database (f s) = database s) -> (forall s, segments (manifest (f s)) = segs) -> keeping any (st_modify f).
Proof.
  intros Hd Hm s s' r [Hi Hs] [= <- <-]. unfold log_kept. rewrite Hd, Hm. split_and!; [done..|apply keeps_refl|done].
Qed.
Lemma keeping_set f : (forall s, database (f s) = database s) -> (forall s, manifest (f s) = manifest s) -> keeping any (st_modify f).
Proof. intros Hd Hm. apply keeping_same. by intros s s' r _ [= <- <-]. Qed.
Lemma keeping_rollups {A} (m : ST Dir A) : keeping any (on_rollups m).
Proof. apply keeping_same. intros s s' r _. unfold on_rollups, st_zoom. destruct (m _) as [d []]; by intros [= <- <-]. Qed.
Lemma keeping_segments {A} (m : ST Dir A) : keeping any (on_segments m).
Proof. apply keeping_same. intros s s' r _. unfold on_segments, st_zoom. destruct (m _) as [d []]; by intros [= <- <-]. Qed.
Lemma keeping_manifests {A} (m : ST Dir A) : keeping any (on_manifests m).
Proof. apply keeping_same. intros s s' r _. unfold on_manifests, st_zoom. destruct (m _) as [d []]; by intros [= <- <-]. Qed.
Lemma keeping_attempt {A} (m : ST Store A) : keeping any m -> keeping any (attempt m).
Proof.
  intros Hm s s' r Hs. unfold attempt. destruct (m s) as [s1 r1] eqn:E. destruct (Hm _ _ _ Hs E) as (? & ? & _).
  destruct r1; by intros [= <- <-].
Qed.
Lemma keeping_on_error {A} (m : ST Store A) h : keeping any m -> keeping any h -> keeping any (on_error m h).
Proof.
  intros Hm Hh s s' r Hs. unfold on_error. destruct (m s) as [s1 r1] eqn:E. destruct (Hm _ _ _ Hs E) as (L1 & K1 & _).
  destruct r1 as [a|e]; [by intros [= <- <-]|]. destruct (h s1) as [s2 r2] eqn:E2. destruct (Hh _ _ _ L1 E2) as (L2 & K2 & _).
  intros [= <- <-]. split_and!; [done|by eapply keeps_trans|done].
Qed.
Lemma keeping_fold {T A} (Q : T -> Prop) (f : T -> A -> ST Store T) l : forall acc,
  Q acc -> (forall acc a, Q acc -> keeping Q (f acc a)) -> keeping Q (st_fold f acc l).
Proof.
  induction l as [|a l IH]; intros acc Hq Hf; cbn [st_fold]; [by apply keeping_ret|].
  eapply keeping_bind; [by apply Hf|]. intros acc' Hq'. by apply IH.
Qed.
Lemma keeping_flush : keeping any (on_database flush).
Proof.
  intros s s' r [Hi Hs]. unfold on_database, st_zoom. destruct (flush (database s)) as [d' r'] eqn:E. intros [= <- <-].
  destruct (flush_steady seals _ _ _ Hi E) as [[? ?] _]. split_and!; [by split|done|by destruct r'].
Qed.
Lemma keeping_stats : keeping any (on_database stats).
Proof.
  intros s s' r [Hi Hs]. unfold on_database, st_zoom. destruct (stats (database s)) as [d' r'] eqn:E. intros [= <- <-].
  apply stats_near in E. destruct (near_steady seals _ _ Hi E) as [? ?]. split_and!; [by split|done|by destruct r'].
Qed.

Ltac keeping_tac :=
  repeat first
    [ apply keeping_flush | apply keeping_stats | apply keeping_rollups | apply keeping_segments | apply keeping_manifests
    | apply keeping_lift | apply keeping_get | apply keeping_attempt | apply keeping_on_error | by apply keeping_ret
    | apply keeping_set; done | eapply keeping_bind; [|intros ? ?]
    | match goal with
      | |- keeping _ (st_reject _ _) => apply keeping_lift
      | |- keeping _ (match ?x with _ => _ end) => destruct x
      | |- keeping _ (if ?x then _ else _) => destruct x
      end ].

Lemma keeping_ensure_writable : keeping any ensure_writable.
Proof. unfold ensure_writable, ensure_healthy. keeping_tac. Qed.

Lemma keeping_removal : keeping any remove_unreferenced_files.
Proof. unfold remove_unreferenced_files. keeping_tac. Qed.

Lemma keeping_publish next : segments next = segs -> keeping any (publish_or_poison suffix next).
Proof.
  intros Hn. unfold publish_or_poison. eapply keeping_bind; [keeping_tac|intros _ _].
  eapply keeping_bind; [by apply keeping_modify|intros _ _]. eapply keeping_bind; [keeping_tac|intros _ _]. apply keeping_removal.
Qed.

Lemma keeping_advance points : keeping any (advance_after_points suffix points).
Proof.
  unfold advance_after_points. eapply keeping_bind; [keeping_tac|intros st _]. eapply keeping_bind; [apply keeping_get|intros s Hs].
  destruct (any_active _); [by apply keeping_publish|by apply keeping_ret].
Qed.

Lemma keeping_shard nonce generation st definition res p shard :
  segments (next p) = segs -> keeping (fun p => segments (next p) = segs) (maintain_shard suffix nonce generation st definition res p shard).
Proof.
  intros Hp. unfold maintain_shard. destruct (existsb _ _); [by apply keeping_ret|]. destruct (update_where _ _ _) as [rest hit].
  eapply keeping_bind; [keeping_tac|intros w _]. by apply keeping_ret.
Qed.

Lemma keeping_tier nonce now generation st definition earliest latest p tier :
  segments (next p) = segs ->
  keeping (fun p => segments (next p) = segs) (maintain_tier suffix nonce now generation st definition earliest latest p tier).
Proof.
  intros Hp. unfold maintain_tier. eapply keeping_bind; [keeping_tac|intros needed _]. destruct (List.filter _ _); [by apply keeping_ret|].
  eapply keeping_bind; [keeping_tac|intros s _]. do 3 (eapply keeping_bind; [keeping_tac|intros ? _]).
  apply keeping_fold; [done|]. intros p' shard Hp'. by apply keeping_shard.
Qed.

Lemma keeping_series nonce now generation st p definition :
  segments (next p) = segs -> keeping (fun p => segments (next p) = segs) (maintain_series suffix nonce now generation st p definition).
Proof.
  intros Hp. unfold maintain_series. destruct (negb _); [by apply keeping_ret|].
  destruct (deactivate_expired_rollups (next p) definition now) as [m hit] eqn:Ed.
  assert (Hm : segments m = segs).
  { unfold deactivate_expired_rollups in Ed. repeat case_match; simplify_eq; done. }
  eapply keeping_bind; [keeping_tac|intros s _]. eapply keeping_bind; [keeping_tac|intros skip _]. destruct skip.
  - destruct (stamp_active_series_source _ _ _ _) as [m' hit'] eqn:Es. apply keeping_ret.
    unfold stamp_active_series_source in Es. repeat case_match; simplify_eq; done.
  - destruct (series_valid_bounds _ _ _) as [[earliest latest]|]; [|by apply keeping_ret].
    apply keeping_fold; [done|]. intros p' tier Hp'. by apply keeping_tier.
Qed.

Lemma keeping_gates now : keeping any (retention_gates now).
Proof. unfold retention_gates, ensure_healthy. keeping_tac. Qed.

(** [Store::maintain] flushes the log and publishes manifests of other rollups. *)
Lemma keeping_maintain nonce now : keeping any (maintain suffix nonce now).
Proof.
  unfold maintain. eapply keeping_bind; [apply keeping_ensure_writable|intros _ _].
  do 2 (eapply keeping_bind; [keeping_tac|intros ? _]). eapply keeping_bind; [apply keeping_get|intros s Hs].
  eapply keeping_bind; [keeping_tac|intros skip _]. destruct skip.
  - eapply keeping_bind; [by apply keeping_set|intros _ _]. eapply keeping_bind; [apply keeping_gates|intros ? _]. by apply keeping_ret.
  - eapply keeping_bind; [apply (keeping_fold (fun p => segments (next p) = segs)); [done|]; intros p d Hp; by apply keeping_series|].
    intros p Hp. eapply keeping_bind; [destruct (changed p); [by apply keeping_publish|by apply keeping_ret]|intros _ _].
    eapply keeping_bind; [by apply keeping_set|intros _ _]. eapply keeping_bind; [apply keeping_gates|intros ? _]. keeping_tac.
Qed.

(** ** Commits *)

Lemma flush_acks (d d' : Database Segment) i b : handle_inv seals d -> flush d = (d', Ok tt) -> acked i b d -> acked i true d'.
Proof.
  intros Hi E (r & Er & Hid & _). destruct (flush_spec seals d d' _ Hi E) as (_ & Hk & Hd). unfold acked, ingress_receipt in *.
  destruct (ingress_receipts (state d) !! (source_id i, sequence i)) as [stored|] eqn:Es; [|done]. injection Er as <-.
  rewrite (kp_receipts _ _ Hk _ _ Es). eexists. split; [done|]. split; [done|]. intros _. cbn [rc_durable].
  destruct (handle_wf seals d Hi) as (_ & _ & Hw). destruct (wi_bound _ Hw _ _ Es) as (n & Hn & Hle). cbn in Hn, Hle.
  pose proof (flush_steady seals d d' _ Hi E) as [_ Hdu]. cbn in Hdu. rewrite Hdu, Hn. cbn. zbool. lia.
Qed.

Lemma acked_keeps (d d' : Database Segment) i b : keeps d d' -> acked i b d -> acked i b d'.
Proof.
  intros Hk Ha.
  exact (reply_holds_keeps (Some (ReplyWrite (inr (mkShadowAck i None None (mkCommit 0 0 0 0 b false))))) d d' Hk Ha).
Qed.

(** [Store::commit_ingress]: what it acknowledges is in the log. *)
Lemma store_commit_kept i t s s' r :
  log_kept s -> typed_transaction t -> typed_identity i -> Store_commit_ingress suffix i t s = (s', r) ->
  log_kept s' /\ keeps (database s) (database s') /\ match r with Ok c => acked i (cm_durable c) (database s') | Err _ => True end.
Proof.
  intros Hs Ht Hti. unfold Store_commit_ingress, Store_commit. unfold st_bind at 1.
  destruct (ensure_writable s) as [s0 r0] eqn:E0. destruct (keeping_ensure_writable _ _ _ Hs E0) as (L0 & K0 & _).
  destruct r0 as [[]|e]; [|by intros [= <- <-]]. unfold st_bind at 1, st_get at 1. unfold st_bind at 1, on_database at 1, st_zoom.
  destruct (commit (with_ingress_identity i t) (database s0)) as [d1 r1] eqn:E1. destruct L0 as [Hi0 Hg0].
  destruct (commit_steady seals _ _ _ _ _ Hi0 Ht Hti E1) as [[Hi1 K1] Ha]. pose proof (keeps_trans _ _ _ K0 K1) as K.
  destruct r1 as [c|e]; [|by intros [= <- <-]]. assert (L1 : log_kept (set_database d1 s0)) by done.
  destruct (cm_deduplicated c); [by intros [= <- <-]|]. unfold st_bind at 1, st_get at 1.
  set (points := if any_active _ then _ else _). destruct points as [|p ps]; [by intros [= <- <-]|].
  destruct (any_active (manifest (set_database d1 s0))); [|by intros [= <- <-]]. unfold make_durable_and_advance. unfold st_bind at 1.
  assert (Hadv : forall c' s1 s' r, log_kept s1 -> keeps (database s) (database s1) -> acked i (cm_durable c') (database s1) ->
    (advance_after_points suffix (p :: ps) ;* st_ret c') s1 = (s', r) ->
    log_kept s' /\ keeps (database s) (database s') /\ match r with Ok c => acked i (cm_durable c) (database s') | Err _ => True end).
  { intros c' s1 s2 r2 L K' A E. unfold st_bind in E. destruct (advance_after_points suffix (p :: ps) s1) as [s3 r3] eqn:E3.
    destruct (keeping_advance _ _ _ _ L E3) as (L3 & K3 & _). destruct r3; injection E as <- <-; split_and!; try done;
      try (by eapply keeps_trans). by eapply acked_keeps. }
  destruct (cm_durable c) eqn:Ed; cbn [st_ret].
  - apply Hadv; [done..|]. by rewrite Ed.
  - unfold st_bind at 1, on_database, st_zoom. cbn [database set_database].
    destruct (flush d1) as [d2 r2] eqn:E2. destruct (flush_steady seals _ _ _ Hi1 E2) as [[Hi2 K2] _].
    destruct r2 as [[]|e]; [|intros [= <- <-]; split_and!; [done..|exact (keeps_trans _ _ _ K K2)|done]].
    cbn [st_ret]. apply Hadv; [done|exact (keeps_trans _ _ _ K K2)|]. cbn. exact (flush_acks _ _ _ _ Hi1 E2 Ha).
Qed.
End Kept.

(** ** The backend *)

Section Backend.
Context `{Crc} `{RecordCodecLaws} `{IndexCodec} `{TimeZones} `{Lz4} `{MapOrder} `{ManifestCodec} `{ReadDir} `{CacheOrder}.
Context (suffix : rstring -> rstring) (nonce : Z -> Z -> rstring) (seal_nonce : Z -> rstring) (reclaim_env : Z -> ReclaimEnv).
Abbreviation backend := (store_backend suffix nonce seal_nonce reclaim_env).

Lemma zoom_kept seals segs {A} (Q : A -> Prop) (m : ST Store A) w w' r :
  keeping seals segs Q m -> log_kept seals segs (sw_store w) -> on_sw_store m w = (w', r) ->
  log_kept seals segs (sw_store w') /\ keeps (database (sw_store w)) (database (sw_store w')).
Proof.
  intros Hm Hw. unfold on_sw_store, st_zoom. destruct (m (sw_store w)) as [s' r'] eqn:E. intros [= <- <-].
  destruct (Hm _ _ _ Hw E) as (? & ? & _). done.
Qed.

Lemma limits_check_store l t w w' r : limits_check l t w = (w', r) -> sw_store w' = sw_store w.
Proof. intros E. by destruct (limits_check_spec _ _ _ _ _ E) as (Hs & _). Qed.

(** A store that does not seal in the background keeps its log. *)
Definition store_log_backend seals (segs : list RawSegmentDescriptor) config :
  seal_log_bytes_threshold config = None -> LogBackend (Seg := Segment) (H5 := backend) StoreWriter seals config.
Proof.
  intros Hseal. refine {| log_of := fun w => database (sw_store w); lb_inv := fun w => log_kept seals segs (sw_store w) |}.
  - by intros w [? _].
  - done.
  - intros i t w w' r Hw Ht Hti E. cbn [b_commit_ingress store_backend] in E. unfold sw_commit_ingress in E.
    unfold st_bind at 1, st_get at 1 in E. unfold st_bind at 1 in E.
    set (check := match ingress_receipt _ _ _ with Some _ => _ | None => _ end) in E. destruct (check w) as [w1 r1] eqn:E1.
    assert (E2 : sw_store w1 = sw_store w).
    { subst check. destruct (ingress_receipt _ _ _), (sw_limits w); try (by injection E1 as <- _). by apply limits_check_store in E1. }
    rewrite <- E2. destruct r1 as [[]|e]; [|injection E as <- <-; rewrite E2; split_and!; [done|apply keeps_refl|done]].
    rewrite <- E2 in Hw. unfold on_sw_store, st_zoom in E. destruct (Store_commit_ingress suffix i t (sw_store w1)) as [s' r'] eqn:Ec.
    injection E as <- <-. by apply (store_commit_kept suffix seals segs i t _ _ _ Hw Ht Hti Ec).
  - intros w w' r Hw E. cbn [b_flush store_backend] in E. unfold on_sw_store, st_zoom, Store_flush in E.
    unfold st_bind at 1 in E. destruct (ensure_writable (sw_store w)) as [s0 r0] eqn:E0.
    assert (Hs0 : s0 = sw_store w).
    { unfold ensure_writable, ensure_healthy, st_bind, st_get, st_reject, st_lift, reject in E0.
      destruct (store_read_only (sw_store w)), (store_poisoned (sw_store w)); congruence. }
    subst s0. destruct r0 as [[]|e]; [|injection E as <- <-; split_and!; [done|apply keeps_refl|done]].
    unfold on_database, st_zoom in E. destruct (flush (database (sw_store w))) as [d' r'] eqn:Ef. injection E as <- <-.
    destruct Hw as [Hi Hs]. by destruct (flush_steady seals _ _ _ Hi Ef) as [[? ?] ?].
  - intros w w' r Hw E. cbn [b_close store_backend] in E. unfold st_bind at 1 in E.
    destruct (on_sw_store Store_flush w) as [w1 r1] eqn:E1.
    assert (Hk : keeping seals segs (fun _ => True) Store_flush).
    { unfold Store_flush. eapply keeping_bind; [apply keeping_ensure_writable|intros _ _; apply keeping_flush]. }
    pose proof (zoom_kept _ _ _ _ _ _ _ Hk Hw E1) as Hz. destruct r1; by injection E as <- _.
  - intros w w' r Hw E. cbn [b_store_snapshot store_backend] in E. unfold sw_store_snapshot in E. unfold st_bind at 1 in E.
    destruct (on_sw_store (on_database stats) w) as [w1 r1] eqn:E1.
    pose proof (zoom_kept _ _ _ _ _ _ _ (keeping_stats seals segs) Hw E1) as Hz. destruct r1 as [st|e]; [|by injection E as <- _].
    unfold st_bind at 1, look in E. unfold st_bind at 1, st_get in E. unfold st_bind, st_lift in E.
    destruct (Store_stored_bytes _ _); by injection E as <- _.
  - intros now w w' r Hw E. cbn [b_background_maintenance store_backend] in E. unfold sw_background_maintenance in E.
    unfold st_bind at 1 in E. destruct (on_sw_store (maintain suffix (nonce now) now) w) as [w1 r1] eqn:E1.
    pose proof (zoom_kept _ _ _ _ _ _ _ (keeping_maintain suffix seals segs _ _) Hw E1) as Hz.
    destruct r1 as [st|e]; [|by injection E as <- _]. rewrite Hseal in E. by injection E as <- _.
Defined.

(** What a runtime over a store acknowledged as durable is in every log that a
    power loss leaves, and the store has the segments it was started with. *)
Lemma answered_store_write_survives seals config answers s0 (sys0 s : Sys StoreWriter) t a :
  seal_log_bytes_threshold config = None -> handle_inv seals (database s0) ->
  start_store suffix nonce seal_nonce reclaim_env config None answers s0 = inr sys0 -> runs (H := backend) config sys0 s ->
  Forall typed_command (sys_sent s) -> (t, ReplyWrite (inr a)) ∈ sys_replies s ->
  cm_durable (sa_commit a) = true
  \/ (exists t' f, (t', ReplyFlush (inr f)) ∈ sys_replies s /\ fa_source_id f = source_id (sa_identity a)
        /\ sequence (sa_identity a) <= fa_through_sequence f) ->
  let s' := sw_store (wk_backend (sys_work s)) in
  segments (manifest s') = segments (manifest s0)
  /\ forall left m, crash (file (database s')) left -> exists (d' : Database Segment) r,
    open_file LockAcquired (Database.config (database s')) false seals (mkFile left m []) = (file d', Ok d')
    /\ ingress_receipt (source_id (sa_identity a)) (sequence (sa_identity a)) d' = Some r
    /\ rc_identity r = sa_identity a /\ rc_durable r = true.
Proof.
  intros Hseal Hi Hs Hr Ht Ha Hdu s'. unfold start_store in Hs. destruct (store_read_only s0); [done|]. destruct (is_some _ && _); [done|].
  set (LB := store_log_backend seals (segments (manifest s0)) config Hseal).
  assert (H0s : lb_inv (LogBackend := LB) (mkStoreWriter s0 (storage_limits config) answers 0)) by done.
  destruct (replies_hold (H5 := backend) seals config _ _ _ H0s Hs Hr Ht) as [[_ Hsegs] _]. split; [exact Hsegs|].
  intros left m Hc. exact (answered_write_in_log (H5 := backend) seals config _ _ _ _ _ _ m H0s Hs Hr Ht Ha Hdu Hc).
Qed.
End Backend.
