(* ===== verification/Server.v ===== *)
(** * Server: [src/src/shadow_server.rs], sessions of the sidecar

    The server thread accepts one client at a time.  It reads a frame, answers
    it, and reads the next; a commit or a flush goes through the queue of the
    runtime, whose worker runs at the same time.  [server_step] interleaves the
    actions of the server thread with the steps of the runtime.

    What the operating system answers (whether a write succeeds, the clock, the
    process identifier, whether a wait timed out) is an input of an action. *)
From S2P Require Import Prelude Errors Bytes Model Transaction Query Codec Effects Scan Database Wire Protocol Runtime.

(** ** Responses *)

(** [stable_error]. *)
Definition stable_message (code : ErrorCode) : rstring :=
  match code with
  | InvalidRequest => str "invalid request"
  | Overloaded => str "shadow writer overloaded"
  | Internal => str "shadow writer unavailable"
  | Unsupported => str "unsupported protocol version"
  | IdempotencyConflict => str "idempotency conflict"
  end.
Definition stable_error (code : ErrorCode) (retryable : bool) : WireMessage :=
  WireResponse (RespError (mkErrorResponse code retryable (stable_message code))).

Definition map_submit_error (e : SubmitError) : WireMessage :=
  match e with
  | SubmitOverloaded _ | SubmitPointBudgetExhausted _ | SubmitDeadlineExceeded _ => stable_error Overloaded true
  | SubmitClosed _ | SubmitPoisoned _ _ => stable_error Internal true
  end.

Definition map_store_error (e : Error) : WireMessage :=
  match e with
  | ResourceLimit reason => WireResponse (RespError (mkErrorResponse Overloaded true (str reason)))
  | IngressSourceSequenceConflict _ _ | IngressCommitIdConflict _ => stable_error IdempotencyConflict false
  | IngressSequenceNotIncreasing _ _ _ | BatchTooLarge _ _ | InvalidArgument _ | InvalidModel _ | Serialization _ =>
      stable_error InvalidRequest false
  | _ => stable_error Internal true
  end.

Definition map_write_failure (e : ShadowWriteFailure) : WireMessage :=
  match e with
  | WriteRejected e => map_store_error e
  | WriteWriter _ | WritePoisoned _ | WriteWriterPanicked _ | WriteWorkerStopped => stable_error Internal true
  end.

Definition map_flush_submit_error (e : FlushSubmitError) : WireMessage :=
  match e with
  | FlushSubmitOverloaded | FlushSubmitDeadlineExceeded => stable_error Overloaded true
  | FlushSubmitClosed | FlushSubmitPoisoned _ => stable_error Internal true
  end.

Definition map_flush_failure (e : ShadowFlushFailure) : WireMessage :=
  match e with
  | FlushNotAccepted _ _ _ => stable_error InvalidRequest true
  | FlushRejected e => map_store_error e
  | FlushWriter _ | FlushPoisoned _ | FlushWriterPanicked _ | FlushWorkerStopped => stable_error Internal true
  end.

Inductive AckWaitError := WaitTimeout | WaitWorkerStopped.
Definition map_wait_error (e : AckWaitError) : WireMessage := stable_error Internal true.

(** [u32::try_from(n).unwrap_or(u32::MAX)]. *)
Definition u32_clamp (n : Z) : Z := default (2 ^ 32 - 1) (u32_try_from n).

(** The acknowledgement [handle_commit] sends. *)
Definition commit_ack (batch : CommitBatchRequest) (a : ShadowAck) : WireMessage :=
  let commit := sa_commit a in
  WireResponse (RespAck (mkAck AckCommitBatch (batch_source_id batch) (batch_sequence batch) (batch_commit_id batch)
    (sa_accepted_through a) (sa_durable_through a) (cm_durable commit) (cm_deduplicated commit) (cm_frame_offset commit)
    (u32_clamp (cm_records commit)) (u32_clamp (cm_points commit)) (cm_bytes_written commit))).

(** The acknowledgement [handle_flush] sends. *)
Definition flush_ack (source through : Z) (a : ShadowFlushAck) : WireMessage :=
  if is_none_or (fa_durable_through a) (fun watermark => watermark <? through) then stable_error Internal true
  else WireResponse (RespAck (mkAck AckFlush source through 0 (fa_accepted_through a) (fa_durable_through a)
                                true false 0 0 0 0)).

Definition sync_policy_from_durability (d : Durability) : SyncPolicy :=
  match d with Always => SyncAlways | Manual => SyncManual | EveryBytes n => SyncEveryBytes n end.

Record ServerCounters := mkCounters { overload : Z; protocol_error : Z }.

(** [handle_health], from the health and the queue usage of the runtime. *)
Definition handle_health (nonce source : Z) (h : HealthState) (u : QueueUsage) (c : ServerCounters) : WireMessage :=
  let marks := default (mkWatermarks None None) (hs_source_watermarks h !! source) in
  let status := match hs_state h with
                | StRunning => match hs_resource_limit h with Some _ => Degraded | None => Healthy end
                | StClosing => Degraded
                | StPoisoned | StClosed => Unavailable
                end in
  WireResponse (RespHealth (mkHealth nonce source status (u32_clamp (queued u)) (accepted_through marks)
    (durable_through marks) (overload c) (protocol_error c) (so_bytes (hs_store h)) (so_points (hs_store h))
    (so_commits (hs_store h)) (so_recovered_tail_bytes (hs_store h))
    (sync_policy_from_durability (so_durability (hs_store h))) (so_last_ack_durable (hs_store h)))).

(** [next_session_id]; [count] is the counter, [now] the clock in microseconds. *)
Definition next_session_id (count now process_id : Z) : bytes :=
  to_be 8 (now mod 2 ^ 64) ++ to_be 8 (Z.lxor count process_id).

(** What [handle_commit] submits. *)
Definition batch_write (batch : CommitBatchRequest) : ShadowWrite :=
  let i := mkIdentity (batch_source_id batch) (batch_sequence batch) (batch_commit_id batch) in
  mkWrite i (with_ingress_identity i (transaction_from_batch batch)).

(** The reads of [DeadlineReader], from what the socket does: an expired
    deadline is an error, and a reset connection is the end of the stream. *)
Inductive SocketEvent :=
  | SockBytes (b : bytes)
  | SockInterrupted
  | SockReset
  | SockExpired
  | SockFailed (kind : string).

Definition deadline_read (e : SocketEvent) : ReadEvent :=
  match e with
  | SockBytes b => Arrived b
  | SockInterrupted => Interrupted
  | SockReset => Arrived []
  | SockExpired => ReadFailed "TimedOut"
  | SockFailed kind => ReadFailed kind
  end.

(** ** Connections *)

(** Where [serve_connection] is: at the top of its loop, inside a call of the
    submitter, waiting for the reply to a ticket, or about to write. *)
Inductive ConnAt :=
  | Reading
  | WantSubmit (batch : CommitBatchRequest)
  | InSubmit (batch : CommitBatchRequest)
  | AwaitWrite (batch : CommitBatchRequest) (ticket : nat)
  | WantFlush (source through : Z)
  | InFlush (source through : Z)
  | AwaitFlush (source through : Z) (ticket : nat)
  | Replying (m : WireMessage).

(** [cn_requests] and [cn_out] keep the frames read and written, newest first. *)
Record Conn := mkConn {
  cn_source : option Z;
  cn_in : list ReadEvent;
  cn_at : ConnAt;
  cn_requests : list WireMessage;
  cn_out : list WireMessage;
}.

Definition new_connection (events : list SocketEvent) : Conn := mkConn None (map deadline_read events) Reading [] [].
Definition set_at (p : ConnAt) (c : Conn) : Conn := mkConn (cn_source c) (cn_in c) p (cn_requests c) (cn_out c).

Record ShadowServerReport := mkServerReport {
  accepted_clients : Z;
  peer_auth_failures : Z;
  client_errors : Z;
  overload_count : Z;
  protocol_error_count : Z;
  database_bytes : Z;
  database_points : Z;
  database_commits : Z;
  recovered_tail_bytes : Z;
  report_sync_policy : SyncPolicy;
  report_last_ack_durable : bool;
}.

(** The server thread beside the runtime.  [srv_written] keeps every response
    written to any client, newest first. *)
Record Server {B : Type} := mkServer {
  srv_sys : Sys B;
  srv_conn : option Conn;
  srv_counters : ServerCounters;
  srv_accepted : Z;
  srv_auth_failures : Z;
  srv_client_errors : Z;
  srv_sessions : Z;
  srv_stop : bool;
  srv_written : list WireMessage;
}.
Arguments Server : clear implicits.

(** What the system answers to an action of the server thread. *)
Record Env := mkEnv {
  env_now_micros : Z;
  env_process_id : Z;
  env_write_ok : bool;
  env_stop_seen : bool;
  env_wait : AckWaitError;
}.

Section Sessions.
Context `{Crc} `{TimeZones} {B : Type} `{WriterBackend B} (config : ShadowRuntimeConfig) (allowed_peer_uid : Z).
Abbreviation Srv := (Server B).

Definition set_sys (v : Sys B) (s : Srv) : Srv :=
  mkServer _ v (srv_conn s) (srv_counters s) (srv_accepted s) (srv_auth_failures s) (srv_client_errors s)
    (srv_sessions s) (srv_stop s) (srv_written s).
Definition set_conn (v : option Conn) (s : Srv) : Srv :=
  mkServer _ (srv_sys s) v (srv_counters s) (srv_accepted s) (srv_auth_failures s) (srv_client_errors s)
    (srv_sessions s) (srv_stop s) (srv_written s).
Definition set_counters (v : ServerCounters) (s : Srv) : Srv :=
  mkServer _ (srv_sys s) (srv_conn s) v (srv_accepted s) (srv_auth_failures s) (srv_client_errors s)
    (srv_sessions s) (srv_stop s) (srv_written s).
Definition next_session (s : Srv) : Srv :=
  mkServer _ (srv_sys s) (srv_conn s) (srv_counters s) (srv_accepted s) (srv_auth_failures s) (srv_client_errors s)
    ((srv_sessions s + 1) mod 2 ^ 64) (srv_stop s) (srv_written s).
Definition stop_server (s : Srv) : Srv :=
  mkServer _ (srv_sys s) (srv_conn s) (srv_counters s) (srv_accepted s) (srv_auth_failures s) (srv_client_errors s)
    (srv_sessions s) true (srv_written s).
Definition written (m : WireMessage) (s : Srv) : Srv :=
  mkServer _ (srv_sys s) (srv_conn s) (srv_counters s) (srv_accepted s) (srv_auth_failures s) (srv_client_errors s)
    (srv_sessions s) (srv_stop s) (m :: srv_written s).

(** [serve_connection] returns, and [serve] counts an error. *)
Definition close_connection (ok : bool) (s : Srv) : Srv :=
  mkServer _ (srv_sys s) None (srv_counters s) (srv_accepted s) (srv_auth_failures s)
    (if ok then srv_client_errors s else u64_saturating_add (srv_client_errors s) 1)
    (srv_sessions s) (srv_stop s) (srv_written s).

(** [accept] in [serve]: a client with the wrong user is dropped. *)
Definition accept_client (peer_uid : Z) (events : list SocketEvent) (s : Srv) : Srv :=
  let accepted := u64_saturating_add (srv_accepted s) 1 in
  if negb (peer_uid =? allowed_peer_uid) then
    mkServer _ (srv_sys s) None (srv_counters s) accepted (u64_saturating_add (srv_auth_failures s) 1)
      (srv_client_errors s) (srv_sessions s) (srv_stop s) (srv_written s)
  else
    mkServer _ (srv_sys s) (Some (new_connection events)) (srv_counters s) accepted (srv_auth_failures s)
      (srv_client_errors s) (srv_sessions s) (srv_stop s) (srv_written s).

(** What a frame asks for: the source the session is bound to afterwards, and
    the next thing to do. *)
Definition dispatch (hello : HelloResponse) (source : option Z) (m : WireMessage) (h : HealthState) (u : QueueUsage)
    (c : ServerCounters) : option Z * ConnAt :=
  let refused := Replying (stable_error InvalidRequest false) in
  match m, source with
  | WireRequest (ReqHello r), None =>
      if hello_source_id r =? 0 then (None, refused)
      else (Some (hello_source_id r), Replying (WireResponse (RespHello hello)))
  | WireRequest _, None => (None, refused)
  | WireRequest (ReqHello _), Some _ => (source, refused)
  | WireRequest (ReqCommitBatch batch), Some bound =>
      (source, if batch_source_id batch =? bound then WantSubmit batch else refused)
  | WireRequest (ReqFlush r), Some bound =>
      (source, if flush_source_id r =? bound then WantFlush (flush_source_id r) (through_sequence r) else refused)
  | WireRequest (ReqHealth r), Some bound => (source, Replying (handle_health (health_nonce r) bound h u c))
  | WireResponse _, _ => (source, refused)
  end.

Definition is_bound_hello (source : option Z) (m : WireMessage) : bool :=
  match m, source with WireRequest (ReqHello r), None => negb (hello_source_id r =? 0) | _, _ => false end.

(** One frame is read, or the connection ends. *)
Definition read_turn (e : Env) (c : Conn) (s : Srv) : Srv :=
  if srv_stop s then close_connection true s
  else
    match read_from (cn_in c) with
    | inr (m, rest) =>
        let hello := mkHelloResponse PROTOCOL_VERSION (next_session_id (srv_sessions s) (env_now_micros e) (env_process_id e))
                       (env_now_micros e) in
        let '(source, at_) := dispatch hello (cn_source c) m (sys_health (srv_sys s)) (sys_usage (srv_sys s)) (srv_counters s) in
        let s := if is_bound_hello (cn_source c) m then next_session s else s in
        set_conn (Some (mkConn source rest at_ (m :: cn_requests c) (cn_out c))) s
    | inl (Truncated _ 0) => close_connection true s
    | inl error =>
        if env_stop_seen e then close_connection true s
        else
          let s := set_counters (mkCounters (overload (srv_counters s)) ((protocol_error (srv_counters s) + 1) mod 2 ^ 64)) s in
          let code := match error with ProtoUnsupportedVersion _ => Unsupported | _ => InvalidRequest end in
          let s := if env_write_ok e then written (stable_error code false) s else s in
          close_connection false s
    end.

Definition is_overloaded (m : WireMessage) : bool :=
  match m with WireResponse (RespError r) => match error_code r with Overloaded => true | _ => false end | _ => false end.

(** The response is counted and written. *)
Definition reply_turn (e : Env) (m : WireMessage) (c : Conn) (s : Srv) : Srv :=
  let s := if is_overloaded m
           then set_counters (mkCounters ((overload (srv_counters s) + 1) mod 2 ^ 64) (protocol_error (srv_counters s))) s
           else s in
  if env_write_ok e
  then set_conn (Some (mkConn (cn_source c) (cn_in c) Reading (cn_requests c) (m :: cn_out c))) (written m s)
  else close_connection false s.

Definition reply_to (t : nat) (s : Sys B) : option Reply :=
  snd <$> find (fun '(t', _) => Nat.eqb t t') (sys_replies s).

(** The next action of the server thread; [None] while the call it is in has
    not returned. *)
Definition server_turn (e : Env) (s : Srv) : option Srv :=
  match srv_conn s with
  | None => None
  | Some c =>
      let go p := Some (set_conn (Some (set_at p c)) s) in
      match cn_at c with
      | Reading => Some (read_turn e c s)
      | WantSubmit batch =>
          match sys_gate (srv_sys s) with
          | GateFree => Some (set_sys (set_gate (SubmitChecking (batch_write batch)) (srv_sys s))
                                (set_conn (Some (set_at (InSubmit batch) c)) s))
          | _ => go (Replying (map_submit_error (SubmitOverloaded (batch_write batch))))
          end
      | WantFlush source through =>
          match sys_gate (srv_sys s) with
          | GateFree => Some (set_sys (set_gate (FlushChecking source through) (srv_sys s))
                                (set_conn (Some (set_at (InFlush source through) c)) s))
          | _ => go (Replying (map_flush_submit_error FlushSubmitOverloaded))
          end
      | InSubmit _ | InFlush _ _ => None
      | AwaitWrite batch t =>
          match reply_to t (srv_sys s) with
          | Some (ReplyWrite (inr a)) => go (Replying (commit_ack batch a))
          | Some (ReplyWrite (inl f)) => go (Replying (map_write_failure f))
          | _ => go (Replying (map_wait_error (env_wait e)))
          end
      | AwaitFlush source through t =>
          match reply_to t (srv_sys s) with
          | Some (ReplyFlush (inr a)) => go (Replying (flush_ack source through a))
          | Some (ReplyFlush (inl f)) => go (Replying (map_flush_failure f))
          | _ => go (Replying (map_wait_error (env_wait e)))
          end
      | Replying m => Some (reply_turn e m c s)
      end
  end.

(** The runtime moved; the server sees that its own call returned. *)
Definition returned (p : ConnAt) (sys : Sys B) : ConnAt :=
  match p, sys_gate sys, sys_outcomes sys with
  | InSubmit batch, GateFree, Submitted t _ :: _ => AwaitWrite batch t
  | InSubmit batch, GateFree, NotSubmitted e :: _ => Replying (map_submit_error e)
  | InFlush source through, GateFree, FlushSubmitted t :: _ => AwaitFlush source through t
  | InFlush source through, GateFree, FlushNotSubmitted e :: _ => Replying (map_flush_submit_error e)
  | _, _, _ => p
  end.

Definition runtime_moved (sys : Sys B) (s : Srv) : Srv :=
  set_conn ((fun c => set_at (returned (cn_at c) sys) c) <$> srv_conn s) (set_sys sys s).

Inductive server_step : Srv -> Srv -> Prop :=
  | srv_step_accept s peer_uid events :
      srv_conn s = None -> srv_stop s = false -> server_step s (accept_client peer_uid events s)
  | srv_step_turn e s s' : sys_senders (srv_sys s) = true -> server_turn e s = Some s' -> server_step s s'
  | srv_step_stop s : server_step s (stop_server s)
  | srv_step_runtime s sys : step config (srv_sys s) sys -> server_step s (runtime_moved sys s).

Inductive server_runs (s0 : Srv) : Srv -> Prop :=
  | server_start : server_runs s0 s0
  | server_more s s' : server_runs s0 s -> server_step s s' -> server_runs s0 s'.

(** [serve] before its first client, and its report at the end. *)
Definition server_init (sys : Sys B) : Srv := mkServer _ sys None (mkCounters 0 0) 0 0 0 1 false [].

Definition server_report (s : Srv) : ShadowServerReport :=
  let st := hs_store (sys_health (srv_sys s)) in
  mkServerReport (srv_accepted s) (srv_auth_failures s) (srv_client_errors s) (overload (srv_counters s))
    (protocol_error (srv_counters s)) (so_bytes st) (so_points st) (so_commits st) (so_recovered_tail_bytes st)
    (sync_policy_from_durability (so_durability st)) (so_last_ack_durable st).
End Sessions.
