(* ===== verification/ServerInv.v ===== *)
(** * ServerInv: what the responses of a session mean

    Every reply of the runtime answers the command with its ticket; a session
    answers every request once, in order, from the replies to its own commands,
    and only for the source it is bound to. *)
From S2P Require Import Prelude Errors Bytes Model Transaction Query Codec Effects Scan Database Wire Protocol.
From S2P Require Import ProtocolInv Canonical LogInv Refine Recovery Runtime RuntimeInv RuntimeDb Server.

(** ** Replies answer commands *)

(** [r] is a reply to the command [c]. *)
Definition answers (c : Command) (r : Reply) : Prop :=
  match c, r with
  | CmdWrite w _, ReplyWrite (inr a) => sa_identity a = write_identity w
  | CmdWrite _ _, ReplyWrite (inl _) => True
  | CmdFlush src n _, ReplyFlush (inr a) => fa_source_id a = src /\ fa_through_sequence a = n
  | CmdFlush _ _ _, ReplyFlush (inl _) => True
  | CmdShutdown _, ReplyShutdown _ => True
  | _, _ => False
  end.

Section Traces.
Context {B : Type} `{WriterBackend B} (config : ShadowRuntimeConfig).
Abbreviation S := (Sys B).

Lemma serve_answers now micros c (w : Work B) r : (serve config now micros c w).2 = Some r -> answers c r.
Proof.
  destruct c as [write t|src n t|t]; cbn.
  - destruct (process_write write w) as [w1 res] eqn:E. unfold process_write in E.
    destruct (wk_poison w); [injection E as <- <-; cbn; by intros [= <-]|].
    destruct (b_commit_ingress _ _ _) as [b r1]. destruct (catch_unwind r1) as [m|[commit|e]].
    + injection E as <- <-. cbn. by intros [= <-].
    + cbn in E. destruct (refresh_store_snapshot _ _) as [? ? ? ?] in E. injection E as <- <-. cbn.
      destruct (maybe_run_background_maintenance _ _ _ _) as [w2 [|]]; cbn; [by intros [= <-]|done].
    + cbn in E. destruct (negb _); injection E as <- <-; cbn; by intros [= <-].
  - destruct (process_flush src n w) as [w1 res] eqn:E. cbn. intros [= <-]. unfold process_flush in E.
    destruct (wk_poison w); [by injection E as <- <-|]. cbn in E. destruct (is_none_or _ _); [by injection E as <- <-|].
    destruct (b_flush _) as [b r1]. destruct (catch_unwind r1) as [m|[u|e]]; [by injection E as <- <-| |].
    + by injection E as <- <-.
    + destruct (negb _); by injection E as <- <-.
  - destruct (close_worker w) as [w1 res]. cbn. by intros [= <-].
Qed.

(** The commands the worker and the channel hold were sent, tickets are given
    out once, and every reply answers the command with its ticket. *)
Record traced (s : S) : Prop := {
  tr_chan : forall c, c ∈ sys_chan s -> c ∈ sys_sent s;
  tr_held : forall c, sys_worker s = Received c \/ sys_worker s = Released c -> c ∈ sys_sent s;
  tr_served : forall c r, sys_worker s = Served c r -> c ∈ sys_sent s /\ answers c r;
  tr_replies : forall t r, (t, r) ∈ sys_replies s -> exists c, c ∈ sys_sent s /\ ticket_of c = t /\ answers c r;
  tr_fresh : forall c, c ∈ sys_sent s -> (ticket_of c < sys_tickets s)%nat;
  tr_unique : forall c c', c ∈ sys_sent s -> c' ∈ sys_sent s -> ticket_of c = ticket_of c' -> c = c';
}.

Lemma traced_same (s s' : S) :
  traced s -> sys_chan s' = sys_chan s -> sys_worker s' = sys_worker s -> sys_sent s' = sys_sent s ->
  sys_replies s' = sys_replies s -> sys_tickets s' = sys_tickets s -> traced s'.
Proof. intros [] E1 E2 E3 E4 E5. split; rewrite ?E1, ?E2, ?E3, ?E4, ?E5; done. Qed.

Lemma traced_push (s s' : S) c :
  traced s -> ticket_of c = sys_tickets s -> sys_chan s' = sys_chan s ++ [c] -> sys_worker s' = sys_worker s ->
  sys_sent s' = c :: sys_sent s -> sys_replies s' = sys_replies s -> sys_tickets s' = Datatypes.S (sys_tickets s) -> traced s'.
Proof.
  intros [H1 H2 H3 H4 H5 H6] Et E1 E2 E3 E4 E5. split; rewrite ?E1, ?E2, ?E3, ?E4, ?E5.
  - intros x [Hx| ->%list_elem_of_singleton]%elem_of_app; [right; auto|left].
  - intros x Hx. right. auto.
  - intros x r Hx. destruct (H3 x r Hx). split; [by right|done].
  - intros t r Hr. destruct (H4 t r Hr) as (x & Hx & Ht & Ha). exists x. split; [by right|done].
  - intros x [->|Hx]%elem_of_cons; [lia|]. specialize (H5 x Hx). lia.
  - intros x y [->|Hx]%elem_of_cons [->|Hy]%elem_of_cons Exy; [done| | |auto].
    + specialize (H5 y Hy). lia.
    + specialize (H5 x Hx). lia.
Qed.

Lemma step_traced (s s' : S) : step config s s' -> traced s -> traced s'.
Proof.
  intros Hst Ht. destruct Hst as [s w Hsn Hg|s src n Hsn Hg|s Hsn Hg Hj|s w Hg|s Hg|s w Hg|s w Hg|s w Hg|s w Hg|s src n Hg|s src n Hg|s src n Hg
    |s Hg Hf|s Hg|s Hw Hc|s Hw Hc Hsn|s c Hw|s c now micros Hw|s c r Hw].
  1-5, 8, 14: by apply (traced_same s).
  - unfold submit_check. destruct (hs_state _); by apply (traced_same s).
  - unfold submit_reserve. destruct (reserve _ _ _ _) as [[|]|u]; by apply (traced_same s).
  - unfold submit_send. destruct (negb _); [by apply (traced_same s)|]. destruct (channel_full _ _); [by apply (traced_same s)|].
    by apply (traced_push s _ (CmdWrite w (sys_tickets s))).
  - unfold flush_check. destruct (hs_state _); by apply (traced_same s).
  - unfold flush_reserve. destruct (reserve _ _ _ _) as [[|]|u]; by apply (traced_same s).
  - unfold flush_send. destruct (negb _); [by apply (traced_same s)|]. destruct (channel_full _ _); [by apply (traced_same s)|].
    by apply (traced_push s _ (CmdFlush src n (sys_tickets s))).
  - unfold shutdown_send. destruct (negb _); [by apply (traced_same s)|]. by apply (traced_push s _ (CmdShutdown (sys_tickets s))).
  - destruct Ht as [H1 H2 H3 H4 H5 H6]. unfold worker_receive. destruct (sys_chan s) as [|c rest] eqn:Ec; [done|].
    split; cbn; try done.
    + intros x Hx. apply H1. by right.
    + intros x Hx. apply H1. destruct c; destruct Hx as [[= <-]|[= <-]]; left.
    + intros x r Hx. by destruct c.
  - destruct Ht as [H1 H2 H3 H4 H5 H6]. split; cbn; try done. by intros c [|].
  - destruct Ht as [H1 H2 H3 H4 H5 H6]. split; cbn; try done. intros x [[=]|[= <-]]. auto.
  - destruct Ht as [H1 H2 H3 H4 H5 H6]. pose proof (serve_answers now micros c (sys_work s)) as Ha. unfold worker_serve.
    destruct (serve config now micros c (sys_work s)) as [w' [r|]]; split; cbn in *; try done; try (by intros x [|]).
    intros x r' [= <- <-]. auto.
  - destruct Ht as [H1 H2 H3 H4 H5 H6]. destruct (H3 c r Hw) as [Hc Ha]. split; cbn; try done.
    + intros x [E|E]; by destruct (is_shutdown c).
    + intros x r' E. by destruct (is_shutdown c).
    + intros t r' [[= -> ->]|Hin]%elem_of_cons; [eauto|auto].
Qed.

(** ** The call of a producer *)

Definition submitting (w : ShadowWrite) (g : Producer) : Prop :=
  g = SubmitChecking w \/ g = SubmitReserving w \/ g = SubmitCounting w \/ g = SubmitSending w.
Definition flushing (src n : Z) (g : Producer) : Prop :=
  g = FlushChecking src n \/ g = FlushReserving src n \/ g = FlushSending src n.

Record grows (s s' : S) : Prop := {
  gw_sent : forall c, c ∈ sys_sent s -> c ∈ sys_sent s';
  gw_replies : forall x, x ∈ sys_replies s -> x ∈ sys_replies s';
}.

Lemma step_grows (s s' : S) : step config s s' -> grows s s'.
Proof.
  destruct 1; try (by split);
    unfold submit_check, submit_reserve, submit_send, flush_check, flush_reserve, flush_send, shutdown_send, worker_receive, worker_serve;
    repeat case_match; split; cbn; try done; intros; by right.
Qed.

Ltac call_refused := right; split; [done|]; eexists _, _; split; [done|]; left; by eexists.

(** A call in progress goes on, or returns its outcome. *)
Lemma step_submitting (s s' : S) w :
  step config s s' -> submitting w (sys_gate s) ->
  submitting w (sys_gate s')
  \/ (sys_gate s' = GateFree /\ exists o rest, sys_outcomes s' = o :: rest
      /\ ((exists e, o = NotSubmitted e) \/ exists t, o = Submitted t (write_identity w) /\ CmdWrite w t ∈ sys_sent s')).
Proof.
  unfold submitting. intros Hst Hg0.
  destruct Hst as [s w' Hsn Hg|s src n Hsn Hg|s Hsn Hg Hj|s w' Hg|s Hg|s w' Hg|s w' Hg|s w' Hg|s w' Hg|s src n Hg|s src n Hg|s src n Hg
    |s Hg Hf|s Hg|s Hw Hc|s Hw Hc Hsn|s c Hw|s c now micros Hw|s c r Hw].
  1-3, 10-14: exfalso; rewrite Hg in Hg0; destruct Hg0 as [|[|[|]]]; done.
  1-2: by left.
  1-4: assert (w' = w) as -> by (rewrite Hg in Hg0; naive_solver).
  - unfold submit_check. destruct (hs_state _); cbn; [auto|call_refused..].
  - unfold submit_reserve. destruct (reserve _ _ _ _) as [[|]|u]; cbn; [call_refused..|auto].
  - cbn. auto.
  - unfold submit_send. destruct (negb _); [cbn; call_refused|]. destruct (channel_full _ _); [cbn; call_refused|].
    cbn. right. split; [done|]. eexists _, _. split; [done|]. right. eexists. split; [done|left].
  - unfold worker_receive. destruct (sys_chan s); by left.
  - by left.
  - by left.
  - unfold worker_serve. destruct (serve _ _ _ _ _). by left.
  - by left.
Qed.

Lemma step_flushing (s s' : S) src n :
  step config s s' -> flushing src n (sys_gate s) ->
  flushing src n (sys_gate s')
  \/ (sys_gate s' = GateFree /\ exists o rest, sys_outcomes s' = o :: rest
      /\ ((exists e, o = FlushNotSubmitted e) \/ exists t, o = FlushSubmitted t /\ CmdFlush src n t ∈ sys_sent s')).
Proof.
  unfold flushing. intros Hst Hg0.
  destruct Hst as [s w' Hsn Hg|s src' n' Hsn Hg|s Hsn Hg Hj|s w' Hg|s Hg|s w' Hg|s w' Hg|s w' Hg|s w' Hg|s src' n' Hg|s src' n' Hg|s src' n' Hg
    |s Hg Hf|s Hg|s Hw Hc|s Hw Hc Hsn|s c Hw|s c now micros Hw|s c r Hw].
  1-3, 6-9, 13-14: exfalso; rewrite Hg in Hg0; destruct Hg0 as [|[|]]; done.
  1-2: by left.
  1-3: assert (src' = src /\ n' = n) as [-> ->] by (rewrite Hg in Hg0; naive_solver).
  - unfold flush_check. destruct (hs_state _); cbn; [auto|call_refused..].
  - unfold flush_reserve. destruct (reserve _ _ _ _) as [?|u]; cbn; [call_refused..|auto].
  - unfold flush_send. destruct (negb _); [cbn; call_refused|]. destruct (channel_full _ _); [cbn; call_refused|].
    cbn. right. split; [done|]. eexists _, _. split; [done|]. right. eexists. split; [done|left].
  - unfold worker_receive. destruct (sys_chan s); by left.
  - by left.
  - by left.
  - unfold worker_serve. destruct (serve _ _ _ _ _). by left.
  - by left.
Qed.
End Traces.

(** ** Sessions *)

(** What [m] answers to the request [q]. *)
Definition reply_for (q m : WireMessage) : Prop :=
  match m with
  | WireResponse (RespError _) => True
  | WireResponse (RespHello _) => exists h, q = WireRequest (ReqHello h) /\ hello_source_id h <> 0
  | WireResponse (RespHealth v) => exists r, q = WireRequest (ReqHealth r) /\ h_nonce v = health_nonce r
  | WireResponse (RespAck a) =>
      match ack_kind a with
      | AckCommitBatch => exists b, q = WireRequest (ReqCommitBatch b) /\ ack_source_id a = batch_source_id b
          /\ ack_sequence a = batch_sequence b /\ ack_commit_id a = batch_commit_id b
      | AckFlush => exists r, q = WireRequest (ReqFlush r) /\ ack_source_id a = flush_source_id r
          /\ ack_sequence a = through_sequence r
      end
  | WireRequest _ => False
  end.

(** [m] may be sent in a session bound to [source]. *)
Definition bound_to (source : option Z) (m : WireMessage) : Prop :=
  match m with
  | WireResponse (RespError _) => True
  | WireResponse (RespHello _) => source <> None
  | WireResponse (RespAck a) => source = Some (ack_source_id a)
  | WireResponse (RespHealth v) => source = Some (h_source_id v)
  | WireRequest _ => False
  end.

#[export] Instance reading_dec (p : ConnAt) : Decision (p = Reading).
Proof. destruct p; (by left) || (by right). Defined.

(** The request [q] is being served at [p]. *)
Definition pending (q : WireMessage) (p : ConnAt) : Prop :=
  match p with
  | Reading => False
  | WantSubmit b | InSubmit b | AwaitWrite b _ => q = WireRequest (ReqCommitBatch b)
  | WantFlush src n | InFlush src n | AwaitFlush src n _ => q = WireRequest (ReqFlush (mkFlushRequest src n))
  | Replying m => reply_for q m
  end.

Section Sessions.
Context `{Crc} `{TimeZones} {B : Type} `{WriterBackend B} (config : ShadowRuntimeConfig) (allowed_peer_uid : Z).
Abbreviation Srv := (Server B).

(** An acknowledgement passes on a reply of the runtime. *)
Definition response_ok (sys : Sys B) (m : WireMessage) : Prop :=
  match m with
  | WireResponse (RespAck a) =>
      match ack_kind a with
      | AckCommitBatch => exists t r, (t, ReplyWrite (inr r)) ∈ sys_replies sys
          /\ sa_identity r = mkIdentity (ack_source_id a) (ack_sequence a) (ack_commit_id a)
          /\ cm_durable (sa_commit r) = ack_durable a
      | AckFlush => exists t r, (t, ReplyFlush (inr r)) ∈ sys_replies sys
          /\ fa_source_id r = ack_source_id a /\ fa_through_sequence r = ack_sequence a
      end
  | _ => True
  end.

Definition at_ok (sys : Sys B) (source : option Z) (p : ConnAt) : Prop :=
  match p with
  | Reading => True
  | WantSubmit b => source = Some (batch_source_id b)
  | InSubmit b => source = Some (batch_source_id b) /\ submitting (batch_write b) (sys_gate sys)
  | AwaitWrite b t => source = Some (batch_source_id b) /\ CmdWrite (batch_write b) t ∈ sys_sent sys
  | WantFlush src n => source = Some src
  | InFlush src n => source = Some src /\ flushing src n (sys_gate sys)
  | AwaitFlush src n t => source = Some src /\ CmdFlush src n t ∈ sys_sent sys
  | Replying m => response_ok sys m /\ bound_to source m
  end.

Record conn_ok (sys : Sys B) (c : Conn) : Prop := {
  co_at : at_ok sys (cn_source c) (cn_at c);
  co_out : Forall (bound_to (cn_source c)) (cn_out c);
  co_pairs : match cn_at c with
             | Reading => Forall2 reply_for (cn_requests c) (cn_out c)
             | p => exists q rest, cn_requests c = q :: rest /\ Forall2 reply_for rest (cn_out c) /\ pending q p
             end;
  co_hello : forall src, cn_source c = Some src -> exists h, WireRequest (ReqHello h) ∈ cn_requests c /\ hello_source_id h = src;
}.

Record srv_ok (s : Srv) : Prop := {
  so_traced : traced (srv_sys s);
  so_conn : from_option (conn_ok (srv_sys s)) True (srv_conn s);
  so_written : Forall (response_ok (srv_sys s)) (srv_written s);
}.

Lemma response_ok_grows sys sys' m : grows sys sys' -> response_ok sys m -> response_ok sys' m.
Proof.
  intros [_ Hr]. unfold response_ok. destruct m as [|[| a| |]]; try done. destruct (ack_kind a).
  - intros (t & r & Hin & ?). exists t, r. auto.
  - intros (t & r & Hin & ?). exists t, r. auto.
Qed.

(** Errors answer anything. *)
Lemma stable_error_ok sys source q code b :
  response_ok sys (stable_error code b) /\ bound_to source (stable_error code b) /\ reply_for q (stable_error code b).
Proof. done. Qed.

Lemma map_errors_ok (m : WireMessage) sys source q :
  (exists e, m = WireResponse (RespError e)) -> response_ok sys m /\ bound_to source m /\ reply_for q m.
Proof. by intros [e ->]. Qed.

Lemma map_store_error_is e : exists r, map_store_error e = WireResponse (RespError r).
Proof. destruct e; by eexists. Qed.
Lemma map_submit_error_is e : exists r, map_submit_error e = WireResponse (RespError r).
Proof. destruct e; by eexists. Qed.
Lemma map_write_failure_is e : exists r, map_write_failure e = WireResponse (RespError r).
Proof. destruct e; try apply map_store_error_is; by eexists. Qed.
Lemma map_flush_submit_error_is e : exists r, map_flush_submit_error e = WireResponse (RespError r).
Proof. destruct e; by eexists. Qed.
Lemma map_flush_failure_is e : exists r, map_flush_failure e = WireResponse (RespError r).
Proof. destruct e; try apply map_store_error_is; by eexists. Qed.

(** ** Reading a frame *)

Lemma dispatch_ok sys hello source m h u c source' p :
  dispatch hello source m h u c = (source', p) ->
  at_ok sys source' p /\ pending m p /\ p <> Reading
  /\ (source' = source \/ source = None /\ exists r, m = WireRequest (ReqHello r) /\ source' = Some (hello_source_id r)).
Proof.
  unfold dispatch. destruct m as [[r|b|r|r]|m], source as [bound|]; try (intros [= <- <-]; cbn; auto; fail).
  - destruct (Z.eqb_spec (hello_source_id r) 0); intros [= <- <-]; cbn; [auto|]. split_and!; try done; eauto.
  - destruct (Z.eqb_spec (batch_source_id b) bound) as [<-|]; intros [= <- <-]; cbn; auto.
  - destruct (Z.eqb_spec (flush_source_id r) bound) as [<-|]; intros [= <- <-]; cbn; auto. destruct r. auto.
  - intros [= <- <-]. cbn. split_and!; try done; eauto.
Qed.

Lemma bound_to_more source source' m : source = None \/ source' = source -> bound_to source m -> bound_to source' m.
Proof. intros [->| ->]; [|done]. by destruct m as [|[]]. Qed.

Lemma read_turn_ok e c (s : Srv) :
  srv_ok s -> srv_conn s = Some c -> cn_at c = Reading -> srv_ok (read_turn e c s) /\ srv_sys (read_turn e c s) = srv_sys s.
Proof.
  intros [Ht Hc Hw] Ec Ea. rewrite Ec in Hc. cbn in Hc. destruct Hc as [_ Ho Hp Hh]. rewrite Ea in Hp.
  unfold read_turn. destruct (srv_stop s); [by split|].
  destruct (read_from (cn_in c)) as [error|[m rest]].
  - assert (Hx : forall s', srv_sys s' = srv_sys s -> Forall (response_ok (srv_sys s)) (srv_written s') ->
      srv_ok (close_connection false s') /\ srv_sys (close_connection false s') = srv_sys s).
    { intros s' Es Hs'. split; [|done]. split; cbn; rewrite ?Es; done. }
    assert (Hy : srv_ok (close_connection true s) /\ srv_sys (close_connection true s) = srv_sys s) by (by split).
    destruct error as [| ? [] | | | | | | | | | |]; try done; destruct (env_stop_seen e); try done;
      (destruct (env_write_ok e); apply Hx; [done|by repeat constructor|done|done]).
  - destruct (dispatch _ _ _ _ _ _) as [source p] eqn:Ed. apply (dispatch_ok (srv_sys s)) in Ed as (Hat & Hpend & Hnr & Hsrc).
    assert (Hok : forall s' : Srv, srv_sys s' = srv_sys s -> srv_written s' = srv_written s ->
      srv_ok (set_conn (Some (mkConn source rest p (m :: cn_requests c) (cn_out c))) s')).
    { intros s' Es Es'. split; cbn; rewrite ?Es, ?Es'; [done| |done]. split; cbn.
      - done.
      - eapply Forall_impl; [exact Ho|]. intros x. apply bound_to_more. destruct Hsrc as [?|[? _]]; auto.
      - destruct p; try done; exists m, (cn_requests c); done.
      - intros src Es2. destruct Hsrc as [->|(_ & r & -> & ->)].
        + destruct (Hh src Es2) as (h & Hh1 & Hh2). exists h. split; [by right|done].
        + injection Es2 as <-. exists r. split; [left|done]. }
    destruct (is_bound_hello _ _); (split; [by apply Hok|done]).
Qed.

(** ** The other actions *)

(** The connection goes on to [p] with the same request. *)
Lemma go_ok (sys : Sys B) c p :
  conn_ok sys c -> cn_at c <> Reading -> p <> Reading -> at_ok sys (cn_source c) p ->
  (forall q, pending q (cn_at c) -> pending q p) -> conn_ok sys (set_at p c).
Proof.
  intros [_ Ho Hp Hh] Hn Hn' Hat Hq. split; cbn; try done.
  assert (Hx : exists q rest, cn_requests c = q :: rest /\ Forall2 reply_for rest (cn_out c) /\ pending q p).
  { destruct (cn_at c); try done; destruct Hp as (q & rest & E1 & E2 & E3); exists q, rest; auto. }
  by destruct p.
Qed.

Lemma reply_turn_ok e m c (s : Srv) :
  srv_ok s -> srv_conn s = Some c -> cn_at c = Replying m -> srv_ok (reply_turn e m c s) /\ srv_sys (reply_turn e m c s) = srv_sys s.
Proof.
  intros [Ht Hc Hw] Ec Ea. rewrite Ec in Hc. cbn in Hc. destruct Hc as [Hat Ho Hp Hh]. rewrite Ea in Hat, Hp.
  destruct Hat as [Hm Hb]. destruct Hp as (q & rest & Eq & Hrest & Hq). unfold reply_turn.
  set (s1 := if is_overloaded m then _ else s).
  assert (Es : srv_sys s1 = srv_sys s /\ srv_written s1 = srv_written s) by (unfold s1; by destruct (is_overloaded m)).
  clearbody s1. destruct Es as [Es Ew]. destruct (env_write_ok e); (split; [|done]); split; cbn; rewrite ?Es, ?Ew; try done.
  - split; cbn; try done.
    + by constructor.
    + rewrite Eq. by constructor.
  - by constructor.
Qed.

Lemma reply_to_in t (sys : Sys B) r : reply_to t sys = Some r -> (t, r) ∈ sys_replies sys.
Proof.
  unfold reply_to. destruct (find _ _) as [[t' r']|] eqn:E; [|done]. intros [= <-]. apply find_some in E as [Hin Ht].
  apply Nat.eqb_eq in Ht as <-. by apply list_elem_of_In.
Qed.

(** The reply to a ticket of ours is about our command. *)
Lemma own_reply (sys : Sys B) c r : traced sys -> c ∈ sys_sent sys -> reply_to (ticket_of c) sys = Some r -> answers c r.
Proof.
  intros Ht Hc Hr. apply reply_to_in in Hr. destruct (tr_replies _ Ht _ _ Hr) as (c' & Hc' & Et & Ha).
  by rewrite (tr_unique _ Ht _ _ Hc Hc' (eq_sym Et)).
Qed.

Lemma error_goes (sys : Sys B) source p m :
  (exists r, m = WireResponse (RespError r)) ->
  at_ok sys source (Replying m) /\ Replying m <> Reading /\ forall q, pending q p -> pending q (Replying m).
Proof. by intros [r ->]. Qed.

Lemma await_write_goes (sys : Sys B) e source b t :
  traced sys -> at_ok sys source (AwaitWrite b t) ->
  let p := match reply_to t sys with
           | Some (ReplyWrite (inr a)) => Replying (commit_ack b a)
           | Some (ReplyWrite (inl f)) => Replying (map_write_failure f)
           | _ => Replying (map_wait_error (env_wait e))
           end in
  at_ok sys source p /\ p <> Reading /\ forall q, pending q (AwaitWrite b t) -> pending q p.
Proof.
  intros Ht [Hs Hc] p. unfold p. clear p.
  destruct (reply_to t sys) as [[[f|a]|r|r]|] eqn:Er; try (apply error_goes; by eexists).
  - apply error_goes, map_write_failure_is.
  - pose proof (own_reply _ _ _ Ht Hc Er) as Ha. cbn in Ha. apply reply_to_in in Er. cbn. split; [|split; [done|]].
    + split; [|done]. exists t, a. rewrite Ha. done.
    + intros q ->. by eexists.
Qed.

Lemma await_flush_goes (sys : Sys B) e source src n t :
  traced sys -> at_ok sys source (AwaitFlush src n t) ->
  let p := match reply_to t sys with
           | Some (ReplyFlush (inr a)) => Replying (flush_ack src n a)
           | Some (ReplyFlush (inl f)) => Replying (map_flush_failure f)
           | _ => Replying (map_wait_error (env_wait e))
           end in
  at_ok sys source p /\ p <> Reading /\ forall q, pending q (AwaitFlush src n t) -> pending q p.
Proof.
  intros Ht [Hs Hc] p. unfold p. clear p.
  destruct (reply_to t sys) as [[r|[f|a]|r]|] eqn:Er; try (apply error_goes; by eexists).
  - apply error_goes, map_flush_failure_is.
  - pose proof (own_reply _ _ _ Ht Hc Er) as Ha. cbn in Ha. apply reply_to_in in Er. unfold flush_ack.
    destruct (is_none_or _ _); [apply error_goes; by eexists|]. cbn. split; [|split; [done|]].
    + split; [|done]. exists t, a. destruct Ha as [-> ->]. done.
    + intros q ->. by eexists.
Qed.

(** A turn of the server thread keeps the invariant, and is at most one step of
    the runtime. *)
Lemma server_turn_ok e (s s' : Srv) :
  sys_senders (srv_sys s) = true -> server_turn e s = Some s' -> srv_ok s ->
  srv_ok s' /\ (srv_sys s' = srv_sys s \/ step config (srv_sys s) (srv_sys s')).
Proof.
  intros Hsn E Hok. unfold server_turn in E. destruct (srv_conn s) as [c|] eqn:Ec; [|done].
  pose proof Hok as [Ht Hc Hw]. rewrite Ec in Hc. cbn in Hc.
  assert (Hgo : forall p, at_ok (srv_sys s) (cn_source c) p /\ p <> Reading /\ (forall q, pending q (cn_at c) -> pending q p) ->
    cn_at c <> Reading -> srv_ok (set_conn (Some (set_at p c)) s)).
  { intros p (H1' & H2' & H3') Hn. split; [done| |done]. cbn. by apply go_ok. }
  destruct (cn_at c) as [|b|b|b t|src n|src n|src n t|m] eqn:Ea; try done.
  - injection E as <-. destruct (read_turn_ok e c s Hok Ec Ea). auto.
  - pose proof (co_at _ _ Hc) as Hat. rewrite Ea in Hat. destruct (sys_gate (srv_sys s)) eqn:Eg;
      try (injection E as <-; split; [|by left]; apply Hgo; [|done]; apply error_goes; by eexists).
    injection E as <-. split; [|right; cbn; by constructor]. split; cbn; [by apply (traced_same (srv_sys s))| |done].
    assert (Hc' : conn_ok (set_gate (SubmitChecking (batch_write b)) (srv_sys s)) c).
    { destruct Hc as [_ Ho Hp Hh]. split; rewrite ?Ea in *; done. }
    apply go_ok; try done; rewrite ?Ea; try done. cbn. split; [done|]. by left.
  - pose proof (await_write_goes (srv_sys s) e (cn_source c) b t Ht) as Hx. pose proof (co_at _ _ Hc) as Hat. rewrite Ea in Hat.
    specialize (Hx Hat). destruct (reply_to t (srv_sys s)) as [[[]| |]|]; injection E as <-; (split; [by apply Hgo|by left]).
  - pose proof (co_at _ _ Hc) as Hat. rewrite Ea in Hat. destruct (sys_gate (srv_sys s)) eqn:Eg;
      try (injection E as <-; split; [|by left]; apply Hgo; [|done]; apply error_goes; by eexists).
    injection E as <-. split; [|right; cbn; by constructor]. split; cbn; [by apply (traced_same (srv_sys s))| |done].
    assert (Hc' : conn_ok (set_gate (FlushChecking src n) (srv_sys s)) c).
    { destruct Hc as [_ Ho Hp Hh]. split; rewrite ?Ea in *; done. }
    apply go_ok; try done; rewrite ?Ea; try done. cbn. split; [done|]. by left.
  - pose proof (await_flush_goes (srv_sys s) e (cn_source c) src n t Ht) as Hx. pose proof (co_at _ _ Hc) as Hat. rewrite Ea in Hat.
    specialize (Hx Hat). destruct (reply_to t (srv_sys s)) as [[|[]|]|]; injection E as <-; (split; [by apply Hgo|by left]).
  - injection E as <-. destruct (reply_turn_ok e m c s Hok Ec Ea). auto.
Qed.

Lemma in_submit_stays b w (sys : Sys B) : submitting w (sys_gate sys) -> returned (InSubmit b) sys = InSubmit b.
Proof. intros Hw. cbn. by destruct Hw as [->|[->|[->| ->]]]. Qed.
Lemma in_flush_stays src n src' n' (sys : Sys B) : flushing src n (sys_gate sys) -> returned (InFlush src' n') sys = InFlush src' n'.
Proof. intros Hw. cbn. by destruct Hw as [->|[->| ->]]. Qed.

(** Where the connection is stays right when the runtime moves. *)
Lemma returned_ok (sys sys' : Sys B) source p :
  step config sys sys' -> at_ok sys source p ->
  at_ok sys' source (returned p sys') /\ (p = Reading <-> returned p sys' = Reading)
  /\ forall q, pending q p -> pending q (returned p sys').
Proof.
  intros Hst Hat. pose proof (step_grows config _ _ Hst) as Hg.
  destruct p as [|b|b|b t|src n|src n|src n t|m]; cbn in Hat; try (by cbn; split_and!; try destruct Hg; auto); try (destruct Hg as [Hg _]; cbn; naive_solver).
  - destruct Hat as [Hs Hw]. destruct (step_submitting config _ _ _ Hst Hw) as [Hw'|(Eg & o & rest & Eo & [[e ->]|(t & -> & Hin)])].
    + rewrite (in_submit_stays b _ _ Hw'). by cbn.
    + cbn. rewrite Eg, Eo. destruct (map_submit_error_is e) as [r ->]. done.
    + cbn. rewrite Eg, Eo. done.
  - destruct Hat as [Hs Hw]. destruct (step_flushing config _ _ _ _ Hst Hw) as [Hw'|(Eg & o & rest & Eo & [[e ->]|(t & -> & Hin)])].
    + rewrite (in_flush_stays _ _ _ _ _ Hw'). by cbn.
    + cbn. rewrite Eg, Eo. destruct (map_flush_submit_error_is e) as [r ->]. done.
    + cbn. rewrite Eg, Eo. done.
  - split; [|done]. destruct Hat. split; [|done]. by eapply response_ok_grows.
Qed.

Lemma runtime_moved_ok (s : Srv) sys : step config (srv_sys s) sys -> srv_ok s -> srv_ok (runtime_moved sys s).
Proof.
  intros Hst [Ht Hc Hw]. split; cbn.
  - by eapply step_traced.
  - destruct (srv_conn s) as [c|]; [|done]. cbn in *. destruct Hc as [Hat Ho Hp Hh].
    destruct (returned_ok _ _ _ _ Hst Hat) as (Hat' & Hr & Hq). split; cbn; try done.
    destruct (decide (cn_at c = Reading)) as [E|En].
    + rewrite (proj1 Hr E). by rewrite E in Hp.
    + assert (En' : returned (cn_at c) sys <> Reading) by (by intros ?%Hr).
      assert (Hp' : exists q rest, cn_requests c = q :: rest /\ Forall2 reply_for rest (cn_out c) /\ pending q (cn_at c)).
      { by destruct (cn_at c). }
      destruct Hp' as (q & rest & E1 & E2 & E3). specialize (Hq q E3).
      destruct (returned (cn_at c) sys); [done|exists q, rest; done..].
  - eapply Forall_impl; [exact Hw|]. intros m. apply response_ok_grows. by eapply step_grows.
Qed.

Lemma accept_client_ok uid events (s : Srv) : srv_ok s -> srv_ok (accept_client allowed_peer_uid uid events s).
Proof.
  intros [Ht _ Hw]. unfold accept_client. destruct (negb _); split; cbn; try done. split; cbn; done.
Qed.

(** The server moves the runtime by its steps only. *)
Lemma server_step_ok (s s' : Srv) :
  server_step config allowed_peer_uid s s' -> srv_ok s ->
  srv_ok s' /\ (srv_sys s' = srv_sys s \/ step config (srv_sys s) (srv_sys s')).
Proof.
  destruct 1 as [s uid events Hc Hs|e s s' Hsn E|s|s sys Hst]; intros Hok.
  - split; [by apply accept_client_ok|left]. unfold accept_client. by destruct (negb _).
  - by eapply server_turn_ok.
  - split; [|by left]. by destruct Hok.
  - split; [by apply runtime_moved_ok|by right].
Qed.

Lemma server_runs_ok (s0 s : Srv) :
  srv_ok s0 -> server_runs config allowed_peer_uid s0 s -> srv_ok s /\ runs config (srv_sys s0) (srv_sys s).
Proof.
  intros H0'. induction 1 as [|s s' _ [IH1 IH2] Hst]; [split; [done|constructor]|].
  destruct (server_step_ok _ _ Hst IH1) as [Hok [->|Hs]]; split; try done. by econstructor.
Qed.

Lemma server_init_ok (sys : Sys B) : traced sys -> srv_ok (server_init sys).
Proof. intros Ht. split; cbn; [done|done|constructor]. Qed.

Lemma start_traced spawn b (sys : Sys B) : start_backend config spawn b = inr sys -> traced sys.
Proof.
  unfold start_backend. destruct (_ =? 0); [done|]. destruct (b_store_snapshot b) as [b' r]. destruct spawn; [done|].
  intros [= <-]. split; cbn; try (by intros ? ?%elem_of_nil); try done.
  - by intros c [|].
  - by intros t r' ?%elem_of_nil.
  - by intros c c' ?%elem_of_nil.
Qed.

(** At most one request waits for its response. *)
Lemma requests_answered (sys : Sys B) c : conn_ok sys c ->
  exists open answered, cn_requests c = open ++ answered /\ (length open <= 1)%nat /\ Forall2 reply_for answered (cn_out c).
Proof.
  intros [_ _ Hp _]. destruct (cn_at c); [exists [], (cn_requests c); cbn; auto with lia|..];
    (destruct Hp as (q & rest & -> & Hr & _); exists [q], rest; cbn; auto with lia).
Qed.

Lemma unbound_errors m : bound_to None m -> exists e, m = WireResponse (RespError e).
Proof. destruct m as [|[| | |e]]; try done. by exists e. Qed.
(** ** A schedule as a list of actions *)

Inductive Action :=
  | ActAccept (uid : Z) (events : list SocketEvent)
  | ActTurn (e : Env)
  | ActProducer
  | ActWorker (now micros : Z).

(** An action that is not possible does nothing. *)
Definition act (a : Action) (s : Srv) : Srv :=
  match a with
  | ActAccept uid events =>
      match srv_conn s with None => if srv_stop s then s else accept_client allowed_peer_uid uid events s | Some _ => s end
  | ActTurn e => if sys_senders (srv_sys s) then default s (server_turn e s) else s
  | ActProducer =>
      match sys_gate (srv_sys s) with
      | GateFree | ShutdownSending => s
      | _ => runtime_moved (producer_turn config (srv_sys s)) s
      end
  | ActWorker now micros =>
      match sys_worker (srv_sys s) with
      | Stopped | Crashed _ => s
      | Receiving => match sys_chan (srv_sys s) with [] => s | _ => runtime_moved (turn config now micros (srv_sys s)) s end
      | _ => runtime_moved (turn config now micros (srv_sys s)) s
      end
  end.

Lemma act_step a (s : Srv) : act a s = s \/ server_step config allowed_peer_uid s (act a s).
Proof.
  destruct a as [uid events|e| |now micros]; cbn.
  - destruct (srv_conn s) eqn:Ec; [by left|]. destruct (srv_stop s) eqn:Es; [by left|]. right. by constructor.
  - destruct (sys_senders _) eqn:Es; [|by left]. destruct (server_turn e s) as [s'|] eqn:E; [|by left]. right. by econstructor.
  - unfold producer_turn. destruct (sys_gate _) eqn:Eg; try (by left); right; constructor; by constructor.
  - unfold turn. destruct (sys_worker _) eqn:Ew; try (by left); try (right; constructor; by constructor).
    destruct (sys_chan _) eqn:Ec; [by left|]. right. constructor. constructor; [done|]. by rewrite Ec.
Qed.

Lemma acts_run l (s0 s : Srv) : server_runs config allowed_peer_uid s0 s ->
  server_runs config allowed_peer_uid s0 (fold_left (fun s a => act a s) l s).
Proof.
  revert s. induction l as [|a l IH]; intros s Hr; cbn; [done|]. apply IH.
  destruct (act_step a s) as [->|Hs]; [done|by econstructor].
Qed.
End Sessions.

Lemma start_database_traced `{Crc} `{RecordCodec} `{IndexCodec} `{TimeZones} {Seg} `{SegmentOps Seg} config spawn (d : Database Seg) sys :
  start_database config spawn d = inr sys -> traced sys.
Proof.
  unfold start_database. destruct (read_only d); [done|]. destruct (is_some _); [done|]. apply start_traced.
Qed.

(** ** Typed requests *)

Definition bytes_event (e : ReadEvent) : Prop := match e with Arrived b => is_bytes b | _ => True end.

Lemma read_exact_bytes base want events : forall got b rest,
  read_exact base want got events = inr (b, rest) -> is_bytes got -> Forall bytes_event events ->
  is_bytes b /\ Forall bytes_event rest.
Proof.
  induction events as [|e events IH]; intros got b rest E Hg He; cbn [read_exact] in E; destruct (_ <? _)%nat; try done;
    try (by injection E as <- <-). apply Forall_cons in He as [He Hes]. destruct e as [x| |]; [|by eapply IH|done].
  destruct (_ =? 0)%nat; [done|]. cbn in He. destruct (_ <=? _)%nat.
  - eapply IH; [exact E|by apply Forall_app|done].
  - injection E as <- <-. split; [apply Forall_app; split; [done|by apply Forall_take]|].
    constructor; [by apply Forall_drop|done].
Qed.

Lemma read_from_bytes `{Crc} `{TimeZones} events m rest :
  Forall bytes_event events -> read_from events = inr (m, rest) -> exists f, is_bytes f /\ decode f = inr m /\ Forall bytes_event rest.
Proof.
  intros He E. unfold read_from in E. destruct (read_exact 0 _ [] events) as [|[header e1]] eqn:E1; [done|]. cbn [p_bind] in E.
  apply read_exact_bytes in E1 as [Hh He1]; [|constructor|done].
  destruct (parse_header header) as [|[kind total]]; [done|]. cbn [p_bind] in E.
  destruct (read_exact _ _ [] e1) as [|[tail e2]] eqn:E2; [done|]. cbn [p_bind] in E.
  apply read_exact_bytes in E2 as [Ht He2]; [|constructor|done].
  destruct (decode (header ++ tail)) eqn:E3; [done|]. injection E as <- <-. exists (header ++ tail). split_and!; [by apply Forall_app|done|done].
Qed.

(** A builder that appends a record. *)
Lemma fold_records {A} (build : A -> Transaction -> Transaction) (r : A -> TxRecord) (P : A -> Prop) l :
  (forall x t, records (build x t) = records t ++ [r x]) -> (forall x, P x -> typed_record (r x)) -> Forall P l ->
  forall t, Forall typed_record (records t) -> Forall typed_record (records (foldl (fun t x => build x t) t l)).
Proof.
  intros Hb Hr. induction 1 as [|x l Hx _ IH]; intros t Ht; cbn; [done|]. apply IH. rewrite Hb. apply Forall_app. split; [done|]. auto.
Qed.

Lemma batch_records_typed b : typed_batch b -> Forall typed_record (records (transaction_from_batch b)).
Proof.
  intros (_ & _ & _ & H1 & H2 & H3 & H4 & H5 & H6). unfold transaction_from_batch.
  set (t5 := foldl (fun t x => upsert_plan x t) _ (batch_plans b)).
  assert (Ht : Forall typed_record (records t5)).
  { unfold t5. apply (fold_records upsert_plan RPlan typed_plan); [done|done|done|].
    apply (fold_records upsert_run RRun typed_run); [done|done|done|].
    apply (fold_records define_series RSeries typed_series); [done|done|done|].
    apply (fold_records upsert_relation RRelation typed_relation); [done|done|done|].
    apply (fold_records upsert_entity REntity typed_entity); [done|done|done|]. constructor. }
  clearbody t5. destruct (batch_points b) as [|p ps] eqn:E; [done|]. unfold append_points. cbn.
  apply Forall_app. split; [done|]. constructor; [|constructor]. done.
Qed.

Lemma batch_write_typed b t : typed_batch b -> typed_command (CmdWrite (batch_write b) t).
Proof.
  intros Hb. pose proof (batch_records_typed b Hb) as Hr. destruct Hb as (H1 & H2 & H3 & _).
  split; [|done]. split_and!; cbn; [by destruct b|done|done].
Qed.

(** A commit request taken from a stream of bytes becomes a write that fits the
    machine types. *)
Lemma received_writes_are_typed `{Crc} `{TimeZones} events b rest t :
  Forall bytes_event events -> read_from events = inr (WireRequest (ReqCommitBatch b), rest) -> typed_command (CmdWrite (batch_write b) t).
Proof.
  intros He Hr. destruct (read_from_bytes events _ rest He Hr) as (f & Hf & Hd & _).
  destruct (encode_decode f _ Hf Hd eq_refl) as [Hm _]. by apply batch_write_typed.
Qed.
