(* ===== verification/LogProps.v ===== *)
(** * LogProps: the guarantees of the write-ahead log

    The properties of [src/src/storage.rs] that its clients rely on, each with
    an example on the database of [Demo].  The facts behind them are proved in
    the component files. *)
From S2P Require Import Prelude Errors Bytes Float64 Model Transaction Graph Catalog Query Codec Effects Scan LogInv Database Refine Durable Recovery Retry ReclaimInv Salvage Commits Instances Demo.

(** ** Durability *)

(** C1.  Durability.  On any handle reached from a writable open by any
    sequence of calls, with any I/O failures, a receipt that the database
    reports as durable survives every power loss: the file that is left opens
    again and reports the same receipt, still durable. *)
Theorem durable_receipts_survive_power_loss `{Crc} `{RecordCodecLaws} `{IndexCodec} `{TimeZones} {Seg}
    seals cfg (d : Database Seg) left m src seq r :
  reachable seals cfg d -> crash (file d) left ->
  ingress_receipt src seq d = Some r -> rc_durable r = true ->
  exists d' : Database Seg,
    open_file LockAcquired (config d) false seals (mkFile left m []) = (file d', Ok d')
    /\ ingress_receipt src seq d' = Some r.
Proof.
  intros Hr Hcr Hrc Hdu. pose proof (reachable_inv _ _ _ Hr) as Hi.
  destruct (durable_receipt_survives _ _ _ m _ _ _ Hi Hcr Hrc Hdu) as (d' & Ho & _ & Hr'). by exists d'.
Qed.

Lemma durable_receipts_survive_power_loss_witness :
  exists d' : Database (list Point),
    open_file LockAcquired (config demo_4) false ∅
      (mkFile (take (synced (file demo_4) + 30) (contents (file demo_4))) 0 []) = (file d', Ok d')
    /\ ingress_receipt 7 1 d' = Some (mkReceipt demo_id 16 3 2 1088 true).
Proof.
  refine (durable_receipts_survive_power_loss ∅ demo_config demo_4 _ 0 7 1
            (mkReceipt demo_id 16 3 2 1088 true) demo_4_reachable _ _ _).
  - exists (synced (file demo_4) + 30)%nat. split; [lia|reflexivity].
  - vm_compute. reflexivity.
  - reflexivity.
Defined.

(** C2.  Crash consistency.  Whatever a power loss leaves of the file of a
    reachable handle opens again: the recovered file is a prefix of what was
    left, made of complete frames whose replay is the new handle's state, and
    it contains everything that had been synced, also when the writer of the
    handle had failed before. *)
Theorem power_loss_recovers_a_prefix `{Crc} `{RecordCodecLaws} `{IndexCodec} `{TimeZones} {Seg}
    seals cfg (d : Database Seg) left m :
  reachable seals cfg d -> crash (file d) left ->
  exists (d' : Database Seg) fs s,
    open_file LockAcquired (config d) false seals (mkFile left m []) = (file d', Ok d')
    /\ opened d' (config d) seals fs s
    /\ contents (file d') `prefix_of` left
    /\ take (synced (file d)) (contents (file d)) `prefix_of` contents (file d').
Proof. intros Hr Hcr. apply crash_open_prefix; [by eapply reachable_inv|done]. Qed.

Lemma power_loss_recovers_a_prefix_witness :
  exists (d' : Database (list Point)) fs s,
    open_file LockAcquired (config demo_4) false ∅ (mkFile (take (synced (file demo_4) + 30) (contents (file demo_4))) 0 [])
      = (file d', Ok d')
    /\ opened d' (config demo_4) ∅ fs s
    /\ contents (file d') `prefix_of` take (synced (file demo_4) + 30) (contents (file demo_4))
    /\ take (synced (file demo_4)) (contents (file demo_4)) `prefix_of` contents (file d').
Proof.
  refine (power_loss_recovers_a_prefix ∅ demo_config demo_4 _ 0 demo_4_reachable _).
  exists (synced (file demo_4) + 30)%nat. split; [lia|reflexivity].
Defined.

(** C3.  Reopening.  Opening the file of a reachable handle that has not failed
    gives a handle with the same live index, catalog, identifiers, receipts and
    counters, and leaves the file as it was. *)
Theorem reopen_restores_state `{Crc} `{RecordCodecLaws} `{IndexCodec} `{TimeZones} {Seg}
    seals cfg (d : Database Seg) m :
  reachable seals cfg d -> poisoned d = false ->
  exists d' : Database Seg,
    open_file LockAcquired (config d) false seals (mkFile (contents (file d)) m []) = (file d', Ok d')
    /\ contents (file d') = contents (file d)
    /\ index (state d') = index (state d) /\ catalog (state d') = catalog (state d)
    /\ commit_ids (state d') = commit_ids (state d)
    /\ ingress_commit_ids (state d') = ingress_commit_ids (state d)
    /\ ingress_last_sequences (state d') = ingress_last_sequences (state d)
    /\ clear_identified <$> identified_receipts (state d') = clear_identified <$> identified_receipts (state d)
    /\ clear_ingress <$> ingress_receipts (state d') = clear_ingress <$> ingress_receipts (state d)
    /\ (commits (state d'), points (state d'), catalog_records (state d'))
       = (commits (state d), points (state d), catalog_records (state d)).
Proof.
  intros Hr Hp. destruct (reopen_same _ d m (reachable_inv _ _ _ Hr) Hp) as (d' & Ho & _ & Hrest). by exists d'.
Qed.

Lemma reopen_restores_state_witness :
  exists d' : Database (list Point),
    open_file LockAcquired (config demo_4) false ∅ (mkFile (contents (file demo_4)) 0 []) = (file d', Ok d')
    /\ index (state d') = index (state demo_4) /\ catalog (state d') = catalog (state demo_4).
Proof.
  destruct (reopen_restores_state ∅ demo_config demo_4 0 demo_4_reachable ltac:(vm_compute; reflexivity))
    as (d' & Ho & _ & Hi & Hc & _). exact (ex_intro _ d' (conj Ho (conj Hi Hc))).
Defined.

(** ** Exactly-once ingress *)

(** C5.  Exact retries.  A commit under a source and sequence that already have
    a receipt changes nothing: it returns the original receipt, marked as a
    duplicate and with the current durability, when the commit identifier and
    the canonical bytes are exactly the stored ones, and a conflict
    otherwise. *)
Theorem ingress_retry_is_idempotent `{Crc} `{!CrcCombine} `{RecordCodecLaws} `{IndexCodec} `{TimeZones} {Seg}
    seals cfg (d : Database Seg) i t canonical r :
  reachable seals cfg d -> poisoned d = false -> faults (file d) = [] -> is_u64 (len (contents (file d))) ->
  ingress_receipts (state d) !! key_of i = Some r -> encode_canonical_transaction t = Ok canonical ->
  commit_ingress i t d
  = (d, if bool_decide (commit_id (ir_identity r) = commit_id i
                        /\ stored_payload (contents (file d)) r = Some canonical)
        then Ok (mkCommit (cm_frame_offset (ir_commit r)) (cm_points (ir_commit r))
                   (cm_records (ir_commit r)) (cm_bytes_written (ir_commit r))
                   (is_some_and (ingress_durable_sequences d !! source_id i)
                      (fun durable => sequence i <=? durable)) true)
        else Err (IngressSourceSequenceConflict (source_id i) (sequence i))).
Proof. intros Hr. apply (ingress_retry seals). by eapply reachable_inv. Qed.

Lemma ingress_retry_is_idempotent_witness :
  commit_ingress demo_id demo_tx demo_4 = (demo_4, Ok (mkCommit 16 2 3 1088 true true))
  /\ commit_ingress demo_id demo_tx2 demo_4 = (demo_4, Err (IngressSourceSequenceConflict 7 1)).
Proof.
  assert (Hr : exists r, ingress_receipts (state demo_4) !! key_of demo_id = Some r)
    by (eexists; vm_compute; reflexivity).
  assert (Hc1 : exists c, encode_canonical_transaction demo_tx = Ok c) by (eexists; vm_compute; reflexivity).
  assert (Hc2 : exists c, encode_canonical_transaction demo_tx2 = Ok c) by (eexists; vm_compute; reflexivity).
  destruct Hr as [r Hr], Hc1 as [c1 Hc1], Hc2 as [c2 Hc2].
  assert (Hl : len (contents (file demo_4)) = 1360) by (vm_compute; reflexivity).
  assert (Hu : is_u64 (len (contents (file demo_4)))) by (rewrite Hl; unfold is_u64; lia).
  split.
  - rewrite (ingress_retry_is_idempotent ∅ demo_config demo_4 demo_id demo_tx c1 r demo_4_reachable
               ltac:(vm_compute; reflexivity) ltac:(vm_compute; reflexivity) Hu Hr Hc1).
    f_equal. vm_compute in Hr, Hc1. injection Hr as <-. injection Hc1 as <-. vm_compute. reflexivity.
  - rewrite (ingress_retry_is_idempotent ∅ demo_config demo_4 demo_id demo_tx2 c2 r demo_4_reachable
               ltac:(vm_compute; reflexivity) ltac:(vm_compute; reflexivity) Hu Hr Hc2).
    f_equal. vm_compute in Hr, Hc2. injection Hr as <-. injection Hc2 as <-. vm_compute. reflexivity.
Defined.

(** C6.  A new ordered commit.  A commit that succeeds under a key without a
    receipt had a fresh commit identifier and a strictly greater sequence than
    its source's cursor; it appended exactly its frame to the file, indexed its
    points, installed the validated catalog, advanced the cursor and recorded
    a receipt that reports the returned durability, which is immediate under
    [Durability::Always]. *)
Theorem new_ingress_commit `{Crc} `{RecordCodecLaws} `{IndexCodec} `{TimeZones} {Seg}
    seals cfg (d d' : Database Seg) i t c :
  reachable seals cfg d -> ingress_receipts (state d) !! key_of i = None ->
  commit_ingress i t d = (d', Ok c) ->
  exists canonical cat,
    encode_canonical_transaction t = Ok canonical /\ source_id i <> 0
    /\ (commit_id i ∉ commit_ids (state d))
    /\ (forall last, ingress_last_sequences (state d) !! source_id i = Some last -> last < sequence i)
    /\ apply_records (catalog (state d)) (records t) = Ok cat
    /\ contents (file d') = contents (file d)
         ++ frame_bytes (mkFrame FRAME_KIND_INGRESS_TRANSACTION (record_count t) (encode_identity i ++ canonical))
    /\ index (state d') = foldl insert_indexed_point (index (state d)) (records_points (records t))
    /\ catalog (state d') = default (catalog (state d)) cat
    /\ ingress_last_sequences (state d') = <[source_id i := sequence i]> (ingress_last_sequences (state d))
    /\ ingress_receipt (source_id i) (sequence i) d'
       = Some (mkReceipt i (len (contents (file d))) (record_count t) (point_count t) (64 + len canonical)
                 (cm_durable c))
    /\ (durability (config d) = Always -> cm_durable c = true).
Proof.
  intros Hr Hk E. destruct (commit_ingress_new_Ok _ _ _ _ _ Hk E) as (canonical & Hc & Hs & Ea).
  destruct (append_ingress_ok d i canonical _ d d' (Ok c) eq_refl Ea)
    as (cat & Hid & Hcur & Hcat & _ & _ & Hcont & Hcm & Hst & Hdu).
  exists canonical, cat. split_and!; try done.
  2-4: rewrite Hst; unfold ingress_committed, install_catalog; rewrite (index_records_fold (Seg := unit));
    by destruct cat.
  - intros last Hl. rewrite Hl in Hcur. simpl in Hcur. zlia.
  - rewrite (committed_receipt seals d d' i _ canonical cat c (reachable_inv _ _ _ Hr) Hst Hcur Hdu). by rewrite Hcm.
  - intros Ha. rewrite Hcm. simpl. by rewrite Ha.
Qed.

Lemma new_ingress_commit_witness :
  exists c, commit_ingress demo_id2 demo_tx2 demo_2 = (demo_3, Ok c)
    /\ index (state demo_3) = foldl insert_indexed_point (index (state demo_2)) [Point_actual 1 15 0].
Proof.
  assert (E : exists c, commit_ingress demo_id2 demo_tx2 demo_2 = (demo_3, Ok c))
    by (eexists; vm_compute; reflexivity).
  destruct E as [c E]. exists c. split; [exact E|].
  assert (Hk : ingress_receipts (state demo_2) !! key_of demo_id2 = None) by (vm_compute; reflexivity).
  destruct (new_ingress_commit ∅ demo_config demo_2 demo_3 demo_id2 demo_tx2 c demo_2_reachable Hk E)
    as (canonical & cat & _ & _ & _ & _ & _ & _ & Hi & _). exact Hi.
Defined.

(** C8.  Failed calls roll back.  When [append], [commit] (also of an ordered
    transaction) or [flush] fails, on any handle, the in-memory state, the
    sealed segments and the durable watermarks are as before; the file is too,
    unless the handle is now poisoned, and then at most an unsynced tail was
    added to it. *)
Theorem failed_calls_roll_back `{Crc} `{RecordCodec} `{IndexCodec} `{TimeZones} {Seg} (d d' : Database Seg) e :
  (exists ps, append ps d = (d', Err e)) \/ (exists t, commit t d = (d', Err e)) \/ flush d = (d', Err e) ->
  rolled_back d d'.
Proof.
  intros [[ps E]|[[t E]|E]].
  - exact (append_rolled_back d ps d d' (Err e) eq_refl E).
  - exact (commit_rolled_back d t d d' (Err e) eq_refl E).
  - exact (flush_rolled_back d d d' (Err e) eq_refl E).
Qed.

(** A handle whose next write stops after ten bytes. *)
Definition demo_faulty : Database (list Point) :=
  set_file (mkFile (contents (file demo_2)) (synced (file demo_2)) [None; Some (mkFault "StorageFull" 10)]) demo_2.

Lemma failed_calls_roll_back_witness :
  append demo_points demo_faulty = ((append demo_points demo_faulty).1, Err (Io "StorageFull"))
  /\ rolled_back demo_faulty (append demo_points demo_faulty).1.
Proof.
  assert (E : append demo_points demo_faulty = ((append demo_points demo_faulty).1, Err (Io "StorageFull")))
    by (vm_compute; reflexivity).
  split; [exact E|]. refine (failed_calls_roll_back _ _ (Io "StorageFull") _). left. exists demo_points. exact E.
Defined.

(** C10.  State invariant.  In every reachable handle the catalog is
    referentially sound, every series of the live index is in valid-time order
    under its own identifier, and the ingress bookkeeping is consistent: each
    receipt sits under its identity, the cursor of a source is its greatest
    receipt, and commit identifiers are unique across both kinds of commit. *)
Theorem reachable_handles_are_well_formed `{Crc} `{RecordCodecLaws} `{IndexCodec} `{TimeZones} {Seg}
    seals cfg (d : Database Seg) :
  reachable seals cfg d ->
  wf_catalog (catalog (state d)) /\ wf_index (index (state d)) /\ wf_ingress (state d).
Proof. intros Hr. eapply handle_wf. by eapply reachable_inv. Qed.

Lemma reachable_handles_are_well_formed_witness :
  wf_catalog (catalog (state demo_4)) /\ wf_index (index (state demo_4)) /\ wf_ingress (state demo_4).
Proof. exact (reachable_handles_are_well_formed ∅ demo_config demo_4 demo_4_reachable). Defined.

(** C27.  Watermarks.  In a reachable handle the durable watermark of a source
    never passes the accepted one; after a successful [flush] they are equal for
    every source, every receipt is durable, everything written is synced and
    the state is unchanged. *)
Theorem flush_makes_everything_durable `{Crc} `{RecordCodecLaws} `{IndexCodec} `{TimeZones} {Seg}
    seals cfg (d : Database Seg) :
  reachable seals cfg d ->
  (forall src n, durable_through (ingress_watermarks src d) = Some n ->
     exists m, accepted_through (ingress_watermarks src d) = Some m /\ n <= m)
  /\ forall d', flush d = (d', Ok tt) ->
     state d' = state d /\ synced (file d') = length (contents (file d'))
     /\ contents (file d') = contents (file d)
     /\ (forall src, durable_through (ingress_watermarks src d') = accepted_through (ingress_watermarks src d'))
     /\ (forall src seq r, ingress_receipt src seq d' = Some r -> rc_durable r = true).
Proof.
  intros Hr. pose proof (reachable_inv _ _ _ Hr) as Hi. split; [intros src n; by apply (durable_le_accepted seals)|].
  intros d' E. destruct (flush_inv seals d Hi d d' (Ok tt) eq_refl E) as (Hi' & Hst & Hc & Hsy & _ & Hdu).
  split_and!; try done.
  - intros src. simpl. by rewrite Hdu.
  - intros src seq r Hrc. destruct (handle_wf _ _ Hi') as (_ & _ & Hwf). unfold ingress_receipt in Hrc.
    destruct (ingress_receipts (state d') !! (src, seq)) as [x|] eqn:Ex; [|done]. injection Hrc as <-. simpl.
    destruct (wi_bound _ Hwf _ _ Ex) as (n & Hn & Hle). simpl in Hn, Hle. rewrite Hdu, Hn. simpl. zlia.
Qed.

Lemma flush_makes_everything_durable_witness :
  exists d', flush demo_4 = (d', Ok tt) /\ state d' = state demo_4
    /\ durable_through (ingress_watermarks 7 d') = accepted_through (ingress_watermarks 7 d').
Proof.
  assert (E : flush demo_4 = ((flush demo_4).1, Ok tt)) by (vm_compute; reflexivity).
  exists (flush demo_4).1. split; [exact E|].
  destruct (flush_makes_everything_durable ∅ demo_config demo_4 demo_4_reachable) as [_ Hf].
  destruct (Hf _ E) as (Hs & _ & _ & Hw & _). exact (conj Hs (Hw 7)).
Defined.

(** Closed handles.  A read-only handle answers every writer call with
    [ReadOnly] and a handle that has failed answers with [Poisoned], in both
    cases without touching its state or its file. *)
Theorem closed_handles_refuse_writes `{Crc} `{RecordCodec} `{IndexCodec} `{TimeZones} {Seg} (d : Database Seg) e :
  refusal d = Some e ->
  (forall ps, append ps d = (d, Err e)) /\ (forall t, commit t d = (d, Err e))
  /\ (forall i t, commit_ingress i t d = (d, Err e)) /\ flush d = (d, Err e)
  /\ (forall g n, write_seal_checkpoint g n d = (d, Err e)).
Proof. intros Hr. split_and!; intros; by apply refused. Qed.

Lemma closed_handles_refuse_writes_witness :
  append demo_points (append demo_points demo_faulty).1 = ((append demo_points demo_faulty).1, Err Poisoned).
Proof.
  assert (Hr : refusal (append demo_points demo_faulty).1 = Some Poisoned) by (vm_compute; reflexivity).
  destruct (closed_handles_refuse_writes _ _ Hr) as [Ha _]. exact (Ha demo_points).
Defined.

(** ** Recovery *)

(** C29.  Recovery is sound.  When a writable open of any file succeeds, the
    file was empty or consisted of the database header, complete frames that
    pass every check, and a rest that was cut off; the handle's state is the
    replay of exactly these frames, with the index sorted and the receipts
    durable. *)
Theorem open_accepts_only_intact_logs `{Crc} `{RecordCodecLaws} `{IndexCodec} `{TimeZones} {Seg}
    lock cfg seals f f' (d : Database Seg) :
  is_bytes (contents f) -> open_file lock cfg false seals f = (f', Ok d) ->
  exists fs s, opened d cfg seals fs s
    /\ (contents f = [] /\ fs = [] \/
        exists rest, scans (scan_config cfg seals) (contents f) fs s rest).
Proof.
  intros Hb Ho. destruct (open_file_sound _ _ _ _ _ _ Hb Ho) as (_ & _ & fs & s & Hrest). by exists fs, s.
Qed.

(** A log of one point frame. *)
Definition demo_frames : list Frame := [mkFrame FRAME_KIND_LEGACY_POINTS 2 (encode_points demo_points)].
Definition demo_log : bytes := database_header ++ frames_bytes demo_frames.
Definition demo_scan_config : ScanConfig := scan_config demo_config ∅.
Definition demo_scanned : ScanState := (replay_frames demo_scan_config 16 demo_frames init_scan).1.

Lemma demo_frames_typed : Forall typed_frame demo_frames.
Proof. constructor; [|constructor]. split_and!; try done. apply encode_points_bytes. Qed.
Lemma demo_frames_replay : replay_frames demo_scan_config 16 demo_frames init_scan = (demo_scanned, Ok tt).
Proof. vm_compute. reflexivity. Qed.
Lemma demo_log_bytes : is_bytes demo_log.
Proof. apply is_bytes_app. split; [apply database_header_bytes|apply typed_frames_bytes, demo_frames_typed]. Qed.
Lemma demo_log_header : check_database_header demo_log = Ok tt.
Proof. apply check_database_header_ok. Qed.

Lemma open_accepts_only_intact_logs_witness :
  exists (d : Database (list Point)) fs s, opened d demo_config ∅ fs s
    /\ (take 150 demo_log = [] /\ fs = [] \/
        exists rest, scans (scan_config demo_config ∅) (take 150 demo_log) fs s rest).
Proof.
  assert (E : exists f' (d : Database (list Point)),
    open_file LockAcquired demo_config false ∅ (mkFile (take 150 demo_log) 0 []) = (f', Ok d))
    by (eexists _, _; vm_compute; reflexivity).
  destruct E as (f' & d & E). exists d.
  refine (open_accepts_only_intact_logs LockAcquired demo_config ∅ (mkFile (take 150 demo_log) 0 []) f' d _ E).
  apply Forall_take, demo_log_bytes.
Defined.

(** Torn tails.  A log of good frames cut anywhere behind its header is
    recovered to exactly the frames that are complete before the cut, and the
    file is cut back to them. *)
Theorem torn_tail_is_cut `{Crc} `{RecordCodecLaws} `{IndexCodec} `{TimeZones} cfg fs s n f :
  faults f = [] -> contents f = take n (database_header ++ frames_bytes fs) -> (16 <= n)%nat ->
  Forall typed_frame fs -> replay_frames cfg 16 fs init_scan = (s, Ok tt) ->
  exists fs1 fs2 s1 scan f', scan_log cfg (Recover false) f = (f', Ok scan)
    /\ fs = fs1 ++ fs2 /\ replay_frames cfg 16 fs1 init_scan = (s1, Ok tt)
    /\ scan_state scan = sort_index (log s1)
    /\ contents f' = database_header ++ frames_bytes fs1
    /\ (forall fr rest, fs2 = fr :: rest -> (n < 16 + length (frames_bytes (fs1 ++ [fr])))%nat).
Proof.
  intros Hf Hc Hn Ht Hr.
  destruct (scan_log_cut cfg fs s n f Hf Hc Hn Ht Hr)
    as (fs1 & fs2 & s1 & scan & f' & E1 & E2 & E3 & E4 & E5 & _ & E6).
  by exists fs1, fs2, s1, scan, f'.
Qed.

Lemma torn_tail_is_cut_witness :
  exists fs1 fs2 s1 scan f',
    scan_log demo_scan_config (Recover false) (mkFile (take 150 demo_log) 0 []) = (f', Ok scan)
    /\ demo_frames = fs1 ++ fs2 /\ replay_frames demo_scan_config 16 fs1 init_scan = (s1, Ok tt)
    /\ scan_state scan = sort_index (log s1)
    /\ contents f' = database_header ++ frames_bytes fs1
    /\ (forall fr rest, fs2 = fr :: rest -> (150 < 16 + length (frames_bytes (fs1 ++ [fr])))%nat).
Proof.
  exact (torn_tail_is_cut demo_scan_config demo_frames demo_scanned 150 (mkFile (take 150 demo_log) 0 [])
           eq_refl eq_refl (proj1 (Nat.leb_le 16 150) eq_refl) demo_frames_typed demo_frames_replay).
Defined.

(** C30.  Damage is not repaired.  A complete frame whose payload does not
    match its checksum, anywhere in a log, makes recovery fail with corruption
    at that frame's offset, and the file is left as it is; in particular a
    complete damaged last frame is never taken for a torn tail. *)
Theorem damaged_frame_is_reported `{Crc} `{RecordCodec} `{IndexCodec} `{TimeZones}
    cfg ro fs k n payload crc rest s f :
  faults f = [] -> Forall typed_frame fs -> replay_frames cfg 16 fs init_scan = (s, Ok tt) ->
  is_u16 k -> is_u32 n -> is_u32 (len payload) -> is_u32 crc -> hash payload <> crc ->
  contents f = database_header ++ frames_bytes fs ++ encode_frame_header k n (len payload) crc ++ payload ++ rest ->
  exists m, scan_log cfg (Recover ro) f = (f, Err (Corruption (16 + len (frames_bytes fs)) m)).
Proof. apply recover_bad_checksum. Qed.

(** The same log with a damaged frame behind it. *)
Definition demo_damaged : File :=
  mkFile (database_header ++ frames_bytes demo_frames ++ encode_frame_header 1 1 (len [1; 2; 3]) 7 ++ [1; 2; 3] ++ []) 0 [].

Lemma damaged_frame_is_reported_witness :
  exists m, scan_log demo_scan_config (Recover false) demo_damaged
    = (demo_damaged, Err (Corruption (16 + len (frames_bytes demo_frames)) m)).
Proof.
  refine (damaged_frame_is_reported demo_scan_config false demo_frames 1 1 [1; 2; 3] 7 [] demo_scanned demo_damaged
            eq_refl demo_frames_typed demo_frames_replay _ _ _ _ _ eq_refl); [done..|vm_compute; discriminate].
Defined.

(** C31.  Recovery ends.  The scan of any file with a valid header returns: it
    succeeds, or it reports corruption at an offset inside the file and leaves
    the file alone. *)
Theorem recovery_is_total `{Crc} `{RecordCodec} `{IndexCodec} `{TimeZones} cfg ro f :
  faults f = [] -> is_bytes (contents f) -> check_database_header (contents f) = Ok tt ->
  (exists f' scan, scan_log cfg (Recover ro) f = (f', Ok scan)) \/
  (exists o m, scan_log cfg (Recover ro) f = (f, Err (Corruption o m)) /\ 16 <= o < len (contents f)).
Proof. apply recover_total. Qed.

Lemma recovery_is_total_witness :
  (exists f' scan, scan_log demo_scan_config (Recover false) (mkFile demo_log 0 []) = (f', Ok scan)) \/
  (exists o m, scan_log demo_scan_config (Recover false) (mkFile demo_log 0 [])
     = (mkFile demo_log 0 [], Err (Corruption o m)) /\ 16 <= o < len demo_log).
Proof.
  exact (recovery_is_total demo_scan_config false (mkFile demo_log 0 []) eq_refl demo_log_bytes demo_log_header).
Defined.

(** C32.  Salvage.  Every log with a valid header can be salvaged: the source
    is not changed, a reason is always reported, the reported prefix is itself a
    log that recovers without a torn tail and to the reported counters, and the
    whole file was validated exactly when the reason is a clean end. *)
Theorem salvage_reports_a_valid_prefix `{Crc} `{RecordCodec} `{IndexCodec} `{TimeZones} seals f m :
  faults f = [] -> is_bytes (contents f) -> check_database_header (contents f) = Ok tt ->
  let cfg := scan_config Config_default seals in
  exists src, SalvageSource_open LockAcquired seals f = (f, Ok src)
    /\ source_bytes src = len (contents f)
    /\ 16 <= recovered_prefix_bytes src <= source_bytes src
    /\ (salvage_reason src = CleanEof <-> recovered_prefix_bytes src = source_bytes src)
    /\ let g := mkFile (take (Z.to_nat (recovered_prefix_bytes src)) (contents f)) m [] in
       exists scan, scan_log cfg (Recover false) g = (g, Ok scan)
         /\ recovered_tail scan = TailNone
         /\ commits (scan_state scan) = recovered_commits src
         /\ points (scan_state scan) = recovered_points src.
Proof. apply salvage_open_ok. Qed.

Lemma salvage_reports_a_valid_prefix_witness :
  exists src, SalvageSource_open LockAcquired ∅ (mkFile demo_log 0 []) = (mkFile demo_log 0 [], Ok src)
    /\ 16 <= recovered_prefix_bytes src <= source_bytes src.
Proof.
  destruct (salvage_reports_a_valid_prefix ∅ (mkFile demo_log 0 []) 0 eq_refl demo_log_bytes demo_log_header)
    as (src & Ho & _ & Hp & _). exact (ex_intro _ src (conj Ho Hp)).
Defined.

(** ** Encodings *)

(** Transaction round trip.  Decoding the canonical bytes of a
    transaction, at any offset, gives back its records. *)
Theorem transaction_roundtrip `{RecordCodecLaws} t b off :
  Forall typed_record (records t) -> encode_canonical_transaction t = Ok b -> is_u64 (len b) ->
  decode_transaction b (record_count t) off = Ok (records t).
Proof. apply decode_encode_transaction. Qed.

Lemma transaction_roundtrip_witness :
  exists b, encode_canonical_transaction demo_tx = Ok b
    /\ decode_transaction b (record_count demo_tx) 0 = Ok (records demo_tx).
Proof.
  assert (E : exists b, encode_canonical_transaction demo_tx = Ok b /\ len b = 1024)
    by (eexists; split; [vm_compute; reflexivity|vm_compute; reflexivity]).
  destruct E as (b & E & Hl). exists b. split; [exact E|].
  refine (transaction_roundtrip demo_tx b 0 (proj1 demo_tx_typed) E _). rewrite Hl. unfold is_u64. lia.
Defined.

(** Identity-index round trip: a compact identity index reads back from
    its frame payload. *)
Theorem identity_index_roundtrip `{IndexCodecLaws} i b off :
  typed_identity_index i -> encoded_identity_index i = Ok b -> decode_identity_index b off = Ok i.
Proof. apply decode_encoded_identity_index. Qed.

Lemma identity_index_roundtrip_witness :
  let i := mkIdentityIndex [] [mkCompactIngress 7 1 99 12 5 2 3 [] 16 300] in
  exists b, encoded_identity_index i = Ok b /\ decode_identity_index b 16 = Ok i.
Proof.
  intros i. eexists. split; [reflexivity|]. refine (identity_index_roundtrip i _ 16 _ eq_refl).
  unfold i, typed_identity_index. split; repeat constructor; done.
Defined.

(** Point round trip, both ways: a point decodes from its 72 bytes to
    itself, and any 72 bytes are the encoding of the point they decode to. *)
Theorem point_roundtrip :
  (forall p, typed_point p -> decode_point (encode_point p) = p)
  /\ (forall raw, is_bytes raw -> length raw = POINT_BYTES -> encode_point (decode_point raw) = raw).
Proof. split; [apply decode_encode_point|apply encode_decode_point]. Qed.

(** ** Reclaim *)

(** C9.  Reclaiming keeps everything.  When [reclaim_live_log] succeeds on a
    reachable handle, the handle is one that an open returns on the compact
    log, and it holds what the old one held: the catalog, the live points of
    every series in order, every receipt with its identity, its counts and its
    payload bytes, every cursor and every commit identifier, all of it durable.
    When it fails, the state and the handle's file are as they were, and the
    path of the log names the file it named before or, when the rename was done
    and only the sync of the directory failed, the compact log: then the handle
    is poisoned, and opening the path gives a handle that holds everything. *)
Theorem reclaim_keeps_everything `{Crc} `{RecordCodecLaws} `{IndexCodecLaws} `{TimeZones} `{MapOrder} {Seg}
    seals cfg env (d d' : Database Seg) r :
  reachable seals cfg d -> typed_log (contents (file d)) (state d) -> reclaim_live_log env d = (d', r) ->
  match r with
  | Ok _ => reachable seals cfg d' /\ kept (contents (file d)) (contents (file d')) (state d) (state d')
            /\ log_at_path d' = file d' /\ synced (file d') = length (contents (file d'))
            /\ ingress_durable_sequences d' = ingress_last_sequences (state d)
  | Err _ =>
      handle_inv seals d' /\ as_before d d'
      /\ (renamed_log d' = renamed_log d
          \/ (rename_fault env = None /\ poisoned d' = true
              /\ synced (log_at_path d') = length (contents (log_at_path d'))
              /\ forall flts, exists d2 : Database Seg,
                   open_mode LockAcquired cfg false seals
                     (Some (mkFile (contents (log_at_path d')) (synced (log_at_path d')) (None :: None :: None :: flts)))
                   = (Some (file d2), Ok d2)
                   /\ reachable seals cfg d2 /\ kept (contents (file d)) (contents (file d2)) (state d) (state d2)))
  end.
Proof.
  intros Hd Ht E. destruct r as [[]|e].
  - destruct (reclaim_reachable _ _ _ _ _ Hd Ht E) as [Hr Hk].
    destruct (reclaim_live_log_Ok _ _ _ _ (reachable_inv _ _ _ Hd) Ht E) as (fs & s & _ & _ & _ & Hs & Ed & _).
    split_and!; try done; [by rewrite Ed|]. rewrite <- (kp_last _ _ _ _ Hk), Ed. done.
  - destruct (reclaim_live_log_Err _ _ _ _ _ (reachable_inv _ _ _ Hd) Ht E) as (Hi & Hb & Hp). split_and!; [done..|].
    destruct Hp as [Hp|(Hf & Hp & g & fs & s & Hg & Hc)]; [by left|right]. split_and!; [done..| |].
    + unfold log_at_path. rewrite Hg. by destruct Hc as (_ & _ & _ & Hs & _).
    + intros flts. by eexists; eapply renamed_log_opens.
Qed.

Definition calm_env : ReclaimEnv := mkReclaimEnv [] LockAcquired None None.
Definition demo_reclaimed := (reclaim_live_log calm_env demo_4).1.
(** The same with a directory that cannot be synced. *)
Definition unsynced_env : ReclaimEnv := mkReclaimEnv [] LockAcquired None (Some "Other").
Definition demo_renamed := (reclaim_live_log unsynced_env demo_4).1.

Lemma reclaim_keeps_everything_witness :
  reclaim_live_log calm_env demo_4 = (demo_reclaimed, Ok tt)
  /\ reachable ∅ demo_config demo_reclaimed
  /\ kept (contents (file demo_4)) (contents (file demo_reclaimed)) (state demo_4) (state demo_reclaimed)
  /\ reclaim_live_log unsynced_env demo_4 = (demo_renamed, Err (Io "Other"))
  /\ exists d2 : Database (list Point), reachable ∅ demo_config d2
     /\ kept (contents (file demo_4)) (contents (file d2)) (state demo_4) (state d2).
Proof.
  assert (E : reclaim_live_log calm_env demo_4 = (demo_reclaimed, Ok tt)) by (vm_compute; reflexivity).
  split; [exact E|].
  assert (Ht : typed_log (contents (file demo_4)) (state demo_4)).
  { apply (bool_decide_unpack (typed_log (contents (file demo_4)) (state demo_4))). vm_compute. exact I. }
  destruct (reclaim_keeps_everything ∅ demo_config calm_env demo_4 demo_reclaimed (Ok tt) demo_4_reachable Ht E) as (H1 & H2 & _).
  assert (E' : reclaim_live_log unsynced_env demo_4 = (demo_renamed, Err (Io "Other"))) by (vm_compute; reflexivity).
  split; [exact H1|]. split; [exact H2|]. split; [exact E'|].
  destruct (reclaim_keeps_everything ∅ demo_config unsynced_env demo_4 demo_renamed _ demo_4_reachable Ht E') as (_ & _ & [Hn|(_ & _ & _ & Ho)]).
  - exfalso. assert (Hd : is_some (renamed_log demo_renamed) = true) by (vm_compute; reflexivity).
    assert (Hd' : is_some (renamed_log demo_4) = false) by (vm_compute; reflexivity). rewrite Hn, Hd' in Hd. discriminate Hd.
  - destruct (Ho []) as (d2 & _ & Hr & Hk). exists d2. exact (conj Hr Hk).
Defined.
