(* ===== verification/DataProps.v ===== *)
(** * DataProps: the guarantees of the catalog, the queries and the aggregates

    The properties of [src/src/catalog.rs], the query methods of
    [src/src/storage.rs], [src/src/rollup.rs] and [src/src/aggregate.rs], each
    with an example. *)
From S2P Require Import Prelude Errors Bytes Float64 Model Transaction Graph Catalog Aggregate Rollup Query Codec Scan Database Instances Demo.

(** ** Catalog *)

(** An optimization run with a plan, then the run completed and the plan
    approved. *)
Definition demo_run (status : RunStatus) : Run :=
  mkRun 3 Optimization status 1 1 (str "w") (str "m") (str "1") None None ∅.
Definition demo_plan (status : PlanStatus) : Plan :=
  mkPlan 4 3 status 0 100 10 (str "base") ∅ None None ∅.
Definition demo_records : list TxRecord :=
  [REntity demo_entity; RSeries demo_series; RRun (demo_run Pending); RPlan (demo_plan Candidate);
   RPoints demo_points].
Definition demo_records2 : list TxRecord := [RRun (demo_run Succeeded); RPlan (demo_plan Approved)].
Definition catalog_after (c : Catalog) (rs : list TxRecord) : Catalog :=
  match apply_records c rs with Ok (Some c') => c' | _ => c end.
Definition demo_catalog : Catalog := catalog_after Catalog_default demo_records.
Definition demo_catalog2 : Catalog := catalog_after demo_catalog demo_records2.

Lemma demo_catalog_applied : apply_records Catalog_default demo_records = Ok (Some demo_catalog).
Proof. vm_compute. reflexivity. Qed.
Lemma demo_catalog2_applied : apply_records demo_catalog demo_records2 = Ok (Some demo_catalog2).
Proof. vm_compute. reflexivity. Qed.
Lemma demo_catalog_wf : wf_catalog demo_catalog.
Proof. eapply apply_records_wf; [apply wf_catalog_default|apply demo_catalog_applied]. Qed.

(** C36.  Reference validation is exact.  On a catalog of valid records,
    [validate_references] succeeds exactly when every referenced entity,
    relation, run and plan exists, plans refer to optimization runs, and the
    parent, provenance and supersession graphs have no cycle; in particular the
    cycle searches end on every catalog. *)
Theorem reference_validation_is_exact `{TimeZones} (c : Catalog) :
  wf_records c -> (validate_references c = Ok tt <-> refs_valid c).
Proof. apply validate_references_iff. Qed.

Lemma reference_validation_is_exact_witness :
  validate_references demo_catalog = Ok tt <-> refs_valid demo_catalog.
Proof. exact (reference_validation_is_exact demo_catalog (proj1 demo_catalog_wf)). Defined.

(** Catalog invariant.  A transaction the catalog accepts leaves it with
    valid records under their own identifiers, no dangling reference and no
    reference cycle. *)
Theorem accepted_transactions_keep_the_catalog_sound `{TimeZones} c rs c' :
  wf_catalog c -> apply_records c rs = Ok (Some c') -> wf_catalog c'.
Proof. apply apply_records_wf. Qed.

Lemma accepted_transactions_keep_the_catalog_sound_witness : wf_catalog demo_catalog2.
Proof.
  exact (accepted_transactions_keep_the_catalog_sound demo_catalog demo_records2 demo_catalog2
           demo_catalog_wf demo_catalog2_applied).
Defined.

(** Accepted points.  Every point of an accepted transaction has a finite
    value over a forward interval and belongs to a series, and to a run unless
    it is an actual, that the catalog knows after the transaction. *)
Theorem accepted_points_are_owned `{TimeZones} c rs o ps p :
  apply_records c rs = Ok o -> RPoints ps ∈ rs -> p ∈ ps ->
  let c' := default c o in
  is_Some (series_map c' !! series p)
  /\ (point_run_id p = 0 \/ is_Some (runs c' !! point_run_id p))
  /\ valid_time p <= valid_time_end p /\ f64_is_finite (value p) = true.
Proof. apply apply_records_points. Qed.

Lemma accepted_points_are_owned_witness :
  is_Some (series_map demo_catalog !! 1) /\ f64_is_finite one64 = true.
Proof.
  destruct (accepted_points_are_owned Catalog_default demo_records (Some demo_catalog) demo_points
              (Point_actual 1 10 one64) demo_catalog_applied) as (Hs & _ & _ & Hv).
  - apply list_elem_of_In. simpl. tauto.
  - left.
  - exact (conj Hs Hv).
Defined.

(** Run history.  No accepted transaction removes a run or changes its
    identity fields, and a completed run keeps its status, times, workflow,
    model and provenance. *)
Theorem run_history_is_preserved `{TimeZones} c rs c' id old :
  wf_catalog c -> apply_records c rs = Ok (Some c') -> runs c !! id = Some old ->
  exists new, runs c' !! id = Some new /\ run_evolves old new.
Proof. apply apply_records_run_evolves. Qed.

Lemma run_history_is_preserved_witness :
  exists new, runs demo_catalog2 !! 3 = Some new /\ run_evolves (demo_run Pending) new.
Proof.
  refine (run_history_is_preserved demo_catalog demo_records2 demo_catalog2 3 (demo_run Pending)
            demo_catalog_wf demo_catalog2_applied _).
  vm_compute. reflexivity.
Defined.

(** Plan life cycle.  No accepted transaction removes a plan or changes
    its schedule identity, and its status only moves along candidate, approved,
    deployed, with cancellation before deployment and supersession at any
    time. *)
Theorem plan_life_cycle `{TimeZones} c rs c' id old :
  wf_catalog c -> apply_records c rs = Ok (Some c') -> plans c !! id = Some old ->
  exists new, plans c' !! id = Some new /\ plan_evolves old new.
Proof. apply apply_records_plan_evolves. Qed.

Lemma plan_life_cycle_witness :
  exists new, plans demo_catalog2 !! 4 = Some new /\ plan_evolves (demo_plan Candidate) new.
Proof.
  refine (plan_life_cycle demo_catalog demo_records2 demo_catalog2 4 (demo_plan Candidate)
            demo_catalog_wf demo_catalog2_applied _).
  vm_compute. reflexivity.
Defined.

(** Snapshot round trip.  The snapshot of a sound catalog can be taken,
    and its records, replayed on an empty catalog, pass validation and rebuild
    exactly that catalog. *)
Theorem catalog_snapshot_roundtrip `{TimeZones} c :
  wf_catalog c -> exists rs, snapshot_records c = Ok rs /\ validate_and_apply Catalog_default rs = Ok c.
Proof. apply snapshot_records_roundtrip. Qed.

Lemma catalog_snapshot_roundtrip_witness :
  exists rs, snapshot_records demo_catalog = Ok rs /\ validate_and_apply Catalog_default rs = Ok demo_catalog.
Proof. exact (catalog_snapshot_roundtrip demo_catalog demo_catalog_wf). Defined.

(** ** Queries *)

Definition demo_index : Index := foldl insert_indexed_point ∅ demo_points.
Lemma demo_index_wf : wf_index demo_index.
Proof.
  split; unfold demo_index, demo_points; cbn [foldl].
  - do 2 apply insert_indexed_point_wf. apply wf_index_empty.
  - do 2 apply insert_indexed_point_keyed. apply wf_index_empty.
Qed.
(** A sealed segment with a later revision of the point at time 10. *)
Definition demo_sealed : list (list Point) := [[mkPoint 1 10 10 11 11 0 two64 0 0]].
Lemma demo_sealed_intact : Forall seg_intact demo_sealed.
Proof. by constructor. Qed.

(** C38.  Point-in-time queries.  A query with knowledge and change cut-offs
    over intact segments and a well-formed live index returns, in strictly
    increasing valid time, exactly one revision for each valid time of the
    window that has a visible one: the last in the order of knowledge and change
    time, later arrivals winning ties. *)
Theorem query_selects_latest_visible_revision {Seg} `{SegmentSpec Seg} sealed index s start stop k c :
  Forall seg_intact sealed -> wf_index index ->
  exists W,
    query_with_cutoffs sealed index s start stop k c = Ok W /\
    time_strict W /\
    forall t, List.filter (at_time t) W
      = option_list (last (sort_revisions (List.filter
          (fun p => in_window s start stop p && visible k c p && at_time t p)
          (stored sealed index s)))).
Proof. apply query_with_cutoffs_ok. Qed.

Lemma query_selects_latest_visible_revision_witness :
  exists W, query_with_cutoffs demo_sealed demo_index 1 0 100 (Some 30) None = Ok W /\ time_strict W.
Proof.
  destruct (query_selects_latest_visible_revision demo_sealed demo_index 1 0 100 (Some 30) None
              demo_sealed_intact demo_index_wf) as (W & HW & Hs & _).
  exact (ex_intro _ W (conj HW Hs)).
Defined.

(** Run queries.  A query for one run returns, in strictly increasing
    valid time, stored revisions of that run in the window, and for every such
    revision one at the same valid time with no smaller change time. *)
Theorem query_run_selects_latest_change {Seg} `{SegmentSpec Seg} sealed index s run start stop :
  Forall seg_intact sealed -> wf_index index ->
  exists W,
    query_run sealed index s run start stop = Ok W /\
    time_strict W /\
    (forall p, p ∈ W -> p ∈ stored sealed index s /\ in_window s start stop p = true
                        /\ point_run_id p = run) /\
    (forall q, q ∈ stored sealed index s -> in_window s start stop q = true ->
       point_run_id q = run ->
       exists p, p ∈ W /\ valid_time p = valid_time q /\ change_time q <= change_time p).
Proof. apply query_run_ok. Qed.

Lemma query_run_selects_latest_change_witness :
  exists W, query_run demo_sealed demo_index 1 0 0 100 = Ok W /\ time_strict W.
Proof.
  destruct (query_run_selects_latest_change demo_sealed demo_index 1 0 0 100
              demo_sealed_intact demo_index_wf) as (W & HW & Hs & _).
  exact (ex_intro _ W (conj HW Hs)).
Defined.

(** History queries return every stored revision of the window exactly
    once, in the order of valid, knowledge and change time, ties in log order. *)
Theorem query_history_returns_every_revision {Seg} `{SegmentSpec Seg} sealed index s start stop :
  Forall seg_intact sealed -> wf_index index ->
  query_history sealed index s start stop
  = Ok (sort_revisions (List.filter (in_window s start stop) (stored sealed index s))).
Proof. apply query_history_ok. Qed.

Lemma query_history_returns_every_revision_witness :
  query_history demo_sealed demo_index 1 0 100
  = Ok (sort_revisions (List.filter (in_window 1 0 100) (stored demo_sealed demo_index 1))).
Proof.
  exact (query_history_returns_every_revision demo_sealed demo_index 1 0 100 demo_sealed_intact demo_index_wf).
Defined.

(** Plan comparison.  [compare_plan_to_actual] returns, in strictly
    increasing valid time, exactly one outcome for each valid time at which the
    plan's run or the actuals have a point, with both points and, where both
    exist, the difference of actual and planned value. *)
Theorem plan_comparison_is_complete {Seg} `{SegmentOps Seg} sealed index ps acs run start stop pl ac :
  query_run sealed index ps run start stop = Ok pl ->
  query_run sealed index acs 0 start stop = Ok ac ->
  exists out, compare_plan_to_actual sealed index ps acs run start stop = Ok out
    /\ StronglySorted (fun a b => outcome_valid_time a < outcome_valid_time b) out
    /\ forall o, o ∈ out <->
         (is_Some (planned o) \/ is_Some (actual o))
         /\ planned o = point_at (outcome_valid_time o) pl
         /\ actual o = point_at (outcome_valid_time o) ac
         /\ difference o = match planned o, actual o with
                           | Some p, Some a => Some (f64_sub (value a) (value p))
                           | _, _ => None
                           end.
Proof. apply compare_plan_to_actual_ok. Qed.

Lemma plan_comparison_is_complete_witness :
  exists out, compare_plan_to_actual demo_sealed demo_index 2 1 3 0 100 = Ok out
    /\ StronglySorted (fun a b => outcome_valid_time a < outcome_valid_time b) out.
Proof.
  assert (Hp : exists pl, query_run demo_sealed demo_index 2 3 0 100 = Ok pl)
    by (eexists; vm_compute; reflexivity).
  assert (Ha : exists ac, query_run demo_sealed demo_index 1 0 0 100 = Ok ac)
    by (eexists; vm_compute; reflexivity).
  destruct Hp as [pl Hp], Ha as [ac Ha].
  destruct (plan_comparison_is_complete demo_sealed demo_index 2 1 3 0 100 pl ac Hp Ha) as (out & Ho & Hs & _).
  exact (ex_intro _ out (conj Ho Hs)).
Defined.

(** The two index constructions agree.  Pushing points in log order and
    sorting every series once, as recovery does, gives the index that
    incremental insertion, as the writer does, maintains, on any index and any
    points; ties keep their log order in both. *)
Theorem recovery_and_writer_build_the_same_index m ps :
  sort_series <$> foldl push_indexed_point m ps
  = foldl insert_indexed_point (sort_series <$> m) ps.
Proof. apply push_then_sort_insert. Qed.

(** ** Rollups *)

Definition demo_samples : list Point :=
  [Point_actual 1 5 one64; Point_actual 1 12 two64; Point_actual 1 28 one64].
Definition demo_fixed (res : Z) : FixedGaugeRollup :=
  match fixed_build demo_samples res 100 with Ok r => r | Err _ => mkFixed res ∅ end.
Lemma demo_samples_typed : Forall typed_point demo_samples.
Proof. typed_tac. Qed.
Lemma demo_fixed_10 : fixed_build demo_samples 10 100 = Ok (demo_fixed 10).
Proof. vm_compute. reflexivity. Qed.
Lemma demo_fixed_20 : fixed_build demo_samples 20 100 = Ok (demo_fixed 20).
Proof. vm_compute. reflexivity. Qed.

(** C39.  Fixed rollups.  In a rollup that was built, every sample has the
    bucket of its time; every bucket is aligned to the resolution, counts
    exactly the samples it contains, and covers exactly the time that the gaps
    between consecutive samples, up to the maximum gap, share with it. *)
Theorem fixed_rollup_accounts_exactly points res max_gap r :
  Forall typed_point points -> is_i64 res ->
  fixed_build points res max_gap = Ok r ->
  0 < res /\ resolution_micros r = res /\
  (forall p, p ∈ points -> is_Some (fixed_buckets r !! (valid_time p / res * res))) /\
  forall k b, fixed_buckets r !! k = Some b ->
    b_start b = k /\ b_end b = k + res /\ k = k / res * res /\ is_i64 k /\ is_i64 (k + res)
    /\ b_count b = len (List.filter (in_bucket k res) points)
    /\ b_covered_micros b
       = expected_coverage max_gap (k, k + res) (windows2 (sort_by_valid_time points))
    /\ 0 <= b_covered_micros b <= res.
Proof. apply fixed_build_spec. Qed.

Lemma fixed_rollup_accounts_exactly_witness :
  resolution_micros (demo_fixed 10) = 10 /\ is_Some (fixed_buckets (demo_fixed 10) !! (5 / 10 * 10)).
Proof.
  destruct (fixed_rollup_accounts_exactly demo_samples 10 100 (demo_fixed 10) demo_samples_typed
              ltac:(unfold is_i64; lia) demo_fixed_10) as (_ & Hr & Hb & _).
  exact (conj Hr (Hb (Point_actual 1 5 one64) (list_elem_of_here _ _))).
Defined.

(** Fixed rollups can be built for every list of samples that stays one
    resolution away from the ends of the time range and spans less than it. *)
Theorem fixed_rollup_construction_succeeds points res max_gap :
  0 < res -> is_i64 res -> 0 <= max_gap ->
  (forall p, p ∈ points -> - 2 ^ 63 + res <= valid_time p < 2 ^ 63 - res) ->
  (forall p q, p ∈ points -> q ∈ points -> is_i64 (valid_time q - valid_time p)) ->
  exists r, fixed_build points res max_gap = Ok r.
Proof. apply fixed_build_succeeds. Qed.

Lemma fixed_rollup_construction_succeeds_witness : exists r, fixed_build [Point_actual 1 5 one64] 10 100 = Ok r.
Proof.
  apply (fixed_rollup_construction_succeeds [Point_actual 1 5 one64] 10 100); unfold is_i64; [lia..| |].
  - intros p ->%list_elem_of_singleton. simpl. lia.
  - intros p q ->%list_elem_of_singleton ->%list_elem_of_singleton. simpl. lia.
Defined.

(** Range queries on a fixed rollup return exactly the buckets that
    intersect the window. *)
Theorem fixed_rollup_range_is_exact points res max_gap r start stop :
  Forall typed_point points -> is_i64 res -> fixed_build points res max_gap = Ok r ->
  - 2 ^ 63 + res <= start < 2 ^ 63 - res -> start <= stop ->
  exists l, fixed_range r start stop = Ok l /\
    forall b, b ∈ l <->
      (exists k, fixed_buckets r !! k = Some b) /\ start < b_end b /\ b_start b < stop.
Proof. apply fixed_range_spec. Qed.

Lemma fixed_rollup_range_is_exact_witness :
  exists l, fixed_range (demo_fixed 10) 7 15 = Ok l /\
    forall b, b ∈ l <->
      (exists k, fixed_buckets (demo_fixed 10) !! k = Some b) /\ 7 < b_end b /\ b_start b < 15.
Proof.
  apply (fixed_rollup_range_is_exact demo_samples 10 100 (demo_fixed 10) 7 15 demo_samples_typed
           ltac:(unfold is_i64; lia) demo_fixed_10); lia.
Defined.

(** A range whose end lies before the bucket of its start aborts the
    process, since the ordered map refuses such bounds, while the calendar
    rollup answers the same request with no bucket. *)
Theorem fixed_rollup_range_aborts_on_reversed_window r start stop :
  stop < bucket_start start (resolution_micros r) ->
  fixed_range r start stop = Err (Panic "range start is greater than range end in BTreeMap").
Proof. intros Hlt. unfold fixed_range. by destruct (Z.ltb_spec stop (bucket_start start (resolution_micros r))); [|lia]. Qed.

Lemma fixed_rollup_range_aborts_on_reversed_window_witness :
  fixed_range (demo_fixed 10) 25 15 = Err (Panic "range start is greater than range end in BTreeMap").
Proof. apply (fixed_rollup_range_aborts_on_reversed_window (demo_fixed 10) 25 15). vm_compute. reflexivity. Defined.

(** Coarser rollups from finer ones.  Merging two adjacent buckets gives
    the bounds, the count and the coverage of the bucket that a rollup of twice
    the resolution builds from the samples. *)
Theorem merged_buckets_equal_coarser_rollup points res max_gap fine coarse k a b c :
  Forall typed_point points -> is_i64 res -> is_i64 (2 * res) ->
  fixed_build points res max_gap = Ok fine ->
  fixed_build points (2 * res) max_gap = Ok coarse ->
  fixed_buckets fine !! k = Some a -> fixed_buckets fine !! (k + res) = Some b ->
  fixed_buckets coarse !! k = Some c ->
  exists m, merge_exact a b = Ok m /\ b_start m = b_start c /\ b_end m = b_end c
    /\ b_count m = b_count c /\ b_covered_micros m = b_covered_micros c.
Proof. apply merge_exact_coarser. Qed.

Lemma merged_buckets_equal_coarser_rollup_witness :
  exists a b c m, fixed_buckets (demo_fixed 10) !! 0 = Some a /\ fixed_buckets (demo_fixed 10) !! 10 = Some b
    /\ fixed_buckets (demo_fixed 20) !! 0 = Some c /\ merge_exact a b = Ok m
    /\ b_count m = b_count c /\ b_covered_micros m = b_covered_micros c.
Proof.
  assert (Ea : exists a, fixed_buckets (demo_fixed 10) !! 0 = Some a) by (eexists; vm_compute; reflexivity).
  assert (Eb : exists b, fixed_buckets (demo_fixed 10) !! 10 = Some b) by (eexists; vm_compute; reflexivity).
  assert (Ec : exists c, fixed_buckets (demo_fixed 20) !! 0 = Some c) by (eexists; vm_compute; reflexivity).
  destruct Ea as [a Ea], Eb as [b Eb], Ec as [c Ec].
  destruct (merged_buckets_equal_coarser_rollup demo_samples 10 100 (demo_fixed 10) (demo_fixed 20) 0 a b c
              demo_samples_typed ltac:(unfold is_i64; lia) ltac:(unfold is_i64; lia)
              demo_fixed_10 demo_fixed_20 Ea Eb Ec) as (m & Hm & _ & _ & Hn & Hc).
  exists a, b, c, m. exact (conj Ea (conj Eb (conj Ec (conj Hm (conj Hn Hc))))).
Defined.

(** ** Streaming aggregates *)

Definition demo_first : Sample := mkSample 5 one64.
Definition demo_rest : list Sample := [mkSample 12 two64; mkSample 28 one64].

(** Gauges.  Pushing an ordered stream whose span fits an [i64] always
    succeeds, and the aggregate holds the count, the ends, the sum and extrema
    in stream order, and the time covered by gaps up to the maximum. *)
Theorem gauge_aggregate_is_exact max_gap s l :
  ordered_from (timestamp s) l -> spans_i64 s l ->
  exists a, gauge_of max_gap s l = Ok a
    /\ g_count a = 1 + len l /\ g_first a = s /\ g_last a = last_of s l
    /\ g_covered_micros a = coverage max_gap (timestamp s) l
    /\ g_sum a = foldl f64_add (sample_value s) (map sample_value l)
    /\ g_min a = foldl f64_min (sample_value s) (map sample_value l)
    /\ g_max a = foldl f64_max (sample_value s) (map sample_value l).
Proof.
  intros Ho Hs. destruct (gauge_of_succeeds max_gap s l Ho Hs) as [a Ha]. exists a. split; [done|].
  destruct (gauge_of_spec max_gap s l a Ha) as (H1 & H2 & H3 & H4 & _ & H5). done.
Qed.

Lemma gauge_aggregate_is_exact_witness :
  exists a, gauge_of 100 demo_first demo_rest = Ok a /\ g_count a = 3 /\ g_covered_micros a = 23.
Proof.
  destruct (gauge_aggregate_is_exact 100 demo_first demo_rest) as (a & Ha & Hc & _ & _ & Hg & _).
  - simpl. lia.
  - unfold spans_i64, is_i64. simpl. lia.
  - exact (ex_intro _ a (conj Ha (conj Hc Hg))).
Defined.

(** Mergeability.  Merging the aggregates of two adjacent parts of a
    stream of finite values gives the count, ends, coverage and extrema that
    direct aggregation of the whole stream gives. *)
Theorem merged_gauges_equal_direct_aggregation max_gap s l s' l' d :
  Forall (fun x => f64_is_finite (sample_value x) = true) (s :: l ++ s' :: l') ->
  spans_i64 s (l ++ s' :: l') ->
  gauge_of max_gap s (l ++ s' :: l') = Ok d ->
  exists a b m, gauge_of max_gap s l = Ok a /\ gauge_of max_gap s' l' = Ok b
    /\ gauge_merge a b max_gap = Ok m
    /\ g_count m = g_count d /\ g_first m = g_first d /\ g_last m = g_last d
    /\ g_covered_micros m = g_covered_micros d /\ g_min m = g_min d /\ g_max m = g_max d.
Proof. apply gauge_merge_direct. Qed.

Lemma merged_gauges_equal_direct_aggregation_witness :
  exists a b m, gauge_of 100 demo_first [] = Ok a
    /\ gauge_of 100 (mkSample 12 two64) [mkSample 28 one64] = Ok b
    /\ gauge_merge a b 100 = Ok m /\ g_count m = 3.
Proof.
  assert (Hd : exists d, gauge_of 100 demo_first ([] ++ mkSample 12 two64 :: [mkSample 28 one64]) = Ok d
                         /\ g_count d = 3) by (eexists; split; vm_compute; reflexivity).
  destruct Hd as (d & Hd & Hc).
  destruct (merged_gauges_equal_direct_aggregation 100 demo_first [] (mkSample 12 two64) [mkSample 28 one64] d)
    as (a & b & m & Ha & Hb & Hm & Hn & _).
  - by repeat constructor.
  - unfold spans_i64, is_i64. simpl. lia.
  - exact Hd.
  - exists a, b, m. exact (conj Ha (conj Hb (conj Hm (eq_trans Hn Hc)))).
Defined.

(** Counters.  A counter aggregate that was built counts its samples and
    its resets (a value below its predecessor), keeps the ends, and its samples
    were in time order. *)
Theorem counter_aggregate_is_exact s l a :
  counter_of s l = Ok a ->
  c_count a = 1 + len l /\ c_first a = s /\ c_last a = last_of s l
  /\ c_resets a = count_resets (sample_value s) l /\ ordered_from (timestamp s) l.
Proof. apply counter_of_spec. Qed.

Lemma counter_aggregate_is_exact_witness :
  exists a, counter_of demo_first demo_rest = Ok a /\ c_count a = 3 /\ c_last a = mkSample 28 one64.
Proof.
  assert (Ha : exists a, counter_of demo_first demo_rest = Ok a) by (eexists; vm_compute; reflexivity).
  destruct Ha as [a Ha]. destruct (counter_aggregate_is_exact _ _ _ Ha) as (Hc & _ & Hl & _).
  exists a. exact (conj Ha (conj Hc Hl)).
Defined.
