(* ===== verification/StoreProps.v ===== *)
(** * StoreProps: the guarantees of segments, rollup files and manifests

    The properties of [src/src/segment.rs], [src/src/rollup_segment.rs] and
    [src/src/manifest.rs], each with an example. *)
From S2P Require Import Prelude Errors Bytes Float64 Model Transaction Catalog Aggregate Rollup Query Codec Columns Effects Segment SegmentInv SegmentWrite RollupSegment Directory Manifest ManifestInv Instances Demo.

(** ** Segments *)

Lemma demo_points_typed : Forall typed_point demo_points.
Proof. typed_tac. Qed.

(** A small segment file with its statistics. *)
Lemma demo_file_created : exists file st, Segment_create false demo_points 1024 = Ok (file, st).
Proof.
  apply create_total; [done|apply demo_points_typed| |vm_compute; reflexivity|vm_compute; done].
  repeat constructor; unfold near; cbn; lia.
Qed.

(** C23.  Sealing loses nothing.  A segment file that was created opens with
    the statistics the writer returned, passes [verify_blocks], and answers
    every query with exactly the given points of the series in the window, in
    the order of the segment. *)
Theorem sealed_points_are_served `{Crc, Lz4, !Lz4Laws} exists_already points block_points file st :
  Segment_create exists_already points block_points = Ok (file, st) -> 0 <= block_points -> Forall typed_point points ->
  exists g, Segment_open file = Ok g /\ seg_stats g = st /\ verify_blocks g = Ok tt
    /\ forall s start stop,
         Segment_query g s start stop = Ok (List.filter (in_window s start stop) (stable_sort segment_leb points)).
Proof.
  intros Hc Hn Ht. destruct (create_open _ _ _ _ _ Hc Hn Ht) as (g & Ho & _ & Hs & Hv & Hp).
  exists g. split; [done|]. split; [done|]. split; [done|]. intros s start stop. rewrite <- Hp.
  by apply (seg_query_ok (SegmentSpec := segment_spec)).
Qed.

Lemma sealed_points_are_served_witness :
  exists file st g, Segment_create false demo_points 1024 = Ok (file, st) /\ Segment_open file = Ok g
    /\ forall s start stop,
         Segment_query g s start stop = Ok (List.filter (in_window s start stop) (stable_sort segment_leb demo_points)).
Proof.
  destruct demo_file_created as (file & st & Hc).
  destruct (sealed_points_are_served false demo_points 1024 file st Hc ltac:(lia) demo_points_typed) as (g & Ho & _ & _ & Hq).
  exact (ex_intro _ file (ex_intro _ st (ex_intro _ g (conj Hc (conj Ho Hq))))).
Defined.

(** C24.  The two read paths agree.  On any file that opens and passes
    [verify_blocks], the streaming [visit_query], which stops at the first
    block past the window, hands over exactly the points [Segment_query]
    returns by scanning every matching block: the points of the series that
    overlap the window. *)
Theorem segment_read_paths_agree `{Crc, Lz4} file g s start stop :
  Segment_open file = Ok g -> verify_blocks g = Ok tt ->
  Segment_query g s start stop = Ok (List.filter (in_window s start stop) (segment_points g))
  /\ exists reserved,
       visit_query (fun e => e) g s start stop collect_reserve collect_visit (0, [])
       = ((reserved, List.filter (in_window s start stop) (segment_points g)), inr tt).
Proof.
  intros Ho Hv. split; [by apply (seg_query_ok (SegmentSpec := segment_spec))|].
  eexists. by apply (visit_query_collects file).
Qed.

Lemma segment_read_paths_agree_witness :
  exists file st g, Segment_create false demo_points 1024 = Ok (file, st) /\ Segment_open file = Ok g
    /\ Segment_query g 1 0 15 = Ok (List.filter (in_window 1 0 15) (segment_points g)).
Proof.
  destruct demo_file_created as (file & st & Hc).
  destruct (create_open _ _ _ _ _ Hc ltac:(lia) demo_points_typed) as (g & Ho & _ & _ & Hv & _).
  exact (ex_intro _ file (ex_intro _ st (ex_intro _ g
    (conj Hc (conj Ho (proj1 (segment_read_paths_agree file g 1 0 15 Ho Hv))))))).
Defined.

(** C25.  Sealing succeeds.  Up to a hundred million points whose times lie
    within 2^61 microseconds of the epoch and whose intervals run forward can
    always be written as a segment. *)
Theorem sealing_succeeds `{Crc, Lz4, !Lz4Laws} points block_points :
  0 < block_points <= MAX_BLOCK_POINTS -> Forall typed_point points -> Forall near_times points ->
  validate_point_intervals points = Ok tt -> len points <= 100000000 ->
  exists file st, Segment_create false points block_points = Ok (file, st).
Proof. apply create_total. Qed.

Lemma sealing_succeeds_witness : exists file st, Segment_create false demo_points 1024 = Ok (file, st).
Proof.
  apply (sealing_succeeds demo_points 1024);
    [split; vm_compute; done|apply demo_points_typed| |vm_compute; reflexivity|vm_compute; done].
  repeat constructor; unfold near; cbn; lia.
Defined.

(** Block size bounds.  The columns of a block of [n] points take at
    least [minimum_encoded_bytes n] and at most [maximum_encoded_bytes n]
    bytes, so that the header check of the reader never refuses a block of the
    writer and bounds what a damaged header can make it allocate. *)
Theorem block_size_is_bounded points b :
  encode_columns points = Ok b -> len points <= MAX_BLOCK_POINTS ->
  minimum_encoded_bytes (len points) <= len b <= maximum_encoded_bytes (len points).
Proof.
  intros Hb Hn. pose proof (zlen_nonneg points). unfold MAX_BLOCK_POINTS in Hn.
  rewrite minimum_encoded_bytes_small, maximum_encoded_bytes_small by lia. by apply encode_columns_length.
Qed.

Lemma block_size_is_bounded_witness :
  exists b, encode_columns demo_points = Ok b /\ 58 <= len b <= 206.
Proof.
  assert (Hb : exists b, encode_columns demo_points = Ok b) by (eexists; vm_compute; reflexivity).
  destruct Hb as [b Hb]. exists b. exact (conj Hb (block_size_is_bounded demo_points b Hb ltac:(vm_compute; done))).
Defined.

(** What cannot be sealed.  The interval check of the log, which is the
    same check [Segment_create] starts with, accepts every finite point whose
    interval is longer than [i64::MAX] microseconds; but no segment that
    contains such a point can be created. *)
Theorem long_intervals_cannot_be_sealed `{Crc, Lz4} exists_already points block_points p :
  0 <= block_points -> p ∈ points -> i64_max < valid_time_end p - valid_time p -> f64_is_finite (value p) = true ->
  validate_point_intervals [p] = Ok tt
  /\ exists e, Segment_create exists_already points block_points = Err e.
Proof.
  intros Hn Hp Hl Hf. split; [|by eapply create_rejects_long_interval].
  unfold validate_point_intervals, validate_point_interval. cbn. rewrite Hf. unfold i64_max in Hl.
  destruct (Z.ltb_spec (valid_time_end p) (valid_time p)); [lia|done].
Qed.

Definition long_point : Point := mkPoint 1 (-1) i64_max 0 0 0 one64 0 0.

Lemma long_intervals_cannot_be_sealed_witness :
  validate_point_intervals [long_point] = Ok tt /\ exists e, Segment_create false [long_point] 1024 = Err e.
Proof.
  exact (long_intervals_cannot_be_sealed false [long_point] 1024 long_point ltac:(lia) (list_elem_of_here _ _)
           ltac:(cbn; lia) eq_refl).
Defined.

(** ** Rollup files *)

(** Rollup files.  A rollup file that was created opens with the same
    buckets, and a range query returns exactly the buckets that overlap the
    window, in order. *)
Theorem rollup_file_roundtrip `{Crc, Lz4, !Lz4Laws} exists_already buckets file st start stop :
  RollupSegment_create exists_already buckets = Ok (file, st) -> Forall typed_bucket buckets ->
  exists g, RollupSegment_open file = Ok g /\ rollup_buckets g = buckets
    /\ rollup_query g start stop = List.filter (fun b => (start <? b_end b) && (b_start b <? stop)) buckets.
Proof.
  intros Hc Ht. exists (mkRollupSegment buckets st). split; [by apply (rollup_create_open exists_already)|]. split; [done|].
  apply (rollup_query_sorted _ _ _ _ 0). unfold RollupSegment_create in Hc.
  apply bind_Ok in Hc as ([] & _ & Hc). by apply bind_Ok in Hc as ([] & Hv & _).
Qed.

Definition demo_buckets : list GaugeBucket :=
  match fixed_build demo_points 10 100 with Ok r => map snd (map_to_list (fixed_buckets r)) | Err _ => [] end.

Lemma rollup_file_roundtrip_witness :
  exists file st g, RollupSegment_create false demo_buckets = Ok (file, st) /\ RollupSegment_open file = Ok g
    /\ rollup_buckets g = demo_buckets /\ len demo_buckets = 2
    /\ rollup_query g 0 15 = List.filter (fun b => (0 <? b_end b) && (b_start b <? 15)) demo_buckets.
Proof.
  destruct (rollup_create_total demo_buckets) as (file & st & Hc); [vm_compute; done|vm_compute; reflexivity|].
  assert (Ht : Forall typed_bucket demo_buckets).
  { let v := eval vm_compute in demo_buckets in change demo_buckets with v.
    repeat constructor; unfold is_i64, is_u64, is_f64; cbn; lia. }
  destruct (rollup_file_roundtrip false demo_buckets file st 0 15 Hc Ht) as (g & Ho & Hb & Hq).
  exists file, st, g. exact (conj Hc (conj Ho (conj Hb (conj eq_refl Hq)))).
Defined.

(** ** Manifests *)

(** C17.  Publication is atomic under power loss.  While [Manifest_publish]
    runs, whatever calls of the file system fail, a power loss at any moment
    leaves a directory from which [Manifest_load] gives the manifest of before
    or the new one; and once it has returned success it gives the new one, with
    or without a power loss. *)
Theorem manifest_publication_is_atomic `{Crc, codec : ManifestCodec, !ManifestCodecLaws, ReadDir} s0 m suffix d d' r :
  wf_dir s0 -> settled s0 -> distinct_generations (visible s0) -> typed_manifest m ->
  (forall n g, generation_of n = Some g -> is_Some (visible s0 !! n) -> g < generation m) ->
  fs_now s0 !! temporary_name (manifest_name (generation m)) suffix = None ->
  dir_state d = s0 -> Manifest_publish m suffix d = (d', r) ->
  passes (recovers m (Manifest_load (visible s0))) d d'
  /\ (r = Ok tt -> Manifest_load (visible (dir_state d')) = Ok m
       /\ forall image, crash_image (dir_state d') image -> Manifest_load image = Ok m).
Proof. intros. by eapply publish_recovers. Qed.

Definition empty_dir : DirState := mkDirState ∅ [∅] ∅ 0.
Definition demo_manifest : Manifest :=
  mkManifest 1 [] [mkRawDescriptor (str "s1") 1 2 1 2 10 20 7].
Definition published : Dir * Result unit := Manifest_publish demo_manifest (str "1") (mkDir empty_dir [] []).

Lemma empty_dir_wf : wf_dir empty_dir.
Proof. split; [by left|]. intros m name i Hm. apply list_elem_of_singleton in Hm as ->. by rewrite lookup_empty. Qed.

Lemma empty_dir_settled : settled empty_dir.
Proof. split; [done|]. intros n i. cbn. by rewrite lookup_empty. Qed.

Lemma manifest_publication_is_atomic_witness :
  published.2 = Ok tt /\ Manifest_load (visible (dir_state published.1)) = Ok demo_manifest
  /\ passes (recovers demo_manifest (Ok Manifest_default)) (mkDir empty_dir [] []) published.1.
Proof.
  destruct (manifest_publication_is_atomic empty_dir demo_manifest (str "1") (mkDir empty_dir [] []) published.1 published.2
    empty_dir_wf empty_dir_settled) as [Hp Hr].
  - intros a b g [x Hx]. unfold visible in Hx. cbn in Hx. by rewrite omap_empty, lookup_empty in Hx.
  - split; [done|]. split; [constructor|]. repeat constructor; unfold is_char, is_u64, is_i64, is_u32; cbn; lia.
  - intros n g _ [x Hx]. unfold visible in Hx. cbn in Hx. by rewrite omap_empty, lookup_empty in Hx.
  - done.
  - done.
  - apply surjective_pairing.
  - assert (E : published.2 = Ok tt) by (vm_compute; reflexivity).
    exact (conj E (conj (proj1 (Hr E)) Hp)).
Defined.

(** Pruning is harmless.  Removing old generations, even when calls fail,
    never changes the manifest that is loaded, at any moment and after a power
    loss at any moment. *)
Theorem pruning_keeps_the_manifest `{Crc, codec : ManifestCodec, ReadDir} s0 m d d' r :
  wf_dir s0 -> settled s0 -> distinct_generations (visible s0) -> Manifest_load (visible s0) = Ok m ->
  dir_state d = s0 -> prune_generations (generation m) d = (d', r) ->
  passes (fun s => forall image, image = visible s \/ crash_image s image -> Manifest_load image = Ok m) d d'.
Proof. apply prune_preserves_load. Qed.

(** Five generations in a directory. *)
Definition generations (n : nat) : Dir :=
  foldl (fun d g => (Manifest_publish (mkManifest g [] []) (str "1") d).1) (mkDir empty_dir [] [])
    (map Z.of_nat (seq 1 n)).
Definition five : DirState := dir_state (generations 5).
Definition pruned : Dir * Result (list Candidate) := prune_generations 5 (mkDir five [] []).

(** The hypotheses on a directory, decided. *)
Definition dir_ok (s : DirState) : bool :=
  bool_decide (fs_names s = [fs_now s])
  && forallb (fun '(_, i) => (i <? fs_next s)%nat
                             && match fs_files s !! i with Some (_, true) => true | _ => false end)
       (map_to_list (fs_now s))
  && forallb (fun a => forallb (fun b => bool_decide (generation_of a.1 = generation_of b.1 -> a.1 = b.1))
                         (map_to_list (visible s))) (map_to_list (visible s)).

Lemma dir_ok_spec s : dir_ok s = true -> wf_dir s /\ settled s /\ distinct_generations (visible s).
Proof.
  unfold dir_ok. rewrite !andb_true_iff, bool_decide_eq_true, !forallb_forall. intros [[Hn Hf] Hd].
  assert (Hl : forall n i, fs_now s !! n = Some i -> (i < fs_next s)%nat /\ exists c, fs_files s !! i = Some (c, true)).
  { intros n i Hi. specialize (Hf (n, i)). rewrite <- list_elem_of_In, elem_of_map_to_list in Hf. specialize (Hf Hi).
    apply andb_true_iff in Hf as [H1 H2]. split; [by apply Nat.ltb_lt|]. destruct (fs_files s !! i) as [[c []]|]; try done. eauto. }
  split; [|split].
  - split; rewrite Hn; [by left|]. intros m n i Hm. apply list_elem_of_singleton in Hm as ->. intros Hi. by apply (Hl n).
  - split; [done|]. intros n i Hi. by apply (Hl n).
  - intros a b g [x Ha] [y Hb] Ga Gb. specialize (Hd (a, x)). rewrite <- list_elem_of_In, elem_of_map_to_list in Hd.
    specialize (Hd Ha). rewrite forallb_forall in Hd. specialize (Hd (b, y)).
    rewrite <- list_elem_of_In, elem_of_map_to_list, bool_decide_eq_true in Hd. apply Hd; [done|]. cbn. congruence.
Qed.

Lemma pruning_keeps_the_manifest_witness :
  size (fs_now five) = 5%nat /\ size (fs_now (dir_state pruned.1)) = 3%nat
  /\ passes (fun s => forall image, image = visible s \/ crash_image s image -> Manifest_load image = Ok (mkManifest 5 [] []))
       (mkDir five [] []) pruned.1.
Proof.
  destruct (dir_ok_spec five) as (Hw & Hs & Hd); [vm_compute; reflexivity|].
  split; [vm_compute; reflexivity|]. split; [vm_compute; reflexivity|].
  assert (E : dir_state (mkDir five [] []) = five) by (cbn [dir_state]; reflexivity).
  refine (pruning_keeps_the_manifest five (mkManifest 5 [] []) (mkDir five [] []) pruned.1 pruned.2 Hw Hs Hd _ E _).
  - vm_compute. reflexivity.
  - apply surjective_pairing.
Defined.
