(* ===== verification/GaugeProps.v ===== *)
(** * GaugeProps: the guarantees of the store's rollups

    The properties of [src/src/store.rs], each with an example. *)
From S2P Require Import Prelude Errors Bytes Float64 Model Transaction Catalog Query Aggregate Rollup Codec Effects.
From S2P Require Import Segment SegmentInv RollupSegment Directory Manifest ManifestInv Planner PlannerInv Locality.
From S2P Require Import Scan Database Store StoreInv Shards StoreSweep StoreExact StoreMaintain Instances Demo StoreDemo.

(** ** Coverage *)

(** Coverage plans.  The plan for a range uses only candidates that
    overlap the range; its gaps are disjoint, in order and inside the range;
    every instant of the range lies in a gap exactly when no candidate covers
    it, and in a chosen descriptor otherwise; and the descriptors reach further
    and further. *)
Theorem coverage_plan_is_exact candidates start stop :
  let plan := coverage_plan candidates start stop in
  (forall r, r ∈ descriptors plan -> r ∈ candidates /\ rd_start r < stop /\ start < rd_end r)
  /\ StronglySorted (fun a b => rd_end a < rd_end b) (descriptors plan)
  /\ StronglySorted (fun a b => a.2 <= b.1) (gaps plan)
  /\ Forall (fun g => start <= g.1 < g.2 /\ g.2 <= stop) (gaps plan)
  /\ forall t, start <= t < stop ->
       (Exists (in_range t) (gaps plan) <-> ~ Exists (covers t) candidates)
       /\ (Exists (covers t) (descriptors plan) <-> Exists (covers t) candidates).
Proof.
  intros plan. pose proof (coverage_plan_splits candidates start stop) as Hs. fold plan in Hs.
  split; [intros r Hr; by destruct (splits_from _ _ _ _ _ Hs r Hr) as (? & ? & ? & _)|].
  split; [apply Hs|]. split; [apply Hs|]. split; [apply Hs|]. intros t Ht.
  split; [by apply Hs|]. split; [|by apply Hs]. rewrite !Exists_exists. intros (r & Hr & Hc). exists r.
  split; [by apply (splits_from _ _ _ _ _ Hs)|done].
Qed.

(** ** Gauge queries *)

(** C20.  Gauge queries.  Whichever mix of rollup files, cached files and raw
    points answers, a gauge query of an exact store returns the buckets of the
    rollup of everything the series holds that overlap the window, and leaves
    the data and the manifest alone.  This is for fixed tiers and for calendar
    tiers in time zones where no clock change skips or repeats midnight. *)
Theorem gauge_queries_are_exact `{Crc, RecordCodec, IndexCodec, TimeZones, Lz4, MapOrder, ManifestCodec, ReadDir, CacheOrder}
    s series definition res full start stop lo e1 s2 hi :
  let max_gap := gap_of (catalog (state (database s))) series in
  regular_tier res -> exact_store s -> quiet s -> store_poisoned s = false ->
  series_map (catalog (state (database s))) !! series = Some definition -> is_gauge definition = true ->
  whole_rollup (database s) series res max_gap = Ok full -> is_i64 start -> is_i64 stop -> start < stop ->
  tier_bounds res start = Ok (lo, e1) -> tier_bounds res (stop - 1) = Ok (s2, hi) -> is_i64 lo ->
  hi + Z.max max_gap 1 <= i64_max ->
  exists s' source, query_gauge series start stop res s
      = (s', Ok (mkRollupQuery (List.filter (overlaps_window start stop) full) source (generation (manifest s))))
    /\ database s' = database s /\ manifest s' = manifest s.
Proof. intros max_gap [minimum part]%regular_partition. by eapply exact_store_query. Qed.


Opaque store_0 store_1 store_2 store_3 store_late store_joined store_narrow store_daily.

(** The rollup of the example store. *)
Definition demo_rollup : RollupDescriptor :=
  mkRollupDescriptor (rollup_file_name 1 1 0 (FixedMicros 7) (str "1")) 1 (FixedMicros 7) 0 7 1 1 true.

Lemma store_2_rollups : rollups (manifest store_2) = [demo_rollup].
Proof. vm_compute. reflexivity. Qed.

Definition demo_bucket : GaugeBucket :=
  mkBucket 0 7 1 one64 (Some one64) (Some one64) (Some (mkSample 5 one64)) (Some (mkSample 5 one64)) 0 0.

(** Its file holds one bucket. *)
Lemma demo_rollup_file :
  exists b g, visible (dir_state (rollup_directory store_2)) !! rd_file demo_rollup = Some b
    /\ RollupSegment_open b = Ok g /\ rollup_buckets g = [demo_bucket].
Proof.
  assert (E : (let? b := ok_or (visible (dir_state (rollup_directory store_2)) !! rd_file demo_rollup) Poisoned in
               let? g := RollupSegment_open b in Ok (rollup_buckets g)) = Ok [demo_bucket]) by (vm_compute; reflexivity).
  apply bind_Ok in E as (b & Eb & E). apply bind_Ok in E as (g & Eg & E). apply ok_or_Ok in Eb. injection E as E.
  exact (ex_intro _ b (ex_intro _ g (conj Eb (conj Eg E)))).
Qed.

Lemma first_names s rest : fs_names s = fs_now s :: rest -> fs_now s ∈ fs_names s.
Proof. intros ->. constructor. Qed.

Definition numbered (d : DirState) : bool := forallb (fun '(_, i) => i <? fs_next d)%nat (map_to_list (fs_now d)).

Lemma numbered_below d : numbered d = true -> forall n i, fs_now d !! n = Some i -> (i < fs_next d)%nat.
Proof.
  unfold numbered. rewrite forallb_forall. intros Hn n i Hi%elem_of_map_to_list%list_elem_of_In. by apply Hn, Nat.ltb_lt in Hi.
Qed.

(** Directories as the examples leave them: nothing cached yet. *)
Lemma wf_dirs_fresh s rest rest' :
  fs_names (dir_state (rollup_directory s)) = fs_now (dir_state (rollup_directory s)) :: rest ->
  fs_names (dir_state (segment_directory s)) = fs_now (dir_state (segment_directory s)) :: rest' ->
  numbered (dir_state (rollup_directory s)) = true -> rollup_cache s = ∅ -> wf_dirs s.
Proof.
  intros E1 E2 Hn Hc. split; [by eapply first_names|by eapply first_names|by apply numbered_below|].
  rewrite Hc. intros n [? Hx]. by rewrite lookup_empty in Hx.
Qed.

Lemma store_2_exact : exact_store store_2.
Proof.
  split.
  - apply (wf_dirs_fresh _ [] []); vm_compute; reflexivity.
  - assert (E1 : sealed (database store_2) = []) by (vm_compute; reflexivity).
    assert (E2 : index (state (database store_2)) = foldl insert_indexed_point ∅ [Point_actual 1 5 one64])
      by (vm_compute; reflexivity).
    constructor; [rewrite E1; constructor|]. rewrite E2. apply foldl_insert_wf, wf_index_empty.
  - rewrite store_2_rollups. intros r ->%list_elem_of_singleton _. split; cbn [rd_start rd_end rd_series rd_resolution rd_file demo_rollup].
    + lia.
    + intros t a b. by apply fixed_aligned.
    + unfold is_i64. lia.
    + vm_compute. discriminate.
    + assert (E : rollup_cache store_2 !! rd_file demo_rollup = None) by (vm_compute; reflexivity).
      destruct demo_rollup_file as (b & g & Eb & Eg & Ebs). exists g. split; [|rewrite Ebs; vm_compute; reflexivity].
      unfold rollup_of. rewrite E. exists b. exact (conj Eb Eg).
  - rewrite store_2_rollups. by intros a b t ->%list_elem_of_singleton ->%list_elem_of_singleton.
Qed.

(** Its bucket of the calendar day. *)
Definition daily_bucket : GaugeBucket :=
  mkBucket 0 day_micros 1 one64 (Some one64) (Some one64) (Some (mkSample 5 one64)) (Some (mkSample 5 one64)) 0 0.

Lemma gauge_queries_are_exact_witness :
  (exists s' source, query_gauge 1 0 14 (FixedMicros 7) store_2
      = (s', Ok (mkRollupQuery (List.filter (overlaps_window 0 14) [demo_bucket]) source (generation (manifest store_2))))
    /\ database s' = database store_2 /\ manifest s' = manifest store_2)
  /\ exists s' source, query_gauge 1 0 14 daily store_2
      = (s', Ok (mkRollupQuery (List.filter (overlaps_window 0 14) [daily_bucket]) source (generation (manifest store_2))))
    /\ database s' = database store_2 /\ manifest s' = manifest store_2.
Proof.
  assert (Hq : quiet store_2) by (split; vm_compute; reflexivity).
  assert (Hp : store_poisoned store_2 = false) by (vm_compute; reflexivity).
  assert (Hd : series_map (catalog (state (database store_2))) !! 1 = Some demo_gauge) by (vm_compute; reflexivity).
  assert (Hi : is_i64 0 /\ is_i64 14) by (unfold is_i64; lia). destruct Hi as [Hi0 Hi14].
  split.
  - assert (Hw : whole_rollup (database store_2) 1 (FixedMicros 7) (gap_of (catalog (state (database store_2))) 1)
                 = Ok [demo_bucket]) by (vm_compute; reflexivity).
    assert (Hg : 14 + Z.max (gap_of (catalog (state (database store_2))) 1) 1 <= i64_max) by (vm_compute; discriminate).
    assert (Hr : regular_tier (FixedMicros 7)) by (cbn; unfold is_i64; lia).
    exact (gauge_queries_are_exact store_2 1 demo_gauge (FixedMicros 7)
             [demo_bucket] 0 14 0 7 7 14 Hr store_2_exact Hq Hp Hd eq_refl Hw Hi0 Hi14
             ltac:(lia) eq_refl eq_refl Hi0 Hg).
  - assert (Hw : whole_rollup (database store_2) 1 daily (gap_of (catalog (state (database store_2))) 1)
                 = Ok [daily_bucket]) by (vm_compute; reflexivity).
    assert (Hg : day_micros + Z.max (gap_of (catalog (state (database store_2))) 1) 1 <= i64_max) by (vm_compute; discriminate).
    assert (Hr : regular_tier daily) by (constructor; apply utc_day_zone).
    assert (Hb0 : tier_bounds daily 0 = Ok (0, day_micros)) by (vm_compute; reflexivity).
    assert (Hb1 : tier_bounds daily (14 - 1) = Ok (0, day_micros)) by (vm_compute; reflexivity).
    exact (gauge_queries_are_exact store_2 1 demo_gauge daily
             [daily_bucket] 0 14 0 day_micros 0 day_micros Hr store_2_exact Hq Hp Hd eq_refl Hw Hi0 Hi14
             ltac:(lia) Hb0 Hb1 Hi0 Hg).
Defined.

(** C21.  Appends.  Appending to an exact store leaves it exact: rollups whose
    range or lead-in got a point are dropped, and all others still hold what the
    raw points give, provided no new point lies behind the end of an active
    rollup of its series by less than the maximum gap. *)
Theorem appends_keep_rollups_exact `{Crc, RecordCodec, IndexCodec, TimeZones, Lz4, MapOrder, ManifestCodec, ReadDir, CacheOrder}
    suffix s s' ps c :
  exact_store s -> Store_append suffix ps s = (s', Ok c) ->
  (forall r, r ∈ rollups (manifest s) -> rd_active r = true -> clear_of_tail (catalog (state (database s))) ps r) ->
  exact_store s'.
Proof. apply append_keeps_exact. Qed.

Lemma run_result {S A} (x : S * Result A) r : x.2 = r -> x = (x.1, r).
Proof. destruct x. by intros <-. Qed.

Lemma appends_keep_rollups_exact_witness : exact_store store_late /\ len (rollups (manifest store_late)) = 1.
Proof.
  assert (El : len (rollups (manifest store_late)) = 1) by (vm_compute; reflexivity).
  assert (Ea : (Store_append demo_suffix [Point_actual 1 200 two64] store_2).2 = Ok (mkCommit 992 1 1 96 true false))
    by (vm_compute; reflexivity).
  refine (conj (appends_keep_rollups_exact demo_suffix store_2 store_late [Point_actual 1 200 two64] _ store_2_exact
                  (run_result _ _ Ea) _) El).
  rewrite store_2_rollups. intros r ->%list_elem_of_singleton _. repeat constructor. intros _ _. vm_compute. discriminate.
Defined.

(** C22.  Maintenance.  Maintaining an exact store leaves it exact: the shards
    it materializes hold exactly what the raw points of their ranges give,
    whatever it replaces, deactivates, prunes and publishes on the way.  The
    calendar tiers of its series are in time zones where no clock change skips
    or repeats midnight, and the time of the maintenance is not within a maximum
    gap of the end of time. *)
Theorem maintenance_keeps_rollups_exact `{Crc, RecordCodec, IndexCodec, TimeZones, Lz4, MapOrder, ManifestCodec, ReadDir, CacheOrder}
    `{!Lz4Laws} suffix nonce now s s' report :
  exact_store s -> maintainable (database s) now -> maintain suffix nonce now s = (s', Ok report) -> exact_store s'.
Proof. apply maintain_keeps_exact. Qed.

Lemma one_point_exact s :
  rollups (manifest s) = [] -> sealed (database s) = [] -> index (state (database s)) = foldl insert_indexed_point ∅ [Point_actual 1 5 one64] ->
  wf_dirs s -> exact_store s.
Proof.
  intros E E1 E2 Hw. split; [done|..].
  - constructor; [rewrite E1; constructor|]. rewrite E2. apply foldl_insert_wf, wf_index_empty.
  - rewrite E. intros r Hr _. destruct (not_elem_of_nil r Hr).
  - rewrite E. intros a b t Ha. destruct (not_elem_of_nil a Ha).
Qed.

Lemma one_series_maintainable s definition now :
  series_map (catalog (state (database s))) = {[1 := definition]} -> sealed (database s) = [] ->
  index (state (database s)) = {[1 := [Point_actual 1 5 one64]]} -> series_id definition = 1 ->
  (forall tier, tier ∈ tiers_of definition -> regular_tier (tier_resolution tier)) ->
  now + Z.max (default 0 (series_maximum_gap_micros definition)) 1 <= i64_max -> maintainable (database s) now.
Proof.
  intros E E1 E2 Hid Ht Hn.
  assert (Ek : forall k def, series_map (catalog (state (database s))) !! k = Some def -> 1 = k /\ definition = def)
    by (rewrite E; intros k def Hk; exact (proj1 (lookup_singleton_Some _ _ _ _) Hk)).
  clear E. split.
  - by intros k def [<- <-]%Ek.
  - intros k def tier [<- <-]%Ek. apply Ht.
  - by intros k def [<- <-]%Ek.
  - intros series. unfold stored, series_points. rewrite E1, E2. cbn [map concat app].
    destruct (decide (1 = series)) as [<-|]; [rewrite lookup_singleton_eq|rewrite lookup_singleton_ne by done]; cbn.
    + constructor; [|constructor]. unfold typed_point, is_i64, is_f64, is_u64, is_u128, is_u32, one64. clear E1 E2 Ek. split_and!; vm_compute; (reflexivity || discriminate).
    + constructor.
Qed.

Lemma store_1_exact : exact_store store_1.
Proof. apply one_point_exact; [vm_compute; reflexivity..|]. apply (wf_dirs_fresh _ [] []); vm_compute; reflexivity. Qed.
Lemma store_1_maintainable : maintainable (database store_1) 8.
Proof.
  apply (one_series_maintainable _ demo_gauge); [vm_compute; reflexivity..| |vm_compute; discriminate].
  intros tier ->%list_elem_of_singleton. cbn. unfold is_i64. lia.
Qed.

Lemma store_daily_exact : exact_store store_daily.
Proof. apply one_point_exact; [vm_compute; reflexivity..|]. apply (wf_dirs_fresh _ [] []); vm_compute; reflexivity. Qed.
Lemma store_daily_maintainable : maintainable (database store_daily) (day_micros + 1).
Proof.
  apply (one_series_maintainable _ daily_gauge); [vm_compute; reflexivity..| |vm_compute; discriminate].
  intros tier ->%list_elem_of_singleton. constructor. apply utc_day_zone.
Qed.

Lemma maintenance_keeps_rollups_exact_witness :
  exact_store (maintain demo_suffix demo_nonce 8 store_1).1
  /\ exact_store (maintain demo_suffix demo_nonce (day_micros + 1) store_daily).1
  /\ map rd_resolution (rollups (manifest (maintain demo_suffix demo_nonce (day_micros + 1) store_daily).1)) = [daily].
Proof.
  assert (E : is_ok (maintain demo_suffix demo_nonce 8 store_1).2 = true) by (vm_compute; reflexivity).
  assert (E' : is_ok (maintain demo_suffix demo_nonce (day_micros + 1) store_daily).2 = true) by (vm_compute; reflexivity).
  assert (Ed : map rd_resolution (rollups (manifest (maintain demo_suffix demo_nonce (day_micros + 1) store_daily).1)) = [daily])
    by (vm_compute; reflexivity).
  split; [|split; [|exact Ed]].
  - destruct (maintain demo_suffix demo_nonce 8 store_1) as [s' [report|]] eqn:Em; [|discriminate E].
    exact (maintenance_keeps_rollups_exact demo_suffix demo_nonce 8 store_1 s' report store_1_exact store_1_maintainable Em).
  - destruct (maintain demo_suffix demo_nonce (day_micros + 1) store_daily) as [s' [report|]] eqn:Em; [|discriminate E'].
    exact (maintenance_keeps_rollups_exact demo_suffix demo_nonce (day_micros + 1) store_daily s' report store_daily_exact store_daily_maintainable Em).
Defined.

Lemma covered_singleton r n :
  (let? l := r in Ok (map b_covered_micros l)) = Ok [n] -> exists b, r = Ok [b] /\ b_covered_micros b = n.
Proof. intros ([|b [|]] & E & [= <-])%bind_Ok; by exists b. Qed.

(** The tail of a rollup.  A sample that follows the end of a materialized
    rollup within the maximum gap covers time inside the rollup, but does not
    invalidate it.  The example store is exact; after the next sample is
    appended, a query of the materialized range answers without the covered
    time that the raw points give. *)
Theorem next_sample_leaves_the_rollup_stale :
  exact_store store_2
  /\ is_ok (Store_append demo_suffix [Point_actual 1 9 two64] store_2).2 = true
  /\ (query_gauge 1 0 7 (FixedMicros 7) (Store_append demo_suffix [Point_actual 1 9 two64] store_2).1).2 = Ok (mkRollupQuery [demo_bucket] Materialized 2)
  /\ exists b, materialize_raw_range (database (Store_append demo_suffix [Point_actual 1 9 two64] store_2).1) 1 0 7 (FixedMicros 7) 100 = Ok [b]
       /\ b_covered_micros b = 2 /\ b_covered_micros demo_bucket = 0.
Proof.
  split; [apply store_2_exact|]. split; [vm_compute; reflexivity|]. split; [vm_compute; reflexivity|].
  assert (E : (let? l := materialize_raw_range (database (Store_append demo_suffix [Point_actual 1 9 two64] store_2).1) 1 0 7
                            (FixedMicros 7) 100 in Ok (map b_covered_micros l)) = Ok [2]) by (vm_compute; reflexivity).
  apply covered_singleton in E as (b & E & Eb). exists b. exact (conj E (conj Eb eq_refl)).
Qed.

(** Redefined series.  A commit that redefines a series with a smaller
    maximum gap keeps its materialized rollups: the query answers with the time
    the old gap covered, which the raw points no longer give. *)
Theorem redefinition_leaves_the_rollup_stale :
  is_ok (Store_commit demo_suffix (define_series narrow_gauge Transaction_new) store_joined).2 = true
  /\ exists stale fresh,
       (query_gauge 1 0 7 (FixedMicros 7) store_narrow).2 = Ok (mkRollupQuery [stale] Materialized 1)
       /\ materialize_raw_range (database store_narrow) 1 0 7 (FixedMicros 7) 2 = Ok [fresh]
       /\ b_covered_micros stale = 4 /\ b_covered_micros fresh = 0.
Proof. split; [vm_compute; reflexivity|]. eexists _, _. split_and!; vm_compute; reflexivity. Qed.

(** ** Skipped midnights *)

(** A zone whose clock jumps from midnight of date 1 to one o'clock: an instant
    is a number of microseconds, local time is the same before the jump and one
    hour ahead after it. *)
Definition jump_local (t : Z) : Z := if t <? day_micros then t else t + hour_micros.
Definition jump_instant (wall : Z) : Z :=
  if wall <? day_micros + hour_micros then wall else wall - hour_micros.
Definition jump_zone : TimeZones := {|
  tz_exists name := true;
  Zoned := Z;
  in_tz t name := Some t;
  start_of_day z := Some (let date := jump_local z / day_micros in if date =? 1 then day_micros else jump_instant (date * day_micros));
  first_of_month z := None;
  first_of_year z := None;
  checked_add_one unit z := match unit with Day => Some (jump_instant (jump_local z + day_micros)) | _ => None end;
  zoned_micros z := z;
|}.

(** Skipped midnights.  Where a clock change skips midnight, the day that
    begins at one o'clock ends at one o'clock of the next day: its bucket and
    the next one overlap by an hour, and the last hour of it is in both. *)
Theorem skipped_midnight_makes_buckets_overlap :
  let bounds t := calendar_bucket_bounds (H := jump_zone) t Day (str "zone") in
  bounds day_micros = Ok (day_micros, 2 * day_micros)
  /\ bounds (2 * day_micros - 1) = Ok (2 * day_micros - hour_micros, 3 * day_micros - hour_micros).
Proof. split; vm_compute; reflexivity. Qed.

(** ** Reclamation *)


(** The example store with a rollup file nobody names. *)
Definition store_littered : Store := (on_rollups (d_create_new (str "x.rseg")) store_2).1.
(** The same store, and a manifest that cannot be read back this time: the
    listing and the sync succeed, the read fails. *)
Definition store_unreadable : Store :=
  set_manifest_directory (mkDir (dir_state (manifest_directory store_littered)) [] [None; None; Some (mkFault "Interrupted" 0)]) store_littered.
Opaque store_littered store_unreadable.


(** ** Sealing after a lost seal *)

(** The power is lost after the seal checkpoint of [store_1] is durable and
    before the manifest that names the segment is. *)
Definition interrupted_seal : StoreFiles :=
  mkStoreFiles (Some (mkFile (contents (file (write_seal_checkpoint 1 1 (database store_1)).1)) 0 [])) empty_dir empty_dir empty_dir.
Definition reopened_store : StoreFiles * Result Store := Store_open_with demo_suffix LockAcquired demo_config quiet_env interrupted_seal.
(** The next seal takes the same generation; the compact log cannot be locked. *)
Definition sealed_again : Store * Result SealReport :=
  seal_and_reclaim demo_suffix (str "1") (mkReclaimEnv [] LockWouldBlock None None) (opened_store reopened_store).

(** The log then holds two checkpoints of one generation, and the store, whose
    manifest is published, does not open again: recovery takes the second
    checkpoint for corruption. *)
Theorem repeated_seal_checkpoint_blocks_reopening :
  is_ok reopened_store.2 = true /\ is_ok sealed_again.2 = false
  /\ generation (manifest sealed_again.1) = 1
  /\ exists offset,
       (Store_open_with demo_suffix LockAcquired demo_config quiet_env (files_of sealed_again.1)).2
       = Err (Corruption offset (text "seal checkpoint generation or point count is invalid")).
Proof. vm_compute. split_and!; [reflexivity..|eexists; reflexivity]. Qed.
