(* ===== verification/ShadowProps.v ===== *)
(** * ShadowProps: the guarantees of the sidecar

    The properties of [src/src/shadow_protocol.rs] and
    [src/src/shadow_runtime.rs], each with an example. *)
From S2P Require Import Prelude Errors Bytes Float64 Model Utf8 Transaction Query Codec Effects Wire Protocol ProtocolInv Canonical Scan Database Durable Recovery Instances Demo Runtime RuntimeInv RuntimeDb.

(** A batch with an entity, its series and two points. *)
Definition demo_batch : CommitBatchRequest :=
  mkBatch 7 1 99 [mkEntity 5 (str "site") (str "A") None 0 None {[str "unit" := PvText (str "kW"); str "on" := PvBool true]}]
    [] [demo_series] [] [] demo_points.
Definition demo_message : WireMessage := WireRequest (ReqCommitBatch demo_batch).
Definition demo_frame : bytes := match encode demo_message with inr f => f | inl _ => [] end.

Lemma demo_frame_encoded : encode demo_message = inr demo_frame.
Proof. vm_compute. reflexivity. Qed.

Lemma demo_message_typed : typed_message demo_message.
Proof.
  assert (He : typed_entity (mkEntity 5 (str "site") (str "A") None 0 None
                 {[str "unit" := PvText (str "kW"); str "on" := PvBool true]})).
  { do 6 (split; [by typed_tac|]). intros k v Hk. cbn in Hk.
    apply lookup_insert_Some in Hk as [[<- <-]|[_ Hk]]; [|apply lookup_singleton_Some in Hk as [<- <-]]; typed_tac. }
  unfold demo_message, typed_message, typed_batch. cbn [batch_source_id batch_sequence batch_commit_id batch_entities
    batch_relations batch_series batch_runs batch_plans batch_points demo_batch].
  do 3 (split; [done|]). split; [by constructor|]. typed_tac.
Qed.

(** ** Frames *)

(** C26.  Every message arrives.  A message that [encode] accepts is decoded to
    itself; its frame stays below the frame limit; and [read_from] finds it in
    a stream however the stream is cut into reads or interrupted, and leaves
    the bytes after the frame. *)
Theorem frame_roundtrip `{TimeZones, Crc} m f :
  typed_message m -> encode m = inr f ->
  decode f = inr m /\ len f <= MAX_FRAME_BYTES
  /\ forall events rest, Forall arrives events -> data_of events = f ++ rest ->
       exists events', read_from events = inr (m, events') /\ data_of events' = rest.
Proof.
  intros Hm Hf. split; [by apply decode_encode|]. split; [by apply encode_length in Hf as [_ ?]|].
  intros events rest He Hd. destruct (read_from_encoded m f events rest Hm Hf He Hd) as (e' & Hr & Hd' & _). eauto.
Qed.

Lemma frame_roundtrip_witness :
  encode demo_message = inr demo_frame /\ decode demo_frame = inr demo_message
  /\ exists events', read_from [Arrived (take 5 demo_frame); Interrupted; Arrived (drop 5 demo_frame ++ [1; 2])]
                     = inr (demo_message, events') /\ data_of events' = [1; 2].
Proof.
  destruct (frame_roundtrip demo_message demo_frame demo_message_typed demo_frame_encoded) as (Hd & _ & Hr).
  split; [exact demo_frame_encoded|]. split; [exact Hd|].
  apply (Hr [Arrived (take 5 demo_frame); Interrupted; Arrived (drop 5 demo_frame ++ [1; 2])] [1; 2]).
  - repeat constructor; vm_compute; done.
  - vm_compute. reflexivity.
Defined.

(** C28.  One frame per message.  A frame that decodes to anything but a health
    response, whose later fields may be absent, decodes to a well-typed message
    and is exactly the frame [encode] produces for it: no two frames mean the
    same commit, so that a retry with other bytes is another commit. *)
Theorem frames_are_canonical `{TimeZones, Crc} f m :
  is_bytes f -> decode f = inr m -> is_health m = false -> typed_message m /\ encode m = inr f.
Proof. apply encode_decode. Qed.

Lemma frames_are_canonical_witness :
  decode demo_frame = inr demo_message /\ typed_message demo_message /\ encode demo_message = inr demo_frame.
Proof.
  assert (Hd : decode demo_frame = inr demo_message) by (vm_compute; reflexivity).
  split; [exact Hd|]. apply (frames_are_canonical demo_frame demo_message); [|exact Hd|reflexivity].
  apply (bool_decide_unpack (Forall is_u8 demo_frame)). vm_compute. exact I.
Defined.

(** ** The runtime *)

Definition demo_runtime : ShadowRuntimeConfig := mkRuntimeConfig 2 100 None None None.
Definition idle_sys : Sys (Database (list Point)) :=
  mkSys _ (mkWork _ closed_db (mkHealthState StClosed 0 0 0 ∅ None None StoreOpsSnapshot_default) None None)
    QueueUsage_default [] GateFree Stopped true false 0 [] [] [].
Definition demo_sys0 : Sys (Database (list Point)) :=
  match start_database demo_runtime None demo_open with inr s => s | inl _ => idle_sys end.
Definition demo_write : ShadowWrite := identified_write demo_id demo_tx.
(** A write and a flush are queued, then the worker takes its turns. *)
Definition demo_sys1 : Sys (Database (list Point)) :=
  try_flush demo_runtime 7 1 (try_submit demo_runtime demo_write demo_sys0).
Definition demo_sys2 : Sys (Database (list Point)) := Nat.iter 8 (turn demo_runtime 0 0) demo_sys1.

Lemma demo_started : start_database demo_runtime None demo_open = inr demo_sys0.
Proof. vm_compute. reflexivity. Qed.

Lemma demo_queued : runs demo_runtime demo_sys0 demo_sys1.
Proof.
  eapply runs_trans; [apply (try_submit_runs demo_runtime demo_write); vm_compute; reflexivity|].
  apply try_flush_runs; vm_compute; reflexivity.
Qed.

Lemma demo_served : runs demo_runtime demo_sys0 demo_sys2.
Proof. eapply runs_trans; [apply demo_queued|apply turn_runs]. Qed.

(** C12.  Bounded queue.  In every interleaving of producers and worker, the
    entries and the points waiting stay within the configured limits, the
    accounting is exact, and a producer that holds a reservation always finds
    room in the channel: its [TrySendError::Full] branch is never taken. *)
Theorem queue_stays_within_limits {B} `{WriterBackend B} config spawn b (s0 s : Sys B) :
  start_backend config spawn b = inr s0 -> 0 <= queue_capacity config -> 0 <= max_queued_points config ->
  runs config s0 s ->
  queued (sys_usage s) <= queue_capacity config /\ queued_points (sys_usage s) <= max_queued_points config
  /\ len (sys_chan s) <= queue_capacity config
  /\ queued (sys_usage s) = slots (sys_chan s) + gate_slots (sys_gate s) + worker_slots (sys_worker s)
  /\ (gate_slots (sys_gate s) = 1 -> past_check (sys_gate s) = true -> channel_full config s = false).
Proof.
  intros Hs Hc Hm Hr. pose proof (runs_inv config s0 s (inv_start config spawn b s0 Hs Hc Hm) Hr) as Hi.
  split_and!; try apply Hi. intros. by apply reserved_has_room.
Qed.

Lemma queue_stays_within_limits_witness :
  queued (sys_usage demo_sys1) = 2 /\ queued (sys_usage demo_sys1) <= 2 /\ queued_points (sys_usage demo_sys1) <= 100.
Proof.
  assert (Hs : start_backend demo_runtime None demo_open = inr demo_sys0) by (vm_compute; reflexivity).
  destruct (queue_stays_within_limits demo_runtime None demo_open demo_sys0 demo_sys1 Hs
    ltac:(vm_compute; done) ltac:(vm_compute; done) demo_queued) as (H1 & H2 & _).
  split; [vm_compute; reflexivity|exact (conj H1 H2)].
Defined.

(** C7.  The runtime is sequential.  Whatever the interleaving, the storage and
    the replies are those of serving the accepted commands one after the other
    in queue order: the commands served so far are a prefix of the commands
    sent, and running them alone gives the same storage, the same poison and
    the same replies. *)
Theorem runtime_serves_commands_in_order {B} `{WriterBackend B} config spawn b (s0 s : Sys B) :
  start_backend config spawn b = inr s0 -> runs config s0 s ->
  exists l, map snd l ++ unserved s = rev (sys_sent s)
    /\ core (sys_work s) = core (serial config (sys_work s0) l).1
    /\ (serial config (sys_work s0) l).2 = map (fun x => Some x.2) (rev (sys_replies s)) ++ unsent (sys_worker s).
Proof.
  intros Hs Hr. unfold start_backend in Hs. destruct (_ =? 0); [done|]. destruct (b_store_snapshot b) as [b' r].
  destruct spawn; [done|]. injection Hs as <-. by apply runs_refines.
Qed.

Lemma runtime_serves_commands_in_order_witness :
  exists l, map snd l = rev (sys_sent demo_sys2)
    /\ core (sys_work demo_sys2) = core (serial demo_runtime (sys_work demo_sys0) l).1
    /\ length (sys_sent demo_sys2) = 2%nat.
Proof.
  assert (Hs : start_backend demo_runtime None demo_open = inr demo_sys0) by (vm_compute; reflexivity).
  destruct (runtime_serves_commands_in_order demo_runtime None demo_open demo_sys0 demo_sys2 Hs demo_served)
    as (l & H1 & H2 & _).
  assert (Hu : unserved demo_sys2 = []) by (vm_compute; reflexivity).
  assert (Hn : length (sys_sent demo_sys2) = 2%nat) by (vm_compute; reflexivity).
  exists l. rewrite Hu, app_nil_r in H1. exact (conj H1 (conj H2 Hn)).
Defined.

(** C11.  Every accepted command is answered.  From any reachable state,
    finitely many turns of the worker alone answer every command ever sent, each
    exactly once and in order, up to the command at which the worker dies, if it
    does: that command and those behind it stay without an answer.  The worker
    dies only when a maintenance call of the backend panics, which it does not
    do when background maintenance is off. *)
Theorem every_command_is_answered {B} `{WriterBackend B} config spawn b (s0 s : Sys B) now micros :
  start_backend config spawn b = inr s0 -> 0 <= queue_capacity config -> 0 <= max_queued_points config ->
  runs config s0 s ->
  let s' := Nat.iter (left_to_do s) (turn config now micros) s in
  runs config s s' /\ sys_tickets s' = sys_tickets s
  /\ map fst (rev (sys_replies s')) ++ abandoned s' = seq 0 (sys_tickets s)
  /\ (abandoned s' <> [] -> maintenance_panics config (B := B))
  /\ (maintenance_interval config = None -> map fst (rev (sys_replies s')) = seq 0 (sys_tickets s)).
Proof.
  intros Hs Hc Hm Hr. pose proof (runs_inv config s0 s (inv_start config spawn b s0 Hs Hc Hm) Hr) as Hi.
  destruct (worker_answers config now micros (left_to_do s) s Hi (le_n _)) as (H1 & H2 & H3). cbv zeta in *. set (s' := Nat.iter _ _ _) in *.
  assert (Hp : abandoned s' <> [] -> maintenance_panics config (B := B)).
  { intros Ha. assert (Hcr : crashed s' = true) by (unfold abandoned in Ha; unfold crashed; by destruct (sys_worker s')).
    destruct (runs_crashed config s0 s' (runs_trans config _ _ _ Hr H1) Hcr) as [H0|H0]; [|done].
    unfold start_backend in Hs. destruct (_ =? 0); [done|]. destruct (b_store_snapshot b), spawn; [done|]. by injection Hs as <-. }
  split_and!; [done..|]. intros Hn. destruct (abandoned s') as [|t l]; [by rewrite app_nil_r in H3|].
  destruct Hp as (interval & ? & ? & ? & Hi' & _); [done|]. congruence.
Qed.

Lemma every_command_is_answered_witness :
  left_to_do demo_sys1 = 8%nat /\ map fst (rev (sys_replies (Nat.iter (left_to_do demo_sys1) (turn demo_runtime 0 0) demo_sys1)))
                                   = seq 0 (sys_tickets demo_sys1).
Proof.
  assert (Hs : start_backend demo_runtime None demo_open = inr demo_sys0) by (vm_compute; reflexivity).
  split; [vm_compute; reflexivity|].
  apply (every_command_is_answered demo_runtime None demo_open demo_sys0 demo_sys1 0 0 Hs); [vm_compute; done|vm_compute; done|exact demo_queued|].
  vm_compute. reflexivity.
Defined.

(** Acknowledgements over a database.  A write the runtime acknowledged
    has its receipt in the database; when the acknowledgement said durable, or
    a flush of its source through its sequence was acknowledged, the receipt
    survives every power loss: the file that is left opens again and reports
    it, still durable. *)
Theorem acknowledged_writes_survive_power_loss `{Crc} `{RecordCodecLaws} `{IndexCodec} `{TimeZones} {Seg} `{SegmentOps Seg}
    seals cfg config (d0 : Database Seg) s0 s t a left m :
  reachable seals cfg d0 -> start_database config None d0 = inr s0 -> runs config s0 s ->
  Forall typed_command (sys_sent s) -> (t, ReplyWrite (inr a)) ∈ sys_replies s ->
  cm_durable (sa_commit a) = true
  \/ (exists t' f, (t', ReplyFlush (inr f)) ∈ sys_replies s /\ fa_source_id f = source_id (sa_identity a)
        /\ sequence (sa_identity a) <= fa_through_sequence f) ->
  crash (file (wk_backend (sys_work s))) left ->
  exists (d' : Database Seg) r,
    open_file LockAcquired (Database.config (wk_backend (sys_work s))) false seals (mkFile left m []) = (file d', Ok d')
    /\ ingress_receipt (source_id (sa_identity a)) (sequence (sa_identity a)) d' = Some r
    /\ rc_identity r = sa_identity a /\ rc_durable r = true.
Proof. intros Hd. apply answered_write_survives. by eapply reachable_inv. Qed.

Definition demo_ack : ShadowAck :=
  match sys_replies demo_sys2 with
  | [_; (_, ReplyWrite (inr a))] => a
  | _ => mkShadowAck demo_id2 None None (mkCommit 0 0 0 0 false false)
  end.
Definition demo_flush_ack : ShadowFlushAck :=
  match sys_replies demo_sys2 with (_, ReplyFlush (inr a)) :: _ => a | _ => mkFlushAck 0 0 None None end.

Lemma demo_replies :
  sys_replies demo_sys2 = [(1%nat, ReplyFlush (inr demo_flush_ack)); (0%nat, ReplyWrite (inr demo_ack))].
Proof. vm_compute. reflexivity. Qed.

Lemma demo_sent : sys_sent demo_sys2 = [CmdFlush 7 1 1; CmdWrite demo_write 0].
Proof. vm_compute. reflexivity. Qed.

Lemma demo_sent_typed : Forall typed_command (sys_sent demo_sys2).
Proof.
  rewrite demo_sent. apply Forall_cons. split; [done|]. apply Forall_cons. split; [|by constructor].
  split; [apply (typed_with_ingress demo_id demo_tx demo_tx_typed demo_id_typed)|apply demo_id_typed].
Qed.

Lemma acknowledged_writes_survive_power_loss_witness :
  cm_durable (sa_commit demo_ack) = false
  /\ exists (d' : Database (list Point)) r,
       open_file LockAcquired (Database.config (wk_backend (sys_work demo_sys2))) false ∅
         (mkFile (take (synced (file (wk_backend (sys_work demo_sys2)))) (contents (file (wk_backend (sys_work demo_sys2))))) 0 [])
       = (file d', Ok d')
       /\ ingress_receipt (source_id (sa_identity demo_ack)) (sequence (sa_identity demo_ack)) d' = Some r
       /\ rc_identity r = sa_identity demo_ack /\ rc_durable r = true.
Proof.
  split; [vm_compute; reflexivity|].
  apply (acknowledged_writes_survive_power_loss ∅ demo_config demo_runtime demo_open demo_sys0 demo_sys2 0 demo_ack _ 0
    demo_open_reachable demo_started demo_served demo_sent_typed).
  - rewrite demo_replies. right. left.
  - right. exists 1%nat, demo_flush_ack. rewrite demo_replies. split; [left|]. split; vm_compute; [reflexivity|discriminate].
  - eexists. split; [apply le_n|reflexivity].
Defined.
