(* ===== verification/ReconcileProps.v ===== *)
(** * ReconcileProps: the guarantees of reconciliation

    The properties of [src/src/shadow_reconcile.rs], each with an example. *)
From S2P Require Import Prelude Errors Bytes Float64 Model Transaction Catalog Query Codec Protocol Effects Segment SegmentInv.
From S2P Require Import Scan Database Refine Durable Recovery Retry Reconcile ReconcileInv Instances Demo.

(** C16.  Reconciliation.  For a window within the limits, the comparison with
    any reachable database returns a report and leaves the database alone.  The
    content matches exactly when every batch has its receipt, with its identity,
    shape and canonical bytes, every catalog object is stored in its last
    supplied form, and between the supplied points of a series exactly those
    points are stored, with multiplicity; the counters add up, and details are
    kept up to their limit. *)
Theorem reconciliation_report_is_exact `{Crc} `{!CrcCombine} `{RecordCodecLaws} `{IndexCodec} `{TimeZones} `{Lz4}
    seals cfg (d : Database Segment) limits expected :
  reachable seals cfg d -> faults (file d) = [] -> is_u64 (len (contents (file d))) -> Forall typed_segment (sealed d) ->
  reconcilable d limits expected ->
  exists r, reconcile_shadow_batches expected limits d = (d, inr r) /\ report_exact d limits expected r.
Proof.
  intros Hr Hf Hl Hg Hrc. apply reconcile_total; [by eapply readable_reachable|done| |done].
  by eapply handle_wf, reachable_inv.
Qed.

(** A database that stores one batch durably, and its source. *)
Definition shadow_batch : CommitBatchRequest := mkBatch 7 1 99 [demo_entity] [] [demo_series] [] [] demo_points.
Definition shadow_closed : Database Segment :=
  mkDb _ (mkFile [] 0 []) demo_config true LogState_empty [] 0 ∅ 0 TailNone 0 true None.
Definition shadow_0 : Database Segment :=
  match (open_mode LockAcquired demo_config false ∅ None).2 with Ok d => d | Err _ => shadow_closed end.
Definition shadow_1 : Database Segment := (commit_ingress (batch_identity shadow_batch) (transaction_from_batch shadow_batch) shadow_0).1.
Definition shadow_2 : Database Segment := (flush shadow_1).1.
Definition shadow_limits : ShadowReconcileLimits := ShadowReconcileLimits_default.

Lemma shadow_reachable : reachable ∅ demo_config shadow_2.
Proof.
  eapply reach_call; [|eapply call_flush, surjective_pairing].
  eapply reach_call; [|eapply call_commit_ingress; [|apply demo_id_typed|apply surjective_pairing]].
  - apply (reach_open _ _ None (Some (file shadow_0))); [done|]. vm_compute. reflexivity.
  - change (transaction_from_batch shadow_batch) with demo_tx. apply demo_tx_typed.
Qed.

Lemma shadow_readable : faults (file shadow_2) = [] /\ is_u64 (len (contents (file shadow_2))) /\ sealed shadow_2 = [].
Proof.
  assert (El : len (contents (file shadow_2)) = 1104) by (vm_compute; reflexivity).
  split; [vm_compute; reflexivity|]. split; [rewrite El; unfold is_u64; lia|vm_compute; reflexivity].
Qed.

Lemma shadow_reconcilable : reconcilable shadow_2 shadow_limits [shadow_batch].
Proof.
  assert (Ec : exists c, encode_canonical_transaction (transaction_from_batch shadow_batch) = Ok c)
    by (eexists; vm_compute; reflexivity).
  split.
  - split; vm_compute; done.
  - vm_compute. discriminate.
  - by repeat constructor.
  - cbn. apply NoDup_singleton.
  - cbn. apply NoDup_singleton.
  - vm_compute. discriminate.
  - vm_compute. discriminate.
  - repeat constructor; vm_compute; done.
  - by repeat constructor.
  - vm_compute. discriminate.
  - vm_compute. discriminate.
Qed.

Lemma reconciliation_report_is_exact_witness :
  exists r, reconcile_shadow_batches [shadow_batch] shadow_limits shadow_2 = (shadow_2, inr r)
    /\ report_exact shadow_2 shadow_limits [shadow_batch] r.
Proof.
  destruct shadow_readable as (Hf & Hl & Hs).
  apply (reconciliation_report_is_exact ∅ demo_config shadow_2 shadow_limits [shadow_batch] shadow_reachable Hf Hl);
    [rewrite Hs; constructor|exact shadow_reconcilable].
Defined.

(** C15.  Release.  When the report says that the source copy can be released,
    every power loss leaves a file that opens again and still holds every
    batch of the window, durably and with its exact bytes. *)
Theorem released_batches_survive_power_loss `{Crc} `{!CrcCombine} `{RecordCodecLaws} `{IndexCodec} `{TimeZones} `{Lz4}
    seals cfg (d d' : Database Segment) limits expected r left m :
  reachable seals cfg d -> faults (file d) = [] -> is_u64 (len (contents (file d))) -> Forall opened_segment (sealed d) ->
  reconcile_shadow_batches expected limits d = (d', inr r) -> ready_to_release_source_copy r = true -> crash (file d) left ->
  exists d2 : Database Segment, open_file LockAcquired (config d) false seals (mkFile left m []) = (file d2, Ok d2)
    /\ Forall (fun b => batch_stored d2 b /\ batch_durable d2 b) expected.
Proof. apply release_survives. Qed.

Lemma released_batches_survive_power_loss_witness :
  exists d2 : Database Segment,
    open_file LockAcquired (config shadow_2) false ∅ (mkFile (contents (file shadow_2)) 0 []) = (file d2, Ok d2)
    /\ Forall (fun b => batch_stored d2 b /\ batch_durable d2 b) [shadow_batch].
Proof.
  destruct shadow_readable as (Hf & Hl & Hs).
  assert (E : exists d' r, reconcile_shadow_batches [shadow_batch] shadow_limits shadow_2 = (d', inr r)
                /\ ready_to_release_source_copy r = true) by (do 2 eexists; split; vm_compute; reflexivity).
  destruct E as (d' & r & E & Hr).
  refine (released_batches_survive_power_loss ∅ demo_config shadow_2 d' shadow_limits [shadow_batch] r _ 0 shadow_reachable Hf Hl _ E Hr _).
  - rewrite Hs. constructor.
  - exists (length (contents (file shadow_2))). split; [vm_compute; lia|]. by rewrite firstn_all.
Defined.
