(* ===== verification/ServerProps.v ===== *)
(** * ServerProps: the guarantees of a session

    The properties of [src/src/shadow_server.rs], each with an example: a
    client that says hello, commits a batch and flushes it. *)
From S2P Require Import Prelude Errors Bytes Float64 Model Utf8 Transaction Catalog Aggregate Rollup Query Codec Effects Segment RollupSegment Directory Manifest Scan Database Durable Recovery Planner Store Snapshot Wire Protocol ProtocolInv Canonical Instances Demo StoreDemo.
From S2P Require Import Runtime RuntimeInv RuntimeDb StoreWriter StoreLog Server ServerInv ShadowProps.

(** C14.  Sessions answer in order.  In every interleaving of the server thread
    with the runtime, the responses a client has received answer its requests
    one for one and in order, with at most one request still open; an
    acknowledgement and a health report are only about the source the session
    is bound to, which a HELLO of this connection named; before that HELLO the
    client receives errors only. *)
Theorem sessions_answer_in_order `{Crc} `{TimeZones} {B} `{WriterBackend B} config spawn b (sys0 : Sys B) uid s c :
  start_backend config spawn b = inr sys0 -> server_runs config uid (server_init sys0) s -> srv_conn s = Some c ->
  (exists open answered, cn_requests c = open ++ answered /\ (length open <= 1)%nat /\ Forall2 reply_for answered (cn_out c))
  /\ Forall (bound_to (cn_source c)) (cn_out c)
  /\ (forall src, cn_source c = Some src ->
        exists h, WireRequest (ReqHello h) ∈ cn_requests c /\ hello_source_id h = src)
  /\ (cn_source c = None -> forall m, m ∈ cn_out c -> exists e, m = WireResponse (RespError e)).
Proof.
  intros Hs Hr Ec. destruct (server_runs_ok config uid _ s (server_init_ok _ (start_traced _ _ _ _ Hs)) Hr) as [[_ Hc _] _].
  rewrite Ec in Hc. cbn in Hc. split; [by eapply requests_answered|]. destruct Hc as [_ Ho _ Hh]. split_and!; try done.
  intros Es m Hm. rewrite Es in Ho. apply unbound_errors. by rewrite Forall_forall in Ho; apply Ho.
Qed.

(** [a] was acknowledged as durable, or a flush of its source through its
    sequence was acknowledged, to any client. *)
Definition promised (written : list WireMessage) (a : Ack) : Prop :=
  ack_durable a = true
  \/ exists f, WireResponse (RespAck f) ∈ written /\ ack_kind f = AckFlush /\ ack_source_id f = ack_source_id a
       /\ ack_sequence a <= ack_sequence f.

(** Whatever a power loss leaves of the log of [d] opens, and has the receipt
    that [a] acknowledged, durable. *)
Definition receipt_survives `{Crc} `{RecordCodec} `{IndexCodec} `{TimeZones} {Seg} (seals : gset Z) (d : Database Seg) (a : Ack) : Prop :=
  forall left m, crash (file d) left ->
    exists (d' : Database Seg) r,
      open_file LockAcquired (Database.config d) false seals (mkFile left m []) = (file d', Ok d')
      /\ ingress_receipt (ack_source_id a) (ack_sequence a) d' = Some r
      /\ rc_identity r = mkIdentity (ack_source_id a) (ack_sequence a) (ack_commit_id a) /\ rc_durable r = true.

(** The replies behind an acknowledgement on the wire. *)
Lemma start_store_traced `{Crc} `{RecordCodec} `{IndexCodec} `{TimeZones} `{Lz4} `{MapOrder} `{ManifestCodec} `{ReadDir} `{CacheOrder}
    suffix nonce seal_nonce reclaim_env config spawn answers s0 sys :
  start_store suffix nonce seal_nonce reclaim_env config spawn answers s0 = inr sys -> traced sys.
Proof. unfold start_store. destruct (store_read_only s0); [done|]. destruct (is_some _ && _); [done|]. apply start_traced. Qed.

Lemma promised_replies `{Crc} `{TimeZones} {B} `{WriterBackend B} config uid (sys0 : Sys B) s a :
  traced sys0 -> server_runs config uid (server_init sys0) s ->
  WireResponse (RespAck a) ∈ srv_written s -> ack_kind a = AckCommitBatch -> promised (srv_written s) a ->
  runs config sys0 (srv_sys s)
  /\ exists t r, (t, ReplyWrite (inr r)) ∈ sys_replies (srv_sys s)
       /\ sa_identity r = mkIdentity (ack_source_id a) (ack_sequence a) (ack_commit_id a)
       /\ (cm_durable (sa_commit r) = true
           \/ exists t' f, (t', ReplyFlush (inr f)) ∈ sys_replies (srv_sys s) /\ fa_source_id f = source_id (sa_identity r)
                /\ sequence (sa_identity r) <= fa_through_sequence f).
Proof.
  intros Ht Hr Ha Ek Hp. destruct (server_runs_ok config uid _ s (server_init_ok _ Ht) Hr) as [[_ _ Hw] Hruns].
  rewrite Forall_forall in Hw. pose proof (Hw _ Ha) as Hax. cbn in Hax. rewrite Ek in Hax. destruct Hax as (t & r & Hin & Hid & Hrd).
  split; [done|]. exists t, r. split_and!; [done..|]. destruct Hp as [Hdu|(f & Hf & Ef & Hsrc & Hle)]; [left; congruence|]. right.
  specialize (Hw _ Hf). cbn in Hw. rewrite Ef in Hw. destruct Hw as (t' & r' & Hin' & E1 & E2). exists t', r'.
  rewrite Hid. cbn. split_and!; [done|congruence|lia].
Qed.

(** C4.  Acknowledgements on the wire.  A batch acknowledged to a client as
    durable, or covered by an acknowledged flush of its source, survives every
    power loss of the log: its receipt is there under the source, sequence and
    commit the acknowledgement names.  This holds for a runtime over a bare
    database, and for a runtime over a store as the sidecar starts it, with its
    storage limits and its rollups, with background maintenance or without, as
    long as background sealing is off; the store then keeps its segments. *)
Theorem wire_acknowledgements_survive_power_loss `{Crc} `{RecordCodecLaws} `{IndexCodec} `{TimeZones} `{Lz4} `{MapOrder} `{ManifestCodec}
    `{ReadDir} `{CacheOrder} cfg config uid :
  (forall {Seg} `{SegmentOps Seg} seals (d0 : Database Seg) sys0 s a,
     reachable seals cfg d0 -> start_database config None d0 = inr sys0 -> server_runs config uid (server_init sys0) s ->
     Forall typed_command (sys_sent (srv_sys s)) ->
     WireResponse (RespAck a) ∈ srv_written s -> ack_kind a = AckCommitBatch -> promised (srv_written s) a ->
     receipt_survives seals (wk_backend (sys_work (srv_sys s))) a)
  /\ (forall suffix nonce seal_nonce reclaim_env answers s0 sys0 s a,
     seal_log_bytes_threshold config = None ->
     reachable (published_seal_generations (manifest s0)) cfg (database s0) ->
     start_store suffix nonce seal_nonce reclaim_env config None answers s0 = inr sys0 ->
     server_runs (H1 := store_backend suffix nonce seal_nonce reclaim_env) config uid (server_init sys0) s ->
     Forall typed_command (sys_sent (srv_sys s)) ->
     WireResponse (RespAck a) ∈ srv_written s -> ack_kind a = AckCommitBatch -> promised (srv_written s) a ->
     let s' := sw_store (wk_backend (sys_work (srv_sys s))) in
     segments (manifest s') = segments (manifest s0)
     /\ receipt_survives (published_seal_generations (manifest s')) (database s') a).
Proof.
  split.
  - intros Seg HSeg seals d0 sys0 s a Hd Hs Hr Hty Ha Ek Hp left m Hc.
    destruct (promised_replies config uid sys0 s a (start_database_traced _ _ _ _ Hs) Hr Ha Ek Hp) as (Hruns & t & r & Hin & Hid & Hdu).
    destruct (answered_write_survives config seals d0 sys0 (srv_sys s) t r left m (reachable_inv _ _ _ Hd) Hs Hruns Hty Hin Hdu Hc)
      as (d' & rc & Ho & Hx & Hy). exists d', rc. rewrite Hid in Hx, Hy. done.
  - intros suffix nonce seal_nonce reclaim_env answers s0 sys0 s a Hseal Hd Hs Hr Hty Ha Ek Hp.
    destruct (promised_replies config uid sys0 s a (start_store_traced _ _ _ _ _ _ _ _ _ Hs) Hr Ha Ek Hp) as (Hruns & t & r & Hin & Hid & Hdu).
    destruct (answered_store_write_survives suffix nonce seal_nonce reclaim_env _ config answers s0 sys0 (srv_sys s) t r
      Hseal (reachable_inv _ _ _ Hd) Hs Hruns Hty Hin Hdu) as [Hg Hx]. cbv zeta in *. set (s' := sw_store _) in *.
    split; [exact Hg|]. intros left m Hc. destruct (Hx left m Hc) as (d' & rc & Ho & Hi & Hy). exists d', rc. rewrite Hid in Hi, Hy.
    unfold published_seal_generations. rewrite Hg. done.
Qed.

(** ** A session: hello, commit, flush *)

Definition demo_env : Env := mkEnv 1000 42 true false WaitTimeout.
Definition frame_of (m : WireMessage) : bytes := match encode m with inr f => f | inl _ => [] end.
Definition demo_hello : WireMessage := WireRequest (ReqHello (mkHelloRequest 7 (str "node") (str "1") 0)).
Definition demo_events : list SocketEvent :=
  [SockBytes (frame_of (WireRequest (ReqHealth (mkHealthRequest 3)))); SockInterrupted; SockBytes (frame_of demo_hello); SockBytes demo_frame;
   SockBytes (frame_of (WireRequest (ReqFlush (mkFlushRequest 7 1))))].
Definition demo_actions : list Action :=
  let turn := ActTurn demo_env in let worker := ActWorker 0 0 in
  [ActAccept 500 demo_events; turn; turn; turn; turn; turn; turn;
   ActProducer; ActProducer; worker; ActProducer; ActProducer; worker; worker; worker; worker; turn; turn; turn; turn;
   ActProducer; ActProducer; ActProducer; worker; worker; worker; worker; turn; turn].
Definition demo_server : Server (Database (list Point)) :=
  fold_left (fun s a => act demo_runtime 500 a s) demo_actions (server_init demo_sys0).
Definition demo_conn : Conn := match srv_conn demo_server with Some c => c | None => new_connection [] end.

Lemma demo_server_runs : server_runs demo_runtime 500 (server_init demo_sys0) demo_server.
Proof. apply acts_run. constructor. Qed.

Lemma demo_server_conn : srv_conn demo_server = Some demo_conn.
Proof. vm_compute. reflexivity. Qed.

Lemma demo_server_sent : sys_sent (srv_sys demo_server) = [CmdFlush 7 1 1; CmdWrite (batch_write demo_batch) 0].
Proof. vm_compute. reflexivity. Qed.

Lemma demo_server_typed : Forall typed_command (sys_sent (srv_sys demo_server)).
Proof.
  rewrite demo_server_sent. apply Forall_cons. split; [exact I|]. apply Forall_cons. split; [|apply Forall_nil; exact I].
  apply batch_write_typed, demo_message_typed.
Qed.

Lemma sessions_answer_in_order_witness :
  length (cn_requests demo_conn) = 4%nat /\ length (cn_out demo_conn) = 4%nat /\ cn_source demo_conn = Some 7
  /\ (exists open answered, cn_requests demo_conn = open ++ answered /\ (length open <= 1)%nat
        /\ Forall2 reply_for answered (cn_out demo_conn))
  /\ Forall (bound_to (cn_source demo_conn)) (cn_out demo_conn).
Proof.
  split; [vm_compute; reflexivity|]. split; [vm_compute; reflexivity|]. split; [vm_compute; reflexivity|].
  assert (Hs : start_backend demo_runtime None demo_open = inr demo_sys0) by (vm_compute; reflexivity).
  destruct (sessions_answer_in_order demo_runtime None demo_open demo_sys0 500 demo_server demo_conn Hs demo_server_runs
    demo_server_conn) as (H1 & H2 & _). exact (conj H1 H2).
Defined.

Definition demo_wire_ack : Ack :=
  match srv_written demo_server with
  | _ :: WireResponse (RespAck a) :: _ => a
  | _ => mkAck AckFlush 0 0 0 None None false false 0 0 0 0
  end.
Definition demo_wire_flush : Ack :=
  match srv_written demo_server with
  | WireResponse (RespAck a) :: _ => a
  | _ => mkAck AckCommitBatch 0 0 0 None None false false 0 0 0 0
  end.

Lemma demo_server_written :
  exists older, srv_written demo_server = WireResponse (RespAck demo_wire_flush) :: WireResponse (RespAck demo_wire_ack) :: older.
Proof. eexists. vm_compute. reflexivity. Qed.

(** The same session over a store with storage limits. *)
Definition limits_runtime : ShadowRuntimeConfig := mkRuntimeConfig 4 100 None None (Some (mkLimits 100000 1000)).
Definition free_disk (look : nat) : DiskAnswer := mkDiskAnswer None (Ok (mkStatVfs 512 100)).
Definition fixed_seal_nonce (now : Z) : rstring := str "1".
Definition fixed_reclaim_env (now : Z) : ReclaimEnv := quiet_env.
Definition fixed_nonces (now : Z) : Z -> rstring := demo_nonce.
Definition session_backend : WriterBackend StoreWriter := store_backend demo_suffix fixed_nonces fixed_seal_nonce fixed_reclaim_env.
Definition stopped_store : Sys StoreWriter :=
  mkSys _ (mkWork _ (mkStoreWriter no_store None free_disk 0) (mkHealthState StClosed 0 0 0 ∅ None None StoreOpsSnapshot_default) None None)
    QueueUsage_default [] GateFree Stopped false false 0 [] [] [].
Definition store_sys0 : Sys StoreWriter :=
  match start_store demo_suffix fixed_nonces fixed_seal_nonce fixed_reclaim_env limits_runtime None free_disk store_0 with
  | inr s => s
  | inl _ => stopped_store
  end.
Definition store_server : Server StoreWriter :=
  fold_left (fun s a => act (H1 := session_backend) limits_runtime 500 a s) demo_actions (server_init store_sys0).

Lemma store_0_reachable : reachable (published_seal_generations (manifest store_0)) demo_config (database store_0).
Proof.
  assert (E : database store_0 = set_sealed [] 0 (match (open_mode LockAcquired demo_config false ∅ None).2 with Ok d => d | Err _ => database no_store end))
    by (vm_compute; reflexivity).
  assert (Es : published_seal_generations (manifest store_0) = ∅) by (vm_compute; reflexivity).
  rewrite E, Es. eapply reach_call; [|apply call_attach]. eapply (reach_open _ _ None); [done|].
  rewrite (surjective_pairing (open_mode LockAcquired demo_config false ∅ None)). f_equal.
Qed.

Lemma store_server_sent : sys_sent (srv_sys store_server) = [CmdFlush 7 1 1; CmdWrite (batch_write demo_batch) 0].
Proof. vm_compute. reflexivity. Qed.

Lemma store_server_written :
  exists older, srv_written store_server = WireResponse (RespAck demo_wire_flush) :: WireResponse (RespAck demo_wire_ack) :: older.
Proof. eexists. vm_compute. reflexivity. Qed.

Lemma promised_by_flush older : promised (WireResponse (RespAck demo_wire_flush) :: WireResponse (RespAck demo_wire_ack) :: older) demo_wire_ack.
Proof. right. exists demo_wire_flush. split; [by left|]. split_and!; vm_compute; [reflexivity|reflexivity|discriminate]. Qed.

Lemma wire_acknowledgements_survive_power_loss_witness :
  ack_durable demo_wire_ack = false
  /\ receipt_survives ∅ (wk_backend (sys_work (srv_sys demo_server))) demo_wire_ack
  /\ receipt_survives (published_seal_generations (manifest (sw_store (wk_backend (sys_work (srv_sys store_server))))))
       (database (sw_store (wk_backend (sys_work (srv_sys store_server))))) demo_wire_ack.
Proof.
  split; [vm_compute; reflexivity|]. split.
  - destruct demo_server_written as [older Ew].
    apply (proj1 (wire_acknowledgements_survive_power_loss demo_config demo_runtime 500) (list Point) _ ∅ demo_open demo_sys0 demo_server
      demo_wire_ack demo_open_reachable demo_started demo_server_runs demo_server_typed).
    + rewrite Ew. right. left.
    + vm_compute. reflexivity.
    + rewrite Ew. apply promised_by_flush.
  - destruct store_server_written as [older Ew].
    refine (proj2 (proj2 (wire_acknowledgements_survive_power_loss demo_config limits_runtime 500) demo_suffix fixed_nonces fixed_seal_nonce
      fixed_reclaim_env free_disk store_0 store_sys0 store_server demo_wire_ack eq_refl store_0_reachable _ _ _ _ _ _)).
    + vm_compute. reflexivity.
    + apply acts_run. constructor.
    + rewrite store_server_sent, <- demo_server_sent. exact demo_server_typed.
    + rewrite Ew. right. left.
    + vm_compute. reflexivity.
    + rewrite Ew. apply promised_by_flush.
Defined.
