(* ===== verification/SnapshotProps.v ===== *)
(** * SnapshotProps: the guarantees of backup, restore and salvage

    The properties of [src/src/snapshot.rs] and of the copies of
    [src/src/store.rs], each with an example. *)
From S2P Require Import Prelude Errors Bytes Float64 Model Utf8 Transaction Catalog Aggregate Rollup Query Codec Effects Segment RollupSegment Directory Manifest Scan Database Planner Store Salvage Snapshot SnapshotInv SnapshotCheck Instances Demo StoreDemo.

(** ** Publication *)

(** C18.  A backup, a restore and a salvage appear at their destination whole
    or not at all, whichever calls of the file system fail.  A call that
    returns Ok found the destination free and put there a whole copy: for a
    backup the log, byte for byte through the copy and never linked, exactly
    the active rollups, segments and current manifest of the store, opened
    read-only and checked; for a restore the same of the opened backup, with
    its checksum and no recovery needed; for a salvage the valid prefix of
    the log and the planned segments with a new manifest and no rollups,
    with the expected counts.  Nothing else beside it changed.  An error
    leaves everything but hidden stages as it was; the one exception is
    [SnapshotPublication], which says that taking the copy back failed, and
    even then the destination holds nothing or a whole copy. *)
Theorem copies_appear_whole_or_not_at_all `{Crc} `{RecordCodec} `{IndexCodec} `{TimeZones} `{Lz4} `{MapOrder} `{ManifestCodec} `{ReadDir} `{CacheOrder}
    transfer group_accessible destination unique io_stage io_destination w w' :
  (forall s s' r,
     backup_to transfer group_accessible destination unique io_stage io_destination (s, w) = ((s', w'), r) ->
     appears destination (str "backup") unique (backup_whole transfer s' io_stage) w w' r)
  /\ (forall backup io_backup r,
     restore_from transfer group_accessible backup io_backup destination unique io_stage io_destination w = (w', r) ->
     appears destination (str "restore") unique
       (fun t => exists s, open_tree io_backup backup = Ok s /\ restore_whole transfer s io_stage t) w w' r)
  /\ (forall suffix damaged io_source drop_orphan_segments r,
     salvage_from_with_options transfer group_accessible suffix damaged io_source drop_orphan_segments destination unique
       io_stage io_destination w = (w', r) ->
     appears destination (str "salvage") unique
       (salvage_whole transfer suffix damaged io_source drop_orphan_segments io_stage) w w' r).
Proof.
  split; [intros s s' r; apply backup_appears|].
  split; [intros backup io_backup r; apply restore_from_appears|intros suffix damaged io_source drop r; apply salvage_appears].
Qed.

(** C19.  What passed the checksum.  When a restore returns Ok, however the
    copying went, the store it published has every selected file of the backup,
    with the same total length and the same CRC32 over names, lengths and
    contents: the files are the backup's unless exactly these two sequences of
    hashed bytes, equally long and different, have the same CRC32.  The same
    holds of a salvage, whose source is the validated prefix of the damaged log
    and the segments.  The published copy opens read-only, passes the integrity
    check and needs no recovery. *)
Theorem checked_copies_match_their_source `{Crc} `{RecordCodec} `{IndexCodec} `{TimeZones} `{Lz4} `{MapOrder} `{ManifestCodec} `{ReadDir} `{CacheOrder}
    transfer group_accessible destination unique io_stage io_destination w w' :
  (forall backup io_backup report,
     restore_from transfer group_accessible backup io_backup destination unique io_stage io_destination w = (w', Ok report) ->
     exists s i t integrity,
       open_tree io_backup backup = Ok s /\ w_entries w' = <[destination := (i, t)]> (w_entries w)
       /\ opens_clean io_destination t integrity
       /\ same_digest (open_snapshot_file backup) (open_snapshot_file t) (selected_snapshot_paths (manifest s)))
  /\ (forall suffix damaged io_source drop_orphan_segments report,
     salvage_from_with_options transfer group_accessible suffix damaged io_source drop_orphan_segments destination unique
       io_stage io_destination w = (w', Ok report) ->
     exists i t plan log source d integrity,
       w_entries w' = <[destination := (i, t)]> (w_entries w)
       /\ planned damaged io_source drop_orphan_segments plan log source d /\ opens_clean io_stage t integrity
       /\ same_digest (salvage_file damaged log (recovered_prefix_bytes source)) (open_snapshot_file t) (salvage_snapshot_paths plan)).
Proof.
  split; [intros backup io_backup report; apply restore_from_matches|].
  intros suffix damaged io_source drop report (_ & i & t & Hw & Ew)%salvage_appears.
  destruct (salvage_whole_matches _ _ _ _ _ _ _ Hw) as (plan & log & source & d & integrity & Hp & Ho & Hf).
  by exists i, t, plan, log, source, d, integrity.
Qed.

(** ** An example *)

(** A store with a rollup is backed up, and the backup restored; the store is
    sealed, its log damaged at the end, and salvaged. *)
Definition demo_io : TreeIo := mkTreeIo LockAcquired [] [] [] [].
Definition demo_unique (attempt : nat) : rstring := [48 + Z.of_nat attempt].
Definition demo_world : World := mkWorld ∅ 0 [].
Definition faithful (relative : rstring) (c : bytes) : bytes := c.
Definition private (relative : rstring) : bool := false.
Definition demo_destination : rstring := str "copy".

Definition demo_backup : (Store * World) * Result BackupReport :=
  backup_to faithful private demo_destination demo_unique demo_io demo_io (store_2, demo_world).
Definition backup_tree : Tree := from_option snd tree_empty (w_entries demo_backup.1.2 !! demo_destination).
Definition demo_restore : World * Result RestoreReport :=
  restore_from faithful private backup_tree demo_io demo_destination demo_unique demo_io demo_io demo_world.
Definition damaged_tree : Tree :=
  let t := tree_of (seal_and_reclaim demo_suffix (str "1") quiet_env store_2).1 in
  set_log (Own (from_option node_bytes [] (tr_log t) ++ [1; 2; 3])) t.
Definition demo_salvage : World * Result SalvageReport :=
  salvage_from_with_options faithful private (str "1-1") damaged_tree demo_io false demo_destination demo_unique demo_io demo_io demo_world.

(** The parent cannot be synced, and the copy cannot be removed: the stage is
    left behind, the destination is not. *)
Definition failing_world : World := mkWorld ∅ 0 (replicate 21 None ++ [Some "sync"] ++ replicate 3 None ++ [Some "remove"])%list.
Definition failing_backup : (Store * World) * Result BackupReport :=
  backup_to faithful private demo_destination demo_unique demo_io demo_io (store_2, failing_world).

Lemma copies_appear_whole_or_not_at_all_witness :
  (is_ok demo_backup.2 = true /\ is_ok failing_backup.2 = false /\ is_ok demo_restore.2 = true /\ is_ok demo_salvage.2 = true)
  /\ appears demo_destination (str "backup") demo_unique (backup_whole faithful demo_backup.1.1 demo_io) demo_world demo_backup.1.2 demo_backup.2
  /\ appears demo_destination (str "backup") demo_unique (backup_whole faithful failing_backup.1.1 demo_io) failing_world failing_backup.1.2
       failing_backup.2
  /\ appears demo_destination (str "restore") demo_unique
       (fun t => exists s, open_tree demo_io backup_tree = Ok s /\ restore_whole faithful s demo_io t) demo_world demo_restore.1 demo_restore.2
  /\ appears demo_destination (str "salvage") demo_unique (salvage_whole faithful (str "1-1") damaged_tree demo_io false demo_io) demo_world
       demo_salvage.1 demo_salvage.2.
Proof.
  split; [vm_compute; split_and!; reflexivity|].
  split; [|split; [|split]].
  - apply (proj1 (copies_appear_whole_or_not_at_all faithful private demo_destination demo_unique demo_io demo_io demo_world demo_backup.1.2) store_2).
    unfold demo_backup. destruct (backup_to _ _ _ _ _ _ _) as [[]]. reflexivity.
  - apply (proj1 (copies_appear_whole_or_not_at_all faithful private demo_destination demo_unique demo_io demo_io failing_world failing_backup.1.2) store_2).
    unfold failing_backup. destruct (backup_to _ _ _ _ _ _ _) as [[]]. reflexivity.
  - apply (proj1 (proj2 (copies_appear_whole_or_not_at_all faithful private demo_destination demo_unique demo_io demo_io demo_world demo_restore.1))).
    unfold demo_restore. destruct (restore_from _ _ _ _ _ _ _ _) as []. reflexivity.
  - apply (proj2 (proj2 (copies_appear_whole_or_not_at_all faithful private demo_destination demo_unique demo_io demo_io demo_world demo_salvage.1))).
    unfold demo_salvage. destruct (salvage_from_with_options _ _ _ _ _ _ _ _ _ _ _) as []. reflexivity.
Defined.

Lemma demo_restored : exists report, demo_restore.2 = Ok report.
Proof. assert (E : is_ok demo_restore.2 = true) by (vm_compute; reflexivity). destruct demo_restore.2 as [r|e]; [by exists r|discriminate E]. Qed.
Lemma demo_salvaged : exists report, demo_salvage.2 = Ok report.
Proof. assert (E : is_ok demo_salvage.2 = true) by (vm_compute; reflexivity). destruct demo_salvage.2 as [r|e]; [by exists r|discriminate E]. Qed.

Lemma checked_copies_match_their_source_witness :
  (exists s i t integrity,
     open_tree demo_io backup_tree = Ok s /\ w_entries demo_restore.1 = <[demo_destination := (i, t)]> (w_entries demo_world)
     /\ opens_clean demo_io t integrity
     /\ same_digest (open_snapshot_file backup_tree) (open_snapshot_file t) (selected_snapshot_paths (manifest s)))
  /\ exists i t plan log source d integrity,
       w_entries demo_salvage.1 = <[demo_destination := (i, t)]> (w_entries demo_world)
       /\ planned damaged_tree demo_io false plan log source d /\ opens_clean demo_io t integrity
       /\ same_digest (salvage_file damaged_tree log (recovered_prefix_bytes source)) (open_snapshot_file t) (salvage_snapshot_paths plan).
Proof.
  split.
  - destruct demo_restored as [report E].
    apply (proj1 (checked_copies_match_their_source faithful private demo_destination demo_unique demo_io demo_io demo_world demo_restore.1))
      with (report := report). rewrite <- E. unfold demo_restore. destruct (restore_from _ _ _ _ _ _ _ _) as []. reflexivity.
  - destruct demo_salvaged as [report E].
    apply (proj2 (checked_copies_match_their_source faithful private demo_destination demo_unique demo_io demo_io demo_world demo_salvage.1))
      with (suffix := str "1-1") (report := report). rewrite <- E. unfold demo_salvage.
    destruct (salvage_from_with_options _ _ _ _ _ _ _ _ _ _ _) as []. reflexivity.
Defined.

(** When the permissions of a new stage cannot be set, the stage stays. *)
Theorem failed_permissions_leave_the_stage :
  let '(w, r) := StagedDirectory_create demo_destination (str "backup") demo_unique (mkWorld ∅ 0 [None; None; None; Some "PermissionDenied"]) in
  r = Err (Io "PermissionDenied") /\ is_Some (w_entries w !! stage_name demo_destination (str "backup") demo_unique 0).
Proof. vm_compute. split; [reflexivity|]. eexists. reflexivity. Qed.
