(* ===== verification/LimitProps.v ===== *)
(** * LimitProps: storage limits of the sidecar

    The properties of the store backend of [src/src/shadow_runtime.rs], with
    an example. *)
From S2P Require Import Prelude Errors Bytes Float64 Model Utf8 Transaction Catalog Aggregate Rollup Query Codec Effects Segment RollupSegment Directory Manifest Scan Database Planner Store Snapshot Runtime RuntimeInv StoreWriter Instances Demo StoreDemo.

(** C13.  Storage limits hold.  When a runtime is started over a store with
    limits that the store respects, then in every interleaving of producers
    and worker, whatever fails, log and files together stay within
    [max_store_bytes].  A write under a new key that leaves anything in the
    store was preceded by a look at the disk that found the free reserve left
    after the whole frame is allocated.  And a key that already has a receipt
    is handed to the store whatever the limits say, so that a retry can be
    answered on a full disk. *)
Theorem storage_limits_hold `{Crc} `{RecordCodec} `{IndexCodec} `{TimeZones} `{Lz4} `{MapOrder} `{ManifestCodec} `{ReadDir} `{CacheOrder}
    suffix nonce seal_nonce reclaim_env l :
  (forall config spawn answers s s0 s1,
     storage_limits config = Some l -> tree_bytes (tree_of s) <= max_store_bytes l ->
     start_store suffix nonce seal_nonce reclaim_env config spawn answers s = inr s0 ->
     runs (H := store_backend suffix nonce seal_nonce reclaim_env) config s0 s1 ->
     store_bytes (wk_backend (sys_work s1)) <= max_store_bytes l)
  /\ (forall identity t w w' r,
     sw_limits w = Some l -> sw_commit_ingress suffix identity t w = (w', r) ->
     match ingress_receipt (source_id identity) (sequence identity) (database (sw_store w)) with
     | Some _ => on_sw_store (Store_commit_ingress suffix identity t) w = (w', r)
     | None =>
         store_bytes w' = store_bytes w
         \/ exists n space, ingress_frame_bytes t = Ok n
            /\ da_space (sw_answers w (sw_looks w)) = Ok space /\ f_frsize space <> 0
            /\ minimum_free_bytes l + div_ceil n (f_frsize space) * f_frsize space <= f_bavail space * f_frsize space
     end).
Proof.
  split.
  - intros config spawn answers s s0 s1 Hl Hb Hs Hr. by apply (limits_hold _ _ _ _ _ _ _ _ _ _ _ Hl Hb Hs Hr).
  - intros identity t w w' r Hl E. unfold sw_commit_ingress, st_bind at 1, st_get at 1 in E. rewrite Hl in E.
    destruct (ingress_receipt _ _ _); [exact E|]. unfold st_bind in E. destruct (limits_check l t w) as [w1 r1] eqn:E1.
    destruct (limits_check_spec _ _ _ _ _ E1) as (Hs & _ & Hok). destruct r1 as [[]|e].
    + right. destruct (Hok eq_refl) as (n & space & Hn & _ & Hrest). by exists n, space.
    + left. injection E as <- <-. unfold store_bytes. by rewrite Hs.
Qed.

(** ** An example *)

(** Room for one frame: the first write is stored, the next one refused, and
    the retry of the first answered. *)
Definition demo_limits : ShadowStorageLimits := mkLimits 1500 1000.
Definition limited_runtime : ShadowRuntimeConfig := mkRuntimeConfig 4 100 None None (Some demo_limits).
Definition demo_disk (look : nat) : DiskAnswer := mkDiskAnswer None (Ok (mkStatVfs 512 10)).
Definition demo_seal_nonce (now : Z) : rstring := str "1".
Definition demo_env (now : Z) : ReclaimEnv := quiet_env.
Definition demo_nonces (now : Z) : Z -> rstring := demo_nonce.
#[local] Instance demo_backend : WriterBackend StoreWriter := store_backend demo_suffix demo_nonces demo_seal_nonce demo_env.
Definition limited_start : ShadowStartError + Sys StoreWriter :=
  start_store demo_suffix demo_nonces demo_seal_nonce demo_env limited_runtime None demo_disk store_0.
Definition no_writer : StoreWriter := mkStoreWriter no_store None demo_disk 0.
Definition no_sys : Sys StoreWriter :=
  mkSys _ (mkWork _ no_writer (mkHealthState StClosed 0 0 0 ∅ None None StoreOpsSnapshot_default) None None) QueueUsage_default [] GateFree
    Stopped false false 0 [] [] [].
Definition limited_0 : Sys StoreWriter := match limited_start with inr s => s | inl _ => no_sys end.
Definition write_at (n : Z) : ShadowWrite := identified_write (mkIdentity 7 n (40 + n)) demo_tx.
Definition limited_1 : Sys StoreWriter :=
  try_submit limited_runtime (write_at 1) (try_submit limited_runtime (write_at 2) (try_submit limited_runtime (write_at 1) limited_0)).
Definition limited_2 : Sys StoreWriter := Nat.iter 12 (turn limited_runtime 0 0) limited_1.

Definition reply_summary (r : nat * Reply) : option (bool * bool) :=
  match r.2 with
  | ReplyWrite (inr ack) => Some (true, cm_deduplicated (sa_commit ack))
  | ReplyWrite (inl (WriteRejected (ResourceLimit _))) => Some (false, false)
  | _ => None
  end.

Lemma limited_runs : runs limited_runtime limited_0 limited_2.
Proof.
  eapply runs_trans; [|apply turn_runs]. unfold limited_1.
  eapply runs_trans; [eapply runs_trans|]; apply try_submit_runs; vm_compute; reflexivity.
Qed.

Lemma storage_limits_hold_witness :
  (* the first write, the refused one, the retry *)
  map reply_summary (rev (sys_replies limited_2)) = [Some (true, false); Some (false, false); Some (true, true)]
  /\ store_bytes (wk_backend (sys_work limited_2)) <= max_store_bytes demo_limits
  /\ match ingress_receipt 7 1 (database (sw_store (wk_backend (sys_work limited_2)))) with
     | Some _ =>
         on_sw_store (Store_commit_ingress demo_suffix (mkIdentity 7 1 41) demo_tx) (wk_backend (sys_work limited_2))
         = sw_commit_ingress demo_suffix (mkIdentity 7 1 41) demo_tx (wk_backend (sys_work limited_2))
     | None => False
     end.
Proof.
  split; [vm_compute; reflexivity|]. split.
  - apply (proj1 (storage_limits_hold demo_suffix demo_nonces demo_seal_nonce demo_env demo_limits)
             limited_runtime None demo_disk store_0 limited_0 limited_2); [reflexivity|vm_compute; discriminate|vm_compute; reflexivity|].
    apply limited_runs.
  - assert (Hl : sw_limits (wk_backend (sys_work limited_2)) = Some demo_limits) by (vm_compute; reflexivity).
    pose proof (proj2 (storage_limits_hold demo_suffix demo_nonces demo_seal_nonce demo_env demo_limits) (mkIdentity 7 1 41) demo_tx
                  (wk_backend (sys_work limited_2))
                  (sw_commit_ingress demo_suffix (mkIdentity 7 1 41) demo_tx (wk_backend (sys_work limited_2))).1
                  (sw_commit_ingress demo_suffix (mkIdentity 7 1 41) demo_tx (wk_backend (sys_work limited_2))).2 Hl) as Ht.
    cbn [source_id sequence] in Ht. rewrite <- surjective_pairing in Ht. specialize (Ht eq_refl).
    assert (Hk : is_some (ingress_receipt 7 1 (database (sw_store (wk_backend (sys_work limited_2))))) = true) by (vm_compute; reflexivity).
    destruct (ingress_receipt 7 1 _); [exact Ht|discriminate Hk].
Defined.
