(* ===== verification/SdProfile.v ===== *)
(** * SdProfile: [src/bench/sd-card-emulator/src/config.rs]

    The profile of an emulated card and its validation.  Reading the JSON file
    is serde's. *)
From S2P Require Import Prelude Errors Model.

Definition PROBABILITY_SCALE : Z := 1000000.

Record DeviceProfile := mkDevice { size_bytes : Z; logical_block_bytes : Z; erase_block_bytes : Z }.

Record IoProfile := mkIoProfile {
  bandwidth_bytes_per_second : Z;
  iops : Z;
  base_latency_us : Z;
  jitter_latency_us : Z;
  spike_probability_ppm : Z;
  spike_latency_us_min : Z;
  spike_latency_us_max : Z;
}.

Record CacheProfile := mkCache {
  cache_enabled : bool;
  cache_max_bytes : Z;
  false_flush_probability_ppm : Z;
  power_loss_persist_probability_ppm : Z;
  power_loss_torn_probability_ppm : Z;
  power_loss_reorder_probability_ppm : Z;
}.

Record WearProfile := mkWear {
  wear_enabled : bool;
  accelerated_factor : Z;
  warning_cycles : Z;
  failure_cycles : Z;
  worn_eio_probability_ppm : Z;
  read_only_after_bad_blocks : Z;
}.

Record FaultProfile := mkFaults {
  eio_probability_ppm : Z;
  torn_write_probability_ppm : Z;
  silent_corruption_probability_ppm : Z;
  power_loss_after_ops : option Z;
  read_only_after_ops : option Z;
  disappear_after_ops : option Z;
}.

Record Profile := mkProfile {
  schema_version : Z;
  profile_name : rstring;
  device : DeviceProfile;
  read_io : IoProfile;
  write_io : IoProfile;
  cache : CacheProfile;
  wear : WearProfile;
  faults_of : FaultProfile;
}.

(** [ConfigError::Invalid]; the other variants are serde's and the file
    system's. *)
Inductive ConfigError := ConfigInvalid (message : string).

Definition require (ok : bool) (message : string) : ConfigError + unit := if ok then inr tt else inl (ConfigInvalid message).
Definition also {A} (r : ConfigError + unit) (k : ConfigError + A) : ConfigError + A := match r with inl e => inl e | inr _ => k end.
Notation "r &&? k" := (also r k) (at level 60, right associativity) : ftw_scope.

Definition is_power_of_two (z : Z) : bool := (0 <? z) && (Z.land z (z - 1) =? 0).
Definition is_multiple_of (a b : Z) : bool := if b =? 0 then a =? 0 else a mod b =? 0.

Definition validate_probability (value : Z) : ConfigError + unit :=
  require (value <=? PROBABILITY_SCALE) "{name} exceeds {PROBABILITY_SCALE} ppm".

Definition validate_io (p : IoProfile) : ConfigError + unit :=
  validate_probability (spike_probability_ppm p) &&?
  require (spike_latency_us_min p <=? spike_latency_us_max p) "{name} spike minimum exceeds maximum".

Fixpoint validate_probabilities (l : list Z) : ConfigError + unit :=
  match l with [] => inr tt | value :: l => validate_probability value &&? validate_probabilities l end.

(** [Profile::validate]. *)
Definition Profile_validate (p : Profile) : ConfigError + unit :=
  let d := device p in
  let c := cache p in
  let w := wear p in
  let f := faults_of p in
  require (schema_version p =? 1) "schema_version must be 1, got {}" &&?
  require (negb (trim_is_empty (profile_name p))) "profile name is empty" &&?
  require (negb (size_bytes d =? 0)) "device size must be positive" &&?
  require (negb ((logical_block_bytes d <? 512) || negb (is_power_of_two (logical_block_bytes d))))
    "logical block size must be a power of two of at least 512 bytes" &&?
  require (negb ((erase_block_bytes d <? logical_block_bytes d) || negb (is_multiple_of (erase_block_bytes d) (logical_block_bytes d))))
    "erase block size must be a multiple of the logical block size" &&?
  require (is_multiple_of (size_bytes d) (logical_block_bytes d)) "device size must be a multiple of the logical block size" &&?
  require (negb (size_bytes d <? cache_max_bytes c)) "cache cannot be larger than the device" &&?
  validate_io (read_io p) &&?
  validate_io (write_io p) &&?
  validate_probabilities
    [false_flush_probability_ppm c; power_loss_persist_probability_ppm c; power_loss_torn_probability_ppm c;
     power_loss_reorder_probability_ppm c; worn_eio_probability_ppm w; eio_probability_ppm f;
     torn_write_probability_ppm f; silent_corruption_probability_ppm f] &&?
  require (power_loss_persist_probability_ppm c + power_loss_torn_probability_ppm c <=? PROBABILITY_SCALE)
    "power-loss persist and torn probabilities exceed 1,000,000 ppm" &&?
  (if wear_enabled w then
     require (negb (accelerated_factor w =? 0)) "wear accelerated_factor must be positive" &&?
     require (warning_cycles w <? failure_cycles w) "wear warning_cycles must be below failure_cycles"
   else inr tt).
