(* ===== verification/SdCard.v ===== *)
(** * SdCard: [src/bench/sd-card-emulator/src/model.rs]

    The emulated card: a backing file, a volatile write cache, wear, and the
    faults of its profile, drawn from a seeded generator.  [now] is the clock
    of the pacers.  A call on the backing file takes the next entry of
    [sd_host]: a failure writes the given number of bytes.  The [u64] counters
    of the statistics stay below their width. *)
From S2P Require Import Prelude Errors Bytes Model Effects SdProfile.

Inductive DeviceStatus := Online | ReadOnlyDevice | Offline.
#[export] Instance DeviceStatus_eq_dec : EqDecision DeviceStatus.
Proof. solve_decision. Defined.

(** The counters of [Stats] that operations change, by name. *)
Inductive Counter :=
  | operations | read_operations | write_operations | flush_operations | read_bytes | write_bytes | persisted_bytes
  | latency_spikes | injected_eio_operations | injected_torn_operations | injected_torn_bytes | injected_corruptions
  | false_flushes | power_losses | dropped_operations | dropped_bytes | torn_operations | torn_bytes
  | reordered_operations | erase_operations | max_erase_count | bad_block_count.
#[export] Instance Counter_eq_dec : EqDecision Counter.
Proof. solve_decision. Defined.

Record CardStats := mkCardStats {
  counts : Counter -> Z;
  last_fault : option (string * Z);
  last_fault_offset : option Z;
}.
Definition Stats_new : CardStats := mkCardStats (fun _ => 0) None None.
Definition set_count (k : Counter) (v : Z) (s : CardStats) : CardStats :=
  mkCardStats (fun k' => if decide (k' = k) then v else counts s k') (last_fault s) (last_fault_offset s).

Inductive DeviceErrorCode := CodeIo | CodeInvalid | CodeNoSpace | CodeReadOnly | CodeDisconnected.
Definition errno (c : DeviceErrorCode) : Z :=
  match c with CodeIo | CodeDisconnected => 5 | CodeInvalid => 22 | CodeNoSpace => 28 | CodeReadOnly => 30 end.

(** [DeviceError]; an index out of range panics. *)
Inductive CardError := DeviceError (code : DeviceErrorCode) (message : string) | CardPanic.
Definition disconnects (e : CardError) : bool := match e with DeviceError CodeDisconnected _ => true | _ => false end.

Record PendingWrite := mkPending { pw_offset : Z; pw_data : bytes }.

(** ** The generator *)

Definition XorShift64_new (seed : Z) : Z := Z.max seed 1.
Definition xs_next (value : Z) : Z :=
  let value := Z.lxor value (Z.shiftl value 13 mod 2 ^ 64) in
  let value := Z.lxor value (Z.shiftr value 7) in
  Z.lxor value (Z.shiftl value 17 mod 2 ^ 64).

(** ** The card *)

Record SdCard := mkCard {
  sd_profile : Profile;
  sd_file : bytes;
  sd_host : list (option (string * nat));
  sd_rng : Z;
  sd_pending : list PendingWrite;
  sd_wear : list Z;
  sd_bad : list bool;
  sd_status : DeviceStatus;
  sd_generation : Z;
  sd_read_ready : Z;
  sd_write_ready : Z;
  sd_stats : CardStats;
}.
Definition set_file_bytes v c := mkCard (sd_profile c) v (sd_host c) (sd_rng c) (sd_pending c) (sd_wear c) (sd_bad c) (sd_status c) (sd_generation c) (sd_read_ready c) (sd_write_ready c) (sd_stats c).
Definition set_host v c := mkCard (sd_profile c) (sd_file c) v (sd_rng c) (sd_pending c) (sd_wear c) (sd_bad c) (sd_status c) (sd_generation c) (sd_read_ready c) (sd_write_ready c) (sd_stats c).
Definition set_rng v c := mkCard (sd_profile c) (sd_file c) (sd_host c) v (sd_pending c) (sd_wear c) (sd_bad c) (sd_status c) (sd_generation c) (sd_read_ready c) (sd_write_ready c) (sd_stats c).
Definition set_pending v c := mkCard (sd_profile c) (sd_file c) (sd_host c) (sd_rng c) v (sd_wear c) (sd_bad c) (sd_status c) (sd_generation c) (sd_read_ready c) (sd_write_ready c) (sd_stats c).
Definition set_wear v c := mkCard (sd_profile c) (sd_file c) (sd_host c) (sd_rng c) (sd_pending c) v (sd_bad c) (sd_status c) (sd_generation c) (sd_read_ready c) (sd_write_ready c) (sd_stats c).
Definition set_bad v c := mkCard (sd_profile c) (sd_file c) (sd_host c) (sd_rng c) (sd_pending c) (sd_wear c) v (sd_status c) (sd_generation c) (sd_read_ready c) (sd_write_ready c) (sd_stats c).
Definition set_status v c := mkCard (sd_profile c) (sd_file c) (sd_host c) (sd_rng c) (sd_pending c) (sd_wear c) (sd_bad c) v (sd_generation c) (sd_read_ready c) (sd_write_ready c) (sd_stats c).
Definition next_generation c := mkCard (sd_profile c) (sd_file c) (sd_host c) (sd_rng c) (sd_pending c) (sd_wear c) (sd_bad c) (sd_status c) ((sd_generation c + 1) mod 2 ^ 64) (sd_read_ready c) (sd_write_ready c) (sd_stats c).
Definition set_ready (write : bool) v c := mkCard (sd_profile c) (sd_file c) (sd_host c) (sd_rng c) (sd_pending c) (sd_wear c) (sd_bad c) (sd_status c) (sd_generation c) (if write then sd_read_ready c else v) (if write then v else sd_write_ready c) (sd_stats c).
Definition set_stats v c := mkCard (sd_profile c) (sd_file c) (sd_host c) (sd_rng c) (sd_pending c) (sd_wear c) (sd_bad c) (sd_status c) (sd_generation c) (sd_read_ready c) (sd_write_ready c) v.

Abbreviation Card := (EM SdCard CardError).
Definition modify_card (f : SdCard -> SdCard) : Card unit := fun c => (f c, inr tt).
Definition device_fail {A} (code : DeviceErrorCode) (message : string) : Card A := em_err (DeviceError code message).

Definition count (k : Counter) (c : SdCard) : Z := counts (sd_stats c) k.
Definition count_up (k : Counter) (n : Z) : Card unit :=
  modify_card (fun c => set_stats (set_count k (count k c + n) (sd_stats c)) c).
Definition put_count (k : Counter) (v : Z) : Card unit := modify_card (fun c => set_stats (set_count k v (sd_stats c)) c).
Definition record_fault (kind : string) (operation offset : Z) : Card unit :=
  modify_card (fun c => set_stats (mkCardStats (counts (sd_stats c)) (Some (kind, operation)) (Some offset)) c).
Definition set_fault_offset (offset : Z) : Card unit :=
  modify_card (fun c => set_stats (mkCardStats (counts (sd_stats c)) (last_fault (sd_stats c)) (Some offset)) c).

Definition draw : Card Z := fun c => let v := xs_next (sd_rng c) in (set_rng v c, inr v).
(** [XorShift64::below] and [XorShift64::chance]. *)
Definition below (upper : Z) : Card Z := if upper =? 0 then em_ret 0 else let^ v := draw in em_ret (v mod upper).
Definition chance (ppm : Z) : Card bool :=
  if ppm =? 0 then em_ret false else let^ v := below PROBABILITY_SCALE in em_ret (v <? ppm).

Definition torn_length (length : Z) : Card Z :=
  if length <=? 1 then em_ret 0 else let^ v := below (length - 1) in em_ret (1 + v).

(** [values.swap(i, j)]. *)
Definition swap {A} (i j : nat) (l : list A) : list A :=
  match l !! i, l !! j with Some a, Some b => <[i := b]> (<[j := a]> l) | _, _ => l end.
Fixpoint shuffle_from {A} (index : nat) (values : list A) : Card (list A) :=
  match index with
  | O => em_ret values
  | S lower => let^ other := below (Z.of_nat index + 1) in shuffle_from lower (swap index (Z.to_nat other) values)
  end.
Definition shuffle {A} (values : list A) : Card (list A) := shuffle_from (length values - 1) values.

(** ** The backing file *)

(** [write_all] at an offset inside the file. *)
Definition splice (offset : Z) (data f : bytes) : bytes :=
  take (Z.to_nat offset) f ++ data ++ drop (Z.to_nat offset + length data) f.

Definition host {A} (context : string) (broken : nat -> SdCard -> SdCard) (op : Card A) : Card A :=
  fun c => match sd_host c with
           | [] => op c
           | None :: rest => op (set_host rest c)
           | Some (kind, n) :: rest => (broken n (set_host rest c), inl (DeviceError CodeIo context))
           end.

Definition read_backing (offset length : Z) : Card bytes :=
  host "read backing file: {error}" (fun _ c => c)
    (let^ c := em_get in em_ret (slice (Z.to_nat offset) (Z.to_nat (offset + length)) (sd_file c))).

Definition persist (offset : Z) (data : bytes) : Card unit :=
  host "write backing file: {error}" (fun n c => set_file_bytes (splice offset (take n data) (sd_file c)) c)
    (modify_card (fun c => set_file_bytes (splice offset data (sd_file c)) c)) ;^
  count_up persisted_bytes (len data).

Definition sync_data (context : string) : Card unit := host context (fun _ c => c) (em_ret tt).

(** ** Timing *)

(** [Instant::checked_add]: an [Instant] holds its seconds in an [i64]. *)
Definition instant_checked_add (t d : Z) : option Z := if t + d <? 2 ^ 63 * 1000000 then Some (t + d) else None.

(** [Pacer::wait]: the next time the device is ready, and how long to sleep,
    in microseconds. *)
Definition pacer_wait (p : IoProfile) (bytes added_latency now ready : Z) : Z * Z :=
  let transfer := if bandwidth_bytes_per_second p =? 0 then 0
                  else Z.min u64_max ((bytes * 1000000 + bandwidth_bytes_per_second p - 1) / bandwidth_bytes_per_second p) in
  let iop := if iops p =? 0 then 0 else (1000000 + iops p - 1) / iops p in
  let service := Z.max transfer iop in
  let start := Z.max ready now in
  (default start (instant_checked_add start service), start - now + service + added_latency).

(** [jitter_latency_us + 1] wraps, as in the release build; a build with overflow
    checks panics when a profile sets the jitter to [u64::MAX]. *)
Definition wait_for_io (write : bool) (bytes now : Z) : Card unit :=
  let^ c := em_get in
  let p := (if write then write_io else read_io) (sd_profile c) in
  let^ jitter := below ((jitter_latency_us p + 1) mod 2 ^ 64) in
  let latency := u64_saturating_add (base_latency_us p) jitter in
  let^ spike := chance (spike_probability_ppm p) in
  let^ latency :=
    if spike then
      let width := u64_saturating_add (u64_saturating_sub (spike_latency_us_max p) (spike_latency_us_min p)) 1 in
      let^ extra := below width in
      count_up latency_spikes 1 ;^
      em_ret (u64_saturating_add latency (u64_saturating_add (spike_latency_us_min p) extra))
    else em_ret latency in
  let^ c := em_get in
  let latency := if wear_enabled (wear (sd_profile c)) && (warning_cycles (wear (sd_profile c)) <=? count max_erase_count c)
                 then u64_saturating_add latency (Z.min u64_max (base_latency_us p * 4)) else latency in
  modify_card (fun c => set_ready write (pacer_wait p bytes latency now (if write then sd_write_ready c else sd_read_ready c)).1 c).

(** ** Faults *)

Definition injected_error {A} (kind : string) (offset : Z) : Card A :=
  count_up injected_eio_operations 1 ;^
  let^ c := em_get in
  record_fault kind (count operations c) offset ;^
  device_fail CodeIo "injected {kind}".

Definition check_range (offset length : Z) : Card unit :=
  match u64_checked_add offset length with
  | None => device_fail CodeInvalid "request range overflows u64"
  | Some stop =>
      let^ c := em_get in
      if size_bytes (device (sd_profile c)) <? stop then device_fail CodeNoSpace "request ends at {end}, past device size {}"
      else em_ret tt
  end.

Definition erase_block_range (offset length : Z) (c : SdCard) : nat * nat :=
  let size := erase_block_bytes (device (sd_profile c)) in
  (Z.to_nat (offset / size), Z.to_nat ((offset + length - 1) / size)).

(** [first..=last]. *)
Definition blocks_between (first last : nat) : list nat := seq first (S last - first).

Definition touches_bad_block (offset length : Z) : Card bool :=
  if length =? 0 then em_ret false
  else
    let^ c := em_get in
    let '(first, last) := erase_block_range offset length c in
    if (last <? Datatypes.length (sd_bad c))%nat then em_ret (existsb id (slice first (S last) (sd_bad c)))
    else em_err CardPanic.

Definition wear_block (block : nat) : Card unit :=
  let^ c := em_get in
  let w := wear (sd_profile c) in
  match sd_wear c !! block, sd_bad c !! block with
  | Some worn, Some bad =>
      let n := u64_saturating_add worn (accelerated_factor w) in
      modify_card (set_wear (<[block := n]> (sd_wear c))) ;^
      put_count erase_operations (u64_saturating_add (count erase_operations c) (accelerated_factor w)) ;^
      put_count max_erase_count (Z.max (count max_erase_count c) n) ;^
      if (failure_cycles w <=? n) && negb bad then
        modify_card (set_bad (<[block := true]> (sd_bad c))) ;^ count_up bad_block_count 1
      else em_ret tt
  | _, _ => em_err CardPanic
  end.

Definition apply_wear (offset length : Z) : Card unit :=
  let^ c := em_get in
  let w := wear (sd_profile c) in
  if negb (wear_enabled w) || (length =? 0) then em_ret tt
  else
    let '(first, last) := erase_block_range offset length c in
    em_for_each wear_block (blocks_between first last) ;^
    let^ c := em_get in
    if (read_only_after_bad_blocks w <=? count bad_block_count c) && negb (read_only_after_bad_blocks w =? 0) then
      modify_card (set_status ReadOnlyDevice) ;^
      record_fault "wear_read_only" (count operations c) offset ;^
      device_fail CodeReadOnly "wear threshold made the device read-only"
    else if warning_cycles w <=? count max_erase_count c then
      let^ worn := chance (worn_eio_probability_ppm w) in
      if worn then injected_error "worn_block_eio" offset else em_ret tt
    else em_ret tt.

(** ** The cache *)

Definition pending_bytes (l : list PendingWrite) : Z := foldr (fun w n => len (pw_data w) + n) 0 l.

Fixpoint persist_all (l : list PendingWrite) : Card unit :=
  match l with
  | [] => em_ret tt
  | w :: l => persist (pw_offset w) (pw_data w) ;^ persist_all l
  end.

Definition persist_pending : Card unit :=
  let^ c := em_get in
  modify_card (set_pending []) ;^ persist_all (sd_pending c).

(** [while self.pending_bytes() > max], popping from the front; the result says
    whether anything was evicted. *)
Fixpoint evict (l : list PendingWrite) (evicted : bool) : Card bool :=
  let^ c := em_get in
  if cache_max_bytes (cache (sd_profile c)) <? pending_bytes l then
    match l with
    | [] => em_ret evicted
    | w :: rest => modify_card (set_pending rest) ;^ persist (pw_offset w) (pw_data w) ;^ evict rest true
    end
  else em_ret evicted.

Definition evict_cache : Card unit :=
  let^ c := em_get in
  let^ evicted := evict (sd_pending c) false in
  if evicted then sync_data "sync evicted cache: {error}" else em_ret tt.

(** ** Power loss *)

(** What happens to one cached write: kept for later, torn, or dropped. *)
Definition lose_write (kept : list PendingWrite) (w : PendingWrite) : Card (list PendingWrite) :=
  let^ c := em_get in
  let p := cache (sd_profile c) in
  let^ roll := below PROBABILITY_SCALE in
  if roll <? power_loss_persist_probability_ppm p then em_ret (kept ++ [w])
  else if roll <? Z.min u32_max (power_loss_persist_probability_ppm p + power_loss_torn_probability_ppm p) then
    let^ length := torn_length (len (pw_data w)) in
    (if negb (length =? 0) then persist (pw_offset w) (take (Z.to_nat length) (pw_data w)) else em_ret tt) ;^
    count_up torn_operations 1 ;^
    count_up torn_bytes length ;^
    count_up dropped_bytes (len (pw_data w) - length) ;^
    set_fault_offset (pw_offset w + length) ;^
    em_ret kept
  else
    count_up dropped_operations 1 ;^
    count_up dropped_bytes (len (pw_data w)) ;^
    em_ret kept.

Definition apply_power_loss (kind : string) : Card unit :=
  let^ c := em_get in
  let operation := count operations c in
  modify_card (set_pending []) ;^
  let^ writes := em_fold lose_write [] (sd_pending c) in
  let^ writes :=
    if (1 <? Datatypes.length writes)%nat then
      let^ reorder := chance (power_loss_reorder_probability_ppm (cache (sd_profile c))) in
      if reorder then
        let^ writes := shuffle writes in
        count_up reordered_operations (len writes) ;^ em_ret writes
      else em_ret writes
    else em_ret writes in
  persist_all writes ;^
  sync_data "sync power-loss outcome: {error}" ;^
  count_up power_losses 1 ;^
  modify_card (set_status Offline) ;^
  modify_card next_generation ;^
  let^ c := em_get in
  record_fault kind operation (default 0 (last_fault_offset (sd_stats c))).

(** ** Operations *)

Definition begin_operation (offset : Z) : Card Z :=
  let^ c := em_get in
  if decide (sd_status c = Offline) then device_fail CodeDisconnected "device is offline"
  else
    count_up operations 1 ;^
    let^ c := em_get in
    let operation := count operations c in
    let f := faults_of (sd_profile c) in
    if decide (power_loss_after_ops f = Some operation) then
      apply_power_loss "scheduled_power_loss" ;^ device_fail CodeDisconnected "scheduled power loss"
    else if decide (disappear_after_ops f = Some operation) then
      apply_power_loss "scheduled_disappearance" ;^ device_fail CodeDisconnected "scheduled device disappearance"
    else
      (if decide (read_only_after_ops f = Some operation) then
         modify_card (set_status ReadOnlyDevice) ;^ record_fault "scheduled_read_only" operation offset
       else em_ret tt) ;^
      let^ eio := chance (eio_probability_ppm f) in
      if eio then injected_error "random_eio" offset else em_ret operation.

Definition overlay (read_offset : Z) (data : bytes) (w : PendingWrite) : bytes :=
  let read_end := read_offset + len data in
  let write_end := pw_offset w + len (pw_data w) in
  let start := Z.max read_offset (pw_offset w) in
  let stop := Z.min read_end write_end in
  if stop <=? start then data
  else
    let read_start := Z.to_nat (start - read_offset) in
    let write_start := Z.to_nat (start - pw_offset w) in
    let length := Z.to_nat (stop - start) in
    take read_start data ++ slice write_start (write_start + length) (pw_data w) ++ drop (read_start + length) data.

Definition card_read (now offset length : Z) : Card bytes :=
  check_range offset length ;^
  let^ _ := begin_operation offset in
  let^ bad := touches_bad_block offset length in
  if bad then injected_error "bad_block_read" offset
  else
    wait_for_io false length now ;^
    let^ data := read_backing offset length in
    let^ c := em_get in
    let data := foldl (overlay offset) data (sd_pending c) in
    count_up read_operations 1 ;^
    count_up read_bytes length ;^
    em_ret data.

(** [data[index] ^= bit]. *)
Definition flip (index : nat) (bit : Z) (data : bytes) : bytes :=
  match data !! index with Some b => <[index := Z.lxor b (Z.shiftl 1 bit)]> data | None => data end.

Definition corrupt (operation offset : Z) (data : bytes) : Card bytes :=
  let^ c := em_get in
  let^ hit := chance (silent_corruption_probability_ppm (faults_of (sd_profile c))) in
  if hit && negb (len data =? 0) then
    let^ index := below (len data) in
    let^ bit := below 8 in
    count_up injected_corruptions 1 ;^
    record_fault "silent_corruption" operation (offset + index) ;^
    em_ret (flip (Z.to_nat index) bit data)
  else em_ret data.

(** The end of [SdCard::write]: through the cache or to the file. *)
Definition store_write (operation offset : Z) (data : bytes) (fua : bool) : Card unit :=
  let^ c := em_get in
  if cache_enabled (cache (sd_profile c)) then
    let^ through := if fua then let^ false_flush := chance (false_flush_probability_ppm (cache (sd_profile c))) in em_ret (negb false_flush)
                    else em_ret false in
    if through then
      persist_pending ;^
      persist offset data ;^
      sync_data "sync FUA write: {error}"
    else
      (if fua then count_up false_flushes 1 ;^ record_fault "false_fua" operation offset else em_ret tt) ;^
      modify_card (fun c => set_pending (sd_pending c ++ [mkPending offset data]) c) ;^
      evict_cache
  else
    persist offset data ;^
    sync_data "sync write: {error}".

Definition card_write (now offset : Z) (data : bytes) (fua : bool) : Card unit :=
  check_range offset (len data) ;^
  let^ operation := begin_operation offset in
  let^ c := em_get in
  if decide (sd_status c = ReadOnlyDevice) then device_fail CodeReadOnly "device is read-only"
  else
    let^ bad := touches_bad_block offset (len data) in
    if bad then injected_error "bad_block_write" offset
    else
      wait_for_io true (len data) now ;^
      apply_wear offset (len data) ;^
      let^ torn := chance (torn_write_probability_ppm (faults_of (sd_profile c))) in
      if torn then
        let^ n := torn_length (len data) in
        persist offset (take (Z.to_nat n) data) ;^
        sync_data "sync torn write: {error}" ;^
        count_up injected_torn_operations 1 ;^
        count_up injected_torn_bytes n ;^
        record_fault "torn_write" operation (offset + n) ;^
        device_fail CodeIo "injected torn write returned EIO"
      else
        let^ data := corrupt operation offset data in
        count_up write_operations 1 ;^
        count_up write_bytes (len data) ;^
        store_write operation offset data fua.

Definition card_flush (now : Z) : Card unit :=
  let^ operation := begin_operation 0 in
  wait_for_io true 0 now ;^
  count_up flush_operations 1 ;^
  let^ c := em_get in
  let^ false_flush := chance (false_flush_probability_ppm (cache (sd_profile c))) in
  if false_flush then
    count_up false_flushes 1 ;^ record_fault "false_flush" operation 0
  else
    persist_pending ;^
    sync_data "flush backing file: {error}".

Definition power_loss : Card unit := apply_power_loss "power_loss".
Definition detach : Card unit := apply_power_loss "device_disappeared".
Definition card_reset : Card unit := modify_card (fun c => next_generation (set_status Online c)).
Definition set_read_only (read_only : bool) : Card unit :=
  modify_card (fun c => next_generation (set_status (if read_only then ReadOnlyDevice else Online) c)).

(** [SdCard::open] over the contents of the backing file, if there is one; the
    clock is [now]. *)
Definition card_open (profile : Profile) (seed now : Z) (backing : option bytes) (host_calls : list (option (string * nat)))
    : CardError + SdCard :=
  match Profile_validate profile with
  | inl (ConfigInvalid m) => inl (DeviceError CodeInvalid m)
  | inr _ =>
      let size := size_bytes (device profile) in
      let current := default [] backing in
      if negb (len current =? 0) && negb (len current =? size) then
        inl (DeviceError CodeInvalid "backing file has {current_size} bytes; profile needs {}")
      else
        let blocks := Z.to_nat ((size + erase_block_bytes (device profile) - 1) / erase_block_bytes (device profile)) in
        inr (mkCard profile (if len current =? 0 then replicate (Z.to_nat size) 0 else current) host_calls (XorShift64_new seed) []
               (replicate blocks 0) (replicate blocks false) Online 0 now now Stats_new)
  end.
