(* ===== verification/SdCardInv.v ===== *)
(** * SdCardInv: what the cache of the emulated card hides and what it loses *)
From S2P Require Import Prelude Errors Bytes Model Effects SdProfile SdCard.

(** ** Bytes *)

Definition covers (w : PendingWrite) (i : nat) : bool := (pw_offset w <=? Z.of_nat i) && (Z.of_nat i <? pw_offset w + len (pw_data w)).
Definition apply_write (f : bytes) (w : PendingWrite) : bytes := splice (pw_offset w) (pw_data w) f.
Definition inside_of (size : Z) (w : PendingWrite) : Prop := 0 <= pw_offset w /\ pw_offset w + len (pw_data w) <= size.

(** What a read returns: the file under the cached writes. *)
Definition view (c : SdCard) : bytes := foldl apply_write (sd_file c) (sd_pending c).

Lemma lookup_apply f w i : inside_of (len f) w ->
  apply_write f w !! i = if covers w i then pw_data w !! (i - Z.to_nat (pw_offset w))%nat else f !! i.
Proof.
  intros [Ho Hl]. unfold apply_write, splice, covers. destruct (_ && _) eqn:E.
  - apply andb_true_iff in E as [E1%Z.leb_le E2%Z.ltb_lt]. rewrite lookup_app_r by (rewrite length_take; zlia).
    rewrite length_take, lookup_app_l by zlia. f_equal. zlia.
  - destruct (decide (i < Z.to_nat (pw_offset w))%nat) as [Hi|Hi].
    + rewrite lookup_app_l by (rewrite length_take; zlia). by rewrite lookup_take_lt.
    + apply andb_false_iff in E as [E%Z.leb_gt|E%Z.ltb_ge]; [lia|].
      rewrite lookup_app_r by (rewrite length_take; zlia). rewrite length_take, lookup_app_r by zlia.
      rewrite lookup_drop. f_equal. zlia.
Qed.

Lemma length_apply f w : inside_of (len f) w -> length (apply_write f w) = length f.
Proof. intros [Ho Hl]. unfold apply_write, splice. rewrite !length_app, length_take, length_drop. zlia. Qed.

Lemma length_apply_all ws : forall f, Forall (inside_of (len f)) ws -> length (foldl apply_write f ws) = length f.
Proof.
  induction ws as [|w ws IH]; intros f Hw; [done|]. apply Forall_cons in Hw as [Hw Hws]. cbn. rewrite IH; [by apply length_apply|].
  unfold zlen in *. by rewrite length_apply.
Qed.

Lemma inside_same (f f' : bytes) : length f = length f' -> forall w, inside_of (len f) w -> inside_of (len f') w.
Proof. unfold inside_of, zlen. by intros ->. Qed.

(** Two files under the same writes differ where the files differ. *)
Lemma apply_all_agree ws i : forall f g, length f = length g -> Forall (inside_of (len f)) ws ->
  foldl apply_write f ws !! i = foldl apply_write g ws !! i
  \/ foldl apply_write f ws !! i = f !! i /\ foldl apply_write g ws !! i = g !! i.
Proof.
  induction ws as [|w ws IH]; intros f g Hl Hw; [by right|]. apply Forall_cons in Hw as [Hw Hws]. cbn.
  assert (Hwg : inside_of (len g) w) by (by eapply inside_same).
  destruct (IH (apply_write f w) (apply_write g w)) as [E|[E1 E2]].
  - by rewrite !length_apply.
  - unfold zlen in *. by rewrite length_apply.
  - by left.
  - rewrite !lookup_apply in E1, E2 by done. destruct (covers w i); [left; congruence|right; done].
Qed.

(** A byte of the result is the file's or one of a write that covers it. *)
Definition from_write (ws : list PendingWrite) (i : nat) (b : Z) : Prop :=
  exists w, w ∈ ws /\ covers w i = true /\ pw_data w !! (i - Z.to_nat (pw_offset w))%nat = Some b.

Lemma apply_all_source ws i b : forall f, Forall (inside_of (len f)) ws ->
  foldl apply_write f ws !! i = Some b -> f !! i = Some b \/ from_write ws i b.
Proof.
  induction ws as [|w ws IH]; intros f Hw E; [by left|]. apply Forall_cons in Hw as [Hw Hws]. cbn in E.
  apply IH in E as [E|(w' & Hin & Hc & Hb)]; [| |unfold zlen in *; by rewrite length_apply].
  - rewrite lookup_apply in E by done. destruct (covers w i) eqn:Ec; [|by left]. right. exists w. split; [left|done].
  - right. exists w'. split; [by right|done].
Qed.

(** Reading through the cache. *)
Lemma lookup_slice {A} a b (l : list A) k : (k < b - a)%nat -> slice a b l !! k = l !! (a + k)%nat.
Proof. intros Hk. unfold slice. by rewrite lookup_take_lt, lookup_drop. Qed.

Lemma overlay_slice f w offset n :
  inside_of (len f) w -> 0 <= offset -> 0 <= n -> offset + n <= len f ->
  overlay offset (slice (Z.to_nat offset) (Z.to_nat (offset + n)) f) w = slice (Z.to_nat offset) (Z.to_nat (offset + n)) (apply_write f w).
Proof.
  intros Hw Ho Hn Hr. pose proof (length_apply f w Hw) as Hla.
  assert (Hls : forall g : bytes, length g = length f -> length (slice (Z.to_nat offset) (Z.to_nat (offset + n)) g) = Z.to_nat n).
  { intros g Hg. unfold slice. rewrite length_take, length_drop. zlia. }
  set (s := slice (Z.to_nat offset) (Z.to_nat (offset + n)) f).
  assert (Hs : length s = Z.to_nat n) by (by apply Hls). unfold overlay.
  assert (Hzs : len s = n) by (unfold zlen; lia). rewrite Hzs.
  assert (Hwd : 0 <= pw_offset w) by apply Hw.
  destruct (_ <=? _) eqn:E.
  - apply Z.leb_le in E. apply list_eq. intros k. destruct (decide (k < Z.to_nat n)%nat) as [Hk|Hk].
    + unfold s. rewrite !lookup_slice by lia. rewrite lookup_apply by done.
      assert (Hc : covers w (Z.to_nat offset + k) = false) by (unfold covers; apply andb_false_iff; rewrite Z.leb_gt, Z.ltb_ge; lia). by rewrite Hc.
    + rewrite !lookup_ge_None_2; [done|rewrite Hls; lia|lia].
  - apply Z.leb_gt in E. remember (Z.max offset (pw_offset w)) as start eqn:Estart. remember (Z.min (offset + n) (pw_offset w + len (pw_data w))) as stop eqn:Estop.
    assert (Hmid : length (slice (Z.to_nat (start - pw_offset w)) (Z.to_nat (start - pw_offset w) + Z.to_nat (stop - start)) (pw_data w)) = Z.to_nat (stop - start)).
    { unfold slice. rewrite length_take, length_drop. zlia. }
    apply list_eq. intros k. destruct (decide (k < Z.to_nat n)%nat) as [Hk|Hk].
    + rewrite lookup_slice by lia. rewrite lookup_apply by done.
      destruct (decide (k < Z.to_nat (start - offset))%nat) as [H1|H1].
      * rewrite lookup_app_l by (rewrite length_take; lia). rewrite lookup_take_lt by lia. unfold s. rewrite lookup_slice by lia.
        assert (Hc : covers w (Z.to_nat offset + k) = false) by (unfold covers; apply andb_false_iff; rewrite Z.leb_gt, Z.ltb_ge; lia). by rewrite Hc.
      * rewrite lookup_app_r by (rewrite length_take; lia). rewrite length_take.
        destruct (decide (k < Z.to_nat (stop - offset))%nat) as [H2|H2].
        -- rewrite lookup_app_l by lia. rewrite lookup_slice by lia.
           assert (Hc : covers w (Z.to_nat offset + k) = true) by (unfold covers; apply andb_true_iff; rewrite Z.leb_le, Z.ltb_lt; lia).
           rewrite Hc. f_equal. lia.
        -- rewrite lookup_app_r by lia. rewrite Hmid, Hs, lookup_drop. unfold s. rewrite lookup_slice by lia.
           assert (Hc : covers w (Z.to_nat offset + k) = false) by (unfold covers; apply andb_false_iff; rewrite Z.leb_gt, Z.ltb_ge; lia).
           rewrite Hc. f_equal. lia.
    + rewrite !lookup_ge_None_2; [done|rewrite Hls; lia|]. rewrite !length_app, length_take, Hmid, length_drop. lia.
Qed.

Lemma overlay_all ws offset n : forall f,
  Forall (inside_of (len f)) ws -> 0 <= offset -> 0 <= n -> offset + n <= len f ->
  foldl (overlay offset) (slice (Z.to_nat offset) (Z.to_nat (offset + n)) f) ws
  = slice (Z.to_nat offset) (Z.to_nat (offset + n)) (foldl apply_write f ws).
Proof.
  induction ws as [|w ws IH]; intros f Hw Ho Hn Hr; [done|]. apply Forall_cons in Hw as [Hw Hws]. cbn. rewrite overlay_slice by done.
  apply IH; [|done|done|]; unfold zlen in *; by rewrite length_apply.
Qed.

(** ** Operations that leave the data alone *)

Record still (c c' : SdCard) : Prop := {
  st_profile : sd_profile c' = sd_profile c;
  st_file : sd_file c' = sd_file c;
  st_host : sd_host c' = sd_host c;
  st_pending : sd_pending c' = sd_pending c;
  st_wear : length (sd_wear c') = length (sd_wear c);
  st_bad : length (sd_bad c') = length (sd_bad c);
}.
Definition still_op {A} (m : Card A) : Prop := forall c c' r, m c = (c', r) -> still c c'.

Lemma still_refl c : still c c.
Proof. by constructor. Qed.
Lemma still_trans a b c : still a b -> still b c -> still a c.
Proof. intros [] []. constructor; congruence. Qed.
Lemma still_bind {A B} (m : Card A) (k : A -> Card B) : still_op m -> (forall a, still_op (k a)) -> still_op (em_bind m k).
Proof.
  intros Hm Hk c c' r E. unfold em_bind in E. destruct (m c) as [c1 [e|a]] eqn:E1; [injection E as <- <-; by eapply Hm|].
  eapply still_trans; [by eapply Hm|by eapply Hk].
Qed.
Lemma still_id {A} (m : Card A) : (forall c, (m c).1 = c) -> still_op m.
Proof. intros Hi c c' r E. specialize (Hi c). rewrite E in Hi. cbn in Hi. subst. apply still_refl. Qed.
Lemma still_modify f : (forall c, still c (f c)) -> still_op (modify_card f).
Proof. intros Hf c c' r [= <- _]. apply Hf. Qed.

Lemma still_for_each {A} (f : A -> Card unit) l : (forall a, still_op (f a)) -> still_op (em_for_each f l).
Proof. intros Hf. induction l as [|a l IH]; cbn; [by apply still_id|]. apply still_bind; auto. Qed.

Lemma still_count k n : still_op (count_up k n).
Proof. apply still_modify. by intros c. Qed.
Lemma still_put k v : still_op (put_count k v).
Proof. apply still_modify. by intros c. Qed.
Lemma still_fault kind n o : still_op (record_fault kind n o).
Proof. apply still_modify. by intros c. Qed.
Lemma still_fault_offset o : still_op (set_fault_offset o).
Proof. apply still_modify. by intros c. Qed.
Lemma still_status v : still_op (modify_card (set_status v)).
Proof. apply still_modify. by intros c. Qed.
Lemma still_draw : still_op draw.
Proof. by intros c c' r [= <- _]. Qed.
Lemma still_below n : still_op (below n).
Proof. unfold below. destruct (n =? 0); [by apply still_id|]. apply still_bind; [apply still_draw|intros; by apply still_id]. Qed.
Lemma still_chance n : still_op (chance n).
Proof. unfold chance. destruct (n =? 0); [by apply still_id|]. apply still_bind; [apply still_below|intros; by apply still_id]. Qed.
Lemma still_torn n : still_op (torn_length n).
Proof. unfold torn_length. destruct (n <=? 1); [by apply still_id|]. apply still_bind; [apply still_below|intros; by apply still_id]. Qed.

Ltac still_tac :=
  repeat first [ apply still_count | apply still_put | apply still_fault | apply still_fault_offset | apply still_status | apply still_below
               | apply still_chance | apply still_torn | by apply still_id | apply still_bind; [|intros ?]
               | match goal with |- still_op (if ?x then _ else _) => destruct x end
               | match goal with |- still_op (match ?x with pair _ _ => _ end) => destruct x end ].

Lemma still_injected {A} kind o : still_op (@injected_error A kind o).
Proof. unfold injected_error, device_fail. still_tac. Qed.
Lemma still_range o n : still_op (check_range o n).
Proof. unfold check_range, device_fail. destruct (u64_checked_add o n); still_tac. Qed.
Lemma still_touches o n : still_op (touches_bad_block o n).
Proof. unfold touches_bad_block. still_tac. Qed.
Lemma still_wait w n now : still_op (wait_for_io w n now).
Proof. unfold wait_for_io. still_tac. apply still_modify. by intros c. Qed.
Lemma still_wear_block b : still_op (wear_block b).
Proof.
  intros c c' r. unfold wear_block, em_bind, em_get, put_count, count_up, modify_card, em_ret, em_err.
  destruct (sd_wear c !! b) as [worn|]; [|by intros [= <- _]]. destruct (sd_bad c !! b) as [bad|]; [|by intros [= <- _]].
  destruct (_ && _); intros [= <- _]; constructor; cbn; rewrite ?length_insert; reflexivity.
Qed.
Lemma still_apply_wear o n : still_op (apply_wear o n).
Proof.
  unfold apply_wear. apply still_bind; [by apply still_id|intros c]. destruct (_ || _); [by apply still_id|].
  destruct (erase_block_range o n c) as [a b]. apply still_bind; [apply still_for_each; intros; apply still_wear_block|intros _].
  apply still_bind; [by apply still_id|intros c1]. destruct (_ && _); [unfold device_fail; still_tac|]. destruct (_ <=? _); [|by apply still_id].
  apply still_bind; [apply still_chance|intros hit]. destruct hit; [apply still_injected|by apply still_id].
Qed.
Lemma still_corrupt op o data : still_op (corrupt op o data).
Proof. unfold corrupt. still_tac. Qed.

(** ** Operations that move data *)

(** [c'] has the file [f] and the cached writes [ps], and the shape of [c]. *)
Record moved (c c' : SdCard) (f : bytes) (ps : list PendingWrite) : Prop := {
  mv_profile : sd_profile c' = sd_profile c;
  mv_file : sd_file c' = f;
  mv_host : sd_host c' = sd_host c;
  mv_pending : sd_pending c' = ps;
  mv_wear : length (sd_wear c') = length (sd_wear c);
  mv_bad : length (sd_bad c') = length (sd_bad c);
}.
Lemma still_moved c c' : still c c' <-> moved c c' (sd_file c) (sd_pending c).
Proof. split; intros []; by constructor. Qed.
Lemma moved_still c c1 c2 f ps : moved c c1 f ps -> still c1 c2 -> moved c c2 f ps.
Proof. intros [] []. constructor; congruence. Qed.
Lemma still_then c c1 c2 f ps : still c c1 -> moved c1 c2 f ps -> moved c c2 f ps.
Proof. intros [] []. constructor; congruence. Qed.
Lemma moved_trans c c1 c2 f ps g qs : moved c c1 f ps -> moved c1 c2 g qs -> moved c c2 g qs.
Proof. intros [] []. constructor; congruence. Qed.

Lemma sync_run context c c' r : sd_host c = [] -> sync_data context c = (c', r) -> r = inr tt /\ c' = c.
Proof. intros Hh. unfold sync_data, host, em_ret. rewrite Hh. by intros [= <- <-]. Qed.

Lemma persist_run o d c c' r : sd_host c = [] -> persist o d c = (c', r) -> r = inr tt /\ moved c c' (splice o d (sd_file c)) (sd_pending c).
Proof. intros Hh. unfold persist, em_bind, host, count_up, modify_card. rewrite Hh. intros [= <- <-]. split; [done|by constructor]. Qed.

Lemma persist_all_run ws : forall c c' r, sd_host c = [] -> persist_all ws c = (c', r) ->
  r = inr tt /\ moved c c' (foldl apply_write (sd_file c) ws) (sd_pending c).
Proof.
  induction ws as [|w ws IH]; intros c c' r Hh E; cbn in E; [injection E as <- <-; split; [done|by constructor]|].
  unfold em_bind in E. destruct (persist _ _ c) as [c1 r1] eqn:E1. apply persist_run in E1 as [-> M1]; [|done].
  apply IH in E as [-> M2]; [|by rewrite (mv_host _ _ _ _ M1)]. split; [done|]. rewrite (mv_file _ _ _ _ M1), (mv_pending _ _ _ _ M1) in M2.
  by eapply moved_trans.
Qed.

Lemma persist_pending_run c c' r : sd_host c = [] -> persist_pending c = (c', r) -> r = inr tt /\ moved c c' (view c) [].
Proof.
  intros Hh E. unfold persist_pending, em_bind, em_get, modify_card in E. apply persist_all_run in E as [-> M]; [|done]. split; [done|]. destruct M. by constructor.
Qed.

Lemma pending_bytes_app a b : pending_bytes (a ++ b) = pending_bytes a + pending_bytes b.
Proof. unfold pending_bytes. induction a as [|w a IH]; cbn [foldr app]; lia. Qed.

Lemma evict_run l : forall ev c c' r, sd_host c = [] -> sd_pending c = l -> 0 <= cache_max_bytes (cache (sd_profile c)) ->
  evict l ev c = (c', r) ->
  exists b gone rest, r = inr b /\ l = gone ++ rest /\ moved c c' (foldl apply_write (sd_file c) gone) rest
    /\ pending_bytes rest <= cache_max_bytes (cache (sd_profile c)).
Proof.
  induction l as [|w l IH]; intros ev c c' r Hh Hp Hm E; cbn [evict] in E; unfold em_bind, em_get in E.
  - destruct (_ <? _) eqn:El; [apply Z.ltb_lt in El; cbn in El; lia|]. injection E as <- <-. exists ev, [], [].
    split_and!; [done|done|by constructor|cbn; lia].
  - destruct (_ <? _) eqn:El.
    + unfold modify_card in E. destruct (persist _ _ _) as [c1 r1] eqn:E1. apply persist_run in E1 as [-> M1]; [|done]. cbn in M1.
      apply IH in E as (b & gone & rest & -> & -> & M2 & Hb).
      * exists b, (w :: gone), rest. split_and!; [done|done| |].
        -- assert (M0 : moved c c1 (apply_write (sd_file c) w) (gone ++ rest)) by (destruct M1; by constructor).
           cbn. rewrite (mv_file _ _ _ _ M0) in M2. by eapply moved_trans.
        -- by rewrite (mv_profile _ _ _ _ M1) in Hb.
      * by rewrite (mv_host _ _ _ _ M1).
      * by rewrite (mv_pending _ _ _ _ M1).
      * by rewrite (mv_profile _ _ _ _ M1).
    + injection E as <- <-. exists ev, [], (w :: l). apply Z.ltb_ge in El. split_and!; [done|done|by constructor|done].
Qed.

Lemma evict_cache_run c c' r : sd_host c = [] -> 0 <= cache_max_bytes (cache (sd_profile c)) -> evict_cache c = (c', r) ->
  exists gone rest, r = inr tt /\ sd_pending c = gone ++ rest /\ moved c c' (foldl apply_write (sd_file c) gone) rest
    /\ pending_bytes rest <= cache_max_bytes (cache (sd_profile c)).
Proof.
  intros Hh Hm E. unfold evict_cache, em_bind, em_get in E. destruct (evict _ _ c) as [c1 r1] eqn:E1.
  apply evict_run in E1 as (b & gone & rest & -> & Hp & M & Hb); [|done..]. exists gone, rest.
  assert (Hc : r = inr tt /\ c' = c1).
  { destruct b; [apply sync_run in E; [done|by rewrite (mv_host _ _ _ _ M)]|by injection E as <- <-]. }
  destruct Hc as [-> ->]. done.
Qed.

(** ** Power loss *)

(** Every byte is the old file's or one of a cached write. *)
Definition crash_image (f : bytes) (ws : list PendingWrite) (f' : bytes) : Prop :=
  length f' = length f /\ forall i b, f' !! i = Some b -> f !! i = Some b \/ from_write ws i b.

Lemma crash_image_refl f ws : crash_image f ws f.
Proof. split; [done|]. intros i b E. by left. Qed.
Lemma from_write_sub ws ws' i b : (forall w, w ∈ ws -> w ∈ ws') -> from_write ws i b -> from_write ws' i b.
Proof. intros Hs (w & Hw & Hrest). exists w. auto. Qed.
Lemma crash_image_trans f ws g h : crash_image f ws g -> crash_image g ws h -> crash_image f ws h.
Proof. intros [L1 H1] [L2 H2]. split; [congruence|]. intros i b E. apply H2 in E as [E|E]; [by apply H1|by right]. Qed.

Lemma crash_prefix f ws w k : inside_of (len f) w -> w ∈ ws -> crash_image f ws (splice (pw_offset w) (take k (pw_data w)) f).
Proof.
  intros Hw Hin. set (w' := mkPending (pw_offset w) (take k (pw_data w))).
  assert (Hw' : inside_of (len f) w') by (destruct Hw; split; [done|]; cbn; unfold zlen in *; rewrite length_take; lia).
  change (splice _ _ f) with (apply_write f w'). split; [by apply length_apply|]. intros i b. rewrite lookup_apply by done.
  destruct (covers w' i) eqn:Ec; [|by left]. intros E. right. exists w. split; [done|]. unfold covers, w' in *. cbn in *.
  apply andb_true_iff in Ec as [Ec1%Z.leb_le Ec2%Z.ltb_lt]. unfold zlen in Ec2. rewrite length_take in Ec2.
  split; [apply andb_true_iff; rewrite Z.leb_le, Z.ltb_lt; zlia|]. rewrite lookup_take_lt in E by lia. done.
Qed.

Lemma crash_all f ws ws' : Forall (inside_of (len f)) ws -> (forall w, w ∈ ws -> w ∈ ws') -> crash_image f ws' (foldl apply_write f ws).
Proof.
  intros Hw Hs. split; [by apply length_apply_all|]. intros i b E. apply apply_all_source in E as [E|E]; [by left| |done].
  right. by eapply from_write_sub.
Qed.

(** A step that cannot fail and leaves the data alone. *)
Definition calm {A} (m : Card A) : Prop := still_op m /\ forall c, exists a, (m c).2 = inr a.

Lemma calm_run {A} (m : Card A) c c' r : calm m -> m c = (c', r) -> still c c' /\ exists a, r = inr a.
Proof. intros [Hs Hr] E. split; [by eapply Hs|]. destruct (Hr c) as [a Ha]. rewrite E in Ha. by exists a. Qed.
Lemma calm_ret {A} (a : A) : calm (em_ret a).
Proof. split; [by apply still_id|]. intros c. by exists a. Qed.
Lemma calm_get : calm em_get.
Proof. split; [by apply still_id|]. intros c. by exists c. Qed.
Lemma calm_bind {A B} (m : Card A) (k : A -> Card B) : calm m -> (forall a, calm (k a)) -> calm (em_bind m k).
Proof.
  intros [Hm Hr] Hk. split; [apply still_bind; [done|intros a; apply Hk]|]. intros c. unfold em_bind.
  destruct (Hr c) as [a Ha]. destruct (m c) as [c1 [e|a1]]; [done|]. apply (Hk a1).
Qed.
Lemma calm_modify f : (forall c, still c (f c)) -> calm (modify_card f).
Proof. intros Hf. split; [by apply still_modify|]. intros c. by exists tt. Qed.
Lemma calm_draw : calm draw.
Proof. split; [apply still_draw|]. intros c. by eexists. Qed.

Ltac calm_tac :=
  repeat first [ apply calm_ret | apply calm_get | apply calm_draw | apply calm_bind; [|intros ?]
               | apply calm_modify; intros ?; by constructor
               | match goal with |- calm (if ?x then _ else _) => destruct x end
               | match goal with |- calm (match ?x with pair _ _ => _ end) => destruct x end
               | progress unfold count_up, put_count, record_fault, set_fault_offset, below, chance, torn_length ].

Lemma calm_below n : calm (below n).
Proof. calm_tac. Qed.
Lemma calm_chance n : calm (chance n).
Proof. calm_tac. Qed.
Lemma calm_torn n : calm (torn_length n).
Proof. calm_tac. Qed.
Lemma calm_count k n : calm (count_up k n).
Proof. calm_tac. Qed.
Lemma calm_fault kind n o : calm (record_fault kind n o).
Proof. calm_tac. Qed.
Lemma calm_wait w n now : calm (wait_for_io w n now).
Proof. unfold wait_for_io. calm_tac. Qed.
Lemma calm_corrupt op o data : calm (corrupt op o data).
Proof. unfold corrupt. calm_tac. Qed.

Lemma chance_zero c : chance 0 c = (c, inr false).
Proof. done. Qed.

Lemma elem_of_swap {A} i j (l : list A) x : x ∈ swap i j l -> x ∈ l.
Proof.
  unfold swap. destruct (l !! i) as [a|] eqn:Ei; [|done]. destruct (l !! j) as [b|] eqn:Ej; [|done].
  intros [k Hk]%list_elem_of_lookup. apply list_lookup_insert_Some in Hk as [(-> & -> & _)|(_ & Hk)].
  - by eapply list_elem_of_lookup_2.
  - apply list_lookup_insert_Some in Hk as [(-> & -> & _)|(_ & Hk)]; by eapply list_elem_of_lookup_2.
Qed.

Lemma calm_shuffle {A} (l : list A) : calm (shuffle l).
Proof.
  unfold shuffle. generalize (length l - 1)%nat as n. intros n. revert l. induction n as [|n IH]; intros l; cbn [shuffle_from]; [apply calm_ret|].
  apply calm_bind; [apply calm_below|intros k; apply IH].
Qed.

Lemma shuffle_elements {A} (l l' : list A) c c' : shuffle l c = (c', inr l') -> forall x, x ∈ l' -> x ∈ l.
Proof.
  unfold shuffle. generalize (length l - 1)%nat as n. intros n. revert l c. induction n as [|n IH]; intros l c E x Hx; cbn [shuffle_from] in E.
  - by injection E as <- <-.
  - apply em_bind_inr in E as (k & c1 & _ & E). eapply IH in E; [|exact Hx]. by eapply elem_of_swap.
Qed.

(** Run the first step of [E] into [c1] and [r1]. *)
Ltac next E c1 r1 E1 :=
  unfold em_bind at 1 in E; match type of E with match ?x with _ => _ end = _ => destruct x as [c1 r1] eqn:E1 end.

Lemma lose_write_run ws kept w c c' r :
  sd_host c = [] -> inside_of (len (sd_file c)) w -> w ∈ ws -> lose_write kept w c = (c', r) ->
  exists kept' f', r = inr kept' /\ (kept' = kept \/ kept' = kept ++ [w]) /\ moved c c' f' (sd_pending c) /\ crash_image (sd_file c) ws f'.
Proof.
  intros Hh Hw Hin E. unfold lose_write in E. unfold em_bind at 1 in E. cbn [em_get] in E. unfold em_bind at 1 in E.
  destruct (below _ c) as [c1 r1] eqn:E1. apply (calm_run _ _ _ _ (calm_below _)) in E1 as [S1 [roll ->]].
  assert (Hh1 : sd_host c1 = []) by (by rewrite (st_host _ _ S1)).
  destruct (_ <? _).
  { injection E as <- <-. exists (kept ++ [w]), (sd_file c). split_and!; [done|by right|by apply still_moved|apply crash_image_refl]. }
  destruct (_ <? _).
  - unfold em_bind at 1 in E. destruct (torn_length _ c1) as [c2 r2] eqn:E2. apply (calm_run _ _ _ _ (calm_torn _)) in E2 as [S2 [n ->]].
    pose proof (still_trans _ _ _ S1 S2) as S12. next E c3 r3 E3.
    assert (M3 : exists f', r3 = inr tt /\ moved c c3 f' (sd_pending c) /\ crash_image (sd_file c) ws f').
    { destruct (negb _).
      - apply persist_run in E3 as [-> M]; [|by rewrite (st_host _ _ S12)]. rewrite (st_file _ _ S12), (st_pending _ _ S12) in M.
        eexists. split_and!; [done|by eapply still_then|by apply crash_prefix].
      - injection E3 as <- <-. exists (sd_file c). split_and!; [done|by apply still_moved|apply crash_image_refl]. }
    destruct M3 as (f' & -> & M3 & C3). exists kept, f'.
    assert (Hc : calm (count_up torn_operations 1 ;^ count_up torn_bytes n ;^ count_up dropped_bytes (len (pw_data w) - n) ;^
                       set_fault_offset (pw_offset w + n) ;^ em_ret kept)) by calm_tac.
    apply (calm_run _ _ _ _ Hc) in E as Hs. destruct Hs as [Hs _]. injection E as _ <-. split_and!; [done|by left|by eapply moved_still|done].
  - assert (Hc : calm (count_up dropped_operations 1 ;^ count_up dropped_bytes (len (pw_data w)) ;^ em_ret kept)) by calm_tac.
    apply (calm_run _ _ _ _ Hc) in E as Hs. destruct Hs as [Hs _]. injection E as _ <-. exists kept, (sd_file c).
    split_and!; [done|by left|apply still_moved; by eapply still_trans|apply crash_image_refl].
Qed.

Lemma lose_writes_run ws l : forall kept c c' r,
  sd_host c = [] -> Forall (inside_of (len (sd_file c))) l -> (forall w, w ∈ l -> w ∈ ws) -> em_fold lose_write kept l c = (c', r) ->
  exists kept' f', r = inr kept' /\ (forall w, w ∈ kept' -> w ∈ kept \/ w ∈ l) /\ moved c c' f' (sd_pending c) /\ crash_image (sd_file c) ws f'.
Proof.
  induction l as [|w l IH]; intros kept c c' r Hh Hw Hs E; cbn [em_fold] in E.
  - injection E as <- <-. exists kept, (sd_file c). split_and!; [done|by left|by constructor|apply crash_image_refl].
  - apply Forall_cons in Hw as [Hw Hws]. unfold em_bind in E. destruct (lose_write kept w c) as [c1 r1] eqn:E1.
    apply (lose_write_run ws) in E1 as (k1 & f1 & -> & Hk & M1 & C1); [|done|done|apply Hs; left].
    assert (Hl : len (sd_file c1) = len (sd_file c)) by (rewrite (mv_file _ _ _ _ M1); unfold zlen; by rewrite (proj1 C1)).
    apply IH in E as (k2 & f2 & -> & Hk2 & M2 & C2); [|by rewrite (mv_host _ _ _ _ M1)|by rewrite Hl|intros v Hv; apply Hs; by right].
    exists k2, f2. rewrite (mv_file _ _ _ _ M1) in C2. rewrite (mv_pending _ _ _ _ M1) in M2.
    split_and!; [done| |by eapply moved_trans|by eapply crash_image_trans].
    intros v [Hv|Hv]%Hk2; [|right; by right]. destruct Hk as [->| ->]; [by left|].
    apply elem_of_app in Hv as [Hv|Hv%list_elem_of_singleton]; [by left|right; subst; left].
Qed.

(** After a power loss: offline, nothing cached, and a file made of the old one
    and of what was cached. *)
Definition power_cut (c c' : SdCard) : Prop :=
  exists f', moved c c' f' [] /\ crash_image (sd_file c) (sd_pending c) f' /\ sd_status c' = Offline.

Lemma reorder_run ppm (l : list PendingWrite) c c' r :
  (if (1 <? length l)%nat then
      let^ reorder := chance ppm in
      if reorder then let^ l' := shuffle l in count_up reordered_operations (len l') ;^ em_ret l' else em_ret l
    else em_ret l) c = (c', r) ->
  exists l', r = inr l' /\ still c c' /\ forall w, w ∈ l' -> w ∈ l.
Proof.
  destruct (_ <? _)%nat; [|intros [= <- <-]; exists l; by split_and!; [|apply still_refl|]].
  intros E. unfold em_bind at 1 in E. destruct (chance ppm c) as [c1 r1] eqn:E1. apply (calm_run _ _ _ _ (calm_chance _)) in E1 as [S1 [b ->]].
  destruct b; [|injection E as <- <-; by exists l]. unfold em_bind at 1 in E. destruct (shuffle l c1) as [c2 r2] eqn:E2.
  apply (calm_run _ _ _ _ (calm_shuffle l)) in E2 as Hs. destruct Hs as [S2 [l' ->]]. exists l'.
  assert (Hc : calm (count_up reordered_operations (len l') ;^ em_ret l')) by calm_tac.
  apply (calm_run _ _ _ _ Hc) in E as Hs. destruct Hs as [S3 _]. injection E as _ <-.
  split_and!; [done|by eauto using still_trans|by eapply shuffle_elements].
Qed.

Lemma apply_power_loss_run kind c c' r :
  sd_host c = [] -> Forall (inside_of (len (sd_file c))) (sd_pending c) -> apply_power_loss kind c = (c', r) -> r = inr tt /\ power_cut c c'.
Proof.
  intros Hh Hw E. unfold apply_power_loss in E. unfold em_bind at 1 in E. cbn [em_get] in E. unfold em_bind at 1, modify_card at 1 in E.
  unfold em_bind at 1 in E. destruct (em_fold _ _ _ _) as [c1 r1] eqn:E1.
  apply (lose_writes_run (sd_pending c)) in E1 as (kept & f1 & -> & Hk & M1 & C1); [|done..]. cbn in M1, C1.
  next E c2 r2 E2.
  apply reorder_run in E2 as (l' & -> & S2 & Hl'). unfold em_bind at 1 in E. destruct (persist_all l' c2) as [c3 r3] eqn:E3.
  assert (M2 : moved (set_pending [] c) c2 f1 []) by (by eapply moved_still).
  apply persist_all_run in E3 as [-> M3]; [|by rewrite (mv_host _ _ _ _ M2)].
  rewrite (mv_file _ _ _ _ M2), (mv_pending _ _ _ _ M2) in M3. unfold em_bind at 1 in E. destruct (sync_data _ c3) as [c4 r4] eqn:E4.
  apply sync_run in E4 as [-> ->]; [|rewrite (mv_host _ _ _ _ M3); by rewrite (mv_host _ _ _ _ M2)].
  injection E as <- <-. split; [done|]. exists (foldl apply_write f1 l').
  pose proof (moved_trans _ _ _ _ _ _ _ M2 M3) as M. split_and!; [destruct M; by constructor| |done].
  eapply crash_image_trans; [exact C1|]. apply crash_all.
  - unfold zlen. rewrite (proj1 C1). apply Forall_forall. intros w Hin. apply Hl', Hk in Hin as [Hin|Hin]; [by apply not_elem_of_nil in Hin|].
    by rewrite Forall_forall in Hw; apply Hw.
  - intros w Hin. apply Hl', Hk in Hin as [Hin|Hin]; [by apply not_elem_of_nil in Hin|done].
Qed.
