(* ===== verification/SdCardRun.v ===== *)
(** * SdCardRun: the operations of the emulated card *)
From S2P Require Import Prelude Errors Bytes Model Effects SdProfile SdCard SdCardInv.

(** ** The state of a card *)

Definition erase_blocks (p : Profile) : nat :=
  Z.to_nat ((size_bytes (device p) + erase_block_bytes (device p) - 1) / erase_block_bytes (device p)).

Section Run.
(** What the cache holds at most: its limit, or what it held before when a
    failed eviction left it fuller. *)
Context (most : Z).

(** The state between operations, over a backing file whose calls succeed. *)
Record card_ok (c : SdCard) : Prop := {
  ok_host : sd_host c = [];
  ok_size : len (sd_file c) = size_bytes (device (sd_profile c));
  ok_erase : 0 < erase_block_bytes (device (sd_profile c));
  ok_wear : length (sd_wear c) = erase_blocks (sd_profile c);
  ok_bad : length (sd_bad c) = erase_blocks (sd_profile c);
  ok_pending : Forall (inside_of (len (sd_file c))) (sd_pending c);
  ok_max : 0 <= cache_max_bytes (cache (sd_profile c));
  ok_most : cache_max_bytes (cache (sd_profile c)) <= most;
  ok_bound : pending_bytes (sd_pending c) <= most;
  ok_cache : cache_enabled (cache (sd_profile c)) = false -> sd_pending c = [];
}.

Lemma still_ok c c' : card_ok c -> still c c' -> card_ok c'.
Proof. intros [] [Hp Hf Hh Hq Hw Hb]. constructor; rewrite ?Hp, ?Hf, ?Hh, ?Hq, ?Hw, ?Hb; done. Qed.
Lemma still_view c c' : still c c' -> view c' = view c.
Proof. intros [Hp Hf Hh Hq Hw Hb]. unfold view. by rewrite Hf, Hq. Qed.

(** A move that keeps the length of the file and shortens the cache. *)
Lemma moved_ok c c' f ps : card_ok c -> moved c c' f ps -> length f = length (sd_file c) ->
  Forall (inside_of (len f)) ps -> pending_bytes ps <= most ->
  (cache_enabled (cache (sd_profile c)) = false -> ps = []) -> card_ok c'.
Proof.
  intros [] [Hp Hf Hh Hq Hw Hb] Hl Hi Hm Hc. constructor; rewrite ?Hp, ?Hf, ?Hh, ?Hq, ?Hw, ?Hb; try done.
  unfold zlen in *. by rewrite Hl.
Qed.
Lemma moved_empty_ok c c' f : card_ok c -> moved c c' f [] -> length f = length (sd_file c) -> card_ok c'.
Proof. intros Hok M Hl. eapply moved_ok; [exact Hok|exact M|done|constructor|destruct Hok; cbn; lia|done]. Qed.

Lemma length_view c : card_ok c -> length (view c) = length (sd_file c).
Proof. intros []. by apply length_apply_all. Qed.

(** ** Stopping *)

(** The card is offline, or has just lost its power. *)
Definition cut_off (c c' : SdCard) : Prop := still c c' /\ sd_status c' = Offline \/ power_cut c c'.

(** An error before any data moves. *)
Inductive stopped (c c' : SdCard) : CardError -> Prop :=
  | stopped_plain code m : code <> CodeDisconnected -> still c c' -> stopped c c' (DeviceError code m)
  | stopped_cut m : cut_off c c' -> stopped c c' (DeviceError CodeDisconnected m).

Lemma power_cut_after c c1 c2 : still c c1 -> power_cut c1 c2 -> power_cut c c2.
Proof.
  intros S (f & M & C & Ho). exists f. rewrite (st_file _ _ S), (st_pending _ _ S) in C. split_and!; [by eapply still_then|done|done].
Qed.
Lemma stopped_after c c1 c2 e : still c c1 -> stopped c1 c2 e -> stopped c c2 e.
Proof.
  intros S [code m Hc S2|m [[S2 Ho]|P]].
  - apply stopped_plain; [done|by eapply still_trans].
  - apply stopped_cut. left. split; [by eapply still_trans|done].
  - apply stopped_cut. right. by eapply power_cut_after.
Qed.

Lemma power_cut_ok c c' : card_ok c -> power_cut c c' -> card_ok c'.
Proof. intros Hok (f & M & C & _). eapply moved_empty_ok; [exact Hok|exact M|apply C]. Qed.
Lemma stopped_ok c c' e : card_ok c -> stopped c c' e -> card_ok c'.
Proof. intros Hok [code m _ S|m [[S _]|P]]; [by eapply still_ok|by eapply still_ok|by eapply power_cut_ok]. Qed.

(** A step that stops or leaves the data alone. *)
Definition checked {A} (m : Card A) (c : SdCard) : Prop :=
  forall c' r, m c = (c', r) -> match r with inl e => stopped c c' e | inr _ => still c c' end.

Lemma checked_bind {A B} (m : Card A) (k : A -> Card B) c :
  checked m c -> (forall a c1, m c = (c1, inr a) -> still c c1 -> checked (k a) c1) -> checked (em_bind m k) c.
Proof.
  intros Hm Hk c' r E. next E c1 r1 E1. apply Hm in E1 as H1. destruct r1 as [e|a]; [by injection E as <- <-|].
  specialize (Hk a c1 eq_refl H1 c' r E). destruct r; [by eapply stopped_after|by eapply still_trans].
Qed.
Lemma checked_calm {A} (m : Card A) c : calm m -> checked m c.
Proof. intros Hm c' r E. by apply (calm_run _ _ _ _ Hm) in E as [S [a ->]]. Qed.
Lemma checked_fail {A} code m c : code <> CodeDisconnected -> checked (@device_fail A code m) c.
Proof. intros Hc c' r [= <- <-]. by apply stopped_plain; [|apply still_refl]. Qed.
Lemma checked_injected {A} kind o c : checked (@injected_error A kind o) c.
Proof.
  unfold injected_error. apply checked_bind; [apply checked_calm, calm_count|intros _ c1 _ _].
  apply checked_bind; [apply checked_calm, calm_get|intros c2 c3 _ _].
  apply checked_bind; [apply checked_calm, calm_fault|intros _ c4 _ _]. by apply checked_fail.
Qed.

Lemma checked_range o n c : checked (check_range o n) c.
Proof.
  unfold check_range. destruct (u64_checked_add o n); [|by apply checked_fail]. apply checked_bind; [apply checked_calm, calm_get|intros c1 c2 _ _].
  destruct (_ <? _); [by apply checked_fail|apply checked_calm, calm_ret].
Qed.
Lemma check_range_inside o n c c' : check_range o n c = (c', inr tt) -> o + n <= size_bytes (device (sd_profile c)).
Proof.
  unfold check_range, u64_checked_add, u64_checked, em_bind, em_get. destruct (in_u64 _); [|done]. destruct (_ <? _) eqn:El; [done|]. apply Z.ltb_ge in El. done.
Qed.

(** ** Blocks *)

Lemma block_in_range o n c first last : card_ok c -> 0 <= o -> 0 < n -> o + n <= size_bytes (device (sd_profile c)) ->
  erase_block_range o n c = (first, last) -> (last < erase_blocks (sd_profile c))%nat.
Proof.
  intros [] Ho Hn Hs [= <- <-]. unfold erase_blocks. set (e := erase_block_bytes _) in *. set (s := size_bytes _) in *.
  assert (H1 : 0 <= (o + n - 1) / e) by (apply Z.div_pos; lia).
  assert (H2 : (o + n - 1) / e < (s + e - 1) / e).
  { apply Z.lt_le_trans with ((o + n - 1) / e + 1); [lia|]. rewrite <- Z.div_add by lia. apply Z.div_le_mono; lia. }
  lia.
Qed.

Lemma checked_touches o n c : card_ok c -> 0 <= o -> 0 <= n -> o + n <= size_bytes (device (sd_profile c)) -> checked (touches_bad_block o n) c.
Proof.
  intros Hok Ho Hn Hs. unfold touches_bad_block. destruct (n =? 0) eqn:En; [apply checked_calm, calm_ret|]. apply Z.eqb_neq in En.
  intros c' r. unfold em_bind, em_get. destruct (erase_block_range o n c) as [first last] eqn:Er.
  apply block_in_range in Er; [|done|lia|lia|done]. rewrite (ok_bad _ Hok). apply Nat.ltb_lt in Er. rewrite Er. intros [= <- <-]. apply still_refl.
Qed.

Lemma wear_blocks_run l : forall c c' r,
  Forall (fun b => (b < length (sd_wear c))%nat /\ (b < length (sd_bad c))%nat) l -> em_for_each wear_block l c = (c', r) -> r = inr tt.
Proof.
  induction l as [|b l IH]; intros c c' r Hl E; cbn [em_for_each] in E; [by injection E as <- <-|].
  apply Forall_cons in Hl as [[Hw Hb] Hl]. next E c1 r1 E1. pose proof (still_wear_block _ _ _ _ E1) as S.
  assert (Hr : r1 = inr tt).
  { revert E1. unfold wear_block, em_bind, em_get, put_count, count_up, modify_card, em_ret.
    apply lookup_lt_is_Some in Hw as [worn Hw]. apply lookup_lt_is_Some in Hb as [bad Hb]. rewrite Hw, Hb. by destruct (_ && _); intros [= _ <-]. }
  subst. apply IH in E; [done|]. by rewrite (st_wear _ _ S), (st_bad _ _ S).
Qed.

Lemma checked_wear o n c : card_ok c -> 0 <= o -> 0 <= n -> o + n <= size_bytes (device (sd_profile c)) -> checked (apply_wear o n) c.
Proof.
  intros Hok Ho Hn Hs. unfold apply_wear. apply checked_bind; [apply checked_calm, calm_get|]. intros c0 c1 [= <- <-] _.
  destruct (_ || _) eqn:Eg; [apply checked_calm, calm_ret|]. apply orb_false_iff in Eg as [_ En%Z.eqb_neq].
  destruct (erase_block_range o n c) as [first last] eqn:Er. apply block_in_range in Er; [|done|lia|lia|done].
  apply checked_bind.
  { intros c' r E. apply wear_blocks_run in E as Hr; [|].
    - subst. eapply still_for_each; [|exact E]. intros; apply still_wear_block.
    - rewrite (ok_wear _ Hok), (ok_bad _ Hok). unfold blocks_between. apply Forall_forall. intros b [Hb1 Hb2]%elem_of_seq. lia. }
  intros _ c2 _ _. apply checked_bind; [apply checked_calm, calm_get|]. intros c3 c4 [= <- <-] _. destruct (_ && _).
  - apply checked_bind; [apply checked_calm, calm_modify; intros ?; by constructor|intros _ c5 _ _].
    apply checked_bind; [apply checked_calm, calm_fault|intros _ c6 _ _]. by apply checked_fail.
  - destruct (_ <=? _); [|apply checked_calm, calm_ret]. apply checked_bind; [apply checked_calm, calm_chance|intros hit c5 _ _].
    destruct hit; [apply checked_injected|apply checked_calm, calm_ret].
Qed.

(** ** Starting an operation *)

Lemma checked_cut kind m c : card_ok c -> checked (A := Z) (apply_power_loss kind ;^ device_fail CodeDisconnected m) c.
Proof.
  intros Hok c' r E. next E c1 r1 E1. apply apply_power_loss_run in E1 as [-> P]; [|apply Hok..]. injection E as <- <-.
  apply stopped_cut. by right.
Qed.

Lemma checked_begin o c : card_ok c -> checked (begin_operation o) c.
Proof.
  intros Hok. unfold begin_operation. apply checked_bind; [apply checked_calm, calm_get|]. intros c0 c1 [= <- <-] _.
  destruct (decide _) as [Ho|_].
  { intros c' r [= <- <-]. apply stopped_cut. left. by split; [apply still_refl|]. }
  apply checked_bind; [apply checked_calm, calm_count|intros _ c1 _ S1].
  apply checked_bind; [apply checked_calm, calm_get|]. intros c2 c3 [= <- <-] _. assert (Hok2 : card_ok c1) by (by eapply still_ok).
  destruct (decide _); [by apply checked_cut|]. destruct (decide _); [by apply checked_cut|].
  apply checked_bind; [apply checked_calm; calm_tac|intros _ c3 _ _]. apply checked_bind; [apply checked_calm, calm_chance|intros hit c4 _ _].
  destruct hit; [apply checked_injected|apply checked_calm, calm_ret].
Qed.

(** ** Reading, flushing, writing *)

(** A disconnection is a cut; any other error leaves [P] true. *)
Definition after_error (c c' : SdCard) (e : CardError) (P : Prop) : Prop :=
  match e with
  | DeviceError CodeDisconnected _ => cut_off c c'
  | DeviceError _ _ => P
  | CardPanic => False
  end.

Lemma stopped_error c c' e (P : Prop) : stopped c c' e -> (still c c' -> P) -> after_error c c' e P.
Proof. intros [code m Hc S|m Hcut] HP; cbn; [|done]. destruct code; by auto. Qed.

Lemma read_backing_run o n c c' r : sd_host c = [] -> read_backing o n c = (c', r) ->
  c' = c /\ r = inr (slice (Z.to_nat o) (Z.to_nat (o + n)) (sd_file c)).
Proof. intros Hh. unfold read_backing, host, em_bind, em_get, em_ret. rewrite Hh. by intros [= <- <-]. Qed.

Lemma view_unchanged c c' ws : still c c' -> crash_image (view c) ws (view c').
Proof. intros S. rewrite (still_view _ _ S). apply crash_image_refl. Qed.

Lemma stopped_result c c' e (P : Prop) : card_ok c -> stopped c c' e -> (still c c' -> P) -> card_ok c' /\ after_error c c' e P.
Proof. intros Hok Hs HP. split; [by eapply stopped_ok|by apply stopped_error]. Qed.

Lemma injected_fails {A} kind o c c' (a : A) : injected_error kind o c = (c', inr a) -> False.
Proof. unfold injected_error, count_up, record_fault, modify_card, em_bind, em_get, device_fail, em_err. by intros [=]. Qed.

(** One step of an operation that started at [c0]. *)
Lemma checked_step {A B} (m : Card A) (k : A -> Card B) c0 c c' r : still c0 c -> checked m c -> em_bind m k c = (c', r) ->
  (exists e, r = inl e /\ stopped c0 c' e) \/ exists a c1, m c = (c1, inr a) /\ still c0 c1 /\ k a c1 = (c', r).
Proof.
  intros S Hm E. next E c1 r1 E1. apply Hm in E1 as H1. destruct r1 as [e|a].
  - injection E as <- <-. left. exists e. split; [done|by eapply stopped_after].
  - right. exists a, c1. split_and!; [done|by eapply still_trans|done].
Qed.
(** Take the step [m] of [E], which [H] says is checked. *)
Ltac step E S H a c1 E1 :=
  apply (checked_step _ _ _ _ _ _ S H) in E as [(? & -> & ?)|(a & c1 & E1 & ? & E)];
  [apply stopped_result; [done|done|first [by apply still_view|by apply view_unchanged]]|clear S; rename select (still _ c1) into S].

Lemma card_read_run now o n c c' r : card_ok c -> 0 <= o -> 0 <= n -> card_read now o n c = (c', r) ->
  card_ok c' /\ match r with
                | inr data => data = slice (Z.to_nat o) (Z.to_nat (o + n)) (view c) /\ view c' = view c
                | inl e => after_error c c' e (view c' = view c)
                end.
Proof.
  intros Hok Ho Hn E. unfold card_read in E. pose proof (still_refl c) as S.
  step E S (checked_range o n c) u c1 E1. destruct u. apply check_range_inside in E1. pose proof (still_ok _ _ Hok S) as Hok1.
  step E S (checked_begin o c1 Hok1) op c2 E2. pose proof (still_ok _ _ Hok S) as Hok2.
  assert (Hr : o + n <= size_bytes (device (sd_profile c2))) by (by rewrite (st_profile _ _ S)).
  step E S (checked_touches o n c2 Hok2 Ho Hn Hr) bad c3 E3. destruct bad.
  { destruct r as [e|]; [|by apply injected_fails in E]. apply checked_injected in E.
    apply stopped_result; [done|by eapply stopped_after|by apply still_view]. }
  step E S (checked_calm _ c3 (calm_wait false n now)) u c4 E4. pose proof (still_ok _ _ Hok S) as Hok4.
  next E c5 r5 E5. apply read_backing_run in E5 as [-> ->]; [|apply Hok4].
  assert (Sf : still c c') by (eapply still_trans; [exact S|]; injection E as <- _; by constructor).
  injection E as _ <-. split; [exact (still_ok _ _ Hok Sf)|]. split; [|by apply still_view].
  rewrite (st_file _ _ S), (st_pending _ _ S). apply overlay_all; [apply Hok|done|done|]. rewrite (ok_size _ Hok). exact E1.
Qed.

(** *** Flush *)

(** The file holds what a read returns. *)
Definition settled (c : SdCard) : Prop := sd_pending c = [] /\ sd_file c = view c.

Lemma card_flush_run now c c' r : card_ok c -> card_flush now c = (c', r) ->
  card_ok c' /\ match r with
                | inr _ => view c' = view c /\ (false_flush_probability_ppm (cache (sd_profile c)) = 0 -> settled c')
                | inl e => after_error c c' e (view c' = view c)
                end.
Proof.
  intros Hok E. unfold card_flush in E. pose proof (still_refl c) as S. step E S (checked_begin 0 c Hok) op c1 E1.
  step E S (checked_calm _ c1 (calm_wait true 0 now)) u c2 E2. step E S (checked_calm _ c2 (calm_count flush_operations 1)) u' c3 E3.
  step E S (checked_calm _ c3 calm_get) c4' c4 E4. injection E4 as -> ->. next E c5 r5 E5.
  apply (calm_run _ _ _ _ (calm_chance _)) in E5 as Hs. destruct Hs as [S5 [b ->]]. pose proof (still_trans _ _ _ S S5) as S'. destruct b.
  - assert (Hc : calm (count_up false_flushes 1 ;^ record_fault "false_flush" op 0)) by calm_tac.
    apply (calm_run _ _ _ _ Hc) in E as [S6 [? ->]]. pose proof (still_trans _ _ _ S' S6) as Sf.
    split; [exact (still_ok _ _ Hok Sf)|]. split; [by apply still_view|]. intros Hz. rewrite (st_profile _ _ S), Hz in E5. by rewrite chance_zero in E5.
  - next E c6 r6 E6. assert (Hh5 : sd_host c5 = []) by (rewrite (st_host _ _ S'); apply Hok).
    apply persist_pending_run in E6 as [-> M]; [|done]. apply sync_run in E as [-> ->]; [|by rewrite (mv_host _ _ _ _ M)].
    rewrite (still_view _ _ S') in M. pose proof (still_then _ _ _ _ _ S' M) as Mf.
    assert (Hv : view c6 = view c) by (unfold view at 1; by rewrite (mv_pending _ _ _ _ M), (mv_file _ _ _ _ M)).
    split; [eapply moved_empty_ok; [exact Hok|exact Mf|by apply length_view]|]. split; [done|]. intros _.
    split; [apply M|]. rewrite Hv. apply M.
Qed.

(** *** Write *)

(** What reaches the card for [data]: the same bytes, or one flipped bit. *)
Definition reaches (p : Profile) (data d : bytes) : Prop :=
  d = data \/ silent_corruption_probability_ppm (faults_of p) <> 0 /\ exists index bit, d = flip index bit data.

Lemma length_flip k b data : length (flip k b data) = length data.
Proof. unfold flip. destruct (data !! k); [apply length_insert|done]. Qed.
Lemma length_reaches p data d : reaches p data d -> length d = length data.
Proof. intros [->|(_ & k & b & ->)]; [done|apply length_flip]. Qed.

Lemma corrupt_reaches op o data c c' d : corrupt op o data c = (c', inr d) -> reaches (sd_profile c) data d.
Proof.
  intros E. unfold corrupt in E. apply em_bind_inr in E as (c0 & c1 & [= <- <-] & E). apply em_bind_inr in E as (hit & c2 & E2 & E).
  destruct (hit && _) eqn:Eh; [|injection E as _ <-; by left]. apply em_bind_inr in E as (k & c3 & _ & E).
  apply em_bind_inr in E as (bit & c4 & _ & E). injection E as _ <-. right. split; [|by eexists _, _].
  intros Hz. rewrite Hz, chance_zero in E2. injection E2 as _ <-. done.
Qed.

Lemma view_snoc c o d : foldl apply_write (sd_file c) (sd_pending c ++ [mkPending o d]) = splice o d (view c).
Proof. by rewrite foldl_app. Qed.

Lemma length_splice_in o d (f : bytes) : 0 <= o -> o + len d <= len f -> length (splice o d f) = length f.
Proof. intros Ho Hl. by apply (length_apply f (mkPending o d)). Qed.

(** Every byte of the file and of the view under a move of the file only. *)
Lemma torn_view c o n data : card_ok c -> 0 <= o -> o + len data <= len (sd_file c) ->
  crash_image (view c) [mkPending o data] (foldl apply_write (splice o (take n data) (sd_file c)) (sd_pending c)).
Proof.
  intros Hok Ho Hl. destruct (crash_prefix (sd_file c) [mkPending o data] (mkPending o data) n) as [Hlen Hs]; [done|left|].
  cbn [pw_offset pw_data] in Hlen, Hs. assert (Hin : Forall (inside_of (len (splice o (take n data) (sd_file c)))) (sd_pending c)).
  { unfold zlen. rewrite Hlen. apply Hok. }
  split; [by rewrite length_apply_all, Hlen, length_view|]. intros i b E.
  destruct (apply_all_agree (sd_pending c) i (splice o (take n data) (sd_file c)) (sd_file c) Hlen Hin) as [Ha|[Ha1 Ha2]].
  - left. by rewrite <- E, Ha.
  - rewrite Ha1 in E. apply Hs in E as [E|E]; [left; unfold view; by rewrite Ha2|by right].
Qed.

Lemma persist_settle o d c c' : card_ok c -> 0 <= o -> o + len d <= len (view c) -> moved c c' (splice o d (view c)) [] ->
  card_ok c' /\ view c' = splice o d (view c) /\ settled c'.
Proof.
  intros Hok Ho Hl M. pose proof (length_splice_in _ _ _ Ho Hl) as Hlen.
  assert (Hv : view c' = splice o d (view c)) by (unfold view at 1; by rewrite (mv_pending _ _ _ _ M), (mv_file _ _ _ _ M)).
  split; [eapply moved_empty_ok; [exact Hok|exact M|by rewrite Hlen, length_view]|]. split; [done|]. split; [apply M|]. rewrite Hv. apply M.
Qed.

Lemma store_cached_run o d c c' r : card_ok c -> cache_enabled (cache (sd_profile c)) = true -> 0 <= o -> o + len d <= len (sd_file c) ->
  (modify_card (fun c => set_pending (sd_pending c ++ [mkPending o d]) c) ;^ evict_cache) c = (c', r) ->
  r = inr tt /\ card_ok c' /\ view c' = splice o d (view c).
Proof.
  intros Hok He Ho Hl E. next E c1 r1 E1. injection E1 as <- <-.
  assert (Hin : Forall (inside_of (len (sd_file c))) (sd_pending c ++ [mkPending o d])).
  { apply Forall_app. split; [apply Hok|]. by repeat constructor. }
  apply evict_cache_run in E as (gone & rest & -> & Hp & M & Hb); [|apply Hok|apply Hok]. cbn in Hp, M, Hb. rewrite Hp in Hin.
  apply Forall_app in Hin as [Hg Hr]. pose proof (length_apply_all gone (sd_file c) Hg) as Hlg. split; [done|]. split.
  - eapply (moved_ok c); [exact Hok|destruct M; by constructor|done| |pose proof (ok_most _ Hok); lia|by rewrite He]. unfold zlen in *. by rewrite Hlg.
  - unfold view at 1. rewrite (mv_pending _ _ _ _ M), (mv_file _ _ _ _ M). by rewrite <- foldl_app, <- Hp, view_snoc.
Qed.

Lemma still_settled c c' : still c c' -> settled c -> settled c'.
Proof. intros S [Hp Hf]. split; [by rewrite (st_pending _ _ S)|]. by rewrite (st_file _ _ S), (still_view _ _ S). Qed.

(** Whether the write goes past the cache. *)
Definition through (c : SdCard) (fua : bool) : Card bool :=
  if fua then let^ false_flush := chance (false_flush_probability_ppm (cache (sd_profile c))) in em_ret (negb false_flush) else em_ret false.

Lemma through_run c fua c1 c' r : through c fua c1 = (c', r) ->
  exists b, r = inr b /\ still c1 c' /\ (fua = true -> false_flush_probability_ppm (cache (sd_profile c)) = 0 -> b = true).
Proof.
  intros E. assert (Hc : calm (through c fua)) by (unfold through; calm_tac). apply (calm_run _ _ _ _ Hc) in E as Hs. destruct Hs as [S [b ->]].
  exists b. split_and!; [done|done|]. intros -> Hz. unfold through in E. rewrite Hz in E. by injection E as _ <-.
Qed.

Lemma store_write_run op o d fua c c' r : card_ok c -> 0 <= o -> o + len d <= len (sd_file c) -> store_write op o d fua c = (c', r) ->
  r = inr tt /\ card_ok c' /\ view c' = splice o d (view c)
  /\ (fua = true -> false_flush_probability_ppm (cache (sd_profile c)) = 0 -> settled c').
Proof.
  intros Hok Ho Hl E. assert (Hlv : o + len d <= len (view c)) by (unfold zlen in *; by rewrite length_view).
  unfold store_write in E. next E c0 r0 E0. injection E0 as <- <-. destruct (cache_enabled _) eqn:He.
  - next E c1 r1 E1. apply through_run in E1 as (b & -> & S & Hb). pose proof (still_ok _ _ Hok S) as Hok1. destruct b.
    + next E c2 r2 E2. apply persist_pending_run in E2 as [-> M2]; [|apply Hok1]. rewrite (still_view _ _ S) in M2.
      pose proof (still_then _ _ _ _ _ S M2) as M. assert (Hh2 : sd_host c2 = []) by (rewrite (mv_host _ _ _ _ M); apply Hok).
      next E c3 r3 E3. apply persist_run in E3 as [-> M3]; [|done]. rewrite (mv_file _ _ _ _ M), (mv_pending _ _ _ _ M) in M3.
      apply sync_run in E as [-> ->]; [|by rewrite (mv_host _ _ _ _ M3)]. split; [done|].
      destruct (persist_settle o d c c3 Hok Ho Hlv (moved_trans _ _ _ _ _ _ _ M M3)) as (H1 & H2 & H3). done.
    + next E c2 r2 E2.
      match type of E2 with ?m c1 = _ => assert (Hc : calm m) by calm_tac end. apply (calm_run _ _ _ _ Hc) in E2 as [S2 [? ->]].
      pose proof (still_trans _ _ _ S S2) as S'. pose proof (still_ok _ _ Hok S') as Hok2.
      apply store_cached_run in E as (-> & Hok' & Hv); [|done|by rewrite (st_profile _ _ S')|done|by rewrite (st_file _ _ S')].
      rewrite (still_view _ _ S') in Hv. split_and!; [done|done|done|]. intros Hf Hz. by specialize (Hb Hf Hz).
  - next E c1 r1 E1. apply persist_run in E1 as [-> M]; [|apply Hok]. apply sync_run in E as [-> ->]; [|by rewrite (mv_host _ _ _ _ M); apply Hok].
    pose proof (ok_cache _ Hok He) as Hp. assert (Hv : view c = sd_file c) by (unfold view; by rewrite Hp). rewrite Hp, <- Hv in M.
    destruct (persist_settle o d c c1 Hok Ho Hlv M) as (H1 & H2 & H3). done.
Qed.

Lemma torn_write_run op o data c c' r : card_ok c -> 0 <= o -> o + len data <= len (sd_file c) ->
  (let^ n := torn_length (len data) in
   persist o (take (Z.to_nat n) data) ;^
   sync_data "sync torn write: {error}" ;^
   count_up injected_torn_operations 1 ;^
   count_up injected_torn_bytes n ;^
   record_fault "torn_write" op (o + n) ;^
   device_fail (A := unit) CodeIo "injected torn write returned EIO") c = (c', r) ->
  r = inl (DeviceError CodeIo "injected torn write returned EIO") /\ card_ok c' /\ crash_image (view c) [mkPending o data] (view c').
Proof.
  intros Hok Ho Hl E. next E c1 r1 E1. apply (calm_run _ _ _ _ (calm_torn _)) in E1 as [S [n ->]]. pose proof (still_ok _ _ Hok S) as Hok1.
  next E c2 r2 E2. apply persist_run in E2 as [-> M]; [|apply Hok1]. next E c3 r3 E3.
  apply sync_run in E3 as [-> ->]; [|rewrite (mv_host _ _ _ _ M); apply Hok1]. rewrite (st_file _ _ S), (st_pending _ _ S) in M.
  pose proof (still_then _ _ _ _ _ S M) as M2.
  assert (Mf : moved c c' (splice o (take (Z.to_nat n) data) (sd_file c)) (sd_pending c)).
  { eapply moved_still; [exact M2|]. injection E as <- _. by constructor. }
  injection E as _ <-. split; [done|].
  assert (Hlen : length (splice o (take (Z.to_nat n) data) (sd_file c)) = length (sd_file c)).
  { apply length_splice_in; [done|]. unfold zlen in *. rewrite length_take. lia. }
  split.
  - eapply moved_ok; [exact Hok|exact Mf|done|unfold zlen; rewrite Hlen; apply Hok|apply Hok|apply Hok].
  - unfold view at 2. rewrite (mv_pending _ _ _ _ Mf), (mv_file _ _ _ _ Mf). by apply torn_view.
Qed.

Lemma card_write_run now o data fua c c' r : card_ok c -> 0 <= o -> card_write now o data fua c = (c', r) ->
  card_ok c' /\ match r with
                | inr _ => exists d, reaches (sd_profile c) data d /\ view c' = splice o d (view c)
                                     /\ (fua = true -> false_flush_probability_ppm (cache (sd_profile c)) = 0 -> settled c')
                | inl e => after_error c c' e (crash_image (view c) [mkPending o data] (view c'))
                end.
Proof.
  intros Hok Ho E. unfold card_write in E. pose proof (still_refl c) as S. pose proof (Nat2Z.is_nonneg (length data)) as Hn. fold (zlen data) in Hn.
  step E S (checked_range o (len data) c) u c1 E1. destruct u. apply check_range_inside in E1. pose proof (still_ok _ _ Hok S) as Hok1.
  step E S (checked_begin o c1 Hok1) op c2 E2. step E S (checked_calm _ c2 calm_get) c3' c3 E3. injection E3 as <- <-.
  pose proof (still_ok _ _ Hok S) as Hok3. destruct (decide _).
  { injection E as <- <-. split; [done|]. by apply view_unchanged. }
  assert (Hr : o + len data <= size_bytes (device (sd_profile c2))) by (by rewrite (st_profile _ _ S)).
  step E S (checked_touches o (len data) c2 Hok3 Ho Hn Hr) bad c4 E4. destruct bad.
  { destruct r as [e|]; [|by apply injected_fails in E]. apply checked_injected in E.
    apply stopped_result; [done|by eapply stopped_after|by apply view_unchanged]. }
  step E S (checked_calm _ c4 (calm_wait true (len data) now)) u c5 E5. pose proof (still_ok _ _ Hok S) as Hok5.
  assert (Hr5 : o + len data <= size_bytes (device (sd_profile c5))) by (by rewrite (st_profile _ _ S)).
  step E S (checked_wear o (len data) c5 Hok5 Ho Hn Hr5) u' c6 E6.
  match type of E with em_bind (chance ?p) _ _ = _ => step E S (checked_calm _ c6 (calm_chance p)) torn c7 E7 end.
  pose proof (still_ok _ _ Hok S) as Hok7. assert (Hl7 : o + len data <= len (sd_file c7)) by (rewrite (ok_size _ Hok7); by rewrite (st_profile _ _ S)).
  destruct torn.
  { apply torn_write_run in E as (-> & Hok' & Hc); [|done..]. split; [done|]. cbn. by rewrite <- (still_view _ _ S). }
  pose proof (st_profile _ _ S) as Hp7. step E S (checked_calm _ c7 (calm_corrupt op o data)) d c8 E8. apply corrupt_reaches in E8. rewrite Hp7 in E8.
  step E S (checked_calm _ c8 (calm_count write_operations 1)) v c9 E9. step E S (checked_calm _ c9 (calm_count write_bytes (len d))) v' c10 E10.
  pose proof (still_ok _ _ Hok S) as Hok10. apply length_reaches in E8 as Hd.
  apply store_write_run in E as (-> & Hok' & Hv & Hs); [|done|done|rewrite (ok_size _ Hok10), (st_profile _ _ S); unfold zlen in *; by rewrite Hd].
  split; [done|]. exists d. rewrite (still_view _ _ S) in Hv. by rewrite (st_profile _ _ S) in Hs.
Qed.
End Run.
