(* ===== verification/SdCardKeep.v ===== *)
(** * SdCardKeep: where the bytes of a card come from

    Whatever the card or its backing file does, a byte is one the file had, one
    a cached write has or one a new write brings: a byte that is in the file and
    under no cached write stays until a write covers it, and a failing call of
    the backing file can bring back older bytes and no others. *)
From S2P Require Import Prelude Errors Bytes Model Effects SdProfile SdCard SdCardInv SdCardRun.

Section Keep.
Context (i : nat) (allowed : Z -> Prop) (p : Profile) (worn bad_blocks : nat).

(** The value [w] has for byte [i], if it has one, is allowed. *)
Definition brings (w : PendingWrite) : Prop :=
  forall b, covers w i = true -> pw_data w !! (i - Z.to_nat (pw_offset w))%nat = Some b -> allowed b.
Definition quiet (w : PendingWrite) : Prop := inside_of (size_bytes (device p)) w /\ brings w.

(** Byte [i] is allowed in the file and in every cached write; the rest of the
    card has the shape its operations rely on. *)
Record settled_byte (c : SdCard) : Prop := {
  sb_size : len (sd_file c) = size_bytes (device p);
  sb_profile : sd_profile c = p;
  sb_wear : length (sd_wear c) = worn;
  sb_bad : length (sd_bad c) = bad_blocks;
  sb_pending : Forall quiet (sd_pending c);
  sb_cache : cache_enabled (cache p) = false -> sd_pending c = [];
  sb_byte : forall b, sd_file c !! i = Some b -> allowed b;
}.

(** [m] keeps the byte, and its result satisfies [P]. *)
Definition guards {A} (P : A -> Prop) (m : Card A) : Prop :=
  forall c c' r, m c = (c', r) -> settled_byte c -> settled_byte c' /\ forall a, r = inr a -> P a.

Lemma guards_bind {A B} (P : A -> Prop) (Q : B -> Prop) (m : Card A) (k : A -> Card B) :
  guards P m -> (forall a, P a -> guards Q (k a)) -> guards Q (em_bind m k).
Proof.
  intros Hm Hk c c' r E Hc. next E c1 r1 E1. destruct (Hm _ _ _ E1 Hc) as [Hc1 Hr]. destruct r1 as [e|a]; [by injection E as <- <-|].
  by eapply Hk; [apply Hr| |].
Qed.
Lemma guards_ret {A} (P : A -> Prop) a : P a -> guards P (em_ret a).
Proof. intros Ha c c' r [= <- <-] Hc. split; [done|]. by intros ? [= <-]. Qed.
Lemma guards_err {A} (P : A -> Prop) e : guards P (em_err e).
Proof. by intros c c' r [= <- <-] Hc. Qed.
Lemma guards_get : guards settled_byte em_get.
Proof. intros c c' r [= <- <-] Hc. split; [done|]. by intros ? [= <-]. Qed.
Lemma guards_weaken {A} (P Q : A -> Prop) m : guards P m -> (forall a, P a -> Q a) -> guards Q m.
Proof. intros Hm HPQ c c' r E Hc. destruct (Hm _ _ _ E Hc) as [H1 H2]. split; [done|]. eauto. Qed.

Lemma settled_still c c' : still c c' -> settled_byte c -> settled_byte c'.
Proof.
  intros S []. constructor; rewrite ?(st_profile _ _ S), ?(st_file _ _ S), ?(st_pending _ _ S), ?(st_wear _ _ S), ?(st_bad _ _ S); done.
Qed.
Lemma guards_still {A} (m : Card A) : still_op m -> guards (fun _ => True) m.
Proof. intros Hm c c' r E Hc. split; [|done]. eapply settled_still; [by eapply Hm|done]. Qed.
Lemma guards_modify f : (forall c, settled_byte c -> settled_byte (f c)) -> guards (fun _ => True) (modify_card f).
Proof. intros Hf c c' r [= <- <-] Hc. split; [by apply Hf|done]. Qed.
Lemma guards_pending ws : Forall quiet ws -> (cache_enabled (cache p) = false -> ws = []) -> guards (fun _ => True) (modify_card (set_pending ws)).
Proof. intros Hw He. apply guards_modify. intros c []. by constructor. Qed.

(** ** The backing file *)

Lemma guards_host {A} (P : A -> Prop) context broken (op : Card A) :
  guards P op -> (forall n c, settled_byte c -> settled_byte (broken n c)) -> guards P (host context broken op).
Proof.
  intros Hop Hb c c' r E Hc. assert (Hs : forall rest, settled_byte (set_host rest c)) by (intros rest; destruct Hc; by constructor).
  unfold host in E. destruct (sd_host c) as [|[[kind n]|] rest]; [by eapply Hop| |by eapply Hop].
  injection E as <- <-. split; [by apply Hb|done].
Qed.

Lemma quiet_take w n : quiet w -> quiet (mkPending (pw_offset w) (take n (pw_data w))).
Proof.
  intros [[Ho Hl] Hb]. assert (Ht : len (take n (pw_data w)) <= len (pw_data w)) by (unfold zlen; rewrite length_take; lia).
  split; [split; cbn; lia|]. intros b Hc E. cbn in E. apply lookup_take_Some in E as [E _]. apply (Hb b); [|done].
  unfold covers in *. cbn in Hc. apply andb_true_iff in Hc as [Hc1 Hc2%Z.ltb_lt]. apply andb_true_iff. split; [done|]. apply Z.ltb_lt. lia.
Qed.

Lemma settled_splice w c : quiet w -> settled_byte c -> settled_byte (set_file_bytes (splice (pw_offset w) (pw_data w) (sd_file c)) c).
Proof.
  intros [Hw Hq] [H1 H2 H3 H4 H5 H6 H7]. rewrite <- H1 in Hw. constructor; cbn; try done.
  - unfold zlen in *. by rewrite (length_apply _ _ Hw : length (splice _ _ _) = _).
  - intros b. pose proof (lookup_apply (sd_file c) w i Hw) as Hl. unfold apply_write in Hl. rewrite Hl. destruct (covers w i) eqn:Ec; [by apply Hq|apply H7].
Qed.

Lemma guards_persist w : quiet w -> guards (fun _ => True) (persist (pw_offset w) (pw_data w)).
Proof.
  intros Hw. unfold persist. eapply guards_bind; [|intros _ _; apply guards_still, still_count].
  apply guards_host; [apply guards_modify; intros c Hc; by apply settled_splice|]. intros n c Hc.
  by apply (settled_splice (mkPending (pw_offset w) (take n (pw_data w)))); [apply quiet_take|].
Qed.
Lemma guards_sync context : guards (fun _ => True) (sync_data context).
Proof. apply guards_host; [by apply guards_ret|done]. Qed.
Lemma guards_persist_all ws : Forall quiet ws -> guards (fun _ => True) (persist_all ws).
Proof.
  induction ws as [|w ws IH]; intros Hw; [by apply guards_ret|]. apply Forall_cons in Hw as [Hw Hws].
  eapply guards_bind; [by apply guards_persist|intros _ _; by apply IH].
Qed.

(** ** The cache *)

Lemma guards_persist_pending : guards (fun _ => True) persist_pending.
Proof.
  eapply guards_bind; [apply guards_get|intros c Hc]. apply sb_pending in Hc. eapply guards_bind; [by apply guards_pending|intros _ _]. by apply guards_persist_all.
Qed.
Lemma guards_evict l : forall ev, Forall quiet l -> (cache_enabled (cache p) = false -> l = []) -> guards (fun _ => True) (evict l ev).
Proof.
  induction l as [|w l IH]; intros ev Hl He; cbn [evict]; (eapply guards_bind; [apply guards_get|intros c _]); destruct (_ <? _); try by apply guards_ret.
  apply Forall_cons in Hl as [Hw Hl]. assert (Hl' : cache_enabled (cache p) = false -> l = []) by (intros Hd; by specialize (He Hd)).
  eapply guards_bind; [by apply guards_pending|intros _ _]. eapply guards_bind; [by apply guards_persist|intros _ _]. by apply IH.
Qed.
Lemma guards_evict_cache : guards (fun _ => True) evict_cache.
Proof.
  eapply guards_bind; [apply guards_get|intros c Hc]. eapply guards_bind; [apply guards_evict; apply Hc|intros ev _].
  destruct ev; [apply guards_sync|by apply guards_ret].
Qed.

(** ** Power loss *)

Lemma guards_lose_write kept w : Forall quiet kept -> quiet w -> guards (Forall quiet) (lose_write kept w).
Proof.
  intros Hk Hw. unfold lose_write. eapply guards_bind; [apply guards_get|intros c _]. eapply guards_bind; [apply guards_still, still_below|intros roll _].
  destruct (_ <? _); [apply guards_ret, Forall_app; split; [done|by constructor]|]. destruct (_ <? _).
  - eapply guards_bind; [apply guards_still, still_torn|intros n _]. eapply (guards_bind (fun _ => True)).
    + destruct (negb _); [|by apply guards_ret]. apply (guards_persist (mkPending (pw_offset w) (take (Z.to_nat n) (pw_data w)))). by apply quiet_take.
    + intros _ _. do 4 (eapply guards_bind; [apply guards_still; still_tac|intros _ _]). by apply guards_ret.
  - do 2 (eapply guards_bind; [apply guards_still; still_tac|intros _ _]). by apply guards_ret.
Qed.
Lemma guards_lose_writes l : forall kept, Forall quiet kept -> Forall quiet l -> guards (Forall quiet) (em_fold lose_write kept l).
Proof.
  induction l as [|w l IH]; intros kept Hk Hl; cbn [em_fold]; [by apply guards_ret|]. apply Forall_cons in Hl as [Hw Hl].
  eapply guards_bind; [by apply guards_lose_write|intros k Hk']. by apply IH.
Qed.
Lemma guards_shuffle l : Forall quiet l -> guards (Forall quiet) (shuffle l).
Proof.
  intros Hl c c' r E Hc. split; [eapply settled_still; [by eapply (proj1 (calm_shuffle l))|done]|]. intros l' ->.
  apply Forall_forall. intros w Hw. rewrite Forall_forall in Hl. apply Hl. by eapply shuffle_elements.
Qed.

Lemma guards_power_loss kind : guards (fun _ => True) (apply_power_loss kind).
Proof.
  unfold apply_power_loss. eapply guards_bind; [apply guards_get|intros c Hc]. apply sb_pending in Hc as Hq.
  eapply guards_bind; [by apply guards_pending|intros _ _]. eapply guards_bind; [by apply guards_lose_writes|intros ws Hws]. eapply (guards_bind (Forall quiet)).
  - destruct (_ <? _)%nat; [|by apply guards_ret]. eapply guards_bind; [apply guards_still, still_chance|intros hit _].
    destruct hit; [|by apply guards_ret]. eapply guards_bind; [by apply guards_shuffle|intros ws' Hws'].
    eapply guards_bind; [apply guards_still, still_count|intros _ _]. by apply guards_ret.
  - intros ws' Hws'. eapply guards_bind; [by apply guards_persist_all|intros _ _]. eapply guards_bind; [apply guards_sync|intros _ _].
    do 3 (eapply guards_bind; [apply guards_still; first [apply still_count|apply still_modify; intros ?; by constructor]|intros _ _]).
    eapply guards_bind; [apply guards_get|intros c' _]. apply guards_still, still_fault.
Qed.

(** ** Operations *)

Lemma guards_fail {A} (P : A -> Prop) code m : guards P (device_fail code m).
Proof. apply guards_err. Qed.
Lemma guards_injected {A} (P : A -> Prop) kind o : guards P (injected_error kind o).
Proof.
  unfold injected_error. eapply guards_bind; [apply guards_still, still_count|intros _ _]. eapply guards_bind; [apply guards_get|intros c _].
  eapply guards_bind; [apply guards_still, still_fault|intros _ _]. apply guards_fail.
Qed.
Lemma guards_range o n : guards (fun _ => o + n <= size_bytes (device p)) (check_range o n).
Proof.
  unfold check_range, u64_checked_add, u64_checked. destruct (in_u64 _); [|apply guards_fail].
  eapply guards_bind; [apply guards_get|intros c Hc]. rewrite (sb_profile _ Hc). destruct (_ <? _) eqn:E; [apply guards_fail|].
  apply Z.ltb_ge in E. by apply guards_ret.
Qed.
Lemma guards_begin o : guards (fun _ => True) (begin_operation o).
Proof.
  unfold begin_operation. eapply guards_bind; [apply guards_get|intros c _]. destruct (decide _); [apply guards_fail|].
  eapply guards_bind; [apply guards_still, still_count|intros _ _]. eapply guards_bind; [apply guards_get|intros c' _].
  destruct (decide _); [eapply guards_bind; [apply guards_power_loss|intros _ _; apply guards_fail]|].
  destruct (decide _); [eapply guards_bind; [apply guards_power_loss|intros _ _; apply guards_fail]|].
  eapply (guards_bind (fun _ => True)); [apply guards_still; still_tac|intros _ _].
  eapply guards_bind; [apply guards_still, still_chance|intros hit _]. destruct hit; [apply guards_injected|by apply guards_ret].
Qed.
Lemma guards_corrupt op o data : guards (reaches p data) (corrupt op o data).
Proof.
  intros c c' r E Hc. split; [eapply settled_still; [by eapply still_corrupt|done]|]. intros d ->. apply corrupt_reaches in E. by rewrite (sb_profile _ Hc) in E.
Qed.

Lemma guards_read now o n : guards (fun _ => True) (card_read now o n).
Proof.
  unfold card_read. eapply guards_bind; [apply guards_range|intros _ _]. eapply guards_bind; [apply guards_begin|intros op _].
  eapply guards_bind; [apply guards_still, still_touches|intros bad _]. destruct bad; [apply guards_injected|].
  eapply guards_bind; [apply guards_still, still_wait|intros _ _]. eapply (guards_bind (fun _ => True)).
  - apply guards_host; [|done]. eapply guards_bind; [apply guards_get|intros c _; by apply guards_ret].
  - intros data _. eapply guards_bind; [apply guards_get|intros c _]. do 2 (eapply guards_bind; [apply guards_still, still_count|intros _ _]). by apply guards_ret.
Qed.

Lemma guards_store op o data fua : quiet (mkPending o data) -> guards (fun _ => True) (store_write op o data fua).
Proof.
  intros Hq. unfold store_write. eapply guards_bind; [apply guards_get|intros c Hc]. rewrite (sb_profile _ Hc). destruct (cache_enabled _) eqn:He.
  - eapply (guards_bind (fun _ => True)); [apply guards_still; still_tac|intros thr _]. destruct thr.
    + eapply guards_bind; [apply guards_persist_pending|intros _ _]. eapply guards_bind; [apply (guards_persist _ Hq)|intros _ _]. apply guards_sync.
    + eapply (guards_bind (fun _ => True)); [apply guards_still; still_tac|intros _ _]. eapply guards_bind; [|intros _ _; apply guards_evict_cache].
      apply guards_modify. intros c' []. constructor; cbn; try done; [|by rewrite He]. apply Forall_app. split; [done|by constructor].
  - eapply guards_bind; [apply (guards_persist _ Hq)|intros _ _]. apply guards_sync.
Qed.

Lemma quiet_at o data d : 0 <= o -> o + len data <= size_bytes (device p) -> brings (mkPending o d) -> reaches p data d -> quiet (mkPending o d).
Proof. intros Ho Hl Hb Hd. split; [|done]. apply length_reaches in Hd. unfold inside_of, zlen in *. cbn. by rewrite Hd. Qed.

Lemma guards_write now o data fua : 0 <= o -> (forall d, reaches p data d -> brings (mkPending o d)) -> guards (fun _ => True) (card_write now o data fua).
Proof.
  intros Ho Hb. unfold card_write. eapply guards_bind; [apply guards_range|intros u Hl]. cbn beta in Hl. eapply guards_bind; [apply guards_begin|intros op _].
  eapply guards_bind; [apply guards_get|intros c _]. destruct (decide _) as [Hro|Hro]; [apply guards_fail|].
  eapply guards_bind; [apply guards_still, still_touches|intros bad _]. destruct bad; [apply guards_injected|].
  eapply guards_bind; [apply guards_still, still_wait|intros _ _]. eapply guards_bind; [apply guards_still, still_apply_wear|intros _ _].
  eapply guards_bind; [apply guards_still, still_chance|intros torn _]. destruct torn.
  - eapply guards_bind; [apply guards_still, still_torn|intros n _]. eapply guards_bind.
    { apply (guards_persist (mkPending o (take (Z.to_nat n) data))). apply (quiet_take (mkPending o data)), (quiet_at o data data); [done|done|apply Hb; by left|by left]. }
    intros _ _. eapply guards_bind; [apply guards_sync|intros _ _]. do 2 (eapply guards_bind; [apply guards_still, still_count|intros _ _]).
    eapply guards_bind; [apply guards_still, still_fault|intros _ _]. apply guards_fail.
  - eapply guards_bind; [apply guards_corrupt|intros d Hd]. do 2 (eapply guards_bind; [apply guards_still, still_count|intros _ _]).
    apply guards_store. eapply quiet_at; [done|exact Hl|by apply Hb|done].
Qed.

Lemma guards_flush now : guards (fun _ => True) (card_flush now).
Proof.
  unfold card_flush. eapply guards_bind; [apply guards_begin|intros op _]. eapply guards_bind; [apply guards_still, still_wait|intros _ _].
  eapply guards_bind; [apply guards_still, still_count|intros _ _]. eapply guards_bind; [apply guards_get|intros c _].
  eapply guards_bind; [apply guards_still, still_chance|intros hit _]. destruct hit; [apply guards_still; still_tac|].
  eapply guards_bind; [apply guards_persist_pending|intros _ _]. apply guards_sync.
Qed.

Lemma settled_view c b : settled_byte c -> view c !! i = Some b -> allowed b.
Proof.
  intros [H1 _ _ _ Hq _ Hb] E. apply apply_all_source in E as [E|(w & Hw & Hc & E)]; [by apply Hb| |].
  - rewrite Forall_forall in Hq. by apply (Hq w).
  - rewrite H1. eapply Forall_impl; [exact Hq|]. by intros w [Hw _].
Qed.
End Keep.

(** ** Sequences of operations *)

(** What the NBD server and the control socket ask of a card. *)
Inductive CardOp :=
  | OpRead (now offset length : Z)
  | OpWrite (now offset : Z) (data : bytes) (fua : bool)
  | OpFlush (now : Z)
  | OpPowerLoss
  | OpDetach
  | OpReset
  | OpSetReadOnly (read_only : bool).

Definition no_data (m : Card unit) : Card bytes := m ;^ em_ret [].
Definition run_op (op : CardOp) : Card bytes :=
  match op with
  | OpRead now offset length => card_read now offset length
  | OpWrite now offset data fua => no_data (card_write now offset data fua)
  | OpFlush now => no_data (card_flush now)
  | OpPowerLoss => no_data power_loss
  | OpDetach => no_data detach
  | OpReset => no_data card_reset
  | OpSetReadOnly read_only => no_data (set_read_only read_only)
  end.
Definition run_ops (ops : list CardOp) (c : SdCard) : SdCard := foldl (fun c op => (run_op op c).1) c ops.

Definition op_typed (op : CardOp) : Prop :=
  match op with OpRead _ offset length => 0 <= offset /\ 0 <= length | OpWrite _ offset _ _ => 0 <= offset | _ => True end.
Definition op_covers (op : CardOp) (i : nat) : bool :=
  match op with OpWrite _ offset data _ => covers (mkPending offset data) i | _ => false end.
(** What [op] can write. *)
Definition op_writes (p : Profile) (op : CardOp) (w : PendingWrite) : Prop :=
  match op with OpWrite _ offset data _ => exists d, reaches p data d /\ w = mkPending offset d | _ => False end.

Section KeepOps.
Context (i : nat) (allowed : Z -> Prop) (p : Profile) (worn bad_blocks : nat).

Lemma run_op_keeps op c c' r : op_typed op -> (forall w, op_writes p op w -> brings i allowed w) -> run_op op c = (c', r) -> settled_byte i allowed p worn bad_blocks c ->
  settled_byte i allowed p worn bad_blocks c'.
Proof.
  intros Ht Hn E Hc.
  assert (Hno : forall m, guards i allowed p worn bad_blocks (fun _ => True) m -> guards i allowed p worn bad_blocks (fun _ => True) (no_data m)).
  { intros m Hm. eapply guards_bind; [exact Hm|intros _ _; by apply guards_ret]. }
  assert (Hrun : guards i allowed p worn bad_blocks (fun _ => True) (run_op op)); [|by eapply (Hrun c c' r)].
  destruct op as [now o n|now o d fua|now| | | |ro]; cbn [run_op]; try apply Hno.
  - apply guards_read.
  - apply guards_write; [done|]. intros d' Hd. apply Hn. by exists d'.
  - apply guards_flush.
  - apply guards_power_loss.
  - apply guards_power_loss.
  - apply guards_modify. intros c0 []. by constructor.
  - apply guards_modify. intros c0 []. by constructor.
Qed.
Lemma uncovered_brings op w : op_covers op i = false -> op_writes p op w -> brings i allowed w.
Proof.
  destruct op; try done. cbn. intros Hc (d & Hd & ->) b Hb. apply length_reaches in Hd. unfold covers, zlen in *. cbn in *. rewrite Hd in Hb. congruence.
Qed.
Lemma run_ops_keep ops : forall c, Forall op_typed ops -> Forall (fun op => op_covers op i = false) ops -> 
  settled_byte i allowed p worn bad_blocks c -> settled_byte i allowed p worn bad_blocks (run_ops ops c).
Proof.
  induction ops as [|op ops IH]; intros c Ht Hn Hc; [done|]. apply Forall_cons in Ht as [Ht Hts]. apply Forall_cons in Hn as [Hn Hns].
  apply IH; [done|done|]. destruct (run_op op c) as [c' r] eqn:E. eapply run_op_keeps; [exact Ht| |exact E|done]. intros w. by apply uncovered_brings.
Qed.
End KeepOps.
