(* ===== verification/SdCardHost.v ===== *)
(** * SdCardHost: the calls the card makes on its backing file

    An operation of the card either meets no failing call of the backing file,
    and then does what it does over a file that never fails, or stops at the
    first one with an I/O error. *)
From S2P Require Import Prelude Errors Bytes Model Effects SdProfile SdCard SdCardInv SdCardRun SdCardKeep.

(** The same card over a file that never fails. *)
Definition over_good_file (c : SdCard) : SdCard := set_host [] c.

(** The calls from [c] to [c'] succeed. *)
Definition calls_succeed (c c' : SdCard) : Prop := exists used, sd_host c = used ++ sd_host c' /\ Forall (eq None) used.

Definition meets_host {A} (m : Card A) : Prop :=
  forall c c' r, m c = (c', r) ->
    calls_succeed c c' /\ m (over_good_file c) = (over_good_file c', r)
    \/ (exists used f, sd_host c = used ++ Some f :: sd_host c') /\ exists context, r = inl (DeviceError CodeIo context).

Lemma calls_succeed_refl c c' : sd_host c' = sd_host c -> calls_succeed c c'.
Proof. intros Hh. exists []. by rewrite Hh. Qed.
Lemma calls_succeed_trans a b c : calls_succeed a b -> calls_succeed b c -> calls_succeed a c.
Proof. intros (u & E1 & F1) (v & E2 & F2). exists (u ++ v). split; [by rewrite E1, E2, app_assoc|by apply Forall_app]. Qed.

Lemma meets_bind {A B} (m : Card A) (k : A -> Card B) : meets_host m -> (forall a, meets_host (k a)) -> meets_host (em_bind m k).
Proof.
  intros Hm Hk c c' r E. unfold em_bind in *. destruct (m c) as [c1 r1] eqn:E1. apply Hm in E1 as [[Hc E1]|[Hf [ctx ->]]].
  - rewrite E1. destruct r1 as [e|a]; [injection E as <- <-; by left|]. apply Hk in E as [[Hc2 E2]|[(u & f & E2) He]].
    + left. split; [by eapply calls_succeed_trans|done].
    + right. split; [|done]. destruct Hc as (v & Ev & _). exists (v ++ u), f. by rewrite Ev, E2, app_assoc.
  - injection E as <- <-. right. split; [done|by eexists].
Qed.
(** A continuation that reads the card does not look at the calls to come. *)
Lemma meets_get {B} (k : SdCard -> Card B) : (forall c, k (over_good_file c) = k c) -> (forall c, meets_host (k c)) -> meets_host (em_bind em_get k).
Proof. intros Hg Hk c c' r E. unfold em_bind, em_get in *. apply Hk in E. by rewrite Hg. Qed.
Lemma meets_pure {A} (m : Card A) : (forall c, sd_host (m c).1 = sd_host c /\ m (over_good_file c) = (over_good_file (m c).1, (m c).2)) -> meets_host m.
Proof. intros Hm c c' r E. specialize (Hm c). rewrite E in Hm. destruct Hm as [Hh Hg]. left. split; [by apply calls_succeed_refl|done]. Qed.
Lemma meets_ret {A} (a : A) : meets_host (em_ret a).
Proof. by apply meets_pure. Qed.
Lemma meets_err {A} e : meets_host (@em_err _ _ A e).
Proof. by apply meets_pure. Qed.
Lemma meets_modify f : (forall c, sd_host (f c) = sd_host c) -> (forall c, f (over_good_file c) = over_good_file (f c)) -> meets_host (modify_card f).
Proof. intros Hh Hg. apply meets_pure. intros c. unfold modify_card. cbn. by rewrite Hh, Hg. Qed.

Lemma meets_call {A} context broken (m : Card A) : (forall n c, sd_host (broken n c) = sd_host c) -> meets_host m -> meets_host (host context broken m).
Proof.
  intros Hb Hm c c' r E. unfold host in *. cbn. destruct (sd_host c) as [|[[kind n]|] rest] eqn:Eh.
  - apply Hm in E as [[Hc E]|[(u & f & E2) He]]; [by left|right]. split; [exists u, f; by rewrite <- E2|done].
  - injection E as <- <-. right. split; [exists [], (kind, n); by rewrite Hb|by eexists].
  - apply Hm in E as [[(u & Eu & Fu) E]|[(u & f & E2) He]]; cbn in *.
    + left. split; [exists (None :: u); rewrite Eh, Eu; split; [done|by constructor]|done].
    + right. split; [exists (None :: u), f; by rewrite E2|done].
Qed.

Create HintDb meets discriminated.
(** Take a step of an operation apart. *)
Ltac meets_tac :=
  repeat first
    [ progress intros
    | done
    | match goal with
      | |- meets_host (em_bind em_get _) => apply meets_get; [done|]
      | |- meets_host (em_bind _ _) => apply meets_bind
      | |- meets_host (em_ret _) => apply meets_ret
      | |- meets_host (em_err _) => apply meets_err
      | |- meets_host (device_fail _ _) => apply meets_err
      | |- meets_host (modify_card _) => apply meets_modify; done
      | |- meets_host (host _ _ _) => apply meets_call; [done|]
      | |- meets_host (if ?b then _ else _) => destruct b
      | |- meets_host (match ?x with _ => _ end) => destruct x
      end
    | by auto with meets ].

Lemma meets_count k n : meets_host (count_up k n).
Proof. unfold count_up. meets_tac. Qed.
Lemma meets_put k v : meets_host (put_count k v).
Proof. unfold put_count. meets_tac. Qed.
Lemma meets_fault kind n o : meets_host (record_fault kind n o).
Proof. unfold record_fault. meets_tac. Qed.
Lemma meets_fault_offset o : meets_host (set_fault_offset o).
Proof. unfold set_fault_offset. meets_tac. Qed.
Lemma meets_draw : meets_host draw.
Proof. by apply meets_pure. Qed.
#[export] Hint Resolve meets_count meets_put meets_fault meets_fault_offset meets_draw : meets.
Lemma meets_below n : meets_host (below n).
Proof. unfold below. meets_tac. Qed.
#[export] Hint Resolve meets_below : meets.
Lemma meets_chance n : meets_host (chance n).
Proof. unfold chance. meets_tac. Qed.
Lemma meets_torn n : meets_host (torn_length n).
Proof. unfold torn_length. meets_tac. Qed.
Lemma meets_shuffle_from {A} k : forall l : list A, meets_host (shuffle_from k l).
Proof. induction k as [|k IH]; intros l; cbn [shuffle_from]; meets_tac. Qed.
Lemma meets_injected {A} kind o : meets_host (@injected_error A kind o).
Proof. unfold injected_error. meets_tac. Qed.
#[export] Hint Resolve meets_chance meets_torn meets_shuffle_from meets_injected : meets.

Lemma meets_range o n : meets_host (check_range o n).
Proof. unfold check_range. meets_tac. Qed.
Lemma meets_touches o n : meets_host (touches_bad_block o n).
Proof. unfold touches_bad_block. meets_tac. Qed.
Lemma meets_wait w n now : meets_host (wait_for_io w n now).
Proof. unfold wait_for_io. meets_tac. Qed.
Lemma meets_wear_block b : meets_host (wear_block b).
Proof. unfold wear_block. meets_tac. Qed.
#[export] Hint Resolve meets_range meets_touches meets_wait meets_wear_block : meets.
Lemma meets_for_each {A} (f : A -> Card unit) l : (forall a, meets_host (f a)) -> meets_host (em_for_each f l).
Proof. intros Hf. induction l as [|a l IH]; cbn [em_for_each]; meets_tac. Qed.
Lemma meets_fold {A B} (f : B -> A -> Card B) l : (forall b a, meets_host (f b a)) -> forall b, meets_host (em_fold f b l).
Proof. intros Hf. induction l as [|a l IH]; intros b; cbn [em_fold]; meets_tac. Qed.
Lemma meets_apply_wear o n : meets_host (apply_wear o n).
Proof. unfold apply_wear. meets_tac. apply meets_for_each. meets_tac. Qed.
Lemma meets_corrupt op o data : meets_host (corrupt op o data).
Proof. unfold corrupt. meets_tac. Qed.
Lemma meets_persist o d : meets_host (persist o d).
Proof. unfold persist. meets_tac. Qed.
Lemma meets_sync context : meets_host (sync_data context).
Proof. unfold sync_data. meets_tac. Qed.
Lemma meets_read_backing o n : meets_host (read_backing o n).
Proof. unfold read_backing. meets_tac. Qed.
#[export] Hint Resolve meets_apply_wear meets_corrupt meets_persist meets_sync meets_read_backing : meets.

Lemma meets_persist_all l : meets_host (persist_all l).
Proof. induction l as [|w l IH]; cbn [persist_all]; meets_tac. Qed.
#[export] Hint Resolve meets_persist_all : meets.
Lemma meets_persist_pending : meets_host persist_pending.
Proof. unfold persist_pending. meets_tac. Qed.
Lemma meets_evict l : forall ev, meets_host (evict l ev).
Proof. induction l as [|w l IH]; intros ev; cbn [evict]; meets_tac. Qed.
#[export] Hint Resolve meets_persist_pending meets_evict : meets.
Lemma meets_evict_cache : meets_host evict_cache.
Proof. unfold evict_cache. meets_tac. Qed.
Lemma meets_lose_write kept w : meets_host (lose_write kept w).
Proof. unfold lose_write. meets_tac. Qed.
#[export] Hint Resolve meets_evict_cache meets_lose_write : meets.
Lemma meets_power_loss kind : meets_host (apply_power_loss kind).
Proof. unfold apply_power_loss, shuffle. meets_tac. apply meets_fold. meets_tac. Qed.
#[export] Hint Resolve meets_power_loss : meets.
Lemma meets_begin o : meets_host (begin_operation o).
Proof. unfold begin_operation. meets_tac. Qed.
Lemma meets_store op o data fua : meets_host (store_write op o data fua).
Proof. unfold store_write. meets_tac. Qed.
#[export] Hint Resolve meets_begin meets_store : meets.

Lemma run_op_meets op : meets_host (run_op op).
Proof.
  destruct op; cbn [run_op]; unfold no_data, card_read, card_write, card_flush, power_loss, detach, card_reset, set_read_only; meets_tac.
Qed.
