(* ===== verification/SdProps.v ===== *)
(** * SdProps: the emulated card as a disk *)
From S2P Require Import Prelude Errors Bytes Model Effects SdProfile SdCard SdCardInv SdCardRun SdCardKeep SdCardHost.

(** ** Opening *)

(** The [u64] fields the bounds need. *)
Definition profile_typed (p : Profile) : Prop := 0 <= size_bytes (device p) /\ 0 <= cache_max_bytes (cache p).

Lemma require_ok b m u (k : ConfigError + unit) : also (require b m) k = inr u -> b = true /\ k = inr u.
Proof. by destruct b. Qed.

Lemma validate_erase p u : Profile_validate p = inr u -> 0 < erase_block_bytes (device p).
Proof.
  unfold Profile_validate. do 3 (intros [_ H]%require_ok; revert H).
  intros [Hl H]%require_ok; revert H. intros [He _]%require_ok.
  apply negb_true_iff, orb_false_iff in Hl as [Hl%Z.ltb_ge _]. apply negb_true_iff, orb_false_iff in He as [He%Z.ltb_ge _]. lia.
Qed.

(** The most the cache holds after an operation that meets no failing call. *)
Definition fullest (c : SdCard) : Z := Z.max (cache_max_bytes (cache (sd_profile c))) (pending_bytes (sd_pending c)).
(** The state between operations, whatever the calls on the backing file do. *)
Definition card_sound (c : SdCard) : Prop := card_ok (fullest c) (over_good_file c).

Lemma card_ok_sound most c : card_ok most (over_good_file c) -> card_sound c.
Proof. intros []. constructor; try done; unfold fullest; [apply Z.le_max_l|apply Z.le_max_r]. Qed.

Lemma card_open_ok p seed now backing host_calls c : profile_typed p -> card_open p seed now backing host_calls = inr c ->
  card_sound c /\ sd_profile c = p /\ sd_host c = host_calls /\ sd_pending c = [].
Proof.
  intros [Hs Hm] E. unfold card_open in E. destruct (Profile_validate p) as [[m]|u] eqn:Ev; [done|]. apply validate_erase in Ev.
  destruct (_ && _) eqn:Eg; [done|]. injection E as <-. split; [|done]. constructor; cbn; unfold fullest; cbn; try done; try lia.
  - destruct (_ =? 0) eqn:E0; [unfold zlen; rewrite length_replicate; lia|]. by apply negb_false_iff, Z.eqb_eq in Eg.
  - unfold erase_blocks. by rewrite length_replicate.
  - unfold erase_blocks. by rewrite length_replicate.
Qed.

(** ** The disk *)

(** Offline, nothing cached, and a file made of the old one and of what was
    cached. *)
Definition loses_power (c c' : SdCard) : Prop :=
  sd_status c' = Offline /\ sd_pending c' = [] /\ crash_image (sd_file c) (sd_pending c) (sd_file c').
(** An error that is not a disconnection leaves [P] true. *)
Definition refused (c c' : SdCard) (e : CardError) (P : Prop) : Prop :=
  match e with
  | DeviceError CodeDisconnected _ => sd_status c' = Offline /\ (view c' = view c \/ loses_power c c')
  | DeviceError _ _ => P
  | CardPanic => False
  end.

(** What each operation does to the bytes a client sees. *)
Definition disk_effect (op : CardOp) (c c' : SdCard) (r : CardError + bytes) : Prop :=
  match op, r with
  | OpRead _ o n, inr data => data = slice (Z.to_nat o) (Z.to_nat (o + n)) (view c) /\ view c' = view c
  | OpWrite _ o data fua, inr _ =>
      exists d, reaches (sd_profile c) data d /\ view c' = splice o d (view c)
                /\ (fua = true -> false_flush_probability_ppm (cache (sd_profile c)) = 0 -> settled c')
  | OpFlush _, inr _ => view c' = view c /\ (false_flush_probability_ppm (cache (sd_profile c)) = 0 -> settled c')
  | (OpRead _ _ _ | OpFlush _), inl e => refused c c' e (view c' = view c)
  | OpWrite _ o data _, inl e => refused c c' e (crash_image (view c) [mkPending o data] (view c'))
  | (OpPowerLoss | OpDetach), _ => r = inr [] /\ loses_power c c'
  | (OpReset | OpSetReadOnly _), _ => r = inr [] /\ view c' = view c
  end.

Lemma no_data_run m c c' r : no_data m c = (c', r) -> exists r', m c = (c', r') /\ r = match r' with inl e => inl e | inr _ => inr [] end.
Proof. unfold no_data, em_bind. destruct (m c) as [c1 [e|[]]]; intros [= <- <-]; by eexists. Qed.

Lemma power_cut_loses c c' : power_cut c c' -> loses_power c c'.
Proof. intros (f & M & C & Ho). split; [done|]. split; [apply M|]. by rewrite (mv_file _ _ _ _ M). Qed.
Lemma after_error_refused c c' e P : after_error c c' e P -> refused c c' e P.
Proof.
  destruct e as [[] m|]; try done. intros [[S Ho]|Hc]; [split; [done|left; by apply still_view]|]. apply power_cut_loses in Hc. by split; [apply Hc|right].
Qed.

Lemma run_op_disk most op c c' r : card_ok most c -> op_typed op -> run_op op c = (c', r) -> card_ok most c' /\ disk_effect op c c' r.
Proof.
  intros Hok Ht E. destruct op as [now o n|now o d fua|now| | | |ro]; cbn [run_op] in E; try apply no_data_run in E as (r' & E & ->).
  - destruct Ht as [Ho Hn]. apply (card_read_run most) in E as [Hok' Hd]; [|done..]. split; [done|]. destruct r; [by apply after_error_refused|done].
  - apply (card_write_run most) in E as [Hok' Hd]; [|done..]. split; [done|]. destruct r'; [by apply after_error_refused|done].
  - apply (card_flush_run most) in E as [Hok' Hd]; [|done..]. split; [done|]. destruct r'; [by apply after_error_refused|done].
  - apply apply_power_loss_run in E as [-> P]; [|apply Hok..]. split; [by eapply power_cut_ok|]. by split; [|apply power_cut_loses].
  - apply apply_power_loss_run in E as [-> P]; [|apply Hok..]. split; [by eapply power_cut_ok|]. by split; [|apply power_cut_loses].
  - injection E as <- <-. split; [destruct Hok; by constructor|done].
  - injection E as <- <-. split; [destruct Hok; by constructor|done].
Qed.

(** *** When a call on the backing file fails *)

(** A byte [op] can leave: the file's, a cached write's or a new one. *)
Definition a_byte_of (op : CardOp) (c : SdCard) (i : nat) (b : Z) : Prop :=
  sd_file c !! i = Some b \/ from_write (sd_pending c) i b \/ exists w, op_writes (sd_profile c) op w /\ from_write [w] i b.
(** Nothing but such bytes in the file and for its readers. *)
Definition falls_back (op : CardOp) (c c' : SdCard) : Prop :=
  forall i b, sd_file c' !! i = Some b \/ view c' !! i = Some b -> a_byte_of op c i b.

Lemma run_op_settles op c c' r i : card_sound c -> op_typed op -> run_op op c = (c', r) ->
  settled_byte i (a_byte_of op c i) (sd_profile c) (length (sd_wear c)) (length (sd_bad c)) c'.
Proof.
  intros Hok Ht E. eapply run_op_keeps; [exact Ht| |exact E|].
  - intros w Hw b Hc Hb. right; right. exists w. split; [done|]. exists w. split; [left|done].
  - destruct Hok as [_ H1 _ _ _ H2 _ _ _ H3]. cbn in H1, H2.
    constructor; try done; [|by left]. apply Forall_forall. intros w Hw.
    rewrite Forall_forall in H2. split; [rewrite <- H1; by apply H2|]. intros b Hc Hb. right; left. by exists w.
Qed.
Lemma run_op_falls_back op c c' r : card_sound c -> op_typed op -> run_op op c = (c', r) -> card_sound c' /\ falls_back op c c'.
Proof.
  intros Hok Ht E. pose proof (fun i => run_op_settles op c c' r i Hok Ht E) as Hs. split.
  - specialize (Hs 0%nat). destruct Hok as [_ _ H2 H3 H4 _ H6 _ _ _]. cbn in *. destruct Hs as [S1 S2 S3 S4 S5 S6 _].
    constructor; cbn [over_good_file set_host sd_host sd_file sd_profile sd_wear sd_bad sd_pending]; unfold fullest; rewrite ?S2, ?S3, ?S4; try done.
    + rewrite S1. eapply Forall_impl; [exact S5|]. by intros w [Hw _].
    + apply Z.le_max_l.
    + apply Z.le_max_r.
  - intros i b [Hb|Hb]; [by apply (sb_byte _ _ _ _ _ _ (Hs i))|]. by eapply settled_view.
Qed.

(** One operation, over any backing file. *)
Lemma run_op_sound op c c' r : card_sound c -> op_typed op -> run_op op c = (c', r) ->
  card_sound c' /\ sd_profile c' = sd_profile c
  /\ (calls_succeed c c' /\ disk_effect op c c' r /\ pending_bytes (sd_pending c') <= fullest c
      \/ (exists used f, sd_host c = used ++ Some f :: sd_host c') /\ (exists context, r = inl (DeviceError CodeIo context)) /\ falls_back op c c').
Proof.
  intros Hok Ht E. destruct (run_op_falls_back _ _ _ _ Hok Ht E) as [Hok' Hf]. split; [done|].
  split; [apply (sb_profile _ _ _ _ _ _ (run_op_settles _ _ _ _ 0 Hok Ht E))|].
  apply run_op_meets in E as [[Hc E]|[Hc He]]; [left|by right]. apply (run_op_disk _ _ _ _ _ Hok Ht) in E as [Hok2 Hd].
  split; [done|]. split; [exact Hd|apply (ok_bound _ _ Hok2)].
Qed.

Lemma run_ops_sound ops : forall c, card_sound c -> Forall op_typed ops -> card_sound (run_ops ops c) /\ sd_profile (run_ops ops c) = sd_profile c.
Proof.
  induction ops as [|op ops IH]; intros c Hok Ht; [done|]. apply Forall_cons in Ht as [Ht Hts]. cbn.
  destruct (run_op op c) as [c1 r1] eqn:E. apply run_op_sound in E as (Hok1 & Hp & _); [|done..]. rewrite <- Hp. by apply IH.
Qed.

Lemma run_op_no_panic op c c' : card_sound c -> op_typed op -> run_op op c = (c', inl CardPanic) -> False.
Proof.
  intros Hok Ht E. apply run_op_sound in E as (_ & _ & [(_ & Hd & _)|(_ & [ctx Hr] & _)]); [|done..].
  by destruct op; cbn in Hd; [done|done|done|destruct Hd as [? _]..].
Qed.

(** The cache over a file that never fails. *)
Definition within_cache (c : SdCard) : Prop :=
  Forall (eq None) (sd_host c) /\ pending_bytes (sd_pending c) <= cache_max_bytes (cache (sd_profile c)).
Lemma run_op_within op c c' r : card_sound c -> op_typed op -> run_op op c = (c', r) -> within_cache c -> within_cache c'.
Proof.
  intros Hok Ht E [Hn Hb]. apply run_op_sound in E as (_ & Hp & [((u & Eu & Fu) & _ & Hb')|[(u & f & Eu) _]]); [|..|done|done].
  - rewrite Eu in Hn. apply Forall_app in Hn as [_ Hn]. split; [done|]. rewrite Hp. unfold fullest in Hb'. lia.
  - rewrite Eu in Hn. apply Forall_app in Hn as [_ Hn]. by apply Forall_cons in Hn as [? _].
Qed.
Lemma run_ops_within ops : forall c, card_sound c -> Forall op_typed ops -> within_cache c -> within_cache (run_ops ops c).
Proof.
  induction ops as [|op ops IH]; intros c Hok Ht Hw; [done|]. apply Forall_cons in Ht as [Ht Hts]. cbn.
  destruct (run_op op c) as [c1 r1] eqn:E. apply run_op_sound in E as H1; [|done..]. apply IH; [apply H1|done|]. by eapply run_op_within.
Qed.

(** ** Flushing *)

(** The card between operations, whatever its backing file does. *)
Definition card_shaped (c : SdCard) : Prop :=
  len (sd_file c) = size_bytes (device (sd_profile c)) /\ Forall (inside_of (size_bytes (device (sd_profile c)))) (sd_pending c).

Lemma host_ok {A} context broken (op : Card A) c c' a : host context broken op c = (c', inr a) -> exists rest, op (set_host rest c) = (c', inr a).
Proof. unfold host. destruct c as [? ? [|[[kind n]|] rest]]; [by exists []|done|by exists rest]. Qed.

Lemma persist_ok o d c c' u : persist o d c = (c', inr u) ->
  sd_file c' = splice o d (sd_file c) /\ sd_pending c' = sd_pending c /\ sd_profile c' = sd_profile c.
Proof. intros E. apply em_bind_inr in E as (v & c1 & E1 & E). apply host_ok in E1 as [rest [= <- <-]]. by injection E as <- <-. Qed.

Lemma persist_all_ok ws : forall c c' u, persist_all ws c = (c', inr u) ->
  sd_file c' = foldl apply_write (sd_file c) ws /\ sd_pending c' = sd_pending c /\ sd_profile c' = sd_profile c.
Proof.
  induction ws as [|w ws IH]; intros c c' u E; [by injection E as <- <-|]. apply em_bind_inr in E as (v & c1 & E1 & E).
  apply persist_ok in E1 as (F1 & P1 & Q1). apply IH in E as (F2 & P2 & Q2). cbn. unfold apply_write at 2. by rewrite <- F1, F2, P2, Q2.
Qed.

Lemma begin_ok o c c' op : begin_operation o c = (c', inr op) -> still c c'.
Proof.
  intros E. unfold begin_operation in E. apply em_bind_inr in E as (c0 & c1 & [= <- <-] & E). destruct (decide _); [done|].
  apply em_bind_inr in E as (u & c2 & E2 & E). apply still_count in E2 as S2. apply em_bind_inr in E as (c3 & c4 & [= <- <-] & E).
  destruct (decide _); [by apply em_bind_inr in E as (? & ? & _ & [=])|]. destruct (decide _); [by apply em_bind_inr in E as (? & ? & _ & [=])|].
  eapply still_trans; [exact S2|]. revert E. apply still_bind; [still_tac|intros _]. apply still_bind; [apply still_chance|intros hit].
  destruct hit; [apply still_injected|by apply still_id].
Qed.

Lemma card_flush_settles now c c' : false_flush_probability_ppm (cache (sd_profile c)) = 0 -> card_flush now c = (c', inr tt) ->
  sd_file c' = view c /\ sd_pending c' = [] /\ sd_profile c' = sd_profile c.
Proof.
  intros Hz E. unfold card_flush in E. apply em_bind_inr in E as (op & c1 & E1%begin_ok & E).
  apply em_bind_inr in E as (u & c2 & E2%still_wait & E). apply em_bind_inr in E as (u' & c3 & E3%still_count & E).
  pose proof (still_trans _ _ _ (still_trans _ _ _ E1 E2) E3) as S. apply em_bind_inr in E as (c4 & c5 & [= <- <-] & E).
  rewrite (st_profile _ _ S), Hz in E. apply em_bind_inr in E as (hit & c6 & [= <- <-] & E).
  apply em_bind_inr in E as (v & c7 & E7 & E). apply host_ok in E as [rest [= <-]]. cbn.
  apply em_bind_inr in E7 as (c8 & c9 & [= <- <-] & E7). apply em_bind_inr in E7 as (v' & c10 & [= <-] & E7).
  apply persist_all_ok in E7 as (F & P & Q). cbn in F, P, Q. rewrite F, P, Q. rewrite <- (still_view _ _ S). split_and!; [done|done|apply S].
Qed.

(** C33.  A card opened from a valid profile behaves as a disk, after any
    operations and whatever the calls on its backing file do.  An operation
    that meets no failing call: a read returns the last bytes written, through
    the cache; a write that succeeds puts its bytes (or, when the profile
    corrupts, the bytes with one bit flipped) and nothing else; a flush and a
    FUA write that are not faked leave nothing in the cache and everything in
    the file; a write that fails leaves every byte old or new; every other error
    leaves the contents; a disconnection or a power loss leaves each byte of the
    file as it was or as one of the cached writes has it, the card offline,
    nothing cached.  An operation that meets a failing call reports an I/O
    error, and each byte is then the file's, a cached write's or the new one:
    cached writes can be lost, and nothing else appears.  No operation panics,
    the size stays, and over a file whose calls succeed the cache never holds
    more than its limit. *)
Theorem card_behaves_as_a_disk p seed now backing host_calls c0 ops op c' r :
  profile_typed p -> card_open p seed now backing host_calls = inr c0 -> Forall op_typed ops -> op_typed op ->
  let c := run_ops ops c0 in
  run_op op c = (c', r) ->
  (calls_succeed c c' /\ disk_effect op c c' r
   \/ (exists used f, sd_host c = used ++ Some f :: sd_host c') /\ (exists context, r = inl (DeviceError CodeIo context)) /\ falls_back op c c')
  /\ len (view c') = size_bytes (device p)
  /\ (Forall (eq None) host_calls -> pending_bytes (sd_pending c') <= cache_max_bytes (cache p)).
Proof.
  intros Hp Ho Hops Hop c E. apply card_open_ok in Ho as (Hok0 & Hpr & Hh & Hpe); [|done].
  pose proof (run_ops_sound ops c0 Hok0 Hops) as [Hok Hpc]. fold c in Hok, Hpc. apply run_op_sound in E as Hs; [|done..].
  destruct Hs as (Hok' & Hp' & Hcase). split; [destruct Hcase as [(H1 & H2 & _)|H1]; [by left|by right]|]. split.
  - pose proof (length_view _ _ Hok') as Hv. change (view (over_good_file c')) with (view c') in Hv. unfold zlen. rewrite Hv.
    rewrite <- Hpr, <- Hpc, <- Hp'. exact (ok_size _ _ Hok').
  - intros Hn. assert (Hw : within_cache c0).
    { split; [by rewrite Hh|]. rewrite Hpe. cbn. rewrite Hpr. apply Hp. }
    apply (run_ops_within ops) in Hw; [|done..]. eapply run_op_within in Hw; [|exact Hok|exact Hop|exact E]. destruct Hw as [_ Hw].
    by rewrite Hp', Hpc, Hpr in Hw.
Qed.

(** C34.  A flush that succeeds on a card without fake flushes is durable: a
    byte keeps its value in the backing file and for every reader through any
    operations, power losses, detachments, resets and failures of the backing
    file, until a write covers it. *)
Theorem flushed_bytes_survive now c c1 ops i :
  card_shaped c -> false_flush_probability_ppm (cache (sd_profile c)) = 0 -> card_flush now c = (c1, inr tt) ->
  Forall op_typed ops -> Forall (fun op => op_covers op i = false) ops -> Z.of_nat i < size_bytes (device (sd_profile c)) ->
  sd_file (run_ops ops c1) !! i = view c !! i /\ view (run_ops ops c1) !! i = view c !! i.
Proof.
  intros [Hl Hin] Hz E Ht Hn Hi. apply card_flush_settles in E as (F & P & Q); [|done]. rewrite <- Hl in Hin.
  pose proof (length_apply_all _ _ Hin) as Hv. destruct (view c !! i) as [b|] eqn:Eb; [|apply lookup_ge_None_1 in Eb; unfold view in Eb; zlia].
  assert (Hs : settled_byte i (eq b) (sd_profile c) (length (sd_wear c1)) (length (sd_bad c1)) c1).
  { constructor; try done; [rewrite F; unfold view, zlen in *; by rewrite Hv|rewrite P; constructor|]. rewrite F, Eb. by intros ? [= <-]. }
  apply (run_ops_keep _ _ _ _ _ ops) in Hs; [|done..]. pose proof (sb_size _ _ _ _ _ _ Hs) as Hsz.
  assert (Hlv : length (view (run_ops ops c1)) = length (sd_file (run_ops ops c1))).
  { apply length_apply_all. rewrite Hsz. eapply Forall_impl; [apply Hs|]. by intros w [Hw _]. }
  split.
  - destruct (sd_file (run_ops ops c1) !! i) as [x|] eqn:Ex; [f_equal; symmetry; by apply Hs|apply lookup_ge_None_1 in Ex; zlia].
  - destruct (view (run_ops ops c1) !! i) as [x|] eqn:Ex; [f_equal; symmetry; by eapply settled_view|apply lookup_ge_None_1 in Ex; zlia].
Qed.

(** ** A card *)

Definition demo_io : IoProfile := mkIoProfile 1000000 100 10 5 1000 20 30.
Definition demo_profile : Profile :=
  mkProfile 1 [65] (mkDevice 1024 512 512) demo_io demo_io (mkCache true 4 0 300000 300000 500000)
    (mkWear true 1 100 200 0 1) (mkFaults 0 0 0 (Some 40) None None).
Definition demo_card : SdCard :=
  mkCard demo_profile (replicate 1024 0) [] 7 [] [0; 0] [false; false] Online 0 0 0 Stats_new.

Lemma demo_card_opens : card_open demo_profile 7 0 None [] = inr demo_card.
Proof. reflexivity. Qed.

Definition demo_writes : list CardOp := [OpWrite 1 100 [1; 2; 3] false; OpWrite 2 101 [7; 8] false].

(** The same card over a file whose first call fails after one byte. *)
Definition failing_calls : list (option (string * nat)) := [Some ("StorageFull", 1%nat)].
Definition failing_card : SdCard := set_host failing_calls demo_card.
Definition first_write : CardOp := OpWrite 1 100 [1; 2; 3] false.
Definition second_write : CardOp := OpWrite 2 200 [7; 8] false.

Lemma card_behaves_as_a_disk_witness :
  ((run_op (OpRead 5 99 5) (run_ops demo_writes demo_card)).2 = inr [0; 1; 7; 8; 0]
   /\ disk_effect (OpRead 5 99 5) (run_ops demo_writes demo_card) (run_op (OpRead 5 99 5) (run_ops demo_writes demo_card)).1 (inr [0; 1; 7; 8; 0])
   /\ sd_pending (run_ops demo_writes demo_card) = [mkPending 101 [7; 8]])
  /\ falls_back second_write (run_ops [first_write] failing_card) (run_op second_write (run_ops [first_write] failing_card)).1
  /\ (run_op second_write (run_ops [first_write] failing_card)).2 = inl (DeviceError CodeIo "write backing file: {error}").
Proof.
  split; [|split; [|vm_compute; reflexivity]].
  - split; [vm_compute; reflexivity|]. split; [|vm_compute; reflexivity].
    destruct (card_behaves_as_a_disk demo_profile 7 0 None [] demo_card demo_writes (OpRead 5 99 5)
                (run_op (OpRead 5 99 5) (run_ops demo_writes demo_card)).1 (inr [0; 1; 7; 8; 0])) as [[[_ Hd]|[_ [[ctx Hr] _]]] _].
    + split; vm_compute; discriminate.
    + apply demo_card_opens.
    + repeat constructor; vm_compute; discriminate.
    + split; vm_compute; discriminate.
    + vm_compute. reflexivity.
    + exact Hd.
    + discriminate Hr.
  - destruct (card_behaves_as_a_disk demo_profile 7 0 None failing_calls failing_card [first_write] second_write
                (run_op second_write (run_ops [first_write] failing_card)).1 (run_op second_write (run_ops [first_write] failing_card)).2)
      as [[[(used & Hu & Hf) _]|[_ [_ Hd]]] _].
    + split; vm_compute; discriminate.
    + reflexivity.
    + repeat constructor; vm_compute; discriminate.
    + vm_compute. discriminate.
    + vm_compute. reflexivity.
    + destruct used as [|call used]; [vm_compute in Hu; discriminate Hu|]. apply Forall_cons in Hf as [<- _]. vm_compute in Hu. discriminate Hu.
    + exact Hd.
Defined.

(** [evict_cache] takes a cached write out of the cache before the file has it:
    when the call fails, a write that was answered is gone, and the failed write
    is in the cache. *)
Theorem failed_eviction_loses_an_answered_write :
  (run_op first_write failing_card).2 = inr []
  /\ (run_op second_write (run_op first_write failing_card).1).2 = inl (DeviceError CodeIo "write backing file: {error}")
  /\ (run_op (OpRead 5 100 3) (run_op second_write (run_op first_write failing_card).1).1).2 = inr [1; 0; 0]
  /\ (run_op (OpRead 5 200 2) (run_op second_write (run_op first_write failing_card).1).1).2 = inr [7; 8].
Proof. vm_compute. split_and!; reflexivity. Qed.

Definition demo_flushed : SdCard := (card_flush 9 (run_ops demo_writes demo_card)).1.
Definition demo_losses : list CardOp := [OpWrite 20 50 [9; 9] false; OpPowerLoss; OpReset; OpWrite 30 104 [4] true; OpDetach; OpRead 40 0 8].

Lemma flushed_bytes_survive_witness :
  sd_file (run_ops demo_losses demo_flushed) !! 102%nat = view (run_ops demo_writes demo_card) !! 102%nat
  /\ view (run_ops demo_losses demo_flushed) !! 102%nat = view (run_ops demo_writes demo_card) !! 102%nat.
Proof.
  apply (flushed_bytes_survive 9 (run_ops demo_writes demo_card) demo_flushed demo_losses 102).
  - split; [vm_compute; reflexivity|]. repeat constructor; vm_compute; discriminate.
  - vm_compute. reflexivity.
  - vm_compute. reflexivity.
  - repeat constructor; vm_compute; discriminate.
  - repeat constructor.
  - vm_compute. reflexivity.
Defined.
