(* ===== verification/Nbd.v ===== *)
(** * Nbd: [src/bench/sd-card-emulator/src/nbd.rs]

    A session of the NBD server: the handshake, the options and the requests of
    one connection.  The card is shared: at every lock the next entry of
    [ns_turns] says what other sessions and the control socket did before it was
    free, and the time.  The client sends [ns_in] and then closes the stream, or
    the stream fails with [ns_end]; [ns_room] is how much it takes before a
    write fails. *)
From S2P Require Import Prelude Errors Bytes Model Effects Wire SdProfile SdCard SdCardInv SdCardKeep.

Definition NBD_MAGIC : Z := 0x4e42_444d_4147_4943.
Definition NBD_OPTIONS_MAGIC : Z := 0x4948_4156_454f_5054.
Definition NBD_OPTION_REPLY_MAGIC : Z := 0x0003_e889_0455_65a9.
Definition NBD_REQUEST_MAGIC : Z := 0x2560_9513.
Definition NBD_SIMPLE_REPLY_MAGIC : Z := 0x6744_6698.
Definition NBD_FLAG_FIXED_NEWSTYLE : Z := 1.
Definition NBD_FLAG_NO_ZEROES : Z := 2.
Definition NBD_FLAG_HAS_FLAGS : Z := 1.
Definition NBD_FLAG_READ_ONLY : Z := 2.
Definition NBD_FLAG_SEND_FLUSH : Z := 4.
Definition NBD_FLAG_SEND_FUA : Z := 8.
Definition NBD_OPT_EXPORT_NAME : Z := 1.
Definition NBD_OPT_ABORT : Z := 2.
Definition NBD_OPT_LIST : Z := 3.
Definition NBD_OPT_INFO : Z := 6.
Definition NBD_OPT_GO : Z := 7.
Definition NBD_REP_ACK : Z := 1.
Definition NBD_REP_SERVER : Z := 2.
Definition NBD_REP_INFO : Z := 3.
Definition NBD_REP_ERR_UNSUP : Z := 2 ^ 31 + 1.
Definition NBD_REP_ERR_INVALID : Z := 2 ^ 31 + 3.
Definition NBD_REP_ERR_UNKNOWN : Z := 2 ^ 31 + 6.
Definition NBD_INFO_EXPORT : Z := 0.
Definition NBD_INFO_BLOCK_SIZE : Z := 3.
Definition NBD_CMD_READ : Z := 0.
Definition NBD_CMD_WRITE : Z := 1.
Definition NBD_CMD_DISC : Z := 2.
Definition NBD_CMD_FLUSH : Z := 3.
Definition NBD_CMD_FLAG_FUA : Z := 1.
Definition EXPORT_NAME : bytes := bstr "ftw-sd".
Definition MAX_OPTION_BYTES : Z := 1024 * 1024.
Definition MAX_REQUEST_BYTES : Z := 32 * 1024 * 1024.

(** ** A session *)

(** The error of a session; [CardLockPanic] is a panic inside the card, [OutOfFuel]
    is never the result of [serve_stream]. *)
Inductive NbdError := StreamError (kind : string) | ProtocolInvalid (message : string) | CardLockPanic | OutOfFuel.

Record Session := mkSession {
  ns_in : bytes;
  ns_end : option string;
  ns_out : bytes;
  ns_room : option nat;
  ns_turns : list (list CardOp * Z);
  ns_card : SdCard;
}.
Definition set_in v s := mkSession v (ns_end s) (ns_out s) (ns_room s) (ns_turns s) (ns_card s).
Definition set_out v room s := mkSession (ns_in s) (ns_end s) v room (ns_turns s) (ns_card s).
Definition set_turns v s := mkSession (ns_in s) (ns_end s) (ns_out s) (ns_room s) v (ns_card s).
Definition set_card v s := mkSession (ns_in s) (ns_end s) (ns_out s) (ns_room s) (ns_turns s) v.

Abbreviation Nbd := (EM Session NbdError).
Definition protocol_error {A} (message : string) : Nbd A := em_err (ProtocolInvalid message).

(** ** The stream *)

Definition nbd_read_exact (n : nat) : Nbd bytes := fun s =>
  if (n <=? length (ns_in s))%nat then (set_in (drop n (ns_in s)) s, inr (take n (ns_in s)))
  else (set_in [] s, inl (StreamError (default "UnexpectedEof"%string (ns_end s)))).

(** [stream.read] of one byte. *)
Definition read_one : Nbd (option Z) := fun s =>
  match ns_in s, ns_end s with
  | b :: rest, _ => (set_in rest s, inr (Some b))
  | [], None => (s, inr None)
  | [], Some kind => (s, inl (StreamError kind))
  end.

Definition nbd_write_all (data : bytes) : Nbd unit := fun s =>
  match ns_room s with
  | None => (set_out (ns_out s ++ data) None s, inr tt)
  | Some room =>
      if (length data <=? room)%nat then (set_out (ns_out s ++ data) (Some (room - length data)%nat) s, inr tt)
      else (set_out (ns_out s ++ take room data) (Some O) s, inl (StreamError "BrokenPipe"))
  end.

Definition read_u32 : Nbd Z := let^ b := nbd_read_exact 4 in em_ret (from_be b).
Definition read_u64 : Nbd Z := let^ b := nbd_read_exact 8 in em_ret (from_be b).
Definition write_u16 (v : Z) : Nbd unit := nbd_write_all (put_u16 v).
Definition write_u32 (v : Z) : Nbd unit := nbd_write_all (put_u32 v).
Definition write_u64 (v : Z) : Nbd unit := nbd_write_all (put_u64 v).

(** ** The card *)

(** [card.lock()]: what the others did, then the card and the time. *)
Definition next_turn (turns : list (list CardOp * Z)) : (list CardOp * Z) * list (list CardOp * Z) :=
  match turns with [] => (([], 0), []) | t :: rest => (t, rest) end.
Definition lock_card : Nbd (SdCard * Z) := fun s =>
  let '((ops, now), rest) := next_turn (ns_turns s) in
  let c := run_ops ops (ns_card s) in
  (set_card c (set_turns rest s), inr (c, now)).

(** A call of a method of the locked card; its error is a value. *)
Definition on_card {A} (m : Card A) : Nbd (CardError + A) := fun s =>
  let '(c, r) := m (ns_card s) in
  match r with inl CardPanic => (set_card c s, inl CardLockPanic) | _ => (set_card c s, inr r) end.

(** ** Options *)

Definition transmission_flags (status : DeviceStatus) : Z :=
  let flags := Z.lor (Z.lor NBD_FLAG_HAS_FLAGS NBD_FLAG_SEND_FLUSH) NBD_FLAG_SEND_FUA in
  if decide (status = ReadOnlyDevice) then Z.lor flags NBD_FLAG_READ_ONLY else flags.

Definition valid_export_name (name : bytes) : bool := bool_decide (name = []) || bool_decide (name = EXPORT_NAME).

Record InfoRequest := mkInfo { info_name : bytes; information : list Z }.

(** [chunks_exact(2)] read as [u16]s. *)
Fixpoint u16s (l : bytes) : list Z := match l with a :: b :: rest => from_be [a; b] :: u16s rest | _ => [] end.

Definition parse_info_request (data : bytes) : option InfoRequest :=
  if len data <? 6 then None
  else
    let name_length := from_be (take 4 data) in
    let count_offset := 4 + name_length in
    let list_offset := count_offset + 2 in
    if len data <? list_offset then None
    else
      let count := from_be (slice (Z.to_nat count_offset) (Z.to_nat list_offset) data) in
      if negb (list_offset + count * 2 =? len data) then None
      else Some (mkInfo (slice 4 (Z.to_nat count_offset) data) (u16s (drop (Z.to_nat list_offset) data))).

Definition option_reply (option kind : Z) (data : bytes) : Nbd unit :=
  write_u64 NBD_OPTION_REPLY_MAGIC ;^
  write_u32 option ;^
  write_u32 kind ;^
  write_u32 (len data mod 2 ^ 32) ;^
  nbd_write_all data.

Definition export_info (c : SdCard) : bytes :=
  put_u16 NBD_INFO_EXPORT ++ put_u64 (size_bytes (device (sd_profile c))) ++ put_u16 (transmission_flags (sd_status c)).
Definition block_size_info (c : SdCard) : bytes :=
  let logical := default 4096 (u32_try_from (logical_block_bytes (device (sd_profile c)))) in
  put_u16 NBD_INFO_BLOCK_SIZE ++ put_u32 512 ++ put_u32 (Z.max logical 4096) ++ put_u32 MAX_REQUEST_BYTES.

(** What an option does to the loop: [Some] ends the negotiation. *)
Definition handle_option (no_zeroes : bool) (option : Z) (data : bytes) : Nbd (Datatypes.option (Datatypes.option Z)) :=
  if option =? NBD_OPT_EXPORT_NAME then
    if negb (valid_export_name data) then protocol_error "unknown NBD export"
    else
      let^ cn := lock_card in
      write_u64 (size_bytes (device (sd_profile cn.1))) ;^
      write_u16 (transmission_flags (sd_status cn.1)) ;^
      (if no_zeroes then em_ret tt else nbd_write_all (replicate 124 0)) ;^
      em_ret (Some (Some (sd_generation cn.1)))
  else if option =? NBD_OPT_ABORT then
    (if bool_decide (data = []) then option_reply option NBD_REP_ACK []
     else option_reply option NBD_REP_ERR_INVALID (bstr "ABORT has data")) ;^
    em_ret (Some None)
  else if option =? NBD_OPT_LIST then
    if negb (bool_decide (data = [])) then option_reply option NBD_REP_ERR_INVALID (bstr "LIST has data") ;^ em_ret None
    else
      option_reply option NBD_REP_SERVER (put_u32 (len EXPORT_NAME) ++ EXPORT_NAME ++ bstr "FTW deterministic SD-card emulator") ;^
      option_reply option NBD_REP_ACK [] ;^
      em_ret None
  else if (option =? NBD_OPT_INFO) || (option =? NBD_OPT_GO) then
    match parse_info_request data with
    | None => option_reply option NBD_REP_ERR_INVALID (bstr "invalid INFO/GO") ;^ em_ret None
    | Some request =>
        if negb (valid_export_name (info_name request)) then
          option_reply option NBD_REP_ERR_UNKNOWN (bstr "unknown export") ;^ em_ret None
        else
          let^ cn := lock_card in
          option_reply option NBD_REP_INFO (export_info cn.1) ;^
          (if bool_decide (NBD_INFO_BLOCK_SIZE ∈ information request) then option_reply option NBD_REP_INFO (block_size_info cn.1)
           else em_ret tt) ;^
          option_reply option NBD_REP_ACK [] ;^
          em_ret (if option =? NBD_OPT_GO then Some (Some (sd_generation cn.1)) else None)
    end
  else option_reply option NBD_REP_ERR_UNSUP (bstr "unsupported option") ;^ em_ret None.

Fixpoint negotiate_options (fuel : nat) (no_zeroes : bool) : Nbd (option Z) :=
  match fuel with
  | O => em_err OutOfFuel
  | S fuel =>
      let^ magic := read_u64 in
      if negb (magic =? NBD_OPTIONS_MAGIC) then protocol_error "invalid NBD option magic"
      else
        let^ option := read_u32 in
        let^ length := read_u32 in
        if MAX_OPTION_BYTES <? length then protocol_error "NBD option is too large"
        else
          let^ data := nbd_read_exact (Z.to_nat length) in
          let^ ended := handle_option no_zeroes option data in
          match ended with Some result => em_ret result | None => negotiate_options fuel no_zeroes end
  end.

Definition negotiate (fuel : nat) : Nbd (option Z) :=
  write_u64 NBD_MAGIC ;^
  write_u64 NBD_OPTIONS_MAGIC ;^
  write_u16 (Z.lor NBD_FLAG_FIXED_NEWSTYLE NBD_FLAG_NO_ZEROES) ;^
  let^ client_flags := read_u32 in
  let known_flags := Z.lor NBD_FLAG_FIXED_NEWSTYLE NBD_FLAG_NO_ZEROES in
  if negb (Z.ldiff client_flags known_flags =? 0) || (Z.land client_flags NBD_FLAG_FIXED_NEWSTYLE =? 0) then
    protocol_error "unsupported client handshake flags"
  else negotiate_options fuel (negb (Z.land client_flags NBD_FLAG_NO_ZEROES =? 0)).

(** ** Requests *)

Record RequestHeader := mkHeader {
  rh_magic : Z; rh_flags : Z; rh_command : Z; rh_cookie : Z; rh_offset : Z; rh_length : Z
}.

Definition is_disconnect (kind : string) : bool :=
  bool_decide (kind ∈ ["UnexpectedEof"; "ConnectionReset"; "ConnectionAborted"; "BrokenPipe"]%string).

(** [None] at a disconnection. *)
Definition unless_disconnected {A} (m : Nbd (option A)) : Nbd (option A) := fun s =>
  match m s with
  | (s', inl (StreamError kind)) => if is_disconnect kind then (s', inr None) else (s', inl (StreamError kind))
  | other => other
  end.

Definition parse_request_header (b : bytes) : RequestHeader :=
  mkHeader (from_be (slice 0 4 b)) (from_be (slice 4 6 b)) (from_be (slice 6 8 b)) (from_be (slice 8 16 b))
    (from_be (slice 16 24 b)) (from_be (slice 24 28 b)).

Definition read_request_header : Nbd (option RequestHeader) :=
  let^ first := unless_disconnected read_one in
  match first with
  | None => em_ret None
  | Some first => unless_disconnected (let^ rest := nbd_read_exact 27 in em_ret (Some (parse_request_header (first :: rest))))
  end.

Definition simple_reply (cookie error : Z) (data : option bytes) : Nbd unit :=
  write_u32 NBD_SIMPLE_REPLY_MAGIC ;^
  write_u32 error ;^
  write_u64 cookie ;^
  match data with Some data => if error =? 0 then nbd_write_all data else em_ret tt | None => em_ret tt end.

Definition no_reply_data (r : CardError + unit) : CardError + option bytes := match r with inl e => inl e | inr _ => inr None end.

(** The [match] on the command. *)
Definition run_request (h : RequestHeader) (write_data : bytes) : Nbd (CardError + option bytes) :=
  if (rh_command h =? NBD_CMD_READ) && (rh_flags h =? 0) then
    let^ cn := lock_card in
    let^ r := on_card (card_read cn.2 (rh_offset h) (rh_length h)) in
    em_ret (match r with inl e => inl e | inr data => inr (Some data) end)
  else if (rh_command h =? NBD_CMD_WRITE) && (Z.ldiff (rh_flags h) NBD_CMD_FLAG_FUA =? 0) then
    let^ cn := lock_card in
    let^ r := on_card (card_write cn.2 (rh_offset h) write_data (negb (Z.land (rh_flags h) NBD_CMD_FLAG_FUA =? 0))) in
    em_ret (no_reply_data r)
  else if (rh_command h =? NBD_CMD_FLUSH) && (rh_flags h =? 0) && (rh_length h =? 0) then
    let^ cn := lock_card in
    let^ r := on_card (card_flush cn.2) in
    em_ret (no_reply_data r)
  else em_ret (inl (DeviceError CodeInvalid "unsupported NBD command or flags")).

(** One round of the loop; [true] when the session goes on. *)
Definition transmission_round (generation : Z) : Nbd bool :=
  let^ cn := lock_card in
  if negb (sd_generation cn.1 =? generation) || bool_decide (sd_status cn.1 = Offline) then em_ret false
  else
    let^ header := read_request_header in
    match header with
    | None => em_ret false
    | Some h =>
        if negb (rh_magic h =? NBD_REQUEST_MAGIC) then protocol_error "invalid NBD request magic"
        else if MAX_REQUEST_BYTES <? rh_length h then protocol_error "NBD request is too large"
        else
          let^ write_data := if rh_command h =? NBD_CMD_WRITE then nbd_read_exact (Z.to_nat (rh_length h)) else em_ret [] in
          if rh_command h =? NBD_CMD_DISC then em_ret false
          else
            let^ result := run_request h write_data in
            match result with
            | inr data => simple_reply (rh_cookie h) 0 data ;^ em_ret true
            | inl (DeviceError code message) =>
                if disconnects (DeviceError code message) then em_ret false
                else simple_reply (rh_cookie h) (errno code) None ;^ em_ret true
            | inl CardPanic => em_err CardLockPanic
            end
    end.

Fixpoint transmission (fuel : nat) (generation : Z) : Nbd unit :=
  match fuel with
  | O => em_err OutOfFuel
  | S fuel => let^ more := transmission_round generation in if more : bool then transmission fuel generation else em_ret tt
  end.

(** A round and an option take at least one byte of the stream each. *)
Definition serve_stream : Nbd unit :=
  let^ s := em_get in
  let fuel := S (length (ns_in s)) in
  let^ negotiated := negotiate fuel in
  match negotiated with None => em_ret tt | Some generation => transmission fuel generation end.
