(* ===== verification/NbdProps.v ===== *)
(** * NbdProps: what a session of the NBD server serves *)
From S2P Require Import Prelude Errors Bytes Model Effects Wire ProtocolInv SdProfile SdCard SdCardInv SdCardRun SdCardKeep SdProps Nbd.

(** ** The protocol, message by message *)

(** What a client sends for a request. *)
Definition header_bytes (h : RequestHeader) : bytes :=
  put_u32 (rh_magic h) ++ put_u16 (rh_flags h) ++ put_u16 (rh_command h) ++ put_u64 (rh_cookie h) ++ put_u64 (rh_offset h) ++ put_u32 (rh_length h).
Definition encode_request (rq : RequestHeader * bytes) : bytes := header_bytes rq.1 ++ rq.2.

Definition request_typed (rq : RequestHeader * bytes) : Prop :=
  let h := rq.1 in
  rh_magic h = NBD_REQUEST_MAGIC /\ is_u16 (rh_flags h) /\ is_u16 (rh_command h) /\ is_u64 (rh_cookie h) /\ is_u64 (rh_offset h)
  /\ 0 <= rh_length h <= MAX_REQUEST_BYTES
  /\ (if rh_command h =? NBD_CMD_WRITE then len rq.2 = rh_length h else rq.2 = []).

(** The operation a request stands for. *)
Definition request_op (h : RequestHeader) (data : bytes) : option (Z -> CardOp) :=
  if (rh_command h =? NBD_CMD_READ) && (rh_flags h =? 0) then Some (fun now => OpRead now (rh_offset h) (rh_length h))
  else if (rh_command h =? NBD_CMD_WRITE) && ((rh_flags h =? 0) || (rh_flags h =? 1)) then
    Some (fun now => OpWrite now (rh_offset h) data (rh_flags h =? 1))
  else if (rh_command h =? NBD_CMD_FLUSH) && (rh_flags h =? 0) && (rh_length h =? 0) then Some OpFlush
  else None.

Definition reply_bytes (cookie error : Z) (data : bytes) : bytes := put_u32 NBD_SIMPLE_REPLY_MAGIC ++ put_u32 error ++ put_u64 cookie ++ data.
(** The reply to a result; none when the card is gone. *)
Definition reply_for (h : RequestHeader) (r : CardError + bytes) : option bytes :=
  match r with
  | inr data => Some (reply_bytes (rh_cookie h) 0 data)
  | inl (DeviceError code m) => if disconnects (DeviceError code m) then None else Some (reply_bytes (rh_cookie h) (errno code) [])
  | inl CardPanic => None
  end.

(** The replies to a list of requests and the card at the end, with what others
    do in between. *)
Fixpoint answers (generation : Z) (turns : list (list CardOp * Z)) (c : SdCard) (reqs : list (RequestHeader * bytes)) : bytes * SdCard :=
  let '((ops, _), turns) := next_turn turns in
  let c := run_ops ops c in
  if negb (sd_generation c =? generation) || bool_decide (sd_status c = Offline) then ([], c)
  else match reqs with
       | [] => ([], c)
       | (h, data) :: reqs =>
           if rh_command h =? NBD_CMD_DISC then ([], c)
           else match request_op h data with
                | None => let '(out, c) := answers generation turns c reqs in (reply_bytes (rh_cookie h) (errno CodeInvalid) [] ++ out, c)
                | Some op =>
                    let '((ops, now), turns) := next_turn turns in
                    let '(c, r) := run_op (op now) (run_ops ops c) in
                    match reply_for h r with
                    | None => ([], c)
                    | Some reply => let '(out, c) := answers generation turns c reqs in (reply ++ out, c)
                    end
                end
       end.

(** ** Rounds *)

Lemma length_header h : length (header_bytes h) = 28%nat.
Proof. reflexivity. Qed.

Lemma parse_header h d : request_typed (h, d) -> parse_request_header (header_bytes h) = h.
Proof.
  intros (Hm & Hf & Hc & Hk & Ho & Hl & _). destruct h as [m f c k o l]. cbn in *. unfold parse_request_header.
  change (mkHeader (from_be (to_be 4 m)) (from_be (to_be 2 f)) (from_be (to_be 2 c)) (from_be (to_be 8 k)) (from_be (to_be 8 o)) (from_be (to_be 4 l))
          = mkHeader m f c k o l).
  unfold is_u16, is_u64, MAX_REQUEST_BYTES in *. subst m.
  by rewrite !from_to_be by (cbn -[Z.pow]; unfold NBD_REQUEST_MAGIC; lia).
Qed.

Lemma read_header_run h d rest e o t c : request_typed (h, d) ->
  read_request_header (mkSession (header_bytes h ++ rest) e o None t c) = (mkSession rest e o None t c, inr (Some h)).
Proof.
  intros Ht. rewrite <- (parse_header h d Ht) at 2. pose proof (length_header h) as Hl. destruct (header_bytes h) as [|b bs]; [done|].
  unfold read_request_header, em_bind. cbn [read_one unless_disconnected ns_in app set_in].
  unfold unless_disconnected, read_one. cbn [ns_in app]. unfold em_bind, nbd_read_exact. cbn [set_in ns_in ns_end ns_out ns_room ns_turns ns_card].
  injection Hl as Hl. rewrite length_app, Hl. cbn [Nat.leb Nat.add]. rewrite <- Hl, take_app_length, drop_app_length. done.
Qed.

Lemma reply_run cookie error data i e o t c : error = 0 \/ data = None ->
  simple_reply cookie error data (mkSession i e o None t c)
  = (mkSession i e (o ++ reply_bytes cookie error (default [] data)) None t c, inr tt).
Proof.
  intros He. unfold simple_reply, reply_bytes, em_bind, write_u32, write_u64, nbd_write_all, set_out. cbn [ns_room ns_in ns_end ns_turns ns_card ns_out].
  destruct data as [data|].
  - destruct He as [->|]; [|done]. cbn [Z.eqb default ns_room]. by rewrite !app_assoc.
  - cbn [default]. unfold em_ret. by rewrite !app_assoc, app_nil_r.
Qed.

Lemma flags_fua f : 0 <= f -> (Z.ldiff f NBD_CMD_FLAG_FUA =? 0) = (f =? 0) || (f =? 1).
Proof.
  intros Hf. change NBD_CMD_FLAG_FUA with (Z.ones 1). rewrite Z.ldiff_ones_r, Z.shiftl_mul_pow2, Z.shiftr_div_pow2 by lia.
  destruct (_ =? 0) eqn:E; symmetry; [apply Z.eqb_eq in E; apply orb_true_iff; rewrite !Z.eqb_eq|apply Z.eqb_neq in E; apply orb_false_iff; rewrite !Z.eqb_neq].
  - change (2 ^ 1) with 2 in *. pose proof (Z.mod_pos_bound f 2). pose proof (Z.div_mod f 2). lia.
  - change (2 ^ 1) with 2 in *. split; intros ->; by apply E.
Qed.
Lemma flag_set f : f = 0 \/ f = 1 -> negb (Z.land f NBD_CMD_FLAG_FUA =? 0) = (f =? 1).
Proof. by intros [->| ->]. Qed.

(** The result of a request, against the result of its operation. *)
Definition result_of (r : CardError + bytes) (r' : CardError + option bytes) : Prop :=
  match r, r' with inl e, inl e' => e = e' | inr data, inr data' => data = default [] data' | _, _ => False end.

Lemma on_card_run {A} (m : Card A) i e o t c c' r : m c = (c', r) -> (r = inl CardPanic -> False) ->
  on_card m (mkSession i e o None t c) = (mkSession i e o None t c', inr r).
Proof. intros E Hr. unfold on_card. cbn [ns_card]. rewrite E. destruct r as [[code m'|]|a]; [done|by destruct Hr|done]. Qed.

Lemma lock_run i e o t c :
  lock_card (mkSession i e o None t c)
  = (mkSession i e o None (next_turn t).2 (run_ops (next_turn t).1.1 c), inr (run_ops (next_turn t).1.1 c, (next_turn t).1.2)).
Proof. unfold lock_card. cbn [ns_turns]. by destruct (next_turn t) as [[ops now] t']. Qed.

(** A locked call that stands for [op]. *)
Lemma locked_run {A} (m : Z -> Card A) (op : Z -> CardOp) (out : CardError + A -> CardError + option bytes) i e o t c :
  card_sound c -> Forall (fun turn => Forall op_typed turn.1) t -> (forall now, op_typed (op now)) ->
  (forall now c c' r, m now c = (c', r) -> exists r0, run_op (op now) c = (c', r0) /\ (r = inl CardPanic -> r0 = inl CardPanic) /\ result_of r0 (out r)) ->
  let '((ops, now), t') := next_turn t in
  let '(c', r) := run_op (op now) (run_ops ops c) in
  card_sound c' /\ (r = inl CardPanic -> False) /\ exists r', (let^ cn := lock_card in let^ r := on_card (m cn.2) in em_ret (out r)) (mkSession i e o None t c)
                           = (mkSession i e o None t' c', inr r') /\ result_of r r'.
Proof.
  intros Hok Ht Hop Hm. destruct (next_turn t) as [[ops now] t'] eqn:En.
  assert (Hops : Forall op_typed ops).
  { destruct t as [|[ops0 now0] t]; cbn in En; injection En as <- <- <-; [constructor|]. by apply Forall_cons in Ht as [Ht _]. }
  pose proof (proj1 (run_ops_sound ops c Hok Hops)) as Hok1. destruct (m now (run_ops ops c)) as [c' r] eqn:E.
  destruct (Hm _ _ _ _ E) as (r0 & E0 & Hp & Hres). rewrite E0. apply run_op_sound in E0 as Hd; [|done|done]. destruct Hd as [Hok' _].
  assert (Hnp : r0 = inl CardPanic -> False) by (intros ->; exact (run_op_no_panic _ _ _ Hok1 (Hop now) E0)).
  split; [done|]. split; [done|]. exists (out r). split; [|done]. rewrite (em_bind_run _ _ _ _ _ (lock_run i e o t c)), En. cbn [fst snd].
  rewrite (em_bind_run _ _ _ _ r (on_card_run (m now) i e o t' _ c' r E (fun Hr => Hnp (Hp Hr)))).
  done.
Qed.

Lemma run_request_run h d i e o t c :
  card_sound c -> request_typed (h, d) -> Forall (fun turn => Forall op_typed turn.1) t ->
  match request_op h d with
  | None => run_request h d (mkSession i e o None t c)
            = (mkSession i e o None t c, inr (inl (DeviceError CodeInvalid "unsupported NBD command or flags")))
  | Some op =>
      let '((ops, now), t') := next_turn t in
      let '(c', r) := run_op (op now) (run_ops ops c) in
      card_sound c' /\ (r = inl CardPanic -> False) /\ exists r', run_request h d (mkSession i e o None t c) = (mkSession i e o None t' c', inr r') /\ result_of r r'
  end.
Proof.
  intros Hok (_ & Hf & _ & _ & Ho & Hl & _) Ht. cbn in Hf, Ho, Hl. unfold request_op, run_request. destruct (_ && (rh_flags h =? 0)) eqn:E1.
  - apply (locked_run (fun now => card_read now (rh_offset h) (rh_length h)) (fun now => OpRead now (rh_offset h) (rh_length h))
             (fun r => match r with inl e => inl e | inr data => inr (Some data) end)); [done|done|split; [apply Ho|lia]|].
    intros now c0 c' r E. exists r. split; [done|]. split; [by intros ->|]. by destruct r.
  - rewrite flags_fua by apply Hf. destruct (_ && (_ || _)) eqn:E2.
    + apply andb_true_iff in E2 as [_ E2]. apply orb_true_iff in E2. rewrite !Z.eqb_eq in E2. rewrite flag_set by done.
      apply (locked_run (fun now => card_write now (rh_offset h) d (rh_flags h =? 1)) (fun now => OpWrite now (rh_offset h) d (rh_flags h =? 1)) no_reply_data);
        [done|done|intros; apply Ho|].
      intros now c0 c' r E. cbn [run_op]. unfold no_data, em_bind. rewrite E. destruct r as [e'|u]; eexists; (split; [done|]); (split; [by intros [= ->]|done]).
    + destruct (_ && _ && _) eqn:E3; [|done]. apply (locked_run card_flush OpFlush no_reply_data); [done|done|done|].
      intros now c0 c' r E. cbn [run_op]. unfold no_data, em_bind. rewrite E. destruct r as [e'|u]; eexists; (split; [done|]); (split; [by intros [= ->]|done]).
Qed.

Lemma payload_run h d rest e o t c : request_typed (h, d) ->
  (if rh_command h =? NBD_CMD_WRITE then nbd_read_exact (Z.to_nat (rh_length h)) else em_ret []) (mkSession (d ++ rest) e o None t c)
  = (mkSession rest e o None t c, inr d).
Proof.
  intros (_ & _ & _ & _ & _ & _ & Hd). cbn in Hd. destruct (_ =? _); [|by subst d].
  unfold nbd_read_exact. cbn [ns_in]. replace (Z.to_nat (rh_length h)) with (length d) by zlia.
  rewrite length_app. destruct (_ <=? _)%nat eqn:E; [|apply Nat.leb_gt in E; lia]. by rewrite take_app_length, drop_app_length.
Qed.

(** The session is over. *)
Definition stale (generation : Z) (c : SdCard) : bool := negb (sd_generation c =? generation) || bool_decide (sd_status c = Offline).

(** The session after the header of a request. *)
Lemma round_run generation h d rest o t c :
  request_typed (h, d) -> let c1 := run_ops (next_turn t).1.1 c in
  stale generation c1 = false ->
  transmission_round generation (mkSession (encode_request (h, d) ++ rest) None o None t c)
  = (if rh_command h =? NBD_CMD_DISC then em_ret false
     else let^ result := run_request h d in
          match result with
          | inr data => simple_reply (rh_cookie h) 0 data ;^ em_ret true
          | inl (DeviceError code message) =>
              if disconnects (DeviceError code message) then em_ret false
              else simple_reply (rh_cookie h) (errno code) None ;^ em_ret true
          | inl CardPanic => em_err CardLockPanic
          end) (mkSession rest None o None (next_turn t).2 c1).
Proof.
  intros Ht c1 Hs. unfold transmission_round. rewrite (em_bind_run _ _ _ _ _ (lock_run _ _ o t c)). cbn [fst]. fold c1. fold (stale generation c1). rewrite Hs.
  unfold encode_request. cbn [fst snd]. rewrite <- app_assoc, (em_bind_run _ _ _ _ _ (read_header_run h d _ _ o _ c1 Ht)).
  destruct Ht as (Hm & Ht). cbn in Hm. rewrite Hm, Z.eqb_refl. cbn [negb]. assert (Hl : (MAX_REQUEST_BYTES <? rh_length h) = false) by (apply Z.ltb_ge, Ht).
  rewrite Hl. by rewrite (em_bind_run _ _ _ _ _ (payload_run h d rest None o _ c1 (conj Hm Ht))).
Qed.

Lemma next_turn_typed t : Forall (fun turn => Forall op_typed turn.1) t ->
  Forall op_typed (next_turn t).1.1 /\ Forall (fun turn => Forall op_typed turn.1) (next_turn t).2.
Proof. intros Ht. destruct t as [|turn t]; [done|]. by apply Forall_cons in Ht. Qed.

Lemma round_stale generation i o t c : stale generation (run_ops (next_turn t).1.1 c) = true ->
  transmission_round generation (mkSession i None o None t c) = (mkSession i None o None (next_turn t).2 (run_ops (next_turn t).1.1 c), inr false).
Proof. intros Hs. unfold transmission_round. rewrite (em_bind_run _ _ _ _ _ (lock_run _ _ o t c)). cbn [fst]. fold (stale generation (run_ops (next_turn t).1.1 c)). by rewrite Hs. Qed.

Lemma round_closed generation o t c :
  transmission_round generation (mkSession [] None o None t c) = (mkSession [] None o None (next_turn t).2 (run_ops (next_turn t).1.1 c), inr false).
Proof. unfold transmission_round. rewrite (em_bind_run _ _ _ _ _ (lock_run _ _ o t c)). by destruct (_ || _). Qed.

Lemma transmission_ends fuel generation s s' : transmission_round generation s = (s', inr false) -> transmission (S fuel) generation s = (s', inr tt).
Proof. intros E. cbn [transmission]. by rewrite (em_bind_run _ _ _ _ _ E). Qed.
Lemma transmission_goes_on fuel generation s s' :
  transmission_round generation s = (s', inr true) -> transmission (S fuel) generation s = transmission fuel generation s'.
Proof. intros E. cbn [transmission]. by rewrite (em_bind_run _ _ _ _ _ E). Qed.

(** What [answers] gives for the first request. *)
Lemma answers_cons generation t c h d reqs :
  let c1 := run_ops (next_turn t).1.1 c in
  answers generation t c ((h, d) :: reqs)
  = if stale generation c1 || (rh_command h =? NBD_CMD_DISC) then ([], c1)
    else match request_op h d with
         | None => let '(out, c2) := answers generation (next_turn t).2 c1 reqs in (reply_bytes (rh_cookie h) (errno CodeInvalid) [] ++ out, c2)
         | Some op =>
             let '((ops, now), t2) := next_turn (next_turn t).2 in
             let '(c2, r) := run_op (op now) (run_ops ops c1) in
             match reply_for h r with
             | None => ([], c2)
             | Some reply => let '(out, c3) := answers generation t2 c2 reqs in (reply ++ out, c3)
             end
         end.
Proof. cbn [answers]. destruct (next_turn t) as [[ops now] t1]. cbn [fst snd]. fold (stale generation (run_ops ops c)). destruct (stale _ _); [done|]. by destruct (_ =? _). Qed.

Lemma round_replies generation h d rest o t c : card_sound c -> request_typed (h, d) -> Forall (fun turn => Forall op_typed turn.1) t ->
  let c1 := run_ops (next_turn t).1.1 c in stale generation c1 = false -> (rh_command h =? NBD_CMD_DISC) = false ->
  exists t2 c2 reply, card_sound c2 /\ Forall (fun turn => Forall op_typed turn.1) t2
    /\ transmission_round generation (mkSession (encode_request (h, d) ++ rest) None o None t c)
       = (mkSession rest None (o ++ default [] reply) None t2 c2, inr (match reply with Some _ => true | None => false end))
    /\ forall reqs, answers generation t c ((h, d) :: reqs)
                    = match reply with None => ([], c2) | Some out => (out ++ (answers generation t2 c2 reqs).1, (answers generation t2 c2 reqs).2) end.
Proof.
  intros Hok Hh Ht c1 Hs Hd. pose proof (next_turn_typed t Ht) as [Hops Ht1]. pose proof (proj1 (run_ops_sound _ c Hok Hops)) as Hok1.
  rewrite round_run by done. rewrite Hd. pose proof (run_request_run h d rest None o _ _ Hok1 Hh Ht1) as Hq. fold c1 in Hq |- *.
  setoid_rewrite answers_cons. fold c1. rewrite Hs, Hd. cbn [orb]. destruct (request_op h d) as [op|].
  - pose proof (next_turn_typed _ Ht1) as [_ Ht2]. destruct (next_turn (next_turn t).2) as [[ops2 now2] t2]. cbn [fst snd] in Ht2.
    destruct (run_op _ _) as [c2 r] eqn:Er. destruct Hq as (Hok2 & Hnp & r' & Eq & Hres). exists t2, c2, (reply_for h r). split_and!; [done|done| |].
    + rewrite (em_bind_run _ _ _ _ _ Eq). destruct r as [e0|data], r' as [[code m|]|data']; cbn in Hres; try done; subst; cbn [reply_for].
      * destruct (disconnects _) eqn:Ed; [cbn; by rewrite app_nil_r|].
        by rewrite (em_bind_run _ _ _ _ _ (reply_run _ _ None _ _ _ _ _ (or_intror eq_refl))).
      * by destruct Hnp.
      * by rewrite (em_bind_run _ _ _ _ _ (reply_run _ _ data' _ _ _ _ _ (or_introl eq_refl))).
    + intros reqs. destruct (reply_for h r); [|done]. by destruct (answers _ _ _ _).
  - exists (next_turn t).2, c1, (Some (reply_bytes (rh_cookie h) (errno CodeInvalid) [])). split_and!; [done|done| |].
    + rewrite (em_bind_run _ _ _ _ _ Hq). cbn [disconnects]. by rewrite (em_bind_run _ _ _ _ _ (reply_run _ _ None _ _ _ _ _ (or_intror eq_refl))).
    + intros reqs. by destruct (answers _ _ _ _).
Qed.

Lemma transmission_run reqs : forall fuel generation t c o,
  card_sound c -> Forall request_typed reqs -> Forall (fun turn => Forall op_typed turn.1) t -> (length reqs < fuel)%nat ->
  exists s', transmission fuel generation (mkSession (concat (encode_request <$> reqs)) None o None t c) = (s', inr tt)
             /\ ns_out s' = o ++ (answers generation t c reqs).1 /\ ns_card s' = (answers generation t c reqs).2.
Proof.
  induction reqs as [|[h d] reqs IH]; intros fuel generation t c o Hok Hr Ht Hf; (destruct fuel as [|fuel]; [cbn in Hf; lia|]).
  - eexists. split; [apply transmission_ends, round_closed|]. cbn [answers ns_out ns_card]. destruct (next_turn t) as [[ops now] t1].
    destruct (_ || _); cbn; by rewrite app_nil_r.
  - apply Forall_cons in Hr as [Hh Hr]. cbn [fmap list_fmap concat].
    destruct (stale generation (run_ops (next_turn t).1.1 c) || (rh_command h =? NBD_CMD_DISC)) eqn:Es.
    + rewrite answers_cons, Es. apply orb_true_iff in Es. cbn [fst snd].
      destruct (stale generation (run_ops (next_turn t).1.1 c)) eqn:Est.
      { eexists. split; [by apply transmission_ends, round_stale|]. cbn. by rewrite app_nil_r. }
      eexists. split; [apply transmission_ends; rewrite round_run by done; destruct Es as [|Es]; [done|]; rewrite Es; done|]. cbn. by rewrite app_nil_r.
    + apply orb_false_iff in Es as [Es Ed].
      destruct (round_replies generation h d (concat (encode_request <$> reqs)) o t c Hok Hh Ht Es Ed) as (t2 & c2 & reply & Hok2 & Ht2 & E & Ha).
      rewrite Ha. destruct reply as [reply|].
      * destruct (IH fuel generation t2 c2 (o ++ reply) Hok2 Hr Ht2) as (s' & E' & Ho & Hc); [cbn in Hf; lia|]. exists s'.
        split; [by rewrite (transmission_goes_on _ _ _ _ E)|]. rewrite Ho, Hc. cbn. by rewrite app_assoc.
      * eexists. split; [by apply transmission_ends|done].
Qed.

(** ** Sessions end *)

(** A step that reads forward and has fuel, on a stream of up to [n] bytes. *)
Definition forward_upto {A} (n : nat) (m : Nbd A) : Prop :=
  forall s s' r, (length (ns_in s) <= n)%nat -> m s = (s', r) -> (length (ns_in s') <= length (ns_in s))%nat /\ r <> inl OutOfFuel.
Definition forward {A} (m : Nbd A) : Prop :=
  forall s s' r, m s = (s', r) -> (length (ns_in s') <= length (ns_in s))%nat /\ r <> inl OutOfFuel.

Lemma forward_any {A} n (m : Nbd A) : forward m -> forward_upto n m.
Proof. intros Hm s s' r _. apply Hm. Qed.
Lemma upto_bind {A B} n (m : Nbd A) (k : A -> Nbd B) : forward_upto n m -> (forall a, forward_upto n (k a)) -> forward_upto n (em_bind m k).
Proof.
  intros Hm Hk s s' r Hn E. next E s1 r1 E1. apply Hm in E1 as [Hl Hr]; [|done]. destruct r1 as [e|a].
  - injection E as <- <-. split; [done|]. intros [= ->]. by apply Hr.
  - apply Hk in E as [Hl' Hr']; [|lia]. split; [lia|done].
Qed.
Lemma forward_bind {A B} (m : Nbd A) (k : A -> Nbd B) : forward m -> (forall a, forward (k a)) -> forward (em_bind m k).
Proof.
  intros Hm Hk s s' r E. apply (upto_bind (length (ns_in s)) m k) in E; [done|by apply forward_any|intros a; by apply forward_any|done].
Qed.
Lemma forward_ret {A} (a : A) : forward (em_ret a).
Proof. by intros s s' r [= <- <-]. Qed.
Lemma forward_err {A} e : e <> OutOfFuel -> forward (@em_err _ _ A e).
Proof. intros He s s' r [= <- <-]. split; [done|]. by intros [= ->]. Qed.
Lemma forward_exact n : forward (nbd_read_exact n).
Proof. intros s s' r. unfold nbd_read_exact. destruct (_ <=? _)%nat; intros [= <- <-]; cbn; (split; [rewrite ?length_drop; lia|done]). Qed.
Lemma forward_one : forward read_one.
Proof. intros s s' r. unfold read_one. destruct (ns_in s) eqn:E, (ns_end s); intros [= <- <-]; cbn; rewrite ?E; (split; [cbn; lia|done]). Qed.
Lemma forward_write d : forward (nbd_write_all d).
Proof. intros s s' r. unfold nbd_write_all. destruct (ns_room s); [destruct (_ <=? _)%nat|]; intros [= <- <-]; (split; [cbn; lia|done]). Qed.
Lemma forward_lock : forward lock_card.
Proof. intros s s' r. unfold lock_card. destruct (next_turn _) as [[ops now] t]. by intros [= <- <-]. Qed.
Lemma forward_card {A} (m : Card A) : forward (on_card m).
Proof. intros s s' r. unfold on_card. destruct (m _) as [c [[code msg|]|a]]; by intros [= <- <-]. Qed.
Lemma forward_unless {A} (m : Nbd (option A)) : forward m -> forward (unless_disconnected m).
Proof.
  intros Hm s s' r E. unfold unless_disconnected in E. destruct (m s) as [s1 r1] eqn:E1. apply Hm in E1 as [Hl Hr].
  destruct r1 as [[kind|msg| |]|a]; try (by injection E as <- <-). by destruct (is_disconnect kind); injection E as <- <-.
Qed.

Ltac forward_tac :=
  repeat first [ apply forward_ret | apply forward_exact | apply forward_one | apply forward_write | apply forward_lock | apply forward_card
               | apply forward_unless | apply forward_bind; [|intros ?] | apply forward_err; done
               | match goal with |- forward (if ?x then _ else _) => destruct x end
               | match goal with |- forward (match ?x with _ => _ end) => destruct x end
               | progress unfold read_u32, read_u64, write_u16, write_u32, write_u64, protocol_error, option_reply, simple_reply ].

Lemma forward_option z o d : forward (handle_option z o d).
Proof. unfold handle_option. forward_tac. Qed.
Lemma forward_header : forward read_request_header.
Proof. unfold read_request_header. forward_tac. Qed.
Lemma forward_request h d : forward (run_request h d).
Proof. unfold run_request. forward_tac. Qed.

(** A step that takes a byte leaves less to read for the rest. *)
Lemma taking_bind {A B} n (m : Nbd A) (k : A -> Nbd B) :
  forward m -> (forall s s' a, m s = (s', inr a) -> (length (ns_in s') < length (ns_in s))%nat) ->
  (forall a j, (j < n)%nat -> forward_upto j (k a)) -> forward_upto n (em_bind m k).
Proof.
  intros Hm Ht Hk s s' r Hn E. next E s1 r1 E1. pose proof (Hm _ _ _ E1) as [Hl Hr]. destruct r1 as [e|a].
  - injection E as <- <-. split; [done|]. intros [= ->]. by apply Hr.
  - apply Ht in E1. apply (Hk a (length (ns_in s1))) in E as [Hl' Hr']; [|lia|done]. split; [lia|done].
Qed.
Lemma read_u64_takes s s' a : read_u64 s = (s', inr a) -> (length (ns_in s') < length (ns_in s))%nat.
Proof.
  intros E. apply em_bind_inr in E as (b & s0 & E0 & [= <- _]). revert E0. unfold nbd_read_exact. destruct (8 <=? _)%nat eqn:El; [|done].
  apply Nat.leb_le in El. intros [= <- _]. cbn. rewrite length_drop. lia.
Qed.

Lemma negotiate_options_forward fuel : forall n z, (n < fuel)%nat -> forward_upto n (negotiate_options fuel z).
Proof.
  induction fuel as [|fuel IH]; intros n z Hn; [lia|]. cbn [negotiate_options].
  apply taking_bind; [forward_tac|apply read_u64_takes|]. intros magic j Hj. destruct (negb _); [apply forward_any; forward_tac|].
  apply upto_bind; [apply forward_any; forward_tac|intros option]. apply upto_bind; [apply forward_any; forward_tac|intros length'].
  destruct (_ <? _); [apply forward_any; forward_tac|]. apply upto_bind; [apply forward_any, forward_exact|intros data].
  apply upto_bind; [apply forward_any, forward_option|intros ended]. destruct ended as [res|]; [apply forward_any, forward_ret|apply IH; lia].
Qed.

Lemma header_takes s s' h : read_request_header s = (s', inr (Some h)) -> (length (ns_in s') < length (ns_in s))%nat.
Proof.
  intros E. apply em_bind_inr in E as (first & s1 & E1 & E). destruct first as [b|]; [|done].
  assert (Hrest : (length (ns_in s') <= length (ns_in s1))%nat).
  { eapply forward_unless in E as [H _]; [done|]. forward_tac. }
  assert (H1 : (length (ns_in s1) < length (ns_in s))%nat); [|lia]. revert E1. unfold unless_disconnected, read_one.
  destruct (ns_in s) as [|b' bs] eqn:Ei; [destruct (ns_end s) as [kind|]; [destruct (is_disconnect kind)|]; done|]. intros [= <- _]. cbn. lia.
Qed.

Lemma round_forward generation s s' r : transmission_round generation s = (s', r) ->
  (length (ns_in s') <= length (ns_in s))%nat /\ r <> inl OutOfFuel /\ (r = inr true -> (length (ns_in s') < length (ns_in s))%nat).
Proof.
  intros E. assert (Hf : forward (transmission_round generation)).
  { unfold transmission_round. apply forward_bind; [apply forward_lock|intros cn]. destruct (_ || _); [apply forward_ret|].
    apply forward_bind; [apply forward_header|intros [h|]]; [|apply forward_ret]. forward_tac. apply forward_request. }
  apply Hf in E as HE. destruct HE as [Hl Hr]. split_and!; [done|done|]. intros ->.
  unfold transmission_round in E. apply em_bind_inr in E as (cn & s1 & E1 & E). apply forward_lock in E1 as [Hl1 _].
  destruct (_ || _); [done|]. apply em_bind_inr in E as (header & s2 & E2 & E). destruct header as [h|]; [|done]. apply header_takes in E2.
  assert (Hrest : (length (ns_in s') <= length (ns_in s2))%nat); [|lia]. revert E. match goal with |- ?m s2 = _ -> _ => assert (Hm : forward m) end.
  { forward_tac. apply forward_request. }
  intros E. by apply Hm in E as [H _].
Qed.

Lemma transmission_forward fuel : forall generation s s' r, (length (ns_in s) < fuel)%nat -> transmission fuel generation s = (s', r) -> r <> inl OutOfFuel.
Proof.
  induction fuel as [|fuel IH]; intros generation s s' r Hn E; [lia|]. cbn [transmission] in E. next E s1 r1 E1.
  apply round_forward in E1 as (Hl & Hr & Ht). destruct r1 as [e|more]; [injection E as <- <-; by intros [= ->]|].
  destruct more; [|by injection E as <- <-]. specialize (Ht eq_refl). apply IH in E; [done|lia].
Qed.

Lemma serve_stream_ends s : (serve_stream s).2 <> inl OutOfFuel.
Proof.
  destruct (serve_stream s) as [s' r] eqn:E. cbn. unfold serve_stream in E. next E s0 r0 E0. injection E0 as <- <-. next E s1 r1 E1.
  assert (Hn : forward_upto (length (ns_in s)) (negotiate (S (length (ns_in s))))).
  { unfold negotiate. do 3 (apply upto_bind; [apply forward_any; forward_tac|intros _]). apply upto_bind; [apply forward_any; forward_tac|intros flags].
    destruct (_ || _); [apply forward_any; forward_tac|]. apply negotiate_options_forward. lia. }
  apply Hn in E1 as [Hl Hr]; [|done]. destruct r1 as [e|[generation|]]; [injection E as <- <-; by intros [= ->]| |by injection E as <- <-].
  apply transmission_forward in E; [done|lia].
Qed.

(** ** Whole sessions *)

Definition greeting : bytes := put_u64 NBD_MAGIC ++ put_u64 NBD_OPTIONS_MAGIC ++ put_u16 3.
(** A client that asks for the export by name. *)
Definition client_hello (no_zeroes : bool) (name : bytes) : bytes :=
  put_u32 (if no_zeroes then 3 else 1) ++ put_u64 NBD_OPTIONS_MAGIC ++ put_u32 NBD_OPT_EXPORT_NAME ++ put_u32 (len name) ++ name.
Definition export_reply (no_zeroes : bool) (c : SdCard) : bytes :=
  put_u64 (size_bytes (device (sd_profile c))) ++ put_u16 (transmission_flags (sd_status c)) ++ (if no_zeroes then [] else replicate 124 0).

Lemma exact_run n b rest e o t c : length b = n ->
  nbd_read_exact n (mkSession (b ++ rest) e o None t c) = (mkSession rest e o None t c, inr b).
Proof.
  intros <-. unfold nbd_read_exact. cbn [ns_in]. rewrite length_app. destruct (_ <=? _)%nat eqn:E; [|apply Nat.leb_gt in E; lia].
  by rewrite take_app_length, drop_app_length.
Qed.
Lemma u32_run v rest e o t c : is_u32 v -> read_u32 (mkSession (put_u32 v ++ rest) e o None t c) = (mkSession rest e o None t c, inr v).
Proof.
  intros Hv. unfold read_u32. rewrite (em_bind_run _ _ _ _ _ (exact_run 4 (put_u32 v) rest e o t c (length_to_be 4 v))).
  unfold put_u32. rewrite from_to_be; [done|]. unfold is_u32 in Hv. cbn -[Z.pow]. lia.
Qed.
Lemma u64_run v rest e o t c : is_u64 v -> read_u64 (mkSession (put_u64 v ++ rest) e o None t c) = (mkSession rest e o None t c, inr v).
Proof.
  intros Hv. unfold read_u64. rewrite (em_bind_run _ _ _ _ _ (exact_run 8 (put_u64 v) rest e o t c (length_to_be 8 v))).
  unfold put_u64. rewrite from_to_be; [done|]. unfold is_u64 in Hv. cbn -[Z.pow]. lia.
Qed.
Lemma write_run d i e o t c : nbd_write_all d (mkSession i e o None t c) = (mkSession i e (o ++ d) None t c, inr tt).
Proof. reflexivity. Qed.

Lemma export_option_run no_zeroes name rest o t c : name = [] \/ name = EXPORT_NAME -> let c1 := run_ops (next_turn t).1.1 c in
  handle_option no_zeroes NBD_OPT_EXPORT_NAME name (mkSession rest None o None t c)
  = (mkSession rest None (o ++ export_reply no_zeroes c1) None (next_turn t).2 c1, inr (Some (Some (sd_generation c1)))).
Proof.
  intros Hn c1. unfold handle_option. rewrite Z.eqb_refl. assert (Hv : valid_export_name name = true) by (by destruct Hn as [->| ->]).
  rewrite Hv. cbn [negb]. rewrite (em_bind_run _ _ _ _ _ (lock_run rest None o t c)). cbn [fst]. fold c1. unfold write_u64, write_u16.
  rewrite (em_bind_run _ _ _ _ _ (write_run _ rest None o _ c1)), (em_bind_run _ _ _ _ _ (write_run _ rest None _ _ c1)).
  unfold export_reply. destruct no_zeroes; unfold em_bind; [|rewrite write_run]; unfold em_ret; by rewrite ?app_nil_r, <- ?app_assoc.
Qed.

Lemma negotiate_run fuel no_zeroes name rest o t c : name = [] \/ name = EXPORT_NAME -> let c1 := run_ops (next_turn t).1.1 c in
  negotiate (S fuel) (mkSession (client_hello no_zeroes name ++ rest) None o None t c)
  = (mkSession rest None (o ++ greeting ++ export_reply no_zeroes c1) None (next_turn t).2 c1, inr (Some (sd_generation c1))).
Proof.
  intros Hn c1. assert (Hl : is_u32 (len name)) by (by destruct Hn as [->| ->]; vm_compute).
  unfold negotiate, write_u64, write_u16, client_hello. rewrite <- !app_assoc.
  rewrite (em_bind_run _ _ _ _ _ (write_run _ _ None o t c)), (em_bind_run _ _ _ _ _ (write_run _ _ None _ t c)), (em_bind_run _ _ _ _ _ (write_run _ _ None _ t c)).
  rewrite (em_bind_run _ _ _ _ _ (u32_run (if no_zeroes then 3 else 1) _ None _ t c ltac:(by destruct no_zeroes))).
  assert (Hz : negb (Z.land (if no_zeroes then 3 else 1) NBD_FLAG_NO_ZEROES =? 0) = no_zeroes) by (by destruct no_zeroes). rewrite Hz.
  assert (Hg : negb (Z.ldiff (if no_zeroes then 3 else 1) (Z.lor NBD_FLAG_FIXED_NEWSTYLE NBD_FLAG_NO_ZEROES) =? 0)
               || (Z.land (if no_zeroes then 3 else 1) NBD_FLAG_FIXED_NEWSTYLE =? 0) = false) by (by destruct no_zeroes). rewrite Hg.
  cbn [negotiate_options]. rewrite (em_bind_run _ _ _ _ _ (u64_run NBD_OPTIONS_MAGIC _ None _ t c ltac:(by vm_compute))), Z.eqb_refl. cbn [negb].
  rewrite (em_bind_run _ _ _ _ _ (u32_run NBD_OPT_EXPORT_NAME _ None _ t c ltac:(by vm_compute))).
  rewrite (em_bind_run _ _ _ _ _ (u32_run (len name) _ None _ t c Hl)).
  assert (Hm : (MAX_OPTION_BYTES <? len name) = false) by (by destruct Hn as [->| ->]). rewrite Hm.
  rewrite (em_bind_run _ _ _ _ _ (exact_run (Z.to_nat (len name)) name rest None _ t c ltac:(zlia))).
  rewrite (em_bind_run _ _ _ _ _ (export_option_run no_zeroes name rest _ t c Hn)). fold c1. unfold em_ret, greeting. by rewrite <- !app_assoc.
Qed.

Lemma requests_fit reqs : (length reqs <= length (concat (encode_request <$> reqs)))%nat.
Proof.
  induction reqs as [|[h d] reqs IH]; [done|]. cbn [fmap list_fmap concat length]. rewrite length_app. unfold encode_request at 1. cbn [fst].
  rewrite length_app, length_header. lia.
Qed.

(** C35.  A client that asks for the export and sends requests gets, on a card in
    any state the emulator reaches, whatever other sessions and the control
    socket do between its requests and whatever the calls on the backing file
    do, the greeting, the size and flags of the card, and then exactly one reply
    per request, in order and under its cookie, with the result the card gave:
    data, success or the error number.  The session stops at a disconnect
    request, at the first request the card answers by disconnecting, and when,
    before it waits for a request, it finds the card offline or of another
    generation; it does not look again when the request is there, so a request
    it already waits for is served by the card as it then is.  The card is
    changed by exactly the operations of the requests served. *)
Theorem nbd_sessions_answer_in_order p seed now backing host_calls c0 before turns no_zeroes name reqs :
  profile_typed p -> card_open p seed now backing host_calls = inr c0 -> Forall op_typed before ->
  name = [] \/ name = EXPORT_NAME -> Forall request_typed reqs -> Forall (fun turn => Forall op_typed turn.1) turns ->
  let c := run_ops (before ++ (next_turn turns).1.1) c0 in
  let served := answers (sd_generation c) (next_turn turns).2 c reqs in
  exists s', serve_stream (mkSession (client_hello no_zeroes name ++ concat (encode_request <$> reqs)) None [] None turns (run_ops before c0)) = (s', inr tt)
             /\ ns_out s' = greeting ++ export_reply no_zeroes c ++ served.1 /\ ns_card s' = served.2.
Proof.
  intros Hp Ho Hb Hn Hr Ht c served. apply card_open_ok in Ho; [|done]. pose proof (next_turn_typed _ Ht) as [Hops Ht1].
  assert (Hc : c = run_ops (next_turn turns).1.1 (run_ops before c0)) by (unfold c, run_ops; by rewrite foldl_app).
  assert (Hok : card_sound c) by (apply run_ops_sound; [apply Ho|by apply Forall_app]).
  set (s := mkSession _ _ _ _ _ _). unfold serve_stream. rewrite (em_bind_run _ _ s s s) by done. unfold s at 1 3. cbn [ns_in].
  rewrite (em_bind_run _ _ _ _ _ (negotiate_run _ no_zeroes name _ [] turns _ Hn)), <- Hc.
  destruct (transmission_run reqs (S (length (client_hello no_zeroes name ++ concat (encode_request <$> reqs)))) (sd_generation c) (next_turn turns).2 c
              ([] ++ greeting ++ export_reply no_zeroes c) Hok Hr Ht1) as (s' & E & H1 & H2).
  { rewrite length_app. pose proof (requests_fit reqs). lia. }
  exists s'. split_and!; [exact E| |done]. by rewrite H1, <- app_assoc.
Qed.

(** ** A session *)

Definition demo_request (command cookie offset length : Z) : RequestHeader := mkHeader NBD_REQUEST_MAGIC 0 command cookie offset length.
Definition demo_requests : list (RequestHeader * bytes) :=
  [(demo_request NBD_CMD_WRITE 11 100 3, [1; 2; 3]); (demo_request NBD_CMD_READ 12 99 5, []); (demo_request 9 13 0 0, []);
   (demo_request NBD_CMD_READ 14 1020 8, []); (demo_request NBD_CMD_DISC 15 0 0, [])].
(** Another session flushes after the write. *)
Definition demo_turns : list (list CardOp * Z) := [([], 1); ([], 2); ([], 3); ([OpFlush 4], 5)].

(** The file fails when the second write evicts the first. *)
Definition failing_requests : list (RequestHeader * bytes) :=
  [(demo_request NBD_CMD_WRITE 21 100 3, [1; 2; 3]); (demo_request NBD_CMD_WRITE 22 200 2, [7; 8]); (demo_request NBD_CMD_READ 23 200 2, [])].

Lemma nbd_sessions_answer_in_order_witness :
  (exists s', serve_stream (mkSession (client_hello true EXPORT_NAME ++ concat (encode_request <$> demo_requests)) None [] None demo_turns demo_card) = (s', inr tt)
    /\ ns_out s' = greeting ++ export_reply true demo_card
         ++ reply_bytes 11 0 [] ++ reply_bytes 12 0 [0; 1; 2; 3; 0] ++ reply_bytes 13 22 [] ++ reply_bytes 14 28 [])
  /\ exists s', serve_stream (mkSession (client_hello false [] ++ concat (encode_request <$> failing_requests)) None [] None [] failing_card) = (s', inr tt)
    /\ ns_out s' = greeting ++ export_reply false demo_card ++ reply_bytes 21 0 [] ++ reply_bytes 22 5 [] ++ reply_bytes 23 0 [7; 8].
Proof.
  split.
  - destruct (nbd_sessions_answer_in_order demo_profile 7 0 None [] demo_card [] demo_turns true EXPORT_NAME demo_requests) as (s' & E & Ho & _).
    + split; vm_compute; discriminate.
    + apply demo_card_opens.
    + constructor.
    + right. reflexivity.
    + repeat constructor; vm_compute; try reflexivity; discriminate.
    + repeat constructor.
    + exists s'. split; [exact E|]. rewrite Ho. vm_compute. reflexivity.
  - destruct (nbd_sessions_answer_in_order demo_profile 7 0 None failing_calls failing_card [] [] false [] failing_requests) as (s' & E & Ho & _).
    + split; vm_compute; discriminate.
    + reflexivity.
    + constructor.
    + left. reflexivity.
    + repeat constructor; vm_compute; try reflexivity; discriminate.
    + repeat constructor.
    + exists s'. split; [exact E|]. rewrite Ho. vm_compute. reflexivity.
Defined.

(** A run: the card loses its power and is reset after the session looked at it
    and before the next request is read.  The request is served on the card of
    the new generation. *)
Lemma request_outlives_its_generation :
  let s := mkSession (client_hello true EXPORT_NAME ++ encode_request (demo_request NBD_CMD_WRITE 11 100 3, [1; 2; 3])) None [] None
             [([], 1); ([], 2); ([OpPowerLoss; OpReset], 3)] demo_card in
  ns_out (serve_stream s).1 = greeting ++ export_reply true demo_card ++ reply_bytes 11 0 []
  /\ sd_generation demo_card = 0 /\ sd_generation (ns_card (serve_stream s).1) = 2
  /\ view (ns_card (serve_stream s).1) !! 100%nat = Some 1.
Proof. vm_compute. repeat split. Qed.
