(* ===== verification/Workload.v ===== *)
(** * Workload: the contract of [src/src/workload.rs]

    The limits of a benchmark workload, the contract a workload must keep to be
    written or read, and the transactions it is loaded with.  The generated
    values (sines of [f64]) and the files of a bundle are not modelled. *)
From S2P Require Import Prelude Errors Float64 Utf8 Model Transaction Graph Catalog.

Definition SECOND : Z := 1000000.
Definition DAY : Z := 24 * (60 * (60 * SECOND)).
Definition MAX_WORKLOAD_SITES : Z := 256.
Definition MAX_WORKLOAD_DAYS : Z := 366.
Definition MAX_WORKLOAD_POINTS : Z := 4000000.
Definition MAX_WORKLOAD_ENTITIES : Z := MAX_WORKLOAD_SITES.
Definition MAX_WORKLOAD_SERIES : Z := MAX_WORKLOAD_ENTITIES * 9.
Definition MAX_WORKLOAD_RUNS : Z := MAX_WORKLOAD_ENTITIES * MAX_WORKLOAD_DAYS * 2.
Definition MAX_WORKLOAD_PLANS : Z := MAX_WORKLOAD_ENTITIES * MAX_WORKLOAD_DAYS.
Definition MAX_WORKLOAD_TEXT_BYTES : Z := 1024.
Definition MAX_WORKLOAD_PROPERTIES : Z := 64.
Definition MAX_WORKLOAD_ROLLUP_TIERS : Z := 16.
Definition MAX_WORKLOAD_OBJECTIVE_TERMS : Z := 64.

Record WorkloadConfig := mkWorkloadConfig {
  wc_seed : Z;
  wc_sites : Z;
  wc_days : Z;
  wc_cadence_seconds : Z;
  wc_start_micros : Z;
}.

Definition WorkloadConfig_default : WorkloadConfig := mkWorkloadConfig 0x5741_5454_4442 1 7 60 (1767225600 * SECOND).

Definition expected_point_limit (c : WorkloadConfig) : Result Z :=
  let overflow := InvalidConfig "workload point limit overflows" in
  let? seconds := ok_or (u64_checked_mul (wc_days c) 86400) overflow in
  let? steps := ok_or (if wc_cadence_seconds c =? 0 then None else Some (seconds / wc_cadence_seconds c)) overflow in
  let? telemetry_steps := ok_or (u64_checked_add steps 1) overflow in
  let? telemetry := ok_or (u64_checked_mul telemetry_steps 6) overflow in
  let? extra := ok_or (u64_checked_mul (wc_days c) 816) overflow in
  let? per_site := ok_or (u64_checked_add telemetry extra) overflow in
  ok_or (u64_checked_mul (wc_sites c) per_site) overflow.

Definition WorkloadConfig_validate (c : WorkloadConfig) : Result unit :=
  reject ((wc_sites c =? 0) || (wc_days c =? 0) || (wc_cadence_seconds c =? 0))
    (InvalidConfig "workload sites, days, and cadence must be positive") ;?
  reject (DAY <? wc_cadence_seconds c * SECOND) (InvalidConfig "workload cadence must not exceed one day") ;?
  reject (MAX_WORKLOAD_SITES <? wc_sites c) (InvalidConfig "workload exceeds the 256-site limit") ;?
  reject (MAX_WORKLOAD_DAYS <? wc_days c) (InvalidConfig "workload exceeds the 366-day limit") ;?
  (let? _ := ok_or (i64_checked_add (wc_start_micros c) (wc_days c * DAY)) (InvalidConfig "workload timestamp range overflows") in
   let? limit := expected_point_limit c in
   reject (MAX_WORKLOAD_POINTS <? limit) (InvalidConfig "workload exceeds the four-million-point limit")).

Definition check_count (name : string) (actual expected maximum : Z) : Result unit :=
  reject (maximum <? actual) (InvalidModel (text ("workload " +:+ name +:+ " count exceeds its limit"))) ;?
  reject (negb (actual =? expected)) (InvalidModel (Msg ("workload has {} " +:+ name +:+ "; configuration requires {}") [actual; expected])).

Definition validate_text (v : rstring) : Result unit :=
  reject (MAX_WORKLOAD_TEXT_BYTES <? len (as_bytes v)) (InvalidModel (text "workload text exceeds the 1024-byte limit")).

Definition validate_property (entry : rstring * PropertyValue) : Result unit :=
  validate_text entry.1 ;? match entry.2 with PvText t => validate_text t | _ => Ok tt end.
Definition validate_workload_properties (properties : Properties) : Result unit :=
  reject (MAX_WORKLOAD_PROPERTIES <? Z.of_nat (size properties)) (InvalidModel (text "workload properties exceed the 64-entry limit")) ;?
  for_each validate_property (btree_entries properties).

(** ** The workload *)

Record EnergyWorkload := mkWorkload {
  wl_config : WorkloadConfig;
  wl_entities : list Entity;
  wl_series : list SeriesDefinition;
  wl_runs : list Run;
  wl_plans : list Plan;
  wl_points : list Point;
}.

(** [metadata_transaction]. *)
Definition metadata_transaction (w : EnergyWorkload) : Transaction :=
  let t := foldl (fun t e => upsert_entity e t) Transaction_new (wl_entities w) in
  let t := foldl (fun t s => define_series s t) t (wl_series w) in
  let t := foldl (fun t r => upsert_run r t) t (wl_runs w) in
  foldl (fun t p => upsert_plan p t) t (wl_plans w).

(** [slice::chunks]: [n] is not zero; the fuel is the length of the list. *)
Fixpoint point_chunks {A} (fuel n : nat) (l : list A) : list (list A) :=
  match fuel, l with
  | S fuel, _ :: _ => take n l :: point_chunks fuel n (drop n l)
  | _, _ => []
  end.

Definition point_transactions (w : EnergyWorkload) (batch_points : Z) : Result (list Transaction) :=
  reject (batch_points =? 0) (InvalidConfig "workload transaction batch must be positive") ;?
  Ok (map (fun ps => append_points ps Transaction_new) (point_chunks (length (wl_points w)) (Z.to_nat batch_points) (wl_points w))).

(** ** The contract *)

Section Contract.
Context `{TimeZones}.

(** [ids.insert(id)], an error when the identifier is there already. *)
Definition insert_id (kind : string) (ids : gset Z) (id : Z) : Result (gset Z) :=
  reject (bool_decide (id ∈ ids)) (InvalidModel (Msg ("workload repeats " +:+ kind +:+ " {}") [id])) ;?
  Ok ({[id]} ∪ ids).

Definition contract_entity (ids : gset Z) (e : Entity) : Result (gset Z) :=
  validate_entity e ;?
  let? ids := insert_id "entity" ids (entity_id e) in
  validate_text (entity_kind e) ;?
  validate_text (entity_name e) ;?
  validate_workload_properties (entity_properties e) ;?
  Ok ids.
Definition contract_parent (ids : gset Z) (e : Entity) : Result unit :=
  reject (is_some_and (entity_parent e) (fun p => negb (bool_decide (p ∈ ids))))
    (InvalidModel (Msg "workload entity {} refers to a missing parent" [entity_id e])).

Definition contract_tier (t : RollupTier) : Result unit :=
  match tier_resolution t with Calendar _ zone => validate_text zone | FixedMicros _ => Ok tt end.
Definition contract_series (entity_ids ids : gset Z) (s : SeriesDefinition) : Result (gset Z) :=
  match SeriesDefinition_validate s with
  | Some reason => invalid (text ("invalid workload series: " +:+ reason))
  | None =>
      let? ids := insert_id "series" ids (series_id s) in
      reject (is_none_or (series_owner_entity s) (fun o => negb (bool_decide (o ∈ entity_ids))) || is_some (series_owner_relation s))
        (InvalidModel (Msg "workload series {} has a missing owner" [series_id s])) ;?
      validate_text (series_name s) ;?
      validate_text (series_physical_quantity s) ;?
      validate_text (series_canonical_unit s) ;?
      reject (MAX_WORKLOAD_ROLLUP_TIERS <? len (policy_tiers (series_rollup_policy s)))
        (InvalidModel (text "workload series has too many rollup tiers")) ;?
      for_each contract_tier (policy_tiers (series_rollup_policy s)) ;?
      Ok ids
  end.

Definition contract_run (kinds : gmap Z RunKind) (r : Run) : Result (gmap Z RunKind) :=
  validate_run r ;?
  reject (is_some (kinds !! run_id r)) (InvalidModel (Msg "workload repeats run {}" [run_id r])) ;?
  validate_text (run_workflow r) ;?
  validate_text (run_model r) ;?
  validate_text (run_model_version r) ;?
  validate_workload_properties (run_attributes r) ;?
  Ok (<[run_id r := run_kind r]> kinds).
Definition contract_provenance (kinds : gmap Z RunKind) (r : Run) : Result unit :=
  reject (is_some_and (run_parent_run r) (fun p => negb (contains kinds p)) || is_some_and (run_input_snapshot r) (fun p => negb (contains kinds p)))
    (InvalidModel (Msg "workload run {} has missing provenance" [run_id r])).

Definition contract_plan (kinds : gmap Z RunKind) (ids : gset Z) (p : Plan) : Result (gset Z) :=
  match Plan_validate p with
  | Some reason => invalid (text ("invalid workload plan: " +:+ reason))
  | None =>
      let? ids := insert_id "plan" ids (plan_id p) in
      reject (negb (bool_decide (kinds !! plan_run_id p = Some Optimization)))
        (InvalidModel (Msg "workload plan {} must refer to an optimization run" [plan_id p])) ;?
      validate_text (plan_scenario p) ;?
      reject (MAX_WORKLOAD_OBJECTIVE_TERMS <? Z.of_nat (size (plan_objective_terms p)))
        (InvalidModel (text "workload plan has too many objective terms")) ;?
      for_each validate_text (btree_entries (plan_objective_terms p)).*1 ;?
      validate_workload_properties (plan_attributes p) ;?
      Ok ids
  end.
Definition contract_supersedes (ids : gset Z) (p : Plan) : Result unit :=
  reject (is_some_and (plan_supersedes p) (fun q => negb (bool_decide (q ∈ ids))))
    (InvalidModel (Msg "workload plan {} supersedes a missing plan" [plan_id p])).

Definition contract_point (series_ids : gset Z) (kinds : gmap Z RunKind) (p : Point) : Result unit :=
  reject (negb (bool_decide (series p ∈ series_ids))) (InvalidModel (Msg "workload point refers to undefined series {}" [series p])) ;?
  reject (negb (point_run_id p =? 0) && negb (contains kinds (point_run_id p)))
    (InvalidModel (Msg "workload point refers to missing run {}" [point_run_id p])).

Definition check_counts (w : EnergyWorkload) : Result unit :=
  let sites := wc_sites (wl_config w) in
  let days := wc_days (wl_config w) in
  check_count "entities" (len (wl_entities w)) sites MAX_WORKLOAD_ENTITIES ;?
  check_count "series" (len (wl_series w)) (sites * 9) MAX_WORKLOAD_SERIES ;?
  check_count "runs" (len (wl_runs w)) (sites * days * 2) MAX_WORKLOAD_RUNS ;?
  check_count "plans" (len (wl_plans w)) (sites * days) MAX_WORKLOAD_PLANS ;?
  let? limit := expected_point_limit (wl_config w) in
  reject (limit <? len (wl_points w)) (InvalidModel (text "workload point count exceeds its configuration limit")).

(** [EnergyWorkload::validate_contract]. *)
Definition validate_contract (w : EnergyWorkload) : Result unit :=
  WorkloadConfig_validate (wl_config w) ;?
  check_counts w ;?
  let? entity_ids := try_fold contract_entity ∅ (wl_entities w) in
  for_each (contract_parent entity_ids) (wl_entities w) ;?
  let? series_ids := try_fold (contract_series entity_ids) ∅ (wl_series w) in
  let? run_kinds := try_fold contract_run ∅ (wl_runs w) in
  for_each (contract_provenance run_kinds) (wl_runs w) ;?
  let? plan_ids := try_fold (contract_plan run_kinds) ∅ (wl_plans w) in
  for_each (contract_supersedes plan_ids) (wl_plans w) ;?
  validate_point_intervals (wl_points w) ;?
  for_each (contract_point series_ids run_kinds) (wl_points w).
End Contract.
