(* ===== verification/WorkloadProps.v ===== *)
(** * WorkloadProps: what the contract of a workload guarantees *)
From S2P Require Import Prelude Errors Float64 Utf8 Model Transaction Graph Catalog Workload Instances.

(** ** Identifiers *)

Lemma insert_all_lookup {V} (key : V -> Z) l : forall m k x, insert_all key m l !! k = Some x -> x ∈ l /\ key x = k \/ m !! k = Some x.
Proof.
  induction l as [|y l IH]; intros m k x Hk; [by right|]. apply IH in Hk as [[Hx Hk]|Hk]; [left; by split; [right|]|].
  apply lookup_insert_Some in Hk as [[<- <-]|[_ Hk]]; [left; by split; [left|]|by right].
Qed.
Lemma insert_all_empty {V} (key : V -> Z) l k x : insert_all key ∅ l !! k = Some x -> x ∈ l /\ key x = k.
Proof. intros [Hx|Hx]%insert_all_lookup; [done|by rewrite lookup_empty in Hx]. Qed.
Lemma insert_all_in {V} (key : V -> Z) l x : NoDup (map key l) -> x ∈ l -> insert_all key ∅ l !! key x = Some x.
Proof.
  generalize (∅ : gmap Z V) as m. induction l as [|y l IH]; intros m Hnd Hx; [by apply not_elem_of_nil in Hx|]. apply NoDup_cons in Hnd as [Hy Hnd].
  apply elem_of_cons in Hx as [->|Hx]; [|by apply IH]. change (insert_all key (<[key y := y]> m) l !! key y = Some y).
  rewrite insert_all_other by done. apply lookup_insert_eq.
Qed.
Lemma insert_all_has {V} (key : V -> Z) l k : NoDup (map key l) -> k ∈ map key l -> is_Some (insert_all key ∅ l !! k).
Proof. intros Hnd (x & -> & Hx)%list_elem_of_fmap. rewrite (insert_all_in key l x Hnd Hx). eauto. Qed.

(** A loop that collects the identifiers of a list, each of them once. *)
Section Collect.
Context {S A : Type} (has : S -> Z -> Prop) (id : A -> Z) (Q : A -> Prop) (f : S -> A -> Result S).
Hypothesis step : forall s x s', f s x = Ok s' -> ~ has s (id x) /\ Q x /\ forall k, has s' k <-> has s k \/ k = id x.

Lemma collect_ids l : forall s s', try_fold f s l = Ok s' ->
  NoDup (map id l) /\ (forall x, x ∈ l -> Q x) /\ (forall x, x ∈ l -> ~ has s (id x)) /\ forall k, has s' k <-> has s k \/ k ∈ map id l.
Proof.
  induction l as [|y l IH]; intros s s' E; cbn [try_fold] in E.
  - injection E as <-. split_and!; [constructor|by intros x Hx%not_elem_of_nil..|]. intros k. rewrite elem_of_nil. tauto.
  - apply bind_Ok in E as (s1 & E1 & E). apply step in E1 as (Hn & Hq & H1). apply IH in E as (Hnd & HQ & Hfresh & Hk). split_and!.
    + apply NoDup_cons. split; [|done]. intros (x & Hx & Hin)%list_elem_of_fmap. apply (Hfresh x Hin). apply H1. right. done.
    + intros x [->|Hx]%elem_of_cons; auto.
    + intros x [->|Hx]%elem_of_cons; [done|]. intros Hs. apply (Hfresh x Hx), H1. by left.
    + intros k. rewrite Hk, H1. cbn [map]. rewrite elem_of_cons. tauto.
Qed.
End Collect.

Lemma insert_id_Ok kind ids x ids' : insert_id kind ids x = Ok ids' -> (x ∉ ids) /\ forall k, k ∈ ids' <-> k ∈ ids \/ k = x.
Proof.
  intros E. unfold insert_id in E. ok_inv. match goal with G : bool_decide _ = false |- _ => apply bool_decide_eq_false in G end.
  split; [done|]. set_solver.
Qed.

Section Contract.
Context `{TimeZones}.

Definition plan_attributes_valid (p : Plan) : Prop := validate_properties "plan" (plan_attributes p) = Ok tt.

(** What the contract establishes, list by list. *)
Record keeps_contract (w : EnergyWorkload) : Prop := {
  kc_some : wl_entities w <> [];
  kc_entity : forall e, e ∈ wl_entities w -> validate_entity e = Ok tt;
  kc_entity_ids : NoDup (map entity_id (wl_entities w));
  kc_parent : forall e p, e ∈ wl_entities w -> entity_parent e = Some p -> p ∈ map entity_id (wl_entities w);
  kc_series : forall s, s ∈ wl_series w -> SeriesDefinition_validate s = None;
  kc_series_ids : NoDup (map series_id (wl_series w));
  kc_owner : forall s o, s ∈ wl_series w -> series_owner_entity s = Some o -> o ∈ map entity_id (wl_entities w);
  kc_no_relation : forall s, s ∈ wl_series w -> series_owner_relation s = None;
  kc_run : forall r, r ∈ wl_runs w -> validate_run r = Ok tt;
  kc_run_ids : NoDup (map run_id (wl_runs w));
  kc_provenance : forall r p, r ∈ wl_runs w -> run_parent_run r = Some p \/ run_input_snapshot r = Some p -> p ∈ map run_id (wl_runs w);
  kc_plan : forall p, p ∈ wl_plans w -> Plan_validate p = None;
  kc_plan_ids : NoDup (map plan_id (wl_plans w));
  kc_plan_run : forall p, p ∈ wl_plans w -> exists r, r ∈ wl_runs w /\ run_id r = plan_run_id p /\ run_kind r = Optimization;
  kc_supersedes : forall p q, p ∈ wl_plans w -> plan_supersedes p = Some q -> q ∈ map plan_id (wl_plans w);
  kc_point : forall p, p ∈ wl_points w -> validate_point_interval p = Ok tt /\ series p ∈ map series_id (wl_series w)
    /\ (point_run_id p = 0 \/ point_run_id p ∈ map run_id (wl_runs w));
}.

Lemma entity_step ids e ids' : contract_entity ids e = Ok ids' -> (entity_id e ∉ ids) /\ validate_entity e = Ok tt /\ forall k, k ∈ ids' <-> k ∈ ids \/ k = entity_id e.
Proof. intros E. unfold contract_entity in E. ok_inv. match goal with G : insert_id _ _ _ = _ |- _ => apply insert_id_Ok in G as [] end. done. Qed.

Lemma series_step es ids s ids' : contract_series es ids s = Ok ids' ->
  (series_id s ∉ ids) /\ (SeriesDefinition_validate s = None /\ (exists o, series_owner_entity s = Some o /\ o ∈ es) /\ series_owner_relation s = None)
  /\ forall k, k ∈ ids' <-> k ∈ ids \/ k = series_id s.
Proof.
  intros E. unfold contract_series in E. destruct (SeriesDefinition_validate s); [done|]. ok_inv.
  match goal with G : insert_id _ _ _ = _ |- _ => apply insert_id_Ok in G as [] end. split_and!; [done|done| | |done].
  - match goal with G : _ || _ = false |- _ => apply orb_false_iff in G as [G _]; revert G end.
    destruct (series_owner_entity s) as [o|]; [|done]. cbn. intros G%negb_false_iff%bool_decide_eq_true. by exists o.
  - match goal with G : _ || _ = false |- _ => apply orb_false_iff in G as [_ G]; revert G end. by destruct (series_owner_relation s).
Qed.

Lemma run_step kinds r kinds' : contract_run kinds r = Ok kinds' ->
  ~ is_Some (kinds !! run_id r) /\ validate_run r = Ok tt /\ kinds' = <[run_id r := run_kind r]> kinds.
Proof.
  intros E. unfold contract_run in E. ok_inv. split_and!; [|done|done].
  match goal with G : is_some _ = false |- _ => revert G end. destruct (kinds !! run_id r); [done|]. by intros _ [].
Qed.

Lemma run_step_has kinds r kinds' : contract_run kinds r = Ok kinds' ->
  ~ is_Some (kinds !! run_id r) /\ validate_run r = Ok tt /\ forall k, is_Some (kinds' !! k) <-> is_Some (kinds !! k) \/ k = run_id r.
Proof.
  intros (Hn & Hv & ->)%run_step. split_and!; [done|done|]. intros k. rewrite lookup_insert_is_Some. split; [intros [->|[_ Hk]]; auto|].
  intros [Hk| ->]; [|by left]. destruct (decide (run_id r = k)); auto.
Qed.

Lemma plan_step_ids kinds ids p ids' : contract_plan kinds ids p = Ok ids' ->
  (plan_id p ∉ ids) /\ (Plan_validate p = None /\ kinds !! plan_run_id p = Some Optimization) /\ forall k, k ∈ ids' <-> k ∈ ids \/ k = plan_id p.
Proof.
  intros E. unfold contract_plan in E. destruct (Plan_validate p); [done|]. ok_inv.
  match goal with G : insert_id _ _ _ = _ |- _ => apply insert_id_Ok in G as [] end. split_and!; [done|done| |done].
  match goal with G : negb (bool_decide _) = false |- _ => by apply negb_false_iff, bool_decide_eq_true in G end.
Qed.

Lemma run_kinds_lookup l : forall kinds kinds' k v, try_fold contract_run kinds l = Ok kinds' -> kinds' !! k = Some v ->
  kinds !! k = Some v \/ exists r, r ∈ l /\ run_id r = k /\ run_kind r = v.
Proof.
  induction l as [|r l IH]; intros kinds kinds' k v E Hk; cbn [try_fold] in E; [injection E as <-; by left|].
  apply bind_Ok in E as (k1 & E1 & E). apply run_step in E1 as (_ & _ & ->). apply (IH _ _ k v) in E as [E|(r' & Hr & Hrest)]; [|right; exists r'; by split; [right|]|done].
  apply lookup_insert_Some in E as [[<- <-]|[_ E]]; [right; exists r; by split; [left|]|by left].
Qed.

Lemma counted_sites w : WorkloadConfig_validate (wl_config w) = Ok tt -> check_counts w = Ok tt -> len (wl_entities w) = 0 -> False.
Proof.
  intros Hc Hw Hl. unfold WorkloadConfig_validate in Hc. apply bind_unit_Ok in Hc as [Hc _]. apply reject_Ok, orb_false_iff in Hc as [Hc _].
  apply orb_false_iff in Hc as [Hc _]. apply Z.eqb_neq in Hc. unfold check_counts in Hw. apply bind_unit_Ok in Hw as [Hw _].
  unfold check_count in Hw. apply bind_unit_Ok in Hw as [_ Hw]. apply reject_Ok, negb_false_iff, Z.eqb_eq in Hw. lia.
Qed.

Lemma contract_kept w : validate_contract w = Ok tt -> keeps_contract w.
Proof.
  intros E. unfold validate_contract in E. apply bind_Ok in E as ([] & Econf & E). apply bind_Ok in E as ([] & Ecount & E).
  apply bind_Ok in E as (eids & Ee & E). apply bind_Ok in E as ([] & Epar & E). apply bind_Ok in E as (sids & Es & E).
  apply bind_Ok in E as (kinds & Er & E). apply bind_Ok in E as ([] & Eprov & E). apply bind_Ok in E as (pids & Ep & E).
  apply bind_Ok in E as ([] & Esup & E). apply bind_Ok in E as ([] & Eint & Ept).
  destruct (collect_ids (fun s k => k ∈ s) entity_id _ _ entity_step _ _ _ Ee) as (Hend & Hev & _ & Hek).
  destruct (collect_ids (fun s k => k ∈ s) series_id _ _ (series_step eids) _ _ _ Es) as (Hsnd & Hsv & _ & Hsk).
  destruct (collect_ids (fun (s : gmap Z RunKind) k => is_Some (s !! k)) run_id _ _ run_step_has _ _ _ Er) as (Hrnd & Hrv & _ & Hrk).
  destruct (collect_ids (fun s k => k ∈ s) plan_id _ _ (plan_step_ids kinds) _ _ _ Ep) as (Hpnd & Hpv & _ & Hpk).
  assert (He : forall k, k ∈ eids -> k ∈ map entity_id (wl_entities w)) by (intros k [Hk|Hk]%Hek; [by apply not_elem_of_empty in Hk|done]).
  assert (Hr : forall k, contains kinds k = true -> k ∈ map run_id (wl_runs w)).
  { intros k Hk%contains_spec. apply Hrk in Hk as [Hk|Hk]; [|done]. rewrite lookup_empty in Hk. by destruct Hk. }
  rewrite for_each_Ok in Epar. rewrite for_each_Ok in Eprov. rewrite for_each_Ok in Esup. rewrite for_each_Ok in Ept. pose proof (proj1 (for_each_Ok _ _ _) Eint) as Hint. constructor.
  - intros Hnil. apply (counted_sites w); [done|done|]. by rewrite Hnil.
  - done.
  - done.
  - intros e p Hin Hp. specialize (Epar e Hin). unfold contract_parent in Epar. rewrite Hp in Epar. apply reject_Ok in Epar. cbn in Epar.
    by apply negb_false_iff, bool_decide_eq_true, He in Epar.
  - intros s Hs. by apply Hsv.
  - done.
  - intros s o Hs Ho. destruct (Hsv s Hs) as (_ & (o' & Ho' & Hin) & _). rewrite Ho' in Ho. injection Ho as <-. by apply He.
  - intros s Hs. by apply Hsv.
  - done.
  - done.
  - intros r p Hin Hp. specialize (Eprov r Hin). unfold contract_provenance in Eprov. apply reject_Ok, orb_false_iff in Eprov as [E1 E2].
    destruct Hp as [Hp|Hp]; [rewrite Hp in E1; cbn in E1; by apply negb_false_iff, Hr in E1|rewrite Hp in E2; cbn in E2; by apply negb_false_iff, Hr in E2].
  - intros p Hp. by apply Hpv.
  - done.
  - intros p Hp. destruct (Hpv p Hp) as [_ Hk]. eapply run_kinds_lookup in Hk as [Hk|(r & Hr' & Hid & Hkind)]; [by rewrite lookup_empty in Hk| |exact Er].
    by exists r.
  - intros p q Hin Hq. specialize (Esup p Hin). unfold contract_supersedes in Esup. rewrite Hq in Esup. apply reject_Ok in Esup. cbn in Esup.
    apply negb_false_iff, bool_decide_eq_true, Hpk in Esup as [Hk|Hk]; [by apply not_elem_of_empty in Hk|done].
  - intros p Hin. split; [by apply Hint|]. specialize (Ept p Hin). unfold contract_point in Ept. apply bind_unit_Ok in Ept as [E1 E2].
    apply reject_Ok in E1, E2. apply negb_false_iff, bool_decide_eq_true, Hsk in E1 as [Hk|Hk]; [by apply not_elem_of_empty in Hk|]. split; [done|].
    apply andb_false_iff in E2 as [E2|E2]; apply negb_false_iff in E2; [left; by apply Z.eqb_eq|right; by apply Hr].
Qed.

(** ** Loading *)

(** The catalog a workload describes. *)
Definition workload_catalog (w : EnergyWorkload) : Catalog :=
  mkCatalog (insert_all entity_id ∅ (wl_entities w)) ∅ (insert_all series_id ∅ (wl_series w)) (insert_all run_id ∅ (wl_runs w))
    (insert_all plan_id ∅ (wl_plans w)).

(** What the contract leaves to the catalog: the reference graphs and the
    attributes of plans. *)
Definition loadable (w : EnergyWorkload) : Prop :=
  let c := workload_catalog w in
  (forall id, is_Some (entities c !! id) -> grounded (parent_ref c) id)
  /\ (forall id, is_Some (runs c !! id) -> grounded (run_ref c) id)
  /\ (forall id, is_Some (plans c !! id) -> grounded (plan_ref c) id)
  /\ forall p, p ∈ wl_plans w -> plan_attributes_valid p.

Lemma push_all {A} (r : A -> TxRecord) l : forall t, records (foldl (fun t x => push_record (r x) t) t l) = records t ++ map r l.
Proof. induction l as [|x l IH]; intros t; cbn; [by rewrite app_nil_r|]. rewrite IH. cbn. by rewrite <- app_assoc. Qed.

Lemma metadata_records w :
  records (metadata_transaction w) = map REntity (wl_entities w) ++ map RSeries (wl_series w) ++ map RRun (wl_runs w) ++ map RPlan (wl_plans w).
Proof.
  unfold metadata_transaction, upsert_entity, define_series, upsert_run, upsert_plan.
  rewrite (push_all RPlan), (push_all RRun), (push_all RSeries), (push_all REntity). cbn. by rewrite <- !app_assoc.
Qed.

Lemma metadata_applied w : keeps_contract w -> (forall p, p ∈ wl_plans w -> plan_attributes_valid p) ->
  try_fold apply Catalog_default (records (metadata_transaction w)) = Ok (workload_catalog w).
Proof.
  intros Hk Hp. rewrite metadata_records, try_fold_app, replay_entities by apply Hk. cbn [bind].
  rewrite try_fold_app, replay_series by apply Hk. cbn [bind]. rewrite try_fold_app.
  rewrite replay_runs; [|apply Hk|apply Hk|intros; apply lookup_empty]. cbn [bind].
  rewrite replay_plans; [done|intros p Hin; split; [by apply (kc_plan _ Hk)|by apply Hp]|apply Hk|intros; apply lookup_empty].
Qed.

Lemma metadata_has_no_points c w : for_each (validate_record_points c) (records (metadata_transaction w)) = Ok tt.
Proof.
  apply for_each_Ok. intros r. rewrite metadata_records, !elem_of_app, !list_elem_of_fmap. naive_solver.
Qed.
Lemma metadata_is_metadata w : keeps_contract w -> forallb is_points (records (metadata_transaction w)) = false.
Proof. intros Hk. rewrite metadata_records. pose proof (kc_some _ Hk). by destruct (wl_entities w). Qed.

Lemma catalog_refs w : keeps_contract w -> loadable w -> refs_valid (workload_catalog w).
Proof.
  intros Hk (G1 & G2 & G3 & _). constructor; cbn; [|done| | | | |done| | |done].
  - intros id e p [He _]%insert_all_empty Hp. apply insert_all_has; [apply Hk|]. by eapply kc_parent.
  - intros id r Hr. by rewrite lookup_empty in Hr.
  - intros id s o [Hs _]%insert_all_empty Ho. apply insert_all_has; [apply Hk|]. by eapply kc_owner.
  - intros id s o [Hs _]%insert_all_empty Ho. by rewrite (kc_no_relation _ Hk s Hs) in Ho.
  - intros id r p [Hr _]%insert_all_empty Hp. apply insert_all_has; [apply Hk|]. by eapply kc_provenance.
  - intros id p [Hp _]%insert_all_empty. destruct (kc_plan_run _ Hk p Hp) as (r & Hr & <- & Hkind). exists r. split; [|done].
    apply insert_all_in; [apply Hk|done].
  - intros id p q [Hp _]%insert_all_empty Hq. apply insert_all_has; [apply Hk|]. by eapply kc_supersedes.
Qed.

Lemma applied_records c rs c' : wf_records c -> try_fold apply c rs = Ok c' -> wf_records c'.
Proof. intros Hw. apply try_fold_inv; [|done]. apply apply_wf_records. Qed.

Lemma metadata_accepted w : keeps_contract w ->
  (apply_records Catalog_default (records (metadata_transaction w)) = Ok (Some (workload_catalog w)) <-> loadable w).
Proof.
  intros Hk. pose proof (proj1 wf_catalog_default) as Hd. split.
  - intros Ha. apply apply_records_Some, validate_and_apply_Ok in Ha as (Ht & Hr & _). pose proof (applied_records _ _ _ Hd Ht) as Hw.
    apply validate_references_iff in Hr; [|done]. split_and!; [apply Hr|apply Hr|apply Hr|]. intros p Hp.
    apply (wr_plans _ Hw (plan_id p) p). apply insert_all_in; [apply Hk|done].
  - intros Hl. pose proof (metadata_applied w Hk ltac:(apply Hl)) as Ht. pose proof (applied_records _ _ _ Hd Ht) as Hw.
    unfold apply_records. rewrite metadata_is_metadata by done. rewrite (proj2 (validate_and_apply_Ok _ _ (workload_catalog w))); [done|].
    split_and!; [done|apply validate_references_iff; [done|by apply catalog_refs]|apply metadata_has_no_points].
Qed.

(** ** Points *)

Lemma point_chunks_spec {A} n : (0 < n)%nat -> forall fuel (l : list A), (length l <= fuel)%nat ->
  concat (point_chunks fuel n l) = l /\ Forall (fun b => (0 < length b <= n)%nat) (point_chunks fuel n l).
Proof.
  intros Hn. induction fuel as [|fuel IH]; intros l Hl; [by destruct l; [split; [|constructor]|cbn in Hl; lia]|].
  destruct l as [|x l]; [by split; [|constructor]|]. cbn [point_chunks]. destruct (IH (drop n (x :: l))) as [H1 H2]; [rewrite length_drop; cbn in *; lia|].
  split; [cbn [concat]; rewrite H1; apply take_drop|]. constructor; [rewrite length_take; cbn; lia|done].
Qed.

Lemma batch_accepted w ps : keeps_contract w -> (forall p, p ∈ ps -> p ∈ wl_points w) ->
  apply_records (workload_catalog w) (records (append_points ps Transaction_new)) = Ok None.
Proof.
  intros Hk Hps. cbn. unfold validate_points. assert (Hi : validate_point_intervals ps = Ok tt).
  { apply for_each_Ok. intros p Hp. by apply (kc_point _ Hk p), Hps. }
  rewrite Hi. cbn [bind]. assert (Hc : for_each (check_point (workload_catalog w)) ps = Ok tt); [|by rewrite Hc].
  apply for_each_Ok. intros p Hp. destruct (kc_point _ Hk p (Hps p Hp)) as (_ & Hs & Hr). unfold check_point. apply bind_unit_Ok.
  rewrite !reject_Ok, negb_false_iff, contains_spec. split; [apply insert_all_has; [apply Hk|done]|].
  apply andb_false_iff. rewrite !negb_false_iff, contains_spec. destruct Hr as [Hr|Hr]; [left; by apply Z.eqb_eq|right; apply insert_all_has; [apply Hk|done]].
Qed.

Lemma batches_accepted w n txs : keeps_contract w -> 0 < n -> point_transactions w n = Ok txs ->
  records_points (concat (map records txs)) = wl_points w
  /\ Forall (fun t => 0 < point_count t <= n /\ apply_records (workload_catalog w) (records t) = Ok None) txs.
Proof.
  intros Hk Hn E. unfold point_transactions in E. ok_inv.
  destruct (point_chunks_spec (Z.to_nat n) ltac:(lia) (length (wl_points w)) (wl_points w) ltac:(lia)) as [Hc Hf].
  set (bs := point_chunks _ _ _) in *. split.
  - rewrite <- Hc. clear. induction bs as [|b bs IH]; [done|]. cbn. unfold records_points in *. cbn. by rewrite IH.
  - apply Forall_map. assert (Hin : forall b p, b ∈ bs -> p ∈ b -> p ∈ wl_points w).
    { intros b p Hb Hp. rewrite <- Hc. apply list_elem_of_In, in_concat. exists b. by rewrite <- !list_elem_of_In. }
    apply Forall_forall. intros b Hb. rewrite Forall_forall in Hf. specialize (Hf b Hb). split; [|by apply batch_accepted; [|intros p; by apply Hin]].
    unfold point_count, records_point_count. cbn. zlia.
Qed.
End Contract.

(** C37.  A workload that keeps its contract can be loaded: its metadata transaction
    is accepted by an empty catalog exactly when the reference graphs of
    entities, runs and plans have no cycle and the attributes of its plans are
    valid, and gives the catalog of its records; every batch of its points then
    is accepted, the batches hold between one and [n] points and together
    exactly the points of the workload in order. *)
Theorem valid_workloads_load `{TimeZones} w n :
  validate_contract w = Ok tt -> 0 < n ->
  (apply_records Catalog_default (records (metadata_transaction w)) = Ok (Some (workload_catalog w)) <-> loadable w)
  /\ exists txs, point_transactions w n = Ok txs /\ records_points (concat (map records txs)) = wl_points w
       /\ Forall (fun t => 0 < point_count t <= n /\ apply_records (workload_catalog w) (records t) = Ok None) txs.
Proof.
  intros Hw Hn. apply contract_kept in Hw as Hk. split; [by apply metadata_accepted|]. eexists. split; [|eapply batches_accepted; [done|done|]].
  all: unfold point_transactions; destruct (n =? 0) eqn:E; [apply Z.eqb_eq in E; lia|done].
Qed.

(** ** A workload *)

Definition demo_site : Entity := mkEntity 1 (str "site") (str "site-00000") None 0 None ∅.
Definition demo_site_series (offset : Z) : SeriesDefinition :=
  mkSeries offset (Some 1) None (str "grid_power") (str "power") (str "W") Gauge (Some (3600 * 3 * SECOND)) (mkPolicy (Some (14 * DAY)) []).
Definition demo_run (id : Z) (kind : RunKind) (input : option Z) : Run :=
  mkRun id kind Succeeded 0 0 (str "battery_dispatch") (str "model") (str "1") None input ∅.
Definition demo_plan : Plan := mkPlan 128 2 Deployed 0 DAY (300 * SECOND) (str "base") ∅ None None ∅.
Definition demo_workload_points : list Point := [Point_actual 1 0 0; Point_actual 2 0 0; mkPoint 8 0 0 0 0 1 0 0 0].
Definition demo_workload (runs : list Run) : EnergyWorkload :=
  mkWorkload (mkWorkloadConfig 7 1 1 3600 0) [demo_site] (map demo_site_series (seqZ 1 9)) runs [demo_plan] demo_workload_points.
Definition demo_runs : list Run := [demo_run 1 Forecast None; demo_run 2 Optimization (Some 1)].
Definition demo_cyclic_runs : list Run := [demo_run 1 Forecast (Some 2); demo_run 2 Optimization (Some 1)].

Lemma valid_workloads_load_witness :
  validate_contract (demo_workload demo_runs) = Ok tt
  /\ loadable (demo_workload demo_runs)
  /\ exists txs, point_transactions (demo_workload demo_runs) 2 = Ok txs /\ length txs = 2%nat
       /\ Forall (fun t => apply_records (workload_catalog (demo_workload demo_runs)) (records t) = Ok None) txs.
Proof.
  assert (Hc : validate_contract (demo_workload demo_runs) = Ok tt) by (vm_compute; reflexivity).
  destruct (valid_workloads_load (demo_workload demo_runs) 2 Hc ltac:(lia)) as [Hm (txs & Ht & _ & Hf)].
  split; [exact Hc|]. split; [apply Hm; vm_compute; reflexivity|]. exists txs. split; [exact Ht|]. split.
  - vm_compute in Ht. injection Ht as <-. reflexivity.
  - eapply Forall_impl; [exact Hf|]. intros t [_ H]. exact H.
Defined.

(** A run: two runs that are each other's input keep the contract, and the
    catalog refuses them. *)
Lemma contract_accepts_cycles :
  validate_contract (demo_workload demo_cyclic_runs) = Ok tt
  /\ exists e, apply_records Catalog_default (records (metadata_transaction (demo_workload demo_cyclic_runs))) = Err e.
Proof. split; [vm_compute; reflexivity|]. eexists. vm_compute. reflexivity. Qed.
